(* ===== verification/_CoqProject ===== *)
-Q . S2P
Prelude.v
Memblock.v
MemblockFacts.v
MemblockSpec.v
MemblockFind.v
MemblockResize.v
MemblockProps.v
CText.v
Kstrtox.v
Vsprintf.v
VsprintfFacts.v
TextProps.v
UserNs.v
UserNsFacts.v
UserNsProps.v
Groups.v
GroupsProps.v
PosixAcl.v
InodeAcl.v
PosixAclFacts.v
InodeAclFacts.v
InodeAclProps.v
Resource.v
ResourceFacts.v
ResourceInsert.v
ResourceAlloc.v
ResourceRegion.v
ResourceProps.v
Locks.v
LocksFacts.v
LocksReplace.v
LocksApply.v
LocksProps.v
LocksSafe.v
LocksSystem.v
Semaphore.v
SemaphoreProps.v
Glob.v
GlobProps.v
ListSort.v
ListSortFacts.v
ListSortProps.v
Kfifo.v
KfifoOps.v
KfifoRecords.v
KfifoProps.v
Rwsem.v
RwsemProps.v
SysvSem.v
SysvSemFacts.v
SysvSemQueues.v
SysvSemWake.v
SysvSemCalls.v
SysvSemProps.v
Buddy.v
BuddyFacts.v
BuddyOps.v
BuddyPcp.v
BuddyProps.v
TimerWheel.v
TimerOps.v
TimerRun.v
TimerProps.v
Bootmem.v
BootmemProps.v
RbTree.v
RbTreeRep.v
RbTreeInsert.v
RbTreeErase.v
RbTreeUnlink.v
RbTreeWalk.v
RbTreeProps.v
TimerQueue.v
IntervalTree.v
Crc.v
CrcBody.v
CrcTables.v
CrcValue.v
CrcProps.v
