(* ===== verification/Prelude.v ===== *)
(** * A verification development for the htcup2doa9skch kernel tree

    The tree holds the core of a Linux 3.18 kernel for an HTC phone
    (src/kernel, without drivers and networking) and a few user-space helpers
    (src/platform).  The development models, function by function, algorithmic
    parts of the core kernel that other code relies on and whose correctness
    can be stated without hardware.

    ** Parts, and how they interact

    - The boot-time memory map (mm/memblock.c): two sorted arrays of regions,
      "memory" and "reserved", from which early allocations are served.  Its
      arrays may themselves be allocated from it.
    - The page allocator (mm/page_alloc.c): the free blocks of a zone by order
      and migrate type, split and merged as buddies, with lists of single pages
      per processor in front of them.
    - The hand-over at boot (mm/nobootmem.c): early allocations by address and
      node, and the release of all free memory of the map to the page
      allocator.
    - The timer wheel (kernel/time/timer.c): five arrays of timer lists, finer
      to coarser, from which each tick takes its timers.
    - Red-black trees (lib/rbtree.c, include/linux/rbtree_augmented.h), plain
      and with data kept in the nodes; on them the queues of timers
      (lib/timerqueue.c) and the interval trees
      (include/linux/interval_tree_generic.h, lib/interval_tree.c).
    - System V semaphores (ipc/sem.c): arrays of values with queues of sleeping
      operations, woken by the operations that let them go on.
    - File locks (fs/locks.c): the list of locks of an inode, through which
      processes lock ranges of a file, wait for each other and are woken.
    - User namespaces (kernel/user_namespace.c): maps between the ids a process
      sees and kernel ids, written as text through /proc and parsed with the
      text routines.
    - Access control lists and inode permissions (fs/posix_acl.c and the checks
      of fs/namei.c): lists of entries over kernel ids, stored as extended
      attributes that are translated between namespaces, checked against the
      caller's id and groups.
    - Semaphores (kernel/locking/semaphore.c): a count and a list of sleeping
      tasks, used where a task may sleep for a unit.
    - Reader-writer semaphores (kernel/locking/rwsem-spinlock.c): a lock shared
      by readers, with one list of waiting readers and writers.
    - Resources (kernel/resource.c): trees of address ranges that drivers
      request, insert and allocate from.
    - Byte queues (lib/kfifo.c): ring buffers of elements and of records.
    - Text and numbers (lib/ctype.c, lib/string.c, lib/kstrtox.c, the number
      routines of lib/vsprintf.c): how every sysfs, proc and command line
      interface reads and prints integers.
    - Supplementary groups (kernel/groups.c): a sorted list of kernel group ids
      installed through the caller's namespace, searched by bisection.
    - List sorting (lib/list_sort.c) and glob matching (lib/glob.c).
    - Checksums (lib/crc32.c with the generator of its tables, lib/bitrev.c,
      lib/crc16.c, lib/crc-ccitt.c, lib/crc-itu-t.c, lib/crc7.c, lib/crc8.c).
    The text routines serve the user namespaces, and these serve groups and
    access control lists; the memory map and the page allocator meet in the
    hand-over; the queues of timers and the interval trees use the red-black
    trees; the others stand alone.

    ** Files

    - [Prelude]: outcomes of C functions, machine integers, the tactics, hint
      databases and lemmas on lists and bits the other files share.
    - [Memblock]: struct memblock_region, memblock_type and memblock as records
      and every operation of mm/memblock.c as a function from a state to an
      outcome.  [MemblockFacts], [MemblockSpec]: the invariant, the address map
      an array denotes, and that insertion, isolation, merging and removal act
      on it.  [MemblockFind]: the iterators and the search for free memory.
      [MemblockResize]: array doubling, allocation, searches and limits.
      [MemblockProps]: the theorems.
    - [CText], [Kstrtox], [Vsprintf]: the text routines on lists of bytes, and
      in [Kstrtox] the grammar of numbers; [VsprintfFacts] their lemmas, [TextProps] the theorems.
    - [UserNs]: namespaces in a store, id lookup, parsing and writing of maps,
      setgroups, creation; [UserNsFacts], [UserNsProps]: well-formed maps and
      the theorems, over a step relation of the operations that change a
      namespace.
    - [Groups], [GroupsProps]: sorting, searching, setgroups and getgroups.
    - [PosixAcl]: lists, their check and their edits; [InodeAcl]: extended
      attributes, the cache of an inode, permission checks; [PosixAclFacts],
      [InodeAclFacts]: the shape of valid lists, mode bits, encodings;
      [InodeAclProps]: the theorems.
    - [Resource]: descriptors in a store, requesting, releasing, inserting,
      expanding, adjusting, allocating, busy regions; [ResourceFacts],
      [ResourceInsert], [ResourceAlloc], [ResourceRegion]: well-formed trees
      and each operation's effect; [ResourceProps]: the theorems.
    - [Locks]: the lock list of an inode with its waiters, conversion from and
      to user space, conflicts, POSIX and BSD locking, fcntl; [LocksFacts]:
      what an owner holds, the shape of a list and the loop over an owner's
      locks; [LocksReplace], [LocksApply]: what the loop makes of them;
      [LocksProps]: who waits for whom, and the theorems on one call;
      [LocksSafe]: what a call keeps on any list; [LocksSystem]: every
      sequence of operations on the list of an inode.
    - [Semaphore]: a semaphore with its sleeping tasks, the code between
      sleeps as steps; [SemaphoreProps]: the theorems on finite and infinite
      executions.
    - [Buddy]: a zone as lists of block numbers with their counters and page
      flags, the per-processor lists, and the functions of mm/page_alloc.c on
      them, over a configuration [ZoneConfig]; [BuddyFacts]: blocks, buddies
      and consistent lists; [BuddyOps]: freeing, splitting, stealing;
      [BuddyPcp]: the per-processor lists; [BuddyProps]: the theorems.
    - [Bootmem]: early allocation and the hand-over, on the states of
      [Memblock] and [Buddy]; [BootmemProps]: the blocks that are freed, and
      the theorem.
    - [TimerWheel]: the wheel of one processor, the calls, the cascades, the
      run with handlers as lists of calls, the search for the next timer;
      [TimerOps]: ticks, slots, the invariant and what each operation does to
      it; [TimerRun]: the calls, cascades and runs; [TimerProps]: the theorems,
      over histories of calls and runs.
    - [RbTree]: nodes in a memory, linked by addresses, with parent and colour
      in one word, and the functions on them, over the callbacks that keep the
      data of augmented trees; [RbTreeRep]: trees with a hole, how memory
      represents them, the class [RbAugment] of the callbacks' laws, and
      rotations; [RbTreeInsert], [RbTreeErase], [RbTreeUnlink]: insertion and
      removal; [RbTreeWalk]: the two instances of [RbAugment], walks and
      height; [RbTreeProps]: the theorems, and searching in sorted trees;
      [TimerQueue], [IntervalTree]: the two users and their theorems.
    - [SysvSem]: an array with its queues and undo adjustments, and the calls
      on it; [SysvSemFacts]: one operation; [SysvSemQueues], [SysvSemWake]: the
      shape of the queues and what a scan leaves behind; [SysvSemCalls]: the
      calls; [SysvSemProps]: what every call keeps, and the theorems, over
      sequences of calls.
    - [Rwsem]: a reader-writer semaphore with the position of every task, as
      steps; [RwsemProps]: its invariant and the theorems.
    - [Kfifo]: ring buffers, copies and records; [KfifoOps], [KfifoRecords]:
      contents, copies, framing; [KfifoProps]: the theorems.
    - [ListSort]: nodes in a memory and the merge sort on them;
      [ListSortFacts]: chains and merges; [ListSortProps]: the partial lists
      and the theorem.
    - [Glob]: the matcher and the relation of patterns and strings;
      [GlobProps]: the theorem.
    - [Crc]: the checksums, on buffers in a memory of bytes, with the tables
      as the generator fills them or as literals; [CrcBody]: the step of a bit
      as a linear map, the class [ByteStep] of what eight bytes at a time need
      of the step of a byte, and the routine against it; [CrcTables]: the
      filling of the tables; [CrcValue]: both orders of bits as instances, and
      the message as one number; [CrcProps]: the theorems.

    ** How C is rendered

    Integers are [Z], reduced by [u64], [u32], [s32], ... where the C type
    wraps.  A function that may stop the machine or panic returns an [outcome];
    errors are the negative numbers the code returns, or the left side of a
    sum.  Arrays are lists, pointers kept from a loop are indices, and state is
    passed explicitly.  What C leaves undefined (a shift by the width of the
    type, the use of a freed descriptor) is the outcome [Bug].  Locks,
    barriers, reference counts, the assertions of debugging kernels and tracing
    have no counterpart: each operation is one atomic step.  Allocation success is a
    parameter.  What is not in the tree is a parameter too: the security module
    that decides capabilities ([SecurityModule]), the callbacks of filesystems
    ([inode_operations]), the configuration of memblock ([MemblockConfig], with
    its laws in [MemblockConfigOk]), the conversions to big-endian order
    ([ByteOrder]); constants of the user-space ABI are
    written out.

    ** What the theorems show

    - C1 to C4, memblock: adding changes the address map by exactly the range
      given, keeps the array sorted, disjoint, minimal and its size right; the
      iterators enumerate exactly the free memory; before slabs are up an
      allocation fails exactly when there is no free block or the full array of
      reservations cannot grow, and reserves the block it returns; doubling
      keeps the map, for the array of memory while three more reservations fit
      (two examples show what happens otherwise).  Further theorems: removing, setting nodes and flags,
      errors without room, canonical form, the search, the limit.
    - C5 to C7, page allocator: from boot on, every page is free, cached,
      handed out or in a block found damaged, and only one of them; an allocation fails exactly when no list it may use has
      a block; freeing what was allocated gives back the same blocks.
    - C8, hand-over: the zone starts with exactly the whole pages of memory
      that are not reserved, each once, and counts them; the pages are those of
      one zone, and the memory map has room for two more regions.
    - C9 and C10, timers: a run ends, and runs exactly the timers due, each at
      its tick; a timer armed for a tick runs when that tick has come, within
      its slack.
    - C11, red-black trees: any sequence of insertions, removals and
      replacements keeps a balanced tree whose nodes in order are the sequence
      described.  Further: the walks in order and in postorder.  C12: the
      queue of timers is a stable priority queue.  C13: the interval tree
      finds exactly the intervals that meet a range, in order.
    - C14 to C16, System V semaphores: no operation that could go on is left
      asleep; an operation happens as a whole or not at all; every call returns
      and accounts for every sleeper.
    - C17 to C19, file locks: on a well formed list [__posix_lock_file] gives
      the range of every request the type asked for, as the owner's first locks
      say; the list stays well formed for requests that do not meet the early
      end of its loop (which is shown to be a fault).  In every list reachable
      by any requests, those included, with BSD locks and waiters that give up,
      owners are kept apart and no waiter is lost.  A reported deadlock is
      real, and detection is exact up to eleven waiters.
    - C20, user namespaces: in every reachable state the maps are injections.
      Further: they stay inside the parent's; what an accepted write was
      allowed to be; showing a map and writing it back; denial of setgroups is
      permanent.
    - C21 to C23, access control lists: the access check is the POSIX 1003.1e
      algorithm; the whole permission check; list and mode stay in step, but
      for a chmod that runs out of memory.
      Further: the grammar of valid lists, edits on creation and chmod, the
      attribute round trip and its translation between namespaces.
    - C24 and C25, semaphores: acquisitions never exceed what is available while
      the count fits an int, and
      a task asleep in [down] returns after as many releases as its place in
      the list, if the scheduler runs tasks that were woken.
    - C26, reader-writer semaphores: a writer excludes everybody, and the count
      means what it says.  Further: no wake-up is lost.
    - C27 and C28, resources: inserting and busy regions act on the tree as
      described, keep it well formed, come to an end, and fail only with a
      reason and without a change; for a muxed region this holds up to the
      first sleep, and two examples show what may follow it.  Further:
      allocating, requesting, expanding.
    - C29 to C31, byte queues: the ring is a bounded queue across the wrap of
      its indices; every sequence of operations stays inside the buffer;
      allocation and its errors, with size 0 undefined.  Further: records come back as they went in.
    - C32 to C34, text: the parsers accept exactly the documented grammar with
      its value and overflow behaviour, but for a minus sign before zero, which
      is out of range to them; numbers printed with or without their prefix are
      read back.
      Further: the decimal conversions that avoid division are exact.
    - C35 and C36: the merge sort is a stable sort of the linked list; the glob
      matcher with one level of backtracking agrees with the patterns' meaning.
      Further, for groups: setgroups, getgroups, sorting and membership.
    - C37 to C40, checksums: eight bytes at a time with tables is one bit at a
      time; checksums of parts combine; no burst of errors of up to 32 bits
      goes unseen; the literal tables are those of their polynomials.
    Examples at the ends of the files show where code falls short of what it
    means to do: an overrun by [__kfifo_init], a lost record, a glob class that
    matches the end of the string, a timer that runs without end, a tick that
    is named too late.

    ** Fuel

    Loops that are not structural take fuel.  The array scans of memblock get
    the number of regions plus one, merging the number of regions; array
    doubling, which calls the reservation that may double again, gets enough
    for one doubling of each array, and running out is reported as [NoFuel],
    which the theorems exclude.  The 64-bit conversions take one unit per nine
    decimal digits or per digit in base 8 (22).  The map parser takes the
    length of the text and is shown not to depend on more.  The Shell sort and
    the bisection take the length of the list, shown to be enough.
    Descending and expanding in the resource tree take the size of the store
    plus one; releasing a region its square; both are shown to be enough where
    a theorem says the call returns.  Deadlock detection has the code's own
    bound.  The loops over lock and wait lists are structural.
    The glob matcher takes the product of the lengths; the merges of the list
    sort the number of nodes; the scans of System V queues the length of the
    queue plus one; the run of the wheel one round per tick and one more, for a
    wheel that catches up after its last tick; the per-processor lists the
    number of pages to free; the hand-over the number of pages of a range.
    The loops of the red-black trees take one more
    than the number of nodes in memory, the filling of tables and the appending
    of zero bytes their fixed numbers of rounds.  All are shown to be enough by
    theorems that say the call returns.

    ** Not modelled

    Architecture code, scheduling and the locking primitives on atomic
    instructions, virtual memory, slabs and reclaim, processes and signals, the
    filesystems and the block layer, message queues and shared memory, and
    src/platform: they act on hardware, on devices and services the tree does
    not contain, or need a model of memory ordering.  The rest of lib/ is not
    called by the parts modelled.  Of the modelled files, the parts left out
    are printing to debugfs and the log, early allocations once slabs are up,
    checksums by two, four, eight or 32 bits, seq_file iteration, namespace
    life time (unshare, setns, reference counts), the block layout of group
    lists, format strings of printf and scanf, path walking, walks over system
    RAM and splitting reservations in the resource tree, leases, lock managers
    and the sleep between two attempts to lock a file, watermarks and zone
    lists, timers of other processors and their migration, identifiers and
    permissions of System V objects, and scatter lists of byte queues. *)

From stdpp Require Export base list numbers option sets sorting.
From Stdlib Require Export ZArith Lia.

#[global] Set Default Goal Selector "!".

(** ** Outcomes

    A C function of the tree either returns, stops the machine in a [BUG_ON]
    or a [panic], does what C leaves undefined (an access outside of an
    object, a dangling pointer, a shift by the width of the type), which is
    rendered as [Bug] too, or (an artefact of modelling loops with fuel) runs past the
    number of iterations the model allows. *)

Inductive outcome (A : Type) : Type :=
| Ok (a : A)
| Bug
| Panic
| NoFuel.
Arguments Ok {A} a.
Arguments Bug {A}.
Arguments Panic {A}.
Arguments NoFuel {A}.

Definition obind {A B} (m : outcome A) (f : A -> outcome B) : outcome B :=
  match m with
  | Ok a => f a
  | Bug => Bug
  | Panic => Panic
  | NoFuel => NoFuel
  end.

Declare Scope kernel_scope.
Delimit Scope kernel_scope with kernel.

Notation "'let!' x ':=' m 'in' k" := (obind m (fun x => k))
  (at level 10, x pattern, m at level 100, k at level 200)
  : kernel_scope.
Notation "'bug_on' b 'in' k" := (if b then Bug else k)
  (at level 10, b at level 100, k at level 200)
  : kernel_scope.

#[global] Open Scope Z_scope.
#[global] Open Scope kernel_scope.

(** ** Error numbers of the Linux ABI *)

Definition EPERM : Z := 1.
Definition ENOENT : Z := 2.
Definition EIO : Z := 5.
Definition EAGAIN : Z := 11.
Definition ENOMEM : Z := 12.
Definition EACCES : Z := 13.
Definition EFAULT : Z := 14.
Definition EBUSY : Z := 16.
Definition EINVAL : Z := 22.
Definition ERANGE : Z := 34.
Definition ENOLCK : Z := 37.
Definition EOVERFLOW : Z := 75.
Definition EUSERS : Z := 87.
Definition EDEADLK : Z := 35.
Definition EOPNOTSUPP : Z := 95.

(** ** Machine integers

    Unsigned integers are kept in [Z] and reduced where the C type wraps;
    signed ones are reduced by the two's complement representative. *)

Definition U64_MAX : Z := 18446744073709551615.
Definition U32_MAX : Z := 4294967295.

Definition u64 (x : Z) : Z := x mod (U64_MAX + 1).
Definition u32 (x : Z) : Z := x mod (U32_MAX + 1).
Definition s32 (x : Z) : Z := (x + 2147483648) mod 4294967296 - 2147483648.
Definition s64 (x : Z) : Z :=
  (x + 9223372036854775808) mod 18446744073709551616 - 9223372036854775808.

Definition is_u64 (x : Z) : Prop := 0 <= x <= U64_MAX.
Definition is_u32 (x : Z) : Prop := 0 <= x <= U32_MAX.

Lemma u64_id x : 0 <= x <= U64_MAX -> u64 x = x.
Proof. intros. apply Z.mod_small. unfold U64_MAX in *. lia. Qed.

Lemma u64_range x : is_u64 (u64 x).
Proof.
  unfold is_u64, u64. pose proof (Z.mod_pos_bound x (U64_MAX + 1)).
  unfold U64_MAX in *. lia.
Qed.

Lemma u32_id x : 0 <= x <= U32_MAX -> u32 x = x.
Proof. intros. apply Z.mod_small. unfold U32_MAX in *. lia. Qed.

Lemma s32_id x : -2147483648 <= x < 2147483648 -> s32 x = x.
Proof. intros. unfold s32. rewrite Z.mod_small; lia. Qed.

Lemma s64_id x : -9223372036854775808 <= x < 9223372036854775808 -> s64 x = x.
Proof. intros. unfold s64. rewrite Z.mod_small; lia. Qed.

Lemma u64_wrap_high x : U64_MAX < x <= 2 * U64_MAX + 1 -> u64 x = x - (U64_MAX + 1).
Proof.
  intros. unfold u64. symmetry. apply (Z.mod_unique _ _ 1); unfold U64_MAX in *; lia.
Qed.

Lemma u64_wrap_low x : - (U64_MAX + 1) <= x < 0 -> u64 x = x + (U64_MAX + 1).
Proof.
  intros. unfold u64. symmetry. apply (Z.mod_unique _ _ (-1)); unfold U64_MAX in *; lia.
Qed.

(** ** Arithmetic macros of include/linux/kernel.h, at [u64] *)

Definition clamp (val lo hi : Z) : Z := Z.min (Z.max val lo) hi.
Definition round_mask (y : Z) : Z := u64 (y - 1).
Definition round_up (x y : Z) : Z := u64 (Z.lor (u64 (x - 1)) (round_mask y) + 1).
Definition round_down (x y : Z) : Z := Z.land x (u64 (Z.lnot (round_mask y))).

Lemma pow2_u64 k : 0 <= k < 64 -> 1 <= 2 ^ k <= 9223372036854775808.
Proof.
  intros. split.
  - pose proof (Z.pow_pos_nonneg 2 k). lia.
  - change 9223372036854775808 with (2 ^ 63). apply Z.pow_le_mono_r; lia.
Qed.

Lemma round_mask_pow2 k : 0 <= k < 64 -> round_mask (2 ^ k) = Z.ones k.
Proof.
  intros Hk. unfold round_mask. rewrite Z.ones_equiv, <- Z.sub_1_r.
  pose proof (pow2_u64 k Hk). apply u64_id. unfold U64_MAX. lia.
Qed.

(** On a power of two, [round_down] clears the low bits. *)
Lemma round_down_pow2 k x :
  0 <= k < 64 -> 0 <= x <= U64_MAX -> round_down x (2 ^ k) = x - x mod 2 ^ k.
Proof.
  intros Hk Hx. unfold round_down. rewrite round_mask_pow2 by done.
  assert (u64 (Z.lnot (Z.ones k)) = Z.land (Z.lnot (Z.ones k)) (Z.ones 64)) as ->.
  { unfold u64. change (U64_MAX + 1) with (2 ^ 64). by rewrite Z.land_ones. }
  rewrite Z.land_assoc, (Z.land_ones _ 64) by lia. change (2 ^ 64) with (U64_MAX + 1).
  rewrite <- Z.ldiff_land.
  assert (Z.ldiff x (Z.ones k) = x - x mod 2 ^ k) as ->.
  { rewrite Z.ldiff_ones_r, Z.shiftl_mul_pow2, Z.shiftr_div_pow2 by lia.
    pose proof (Z.div_mod x (2 ^ k)). pose proof (pow2_u64 k Hk). lia. }
  pose proof (pow2_u64 k Hk). pose proof (Z.mod_pos_bound x (2 ^ k) ltac:(lia)).
  pose proof (Z.mod_le x (2 ^ k)). rewrite Z.mod_small; unfold U64_MAX in *; lia.
Qed.

(** On a power of two, [round_up] is the next multiple, modulo [2^64]. *)
Lemma round_up_pow2 k x :
  0 <= k < 64 -> 0 < x <= U64_MAX ->
  round_up x (2 ^ k) = u64 ((x - 1) - (x - 1) mod 2 ^ k + 2 ^ k).
Proof.
  intros Hk Hx. unfold round_up. rewrite round_mask_pow2, (u64_id (x - 1)) by lia || done.
  f_equal. pose proof (pow2_u64 k Hk).
  assert (Z.lor (x - 1) (Z.ones k) = Z.ldiff (x - 1) (Z.ones k) + Z.ones k) as ->.
  { assert (Z.land (Z.ldiff (x - 1) (Z.ones k)) (Z.ones k) = 0).
    { apply Z.bits_inj'. intros n _. rewrite Z.land_spec, Z.ldiff_spec, Z.bits_0.
      by destruct (Z.testbit (x - 1) n), (Z.testbit (Z.ones k) n). }
    rewrite Z.add_nocarry_lxor, Z.lxor_lor by done.
    apply Z.bits_inj'. intros n _. rewrite !Z.lor_spec, Z.ldiff_spec.
    by destruct (Z.testbit (x - 1) n), (Z.testbit (Z.ones k) n). }
  rewrite Z.ldiff_ones_r, Z.shiftl_mul_pow2, Z.shiftr_div_pow2, Z.ones_equiv by lia.
  pose proof (Z.div_mod (x - 1) (2 ^ k)). lia.
Qed.

(** ** Tactics *)

(** [zbool] turns every boolean comparison on [Z] and [nat] in the context
    and the goal into a proposition. *)
Ltac zbool :=
  repeat match goal with
  | H : (_ && _)%bool = true |- _ => apply andb_true_iff in H; destruct H
  | H : (_ || _)%bool = false |- _ => apply orb_false_iff in H; destruct H
  | H : (_ && _)%bool = false |- _ => apply andb_false_iff in H
  | H : (_ || _)%bool = true |- _ => apply orb_true_iff in H
  | H : negb _ = true |- _ => apply negb_true_iff in H
  | H : negb _ = false |- _ => apply negb_false_iff in H
  | H : (_ <? _) = true |- _ => apply Z.ltb_lt in H
  | H : (_ <? _) = false |- _ => apply Z.ltb_ge in H
  | H : (_ <=? _) = true |- _ => apply Z.leb_le in H
  | H : (_ <=? _) = false |- _ => apply Z.leb_gt in H
  | H : (_ >? _) = true |- _ => rewrite Z.gtb_ltb in H
  | H : (_ >? _) = false |- _ => rewrite Z.gtb_ltb in H
  | H : (_ >=? _) = true |- _ => rewrite Z.geb_leb in H
  | H : (_ >=? _) = false |- _ => rewrite Z.geb_leb in H
  | H : (_ =? _) = true |- _ => apply Z.eqb_eq in H
  | H : (_ =? _) = false |- _ => apply Z.eqb_neq in H
  | H : (_ <? _)%nat = true |- _ => apply Nat.ltb_lt in H
  | H : (_ <? _)%nat = false |- _ => apply Nat.ltb_ge in H
  | H : (_ <=? _)%nat = true |- _ => apply Nat.leb_le in H
  | H : (_ <=? _)%nat = false |- _ => apply Nat.leb_gt in H
  | H : (_ =? _)%nat = true |- _ => apply Nat.eqb_eq in H
  | H : (_ =? _)%nat = false |- _ => apply Nat.eqb_neq in H
  end.

(** [case_if] splits on the condition of the first [if] of the goal (or of a
    hypothesis) and reflects it. *)
Ltac case_if :=
  match goal with
  | |- context [if ?b then _ else _] =>
      lazymatch type of b with bool => let E := fresh "E" in destruct b eqn:E end
  end; zbool.

Ltac case_if_in H :=
  match type of H with
  | context [if ?b then _ else _] =>
      lazymatch type of b with bool => let E := fresh "E" in destruct b eqn:E end
  end; zbool.

(** [ulia] is [lia] with the bounds of the machine types unfolded. *)
Ltac ulia := unfold is_u64, is_u32, U64_MAX, U32_MAX in *; lia.

(** [u64_simpl] removes the reductions that do not wrap. *)
Ltac u64_simpl :=
  repeat match goal with
  | |- context [u64 ?e] => rewrite (u64_id e) by ulia
  | H : context [u64 ?e] |- _ => rewrite (u64_id e) in H by ulia
  end.

(** [simpl_ok] inverts equations between outcomes. *)
Ltac simpl_ok :=
  repeat match goal with
  | H : Ok _ = Ok _ |- _ => injection H as H; subst
  | H : Ok _ = _ |- _ => discriminate H
  | H : Bug = _ |- _ => discriminate H
  | H : Panic = _ |- _ => discriminate H
  | H : NoFuel = _ |- _ => discriminate H
  | H : obind ?m _ = Ok _ |- _ =>
      let E := fresh "Em" in destruct m eqn:E; cbn [obind] in H; try discriminate H
  end.

(** [zdec] evaluates the comparisons of the goal that [lia] decides. *)
Ltac zdec :=
  rewrite ?Z.geb_leb, ?Z.gtb_ltb;
  repeat match goal with
  | |- context [?a <=? ?b] =>
      first [rewrite (proj2 (Z.leb_le a b)) by lia | rewrite (proj2 (Z.leb_gt a b)) by lia]
  | |- context [?a <? ?b] =>
      first [rewrite (proj2 (Z.ltb_lt a b)) by lia | rewrite (proj2 (Z.ltb_ge a b)) by lia]
  end.

(** [ok_eq] compares two results component by component. *)
Ltac ok_eq :=
  repeat match goal with
  | |- Ok _ = Ok _ => f_equal
  | |- (_, _) = (_, _) => f_equal
  | |- u64 _ = u64 _ => f_equal
  end; try done; try lia.

(** ** Sorted lists by index *)

Lemma StronglySorted_lookup_2 {A} (R : A -> A -> Prop) (l : list A) :
  (forall i j x y, (i < j)%nat -> l !! i = Some x -> l !! j = Some y -> R x y) ->
  StronglySorted R l.
Proof.
  induction l as [|x l IH]; intros Hl; constructor.
  - apply IH. intros i j y z Hij Hi Hj. by apply (Hl (S i) (S j)); [lia|..].
  - apply Forall_forall. intros y [j Hj]%list_elem_of_lookup.
    by apply (Hl 0%nat (S j)); [lia|..].
Qed.

(** ** Lists addressed at the end of a prefix *)

Section Middle.
Context {A : Type}.
Implicit Types (pre l : list A) (x y : A).

Lemma lookup_mid pre x l : (pre ++ x :: l) !! length pre = Some x.
Proof. by apply list_lookup_middle. Qed.

Lemma lookup_mid_end pre : pre !! length pre = None.
Proof. by apply lookup_ge_None_2. Qed.

Lemma lookup_mid_next pre x y l : (pre ++ x :: y :: l) !! S (length pre) = Some y.
Proof. rewrite lookup_app_r by lia. by replace (S (length pre) - length pre)%nat with 1%nat by lia. Qed.

Lemma lookup_mid_next_end pre x : (pre ++ [x]) !! S (length pre) = None.
Proof. apply lookup_ge_None_2. rewrite length_app. cbn. lia. Qed.

Lemma insert_mid pre x y l : <[length pre := y]> (pre ++ x :: l) = pre ++ y :: l.
Proof. rewrite insert_app_r_alt by lia. by rewrite Nat.sub_diag. Qed.

Lemma alter_mid f pre x l : alter f (length pre) (pre ++ x :: l) = pre ++ f x :: l.
Proof. induction pre; cbn; [done|]. by f_equal. Qed.

Lemma delete_mid_next pre x y l : delete (S (length pre)) (pre ++ x :: y :: l) = pre ++ x :: l.
Proof. induction pre; cbn; [done|]. by f_equal. Qed.

Lemma take_mid pre l : take (length pre) (pre ++ l) = pre.
Proof. apply take_app_length. Qed.

Lemma drop_mid pre l : drop (length pre) (pre ++ l) = l.
Proof. apply drop_app_length. Qed.

Lemma app_snoc pre x l : pre ++ x :: l = (pre ++ [x]) ++ l.
Proof. by rewrite <- app_assoc. Qed.

Lemma length_snoc pre x : length (pre ++ [x]) = S (length pre).
Proof. rewrite length_app. cbn. lia. Qed.

End Middle.

Lemma ldiff_lor_same x y : Z.ldiff (Z.lor x y) y = Z.ldiff x y.
Proof.
  apply Z.bits_inj'. intros n _. rewrite !Z.ldiff_spec, Z.lor_spec.
  by destruct (Z.testbit x n), (Z.testbit y n).
Qed.

(** ** Counting the integers of an interval that satisfy a predicate *)

Definition count_in (P : Z -> bool) (lo hi : Z) : Z :=
  Z.of_nat (length (base.filter (fun x => P x = true) (seqZ lo (hi - lo)))).

Lemma count_in_split P lo mid hi :
  lo <= mid <= hi -> count_in P lo hi = count_in P lo mid + count_in P mid hi.
Proof.
  intros. unfold count_in. replace (hi - lo) with ((mid - lo) + (hi - mid)) by lia.
  rewrite seqZ_app by lia. replace (lo + (mid - lo)) with mid by lia.
  rewrite filter_app, length_app. lia.
Qed.

Lemma filter_ext_in (P Q : Z -> bool) (l : list Z) :
  (forall x, x ∈ l -> P x = Q x) ->
  base.filter (fun x => P x = true) l = base.filter (fun x => Q x = true) l.
Proof.
  induction l as [|x l IH]; intros Heq; [done|]. rewrite !filter_cons.
  rewrite (Heq x) by set_solver. rewrite IH by set_solver. done.
Qed.

Lemma count_in_ext P Q lo hi :
  (forall x, lo <= x < hi -> P x = Q x) -> count_in P lo hi = count_in Q lo hi.
Proof.
  intros Heq. unfold count_in. rewrite (filter_ext_in P Q); [done|].
  intros x Hx%elem_of_seqZ. apply Heq. lia.
Qed.

Lemma count_in_none P lo hi :
  (forall x, lo <= x < hi -> P x = false) -> count_in P lo hi = 0.
Proof.
  intros Hf. rewrite (count_in_ext P (fun _ => false)) by done. unfold count_in.
  by induction (seqZ lo (hi - lo)).
Qed.

Lemma count_in_all P lo hi :
  lo <= hi -> (forall x, lo <= x < hi -> P x = true) -> count_in P lo hi = hi - lo.
Proof.
  intros Hle Ht. rewrite (count_in_ext P (fun _ => true)) by done. unfold count_in.
  transitivity (Z.of_nat (length (seqZ lo (hi - lo)))); [|rewrite length_seqZ; lia].
  do 2 f_equal. induction (seqZ lo (hi - lo)) as [|x l IH]; [done|].
  rewrite filter_cons_True by done. by rewrite IH.
Qed.
