(* ===== verification/Memblock.v ===== *)
(** * mm/memblock.c and include/linux/memblock.h: the boot memory allocator

    Two arrays of address regions, [memory] and [reserved], kept sorted and
    merged; every boot-time allocation is a search for an aligned gap of
    [reserved] inside [memory] followed by an insertion into [reserved].
    This file holds the data and the operations, translated function by
    function; MemblockFacts.v and MemblockFind.v hold the theorems. *)

From S2P Require Import Prelude.

(** ** Configuration and environment

    The Kconfig choices, the linker symbol [_end] and the slab allocator are
    not part of memblock.c: they are the parameters of the model. *)

Class MemblockConfig := {
  have_node_map : bool;                 (* CONFIG_HAVE_MEMBLOCK_NODE_MAP *)
  config_movable_node : bool;           (* CONFIG_MOVABLE_NODE *)
  movable_node_enabled : bool;          (* boot option, read only here *)
  MAX_NUMNODES : Z;
  PAGE_SHIFT : Z;
  SMP_CACHE_BYTES : Z;
  kernel_end : Z;                       (* __pa_symbol(_end) *)
  slab_is_available : bool;
  kmalloc_pa : Z -> Z                   (* __pa(kmalloc(size)), 0 on failure *)
}.

Definition NUMA_NO_NODE : Z := -1.
Definition MEMBLOCK_HOTPLUG : Z := 1.
Definition MEMBLOCK_ALLOC_ANYWHERE : Z := U64_MAX.
Definition MEMBLOCK_ALLOC_ACCESSIBLE : Z := 0.
Definition INIT_MEMBLOCK_REGIONS : nat := 128.

(** ** Data *)

Record memblock_region := Region {
  rgn_base : Z;
  rgn_size : Z;
  rgn_flags : Z;
  rgn_nid : Z
}.

#[global] Instance memblock_region_eq_dec : EqDecision memblock_region.
Proof. solve_decision. Defined.

#[global] Instance memblock_region_inhabited : Inhabited memblock_region :=
  populate (Region 0 0 0 0).

(** What the [regions] pointer of a [struct memblock_type] points to: one of
    the two static arrays or an array obtained by [memblock_double_array]. *)
Inductive region_array :=
| memblock_memory_init_regions
| memblock_reserved_init_regions
| region_array_at (addr : Z).

(** [regions] holds the first [cnt] entries of the array; the entries above
    [cnt] are never read. *)
Record memblock_type := MType {
  regions : list memblock_region;
  max : nat;
  total_size : Z;
  home : region_array
}.

Definition cnt (ty : memblock_type) : nat := length (regions ty).

Record memblock := Memblock {
  bottom_up : bool;
  current_limit : Z;
  memory : memblock_type;
  reserved : memblock_type;
  memblock_can_resize : bool;
  memblock_memory_in_slab : bool;
  memblock_reserved_in_slab : bool
}.

(** [struct memblock_type *type] is [&memblock.memory] or
    [&memblock.reserved] in every call. *)
Inductive type_ptr := Memory | Reserved.

Definition get_type (t : type_ptr) (st : memblock) : memblock_type :=
  match t with Memory => memory st | Reserved => reserved st end.

Definition set_type (t : type_ptr) (ty : memblock_type) (st : memblock) : memblock :=
  match t with
  | Memory => Memblock (bottom_up st) (current_limit st) ty (reserved st)
      (memblock_can_resize st) (memblock_memory_in_slab st) (memblock_reserved_in_slab st)
  | Reserved => Memblock (bottom_up st) (current_limit st) (memory st) ty
      (memblock_can_resize st) (memblock_memory_in_slab st) (memblock_reserved_in_slab st)
  end.

Definition set_regions (ty : memblock_type) (rs : list memblock_region) : memblock_type :=
  MType rs (max ty) (total_size ty) (home ty).

Definition in_slab (t : type_ptr) (st : memblock) : bool :=
  match t with
  | Memory => memblock_memory_in_slab st
  | Reserved => memblock_reserved_in_slab st
  end.

Definition set_in_slab (t : type_ptr) (b : bool) (st : memblock) : memblock :=
  match t with
  | Memory => Memblock (bottom_up st) (current_limit st) (memory st) (reserved st)
      (memblock_can_resize st) b (memblock_reserved_in_slab st)
  | Reserved => Memblock (bottom_up st) (current_limit st) (memory st) (reserved st)
      (memblock_can_resize st) (memblock_memory_in_slab st) b
  end.

(** The statically initialised [struct memblock memblock]: one empty dummy
    entry in each array. *)
Definition memblock_init : memblock :=
  Memblock false MEMBLOCK_ALLOC_ANYWHERE
    (MType [Region 0 0 0 0] INIT_MEMBLOCK_REGIONS 0 memblock_memory_init_regions)
    (MType [Region 0 0 0 0] INIT_MEMBLOCK_REGIONS 0 memblock_reserved_init_regions)
    false false false.

Section Operations.
Context `{MemblockConfig}.

Definition PAGE_SIZE : Z := 2 ^ PAGE_SHIFT.
Definition PAGE_ALIGN (x : Z) : Z := u64 (Z.land (x + (PAGE_SIZE - 1)) (Z.lnot (PAGE_SIZE - 1))).
Definition PFN_UP (x : Z) : Z := Z.shiftr (u64 (x + PAGE_SIZE - 1)) PAGE_SHIFT.
Definition PFN_DOWN (x : Z) : Z := Z.shiftr x PAGE_SHIFT.
Definition PFN_PHYS (x : Z) : Z := u64 (Z.shiftl x PAGE_SHIFT).
Definition sizeof_region : Z := if have_node_map then 32 else 24.

(** *** Region accessors of include/linux/memblock.h *)

Definition memblock_set_region_node (r : memblock_region) (nid : Z) : memblock_region :=
  if have_node_map then Region (rgn_base r) (rgn_size r) (rgn_flags r) nid else r.

Definition memblock_get_region_node (r : memblock_region) : Z :=
  if have_node_map then rgn_nid r else 0.

Definition memblock_set_region_flags (r : memblock_region) (flags : Z) : memblock_region :=
  Region (rgn_base r) (rgn_size r) (Z.lor (rgn_flags r) flags) (rgn_nid r).

Definition memblock_clear_region_flags (r : memblock_region) (flags : Z) : memblock_region :=
  Region (rgn_base r) (rgn_size r) (Z.land (rgn_flags r) (Z.lnot flags)) (rgn_nid r).

Definition memblock_is_hotpluggable (r : memblock_region) : bool :=
  config_movable_node && negb (Z.land (rgn_flags r) MEMBLOCK_HOTPLUG =? 0).

Definition movable_node_is_enabled : bool := config_movable_node && movable_node_enabled.

Definition memblock_bottom_up (st : memblock) : bool := config_movable_node && bottom_up st.

Definition memblock_set_bottom_up (enable : bool) (st : memblock) : memblock :=
  if config_movable_node then
    Memblock enable (current_limit st) (memory st) (reserved st)
      (memblock_can_resize st) (memblock_memory_in_slab st) (memblock_reserved_in_slab st)
  else st.

(** *** Address arithmetic *)

Definition memblock_cap_size (base size : Z) : Z := Z.min size (U64_MAX - base).

Definition memblock_addrs_overlap (base1 size1 base2 size2 : Z) : bool :=
  (base1 <? u64 (base2 + size2)) && (base2 <? u64 (base1 + size1)).

Fixpoint overlaps_region_loop (rs : list memblock_region) (i : Z) (base size : Z) : Z :=
  match rs with
  | [] => -1
  | r :: rs =>
      if memblock_addrs_overlap base size (rgn_base r) (rgn_size r) then i
      else overlaps_region_loop rs (i + 1) base size
  end.

Definition memblock_overlaps_region (ty : memblock_type) (base size : Z) : Z :=
  overlaps_region_loop (regions ty) 0 base size.

(** *** Removing, inserting and merging entries *)

Definition memblock_remove_region (ty : memblock_type) (r : nat) : memblock_type :=
  match regions ty !! r with
  | None => ty
  | Some rgn =>
      let total := u64 (total_size ty - rgn_size rgn) in
      match delete r (regions ty) with
      | [] => MType [memblock_set_region_node (Region 0 0 0 0) MAX_NUMNODES]
                (max ty) total (home ty)
      | rs => MType rs (max ty) total (home ty)
      end
  end.

Definition memblock_insert_region (ty : memblock_type) (idx : nat)
    (base size nid flags : Z) : outcome memblock_type :=
  bug_on (max ty <=? cnt ty)%nat in
  let rgn := memblock_set_region_node (Region base size flags 0) nid in
  Ok (MType (take idx (regions ty) ++ rgn :: drop idx (regions ty))
        (max ty) (u64 (total_size ty + size)) (home ty)).

Fixpoint merge_regions_loop (fuel : nat) (rs : list memblock_region) (i : nat)
    : outcome (list memblock_region) :=
  match fuel with
  | O => NoFuel
  | S fuel =>
    match rs !! i, rs !! S i with
    | Some this, Some next =>
        if negb (u64 (rgn_base this + rgn_size this) =? rgn_base next)
           || negb (memblock_get_region_node this =? memblock_get_region_node next)
           || negb (rgn_flags this =? rgn_flags next)
        then
          bug_on u64 (rgn_base this + rgn_size this) >? rgn_base next in
          merge_regions_loop fuel rs (S i)
        else
          let this' := Region (rgn_base this) (u64 (rgn_size this + rgn_size next))
                         (rgn_flags this) (rgn_nid this) in
          merge_regions_loop fuel (delete (S i) (<[i := this']> rs)) i
    | _, _ => Ok rs
    end
  end.

Definition memblock_merge_regions (ty : memblock_type) : outcome memblock_type :=
  let! rs := merge_regions_loop (S (cnt ty)) (regions ty) 0 in
  Ok (set_regions ty rs).

(** *** Walking the free areas *)

Definition region_end (r : memblock_region) : Z := u64 (rgn_base r + rgn_size r).

(** [&type_b->regions[idx_b]]: start and end of the area before entry [idx_b]. *)
Definition area_before (type_b : memblock_type) (idx_b : Z) : Z * Z :=
  (if idx_b =? 0 then 0
   else region_end (regions type_b !!! Z.to_nat (idx_b - 1)),
   if idx_b <? Z.of_nat (cnt type_b)
   then rgn_base (regions type_b !!! Z.to_nat idx_b)
   else U64_MAX).

(** The inner loop of [__next_mem_range]; [n] is the number of iterations
    left, [cnt_b + 1 - idx_b]. *)
Fixpoint next_mem_range_b (n : nat) (type_b : memblock_type) (m_start m_end : Z)
    (idx_b : Z) : Z * option (Z * Z) :=
  match n with
  | O => (idx_b, None)
  | S n =>
    let '(r_start, r_end) := area_before type_b idx_b in
    if r_start >=? m_end then (idx_b, None)
    else if m_start <? r_end then (idx_b, Some (r_start, r_end))
    else next_mem_range_b n type_b m_start m_end (idx_b + 1)
  end.

Definition mk_idx (idx_a idx_b : Z) : Z :=
  Z.lor (u32 idx_a) (u64 (Z.shiftl idx_b 32)).

Definition region_skipped (nid : Z) (m : memblock_region) : bool :=
  (negb (nid =? NUMA_NO_NODE) && negb (nid =? memblock_get_region_node m))
  || (movable_node_is_enabled && memblock_is_hotpluggable m).

(** The outer loop; [n] is [cnt_a - idx_a]. *)
Fixpoint next_mem_range_a (n : nat) (nid : Z) (type_a : memblock_type)
    (type_b : option memblock_type) (idx_a idx_b : Z) : Z * option (Z * Z * Z) :=
  match n with
  | O => (U64_MAX, None)
  | S n =>
    let m := regions type_a !!! Z.to_nat idx_a in
    let m_start := rgn_base m in
    let m_end := region_end m in
    let m_nid := memblock_get_region_node m in
    if region_skipped nid m
    then next_mem_range_a n nid type_a type_b (idx_a + 1) idx_b
    else
      match type_b with
      | None => (mk_idx (idx_a + 1) idx_b, Some (m_start, m_end, m_nid))
      | Some tb =>
          match next_mem_range_b (Z.to_nat (Z.of_nat (cnt tb) + 1 - idx_b))
                  tb m_start m_end idx_b with
          | (idx_b, None) => next_mem_range_a n nid type_a type_b (idx_a + 1) idx_b
          | (idx_b, Some (r_start, r_end)) =>
              (if m_end <=? r_end then mk_idx (idx_a + 1) idx_b else mk_idx idx_a (idx_b + 1),
               Some (Z.max m_start r_start, Z.min m_end r_end, m_nid))
          end
      end
  end.

(** The new value of [*idx], and the out parameters when they are written. *)
Definition __next_mem_range (idx nid : Z) (type_a : memblock_type)
    (type_b : option memblock_type) : Z * option (Z * Z * Z) :=
  let idx_a := s32 (Z.land idx 4294967295) in
  let idx_b := s32 (Z.shiftr idx 32) in
  let nid := if nid =? MAX_NUMNODES then NUMA_NO_NODE else nid in
  next_mem_range_a (Z.to_nat (Z.of_nat (cnt type_a) - idx_a)) nid type_a type_b idx_a idx_b.

(** Inner loop of [__next_mem_range_rev]; [n] is [idx_b + 1]. *)
Fixpoint next_mem_range_rev_b (n : nat) (type_b : memblock_type) (m_start m_end : Z)
    (idx_b : Z) : Z * option (Z * Z) :=
  match n with
  | O => (idx_b, None)
  | S n =>
    let '(r_start, r_end) := area_before type_b idx_b in
    if r_end <=? m_start then (idx_b, None)
    else if m_end >? r_start then (idx_b, Some (r_start, r_end))
    else next_mem_range_rev_b n type_b m_start m_end (idx_b - 1)
  end.

(** Outer loop; [n] is [idx_a + 1]. *)
Fixpoint next_mem_range_rev_a (n : nat) (nid : Z) (type_a : memblock_type)
    (type_b : option memblock_type) (idx_a idx_b : Z) : Z * option (Z * Z * Z) :=
  match n with
  | O => (U64_MAX, None)
  | S n =>
    let m := regions type_a !!! Z.to_nat idx_a in
    let m_start := rgn_base m in
    let m_end := region_end m in
    let m_nid := memblock_get_region_node m in
    if region_skipped nid m
    then next_mem_range_rev_a n nid type_a type_b (idx_a - 1) idx_b
    else
      match type_b with
      | None => (mk_idx (idx_a + 1) idx_b, Some (m_start, m_end, m_nid))
      | Some tb =>
          match next_mem_range_rev_b (Z.to_nat (idx_b + 1)) tb m_start m_end idx_b with
          | (idx_b, None) => next_mem_range_rev_a n nid type_a type_b (idx_a - 1) idx_b
          | (idx_b, Some (r_start, r_end)) =>
              (if m_start >=? r_start then mk_idx (idx_a - 1) idx_b else mk_idx idx_a (idx_b - 1),
               Some (Z.max m_start r_start, Z.min m_end r_end, m_nid))
          end
      end
  end.

(** On the first call ([*idx] is [ULLONG_MAX]) the function reads
    [type_b->cnt] without testing [type_b]: a [NULL] exclusion list faults
    there. *)
Definition __next_mem_range_rev (idx nid : Z) (type_a : memblock_type)
    (type_b : option memblock_type) : outcome (Z * option (Z * Z * Z)) :=
  let nid := if nid =? MAX_NUMNODES then NUMA_NO_NODE else nid in
  let! (idx_a, idx_b) :=
    if idx =? U64_MAX
    then match type_b with
         | Some tb => Ok (Z.of_nat (cnt type_a) - 1, Z.of_nat (cnt tb))
         | None => Bug
         end
    else Ok (s32 (Z.land idx 4294967295), s32 (Z.shiftr idx 32)) in
  Ok (next_mem_range_rev_a (Z.to_nat (idx_a + 1)) nid type_a type_b idx_a idx_b).

(** The ranges the loop [for_each_mem_range] visits, in order.  Each step
    advances one of the two indices, so [cnt_a + cnt_b + 2] steps are enough. *)
Fixpoint for_each_mem_range_loop (fuel : nat) (nid : Z) (type_a : memblock_type)
    (type_b : option memblock_type) (i : Z) : outcome (list (Z * Z * Z)) :=
  match fuel with
  | O => NoFuel
  | S fuel =>
    match __next_mem_range i nid type_a type_b with
    | (i, Some range) =>
        if i =? U64_MAX then Ok []
        else
          let! rest := for_each_mem_range_loop fuel nid type_a type_b i in
          Ok (range :: rest)
    | (_, None) => Ok []
    end
  end.

Definition range_fuel (type_a : memblock_type) (type_b : option memblock_type) : nat :=
  cnt type_a + match type_b with Some tb => cnt tb | None => 0 end + 2.

Definition for_each_mem_range (nid : Z) (type_a : memblock_type)
    (type_b : option memblock_type) : outcome (list (Z * Z * Z)) :=
  for_each_mem_range_loop (range_fuel type_a type_b) nid type_a type_b 0.

Fixpoint for_each_mem_range_rev_loop (fuel : nat) (nid : Z) (type_a : memblock_type)
    (type_b : option memblock_type) (i : Z) : outcome (list (Z * Z * Z)) :=
  match fuel with
  | O => NoFuel
  | S fuel =>
    let! p := __next_mem_range_rev i nid type_a type_b in
    match p with
    | (i, Some range) =>
        if i =? U64_MAX then Ok []
        else
          let! rest := for_each_mem_range_rev_loop fuel nid type_a type_b i in
          Ok (range :: rest)
    | (_, None) => Ok []
    end
  end.

Definition for_each_mem_range_rev (nid : Z) (type_a : memblock_type)
    (type_b : option memblock_type) : outcome (list (Z * Z * Z)) :=
  for_each_mem_range_rev_loop (range_fuel type_a type_b) nid type_a type_b U64_MAX.

Definition for_each_free_mem_range (st : memblock) (nid : Z) :=
  for_each_mem_range nid (memory st) (Some (reserved st)).

Definition for_each_free_mem_range_reverse (st : memblock) (nid : Z) :=
  for_each_mem_range_rev nid (memory st) (Some (reserved st)).

(** *** Finding a free area *)

Fixpoint find_range_bottom_up_loop (ranges : list (Z * Z * Z))
    (start end_ size align : Z) : Z :=
  match ranges with
  | [] => 0
  | (this_start, this_end, _) :: ranges =>
      let this_start := clamp this_start start end_ in
      let this_end := clamp this_end start end_ in
      let cand := round_up this_start align in
      if (cand <? this_end) && (u64 (this_end - cand) >=? size) then cand
      else find_range_bottom_up_loop ranges start end_ size align
  end.

Definition __memblock_find_range_bottom_up (st : memblock)
    (start end_ size align nid : Z) : outcome Z :=
  let! ranges := for_each_free_mem_range st nid in
  Ok (find_range_bottom_up_loop ranges start end_ size align).

Fixpoint find_range_top_down_loop (ranges : list (Z * Z * Z))
    (start end_ size align : Z) : Z :=
  match ranges with
  | [] => 0
  | (this_start, this_end, _) :: ranges =>
      let this_start := clamp this_start start end_ in
      let this_end := clamp this_end start end_ in
      if this_end <? size then find_range_top_down_loop ranges start end_ size align
      else
        let cand := round_down (u64 (this_end - size)) align in
        if cand >=? this_start then cand
        else find_range_top_down_loop ranges start end_ size align
  end.

Definition __memblock_find_range_top_down (st : memblock)
    (start end_ size align nid : Z) : outcome Z :=
  let! ranges := for_each_free_mem_range_reverse st nid in
  Ok (find_range_top_down_loop ranges start end_ size align).

Definition memblock_find_in_range_node (st : memblock)
    (size align start end_ nid : Z) : outcome Z :=
  let end_ := if end_ =? MEMBLOCK_ALLOC_ACCESSIBLE then current_limit st else end_ in
  let start := Z.max start PAGE_SIZE in
  let end_ := Z.max start end_ in
  let! ret :=
    if memblock_bottom_up st && (end_ >? kernel_end) then
      let bottom_up_start := Z.max start kernel_end in
      __memblock_find_range_bottom_up st bottom_up_start end_ size align nid
    else Ok 0 in
  if negb (ret =? 0) then Ok ret
  else __memblock_find_range_top_down st start end_ size align nid.

Definition memblock_find_in_range (st : memblock) (start end_ size align : Z) : outcome Z :=
  memblock_find_in_range_node st size align start end_ NUMA_NO_NODE.

(** *** Adding a range *)

(** One execution of the scan that follows the label [repeat]. *)
Fixpoint add_range_scan (fuel : nat) (insert : bool) (nid flags end_ : Z)
    (ty : memblock_type) (i nr_new : nat) (base : Z)
    : outcome (memblock_type * nat * nat * Z) :=
  match fuel with
  | O => NoFuel
  | S fuel =>
    match regions ty !! i with
    | None => Ok (ty, i, nr_new, base)
    | Some rgn =>
        let rbase := rgn_base rgn in
        let rend := region_end rgn in
        if rbase >=? end_ then Ok (ty, i, nr_new, base)
        else if rend <=? base then
          add_range_scan fuel insert nid flags end_ ty (S i) nr_new base
        else if rbase >? base then
          if insert then
            let! ty := memblock_insert_region ty i base (u64 (rbase - base)) nid flags in
            add_range_scan fuel insert nid flags end_ ty (S (S i)) (S nr_new) (Z.min rend end_)
          else
            add_range_scan fuel insert nid flags end_ ty (S i) (S nr_new) (Z.min rend end_)
        else add_range_scan fuel insert nid flags end_ ty (S i) nr_new (Z.min rend end_)
    end
  end.

(** The scan and the insertion of the remaining portion: the array and the
    number of new entries. *)
Definition add_range_pass (insert : bool) (ty : memblock_type)
    (base end_ nid flags : Z) : outcome (memblock_type * nat) :=
  let! (ty, i, nr_new, base) := add_range_scan (S (cnt ty)) insert nid flags end_ ty 0 0 base in
  if base <? end_ then
    if insert then
      let! ty := memblock_insert_region ty i base (u64 (end_ - base)) nid flags in
      Ok (ty, S nr_new)
    else Ok (ty, S nr_new)
  else Ok (ty, nr_new).

(** [while (type->cnt + extra > type->max) if (double(...) < 0) return -ENOMEM;] *)
Fixpoint make_room (fuel : nat) (double : memblock -> outcome (Z * memblock))
    (t : type_ptr) (extra : nat) (st : memblock) : outcome (Z * memblock) :=
  match fuel with
  | O => NoFuel
  | S fuel =>
    if (max (get_type t st) <? cnt (get_type t st) + extra)%nat then
      let! (ret, st) := double st in
      if ret <? 0 then Ok (- ENOMEM, st) else make_room fuel double t extra st
    else Ok (0, st)
  end.

(** [memblock_add_range] and [memblock_isolate_range] call
    [memblock_double_array], which calls them back through [memblock_free]
    and [memblock_reserve]: they take the doubling function as an argument
    and the knot is tied below. *)
Definition doubler := type_ptr -> Z -> Z -> memblock -> outcome (Z * memblock).

Definition add_range_with (double : doubler) (t : type_ptr)
    (base size nid flags : Z) (st : memblock) : outcome (Z * memblock) :=
  let obase := base in
  let size := memblock_cap_size base size in
  let end_ := u64 (base + size) in
  if size =? 0 then Ok (0, st)
  else
    let ty := get_type t st in
    if rgn_size (regions ty !!! 0%nat) =? 0 then
      let rgn := memblock_set_region_node
                   (Region base size flags (rgn_nid (regions ty !!! 0%nat))) nid in
      Ok (0, set_type t (MType (<[0%nat := rgn]> (regions ty)) (max ty) size (home ty)) st)
    else
      let! (_, nr_new) := add_range_pass false ty obase end_ nid flags in
      let! (ret, st) := make_room (S (cnt ty + nr_new)) (double t obase size) t nr_new st in
      if ret <? 0 then Ok (ret, st)
      else
        let! (ty, _) := add_range_pass true (get_type t st) obase end_ nid flags in
        let! ty := memblock_merge_regions ty in
        Ok (0, set_type t ty st).

(** *** Isolating and removing a range *)

Fixpoint isolate_range_loop (fuel : nat) (base end_ : Z) (ty : memblock_type)
    (i start_rgn end_rgn : nat) : outcome (memblock_type * nat * nat) :=
  match fuel with
  | O => NoFuel
  | S fuel =>
    match regions ty !! i with
    | None => Ok (ty, start_rgn, end_rgn)
    | Some rgn =>
        let rbase := rgn_base rgn in
        let rend := region_end rgn in
        if rbase >=? end_ then Ok (ty, start_rgn, end_rgn)
        else if rend <=? base then
          isolate_range_loop fuel base end_ ty (S i) start_rgn end_rgn
        else if rbase <? base then
          let rgn := Region base (u64 (rgn_size rgn - (base - rbase)))
                       (rgn_flags rgn) (rgn_nid rgn) in
          let ty := MType (<[i := rgn]> (regions ty)) (max ty)
                      (u64 (total_size ty - (base - rbase))) (home ty) in
          let! ty := memblock_insert_region ty i rbase (u64 (base - rbase))
                       (memblock_get_region_node rgn) (rgn_flags rgn) in
          isolate_range_loop fuel base end_ ty (S i) start_rgn end_rgn
        else if rend >? end_ then
          let rgn := Region end_ (u64 (rgn_size rgn - (end_ - rbase)))
                       (rgn_flags rgn) (rgn_nid rgn) in
          let ty := MType (<[i := rgn]> (regions ty)) (max ty)
                      (u64 (total_size ty - (end_ - rbase))) (home ty) in
          let! ty := memblock_insert_region ty i rbase (u64 (end_ - rbase))
                       (memblock_get_region_node rgn) (rgn_flags rgn) in
          (* i-- followed by the loop's i++ *)
          isolate_range_loop fuel base end_ ty i start_rgn end_rgn
        else
          isolate_range_loop fuel base end_ ty (S i)
            (if (end_rgn =? 0)%nat then i else start_rgn) (S i)
    end
  end.

(** Return value, [*start_rgn], [*end_rgn] and the new state.  The loop runs
    once per entry, plus once for each of the at most two entries it adds. *)
Definition isolate_range_with (double : doubler) (t : type_ptr) (base size : Z)
    (st : memblock) : outcome (Z * nat * nat * memblock) :=
  let size := memblock_cap_size base size in
  let end_ := u64 (base + size) in
  if size =? 0 then Ok (0, 0%nat, 0%nat, st)
  else
    let! (ret, st) := make_room (S (cnt (get_type t st) + 2)) (double t base size) t 2 st in
    if ret <? 0 then Ok (ret, 0%nat, 0%nat, st)
    else
      let ty := get_type t st in
      let! (ty, start_rgn, end_rgn) :=
        isolate_range_loop (cnt ty + 3) base end_ ty 0 0 0 in
      Ok (0, start_rgn, end_rgn, set_type t ty st).

(** [for (i = end_rgn - 1; i >= start_rgn; i--) memblock_remove_region(type, i)];
    [n] is the number of iterations left. *)
Fixpoint remove_regions_loop (n start_rgn : nat) (ty : memblock_type) : memblock_type :=
  match n with
  | O => ty
  | S n => remove_regions_loop n start_rgn (memblock_remove_region ty (start_rgn + n))
  end.

Definition remove_range_with (double : doubler) (t : type_ptr) (base size : Z)
    (st : memblock) : outcome (Z * memblock) :=
  let! (ret, start_rgn, end_rgn, st) := isolate_range_with double t base size st in
  if negb (ret =? 0) then Ok (ret, st)
  else
    Ok (0, set_type t
             (remove_regions_loop (end_rgn - start_rgn) start_rgn (get_type t st)) st).

(** *** Doubling an array *)

(** The address of the new array, 0 when there is none. *)
Definition double_array_addr (t : type_ptr) (new_area_start new_area_size new_size : Z)
    (st : memblock) : outcome Z :=
  let new_alloc_size := PAGE_ALIGN new_size in
  if slab_is_available then Ok (kmalloc_pa new_size)
  else
    let '(new_area_start, new_area_size) :=
      match t with Reserved => (new_area_start, new_area_size) | Memory => (0, 0) end in
    let! addr := memblock_find_in_range st (u64 (new_area_start + new_area_size))
                   (current_limit st) new_alloc_size PAGE_SIZE in
    if (addr =? 0) && negb (new_area_size =? 0) then
      memblock_find_in_range st 0 (Z.min new_area_start (current_limit st))
        new_alloc_size PAGE_SIZE
    else Ok addr.

Fixpoint double_array_fuel (fuel : nat) (t : type_ptr)
    (new_area_start new_area_size : Z) (st : memblock) : outcome (Z * memblock) :=
  match fuel with
  | O => NoFuel
  | S fuel =>
    if negb (memblock_can_resize st) then Ok (-1, st)
    else
      let ty := get_type t st in
      let old_size := u64 (Z.of_nat (max ty) * sizeof_region) in
      let new_size := u64 (Z.shiftl old_size 1) in
      let old_alloc_size := PAGE_ALIGN old_size in
      let new_alloc_size := PAGE_ALIGN new_size in
      let! addr := double_array_addr t new_area_start new_area_size new_size st in
      if addr =? 0 then Ok (-1, st)
      else
        let st := set_type t (MType (regions ty) (2 * max ty) (total_size ty)
                                (region_array_at addr)) st in
        let! st :=
          if in_slab t st then Ok st
          else
            match home ty with
            | region_array_at old =>
                let! (_, st) := remove_range_with (double_array_fuel fuel) Reserved
                                  old old_alloc_size st in
                Ok st
            | _ => Ok st
            end in
        let! st :=
          if slab_is_available then Ok st
          else
            let! (ret, st) := add_range_with (double_array_fuel fuel) Reserved
                                addr new_alloc_size MAX_NUMNODES 0 st in
            bug_on negb (ret =? 0) in Ok st in
        Ok (0, set_in_slab t slab_is_available st)
  end.

(** Doubling [memory] may have to double [reserved] once; doubling [reserved]
    leaves room for the entries it adds: three levels are enough. *)
Definition memblock_double_array : doubler := double_array_fuel 3.

(** *** The interface *)

Definition memblock_add_range : type_ptr -> Z -> Z -> Z -> Z -> memblock -> outcome (Z * memblock) :=
  add_range_with memblock_double_array.

Definition memblock_isolate_range := isolate_range_with memblock_double_array.

Definition memblock_remove_range := remove_range_with memblock_double_array.

Definition memblock_add_node (base size nid : Z) (st : memblock) :=
  memblock_add_range Memory base size nid 0 st.

Definition memblock_add (base size : Z) (st : memblock) :=
  memblock_add_range Memory base size MAX_NUMNODES 0 st.

Definition memblock_remove (base size : Z) (st : memblock) :=
  memblock_remove_range Memory base size st.

Definition memblock_free (base size : Z) (st : memblock) :=
  memblock_remove_range Reserved base size st.

Definition memblock_reserve_region (base size nid flags : Z) (st : memblock) :=
  memblock_add_range Reserved base size nid flags st.

Definition memblock_reserve (base size : Z) (st : memblock) :=
  memblock_reserve_region base size MAX_NUMNODES 0 st.

(** [for (i = start_rgn; i < end_rgn; i++) f(&type->regions[i])] *)
Fixpoint update_regions_loop (n i : nat) (f : memblock_region -> memblock_region)
    (rs : list memblock_region) : list memblock_region :=
  match n with
  | O => rs
  | S n => update_regions_loop n (S i) f (alter f i rs)
  end.

(** The common shape of the functions that change an attribute of a range:
    isolate it, update its entries, merge. *)
Definition update_range (t : type_ptr) (f : memblock_region -> memblock_region)
    (base size : Z) (st : memblock) : outcome (Z * memblock) :=
  let! (ret, start_rgn, end_rgn, st) := memblock_isolate_range t base size st in
  if negb (ret =? 0) then Ok (ret, st)
  else
    let ty := get_type t st in
    let rs := update_regions_loop (end_rgn - start_rgn) start_rgn f (regions ty) in
    let! ty := memblock_merge_regions (set_regions ty rs) in
    Ok (0, set_type t ty st).

Definition memblock_mark_hotplug (base size : Z) (st : memblock) :=
  update_range Memory (fun r => memblock_set_region_flags r MEMBLOCK_HOTPLUG) base size st.

Definition memblock_clear_hotplug (base size : Z) (st : memblock) :=
  update_range Memory (fun r => memblock_clear_region_flags r MEMBLOCK_HOTPLUG) base size st.

Definition memblock_set_node (base size : Z) (t : type_ptr) (nid : Z) (st : memblock) :=
  update_range t (fun r => memblock_set_region_node r nid) base size st.

(** *** Allocating *)

Definition memblock_alloc_range_nid (size align start end_ nid : Z) (st : memblock)
    : outcome (Z * memblock) :=
  let align := if align =? 0 then SMP_CACHE_BYTES else align in
  let! found := memblock_find_in_range_node st size align start end_ nid in
  if found =? 0 then Ok (0, st)
  else
    let! (ret, st) := memblock_reserve found size st in
    if ret =? 0 then Ok (found, st) else Ok (0, st).

Definition memblock_alloc_range (size align start end_ : Z) (st : memblock) :=
  memblock_alloc_range_nid size align start end_ NUMA_NO_NODE st.

Definition memblock_alloc_base_nid (size align max_addr nid : Z) (st : memblock) :=
  memblock_alloc_range_nid size align 0 max_addr nid st.

Definition memblock_alloc_nid (size align nid : Z) (st : memblock) :=
  memblock_alloc_base_nid size align MEMBLOCK_ALLOC_ACCESSIBLE nid st.

Definition __memblock_alloc_base (size align max_addr : Z) (st : memblock) :=
  memblock_alloc_base_nid size align max_addr NUMA_NO_NODE st.

Definition memblock_alloc_base (size align max_addr : Z) (st : memblock)
    : outcome (Z * memblock) :=
  let! (alloc, st) := __memblock_alloc_base size align max_addr st in
  if alloc =? 0 then Panic else Ok (alloc, st).

Definition memblock_alloc (size align : Z) (st : memblock) :=
  memblock_alloc_base size align MEMBLOCK_ALLOC_ACCESSIBLE st.

Definition memblock_alloc_try_nid (size align nid : Z) (st : memblock)
    : outcome (Z * memblock) :=
  let! (res, st) := memblock_alloc_nid size align nid st in
  if negb (res =? 0) then Ok (res, st)
  else memblock_alloc_base size align MEMBLOCK_ALLOC_ACCESSIBLE st.

(** One pass below the label [again]. *)
Definition virt_alloc_find (size align min_addr max_addr nid : Z) (st : memblock) : outcome Z :=
  let! alloc := memblock_find_in_range_node st size align min_addr max_addr nid in
  if negb (alloc =? 0) then Ok alloc
  else if negb (nid =? NUMA_NO_NODE) then
    memblock_find_in_range_node st size align min_addr max_addr NUMA_NO_NODE
  else Ok 0.

(** The physical address of the block whose virtual address is returned, 0
    for NULL; [kzalloc_node_pa] stands for the slab allocator that answers
    once it is up.  The result of [memblock_reserve] is not looked at. *)
Definition memblock_virt_alloc_internal (kzalloc_node_pa : Z -> Z -> Z)
    (size align min_addr max_addr nid : Z) (st : memblock) : outcome (Z * memblock) :=
  let nid := if nid =? MAX_NUMNODES then NUMA_NO_NODE else nid in
  if slab_is_available then Ok (kzalloc_node_pa size nid, st)
  else
    let align := if align =? 0 then SMP_CACHE_BYTES else align in
    let max_addr := if max_addr >? current_limit st then current_limit st else max_addr in
    let! alloc := virt_alloc_find size align min_addr max_addr nid st in
    let! alloc :=
      if (alloc =? 0) && negb (min_addr =? 0)
      then virt_alloc_find size align 0 max_addr nid st
      else Ok alloc in
    if alloc =? 0 then Ok (0, st)
    else
      let! (_, st) := memblock_reserve alloc size st in
      Ok (alloc, st).

Definition memblock_virt_alloc_try_nid_nopanic (kzalloc_node_pa : Z -> Z -> Z)
    (size align min_addr max_addr nid : Z) (st : memblock) :=
  memblock_virt_alloc_internal kzalloc_node_pa size align min_addr max_addr nid st.

Definition memblock_virt_alloc_try_nid (kzalloc_node_pa : Z -> Z -> Z)
    (size align min_addr max_addr nid : Z) (st : memblock) : outcome (Z * memblock) :=
  let! (ptr, st) :=
    memblock_virt_alloc_internal kzalloc_node_pa size align min_addr max_addr nid st in
  if negb (ptr =? 0) then Ok (ptr, st) else Panic.

Definition __memblock_free_early (base size : Z) (st : memblock) : outcome memblock :=
  let! (_, st) := memblock_remove_range Reserved base size st in
  Ok st.

(** *** Remaining interface *)

Definition memblock_phys_mem_size (st : memblock) : Z := total_size (memory st).

Fixpoint mem_size_loop (limit_pfn : Z) (rs : list memblock_region) (pages : Z) : Z :=
  match rs with
  | [] => pages
  | r :: rs =>
      let start_pfn := Z.min (PFN_UP (rgn_base r)) limit_pfn in
      let end_pfn := Z.min (PFN_DOWN (region_end r)) limit_pfn in
      mem_size_loop limit_pfn rs (u64 (pages + (end_pfn - start_pfn)))
  end.

Definition memblock_mem_size (limit_pfn : Z) (st : memblock) : Z :=
  PFN_PHYS (mem_size_loop limit_pfn (regions (memory st)) 0).

Definition memblock_start_of_DRAM (st : memblock) : Z :=
  rgn_base (regions (memory st) !!! 0%nat).

Definition memblock_end_of_DRAM (st : memblock) : Z :=
  region_end (regions (memory st) !!! (cnt (memory st) - 1)%nat).

Fixpoint limit_max_addr (limit : Z) (rs : list memblock_region) : Z :=
  match rs with
  | [] => U64_MAX
  | r :: rs =>
      if limit <=? rgn_size r then u64 (rgn_base r + limit)
      else limit_max_addr (u64 (limit - rgn_size r)) rs
  end.

Definition memblock_enforce_memory_limit (limit : Z) (st : memblock) : outcome memblock :=
  if limit =? 0 then Ok st
  else
    let max_addr := limit_max_addr limit (regions (memory st)) in
    let! (_, st) := memblock_remove_range Memory max_addr U64_MAX st in
    let! (_, st) := memblock_remove_range Reserved max_addr U64_MAX st in
    Ok st.

(** The do-while loop of [memblock_search]; the interval [left, right) shrinks
    at every step. *)
Fixpoint search_loop (fuel : nat) (rs : list memblock_region) (addr : Z) (left right : nat)
    : outcome Z :=
  match fuel with
  | O => NoFuel
  | S fuel =>
    let mid := ((right + left) / 2)%nat in
    let rgn := rs !!! mid in
    if addr <? rgn_base rgn then
      if (left <? mid)%nat then search_loop fuel rs addr left mid else Ok (-1)
    else if addr >=? region_end rgn then
      if (S mid <? right)%nat then search_loop fuel rs addr (S mid) right else Ok (-1)
    else Ok (Z.of_nat mid)
  end.

Definition memblock_search (ty : memblock_type) (addr : Z) : outcome Z :=
  search_loop (S (cnt ty)) (regions ty) addr 0 (cnt ty).

Definition memblock_is_reserved (addr : Z) (st : memblock) : outcome bool :=
  let! i := memblock_search (reserved st) addr in Ok (negb (i =? -1)).

Definition memblock_is_memory (addr : Z) (st : memblock) : outcome bool :=
  let! i := memblock_search (memory st) addr in Ok (negb (i =? -1)).

(** Return value, [*start_pfn] and [*end_pfn]. *)
Definition memblock_search_pfn_nid (pfn : Z) (st : memblock) : outcome (option (Z * Z * Z)) :=
  let! mid := memblock_search (memory st) (PFN_PHYS pfn) in
  if mid =? -1 then Ok None
  else
    let r := regions (memory st) !!! Z.to_nat mid in
    Ok (Some (rgn_nid r, PFN_DOWN (rgn_base r), PFN_DOWN (region_end r))).

Definition memblock_is_region_memory (base size : Z) (st : memblock) : outcome bool :=
  let! idx := memblock_search (memory st) base in
  let end_ := u64 (base + memblock_cap_size base size) in
  if idx =? -1 then Ok false
  else
    let r := regions (memory st) !!! Z.to_nat idx in
    Ok ((rgn_base r <=? base) && (region_end r >=? end_)).

Definition memblock_is_region_reserved (base size : Z) (st : memblock) : bool :=
  memblock_overlaps_region (reserved st) base (memblock_cap_size base size) >=? 0.

(** [for_each_memblock(memory, r)] with [r--] after a removal: [i] is
    [r - memblock.memory.regions]. *)
Fixpoint trim_memory_loop (fuel : nat) (align : Z) (ty : memblock_type) (i : nat)
    : outcome memblock_type :=
  match fuel with
  | O => NoFuel
  | S fuel =>
    match regions ty !! i with
    | None => Ok ty
    | Some r =>
        let orig_start := rgn_base r in
        let orig_end := region_end r in
        let start := round_up orig_start align in
        let end_ := round_down orig_end align in
        if (start =? orig_start) && (end_ =? orig_end) then
          trim_memory_loop fuel align ty (S i)
        else if start <? end_ then
          let r := Region start (u64 (end_ - start)) (rgn_flags r) (rgn_nid r) in
          trim_memory_loop fuel align (set_regions ty (<[i := r]> (regions ty))) (S i)
        else trim_memory_loop fuel align (memblock_remove_region ty i) i
    end
  end.

Definition memblock_trim_memory (align : Z) (st : memblock) : outcome memblock :=
  let! ty := trim_memory_loop (cnt (memory st) + 2) align (memory st) 0 in
  Ok (set_type Memory ty st).

Definition memblock_set_current_limit (limit : Z) (st : memblock) : memblock :=
  Memblock (bottom_up st) limit (memory st) (reserved st)
    (memblock_can_resize st) (memblock_memory_in_slab st) (memblock_reserved_in_slab st).

Definition memblock_get_current_limit (st : memblock) : Z := current_limit st.

Definition memblock_allow_resize (st : memblock) : memblock :=
  Memblock (bottom_up st) (current_limit st) (memory st) (reserved st)
    true (memblock_memory_in_slab st) (memblock_reserved_in_slab st).

(** [__next_mem_pfn_range]; [n] is the number of entries above [idx]. *)
Fixpoint next_mem_pfn_range_loop (n : nat) (rs : list memblock_region) (nid idx : Z)
    : Z * option (Z * Z * Z) :=
  match n with
  | O => (-1, None)
  | S n =>
    let idx := idx + 1 in
    let r := rs !!! Z.to_nat idx in
    if PFN_UP (rgn_base r) >=? PFN_DOWN (region_end r)
    then next_mem_pfn_range_loop n rs nid idx
    else if (nid =? MAX_NUMNODES) || (nid =? rgn_nid r)
    then (idx, Some (PFN_UP (rgn_base r), PFN_DOWN (region_end r), rgn_nid r))
    else next_mem_pfn_range_loop n rs nid idx
  end.

Definition __next_mem_pfn_range (idx nid : Z) (st : memblock) : Z * option (Z * Z * Z) :=
  next_mem_pfn_range_loop (Z.to_nat (Z.of_nat (cnt (memory st)) - (idx + 1)))
    (regions (memory st)) nid idx.

End Operations.
