(* ===== verification/MemblockFacts.v ===== *)
(** * The region arrays of mm/memblock.c as partial maps

    A well-formed array is a strictly increasing chain of regions and denotes
    the partial map that sends an address to the (node, flags) attribute of
    the region that contains it.  The theorems of this file state what each
    operation does to that map, that the chain is kept, that merging gives
    the unique minimal array for the map, and how errors leave the state. *)

From S2P Require Import Prelude Memblock.

(** ** The invariant and the denotation *)

Definition rgn_end (r : memblock_region) : Z := rgn_base r + rgn_size r.

(** [chain lo rs]: the regions of [rs] are non-empty, do not overflow, do not
    overlap, and lie in increasing order above [lo]. *)
Fixpoint chain (lo : Z) (rs : list memblock_region) : Prop :=
  match rs with
  | [] => True
  | r :: rs =>
      lo <= rgn_base r /\ 0 < rgn_size r /\ rgn_end r <= U64_MAX /\ chain (rgn_end r) rs
  end.

Definition sum_sizes (rs : list memblock_region) : Z :=
  foldr (fun r n => rgn_size r + n) 0 rs.

Definition in_region (r : memblock_region) (a : Z) : bool :=
  (rgn_base r <=? a) && (a <? rgn_end r).

(** The dummy entry that stands for an empty array. *)
Definition is_dummy (r : memblock_region) : Prop := rgn_base r = 0 /\ rgn_size r = 0.

Definition wf_regions (rs : list memblock_region) : Prop :=
  (rs <> [] /\ chain 0 rs) \/ (exists r, rs = [r] /\ is_dummy r).

Record wf_type (ty : memblock_type) : Prop := {
  wf_rs : wf_regions (regions ty);
  wf_total : total_size ty = sum_sizes (regions ty);
  wf_max : (cnt ty <= max ty)%nat
}.

Record wf_memblock (st : memblock) : Prop := {
  wf_memory : wf_type (memory st);
  wf_reserved : wf_type (reserved st);
  wf_limit : 0 <= current_limit st <= U64_MAX
}.

Section Facts.
Context `{MemblockConfig}.

Definition attr (r : memblock_region) : Z * Z := (memblock_get_region_node r, rgn_flags r).

(** The denotation of an array. *)
Fixpoint attr_at (rs : list memblock_region) (a : Z) : option (Z * Z) :=
  match rs with
  | [] => None
  | r :: rs => if in_region r a then Some (attr r) else attr_at rs a
  end.

(** Two neighbours that [memblock_merge_regions] joins. *)
Definition mergeable (this next : memblock_region) : bool :=
  (rgn_end this =? rgn_base next)
  && (memblock_get_region_node this =? memblock_get_region_node next)
  && (rgn_flags this =? rgn_flags next).

Fixpoint minimal (rs : list memblock_region) : Prop :=
  match rs with
  | r1 :: (r2 :: _) as rs' => mergeable r1 r2 = false /\ minimal rs'
  | _ => True
  end.

(** ** Chains *)

Lemma chain_weaken lo lo' rs : lo' <= lo -> chain lo rs -> chain lo' rs.
Proof. destruct rs; cbn; [done|]. intros ? (? & ? & ? & ?). split_and!; auto; lia. Qed.

Lemma chain_app lo rs1 rs2 :
  chain lo (rs1 ++ rs2) <->
  chain lo rs1 /\ chain (foldl (fun _ r => rgn_end r) lo rs1) rs2.
Proof.
  revert lo; induction rs1 as [|r rs1 IH]; intros lo; cbn; [naive_solver|].
  rewrite IH. naive_solver.
Qed.

Lemma chain_app_l lo rs1 rs2 : chain lo (rs1 ++ rs2) -> chain lo rs1.
Proof. rewrite chain_app. naive_solver. Qed.

Lemma chain_In lo rs r :
  chain lo rs -> r ∈ rs -> lo <= rgn_base r /\ 0 < rgn_size r /\ rgn_end r <= U64_MAX.
Proof.
  revert lo; induction rs as [|r' rs IH]; intros lo; cbn; [set_solver|].
  intros (? & ? & ? & Hc) [->|Hin]%elem_of_cons; [done|].
  destruct (IH _ Hc Hin) as (? & ? & ?). unfold rgn_end in *. split_and!; lia.
Qed.

Lemma chain_last lo rs1 rs2 :
  chain lo (rs1 ++ rs2) -> forall r, r ∈ rs1 -> forall r', r' ∈ rs2 -> rgn_end r <= rgn_base r'.
Proof.
  revert lo; induction rs1 as [|r0 rs1 IH]; intros lo; cbn; [set_solver|].
  intros (? & ? & ? & Hc) r [->|Hin]%elem_of_cons r' Hr'.
  - destruct (chain_In _ _ r' Hc); [set_solver|done].
  - eapply IH; eauto.
Qed.

Lemma chain_cons_app lo rs1 r rs2 :
  chain lo (rs1 ++ r :: rs2) -> chain (rgn_end r) rs2.
Proof. rewrite chain_app. cbn. naive_solver. Qed.

Lemma sum_sizes_app rs1 rs2 : sum_sizes (rs1 ++ rs2) = sum_sizes rs1 + sum_sizes rs2.
Proof. unfold sum_sizes. induction rs1; cbn; lia. Qed.

Lemma chain_sum lo rs : 0 <= lo <= U64_MAX -> chain lo rs -> 0 <= sum_sizes rs <= U64_MAX - lo.
Proof.
  revert lo; induction rs as [|r rs IH]; intros lo Hlo; cbn; [lia|].
  intros (? & ? & ? & Hc). unfold rgn_end in *.
  specialize (IH (rgn_base r + rgn_size r) ltac:(lia) Hc). unfold sum_sizes in *. lia.
Qed.

Lemma chain0_sum rs : chain 0 rs -> 0 <= sum_sizes rs <= U64_MAX.
Proof. intros Hc. apply chain_sum in Hc; ulia. Qed.

Lemma region_end_eq r : 0 <= rgn_base r -> 0 <= rgn_size r -> rgn_end r <= U64_MAX ->
  region_end r = rgn_end r.
Proof. intros. unfold region_end, rgn_end in *. apply u64_id. lia. Qed.

Lemma chain_region_end lo rs r : 0 <= lo -> chain lo rs -> r ∈ rs -> region_end r = rgn_end r.
Proof.
  intros ? Hc Hin. destruct (chain_In _ _ _ Hc Hin) as (? & ? & ?).
  apply region_end_eq; lia.
Qed.

(** ** The denotation *)

Lemma in_region_iff r a : in_region r a = true <-> rgn_base r <= a < rgn_end r.
Proof. unfold in_region. rewrite andb_true_iff, Z.leb_le, Z.ltb_lt. lia. Qed.

Lemma attr_at_app rs1 rs2 a :
  attr_at (rs1 ++ rs2) a =
  match attr_at rs1 a with Some x => Some x | None => attr_at rs2 a end.
Proof. induction rs1 as [|r rs1 IH]; cbn; [done|]. by case_if. Qed.

Lemma attr_at_below lo rs a : chain lo rs -> a < lo -> attr_at rs a = None.
Proof.
  revert lo; induction rs as [|r rs IH]; intros lo; cbn; [done|].
  intros (? & ? & ? & Hc) ?. destruct (in_region r a) eqn:E.
  - apply in_region_iff in E. lia.
  - eapply IH; [done|]. unfold rgn_end. lia.
Qed.

Lemma attr_at_None rs a : (forall r, r ∈ rs -> in_region r a = false) -> attr_at rs a = None.
Proof.
  induction rs as [|r rs IH]; cbn; [done|]. intros Hr.
  rewrite Hr by set_solver. apply IH. set_solver.
Qed.

Lemma attr_at_Some_inv rs a x :
  attr_at rs a = Some x -> exists r, r ∈ rs /\ in_region r a = true /\ x = attr r.
Proof.
  induction rs as [|r rs IH]; cbn; [done|]. destruct (in_region r a) eqn:E.
  - intros [= <-]. exists r. set_solver.
  - intros (r' & ? & ? & ?)%IH. exists r'. set_solver.
Qed.

Lemma attr_at_hit rs a : (exists r, r ∈ rs /\ in_region r a = true) -> is_Some (attr_at rs a).
Proof.
  intros (r & Hin & Hr). induction rs as [|r' rs IH]; [set_solver|]. cbn.
  case_if; [done|]. apply elem_of_cons in Hin as [->|Hin]; [congruence|by apply IH].
Qed.

Lemma attr_at_In lo rs r a :
  chain lo rs -> r ∈ rs -> in_region r a = true -> attr_at rs a = Some (attr r).
Proof.
  revert lo; induction rs as [|r' rs IH]; intros lo; cbn; [set_solver|].
  intros (? & ? & ? & Hc) [->|Hin]%elem_of_cons Ha; [by rewrite Ha|].
  destruct (in_region r' a) eqn:E; [|by eapply IH].
  apply in_region_iff in E, Ha. destruct (chain_In _ _ _ Hc Hin). lia.
Qed.

Lemma attr_at_is_Some lo rs a :
  chain lo rs -> is_Some (attr_at rs a) <-> exists r, r ∈ rs /\ rgn_base r <= a < rgn_end r.
Proof.
  intros Hc. split.
  - intros [x (r & ? & ?%in_region_iff & ?)%attr_at_Some_inv]. eauto.
  - intros (r & ? & ?%in_region_iff). erewrite attr_at_In by eauto. eauto.
Qed.

(** The attribute of a new region. *)
Definition new_attr (nid flags : Z) : Z * Z := (if have_node_map then nid else 0, flags).

Definition new_region (base size nid flags : Z) : memblock_region :=
  memblock_set_region_node (Region base size flags 0) nid.

Lemma new_region_base base size nid flags : rgn_base (new_region base size nid flags) = base.
Proof. unfold new_region, memblock_set_region_node. by destruct have_node_map. Qed.
Lemma new_region_size base size nid flags : rgn_size (new_region base size nid flags) = size.
Proof. unfold new_region, memblock_set_region_node. by destruct have_node_map. Qed.
Lemma new_region_attr base size nid flags :
  attr (new_region base size nid flags) = new_attr nid flags.
Proof.
  unfold new_region, attr, new_attr, memblock_get_region_node, memblock_set_region_node.
  by destruct have_node_map.
Qed.
Lemma new_region_end base size nid flags :
  rgn_end (new_region base size nid flags) = base + size.
Proof. unfold rgn_end. by rewrite new_region_base, new_region_size. Qed.

Lemma attr_set_bounds r b s :
  attr (Region b s (rgn_flags r) (rgn_nid r)) = attr r.
Proof. done. Qed.

End Facts.

Create Rewrite HintDb memblock.
#[export] Hint Rewrite @new_region_base @new_region_size @new_region_attr @new_region_end : memblock.

Section Merging.
Context `{MemblockConfig}.

(** ** [memblock_merge_regions] *)

Definition join (this next : memblock_region) : memblock_region :=
  Region (rgn_base this) (rgn_size this + rgn_size next) (rgn_flags this) (rgn_nid this).

(** What the loop computes from the entry [cur] at index [i] onwards. *)
Fixpoint merge_from (cur : memblock_region) (rest : list memblock_region)
    : list memblock_region :=
  match rest with
  | [] => [cur]
  | next :: rest =>
      if mergeable cur next then merge_from (join cur next) rest
      else cur :: merge_from next rest
  end.

Definition merge_spec (rs : list memblock_region) : list memblock_region :=
  match rs with [] => [] | r :: rs => merge_from r rs end.

Lemma mergeable_end this next : mergeable this next = true -> rgn_end this = rgn_base next.
Proof. unfold mergeable. intros. zbool. lia. Qed.

Lemma join_end this next : mergeable this next = true -> rgn_end (join this next) = rgn_end next.
Proof. intros Hm%mergeable_end. unfold rgn_end, join in *. cbn. lia. Qed.

Lemma attr_join this next : attr (join this next) = attr this.
Proof. done. Qed.

Lemma mergeable_attr this next : mergeable this next = true -> attr this = attr next.
Proof. unfold mergeable, attr. intros. zbool. congruence. Qed.

Lemma merge_test lo this next rest :
  0 <= lo -> chain lo (this :: next :: rest) ->
  negb (u64 (rgn_base this + rgn_size this) =? rgn_base next)
  || negb (memblock_get_region_node this =? memblock_get_region_node next)
  || negb (rgn_flags this =? rgn_flags next) = negb (mergeable this next).
Proof.
  cbn. intros ? (? & ? & ? & _). unfold mergeable. rewrite !negb_andb.
  unfold rgn_end in *. by u64_simpl.
Qed.

Lemma chain_join lo this next rest :
  mergeable this next = true -> chain lo (this :: next :: rest) ->
  chain lo (join this next :: rest).
Proof.
  intros Hm (? & ? & ? & ? & ? & ? & ?). cbn [chain].
  rewrite join_end by done. unfold join, rgn_end in *. cbn. split_and!; auto; lia.
Qed.

Lemma merge_regions_loop_spec rest pre this fuel lo :
  0 <= lo -> chain lo (this :: rest) -> (length rest < fuel)%nat ->
  merge_regions_loop fuel (pre ++ this :: rest) (length pre)
  = Ok (pre ++ merge_from this rest).
Proof.
  revert pre this fuel lo; induction rest as [|next rest IH];
    intros pre this [|fuel] lo Hlo Hc Hf; cbn [length] in Hf; try lia;
    cbn [merge_regions_loop merge_from].
  - by rewrite lookup_mid, lookup_mid_next_end.
  - rewrite lookup_mid, lookup_mid_next, (merge_test lo this next rest) by done.
    destruct (mergeable this next) eqn:Hm; cbn [negb].
    + rewrite insert_mid, delete_mid_next.
      pose proof (chain_join _ _ _ _ Hm Hc) as Hj.
      cbn in Hc. unfold rgn_end in Hc. destruct Hc as (? & ? & ? & ? & ? & ? & ?).
      u64_simpl. by apply (IH pre (join this next) fuel lo); [..|lia].
    + destruct Hc as (? & ? & ? & Hc). pose proof (proj1 Hc).
      assert ((u64 (rgn_base this + rgn_size this) >? rgn_base next) = false) as ->.
      { unfold rgn_end in *. u64_simpl. rewrite Z.gtb_ltb. apply Z.ltb_ge. lia. }
      rewrite (app_snoc pre this), <- (length_snoc pre this).
      rewrite (IH (pre ++ [this]) next fuel (rgn_end this)); [by rewrite <- app_assoc|..];
        [unfold rgn_end; lia|done|lia].
Qed.

Lemma memblock_merge_regions_spec ty r rs :
  regions ty = r :: rs -> chain 0 (regions ty) ->
  memblock_merge_regions ty = Ok (set_regions ty (merge_spec (regions ty))).
Proof.
  intros E Hc. unfold memblock_merge_regions, cnt. rewrite E in *.
  rewrite (merge_regions_loop_spec rs [] r _ 0); cbn; [done|lia|done|lia].
Qed.

Lemma merge_from_chain lo cur rest : chain lo (cur :: rest) -> chain lo (merge_from cur rest).
Proof.
  revert lo cur; induction rest as [|next rest IH]; intros lo cur Hc; cbn [merge_from]; [done|].
  destruct (mergeable cur next) eqn:Hm.
  - apply IH. by apply chain_join.
  - destruct Hc as (? & ? & ? & ?). cbn. split_and!; auto.
Qed.

Lemma join_attr_at lo this next rest a :
  mergeable this next = true -> chain lo (this :: next :: rest) ->
  attr_at (join this next :: rest) a = attr_at (this :: next :: rest) a.
Proof.
  intros Hm Hc. pose proof (mergeable_end _ _ Hm) as He.
  cbn [attr_at]. rewrite attr_join.
  destruct (in_region (join this next) a) eqn:E1, (in_region this a) eqn:E2,
    (in_region next a) eqn:E3; try done; try (by rewrite (mergeable_attr _ _ Hm));
  exfalso; rewrite <- ?not_true_iff_false, ?in_region_iff in *;
  rewrite join_end in * by done; cbn in Hc; unfold join, rgn_end in *; cbn in *; lia.
Qed.

Lemma merge_from_attr_at lo cur rest a :
  chain lo (cur :: rest) -> attr_at (merge_from cur rest) a = attr_at (cur :: rest) a.
Proof.
  revert lo cur; induction rest as [|next rest IH]; intros lo cur Hc; cbn [merge_from]; [done|].
  destruct (mergeable cur next) eqn:Hm.
  - rewrite (IH lo) by (by apply chain_join). by eapply join_attr_at.
  - destruct Hc as (? & ? & ? & ?). cbn [attr_at].
    destruct (in_region cur a); [done|]. by eapply IH.
Qed.

Lemma merge_from_sum cur rest : sum_sizes (merge_from cur rest) = sum_sizes (cur :: rest).
Proof.
  revert cur; induction rest as [|next rest IH]; intros cur; cbn [merge_from]; [done|].
  destruct (mergeable cur next); [rewrite IH|]; cbn in *; [lia|].
  rewrite IH. cbn. lia.
Qed.

Lemma merge_from_length cur rest : (length (merge_from cur rest) <= S (length rest))%nat.
Proof.
  revert cur; induction rest as [|next rest IH]; intros cur; cbn [merge_from]; [done|].
  destruct (mergeable cur next); cbn; [specialize (IH (join cur next))|specialize (IH next)]; lia.
Qed.

Lemma merge_from_head cur rest :
  exists r rest', merge_from cur rest = r :: rest' /\ rgn_base r = rgn_base cur /\ attr r = attr cur.
Proof.
  revert cur; induction rest as [|next rest IH]; intros cur; cbn [merge_from]; [by eauto 6|].
  destruct (mergeable cur next); [|by eauto 6].
  destruct (IH (join cur next)) as (r & rest' & -> & ? & ?). eauto 6.
Qed.

Lemma mergeable_head_eq this n1 n2 :
  rgn_base n1 = rgn_base n2 -> attr n1 = attr n2 -> mergeable this n1 = mergeable this n2.
Proof. unfold attr, mergeable. intros -> [= -> ->]. done. Qed.

Lemma merge_from_minimal cur rest : minimal (merge_from cur rest).
Proof.
  revert cur; induction rest as [|next rest IH]; intros cur; cbn [merge_from]; [done|].
  destruct (mergeable cur next) eqn:Hm; [done|].
  specialize (IH next). destruct (merge_from_head next rest) as (r & rest' & E & Hb & Ha).
  rewrite E in *. split; [|done]. by erewrite mergeable_head_eq by eassumption.
Qed.

End Merging.

(** ** Uniqueness of the minimal array *)

Section Canonical.
Context `{MemblockConfig}.

(** A region and the bounds that the denotation shows. *)
Definition same_region (r1 r2 : memblock_region) : Prop :=
  rgn_base r1 = rgn_base r2 /\ rgn_size r1 = rgn_size r2 /\ attr r1 = attr r2.

Lemma attr_at_end_differs lo r rs :
  chain lo (r :: rs) -> minimal (r :: rs) -> attr_at (r :: rs) (rgn_end r) <> Some (attr r).
Proof.
  intros (? & ? & ? & Hc) Hm. cbn [attr_at].
  assert (in_region r (rgn_end r) = false) as ->.
  { unfold in_region. rewrite (Z.ltb_irrefl (rgn_end r)). apply andb_false_r. }
  destruct rs as [|r2 rs]; [done|]. cbn [attr_at]. destruct Hm as [Hm _].
  destruct Hc as (? & ? & ? & Hc). destruct (in_region r2 (rgn_end r)) eqn:E.
  - apply in_region_iff in E. intros [= Ha1 Ha2]. unfold mergeable in Hm.
    rewrite Ha1, Ha2, !Z.eqb_refl in Hm.
    rewrite !andb_true_r in Hm. zbool. lia.
  - rewrite (attr_at_below (rgn_end r2)); [done|done|]. unfold rgn_end in *. lia.
Qed.

Lemma minimal_tail r rs : minimal (r :: rs) -> minimal rs.
Proof. destruct rs; cbn; tauto. Qed.

(** One of two minimal chains with the same denotation cannot end its first
    region before the other. *)
Lemma canonical_head_le lo r1 rs1 r2 rs2 :
  chain lo (r1 :: rs1) -> chain lo (r2 :: rs2) -> minimal (r1 :: rs1) ->
  (forall a, attr_at (r1 :: rs1) a = attr_at (r2 :: rs2) a) ->
  rgn_base r1 = rgn_base r2 -> rgn_end r2 <= rgn_end r1.
Proof.
  intros Hc1 Hc2 Hm1 Heq Hb. destruct (Z.le_gt_cases (rgn_end r2) (rgn_end r1)); [done|].
  exfalso. apply (attr_at_end_differs _ _ _ Hc1 Hm1).
  assert (attr r1 = attr r2) as ->.
  { specialize (Heq (rgn_base r1)). cbn in Heq, Hc1, Hc2. unfold rgn_end in *.
    rewrite (proj2 (in_region_iff r1 _)), (proj2 (in_region_iff r2 _)) in Heq
      by (unfold rgn_end; lia). congruence. }
  rewrite Heq. cbn. rewrite (proj2 (in_region_iff r2 _)); [done|].
  cbn in Hc1. unfold rgn_end in *. lia.
Qed.

Lemma canonical_base_le lo r1 rs1 r2 rs2 :
  chain lo (r1 :: rs1) -> chain lo (r2 :: rs2) ->
  (forall a, attr_at (r1 :: rs1) a = attr_at (r2 :: rs2) a) -> rgn_base r2 <= rgn_base r1.
Proof.
  intros (? & ? & ? & ?) Hc2 Heq. destruct (Z.le_gt_cases (rgn_base r2) (rgn_base r1)); [done|].
  specialize (Heq (rgn_base r1)).
  rewrite (attr_at_below (rgn_base r2) (r2 :: rs2)) in Heq; [|by destruct Hc2; split|done].
  cbn [attr_at] in Heq.
  by rewrite (proj2 (in_region_iff r1 _)) in Heq by (unfold rgn_end; lia).
Qed.

Lemma canonical rs1 rs2 lo :
  chain lo rs1 -> chain lo rs2 -> minimal rs1 -> minimal rs2 ->
  (forall a, attr_at rs1 a = attr_at rs2 a) -> Forall2 same_region rs1 rs2.
Proof.
  revert rs2 lo; induction rs1 as [|r1 rs1 IH]; intros [|r2 rs2] lo Hc1 Hc2 Hm1 Hm2 Heq.
  - constructor.
  - exfalso. specialize (Heq (rgn_base r2)). cbn in Heq, Hc2.
    rewrite (proj2 (in_region_iff r2 _)) in Heq by (unfold rgn_end; lia). done.
  - exfalso. specialize (Heq (rgn_base r1)). cbn in Heq, Hc1.
    rewrite (proj2 (in_region_iff r1 _)) in Heq by (unfold rgn_end; lia). done.
  - assert (Hb : rgn_base r1 = rgn_base r2).
    { apply Z.le_antisymm; eapply canonical_base_le; eauto. }
    assert (He : rgn_end r1 = rgn_end r2).
    { apply Z.le_antisymm; [eapply (canonical_head_le lo r2 rs2 r1 rs1)|
        eapply (canonical_head_le lo r1 rs1 r2 rs2)]; eauto. }
    destruct Hc1 as (? & ? & ? & Hc1), Hc2 as (? & ? & ? & Hc2).
    constructor.
    + split_and!; [done|unfold rgn_end in *; lia|].
      specialize (Heq (rgn_base r1)). cbn in Heq. unfold rgn_end in *.
      rewrite (proj2 (in_region_iff r1 _)), (proj2 (in_region_iff r2 _)) in Heq
        by (unfold rgn_end; lia). congruence.
    + apply (IH rs2 (rgn_end r1)); eauto using minimal_tail; [by rewrite He|].
      intros a. specialize (Heq a). cbn in Heq.
      destruct (Z.lt_ge_cases a (rgn_end r1)).
      * rewrite (attr_at_below (rgn_end r1)), (attr_at_below (rgn_end r1) rs2);
          rewrite ?He in *; auto.
      * assert (in_region r1 a = false) as E1.
        { apply not_true_iff_false. rewrite in_region_iff. lia. }
        assert (in_region r2 a = false) as E2.
        { apply not_true_iff_false. rewrite in_region_iff. lia. }
        by rewrite E1, E2 in Heq.
Qed.

End Canonical.

(** ** The scan of [memblock_add_range] *)

Section Adding.
Context `{MemblockConfig}.
Variables (nid flags end_ : Z).

(** The part of the new area that lies at and above [base]. *)
Definition tail_region (base : Z) : list memblock_region :=
  if base <? end_ then [new_region base (end_ - base) nid flags] else [].

(** What the insertion pass makes of the entries from index [i] on. *)
Fixpoint add_spec (base : Z) (rs : list memblock_region) : list memblock_region :=
  match rs with
  | [] => tail_region base
  | r :: rs' =>
      if end_ <=? rgn_base r then tail_region base ++ rs
      else if rgn_end r <=? base then r :: add_spec base rs'
      else if base <? rgn_base r then
        new_region base (rgn_base r - base) nid flags
          :: r :: add_spec (Z.min (rgn_end r) end_) rs'
      else r :: add_spec (Z.min (rgn_end r) end_) rs'
  end.

(** The number of entries the pass adds ([nr_new]). *)
Fixpoint count_new (base : Z) (rs : list memblock_region) : nat :=
  match rs with
  | [] => length (tail_region base)
  | r :: rs' =>
      if end_ <=? rgn_base r then length (tail_region base)
      else if rgn_end r <=? base then count_new base rs'
      else if base <? rgn_base r then S (count_new (Z.min (rgn_end r) end_) rs')
      else count_new (Z.min (rgn_end r) end_) rs'
  end.

Lemma length_add_spec base rs : length (add_spec base rs) = (length rs + count_new base rs)%nat.
Proof.
  revert base; induction rs as [|r rs IH]; intros base; cbn; [done|].
  repeat case_if; cbn; rewrite ?length_app, ?IH; cbn; lia.
Qed.

Definition finish_pass (insert : bool) (p : memblock_type * nat * nat * Z)
    : outcome (memblock_type * nat) :=
  let '(ty, i, nr_new, base) := p in
  if base <? end_ then
    if insert then
      let! ty := memblock_insert_region ty i base (u64 (end_ - base)) nid flags in
      Ok (ty, S nr_new)
    else Ok (ty, S nr_new)
  else Ok (ty, nr_new).

Lemma add_range_pass_unfold insert ty base :
  add_range_pass insert ty base end_ nid flags =
  obind (add_range_scan (S (cnt ty)) insert nid flags end_ ty 0 0 base) (finish_pass insert).
Proof. done. Qed.

Lemma insert_region_mid ty pre rest base size :
  regions ty = pre ++ rest -> (cnt ty < max ty)%nat ->
  memblock_insert_region ty (length pre) base size nid flags =
  Ok (MType (pre ++ new_region base size nid flags :: rest) (max ty)
        (u64 (total_size ty + size)) (home ty)).
Proof.
  intros E Hm. unfold memblock_insert_region.
  destruct (max ty <=? cnt ty)%nat eqn:E1; [zbool; lia|].
  by rewrite E, take_mid, drop_mid.
Qed.

(** The counting pass leaves the array alone. *)
Lemma add_range_scan_count rest pre ty nr_new base lo fuel :
  regions ty = pre ++ rest -> 0 <= lo -> chain lo rest -> (length rest < fuel)%nat ->
  obind (add_range_scan fuel false nid flags end_ ty (length pre) nr_new base)
    (finish_pass false)
  = Ok (ty, (nr_new + count_new base rest)%nat).
Proof.
  revert pre nr_new base lo fuel; induction rest as [|r rest IH];
    intros pre nr_new base lo [|fuel] E Hlo Hc Hf; cbn [length] in Hf; try lia;
    cbn [add_range_scan count_new].
  - rewrite E, app_nil_r, lookup_mid_end. cbn. unfold tail_region.
    case_if; cbn; ok_eq.
  - rewrite E, lookup_mid. destruct Hc as (? & ? & ? & Hc).
    rewrite (region_end_eq r), Z.geb_leb, Z.gtb_ltb by lia.
    assert (Hrec : forall nr base', obind (add_range_scan fuel false nid flags end_
       ty (S (length pre)) nr base') (finish_pass false)
       = Ok (ty, (nr + count_new base' rest)%nat)).
    { intros nr base'. rewrite <- (length_snoc pre r).
      apply (IH _ _ _ (rgn_end r)); [by rewrite E, <- app_snoc|unfold rgn_end; lia|done|lia]. }
    repeat case_if; rewrite ?Hrec; try (cbn; unfold tail_region; case_if; cbn); ok_eq.
Qed.

Lemma u64_add_mod x y : u64 (u64 x + y) = u64 (x + y).
Proof. unfold u64. apply Zplus_mod_idemp_l. Qed.

Lemma tail_region_sum base : base <= end_ -> sum_sizes (tail_region base) = end_ - base.
Proof. intros. unfold tail_region. case_if; cbn; rewrite ?new_region_size; lia. Qed.

Ltac mt_eq :=
  ok_eq; try (f_equal; ok_eq); unfold sum_sizes; ok_eq.

(** The inserting pass computes [add_spec]. *)
Lemma add_range_scan_insert rest pre ty nr_new base lo fuel :
  regions ty = pre ++ rest -> 0 <= lo -> chain lo rest -> 0 <= base -> end_ <= U64_MAX ->
  is_u64 (total_size ty) -> (cnt ty + count_new base rest <= max ty)%nat ->
  (length rest < fuel)%nat ->
  obind (add_range_scan fuel true nid flags end_ ty (length pre) nr_new base)
    (finish_pass true)
  = Ok (MType (pre ++ add_spec base rest) (max ty)
          (u64 (total_size ty + (sum_sizes (add_spec base rest) - sum_sizes rest))) (home ty),
        (nr_new + count_new base rest)%nat).
Proof.
  revert pre ty nr_new base lo fuel; induction rest as [|r rest IH];
    intros pre ty nr_new base lo [|fuel] E Hlo Hc Hb He Ht Hm Hf;
    cbn [length] in Hf; try lia; cbn [add_range_scan count_new add_spec] in *.
  - rewrite E, app_nil_r, lookup_mid_end. cbn [obind finish_pass]. unfold tail_region in *.
    destruct (base <? end_) eqn:E1; zbool; cbn [length] in Hm.
    + rewrite app_nil_r in E. rewrite <- (app_nil_r pre) in E.
      rewrite (insert_region_mid ty pre []) by (done || lia). cbn [obind].
      rewrite u64_id with (x := end_ - base) by ulia.
      cbn. rewrite new_region_size. mt_eq.
    + destruct ty as [rs m t h]; cbn in *. subst. rewrite Z.add_0_r, u64_id by done.
      by rewrite ?app_nil_r, ?Nat.add_0_r.
  - rewrite E, lookup_mid. destruct Hc as (? & ? & ? & Hc).
    rewrite (region_end_eq r), Z.geb_leb, Z.gtb_ltb by lia.
    assert (Hrec : forall ty' pre' nr base', 0 <= base' -> is_u64 (total_size ty') ->
       regions ty' = pre' ++ rest ->
       (cnt ty' + count_new base' rest <= max ty')%nat ->
       obind (add_range_scan fuel true nid flags end_
       ty' (length pre') nr base') (finish_pass true)
       = Ok (MType (pre' ++ add_spec base' rest) (max ty')
          (u64 (total_size ty' + (sum_sizes (add_spec base' rest) - sum_sizes rest))) (home ty'),
        (nr + count_new base' rest)%nat)).
    { intros. apply (IH _ _ _ _ (rgn_end r)); auto; [unfold rgn_end|]; lia. }
    destruct (end_ <=? rgn_base r) eqn:E1; zbool.
    { cbn [obind finish_pass]. unfold tail_region in *.
      destruct (base <? end_) eqn:E2; zbool; cbn [length] in Hm.
      - rewrite (insert_region_mid ty pre (r :: rest)) by (done || lia). cbn [obind].
        rewrite u64_id with (x := end_ - base) by ulia.
        cbn. rewrite new_region_size. mt_eq.
      - destruct ty as [rs m t h]; cbn in *. subst. rewrite Z.sub_diag, Z.add_0_r, u64_id by done.
        by rewrite Nat.add_0_r. }
    destruct (rgn_end r <=? base) eqn:E2; zbool.
    { rewrite <- (length_snoc pre r), Hrec; auto; [|by rewrite E, app_snoc].
      rewrite <- app_assoc. cbn. mt_eq. }
    destruct (base <? rgn_base r) eqn:E3; zbool.
    { rewrite (insert_region_mid ty pre (r :: rest)) by (done || lia). cbn [obind].
      rewrite u64_id with (x := rgn_base r - base) by (unfold rgn_end in *; ulia).
      replace (S (S (length pre)))
        with (length ((pre ++ [new_region base (rgn_base r - base) nid flags]) ++ [r]))
        by (rewrite !length_snoc; lia).
      rewrite Hrec; cbn [regions max total_size home].
      - cbn. rewrite u64_add_mod, new_region_size. rewrite <- !app_assoc. cbn.
        mt_eq.
      - lia.
      - apply u64_range.
      - by rewrite <- !app_assoc.
      - unfold cnt in *. cbn. rewrite E in Hm. rewrite length_app in *. cbn in *. lia. }
    rewrite <- (length_snoc pre r), Hrec; auto; [|lia|by rewrite E, app_snoc].
    rewrite <- app_assoc. cbn. mt_eq.
Qed.

Lemma add_range_pass_count ty base :
  chain 0 (regions ty) ->
  add_range_pass false ty base end_ nid flags = Ok (ty, count_new base (regions ty)).
Proof.
  intros Hc. rewrite add_range_pass_unfold.
  by rewrite (add_range_scan_count (regions ty) [] ty 0 base 0) by (done || unfold cnt; lia).
Qed.

Lemma add_range_pass_insert ty base :
  chain 0 (regions ty) -> 0 <= base -> end_ <= U64_MAX -> is_u64 (total_size ty) ->
  (cnt ty + count_new base (regions ty) <= max ty)%nat ->
  add_range_pass true ty base end_ nid flags =
  Ok (MType (add_spec base (regions ty)) (max ty)
        (u64 (total_size ty + (sum_sizes (add_spec base (regions ty)) - sum_sizes (regions ty))))
        (home ty),
      count_new base (regions ty)).
Proof.
  intros. rewrite add_range_pass_unfold.
  by rewrite (add_range_scan_insert (regions ty) [] ty 0 base 0) by (done || unfold cnt; lia).
Qed.

(** ** The result of the scan *)

Lemma add_spec_done base rs : end_ <= base -> chain end_ rs -> add_spec base rs = rs.
Proof.
  intros Hb. destruct rs as [|r rs]; cbn.
  - intros _. unfold tail_region. case_if; [lia|done].
  - intros (? & _). case_if; [|lia]. unfold tail_region. case_if; [lia|done].
Qed.

Lemma chain_tail_region lo base rs :
  lo <= base -> end_ <= U64_MAX -> chain lo rs -> chain end_ rs -> chain lo (tail_region base ++ rs).
Proof.
  intros. unfold tail_region. case_if; cbn; [|done].
  rewrite new_region_base, new_region_size, new_region_end.
  replace (base + (end_ - base)) with end_ by lia. split_and!; auto; lia.
Qed.

Lemma add_spec_chain lo base rs :
  lo <= base -> end_ <= U64_MAX -> chain lo rs -> chain lo (add_spec base rs).
Proof.
  revert lo base; induction rs as [|r rs IH]; intros lo base Hb He Hc; cbn [add_spec].
  - rewrite <- (app_nil_r (tail_region base)). by apply chain_tail_region.
  - destruct Hc as (? & ? & ? & Hc).
    destruct (end_ <=? rgn_base r) eqn:E1; zbool.
    { apply chain_tail_region; try done; cbn; split_and!; auto; lia. }
    destruct (rgn_end r <=? base) eqn:E2; zbool.
    { cbn. split_and!; auto. }
    assert (chain (rgn_end r) (add_spec (Z.min (rgn_end r) end_) rs)).
    { destruct (Z.le_gt_cases (rgn_end r) end_).
      - rewrite Z.min_l by done. apply IH; auto; lia.
      - rewrite Z.min_r, add_spec_done by lia || (eapply chain_weaken; [|done]; lia). done. }
    destruct (base <? rgn_base r) eqn:E3; zbool; cbn; [|done].
    rewrite new_region_base, new_region_size, new_region_end.
    split_and!; auto; unfold rgn_end in *; lia.
Qed.

Definition in_new (base a : Z) : bool := (base <=? a) && (a <? end_).

Lemma attr_at_tail_region base rs a :
  chain end_ rs ->
  attr_at (tail_region base ++ rs) a =
  match attr_at rs a with
  | Some x => Some x
  | None => if in_new base a then Some (new_attr nid flags) else None
  end.
Proof.
  intros Hc. unfold tail_region, in_new.
  destruct (base <? end_) eqn:E; zbool; cbn [app attr_at].
  - unfold in_region. rewrite new_region_base, new_region_end, new_region_attr.
    replace (base + (end_ - base)) with end_ by lia.
    destruct ((base <=? a) && (a <? end_)) eqn:E1; zbool; [|by destruct (attr_at rs a)].
    by rewrite (attr_at_below end_).
  - destruct (attr_at rs a); [done|]. case_if; [lia|done].
Qed.

(** Existing regions keep their attributes; the rest of the area gets the new
    ones. *)
Lemma add_spec_attr_at lo base rs a :
  lo <= base -> chain lo rs ->
  attr_at (add_spec base rs) a =
  match attr_at rs a with
  | Some x => Some x
  | None => if in_new base a then Some (new_attr nid flags) else None
  end.
Proof.
  revert lo base; induction rs as [|r rs IH]; intros lo base Hb Hc; cbn [add_spec].
  - rewrite <- (app_nil_r (tail_region base)). by rewrite attr_at_tail_region.
  - destruct Hc as (? & ? & ? & Hc).
    destruct (end_ <=? rgn_base r) eqn:E1; zbool.
    { apply attr_at_tail_region; cbn; split_and!; auto; lia. }
    destruct (rgn_end r <=? base) eqn:E2; zbool.
    { cbn [attr_at]. destruct (in_region r a); [done|]. by apply (IH (rgn_end r)). }
    assert (Hrec : in_region r a = false -> (a < base \/ rgn_base r <= a \/ end_ <= a) ->
      attr_at (add_spec (Z.min (rgn_end r) end_) rs) a =
      match attr_at rs a with
      | Some x => Some x
      | None => if in_new base a then Some (new_attr nid flags) else None
      end).
    { intros Hr Ha. destruct (Z.le_gt_cases (rgn_end r) end_).
      - rewrite Z.min_l by done. rewrite (IH (rgn_end r)) by done.
        destruct (attr_at rs a); [done|].
        assert (in_new (rgn_end r) a = in_new base a) as ->; [|done].
        unfold in_new, in_region in *. apply eq_true_iff_eq. rewrite !andb_true_iff.
        apply andb_false_iff in Hr. rewrite !Z.leb_le, !Z.ltb_lt.
        rewrite Z.leb_gt, Z.ltb_ge in Hr. lia.
      - rewrite Z.min_r, add_spec_done by lia || (eapply chain_weaken; [|done]; lia).
        destruct (attr_at rs a) eqn:E; [done|]. unfold in_new. case_if; [|done].
        apply not_true_iff_false in Hr. rewrite in_region_iff in Hr. lia. }
    destruct (base <? rgn_base r) eqn:E3; zbool; cbn [attr_at].
    + unfold in_region at 1. rewrite new_region_base, new_region_end, new_region_attr.
      destruct ((base <=? a) && (a <? base + (rgn_base r - base))) eqn:E4; zbool.
      * assert (in_region r a = false) as ->.
        { apply not_true_iff_false. rewrite in_region_iff. lia. }
        rewrite (attr_at_below (rgn_end r)) by (done || unfold rgn_end; lia).
        unfold in_new. case_if; [done|lia].
      * destruct (in_region r a) eqn:E5; [done|]. apply Hrec; [done|]. lia.
    + destruct (in_region r a) eqn:E5; [done|]. apply Hrec; [done|]. lia.
Qed.

Lemma add_spec_nonnil base rs : rs <> [] -> add_spec base rs <> [].
Proof. destruct rs; [done|]. cbn. intros _. repeat case_if; try done. by destruct (tail_region base). Qed.

End Adding.

(** ** [memblock_isolate_range] *)

Section Isolating.
Context `{MemblockConfig}.

(** The two halves of a region cut at [c]. *)
Definition lower (r : memblock_region) (c : Z) : memblock_region :=
  new_region (rgn_base r) (c - rgn_base r) (memblock_get_region_node r) (rgn_flags r).
Definition upper (r : memblock_region) (c : Z) : memblock_region :=
  Region c (rgn_end r - c) (rgn_flags r) (rgn_nid r).

Lemma lower_base r c : rgn_base (lower r c) = rgn_base r.
Proof. apply new_region_base. Qed.
Lemma lower_end r c : rgn_end (lower r c) = c.
Proof. unfold lower. rewrite new_region_end. lia. Qed.
Lemma lower_size r c : rgn_size (lower r c) = c - rgn_base r.
Proof. apply new_region_size. Qed.
Lemma lower_attr r c : attr (lower r c) = attr r.
Proof.
  unfold lower. rewrite new_region_attr. unfold new_attr, attr, memblock_get_region_node.
  by destruct have_node_map.
Qed.
Lemma upper_end r c : rgn_end (upper r c) = rgn_end r.
Proof. unfold upper, rgn_end. cbn. lia. Qed.

(** Cutting a region changes neither the chain, nor the denotation, nor the
    total size. *)
Lemma chain_cut lo pre r rest c :
  rgn_base r < c < rgn_end r -> chain lo (pre ++ r :: rest) ->
  chain lo (pre ++ lower r c :: upper r c :: rest).
Proof.
  intros Hcut. rewrite !chain_app. intros [? Hc]. split; [done|].
  cbn [chain] in *. rewrite lower_base, lower_end, lower_size, upper_end.
  cbn. unfold rgn_end in *. split_and!; try lia. apply Hc.
Qed.

Lemma attr_at_cut pre r rest c a :
  rgn_base r < c < rgn_end r ->
  attr_at (pre ++ lower r c :: upper r c :: rest) a = attr_at (pre ++ r :: rest) a.
Proof.
  intros Hcut. rewrite !attr_at_app. destruct (attr_at pre a); [done|].
  cbn [attr_at]. rewrite lower_attr. change (attr (upper r c)) with (attr r).
  destruct (in_region (lower r c) a) eqn:E1, (in_region (upper r c) a) eqn:E2,
    (in_region r a) eqn:E3; try done; exfalso;
  rewrite <- ?not_true_iff_false, ?in_region_iff in *;
  rewrite ?lower_base, ?lower_end, ?upper_end in *; cbn in *; lia.
Qed.

Lemma sum_sizes_cut pre r rest c :
  sum_sizes (pre ++ lower r c :: upper r c :: rest) = sum_sizes (pre ++ r :: rest).
Proof.
  rewrite !sum_sizes_app. unfold sum_sizes. cbn. rewrite lower_size.
  unfold rgn_end. lia.
Qed.

(** The statements of both splitting branches of the loop. *)
Definition split_at (ty : memblock_type) (i : nat) (r : memblock_region) (c : Z)
    : outcome memblock_type :=
  let rgn := Region c (u64 (rgn_size r - (c - rgn_base r))) (rgn_flags r) (rgn_nid r) in
  let ty := MType (<[i := rgn]> (regions ty)) (max ty)
              (u64 (total_size ty - (c - rgn_base r))) (home ty) in
  memblock_insert_region ty i (rgn_base r) (u64 (c - rgn_base r))
    (memblock_get_region_node rgn) (rgn_flags rgn).

Lemma split_at_spec ty pre r rest c :
  regions ty = pre ++ r :: rest -> chain 0 (regions ty) -> rgn_base r < c < rgn_end r ->
  is_u64 (total_size ty) -> (cnt ty < max ty)%nat ->
  split_at ty (length pre) r c
  = Ok (MType (pre ++ lower r c :: upper r c :: rest) (max ty) (total_size ty) (home ty)).
Proof.
  intros E Hc Hcut Ht Hm. unfold split_at.
  destruct (chain_In 0 (regions ty) r Hc) as (? & ? & ?); [rewrite E; set_solver|].
  rewrite (u64_id (c - _)), (u64_id (rgn_size r - _)) by (unfold rgn_end in *; ulia).
  replace (rgn_size r - (c - rgn_base r)) with (rgn_end r - c) by (unfold rgn_end; lia).
  rewrite E, insert_mid. erewrite insert_region_mid.
  - unfold upper. cbn [regions max total_size home rgn_flags].
    rewrite u64_add_mod, Z.sub_add, u64_id by done.
    do 2 f_equal.
  - done.
  - unfold cnt in *. cbn. rewrite E, length_app in *. cbn in *. lia.
Qed.

Variables (base end_ : Z).

Definition below (r : memblock_region) : Prop := rgn_end r <= base.
Definition inside (r : memblock_region) : Prop := base <= rgn_base r /\ rgn_end r <= end_.
Definition above (r : memblock_region) : Prop := end_ <= rgn_base r.

(** The values of [*start_rgn] and [*end_rgn]. *)
Definition start_of (lo mid : list memblock_region) : nat :=
  match mid with [] => 0 | _ => length lo end.
Definition end_of (lo mid : list memblock_region) : nat :=
  match mid with [] => 0 | _ => length lo + length mid end.

Lemma record_start lo mid r :
  (if (end_of lo mid =? 0)%nat then length (lo ++ mid) else start_of lo mid)
  = start_of lo (mid ++ [r]).
Proof.
  destruct mid as [|m mid]; cbn.
  - by rewrite app_nil_r.
  - case_if; [lia|done].
Qed.

Lemma record_end lo mid r : S (length (lo ++ mid)) = end_of lo (mid ++ [r]).
Proof. rewrite length_app. destruct mid; cbn; rewrite ?length_app; cbn; lia. Qed.

(** The array after isolation: entries below, inside and above the range. *)
Record isolated (ty ty' : memblock_type) (lo mid hi : list memblock_region) : Prop := {
  iso_regions : regions ty' = lo ++ mid ++ hi;
  iso_below : Forall below lo;
  iso_inside : Forall inside mid;
  iso_above : Forall above hi;
  iso_chain : chain 0 (regions ty');
  iso_attr : forall a, attr_at (regions ty') a = attr_at (regions ty) a;
  iso_sum : sum_sizes (regions ty') = sum_sizes (regions ty);
  iso_total : total_size ty' = total_size ty;
  iso_max : max ty' = max ty;
  iso_home : home ty' = home ty;
  iso_cnt : (cnt ty <= cnt ty' <= cnt ty + 2)%nat
}.

Lemma isolated_step ty ty1 ty' lo mid hi :
  isolated ty1 ty' lo mid hi ->
  (forall a, attr_at (regions ty1) a = attr_at (regions ty) a) ->
  sum_sizes (regions ty1) = sum_sizes (regions ty) -> total_size ty1 = total_size ty ->
  max ty1 = max ty -> home ty1 = home ty -> (cnt ty <= cnt ty' <= cnt ty + 2)%nat ->
  isolated ty ty' lo mid hi.
Proof.
  intros [] ? ? ? ? ? ?. split; try done; try congruence.
Qed.

Lemma chain_above lo rs : chain lo rs -> end_ <= lo -> Forall above rs.
Proof.
  intros Hc Hlo. apply Forall_forall. intros r Hin.
  destruct (chain_In _ _ _ Hc Hin). unfold above. lia.
Qed.

Lemma lookup_regions_mid ty lo mid r rest :
  regions ty = lo ++ mid ++ r :: rest -> regions ty !! length (lo ++ mid) = Some r.
Proof. intros ->. by rewrite app_assoc, lookup_mid. Qed.

(** The loop once every remaining entry starts at or above [base]. *)
Lemma isolate_loop_high rest lo mid ty fuel :
  regions ty = lo ++ mid ++ rest -> chain 0 (regions ty) -> base < end_ ->
  Forall below lo -> Forall inside mid -> Forall (fun r => base <= rgn_base r) rest ->
  is_u64 (total_size ty) -> (cnt ty < max ty)%nat -> (length rest + 2 <= fuel)%nat ->
  exists ty' mid' hi,
    isolate_range_loop fuel base end_ ty (length (lo ++ mid)) (start_of lo mid) (end_of lo mid)
    = Ok (ty', start_of lo mid', end_of lo mid') /\ isolated ty ty' lo mid' hi
    /\ (cnt ty' <= cnt ty + 1)%nat.
Proof.
  intros E Hc Hbe Hlo. revert mid ty fuel E Hc.
  induction rest as [|r rest IH]; intros mid ty [|fuel] E Hc Hmid Hrest Ht Hm Hf;
    cbn [length] in Hf; try lia; cbn [isolate_range_loop].
  - rewrite lookup_ge_None_2 by (rewrite E, app_nil_r; lia).
    exists ty, mid, []. split; [done|]. split; [by constructor; try lia|lia].
  - rewrite (lookup_regions_mid _ _ _ _ _ E).
    destruct (chain_In 0 (regions ty) r Hc) as (? & ? & ?); [rewrite E; set_solver|].
    rewrite (region_end_eq r), Z.geb_leb, Z.gtb_ltb by lia.
    apply Forall_cons in Hrest as [Hr Hrest].
    destruct (end_ <=? rgn_base r) eqn:E1; zbool.
    { exists ty, mid, (r :: rest). split; [done|]. split; [|lia].
      constructor; try done; try lia. constructor; [done|].
      rewrite E, app_assoc in Hc. apply chain_cons_app in Hc.
      eapply chain_above; [done|]. unfold rgn_end. lia. }
    destruct (rgn_end r <=? base) eqn:E2; zbool; [unfold rgn_end in *; lia|].
    destruct (rgn_base r <? base) eqn:E3; zbool; [lia|].
    destruct (end_ <? rgn_end r) eqn:E4; zbool.
    + fold (split_at ty (length (lo ++ mid)) r end_).
      rewrite (split_at_spec ty (lo ++ mid) r rest end_) by (done || lia || (by rewrite E, app_assoc)).
      cbn [obind].
      set (ty1 := MType ((lo ++ mid) ++ lower r end_ :: upper r end_ :: rest)
                    (max ty) (total_size ty) (home ty)).
      assert (Hc1 : chain 0 (regions ty1)).
      { cbn. apply chain_cut; [done|]. by rewrite <- app_assoc, <- E. }
      destruct fuel as [|[|fuel]]; [lia..|].
      cbn [isolate_range_loop]. subst ty1. cbn [regions max total_size home].
      rewrite lookup_mid, (region_end_eq (lower r end_)), lower_base, lower_end, Z.geb_leb
        by (rewrite ?lower_base, ?lower_size, ?lower_end; unfold rgn_end in *; lia).
      zdec. rewrite (record_start _ _ (lower r end_)), (record_end _ _ (lower r end_)).
      rewrite (app_snoc (lo ++ mid) (lower r end_)), <- (record_end lo mid (lower r end_)),
        <- (length_snoc (lo ++ mid) (lower r end_)), lookup_mid.
      cbn [upper rgn_base]. rewrite Z.geb_leb, Z.leb_refl.
      eexists _, (mid ++ [lower r end_]), (upper r end_ :: rest). split.
      { do 2 f_equal. rewrite length_snoc. apply record_end. }
      split.
      * constructor; cbn [regions max total_size home]; try done.
        -- by rewrite <- !app_assoc.
        -- apply Forall_app. split; [done|]. constructor; [|constructor].
           unfold inside. rewrite lower_base, lower_end. lia.
        -- constructor; [unfold above; cbn; lia|].
           rewrite E, app_assoc in Hc. apply chain_cons_app in Hc.
           eapply chain_above; [done|]. lia.
        -- by rewrite <- app_assoc.
        -- intros a. rewrite <- app_assoc. cbn. rewrite attr_at_cut by done.
           by rewrite E, app_assoc.
        -- rewrite <- app_assoc. cbn. rewrite sum_sizes_cut. by rewrite E, app_assoc.
        -- unfold cnt. cbn. rewrite E, !length_app. cbn. lia.
      * unfold cnt. cbn. rewrite E, !length_app. cbn. lia.
    + rewrite (record_start lo mid r), (record_end lo mid r).
      assert (Hl : end_of lo (mid ++ [r]) = length (lo ++ mid ++ [r])).
      { rewrite <- record_end, app_assoc, length_snoc. done. }
      specialize (IH (mid ++ [r]) ty fuel). rewrite <- Hl in IH.
      apply IH; auto; [by rewrite E, <- !app_assoc| |lia].
      apply Forall_app. split; [done|]. constructor; [done|constructor].
Qed.

(** The whole loop. *)
Lemma isolate_loop_spec rest lo ty fuel :
  regions ty = lo ++ rest -> chain 0 (regions ty) -> base < end_ -> Forall below lo ->
  is_u64 (total_size ty) -> (cnt ty + 2 <= max ty)%nat -> (length rest + 3 <= fuel)%nat ->
  exists ty' lo' mid' hi,
    isolate_range_loop fuel base end_ ty (length lo) 0 0
    = Ok (ty', start_of lo' mid', end_of lo' mid') /\ isolated ty ty' lo' mid' hi.
Proof.
  intros E Hc Hbe. revert lo fuel E.
  induction rest as [|r rest IH]; intros lo fuel E Hlo Ht Hm Hf.
  - destruct (isolate_loop_high [] lo [] ty fuel) as (ty' & mid' & hi & Hl & Hi & _);
      auto; try (cbn in *; lia); try constructor.
    rewrite app_nil_r in Hl. by exists ty', lo, mid', hi.
  - destruct (chain_In 0 (regions ty) r Hc) as (? & ? & ?); [rewrite E; set_solver|].
    assert (Hrest : Forall (fun r' => rgn_end r <= rgn_base r') rest).
    { rewrite E in Hc. apply chain_cons_app in Hc. apply Forall_forall. intros r' Hin.
      apply (chain_In _ _ _ Hc Hin). }
    destruct (Z.le_gt_cases (rgn_end r) base) as [Hle|Hgt].
    + destruct fuel as [|fuel]; [cbn in Hf; lia|]. cbn [isolate_range_loop].
      rewrite E, lookup_mid, (region_end_eq r) by lia.
      assert (rgn_base r < base) by (unfold rgn_end in *; lia). zdec.
      rewrite <- (length_snoc lo r). apply IH; auto; [by rewrite E, <- app_assoc| |cbn in Hf; lia].
      apply Forall_app. split; [done|]. constructor; [done|constructor].
    + destruct (Z.lt_ge_cases (rgn_base r) base) as [Hlt|Hge].
      * destruct fuel as [|fuel]; [cbn in Hf; lia|]. cbn [isolate_range_loop].
        rewrite E, lookup_mid, (region_end_eq r) by lia. zdec.
        rewrite <- E. fold (split_at ty (length lo) r base).
        rewrite (split_at_spec ty lo r rest base) by (done || lia). cbn [obind].
        destruct (isolate_loop_high (upper r base :: rest) (lo ++ [lower r base]) []
          (MType (lo ++ lower r base :: upper r base :: rest) (max ty) (total_size ty) (home ty))
          fuel) as (ty' & mid' & hi & Hl & Hi & Hcnt); cbn [regions max total_size home]; auto.
        -- by rewrite <- app_assoc.
        -- apply chain_cut; [done|]. by rewrite <- E.
        -- apply Forall_app. split; [done|]. constructor; [|constructor].
           unfold below. rewrite lower_end. lia.
        -- constructor; [cbn; lia|].
           eapply Forall_impl; [exact Hrest|]. cbn. lia.
        -- unfold cnt in *. rewrite E, length_app in *. cbn in *. rewrite length_app. cbn. lia.
        -- cbn in *. lia.
        -- rewrite app_nil_r, length_snoc in Hl. cbn [start_of end_of] in Hl.
           eexists ty', (lo ++ [lower r base]), mid', hi. split; [exact Hl|].
           assert (Hcnt' : (cnt ty <= cnt ty' <= cnt ty + 2)%nat).
           { destruct Hi as [_ _ _ _ _ _ _ _ _ _ Hi]. unfold cnt in *. cbn in *.
             rewrite E, !length_app in *. cbn in *. lia. }
           eapply isolated_step; [exact Hi|..]; cbn [regions max total_size home]; try done.
           ++ intros a. rewrite attr_at_cut by done. by rewrite E.
           ++ rewrite sum_sizes_cut. by rewrite E.
      * destruct (isolate_loop_high (r :: rest) lo [] ty fuel) as (ty' & mid' & hi & Hl & Hi & _);
          auto; try (cbn in *; lia).
        -- constructor; [done|]. eapply Forall_impl; [exact Hrest|]. cbn.
           unfold rgn_end. lia.
        -- rewrite app_nil_r in Hl. by exists ty', lo, mid', hi.
Qed.

End Isolating.

(** ** Removing and updating isolated entries *)

Section Removing.
Context `{MemblockConfig}.

Definition dummy_region : memblock_region :=
  memblock_set_region_node (Region 0 0 0 0) MAX_NUMNODES.

Lemma is_dummy_region : is_dummy dummy_region.
Proof. unfold dummy_region, memblock_set_region_node, is_dummy. by destruct have_node_map. Qed.

Definition or_dummy (rs : list memblock_region) : list memblock_region :=
  match rs with [] => [dummy_region] | _ => rs end.

Lemma remove_region_mid ty pre r rest :
  regions ty = pre ++ r :: rest ->
  memblock_remove_region ty (length pre) =
  MType (or_dummy (pre ++ rest)) (max ty) (u64 (total_size ty - rgn_size r)) (home ty).
Proof.
  intros E. unfold memblock_remove_region. rewrite E, lookup_mid, delete_middle.
  by destruct (pre ++ rest).
Qed.

Lemma remove_regions_loop_spec mid lo hi ty :
  regions ty = lo ++ mid ++ hi -> mid <> [] ->
  remove_regions_loop (length mid) (length lo) ty =
  MType (or_dummy (lo ++ hi)) (max ty) (u64 (total_size ty - sum_sizes mid)) (home ty).
Proof.
  revert hi ty. induction mid as [|r mid IH] using rev_ind; intros hi ty E Hne; [done|].
  rewrite length_snoc. cbn [remove_regions_loop].
  rewrite <- length_app.
  rewrite (remove_region_mid ty (lo ++ mid) r hi) by (by rewrite E, <- !app_assoc).
  rewrite sum_sizes_app. destruct (decide (mid = [])) as [->|Hmid].
  - cbn. rewrite app_nil_r. f_equal. f_equal. lia.
  - rewrite (IH hi); [|cbn [regions]|done].
    + cbn [max total_size home]. f_equal.
      rewrite <- (Z.add_opp_r (u64 _)), u64_add_mod. f_equal. cbn. lia.
    + rewrite <- app_assoc. destruct lo, mid; done.
Qed.

Lemma update_regions_loop_spec f mid lo hi :
  update_regions_loop (length mid) (length lo) f (lo ++ mid ++ hi) = lo ++ (f <$> mid) ++ hi.
Proof.
  revert lo. induction mid as [|r mid IH]; intros lo; [done|].
  cbn [length update_regions_loop fmap list_fmap app].
  rewrite alter_mid.
  rewrite (app_snoc lo (f r)), <- (length_snoc lo (f r)), IH. by rewrite <- app_assoc.
Qed.

Lemma attr_at_or_dummy rs a : attr_at (or_dummy rs) a = attr_at rs a.
Proof.
  destruct rs; [|done]. cbn. unfold in_region, rgn_end.
  destruct is_dummy_region as [-> ->]. case_if; [lia|done].
Qed.

Lemma wf_or_dummy rs : chain 0 rs -> wf_regions (or_dummy rs).
Proof.
  intros Hc. destruct rs as [|r rs].
  - right. exists dummy_region. split; [done|apply is_dummy_region].
  - left. done.
Qed.

Lemma sum_or_dummy rs : sum_sizes (or_dummy rs) = sum_sizes rs.
Proof. destruct rs; [|done]. cbn. destruct is_dummy_region as [_ ->]. lia. Qed.

Lemma length_or_dummy rs : (length (or_dummy rs) <= S (length rs))%nat.
Proof. destruct rs; cbn; lia. Qed.

(** Dropping the middle of a chain. *)
Lemma chain_drop_mid lo rs1 rs2 rs3 : chain lo (rs1 ++ rs2 ++ rs3) -> chain lo (rs1 ++ rs3).
Proof.
  rewrite !chain_app. intros (? & ? & Hc). split; [done|].
  eapply chain_weaken; [|exact Hc].
  generalize (foldl (fun _ r => rgn_end r) lo rs1) H1. clear.
  induction rs2 as [|r rs2 IH]; intros z; cbn; [lia|].
  intros (? & ? & ? & Hc). specialize (IH _ Hc). unfold rgn_end in *. lia.
Qed.

Lemma attr_at_isolated base end_ lo mid hi a :
  chain 0 (lo ++ mid ++ hi) -> base < end_ ->
  Forall (below base) lo -> Forall (inside base end_) mid -> Forall (above end_) hi ->
  attr_at (lo ++ hi) a = if in_new end_ base a then None else attr_at (lo ++ mid ++ hi) a.
Proof.
  intros Hc Hbe Hlo Hmid Hhi. rewrite !attr_at_app. unfold in_new.
  assert (Hn : forall rs P, Forall P rs -> (forall r, P r -> in_region r a = false) ->
    attr_at rs a = None).
  { intros rs P HP HPa. apply attr_at_None. intros r Hin. apply HPa.
    by eapply Forall_forall in HP. }
  destruct ((base <=? a) && (a <? end_)) eqn:E; zbool.
  - rewrite (Hn lo _ Hlo), (Hn hi _ Hhi); [done|..]; intros r; unfold above, below; intros;
      apply not_true_iff_false; rewrite in_region_iff; lia.
  - rewrite (Hn mid _ Hmid); [done|]. intros r [??].
    apply not_true_iff_false. rewrite in_region_iff. lia.
Qed.

End Removing.
