(* ===== verification/MemblockSpec.v ===== *)
(** * What the operations of mm/memblock.c do

    The theorems about [memblock_add_range], [memblock_remove_range], the
    attribute updates, the array resizing and the search, stated on the
    denotation of MemblockFacts.v. *)

From S2P Require Import Prelude Memblock MemblockFacts.

Section Spec.
Context `{MemblockConfig}.

(** The attribute of address [a] in the array [t], [None] when no region of
    the array contains it. *)
Definition lookup_addr (t : type_ptr) (st : memblock) (a : Z) : option (Z * Z) :=
  attr_at (regions (get_type t st)) a.

(** The last address above the range that starts at [base] and is [size] bytes
    long, capped at the end of the address space. *)
Definition range_end (base size : Z) : Z := base + memblock_cap_size base size.

Definition in_range (base size a : Z) : bool := (base <=? a) && (a <? range_end base size).

Lemma wf_get st t : wf_memblock st -> wf_type (get_type t st).
Proof. intros []. by destruct t. Qed.

Lemma get_set_type t ty st : get_type t (set_type t ty st) = ty.
Proof. by destruct t. Qed.

Lemma get_set_other t t' ty st : t <> t' -> get_type t' (set_type t ty st) = get_type t' st.
Proof. by destruct t, t'. Qed.

Lemma wf_set st t ty : wf_memblock st -> wf_type ty -> wf_memblock (set_type t ty st).
Proof. intros [] ?. by destruct t; split. Qed.

Lemma wf_total_u64 ty : wf_type ty -> is_u64 (total_size ty).
Proof.
  intros [[[_ Hc]|(r & -> & _ & Hs)] -> _].
  - apply chain_sum in Hc; ulia.
  - cbn. rewrite Hs. ulia.
Qed.

Lemma wf_dummy_or_chain ty :
  wf_type ty ->
  (exists r, regions ty = [r] /\ is_dummy r) \/
  (exists r rs, regions ty = r :: rs /\ chain 0 (r :: rs) /\ 0 < rgn_size r).
Proof.
  intros [[[Hne Hc]|Hd] _ _]; [right|by left].
  destruct (regions ty) as [|r rs]; [done|]. exists r, rs. split; [done|].
  split; [done|]. apply Hc.
Qed.

Lemma attr_at_dummy r a : is_dummy r -> attr_at [r] a = None.
Proof. intros [Hb Hs]. cbn. unfold in_region, rgn_end. rewrite Hb, Hs. case_if; [lia|done]. Qed.

Lemma range_end_bounds base size :
  is_u64 base -> is_u64 size -> base <= range_end base size <= U64_MAX.
Proof. unfold range_end, memblock_cap_size. ulia. Qed.

Lemma range_end_u64 base size :
  is_u64 base -> is_u64 size -> u64 (base + memblock_cap_size base size) = range_end base size.
Proof. intros. apply u64_id. pose proof (range_end_bounds base size). ulia. Qed.

(** ** Adding a range *)

(** The entries an addition needs, when the array is not empty. *)
Definition new_entries (t : type_ptr) (base size nid flags : Z) (st : memblock) : nat :=
  match regions (get_type t st) with
  | [r] => if rgn_size r =? 0 then 0 else count_new nid flags (range_end base size) base [r]
  | rs => count_new nid flags (range_end base size) base rs
  end.

Definition has_room (t : type_ptr) (extra : nat) (st : memblock) : Prop :=
  (cnt (get_type t st) + extra <= max (get_type t st))%nat.

#[global] Instance has_room_dec t extra st : Decision (has_room t extra st).
Proof. unfold has_room. apply _. Defined.

Definition add_regions (nid flags base size : Z) (rs : list memblock_region)
    : list memblock_region :=
  let end_ := range_end base size in
  match rs with
  | r :: _ =>
      if rgn_size r =? 0 then
        [memblock_set_region_node (Region base (end_ - base) flags (rgn_nid r)) nid]
      else merge_spec (add_spec nid flags end_ base rs)
  | [] => []
  end.

Lemma set_node_base r n : rgn_base (memblock_set_region_node r n) = rgn_base r.
Proof. unfold memblock_set_region_node. by destruct have_node_map. Qed.
Lemma set_node_size r n : rgn_size (memblock_set_region_node r n) = rgn_size r.
Proof. unfold memblock_set_region_node. by destruct have_node_map. Qed.
Lemma set_node_end r n : rgn_end (memblock_set_region_node r n) = rgn_end r.
Proof. unfold rgn_end. by rewrite set_node_base, set_node_size. Qed.
Lemma set_node_attr b s f n' n :
  attr (memblock_set_region_node (Region b s f n') n) = new_attr n f.
Proof.
  unfold attr, new_attr, memblock_get_region_node, memblock_set_region_node.
  by destruct have_node_map.
Qed.

Lemma make_room_enough fuel d t extra st :
  has_room t extra st -> make_room (S fuel) d t extra st = Ok (0, st).
Proof. unfold has_room. intros. cbn [make_room]. case_if; [lia|done]. Qed.

Section AddRange.
Variables (t : type_ptr) (base size nid flags : Z) (st : memblock).
Hypothesis Hwf : wf_memblock st.
Hypothesis Hbase : is_u64 base.
Hypothesis Hsize : is_u64 size.

Abbreviation ty := (get_type t st).
Abbreviation end_ := (range_end base size).

Lemma add_regions_wf :
  0 < memblock_cap_size base size -> wf_regions (add_regions nid flags base size (regions ty)).
Proof.
  intros Hpos. pose proof (range_end_bounds base size Hbase Hsize).
  unfold add_regions. destruct (wf_dummy_or_chain _ (wf_get _ t Hwf))
    as [(r & -> & Hb & Hs)|(r & rs & -> & Hc & Hr)].
  - rewrite Hs. cbn. left. split; [done|]. cbn.
    rewrite set_node_base, set_node_size, set_node_end. unfold range_end, rgn_end in *. cbn.
    ulia.
  - rewrite (proj2 (Z.eqb_neq _ _)) by lia. left.
    assert (Ha : chain 0 (add_spec nid flags end_ base (r :: rs))).
    { apply add_spec_chain; ulia || done. }
    destruct (add_spec nid flags end_ base (r :: rs)) as [|r' rs'] eqn:E.
    + by apply add_spec_nonnil in E.
    + cbn [merge_spec]. split; [|by apply merge_from_chain].
      destruct (merge_from_head r' rs') as (? & ? & -> & _). done.
Qed.

Lemma add_regions_attr a :
  0 < memblock_cap_size base size ->
  attr_at (add_regions nid flags base size (regions ty)) a =
  match attr_at (regions ty) a with
  | Some x => Some x
  | None => if in_range base size a then Some (new_attr nid flags) else None
  end.
Proof.
  intros Hpos. pose proof (range_end_bounds base size Hbase Hsize).
  unfold add_regions. destruct (wf_dummy_or_chain _ (wf_get _ t Hwf))
    as [(r & -> & Hd)|(r & rs & -> & Hc & Hr)].
  - rewrite attr_at_dummy by done. destruct Hd as [_ ->]. cbn.
    unfold in_region. rewrite set_node_base, set_node_end, set_node_attr.
    unfold in_range, rgn_end. cbn.
    by replace (base + (end_ - base)) with end_ by lia.
  - rewrite (proj2 (Z.eqb_neq _ _)) by lia.
    assert (Ha : chain 0 (add_spec nid flags end_ base (r :: rs))).
    { apply add_spec_chain; ulia || done. }
    rewrite <- (add_spec_attr_at nid flags end_ 0 base (r :: rs) a) by (ulia || done).
    destruct (add_spec nid flags end_ base (r :: rs)) as [|r' rs'] eqn:E; [done|].
    cbn [merge_spec]. by apply (merge_from_attr_at 0).
Qed.

Lemma add_regions_minimal : minimal (add_regions nid flags base size (regions ty)).
Proof.
  unfold add_regions. destruct (regions ty) as [|r rs]; [done|].
  case_if; [done|]. destruct (add_spec _ _ _ _ _); [done|]. apply merge_from_minimal.
Qed.

Definition added : memblock_type :=
  let rs := add_regions nid flags base size (regions ty) in
  MType rs (max ty) (sum_sizes rs) (home ty).

Lemma added_cnt_le : (cnt added <= cnt ty + new_entries t base size nid flags st)%nat.
Proof.
  unfold new_entries, added, cnt, add_regions. cbn [regions max].
  destruct (regions ty) as [|r rs] eqn:E; [cbn; lia|].
  destruct (rgn_size r =? 0) eqn:E0; [cbn; lia|].
  assert (Hlen : (length (add_spec nid flags end_ base (r :: rs))
    = length (r :: rs) + count_new nid flags end_ base (r :: rs))%nat) by apply length_add_spec.
  destruct (add_spec nid flags end_ base (r :: rs)) as [|r' rs'] eqn:Ea; [cbn; lia|].
  cbn [merge_spec]. pose proof (merge_from_length r' rs'). cbn [length] in *.
  destruct rs; lia.
Qed.

Lemma added_cnt :
  has_room t (new_entries t base size nid flags st) st -> (cnt added <= max added)%nat.
Proof. unfold has_room. pose proof added_cnt_le. cbn [max added]. lia. Qed.

Lemma add_range_with_room d :
  0 < memblock_cap_size base size -> has_room t (new_entries t base size nid flags st) st ->
  add_range_with d t base size nid flags st = Ok (0, set_type t added st).
Proof.
  intros Hpos Hroom. pose proof (range_end_bounds base size Hbase Hsize).
  unfold add_range_with, added, add_regions. rewrite range_end_u64 by done.
  rewrite (proj2 (Z.eqb_neq _ _)) by lia.
  unfold has_room, new_entries in Hroom.
  pose proof (wf_total_u64 _ (wf_get _ t Hwf)) as Ht.
  pose proof (wf_total _ (wf_get _ t Hwf)) as Hsum.
  destruct (wf_dummy_or_chain _ (wf_get _ t Hwf))
    as [(r & E & Hd)|(r & rs & E & Hc & Hr)]; rewrite E in *.
  - destruct Hd as [_ Hs]. cbn. rewrite Hs. cbn.
    rewrite set_node_size. cbn. unfold range_end.
    rewrite !Z.add_simpl_l, Z.add_0_r. done.
  - change ((r :: rs) !!! 0%nat) with r. rewrite (proj2 (Z.eqb_neq _ _)) by lia.
    assert (Hroom' : (cnt ty + count_new nid flags end_ base (regions ty) <= max ty)%nat).
    { rewrite E. destruct rs; [rewrite (proj2 (Z.eqb_neq _ _)) in Hroom by lia|]; done. }
    rewrite add_range_pass_count by (by rewrite E). cbn [obind].
    rewrite make_room_enough by done. cbn [obind].
    rewrite add_range_pass_insert; [cbn [obind]|by rewrite E|ulia|ulia|done|done].
    assert (Ha : chain 0 (add_spec nid flags end_ base (r :: rs))).
    { apply add_spec_chain; ulia || done. }
    rewrite E in *. destruct (add_spec nid flags end_ base (r :: rs)) as [|r' rs'] eqn:Ea.
    { by apply add_spec_nonnil in Ea. }
    erewrite memblock_merge_regions_spec by done. cbn.
    rewrite merge_from_sum. pose proof (chain0_sum _ Ha). rewrite Hsum.
    unfold set_regions, sum_sizes in *. cbn in *.
    do 4 f_equal. rewrite u64_id; lia.
Qed.

(** Without room and without the right to resize, nothing changes. *)
Lemma add_range_no_room d :
  (forall b s, d t b s st = Ok (-1, st)) ->
  0 < memblock_cap_size base size -> ~ has_room t (new_entries t base size nid flags st) st ->
  add_range_with d t base size nid flags st = Ok (- ENOMEM, st).
Proof.
  intros Hd Hpos Hroom. unfold add_range_with. rewrite range_end_u64 by done.
  rewrite (proj2 (Z.eqb_neq _ _)) by lia. unfold has_room, new_entries in Hroom.
  pose proof (wf_max _ (wf_get _ t Hwf)) as Hm.
  destruct (wf_dummy_or_chain _ (wf_get _ t Hwf))
    as [(r & E & _ & Hs)|(r & rs & E & Hc & Hr)]; rewrite E in *.
  - rewrite Hs in Hroom. cbn in Hroom. lia.
  - change ((r :: rs) !!! 0%nat) with r. rewrite (proj2 (Z.eqb_neq _ _)) by lia.
    rewrite add_range_pass_count by (by rewrite E). cbn [obind].
    assert (Hroom' : ~ (cnt ty + count_new nid flags end_ base (regions ty) <= max ty)%nat).
    { rewrite E. destruct rs; [rewrite (proj2 (Z.eqb_neq _ _)) in Hroom by lia|]; done. }
    cbn [make_room]. case_if; [|lia]. by rewrite Hd.
Qed.

Lemma added_wf :
  0 < memblock_cap_size base size -> has_room t (new_entries t base size nid flags st) st ->
  wf_type added.
Proof. intros. split; [by apply add_regions_wf|done|by apply added_cnt]. Qed.

End AddRange.

(** ** Isolating, removing and updating a range *)

Section Isolate.
Variables (t : type_ptr) (base size : Z) (st : memblock).
Hypothesis Hwf : wf_memblock st.
Hypothesis Hbase : is_u64 base.
Hypothesis Hsize : is_u64 size.
Hypothesis Hroom : has_room t 2 st.
Hypothesis Hpos : 0 < memblock_cap_size base size.

Abbreviation ty := (get_type t st).
Abbreviation end_ := (range_end base size).

(** The loop over the dummy entry of an empty array leaves it alone. *)
Lemma isolate_dummy r fuel :
  regions ty = [r] -> is_dummy r -> 
  isolate_range_loop (S (S fuel)) base end_ ty 0 0 0 = Ok (ty, 0%nat, 0%nat).
Proof.
  intros E [Hb Hs]. pose proof (range_end_bounds base size Hbase Hsize).
  cbn [isolate_range_loop]. rewrite E. cbn [lookup list_lookup].
  unfold region_end. rewrite Hb, Hs. change (u64 (0 + 0)) with 0.
  assert (0 < end_) by (unfold range_end in *; ulia).
  destruct (0 >=? end_) eqn:E1; rewrite Z.geb_leb in E1; zbool; [lia|].
  destruct (0 <=? base) eqn:E2; zbool; [|ulia]. done.
Qed.

Lemma isolate_range_with_room d :
  exists ty' lo mid hi,
    isolate_range_with d t base size st
    = Ok (0, start_of lo mid, end_of lo mid, set_type t ty' st)
    /\ ((mid = [] /\ ty' = ty /\ exists r, regions ty = [r] /\ is_dummy r)
        \/ isolated base end_ ty ty' lo mid hi).
Proof.
  pose proof (range_end_bounds base size Hbase Hsize).
  unfold isolate_range_with. rewrite range_end_u64 by done.
  rewrite (proj2 (Z.eqb_neq _ _)) by lia.
  rewrite make_room_enough by done. cbn [obind]. change (0 <? 0) with false. cbn iota.
  destruct (wf_dummy_or_chain _ (wf_get _ t Hwf)) as [(r & E & Hd)|(r & rs & E & Hc & Hr)].
  - exists ty, [], [], [r]. unfold cnt. rewrite E. cbn [length Nat.add].
    rewrite (isolate_dummy r) by done. cbn [obind]. split; [done|]. left. eauto 6.
  - destruct (isolate_loop_spec base end_ (regions ty) [] ty (cnt ty + 3))
      as (ty' & lo & mid & hi & Hl & Hi); try done.
    + by rewrite E.
    + unfold range_end. lia.
    + by apply wf_total_u64, wf_get.
    + cbn [length] in Hl. rewrite Hl. cbn [obind]. exists ty', lo, mid, hi. split; [done|]. by right.
Qed.

Lemma isolated_nonnil ty1 lo mid hi : isolated base end_ ty ty1 lo mid hi -> lo ++ mid ++ hi <> [].
Proof.
  intros [] E. unfold cnt in iso_cnt. rewrite iso_regions, E in iso_cnt.
  destruct (wf_rs _ (wf_get _ t Hwf)) as [[Hn _]|(? & E' & _)];
    [destruct (regions ty); [done|]|rewrite E' in iso_cnt]; cbn in *; lia.
Qed.

(** Removing. *)
Lemma remove_range_with_room d :
  exists ty',
    remove_range_with d t base size st = Ok (0, set_type t ty' st)
    /\ wf_type ty' /\ max ty' = max ty /\ home ty' = home ty
    /\ (cnt ty' <= cnt ty + 2)%nat
    /\ forall a, attr_at (regions ty') a =
         if in_range base size a then None else attr_at (regions ty) a.
Proof.
  pose proof (range_end_bounds base size Hbase Hsize).
  destruct (isolate_range_with_room d) as (ty1 & lo & mid & hi & Hl & Hi).
  unfold remove_range_with. rewrite Hl. cbn [obind]. change (negb (0 =? 0)) with false. cbn iota.
  rewrite get_set_type.
  destruct Hi as [(-> & -> & r & E & Hd)|Hi].
  - cbn. exists ty. split; [by destruct t, st|]. split; [by apply wf_get|].
    split_and!; [done|done|lia|]. intros a. rewrite E, attr_at_dummy by done. by case_if.
  - pose proof (isolated_nonnil _ _ _ _ Hi) as Hnn.
    destruct Hi. pose proof (wf_total_u64 _ (wf_get _ t Hwf)) as Ht.
    pose proof (wf_total _ (wf_get _ t Hwf)) as Hsum. rewrite iso_regions in *.
    assert (Hat : forall a, attr_at (lo ++ hi) a =
              if in_range base size a then None else attr_at (regions ty) a).
    { intros a. rewrite <- iso_attr. apply (attr_at_isolated base end_); try done.
      unfold range_end. lia. }
    destruct (decide (mid = [])) as [->|Hne].
    + cbn [start_of end_of Nat.sub remove_regions_loop].
      exists ty1. split; [by destruct t, st|]. split_and!; try done.
      * split; [|by rewrite iso_regions, iso_total, Hsum|].
        -- left. by rewrite iso_regions.
        -- unfold has_room in Hroom. lia.
      * lia.
      * intros a. rewrite iso_regions. apply Hat.
    + replace (end_of lo mid - start_of lo mid)%nat with (length mid)
        by (destruct mid; cbn; [done|lia]).
      replace (start_of lo mid) with (length lo) by (by destruct mid).
      rewrite (remove_regions_loop_spec mid lo hi ty1) by done.
      eexists. split; [by destruct t, st|]. cbn [max home regions].
      assert (Hch : chain 0 (lo ++ hi)) by (by eapply chain_drop_mid).
      split_and!; [|done|done| |intros a; rewrite attr_at_or_dummy; apply Hat].
      2: { unfold cnt in *. cbn [regions]. pose proof (length_or_dummy (lo ++ hi)).
           rewrite iso_regions, !length_app in iso_cnt. rewrite length_app in *. destruct mid; [done|].
           cbn in iso_cnt. lia. }
      split; cbn [regions total_size max].
      * by apply wf_or_dummy.
      * rewrite sum_or_dummy. pose proof (chain0_sum _ Hch).
        rewrite !sum_sizes_app in *. rewrite u64_id; rewrite iso_total, Hsum, <- iso_sum; lia.
      * unfold cnt. cbn [regions]. pose proof (length_or_dummy (lo ++ hi)).
        unfold cnt in iso_cnt. rewrite iso_regions, !length_app in iso_cnt.
        rewrite length_app in *. unfold has_room, cnt in Hroom.
        destruct mid; [done|]. cbn in iso_cnt. lia.
Qed.

(** Updating: [f] changes attributes only. *)
Variables (f : memblock_region -> memblock_region) (g : Z * Z -> Z * Z).
Hypothesis f_base : forall r, rgn_base (f r) = rgn_base r.
Hypothesis f_size : forall r, rgn_size (f r) = rgn_size r.
Hypothesis f_attr : forall r, attr (f r) = g (attr r).

Lemma f_end r : rgn_end (f r) = rgn_end r.
Proof. unfold rgn_end. by rewrite f_base, f_size. Qed.

Lemma chain_fmap_mid l lo mid hi :
  chain l (lo ++ mid ++ hi) -> chain l (lo ++ (f <$> mid) ++ hi).
Proof.
  rewrite !chain_app. intros (? & Hm & Hh). split; [done|].
  revert Hm Hh. generalize (foldl (fun _ r => rgn_end r) l lo).
  induction mid as [|r mid IH]; intros z; cbn; [done|].
  rewrite f_base, f_size, f_end. intros (? & ? & ? & Hm) Hh.
  destruct (IH _ Hm Hh). done.
Qed.

Lemma sum_sizes_fmap mid : sum_sizes (f <$> mid) = sum_sizes mid.
Proof. unfold sum_sizes. induction mid; cbn; [done|]. rewrite f_size. lia. Qed.

Lemma attr_at_fmap rs a : attr_at (f <$> rs) a = g <$> attr_at rs a.
Proof.
  induction rs as [|r rs IH]; cbn; [done|]. unfold in_region.
  rewrite f_base, f_end, f_attr. by case_if.
Qed.

Lemma merge_regions_dummy ty0 r :
  regions ty0 = [r] -> memblock_merge_regions ty0 = Ok ty0.
Proof.
  intros E. unfold memblock_merge_regions, cnt. rewrite E. cbn.
  destruct ty0; cbn in *. by subst.
Qed.

Lemma attr_at_updated ty1 lo mid hi a :
  isolated base end_ ty ty1 lo mid hi ->
  attr_at (lo ++ (f <$> mid) ++ hi) a =
  if in_range base size a then g <$> attr_at (regions ty) a else attr_at (regions ty) a.
Proof.
  intros []. pose proof (range_end_bounds base size Hbase Hsize).
  rewrite <- iso_attr. rewrite iso_regions in *.
  pose proof (attr_at_isolated base end_ lo mid hi a iso_chain
                ltac:(unfold range_end; lia) iso_below iso_inside iso_above) as Hdrop.
  rewrite !attr_at_app in *. rewrite attr_at_fmap.
  change (in_new end_ base a) with (in_range base size a) in Hdrop.
  assert (Hout : in_range base size a = false -> attr_at mid a = None).
  { intros Hr. apply attr_at_None. intros r Hin.
    eapply Forall_forall in iso_inside as [??]; [|done].
    apply not_true_iff_false. rewrite in_region_iff. unfold in_range in Hr. zbool. lia. }
  destruct (in_range base size a), (attr_at lo a), (attr_at mid a), (attr_at hi a);
    cbn in *; try congruence; by (specialize (Hout eq_refl)).
Qed.

Lemma update_regions_isolated lo mid hi :
  update_regions_loop (end_of lo mid - start_of lo mid) (start_of lo mid) f (lo ++ mid ++ hi)
  = lo ++ (f <$> mid) ++ hi.
Proof.
  destruct (decide (mid = [])) as [->|Hne]; [done|].
  replace (end_of lo mid - start_of lo mid)%nat with (length mid)
    by (destruct mid; cbn; [done|lia]).
  replace (start_of lo mid) with (length lo) by (by destruct mid).
  by rewrite update_regions_loop_spec.
Qed.

Lemma update_range_room :
  exists ty',
    update_range t f base size st = Ok (0, set_type t ty' st)
    /\ wf_type ty' /\ max ty' = max ty /\ home ty' = home ty /\ minimal (regions ty')
    /\ (cnt ty' <= cnt ty + 2)%nat
    /\ forall a, attr_at (regions ty') a =
         if in_range base size a then g <$> attr_at (regions ty) a else attr_at (regions ty) a.
Proof.
  destruct (isolate_range_with_room memblock_double_array) as (ty1 & lo & mid & hi & Hl & Hi).
  unfold update_range, memblock_isolate_range. rewrite Hl. cbn [obind].
  change (negb (0 =? 0)) with false. cbn iota. rewrite get_set_type.
  destruct Hi as [(-> & -> & r & E & Hd)|Hi].
  - cbn [start_of end_of Nat.sub update_regions_loop].
    rewrite (merge_regions_dummy _ r) by done. cbn [obind].
    exists ty. split; [by destruct t, st, (get_type _ _)|].
    split; [by apply wf_get|]. split_and!; [done|done|by rewrite E|lia|].
    intros a. rewrite E, attr_at_dummy by done. by case_if.
  - pose proof (isolated_nonnil _ _ _ _ Hi) as Hnn.
    pose proof (fun a => attr_at_updated _ _ _ _ a Hi) as Hat.
    destruct Hi. pose proof (wf_total _ (wf_get _ t Hwf)) as Hsum. rewrite iso_regions in *.
    rewrite update_regions_isolated.
    pose proof (chain_fmap_mid _ _ _ _ iso_chain) as Hc.
    assert (Hlen : length (lo ++ (f <$> mid) ++ hi) = cnt ty1).
    { unfold cnt. rewrite iso_regions, !length_app, length_fmap. done. }
    assert (Hsm : sum_sizes (lo ++ (f <$> mid) ++ hi) = total_size ty).
    { rewrite Hsum, <- iso_sum, !sum_sizes_app, sum_sizes_fmap. done. }
    destruct (lo ++ (f <$> mid) ++ hi) as [|r rs] eqn:E.
    + destruct Hnn. by destruct lo, mid, hi.
    + erewrite memblock_merge_regions_spec by done. cbn [obind regions set_regions merge_spec].
      eexists. split; [by destruct t, st|]. unfold set_regions. cbn [regions max home].
      pose proof (merge_from_length r rs) as Hml. cbn in Hlen.
      split_and!; [|done|done|apply merge_from_minimal|unfold cnt at 1; cbn [regions]; lia|].
      * split; cbn [regions total_size max].
        -- left. split; [|by apply merge_from_chain].
           destruct (merge_from_head r rs) as (? & ? & -> & _). done.
        -- rewrite merge_from_sum. congruence.
        -- unfold cnt. cbn [regions]. unfold has_room in Hroom. lia.
      * intros a. rewrite (merge_from_attr_at 0) by done. apply Hat.
Qed.

End Isolate.

(** What a node update does to an attribute. *)
Definition node_attr (nid : Z) (x : Z * Z) : Z * Z :=
  (if have_node_map then nid else fst x, snd x).

Lemma set_node_attr_of r nid :
  attr (memblock_set_region_node r nid) = node_attr nid (attr r).
Proof.
  unfold attr, node_attr, memblock_get_region_node, memblock_set_region_node.
  by destruct have_node_map.
Qed.

Lemma clear_flags_attr r flags :
  attr (memblock_clear_region_flags r flags) = (fst (attr r), Z.ldiff (snd (attr r)) flags).
Proof. unfold attr. cbn. by rewrite Z.ldiff_land. Qed.

(** Before resizing is allowed, success means there was room. *)
Lemma add_range_ok_inv t base size nid flags st st' :
  memblock_add_range t base size nid flags st = Ok (0, st') ->
  wf_memblock st -> memblock_can_resize st = false ->
  is_u64 base -> is_u64 size -> 0 < memblock_cap_size base size ->
  wf_memblock st' /\ memblock_can_resize st' = false
  /\ chain 0 (regions (get_type t st')) /\ minimal (regions (get_type t st'))
  /\ forall a, lookup_addr t st' a =
       match lookup_addr t st a with
       | Some x => Some x
       | None => if in_range base size a then Some (new_attr nid flags) else None
       end.
Proof.
  intros E Hwf Hrs Hb Hs Hpos.
  destruct (decide (has_room t (new_entries t base size nid flags st) st)) as [Hroom|Hroom].
  - unfold memblock_add_range in E. rewrite add_range_with_room in E by done. injection E as <-.
    pose proof (added_wf t base size nid flags st Hwf Hb Hs Hpos Hroom) as Hw.
    unfold lookup_addr. rewrite get_set_type. split_and!; [by apply wf_set|by destruct t| |..].
    + destruct (wf_rs _ Hw) as [[_ Hc]|(r & Er & Hd)]; [done|exfalso].
      pose proof (add_regions_attr t base size nid flags st Hwf Hb Hs base Hpos) as Ha.
      cbn [added regions] in Er. rewrite Er, attr_at_dummy in Ha by done.
      unfold in_range, range_end in Ha. rewrite (proj2 (Z.leb_le base base)) in Ha by lia.
      rewrite (proj2 (Z.ltb_lt base _)) in Ha by lia. by destruct (attr_at _ base).
    + by apply add_regions_minimal.
    + intros a. by apply add_regions_attr.
  - exfalso. unfold memblock_add_range in E. rewrite add_range_no_room in E; try done.
    intros b s. unfold memblock_double_array. cbn [double_array_fuel]. by rewrite Hrs.
Qed.

End Spec.
