(* ===== verification/MemblockFind.v ===== *)
(** * Walking and finding free memory (mm/memblock.c)

    The lock-step iterators [__next_mem_range] and [__next_mem_range_rev]
    enumerate the same ranges as the plain double loop over regions and gaps;
    on top of that, what [memblock_find_in_range_node] finds is free, aligned
    and inside the window, and it finds something whenever there is
    something to find. *)

From S2P Require Import Prelude Memblock MemblockFacts MemblockSpec.

(** ** The reference enumeration *)

Section Ranges.
Context `{MemblockConfig}.

(** The areas between the entries of the excluding array. *)
Definition gaps (b : memblock_type) : list (Z * Z) :=
  (fun j => area_before b (Z.of_nat j)) <$> seq 0 (S (cnt b)).

Definition overlap (m : memblock_region) (g : Z * Z) : bool :=
  (rgn_base m <? snd g) && (fst g <? rgn_end m).

Definition inter (m : memblock_region) (g : Z * Z) : list (Z * Z * Z) :=
  if overlap m g
  then [(Z.max (rgn_base m) (fst g), Z.min (rgn_end m) (snd g), memblock_get_region_node m)]
  else [].

Definition row (nid : Z) (m : memblock_region) (gs : list (Z * Z)) : list (Z * Z * Z) :=
  if region_skipped nid m then [] else gs ≫= inter m.

(** Every overlap of a region that is not skipped with a gap, in order. *)
Definition all_ranges (nid : Z) (ms : list memblock_region) (gs : list (Z * Z))
    : list (Z * Z * Z) :=
  ms ≫= (fun m => row nid m gs).

(** *** Order *)

Definition gap_before (g1 g2 : Z * Z) : Prop := snd g1 <= fst g2.
Definition region_before (m1 m2 : memblock_region) : Prop := rgn_end m1 <= rgn_base m2.

Definition proper_regions (rs : list memblock_region) : Prop :=
  forall i j m1 m2, (i < j)%nat -> rs !! i = Some m1 -> rs !! j = Some m2 -> region_before m1 m2.

Lemma chain_lookup_lt lo rs i j r1 r2 :
  chain lo rs -> (i < j)%nat -> rs !! i = Some r1 -> rs !! j = Some r2 -> rgn_end r1 <= rgn_base r2.
Proof.
  intros Hc Hij Hi Hj. rewrite <- (take_drop j rs) in Hc.
  eapply (chain_last _ _ _ Hc).
  - apply list_elem_of_lookup. exists i. by rewrite lookup_take_lt.
  - apply list_elem_of_lookup. exists 0%nat. by rewrite lookup_drop, Nat.add_0_r.
Qed.

Lemma wf_region_bounds ty r :
  wf_type ty -> r ∈ regions ty ->
  0 <= rgn_base r /\ 0 <= rgn_size r /\ rgn_end r <= U64_MAX /\ region_end r = rgn_end r.
Proof.
  intros [[[_ Hc]|(r' & -> & Hb & Hs)] _ _] Hin.
  - destruct (chain_In _ _ _ Hc Hin) as (? & ? & ?).
    rewrite region_end_eq by lia. lia.
  - apply list_elem_of_singleton in Hin as ->. unfold region_end, rgn_end. rewrite Hb, Hs.
    change (u64 (0 + 0)) with 0. ulia.
Qed.

Lemma wf_lookup_lt ty i j r1 r2 :
  wf_type ty -> (i < j)%nat -> regions ty !! i = Some r1 -> regions ty !! j = Some r2 ->
  rgn_end r1 <= rgn_base r2.
Proof.
  intros [[[_ Hc]|(r' & E & _)] _ _] Hij Hi Hj; [by eapply chain_lookup_lt|].
  rewrite E in *. destruct i, j; cbn in *; try lia; done.
Qed.

Lemma lookup_total_Some (rs : list memblock_region) i r : rs !! i = Some r -> rs !!! i = r.
Proof. intros. by apply list_lookup_total_correct. Qed.

Section Gaps.
Variable b : memblock_type.
Hypothesis Hb : wf_type b.

Lemma length_gaps : length (gaps b) = S (cnt b).
Proof. unfold gaps. by rewrite length_fmap, length_seq. Qed.

Lemma gaps_lookup j : (j <= cnt b)%nat -> gaps b !! j = Some (area_before b (Z.of_nat j)).
Proof.
  intros. unfold gaps. rewrite list_lookup_fmap, lookup_seq_lt by lia. done.
Qed.

Lemma gap_start j r :
  regions b !! j = Some r -> fst (area_before b (Z.of_nat (S j))) = rgn_end r.
Proof.
  intros Hj. unfold area_before. cbn [fst].
  rewrite (proj2 (Z.eqb_neq _ _)) by lia.
  replace (Z.to_nat (Z.of_nat (S j) - 1)) with j by lia.
  rewrite (lookup_total_Some _ _ _ Hj).
  apply (wf_region_bounds b); [done|]. by eapply list_elem_of_lookup_2.
Qed.

Lemma gap_end j r : regions b !! j = Some r -> snd (area_before b (Z.of_nat j)) = rgn_base r.
Proof.
  intros Hj. unfold area_before. cbn [snd]. apply lookup_lt_Some in Hj as Hlt.
  fold (cnt b) in Hlt. rewrite (proj2 (Z.ltb_lt _ _)) by lia. rewrite Nat2Z.id.
  by rewrite (lookup_total_Some _ _ _ Hj).
Qed.

Lemma gap_last : snd (area_before b (Z.of_nat (cnt b))) = U64_MAX.
Proof. unfold area_before. cbn [snd]. by rewrite Z.ltb_irrefl. Qed.

Lemma gap_first : fst (area_before b (Z.of_nat 0)) = 0.
Proof. done. Qed.

Lemma gap_proper j : (j <= cnt b)%nat ->
  0 <= fst (area_before b (Z.of_nat j)) <= snd (area_before b (Z.of_nat j))
  /\ snd (area_before b (Z.of_nat j)) <= U64_MAX.
Proof.
  intros Hj.
  assert (Hs : 0 <= fst (area_before b (Z.of_nat j)) <= U64_MAX).
  { destruct j as [|j]; [rewrite gap_first; ulia|].
    destruct (lookup_lt_is_Some_2 (regions b) j ltac:(unfold cnt in Hj; lia)) as [r Hr].
    rewrite (gap_start _ _ Hr). destruct (wf_region_bounds b r Hb) as (? & ? & ? & _);
      [by eapply list_elem_of_lookup_2|]. unfold rgn_end in *. lia. }
  destruct (decide (j = cnt b)) as [->|Hne]; [rewrite gap_last; lia|].
  destruct (lookup_lt_is_Some_2 (regions b) j ltac:(unfold cnt in *; lia)) as [r Hr].
  rewrite (gap_end _ _ Hr) in *.
  destruct (wf_region_bounds b r Hb) as (? & ? & ? & _); [by eapply list_elem_of_lookup_2|].
  split; [|unfold rgn_end in *; lia]. destruct j as [|j]; [rewrite gap_first; lia|].
  destruct (lookup_lt_is_Some_2 (regions b) j ltac:(unfold cnt in *; lia)) as [r' Hr'].
  rewrite (gap_start _ _ Hr') in *. split; [lia|].
  by eapply (wf_lookup_lt b j (S j)); [done|lia|..].
Qed.

Lemma gap_sorted i j : (i < j <= cnt b)%nat ->
  snd (area_before b (Z.of_nat i)) <= fst (area_before b (Z.of_nat j)).
Proof.
  intros Hij. destruct j as [|j]; [lia|].
  destruct (lookup_lt_is_Some_2 (regions b) i ltac:(unfold cnt in *; lia)) as [ri Hri].
  destruct (lookup_lt_is_Some_2 (regions b) j ltac:(unfold cnt in *; lia)) as [rj Hrj].
  rewrite (gap_end _ _ Hri), (gap_start _ _ Hrj).
  destruct (wf_region_bounds b rj Hb) as (? & ? & ? & _); [by eapply list_elem_of_lookup_2|].
  destruct (decide (i = j)) as [->|Hne].
  - assert (ri = rj) as -> by congruence. unfold rgn_end. lia.
  - assert (rgn_end ri <= rgn_base rj) by (eapply (wf_lookup_lt b i j); [done|lia|done|done]).
    destruct (wf_region_bounds b ri Hb) as (? & ? & ? & _); [by eapply list_elem_of_lookup_2|].
    unfold rgn_end in *. lia.
Qed.

(** An interval that meets no region of [b] lies in one gap. *)
Lemma gap_complete x y :
  0 <= x -> x < y <= U64_MAX ->
  (forall r, r ∈ regions b -> rgn_end r <= x \/ y <= rgn_base r \/ rgn_size r = 0) ->
  exists j, (j <= cnt b)%nat /\ fst (area_before b (Z.of_nat j)) <= x
    /\ y <= snd (area_before b (Z.of_nat j)).
Proof.
  intros Hx Hxy Hdis.
  assert (Hind : forall k, (k <= cnt b)%nat ->
    (exists j, (j < k)%nat /\ fst (area_before b (Z.of_nat j)) <= x
       /\ y <= snd (area_before b (Z.of_nat j)))
    \/ fst (area_before b (Z.of_nat k)) <= x).
  { induction k as [|k IH]; intros Hk; [right; rewrite gap_first; lia|].
    destruct IH as [(j & ? & ?)|Hfst]; [lia|left; exists j; split; [lia|done]|].
    destruct (lookup_lt_is_Some_2 (regions b) k ltac:(unfold cnt in *; lia)) as [r Hr].
    destruct (wf_region_bounds b r Hb) as (? & ? & ? & _); [by eapply list_elem_of_lookup_2|].
    rewrite (gap_start _ _ Hr).
    destruct (Hdis r) as [?|[?|?]]; [by eapply list_elem_of_lookup_2|by right|..].
    - left. exists k. rewrite (gap_end _ _ Hr). auto with lia.
    - destruct (Z.le_gt_cases (rgn_end r) x); [by right|left].
      exists k. rewrite (gap_end _ _ Hr). unfold rgn_end in *.
      destruct (wf_rs _ Hb) as [[_ Hc]|(r' & E & Hd1 & Hd2)].
      + destruct (chain_In _ _ r Hc) as (? & ? & ?); [by eapply list_elem_of_lookup_2|lia].
      + rewrite E in Hr. destruct k; cbn in Hr; [|done]. injection Hr as <-. lia. }
  destruct (Hind (cnt b) ltac:(lia)) as [(j & ? & ?)|Hfst].
  - exists j. split; [lia|done].
  - exists (cnt b). rewrite gap_last. split_and!; [lia|done|lia].
Qed.

(** No region of [b] meets a gap. *)
Lemma gap_disjoint j r :
  (j <= cnt b)%nat -> r ∈ regions b ->
  rgn_end r <= fst (area_before b (Z.of_nat j)) \/ snd (area_before b (Z.of_nat j)) <= rgn_base r.
Proof.
  intros Hj [i Hi]%list_elem_of_lookup. pose proof (lookup_lt_Some _ _ _ Hi) as Hlt.
  fold (cnt b) in Hlt. destruct (decide (i < j)%nat).
  - left. rewrite <- (gap_start _ _ Hi). destruct (decide (S i = j)) as [<-|]; [lia|].
    pose proof (gap_sorted (S i) j ltac:(lia)). pose proof (gap_proper (S i) ltac:(lia)). lia.
  - right. rewrite <- (gap_end _ _ Hi). destruct (decide (i = j)) as [->|]; [lia|].
    pose proof (gap_sorted j i ltac:(lia)). pose proof (gap_proper i ltac:(lia)). lia.
Qed.

End Gaps.

(** *** Loop indices packed in a [u64] *)

Definition idx_max : Z := 2147483647.

Lemma mk_idx_sum a b : -1 <= a < idx_max -> 0 <= b < idx_max ->
  mk_idx a b = u32 a + b * 4294967296.
Proof.
  unfold mk_idx, idx_max. intros Ha Hb.
  rewrite Z.shiftl_mul_pow2 by lia. change (2 ^ 32) with 4294967296.
  rewrite u64_id by ulia.
  assert (0 <= u32 a < 4294967296).
  { unfold u32, U32_MAX. apply Z.mod_pos_bound. lia. }
  rewrite <- Z.add_lor_land.
  assert (Z.land (u32 a) (b * 4294967296) = 0) as ->; [|lia].
  apply Z.bits_inj'. intros n Hn. rewrite Z.land_spec, Z.bits_0.
  change 4294967296 with (2 ^ 32). destruct (Z.lt_ge_cases n 32).
  - by rewrite Z.mul_pow2_bits_low, andb_false_r.
  - rewrite (Z.bits_above_log2 (u32 a) n); [done|lia|].
    destruct (Z.eq_dec (u32 a) 0) as [->|]; [cbn; lia|].
    apply Z.log2_lt_pow2; [lia|]. apply Z.lt_le_trans with (2 ^ 32); [lia|].
    by apply Z.pow_le_mono_r; lia.
Qed.

Lemma mk_idx_a a b : -1 <= a < idx_max -> 0 <= b < idx_max ->
  s32 (Z.land (mk_idx a b) 4294967295) = a.
Proof.
  intros Ha Hb. rewrite mk_idx_sum by done. change 4294967295 with (Z.ones 32).
  rewrite Z.land_ones by lia. change (2 ^ 32) with 4294967296.
  rewrite Z_mod_plus_full. unfold u32, U32_MAX, s32, idx_max in *.
  change (4294967295 + 1) with 4294967296.
  rewrite Zmod_mod. destruct (Z.eq_dec a (-1)) as [->|]; [done|].
  rewrite (Z.mod_small a) by lia. rewrite Z.mod_small; lia.
Qed.

Lemma mk_idx_b a b : -1 <= a < idx_max -> 0 <= b < idx_max ->
  s32 (Z.shiftr (mk_idx a b) 32) = b.
Proof.
  intros Ha Hb. rewrite mk_idx_sum by done. rewrite Z.shiftr_div_pow2 by lia.
  change (2 ^ 32) with 4294967296.
  assert (0 <= u32 a < 4294967296).
  { unfold u32, U32_MAX. apply Z.mod_pos_bound. lia. }
  rewrite Z.div_add, Z.div_small by lia. apply s32_id. unfold idx_max in *. lia.
Qed.

Lemma mk_idx_not_max a b : -1 <= a < idx_max -> 0 <= b < idx_max -> (mk_idx a b =? U64_MAX) = false.
Proof.
  intros Ha Hb. rewrite mk_idx_sum by done. apply Z.eqb_neq.
  assert (0 <= u32 a < 4294967296).
  { unfold u32, U32_MAX. apply Z.mod_pos_bound. lia. }
  unfold idx_max, U64_MAX in *. lia.
Qed.

(** *** The two iterators follow the reference enumeration *)

Section Walk.
Variables (nid : Z) (a b : memblock_type).
Hypothesis Ha : wf_type a.
Hypothesis Hb : wf_type b.

Abbreviation ms := (regions a).
Abbreviation gs := (gaps b).

Lemma inter_nil m g : snd g <= rgn_base m \/ rgn_end m <= fst g -> inter m g = [].
Proof. intros. unfold inter, overlap. case_if; [lia|done]. Qed.

Lemma inter_rows m (l : list (Z * Z)) :
  (forall g, g ∈ l -> snd g <= rgn_base m \/ rgn_end m <= fst g) -> l ≫= inter m = [].
Proof.
  induction l as [|g l IH]; [done|]. intros Hl.
  rewrite bind_cons, inter_nil by (apply Hl; set_solver). apply IH. set_solver.
Qed.

Lemma drop_cons_lookup {A} (l : list A) i x : l !! i = Some x -> drop i l = x :: drop (S i) l.
Proof. intros. by apply drop_S. Qed.

Lemma elem_of_drop_gaps ib g :
  g ∈ drop ib gs -> exists j, (ib <= j <= cnt b)%nat /\ g = area_before b (Z.of_nat j).
Proof.
  intros [k Hk]%list_elem_of_lookup. rewrite lookup_drop in Hk.
  pose proof (lookup_lt_Some _ _ _ Hk) as Hlt. rewrite length_gaps in Hlt.
  rewrite gaps_lookup in Hk by lia. exists (ib + k)%nat. split; [lia|congruence].
Qed.

Lemma elem_of_drop_ms ia m m0 :
  ms !! ia = Some m0 -> m ∈ drop (S ia) ms -> rgn_end m0 <= rgn_base m.
Proof.
  intros Hm0 [k Hk]%list_elem_of_lookup. rewrite lookup_drop in Hk.
  eapply (wf_lookup_lt a ia (S ia + k)); [done|lia|done|done].
Qed.

(** A gap that ends before region [ia] is of no use to it nor to later ones. *)
Lemma all_ranges_skip_gap ia ib m :
  ms !! ia = Some m -> (ib <= cnt b)%nat -> snd (area_before b (Z.of_nat ib)) <= rgn_base m ->
  all_ranges nid (drop ia ms) (drop ib gs) = all_ranges nid (drop ia ms) (drop (S ib) gs).
Proof.
  intros Hm Hib Hle. unfold all_ranges.
  rewrite (drop_cons_lookup gs ib (area_before b (Z.of_nat ib))) by (by apply gaps_lookup).
  assert (Hall : forall m', m' ∈ drop ia ms -> rgn_base m <= rgn_base m').
  { rewrite (drop_cons_lookup _ _ _ Hm). intros m' [->|Hin]%elem_of_cons; [lia|].
    pose proof (elem_of_drop_ms _ _ _ Hm Hin).
    destruct (wf_region_bounds a m) as (? & ? & ? & _); [done|by eapply list_elem_of_lookup_2|].
    unfold rgn_end in *. lia. }
  revert Hall. generalize (drop ia ms). induction l as [|m' l IH]; intros Hall; [done|].
  rewrite !bind_cons, IH by set_solver. f_equal. unfold row. case_if; [done|].
  rewrite bind_cons, inter_nil; [done|]. left. specialize (Hall m' ltac:(set_solver)). lia.
Qed.

(** Region [ia] does not meet the gaps from [ib] on. *)
Lemma all_ranges_skip_region ia ib m :
  ms !! ia = Some m ->
  (region_skipped nid m = true \/ (cnt b < ib)%nat
   \/ rgn_end m <= fst (area_before b (Z.of_nat ib))) ->
  all_ranges nid (drop ia ms) (drop ib gs) = all_ranges nid (drop (S ia) ms) (drop ib gs).
Proof.
  intros Hm Hskip. unfold all_ranges. rewrite (drop_cons_lookup _ _ _ Hm), bind_cons.
  assert (row nid m (drop ib gs) = []) as ->; [|done].
  unfold row. case_if; [done|]. destruct Hskip as [?|Hskip]; [congruence|].
  apply inter_rows. intros g (j & Hj & ->)%elem_of_drop_gaps. right.
  destruct Hskip as [|Hskip]; [lia|].
  destruct (decide (ib = j)) as [->|]; [done|].
  pose proof (gap_sorted b Hb ib j ltac:(lia)).
  pose proof (gap_proper b Hb ib ltac:(lia)). lia.
Qed.

(** Region [ia] meets gap [ib]. *)
Lemma all_ranges_emit ia ib m :
  ms !! ia = Some m -> region_skipped nid m = false -> (ib <= cnt b)%nat ->
  let g := area_before b (Z.of_nat ib) in
  overlap m g = true ->
  all_ranges nid (drop ia ms) (drop ib gs) =
  (Z.max (rgn_base m) (fst g), Z.min (rgn_end m) (snd g), memblock_get_region_node m)
  :: (if rgn_end m <=? snd g
      then all_ranges nid (drop (S ia) ms) (drop ib gs)
      else all_ranges nid (drop ia ms) (drop (S ib) gs)).
Proof.
  intros Hm Hs Hib g Ho.
  assert (Hg : drop ib gs = g :: drop (S ib) gs) by (apply drop_cons_lookup; by apply gaps_lookup).
  assert (Hstep : all_ranges nid (drop ia ms) (drop ib gs) =
    (Z.max (rgn_base m) (fst g), Z.min (rgn_end m) (snd g), memblock_get_region_node m)
    :: (drop (S ib) gs ≫= inter m) ++ all_ranges nid (drop (S ia) ms) (drop ib gs)).
  { unfold all_ranges at 1. rewrite (drop_cons_lookup _ _ _ Hm), bind_cons.
    unfold row at 1. rewrite Hs, Hg, bind_cons. unfold inter at 1. by rewrite Ho. }
  rewrite Hstep. f_equal. destruct (rgn_end m <=? snd g) eqn:E; zbool.
  - rewrite inter_rows; [done|]. intros g' (j & Hj & ->)%elem_of_drop_gaps. right.
    pose proof (gap_sorted b Hb ib j ltac:(lia)). subst g. lia.
  - unfold all_ranges at 2. rewrite (drop_cons_lookup _ _ _ Hm), bind_cons.
    unfold row at 1. rewrite Hs. f_equal.
    unfold all_ranges. rewrite Hg.
    assert (Hall : forall m', m' ∈ drop (S ia) ms -> snd g <= rgn_base m').
    { intros m' Hin. pose proof (elem_of_drop_ms _ _ _ Hm Hin). lia. }
    revert Hall. generalize (drop (S ia) ms). clear -Ha.
    induction l as [|m' l IH]; intros Hall; [done|].
    rewrite !bind_cons, IH by set_solver. f_equal. unfold row. case_if; [done|].
    rewrite bind_cons, inter_nil; [done|]. left. apply Hall. set_solver.
Qed.

(** The inner loop. *)
Lemma next_mem_range_b_spec n ia ib m :
  ms !! ia = Some m -> region_skipped nid m = false ->
  (n + ib = S (cnt b))%nat ->
  match next_mem_range_b n b (rgn_base m) (region_end m) (Z.of_nat ib) with
  | (ib', None) => exists k, ib' = Z.of_nat k /\ (ib <= k <= S (cnt b))%nat /\
      all_ranges nid (drop ia ms) (drop ib gs) = all_ranges nid (drop (S ia) ms) (drop k gs)
  | (ib', Some g) => exists k, ib' = Z.of_nat k /\ (ib <= k <= cnt b)%nat /\
      g = area_before b (Z.of_nat k) /\ overlap m g = true /\
      all_ranges nid (drop ia ms) (drop ib gs) = all_ranges nid (drop ia ms) (drop k gs)
  end.
Proof.
  intros Hm Hs. destruct (wf_region_bounds a m) as (? & ? & ? & ->);
    [done|by eapply list_elem_of_lookup_2|].
  revert ib; induction n as [|n IH]; intros ib Hn; cbn [next_mem_range_b].
  - exists ib. split_and!; [done|lia|lia|]. apply all_ranges_skip_region with m; [done|].
    right. left. lia.
  - destruct (area_before b (Z.of_nat ib)) as [r_start r_end] eqn:Eg.
    rewrite Z.geb_leb. destruct (rgn_end m <=? r_start) eqn:E1; zbool.
    { exists ib. split_and!; [done|lia|lia|]. apply all_ranges_skip_region with m; [done|].
      right. right. by rewrite Eg. }
    destruct (rgn_base m <? r_end) eqn:E2; zbool.
    { exists ib. split_and!; [done|lia|lia|done| |done].
      unfold overlap. cbn. by rewrite (proj2 (Z.ltb_lt _ _)), (proj2 (Z.ltb_lt r_start _)). }
    replace (Z.of_nat ib + 1) with (Z.of_nat (S ib)) by lia.
    rewrite (all_ranges_skip_gap ia ib m) by (done || lia || (rewrite Eg; cbn; lia)).
    specialize (IH (S ib) ltac:(lia)).
    destruct (next_mem_range_b n b _ _ _) as [ib' [g|]].
    + destruct IH as (k & ? & ? & ?). exists k. split_and!; auto; lia || naive_solver.
    + destruct IH as (k & ? & ? & ?). exists k. split_and!; auto; lia.
Qed.

(** One call of [__next_mem_range], from any packed position. *)
Definition at_pos (ia ib : nat) : list (Z * Z * Z) := all_ranges nid (drop ia ms) (drop ib gs).

Lemma next_mem_range_a_spec n ia ib :
  (n + ia = cnt a)%nat -> (ib <= S (cnt b))%nat ->
  (next_mem_range_a n nid a (Some b) (Z.of_nat ia) (Z.of_nat ib) = (U64_MAX, None)
   /\ at_pos ia ib = [])
  \/ exists ia' ib' rng,
    next_mem_range_a n nid a (Some b) (Z.of_nat ia) (Z.of_nat ib)
    = (mk_idx (Z.of_nat ia') (Z.of_nat ib'), Some rng)
    /\ at_pos ia ib = rng :: at_pos ia' ib'
    /\ (ia' <= cnt a)%nat /\ (ib' <= S (cnt b))%nat /\ (ia + ib < ia' + ib')%nat.
Proof.
  revert ia ib; induction n as [|n IH]; intros ia ib Hn Hib; cbn [next_mem_range_a].
  - left. split; [done|]. unfold at_pos. rewrite drop_ge by (fold (cnt a); lia). done.
  - destruct (lookup_lt_is_Some_2 ms ia ltac:(fold (cnt a); lia)) as [m Hm].
    rewrite Nat2Z.id, (lookup_total_Some _ _ _ Hm).
    replace (Z.of_nat ia + 1) with (Z.of_nat (S ia)) by lia.
    destruct (region_skipped nid m) eqn:Hs.
    { unfold at_pos. rewrite (all_ranges_skip_region ia ib m) by auto.
      destruct (IH (S ia) ib ltac:(lia) Hib) as [?|(ia' & ib' & rng & ? & ? & ? & ? & ?)];
        [by left|right]. exists ia', ib', rng. split_and!; auto; lia. }
    replace (Z.to_nat (Z.of_nat (cnt b) + 1 - Z.of_nat ib)) with (S (cnt b) - ib)%nat by lia.
    pose proof (next_mem_range_b_spec (S (cnt b) - ib) ia ib m Hm Hs ltac:(lia)) as Hnb.
    destruct (next_mem_range_b _ _ _ _ _) as [ibz [[r_start r_end]|]].
    + destruct Hnb as (k & -> & Hk & Hg & Ho & Heq).
      destruct (wf_region_bounds a m) as (? & ? & ? & ->);
        [done|by eapply list_elem_of_lookup_2|].
      right. unfold at_pos. rewrite Heq.
      pose proof (all_ranges_emit ia k m Hm Hs ltac:(lia)) as Hem. cbn zeta in Hem.
      rewrite <- Hg in Hem. specialize (Hem Ho). cbn [fst snd] in Hem. rewrite Hem.
      destruct (rgn_end m <=? r_end).
      * exists (S ia), k. eexists. split_and!; [done|done|lia..].
      * replace (Z.of_nat k + 1) with (Z.of_nat (S k)) by lia.
        exists ia, (S k). eexists. split_and!; [done|done|lia..].
    + destruct Hnb as (k & -> & Hk & Heq). unfold at_pos. rewrite Heq.
      destruct (IH (S ia) k ltac:(lia) ltac:(lia)) as [?|(ia' & ib' & rng & ? & ? & ? & ? & ?)];
        [by left|right]. exists ia', ib', rng. split_and!; auto; lia.
Qed.

Hypothesis Hca : Z.of_nat (cnt a) + 1 < idx_max.
Hypothesis Hcb : Z.of_nat (cnt b) + 2 < idx_max.

(** [MAX_NUMNODES] selects every node, like [NUMA_NO_NODE]. *)
Hypothesis Hnid : nid <> MAX_NUMNODES.

Lemma for_each_mem_range_loop_spec fuel ia ib :
  (ia <= cnt a)%nat -> (ib <= S (cnt b))%nat -> (cnt a + S (cnt b) < fuel + ia + ib)%nat ->
  for_each_mem_range_loop fuel nid a (Some b) (mk_idx (Z.of_nat ia) (Z.of_nat ib))
  = Ok (at_pos ia ib).
Proof.
  revert ia ib; induction fuel as [|fuel IH]; intros ia ib Hia Hib Hf; [lia|].
  cbn [for_each_mem_range_loop]. unfold __next_mem_range.
  rewrite mk_idx_a, mk_idx_b, (proj2 (Z.eqb_neq nid _)) by (done || lia).
  replace (Z.to_nat (Z.of_nat (cnt a) - Z.of_nat ia)) with (cnt a - ia)%nat by lia.
  destruct (next_mem_range_a_spec (cnt a - ia) ia ib ltac:(lia) Hib)
    as [[-> ->]|(ia' & ib' & rng & -> & -> & ? & ? & ?)]; [done|].
  rewrite mk_idx_not_max by lia. rewrite IH by lia. done.
Qed.

Lemma for_each_mem_range_all :
  for_each_mem_range nid a (Some b) = Ok (all_ranges nid ms gs).
Proof.
  unfold for_each_mem_range. change 0 with (mk_idx (Z.of_nat 0) (Z.of_nat 0)).
  rewrite for_each_mem_range_loop_spec; [done|lia|lia|]. unfold range_fuel. lia.
Qed.

(** *** The reverse iterator *)

(** What is left when the loop stands at [idx_a = na - 1], [idx_b = nb - 1]. *)
Definition rev_pos (na nb : nat) : list (Z * Z * Z) :=
  reverse (all_ranges nid (take na ms) (take nb gs)).

Lemma all_ranges_app l1 l2 g :
  all_ranges nid (l1 ++ l2) g = all_ranges nid l1 g ++ all_ranges nid l2 g.
Proof. unfold all_ranges. apply bind_app. Qed.

Lemma elem_of_take_gaps nb g :
  g ∈ take nb gs -> exists j, (j < nb)%nat /\ (j <= cnt b)%nat /\ g = area_before b (Z.of_nat j).
Proof.
  intros [k Hk]%list_elem_of_lookup. apply lookup_take_Some in Hk as [Hk ?].
  pose proof (lookup_lt_Some _ _ _ Hk) as Hlt. rewrite length_gaps in Hlt.
  rewrite gaps_lookup in Hk by lia. exists k. split_and!; [lia|lia|congruence].
Qed.

Lemma elem_of_take_ms ia m m0 :
  ms !! ia = Some m0 -> m ∈ take ia ms -> rgn_end m <= rgn_base m0.
Proof.
  intros Hm0 [k Hk]%list_elem_of_lookup. apply lookup_take_Some in Hk as [Hk ?].
  by eapply (wf_lookup_lt a k ia).
Qed.

Lemma take_snoc_lookup {A} (l : list A) i x : l !! i = Some x -> take (S i) l = take i l ++ [x].
Proof. apply take_S_r. Qed.

Lemma rev_pos_skip_region ia nb m :
  ms !! ia = Some m -> (nb <= S (cnt b))%nat ->
  (region_skipped nid m = true
   \/ (forall j, (j < nb)%nat -> snd (area_before b (Z.of_nat j)) <= rgn_base m)) ->
  rev_pos (S ia) nb = rev_pos ia nb.
Proof.
  intros Hm Hnb Hskip. unfold rev_pos. rewrite (take_snoc_lookup _ _ _ Hm), all_ranges_app.
  assert (all_ranges nid [m] (take nb gs) = []) as ->; [|by rewrite app_nil_r].
  unfold all_ranges. rewrite bind_singleton. unfold row. case_if; [done|].
  destruct Hskip as [?|Hskip]; [congruence|].
  apply inter_rows. intros g (j & Hj & ? & ->)%elem_of_take_gaps. left. auto.
Qed.

Lemma all_ranges_drop_last_gap (l : list memblock_region) ib :
  (ib <= cnt b)%nat ->
  (forall m', m' ∈ l -> rgn_end m' <= fst (area_before b (Z.of_nat ib))) ->
  all_ranges nid l (take (S ib) gs) = all_ranges nid l (take ib gs).
Proof.
  intros Hib. rewrite (take_snoc_lookup gs ib (area_before b (Z.of_nat ib)))
    by (by apply gaps_lookup).
  unfold all_ranges. induction l as [|m' l IH]; intros Hall; [done|].
  rewrite !bind_cons, IH by set_solver. f_equal. unfold row. case_if; [done|].
  rewrite bind_app, bind_singleton, (inter_nil m'); [by rewrite app_nil_r|].
  right. apply Hall. set_solver.
Qed.

Lemma rev_pos_skip_gap ia ib m :
  ms !! ia = Some m -> (ib <= cnt b)%nat -> rgn_end m <= fst (area_before b (Z.of_nat ib)) ->
  rev_pos (S ia) (S ib) = rev_pos (S ia) ib.
Proof.
  intros Hm Hib Hle. unfold rev_pos. f_equal. apply all_ranges_drop_last_gap; [done|].
  rewrite (take_snoc_lookup _ _ _ Hm). intros m' [Hin|Hin]%elem_of_app.
  - pose proof (elem_of_take_ms _ _ _ Hm Hin).
    destruct (wf_region_bounds a m) as (? & ? & ? & _); [done|by eapply list_elem_of_lookup_2|].
    unfold rgn_end in *. lia.
  - by apply list_elem_of_singleton in Hin as ->.
Qed.

Lemma rev_pos_emit ia ib m :
  ms !! ia = Some m -> region_skipped nid m = false -> (ib <= cnt b)%nat ->
  let g := area_before b (Z.of_nat ib) in
  overlap m g = true ->
  rev_pos (S ia) (S ib) =
  (Z.max (rgn_base m) (fst g), Z.min (rgn_end m) (snd g), memblock_get_region_node m)
  :: (if rgn_base m >=? fst g then rev_pos ia (S ib) else rev_pos (S ia) ib).
Proof.
  intros Hm Hs Hib g Ho.
  assert (Hg : take (S ib) gs = take ib gs ++ [g]) by (apply take_snoc_lookup; by apply gaps_lookup).
  assert (Hrow : forall cols, all_ranges nid [m] cols = cols ≫= inter m).
  { intros. unfold all_ranges. rewrite bind_singleton. unfold row. by rewrite Hs. }
  assert (Hlast : all_ranges nid [m] (take (S ib) gs) = all_ranges nid [m] (take ib gs) ++
    [(Z.max (rgn_base m) (fst g), Z.min (rgn_end m) (snd g), memblock_get_region_node m)]).
  { rewrite !Hrow, Hg, bind_app, bind_singleton. unfold inter at 2. by rewrite Ho. }
  unfold rev_pos. rewrite (take_snoc_lookup _ _ _ Hm), !all_ranges_app, Hlast.
  rewrite app_assoc, reverse_snoc. f_equal. rewrite Z.geb_leb.
  destruct (fst g <=? rgn_base m) eqn:E; zbool.
  - f_equal. rewrite Hrow, inter_rows; [by rewrite app_nil_r|].
    intros g' (j & Hj & ? & ->)%elem_of_take_gaps. left.
    pose proof (gap_sorted b Hb j ib ltac:(lia)). subst g. lia.
  - f_equal. f_equal. apply all_ranges_drop_last_gap; [done|].
    intros m' Hin. pose proof (elem_of_take_ms _ _ _ Hm Hin). subst g. lia.
Qed.

Lemma next_mem_range_rev_b_spec nb ia m :
  ms !! ia = Some m -> region_skipped nid m = false -> (nb <= S (cnt b))%nat ->
  match next_mem_range_rev_b nb b (rgn_base m) (region_end m) (Z.of_nat nb - 1) with
  | (ib', None) => exists k, ib' = Z.of_nat k - 1 /\ (k <= nb)%nat /\
      rev_pos (S ia) nb = rev_pos ia k
  | (ib', Some g) => exists k, ib' = Z.of_nat k /\ (k < nb)%nat /\
      g = area_before b (Z.of_nat k) /\ overlap m g = true /\
      rev_pos (S ia) nb = rev_pos (S ia) (S k)
  end.
Proof.
  intros Hm Hs. destruct (wf_region_bounds a m) as (? & ? & ? & ->);
    [done|by eapply list_elem_of_lookup_2|].
  induction nb as [|ib IH]; intros Hn; cbn [next_mem_range_rev_b].
  - exists 0%nat. split_and!; [done|lia|]. apply rev_pos_skip_region with m; [done|lia|].
    right. lia.
  - replace (Z.of_nat (S ib) - 1) with (Z.of_nat ib) by lia.
    destruct (area_before b (Z.of_nat ib)) as [r_start r_end] eqn:Eg.
    rewrite Z.gtb_ltb. destruct (r_end <=? rgn_base m) eqn:E1; zbool.
    { exists (S ib). split_and!; [lia|lia|]. apply rev_pos_skip_region with m; [done|lia|].
      right. intros j Hj. destruct (decide (j = ib)) as [->|]; [by rewrite Eg|].
      pose proof (gap_sorted b Hb j ib ltac:(lia)) as Hso.
      pose proof (gap_proper b Hb ib ltac:(lia)) as Hpr. rewrite Eg in Hso, Hpr. cbn in *. lia. }
    destruct (r_start <? rgn_end m) eqn:E2; zbool.
    { exists ib. split_and!; [done|lia|done| |done].
      unfold overlap. cbn. by rewrite (proj2 (Z.ltb_lt _ _)), (proj2 (Z.ltb_lt r_start _)). }
    rewrite (rev_pos_skip_gap ia ib m) by (done || lia || (rewrite Eg; cbn; lia)).
    specialize (IH ltac:(lia)).
    destruct (next_mem_range_rev_b ib b _ _ _) as [ib' [g|]].
    + destruct IH as (k & ? & ? & ? & ? & ?). exists k. split_and!; auto; lia.
    + destruct IH as (k & ? & ? & ?). exists k. split_and!; auto; lia.
Qed.

Lemma next_mem_range_rev_a_spec na nb :
  (na <= cnt a)%nat -> (nb <= S (cnt b))%nat ->
  (next_mem_range_rev_a na nid a (Some b) (Z.of_nat na - 1) (Z.of_nat nb - 1) = (U64_MAX, None)
   /\ rev_pos na nb = [])
  \/ exists na' nb' rng,
    next_mem_range_rev_a na nid a (Some b) (Z.of_nat na - 1) (Z.of_nat nb - 1)
    = (mk_idx (Z.of_nat na' - 1) (Z.of_nat nb' - 1), Some rng)
    /\ rev_pos na nb = rng :: rev_pos na' nb'
    /\ (na' <= na)%nat /\ (0 < nb' <= nb)%nat /\ (na' + nb' < na + nb)%nat.
Proof.
  revert nb; induction na as [|ia IH]; intros nb Hna Hnb; cbn [next_mem_range_rev_a].
  - left. done.
  - destruct (lookup_lt_is_Some_2 ms ia ltac:(fold (cnt a); lia)) as [m Hm].
    replace (Z.of_nat (S ia) - 1) with (Z.of_nat ia) by lia.
    rewrite Nat2Z.id, (lookup_total_Some _ _ _ Hm).
    destruct (region_skipped nid m) eqn:Hs.
    { rewrite (rev_pos_skip_region ia nb m) by auto.
      destruct (IH nb ltac:(lia) Hnb) as [?|(na' & nb' & rng & ? & ? & ? & ? & ?)];
        [by left|right]. exists na', nb', rng. split_and!; auto; lia. }
    replace (Z.to_nat (Z.of_nat nb - 1 + 1)) with nb by lia.
    pose proof (next_mem_range_rev_b_spec nb ia m Hm Hs Hnb) as Hnext.
    destruct (next_mem_range_rev_b _ _ _ _ _) as [ibz [[r_start r_end]|]].
    + destruct Hnext as (k & -> & Hk & Hg & Ho & Heq).
      destruct (wf_region_bounds a m) as (? & ? & ? & ->);
        [done|by eapply list_elem_of_lookup_2|].
      right. rewrite Heq.
      pose proof (rev_pos_emit ia k m Hm Hs ltac:(lia)) as Hem. cbn zeta in Hem.
      rewrite <- Hg in Hem. specialize (Hem Ho). cbn [fst snd] in Hem. rewrite Hem.
      destruct (rgn_base m >=? r_start) eqn:E; rewrite Z.geb_leb in E; zbool.
      * exists ia, (S k). eexists. split; [do 2 f_equal; lia|].
        split_and!; [done|lia..].
      * assert (k <> 0%nat).
        { intros ->. cbn in Hg. injection Hg as -> _.
          destruct (wf_region_bounds a m) as (? & ? & ? & ?);
            [done|by eapply list_elem_of_lookup_2|]. lia. }
        exists (S ia), k. eexists. split; [do 2 f_equal; lia|].
        split_and!; [done|lia..].
    + destruct Hnext as (k & -> & Hk & Heq). rewrite Heq.
      destruct (IH k ltac:(lia) ltac:(lia)) as [?|(na' & nb' & rng & ? & ? & ? & ? & ?)];
        [by left|right]. exists na', nb', rng. split_and!; auto; lia.
Qed.

Lemma for_each_mem_range_rev_loop_spec fuel na nb idx :
  (na <= cnt a)%nat -> (0 < nb <= S (cnt b))%nat -> (na + nb < fuel)%nat ->
  idx = mk_idx (Z.of_nat na - 1) (Z.of_nat nb - 1)
  \/ (idx = U64_MAX /\ na = cnt a /\ nb = S (cnt b)) ->
  for_each_mem_range_rev_loop fuel nid a (Some b) idx = Ok (rev_pos na nb).
Proof.
  revert na nb idx; induction fuel as [|fuel IH]; intros na nb idx Hna Hnb Hf Hidx; [lia|].
  cbn [for_each_mem_range_rev_loop].
  assert (Hstep : __next_mem_range_rev idx nid a (Some b)
    = Ok (next_mem_range_rev_a na nid a (Some b) (Z.of_nat na - 1) (Z.of_nat nb - 1))).
  { unfold __next_mem_range_rev. rewrite (proj2 (Z.eqb_neq nid _)) by done.
    destruct Hidx as [->|(-> & -> & ->)].
    - rewrite mk_idx_not_max, mk_idx_a, mk_idx_b by lia. cbn [obind].
      by replace (Z.to_nat (Z.of_nat na - 1 + 1)) with na by lia.
    - rewrite Z.eqb_refl. cbn [obind].
      replace (Z.to_nat (Z.of_nat (cnt a) - 1 + 1)) with (cnt a) by lia.
      by replace (Z.of_nat (S (cnt b)) - 1) with (Z.of_nat (cnt b)) by lia. }
  rewrite Hstep. cbn [obind].
  destruct (next_mem_range_rev_a_spec na nb Hna ltac:(lia))
    as [[-> ->]|(na' & nb' & rng & -> & -> & ? & ? & ?)]; [done|].
  rewrite mk_idx_not_max by lia. rewrite (IH na' nb') by (lia || auto). done.
Qed.

Lemma for_each_mem_range_rev_all :
  for_each_mem_range_rev nid a (Some b) = Ok (reverse (all_ranges nid ms gs)).
Proof.
  unfold for_each_mem_range_rev.
  rewrite (for_each_mem_range_rev_loop_spec _ (cnt a) (S (cnt b))); try lia.
  - unfold rev_pos. do 2 f_equal. f_equal; apply take_ge; [done|].
    by rewrite length_gaps.
  - unfold range_fuel. lia.
Qed.

End Walk.
End Ranges.

(** ** Searching the ranges *)

Section Search.
Context `{MemblockConfig}.

Definition range_start (r : Z * Z * Z) : Z := fst (fst r).
Definition range_stop (r : Z * Z * Z) : Z := snd (fst r).
Definition range_before (r1 r2 : Z * Z * Z) : Prop := range_stop r1 <= range_start r2.

(** The candidate a range offers to the top-down and the bottom-up search. *)
Definition td_cand (start end_ size align : Z) (r : Z * Z * Z) : option Z :=
  let this_start := clamp (range_start r) start end_ in
  let this_end := clamp (range_stop r) start end_ in
  if this_end <? size then None
  else
    let cand := round_down (u64 (this_end - size)) align in
    if cand >=? this_start then Some cand else None.

Definition bu_cand (start end_ size align : Z) (r : Z * Z * Z) : option Z :=
  let this_start := clamp (range_start r) start end_ in
  let this_end := clamp (range_stop r) start end_ in
  let cand := round_up this_start align in
  if (cand <? this_end) && (u64 (this_end - cand) >=? size) then Some cand else None.

Fixpoint first_cand (f : Z * Z * Z -> option Z) (l : list (Z * Z * Z)) : Z :=
  match l with
  | [] => 0
  | r :: l => match f r with Some c => c | None => first_cand f l end
  end.

Lemma top_down_first start end_ size align l :
  find_range_top_down_loop l start end_ size align = first_cand (td_cand start end_ size align) l.
Proof.
  induction l as [|[[s e] n] l IH]; [done|]. cbn [find_range_top_down_loop first_cand].
  unfold td_cand at 1, range_start, range_stop. cbn [fst snd]. rewrite IH. by repeat case_if.
Qed.

Lemma bottom_up_first start end_ size align l :
  find_range_bottom_up_loop l start end_ size align = first_cand (bu_cand start end_ size align) l.
Proof.
  induction l as [|[[s e] n] l IH]; [done|]. cbn [find_range_bottom_up_loop first_cand].
  unfold bu_cand at 1, range_start, range_stop. cbn [fst snd]. rewrite IH. by repeat case_if.
Qed.

Lemma first_cand_sound f l : first_cand f l <> 0 -> exists r, r ∈ l /\ f r = Some (first_cand f l).
Proof.
  induction l as [|r l IH]; cbn; [done|]. destruct (f r) as [c|] eqn:E.
  - intros _. exists r. set_solver.
  - intros Hne. destruct (IH Hne) as (r' & ? & ?). exists r'. set_solver.
Qed.

(** The first range that has a candidate decides. *)
Lemma first_cand_hit f l1 r l2 (P : Z -> Prop) :
  (forall r' c, r' ∈ l1 -> f r' = Some c -> P c) -> (exists c, f r = Some c /\ P c) ->
  P (first_cand f (l1 ++ r :: l2)).
Proof.
  intros Hl1 (c & Hr & Hc). induction l1 as [|r' l1 IH]; cbn; [by rewrite Hr|].
  destruct (f r') as [c'|] eqn:E; [|apply IH; set_solver].
  apply (Hl1 r'); [set_solver|done].
Qed.

Section Window.
Variables (k start end_ size : Z).
Hypothesis Hk : 0 <= k < 64.
Hypothesis Hwin : 0 < start <= end_ /\ end_ <= U64_MAX.
Hypothesis Hsize : 0 < size <= U64_MAX.

(** [c] is an aligned address of the window such that [c, c+size) lies in [r]. *)
Definition fits (r : Z * Z * Z) (c : Z) : Prop :=
  c mod 2 ^ k = 0 /\ start <= c /\ c + size <= end_ /\
  range_start r <= c /\ c + size <= range_stop r.

Lemma multiple_le x c : c mod 2 ^ k = 0 -> c <= x -> c <= x - x mod 2 ^ k.
Proof.
  intros Hm Hle. pose proof (pow2_u64 k Hk).
  pose proof (Z.div_mod x (2 ^ k)). pose proof (Z.div_mod c (2 ^ k)).
  pose proof (Z.div_le_mono c x (2 ^ k)). nia.
Qed.

Lemma multiple_mod x : (x - x mod 2 ^ k) mod 2 ^ k = 0.
Proof.
  pose proof (pow2_u64 k Hk).
  replace (x - x mod 2 ^ k) with ((x / 2 ^ k) * 2 ^ k) by (pose proof (Z.div_mod x (2 ^ k)); lia).
  apply Z.mod_mul. lia.
Qed.

Lemma td_cand_sound r c : td_cand start end_ size (2 ^ k) r = Some c -> fits r c.
Proof.
  unfold td_cand, clamp. intros Hc. case_if_in Hc; [done|].
  rewrite (u64_id (_ - size)), round_down_pow2 in Hc by (done || ulia).
  case_if_in Hc; [|done]. injection Hc as <-.
  set (x := Z.min _ end_ - size) in *. pose proof (pow2_u64 k Hk).
  pose proof (Z.mod_pos_bound x (2 ^ k) ltac:(lia)).
  split; [apply multiple_mod|]. lia.
Qed.

Lemma td_cand_complete r c :
  fits r c -> exists c', td_cand start end_ size (2 ^ k) r = Some c' /\ c <= c'.
Proof.
  intros (Hm & ? & ? & ? & ?). unfold td_cand, clamp. case_if; [lia|].
  rewrite (u64_id (_ - size)), round_down_pow2 by (done || ulia).
  set (x := Z.min _ end_ - size).
  assert (c <= x - x mod 2 ^ k) by (apply multiple_le; [done|lia]).
  rewrite Z.geb_leb. case_if; [|lia]. eauto.
Qed.

Lemma td_cand_above r c : td_cand start end_ size (2 ^ k) r = Some c -> range_start r <= c.
Proof. intros (_ & _ & _ & ? & _)%td_cand_sound. done. Qed.

Lemma multiple_up x c :
  c mod 2 ^ k = 0 -> 0 < x <= c -> (x - 1) - (x - 1) mod 2 ^ k + 2 ^ k <= c.
Proof.
  intros Hm Hle. pose proof (pow2_u64 k Hk).
  pose proof (Z.div_mod (x - 1) (2 ^ k)). pose proof (Z.div_mod c (2 ^ k)).
  assert ((x - 1) / 2 ^ k < c / 2 ^ k).
  { apply Z.div_lt_upper_bound; [lia|]. lia. }
  nia.
Qed.

Lemma up_ge x : x <= (x - 1) - (x - 1) mod 2 ^ k + 2 ^ k.
Proof. pose proof (pow2_u64 k Hk). pose proof (Z.mod_pos_bound (x - 1) (2 ^ k)). lia. Qed.

Lemma up_mod x : ((x - 1) - (x - 1) mod 2 ^ k + 2 ^ k) mod 2 ^ k = 0.
Proof.
  pose proof (pow2_u64 k Hk).
  replace ((x - 1) - (x - 1) mod 2 ^ k + 2 ^ k) with (((x - 1) / 2 ^ k + 1) * 2 ^ k)
    by (pose proof (Z.div_mod (x - 1) (2 ^ k)); lia).
  apply Z.mod_mul. lia.
Qed.

Lemma up_le_top x : x <= U64_MAX -> (x - 1) - (x - 1) mod 2 ^ k + 2 ^ k <= U64_MAX + 1.
Proof.
  intros. assert (x <= U64_MAX + 1) by lia.
  destruct (Z.le_gt_cases x 0).
  - pose proof (pow2_u64 k Hk). pose proof (Z.mod_pos_bound (x - 1) (2 ^ k)). unfold U64_MAX. lia.
  - apply multiple_up; [|lia]. change (U64_MAX + 1) with (2 ^ 64).
    replace 64 with ((64 - k) + k) by lia. rewrite Z.pow_add_r by lia. apply Z.mod_mul.
    pose proof (pow2_u64 k Hk). lia.
Qed.

Lemma bu_cand_sound r c : bu_cand start end_ size (2 ^ k) r = Some c -> c <> 0 -> fits r c.
Proof.
  unfold bu_cand, clamp. intros Hc Hne. case_if_in Hc; [|done]. injection Hc as <-.
  set (x := Z.min (Z.max (range_start r) start) end_) in *.
  rewrite round_up_pow2 in * by (done || lia).
  set (y := x - 1 - (x - 1) mod 2 ^ k + 2 ^ k) in *.
  assert (Hy : x <= y <= U64_MAX + 1) by (subst y; split; [apply up_ge|apply up_le_top; lia]).
  destruct (Z.eq_dec y (U64_MAX + 1)) as [E|E].
  { rewrite E in Hne. done. }
  rewrite (u64_id y) in * by lia.
  rewrite u64_id in * by ulia. split; [apply up_mod|]. lia.
Qed.

Lemma bu_cand_complete r c :
  fits r c -> exists c', bu_cand start end_ size (2 ^ k) r = Some c' /\ 0 < c' <= c.
Proof.
  intros (Hm & ? & ? & ? & ?). unfold bu_cand, clamp.
  set (x := Z.min (Z.max (range_start r) start) end_).
  rewrite round_up_pow2 by (done || lia).
  set (y := x - 1 - (x - 1) mod 2 ^ k + 2 ^ k).
  assert (Hy : x <= y <= c) by (subst y; split; [apply up_ge|apply multiple_up; [done|lia]]).
  rewrite (u64_id y) by ulia.
  set (e := Z.min (Z.max (range_stop r) start) end_).
  rewrite (u64_id (e - y)), Z.geb_leb by ulia. case_if; [|lia].
  exists y. split; [done|]. lia.
Qed.

End Window.
End Search.

(** ** Finding a free block *)

Section Find.
Context `{MemblockConfig}.

(** [c, c+size) lies in one memory region that the node selector accepts and
    no address of it is reserved. *)
Definition free_block (st : memblock) (nid c size : Z) : Prop :=
  (exists m, m ∈ regions (memory st) /\ region_skipped nid m = false
     /\ rgn_base m <= c /\ c + size <= rgn_end m)
  /\ forall x, c <= x < c + size -> lookup_addr Reserved st x = None.

(** Indices fit in the 32-bit halves of the iterator. *)
Definition idx_ok (st : memblock) : Prop :=
  Z.of_nat (cnt (memory st)) + 1 < idx_max /\ Z.of_nat (cnt (reserved st)) + 2 < idx_max.

Lemma elem_of_all_ranges nid ms gs r :
  r ∈ all_ranges nid ms gs <->
  exists m g, m ∈ ms /\ g ∈ gs /\ region_skipped nid m = false /\ overlap m g = true /\
    r = (Z.max (rgn_base m) (fst g), Z.min (rgn_end m) (snd g), memblock_get_region_node m).
Proof.
  unfold all_ranges. rewrite list_elem_of_bind. unfold row, inter. split.
  - intros (m & Hr & Hm). destruct (region_skipped nid m) eqn:Hs; [set_solver|].
    apply list_elem_of_bind in Hr as (g & Hr & Hg).
    destruct (overlap m g) eqn:Ho; [|set_solver].
    apply list_elem_of_singleton in Hr. eauto 10.
  - intros (m & g & Hm & Hg & Hs & Ho & ->). exists m. rewrite Hs. split; [|done].
    apply list_elem_of_bind. exists g. rewrite Ho. set_solver.
Qed.

(** Disjointness of an interval from the regions of a well-formed array. *)
Lemma disjoint_iff ty c size :
  wf_type ty ->
  (forall x, c <= x < c + size -> attr_at (regions ty) x = None) <->
  (forall r, r ∈ regions ty -> rgn_end r <= c \/ c + size <= rgn_base r \/ rgn_size r = 0
     \/ size <= 0).
Proof.
  intros Hwf. split.
  - intros Hnone r Hr. destruct (wf_rs _ Hwf) as [[_ Hc]|(r' & E & _ & Hs)].
    + destruct (Z.le_gt_cases (rgn_end r) c); [by left|].
      destruct (Z.le_gt_cases (c + size) (rgn_base r)); [by right; left|].
      destruct (Z.le_gt_cases size 0); [lia|].
      destruct (chain_In _ _ _ Hc Hr) as (? & ? & ?).
      specialize (Hnone (Z.max c (rgn_base r)) ltac:(lia)).
      rewrite (attr_at_In 0 _ r) in Hnone; [done|done|done|].
      apply in_region_iff. unfold rgn_end in *. lia.
    + rewrite E in Hr. apply list_elem_of_singleton in Hr as ->. lia.
  - intros Hdis x Hx. apply attr_at_None. intros r Hr.
    apply not_true_iff_false. rewrite in_region_iff. specialize (Hdis r Hr).
    unfold rgn_end in *. lia.
Qed.

Lemma row_sorted m gs :
  StronglySorted gap_before gs -> StronglySorted range_before (gs ≫= inter m).
Proof.
  induction 1 as [|g gs Hgs IH Hg]; [constructor|].
  rewrite bind_cons. unfold inter at 1. case_if; [|done]. constructor; [done|].
  apply Forall_forall. intros r (g' & Hin & Hg')%list_elem_of_bind.
  eapply Forall_forall in Hg; [|done]. unfold inter in Hin.
  destruct (overlap m g'); [|set_solver]. apply list_elem_of_singleton in Hin as ->.
  unfold range_before, range_start, range_stop, gap_before in *. cbn. lia.
Qed.

Lemma gaps_sorted b : wf_type b -> StronglySorted gap_before (gaps b).
Proof.
  intros Hb. apply StronglySorted_lookup_2. intros i j g1 g2 Hij H1 H2.
  pose proof (lookup_lt_Some _ _ _ H2) as Hlt. rewrite length_gaps in Hlt.
  rewrite gaps_lookup in H1, H2 by lia. injection H1 as <-. injection H2 as <-.
  apply gap_sorted; [done|lia].
Qed.

Lemma row_stop nid m gs r : r ∈ row nid m gs -> range_stop r <= rgn_end m.
Proof.
  unfold row. destruct (region_skipped nid m); [set_solver|].
  intros (g & Hin & _)%list_elem_of_bind. unfold inter in Hin.
  destruct (overlap m g); [|set_solver]. apply list_elem_of_singleton in Hin as ->.
  unfold range_stop. cbn. lia.
Qed.

Section State.
Variable st : memblock.
Hypothesis Hwf : wf_memblock st.
Hypothesis Hidx : idx_ok st.
Variables (nid k start end_ size : Z).
Hypothesis Hnid : nid <> MAX_NUMNODES.
Hypothesis Hk : 0 <= k < 64.

Abbreviation ranges := (all_ranges nid (regions (memory st)) (gaps (reserved st))).

(** A block lies in some range exactly when it is free. *)
Lemma in_ranges_free c n :
  0 < n ->
  (exists r, r ∈ ranges /\ range_start r <= c /\ c + n <= range_stop r) <-> free_block st nid c n.
Proof.
  intros Hn. pose proof (wf_reserved _ Hwf) as Hr. pose proof (wf_memory _ Hwf) as Hm. split.
  - intros (r & Hin & Hs & He).
    apply elem_of_all_ranges in Hin as (m & g & Hinm & Hing & Hskip & _ & ->).
    unfold range_start, range_stop in *. cbn [fst snd] in *.
    split; [exists m; split_and!; try done; lia|].
    apply (disjoint_iff (reserved st) c n Hr). intros r Hinr.
    apply list_elem_of_lookup in Hing as [j Hj].
    pose proof (lookup_lt_Some _ _ _ Hj) as Hlt. rewrite length_gaps in Hlt.
    rewrite gaps_lookup in Hj by lia. injection Hj as <-.
    destruct (gap_disjoint (reserved st) Hr j r ltac:(lia) Hinr); lia.
  - intros [(m & Hinm & Hskip & ? & ?) Hfree].
    pose proof (proj1 (disjoint_iff (reserved st) c n Hr) Hfree) as Hdis. clear Hfree.
    destruct (wf_region_bounds (memory st) m Hm Hinm) as (? & ? & ? & _).
    destruct (gap_complete (reserved st) Hr c (c + n)) as (j & Hj & ? & ?); [lia|lia| |].
    { intros r Hinr. specialize (Hdis r Hinr). lia. }
    set (g := area_before (reserved st) (Z.of_nat j)) in *.
    exists (Z.max (rgn_base m) (fst g), Z.min (rgn_end m) (snd g), memblock_get_region_node m).
    split.
    + apply elem_of_all_ranges. exists m, g. split_and!; try done.
      * apply list_elem_of_lookup. exists j. by apply gaps_lookup.
      * unfold overlap. apply andb_true_iff. split; apply Z.ltb_lt; lia.
    + unfold range_start, range_stop. cbn [fst snd]. lia.
Qed.

Lemma all_ranges_sorted : StronglySorted range_before ranges.
Proof.
  pose proof (gaps_sorted _ (wf_reserved _ Hwf)) as Hgs.
  assert (Hms : StronglySorted region_before (regions (memory st))).
  { apply StronglySorted_lookup_2. intros a b m1 m2 Hab H1 H2.
    by eapply (wf_lookup_lt (memory st) a b); [apply Hwf|..]. }
  induction Hms as [|m ms Hms IH Hm']; [constructor|].
  unfold all_ranges. rewrite bind_cons. apply StronglySorted_app_2.
  - intros r1 r2 Hin1%row_stop Hin2.
    apply elem_of_all_ranges in Hin2 as (m2 & g & Hin2 & _ & _ & _ & ->).
    eapply Forall_forall in Hm'; [|done].
    unfold range_before, range_start, range_stop, region_before in *. cbn in *. lia.
  - unfold row. case_if; [constructor|]. by apply row_sorted.
  - apply IH.
Qed.

Lemma ranges_proper r : r ∈ ranges -> range_start r <= range_stop r.
Proof.
  intros (m & g & Hm & Hg & _ & Ho & ->)%elem_of_all_ranges.
  destruct (wf_region_bounds (memory st) m (wf_memory _ Hwf) Hm) as (? & ? & ? & _).
  apply list_elem_of_lookup in Hg as [j Hj].
  pose proof (lookup_lt_Some _ _ _ Hj) as Hlt. rewrite length_gaps in Hlt.
  rewrite gaps_lookup in Hj by lia. injection Hj as <-.
  pose proof (gap_proper (reserved st) (wf_reserved _ Hwf) j ltac:(lia)).
  unfold overlap in Ho. zbool. unfold range_start, range_stop, rgn_end in *. cbn [fst snd]. lia.
Qed.

Hypothesis Hwin : 0 < start <= end_ /\ end_ <= U64_MAX.
Hypothesis Hsize : 0 < size <= U64_MAX.

Lemma fits_free c :
  (exists r, r ∈ ranges /\ fits k start end_ size r c) <->
  (free_block st nid c size /\ c mod 2 ^ k = 0 /\ start <= c /\ c + size <= end_).
Proof. rewrite <- in_ranges_free by lia. unfold fits. naive_solver. Qed.

(** A candidate for the window: free, aligned and inside it. *)
Definition candidate (c : Z) : Prop :=
  free_block st nid c size /\ c mod 2 ^ k = 0 /\ start <= c /\ c + size <= end_.

Lemma top_down_spec :
  exists c, __memblock_find_range_top_down st start end_ size (2 ^ k) nid = Ok c
    /\ (c <> 0 -> candidate c) /\ (forall c', candidate c' -> c' <= c).
Proof.
  unfold __memblock_find_range_top_down, for_each_free_mem_range_reverse.
  rewrite for_each_mem_range_rev_all by (by destruct Hwf, Hidx). cbn [obind].
  eexists. split; [done|]. rewrite top_down_first. split.
  - intros (r & Hin & Hr)%first_cand_sound. apply fits_free. exists r.
    split; [by apply elem_of_reverse|].
    by eapply td_cand_sound.
  - intros c' (r & Hin & Hr)%fits_free.
    apply list_elem_of_split in Hin as (l1 & l2 & E).
    pose proof all_ranges_sorted as Hss. rewrite E in *.
    rewrite reverse_app, reverse_cons, <- app_assoc. cbn [app].
    apply first_cand_hit.
    + intros r' c Hr' Hc. apply elem_of_reverse in Hr'.
      assert (range_before r r').
      { apply (StronglySorted_app_1_elem_of _ (l1 ++ [r]) l2); [by rewrite <- app_assoc|set_solver..]. }
      apply td_cand_above in Hc; try done. destruct Hr as (_ & _ & _ & _ & ?).
      unfold range_before in *. lia.
    + by apply td_cand_complete.
Qed.

Lemma bottom_up_spec :
  exists c, __memblock_find_range_bottom_up st start end_ size (2 ^ k) nid = Ok c
    /\ (c <> 0 -> candidate c) /\ (forall c', candidate c' -> 0 < c <= c').
Proof.
  unfold __memblock_find_range_bottom_up, for_each_free_mem_range.
  rewrite for_each_mem_range_all by (by destruct Hwf, Hidx). cbn [obind].
  eexists. split; [done|]. rewrite bottom_up_first. split.
  - intros Hne. destruct (first_cand_sound _ _ Hne) as (r & Hin & Hr).
    apply fits_free. exists r. split; [done|]. by eapply bu_cand_sound.
  - intros c' (r & Hin & Hr)%fits_free.
    apply list_elem_of_split in Hin as (l1 & l2 & E).
    pose proof all_ranges_sorted as Hss. rewrite E in *.
    apply first_cand_hit.
    + intros r' c Hr' Hc.
      assert (range_before r' r).
      { apply (StronglySorted_app_1_elem_of _ l1 (r :: l2)); [done|set_solver..]. }
      destruct Hr as (Hmod & Hr1 & Hr2 & Hr3 & Hr4). unfold range_before in *.
      assert (range_start r' <= range_stop r') by (apply ranges_proper; rewrite E; set_solver).
      unfold bu_cand, clamp in Hc. case_if_in Hc; [|done]. injection Hc as <-.
      set (x := Z.min (Z.max (range_start r') start) end_) in *.
      set (e := Z.min (Z.max (range_stop r') start) end_) in *.
      rewrite round_up_pow2 in * by (done || lia).
      pose proof (up_ge k Hk x). pose proof (up_le_top k Hk x ltac:(lia)).
      set (y := x - 1 - (x - 1) mod 2 ^ k + 2 ^ k) in *.
      destruct (Z.eq_dec y (U64_MAX + 1)) as [Ey|Ey].
      * exfalso. destruct (Z.le_gt_cases x c'); [|lia].
        assert (y <= c') by (apply multiple_up; [done|done|lia]). lia.
      * rewrite (u64_id y) in * by lia. lia.
    + by apply bu_cand_complete.
Qed.

End State.
End Find.
