(* ===== verification/MemblockResize.v ===== *)
(** * Growing a region array, and queries (mm/memblock.c)

    [memblock_double_array] moves the array to a block found by the allocator
    itself: the block is free, avoids the area that is about to be reserved,
    becomes reserved, and the old array's block is given back.  Allocation is
    a search followed by a reservation.  Then the binary search
    [memblock_search], the byte count kept in [total_size], and the cut made
    by [memblock_enforce_memory_limit]. *)

From S2P Require Import Prelude Memblock MemblockFacts MemblockSpec MemblockFind.

(** The facts about the configuration that the allocator relies on. *)
Class MemblockConfigOk `{MemblockConfig} : Prop := {
  page_shift_ok : 0 <= PAGE_SHIFT < 32;
  max_numnodes_ok : 0 < MAX_NUMNODES;
  kernel_end_ok : 0 <= kernel_end <= U64_MAX
}.

Section Resize.
Context `{MemblockConfigOk}.

Lemma no_node_ne_max : NUMA_NO_NODE <> MAX_NUMNODES.
Proof. pose proof max_numnodes_ok. unfold NUMA_NO_NODE. lia. Qed.

Lemma page_size_bounds : 1 <= PAGE_SIZE <= 4294967296.
Proof.
  unfold PAGE_SIZE. pose proof page_shift_ok. split.
  - pose proof (Z.pow_pos_nonneg 2 PAGE_SHIFT). lia.
  - change 4294967296 with (2 ^ 32). apply Z.pow_le_mono_r; lia.
Qed.

(** ** The window of [memblock_find_in_range_node] *)

Definition window_end (st : memblock) (start end_ : Z) : Z :=
  Z.max (Z.max start PAGE_SIZE)
    (if end_ =? MEMBLOCK_ALLOC_ACCESSIBLE then current_limit st else end_).

(** Blocks the search may return. *)
Definition eligible (st : memblock) (size k start end_ nid c : Z) : Prop :=
  candidate st nid k (Z.max start PAGE_SIZE) (window_end st start end_) size c.

Section FindNode.
Variable st : memblock.
Hypothesis Hwf : wf_memblock st.
Hypothesis Hidx : idx_ok st.
Variables (size k start end_ nid : Z).
Hypothesis Hnid : nid <> MAX_NUMNODES.
Hypothesis Hk : 0 <= k < 64.
Hypothesis Hstart : is_u64 start.
Hypothesis Hend : is_u64 end_.
Hypothesis Hsize : 0 < size <= U64_MAX.

Lemma window_ok :
  0 < Z.max start PAGE_SIZE <= window_end st start end_ /\ window_end st start end_ <= U64_MAX.
Proof.
  pose proof page_size_bounds. pose proof (wf_limit _ Hwf). unfold window_end.
  case_if; ulia.
Qed.

Lemma find_in_range_node_top_down :
  memblock_bottom_up st && (window_end st start end_ >? kernel_end) = false ->
  exists c, memblock_find_in_range_node st size (2 ^ k) start end_ nid = Ok c
    /\ (c <> 0 -> eligible st size k start end_ nid c)
    /\ (forall c', eligible st size k start end_ nid c' -> c' <= c).
Proof.
  intros Hbu. unfold memblock_find_in_range_node.
  fold (window_end st start end_). rewrite Hbu. cbn [obind].
  destruct (top_down_spec st Hwf Hidx nid k (Z.max start PAGE_SIZE) (window_end st start end_) size
    Hnid Hk window_ok Hsize) as (c & -> & Hs & Hc). eauto.
Qed.

Lemma find_in_range_node_spec :
  exists c, memblock_find_in_range_node st size (2 ^ k) start end_ nid = Ok c
    /\ (c <> 0 -> eligible st size k start end_ nid c)
    /\ (c = 0 -> forall c', ~ eligible st size k start end_ nid c').
Proof.
  pose proof window_ok as Hwin. pose proof kernel_end_ok as Hke.
  destruct (memblock_bottom_up st && (window_end st start end_ >? kernel_end)) eqn:Hbu.
  - unfold memblock_find_in_range_node. fold (window_end st start end_). rewrite Hbu.
    apply andb_true_iff in Hbu as [_ Hgt]. zbool.
    assert (Hwin' : 0 < Z.max (Z.max start PAGE_SIZE) kernel_end <= window_end st start end_
      /\ window_end st start end_ <= U64_MAX) by lia.
    destruct (bottom_up_spec st Hwf Hidx nid k (Z.max (Z.max start PAGE_SIZE) kernel_end)
      (window_end st start end_) size Hnid Hk Hwin' Hsize) as (c & -> & Hs & _).
    cbn [obind]. destruct (c =? 0) eqn:E; zbool; cbn [negb].
    + destruct (top_down_spec st Hwf Hidx nid k (Z.max start PAGE_SIZE)
        (window_end st start end_) size Hnid Hk Hwin Hsize) as (c' & -> & Hs' & Hc').
      exists c'. split; [done|]. split; [done|]. intros -> c'' Hel.
      pose proof (Hc' _ Hel). destruct Hel as (_ & _ & ? & _). lia.
    + exists c. split; [done|]. split; [|done]. intros _.
      destruct (Hs E) as (? & ? & ? & ?). split_and!; try done. lia.
  - destruct (find_in_range_node_top_down Hbu) as (c & -> & Hs & Hc).
    exists c. split; [done|]. split; [done|]. intros -> c' Hel.
    pose proof (Hc _ Hel). destruct Hel as (_ & _ & ? & _). lia.
Qed.

Lemma eligible_bounds c :
  eligible st size k start end_ nid c -> 0 < c /\ c + size <= U64_MAX.
Proof. pose proof window_ok. intros (_ & _ & ? & ?). lia. Qed.

End FindNode.

(** ** Reserving a block nobody holds *)

Lemma count_new_free nid flags end_ base lo rs :
  chain lo rs -> base < end_ ->
  (forall r, r ∈ rs -> rgn_end r <= base \/ end_ <= rgn_base r) ->
  count_new nid flags end_ base rs = 1%nat.
Proof.
  revert lo; induction rs as [|r rs IH]; intros lo Hc Hbe Hdis; cbn.
  - unfold tail_region. case_if; [done|lia].
  - destruct Hc as (? & ? & ? & Hc). destruct (Hdis r); [set_solver|..].
    + case_if; [unfold rgn_end in *; lia|]. case_if; [|lia].
      eapply IH; eauto. set_solver.
    + case_if; [|lia]. unfold tail_region. case_if; [done|lia].
Qed.

Lemma range_end_exact base size : base + size <= U64_MAX -> range_end base size = base + size.
Proof. unfold range_end, memblock_cap_size. lia. Qed.

Lemma new_entries_free st base size nid flags :
  wf_memblock st -> 0 <= base -> 0 < size -> base + size <= U64_MAX ->
  (forall x, base <= x < base + size -> lookup_addr Reserved st x = None) ->
  (new_entries Reserved base size nid flags st <= 1)%nat.
Proof.
  intros Hwf ? ? ? Hfree. unfold new_entries. cbn [get_type].
  pose proof (proj1 (disjoint_iff (reserved st) base size (wf_reserved _ Hwf)) Hfree) as Hdis.
  rewrite range_end_exact by done.
  destruct (wf_dummy_or_chain _ (wf_reserved _ Hwf)) as [(r & E & _ & Hs)|(r & rs & E & Hc & Hr)];
    rewrite E in *.
  - rewrite Hs. cbn. lia.
  - assert (count_new nid flags (base + size) base (r :: rs) = 1%nat) as Hone.
    { eapply count_new_free; [exact Hc|lia|]. intros r' Hin.
      destruct (chain_In _ _ _ Hc Hin) as (? & ? & ?). specialize (Hdis r' Hin). lia. }
    destruct rs; [case_if; [lia|]|]; lia.
Qed.

(** Reserving a free block: exactly that block becomes reserved. *)
Lemma reserve_free d st base size nid flags :
  wf_memblock st -> 0 <= base -> 0 < size -> base + size <= U64_MAX ->
  (forall x, base <= x < base + size -> lookup_addr Reserved st x = None) ->
  (cnt (reserved st) < max (reserved st))%nat ->
  exists ty', add_range_with d Reserved base size nid flags st = Ok (0, set_type Reserved ty' st)
    /\ wf_type ty' /\ max ty' = max (reserved st) /\ home ty' = home (reserved st)
    /\ minimal (regions ty') /\ (cnt ty' <= cnt (reserved st) + 1)%nat
    /\ forall x, attr_at (regions ty') x =
         if (base <=? x) && (x <? base + size) then Some (new_attr nid flags)
         else lookup_addr Reserved st x.
Proof.
  intros Hwf Hb Hs Hbs Hfree Hroom.
  assert (Hcap : 0 < memblock_cap_size base size) by (unfold memblock_cap_size; lia).
  assert (Hr : has_room Reserved (new_entries Reserved base size nid flags st) st).
  { pose proof (new_entries_free st base size nid flags Hwf Hb Hs Hbs Hfree).
    unfold has_room. cbn. lia. }
  exists (added Reserved base size nid flags st). split_and!.
  - apply add_range_with_room; try done; ulia.
  - apply added_wf; try done; ulia.
  - done.
  - done.
  - apply add_regions_minimal.
  - etransitivity; [apply added_cnt_le|]. cbn [get_type].
    pose proof (new_entries_free st base size nid flags Hwf Hb Hs Hbs Hfree). lia.
  - intros x. unfold added. cbn [regions]. rewrite add_regions_attr by (done || ulia).
    fold (lookup_addr Reserved st x). unfold in_range. rewrite range_end_exact by done.
    destruct ((base <=? x) && (x <? base + size)) eqn:E.
    + zbool. by rewrite Hfree by lia.
    + by destruct (lookup_addr Reserved st x).
Qed.

(** Removing a range, the empty one included. *)
Lemma remove_range_any d t base size st :
  wf_memblock st -> is_u64 base -> is_u64 size -> has_room t 2 st ->
  exists ty',
    remove_range_with d t base size st = Ok (0, set_type t ty' st)
    /\ wf_type ty' /\ max ty' = max (get_type t st) /\ home ty' = home (get_type t st)
    /\ (cnt ty' <= cnt (get_type t st) + 2)%nat
    /\ forall a, attr_at (regions ty') a =
         if in_range base size a then None else lookup_addr t st a.
Proof.
  intros Hwf Hb Hs Hroom. destruct (Z.lt_ge_cases 0 (memblock_cap_size base size)).
  - by apply remove_range_with_room.
  - assert (Hcap : memblock_cap_size base size = 0) by (unfold memblock_cap_size in *; ulia).
    exists (get_type t st). split_and!.
    + unfold remove_range_with, isolate_range_with. rewrite Hcap. cbn. by destruct t, st.
    + by apply wf_get.
    + done.
    + done.
    + lia.
    + intros a. unfold in_range, range_end. rewrite Hcap. case_if; [zbool; lia|done].
Qed.

(** ** Doubling *)

Lemma page_align_spec x :
  0 <= x < 2 ^ 40 -> 0 < x -> 0 < PAGE_ALIGN x /\ x <= PAGE_ALIGN x < 2 ^ 41.
Proof.
  intros Hx Hp. pose proof page_size_bounds. pose proof page_shift_ok.
  unfold PAGE_ALIGN. change (Z.lnot (PAGE_SIZE - 1)) with (Z.lnot (2 ^ PAGE_SHIFT - 1)).
  assert (E : Z.land (x + (PAGE_SIZE - 1)) (Z.lnot (2 ^ PAGE_SHIFT - 1)) =
              (x + (PAGE_SIZE - 1)) / 2 ^ PAGE_SHIFT * 2 ^ PAGE_SHIFT).
  { replace (2 ^ PAGE_SHIFT - 1) with (Z.ones PAGE_SHIFT) by (rewrite Z.ones_equiv; lia).
    rewrite <- Z.ldiff_land, Z.ldiff_ones_r by lia.
    by rewrite Z.shiftl_mul_pow2, Z.shiftr_div_pow2 by lia. }
  rewrite E. fold PAGE_SIZE.
  assert (Hps : 0 < PAGE_SIZE /\ PAGE_SIZE <> 0) by lia.
  pose proof (Z.div_mod (x + (PAGE_SIZE - 1)) PAGE_SIZE (proj2 Hps)).
  pose proof (Z.mod_pos_bound (x + (PAGE_SIZE - 1)) PAGE_SIZE (proj1 Hps)).
  rewrite u64_id by ulia. lia.
Qed.

(** Arrays are neither tiny nor absurdly large. *)
Definition sized (ty : memblock_type) : Prop := 4 <= Z.of_nat (max ty) < 2 ^ 30.

Definition sized_arrays (st : memblock) : Prop := sized (memory st) /\ sized (reserved st).

Lemma sized_idx_ok st : wf_memblock st -> sized_arrays st -> idx_ok st.
Proof.
  intros Hwf [Hm Hr]. unfold sized in *.
  pose proof (wf_max _ (wf_memory _ Hwf)). pose proof (wf_max _ (wf_reserved _ Hwf)).
  unfold idx_ok, idx_max. lia.
Qed.

(** Bytes of the block that holds an array of [n] entries. *)
Definition array_bytes (n : nat) : Z := PAGE_ALIGN (Z.of_nat n * sizeof_region).

Lemma array_bytes_ok n : 3 <= Z.of_nat n < 2 ^ 31 -> 0 < array_bytes n < 2 ^ 41.
Proof.
  intros. pose proof (page_align_spec (Z.of_nat n * sizeof_region)) as Hp.
  unfold array_bytes, sizeof_region in *. destruct have_node_map; lia.
Qed.

(** The block an array leaves when it moves. *)
Definition released (t : type_ptr) (st : memblock) (x : Z) : bool :=
  match home (get_type t st) with
  | region_array_at old =>
      negb (in_slab t st) && in_range old (array_bytes (max (get_type t st))) x
  | _ => false
  end.

Definition home_ok (t : type_ptr) (st : memblock) : Prop :=
  match home (get_type t st) with region_array_at old => is_u64 old | _ => True end.

Section Double.
Variables (t : type_ptr) (st : memblock) (start size : Z).
Hypothesis Hslab : slab_is_available = false.
Hypothesis Hwf : wf_memblock st.
Hypothesis Hsized : sized_arrays st.
Hypothesis Hhome : home_ok t st.
Hypothesis Hstart : is_u64 start.
Hypothesis Hsize : is_u64 size.
Hypothesis Harea : start + size <= U64_MAX.
Hypothesis Hresv : t = Memory -> has_room Reserved 3 st.

Abbreviation ty := (get_type t st).
Abbreviation bytes := (array_bytes (2 * max ty)).

Lemma sized_ty : 4 <= Z.of_nat (max ty) < 2 ^ 30.
Proof. destruct Hsized. by destruct t. Qed.

(** The size computations do not wrap. *)
Lemma double_sizes :
  u64 (Z.of_nat (max ty) * sizeof_region) = Z.of_nat (max ty) * sizeof_region
  /\ u64 (Z.shiftl (Z.of_nat (max ty) * sizeof_region) 1)
     = Z.of_nat (2 * max ty) * sizeof_region.
Proof.
  pose proof sized_ty. rewrite Z.shiftl_mul_pow2 by lia. change (2 ^ 1) with 2.
  unfold sizeof_region. destruct have_node_map; rewrite !u64_id by ulia; lia.
Qed.

(** Neither of the two searches finds a block for the new array. *)
Definition no_place : Prop :=
  let '(a, z) := match t with Reserved => (start, size) | Memory => (0, 0) end in
  (forall c, ~ eligible st bytes PAGE_SHIFT (a + z) (current_limit st) NUMA_NO_NODE c)
  /\ (z <> 0 -> forall c, ~ eligible st bytes PAGE_SHIFT 0 (Z.min a (current_limit st)) NUMA_NO_NODE c).

(** The new block: free, and clear of the area being reserved. *)
Lemma double_array_addr_spec :
  exists addr, double_array_addr t start size (Z.of_nat (2 * max ty) * sizeof_region) st = Ok addr
    /\ (addr <> 0 -> 0 < addr /\ addr + bytes <= U64_MAX
        /\ free_block st NUMA_NO_NODE addr bytes
        /\ (t = Reserved -> 0 < start -> addr + bytes <= start \/ start + size <= addr))
    /\ (addr = 0 -> no_place).
Proof.
  pose proof (array_bytes_ok (2 * max ty)) as Hb. pose proof sized_ty as Hs.
  assert (Hb' : 0 < bytes <= U64_MAX) by ulia.
  pose proof (sized_idx_ok _ Hwf Hsized) as Hidx.
  assert (Hk : 0 <= PAGE_SHIFT < 64) by (pose proof page_shift_ok; lia).
  pose proof (wf_limit _ Hwf) as Hlim. pose proof no_node_ne_max as Hn.
  assert (Hz0 : is_u64 0) by ulia.
  unfold double_array_addr, no_place. rewrite Hslab. fold bytes.
  set (a := match t with Reserved => (start, size) | Memory => (0, 0) end).
  assert (Ha : is_u64 (fst a) /\ is_u64 (snd a) /\ is_u64 (fst a + snd a)
    /\ (t = Reserved -> fst a = start /\ snd a = size)) by (destruct t; subst a; cbn; split_and!; try done; ulia).
  destruct a as [a z]. cbn [fst snd] in Ha. destruct Ha as (Ha & Hz & Haz & Hres).
  unfold memblock_find_in_range. rewrite (u64_id (a + z)) by done.
  change PAGE_SIZE with (2 ^ PAGE_SHIFT) at 1.
  destruct (find_in_range_node_spec st Hwf Hidx bytes PAGE_SHIFT (a + z) (current_limit st)
    NUMA_NO_NODE Hn Hk Haz Hlim Hb') as (c & -> & Hc & Hc0). cbn [obind].
  destruct ((c =? 0) && negb (z =? 0)) eqn:E.
  - change PAGE_SIZE with (2 ^ PAGE_SHIFT).
    assert (Hmin : is_u64 (Z.min a (current_limit st))) by ulia.
    destruct (find_in_range_node_spec st Hwf Hidx bytes PAGE_SHIFT 0
      (Z.min a (current_limit st)) NUMA_NO_NODE Hn Hk Hz0 Hmin Hb') as (c' & -> & Hc' & Hc0').
    exists c'. split; [done|]. split; [|by intros E0; split; [apply Hc0; zbool; lia|intros _; by apply Hc0']].
    intros Hne. specialize (Hc' Hne).
    pose proof (eligible_bounds st Hwf bytes PAGE_SHIFT _ _ _ Hz0 Hmin c' Hc').
    destruct Hc' as (Hfree & _ & Hlo & Hhi). split_and!; try done; try lia.
    intros [-> ->]%Hres Hpos. left. unfold window_end, MEMBLOCK_ALLOC_ACCESSIBLE in Hhi. revert Hhi. case_if; zbool; lia.
  - exists c. split; [done|]. split; [|intros ->; split; [by apply Hc0|]; intros Hz1; cbn in E; zbool; lia].
    intros Hne. specialize (Hc Hne).
    pose proof (eligible_bounds st Hwf bytes PAGE_SHIFT _ _ _ Haz Hlim c Hc).
    destruct Hc as (Hfree & _ & Hlo & Hhi). split_and!; try done; try lia.
    intros [-> ->]%Hres Hpos. lia.
Qed.

(** The state after the entries were copied to the new array at [addr]. *)
Definition moved (addr : Z) : memblock :=
  set_type t (MType (regions ty) (2 * max ty) (total_size ty) (region_array_at addr)) st.

Lemma moved_wf addr : wf_memblock (moved addr).
Proof.
  destruct (wf_get _ t Hwf) as [Hr Ht Hm]. apply wf_set; [done|].
  split; [done|done|]. unfold cnt in *. cbn. lia.
Qed.

Lemma moved_room addr : has_room Reserved 3 (moved addr).
Proof.
  unfold has_room, moved. destruct t; [by apply Hresv|]. cbn [get_type set_type reserved].
  pose proof (wf_max _ (wf_reserved _ Hwf)). destruct Hsized as [_ Hs].
  unfold sized, cnt in *. cbn in *. lia.
Qed.

Lemma moved_lookup addr u x : lookup_addr u (moved addr) x = lookup_addr u st x.
Proof. unfold lookup_addr, moved. by destruct t, u. Qed.

(** Giving back the old block. *)
Lemma release_step addr d :
  exists ty',
    (if in_slab t (moved addr) then Ok (moved addr)
     else match home ty with
          | region_array_at old =>
              let! (_, st) := remove_range_with d Reserved old (array_bytes (max ty))
                                (moved addr) in Ok st
          | _ => Ok (moved addr)
          end) = Ok (set_type Reserved ty' (moved addr))
    /\ wf_type ty' /\ max ty' = max (reserved (moved addr))
    /\ home ty' = home (reserved (moved addr))
    /\ ((cnt ty' < max ty')%nat /\ (cnt ty' <= cnt (reserved st) + 2)%nat)
    /\ forall x, attr_at (regions ty') x =
         if released t st x then None else lookup_addr Reserved st x.
Proof.
  pose proof (moved_wf addr) as Hw. pose proof (moved_room addr) as Hroom.
  pose proof (moved_lookup addr Reserved) as Hlk.
  pose proof (array_bytes_ok (max ty)) as Hb. pose proof sized_ty.
  assert (Hsl : in_slab t (moved addr) = in_slab t st) by (unfold moved; by destruct t).
  assert (Hid : moved addr = set_type Reserved (reserved (moved addr)) (moved addr))
    by (by destruct (moved addr)).
  assert (Hcn : cnt (reserved (moved addr)) = cnt (reserved st)) by (unfold moved; by destruct t).
  unfold released, home_ok in *. rewrite Hsl. unfold has_room in Hroom. cbn in Hroom.
  assert (Hkeep : exists ty', Ok (moved addr) = Ok (set_type Reserved ty' (moved addr))
    /\ wf_type ty' /\ max ty' = max (reserved (moved addr))
    /\ home ty' = home (reserved (moved addr))
    /\ ((cnt ty' < max ty')%nat /\ (cnt ty' <= cnt (reserved st) + 2)%nat)
    /\ forall x, attr_at (regions ty') x = lookup_addr Reserved st x).
  { exists (reserved (moved addr)). split_and!; try done; [by f_equal|apply Hw|lia|lia]. }
  destruct (in_slab t st) eqn:Es; [by destruct (home ty)|].
  destruct (home ty) as [| |old]; [done|done|].
  destruct (remove_range_any d Reserved old (array_bytes (max ty)) (moved addr))
    as (ty' & -> & Hw' & Hm & Hh & Hc & Hat); [done|done|ulia|unfold has_room; cbn; lia|].
  exists ty'. cbn [obind get_type] in *. split_and!; try done; [lia|lia|].
  intros x. by rewrite Hat, Hlk.
Qed.

(** The whole operation: it fails without a trace, or the array has twice the
    room in a freshly reserved block and the old block is given back. *)
Definition doubled (st' : memblock) (addr : Z) : Prop :=
  home (get_type t st') = region_array_at addr
  /\ max (get_type t st') = (2 * max ty)%nat
  /\ wf_memblock st'
  /\ free_block st NUMA_NO_NODE addr bytes
  /\ (t = Reserved -> 0 < start -> addr + bytes <= start \/ start + size <= addr)
  /\ regions (memory st') = regions (memory st)
  /\ (cnt (reserved st') <= cnt (reserved st) + 3)%nat
  /\ forall x, lookup_addr Reserved st' x =
       if (addr <=? x) && (x <? addr + bytes) then Some (new_attr MAX_NUMNODES 0)
       else if released t st x then None else lookup_addr Reserved st x.

Lemma double_array_fuel_spec fuel :
  (double_array_fuel (S fuel) t start size st = Ok (-1, st)
   /\ (memblock_can_resize st = false \/ no_place))
  \/ exists st' addr, double_array_fuel (S fuel) t start size st = Ok (0, st') /\ doubled st' addr.
Proof.
  destruct double_sizes as [E1 E2]. pose proof sized_ty as Hs.
  destruct double_array_addr_spec as (addr & Ha & Haddr & Ha0).
  cbn [double_array_fuel]. destruct (memblock_can_resize st) eqn:Hrs; [|by left; split; [|left]]. cbn [negb].
  rewrite E1, E2, Ha. cbn [obind]. case_if; zbool; [by left; split; [|right; apply Ha0]|]. destruct Haddr as (Hp & Hmax & Hfree & Hclear); [done|].
  fold (array_bytes (max ty)) (array_bytes (2 * max ty)) (moved addr).
  destruct (release_step addr (double_array_fuel fuel)) as (ty' & -> & Hw & Hm & Hh & [Hc Hc2] & Hat).
  cbn [obind]. rewrite Hslab. right.
  pose proof (array_bytes_ok (2 * max ty)) as Hb.
  destruct (reserve_free (double_array_fuel fuel) (set_type Reserved ty' (moved addr)) addr bytes
    MAX_NUMNODES 0) as (ty'' & -> & Hw' & Hm' & Hh' & _ & Hc' & Hat'); try done; try lia.
  { by apply wf_set; [apply moved_wf|]. }
  { intros x Hx. unfold lookup_addr. cbn. rewrite Hat. case_if; [done|]. by apply Hfree. }
  cbn [obind negb Z.eqb]. eexists _, addr. split; [done|]. unfold doubled.
  assert (Hat'' : forall x, attr_at (regions ty'') x =
    if (addr <=? x) && (x <? addr + bytes) then Some (new_attr MAX_NUMNODES 0)
    else if released t st x then None else lookup_addr Reserved st x).
  { intros x. rewrite Hat'. unfold lookup_addr at 1. cbn [get_type set_type reserved].
    by rewrite Hat. }
  pose proof (moved_wf addr) as Hmw.
  assert (Hwf' : wf_memblock (set_type Reserved ty'' (set_type Reserved ty' (moved addr))))
    by (apply wf_set; [by apply wf_set|done]).
  change (reserved (set_type Reserved ty' (moved addr))) with ty' in Hc'.
  clear Hat Hat'. unfold moved in *. cbn [set_type reserved] in *.
  split_and!; try done.
  - destruct t; cbn; [done|by rewrite Hh', Hh].
  - destruct t; cbn; [done|by rewrite Hm', Hm].
  - destruct Hwf'. by destruct t; split.
  - by destruct t.
  - destruct t; cbn; lia.
  - intros x. unfold lookup_addr at 1. rewrite <- Hat''. by destruct t.
Qed.

End Double.

(** ** Allocating: a search, then a reservation *)

(** What a successful allocation of the block at [c] does. *)
Record allocated (size c : Z) (st st' : memblock) : Prop := {
  alloc_wf : wf_memblock st';
  alloc_memory : memory st' = memory st;
  alloc_limit : current_limit st' = current_limit st;
  alloc_max : max (reserved st') = max (reserved st);
  alloc_cnt : (cnt (reserved st') <= cnt (reserved st) + 1)%nat;
  alloc_lookup : forall x, lookup_addr Reserved st' x =
    if (c <=? x) && (x <? c + size) then Some (new_attr MAX_NUMNODES 0)
    else lookup_addr Reserved st x
}.

(** A free block takes one entry of an array that is not empty. *)
Definition some_reserved (st : memblock) : Prop := exists x a, lookup_addr Reserved st x = Some a.

Lemma full_some_reserved st :
  wf_memblock st -> (1 < cnt (reserved st))%nat -> some_reserved st.
Proof.
  intros Hwf Hmany. destruct (wf_dummy_or_chain _ (wf_reserved _ Hwf)) as [(r & E & _ & _)|(r & rs & E & Hc & Hr)].
  - unfold cnt in Hmany. rewrite E in Hmany. cbn in Hmany. lia.
  - exists (rgn_base r). unfold lookup_addr. cbn [get_type]. rewrite E. cbn. unfold in_region, rgn_end.
    case_if; [by eexists|zbool; lia].
Qed.

Lemma free_pass st base size nid flags :
  wf_memblock st -> some_reserved st -> 0 <= base -> 0 < size -> base + size <= U64_MAX ->
  (forall x, base <= x < base + size -> lookup_addr Reserved st x = None) ->
  rgn_size (regions (reserved st) !!! 0%nat) <> 0
  /\ exists ty, add_range_pass false (reserved st) base (base + size) nid flags = Ok (ty, 1%nat).
Proof.
  intros Hw (x & a & Hx) Hb Hs Hbs Hfr.
  destruct (wf_dummy_or_chain _ (wf_reserved _ Hw)) as [(r & E & _ & Hs0)|(r & rs & E & Hc & Hr)].
  - exfalso. unfold lookup_addr in Hx. cbn [get_type] in Hx. rewrite E in Hx. cbn in Hx. unfold in_region, rgn_end in Hx.
    rewrite Hs0 in Hx. case_if_in Hx; [zbool; lia|done].
  - split; [rewrite E; cbn; lia|]. eexists. rewrite add_range_pass_count by (by rewrite E || ulia).
    do 2 f_equal. rewrite E. eapply count_new_free; [exact Hc|lia|]. intros r' Hin.
    pose proof (proj1 (disjoint_iff (reserved st) base size (wf_reserved _ Hw)) Hfr) as Hdis. rewrite E in Hdis.
    destruct (chain_In _ _ _ Hc Hin) as (? & ? & ?). specialize (Hdis r' Hin). lia.
Qed.

(** Reserving a free block in a full array: when the array cannot be grown
    nothing changes, otherwise the block is reserved in the grown array. *)
Section Full.
Variables (d : doubler) (st : memblock) (base size nid flags : Z).
Hypothesis Hwf : wf_memblock st.
Hypothesis Hb : 0 <= base.
Hypothesis Hs : 0 < size.
Hypothesis Hbs : base + size <= U64_MAX.
Hypothesis Hf : forall x, base <= x < base + size -> lookup_addr Reserved st x = None.
Hypothesis Hfull : cnt (reserved st) = max (reserved st).
Hypothesis Hmany : (1 < cnt (reserved st))%nat.

Lemma reserve_refused :
  d Reserved base size st = Ok (-1, st) ->
  add_range_with d Reserved base size nid flags st = Ok (- ENOMEM, st).
Proof.
  intros Hd. destruct (free_pass st base size nid flags) as [Hn (ty & Hp)]; [done|by apply full_some_reserved|done..|].
  unfold add_range_with. cbn [get_type]. replace (memblock_cap_size base size) with size by (unfold memblock_cap_size; lia).
  rewrite (u64_id (base + size)) by ulia. rewrite !(proj2 (Z.eqb_neq _ 0)) by lia. rewrite Hp. cbn [obind make_room get_type].
  case_if; [|zbool; lia]. by rewrite Hd.
Qed.

Lemma reserve_grown st1 :
  d Reserved base size st = Ok (0, st1) -> wf_memblock st1 -> some_reserved st1 ->
  (forall x, base <= x < base + size -> lookup_addr Reserved st1 x = None) ->
  (cnt (reserved st1) < max (reserved st1))%nat ->
  add_range_with d Reserved base size nid flags st = add_range_with d Reserved base size nid flags st1.
Proof.
  intros Hd Hwf1 Hsome Hf1 Hroom.
  destruct (free_pass st base size nid flags) as [Hn (ty & Hp)]; [done|by apply full_some_reserved|done..|].
  destruct (free_pass st1 base size nid flags) as [Hn1 (ty1 & Hp1)]; [done..|].
  unfold add_range_with. cbn [get_type]. replace (memblock_cap_size base size) with size by (unfold memblock_cap_size; lia).
  rewrite (u64_id (base + size)) by ulia. rewrite !(proj2 (Z.eqb_neq _ 0)) by lia. rewrite Hp, Hp1. cbn [obind].
  replace (S (cnt (reserved st) + 1)) with (S (S (cnt (reserved st)))) by lia. cbn [make_room get_type].
  case_if; [|zbool; lia]. rewrite Hd. cbn [obind Z.ltb Z.compare].
  by case_if; [zbool; lia|].
Qed.

End Full.

Lemma doubled_keeps_free st st1 c size addr :
  0 < c -> doubled Reserved st c size st1 addr ->
  (forall x, c <= x < c + size -> lookup_addr Reserved st x = None) ->
  forall x, c <= x < c + size -> lookup_addr Reserved st1 x = None.
Proof.
  intros Hpos (_ & _ & _ & _ & Hclear & _ & _ & Hlk) Hfree x Hx. rewrite Hlk.
  destruct (Hclear eq_refl Hpos); case_if; zbool; try lia; case_if; try done; by apply Hfree.
Qed.

Lemma alloc_range_nid_spec st size k start end_ nid :
  wf_memblock st -> idx_ok st -> (cnt (reserved st) < max (reserved st))%nat ->
  nid <> MAX_NUMNODES -> 0 <= k < 64 -> is_u64 start -> is_u64 end_ -> 0 < size <= U64_MAX ->
  exists c st', memblock_alloc_range_nid size (2 ^ k) start end_ nid st = Ok (c, st')
    /\ ((c = 0 /\ st' = st /\ forall c', ~ eligible st size k start end_ nid c')
        \/ (eligible st size k start end_ nid c /\ c <> 0 /\ allocated size c st st')).
Proof.
  intros Hwf Hidx Hroom Hnid Hk Hstart Hend Hsize. unfold memblock_alloc_range_nid.
  pose proof (pow2_u64 k Hk). rewrite (proj2 (Z.eqb_neq (2 ^ k) 0)) by lia.
  destruct (find_in_range_node_spec st Hwf Hidx size k start end_ nid Hnid Hk Hstart Hend Hsize)
    as (c & -> & Hc & Hn). cbn [obind].
  case_if; zbool; [exists 0, st; split; [done|]; left; auto|].
  specialize (Hc E). destruct (eligible_bounds st Hwf size k start end_ nid Hstart Hend c Hc).
  destruct Hc as ([Hmem Hfree] & Hrest).
  destruct (reserve_free memblock_double_array st c size MAX_NUMNODES 0)
    as (ty' & Hres & Hw & Hm & _ & _ & Hcnt & Hat); try done; try lia.
  unfold memblock_reserve, memblock_reserve_region, memblock_add_range. rewrite Hres.
  cbn [obind Z.eqb]. eexists c, _. split; [done|]. right. split; [by split|]. split; [done|].
  split; try done. by apply wf_set.
Qed.

(** Allocating when the array of reservations is full. *)
Lemma alloc_range_nid_full st size k start end_ nid :
  slab_is_available = false -> wf_memblock st -> sized_arrays st -> home_ok Reserved st ->
  cnt (reserved st) = max (reserved st) ->
  nid <> MAX_NUMNODES -> 0 <= k < 64 -> is_u64 start -> is_u64 end_ -> 0 < size <= U64_MAX ->
  exists c st', memblock_alloc_range_nid size (2 ^ k) start end_ nid st = Ok (c, st')
    /\ ((c = 0 /\ st' = st /\ forall c', ~ eligible st size k start end_ nid c')
        \/ (c = 0 /\ st' = st /\ exists c', eligible st size k start end_ nid c'
              /\ (memblock_can_resize st = false \/ no_place Reserved st c' size))
        \/ (eligible st size k start end_ nid c /\ c <> 0 /\ exists st1 addr,
              doubled Reserved st c size st1 addr /\ allocated size c st1 st')).
Proof.
  intros Hslab Hwf Hsz Hhome Hfull Hnid Hk Hstart Hend Hsize. unfold memblock_alloc_range_nid.
  pose proof (sized_idx_ok _ Hwf Hsz) as Hidx.
  pose proof (pow2_u64 k Hk). rewrite (proj2 (Z.eqb_neq (2 ^ k) 0)) by lia.
  destruct (find_in_range_node_spec st Hwf Hidx size k start end_ nid Hnid Hk Hstart Hend Hsize)
    as (c & -> & Hc & Hn). cbn [obind].
  case_if; zbool; [exists 0, st; split; [done|]; left; auto|].
  specialize (Hc E). destruct (eligible_bounds st Hwf size k start end_ nid Hstart Hend c Hc) as [Hpos Hfit].
  pose proof (proj2 (proj1 Hc)) as Hfree.
  assert (Hu : is_u64 c /\ is_u64 size) by (split; ulia).
  assert (Hmany : (1 < cnt (reserved st))%nat) by (destruct Hsz as [_ Hsr]; unfold sized in Hsr; lia).
  unfold memblock_reserve, memblock_reserve_region, memblock_add_range.
  destruct (double_array_fuel_spec Reserved st c size Hslab Hwf Hsz Hhome (proj1 Hu) (proj2 Hu) Hfit ltac:(done) 2)
    as [[Hd Hwhy]|(st1 & addr & Hd & Hdd)]; fold memblock_double_array in Hd.
  - rewrite (reserve_refused memblock_double_array st c size); try done; try lia.
    cbn [obind]. exists 0, st. split; [done|]. right. left. eauto.
  - pose proof Hdd as (Hh & Hm & Hw1 & Hfb & Hclear & Hmem & Hcnt & Hlk).
    cbn [get_type] in Hm. destruct Hsz as [_ Hsr]. unfold sized in Hsr.
    pose proof (array_bytes_ok (2 * max (reserved st)) ltac:(lia)) as Hbytes.
    pose proof (doubled_keeps_free st st1 c size addr Hpos Hdd Hfree) as Hfree1.
    rewrite (reserve_grown memblock_double_array st c size MAX_NUMNODES 0) with (st1 := st1); try done; try lia.
    2: { exists addr. rewrite Hlk. cbn [get_type]. eexists. case_if; [done|zbool; lia]. }
    destruct (reserve_free memblock_double_array st1 c size MAX_NUMNODES 0)
        as (ty' & Hres & Hw & Hm' & _ & _ & Hc' & Hat); try done; try lia.
      rewrite Hres. cbn [obind Z.eqb]. eexists c, _. split; [done|]. right. right. split; [done|]. split; [done|].
      exists st1, addr. split; [done|]. split; try done. by apply wf_set.
Qed.

End Resize.

(** * Queries on the region arrays (mm/memblock.c) *)

(** ** Binary search *)

Definition search_result (rs : list memblock_region) (addr z : Z) : Prop :=
  (z = -1 /\ forall r, r ∈ rs -> in_region r addr = false)
  \/ exists i r, z = Z.of_nat i /\ rs !! i = Some r /\ in_region r addr = true.

Section Search.
Variables (rs : list memblock_region) (addr : Z).
Hypothesis Hc : chain 0 rs.

(** What the loop knows: the entries before [left] end at or below [addr],
    those from [right] on start above it. *)
Definition narrowed (left right : nat) : Prop :=
  forall i r, rs !! i = Some r ->
    ((i < left)%nat -> rgn_end r <= addr) /\ ((right <= i)%nat -> addr < rgn_base r).

Lemma narrowed_absent i : narrowed i i -> search_result rs addr (-1).
Proof.
  intros Hn. left. split; [done|]. intros r [j Hj]%list_elem_of_lookup.
  destruct (Hn j r Hj). apply not_true_iff_false. rewrite in_region_iff.
  destruct (Nat.lt_ge_cases j i); lia.
Qed.

Lemma narrowed_left left right mid r :
  narrowed left right -> rs !! mid = Some r -> addr < rgn_base r -> narrowed left mid.
Proof.
  intros Hn Hm Ha i r' Hi. split; [by apply Hn|]. intros Hle.
  destruct (decide (i = mid)) as [->|]; [by simplify_eq|].
  pose proof (chain_lookup_lt 0 rs mid i r r' Hc ltac:(lia) Hm Hi).
  destruct (chain_In _ _ r Hc); [by eapply list_elem_of_lookup_2|]. unfold rgn_end in *. lia.
Qed.

Lemma narrowed_right left right mid r :
  narrowed left right -> rs !! mid = Some r -> rgn_end r <= addr -> narrowed (S mid) right.
Proof.
  intros Hn Hm Ha i r' Hi. split; [|by apply Hn]. intros Hle.
  destruct (decide (i = mid)) as [->|]; [by simplify_eq|].
  pose proof (chain_lookup_lt 0 rs i mid r' r Hc ltac:(lia) Hi Hm).
  destruct (chain_In _ _ r Hc); [by eapply list_elem_of_lookup_2|]. unfold rgn_end in *. lia.
Qed.

Lemma search_loop_spec fuel left right :
  (left < right <= length rs)%nat -> (right - left <= fuel)%nat -> narrowed left right ->
  exists z, search_loop fuel rs addr left right = Ok z /\ search_result rs addr z.
Proof.
  revert left right; induction fuel as [|fuel IH]; intros left right Hlr Hf Hn; [lia|].
  cbn [search_loop]. set (mid := ((right + left) / 2)%nat).
  assert (Hmid : (left <= mid < right)%nat).
  { split; [apply Nat.div_le_lower_bound|apply Nat.Div0.div_lt_upper_bound]; lia. }
  clearbody mid.
  destruct (lookup_lt_is_Some_2 rs mid ltac:(lia)) as [r Hr].
  rewrite (list_lookup_total_correct _ _ _ Hr).
  rewrite (chain_region_end 0 rs r) by (lia || done || by eapply list_elem_of_lookup_2).
  case_if; zbool.
  - pose proof (narrowed_left _ _ _ _ Hn Hr ltac:(lia)) as Hn'.
    case_if; [apply IH; (lia || done)|].
    exists (-1). split; [done|]. apply (narrowed_absent left).
    by replace mid with left in Hn' by lia.
  - case_if; zbool; [|eexists; split; [done|]; right; exists mid, r; split_and!; try done;
      by apply in_region_iff].
    pose proof (narrowed_right _ _ _ _ Hn Hr ltac:(lia)) as Hn'.
    case_if; [apply IH; (lia || done)|].
    exists (-1). split; [done|]. apply (narrowed_absent right).
    by replace (S mid) with right in Hn' by lia.
Qed.

End Search.

Lemma memblock_search_spec ty addr :
  wf_type ty -> 0 <= addr ->
  exists z, memblock_search ty addr = Ok z /\ search_result (regions ty) addr z.
Proof.
  intros Hwf Ha. unfold memblock_search.
  destruct (wf_rs _ Hwf) as [[Hne Hc]|(r & E & Hb & Hs)].
  - apply search_loop_spec; unfold cnt; [done|destruct (regions ty); cbn; [done|lia]|lia|].
    intros i r Hi. apply lookup_lt_Some in Hi. lia.
  - exists (-1). unfold cnt. rewrite E. cbn. unfold region_end. rewrite Hb, Hs.
    change (u64 (0 + 0)) with 0. split.
    + case_if; zbool; [lia|]. case_if; zbool; [done|lia].
    + left. split; [done|]. intros r' ->%list_elem_of_singleton.
      apply not_true_iff_false. rewrite in_region_iff. unfold rgn_end. lia.
Qed.

(** ** [total_size] counts bytes *)

Definition covered `{MemblockConfig} (rs : list memblock_region) (a : Z) : bool :=
  bool_decide (is_Some (attr_at rs a)).

Section Count.
Context `{MemblockConfig}.

Lemma sum_sizes_count lo rs hi :
  chain lo rs -> (forall r, r ∈ rs -> rgn_end r <= hi) -> lo <= hi ->
  count_in (covered rs) lo hi = sum_sizes rs.
Proof.
  revert lo; induction rs as [|r rs IH]; intros lo Hc Hhi Hlo.
  - by apply count_in_none.
  - cbn [chain] in Hc. destruct Hc as (? & ? & ? & Hc). cbn [sum_sizes foldr].
    assert (Hr : rgn_end r <= hi) by (apply Hhi; set_solver). unfold rgn_end in Hr.
    rewrite (count_in_split _ lo (rgn_base r) hi), (count_in_split _ (rgn_base r) (rgn_end r) hi)
      by (unfold rgn_end; lia).
    rewrite count_in_none, count_in_all.
    + rewrite (count_in_ext _ (covered rs)), IH; unfold rgn_end; try lia; try done.
      * unfold sum_sizes. lia.
      * set_solver.
      * intros x Hx. unfold covered. cbn. unfold in_region, rgn_end.
        rewrite (proj2 (Z.ltb_ge x _)) by lia. by rewrite andb_false_r.
    + unfold rgn_end. lia.
    + intros x Hx. unfold covered. cbn. rewrite (proj2 (in_region_iff r x)) by lia.
      by apply bool_decide_eq_true_2.
    + intros x Hx. unfold covered. rewrite (attr_at_below (rgn_base r) (r :: rs)); [done| |lia].
      cbn. split_and!; done || lia.
Qed.

(** The size an array reports is the number of addresses it covers. *)
Lemma total_size_count ty :
  wf_type ty -> total_size ty = count_in (covered (regions ty)) 0 U64_MAX.
Proof.
  intros [Hrs Ht _]. rewrite Ht. symmetry. destruct Hrs as [[_ Hc]|(r & -> & Hd)].
  - apply sum_sizes_count; [done| |done]. intros r Hr. by destruct (chain_In _ _ _ Hc Hr) as (_ & _ & ?).
  - rewrite count_in_none; [destruct Hd; cbn; lia|]. intros x _.
    unfold covered. by rewrite attr_at_dummy.
Qed.

(** ** The address at which [memblock_enforce_memory_limit] cuts *)

Lemma limit_max_addr_spec lo rs limit :
  0 <= lo <= U64_MAX -> chain lo rs -> 0 < limit <= U64_MAX ->
  let m := limit_max_addr limit rs in
  lo <= m <= U64_MAX /\ count_in (covered rs) lo m = Z.min limit (sum_sizes rs).
Proof.
  revert lo limit; induction rs as [|r rs IH]; intros lo limit Hlo Hc Hl m; subst m.
  - cbn. split; [lia|]. rewrite count_in_none by done. lia.
  - cbn [chain limit_max_addr] in *. destruct Hc as (? & ? & ? & Hc). unfold rgn_end in *.
    assert (0 <= sum_sizes rs) by (apply chain_sum in Hc; lia).
    change (sum_sizes (r :: rs)) with (rgn_size r + sum_sizes rs).
    assert (Hlow : forall x, lo <= x < rgn_base r -> covered (r :: rs) x = false).
    { intros x Hx. unfold covered. rewrite (attr_at_below (rgn_base r) (r :: rs)); [done| |lia].
      cbn. split_and!; done || (unfold rgn_end; lia). }
    assert (Hin : forall x, rgn_base r <= x < rgn_base r + rgn_size r ->
      covered (r :: rs) x = true).
    { intros x Hx. unfold covered. cbn. rewrite (proj2 (in_region_iff r x)) by done.
      by apply bool_decide_eq_true_2. }
    case_if; zbool.
    + rewrite u64_id by lia. split; [lia|].
      rewrite (count_in_split _ lo (rgn_base r)), count_in_none, count_in_all by (lia || auto with lia).
      lia.
    + rewrite u64_id by lia.
      destruct (IH (rgn_base r + rgn_size r) (limit - rgn_size r)) as [Hm Hcount]; try lia; [done|].
      split; [lia|].
      rewrite (count_in_split _ lo (rgn_base r)),
        (count_in_split _ (rgn_base r) (rgn_base r + rgn_size r)) by lia.
      rewrite count_in_none, count_in_all by (lia || done).
      rewrite (count_in_ext _ (covered rs)), Hcount by (intros x Hx; unfold covered; cbn;
        unfold in_region, rgn_end; rewrite (proj2 (Z.ltb_ge x _)) by lia; by rewrite andb_false_r).
      lia.
Qed.

Lemma limit_cut ty limit :
  wf_type ty -> 0 < limit <= U64_MAX ->
  let m := limit_max_addr limit (regions ty) in
  0 <= m <= U64_MAX /\ count_in (covered (regions ty)) 0 m = Z.min limit (total_size ty).
Proof.
  intros Hwf Hl. rewrite (wf_total _ Hwf). destruct (wf_rs _ Hwf) as [[_ Hc]|(r & -> & Hd)].
  - apply limit_max_addr_spec; [ulia|done|done].
  - cbn [limit_max_addr sum_sizes foldr]. destruct Hd as [Hb Hs]. rewrite Hs.
    rewrite (proj2 (Z.leb_gt limit 0)) by lia.
    split; [cbn; ulia|]. rewrite count_in_none; [lia|]. intros x _.
    unfold covered. by rewrite attr_at_dummy.
Qed.

Lemma search_result_covered rs a z : search_result rs a z -> negb (z =? -1) = covered rs a.
Proof.
  unfold covered. intros [(-> & Hno)|(i & r & -> & Hi & Hr)].
  - by rewrite attr_at_None.
  - rewrite (proj2 (Z.eqb_neq _ _)) by lia. symmetry. apply bool_decide_eq_true_2.
    apply attr_at_hit. exists r. split; [by eapply list_elem_of_lookup_2|done].
Qed.

End Count.

Lemma wf_same_region ty r1 r2 a :
  wf_type ty -> r1 ∈ regions ty -> r2 ∈ regions ty ->
  rgn_base r1 <= a < rgn_end r1 -> rgn_base r2 <= a < rgn_end r2 -> r1 = r2.
Proof.
  intros Hwf [i Hi]%list_elem_of_lookup [j Hj]%list_elem_of_lookup H1 H2.
  destruct (wf_rs _ Hwf) as [[_ Hc]|(r & E & Hb & Hs)].
  - destruct (lt_eq_lt_dec i j) as [[Hlt|Heq]|Hlt]; [|subst; congruence|].
    + pose proof (chain_lookup_lt _ _ _ _ _ _ Hc Hlt Hi Hj). lia.
    + pose proof (chain_lookup_lt _ _ _ _ _ _ Hc Hlt Hj Hi). lia.
  - rewrite E in Hi, Hj. apply list_lookup_singleton_Some in Hi as [_ <-].
    by apply list_lookup_singleton_Some in Hj as [_ <-].
Qed.
