(* ===== verification/MemblockProps.v ===== *)
(** * The properties of mm/memblock.c

    Every theorem speaks about the functions of [Memblock], on states that
    satisfy the invariant [wf_memblock]; the lemmas they rest on are in the
    files this one requires.  The witnesses instantiate them on the state a
    small machine has after its memory was registered. *)

From S2P Require Import Prelude Memblock MemblockFacts MemblockSpec MemblockFind MemblockResize.

(** ** A small machine *)

#[local] Instance demo_config : MemblockConfig := {|
  have_node_map := true; config_movable_node := true; movable_node_enabled := true;
  MAX_NUMNODES := 4; PAGE_SHIFT := 12; SMP_CACHE_BYTES := 64; kernel_end := 1073741824;
  slab_is_available := false; kmalloc_pa := fun _ => 0 |}.

#[local] Instance demo_config_ok : MemblockConfigOk.
Proof. split; cbn; ulia. Qed.

(** 256 pages from 0x40000000 on node 0, the first of them reserved. *)
Definition demo : memblock :=
  Memblock false U64_MAX
    (MType [Region 1073741824 1048576 0 0] 4 1048576 memblock_memory_init_regions)
    (MType [Region 1073741824 4096 0 4] 4 4096 memblock_reserved_init_regions)
    true false false.

Ltac wf_demo_type :=
  split; [left; split; [done|cbn; unfold rgn_end; cbn; ulia]|done|cbn; lia].

Ltac wf_demo := split; [wf_demo_type|wf_demo_type|cbn; ulia].

Lemma demo_wf : wf_memblock demo.
Proof. wf_demo. Qed.

Lemma demo_sized : sized_arrays demo.
Proof. split; cbn; unfold sized; cbn; lia. Qed.

Lemma demo_idx : idx_ok demo.
Proof. apply sized_idx_ok; [apply demo_wf|apply demo_sized]. Qed.

(** The same machine before the arrays may be resized, and with both arrays full. *)
Definition demo_full : memblock :=
  Memblock false U64_MAX
    (MType [Region 1073741824 1048576 0 0] 1 1048576 memblock_memory_init_regions)
    (MType [Region 1073741824 4096 0 4] 1 4096 memblock_reserved_init_regions)
    false false false.

Lemma demo_full_wf : wf_memblock demo_full.
Proof. wf_demo. Qed.

(** The machine with every entry of the array of reservations in use. *)
Definition demo_packed : memblock :=
  Memblock false U64_MAX
    (MType [Region 1073741824 1048576 0 0] 4 1048576 memblock_memory_init_regions)
    (MType [Region 1073741824 4096 0 4; Region 1073750016 4096 0 4; Region 1073758208 4096 0 4; Region 1073766400 4096 0 4]
       4 16384 memblock_reserved_init_regions)
    true false false.

Lemma demo_packed_wf : wf_memblock demo_packed.
Proof.
  split; [wf_demo_type| |cbn; ulia]. split; [|done|cbn; lia]. left. split; [done|]. cbn. unfold rgn_end. cbn. ulia.
Qed.


(** The machine with more room for memory regions, and before resizing. *)
Definition demo_wide : memblock :=
  Memblock false U64_MAX
    (MType [Region 1073741824 1048576 0 0] 8 1048576 memblock_memory_init_regions)
    (MType [Region 1073741824 4096 0 4] 4 4096 memblock_reserved_init_regions)
    true false false.

Lemma demo_wide_wf : wf_memblock demo_wide.
Proof. wf_demo. Qed.

Definition demo_early : memblock :=
  Memblock false U64_MAX
    (MType [Region 1073741824 1048576 0 0] 8 1048576 memblock_memory_init_regions)
    (MType [Region 1073741824 4096 0 4] 4 4096 memblock_reserved_init_regions)
    false false false.

Lemma demo_early_wf : wf_memblock demo_early.
Proof. wf_demo. Qed.

Section Props.
Context `{MemblockConfig}.

(** C1. Adding a range to an array that has room succeeds; afterwards every
    address of the range that had no region has the new attribute, every other
    address is as before, the array is sorted, disjoint, minimal and counts its
    bytes right, and the other array is untouched. *)
Theorem memblock_add_range_correct t base size nid flags st :
  wf_memblock st -> is_u64 base -> is_u64 size -> 0 < memblock_cap_size base size ->
  has_room t (new_entries t base size nid flags st) st ->
  exists st', memblock_add_range t base size nid flags st = Ok (0, st')
    /\ wf_memblock st' /\ minimal (regions (get_type t st'))
    /\ (forall t', t' <> t -> get_type t' st' = get_type t' st)
    /\ forall a, lookup_addr t st' a =
         match lookup_addr t st a with
         | Some x => Some x
         | None => if in_range base size a then Some (new_attr nid flags) else None
         end.
Proof.
  intros Hwf Hb Hs Hpos Hroom. eexists. split; [by apply add_range_with_room|].
  split; [by apply wf_set; [|apply added_wf]|].
  unfold lookup_addr. rewrite get_set_type. split; [by apply add_regions_minimal|].
  split; [intros; by apply get_set_other|]. intros a. by apply add_regions_attr.
Qed.

(** When the array has no room and resizing is not allowed yet, adding and
    isolating (and so removing) fail with [-ENOMEM] and change nothing. *)
Theorem memblock_no_room_error t base size nid flags st :
  wf_memblock st -> is_u64 base -> is_u64 size -> 0 < memblock_cap_size base size ->
  memblock_can_resize st = false ->
  (~ has_room t (new_entries t base size nid flags st) st ->
     memblock_add_range t base size nid flags st = Ok (- ENOMEM, st))
  /\ (~ has_room t 2 st -> memblock_remove_range t base size st = Ok (- ENOMEM, st)).
Proof.
  intros Hwf Hb Hs Hpos Hrs.
  assert (Hd : forall b s, memblock_double_array t b s st = Ok (-1, st)).
  { intros b s. unfold memblock_double_array. cbn [double_array_fuel]. by rewrite Hrs. }
  split; intros Hroom; [by apply add_range_no_room|].
  unfold memblock_remove_range, remove_range_with, isolate_range_with.
  rewrite (proj2 (Z.eqb_neq _ 0)) by lia. unfold has_room in Hroom. cbn [make_room Nat.add].
  case_if; [|lia]. by rewrite Hd.
Qed.

(** Removing a range from an array with room for the two cuts succeeds;
    afterwards no address of the range has a region and all others are as
    before. *)
Theorem memblock_remove_range_correct t base size st :
  wf_memblock st -> is_u64 base -> is_u64 size -> has_room t 2 st ->
  exists st', memblock_remove_range t base size st = Ok (0, st')
    /\ wf_memblock st' /\ (forall t', t' <> t -> get_type t' st' = get_type t' st)
    /\ forall a, lookup_addr t st' a =
         if in_range base size a then None else lookup_addr t st a.
Proof.
  intros Hwf Hb Hs Hroom.
  destruct (remove_range_any memblock_double_array t base size st Hwf Hb Hs Hroom)
    as (ty' & Hr & Hw & _ & _ & _ & Hat).
  eexists. split; [exact Hr|]. split; [by apply wf_set|].
  split; [intros; by apply get_set_other|]. unfold lookup_addr at 1. by rewrite get_set_type.
Qed.

(** Setting the node of a range succeeds when there is room for the two
    cuts: the addresses of the range that have a region get the node and keep
    their flags, all others are as before, and the array is minimal again. *)
Theorem memblock_set_node_correct t base size nid st :
  wf_memblock st -> is_u64 base -> is_u64 size -> 0 < memblock_cap_size base size ->
  has_room t 2 st ->
  exists st', memblock_set_node base size t nid st = Ok (0, st')
    /\ wf_memblock st' /\ minimal (regions (get_type t st'))
    /\ (forall t', t' <> t -> get_type t' st' = get_type t' st)
    /\ forall a, lookup_addr t st' a =
         if in_range base size a then node_attr nid <$> lookup_addr t st a
         else lookup_addr t st a.
Proof.
  intros Hwf Hb Hs Hpos Hroom.
  destruct (update_range_room t base size st Hwf Hb Hs Hroom Hpos
    (fun r => memblock_set_region_node r nid) (node_attr nid))
    as (ty' & Hr & Hw & _ & _ & Hmin & _ & Hat).
  - intros r. apply set_node_base.
  - intros r. apply set_node_size.
  - intros r. apply set_node_attr_of.
  - eexists. split; [exact Hr|]. unfold lookup_addr at 1. rewrite get_set_type.
    split_and!; [by apply wf_set|done|intros; by apply get_set_other|done].
Qed.

(** Marking a range of memory hot-pluggable sets the flag on exactly the
    range, clearing it again takes it away from exactly the range: whatever
    the flags were, mark then clear leaves every address with its old node and
    its old flags minus the hot-plug bit. *)
Theorem memblock_mark_clear_hotplug base size st :
  wf_memblock st -> is_u64 base -> is_u64 size -> 0 < memblock_cap_size base size ->
  (cnt (memory st) + 4 <= max (memory st))%nat ->
  exists st1 st2,
    memblock_mark_hotplug base size st = Ok (0, st1)
    /\ memblock_clear_hotplug base size st1 = Ok (0, st2)
    /\ wf_memblock st1 /\ wf_memblock st2
    /\ (forall a, lookup_addr Memory st1 a =
          if in_range base size a
          then (fun x => (fst x, Z.lor (snd x) MEMBLOCK_HOTPLUG)) <$> lookup_addr Memory st a
          else lookup_addr Memory st a)
    /\ (forall a, lookup_addr Memory st2 a =
          if in_range base size a
          then (fun x => (fst x, Z.ldiff (snd x) MEMBLOCK_HOTPLUG)) <$> lookup_addr Memory st a
          else lookup_addr Memory st a).
Proof.
  intros Hwf Hb Hs Hpos Hroom.
  destruct (update_range_room Memory base size st Hwf Hb Hs ltac:(unfold has_room; cbn; lia) Hpos
    (fun r => memblock_set_region_flags r MEMBLOCK_HOTPLUG)
    (fun x => (fst x, Z.lor (snd x) MEMBLOCK_HOTPLUG)))
    as (ty1 & Hr1 & Hw1 & Hm1 & _ & _ & Hc1 & Hat1); [done|done|done|].
  set (st1 := set_type Memory ty1 st) in *.
  assert (Hwf1 : wf_memblock st1) by (by apply wf_set).
  destruct (update_range_room Memory base size st1 Hwf1 Hb Hs
    ltac:(unfold has_room; cbn in *; lia) Hpos
    (fun r => memblock_clear_region_flags r MEMBLOCK_HOTPLUG)
    (fun x => (fst x, Z.ldiff (snd x) MEMBLOCK_HOTPLUG)))
    as (ty2 & Hr2 & Hw2 & _ & _ & _ & _ & Hat2); [done|done|by intros; apply clear_flags_attr|].
  exists st1, (set_type Memory ty2 st1).
  split_and!; [exact Hr1|exact Hr2|done|by apply wf_set|exact Hat1|].
  intros a. unfold lookup_addr. cbn [get_type set_type memory]. rewrite Hat2.
  change (regions (get_type Memory st1)) with (regions ty1). rewrite Hat1.
  cbn [get_type]. destruct (in_range base size a); [|done].
  destruct (attr_at (regions (memory st)) a) as [[n f]|]; [|done]. cbn.
  by rewrite ldiff_lor_same.
Qed.

(** The array depends only on what was added: registering two ranges with
    the same attribute in either order gives the same regions. *)
Theorem memblock_add_range_commutes t b1 s1 b2 s2 nid flags st st1 st12 st2 st21 :
  wf_memblock st -> memblock_can_resize st = false ->
  is_u64 b1 -> is_u64 s1 -> 0 < memblock_cap_size b1 s1 ->
  is_u64 b2 -> is_u64 s2 -> 0 < memblock_cap_size b2 s2 ->
  memblock_add_range t b1 s1 nid flags st = Ok (0, st1) ->
  memblock_add_range t b2 s2 nid flags st1 = Ok (0, st12) ->
  memblock_add_range t b2 s2 nid flags st = Ok (0, st2) ->
  memblock_add_range t b1 s1 nid flags st2 = Ok (0, st21) ->
  Forall2 same_region (regions (get_type t st12)) (regions (get_type t st21)).
Proof.
  intros Hwf Hrs Hb1 Hs1 Hp1 Hb2 Hs2 Hp2 E1 E12 E2 E21.
  apply add_range_ok_inv in E1 as (W1 & R1 & _ & _ & L1); try done.
  apply add_range_ok_inv in E12 as (W12 & _ & C12 & M12 & L12); try done.
  apply add_range_ok_inv in E2 as (W2 & R2 & _ & _ & L2); try done.
  apply add_range_ok_inv in E21 as (W21 & _ & C21 & M21 & L21); try done.
  apply (canonical _ _ 0); try done. intros a.
  change (lookup_addr t st12 a = lookup_addr t st21 a).
  rewrite L12, L1, L21, L2.
  destruct (lookup_addr t st a), (in_range b1 s1 a), (in_range b2 s2 a); done.
Qed.

(** C2. The iterator over free memory is total and exact: walking up gives
    increasing, disjoint ranges, walking down gives the same ranges reversed,
    and an address lies in one of them exactly when an eligible memory region
    contains it and nothing reserves it. *)
Theorem for_each_free_mem_range_exact st nid :
  wf_memblock st -> idx_ok st -> nid <> MAX_NUMNODES ->
  exists l,
    for_each_free_mem_range st nid = Ok l
    /\ for_each_free_mem_range_reverse st nid = Ok (reverse l)
    /\ StronglySorted range_before l
    /\ forall x, (exists r, r ∈ l /\ range_start r <= x < range_stop r) <->
         (exists m, m ∈ regions (memory st) /\ region_skipped nid m = false
            /\ rgn_base m <= x < rgn_end m) /\ lookup_addr Reserved st x = None.
Proof.
  intros Hwf [Hi1 Hi2] Hnid. destruct Hwf as [Hm Hr Hl] eqn:EW. clear EW.
  exists (all_ranges nid (regions (memory st)) (gaps (reserved st))). split_and!.
  - by apply for_each_mem_range_all.
  - by apply for_each_mem_range_rev_all.
  - by apply all_ranges_sorted.
  - intros x. pose proof (in_ranges_free st Hwf nid x 1 ltac:(lia)) as Hf.
    unfold free_block in Hf. split.
    + intros (r & Hin & Hx). destruct (proj1 Hf) as [(m & ? & ? & ? & ?) Hn].
      { exists r. split; [done|lia]. }
      split; [exists m; split_and!; done || lia|]. apply Hn. lia.
    + intros [(m & ? & ? & ?) Hn]. destruct (proj2 Hf) as (r & Hin & ?).
      { split; [exists m; split_and!; done || lia|]. intros y Hy. by replace y with x by lia. }
      exists r. split; [done|lia].
Qed.

(** The binary search over an array always returns, and its users answer
    by the denotation: [memblock_is_memory] and [memblock_is_reserved] say
    whether the address is covered, [memblock_is_region_memory] says whether
    one memory region contains the whole (capped) range. *)
Theorem memblock_search_correct st a size :
  wf_memblock st -> is_u64 a -> is_u64 size ->
  memblock_is_memory a st = Ok (covered (regions (memory st)) a)
  /\ memblock_is_reserved a st = Ok (covered (regions (reserved st)) a)
  /\ exists b, memblock_is_region_memory a size st = Ok b
     /\ (b = true <-> exists m, m ∈ regions (memory st)
          /\ rgn_base m <= a < rgn_end m /\ range_end a size <= rgn_end m).
Proof.
  intros Hwf Ha Hs. unfold memblock_is_memory, memblock_is_reserved, memblock_is_region_memory.
  destruct (memblock_search_spec (memory st) a) as (z & -> & Hz); [apply Hwf|ulia|].
  destruct (memblock_search_spec (reserved st) a) as (z' & -> & Hz'); [apply Hwf|ulia|].
  cbn [obind]. rewrite (search_result_covered _ _ _ Hz), (search_result_covered _ _ _ Hz').
  split; [done|]. split; [done|].
  destruct Hz as [(-> & Hno)|(i & r & -> & Hi & Hr)].
  - exists false. split; [done|]. split; [done|]. intros (m & Hm & Hin & _).
    specialize (Hno m Hm). apply in_region_iff in Hin. congruence.
  - rewrite (proj2 (Z.eqb_neq (Z.of_nat i) (-1))) by lia. rewrite Nat2Z.id.
    rewrite (list_lookup_total_correct _ _ _ Hi).
    assert (Hinr : r ∈ regions (memory st)) by (by eapply list_elem_of_lookup_2).
    apply in_region_iff in Hr as Hr'.
    destruct (wf_region_bounds (memory st) r (wf_memory _ Hwf) Hinr) as (? & ? & ? & ->).
    rewrite range_end_u64 by done.
    eexists. split; [done|]. rewrite andb_true_iff, Z.geb_le, Z.leb_le. split.
    + intros [??]. exists r. split_and!; done || lia.
    + intros (m & Hm & ? & ?). assert (m = r) as ->; [|lia].
      by apply (wf_same_region (memory st) m r a (wf_memory _ Hwf)).
Qed.

(** [memblock_enforce_memory_limit] leaves exactly the lowest [limit]
    bytes of memory: everything below one cut address is kept, nothing above
    it is memory or reserved, and the size reported is the smaller of the
    limit and the size there was. *)
Theorem memblock_enforce_memory_limit_correct st limit :
  wf_memblock st -> has_room Memory 2 st -> has_room Reserved 2 st ->
  0 < limit <= U64_MAX ->
  exists st' m, memblock_enforce_memory_limit limit st = Ok st' /\ wf_memblock st'
    /\ memblock_phys_mem_size st' = Z.min limit (memblock_phys_mem_size st)
    /\ forall t x, x < U64_MAX ->
         lookup_addr t st' x = if x <? m then lookup_addr t st x else None.
Proof.
  intros Hwf Hrm Hrr Hl. unfold memblock_enforce_memory_limit.
  rewrite (proj2 (Z.eqb_neq limit 0)) by lia.
  destruct (limit_cut (memory st) limit (wf_memory _ Hwf) Hl) as (Hm & Hcount).
  set (m := limit_max_addr limit (regions (memory st))) in *.
  destruct (remove_range_any memblock_double_array Memory m U64_MAX st)
    as (ty1 & E1 & Hw1 & _ & _ & _ & Hat1); [done|ulia|ulia|done|].
  unfold memblock_remove_range. rewrite E1. cbn [obind].
  destruct (remove_range_any memblock_double_array Reserved m U64_MAX (set_type Memory ty1 st))
    as (ty2 & E2 & Hw2 & _ & _ & _ & Hat2); [by apply wf_set|ulia|ulia|done|].
  rewrite E2. cbn [obind]. eexists _, m. split; [done|].
  split; [by repeat apply wf_set|].
  assert (Hcut : forall x, x < U64_MAX -> in_range m U64_MAX x = negb (x <? m)).
  { intros x Hx. unfold in_range, range_end, memblock_cap_size.
    destruct (x <? m) eqn:E; zbool; cbn [negb]; [apply andb_false_iff; left; zdec; lia|].
    apply andb_true_iff. split; zdec; lia. }
  split.
  - unfold memblock_phys_mem_size. cbn [set_type memory].
    rewrite (total_size_count ty1 Hw1), (count_in_split _ 0 m) by lia.
    rewrite (count_in_ext _ (covered (regions (memory st)))), Hcount, count_in_none; [lia|..];
      intros x Hx; unfold covered; rewrite Hat1, Hcut by lia.
    + by rewrite (proj2 (Z.ltb_ge x m)) by lia.
    + by rewrite (proj2 (Z.ltb_lt x m)) by lia.
  - intros [|] x Hx; unfold lookup_addr at 1; cbn [get_type set_type memory reserved];
      rewrite ?Hat1, ?Hat2, Hcut by done; by destruct (x <? m).
Qed.

End Props.

Section AllocProps.
Context `{MemblockConfigOk}.

(** The search for free memory is sound and complete: a non-zero answer is
    an aligned, unreserved block inside the window and inside one eligible
    memory region; zero means there is none; and the top-down search gives the
    highest such block. *)
Theorem memblock_find_in_range_node_correct st size k start end_ nid :
  wf_memblock st -> idx_ok st -> nid <> MAX_NUMNODES -> 0 <= k < 64 ->
  is_u64 start -> is_u64 end_ -> 0 < size <= U64_MAX ->
  exists c, memblock_find_in_range_node st size (2 ^ k) start end_ nid = Ok c
    /\ (c <> 0 -> eligible st size k start end_ nid c)
    /\ (c = 0 -> forall c', ~ eligible st size k start end_ nid c')
    /\ (memblock_bottom_up st = false -> forall c', eligible st size k start end_ nid c' -> c' <= c).
Proof.
  intros Hwf Hidx Hnid Hk Hs He Hsz.
  destruct (find_in_range_node_spec st Hwf Hidx size k start end_ nid Hnid Hk Hs He Hsz)
    as (c & E & Hc & Hn).
  exists c. split_and!; try done. intros Hbu.
  destruct (find_in_range_node_top_down st Hwf Hidx size k start end_ nid Hnid Hk Hs He Hsz)
    as (c' & E' & _ & Htop); [by rewrite Hbu|].
  rewrite E in E'. by injection E' as <-.
Qed.



(** A series of allocations; a failed one yields no block. *)
Fixpoint alloc_all (reqs : list (Z * Z)) (st : memblock) : outcome (list (Z * Z) * memblock) :=
  match reqs with
  | [] => Ok ([], st)
  | (size, k) :: reqs =>
      let! (c, st) := memblock_alloc_range_nid size (2 ^ k) 0 0 NUMA_NO_NODE st in
      let! (l, st) := alloc_all reqs st in
      Ok (if c =? 0 then (l, st) else ((c, size) :: l, st))
  end.

Definition disjoint_blocks (b1 b2 : Z * Z) : Prop :=
  fst b1 + snd b1 <= fst b2 \/ fst b2 + snd b2 <= fst b1.

Lemma alloc_all_spec reqs st :
  wf_memblock st -> sized_arrays st -> has_room Reserved (length reqs) st ->
  Forall (fun q => 0 < fst q <= U64_MAX /\ 0 <= snd q < 64) reqs ->
  exists l st', alloc_all reqs st = Ok (l, st') /\ wf_memblock st'
    /\ Forall (fun b => 0 < snd b
          /\ forall x, fst b <= x < fst b + snd b -> lookup_addr Reserved st x = None) l
    /\ StronglySorted disjoint_blocks l.
Proof.
  revert st; induction reqs as [|[size k] reqs IH]; intros st Hwf Hsz Hroom Hall.
  { exists [], st. split_and!; [done|done|constructor..]. }
  apply Forall_cons in Hall as [[Hs Hk] Hall]. cbn [fst snd] in *.
  unfold has_room in *. cbn [length get_type] in *. cbn [alloc_all].
  destruct (alloc_range_nid_spec st size k 0 0 NUMA_NO_NODE) as (c & st1 & -> & Hres);
    [done|by apply sized_idx_ok|lia|apply no_node_ne_max|done|ulia|ulia|done|].
  cbn [obind]. destruct Hres as [(-> & -> & _)|(Hel & Hne & Ha)].
  - destruct (IH st) as (l & st' & -> & ?); try done; [cbn; lia|]. by exists l, st'.
  - destruct Ha as [Hw1 Hmem1 _ Hmax1 Hcnt1 Hlk1]. destruct (IH st1) as (l & st' & -> & Hw' & Hfree & Hdis); try done.
    { unfold sized_arrays in *. rewrite Hmem1. unfold sized in *. by rewrite Hmax1. }
    { cbn. lia. }
    cbn [obind]. rewrite (proj2 (Z.eqb_neq c 0)) by done.
    exists ((c, size) :: l), st'. destruct Hel as ((_ & Hf) & _). split_and!; try done.
    + constructor; [by cbn; split; [lia|]|]. eapply Forall_impl; [exact Hfree|].
      intros [c' s'] [Hp' Hf']. cbn in *. split; [done|]. intros x Hx. specialize (Hf' x Hx).
      rewrite Hlk1 in Hf'. by case_if_in Hf'.
    + constructor; [done|]. eapply Forall_impl; [exact Hfree|].
      intros [c' s'] [Hp' Hf']. unfold disjoint_blocks. cbn in *.
      destruct (Z.le_gt_cases (c + size) c'); [by left|].
      destruct (Z.le_gt_cases (c' + s') c); [by right|exfalso].
      specialize (Hf' (Z.max c c') ltac:(lia)). rewrite Hlk1 in Hf'.
      case_if_in Hf'; [done|zbool; lia].
Qed.

(** However many blocks are requested one after the other, the calls all
    return, the blocks handed out are pairwise disjoint, and none of them
    overlaps anything reserved before. *)
Theorem memblock_allocations_disjoint reqs st :
  wf_memblock st -> sized_arrays st -> has_room Reserved (length reqs) st ->
  Forall (fun q => 0 < fst q <= U64_MAX /\ 0 <= snd q < 64) reqs ->
  exists l st', alloc_all reqs st = Ok (l, st') /\ wf_memblock st'
    /\ StronglySorted disjoint_blocks l
    /\ forall b x, b ∈ l -> fst b <= x < fst b + snd b -> lookup_addr Reserved st x = None.
Proof.
  intros Hwf Hsz Hroom Hall.
  destruct (alloc_all_spec reqs st Hwf Hsz Hroom Hall) as (l & st' & E & Hw & Hf & Hd).
  exists l, st'. split_and!; try done. intros b x Hb. rewrite Forall_forall in Hf.
  by apply Hf.
Qed.

(** C4. Growing an array before the slab allocator is up: the array of
    reservations, full or not, or the array of memory regions while three
    more reservations fit.  It always returns and never runs into the BUG_ON.
    It fails, and then changes nothing, only when resizing is off or neither
    search finds a place.  Otherwise the array moves to a block that was free
    (and, for the array of reservations, clear of the area about to be
    reserved unless that starts at 0), exactly that block becomes reserved,
    the block it leaves is given back, the capacity is doubled and every
    memory region kept. *)
Theorem memblock_double_array_correct t st start size :
  slab_is_available = false -> wf_memblock st -> sized_arrays st -> home_ok t st ->
  is_u64 start -> is_u64 size -> start + size <= U64_MAX ->
  (t = Memory -> has_room Reserved 3 st) ->
  (memblock_double_array t start size st = Ok (-1, st)
   /\ (memblock_can_resize st = false \/ no_place t st start size))
  \/ exists st' addr, memblock_double_array t start size st = Ok (0, st')
       /\ doubled t st start size st' addr.
Proof. intros. by apply double_array_fuel_spec. Qed.

End AllocProps.

Lemma memblock_add_range_correct_witness :
  exists st', memblock_add_range Reserved 1073745920 4096 4 0 demo = Ok (0, st')
    /\ lookup_addr Reserved st' 1073749000 = Some (4, 0).
Proof.
  destruct (memblock_add_range_correct Reserved 1073745920 4096 4 0 demo demo_wf)
    as (st' & E & _ & _ & _ & Hl); [ulia|ulia|by vm_compute|unfold has_room; vm_compute; lia|].
  exists st'. split; [exact E|]. rewrite Hl. reflexivity.
Defined.

Lemma memblock_no_room_error_witness :
  memblock_add_range Reserved 1073750016 4096 4 0 demo_full = Ok (- ENOMEM, demo_full)
  /\ memblock_remove_range Reserved 1073741824 64 demo_full = Ok (- ENOMEM, demo_full).
Proof.
  split.
  - apply (memblock_no_room_error Reserved 1073750016 4096 4 0 demo_full demo_full_wf);
      [ulia|ulia|by vm_compute|reflexivity|unfold has_room; vm_compute; lia].
  - apply (memblock_no_room_error Reserved 1073741824 64 4 0 demo_full demo_full_wf);
      [ulia|ulia|by vm_compute|reflexivity|unfold has_room; vm_compute; lia].
Defined.

Lemma memblock_remove_range_correct_witness :
  exists st', memblock_remove_range Memory 1073745920 4096 demo = Ok (0, st')
    /\ lookup_addr Memory st' 1073745921 = None /\ lookup_addr Memory st' 1073741824 = Some (0, 0).
Proof.
  destruct (memblock_remove_range_correct Memory 1073745920 4096 demo demo_wf)
    as (st' & E & _ & _ & Hl); [ulia|ulia|unfold has_room; vm_compute; lia|].
  exists st'. split; [exact E|]. by rewrite !Hl.
Defined.

Lemma memblock_set_node_correct_witness :
  exists st', memblock_set_node 1073745920 4096 Memory 2 demo = Ok (0, st')
    /\ lookup_addr Memory st' 1073745921 = Some (2, 0)
    /\ lookup_addr Memory st' 1073741824 = Some (0, 0).
Proof.
  destruct (memblock_set_node_correct Memory 1073745920 4096 2 demo demo_wf)
    as (st' & E & _ & _ & _ & Hl); [ulia|ulia|by vm_compute|unfold has_room; vm_compute; lia|].
  exists st'. split; [exact E|]. by rewrite !Hl.
Defined.

Lemma memblock_mark_clear_hotplug_witness :
  exists st1 st2, memblock_mark_hotplug 1073745920 4096 demo_wide = Ok (0, st1)
    /\ memblock_clear_hotplug 1073745920 4096 st1 = Ok (0, st2)
    /\ lookup_addr Memory st1 1073745921 = Some (0, 1)
    /\ lookup_addr Memory st2 1073745921 = Some (0, 0).
Proof.
  destruct (memblock_mark_clear_hotplug 1073745920 4096 demo_wide demo_wide_wf)
    as (st1 & st2 & E1 & E2 & _ & _ & H1 & H2);
    [ulia|ulia|by vm_compute|vm_compute; lia|].
  exists st1, st2. split; [exact E1|]. split; [exact E2|]. by rewrite H1, H2.
Defined.

Lemma memblock_add_range_commutes_witness :
  exists st12 st21,
    Forall2 same_region (regions (get_type Memory st12)) (regions (get_type Memory st21))
    /\ regions (get_type Memory st12)
       = [Region 1073741824 1056768 0 0; Region 1077936128 4096 0 0].
Proof.
  eexists _, _. split; [|].
  - eapply (memblock_add_range_commutes Memory 1074790400 8192 1077936128 4096 0 0 demo_early);
      [exact demo_early_wf|reflexivity|ulia|ulia|by vm_compute|ulia|ulia|by vm_compute
      |vm_compute; reflexivity..].
  - reflexivity.
Defined.

Lemma for_each_free_mem_range_exact_witness :
  exists l, for_each_free_mem_range demo 0 = Ok l
    /\ l = [(1073745920, 1074790400, 0)] /\ StronglySorted range_before l.
Proof.
  destruct (for_each_free_mem_range_exact demo 0 demo_wf demo_idx) as (l & E & _ & Hs & _);
    [cbn; lia|].
  exists l. split; [exact E|]. split; [|exact Hs]. vm_compute in E. by injection E as <-.
Defined.

Lemma memblock_find_in_range_node_correct_witness :
  exists c, memblock_find_in_range_node demo 8192 (2 ^ 12) 0 0 NUMA_NO_NODE = Ok c
    /\ c = 1074782208 /\ eligible demo 8192 12 0 0 NUMA_NO_NODE c.
Proof.
  destruct (memblock_find_in_range_node_correct demo 8192 12 0 0 NUMA_NO_NODE demo_wf demo_idx)
    as (c & E & Hc & _); [apply no_node_ne_max|lia|ulia|ulia|ulia|].
  exists c. assert (c = 1074782208) as -> by (vm_compute in E; by injection E as <-).
  split; [exact E|]. split; [reflexivity|]. by apply Hc.
Defined.


Lemma memblock_allocations_disjoint_witness :
  exists l st', alloc_all [(8192, 12); (100, 6); (4096, 12)] demo = Ok (l, st')
    /\ StronglySorted disjoint_blocks l.
Proof.
  destruct (memblock_allocations_disjoint [(8192, 12); (100, 6); (4096, 12)] demo demo_wf demo_sized)
    as (l & st' & E & _ & Hd & _); [unfold has_room; vm_compute; lia| |].
  - repeat constructor; cbn; ulia.
  - exists l, st'. split; [exact E|exact Hd].
Defined.

Lemma memblock_double_array_correct_witness :
  exists st' addr, memblock_double_array Reserved 1073745920 4096 demo = Ok (0, st')
    /\ doubled Reserved demo 1073745920 4096 st' addr.
Proof.
  destruct (memblock_double_array_correct Reserved demo 1073745920 4096) as [[E _]|Hd];
    [reflexivity|apply demo_wf|apply demo_sized|done|ulia|ulia|ulia|done| |exact Hd].
  vm_compute in E. discriminate.
Defined.

Lemma memblock_search_correct_witness :
  memblock_is_reserved 1073742000 demo = Ok true
  /\ memblock_is_memory 1074790400 demo = Ok false.
Proof.
  split.
  - refine (eq_trans (proj1 (proj2 (memblock_search_correct demo 1073742000 0 demo_wf _ _))) _);
      [ulia|ulia|reflexivity].
  - refine (eq_trans (proj1 (memblock_search_correct demo 1074790400 0 demo_wf _ _)) _);
      [ulia|ulia|reflexivity].
Defined.

Lemma memblock_enforce_memory_limit_correct_witness :
  exists st' m, memblock_enforce_memory_limit 65536 demo = Ok st'
    /\ memblock_phys_mem_size st' = 65536 /\ lookup_addr Memory st' 1073807360 = None
    /\ m = 1073807360.
Proof.
  destruct (memblock_enforce_memory_limit_correct demo 65536 demo_wf) as (st' & m & E & _ & Hsz & Hl);
    [unfold has_room; vm_compute; lia|unfold has_room; vm_compute; lia|ulia|].
  exists st', 1073807360. split; [exact E|]. split; [exact Hsz|].
  vm_compute in E. injection E as <-. by vm_compute.
Defined.

(** ** Deviations *)

(** [memblock_trim_memory] shrinks regions without correcting [total_size]:
    afterwards the size reported by [memblock_phys_mem_size] is not the number
    of bytes the array covers. *)
Example memblock_trim_memory_total_size :
  exists st st', wf_memblock st /\ memblock_trim_memory 4096 st = Ok st'
    /\ memblock_phys_mem_size st' = 8192 /\ sum_sizes (regions (memory st')) = 4096.
Proof.
  exists (Memblock false U64_MAX
    (MType [Region 1073741924 8192 0 0] 4 8192 memblock_memory_init_regions)
    (MType [Region 1073741824 4096 0 4] 4 4096 memblock_reserved_init_regions) true false false).
  eexists. split; [wf_demo|]. split; [vm_compute; reflexivity|]. done.
Qed.

(** The reverse iterator reads [type_b->cnt] before it looks whether [type_b]
    is NULL, on its first step, whatever the arrays hold. *)
Example next_mem_range_rev_null_type_b nid type_a :
  __next_mem_range_rev U64_MAX nid type_a None = Bug.
Proof. unfold __next_mem_range_rev. by destruct (nid =? MAX_NUMNODES). Qed.

(** Growing the array of memory regions while the array of reservations is
    full: the old block is freed before the new one is reserved, so the array
    of reservations, grown in between, is given the very same block. *)
Example memblock_double_array_shares_block :
  exists st st' addr, wf_memblock st /\ sized_arrays st
    /\ memblock_double_array Memory 0 0 st = Ok (0, st')
    /\ home (memory st') = region_array_at addr /\ home (reserved st') = region_array_at addr.
Proof.
  exists (Memblock false U64_MAX
    (MType [Region 1073741824 1048576 0 0] 4 1048576 (region_array_at 1073741824))
    (reserved demo_packed) true false false).
  eexists _, _. split; [split; [wf_demo_type|apply demo_packed_wf|cbn; ulia]|].
  split; [split; cbn; unfold sized; cbn; lia|]. split; [vm_compute; reflexivity|]. done.
Qed.

(** When memory has no second place for the array of reservations either, the
    call stops in its BUG_ON. *)
Example memblock_double_array_bug :
  exists st, wf_memblock st /\ sized_arrays st /\ memblock_double_array Memory 0 0 st = Bug.
Proof.
  exists (Memblock false U64_MAX
    (MType [Region 1073741824 36864 0 0] 4 36864 memblock_memory_init_regions)
    (MType [Region 1073741824 8192 0 4; Region 1073751040 2048 0 4; Region 1073755136 2048 0 4; Region 1073759232 15360 0 4]
       4 27648 memblock_reserved_init_regions)
    true false false).
  split; [split; [wf_demo_type| |cbn; ulia]; split; [left; split; [done|cbn; unfold rgn_end; cbn; ulia]|done|cbn; lia]|].
  split; [split; cbn; unfold sized; cbn; lia|]. vm_compute. reflexivity.
Qed.

(** Reserving an area that starts at address 0 can put the grown array inside
    that very area: the fallback search passes [min(0, limit)], which is
    [MEMBLOCK_ALLOC_ACCESSIBLE], as its upper end. *)
Example memblock_double_array_in_new_area :
  exists st st' addr, wf_memblock st /\ memblock_double_array Reserved 0 65536 st = Ok (0, st')
    /\ home (reserved st') = region_array_at addr /\ 0 <= addr < 65536.
Proof.
  exists (Memblock false U64_MAX
    (MType [Region 0 65536 0 0] 4 65536 memblock_memory_init_regions)
    (MType [Region 1073741824 4096 0 4] 4 4096 memblock_reserved_init_regions) true false false).
  eexists _, _. split; [wf_demo|]. split; [vm_compute; reflexivity|]. split; [done|lia].
Qed.
