(* ===== verification/CText.v ===== *)
(** * Characters and strings (lib/ctype.c, include/linux/ctype.h, lib/string.c)

    A C string is the list of its bytes before the terminating NUL; reading
    at the end gives the NUL. *)

From S2P Require Import Prelude.

(** ** Character classes *)

Definition _U : Z := 1.
Definition _L : Z := 2.
Definition _D : Z := 4.
Definition _C : Z := 8.
Definition _P : Z := 16.
Definition _S : Z := 32.
Definition _X : Z := 64.
Definition _SP : Z := 128.

Definition _ctype : list Z := [
   _C; _C; _C; _C; _C; _C; _C; _C;
   _C; Z.lor _C _S; Z.lor _C _S; Z.lor _C _S; Z.lor _C _S; Z.lor _C _S; _C; _C;
   _C; _C; _C; _C; _C; _C; _C; _C;
   _C; _C; _C; _C; _C; _C; _C; _C;
   Z.lor _S _SP; _P; _P; _P; _P; _P; _P; _P;
   _P; _P; _P; _P; _P; _P; _P; _P;
   _D; _D; _D; _D; _D; _D; _D; _D;
   _D; _D; _P; _P; _P; _P; _P; _P;
   _P; Z.lor _U _X; Z.lor _U _X; Z.lor _U _X; Z.lor _U _X; Z.lor _U _X; Z.lor _U _X; _U;
   _U; _U; _U; _U; _U; _U; _U; _U;
   _U; _U; _U; _U; _U; _U; _U; _U;
   _U; _U; _U; _P; _P; _P; _P; _P;
   _P; Z.lor _L _X; Z.lor _L _X; Z.lor _L _X; Z.lor _L _X; Z.lor _L _X; Z.lor _L _X; _L;
   _L; _L; _L; _L; _L; _L; _L; _L;
   _L; _L; _L; _L; _L; _L; _L; _L;
   _L; _L; _L; _P; _P; _P; _P; _C;
   0; 0; 0; 0; 0; 0; 0; 0;
   0; 0; 0; 0; 0; 0; 0; 0;
   0; 0; 0; 0; 0; 0; 0; 0;
   0; 0; 0; 0; 0; 0; 0; 0;
   Z.lor _S _SP; _P; _P; _P; _P; _P; _P; _P;
   _P; _P; _P; _P; _P; _P; _P; _P;
   _P; _P; _P; _P; _P; _P; _P; _P;
   _P; _P; _P; _P; _P; _P; _P; _P;
   _U; _U; _U; _U; _U; _U; _U; _U;
   _U; _U; _U; _U; _U; _U; _U; _U;
   _U; _U; _U; _U; _U; _U; _U; _P;
   _U; _U; _U; _U; _U; _U; _U; _L;
   _L; _L; _L; _L; _L; _L; _L; _L;
   _L; _L; _L; _L; _L; _L; _L; _L;
   _L; _L; _L; _L; _L; _L; _L; _P;
   _L; _L; _L; _L; _L; _L; _L; _L
].

Definition __ismask (c : Z) : Z := default 0 (_ctype !! Z.to_nat (c mod 256)).

Definition isspace (c : Z) : bool := negb (Z.land (__ismask c) _S =? 0).
Definition isdigit (c : Z) : bool := negb (Z.land (__ismask c) _D =? 0).
Definition isupper (c : Z) : bool := negb (Z.land (__ismask c) _U =? 0).
Definition islower (c : Z) : bool := negb (Z.land (__ismask c) _L =? 0).
Definition isxdigit (c : Z) : bool := negb (Z.land (__ismask c) (Z.lor _D _X) =? 0).

Definition __tolower (c : Z) : Z := if isupper c then (c + 32) mod 256 else c.
Definition __toupper (c : Z) : Z := if islower c then (c - 32) mod 256 else c.

(** The fast variant used by the number parsers. *)
Definition _tolower (c : Z) : Z := Z.lor c 32.

Definition is_byte (c : Z) : Prop := 0 < c < 256.

(** A C string: no byte of it is NUL. *)
Definition cstr (s : list Z) : Prop := Forall is_byte s.

(** [s[i]] *)
Definition c_at (s : list Z) (i : nat) : Z := default 0 (s !! i).

(** ** lib/string.c *)

Fixpoint skip_spaces (s : list Z) : list Z :=
  match s with
  | c :: s' => if isspace c then skip_spaces s' else s
  | [] => []
  end.

(** The suffix that starts at the character found. *)
Fixpoint strchr (s : list Z) (c : Z) : option (list Z) :=
  match s with
  | [] => if c =? 0 then Some [] else None
  | x :: s' => if x =? c then Some s else strchr s' c
  end.

Fixpoint strncmp (cs ct : list Z) (count : nat) : Z :=
  match count with
  | O => 0
  | S count =>
    let c1 := c_at cs 0 in
    let c2 := c_at ct 0 in
    if negb (c1 =? c2) then if c1 <? c2 then -1 else 1
    else if c1 =? 0 then 0
    else strncmp (drop 1 cs) (drop 1 ct) count
  end.

Fixpoint strcmp (cs ct : list Z) : Z :=
  match cs with
  | [] => if c_at ct 0 =? 0 then 0 else -1
  | c1 :: cs' =>
    let c2 := c_at ct 0 in
    if negb (c1 =? c2) then if c1 <? c2 then -1 else 1
    else strcmp cs' (drop 1 ct)
  end.

Fixpoint sysfs_streq (s1 s2 : list Z) : bool :=
  match s1, s2 with
  | c1 :: s1', c2 :: s2' =>
      if c1 =? c2 then sysfs_streq s1' s2'
      else (c1 =? 10) && (c_at s1 1 =? 0) && (c2 =? 0)
  | [], [] => true
  | [], c2 :: _ => (c2 =? 10) && (c_at s2 1 =? 0)
  | c1 :: _, [] => (c1 =? 10) && (c_at s1 1 =? 0)
  end.

Definition strtobool (s : list Z) : Z + bool :=
  let c := c_at s 0 in
  if (c =? 121) || (c =? 89) || (c =? 49) then inr true
  else if (c =? 110) || (c =? 78) || (c =? 48) then inr false
  else inl (- EINVAL).

(** ** Facts about characters *)

(** A property of the numbers below a constant is checked on all of them. *)
Lemma range_cases hi (P : Z -> bool) :
  forallb P (seqZ 0 hi) = true -> forall c, 0 <= c < hi -> P c = true.
Proof.
  rewrite forallb_forall. intros Hall c Hc. apply Hall. apply list_elem_of_In, elem_of_seqZ. lia.
Qed.

Lemma isdigit_iff c : 0 <= c < 256 -> isdigit c = (48 <=? c) && (c <=? 57).
Proof.
  intros Hc. apply eqb_prop.
  apply (range_cases 256 (fun c => eqb (isdigit c) ((48 <=? c) && (c <=? 57)))); [by vm_compute|done].
Qed.

Lemma isspace_iff c : 0 <= c < 256 ->
  isspace c = ((9 <=? c) && (c <=? 13)) || (c =? 32) || (c =? 160).
Proof.
  intros Hc. apply eqb_prop.
  apply (range_cases 256 (fun c => eqb (isspace c)
    (((9 <=? c) && (c <=? 13)) || (c =? 32) || (c =? 160)))); [by vm_compute|done].
Qed.

Lemma sysfs_streq_spec s1 s2 :
  cstr s1 -> cstr s2 ->
  sysfs_streq s1 s2 = true <-> s1 = s2 \/ s1 = s2 ++ [10] \/ s2 = s1 ++ [10].
Proof.
  revert s2; induction s1 as [|c1 s1 IH]; intros [|c2 s2] H1 H2; cbn [sysfs_streq].
  - naive_solver.
  - apply Forall_cons in H2 as [Hc H2]. unfold c_at. cbn. split.
    + intros [->%Z.eqb_eq He]%andb_true_iff. right. right. f_equal.
      destruct s2 as [|c s2]; [done|]. apply Forall_cons in H2 as [? _].
      unfold is_byte in *. cbn in He. zbool. lia.
    + intros [?|[?|E]]; [done|by destruct s2|]. injection E as -> ->. done.
  - apply Forall_cons in H1 as [Hc H1]. unfold c_at. cbn. split.
    + intros [->%Z.eqb_eq He]%andb_true_iff. right. left. f_equal.
      destruct s1 as [|c s1]; [done|]. apply Forall_cons in H1 as [? _].
      unfold is_byte in *. cbn in He. zbool. lia.
    + intros [?|[E|?]]; [done| |by destruct s1]. injection E as -> ->. done.
  - apply Forall_cons in H1 as [Hc1 H1]. apply Forall_cons in H2 as [Hc2 H2].
    unfold is_byte in *. case_if; zbool.
    + subst. rewrite IH by done. naive_solver.
    + rewrite (proj2 (Z.eqb_neq c2 0)) by lia. rewrite andb_false_r. naive_solver.
Qed.
