(* ===== verification/Kstrtox.v ===== *)
(** * Parsing integers (lib/kstrtox.c, and [simple_strtoull] of lib/vsprintf.c)

    The digit loop detects overflow exactly; on top of it the [kstrto*]
    family accepts one grammar and differs only in the range of the result. *)

From S2P Require Import Prelude CText.

Definition KSTRTOX_OVERFLOW : Z := 2147483648.

(** The string after the radix prefix and the base. *)
Definition _parse_integer_fixup_radix (s : list Z) (base : Z) : list Z * Z :=
  let base :=
    if base =? 0 then
      if c_at s 0 =? 48 then
        if (_tolower (c_at s 1) =? 120) && isxdigit (c_at s 2) then 16 else 8
      else 10
    else base in
  if (base =? 16) && (c_at s 0 =? 48) && (_tolower (c_at s 1) =? 120)
  then (drop 2 s, base) else (s, base).

(** [val] of the loop body; None where the loop breaks. *)
Definition digit_val (c base : Z) : option Z :=
  let val :=
    if (48 <=? c) && (c <=? 57) then Some (c - 48)
    else if (97 <=? _tolower c) && (_tolower c <=? 102) then Some (_tolower c - 97 + 10)
    else None in
  match val with
  | Some v => if v >=? base then None else Some v
  | None => None
  end.

(** The loop of [_parse_integer]: [*p], the number of characters and [overflow]. *)
Fixpoint parse_integer_loop (s : list Z) (base res rv : Z) (overflow : bool) : Z * Z * bool :=
  match s with
  | [] => (res, rv, overflow)
  | c :: s =>
    match digit_val c base with
    | None => (res, rv, overflow)
    | Some val =>
        let overflow :=
          if negb (Z.land res (u64 (Z.shiftl U64_MAX 60)) =? 0) then
            if res >? (U64_MAX - val) / base then true else overflow
          else overflow in
        parse_integer_loop s base (u64 (res * base + val)) (u32 (rv + 1)) overflow
    end
  end.

(** Return value and [*p]. *)
Definition _parse_integer (s : list Z) (base : Z) : Z * Z :=
  let '(res, rv, overflow) := parse_integer_loop s base 0 0 false in
  (if overflow then Z.lor rv KSTRTOX_OVERFLOW else rv, res).

(** An error number or the value. *)
Definition _kstrtoull (s : list Z) (base : Z) : Z + Z :=
  let '(s, base) := _parse_integer_fixup_radix s base in
  let '(rv, _res) := _parse_integer s base in
  if negb (Z.land rv KSTRTOX_OVERFLOW =? 0) then inl (- ERANGE)
  else if rv =? 0 then inl (- EINVAL)
  else
    let s := drop (Z.to_nat rv) s in
    let s := if c_at s 0 =? 10 then drop 1 s else s in
    if negb (c_at s 0 =? 0) then inl (- EINVAL) else inr _res.

Definition kstrtoull (s : list Z) (base : Z) : Z + Z :=
  let s := if c_at s 0 =? 43 then drop 1 s else s in
  _kstrtoull s base.

Definition kstrtoll (s : list Z) (base : Z) : Z + Z :=
  if c_at s 0 =? 45 then
    match _kstrtoull (drop 1 s) base with
    | inl e => inl e
    | inr tmp => if s64 (- tmp) >=? 0 then inl (- ERANGE) else inr (s64 (- tmp))
    end
  else
    match kstrtoull s base with
    | inl e => inl e
    | inr tmp => if s64 tmp <? 0 then inl (- ERANGE) else inr tmp
    end.

(** The variants for narrower types test that the conversion loses nothing:
    [cast] is the conversion. *)
Definition narrow (cast : Z -> Z) (r : Z + Z) : Z + Z :=
  match r with
  | inl e => inl e
  | inr tmp => if negb (tmp =? cast tmp) then inl (- ERANGE) else inr tmp
  end.

Definition u16 (x : Z) : Z := x mod 65536.
Definition s16 (x : Z) : Z := (x + 32768) mod 65536 - 32768.
Definition u8 (x : Z) : Z := x mod 256.
Definition s8 (x : Z) : Z := (x + 128) mod 256 - 128.

Definition _kstrtoul (s : list Z) (base : Z) := narrow u64 (kstrtoull s base).
Definition _kstrtol (s : list Z) (base : Z) := narrow s64 (kstrtoll s base).
Definition kstrtouint (s : list Z) (base : Z) := narrow u32 (kstrtoull s base).
Definition kstrtoint (s : list Z) (base : Z) := narrow s32 (kstrtoll s base).
Definition kstrtou16 (s : list Z) (base : Z) := narrow u16 (kstrtoull s base).
Definition kstrtos16 (s : list Z) (base : Z) := narrow s16 (kstrtoll s base).
Definition kstrtou8 (s : list Z) (base : Z) := narrow u8 (kstrtoull s base).
Definition kstrtos8 (s : list Z) (base : Z) := narrow s8 (kstrtoll s base).

(** The value and [*endp]. *)
Definition simple_strtoull (cp : list Z) (base : Z) : Z * list Z :=
  let '(cp, base) := _parse_integer_fixup_radix cp base in
  let '(rv, result) := _parse_integer cp base in
  (result, drop (Z.to_nat (Z.land rv (u32 (Z.lnot KSTRTOX_OVERFLOW)))) cp).

Definition simple_strtoul (cp : list Z) (base : Z) : Z * list Z := simple_strtoull cp base.

Definition simple_strtol (cp : list Z) (base : Z) : Z * list Z :=
  if c_at cp 0 =? 45 then
    let '(v, endp) := simple_strtoul (drop 1 cp) base in (s64 (u64 (- v)), endp)
  else let '(v, endp) := simple_strtoul cp base in (s64 v, endp).

(** ** The reference: a numeral is its longest prefix of digits *)

Fixpoint numeral (base : Z) (s : list Z) : list Z :=
  match s with
  | [] => []
  | c :: s => match digit_val c base with Some v => v :: numeral base s | None => [] end
  end.

Fixpoint after_numeral (base : Z) (s : list Z) : list Z :=
  match s with
  | [] => []
  | c :: s' => match digit_val c base with Some _ => after_numeral base s' | None => s end
  end.

(** The value of a list of digits, the most significant first. *)
Definition value_from (base acc : Z) (ds : list Z) : Z :=
  foldl (fun acc d => acc * base + d) acc ds.

Definition value (base : Z) (ds : list Z) : Z := value_from base 0 ds.

Lemma digit_val_range c base v : 0 <= c -> digit_val c base = Some v -> 0 <= v < base.
Proof.
  unfold digit_val. intros Hc. destruct ((48 <=? c) && (c <=? 57)) eqn:E1; zbool.
  - case_if; [done|]. intros [= <-]. lia.
  - destruct ((97 <=? _tolower c) && (_tolower c <=? 102)) eqn:E2; [|done]. zbool.
    case_if; [done|]. intros [= <-]. lia.
Qed.

Lemma length_numeral base s : drop (length (numeral base s)) s = after_numeral base s.
Proof.
  induction s as [|c s IH]; [done|]. cbn [numeral after_numeral].
  destruct (digit_val c base); [apply IH|done].
Qed.

Lemma length_numeral_le base s : (length (numeral base s) <= length s)%nat.
Proof. induction s as [|c s IH]; cbn; [done|]. destruct (digit_val c base); cbn; lia. Qed.

Lemma numeral_range base s : cstr s -> Forall (fun d => 0 <= d < base) (numeral base s).
Proof.
  induction 1 as [|c s Hc Hs IH]; cbn; [constructor|].
  destruct (digit_val c base) eqn:E; [|constructor]. constructor; [|done].
  eapply digit_val_range; [|done]. unfold is_byte in Hc. lia.
Qed.

Lemma value_from_ge base acc ds :
  1 <= base -> 0 <= acc -> Forall (fun d => 0 <= d < base) ds -> acc <= value_from base acc ds.
Proof.
  intros Hb Ha Hds. revert acc Ha. induction Hds as [|d ds Hd _ IH]; intros acc Ha; cbn; [lia|].
  specialize (IH (acc * base + d)). unfold value_from in *. nia.
Qed.

(** ** The digit loop *)

(** The cheap test on the four top bits. *)
Lemma top_bits_spec res : 0 <= res <= U64_MAX ->
  (Z.land res (u64 (Z.shiftl U64_MAX 60)) =? 0) = (res <? 2 ^ 60).
Proof.
  intros Hr. change (u64 (Z.shiftl U64_MAX 60)) with (Z.shiftl 15 60).
  assert (E : Z.land res (Z.shiftl 15 60) = Z.shiftl (res / 2 ^ 60) 60).
  { assert (Hq : 0 <= res / 2 ^ 60 < 16).
    { split; [apply Z.div_pos|apply Z.div_lt_upper_bound]; ulia. }
    apply Z.bits_inj'. intros n Hn. rewrite Z.land_spec, !Z.shiftl_spec by done.
    destruct (Z.lt_ge_cases n 60).
    - rewrite !(Z.testbit_neg_r _ (n - 60)) by lia. apply andb_false_r.
    - rewrite Z.div_pow2_bits by lia. replace (n - 60 + 60) with n by lia.
      change 15 with (Z.ones 4). destruct (Z.lt_ge_cases (n - 60) 4).
      + rewrite Z.ones_spec_low by lia. apply andb_true_r.
      + rewrite Z.ones_spec_high by lia. rewrite andb_false_r. symmetry.
        replace n with ((n - 60) + 60) by lia. rewrite <- Z.div_pow2_bits by lia.
        apply (Z.bits_above_log2); [lia|].
        destruct (Z.eq_dec (res / 2 ^ 60) 0) as [->|]; [cbn; lia|].
        assert (Z.log2 (res / 2 ^ 60) < 4) by (apply Z.log2_lt_pow2; lia). lia. }
  rewrite E, Z.shiftl_mul_pow2 by lia. apply eq_bool_prop_intro.
  rewrite !Is_true_true, Z.eqb_eq, Z.ltb_lt. split; intros.
  - assert (res / 2 ^ 60 = 0) by lia. apply Z.div_small_iff in H0; lia.
  - rewrite Z.div_small by lia. lia.
Qed.

Lemma overflow_test res val base :
  2 <= base <= 16 -> 0 <= val < base -> 0 <= res <= U64_MAX ->
  (if negb (Z.land res (u64 (Z.shiftl U64_MAX 60)) =? 0)
   then if res >? (U64_MAX - val) / base then true else false else false)
  = (U64_MAX <? res * base + val).
Proof.
  intros Hb Hv Hr. rewrite top_bits_spec by done. symmetry.
  destruct (res <? 2 ^ 60) eqn:E; zbool; cbn [negb].
  - apply Z.ltb_ge. unfold U64_MAX. nia.
  - pose proof (Z.div_mod (U64_MAX - val) base ltac:(lia)).
    pose proof (Z.mod_pos_bound (U64_MAX - val) base ltac:(lia)).
    case_if; zbool; [apply Z.ltb_lt|apply Z.ltb_ge]; nia.
Qed.

Lemma parse_loop_overflow s base res rv : exists res' rv', parse_integer_loop s base res rv true = (res', rv', true).
Proof.
  revert res rv; induction s as [|c s IH]; intros res rv; cbn [parse_integer_loop]; [eauto|].
  destruct (digit_val c base); [|eauto].
  destruct (negb _); [destruct (_ >? _)|]; apply IH.
Qed.

(** The characters consumed do not depend on overflow. *)
Lemma parse_loop_count s base res rv ov :
  0 <= rv -> rv + Z.of_nat (length s) <= U32_MAX ->
  (parse_integer_loop s base res rv ov).1.2 = rv + Z.of_nat (length (numeral base s)).
Proof.
  revert res rv ov; induction s as [|c s IH]; intros res rv ov Hrv Hlen;
    cbn [parse_integer_loop numeral]; [cbn; lia|].
  cbn [length] in Hlen. destruct (digit_val c base); [|cbn; lia].
  rewrite u32_id by lia. rewrite IH by lia. cbn [length]. lia.
Qed.

(** The loop computes the value of the numeral, or notices that it does not
    fit in 64 bits. *)
Lemma parse_loop_spec s base acc rv :
  2 <= base <= 16 -> cstr s -> 0 <= acc <= U64_MAX ->
  let v := value_from base acc (numeral base s) in
  let '(res, _, ov) := parse_integer_loop s base acc rv false in
  ov = (U64_MAX <? v) /\ (v <= U64_MAX -> res = v).
Proof.
  intros Hb Hs. revert acc rv. induction Hs as [|c s Hc Hs IH]; intros acc rv Hacc;
    cbn [parse_integer_loop numeral]; [cbn; split; [symmetry; apply Z.ltb_ge; lia|done]|].
  destruct (digit_val c base) as [d|] eqn:Ed;
    [|cbn; split; [symmetry; apply Z.ltb_ge; lia|done]].
  assert (Hd : 0 <= d < base) by (eapply digit_val_range; [|done]; unfold is_byte in Hc; lia).
  rewrite overflow_test by done. cbn zeta.
  change (value_from base acc (d :: numeral base s))
    with (value_from base (acc * base + d) (numeral base s)).
  assert (acc * base + d <= value_from base (acc * base + d) (numeral base s))
    by (apply value_from_ge; [lia|nia|by apply numeral_range]).
  destruct (U64_MAX <? acc * base + d) eqn:Eo; zbool.
  - destruct (parse_loop_overflow s base (u64 (acc * base + d)) (u32 (rv + 1)))
      as (res' & rv' & ->). split; [symmetry; apply Z.ltb_lt; lia|lia].
  - rewrite u64_id by nia. apply IH. nia.
Qed.

Definition short (s : list Z) : Prop := Z.of_nat (length s) < KSTRTOX_OVERFLOW.

Lemma land_overflow_bit rv : 0 <= rv < KSTRTOX_OVERFLOW ->
  Z.land rv KSTRTOX_OVERFLOW = 0 /\ Z.land (Z.lor rv KSTRTOX_OVERFLOW) KSTRTOX_OVERFLOW <> 0
  /\ Z.land rv (u32 (Z.lnot KSTRTOX_OVERFLOW)) = rv
  /\ Z.land (Z.lor rv KSTRTOX_OVERFLOW) (u32 (Z.lnot KSTRTOX_OVERFLOW)) = rv.
Proof.
  intros Hrv. change (u32 (Z.lnot KSTRTOX_OVERFLOW)) with (Z.ones 31).
  assert (Hz : Z.land rv KSTRTOX_OVERFLOW = 0).
  { rewrite <- (Z.mod_small rv KSTRTOX_OVERFLOW) by done.
    change KSTRTOX_OVERFLOW with (2 ^ 31). rewrite <- Z.land_ones, <- Z.land_assoc by lia.
    change (Z.land (Z.ones 31) (2 ^ 31)) with 0. apply Z.land_0_r. }
  assert (Hm : Z.land rv (Z.ones 31) = rv) by (rewrite Z.land_ones by lia; by apply Z.mod_small).
  rewrite !Z.land_lor_distr_l, Hz, Hm. split_and!; try done.
  change (Z.land KSTRTOX_OVERFLOW (Z.ones 31)) with 0. apply Z.lor_0_r.
Qed.

(** What a caller of [_parse_integer] reads off its return value. *)
Lemma parse_integer_spec s base :
  2 <= base <= 16 -> cstr s -> short s ->
  let ds := numeral base s in
  exists rv res, _parse_integer s base = (rv, res)
    /\ (negb (Z.land rv KSTRTOX_OVERFLOW =? 0) = (U64_MAX <? value base ds))
    /\ Z.land rv (u32 (Z.lnot KSTRTOX_OVERFLOW)) = Z.of_nat (length ds)
    /\ (value base ds <= U64_MAX -> res = value base ds /\ rv = Z.of_nat (length ds)).
Proof.
  intros Hb Hs Hsh ds. unfold short in Hsh. pose proof (length_numeral_le base s) as Hle.
  pose proof (parse_loop_spec s base 0 0 Hb Hs ltac:(ulia)) as Hspec.
  pose proof (parse_loop_count s base 0 0 false ltac:(lia)
    ltac:(unfold KSTRTOX_OVERFLOW in Hsh; ulia)) as Hcount.
  unfold _parse_integer. fold (value base ds) in Hspec.
  destruct (parse_integer_loop s base 0 0 false) as [[res rv] ov]. cbn in Hcount. subst rv.
  destruct Hspec as [-> Hv]. fold ds. fold ds in Hle.
  destruct (land_overflow_bit (Z.of_nat (length ds))) as (H1 & H2 & H3 & H4); [lia|].
  eexists _, _. split; [done|]. rewrite Z.add_0_l.
  change (value_from base 0 ds) with (value base ds).
  destruct (U64_MAX <? value base ds) eqn:E; zbool.
  - split_and!; [|done|lia]. by rewrite (proj2 (Z.eqb_neq _ _)).
  - rewrite H1. split_and!; try done. split; [apply Hv; exact E|done].
Qed.

(** ** The grammar of [kstrtoull] *)

(** The base after the prefix was looked at. *)
Definition ok_base (base : Z) : Prop := base = 0 \/ 2 <= base <= 16.

Lemma fixup_radix_ok s base :
  ok_base base -> cstr s -> short s ->
  let '(s', b) := _parse_integer_fixup_radix s base in
  2 <= b <= 16 /\ cstr s' /\ short s' /\ (base <> 0 -> b = base).
Proof.
  intros Hb Hs Hsh. unfold _parse_integer_fixup_radix.
  set (b := if base =? 0 then _ else base).
  assert (Hb' : 2 <= b <= 16 /\ (base <> 0 -> b = base)).
  { subst b. unfold ok_base in Hb. repeat case_if; lia. }
  case_if; split_and!; try apply Hb'; try done.
  - by apply Forall_drop.
  - unfold short in *. rewrite length_drop. lia.
Qed.

(** The value of the text after the sign, as a reference grammar gives it:
    a numeral that fits, then at most one newline. *)
Definition read_unsigned (s : list Z) (base : Z) : Z + Z :=
  let '(s, base) := _parse_integer_fixup_radix s base in
  let ds := numeral base s in
  let rest := after_numeral base s in
  if U64_MAX <? value base ds then inl (- ERANGE)
  else if bool_decide (ds = []) then inl (- EINVAL)
  else if bool_decide (rest = [] \/ rest = [10]) then inr (value base ds)
  else inl (- EINVAL).

Lemma end_of_text s :
  cstr s ->
  (c_at (if c_at s 0 =? 10 then drop 1 s else s) 0 =? 0) = bool_decide (s = [] \/ s = [10]).
Proof.
  intros Hs. apply eq_bool_prop_intro. rewrite bool_decide_spec, Is_true_true, Z.eqb_eq.
  destruct s as [|c [|c' s]]; unfold c_at.
  - split; [by left|done].
  - apply Forall_cons in Hs as [Hc _]. unfold is_byte in Hc. cbn.
    case_if; cbn; zbool; naive_solver lia.
  - apply Forall_cons in Hs as [Hc Hs]. apply Forall_cons in Hs as [Hc' _].
    unfold is_byte in *. cbn. case_if; cbn; naive_solver lia.
Qed.

Lemma kstrtoull_read s base :
  ok_base base -> cstr s -> short s -> _kstrtoull s base = read_unsigned s base.
Proof.
  intros Hb Hs Hsh. unfold _kstrtoull, read_unsigned.
  pose proof (fixup_radix_ok s base Hb Hs Hsh) as Hf.
  destruct (_parse_integer_fixup_radix s base) as [s' b]. destruct Hf as (Hb' & Hs' & Hsh' & _).
  destruct (parse_integer_spec s' b Hb' Hs' Hsh') as (rv & res & -> & -> & _ & Hv).
  case_if; zbool; [done|]. destruct (Hv ltac:(lia)) as [-> ->].
  rewrite Nat2Z.id, length_numeral.
  assert (Hrest : cstr (after_numeral b s')) by (rewrite <- length_numeral; by apply Forall_drop).
  destruct (numeral b s') as [|d ds] eqn:Ed; [done|].
  rewrite (bool_decide_eq_false_2 (_ :: _ = [])) by done. cbn [length].
  rewrite (proj2 (Z.eqb_neq (Z.of_nat _) 0)) by lia.
  rewrite <- end_of_text by done. by destruct (c_at _ 0 =? 0).
Qed.

(** ** The documented grammar

    Written without the routines above: digits are positions in a table, the
    prefixes are texts.  A text is a list of character codes. *)

(** "0123456789abcdef" and "0123456789ABCDEF". *)
Definition lower_digits : list Z := seqZ 48 10 ++ seqZ 97 6.
Definition upper_digits : list Z := seqZ 48 10 ++ seqZ 65 6.

(** The character [c] is the digit [d] of base [b]. *)
Definition is_digit (b c d : Z) : Prop :=
  0 <= d < b /\ (lower_digits !! Z.to_nat d = Some c \/ upper_digits !! Z.to_nat d = Some c).

(** "0x" or "0X". *)
Definition hex_prefix (p : list Z) : Prop := p = [48; 120] \/ p = [48; 88].

Definition starts_hex (s : list Z) : Prop :=
  exists p h d t, hex_prefix p /\ is_digit 16 h d /\ s = p ++ h :: t.

(** [radix base s b t]: asked for [base], the text [s] is a number of base [b]
    whose digits begin at [t]. *)
Inductive radix : Z -> list Z -> Z -> list Z -> Prop :=
| radix_detect_16 p h d t :
    hex_prefix p -> is_digit 16 h d -> radix 0 (p ++ h :: t) 16 (h :: t)
| radix_detect_8 t : ~ starts_hex (48 :: t) -> radix 0 (48 :: t) 8 (48 :: t)
| radix_detect_10 s : head s <> Some 48 -> radix 0 s 10 s
| radix_strip p t : hex_prefix p -> radix 16 (p ++ t) 16 t
| radix_given b s :
    b <> 0 -> (b = 16 -> forall p t, hex_prefix p -> s <> p ++ t) -> radix b s b s.

(** [reads base s v rest]: [s] is a prefix its base allows, a non-empty run of
    digits of value [v] that is as long as possible, and [rest]. *)
Definition reads (base : Z) (s : list Z) (v : Z) (rest : list Z) : Prop :=
  exists b cs ds, radix base s b (cs ++ rest) /\ Forall2 (is_digit b) cs ds /\ ds <> []
    /\ (forall c d, head rest = Some c -> ~ is_digit b c d) /\ v = value b ds.

(** A number that fits in 64 bits, then nothing or a newline. *)
Definition accepts (base : Z) (s : list Z) (v : Z) : Prop :=
  v <= U64_MAX /\ exists rest, reads base s v rest /\ (rest = [] \/ rest = [10]).

(** A number that does not fit, whatever follows it. *)
Definition overflows (base : Z) (s : list Z) : Prop :=
  exists v rest, reads base s v rest /\ U64_MAX < v.

Lemma digit_val_16 c d : is_byte c -> 0 <= d < 16 ->
  digit_val c 16 = Some d <-> lower_digits !! Z.to_nat d = Some c \/ upper_digits !! Z.to_nat d = Some c.
Proof.
  intros Hc Hd.
  pose (P c := forallb (fun d => bool_decide (digit_val c 16 = Some d <->
    lower_digits !! Z.to_nat d = Some c \/ upper_digits !! Z.to_nat d = Some c)) (seqZ 0 16)).
  assert (HP : P c = true) by (apply (range_cases 256); [by vm_compute|unfold is_byte in Hc; lia]).
  pose proof (range_cases 16 _ HP d Hd) as E. by apply bool_decide_eq_true_1 in E.
Qed.

Lemma is_digit_val b c d : 2 <= b <= 16 -> is_byte c -> is_digit b c d <-> digit_val c b = Some d.
Proof.
  intros Hb Hc. assert (Hbase : digit_val c b = Some d <-> digit_val c 16 = Some d /\ d < b).
  { unfold digit_val. destruct (if (48 <=? c) && (c <=? 57) then _ else _) as [v|] eqn:E; [|naive_solver].
    assert (v < 16) by (repeat case_if_in E; simplify_eq; lia).
    repeat case_if; naive_solver lia. }
  split.
  - intros [Hd Ht]. apply Hbase. split; [|lia]. apply digit_val_16; [done|lia|done].
  - intros E. assert (0 <= d < b) by (eapply digit_val_range; [|done]; unfold is_byte in Hc; lia).
    split; [done|]. apply digit_val_16; [done|lia|]. by apply Hbase.
Qed.

(** The longest run of digits is the numeral. *)
Lemma numeral_run b s : 2 <= b <= 16 -> cstr s ->
  exists cs, s = cs ++ after_numeral b s /\ Forall2 (is_digit b) cs (numeral b s)
    /\ forall c d, head (after_numeral b s) = Some c -> ~ is_digit b c d.
Proof.
  intros Hb. induction 1 as [|c s Hc Hs (cs & Es & Hds & Hr)]; [by exists []|].
  cbn [numeral after_numeral]. destruct (digit_val c b) as [d|] eqn:E.
  - exists (c :: cs). split_and!; [cbn; by f_equal|constructor; [by apply is_digit_val|done]|done].
  - exists []. split_and!; [done|constructor|]. intros ? d [= <-] Hd.
    apply is_digit_val in Hd; [congruence|done..].
Qed.

Lemma run_numeral b cs ds rest :
  2 <= b <= 16 -> cstr (cs ++ rest) -> Forall2 (is_digit b) cs ds ->
  (forall c d, head rest = Some c -> ~ is_digit b c d) ->
  numeral b (cs ++ rest) = ds /\ after_numeral b (cs ++ rest) = rest.
Proof.
  intros Hb Hs Hds Hr. induction Hds as [|c d cs ds Hd Hds IH]; cbn [app] in *.
  - destruct rest as [|c rest]; [done|]. apply Forall_cons in Hs as [Hc _]. cbn.
    destruct (digit_val c b) as [d|] eqn:E; [|done]. apply is_digit_val in E; [|done..].
    by destruct (Hr c d).
  - apply Forall_cons in Hs as [Hc Hs]. apply is_digit_val in Hd; [|done..]. cbn. rewrite Hd.
    by destruct (IH Hs) as [-> ->].
Qed.

(** Prefixes as [_parse_integer_fixup_radix] tests for them. *)
Lemma hex_prefix_test s : cstr s ->
  (c_at s 0 =? 48) && (_tolower (c_at s 1) =? 120) = true <-> exists p t, hex_prefix p /\ s = p ++ t.
Proof.
  intros Hs. assert (Hx : forall c, is_byte c -> (_tolower c =? 120) = bool_decide (c = 120 \/ c = 88)).
  { intros c Hc. pose (P c := bool_decide ((_tolower c =? 120) = bool_decide (c = 120 \/ c = 88))).
    apply (bool_decide_eq_true_1 _ : P c = true -> _), (range_cases 256 P); [by vm_compute|].
    unfold is_byte in Hc. lia. }
  unfold hex_prefix, c_at. split.
  - destruct s as [|a [|x t]]; cbn; [done|by destruct (a =? 48)|].
    apply Forall_cons in Hs as [_ [Hc _]%Forall_cons]. rewrite Hx by done. intros [E0 E]%andb_true_iff.
    apply Z.eqb_eq in E0 as ->. apply bool_decide_eq_true in E. destruct E as [-> | ->]; eauto 10.
  - intros (p & t & [-> | ->] & ->); by vm_compute.
Qed.

Lemma isxdigit_digit c : 0 <= c < 256 -> isxdigit c = true <-> exists d, is_digit 16 c d.
Proof.
  intros Hc. assert (E : isxdigit c = bool_decide (is_Some (digit_val c 16)) && negb (c =? 0)).
  { pose (P c := bool_decide (isxdigit c = bool_decide (is_Some (digit_val c 16)) && negb (c =? 0))).
    by apply (bool_decide_eq_true_1 _ : P c = true -> _), (range_cases 256 P); [vm_compute|]. }
  rewrite E. split.
  - intros [H H0]%andb_true_iff. apply bool_decide_eq_true in H as [d H]. exists d.
    apply negb_true_iff, Z.eqb_neq in H0.
    apply is_digit_val; [lia|unfold is_byte; lia|done].
  - intros [d Hd]. assert (c <> 0).
    { intros ->. destruct Hd as [_ [Ht|Ht]]; apply list_elem_of_lookup_2 in Ht; revert Ht;
        by apply (bool_decide_eq_false_1 (_ ∈ _)). }
    apply is_digit_val in Hd; [|lia|unfold is_byte; lia]. rewrite Hd, bool_decide_eq_true_2 by done.
    by rewrite (proj2 (Z.eqb_neq c 0)).
Qed.

Lemma starts_hex_test s : cstr s ->
  (c_at s 0 =? 48) && (_tolower (c_at s 1) =? 120) && isxdigit (c_at s 2) = true <-> starts_hex s.
Proof.
  intros Hs. rewrite andb_true_iff, hex_prefix_test by done.
  assert (H2 : 0 <= c_at s 2 < 256).
  { unfold c_at. destruct (s !! 2%nat) as [c|] eqn:E; cbn; [|lia].
    eapply Forall_lookup_1 in E; [|exact Hs]. unfold is_byte in E. lia. }
  rewrite isxdigit_digit by done. unfold starts_hex. split.
  - intros [(p & t & Hp & ->) [d Hd]]. destruct t as [|h t].
    + exfalso. assert (E : isxdigit (c_at (p ++ []) 2) = true) by (apply isxdigit_digit; eauto).
      by destruct Hp as [-> | ->].
    + exists p, h, d, t. split_and!; [done| |done]. by destruct Hp as [-> | ->].
  - intros (p & h & d & t & Hp & Hd & ->). split; [by exists p, (h :: t)|]. exists d.
    by destruct Hp as [-> | ->].
Qed.

(** [_parse_integer_fixup_radix] finds the radix of the grammar. *)
Lemma fixup_radix s base : cstr s ->
  let '(t, b) := _parse_integer_fixup_radix s base in radix base s b t.
Proof.
  intros Hs. unfold _parse_integer_fixup_radix.
  pose proof (hex_prefix_test s Hs) as Hpre. pose proof (starts_hex_test s Hs) as Hhex.
  destruct (base =? 0) eqn:E0; zbool; [subst base|].
  - destruct (c_at s 0 =? 48) eqn:E48; cbn [andb] in *.
    + destruct s as [|c t]; [done|]. apply Z.eqb_eq in E48. cbn in E48. subst c.
      destruct ((_tolower (c_at (48 :: t) 1) =? 120) && isxdigit (c_at (48 :: t) 2)) eqn:E.
      * destruct (proj1 Hhex eq_refl) as (p & h & d & u & Hp & Hd & Es).
        apply andb_true_iff in E as [-> _]. cbn [Z.eqb Pos.eqb andb]. rewrite Es.
        replace (drop 2 (p ++ h :: u)) with (h :: u) by (by destruct Hp as [-> | ->]).
        by apply (radix_detect_16 p h d).
      * cbn. apply radix_detect_8. by intros H%Hhex.
    + cbn. apply radix_detect_10. intros H. destruct s as [|c t]; [done|].
      injection H as ->. done.
  - destruct (base =? 16) eqn:E16; zbool; [subst base; cbn [andb]|].
    + destruct ((c_at s 0 =? 48) && _) eqn:E.
      * destruct (proj1 Hpre eq_refl) as (p & t & Hp & ->).
        replace (drop 2 (p ++ t)) with t by (by destruct Hp as [-> | ->]). by apply radix_strip.
      * apply radix_given; [done|]. intros _ p t Hp ->. assert (false = true); [|done].
        apply Hpre. eauto.
    + cbn. apply radix_given; [done|lia].
Qed.

Lemma hex_prefix_inj p p' (t t' : list Z) :
  hex_prefix p -> hex_prefix p' -> p ++ t = p' ++ t' -> t = t'.
Proof. intros [-> | ->] [-> | ->] [=]; done. Qed.

Lemma radix_unique base s b t b' t' : radix base s b t -> radix base s b' t' -> b = b' /\ t = t'.
Proof.
  assert (H8 : forall p h d t u, hex_prefix p -> is_digit 16 h d -> 48 :: u = p ++ h :: t ->
    starts_hex (48 :: u)) by (intros * ??->; unfold starts_hex; eauto 10).
  assert (H10 : forall p t, hex_prefix p -> head (p ++ t) = Some 48) by (by intros ?? [-> | ->]).
  intros H H'. destruct H; inversion H'; subst; try done; try (exfalso; naive_solver);
    (split; [done|]; symmetry; eapply hex_prefix_inj; [| |eassumption]; done).
Qed.

(** What is read is what the numeral after the prefix says. *)
Lemma reads_iff s base v rest : ok_base base -> cstr s -> short s ->
  reads base s v rest <->
  let '(t, b) := _parse_integer_fixup_radix s base in
  numeral b t <> [] /\ v = value b (numeral b t) /\ rest = after_numeral b t.
Proof.
  intros Hb Hs Hsh. pose proof (fixup_radix_ok s base Hb Hs Hsh) as Hok.
  pose proof (fixup_radix s base Hs) as Hr.
  destruct (_parse_integer_fixup_radix s base) as [t b]. destruct Hok as (Hb' & Ht & _). split.
  - intros (b' & cs & ds & Hr' & Hds & Hne & Hend & ->).
    destruct (radix_unique _ _ _ _ _ _ Hr Hr') as [<- ->].
    destruct (run_numeral b cs ds rest) as [-> ->]; done.
  - intros (Hne & -> & ->). destruct (numeral_run b t) as (cs & Et & Hds & Hend); [done..|].
    exists b, cs, (numeral b t). rewrite <- Et. done.
Qed.

Lemma read_unsigned_accepts s base v : ok_base base -> cstr s -> short s ->
  read_unsigned s base = inr v <-> accepts base s v.
Proof.
  intros Hb Hs Hsh. unfold accepts. setoid_rewrite (reads_iff s base); [|done..].
  unfold read_unsigned. destruct (_parse_integer_fixup_radix s base) as [t b].
  repeat case_if; rewrite ?bool_decide_eq_true, ?bool_decide_eq_false in *; naive_solver lia.
Qed.

Lemma read_unsigned_overflows s base : ok_base base -> cstr s -> short s ->
  read_unsigned s base = inl (- ERANGE) <-> overflows base s.
Proof.
  intros Hb Hs Hsh. unfold overflows. setoid_rewrite (reads_iff s base); [|done..].
  unfold read_unsigned. destruct (_parse_integer_fixup_radix s base) as [t b].
  case_if; zbool.
  - split; [|done]. intros _. eexists _, _. split; [|eassumption]. split_and!; [|done..].
    intros Hnil. rewrite Hnil in *. done.
  - split; [|intros (v & rest & (_ & -> & _) & Hv); lia]. repeat case_if; done.
Qed.

Lemma read_unsigned_cases s base e : read_unsigned s base = inl e -> e = - ERANGE \/ e = - EINVAL.
Proof.
  unfold read_unsigned. destruct (_parse_integer_fixup_radix s base). repeat case_if; naive_solver.
Qed.
