(* ===== verification/Vsprintf.v ===== *)
(** * Printing integers (lib/vsprintf.c)

    The decimal conversion routines write the digits of a number, the least
    significant first, using multiplications in place of divisions; [number]
    lays out one conversion of printf.  Buffers are the lists of characters
    written to them. *)

From S2P Require Import Prelude CText Kstrtox.

(** ** Decimal conversion *)

(** [(x * 0x1999999a) >> 32] in 64 bits, stored in an unsigned int *)
Definition div10_64 (x : Z) : Z := u32 (Z.shiftr (u64 (x * 429496730)) 32).
(** [(x * 0x199a) >> 16] *)
Definition div10_16 (x : Z) : Z := Z.shiftr (u32 (x * 6554)) 16.
(** [(x * 0xcd) >> 11] *)
Definition div10_11 (x : Z) : Z := Z.shiftr (u32 (x * 205)) 11.
(** [(x * 0xccd) >> 15] *)
Definition div10_15 (x : Z) : Z := Z.shiftr (u32 (x * 3277)) 15.

(** [( q - 10 * r ) + '0'] stored in a char *)
Definition digit_char (q r : Z) : Z := u8 (u32 (q - 10 * r) + 48).

Definition put_dec_full9 (q : Z) : list Z :=
  let r := div10_64 q in let d1 := digit_char q r in
  let q := div10_64 r in let d2 := digit_char r q in
  let r := div10_64 q in let d3 := digit_char q r in
  let q := div10_64 r in let d4 := digit_char r q in
  let r := div10_64 q in let d5 := digit_char q r in
  let q := div10_16 r in let d6 := digit_char r q in
  let r := div10_11 q in let d7 := digit_char q r in
  let q := div10_11 r in let d8 := digit_char r q in
  let d9 := u8 (q + 48) in
  [d1; d2; d3; d4; d5; d6; d7; d8; d9].

(** [while (r >= 10000)]: the characters written and [r]. *)
Fixpoint put_dec_trunc8_loop (fuel : nat) (r : Z) : list Z * Z :=
  match fuel with
  | O => ([], r)
  | S fuel =>
    if r >=? 10000 then
      let q := u32 (r + 48) in
      let r := div10_64 r in
      let '(buf, r') := put_dec_trunc8_loop fuel r in
      (u8 (u32 (q - 10 * r)) :: buf, r')
    else ([], r)
  end.

(** A 32-bit [r] leaves the loop within ten steps. *)
Definition put_dec_trunc8 (r : Z) : list Z :=
  let '(buf, r) := put_dec_trunc8_loop 10 r in
  let q := div10_16 r in
  let buf := buf ++ [digit_char r q] in
  if q =? 0 then buf
  else
    let r := div10_11 q in
    let buf := buf ++ [digit_char q r] in
    if r =? 0 then buf
    else
      let q := div10_11 r in
      let buf := buf ++ [digit_char r q] in
      if q =? 0 then buf else buf ++ [u8 (q + 48)].

(** The first algorithm (64-bit long): [while (n >= 1000000000)]. *)
Fixpoint put_dec_loop (fuel : nat) (n : Z) : list Z * Z :=
  match fuel with
  | O => ([], n)
  | S fuel =>
    if n >=? 1000000000 then
      let '(buf, n') := put_dec_loop fuel (n / 1000000000) in
      (put_dec_full9 (n mod 1000000000) ++ buf, n')
    else ([], n)
  end.

(** Two steps bring a 64-bit number below 10^9; the third is the exit test. *)
Definition put_dec (n : Z) : list Z :=
  if n >=? 100000000 then
    let '(buf, n) := put_dec_loop 3 n in
    if n >=? 100000000 then buf ++ put_dec_full9 (u32 n) else buf ++ put_dec_trunc8 (u32 n)
  else put_dec_trunc8 (u32 n).

(** The second algorithm (32-bit long). *)
Definition put_dec_full4 (q : Z) : list Z :=
  let r := div10_15 q in let d0 := digit_char q r in
  let q := div10_11 r in let d1 := digit_char r q in
  let r := div10_11 q in let d2 := digit_char q r in
  [d0; d1; d2; u8 (r + 48)].

Definition put_dec_helper4 (x : Z) : list Z * Z :=
  let q := u32 (Z.shiftr (u64 (x * 879609303)) 43) in
  (put_dec_full4 (u32 (x - u32 (q * 10000))), q).

(** [while (buf[-1] == '0') --buf;] *)
Fixpoint strip_zeros (buf : list Z) : list Z :=
  match buf with
  | [] => []
  | c :: rest =>
      match strip_zeros rest with
      | [] => if c =? 48 then [] else [c]
      | r => c :: r
      end
  end.

Definition put_dec_32 (n : Z) : list Z :=
  if n <? 100000000 then put_dec_trunc8 (u32 n)
  else
    let d1 := Z.shiftr (u32 n) 16 in
    let h := u32 (Z.shiftr n 32) in
    let d2 := Z.land h 65535 in
    let d3 := Z.shiftr h 16 in
    let q := u32 (656 * d3 + 7296 * d2 + 5536 * d1 + Z.land (u32 n) 65535) in
    let '(b0, q) := put_dec_helper4 q in
    let q := u32 (q + (7671 * d3 + 9496 * d2 + 6 * d1)) in
    let '(b1, q) := put_dec_helper4 q in
    let q := u32 (q + (4749 * d3 + 42 * d2)) in
    let '(b2, q) := put_dec_helper4 q in
    let q := u32 (q + 281 * d3) in
    if negb (q =? 0) then b0 ++ b1 ++ b2 ++ put_dec_trunc8 q
    else strip_zeros (b0 ++ b1 ++ b2).

(** The text written to [buf] (the first argument of the C function is its
    size), or nothing when it does not fit; the length is the return value. *)
Definition num_to_str (size num : Z) : list Z :=
  let tmp := if num <=? 9 then [u8 (48 + num)] else put_dec num in
  if Z.of_nat (length tmp) >? size then [] else reverse tmp.

(** ** One conversion *)

Definition ZEROPAD : Z := 1.
Definition SIGN : Z := 2.
Definition PLUS : Z := 4.
Definition SPACE : Z := 8.
Definition LEFT : Z := 16.
Definition SMALL : Z := 32.
Definition SPECIAL : Z := 64.

Record printf_spec := PSpec {
  flags : Z;
  base : Z;
  field_width : Z;
  precision : Z
}.

Definition has (f bit : Z) : bool := negb (Z.land f bit =? 0).

Definition digit_table : list Z :=
  [48; 49; 50; 51; 52; 53; 54; 55; 56; 57; 65; 66; 67; 68; 69; 70].

Definition digit_of (locase i : Z) : Z := Z.lor (default 0 (digit_table !! Z.to_nat i)) locase.

(** [do { ... } while (num);] for the bases 8 and 16 *)
Fixpoint pow2_digits (fuel : nat) (locase mask shift num : Z) : list Z :=
  match fuel with
  | O => []
  | S fuel =>
    let d := digit_of locase (Z.land (u8 num) mask) in
    let num := Z.shiftr num shift in
    if num =? 0 then [d] else d :: pow2_digits fuel locase mask shift num
  end.

(** [while (--w >= 0) *buf++ = c;]: what is written and [w] afterwards. *)
Definition pad (c w : Z) : list Z * Z :=
  (replicate (Z.to_nat w) c, if w >=? 0 then -1 else s16 (w - 1)).

(** The sign character (0 for none), the magnitude and the width left. *)
Definition number_sign (fl num width : Z) : Z * Z * Z :=
  if has fl SIGN then
    if s64 num <? 0 then (45, u64 (- num), s16 (width - 1))
    else if has fl PLUS then (43, num, s16 (width - 1))
    else if has fl SPACE then (32, num, s16 (width - 1))
    else (0, num, width)
  else (0, num, width).

(** [tmp[0 .. i-1]] *)
Definition number_digits (base locase num : Z) : list Z :=
  if num <? base then [digit_of locase num]
  else if negb (base =? 10) then
    pow2_digits 22 locase (base - 1) (if base =? 16 then 4 else 3) num
  else put_dec num.

(** All the characters [number] produces; it stores those that fit before
    [end] and returns [buf] advanced by their number. *)
Definition number (num : Z) (spec : printf_spec) : list Z :=
  let need_pfx := has (flags spec) SPECIAL && negb (base spec =? 10) in
  let is_zero := num =? 0 in
  let locase := Z.land (flags spec) SMALL in
  let fl := if has (flags spec) LEFT then Z.land (flags spec) (Z.lnot ZEROPAD) else flags spec in
  let '(sign, num, width) := number_sign fl num (field_width spec) in
  let width :=
    if need_pfx then
      if base spec =? 16 then s16 (width - 2)
      else if negb is_zero then s16 (width - 1) else width
    else width in
  let tmp := number_digits (base spec) locase num in
  let i := Z.of_nat (length tmp) in
  let prec := if i >? precision spec then i else precision spec in
  let width := s16 (width - prec) in
  let '(p1, width) := if negb (has fl (ZEROPAD + LEFT)) then pad 32 width else ([], width) in
  let s := if negb (sign =? 0) then [sign] else [] in
  let pfx :=
    if need_pfx then
      (if (base spec =? 16) || negb is_zero then [48] else [])
      ++ (if base spec =? 16 then [Z.lor 88 locase] else [])
    else [] in
  let '(p2, width) :=
    if negb (has fl LEFT) then pad (if has fl ZEROPAD then 48 else 32) width
    else ([], width) in
  let zeros := replicate (Z.to_nat (prec - i)) 48 in
  let '(p3, _) := pad 32 width in
  p1 ++ s ++ pfx ++ p2 ++ zeros ++ reverse tmp ++ p3.

(** What reaches a buffer with [room] bytes before [end]. *)
Definition number_stored (room num : Z) (spec : printf_spec) : list Z :=
  take (Z.to_nat room) (number num spec).
