(* ===== verification/VsprintfFacts.v ===== *)
(** * Facts about the decimal conversion and the printf layout

    Each multiply-and-shift is the division it stands for on the range it is
    used on; so the routines of [Vsprintf] write exactly the digits of their
    argument, and what [number] prints the parsers of [Kstrtox] read back. *)

From S2P Require Import Prelude CText Kstrtox Vsprintf.

(** [lia] with divisions by constants. *)
#[local] Ltac Zify.zify_post_hook ::= Z.div_mod_to_equations.

(** ** The reference: digits by division *)

(** Exactly [k] decimal digits of [n], the least significant first. *)
Fixpoint dec_fixed (k : nat) (n : Z) : list Z :=
  match k with
  | O => []
  | S k => 48 + n mod 10 :: dec_fixed k (n / 10)
  end.

(** The decimal digits of [n] without leading zeros. *)
Fixpoint dec_aux (fuel : nat) (n : Z) : list Z :=
  match fuel with
  | O => []
  | S fuel => if n <? 10 then [48 + n] else 48 + n mod 10 :: dec_aux fuel (n / 10)
  end.

(** A 64-bit number has at most 20 digits. *)
Definition dec (n : Z) : list Z := dec_aux 20 n.

Lemma dec_aux_app k fuel n :
  10 ^ Z.of_nat k <= n -> dec_aux (k + fuel) n = dec_fixed k n ++ dec_aux fuel (n / 10 ^ Z.of_nat k).
Proof.
  revert n; induction k as [|k IH]; intros n Hn.
  - cbn [dec_fixed app Nat.add]. by rewrite Z.div_1_r.
  - rewrite Nat2Z.inj_succ, Z.pow_succ_r in * by lia.
    assert (0 < 10 ^ Z.of_nat k) by (apply Z.pow_pos_nonneg; lia).
    cbn [dec_fixed app Nat.add dec_aux]. rewrite (proj2 (Z.ltb_ge n 10)) by lia.
    rewrite IH by (apply Z.div_le_lower_bound; lia).
    by rewrite Z.div_div by lia.
Qed.

Lemma dec_fixed_app k j n :
  dec_fixed (k + j) n = dec_fixed k n ++ dec_fixed j (n / 10 ^ Z.of_nat k).
Proof.
  revert n; induction k as [|k IH]; intros n.
  - cbn [dec_fixed app Nat.add]. by rewrite Z.div_1_r.
  - rewrite Nat2Z.inj_succ, Z.pow_succ_r by lia. cbn [dec_fixed app Nat.add].
    rewrite IH, Z.div_div by (lia || apply Z.pow_pos_nonneg; lia). done.
Qed.

(** More fuel changes nothing. *)
Lemma dec_aux_fuel f1 f2 n :
  0 <= n < 10 ^ Z.of_nat f1 -> (0 < f1 <= f2)%nat -> dec_aux f2 n = dec_aux f1 n.
Proof.
  revert f2 n; induction f1 as [|f1 IH]; intros f2 n Hn Hf; [lia|].
  destruct f2 as [|f2]; [lia|]. cbn [dec_aux]. case_if; [done|]. f_equal.
  rewrite Nat2Z.inj_succ, Z.pow_succ_r in Hn by lia.
  destruct f1 as [|f1]; [cbn in Hn; lia|].
  apply IH; [|lia]. split; [apply Z.div_pos; lia|apply Z.div_lt_upper_bound; lia].
Qed.

Lemma dec_fuel f n : 0 <= n < 10 ^ Z.of_nat f -> (0 < f <= 20)%nat -> dec_aux f n = dec n.
Proof. intros. symmetry. by apply dec_aux_fuel. Qed.

(** Splitting off [k] low digits of a number that has more. *)
Lemma dec_split k n :
  10 ^ Z.of_nat k <= n -> n < 10 ^ 20 -> (k < 20)%nat ->
  dec n = dec_fixed k n ++ dec (n / 10 ^ Z.of_nat k).
Proof.
  intros Hlo Hhi Hk. assert (0 < 10 ^ Z.of_nat k) by (apply Z.pow_pos_nonneg; lia).
  unfold dec at 1. replace 20%nat with (k + (20 - k))%nat by lia.
  rewrite dec_aux_app by done. f_equal. apply dec_fuel; [|lia].
  split; [apply Z.div_pos; lia|]. apply Z.div_lt_upper_bound; [done|].
  rewrite <- Z.pow_add_r by lia. by replace (Z.of_nat k + Z.of_nat (20 - k)) with 20 by lia.
Qed.

Lemma dec_fixed_mod k n : dec_fixed k (n mod 10 ^ Z.of_nat k) = dec_fixed k n.
Proof.
  revert n; induction k as [|k IH]; intros n; [done|]. cbn [dec_fixed].
  rewrite Nat2Z.inj_succ, Z.pow_succ_r by lia.
  assert (0 < 10 ^ Z.of_nat k) by (apply Z.pow_pos_nonneg; lia).
  assert (E : n mod (10 * 10 ^ Z.of_nat k)
    = n mod 10 + 10 * ((n / 10) mod 10 ^ Z.of_nat k)) by (apply Z.rem_mul_r; lia).
  rewrite E. pose proof (Z.mod_pos_bound n 10 ltac:(lia)). f_equal.
  - rewrite Z.mul_comm, Z_mod_plus_full, Z.mod_small; lia.
  - rewrite Z.mul_comm, Z.div_add by lia. rewrite Z.div_small by lia. apply IH.
Qed.

(** ** Multiply and shift *)

Lemma div10_64_spec x : 0 <= x < 1073741829 -> div10_64 x = x / 10.
Proof.
  intros. unfold div10_64. rewrite Z.shiftr_div_pow2, u64_id, u32_id by ulia. lia.
Qed.

Lemma div10_16_spec x : 0 <= x < 16389 -> div10_16 x = x / 10.
Proof. intros. unfold div10_16. rewrite Z.shiftr_div_pow2, u32_id by ulia. lia. Qed.

Lemma div10_11_spec x : 0 <= x < 1029 -> div10_11 x = x / 10.
Proof. intros. unfold div10_11. rewrite Z.shiftr_div_pow2, u32_id by ulia. lia. Qed.

Lemma div10_15_spec x : 0 <= x < 16389 -> div10_15 x = x / 10.
Proof. intros. unfold div10_15. rewrite Z.shiftr_div_pow2, u32_id by ulia. lia. Qed.

Lemma digit_char_spec q : 0 <= q -> digit_char q (q / 10) = 48 + q mod 10.
Proof.
  intros. unfold digit_char, u8. pose proof (Z.div_mod q 10). pose proof (Z.mod_pos_bound q 10).
  rewrite u32_id by ulia. rewrite Z.mod_small; lia.
Qed.

Lemma full9_spec q : 0 <= q < 10 ^ 9 -> put_dec_full9 q = dec_fixed 9 q.
Proof.
  intros Hq. unfold put_dec_full9. cbn zeta.
  rewrite (div10_64_spec q) by lia.
  rewrite (div10_64_spec (q / 10)) by lia.
  rewrite (div10_64_spec (q / 10 / 10)) by lia.
  rewrite (div10_64_spec (q / 10 / 10 / 10)) by lia.
  rewrite (div10_64_spec (q / 10 / 10 / 10 / 10)) by lia.
  rewrite (div10_16_spec (q / 10 / 10 / 10 / 10 / 10)) by lia.
  rewrite (div10_11_spec (q / 10 / 10 / 10 / 10 / 10 / 10)) by lia.
  rewrite (div10_11_spec (q / 10 / 10 / 10 / 10 / 10 / 10 / 10)) by lia.
  rewrite !digit_char_spec by lia. cbn [dec_fixed]. unfold u8. repeat f_equal. lia.
Qed.

Lemma trunc8_loop_spec fuel r :
  0 <= r < 10 ^ 9 -> r < 10 ^ (4 + Z.of_nat fuel) ->
  exists k, put_dec_trunc8_loop fuel r = (dec_fixed k r, r / 10 ^ Z.of_nat k)
    /\ 0 <= r / 10 ^ Z.of_nat k < 10000 /\ (k <> O -> 10 ^ (Z.of_nat k + 3) <= r).
Proof.
  revert r; induction fuel as [|fuel IH]; intros r Hr Hf; cbn [put_dec_trunc8_loop].
  - exists O. cbn [dec_fixed]. rewrite Z.div_1_r. split; [done|]. split; [lia|done].
  - case_if; zbool; [|exists O; cbn [dec_fixed]; rewrite Z.div_1_r; split; [done|]; split; [lia|done]].
    rewrite div10_64_spec by lia.
    destruct (IH (r / 10)) as (k & -> & Hk & Hlow).
    { lia. }
    { replace (4 + Z.of_nat (S fuel)) with (Z.succ (4 + Z.of_nat fuel)) in Hf by lia.
      rewrite Z.pow_succ_r in Hf by lia. apply Z.div_lt_upper_bound; lia. }
    exists (S k). rewrite Nat2Z.inj_succ, Z.pow_succ_r by lia.
    assert (0 < 10 ^ Z.of_nat k) by (apply Z.pow_pos_nonneg; lia).
    rewrite <- Z.div_div by lia. split_and!; [|lia|lia|].
    + cbn [dec_fixed]. do 2 f_equal. unfold u8. rewrite (u32_id (r + 48)), u32_id by ulia.
      rewrite Z.mod_small; lia.
    + intros _. destruct k as [|k]; [cbn; lia|]. specialize (Hlow ltac:(done)).
      replace (Z.succ (Z.of_nat (S k)) + 3) with (Z.succ (Z.of_nat (S k) + 3)) by lia.
      rewrite Z.pow_succ_r by lia. pose proof (Z.mul_div_le r 10). lia.
Qed.

(** Up to four digits, without leading zeros. *)
Lemma trunc4_spec buf r :
  0 <= r < 10000 ->
  (let q := div10_16 r in
   let buf := buf ++ [digit_char r q] in
   if q =? 0 then buf
   else
     let r := div10_11 q in
     let buf := buf ++ [digit_char q r] in
     if r =? 0 then buf
     else
       let q := div10_11 r in
       let buf := buf ++ [digit_char r q] in
       if q =? 0 then buf else buf ++ [u8 (q + 48)]) = buf ++ dec_aux 4 r.
Proof.
  intros Hr. cbn zeta. rewrite div10_16_spec, div10_11_spec by lia.
  rewrite !digit_char_spec by lia. cbn [dec_aux].
  destruct (r <? 10) eqn:E1; zbool.
  { rewrite (proj2 (Z.eqb_eq (r / 10) 0)) by lia. rewrite Z.mod_small by lia. done. }
  rewrite (proj2 (Z.eqb_neq (r / 10) 0)) by lia.
  destruct (r / 10 <? 10) eqn:E2; zbool.
  { rewrite (proj2 (Z.eqb_eq (r / 10 / 10) 0)) by lia. rewrite (Z.mod_small (r / 10)) by lia.
    by rewrite <- app_assoc. }
  rewrite (proj2 (Z.eqb_neq (r / 10 / 10) 0)) by lia.
  rewrite div10_11_spec, digit_char_spec by lia.
  destruct (r / 10 / 10 <? 10) eqn:E3; zbool.
  { rewrite (proj2 (Z.eqb_eq (r / 10 / 10 / 10) 0)) by lia.
    rewrite (Z.mod_small (r / 10 / 10)) by lia. by rewrite <- !app_assoc. }
  rewrite (proj2 (Z.eqb_neq (r / 10 / 10 / 10) 0)) by lia.
  rewrite (proj2 (Z.ltb_lt (r / 10 / 10 / 10) 10)) by lia. unfold u8.
  rewrite (Z.mod_small (_ + 48)) by lia. rewrite <- !app_assoc. cbn. by rewrite (Z.add_comm _ 48).
Qed.

Lemma trunc8_spec r : 0 <= r < 10 ^ 9 -> put_dec_trunc8 r = dec r.
Proof.
  intros Hr. unfold put_dec_trunc8.
  destruct (trunc8_loop_spec 10 r Hr) as (k & -> & Hk & Hlow); [lia|].
  rewrite trunc4_spec by done.
  assert (0 < 10 ^ Z.of_nat k) by (apply Z.pow_pos_nonneg; lia).
  assert (Hk6 : (k <= 6)%nat).
  { destruct k as [|k]; [lia|]. specialize (Hlow ltac:(done)).
    assert (10 ^ (Z.of_nat (S k) + 3) < 10 ^ 9 + 1) by lia.
    destruct (Z.le_gt_cases (Z.of_nat (S k) + 3) 9); [lia|].
    pose proof (Z.pow_le_mono_r 10 10 (Z.of_nat (S k) + 3) ltac:(lia) ltac:(lia)). lia. }
  destruct k as [|k].
  - cbn [dec_fixed app]. change (Z.of_nat 0) with 0 in *. rewrite Z.div_1_r in *.
    apply dec_fuel; cbn; lia.
  - rewrite (dec_split (S k) r); [|specialize (Hlow ltac:(done)); rewrite Z.pow_add_r in Hlow by lia; lia|lia|lia].
    f_equal. apply dec_fuel; cbn; lia.
Qed.

(** ** The two algorithms *)

Lemma put_dec_spec n : 0 <= n <= U64_MAX -> put_dec n = dec n.
Proof.
  intros Hn. unfold put_dec. destruct (n >=? 100000000) eqn:E; zbool.
  2: { rewrite u32_id by ulia. apply trunc8_spec. lia. }
  assert (Hloop : exists j, put_dec_loop 3 n = (dec_fixed (9 * j) n, n / 10 ^ Z.of_nat (9 * j))
    /\ 0 < n / 10 ^ Z.of_nat (9 * j) < 10 ^ 9 /\ (j <= 2)%nat).
  { cbn [put_dec_loop]. repeat rewrite full9_spec by lia.
    destruct (n >=? 1000000000) eqn:E1; zbool.
    2: { exists O. change (Z.of_nat (9 * 0)) with 0. rewrite Z.div_1_r. split; [done|lia]. }
    destruct (n / 1000000000 >=? 1000000000) eqn:E2; zbool.
    2: { exists 1%nat. change (10 ^ Z.of_nat (9 * 1)) with 1000000000. split_and!; [|lia..].
         rewrite app_nil_r. f_equal. apply (dec_fixed_mod 9). }
    destruct (n / 1000000000 / 1000000000 >=? 1000000000) eqn:E3; zbool; [ulia|].
    exists 2%nat. change (10 ^ Z.of_nat (9 * 2)) with (1000000000 * 1000000000).
    rewrite <- Z.div_div by lia. split_and!; [|ulia..].
    rewrite app_nil_r. f_equal. rewrite (dec_fixed_app 9 9).
    f_equal; apply (dec_fixed_mod 9). }
  destruct Hloop as (j & -> & Hq & Hj).
  assert (0 < 10 ^ Z.of_nat (9 * j)) by (apply Z.pow_pos_nonneg; lia).
  rewrite (dec_split (9 * j) n); [|destruct (Z.le_gt_cases (10 ^ Z.of_nat (9 * j)) n); [done|];
    rewrite Z.div_small in Hq by lia; lia|ulia|lia].
  rewrite u32_id by ulia. case_if; zbool; [|by rewrite trunc8_spec by lia].
  f_equal. rewrite full9_spec by lia.
  set (m := n / 10 ^ Z.of_nat (9 * j)) in *. clearbody m.
  rewrite (dec_split 8 m) by (cbn; lia). change 9%nat with (8 + 1)%nat.
  rewrite dec_fixed_app. f_equal. cbn [dec_fixed].
  change (10 ^ Z.of_nat 8) with 100000000. unfold dec. cbn [dec_aux].
  rewrite (proj2 (Z.ltb_lt _ 10)) by lia. by rewrite Z.mod_small by lia.
Qed.

Lemma full4_spec q : 0 <= q < 10000 -> put_dec_full4 q = dec_fixed 4 q.
Proof.
  intros. unfold put_dec_full4. cbn zeta.
  rewrite (div10_15_spec q) by lia. rewrite (div10_11_spec (q / 10)) by lia.
  rewrite (div10_11_spec (q / 10 / 10)) by lia. rewrite !digit_char_spec by lia.
  cbn [dec_fixed]. unfold u8. repeat f_equal. lia.
Qed.

Lemma helper4_spec x :
  0 <= x < 1128869999 -> put_dec_helper4 x = (dec_fixed 4 x, x / 10000).
Proof.
  intros Hx. unfold put_dec_helper4.
  assert (E : u32 (Z.shiftr (u64 (x * 879609303)) 43) = x / 10000).
  { rewrite Z.shiftr_div_pow2, u64_id, u32_id by ulia. lia. }
  rewrite E, (u32_id (x / 10000 * 10000)), u32_id by ulia.
  replace (x - x / 10000 * 10000) with (x mod 10 ^ Z.of_nat 4) by (cbn; lia).
  rewrite full4_spec by (cbn; lia). by rewrite dec_fixed_mod.
Qed.

Lemma strip_zeros_zero k : strip_zeros (dec_fixed k 0) = [].
Proof. induction k as [|k IH]; [done|]. cbn [dec_fixed strip_zeros].
  change (0 / 10) with 0. by rewrite IH. Qed.

Lemma dec_aux_nonnil f n : dec_aux (S f) n <> [].
Proof. cbn. by case_if. Qed.

Lemma strip_zeros_dec k n :
  0 < n < 10 ^ Z.of_nat k -> strip_zeros (dec_fixed k n) = dec_aux k n.
Proof.
  revert n; induction k as [|k IH]; intros n Hn; [cbn in Hn; lia|].
  rewrite Nat2Z.inj_succ, Z.pow_succ_r in Hn by lia. cbn [dec_fixed strip_zeros dec_aux].
  destruct (n <? 10) eqn:E; zbool.
  - rewrite (Z.div_small n), strip_zeros_zero, Z.mod_small by lia.
    case_if; zbool; [lia|done].
  - rewrite IH by lia. destruct k as [|k]; [cbn in Hn; lia|].
    destruct (dec_aux (S k) (n / 10)) eqn:Ed; [by apply dec_aux_nonnil in Ed|done].
Qed.

(** The 16-bit pieces of a 64-bit number. *)
Lemma pieces n : 0 <= n <= U64_MAX ->
  Z.land (u32 n) 65535 = n mod 65536
  /\ Z.shiftr (u32 n) 16 = n / 65536 mod 65536
  /\ Z.land (u32 (Z.shiftr n 32)) 65535 = n / 4294967296 mod 65536
  /\ Z.shiftr (u32 (Z.shiftr n 32)) 16 = n / 281474976710656.
Proof.
  intros Hn. change 65535 with (Z.ones 16). rewrite !Z.land_ones, !Z.shiftr_div_pow2 by lia.
  unfold u32. change (U32_MAX + 1) with 4294967296. split_and!; ulia.
Qed.

(** Peeling four digits off a number given in base 10000. *)
Lemma peel4 n q m :
  n = q + m * 10000 -> dec_fixed 4 q = dec_fixed 4 n /\ n / 10000 = q / 10000 + m.
Proof.
  intros ->. split; [|by rewrite Z.div_add by lia].
  rewrite <- (dec_fixed_mod 4 q), <- (dec_fixed_mod 4 (q + _)). f_equal.
  change (10 ^ Z.of_nat 4) with 10000. by rewrite Z_mod_plus_full.
Qed.

Lemma split_pieces n : 0 <= n <= U64_MAX ->
  exists d0 d1 d2 d3, n mod 65536 = d0 /\ n / 65536 mod 65536 = d1
    /\ n / 4294967296 mod 65536 = d2 /\ n / 281474976710656 = d3
    /\ 0 <= d0 < 65536 /\ 0 <= d1 < 65536 /\ 0 <= d2 < 65536 /\ 0 <= d3 < 65536
    /\ n = d3 * 281474976710656 + d2 * 4294967296 + d1 * 65536 + d0.
Proof. intros. eexists _, _, _, _. split_and!; try reflexivity; ulia. Qed.

Lemma dec_fixed_12 n :
  dec_fixed 12 n = dec_fixed 4 n ++ dec_fixed 4 (n / 10000) ++ dec_fixed 4 (n / 10000 / 10000).
Proof. by rewrite (dec_fixed_app 4 8), (dec_fixed_app 4 4). Qed.

Lemma put_dec_32_spec n : 0 <= n <= U64_MAX -> put_dec_32 n = dec n.
Proof.
  intros Hn. unfold put_dec_32. destruct (n <? 100000000) eqn:E; zbool.
  { rewrite u32_id by ulia. apply trunc8_spec. lia. }
  destruct (pieces n Hn) as (-> & -> & -> & ->). cbn zeta.
  destruct (split_pieces n Hn) as (d0 & d1 & d2 & d3 & -> & -> & -> & -> & H0 & H1 & H2 & H3 & Hs).
  set (q0 := 656 * d3 + 7296 * d2 + 5536 * d1 + d0).
  set (A := 7671 * d3 + 9496 * d2 + 6 * d1). set (B := 4749 * d3 + 42 * d2).
  destruct (peel4 n q0 (A + (B + 281 * d3 * 10000) * 10000)) as [E0 F0]; [lia|].
  assert (Hq0 : 0 <= q0 < 884100000) by lia. assert (HA : 0 <= A < 1125440000) by lia.
  assert (HB : 0 <= B < 314000000) by lia. clearbody q0 A B.
  rewrite (u32_id q0) by ulia. rewrite helper4_spec by lia.
  rewrite (u32_id (q0 / 10000 + A)) by ulia.
  destruct (peel4 (n / 10000) (q0 / 10000 + A) (B + 281 * d3 * 10000)) as [E1 F1]; [lia|].
  set (q1 := q0 / 10000 + A) in *. assert (Hq1 : 0 <= q1 < 1125600000) by lia. clearbody q1.
  rewrite helper4_spec by lia. rewrite (u32_id (q1 / 10000 + B)) by ulia.
  destruct (peel4 (n / 10000 / 10000) (q1 / 10000 + B) (281 * d3)) as [E2 F2]; [lia|].
  set (q2 := q1 / 10000 + B) in *. assert (Hq2 : 0 <= q2 < 315000000) by lia. clearbody q2.
  rewrite helper4_spec by lia. rewrite (u32_id (q2 / 10000 + _)) by ulia.
  rewrite E0, E1, E2, <- F2. clear E0 E1 E2 F0 F1 F2 Hs.
  assert (Em : n / 10000 / 10000 / 10000 = n / 10 ^ Z.of_nat 12) by (cbn; lia).
  rewrite Em. destruct (n / 10 ^ Z.of_nat 12 =? 0) eqn:Ez; zbool; cbn [negb].
  - rewrite <- dec_fixed_12. cbn in Ez. rewrite strip_zeros_dec by (cbn; lia).
    apply dec_fuel; [cbn|]; lia.
  - cbn in Ez. rewrite trunc8_spec by (cbn; ulia).
    rewrite (dec_split 12 n), dec_fixed_12, <- !app_assoc by (cbn; ulia). done.
Qed.

(** ** Digits in any base *)

(** The value of digits, the least significant first. *)
Definition le_value (b : Z) (ds : list Z) : Z := foldr (fun d acc => d + b * acc) 0 ds.

Lemma value_reverse b ds : value b (reverse ds) = le_value b ds.
Proof.
  induction ds as [|d ds IH]; [done|]. rewrite reverse_cons.
  unfold value, value_from in *. rewrite foldl_app. cbn. rewrite IH.
  unfold le_value. ring.
Qed.

Definition is_base (b : Z) : Prop := b = 8 \/ b = 10 \/ b = 16.
Definition is_locase (l : Z) : Prop := l = 0 \/ l = 32.

(** [cs] prints [n] in base [b], the least significant digit first. *)
Definition prints (b locase n : Z) (cs : list Z) : Prop :=
  exists ds, cs = digit_of locase <$> ds /\ Forall (fun d => 0 <= d < b) ds
    /\ le_value b ds = n /\ ds <> [] /\ (n <> 0 -> list.last ds <> Some 0).

Lemma prints_digit b locase n : 0 <= n < b -> prints b locase n [digit_of locase n].
Proof.
  intros. exists [n]. split_and!; [done|by apply Forall_singleton|cbn; lia|done|].
  intros ? [= ->]. done.
Qed.

Lemma prints_cons b locase n cs :
  0 < b -> b <= n -> prints b locase (n / b) cs ->
  prints b locase n (digit_of locase (n mod b) :: cs).
Proof.
  intros Hb Hn (ds & -> & Hds & Hv & Hne & Hl). exists (n mod b :: ds). split_and!.
  - done.
  - constructor; [by apply Z.mod_pos_bound|done].
  - cbn. fold (le_value b ds). rewrite Hv. rewrite (Z.div_mod n b) at 3 by lia. lia.
  - done.
  - intros _. assert (1 <= n / b) by (apply Z.div_le_lower_bound; lia).
    destruct ds as [|d ds]; [done|]. apply Hl. lia.
Qed.

Lemma dec_prints locase n : 0 <= n < 10 ^ 20 -> is_locase locase -> prints 10 locase n (dec n).
Proof.
  intros Hn Hl. unfold dec.
  assert (H48 : forall d, 0 <= d < 10 -> 48 + d = digit_of locase d).
  { intros d Hd. assert (d = 0 \/ d = 1 \/ d = 2 \/ d = 3 \/ d = 4 \/ d = 5 \/ d = 6 \/ d = 7
      \/ d = 8 \/ d = 9) as Hc by lia.
    destruct Hl as [-> | ->]; repeat (destruct Hc as [->|Hc]; [done|]); by subst. }
  assert (Hgen : forall f n, 0 <= n < 10 ^ Z.of_nat f -> (0 < f)%nat ->
    prints 10 locase n (dec_aux f n)); [|apply Hgen; [exact Hn|lia]].
  clear n Hn. induction f as [|f IH]; intros n Hn Hf; [lia|]. cbn [dec_aux]. case_if; zbool.
  - rewrite H48 by lia. apply prints_digit. lia.
  - rewrite H48 by lia. rewrite Nat2Z.inj_succ, Z.pow_succ_r in Hn by lia.
    apply prints_cons; [lia|lia|]. destruct f as [|f]; [cbn in Hn; lia|].
    apply IH; [|lia]. lia.
Qed.

Lemma pow2_digits_prints fuel k locase n :
  0 < k <= 8 -> 0 <= n < 2 ^ (k * Z.of_nat fuel) -> (0 < fuel)%nat ->
  prints (2 ^ k) locase n (pow2_digits fuel locase (2 ^ k - 1) k n).
Proof.
  intros Hk. revert n; induction fuel as [|fuel IH]; intros n Hn Hf; [lia|].
  cbn [pow2_digits].
  assert (0 < 2 ^ k) by (apply Z.pow_pos_nonneg; lia).
  assert (Hd : Z.land (u8 n) (2 ^ k - 1) = n mod 2 ^ k).
  { replace (2 ^ k - 1) with (Z.ones k) by (rewrite Z.ones_equiv; lia).
    rewrite Z.land_ones by lia. unfold u8. change 256 with (2 ^ 8).
    replace (2 ^ 8) with (2 ^ k * 2 ^ (8 - k)) by (rewrite <- Z.pow_add_r by lia; f_equal; lia).
    rewrite Z.rem_mul_r by (try lia; apply Z.pow_pos_nonneg; lia).
    rewrite Z.mul_comm, Z_mod_plus_full. apply Z.mod_mod. lia. }
  rewrite Hd, Z.shiftr_div_pow2 by lia. case_if; zbool.
  - assert (n < 2 ^ k) by (apply Z.div_small_iff in E; lia).
    rewrite Z.mod_small by lia. apply prints_digit. lia.
  - assert (2 ^ k <= n) by (destruct (Z.le_gt_cases (2 ^ k) n); [done|];
      rewrite Z.div_small in E by lia; lia).
    apply prints_cons; [lia|lia|].
    replace (k * Z.of_nat (S fuel)) with (k + k * Z.of_nat fuel) in Hn by lia.
    rewrite Z.pow_add_r in Hn by lia.
    destruct fuel as [|fuel].
    { rewrite Z.mul_0_r, Z.pow_0_r in Hn. lia. }
    apply IH; [|lia]. split; [apply Z.div_pos; lia|apply Z.div_lt_upper_bound; lia].
Qed.

Lemma number_digits_prints b locase n :
  is_base b -> is_locase locase -> 0 <= n <= U64_MAX ->
  prints b locase n (number_digits b locase n).
Proof.
  intros Hb Hl Hn. unfold number_digits. destruct (n <? b) eqn:E; zbool.
  { apply prints_digit. lia. }
  destruct Hb as [-> | [-> | ->]]; cbn [negb Z.eqb Pos.eqb].
  - apply (pow2_digits_prints 22 3); [lia|split; [lia|]|lia].
    change (2 ^ (3 * Z.of_nat 22)) with 73786976294838206464. ulia.
  - rewrite put_dec_spec by done. apply dec_prints; [ulia|done].
  - apply (pow2_digits_prints 22 4); [lia|split; [lia|]|lia].
    change (2 ^ (4 * Z.of_nat 22)) with 309485009821345068724781056. ulia.
Qed.

Lemma length_dec_aux f m : (1 <= length (dec_aux (S f) m) <= S f)%nat.
Proof.
  revert m; induction f as [|f IH]; intros m; cbn [dec_aux]; case_if; cbn; try lia.
  specialize (IH (m / 10)). cbn [dec_aux] in IH. lia.
Qed.

Lemma length_number_digits b locase n :
  0 <= n <= U64_MAX -> (1 <= length (number_digits b locase n) <= 22)%nat.
Proof.
  intros Hn. unfold number_digits. case_if; [cbn; lia|]. case_if.
  - generalize (b - 1) (if b =? 16 then 4 else 3) n. intros mask sh m.
    assert (Hgen : forall f m, (1 <= length (pow2_digits (S f) locase mask sh m) <= S f)%nat).
    { induction f as [|f IH]; intros m'; cbn [pow2_digits]; case_if; cbn; try lia.
      specialize (IH (Z.shiftr m' sh)). cbn [pow2_digits] in IH. lia. }
    apply (Hgen 21%nat).
  - rewrite put_dec_spec by done. pose proof (length_dec_aux 19 n). unfold dec. lia.
Qed.

(** ** Reading digits back *)

Lemma digit_val_of b locase d :
  is_base b -> is_locase locase -> 0 <= d < b -> digit_val (digit_of locase d) b = Some d.
Proof.
  intros Hb Hl Hd. pose (P d := bool_decide (digit_val (digit_of locase d) b = Some d)).
  apply (bool_decide_eq_true_1 _ : P d = true -> _). apply (range_cases b P); [|done]. subst P.
  destruct Hb as [-> | [-> | ->]], Hl as [-> | ->]; by vm_compute.
Qed.

Lemma numeral_digits b locase ds rest :
  is_base b -> is_locase locase -> Forall (fun d => 0 <= d < b) ds ->
  (forall c, rest !! 0%nat = Some c -> digit_val c b = None) ->
  numeral b ((digit_of locase <$> ds) ++ rest) = ds
  /\ after_numeral b ((digit_of locase <$> ds) ++ rest) = rest.
Proof.
  intros Hb Hl Hds Hrest. induction Hds as [|d ds Hd _ IH]; cbn.
  - destruct rest as [|c rest]; [done|]. cbn. by rewrite (Hrest c).
  - rewrite digit_val_of by done. destruct IH as [-> ->]. done.
Qed.

(** What prints [n] is read as [n], and nothing beyond it is touched. *)
Lemma prints_numeral b locase n cs rest :
  is_base b -> is_locase locase -> prints b locase n cs ->
  (forall c, rest !! 0%nat = Some c -> digit_val c b = None) ->
  value b (numeral b (reverse cs ++ rest)) = n
  /\ after_numeral b (reverse cs ++ rest) = rest
  /\ numeral b (reverse cs ++ rest) <> [].
Proof.
  intros Hb Hl (ds & -> & Hds & Hv & Hne & _) Hrest.
  rewrite <- fmap_reverse. destruct (numeral_digits b locase (reverse ds) rest) as [-> ->];
    try done; [by apply Forall_reverse|].
  rewrite value_reverse. split_and!; try done. intros E. apply Hne.
  by rewrite <- (reverse_involutive ds), E.
Qed.

(** The first character printed is a digit, and not '0' unless it is alone. *)
Lemma prints_head b locase n cs :
  is_base b -> is_locase locase -> prints b locase n cs ->
  exists d, reverse cs !! 0%nat = Some (digit_of locase d) /\ 0 <= d < b /\ (n <> 0 -> d <> 0).
Proof.
  intros Hb Hl (ds & -> & Hds & _ & Hne & Hlast).
  destruct (list.last ds) as [d|] eqn:E; [|by apply last_None in E].
  exists d. rewrite <- fmap_reverse, list_lookup_fmap, <- head_lookup, head_reverse, E.
  split; [done|]. split; [|intros Hn ->; by apply Hlast].
  apply last_Some_elem_of in E. by eapply Forall_forall in Hds.
Qed.

(** ** The layout without flags *)

Definition plain (fl : Z) : Prop :=
  has fl SIGN = false /\ has fl LEFT = false /\ has fl ZEROPAD = false /\ has fl (ZEROPAD + LEFT) = false.

Definition prefix_of (spec : printf_spec) (n : Z) : list Z :=
  if has (flags spec) SPECIAL && negb (base spec =? 10) then
    (if (base spec =? 16) || negb (n =? 0) then [48] else [])
    ++ (if base spec =? 16 then [Z.lor 88 (Z.land (flags spec) SMALL)] else [])
  else [].

Lemma prefix_short spec n : (length (prefix_of spec n) <= 2)%nat.
Proof.
  unfold prefix_of. destruct (has (flags spec) SPECIAL && negb (base spec =? 10)); [|cbn; lia].
  destruct (base spec =? 16), (n =? 0); cbn; lia.
Qed.

Lemma pad_neg c w : -32768 < w < 0 -> pad c w = ([], w - 1).
Proof.
  intros. unfold pad. replace (Z.to_nat w) with O by lia. case_if; zbool; [lia|].
  f_equal. unfold s16. rewrite Z.mod_small; lia.
Qed.

Lemma number_plain n spec :
  plain (flags spec) -> 0 <= n <= U64_MAX -> -1 <= field_width spec <= 32767 ->
  precision spec <= 1 ->
  number n spec =
  replicate (Z.to_nat (field_width spec - Z.of_nat (length (prefix_of spec n))
    - Z.of_nat (length (number_digits (base spec) (Z.land (flags spec) SMALL) n)))) 32
  ++ prefix_of spec n ++ reverse (number_digits (base spec) (Z.land (flags spec) SMALL) n).
Proof.
  intros (Hs & Hl & Hz & Hzl) Hn Hw Hp. unfold number, number_sign. rewrite Hl, Hs, Hz, Hzl.
  cbn zeta. cbn [negb].
  pose proof (length_number_digits (base spec) (Z.land (flags spec) SMALL) n Hn) as Hlen.
  set (tmp := number_digits _ _ n) in *.
  assert (s16_id : forall x, -32768 <= x <= 32767 -> s16 x = x)
    by (intros; unfold s16; rewrite Z.mod_small; lia).
  set (w := if has (flags spec) SPECIAL && negb (base spec =? 10) then _ else field_width spec).
  assert (Hw' : w = field_width spec - Z.of_nat (length (prefix_of spec n))).
  { subst w. unfold prefix_of. destruct (has (flags spec) SPECIAL && negb (base spec =? 10));
      [|cbn; lia]. destruct (base spec =? 16), (n =? 0); cbn; rewrite ?s16_id by lia; lia. }
  pose proof (prefix_short spec n) as Hpl.
  fold (prefix_of spec n). rewrite Hw'. clearbody w tmp. clear w Hw'.
  replace (if Z.of_nat (length tmp) >? precision spec then _ else _)
    with (Z.of_nat (length tmp)) by (case_if; lia).
  rewrite s16_id by lia. set (w := field_width spec - _ - _).
  assert (-26 <= w <= 32767) by lia. clearbody w. rewrite Z.sub_diag. cbn [replicate Z.to_nat app].
  unfold pad at 1. rewrite Hl. cbn [negb]. destruct (w >=? 0) eqn:E; zbool.
  - rewrite pad_neg, pad_neg by lia. cbn [app Z.eqb negb]. by rewrite app_nil_r.
  - rewrite s16_id, pad_neg, pad_neg by lia. cbn [app Z.eqb negb]. by rewrite app_nil_r.
Qed.

Lemma skip_spaces_pad k s :
  (forall c, s !! 0%nat = Some c -> isspace c = false) -> skip_spaces (replicate k 32 ++ s) = s.
Proof.
  intros Hs. induction k as [|k IH]; [|exact IH]. cbn.
  destruct s as [|c s]; [done|]. cbn. by rewrite (Hs c).
Qed.

Lemma digit_not_space b locase d :
  is_base b -> is_locase locase -> 0 <= d < b -> isspace (digit_of locase d) = false.
Proof.
  intros Hb Hl Hd. apply negb_true_iff.
  apply (range_cases b (fun d => negb (isspace (digit_of locase d)))); [|done].
  destruct Hb as [-> | [-> | ->]], Hl as [-> | ->]; by vm_compute.
Qed.

Lemma digit_of_byte b locase d :
  is_base b -> is_locase locase -> 0 <= d < b -> is_byte (digit_of locase d) /\ digit_of locase d <> 43
  /\ _tolower (digit_of locase d) <> 120 /\ isxdigit (digit_of locase d) = true
  /\ (d <> 0 -> digit_of locase d <> 48).
Proof.
  intros Hb Hl Hd. pose (P d := bool_decide (is_byte (digit_of locase d) /\ digit_of locase d <> 43
    /\ _tolower (digit_of locase d) <> 120 /\ isxdigit (digit_of locase d) = true
    /\ (d <> 0 -> digit_of locase d <> 48))).
  apply (bool_decide_eq_true_1 _ : P d = true -> _). apply (range_cases b P); [|done]. subst P.
  unfold is_byte. destruct Hb as [-> | [-> | ->]], Hl as [-> | ->]; by vm_compute.
Qed.

Lemma prints_cstr b locase n cs :
  is_base b -> is_locase locase -> prints b locase n cs -> cstr (reverse cs).
Proof.
  intros Hb Hl (ds & -> & Hds & _). apply Forall_reverse, Forall_fmap.
  eapply Forall_impl; [exact Hds|]. intros d Hd. by apply (digit_of_byte b).
Qed.
