(* ===== verification/TextProps.v ===== *)
(** * The properties of the number parsers and printers

    lib/kstrtox.c accepts one grammar and detects overflow exactly; both
    decimal conversions of lib/vsprintf.c print every 64-bit number; and what
    is printed is read back. *)

From S2P Require Import Prelude CText Kstrtox Vsprintf VsprintfFacts.

(** [lia] with divisions by constants. *)
#[local] Ltac Zify.zify_post_hook ::= Z.div_mod_to_equations.

(** ** Printed text is parsed back *)

Section ReadBack.
Variables (b locase n : Z) (cs : list Z).
Hypothesis Hb : is_base b.
Hypothesis Hl : is_locase locase.
Hypothesis Hn : 0 <= n <= U64_MAX.
Hypothesis Hp : prints b locase n cs.

(** Digits after the prefix was taken off, in base [b]. *)
Lemma read_digits s base :
  _parse_integer_fixup_radix s base = (reverse cs, b) -> read_unsigned s base = inr n.
Proof.
  intros E. unfold read_unsigned. rewrite E.
  destruct (prints_numeral b locase n cs []) as (Hv & Ha & Hne); try done.
  rewrite app_nil_r in *. rewrite Hv, Ha. rewrite (proj2 (Z.ltb_ge _ _)) by lia.
  rewrite bool_decide_eq_false_2 by done. by rewrite bool_decide_eq_true_2 by auto.
Qed.

Lemma head_char : exists d, c_at (reverse cs) 0 = digit_of locase d /\ 0 <= d < b /\ (n <> 0 -> d <> 0).
Proof.
  destruct (prints_head b locase n cs Hb Hl Hp) as (d & E & Hd). exists d.
  unfold c_at. by rewrite E.
Qed.

(** Without a prefix, the base given. *)
Lemma read_bare : read_unsigned (reverse cs) b = inr n.
Proof using All.
  apply read_digits. unfold _parse_integer_fixup_radix.
  assert (Hx : _tolower (c_at (reverse cs) 1) <> 120).
  { destruct Hp as (ds & -> & Hds & _). unfold c_at. rewrite <- fmap_reverse, list_lookup_fmap.
    destruct (reverse ds !! 1%nat) as [d|] eqn:E; [|done]. cbn.
    apply Forall_reverse in Hds. eapply Forall_lookup_1 in E; [|exact Hds].
    by apply (digit_of_byte b locase d). }
  rewrite (proj2 (Z.eqb_neq b 0)) by (unfold is_base in Hb; lia).
  rewrite (proj2 (Z.eqb_neq (_tolower _) 120)) by done. by rewrite andb_false_r.
Qed.

End ReadBack.

Lemma read_zero base : base = 0 \/ base = 8 \/ base = 10 -> read_unsigned [48] base = inr 0.
Proof. by intros [-> | [-> | ->]]; vm_compute. Qed.

Lemma read_decimal locase n cs :
  is_locase locase -> 0 < n <= U64_MAX -> prints 10 locase n cs ->
  read_unsigned (reverse cs) 0 = inr n.
Proof.
  intros Hl Hn Hp. assert (Hb : is_base 10) by (unfold is_base; auto).
  apply (read_digits 10 locase n cs); try done; [lia|].
  destruct (head_char 10 locase n cs) as (d & E & Hd & Hnz); try done.
  destruct (digit_of_byte 10 locase d) as (_ & _ & _ & _ & H48); try done.
  unfold _parse_integer_fixup_radix. rewrite E. cbn [Z.eqb].
  rewrite (proj2 (Z.eqb_neq (digit_of locase d) 48)) by (apply H48, Hnz; lia). done.
Qed.

Lemma read_hex locase n cs base :
  base = 0 \/ base = 16 -> is_locase locase -> 0 <= n <= U64_MAX -> prints 16 locase n cs ->
  read_unsigned (48 :: Z.lor 88 locase :: reverse cs) base = inr n.
Proof.
  intros Hbase Hl Hn Hp. assert (Hb : is_base 16) by (unfold is_base; auto).
  apply (read_digits 16 locase n cs); try done.
  destruct (head_char 16 locase n cs) as (d & E & Hd & _); try done.
  destruct (digit_of_byte 16 locase d) as (_ & _ & _ & Hx & _); try done.
  unfold _parse_integer_fixup_radix.
  change (c_at (48 :: Z.lor 88 locase :: reverse cs) 2) with (c_at (reverse cs) 0).
  rewrite E, Hx. by destruct Hbase as [-> | ->], Hl as [-> | ->].
Qed.

Lemma read_octal locase n cs base :
  base = 0 \/ base = 8 -> is_locase locase -> 0 < n <= U64_MAX -> prints 8 locase n cs ->
  read_unsigned (48 :: reverse cs) base = inr n.
Proof.
  intros Hbase Hl Hn Hp. assert (Hb : is_base 8) by (unfold is_base; auto).
  destruct (head_char 8 locase n cs) as (d & E & Hd & _); try done.
  destruct (digit_of_byte 8 locase d) as (_ & _ & Hx & _ & _); try done.
  assert (F : _parse_integer_fixup_radix (48 :: reverse cs) base = (48 :: reverse cs, 8)).
  { unfold _parse_integer_fixup_radix.
    change (c_at (48 :: reverse cs) 1) with (c_at (reverse cs) 0). rewrite E.
    rewrite (proj2 (Z.eqb_neq (_tolower _) 120)) by done. by destruct Hbase as [-> | ->]. }
  unfold read_unsigned. rewrite F.
  destruct (prints_numeral 8 locase n cs []) as (Hv & Ha & Hne); try done.
  rewrite app_nil_r in *. cbn [numeral after_numeral]. change (digit_val 48 8) with (Some 0).
  cbn iota. change (value 8 (0 :: numeral 8 (reverse cs))) with (value 8 (numeral 8 (reverse cs))).
  rewrite Hv, Ha. rewrite (proj2 (Z.ltb_ge _ _)) by lia.
  rewrite bool_decide_eq_false_2 by done. by rewrite bool_decide_eq_true_2 by auto.
Qed.

(** ** The theorems *)

(** The text after an optional plus sign. *)
Definition after_plus (s : list Z) : list Z := if decide (head s = Some 43) then tail s else s.

Lemma after_plus_drop s : (if c_at s 0 =? 43 then drop 1 s else s) = after_plus s.
Proof.
  unfold after_plus, c_at. destruct s as [|c s]; [done|]. cbn [lookup list_lookup default head tail].
  case_if; case_decide; naive_solver.
Qed.

Lemma after_plus_ok s : cstr s -> short s -> cstr (after_plus s) /\ short (after_plus s).
Proof.
  rewrite <- after_plus_drop. unfold short. intros. case_if; [|done].
  split; [by apply Forall_drop|rewrite length_drop; lia].
Qed.

(** C32. [kstrtoull] reads exactly the grammar it documents, here stated with
    tables of digits and explicit prefixes: after an optional plus sign, in
    base 0 "0x" or "0X" before a hexadecimal digit means 16, another leading
    "0" means 8 and everything else 10, and base 16 allows the same prefix.  It returns [v]
    precisely when the text is a non-empty run of digits of value [v] that
    fits in 64 bits, followed by nothing or by one newline; [-ERANGE]
    precisely when the longest run of digits does not fit, whatever follows
    it; and [-EINVAL] in every other case. *)
Theorem kstrtoull_correct s base :
  ok_base base -> cstr s -> short s ->
  (forall v, kstrtoull s base = inr v <-> accepts base (after_plus s) v)
  /\ (kstrtoull s base = inl (- ERANGE) <-> overflows base (after_plus s))
  /\ (forall e, kstrtoull s base = inl e -> e = - ERANGE \/ e = - EINVAL).
Proof.
  intros Hb Hs Hsh. destruct (after_plus_ok s Hs Hsh).
  unfold kstrtoull. rewrite after_plus_drop, kstrtoull_read by done.
  split_and!; [intros v; by apply read_unsigned_accepts|by apply read_unsigned_overflows|].
  apply read_unsigned_cases.
Qed.

(** Given digits are the digits of given characters. *)
Ltac digits_tac :=
  repeat (constructor; [split; [lia|first [left; reflexivity|right; reflexivity]]|]); constructor.

(** "+0xFf" and a newline; 2^64 in decimal, with junk after it. *)
Lemma kstrtoull_correct_witness :
  kstrtoull [43; 48; 120; 70; 102; 10] 0 = inr 255
  /\ kstrtoull [49; 56; 52; 52; 54; 55; 52; 52; 48; 55; 51; 55; 48; 57; 53; 53; 49; 54; 49; 54; 33] 10
     = inl (- ERANGE).
Proof.
  split.
  - apply (kstrtoull_correct [43; 48; 120; 70; 102; 10] 0);
      [by left|by repeat constructor|by vm_compute|].
    split; [ulia|]. exists [10]. split; [|by right].
    exists 16, [70; 102], [15; 15]. split_and!; [|digits_tac|done| |by vm_compute].
    + apply (radix_detect_16 [48; 120] 70 15 [102; 10]); [by left|]. split; [lia|by right].
    + intros c d [= <-] Hd. by apply is_digit_val in Hd.
  - apply (kstrtoull_correct [49; 56; 52; 52; 54; 55; 52; 52; 48; 55; 51; 55; 48; 57; 53;
      53; 49; 54; 49; 54; 33] 10);
      [right; lia|by repeat constructor|by vm_compute|].
    exists (2 ^ 64), [33]. split; [|ulia].
    exists 10, [49; 56; 52; 52; 54; 55; 52; 52; 48; 55; 51; 55; 48; 57; 53; 53; 49; 54; 49; 54],
      [1; 8; 4; 4; 6; 7; 4; 4; 0; 7; 3; 7; 0; 9; 5; 5; 1; 6; 1; 6].
    split_and!; [by apply radix_given|digits_tac|done| |by vm_compute].
    intros c d [= <-] Hd. by apply is_digit_val in Hd.
Defined.

(** ** Signed numbers *)

(** A minus sign wants a value from 1 to 2^63; no sign or a plus wants one
    below 2^63. *)
Definition signed_accepts (base : Z) (s : list Z) (v : Z) : Prop :=
  if decide (head s = Some 45) then 1 <= - v <= 2 ^ 63 /\ accepts base (tail s) (- v)
  else v < 2 ^ 63 /\ accepts base (after_plus s) v.

(** The number does not fit in 64 bits, or is a complete number out of the
    range its sign allows: the zero of "-0" is one. *)
Definition signed_overflows (base : Z) (s : list Z) : Prop :=
  if decide (head s = Some 45) then
    overflows base (tail s) \/ exists v, accepts base (tail s) v /\ (v = 0 \/ 2 ^ 63 < v)
  else overflows base (after_plus s) \/ exists v, accepts base (after_plus s) v /\ 2 ^ 63 <= v.

(** The signed reading that the range of [long long] allows. *)
Definition read_signed (s : list Z) (base : Z) : Z + Z :=
  if decide (head s = Some 45) then
    match read_unsigned (tail s) base with
    | inl e => inl e
    | inr v => if (1 <=? v) && (v <=? 2 ^ 63) then inr (- v) else inl (- ERANGE)
    end
  else
    match read_unsigned (after_plus s) base with
    | inl e => inl e
    | inr v => if v <? 2 ^ 63 then inr v else inl (- ERANGE)
    end.

(** The result of a conversion to a narrower type with range [lo, hi]. *)
Definition within (lo hi : Z) (r : Z + Z) : Z + Z :=
  match r with
  | inl e => inl e
  | inr v => if (lo <=? v) && (v <=? hi) then inr v else inl (- ERANGE)
  end.

Lemma read_unsigned_range s base v : cstr s -> ok_base base -> short s ->
  read_unsigned s base = inr v -> 0 <= v <= U64_MAX.
Proof.
  intros Hs Hb Hsh. unfold read_unsigned. pose proof (fixup_radix_ok s base Hb Hs Hsh) as Hf.
  destruct (_parse_integer_fixup_radix s base) as [s' b]. destruct Hf as (Hb' & Hs' & _).
  repeat case_if; try done. intros [= <-]. split; [|lia].
  apply (value_from_ge b 0); [lia|lia|by apply numeral_range].
Qed.

Lemma narrow_within cast lo hi r :
  (forall v, lo <= v <= hi -> cast v = v) -> (forall v, lo <= cast v <= hi) ->
  narrow cast r = within lo hi r.
Proof.
  intros Hid Hr. destruct r as [e|v]; [done|]. unfold narrow, within.
  destruct ((lo <=? v) && (v <=? hi)) eqn:E; zbool.
  - by rewrite Hid, Z.eqb_refl by lia.
  - rewrite (proj2 (Z.eqb_neq v (cast v))); [done|]. specialize (Hr v). lia.
Qed.

Lemma s64_neg v : 0 <= v <= U64_MAX ->
  (if s64 (- v) >=? 0 then inl (- ERANGE) else inr (s64 (- v)))
  = (if (1 <=? v) && (v <=? 2 ^ 63) then inr (- v) else inl (- ERANGE) : Z + Z).
Proof.
  intros Hv. destruct ((1 <=? v) && (v <=? 2 ^ 63)) eqn:E; zbool.
  - rewrite s64_id by lia. case_if; [lia|done].
  - case_if; [done|]. exfalso. unfold s64 in *. ulia.
Qed.

Lemma s64_pos v : 0 <= v <= U64_MAX ->
  (if s64 v <? 0 then inl (- ERANGE) else inr v)
  = (if v <? 2 ^ 63 then inr v else inl (- ERANGE) : Z + Z).
Proof.
  intros Hv. destruct (v <? 2 ^ 63) eqn:E; zbool.
  - rewrite s64_id by lia. case_if; [lia|done].
  - case_if; [done|]. exfalso. unfold s64 in *. ulia.
Qed.

Lemma kstrtoll_read s base :
  ok_base base -> cstr s -> short s -> kstrtoll s base = read_signed s base.
Proof.
  intros Hb Hs Hsh. destruct (after_plus_ok s Hs Hsh) as [Hpc Hps].
  unfold kstrtoll, read_signed, kstrtoull. rewrite after_plus_drop.
  assert (E45 : (c_at s 0 =? 45) = bool_decide (head s = Some 45)).
  { unfold c_at. destruct s as [|c t]; [done|]. cbn -[bool_decide Z.eqb].
    case_bool_decide; [apply Z.eqb_eq|apply Z.eqb_neq]; naive_solver. }
  rewrite E45. case_bool_decide; [rewrite decide_True by done|rewrite decide_False by done].
  - destruct s as [|c t]; [done|]. cbn [drop tail]. apply Forall_cons in Hs as [_ Ht].
    assert (short t) by (unfold short in *; cbn [length] in Hsh; lia).
    change (drop 0 t) with t. rewrite kstrtoull_read by done.
    destruct (read_unsigned t base) as [|v] eqn:E; [done|].
    apply read_unsigned_range in E; [|done..]. by apply s64_neg.
  - rewrite kstrtoull_read by done. destruct (read_unsigned _ base) as [|v] eqn:E; [done|].
    apply read_unsigned_range in E; [|done..]. by apply s64_pos.
Qed.

(** A conversion to a [bits]-bit type keeps what is in range. *)
Ltac narrow_tac :=
  apply narrow_within; intros v; unfold s32, s16, s8, u32, u16, u8, U32_MAX; intros; lia.

Lemma read_signed_cases s base e : read_signed s base = inl e -> e = - ERANGE \/ e = - EINVAL.
Proof.
  unfold read_signed. case_decide; destruct (read_unsigned _ base) eqn:E;
    try case_if; intros [= <-]; eauto using read_unsigned_cases.
Qed.

Lemma read_signed_spec s base :
  ok_base base -> cstr s -> short s ->
  (forall v, read_signed s base = inr v <-> signed_accepts base s v)
  /\ (read_signed s base = inl (- ERANGE) <-> signed_overflows base s).
Proof.
  intros Hb Hs Hsh. unfold read_signed, signed_accepts, signed_overflows.
  case_decide as Hm.
  - destruct s as [|c t]; [done|]. cbn [tail]. apply Forall_cons in Hs as [_ Ht].
    assert (Hst : short t) by (unfold short in *; cbn [length] in Hsh; lia).
    pose proof (read_unsigned_range t base) as Hrange.
    setoid_rewrite <- (read_unsigned_accepts t base); [|done..].
    rewrite <- (read_unsigned_overflows t base) by done.
    destruct (read_unsigned t base) as [e|w]; [naive_solver|].
    specialize (Hrange w Ht Hb Hst eq_refl). case_if; split; [intros v; split|split|intros v; split|split].
    + intros [= <-]. rewrite Z.opp_involutive. split; [lia|done].
    + intros [? [= ->]]. by rewrite Z.opp_involutive.
    + done.
    + intros [?|(v & [= <-] & ?)]; [done|lia].
    + done.
    + intros [? [= ->]]. lia.
    + intros _. right. exists w. split; [done|lia].
    + done.
  - destruct (after_plus_ok s Hs Hsh) as [Hc Hps].
    setoid_rewrite <- (read_unsigned_accepts (after_plus s) base); [|done..].
    rewrite <- (read_unsigned_overflows (after_plus s) base) by done.
    destruct (read_unsigned (after_plus s) base) as [e|w]; [naive_solver|].
    case_if; zbool; split; try intros v; split; naive_solver lia.
Qed.

(** C33. [kstrtoll] returns [v] precisely when the text is a number of the
    grammar of [kstrtoull] in the range of [long long], negative after a minus
    sign (which a plus may not follow); it gives [-ERANGE] precisely when the
    run of digits does not fit in 64 bits or the complete number is out of
    range, where "-0" counts as out of range (the code wants a strictly
    negative value after a minus sign); and [-EINVAL] otherwise.
    Each narrower variant gives the value of the wide one when it is in the
    range of its type and [-ERANGE] when it is not. *)
Theorem kstrtoll_and_narrow_correct s base :
  ok_base base -> cstr s -> short s ->
  (forall v, kstrtoll s base = inr v <-> signed_accepts base s v)
  /\ (kstrtoll s base = inl (- ERANGE) <-> signed_overflows base s)
  /\ (forall e, kstrtoll s base = inl e -> e = - ERANGE \/ e = - EINVAL)
  /\ kstrtoint s base = within (-2147483648) 2147483647 (kstrtoll s base)
  /\ kstrtos16 s base = within (-32768) 32767 (kstrtoll s base)
  /\ kstrtos8 s base = within (-128) 127 (kstrtoll s base)
  /\ kstrtouint s base = within 0 4294967295 (kstrtoull s base)
  /\ kstrtou16 s base = within 0 65535 (kstrtoull s base)
  /\ kstrtou8 s base = within 0 255 (kstrtoull s base).
Proof.
  intros Hb Hs Hsh. destruct (read_signed_spec s base Hb Hs Hsh) as [Ha Ho].
  rewrite <- kstrtoll_read in Ha, Ho by done. split; [done|]. split; [done|].
  split; [rewrite kstrtoll_read by done; apply read_signed_cases|]. split_and!; narrow_tac.
Qed.

(** "-128", "-0" and "256". *)
Lemma kstrtoll_and_narrow_correct_witness :
  kstrtoll [45; 49; 50; 56] 10 = inr (-128) /\ kstrtos8 [45; 49; 50; 56] 10 = inr (-128)
  /\ kstrtoll [45; 48] 10 = inl (- ERANGE) /\ kstrtou8 [50; 53; 54] 0 = inl (- ERANGE).
Proof.
  destruct (kstrtoll_and_narrow_correct [45; 49; 50; 56] 10) as (Ev & _ & _ & _ & _ & E8 & _);
    [right; lia|by repeat constructor|by vm_compute|].
  destruct (kstrtoll_and_narrow_correct [45; 48] 10) as (_ & E0 & _);
    [right; lia|by repeat constructor|by vm_compute|].
  destruct (kstrtoll_and_narrow_correct [50; 53; 54] 0) as (_ & _ & _ & _ & _ & _ & _ & _ & Eu);
    [by left|by repeat constructor|by vm_compute|].
  assert (E : kstrtoll [45; 49; 50; 56] 10 = inr (-128)).
  { apply Ev. split; [lia|]. split; [ulia|]. exists []. split; [|by left].
    exists 10, [49; 50; 56], [1; 2; 8]. split_and!; [by apply radix_given|digits_tac|done..]. }
  rewrite E8, Eu, E. split_and!; [done|done| |by vm_compute].
  apply E0. right. exists 0. split; [|by left]. split; [ulia|]. exists []. split; [|by left].
  exists 10, [48], [0]. split_and!; [by apply radix_given|digits_tac|done..].
Defined.

(** The text of a minus sign and a zero is in no range: it gives [-ERANGE],
    although zero is a value of every signed type. *)
Example kstrtoll_minus_zero : kstrtoll [45; 48] 10 = inl (- ERANGE) /\ kstrtoll [48] 10 = inr 0.
Proof. by vm_compute. Qed.

(** Both decimal conversions write, for every 64-bit number, exactly its
    digits in order of increasing significance and without leading zeros; in
    particular they agree with each other, and the digits have the value of
    the number. *)
Theorem put_dec_correct n :
  0 <= n <= U64_MAX ->
  put_dec n = dec n /\ put_dec_32 n = dec n /\ prints 10 0 n (dec n).
Proof.
  intros Hn. split_and!; [by apply put_dec_spec|by apply put_dec_32_spec|].
  apply dec_prints; [ulia|by left].
Qed.

Lemma put_dec_correct_witness :
  put_dec 18446744073709551615 = dec 18446744073709551615
  /\ put_dec_32 18446744073709551615 = dec 18446744073709551615.
Proof.
  split; apply (put_dec_correct 18446744073709551615); ulia.
Defined.

Lemma kstrtoull_padded k text n base :
  ok_base base -> cstr text -> short text -> c_at text 0 <> 43 -> isspace (c_at text 0) = false ->
  read_unsigned text base = inr n ->
  kstrtoull (skip_spaces (replicate k 32 ++ text)) base = inr n.
Proof.
  intros Hb Hc Hs Hp Hsp Hr. rewrite skip_spaces_pad.
  - unfold kstrtoull. rewrite (proj2 (Z.eqb_neq _ 43)) by done. by rewrite kstrtoull_read.
  - intros c E. unfold c_at in Hsp. by rewrite E in Hsp.
Qed.

(** The text of a number with its prefix, and how it is read. *)
Lemma read_prefixed b l n cs spec base0 :
  is_base b -> is_locase l -> 0 <= n <= U64_MAX -> prints b l n cs ->
  base spec = b -> Z.land (flags spec) SMALL = l -> (n = 0 -> cs = [48]) ->
  base0 = b \/ base0 = 0 /\ has (flags spec) SPECIAL = true ->
  read_unsigned (prefix_of spec n ++ reverse cs) base0 = inr n.
Proof.
  intros Hb Hl Hn Hp Eb El Hz Hb0. unfold prefix_of. rewrite Eb, El.
  destruct (has (flags spec) SPECIAL) eqn:Hsp; cbn [andb].
  2:{ destruct Hb0 as [-> | [_ ?]]; [|done]. by apply (read_bare b l n cs). }
  assert (H0 : base0 = 0 \/ base0 = b) by naive_solver.
  destruct (decide (n = 0)) as [->|Hne].
  - rewrite (Hz eq_refl) in *. destruct Hb as [-> | [-> | ->]]; cbn.
    + apply read_zero. lia.
    + apply read_zero. lia.
    + by apply (read_hex l 0 [48]).
  - rewrite (proj2 (Z.eqb_neq n 0)) by done. destruct Hb as [-> | [-> | ->]]; cbn.
    + apply (read_octal l); done || lia.
    + destruct H0 as [-> | ->]; [apply (read_decimal l); done || lia|].
      apply (read_bare 10 l n cs); try done. by right; left.
    + by apply read_hex.
Qed.

(** The first character printed is a digit. *)
Lemma prefixed_head b l n cs spec :
  is_base b -> is_locase l -> prints b l n cs ->
  let c := c_at (prefix_of spec n ++ reverse cs) 0 in c <> 43 /\ isspace c = false.
Proof.
  intros Hb Hl Hp. assert (Hd : exists d, 0 <= d < b
    /\ c_at (prefix_of spec n ++ reverse cs) 0 = digit_of l d \/ c_at (prefix_of spec n ++ reverse cs) 0 = 48).
  { unfold prefix_of. destruct (head_char b l n cs Hb Hl Hp) as (d & Ed & Hd & _). exists d.
    destruct (has _ _ && _); [|by left]. destruct (base spec =? 16); cbn; [by right|].
    destruct (n =? 0); cbn; [by left|by right]. }
  destruct Hd as (d & [[Hd ->] | ->]); [|done].
  split; [by apply (digit_of_byte b l d)|by apply (digit_not_space b)].
Qed.

Lemma prefix_cstr b spec n : is_base b -> base spec = b -> is_locase (Z.land (flags spec) SMALL) ->
  cstr (prefix_of spec n).
Proof.
  intros Hb Eb Hl. unfold prefix_of. rewrite Eb. destruct (has _ SPECIAL); [|constructor].
  destruct Hl as [-> | ->], Hb as [-> | [-> | ->]], (n =? 0); by repeat constructor.
Qed.

(** Text printed without precision and without the flags for signs, zeros and
    left adjustment. *)
Lemma printed_read n spec base0 :
  0 <= n <= U64_MAX -> is_base (base spec) -> plain (flags spec) ->
  is_locase (Z.land (flags spec) SMALL) -> -1 <= field_width spec <= 32767 -> precision spec = -1 ->
  base0 = base spec \/ base0 = 0 /\ has (flags spec) SPECIAL = true ->
  kstrtoull (skip_spaces (number n spec)) base0 = inr n.
Proof.
  intros Hn Hb Hpl Hl Hw Hpr Hb0. rewrite number_plain by (done || lia).
  set (b := base spec) in *. set (l := Z.land (flags spec) SMALL) in *.
  pose proof (number_digits_prints b l n Hb Hl Hn) as Hp.
  pose proof (length_number_digits b l n Hn) as Hlen. set (cs := number_digits b l n) in *.
  destruct (prefixed_head b l n cs spec Hb Hl Hp) as [H43 Hsp].
  apply kstrtoull_padded; [| | |done|done|].
  - unfold ok_base. unfold is_base in Hb. lia.
  - apply Forall_app. split; [by apply (prefix_cstr b)|by apply (prints_cstr b l n)].
  - unfold short. rewrite length_app, length_reverse. pose proof (prefix_short spec n).
    unfold KSTRTOX_OVERFLOW. lia.
  - apply (read_prefixed b l); try done. intros ->. subst cs.
    by destruct Hb as [-> | [-> | ->]], Hl as [-> | ->].
Qed.

(** C34. What [number] prints [kstrtoull] reads.  A 64-bit number printed in
    octal, decimal or hexadecimal, in either case and padded on the left with
    spaces to any width, is read back as the same number once the spaces are
    skipped: with its prefix ([SPECIAL]) both when the base is left to be
    detected and when it is given, and without a prefix when it is given.
    (Without precision, and without the flags [SIGN], [LEFT] and [ZEROPAD].) *)
Theorem number_kstrtoull_roundtrip n b small width :
  0 <= n <= U64_MAX -> is_base b -> -1 <= width <= 32767 ->
  let case := if small : bool then SMALL else 0 in
  let prefixed := number n (PSpec (SPECIAL + case) b width (-1)) in
  let bare := number n (PSpec case b width (-1)) in
  kstrtoull (skip_spaces prefixed) 0 = inr n
  /\ kstrtoull (skip_spaces prefixed) b = inr n
  /\ kstrtoull (skip_spaces bare) b = inr n.
Proof.
  intros Hn Hb Hw case prefixed bare.
  assert (is_locase (Z.land case SMALL) /\ is_locase (Z.land (SPECIAL + case) SMALL)
    /\ plain case /\ plain (SPECIAL + case) /\ has (SPECIAL + case) SPECIAL = true)
    as (? & ? & ? & ? & ?) by (unfold is_locase; destruct small; split_and!; auto; done).
  split_and!; apply printed_read; cbn; auto.
Qed.

Lemma number_kstrtoull_roundtrip_witness :
  kstrtoull (skip_spaces (number 48879 (PSpec (SPECIAL + SMALL) 16 12 (-1)))) 0 = inr 48879
  /\ kstrtoull (skip_spaces (number 48879 (PSpec SMALL 16 12 (-1)))) 16 = inr 48879
  /\ number 48879 (PSpec (SPECIAL + SMALL) 16 12 (-1))
     = [32; 32; 32; 32; 32; 32; 48; 120; 98; 101; 101; 102].
Proof.
  destruct (number_kstrtoull_roundtrip 48879 16 true 12) as (H0 & _ & Hb);
    [ulia|right; by right|lia|].
  split; [exact H0|]. split; [exact Hb|reflexivity].
Defined.
