(* ===== verification/UserNs.v ===== *)
(** * User namespaces and their id maps (kernel/user_namespace.c)

    A namespace translates the ids its processes see to kernel-wide ids by
    three maps of at most five extents.  A map is written once, as text,
    through /proc; what may be written is limited by the writer's privileges
    and by the map of the parent namespace. *)

From stdpp Require Import gmap.
From S2P Require Import Prelude CText Kstrtox Vsprintf.

(** ** Data *)

Definition UID_GID_MAP_MAX_EXTENTS : nat := 5.

Record uid_gid_extent := Extent {
  first : Z;
  lower_first : Z;
  count : Z
}.

#[global] Instance uid_gid_extent_eq_dec : EqDecision uid_gid_extent.
Proof. solve_decision. Defined.

(** The first [nr_extents] entries of [extent]. *)
Definition uid_gid_map := list uid_gid_extent.

Definition nr_extents (m : uid_gid_map) : nat := length m.

Definition USERNS_SETGROUPS_ALLOWED : Z := 1.

(** Namespaces live in a store and are named by the keys of it. *)
Abbreviation ns_ref := positive.

Record user_namespace := UserNs {
  uid_map : uid_gid_map;
  gid_map : uid_gid_map;
  projid_map : uid_gid_map;
  parent : option ns_ref;
  level : Z;
  owner : Z;
  group : Z;
  ns_flags : Z
}.

Abbreviation ns_store := (gmap ns_ref user_namespace).

(** kernel/user.c *)
Definition init_map : uid_gid_map := [Extent 0 0 4294967295].
Definition init_user_ns : user_namespace :=
  UserNs init_map init_map init_map None 0 0 0 USERNS_SETGROUPS_ALLOWED.

(** The credentials the namespace code reads and sets. *)
Record cred := Cred {
  euid : Z;
  egid : Z;
  fsuid : Z;
  fsgid : Z;
  cred_user_ns : ns_ref;
  groups : list Z;
  cap_permitted : Z;
  cap_effective : Z;
  cap_bset : Z;
  cap_inheritable : Z
}.

(** An open file of /proc/<pid>/{uid_map,gid_map,projid_map,setgroups}: the
    opener's credentials, the namespace of the opener ([seq_user_ns]) and the
    namespace the file belongs to ([seq->private]). *)
Record file := File {
  f_cred : cred;
  seq_user_ns : ns_ref;
  seq_private : ns_ref
}.

Inductive map_kind := UidMap | GidMap | ProjidMap.

Definition get_map (k : map_kind) (ns : user_namespace) : uid_gid_map :=
  match k with UidMap => uid_map ns | GidMap => gid_map ns | ProjidMap => projid_map ns end.

Definition set_map (k : map_kind) (m : uid_gid_map) (ns : user_namespace) : user_namespace :=
  match k with
  | UidMap => UserNs m (gid_map ns) (projid_map ns) (parent ns) (level ns) (owner ns) (group ns)
                (ns_flags ns)
  | GidMap => UserNs (uid_map ns) m (projid_map ns) (parent ns) (level ns) (owner ns) (group ns)
                (ns_flags ns)
  | ProjidMap => UserNs (uid_map ns) (gid_map ns) m (parent ns) (level ns) (owner ns) (group ns)
                   (ns_flags ns)
  end.

Definition set_ns_flags (f : Z) (ns : user_namespace) : user_namespace :=
  UserNs (uid_map ns) (gid_map ns) (projid_map ns) (parent ns) (level ns) (owner ns) (group ns) f.

(** ** Translating ids *)

(** [(u32) -1] *)
Definition INVALID_ID : Z := U32_MAX.

(** The extent at which one of the three search loops stops. *)
Fixpoint find_extent (hit : uid_gid_extent -> bool) (m : uid_gid_map) : option uid_gid_extent :=
  match m with
  | [] => None
  | e :: m => if hit e then Some e else find_extent hit m
  end.

Definition map_id_range_down (m : uid_gid_map) (id n : Z) : Z :=
  let id2 := u32 (id + n - 1) in
  let hit e :=
    let last := u32 (first e + count e - 1) in
    (id >=? first e) && (id <=? last) && ((id2 >=? first e) && (id2 <=? last)) in
  match find_extent hit m with
  | Some e => u32 (u32 (id - first e) + lower_first e)
  | None => INVALID_ID
  end.

Definition map_id_down (m : uid_gid_map) (id : Z) : Z :=
  let hit e := (id >=? first e) && (id <=? u32 (first e + count e - 1)) in
  match find_extent hit m with
  | Some e => u32 (u32 (id - first e) + lower_first e)
  | None => INVALID_ID
  end.

Definition map_id_up (m : uid_gid_map) (id : Z) : Z :=
  let hit e := (id >=? lower_first e) && (id <=? u32 (lower_first e + count e - 1)) in
  match find_extent hit m with
  | Some e => u32 (u32 (id - lower_first e) + first e)
  | None => INVALID_ID
  end.

Definition make_kuid (ns : user_namespace) (uid : Z) : Z := map_id_down (uid_map ns) uid.
Definition from_kuid (targ : user_namespace) (kuid : Z) : Z := map_id_up (uid_map targ) kuid.
Definition make_kgid (ns : user_namespace) (gid : Z) : Z := map_id_down (gid_map ns) gid.
Definition from_kgid (targ : user_namespace) (kgid : Z) : Z := map_id_up (gid_map targ) kgid.
Definition make_kprojid (ns : user_namespace) (projid : Z) : Z := map_id_down (projid_map ns) projid.
Definition from_kprojid (targ : user_namespace) (kprojid : Z) : Z :=
  map_id_up (projid_map targ) kprojid.

Definition munge (overflow id : Z) : Z := if id =? INVALID_ID then overflow else id.
Definition from_kuid_munged (overflowuid : Z) (targ : user_namespace) (kuid : Z) : Z :=
  munge overflowuid (from_kuid targ kuid).
Definition from_kgid_munged (overflowgid : Z) (targ : user_namespace) (kgid : Z) : Z :=
  munge overflowgid (from_kgid targ kgid).

Definition kuid_has_mapping (ns : user_namespace) (uid : Z) : bool :=
  negb (from_kuid ns uid =? INVALID_ID).
Definition kgid_has_mapping (ns : user_namespace) (gid : Z) : bool :=
  negb (from_kgid ns gid =? INVALID_ID).

(** ** Parsing a map *)

Definition mappings_overlap_one (prev extent : uid_gid_extent) : bool :=
  let upper_last := u32 (first extent + count extent - 1) in
  let lower_last := u32 (lower_first extent + count extent - 1) in
  let prev_upper_last := u32 (first prev + count prev - 1) in
  let prev_lower_last := u32 (lower_first prev + count prev - 1) in
  ((first prev <=? upper_last) && (prev_upper_last >=? first extent))
  || ((lower_first prev <=? lower_last) && (prev_lower_last >=? lower_first extent)).

Definition mappings_overlap (new_map : uid_gid_map) (extent : uid_gid_extent) : bool :=
  existsb (fun prev => mappings_overlap_one prev extent) new_map.

(** One line, from the first [skip_spaces] to the test for trailing junk; None
    stands for [goto out]. *)
Definition parse_extent_line (line : list Z) : option uid_gid_extent :=
  let pos := skip_spaces line in
  let '(f, pos) := simple_strtoul pos 10 in
  if negb (isspace (c_at pos 0)) then None
  else
    let pos := skip_spaces pos in
    let '(l, pos) := simple_strtoul pos 10 in
    if negb (isspace (c_at pos 0)) then None
    else
      let pos := skip_spaces pos in
      let '(c, pos) := simple_strtoul pos 10 in
      if negb (c_at pos 0 =? 0) && negb (isspace (c_at pos 0)) then None
      else
        let pos := skip_spaces pos in
        if negb (c_at pos 0 =? 0) then None
        else Some (Extent (u32 f) (u32 l) (u32 c)).

(** The checks on the values of an extent. *)
Definition extent_values_ok (e : uid_gid_extent) : bool :=
  negb ((first e =? INVALID_ID) || (lower_first e =? INVALID_ID))
  && negb (u32 (first e + count e) <=? first e)
  && negb (u32 (lower_first e + count e) <=? lower_first e).

(** [pos] up to the newline, and [next_line]. *)
Fixpoint split_line (pos : list Z) : list Z * option (list Z) :=
  match pos with
  | [] => ([], None)
  | c :: pos' =>
      if c =? 10 then ([], match pos' with [] => None | _ => Some pos' end)
      else let '(line, next) := split_line pos' in (c :: line, next)
  end.

(** [for (; pos; pos = next_line)]; None stands for [goto out]. *)
Fixpoint parse_map_loop (fuel : nat) (pos : option (list Z)) (new_map : uid_gid_map)
    : option uid_gid_map :=
  match pos with
  | None => Some new_map
  | Some text =>
    match fuel with
    | O => None
    | S fuel =>
      let '(line, next_line) := split_line text in
      match parse_extent_line line with
      | None => None
      | Some extent =>
          if negb (extent_values_ok extent) then None
          else if mappings_overlap new_map extent then None
          else
            let new_map := new_map ++ [extent] in
            if (nr_extents new_map =? UID_GID_MAP_MAX_EXTENTS)%nat
               && match next_line with Some _ => true | None => false end
            then None
            else parse_map_loop fuel next_line new_map
      end
    end
  end.

(** Every line adds an extent and the loop gives up on a line after the fifth. *)
Definition parse_map (kbuf : list Z) : option uid_gid_map := parse_map_loop 6 (Some kbuf) [].

(** The bytes of [kbuf] before its first NUL. *)
Fixpoint until_nul (bytes : list Z) : list Z :=
  match bytes with
  | [] => []
  | c :: bytes => if c =? 0 then [] else c :: until_nul bytes
  end.

(** ** Writing a map *)

(** Capability numbers of the Linux ABI. *)
Definition CAP_SETGID : Z := 6.
Definition CAP_SETUID : Z := 7.
Definition CAP_SYS_ADMIN : Z := 21.
Definition CAP_LAST_CAP : Z := 37.
Definition cap_valid (x : Z) : bool := (x >=? 0) && (x <=? CAP_LAST_CAP).

(** The security module decides whether credentials have a capability in a
    namespace; it is not part of the tree, and the size of a page is a choice
    of the architecture. *)
Class SecurityModule := {
  security_capable : ns_store -> cred -> ns_ref -> Z -> bool;
  page_bytes : Z
}.

(** What the rest of the system answers during a write: whether a page is
    available, the bytes found at the user's address (None for a fault), and
    [*ppos]. *)
Record write_request := Write_ {
  page_available : bool;
  user_bytes : option (list Z);
  wr_count : Z;
  wr_ppos : Z
}.

Section Operations.
Context `{SecurityModule}.

(** kernel/capability.c; [current] is the writer's credentials. *)
Definition ns_capable (st : ns_store) (current : cred) (ns : ns_ref) (cap : Z) : outcome bool :=
  if negb (cap_valid cap) then Bug else Ok (security_capable st current ns cap).

Definition file_ns_capable (st : ns_store) (f : file) (ns : ns_ref) (cap : Z) : bool :=
  if negb (cap_valid cap) then false else security_capable st (f_cred f) ns cap.

Definition new_idmap_permitted (st : ns_store) (current : cred) (f : file)
    (ns : user_namespace) (pref : ns_ref) (pns : user_namespace) (cap_setid : Z)
    (new_map : uid_gid_map) : outcome bool :=
  let c := f_cred f in
  let own :=
    match new_map with
    | [e] =>
        if (count e =? 1) && (owner ns =? euid c) then
          let id := lower_first e in
          if cap_setid =? CAP_SETUID then make_kuid pns id =? euid c
          else if cap_setid =? CAP_SETGID then
            (Z.land (ns_flags ns) USERNS_SETGROUPS_ALLOWED =? 0) && (make_kgid pns id =? egid c)
          else false
        else false
    | _ => false
    end in
  if own then Ok true
  else if negb (cap_valid cap_setid) then Ok true
  else
    let! capable := ns_capable st current pref cap_setid in
    Ok (capable && file_ns_capable st f pref cap_setid).

(** The loop that maps the lower ids to kernel ids; None stands for [goto out]. *)
Fixpoint map_lower_ids (parent_map new_map : uid_gid_map) : option uid_gid_map :=
  match new_map with
  | [] => Some []
  | e :: rest =>
      let lf := map_id_range_down parent_map (lower_first e) (count e) in
      if lf =? INVALID_ID then None
      else
        match map_lower_ids parent_map rest with
        | None => None
        | Some rest => Some (Extent (first e) lf (count e) :: rest)
        end
  end.

(** The return value and the new store. *)
Definition map_write (st : ns_store) (current : cred) (f : file) (k : map_kind)
    (pref : ns_ref) (cap_setid : Z) (w : write_request) : outcome (Z * ns_store) :=
  match st !! seq_private f, st !! pref with
  | Some ns, Some pns =>
      if negb (nr_extents (get_map k ns) =? 0)%nat then Ok (- EPERM, st)
      else if cap_valid cap_setid && negb (file_ns_capable st f (seq_private f) CAP_SYS_ADMIN)
      then Ok (- EPERM, st)
      else if negb (page_available w) then Ok (- ENOMEM, st)
      else if negb (wr_ppos w =? 0) || (wr_count w >=? page_bytes) then Ok (- EINVAL, st)
      else
        match user_bytes w with
        | None => Ok (- EFAULT, st)
        | Some bytes =>
            match parse_map (until_nul bytes) with
            | None => Ok (- EINVAL, st)
            | Some new_map =>
                let! permitted := new_idmap_permitted st current f ns pref pns cap_setid new_map in
                if negb permitted then Ok (- EPERM, st)
                else
                  match map_lower_ids (get_map k pns) new_map with
                  | None => Ok (- EPERM, st)
                  | Some m => Ok (wr_count w, <[seq_private f := set_map k m ns]> st)
                  end
            end
        end
  | _, _ => Bug
  end.

Definition cap_setid_of (k : map_kind) : Z :=
  match k with UidMap => CAP_SETUID | GidMap => CAP_SETGID | ProjidMap => -1 end.

(** [proc_uid_map_write], [proc_gid_map_write] and [proc_projid_map_write]. *)
Definition proc_map_write (k : map_kind) (st : ns_store) (current : cred) (f : file)
    (w : write_request) : outcome (Z * ns_store) :=
  match st !! seq_private f with
  | None => Bug
  | Some ns =>
      match parent ns with
      | None => Ok (- EPERM, st)
      | Some p =>
          if negb (bool_decide (seq_user_ns f = seq_private f))
             && negb (bool_decide (seq_user_ns f = p))
          then Ok (- EPERM, st)
          else map_write st current f k p (cap_setid_of k) w
      end
  end.

Definition proc_uid_map_write := proc_map_write UidMap.
Definition proc_gid_map_write := proc_map_write GidMap.
Definition proc_projid_map_write := proc_map_write ProjidMap.

(** ** Showing a map *)

(** The namespace the lower ids are shown in. *)
Definition show_lower_ns (st : ns_store) (f : file) : ns_ref :=
  match st !! seq_user_ns f with
  | Some ns =>
      if bool_decide (seq_user_ns f = seq_private f) then default (seq_user_ns f) (parent ns)
      else seq_user_ns f
  | None => seq_user_ns f
  end.

(** [seq_printf(seq, "%10u %10u %10u\n", ...)] *)
Definition print_extent (f l c : Z) : list Z :=
  let spec := PSpec 0 10 10 (-1) in
  number f spec ++ [32] ++ number l spec ++ [32] ++ number c spec ++ [10].

(** [uid_m_show], [gid_m_show] and [projid_m_show]. *)
Definition m_show (k : map_kind) (st : ns_store) (f : file) (e : uid_gid_extent) : list Z :=
  match st !! show_lower_ns st f with
  | Some lower_ns => print_extent (first e) (map_id_up (get_map k lower_ns) (lower_first e)) (count e)
  | None => []
  end.

(** What reading the file from its start to its end gives. *)
Definition show_map (k : map_kind) (st : ns_store) (f : file) : list Z :=
  match st !! seq_private f with
  | Some ns => mjoin (m_show k st f <$> get_map k ns)
  | None => []
  end.

(** ** /proc/<pid>/setgroups *)

Definition text_allow : list Z := [97; 108; 108; 111; 119].
Definition text_deny : list Z := [100; 101; 110; 121].

Definition proc_setgroups_write (st : ns_store) (f : file) (w : write_request)
    : outcome (Z * ns_store) :=
  match st !! seq_private f with
  | None => Bug
  | Some ns =>
      if negb (wr_ppos w =? 0) || (wr_count w >=? 8) then Ok (- EINVAL, st)
      else
        match user_bytes w with
        | None => Ok (- EFAULT, st)
        | Some bytes =>
            let kbuf := until_nul bytes in
            let request :=
              if strncmp kbuf text_allow 5 =? 0 then Some (true, drop 5 kbuf)
              else if strncmp kbuf text_deny 4 =? 0 then Some (false, drop 4 kbuf)
              else None in
            match request with
            | None => Ok (- EINVAL, st)
            | Some (setgroups_allowed, pos) =>
                if negb (c_at (skip_spaces pos) 0 =? 0) then Ok (- EINVAL, st)
                else if setgroups_allowed : bool then
                  if Z.land (ns_flags ns) USERNS_SETGROUPS_ALLOWED =? 0 then Ok (- EPERM, st)
                  else Ok (wr_count w, st)
                else if negb (nr_extents (gid_map ns) =? 0)%nat then Ok (- EPERM, st)
                else
                  Ok (wr_count w,
                      <[seq_private f :=
                          set_ns_flags (Z.land (ns_flags ns) (Z.lnot USERNS_SETGROUPS_ALLOWED)) ns]> st)
            end
        end
  end.

Definition userns_may_setgroups (ns : user_namespace) : bool :=
  negb (nr_extents (gid_map ns) =? 0)%nat
  && negb (Z.land (ns_flags ns) USERNS_SETGROUPS_ALLOWED =? 0).

(** ** Creating a namespace *)

Definition CAP_FULL_SET : Z := Z.ones (CAP_LAST_CAP + 1).

Definition set_cred_user_ns (c : cred) (ns : ns_ref) : cred :=
  Cred (euid c) (egid c) (fsuid c) (fsgid c) ns (groups c) CAP_FULL_SET CAP_FULL_SET CAP_FULL_SET 0.

(** [chrooted], [ns_alloc] (the object, None when memory is short) and
    [inum_error] are the answers of [current_chrooted], the allocator and
    [proc_alloc_inum].  The return value, the credentials and the store. *)
Definition create_user_ns (st : ns_store) (new : cred) (chrooted : bool)
    (ns_alloc : option ns_ref) (inum_error : Z) : outcome (Z * cred * ns_store) :=
  match st !! cred_user_ns new with
  | None => Bug
  | Some parent_ns =>
      if level parent_ns >? 32 then Ok (- EUSERS, new, st)
      else if chrooted then Ok (- EPERM, new, st)
      else if negb (kuid_has_mapping parent_ns (euid new))
              || negb (kgid_has_mapping parent_ns (egid new))
      then Ok (- EPERM, new, st)
      else
        match ns_alloc with
        | None => Ok (- ENOMEM, new, st)
        | Some r =>
            if negb (inum_error =? 0) then Ok (inum_error, new, st)
            else
              let ns := UserNs [] [] [] (Some (cred_user_ns new)) (level parent_ns + 1)
                          (euid new) (egid new) (ns_flags parent_ns) in
              Ok (0, set_cred_user_ns new r, <[r := ns]> st)
        end
  end.

End Operations.
