(* ===== verification/UserNsFacts.v ===== *)
(** * Facts about id maps

    A well-formed map is a partial injection from ids to kernel ids.  Parsing
    only lets well-formed maps through, and mapping the lower ids through the
    parent gives the composition of the two maps, which is well-formed again. *)

From stdpp Require Import gmap.
From S2P Require Import Prelude CText Kstrtox Vsprintf VsprintfFacts UserNs.

(** ** Well-formed maps *)

Record valid_extent (e : uid_gid_extent) : Prop := {
  ve_first : 0 <= first e;
  ve_lower : 0 <= lower_first e;
  ve_count : 0 < count e;
  ve_upper_end : first e + count e <= U32_MAX;
  ve_lower_end : lower_first e + count e <= U32_MAX
}.

Definition apart (e1 e2 : uid_gid_extent) : Prop :=
  (first e1 + count e1 <= first e2 \/ first e2 + count e2 <= first e1)
  /\ (lower_first e1 + count e1 <= lower_first e2 \/ lower_first e2 + count e2 <= lower_first e1).

Record wf_map (m : uid_gid_map) : Prop := {
  wm_valid : Forall valid_extent m;
  wm_apart : StronglySorted apart m;
  wm_size : (nr_extents m <= UID_GID_MAP_MAX_EXTENTS)%nat
}.

(** The relation a map denotes. *)
Definition maps (m : uid_gid_map) (id k : Z) : Prop :=
  exists e, e ∈ m /\ first e <= id < first e + count e /\ k = id - first e + lower_first e.

Lemma apart_sym e1 e2 : apart e1 e2 -> apart e2 e1.
Proof. unfold apart. lia. Qed.

Lemma wf_apart m e1 e2 : wf_map m -> e1 ∈ m -> e2 ∈ m -> e1 = e2 \/ apart e1 e2.
Proof.
  intros [_ Hs _]. induction Hs as [|e m Hs IH He]; [set_solver|].
  rewrite Forall_forall in He.
  intros [->|H1]%elem_of_cons [->|H2]%elem_of_cons; [by left|right; auto..|auto].
  by apply apart_sym, He.
Qed.

Lemma valid_ranges e : valid_extent e ->
  u32 (first e + count e - 1) = first e + count e - 1
  /\ u32 (lower_first e + count e - 1) = lower_first e + count e - 1.
Proof. intros []. split; apply u32_id; lia. Qed.

Lemma find_extent_Some hit m e : find_extent hit m = Some e -> e ∈ m /\ hit e = true.
Proof.
  induction m as [|x m IH]; [done|]. cbn. destruct (hit x) eqn:E.
  - intros [= <-]. set_solver.
  - intros [??]%IH. set_solver.
Qed.

Lemma find_extent_None hit m : find_extent hit m = None -> forall e, e ∈ m -> hit e = false.
Proof.
  induction m as [|x m IH]; [set_solver|]. cbn. destruct (hit x) eqn:E; [done|].
  intros Hn e [->|?]%elem_of_cons; auto.
Qed.

Section Translate.
Variable m : uid_gid_map.
Hypothesis Hwf : wf_map m.

Lemma in_valid e : e ∈ m -> valid_extent e.
Proof. destruct Hwf as [Hv _ _]. by apply Forall_forall. Qed.

Lemma maps_range id k : maps m id k -> 0 <= id < U32_MAX /\ 0 <= k < U32_MAX.
Proof. intros (e & He & Hid & ->). destruct (in_valid e He). lia. Qed.

Lemma maps_fun id k1 k2 : maps m id k1 -> maps m id k2 -> k1 = k2.
Proof.
  intros (e1 & H1 & R1 & ->) (e2 & H2 & R2 & ->).
  destruct (wf_apart m e1 e2 Hwf H1 H2) as [->|[Hu _]]; [done|lia].
Qed.

Lemma maps_inj id1 id2 k : maps m id1 k -> maps m id2 k -> id1 = id2.
Proof.
  intros (e1 & H1 & R1 & E1) (e2 & H2 & R2 & E2).
  destruct (wf_apart m e1 e2 Hwf H1 H2) as [->|[_ Hl]]; lia.
Qed.

Lemma map_id_down_spec id :
  0 <= id <= U32_MAX ->
  (map_id_down m id <> INVALID_ID /\ maps m id (map_id_down m id))
  \/ (map_id_down m id = INVALID_ID /\ forall k, ~ maps m id k).
Proof.
  intros Hid. unfold map_id_down.
  destruct (find_extent _ m) as [e|] eqn:E.
  - left. apply find_extent_Some in E as [He Hh]. pose proof (in_valid e He) as Hv.
    destruct (valid_ranges e Hv) as [Hu _]. rewrite Hu in Hh. destruct Hv. zbool.
    rewrite !u32_id by (rewrite ?u32_id; ulia). unfold INVALID_ID.
    split; [lia|]. exists e. split; [done|lia].
  - right. split; [done|]. intros k (e & He & Hr & _).
    pose proof (find_extent_None _ _ E e He) as Hh. cbn in Hh.
    destruct (valid_ranges e (in_valid e He)) as [Hu _]. rewrite Hu in Hh. zbool. lia.
Qed.

Lemma map_id_up_spec k :
  0 <= k <= U32_MAX ->
  (map_id_up m k <> INVALID_ID /\ maps m (map_id_up m k) k)
  \/ (map_id_up m k = INVALID_ID /\ forall id, ~ maps m id k).
Proof.
  intros Hk. unfold map_id_up.
  destruct (find_extent _ m) as [e|] eqn:E.
  - left. apply find_extent_Some in E as [He Hh]. pose proof (in_valid e He) as Hv.
    destruct (valid_ranges e Hv) as [_ Hl]. rewrite Hl in Hh. destruct Hv. zbool.
    rewrite !u32_id by (rewrite ?u32_id; ulia). unfold INVALID_ID.
    split; [lia|]. exists e. split; [done|lia].
  - right. split; [done|]. intros id (e & He & Hr & Ek).
    pose proof (find_extent_None _ _ E e He) as Hh. cbn in Hh.
    destruct (valid_ranges e (in_valid e He)) as [_ Hl]. rewrite Hl in Hh. zbool. lia.
Qed.

Lemma map_id_down_iff id k :
  0 <= id <= U32_MAX -> map_id_down m id = k /\ k <> INVALID_ID <-> maps m id k.
Proof.
  intros Hid. destruct (map_id_down_spec id Hid) as [[Hn Hm]|[E Hno]]; split.
  - intros [<- _]. done.
  - intros Hk. rewrite (maps_fun id k (map_id_down m id)) by done. done.
  - intros [<- ?]. done.
  - intros Hk. by apply Hno in Hk.
Qed.

Lemma map_id_up_iff id k :
  0 <= k <= U32_MAX -> map_id_up m k = id /\ id <> INVALID_ID <-> maps m id k.
Proof.
  intros Hk. destruct (map_id_up_spec k Hk) as [[Hn Hm]|[E Hno]]; split.
  - intros [<- _]. done.
  - intros Hi. rewrite (maps_inj id (map_id_up m k) k) by done. done.
  - intros [<- ?]. done.
  - intros Hi. by apply Hno in Hi.
Qed.

(** A range that is mapped is mapped inside one extent. *)
Lemma map_id_range_down_spec id n :
  0 <= id -> 0 < n -> id + n <= U32_MAX -> map_id_range_down m id n <> INVALID_ID ->
  exists p, p ∈ m /\ first p <= id /\ id + n <= first p + count p
    /\ map_id_range_down m id n = id - first p + lower_first p.
Proof.
  intros Hid Hn Hend. unfold map_id_range_down. rewrite (u32_id (id + n - 1)) by ulia.
  destruct (find_extent _ m) as [p|] eqn:E; [|done]. intros _.
  apply find_extent_Some in E as [Hp Hh]. pose proof (in_valid p Hp) as Hv.
  destruct (valid_ranges p Hv) as [Hu _]. rewrite Hu in Hh. destruct Hv. zbool.
  exists p. split; [done|]. rewrite !u32_id by (rewrite ?u32_id; ulia). lia.
Qed.

End Translate.

(** ** Composition with the parent's map *)

(** An extent and what becomes of it: the same ids, lower ids moved as one
    block into one extent of the parent. *)
Definition relocated (pm : uid_gid_map) (e e' : uid_gid_extent) : Prop :=
  first e' = first e /\ count e' = count e /\
  exists p, p ∈ pm /\ first p <= lower_first e
    /\ lower_first e + count e <= first p + count p
    /\ lower_first e' = lower_first e - first p + lower_first p.

Section Compose.
Variable pm : uid_gid_map.
Hypothesis Hpm : wf_map pm.

Lemma map_lower_ids_relocated m m' :
  Forall valid_extent m -> map_lower_ids pm m = Some m' -> Forall2 (relocated pm) m m'.
Proof.
  intros Hv. revert m'. induction Hv as [|e m He _ IH]; intros m'; cbn.
  - intros [= <-]. constructor.
  - case_if; [done|]. destruct (map_lower_ids pm m) as [r|]; [|done]. intros [= <-].
    constructor; [|by apply IH]. destruct He. split_and!; [done|done|].
    destruct (map_id_range_down_spec pm Hpm (lower_first e) (count e))
      as (p & Hp & Hlo & Hhi & Hr); try done. by exists p.
Qed.

Lemma relocated_valid e e' : valid_extent e -> relocated pm e e' -> valid_extent e'.
Proof.
  intros [] (Ef & Ec & p & Hp & Hlo & Hhi & El). destruct (in_valid pm Hpm p Hp).
  split; lia.
Qed.

Lemma relocated_apart e1 e1' e2 e2' :
  relocated pm e1 e1' -> relocated pm e2 e2' -> apart e1 e2 -> apart e1' e2'.
Proof.
  intros (Ef1 & Ec1 & p1 & Hp1 & Hlo1 & Hhi1 & El1) (Ef2 & Ec2 & p2 & Hp2 & Hlo2 & Hhi2 & El2) [Hu Hl].
  split; [lia|]. destruct (wf_apart pm p1 p2 Hpm Hp1 Hp2) as [->|[_ Ha]]; lia.
Qed.

Lemma relocated_wf m m' : wf_map m -> Forall2 (relocated pm) m m' -> wf_map m'.
Proof.
  intros [Hv Hs Hn] Hr. split.
  - clear Hs Hn. revert Hv. induction Hr; [done|].
    intros [? ?]%Forall_cons. constructor; eauto using relocated_valid.
  - clear Hv Hn. revert Hs. induction Hr as [|e e' m m' He Hr IH]; [done|].
    intros [Hs Hh]%StronglySorted_inv. constructor; [by apply IH|].
    clear IH Hs. induction Hr as [|x x' m m' Hx Hr IH]; [done|].
    apply Forall_cons in Hh as [Hax Hh]. constructor; [|by apply IH].
    by apply (relocated_apart e e' x x').
  - unfold nr_extents in *. by rewrite <- (Forall2_length _ _ _ Hr).
Qed.

(** The installed map is the composition of the two. *)
Lemma relocated_maps m m' id k :
  Forall valid_extent m -> Forall2 (relocated pm) m m' ->
  maps m' id k <-> exists mid, maps m id mid /\ maps pm mid k.
Proof.
  intros Hv Hr. split.
  - intros (e' & He' & Hid & ->). apply list_elem_of_lookup in He' as [i Hi].
    destruct (Forall2_lookup_r _ _ _ _ _ Hr Hi) as (e & Hei & Ef & Ec & p & Hp & ? & ? & El).
    exists (id - first e + lower_first e). split.
    + exists e. split; [by eapply list_elem_of_lookup_2|lia].
    + exists p. split; [done|lia].
  - intros (mid & (e & He & Hid & ->) & (q & Hq & Hmid & ->)).
    apply list_elem_of_lookup in He as [i Hi].
    destruct (Forall2_lookup_l _ _ _ _ _ Hr Hi) as (e' & Hei' & Ef & Ec & p & Hp & ? & ? & El).
    destruct (wf_apart pm p q Hpm Hp Hq) as [<-|[Ha _]]; [|lia].
    exists e'. split; [by eapply list_elem_of_lookup_2|lia].
Qed.

Lemma relocated_range_down e e' :
  valid_extent e -> relocated pm e e' ->
  map_id_range_down pm (lower_first e) (count e) = lower_first e'
  /\ map_id_up pm (lower_first e') = lower_first e.
Proof.
  intros He (Ef & Ec & p & Hp & Hlo & Hhi & El). destruct (in_valid pm Hpm p Hp), He.
  assert (Hm : maps pm (lower_first e) (lower_first e')) by (exists p; split; [done|lia]).
  split.
  - destruct (decide (map_id_range_down pm (lower_first e) (count e) = INVALID_ID)) as [En|Hn].
    + exfalso. unfold map_id_range_down in En. rewrite (u32_id (_ + _ - 1)) in En by ulia.
      destruct (find_extent _ pm) as [q|] eqn:Eq.
      * apply find_extent_Some in Eq as [Hq Hh].
        destruct (in_valid pm Hpm q Hq), (valid_ranges q (in_valid pm Hpm q Hq)) as [Hu _].
        rewrite Hu in Hh. zbool. rewrite !u32_id in En by (rewrite ?u32_id; ulia).
        unfold INVALID_ID in En. lia.
      * pose proof (find_extent_None _ _ Eq p Hp) as Hh. cbn in Hh.
        destruct (valid_ranges p (in_valid pm Hpm p Hp)) as [Hu _]. rewrite Hu in Hh. zbool. lia.
    + destruct (map_id_range_down_spec pm Hpm (lower_first e) (count e))
        as (q & Hq & ? & ? & ->); try done.
      destruct (wf_apart pm p q Hpm Hp Hq) as [<-|[Ha _]]; [lia|lia].
  - apply (map_id_up_iff pm Hpm (lower_first e) (lower_first e')); [ulia|done].
Qed.

Lemma relocated_map_lower_ids m m' :
  Forall valid_extent m -> Forall2 (relocated pm) m m' -> map_lower_ids pm m = Some m'.
Proof.
  intros Hv Hr. revert Hv. induction Hr as [|e e' m m' He Hr IH]; [done|].
  intros [Hve Hv]%Forall_cons. cbn. destruct (relocated_range_down e e' Hve He) as [-> _].
  pose proof (relocated_valid e e' Hve He) as [].
  rewrite (proj2 (Z.eqb_neq (lower_first e') INVALID_ID)) by (unfold INVALID_ID; lia).
  rewrite IH by done. destruct He as (<- & <- & _). by destruct e'.
Qed.

(** Shown in the parent's ids, the composed map is the one that was written. *)
Lemma relocated_shown m m' :
  Forall valid_extent m -> Forall2 (relocated pm) m m' ->
  (fun e => print_extent (first e) (map_id_up pm (lower_first e)) (count e)) <$> m'
  = (fun e => print_extent (first e) (lower_first e) (count e)) <$> m.
Proof.
  intros Hv Hr. revert Hv. induction Hr as [|e e' m m' He Hr IH]; [done|].
  intros [Hve Hv]%Forall_cons. rewrite !fmap_cons. f_equal; [|by apply IH].
  destruct (relocated_range_down e e' Hve He) as [_ ->]. by destruct He as (-> & -> & _).
Qed.

End Compose.

(** ** What parsing lets through *)

Definition extent_u32 (e : uid_gid_extent) : Prop :=
  is_u32 (first e) /\ is_u32 (lower_first e) /\ is_u32 (count e).

Lemma u32_add_le a c : is_u32 a -> is_u32 c ->
  (u32 (a + c) <=? a) = negb ((0 <? c) && (a + c <=? U32_MAX)).
Proof.
  intros Ha Hc. destruct (Z.le_gt_cases (a + c) U32_MAX).
  - rewrite u32_id by ulia. destruct (0 <? c) eqn:E; zbool; cbn [andb negb].
    + rewrite (proj2 (Z.leb_le (a + c) U32_MAX)) by lia. apply Z.leb_gt. lia.
    + apply Z.leb_le. lia.
  - assert (u32 (a + c) = a + c - 4294967296) as ->.
    { unfold u32. symmetry. apply (Z.mod_unique _ _ 1); ulia. }
    rewrite (proj2 (Z.leb_gt (a + c) U32_MAX)), andb_false_r by lia. apply Z.leb_le. ulia.
Qed.

Lemma extent_values_ok_spec e :
  extent_u32 e -> extent_values_ok e = true <-> valid_extent e.
Proof.
  intros (Hf & Hl & Hc). unfold extent_values_ok. rewrite !u32_add_le by done.
  unfold INVALID_ID. rewrite !andb_true_iff, !negb_true_iff, orb_false_iff,
    !negb_false_iff, !andb_true_iff, !Z.ltb_lt, !Z.leb_le, !Z.eqb_neq.
  split.
  - intros [[_ [? ?]] [? ?]]. split; ulia.
  - intros []. ulia.
Qed.

Lemma overlap_one_spec e1 e2 :
  valid_extent e1 -> valid_extent e2 -> mappings_overlap_one e1 e2 = false <-> apart e1 e2.
Proof.
  intros H1 H2. unfold mappings_overlap_one, apart.
  destruct (valid_ranges e1 H1) as [-> ->], (valid_ranges e2 H2) as [-> ->].
  rewrite orb_false_iff, !andb_false_iff, !Z.leb_gt, !Z.geb_leb, !Z.leb_gt. lia.
Qed.

Lemma overlap_spec m e :
  Forall valid_extent m -> valid_extent e ->
  mappings_overlap m e = false <-> Forall (fun p => apart p e) m.
Proof.
  intros Hm He. unfold mappings_overlap. induction Hm as [|p m Hp Hm IH]; cbn; [by split|].
  rewrite orb_false_iff, overlap_one_spec, IH by done. by rewrite Forall_cons.
Qed.

Lemma StronglySorted_snoc {A} (R : A -> A -> Prop) l x :
  StronglySorted R l -> Forall (fun y => R y x) l -> StronglySorted R (l ++ [x]).
Proof.
  induction 1 as [|y l Hs IH Hy]; cbn; [by repeat constructor|].
  intros [? ?]%Forall_cons. constructor; [by apply IH|].
  apply Forall_app. by split; [|constructor].
Qed.

Lemma parse_extent_line_u32 line e : parse_extent_line line = Some e -> extent_u32 e.
Proof.
  assert (Hu : forall x, is_u32 (u32 x)).
  { intros x. unfold is_u32, u32. pose proof (Z.mod_pos_bound x (U32_MAX + 1)). ulia. }
  unfold parse_extent_line. repeat (destruct (simple_strtoul _ _); case_if; [done|]).
  case_if; [done|]. intros [= <-]. by split_and!; cbn.
Qed.

Lemma parse_map_loop_wf fuel pos m m' :
  wf_map m -> (pos = None -> (0 < nr_extents m)%nat) ->
  (pos <> None -> (nr_extents m < UID_GID_MAP_MAX_EXTENTS)%nat) ->
  parse_map_loop fuel pos m = Some m' -> wf_map m' /\ (0 < nr_extents m')%nat.
Proof.
  revert pos m; induction fuel as [|fuel IH]; intros [text|] m Hwf Hne Hmax; cbn [parse_map_loop];
    try done; try (intros [= <-]; auto).
  destruct (split_line text) as [line next_line].
  destruct (parse_extent_line line) as [e|] eqn:El; [|done].
  case_if; [done|]. zbool. rename E into Hok.
  destruct (mappings_overlap m e) eqn:Eo; [done|]. specialize (Hmax ltac:(done)).
  apply extent_values_ok_spec in Hok; [|by eapply parse_extent_line_u32].
  destruct Hwf as [Hv Hs Hn]. apply overlap_spec in Eo; [|done..].
  assert (Hwf' : wf_map (m ++ [e])).
  { split.
    - apply Forall_app. by split; [|constructor].
    - by apply StronglySorted_snoc.
    - unfold nr_extents in *. rewrite length_app. cbn. lia. }
  destruct (_ && _) eqn:E5; [done|]. apply IH; [done|..]; unfold nr_extents in *;
    rewrite length_app in *; cbn in *; [lia|].
  intros Hnl. destruct next_line; [|done]. rewrite andb_true_r in E5. apply Nat.eqb_neq in E5. lia.
Qed.

Lemma parse_map_wf kbuf m : parse_map kbuf = Some m -> wf_map m /\ (0 < nr_extents m)%nat.
Proof.
  apply parse_map_loop_wf; [split; [constructor..|unfold nr_extents, UID_GID_MAP_MAX_EXTENTS; cbn; lia]|done|].
  intros _. unfold nr_extents, UID_GID_MAP_MAX_EXTENTS. cbn. lia.
Qed.

(** The fuel of [parse_map] is enough: the loop stops on its own. *)
Lemma parse_map_loop_fuel fuel extra pos m :
  (nr_extents m < UID_GID_MAP_MAX_EXTENTS)%nat ->
  (UID_GID_MAP_MAX_EXTENTS < nr_extents m + fuel)%nat ->
  parse_map_loop (fuel + extra) pos m = parse_map_loop fuel pos m.
Proof.
  revert pos m; induction fuel as [|fuel IH]; intros [text|] m Hlt Hf; [lia|by destruct extra| |done].
  cbn [parse_map_loop Nat.add]. destruct (split_line text) as [line next].
  destruct (parse_extent_line line) as [e|]; [|done].
  destruct (negb _); [done|]. destruct (mappings_overlap m e); [done|].
  destruct next as [text'|].
  - destruct (nr_extents (m ++ [e]) =? UID_GID_MAP_MAX_EXTENTS)%nat eqn:E; [done|].
    cbn [andb]. apply Nat.eqb_neq in E. unfold nr_extents in *. rewrite length_app in *.
    apply IH; unfold nr_extents in *; rewrite length_app; cbn in *; lia.
  - rewrite andb_false_r. by destruct fuel, extra.
Qed.

(** ** Text that was printed is parsed back *)

Lemma simple_strtoul_spec s :
  cstr s -> short s -> value 10 (numeral 10 s) <= U64_MAX ->
  simple_strtoul s 10 = (value 10 (numeral 10 s), after_numeral 10 s).
Proof.
  intros Hs Hsh Hv. unfold simple_strtoul, simple_strtoull.
  change (_parse_integer_fixup_radix s 10) with (s, 10). cbn iota.
  destruct (parse_integer_spec s 10 ltac:(lia) Hs Hsh) as (rv & res & -> & _ & -> & Hr).
  destruct (Hr Hv) as [-> _]. by rewrite Nat2Z.id, length_numeral.
Qed.

(** A number printed with [%10u], in front of a space, a newline or the end. *)
Lemma scan_number n rest :
  0 <= n <= U32_MAX -> cstr rest -> Z.of_nat (length rest) < 2 ^ 30 ->
  (forall c, rest !! 0%nat = Some c -> digit_val c 10 = None) ->
  simple_strtoul (skip_spaces (number n (PSpec 0 10 10 (-1)) ++ rest)) 10 = (n, rest).
Proof.
  intros Hn Hrest Hsh Hc. assert (Hb : is_base 10) by (unfold is_base; auto).
  assert (Hl : is_locase 0) by (by left). assert (Hn64 : 0 <= n <= U64_MAX) by ulia.
  rewrite number_plain by (done || cbn; lia). cbn [base flags]. change (Z.land 0 SMALL) with 0.
  change (prefix_of (PSpec 0 10 10 (-1)) n) with (@nil Z). cbn [app].
  pose proof (number_digits_prints 10 0 n Hb Hl Hn64) as Hp.
  pose proof (length_number_digits 10 0 n Hn64) as Hlen.
  set (cs := number_digits 10 0 n) in *. rewrite <- app_assoc.
  destruct (prints_head 10 0 n cs Hb Hl Hp) as (d & Ed & Hd & _).
  rewrite skip_spaces_pad.
  - destruct (prints_numeral 10 0 n cs rest) as (Hv & Ha & _); try done.
    rewrite simple_strtoul_spec; [by rewrite Hv, Ha| | |lia].
    + apply Forall_app. split; [|done]. by apply (prints_cstr 10 0 n).
    + unfold short, KSTRTOX_OVERFLOW. rewrite length_app, length_reverse. lia.
  - intros c E. rewrite lookup_app_l in E by (rewrite length_reverse; lia).
    rewrite Ed in E. injection E as <-. by apply (digit_not_space 10).
Qed.

(** The text of an extent is its three numbers; none of them has a newline. *)
Lemma number_chars n :
  0 <= n <= U32_MAX ->
  Forall (fun c => is_byte c /\ c <> 10) (number n (PSpec 0 10 10 (-1)))
  /\ (length (number n (PSpec 0 10 10 (-1))) <= 32)%nat.
Proof.
  intros Hn. assert (Hb : is_base 10) by (unfold is_base; auto).
  assert (Hl : is_locase 0) by (by left). assert (Hn64 : 0 <= n <= U64_MAX) by ulia.
  rewrite number_plain by (done || cbn; lia). cbn [base flags]. change (Z.land 0 SMALL) with 0.
  change (prefix_of (PSpec 0 10 10 (-1)) n) with (@nil Z). cbn [app length field_width].
  destruct (number_digits_prints 10 0 n Hb Hl Hn64) as (ds & E & Hds & _).
  pose proof (length_number_digits 10 0 n Hn64) as Hlen. split.
  - apply Forall_app. split; [by apply Forall_replicate|].
    rewrite E. apply Forall_reverse, Forall_fmap. eapply Forall_impl; [exact Hds|].
    intros d Hd. destruct (digit_of_byte 10 0 d) as (? & _); try done. split; [done|].
    pose proof (digit_not_space 10 0 d Hb Hl Hd) as Hsp. intros E10. cbn in E10.
    by rewrite E10 in Hsp.
  - rewrite length_app, length_replicate, length_reverse. lia.
Qed.

Lemma split_line_app line rest :
  Forall (fun c => c <> 10) line ->
  split_line (line ++ 10 :: rest) = (line, match rest with [] => None | _ => Some rest end).
Proof.
  induction 1 as [|c line Hc _ IH]; cbn; [done|].
  rewrite (proj2 (Z.eqb_neq c 10)) by done. by rewrite IH.
Qed.

(** The line [seq_printf] prints for an extent, without its newline. *)
Definition extent_line (f l c : Z) : list Z :=
  let spec := PSpec 0 10 10 (-1) in
  number f spec ++ [32] ++ number l spec ++ [32] ++ number c spec.

Lemma print_extent_line f l c rest :
  print_extent f l c ++ rest = extent_line f l c ++ 10 :: rest.
Proof. unfold print_extent, extent_line. by rewrite <- !app_assoc. Qed.

Lemma parse_printed_line f l c :
  is_u32 f -> is_u32 l -> is_u32 c -> parse_extent_line (extent_line f l c) = Some (Extent f l c).
Proof.
  intros Hf Hl Hc. destruct (number_chars f Hf) as [Cf Lf].
  destruct (number_chars l Hl) as [Cl Ll]. destruct (number_chars c Hc) as [Cc Lc].
  assert (Hby : forall s, Forall (fun c => is_byte c /\ c <> 10) s -> cstr s).
  { intros s Hs. eapply Forall_impl; [exact Hs|naive_solver]. }
  unfold parse_extent_line, extent_line. rewrite scan_number; [|done|..].
  2: { apply Forall_app. split; [by repeat constructor|]. apply Forall_app. split; [by apply Hby|].
       apply Forall_app. split; [by repeat constructor|by apply Hby]. }
  2: { rewrite !length_app. cbn. lia. }
  2: { by intros ? [= <-]. }
  change (isspace (c_at ([32] ++ _) 0)) with true. cbn [negb app skip_spaces].
  change (isspace 32) with true. cbn iota. rewrite scan_number; [|done|..].
  2: { apply Forall_cons. split; [by repeat constructor|by apply Hby]. }
  2: { cbn. lia. }
  2: { by intros ? [= <-]. }
  change (isspace (c_at (32 :: _) 0)) with true. cbn [negb app skip_spaces].
  change (isspace 32) with true. cbn iota.
  rewrite <- (app_nil_r (number c _)). rewrite scan_number; [|done|constructor|cbn; lia|done].
  cbn. by rewrite !u32_id.
Qed.

(** Reading back a printed list of extents after [m] was read. *)
Lemma parse_printed_loop fuel m es :
  Forall valid_extent (m ++ es) -> StronglySorted apart (m ++ es) -> es <> [] ->
  (length (m ++ es) <= UID_GID_MAP_MAX_EXTENTS)%nat -> (length es <= fuel)%nat ->
  parse_map_loop fuel
    (Some (mjoin ((fun e => print_extent (first e) (lower_first e) (count e)) <$> es))) m
  = Some (m ++ es).
Proof.
  revert m es; induction fuel as [|fuel IH]; intros m [|e es] Hv Hs Hne Hlen Hf;
    cbn [length] in Hf; try done; try lia.
  rewrite fmap_cons. cbn [mjoin list_join]. rewrite print_extent_line.
  cbn [parse_map_loop].
  assert (He : valid_extent e) by (apply Forall_app in Hv as [_ Hv]; by apply Forall_cons in Hv as [? _]).
  assert (Hu : is_u32 (first e) /\ is_u32 (lower_first e) /\ is_u32 (count e))
    by (destruct He; split_and!; ulia).
  destruct Hu as (Hu1 & Hu2 & Hu3).
  rewrite split_line_app.
  2: { unfold extent_line. rewrite !Forall_app. split_and!; try by repeat constructor.
       all: eapply Forall_impl; [apply number_chars; done|naive_solver]. }
  rewrite parse_printed_line by done.
  destruct e as [f l c]. cbn [first lower_first count] in *.
  assert (Hok : extent_values_ok (Extent f l c) = true) by (by apply extent_values_ok_spec).
  rewrite Hok. cbn [negb].
  assert (Ho : mappings_overlap m (Extent f l c) = false).
  { apply overlap_spec; [by apply Forall_app in Hv as [? _]|done|].
    apply Forall_forall. intros p Hp.
    by apply (StronglySorted_app_1_elem_of apart m (Extent f l c :: es)); [|done|left]. }
  rewrite Ho. unfold nr_extents. rewrite length_app in *. cbn [length] in *.
  rewrite (cons_middle (Extent f l c) m es), app_assoc in *.
  destruct es as [|e' es].
  - cbn [fmap list_fmap mjoin list_join]. rewrite andb_false_r. rewrite app_nil_r. by destruct fuel.
  - assert (Hnn : mjoin ((fun e => print_extent (first e) (lower_first e) (count e)) <$> e' :: es) <> []).
    { rewrite fmap_cons. cbn [mjoin list_join]. rewrite print_extent_line.
      by destruct (extent_line _ _ _). }
    destruct (mjoin _) as [|c' text] eqn:Et; [done|].
    cbn [length] in Hlen. rewrite (proj2 (Nat.eqb_neq _ _)) by lia. cbn [andb].
    rewrite <- Et. apply IH; try done.
    + rewrite length_app, length_app. cbn. lia.
    + cbn in *. lia.
Qed.
