(* ===== verification/UserNsProps.v ===== *)
(** * The properties of user namespaces

    Id maps are partial injections; a map that was accepted is the composition
    of what was written with the parent's map; these facts are invariants of
    every reachable store; and a gid map that was set up without privilege
    never lets its namespace change supplementary groups. *)

From stdpp Require Import gmap.
From S2P Require Import Prelude CText Kstrtox Vsprintf VsprintfFacts UserNs UserNsFacts.

(** ** The store of namespaces as a transition system *)

Section Steps.
Context `{SecurityModule}.

Inductive ns_step (st : ns_store) : ns_store -> Prop :=
| step_map_write k current f w ret st' :
    proc_map_write k st current f w = Ok (ret, st') -> ns_step st st'
| step_setgroups_write f w ret st' :
    proc_setgroups_write st f w = Ok (ret, st') -> ns_step st st'
| step_create new chrooted r inum_error ret new' st' :
    st !! r = None ->
    create_user_ns st new chrooted (Some r) inum_error = Ok (ret, new', st') -> ns_step st st'.

(** The initial namespace alone. *)
Definition init_store : ns_store := {[1%positive := init_user_ns]}.

(** A map is empty or was composed from a well-formed one and the parent's. *)
Definition composed (pm m : uid_gid_map) : Prop :=
  m = [] \/ exists m0, wf_map m0 /\ m0 <> [] /\ Forall2 (relocated pm) m0 m.

Definition ns_ok (st : ns_store) (ns : user_namespace) : Prop :=
  (forall k, wf_map (get_map k ns)) /\
  match parent ns with
  | None => True
  | Some p => exists pns, st !! p = Some pns /\ forall k, composed (get_map k pns) (get_map k ns)
  end.

Definition ns_inv (st : ns_store) : Prop := forall r ns, st !! r = Some ns -> ns_ok st ns.

(** What every step leaves alone: a namespace stays, with its parent, with
    every map that was set, and with setgroups denied once it was. *)
Definition denied (ns : user_namespace) : Prop :=
  Z.land (ns_flags ns) USERNS_SETGROUPS_ALLOWED = 0.

Definition ns_le (ns ns' : user_namespace) : Prop :=
  parent ns' = parent ns
  /\ (forall k, get_map k ns <> [] -> get_map k ns' = get_map k ns)
  /\ (denied ns -> denied ns')
  /\ (gid_map ns <> [] -> ns_flags ns' = ns_flags ns).

Definition store_le (st st' : ns_store) : Prop :=
  forall r ns, st !! r = Some ns -> exists ns', st' !! r = Some ns' /\ ns_le ns ns'.

#[global] Instance ns_le_refl : Reflexive ns_le.
Proof. intros ns. split_and!; auto. Qed.

#[global] Instance ns_le_trans : Transitive ns_le.
Proof.
  intros n1 n2 n3 (P1 & M1 & D1 & F1) (P2 & M2 & D2 & F2). split_and!.
  - congruence.
  - intros k Hk. rewrite M2; [by apply M1|]. by rewrite M1.
  - auto.
  - intros Hg. rewrite F2; [by apply F1|]. specialize (M1 GidMap Hg). cbn in M1. congruence.
Qed.

#[global] Instance store_le_preorder : PreOrder store_le.
Proof.
  split.
  - intros st r ns E. exists ns. done.
  - intros s1 s2 s3 H1 H2 r ns E. destruct (H1 r ns E) as (ns' & E' & L1).
    destruct (H2 r ns' E') as (ns'' & E'' & L2). exists ns''. split; [done|]. by etrans.
Qed.

Lemma store_le_insert (st : ns_store) r ns ns' :
  st !! r = Some ns -> ns_le ns ns' -> store_le st (<[r := ns']> st).
Proof.
  intros E L q nq Eq. destruct (decide (r = q)) as [->|Hne].
  - rewrite E in Eq. injection Eq as <-. exists ns'. by rewrite lookup_insert_eq.
  - exists nq. by rewrite lookup_insert_ne.
Qed.

Lemma get_set_map k m ns : get_map k (set_map k m ns) = m.
Proof. by destruct k. Qed.
Lemma get_set_map_ne k k' m ns : k <> k' -> get_map k' (set_map k m ns) = get_map k' ns.
Proof. by destruct k, k'. Qed.
Lemma set_map_parent k m ns : parent (set_map k m ns) = parent ns.
Proof. by destruct k. Qed.
Lemma set_map_flags k m ns : ns_flags (set_map k m ns) = ns_flags ns.
Proof. by destruct k. Qed.

#[global] Instance map_kind_eq_dec : EqDecision map_kind.
Proof. solve_decision. Defined.

(** ** What an accepted write does *)

Record accepted (k : map_kind) (st : ns_store) (current : cred) (f : file) (p : ns_ref)
    (st' : ns_store) : Prop := {
  ac_ns : exists ns pns m m',
    st !! seq_private f = Some ns /\ parent ns = Some p /\ st !! p = Some pns
    /\ get_map k ns = []
    /\ wf_map m /\ m <> []
    /\ new_idmap_permitted st current f ns p pns (cap_setid_of k) m = Ok true
    /\ map_lower_ids (get_map k pns) m = Some m'
    /\ st' = <[seq_private f := set_map k m' ns]> st
}.

Lemma map_write_inv k st current f p w ret st' :
  map_write st current f k p (cap_setid_of k) w = Ok (ret, st') ->
  (exists ns, st !! seq_private f = Some ns /\ parent ns = Some p) ->
  (ret < 0 /\ st' = st) \/ (ret = wr_count w /\ accepted k st current f p st').
Proof.
  intros E (ns & Ens & Hp). unfold map_write in E. rewrite Ens in E.
  destruct (st !! p) as [pns|] eqn:Epn; [|done].
  destruct (negb (_ =? 0)%nat) eqn:E0; [injection E as <- <-; by left|].
  destruct (cap_valid _ && _); [injection E as <- <-; by left|].
  destruct (negb (page_available w)); [injection E as <- <-; by left|].
  destruct (_ || _); [injection E as <- <-; by left|].
  destruct (user_bytes w) as [bytes|]; [|injection E as <- <-; by left].
  destruct (parse_map (until_nul bytes)) as [m|] eqn:Em; [|injection E as <- <-; by left].
  destruct (new_idmap_permitted _ _ _ _ _ _ _ _) as [ok| | |] eqn:Epm; try done.
  cbn [obind] in E. destruct ok; [|injection E as <- <-; by left]. cbn [negb] in E.
  destruct (map_lower_ids _ m) as [m'|] eqn:Emm; [|injection E as <- <-; by left].
  injection E as <- <-. right. split; [done|]. split.
  apply parse_map_wf in Em as [Hwf Hne]. exists ns, pns, m, m'.
  apply negb_false_iff, Nat.eqb_eq in E0. unfold nr_extents in *.
  split_and!; try done.
  - by apply length_zero_iff_nil.
  - intros ->. cbn in Hne. lia.
Qed.

Lemma proc_map_write_inv k st current f w ret st' :
  proc_map_write k st current f w = Ok (ret, st') ->
  (ret < 0 /\ st' = st) \/ (ret = wr_count w /\ exists p, accepted k st current f p st').
Proof.
  unfold proc_map_write. intros E. destruct (st !! seq_private f) as [ns|] eqn:Ens; [|done].
  destruct (parent ns) as [p|] eqn:Ep; [|injection E as <- <-; by left].
  destruct (_ && _); [injection E as <- <-; by left|].
  apply map_write_inv in E as [?|[? ?]]; [by left|right; eauto|eauto].
Qed.

Lemma accepted_le k st current f p st' : accepted k st current f p st' -> store_le st st'.
Proof.
  intros [(ns & pns & m & m' & Ens & Hp & Epn & Hempty & _ & _ & _ & _ & ->)].
  apply (store_le_insert _ _ ns); [done|]. split_and!.
  - apply set_map_parent.
  - intros k' Hk'. apply get_set_map_ne. intros <-. done.
  - unfold denied. by rewrite set_map_flags.
  - intros _. apply set_map_flags.
Qed.

Lemma setgroups_write_inv st f w ret st' :
  proc_setgroups_write st f w = Ok (ret, st') ->
  st' = st \/ exists ns, st !! seq_private f = Some ns /\ gid_map ns = []
    /\ st' = <[seq_private f :=
                 set_ns_flags (Z.land (ns_flags ns) (Z.lnot USERNS_SETGROUPS_ALLOWED)) ns]> st.
Proof.
  unfold proc_setgroups_write. intros E. destruct (st !! seq_private f) as [ns|] eqn:Ens; [|done].
  destruct (_ || _); [injection E as <- <-; by left|].
  destruct (user_bytes w) as [bytes|]; [|injection E as <- <-; by left].
  destruct (if strncmp _ _ 5 =? 0 then _ else _) as [[a pos]|]; [|injection E as <- <-; by left].
  destruct (negb _); [injection E as <- <-; by left|].
  destruct a; [destruct (_ =? 0); injection E as <- <-; by left|].
  destruct (negb (_ =? 0)%nat) eqn:E0; [injection E as <- <-; by left|].
  injection E as <- <-. right. exists ns. apply negb_false_iff, Nat.eqb_eq in E0.
  split_and!; [done|by apply length_zero_iff_nil|done].
Qed.

Lemma setgroups_deny_flags ns :
  denied (set_ns_flags (Z.land (ns_flags ns) (Z.lnot USERNS_SETGROUPS_ALLOWED)) ns).
Proof. unfold denied. cbn. rewrite <- Z.land_assoc. apply Z.land_0_r. Qed.

Lemma create_inv st new chrooted r inum ret new' st' :
  st !! r = None -> create_user_ns st new chrooted (Some r) inum = Ok (ret, new', st') ->
  st' = st \/ exists pns, st !! cred_user_ns new = Some pns
    /\ st' = <[r := UserNs [] [] [] (Some (cred_user_ns new)) (level pns + 1) (euid new) (egid new)
                     (ns_flags pns)]> st.
Proof.
  intros Hr E. unfold create_user_ns in E.
  destruct (st !! cred_user_ns new) as [pns|] eqn:Epn; [|done].
  destruct (_ >? 32); [injection E as <- <- <-; by left|].
  destruct chrooted; [injection E as <- <- <-; by left|].
  destruct (_ || _); [injection E as <- <- <-; by left|].
  destruct (negb _); [injection E as <- <- <-; by left|].
  injection E as <- <- <-. right. eauto.
Qed.

Lemma ns_step_le st st' : ns_step st st' -> store_le st st'.
Proof.
  intros [k current f w ret st1 E|f w ret st1 E|new chrooted r inum ret new' st1 Hr E].
  - apply proc_map_write_inv in E as [[_ ->]|[_ [p Ha]]]; [done|]. by eapply accepted_le.
  - apply setgroups_write_inv in E as [->|(ns & Ens & Hg & ->)]; [done|].
    apply (store_le_insert _ _ ns); [done|]. split_and!; [done|by intros []|..].
    + intros _. apply setgroups_deny_flags.
    + done.
  - apply create_inv in E as [->|(pns & Epn & ->)]; [done| |done].
    intros q nq Eq. exists nq. split; [|done]. rewrite lookup_insert_ne; [done|]. congruence.
Qed.

Lemma ns_steps_le st st' : rtc ns_step st st' -> store_le st st'.
Proof. induction 1 as [|s1 s2 s3 H1 _ IH]; [done|]. etrans; [by apply ns_step_le|done]. Qed.

(** ** The invariant *)

(** A parent's map that was still empty has no composed child. *)
Lemma composed_nil m : composed [] m -> m = [].
Proof.
  intros [?|(m0 & _ & Hne & Hr)]; [done|]. destruct Hr as [|e e' m0 m' (_ & _ & p & Hp & _)]; [done|].
  set_solver.
Qed.

Lemma composed_le st st' p pns m :
  store_le st st' -> st !! p = Some pns -> (forall k, composed (get_map k pns) (m k)) ->
  exists pns', st' !! p = Some pns' /\ forall k, composed (get_map k pns') (m k).
Proof.
  intros Hle Ep Hc. destruct (Hle p pns Ep) as (pns' & Ep' & _ & Hm & _).
  exists pns'. split; [done|]. intros k. destruct (decide (get_map k pns = [])) as [En|Hne].
  - specialize (Hc k). rewrite En in Hc. left. by apply composed_nil.
  - by rewrite Hm.
Qed.

Lemma ns_ok_le st st' ns : store_le st st' -> ns_ok st ns -> ns_ok st' ns.
Proof.
  intros Hle [Hwf Hp]. split; [done|]. destruct (parent ns) as [p|]; [|done].
  destruct Hp as (pns & Ep & Hc). by eapply composed_le.
Qed.

Lemma wf_map_nil : wf_map [].
Proof. split; [constructor..|]. unfold nr_extents, UID_GID_MAP_MAX_EXTENTS. cbn. lia. Qed.

Lemma ns_inv_step st st' : ns_inv st -> ns_step st st' -> ns_inv st'.
Proof.
  intros Hinv Hstep. pose proof (ns_step_le _ _ Hstep) as Hle. intros r ns Hr.
  destruct Hstep as [k current f w ret st1 E|f w ret st1 E|new chrooted q inum ret new' st1 Hq E].
  - apply proc_map_write_inv in E as [[_ ->]|[_ [p Ha]]]; [by eapply Hinv|].
    destruct Ha as [(ns0 & pns & m & m' & Ens & Hp & Epn & Hempty & Hwm & Hne & _ & Hl & ->)].
    destruct (decide (r = seq_private f)) as [->|Hne'].
    2: { rewrite lookup_insert_ne in Hr by done. eapply ns_ok_le; [done|]. by eapply Hinv. }
    rewrite lookup_insert_eq in Hr. injection Hr as <-.
    destruct (Hinv _ _ Ens) as [Hwf0 Hp0]. rewrite Hp in Hp0.
    destruct (Hinv _ _ Epn) as [Hwfp _].
    apply map_lower_ids_relocated in Hl; [|done|apply Hwm].
    split.
    + intros k'. destruct (decide (k = k')) as [<-|Hk]; [|rewrite get_set_map_ne by done; apply Hwf0].
      rewrite get_set_map. eapply relocated_wf; [by apply Hwfp|exact Hwm|exact Hl].
    + rewrite set_map_parent, Hp. destruct Hp0 as (pns0 & Epn0 & Hc).
      rewrite Epn in Epn0. injection Epn0 as <-.
      apply (composed_le st _ p pns); [done|done|].
      intros k'. destruct (decide (k = k')) as [<-|Hk]; [|rewrite get_set_map_ne by done; apply Hc].
      rewrite get_set_map. right. eauto.
  - apply setgroups_write_inv in E as [->|(ns0 & Ens & Hg & ->)]; [by eapply Hinv|].
    destruct (decide (r = seq_private f)) as [->|Hne'].
    2: { rewrite lookup_insert_ne in Hr by done. eapply ns_ok_le; [done|]. by eapply Hinv. }
    rewrite lookup_insert_eq in Hr. injection Hr as <-.
    eapply ns_ok_le; [done|]. destruct (Hinv _ _ Ens) as [Hwf0 Hp0].
    split; [intros []; [apply (Hwf0 UidMap)|apply (Hwf0 GidMap)|apply (Hwf0 ProjidMap)]|].
    cbn. destruct (parent ns0) as [p|]; [|done]. destruct Hp0 as (pns & Epn & Hc).
    exists pns. split; [done|].
    intros []; [apply (Hc UidMap)|apply (Hc GidMap)|apply (Hc ProjidMap)].
  - apply create_inv in E as [->|(pns & Epn & ->)]; [by eapply Hinv| |done].
    destruct (decide (r = q)) as [->|Hne'].
    2: { rewrite lookup_insert_ne in Hr by done. eapply ns_ok_le; [done|]. by eapply Hinv. }
    rewrite lookup_insert_eq in Hr. injection Hr as <-. split; [intros []; apply wf_map_nil|].
    cbn. apply (composed_le st _ _ pns); [done|done|]. intros []; by left.
Qed.

Lemma ns_inv_init : ns_inv init_store.
Proof.
  unfold init_store. intros r ns [<- <-]%lookup_singleton_Some. split; [|done].
  assert (Hw : wf_map init_map).
  { split; [repeat constructor; cbn; ulia|repeat constructor|].
    unfold nr_extents, UID_GID_MAP_MAX_EXTENTS. cbn. lia. }
  by intros [].
Qed.

Lemma ns_inv_reachable st : rtc ns_step init_store st -> ns_inv st.
Proof.
  intros Hr. pose proof ns_inv_init as Hi. revert Hi.
  induction Hr as [|s1 s2 s3 H1 _ IH]; [done|]. intros Hi. apply IH. by eapply ns_inv_step.
Qed.

(** ** The theorems *)

(** C20. In every store that can be reached, every map of every namespace is
    well-formed, and translating there and back is the identity: an id and a
    kernel id are paired by [map_id_down] exactly when they are paired by
    [map_id_up]. *)
Theorem id_maps_are_injections st r ns k id kid :
  rtc ns_step init_store st -> st !! r = Some ns -> is_u32 id -> is_u32 kid ->
  wf_map (get_map k ns)
  /\ (map_id_down (get_map k ns) id = kid /\ kid <> INVALID_ID
      <-> map_id_up (get_map k ns) kid = id /\ id <> INVALID_ID).
Proof.
  intros Hr E Hid Hk. destruct (ns_inv_reachable st Hr r ns E) as [Hwf _].
  split; [done|]. by rewrite map_id_down_iff, map_id_up_iff.
Qed.

(** A namespace never reaches kernel ids its parent cannot reach: in every
    reachable store, a kernel id that a namespace's map gives to some id is
    also given by the parent's map. *)
Theorem id_maps_stay_inside_parent st r ns p pns k id kid :
  rtc ns_step init_store st -> st !! r = Some ns -> parent ns = Some p -> st !! p = Some pns ->
  is_u32 id -> map_id_down (get_map k ns) id = kid -> kid <> INVALID_ID ->
  exists id', is_u32 id' /\ map_id_down (get_map k pns) id' = kid.
Proof.
  intros Hr E Hp Ep Hid Ek Hne.
  destruct (ns_inv_reachable st Hr r ns E) as [Hwf Hpar]. rewrite Hp in Hpar.
  destruct Hpar as (pns' & Ep' & Hc). rewrite Ep in Ep'. injection Ep' as <-.
  destruct (ns_inv_reachable st Hr p pns Ep) as [Hwfp _].
  assert (Hm : maps (get_map k ns) id kid) by (by apply map_id_down_iff).
  destruct (Hc k) as [Hnil|(m0 & Hm0 & _ & Hrel)].
  { rewrite Hnil in Hm. destruct Hm as (e & He & _). set_solver. }
  destruct (proj1 (relocated_maps _ (Hwfp k) m0 _ id kid (wm_valid _ Hm0) Hrel) Hm)
    as (mid & _ & Hmid).
  pose proof (maps_range _ (Hwfp k) _ _ Hmid). exists mid. split; [ulia|].
  by apply (map_id_down_iff (get_map k pns) (Hwfp k) mid kid ltac:(ulia)).
Qed.

(** An accepted write installs the composition of what was written with
    the parent's map, leaves every other map as it was, and is the last one:
    a later write to the same map is refused with [-EPERM]. *)
Theorem proc_map_write_accepted k st current f w ret st' :
  rtc ns_step init_store st -> proc_map_write k st current f w = Ok (ret, st') -> 0 <= ret ->
  exists ns pns p m m',
    st !! seq_private f = Some ns /\ parent ns = Some p /\ st !! p = Some pns
    /\ st' = <[seq_private f := set_map k m' ns]> st
    /\ get_map k ns = [] /\ wf_map m /\ wf_map m'
    /\ (forall id kid, maps m' id kid <-> exists mid, maps m id mid /\ maps (get_map k pns) mid kid)
    /\ forall current' f' w', seq_private f' = seq_private f ->
         proc_map_write k st' current' f' w' = Ok (- EPERM, st').
Proof.
  intros Hinv%ns_inv_reachable E Hret.
  apply proc_map_write_inv in E as [[? _]|[_ [p [Ha]]]]; [lia|].
  destruct Ha as (ns & pns & m & m' & Ens & Hp & Epn & Hempty & Hwm & Hne & _ & Hl & ->).
  destruct (Hinv _ _ Epn) as [Hwfp _].
  apply map_lower_ids_relocated in Hl; [|done|apply Hwm].
  exists ns, pns, p, m, m'. split_and!; try done.
  - eapply relocated_wf; [apply Hwfp|done|done].
  - intros id kid. apply relocated_maps; [apply Hwfp|apply Hwm|done].
  - intros current' f' w' Ef. unfold proc_map_write. rewrite Ef, lookup_insert_eq.
    rewrite set_map_parent, Hp. destruct (_ && _); [done|].
    unfold map_write. rewrite Ef, lookup_insert_eq.
    assert (Hlk : is_Some (<[seq_private f:=set_map k m' ns]> st !! p)).
    { rewrite lookup_insert_is_Some. destruct (decide (seq_private f = p)); eauto. }
    destruct Hlk as [pns' ->]. rewrite get_set_map.
    destruct Hl as [|e e' m m' _ _]; [done|]. done.
Qed.

(** Reading a map back gives text that sets up the same map: what
    /proc/<pid>/uid_map shows inside a namespace, written for another
    namespace of the same parent, is parsed and mapped to the same extents. *)
Theorem show_map_roundtrip k st r ns p pns f :
  rtc ns_step init_store st -> st !! r = Some ns -> parent ns = Some p -> st !! p = Some pns ->
  get_map k ns <> [] -> seq_user_ns f = r -> seq_private f = r ->
  exists m, parse_map (show_map k st f) = Some m
    /\ map_lower_ids (get_map k pns) m = Some (get_map k ns).
Proof.
  intros Hr E Hp Ep Hne Ef1 Ef2.
  destruct (ns_inv_reachable st Hr r ns E) as [Hwf Hpar]. rewrite Hp in Hpar.
  destruct Hpar as (pns' & Ep' & Hc). rewrite Ep in Ep'. injection Ep' as <-.
  destruct (ns_inv_reachable st Hr p pns Ep) as [Hwfp _].
  destruct (Hc k) as [Hnil|(m & Hm & Hmn & Hrel)]; [done|].
  exists m. split; [|apply relocated_map_lower_ids; [apply Hwfp|apply Hm|done]].
  unfold show_map. rewrite Ef2, E.
  assert (Hsh : forall e, m_show k st f e
    = print_extent (first e) (map_id_up (get_map k pns) (lower_first e)) (count e)).
  { intros e. unfold m_show, show_lower_ns. rewrite Ef1, Ef2, E, Hp.
    rewrite bool_decide_eq_true_2 by done. change (default r (Some p)) with p. by rewrite Ep. }
  rewrite (list_fmap_ext _ _ _ (fun i x _ => Hsh x)).
  rewrite (relocated_shown _ (Hwfp k) m) by (done || apply Hm).
  unfold parse_map. destruct Hm as [Hv Hs Hn].
  apply (parse_printed_loop 6 [] m); try done. unfold nr_extents, UID_GID_MAP_MAX_EXTENTS in Hn. lia.
Qed.

(** A group map that was set up without privilege never gives the right
    to change groups: if a write to gid_map was accepted although the writer
    has no [CAP_SETGID] over the parent namespace, then in every later state
    [userns_may_setgroups] is false for that namespace. *)
Theorem unprivileged_gid_map_no_setgroups st current f w ret st1 st2 ns :
  proc_gid_map_write st current f w = Ok (ret, st1) -> 0 <= ret ->
  st !! seq_private f = Some ns ->
  (forall p, parent ns = Some p -> security_capable st current p CAP_SETGID = false) ->
  rtc ns_step st1 st2 ->
  exists ns2, st2 !! seq_private f = Some ns2 /\ userns_may_setgroups ns2 = false.
Proof.
  intros E Hret Ens Hcap Hsteps.
  apply proc_map_write_inv in E as [[? _]|[_ [p [Ha]]]]; [lia|].
  destruct Ha as (ns' & pns & m & m' & Ens' & Hp & Epn & Hempty & Hwm & Hne & Hperm & Hl & ->).
  rewrite Ens in Ens'. injection Ens' as <-. specialize (Hcap p Hp).
  assert (Hden : denied ns).
  { unfold new_idmap_permitted, ns_capable in Hperm. cbn [cap_setid_of] in Hperm.
    rewrite Hcap in Hperm. cbn in Hperm.
    destruct m as [|e [|]]; try done.
    destruct ((count e =? 1) && (owner ns =? euid (f_cred f))); [|done].
    destruct ((Z.land (ns_flags ns) USERNS_SETGROUPS_ALLOWED =? 0)) eqn:Ed; [|done].
    by apply Z.eqb_eq in Ed. }
  apply ns_steps_le in Hsteps.
  destruct (Hsteps (seq_private f) (set_map GidMap m' ns)) as (ns2 & E2 & _ & _ & Hd & _).
  { by rewrite lookup_insert_eq. }
  exists ns2. split; [done|]. unfold userns_may_setgroups.
  specialize (Hd Hden). unfold denied in Hd. rewrite Hd. by rewrite andb_false_r.
Qed.

End Steps.

(** ** Witnesses: an unprivileged user with id 1000 creates a namespace, gives
    up setgroups and maps itself to 0. *)

#[local] Instance demo_security : SecurityModule := {|
  security_capable _ c ns cap := bool_decide (cred_user_ns c = ns) && negb (ns =? 1)%positive;
  page_bytes := 4096 |}.

Definition demo_user : cred := Cred 1000 1000 1000 1000 1 [] 0 0 0 0.
Definition demo_root : cred := set_cred_user_ns demo_user 2.
Definition demo_file : file := File demo_root 2 2.

Definition store_of (r : outcome (Z * ns_store)) : ns_store :=
  match r with Ok (_, st) => st | _ => ∅ end.

(** "deny" and "0 1000 1" followed by a newline *)
Definition demo_deny : write_request := Write_ true (Some [100; 101; 110; 121]) 4 0.
Definition demo_map : write_request :=
  Write_ true (Some [48; 32; 49; 48; 48; 48; 32; 49; 10]) 9 0.

Definition demo1 : ns_store :=
  match create_user_ns init_store demo_user false (Some 2%positive) 0 with
  | Ok (_, _, st) => st | _ => ∅ end.
Definition demo2 : ns_store := store_of (proc_setgroups_write demo1 demo_file demo_deny).
Definition demo3 : ns_store := store_of (proc_gid_map_write demo2 demo_root demo_file demo_map).

Lemma demo2_reachable : rtc ns_step init_store demo2.
Proof.
  apply (rtc_l _ _ demo1).
  - by apply (step_create _ demo_user false 2%positive 0 0 demo_root).
  - apply rtc_once. by apply (step_setgroups_write _ demo_file demo_deny 4).
Qed.

Lemma demo3_reachable : rtc ns_step init_store demo3.
Proof.
  eapply rtc_r; [apply demo2_reachable|].
  by apply (step_map_write _ GidMap demo_root demo_file demo_map 9).
Qed.

Definition demo_ns : user_namespace :=
  UserNs [] [Extent 0 1000 1] [] (Some 1%positive) 1 1000 1000 0.

Lemma id_maps_are_injections_witness :
  map_id_up (get_map GidMap demo_ns) 1000 = 0 /\ 0 <> INVALID_ID.
Proof.
  apply (id_maps_are_injections demo3 2%positive demo_ns GidMap 0 1000 demo3_reachable);
    [reflexivity|ulia|ulia|]. split; [reflexivity|unfold INVALID_ID; ulia].
Defined.

Lemma id_maps_stay_inside_parent_witness :
  exists id', is_u32 id' /\ map_id_down (get_map GidMap init_user_ns) id' = 1000.
Proof.
  apply (id_maps_stay_inside_parent demo3 2%positive demo_ns 1%positive init_user_ns GidMap 0 1000
    demo3_reachable); [reflexivity|reflexivity|reflexivity|ulia|reflexivity|unfold INVALID_ID; ulia].
Defined.

Lemma proc_map_write_accepted_witness :
  exists m', demo3 = <[2%positive := set_map GidMap m' (UserNs [] [] [] (Some 1%positive) 1 1000 1000 0)]> demo2
    /\ maps m' 0 1000.
Proof.
  destruct (proc_map_write_accepted GidMap demo2 demo_root demo_file demo_map 9 demo3 demo2_reachable)
    as (ns & pns & p & m & m' & Ens & _ & _ & E & _); [reflexivity|lia|].
  exists m'. vm_compute in Ens. injection Ens as <-. split; [exact E|].
  exists (Extent 0 1000 1). split; [|cbn; lia].
  apply (f_equal (fun st => match st !! 2%positive with Some ns => gid_map ns | None => [] end)) in E.
  cbn [seq_private demo_file] in E. rewrite lookup_insert_eq in E. cbn [gid_map set_map] in E.
  rewrite <- E. vm_compute. by left.
Defined.

Lemma show_map_roundtrip_witness :
  exists m, parse_map (show_map GidMap demo3 demo_file) = Some m
    /\ map_lower_ids (get_map GidMap init_user_ns) m = Some [Extent 0 1000 1].
Proof.
  apply (show_map_roundtrip GidMap demo3 2%positive demo_ns 1%positive init_user_ns demo_file
    demo3_reachable); try reflexivity. done.
Defined.

Lemma unprivileged_gid_map_no_setgroups_witness :
  exists ns2, demo3 !! 2%positive = Some ns2 /\ userns_may_setgroups ns2 = false.
Proof.
  apply (unprivileged_gid_map_no_setgroups demo2 demo_root demo_file demo_map 9 demo3 demo3
    (UserNs [] [] [] (Some 1%positive) 1 1000 1000 0));
    [reflexivity|lia|reflexivity|by intros p [= <-]|constructor].
Defined.
