(* ===== verification/Groups.v ===== *)
(** * Supplementary groups (kernel/groups.c)

    A group list is kept sorted, by a Shell sort when it is installed, and is
    searched by bisection.  [GROUP_AT] spreads the list over pages; the model
    keeps it as one list. *)

From stdpp Require Import gmap.
From S2P Require Import Prelude UserNs.

(** ** Sorting *)

(** [for (stride = 1; stride < gidsetsize; stride = 3 * stride + 1);] *)
Fixpoint stride_start (fuel : nat) (stride gidsetsize : Z) : Z :=
  match fuel with
  | O => stride
  | S fuel =>
      if stride <? gidsetsize then stride_start fuel (3 * stride + 1) gidsetsize else stride
  end.

(** The while loop that shifts greater elements right, and the final store. *)
Fixpoint shift_right (fuel : nat) (gs : list Z) (tmp stride left right : Z) : list Z :=
  match fuel with
  | O => <[Z.to_nat right := tmp]> gs
  | S fuel =>
      if (left >=? 0) && (gs !!! Z.to_nat left >? tmp) then
        shift_right fuel (<[Z.to_nat right := gs !!! Z.to_nat left]> gs) tmp stride
          (left - stride) left
      else <[Z.to_nat right := tmp]> gs
  end.

(** [for (base = 0; base < max; base++)]; [n] is [max - base]. *)
Fixpoint sort_pass (n : nat) (gs : list Z) (stride base : Z) : list Z :=
  match n with
  | O => gs
  | S n =>
      let left := base in
      let right := left + stride in
      let tmp := gs !!! Z.to_nat right in
      sort_pass n (shift_right (length gs) gs tmp stride left right) stride (base + 1)
  end.

(** [while (stride)] *)
Fixpoint sort_passes (fuel : nat) (gs : list Z) (stride : Z) : list Z :=
  match fuel with
  | O => gs
  | S fuel =>
      if stride =? 0 then gs
      else
        let max := Z.of_nat (length gs) - stride in
        sort_passes fuel (sort_pass (Z.to_nat max) gs stride 0) (stride / 3)
  end.

(** The stride at least triples going up and is divided by three going down. *)
Definition groups_sort (gs : list Z) : list Z :=
  let gidsetsize := Z.of_nat (length gs) in
  let stride := stride_start (length gs) 1 gidsetsize / 3 in
  sort_passes (S (length gs)) gs stride.

(** ** Searching *)

Fixpoint groups_search_loop (fuel : nat) (gs : list Z) (grp left right : Z) : bool :=
  match fuel with
  | O => false
  | S fuel =>
      if left <? right then
        let mid := u32 (left + right) / 2 in
        if grp >? gs !!! Z.to_nat mid then groups_search_loop fuel gs grp (u32 (mid + 1)) right
        else if grp <? gs !!! Z.to_nat mid then groups_search_loop fuel gs grp left mid
        else true
      else false
  end.

Definition groups_search (group_info : option (list Z)) (grp : Z) : bool :=
  match group_info with
  | None => false
  | Some gs => groups_search_loop (S (length gs)) gs grp 0 (Z.of_nat (length gs))
  end.

Definition in_group_p (c : cred) (grp : Z) : bool :=
  if negb (grp =? fsgid c) then groups_search (Some (groups c)) grp else true.

Definition in_egroup_p (c : cred) (grp : Z) : bool :=
  if negb (grp =? egid c) then groups_search (Some (groups c)) grp else true.

(** ** Installing and reporting *)

Definition set_groups (new : cred) (group_info : list Z) : cred :=
  Cred (euid new) (egid new) (fsuid new) (fsgid new) (cred_user_ns new) (groups_sort group_info)
    (cap_permitted new) (cap_effective new) (cap_bset new) (cap_inheritable new).

(** [grouplist] is the user's array, None where reading faults. *)
Fixpoint groups_from_user (user_ns : user_namespace) (grouplist : list (option Z))
    : Z + list Z :=
  match grouplist with
  | [] => inr []
  | None :: _ => inl (- EFAULT)
  | Some gid :: rest =>
      let kgid := make_kgid user_ns gid in
      if kgid =? INVALID_ID then inl (- EINVAL)
      else
        match groups_from_user user_ns rest with
        | inl e => inl e
        | inr ks => inr (kgid :: ks)
        end
  end.

Definition groups_to_user (overflowgid : Z) (user_ns : user_namespace) (gs : list Z) : list Z :=
  from_kgid_munged overflowgid user_ns <$> gs.

(** Number of ids, or an error, and the ids written to the user's array. *)
Definition getgroups (overflowgid : Z) (user_ns : user_namespace) (c : cred) (gidsetsize : Z)
    : Z * list Z :=
  if gidsetsize <? 0 then (- EINVAL, [])
  else
    let i := Z.of_nat (length (groups c)) in
    if negb (gidsetsize =? 0) then
      if i >? gidsetsize then (- EINVAL, [])
      else (i, groups_to_user overflowgid user_ns (groups c))
    else (i, []).

Section Setgroups.
Context `{SecurityModule}.
(** [NGROUPS_MAX] of the ABI, and the allocations that may fail. *)
Context (NGROUPS_MAX : Z).

Definition may_setgroups (st : ns_store) (current : cred) : outcome bool :=
  match st !! cred_user_ns current with
  | None => Bug
  | Some user_ns =>
      let! capable := ns_capable st current (cred_user_ns current) CAP_SETGID in
      Ok (capable && userns_may_setgroups user_ns)
  end.

(** The return value and the caller's new credentials; [alloc] and [prepare]
    say whether [groups_alloc] and [prepare_creds] succeed. *)
Definition setgroups (st : ns_store) (current : cred) (gidsetsize : Z)
    (grouplist : list (option Z)) (alloc prepare : bool) : outcome (Z * cred) :=
  let! may := may_setgroups st current in
  if negb may then Ok (- EPERM, current)
  else if u32 gidsetsize >? NGROUPS_MAX then Ok (- EINVAL, current)
  else if negb alloc then Ok (- ENOMEM, current)
  else
    match st !! cred_user_ns current with
    | None => Bug
    | Some user_ns =>
        match groups_from_user user_ns (take (Z.to_nat gidsetsize) grouplist) with
        | inl e => Ok (e, current)
        | inr ks =>
            if negb prepare then Ok (- ENOMEM, current)
            else Ok (0, set_groups current ks)
        end
    end.

End Setgroups.
