(* ===== verification/GroupsProps.v ===== *)
(** * Supplementary groups: facts and properties

    Whatever the earlier passes of the Shell sort do, they permute the list,
    and the last pass, with stride one, is an insertion sort. *)

From stdpp Require Import gmap.
From Stdlib Require Import Sorting.Sorted.
From S2P Require Import Prelude UserNs UserNsFacts Groups.

#[local] Ltac Zify.zify_post_hook ::= Z.div_mod_to_equations.

(** ** Every pass permutes *)

Lemma shift_right_perm fuel gs tmp stride left right :
  0 < stride -> left = right - stride -> 0 <= right < Z.of_nat (length gs) ->
  shift_right fuel gs tmp stride left right ≡ₚ <[Z.to_nat right := tmp]> gs.
Proof.
  intros Hs. revert gs left right. induction fuel as [|fuel IH]; intros gs left right -> Hr;
    cbn [shift_right]; [done|].
  destruct ((right - stride >=? 0) && _) eqn:E; [|done]. zbool.
  destruct (lookup_lt_is_Some_2 gs (Z.to_nat (right - stride)) ltac:(lia)) as [a Ha].
  rewrite (list_lookup_total_correct _ _ _ Ha) in *.
  rewrite IH by (rewrite ?length_insert; lia).
  set (l := Z.to_nat (right - stride)) in *. set (r := Z.to_nat right).
  assert (Hlr : l <> r) by lia.
  rewrite <- (Permutation_insert_swap (<[r := tmp]> gs) r l tmp a).
  - rewrite list_insert_insert_eq. done.
  - apply list_lookup_insert_eq. lia.
  - by rewrite list_lookup_insert_ne.
Qed.

Lemma sort_pass_perm n gs stride base :
  0 < stride -> 0 <= base -> base + Z.of_nat n + stride <= Z.of_nat (length gs) ->
  sort_pass n gs stride base ≡ₚ gs.
Proof.
  intros Hs. revert gs base. induction n as [|n IH]; intros gs base Hb Hlen; cbn [sort_pass]; [done|].
  destruct (lookup_lt_is_Some_2 gs (Z.to_nat (base + stride)) ltac:(lia)) as [a Ha].
  rewrite (list_lookup_total_correct _ _ _ Ha).
  assert (Hp : shift_right (length gs) gs a stride base (base + stride) ≡ₚ gs).
  { rewrite shift_right_perm by lia. by rewrite list_insert_id. }
  rewrite IH; [done|lia|]. rewrite (Permutation_length Hp). lia.
Qed.

Lemma sort_passes_perm fuel gs stride :
  0 <= stride -> sort_passes fuel gs stride ≡ₚ gs.
Proof.
  revert gs stride. induction fuel as [|fuel IH]; intros gs stride Hs; cbn [sort_passes]; [done|].
  case_if; [done|]. rewrite IH by lia. destruct (Z.le_gt_cases stride (Z.of_nat (length gs))).
  - apply sort_pass_perm; lia.
  - replace (Z.to_nat (Z.of_nat (length gs) - stride)) with O by lia. done.
Qed.

(** ** The last pass sorts *)

(** Insertion from the right end. *)
Fixpoint ins (x : Z) (l : list Z) : list Z :=
  match l with
  | [] => [x]
  | y :: l => if y >? x then x :: y :: l else y :: ins x l
  end.

Lemma ins_sorted x l : StronglySorted Z.le l -> StronglySorted Z.le (ins x l).
Proof.
  induction 1 as [|y l Hs IH Hy]; cbn; [by repeat constructor|].
  case_if; zbool.
  - constructor; [by constructor|]. constructor; [lia|].
    eapply Forall_impl; [exact Hy|]. cbn. lia.
  - constructor; [done|]. apply Forall_forall. intros z Hz.
    assert (Hin : z = x \/ z ∈ l).
    { clear -Hz. induction l as [|w l IH]; cbn in Hz; [set_solver|].
      destruct (w >? x); set_solver. }
    rewrite Forall_forall in Hy. destruct Hin as [->|?]; [lia|auto].
Qed.

(** On a sorted list, insertion can stop at the first smaller element from the
    right. *)
Lemma ins_snoc x l a :
  StronglySorted Z.le (l ++ [a]) ->
  ins x (l ++ [a]) = if a >? x then ins x l ++ [a] else l ++ [a; x].
Proof.
  induction l as [|y l IH]; cbn; intros Hs.
  - by destruct (a >? x).
  - apply StronglySorted_inv in Hs as [Hs Hy]. rewrite IH by done.
    assert (y <= a) by (rewrite Forall_forall in Hy; apply Hy; set_solver).
    destruct (y >? x) eqn:E1; zbool; [|by destruct (a >? x)].
    destruct (a >? x) eqn:E2; zbool; [done|lia].
Qed.

Lemma shift_right_ins fuel pre h post tmp :
  StronglySorted Z.le pre -> (length pre <= fuel)%nat ->
  shift_right fuel (pre ++ h :: post) tmp 1 (Z.of_nat (length pre) - 1) (Z.of_nat (length pre))
  = ins tmp pre ++ post.
Proof.
  revert pre h post. induction fuel as [|fuel IH]; intros pre h post Hs Hf; cbn [shift_right].
  - destruct pre; [done|cbn in Hf; lia].
  - rewrite Nat2Z.id. destruct pre as [|a pre _] using rev_ind; [done|].
    rewrite length_app in *. cbn [length] in *.
    replace (Z.to_nat (Z.of_nat (length pre + 1) - 1)) with (length pre) by lia.
    assert (Ha : ((pre ++ [a]) ++ h :: post) !! length pre = Some a).
    { rewrite <- app_assoc. cbn. by rewrite list_lookup_middle. }
    rewrite (list_lookup_total_correct _ _ _ Ha).
    assert (Hge : (Z.of_nat (length pre + 1) - 1 >=? 0) = true) by (apply Z.geb_le; lia).
    rewrite Hge. cbn [andb]. rewrite ins_snoc by done.
    destruct (a >? tmp) eqn:E.
    + replace (length pre + 1)%nat with (length (pre ++ [a])) by (rewrite length_app; cbn; lia).
      rewrite insert_app_r_alt, Nat.sub_diag by lia. cbn [insert list_insert].
      rewrite <- app_assoc. cbn [app]. rewrite length_app. cbn [length].
      replace (Z.of_nat (length pre + 1) - 1 - 1) with (Z.of_nat (length pre) - 1) by lia.
      replace (Z.of_nat (length pre + 1) - 1) with (Z.of_nat (length pre)) by lia.
      rewrite IH; [by rewrite <- app_assoc| |lia].
      by apply StronglySorted_app_1_l in Hs.
    + replace (length pre + 1)%nat with (length (pre ++ [a])) by (rewrite length_app; cbn; lia).
      rewrite insert_app_r_alt, Nat.sub_diag by lia. cbn [insert list_insert].
      by rewrite <- !app_assoc.
Qed.

Lemma sort_pass_sorts n pre post :
  StronglySorted Z.le pre -> pre <> [] -> length post = n ->
  StronglySorted Z.le (sort_pass n (pre ++ post) 1 (Z.of_nat (length pre) - 1)).
Proof.
  revert pre post. induction n as [|n IH]; intros pre [|h post] Hs Hne Hn; cbn in Hn; try lia;
    cbn [sort_pass].
  - by rewrite app_nil_r.
  - replace (Z.of_nat (length pre) - 1 + 1) with (Z.of_nat (length pre)) by lia.
    rewrite Nat2Z.id, (list_lookup_total_correct _ _ h) by (by rewrite list_lookup_middle).
    rewrite shift_right_ins by (done || rewrite length_app; lia).
    assert (Hl : length (ins h pre) = S (length pre)).
    { clear. induction pre as [|y pre IH]; cbn; [done|]. case_if; cbn; [done|by rewrite IH]. }
    replace (Z.of_nat (length pre)) with (Z.of_nat (length (ins h pre)) - 1) by lia.
    apply IH; [by apply ins_sorted|by destruct (ins h pre)|lia].
Qed.

(** ** The strides *)

(** The strides of the sequence 1, 4, 13, ... *)
Inductive is_stride : Z -> Prop :=
| stride_1 : is_stride 1
| stride_next s : is_stride s -> is_stride (3 * s + 1).

Lemma is_stride_pos s : is_stride s -> 1 <= s.
Proof. induction 1; lia. Qed.

Lemma stride_start_ok fuel s n : is_stride s -> is_stride (stride_start fuel s n).
Proof.
  revert s; induction fuel as [|fuel IH]; intros s Hs; cbn; [done|].
  case_if; [|done]. apply IH. by constructor.
Qed.

Lemma sort_passes_sorts fuel gs s :
  is_stride s -> s <= Z.of_nat fuel -> StronglySorted Z.le (sort_passes fuel gs s).
Proof.
  revert gs s; induction fuel as [|fuel IH]; intros gs s Hs Hf;
    [apply is_stride_pos in Hs; lia|]. cbn [sort_passes].
  rewrite (proj2 (Z.eqb_neq s 0)) by (apply is_stride_pos in Hs; lia).
  destruct Hs as [|s Hs].
  - change (1 / 3) with 0. destruct gs as [|g gs].
    + cbn. destruct fuel; cbn; constructor.
    + replace (Z.to_nat (Z.of_nat (length (g :: gs)) - 1)) with (length gs) by (cbn; lia).
      pose proof (sort_pass_sorts (length gs) [g] gs ltac:(by repeat constructor) ltac:(done) eq_refl).
      destruct fuel; cbn [sort_passes]; done.
  - replace ((3 * s + 1) / 3) with s by lia. apply IH; [done|]. apply is_stride_pos in Hs. lia.
Qed.

(** The loop that looks for the first stride ends by itself. *)
Lemma stride_start_enough fuel s n : 1 <= s -> n <= s + Z.of_nat fuel -> n <= stride_start fuel s n.
Proof.
  revert s; induction fuel as [|fuel IH]; intros s Hs Hn; cbn; [lia|].
  case_if; zbool; [apply IH; lia|done].
Qed.

Lemma stride_start_last fuel s n :
  is_stride s -> s < n -> exists s', is_stride s' /\ s' < n /\ stride_start (S fuel) s n = 3 * s' + 1.
Proof.
  revert s; induction fuel as [|fuel IH]; intros s Hs Hn; cbn [stride_start];
    rewrite (proj2 (Z.ltb_lt s n)) by done; [by exists s|].
  destruct (Z.lt_ge_cases (3 * s + 1) n).
  - destruct (IH (3 * s + 1)) as (s' & ? & ? & E); [by constructor|done|].
    exists s'. cbn [stride_start] in E. done.
  - rewrite (proj2 (Z.ltb_ge (3 * s + 1) n)) by done. by exists s.
Qed.

Lemma groups_sort_perm gs : groups_sort gs ≡ₚ gs.
Proof.
  apply sort_passes_perm. assert (1 <= stride_start (length gs) 1 (Z.of_nat (length gs))); [|lia].
  apply is_stride_pos, stride_start_ok. constructor.
Qed.

Lemma groups_sort_sorted gs : StronglySorted Z.le (groups_sort gs).
Proof.
  unfold groups_sort. destruct gs as [|g [|g' gs]]; [constructor|by repeat constructor|].
  cbn [length]. set (n := Z.of_nat (S (S (length gs)))).
  destruct (stride_start_last (S (length gs)) 1 n) as (s & Hs & Hn & ->); [constructor|lia|].
  replace ((3 * s + 1) / 3) with s by lia. apply sort_passes_sorts; [done|lia].
Qed.

(** ** Bisection *)

Section Search.
Variables (gs : list Z) (grp : Z).
Hypothesis Hsorted : StronglySorted Z.le gs.
Hypothesis Hlen : Z.of_nat (length gs) < 2 ^ 31.

Lemma sorted_lookup i j x y :
  (i <= j)%nat -> gs !! i = Some x -> gs !! j = Some y -> x <= y.
Proof.
  intros Hij Hx Hy. destruct (decide (i = j)) as [->|]; [simplify_eq; lia|].
  rewrite <- (take_drop j gs) in Hsorted.
  apply (StronglySorted_app_1_elem_of Z.le _ _ _ _ Hsorted).
  - apply (list_elem_of_lookup_2 _ i). rewrite lookup_take_lt; [done|lia].
  - apply (list_elem_of_lookup_2 _ 0). by rewrite lookup_drop, Nat.add_0_r.
Qed.

(** What the loop knows: elements before [left] are smaller, those from
    [right] on are greater. *)
Definition group_window (left right : Z) : Prop :=
  forall i x, gs !! i = Some x ->
    (Z.of_nat i < left -> x < grp) /\ (right <= Z.of_nat i -> grp < x).

Lemma groups_search_loop_spec fuel left right :
  0 <= left -> right <= Z.of_nat (length gs) -> right - left < Z.of_nat fuel ->
  group_window left right ->
  groups_search_loop fuel gs grp left right = bool_decide (grp ∈ gs).
Proof.
  revert left right. induction fuel as [|fuel IH]; intros left right Hl Hr Hf Hw.
  - symmetry. apply bool_decide_eq_false_2. intros [i Hi]%list_elem_of_lookup.
    destruct (Hw i grp Hi). lia.
  - cbn [groups_search_loop]. destruct (left <? right) eqn:E; zbool.
    2: { symmetry. apply bool_decide_eq_false_2. intros [i Hi]%list_elem_of_lookup.
         destruct (Hw i grp Hi). lia. }
    rewrite (u32_id (left + right)) by ulia. set (mid := (left + right) / 2).
    assert (Hm : left <= mid < right) by (subst mid; lia). clearbody mid.
    destruct (lookup_lt_is_Some_2 gs (Z.to_nat mid) ltac:(lia)) as [x Hx].
    rewrite (list_lookup_total_correct _ _ _ Hx). destruct (grp >? x) eqn:E1; zbool.
    + rewrite u32_id by ulia. apply IH; [lia|done|lia|]. intros i y Hi. split; [|by apply Hw].
      intros Hlt. assert (y <= x) by (apply (sorted_lookup i (Z.to_nat mid)); [lia|done..]). lia.
    + destruct (grp <? x) eqn:E2; zbool.
      * apply IH; [done|lia|lia|]. intros i y Hi. split; [by apply Hw|].
        intros Hge. assert (x <= y) by (apply (sorted_lookup (Z.to_nat mid) i); [lia|done..]). lia.
      * symmetry. apply bool_decide_eq_true_2. replace grp with x by lia.
        by eapply list_elem_of_lookup_2.
Qed.

Lemma groups_search_spec : groups_search (Some gs) grp = bool_decide (grp ∈ gs).
Proof.
  apply groups_search_loop_spec; [lia|lia|lia|].
  intros i x Hi%lookup_lt_Some. split; lia.
Qed.

End Search.

(** ** Reading the user's list *)

Lemma groups_from_user_spec ns gids :
  groups_from_user ns (Some <$> gids) =
  if existsb (fun gid => make_kgid ns gid =? INVALID_ID) gids then inl (- EINVAL)
  else inr (make_kgid ns <$> gids).
Proof.
  induction gids as [|gid gids IH]; cbn; [done|].
  destruct (make_kgid ns gid =? INVALID_ID); [done|]. rewrite IH. by destruct (existsb _ gids).
Qed.

(** Membership in the credentials' groups. *)
Lemma in_group_p_spec c g :
  StronglySorted Z.le (groups c) -> Z.of_nat (length (groups c)) < 2 ^ 31 ->
  in_group_p c g = bool_decide (g ∈ ({[fsgid c]} ∪ list_to_set (groups c) : gset Z)).
Proof.
  intros Hs Hl. unfold in_group_p. destruct (g =? fsgid c) eqn:E; zbool; cbn [negb].
  - symmetry. apply bool_decide_eq_true_2. set_solver.
  - rewrite groups_search_spec by done. apply bool_decide_ext. set_solver.
Qed.

(** * The properties of supplementary groups *)

(** The Shell sort sorts: [groups_sort] returns a permutation of the list
    in ascending order, whatever the list, and the search for the first
    stride ends with a stride beyond the list. *)
Theorem groups_sort_correct gs :
  groups_sort gs ≡ₚ gs /\ StronglySorted Z.le (groups_sort gs)
  /\ Z.of_nat (length gs) <= stride_start (length gs) 1 (Z.of_nat (length gs)).
Proof.
  split_and!; [apply groups_sort_perm|apply groups_sort_sorted|apply stride_start_enough; lia].
Qed.

Section Setgroups.
Context `{SecurityModule}.
Context (NGROUPS_MAX : Z).

(** setgroups(2) does what it says on every branch: without the capability
    or the namespace's permission it is refused, an id without mapping is
    refused, neither changes the credentials; otherwise the caller is
    afterwards in exactly its fsgid and the groups it named. *)
Theorem setgroups_correct st current ns gids :
  st !! cred_user_ns current = Some ns ->
  Z.of_nat (length gids) <= NGROUPS_MAX -> NGROUPS_MAX < 2 ^ 31 ->
  let kgids := make_kgid ns <$> gids in
  setgroups NGROUPS_MAX st current (Z.of_nat (length gids)) (Some <$> gids) true true =
    (if negb (security_capable st current (cred_user_ns current) CAP_SETGID
              && userns_may_setgroups ns) then Ok (- EPERM, current)
     else if bool_decide (INVALID_ID ∈ kgids) then Ok (- EINVAL, current)
     else Ok (0, set_groups current kgids))
  /\ forall g, in_group_p (set_groups current kgids) g
       = bool_decide (g = fsgid current \/ g ∈ kgids).
Proof.
  intros Ens Hlen Hmax kgids. split.
  - unfold setgroups, may_setgroups, ns_capable. rewrite Ens. cbn [obind negb].
    change (negb (cap_valid CAP_SETGID)) with false. cbn [obind].
    destruct (_ && userns_may_setgroups ns); [|done]. cbn [negb].
    rewrite u32_id by ulia. case_if; zbool; [lia|].
    rewrite Nat2Z.id, take_ge by (by rewrite length_fmap).
    rewrite groups_from_user_spec.
    replace (existsb _ gids) with (bool_decide (INVALID_ID ∈ kgids)); [by case_bool_decide|].
    apply eq_bool_prop_intro. rewrite bool_decide_spec, Is_true_true, existsb_exists.
    subst kgids. rewrite list_elem_of_fmap. split.
    + intros (gid & Eg & Hin). exists gid. split; [by apply list_elem_of_In|]. apply Z.eqb_eq. done.
    + intros (gid & Hin & Eg%Z.eqb_eq). exists gid. split; [done|by apply list_elem_of_In].
  - intros g. rewrite in_group_p_spec.
    + apply bool_decide_ext. cbn [groups set_groups fsgid].
      rewrite elem_of_union, elem_of_singleton, elem_of_list_to_set.
      by rewrite (elem_of_Permutation_proper _ _ _ (groups_sort_perm kgids)).
    + apply groups_sort_sorted.
    + cbn [groups set_groups]. rewrite (Permutation_length (groups_sort_perm kgids)).
      subst kgids. rewrite length_fmap. lia.
Qed.

End Setgroups.

(** A mapped group id comes back from its kernel id. *)
Lemma from_make_kgid overflowgid ns gid :
  wf_map (gid_map ns) -> is_u32 gid -> make_kgid ns gid <> INVALID_ID ->
  from_kgid_munged overflowgid ns (make_kgid ns gid) = gid.
Proof.
  intros Hwf Hu Hne. unfold from_kgid_munged, munge, from_kgid, make_kgid in *.
  assert (Hm : maps (gid_map ns) gid (map_id_down (gid_map ns) gid))
    by (by apply map_id_down_iff).
  pose proof (maps_range _ Hwf _ _ Hm) as Hr.
  apply (map_id_up_iff _ Hwf) in Hm as [E Hg]; [|lia].
  rewrite E. by rewrite (proj2 (Z.eqb_neq gid INVALID_ID)).
Qed.

(** getgroups(2) reports what setgroups(2) was given: in a namespace with
    a well-formed map, the ids read back are the ids that were set, up to
    order and whatever the overflow id. *)
Theorem getgroups_setgroups_roundtrip overflowgid ns current gids :
  wf_map (gid_map ns) -> Forall is_u32 gids -> INVALID_ID ∉ (make_kgid ns <$> gids) ->
  let c := set_groups current (make_kgid ns <$> gids) in
  exists ids, getgroups overflowgid ns c (Z.of_nat (length gids))
              = (Z.of_nat (length gids), ids)
    /\ (gids <> [] -> ids ≡ₚ gids).
Proof.
  intros Hwf Hu Hinv c.
  pose proof (groups_sort_perm (make_kgid ns <$> gids)) as Hp.
  assert (Hl : length (groups c) = length gids).
  { subst c. cbn [groups set_groups]. rewrite (Permutation_length Hp). apply length_fmap. }
  unfold getgroups. rewrite Hl. case_if; zbool; [lia|]. case_if; zbool.
  - case_if; zbool; [lia|]. eexists. split; [done|]. intros _.
    unfold groups_to_user. cbn [groups set_groups c]. rewrite Hp, <- list_fmap_compose.
    rewrite (Forall_fmap_ext_1 _ id); [by rewrite list_fmap_id|].
    apply Forall_forall. intros gid Hin. rewrite Forall_forall in Hu.
    apply from_make_kgid; [done|auto|]. intros Ek. apply Hinv, list_elem_of_fmap. eauto.
  - eexists. split; [done|]. intros Hne. destruct gids; [done|cbn in *; lia].
Qed.

(** ** Witnesses *)

#[local] Instance groups_security : SecurityModule := {|
  security_capable _ _ _ _ := true; page_bytes := 4096 |}.

Definition groups_user : cred := Cred 1000 1000 1000 1000 1 [] 0 0 0 0.
Definition groups_store : ns_store := {[ 1%positive := init_user_ns ]}.

Lemma setgroups_correct_witness :
  groups_store !! cred_user_ns groups_user = Some init_user_ns
  /\ setgroups 65536 groups_store groups_user 3 (Some <$> [30; 10; 20]) true true
     = Ok (0, set_groups groups_user [30; 10; 20])
  /\ in_group_p (set_groups groups_user [30; 10; 20]) 20 = true.
Proof.
  destruct (setgroups_correct 65536 groups_store groups_user init_user_ns [30; 10; 20])
    as [E Hin]; [reflexivity|cbn; lia|lia|].
  split; [reflexivity|]. split.
  - etrans; [exact E|]. vm_compute. reflexivity.
  - specialize (Hin 20). vm_compute in Hin |- *. exact Hin.
Defined.

Lemma getgroups_setgroups_roundtrip_witness :
  exists ids, getgroups 65534 (UserNs [] [Extent 0 1000 10] [] (Some 1%positive) 1 1000 1000 0)
    (set_groups groups_user [1003; 1001]) 2 = (2, ids) /\ ids ≡ₚ [3; 1].
Proof.
  destruct (getgroups_setgroups_roundtrip 65534
    (UserNs [] [Extent 0 1000 10] [] (Some 1%positive) 1 1000 1000 0) groups_user [3; 1])
    as (ids & E & Hp).
  - split; repeat constructor; cbn; try lia; try done.
  - by repeat (apply Forall_cons_2; [ulia|]).
  - vm_compute. intros Hk. repeat (apply elem_of_cons in Hk as [Hk|Hk]; [discriminate|]).
    by apply elem_of_nil in Hk.
  - exists ids. split; [exact E|]. by apply Hp.
Defined.
