(* ===== verification/PosixAcl.v ===== *)
(** * Access control lists (fs/posix_acl.c)

    The list itself, its checks and edits, the representation as an extended
    attribute, and the cached lists of an inode.  A list is a value: the code
    edits only clones nobody else refers to, so reference counts have no
    counterpart.  Memory the code leaves uninitialised, the id of an entry
    that has none, is a parameter [junk]. *)

From S2P Require Import Prelude UserNs.

(** ** Constants *)

Definition ENODATA : Z := 61.
Definition ECHILD : Z := 10.
Definition EROFS : Z := 30.

(** Mode bits of the ABI. *)
Definition S_IRWXU : Z := 448.
Definition S_IRWXG : Z := 56.
Definition S_IRWXO : Z := 7.
Definition S_IRWXUGO : Z := Z.lor S_IRWXU (Z.lor S_IRWXG S_IRWXO).
Definition S_IXUGO : Z := 73.
Definition S_IFMT : Z := 61440.
Definition S_IFDIR : Z := 16384.
Definition S_IFREG : Z := 32768.
Definition S_IFLNK : Z := 40960.
Definition S_ISDIR (m : Z) : bool := Z.land m S_IFMT =? S_IFDIR.
Definition S_ISREG (m : Z) : bool := Z.land m S_IFMT =? S_IFREG.
Definition S_ISLNK (m : Z) : bool := Z.land m S_IFMT =? S_IFLNK.

Definition MAY_EXEC : Z := 1.
Definition MAY_WRITE : Z := 2.
Definition MAY_READ : Z := 4.
Definition MAY_NOT_BLOCK : Z := 128.

Definition ACL_UNDEFINED_ID : Z := -1.
Definition ACL_TYPE_ACCESS : Z := 32768.
Definition ACL_TYPE_DEFAULT : Z := 16384.

Definition ACL_USER_OBJ : Z := 1.
Definition ACL_USER : Z := 2.
Definition ACL_GROUP_OBJ : Z := 4.
Definition ACL_GROUP : Z := 8.
Definition ACL_MASK : Z := 16.
Definition ACL_OTHER : Z := 32.

Definition ACL_READ : Z := 4.
Definition ACL_WRITE : Z := 2.
Definition ACL_EXECUTE : Z := 1.

(** [e_id] is the union of [e_uid] and [e_gid]. *)
Record posix_acl_entry := Entry { e_tag : Z; e_perm : Z; e_id : Z }.

Abbreviation posix_acl := (list posix_acl_entry).

Definition set_perm (pa : posix_acl_entry) (perm : Z) : posix_acl_entry :=
  Entry (e_tag pa) perm (e_id pa).

(** The update of one entry through a pointer kept from the loop. *)
Definition update_perm (f : Z -> Z) (i : nat) (acl : posix_acl) : posix_acl :=
  alter (fun pa => set_perm pa (f (e_perm pa))) i acl.

(** ** Checking *)

Fixpoint posix_acl_valid_loop (acl : posix_acl) (state needs_mask : Z) : Z :=
  match acl with
  | [] => if state =? 0 then 0 else - EINVAL
  | pa :: rest =>
      if negb (Z.land (e_perm pa)
                 (Z.lnot (Z.lor ACL_READ (Z.lor ACL_WRITE ACL_EXECUTE))) =? 0) then - EINVAL
      else if e_tag pa =? ACL_USER_OBJ then
        if state =? ACL_USER_OBJ then posix_acl_valid_loop rest ACL_USER needs_mask
        else - EINVAL
      else if e_tag pa =? ACL_USER then
        if negb (state =? ACL_USER) then - EINVAL
        else if e_id pa =? INVALID_ID then - EINVAL
        else posix_acl_valid_loop rest state 1
      else if e_tag pa =? ACL_GROUP_OBJ then
        if state =? ACL_USER then posix_acl_valid_loop rest ACL_GROUP needs_mask
        else - EINVAL
      else if e_tag pa =? ACL_GROUP then
        if negb (state =? ACL_GROUP) then - EINVAL
        else if e_id pa =? INVALID_ID then - EINVAL
        else posix_acl_valid_loop rest state 1
      else if e_tag pa =? ACL_MASK then
        if negb (state =? ACL_GROUP) then - EINVAL
        else posix_acl_valid_loop rest ACL_OTHER needs_mask
      else if e_tag pa =? ACL_OTHER then
        if (state =? ACL_OTHER) || ((state =? ACL_GROUP) && (needs_mask =? 0)) then
          posix_acl_valid_loop rest 0 needs_mask
        else - EINVAL
      else - EINVAL
  end.

Definition posix_acl_valid (acl : posix_acl) : Z := posix_acl_valid_loop acl ACL_USER_OBJ 0.

(** ** Mode bits *)

(** The final [mode] and [not_equiv], or None for an unknown tag. *)
Fixpoint equiv_mode_loop (acl : posix_acl) (mode not_equiv : Z) : option (Z * Z) :=
  match acl with
  | [] => Some (mode, not_equiv)
  | pa :: rest =>
      if e_tag pa =? ACL_USER_OBJ then
        equiv_mode_loop rest (Z.lor mode (Z.shiftl (Z.land (e_perm pa) S_IRWXO) 6)) not_equiv
      else if e_tag pa =? ACL_GROUP_OBJ then
        equiv_mode_loop rest (Z.lor mode (Z.shiftl (Z.land (e_perm pa) S_IRWXO) 3)) not_equiv
      else if e_tag pa =? ACL_OTHER then
        equiv_mode_loop rest (Z.lor mode (Z.land (e_perm pa) S_IRWXO)) not_equiv
      else if e_tag pa =? ACL_MASK then
        equiv_mode_loop rest
          (Z.lor (Z.land mode (Z.lnot S_IRWXG)) (Z.shiftl (Z.land (e_perm pa) S_IRWXO) 3)) 1
      else if (e_tag pa =? ACL_USER) || (e_tag pa =? ACL_GROUP) then
        equiv_mode_loop rest mode 1
      else None
  end.

(** The return value and what [*mode_p] becomes; [mode_p] may be NULL. *)
Definition posix_acl_equiv_mode (acl : option posix_acl) (mode_p : option Z)
    : Z * option Z :=
  match acl with
  | None => (0, mode_p)
  | Some acl =>
      match equiv_mode_loop acl 0 0 with
      | None => (- EINVAL, mode_p)
      | Some (mode, not_equiv) =>
          (not_equiv, (fun m => Z.lor (Z.land m (Z.lnot S_IRWXUGO)) mode) <$> mode_p)
      end
  end.

(** [alloc] says whether the allocation succeeds. *)
Definition posix_acl_from_mode (junk : nat -> Z) (alloc : bool) (mode : Z) : Z + posix_acl :=
  if negb alloc then inl (- ENOMEM)
  else inr [ Entry ACL_USER_OBJ (Z.shiftr (Z.land mode S_IRWXU) 6) (junk 0%nat);
             Entry ACL_GROUP_OBJ (Z.shiftr (Z.land mode S_IRWXG) 3) (junk 1%nat);
             Entry ACL_OTHER (Z.land mode S_IRWXO) (junk 2%nat) ].

(** ** Access *)

(** What the access check asks of the caller: [current_fsuid] and
    [in_group_p]. *)
Class Subject := { subject_uid : Z; subject_in_group : Z -> bool }.

Definition grants (perm want : Z) : bool := Z.land perm want =? want.

Definition check_perm (pa : posix_acl_entry) (want : Z) : Z :=
  if grants (e_perm pa) want then 0 else - EACCES.

(** From the label [mask]: the entries after [pa]. *)
Fixpoint mask_loop (pa : posix_acl_entry) (rest : posix_acl) (want : Z) : Z :=
  match rest with
  | [] => check_perm pa want
  | mask_obj :: rest =>
      if e_tag mask_obj =? ACL_MASK then
        if grants (Z.land (e_perm pa) (e_perm mask_obj)) want then 0 else - EACCES
      else mask_loop pa rest want
  end.

Section Access.
Context {S : Subject}.

Fixpoint permission_loop (i_uid i_gid : Z) (acl : posix_acl) (found : bool) (want : Z) : Z :=
  match acl with
  | [] => - EIO
  | pa :: rest =>
      if e_tag pa =? ACL_USER_OBJ then
        if i_uid =? subject_uid then check_perm pa want
        else permission_loop i_uid i_gid rest found want
      else if e_tag pa =? ACL_USER then
        if e_id pa =? subject_uid then mask_loop pa rest want
        else permission_loop i_uid i_gid rest found want
      else if e_tag pa =? ACL_GROUP_OBJ then
        if subject_in_group i_gid then
          if grants (e_perm pa) want then mask_loop pa rest want
          else permission_loop i_uid i_gid rest true want
        else permission_loop i_uid i_gid rest found want
      else if e_tag pa =? ACL_GROUP then
        if subject_in_group (e_id pa) then
          if grants (e_perm pa) want then mask_loop pa rest want
          else permission_loop i_uid i_gid rest true want
        else permission_loop i_uid i_gid rest found want
      else if e_tag pa =? ACL_MASK then permission_loop i_uid i_gid rest found want
      else if e_tag pa =? ACL_OTHER then
        if found then - EACCES else check_perm pa want
      else - EIO
  end.

Definition posix_acl_permission (i_uid i_gid : Z) (acl : posix_acl) (want : Z) : Z :=
  permission_loop i_uid i_gid acl false
    (Z.land want (Z.lor MAY_READ (Z.lor MAY_WRITE (Z.lor MAY_EXEC MAY_NOT_BLOCK)))).

End Access.

(** ** Editing *)

(** The loop of [posix_acl_create_masq] from entry [i] on: the entries as
    edited, [mode], the places of [group_obj] and [mask_obj], [not_equiv]. *)
Fixpoint create_masq_loop (acl : posix_acl) (i : nat) (mode : Z) (group_obj mask_obj : option nat)
    (not_equiv : Z) : option (posix_acl * Z * option nat * option nat * Z) :=
  match acl with
  | [] => Some ([], mode, group_obj, mask_obj, not_equiv)
  | pa :: rest =>
      let continue pa' mode group_obj mask_obj not_equiv :=
        match create_masq_loop rest (S i) mode group_obj mask_obj not_equiv with
        | None => None
        | Some (rest', mode, group_obj, mask_obj, not_equiv) =>
            Some (pa' :: rest', mode, group_obj, mask_obj, not_equiv)
        end in
      if e_tag pa =? ACL_USER_OBJ then
        let perm := Z.land (e_perm pa) (Z.lor (Z.shiftr mode 6) (Z.lnot S_IRWXO)) in
        continue (set_perm pa perm)
          (Z.land mode (Z.lor (Z.shiftl perm 6) (Z.lnot S_IRWXU))) group_obj mask_obj not_equiv
      else if (e_tag pa =? ACL_USER) || (e_tag pa =? ACL_GROUP) then
        continue pa mode group_obj mask_obj 1
      else if e_tag pa =? ACL_GROUP_OBJ then
        continue pa mode (Some i) mask_obj not_equiv
      else if e_tag pa =? ACL_OTHER then
        let perm := Z.land (e_perm pa) (Z.lor mode (Z.lnot S_IRWXO)) in
        continue (set_perm pa perm)
          (Z.land mode (Z.lor perm (Z.lnot S_IRWXO))) group_obj mask_obj not_equiv
      else if e_tag pa =? ACL_MASK then
        continue pa mode group_obj (Some i) 1
      else None
  end.

(** [mask_obj], or [group_obj] when there is none. *)
Definition class_obj (group_obj mask_obj : option nat) : option nat :=
  match mask_obj with Some i => Some i | None => group_obj end.

(** An error, or the edited list, [*mode_p] and [not_equiv]. *)
Definition posix_acl_create_masq (acl : posix_acl) (mode_p : Z)
    : Z + posix_acl * Z * Z :=
  match create_masq_loop acl 0 mode_p None None 0 with
  | None => inl (- EIO)
  | Some (acl, mode, group_obj, mask_obj, not_equiv) =>
      match class_obj group_obj mask_obj with
      | None => inl (- EIO)
      | Some i =>
          let acl := update_perm
            (fun p => Z.land p (Z.lor (Z.shiftr mode 3) (Z.lnot S_IRWXO))) i acl in
          let perm := default 0 (e_perm <$> acl !! i) in
          let mode := Z.land mode (Z.lor (Z.shiftl perm 3) (Z.lnot S_IRWXG)) in
          inr (acl, Z.lor (Z.land mode_p (Z.lnot S_IRWXUGO)) mode, not_equiv)
      end
  end.

Fixpoint chmod_masq_loop (acl : posix_acl) (i : nat) (mode : Z) (group_obj mask_obj : option nat)
    : option (posix_acl * option nat * option nat) :=
  match acl with
  | [] => Some ([], group_obj, mask_obj)
  | pa :: rest =>
      let continue pa' group_obj mask_obj :=
        match chmod_masq_loop rest (S i) mode group_obj mask_obj with
        | None => None
        | Some (rest', group_obj, mask_obj) => Some (pa' :: rest', group_obj, mask_obj)
        end in
      if e_tag pa =? ACL_USER_OBJ then
        continue (set_perm pa (Z.shiftr (Z.land mode S_IRWXU) 6)) group_obj mask_obj
      else if (e_tag pa =? ACL_USER) || (e_tag pa =? ACL_GROUP) then
        continue pa group_obj mask_obj
      else if e_tag pa =? ACL_GROUP_OBJ then continue pa (Some i) mask_obj
      else if e_tag pa =? ACL_MASK then continue pa group_obj (Some i)
      else if e_tag pa =? ACL_OTHER then
        continue (set_perm pa (Z.land mode S_IRWXO)) group_obj mask_obj
      else None
  end.

Definition __posix_acl_chmod_masq (acl : posix_acl) (mode : Z) : Z + posix_acl :=
  match chmod_masq_loop acl 0 mode None None with
  | None => inl (- EIO)
  | Some (acl, group_obj, mask_obj) =>
      match class_obj group_obj mask_obj with
      | None => inl (- EIO)
      | Some i => inr (update_perm (fun _ => Z.shiftr (Z.land mode S_IRWXG) 3) i acl)
      end
  end.

(** [posix_acl_clone]; NULL for a NULL list or without memory. *)
Definition posix_acl_clone (alloc : bool) (acl : option posix_acl) : option posix_acl :=
  match acl with
  | None => None
  | Some acl => if alloc then Some acl else None
  end.

(** The return value, [*acl] and [*mode_p]. *)
Definition __posix_acl_create (alloc : bool) (acl : option posix_acl) (mode_p : Z)
    : Z * option posix_acl * Z :=
  match posix_acl_clone alloc acl with
  | None => (- ENOMEM, None, mode_p)
  | Some clone =>
      match posix_acl_create_masq clone mode_p with
      | inl err => (err, None, mode_p)
      | inr (clone, mode, err) => (err, Some clone, mode)
      end
  end.

Definition __posix_acl_chmod (alloc : bool) (acl : option posix_acl) (mode : Z)
    : Z * option posix_acl :=
  match posix_acl_clone alloc acl with
  | None => (- ENOMEM, None)
  | Some clone =>
      match __posix_acl_chmod_masq clone mode with
      | inl err => (err, None)
      | inr clone => (0, Some clone)
      end
  end.
