(* ===== verification/InodeAcl.v ===== *)
(** * Lists of inodes: extended attributes, the cache and permission checks

    fs/posix_acl.c from the cache to [simple_acl_create], the permission
    checks of fs/namei.c, [inode_owner_or_capable] of fs/inode.c and
    [capable_wrt_inode_uidgid] of kernel/capability.c. *)

From stdpp Require Import gmap.
From S2P Require Import Prelude CText UserNs Groups PosixAcl.

(** ** The extended attribute (include/linux/posix_acl_xattr.h) *)

Definition POSIX_ACL_XATTR_VERSION : Z := 2.

(** Little endian fields, as bytes. *)
Definition le16_to_cpu (b0 b1 : Z) : Z := b0 + 256 * b1.
Definition le32_to_cpu (b0 b1 b2 b3 : Z) : Z :=
  b0 + 256 * b1 + 65536 * b2 + 16777216 * b3.
Definition cpu_to_le16 (x : Z) : list Z := [x mod 256; x / 256 mod 256].
Definition cpu_to_le32 (x : Z) : list Z :=
  [x mod 256; x / 256 mod 256; x / 65536 mod 256; x / 16777216 mod 256].
Definition s16 (x : Z) : Z := (x + 32768) mod 65536 - 32768.

Definition XATTR_HEADER_SIZE : Z := 4.
Definition XATTR_ENTRY_SIZE : Z := 8.

Definition posix_acl_xattr_size (count : Z) : Z :=
  u64 (XATTR_HEADER_SIZE + count * XATTR_ENTRY_SIZE).

Definition posix_acl_xattr_count (size : Z) : Z :=
  if size <? XATTR_HEADER_SIZE then -1
  else
    let size := size - XATTR_HEADER_SIZE in
    if negb (size mod XATTR_ENTRY_SIZE =? 0) then -1
    else s32 (size / XATTR_ENTRY_SIZE).

Definition xattr_version (value : list Z) : option Z :=
  match value with
  | b0 :: b1 :: b2 :: b3 :: _ => Some (le32_to_cpu b0 b1 b2 b3)
  | _ => None
  end.

(** The entries after the header, [count] of them. *)
Fixpoint fix_xattr_entries (to from : user_namespace) (count : nat) (value : list Z) : list Z :=
  match count, value with
  | S count, t0 :: t1 :: p0 :: p1 :: i0 :: i1 :: i2 :: i3 :: rest =>
      let e_tag := le16_to_cpu t0 t1 in
      let e_id := le32_to_cpu i0 i1 i2 i3 in
      let new_id :=
        if e_tag =? ACL_USER then cpu_to_le32 (from_kuid to (make_kuid from e_id))
        else if e_tag =? ACL_GROUP then cpu_to_le32 (from_kgid to (make_kgid from e_id))
        else [i0; i1; i2; i3] in
      t0 :: t1 :: p0 :: p1 :: new_id ++ fix_xattr_entries to from count rest
  | _, _ => value
  end.

(** In place; [value] may be NULL. *)
Definition posix_acl_fix_xattr_userns (to from : user_namespace) (value : option (list Z))
    : option (list Z) :=
  match value with
  | None => None
  | Some value =>
      let size := Z.of_nat (length value) in
      if size <? XATTR_HEADER_SIZE then Some value
      else if negb (bool_decide (xattr_version value = Some POSIX_ACL_XATTR_VERSION))
      then Some value
      else
        let count := posix_acl_xattr_count size in
        if count <? 0 then Some value
        else if count =? 0 then Some value
        else Some (take 4 value
                   ++ fix_xattr_entries to from (Z.to_nat count) (drop 4 value))
  end.

(** [init] is the store's [init_user_ns]; namespaces are compared by
    reference. *)
Definition posix_acl_fix_xattr_from_user (st : ns_store) (current : cred)
    (value : option (list Z)) : outcome (option (list Z)) :=
  if (cred_user_ns current =? 1)%positive then Ok value
  else
    match st !! 1%positive, st !! cred_user_ns current with
    | Some init, Some user_ns => Ok (posix_acl_fix_xattr_userns init user_ns value)
    | _, _ => Bug
    end.

Definition posix_acl_fix_xattr_to_user (st : ns_store) (current : cred)
    (value : option (list Z)) : outcome (option (list Z)) :=
  if (cred_user_ns current =? 1)%positive then Ok value
  else
    match st !! 1%positive, st !! cred_user_ns current with
    | Some init, Some user_ns => Ok (posix_acl_fix_xattr_userns user_ns init value)
    | _, _ => Bug
    end.

Fixpoint from_xattr_entries (user_ns : user_namespace) (junk : nat -> Z) (n count : nat)
    (value : list Z) : Z + posix_acl :=
  match count with
  | O => inr []
  | S count =>
      match value with
      | t0 :: t1 :: p0 :: p1 :: i0 :: i1 :: i2 :: i3 :: rest =>
          let e_tag := s16 (le16_to_cpu t0 t1) in
          let e_perm := le16_to_cpu p0 p1 in
          let e_id := le32_to_cpu i0 i1 i2 i3 in
          let continue id :=
            match from_xattr_entries user_ns junk (S n) count rest with
            | inl e => inl e
            | inr acl => inr (Entry e_tag e_perm id :: acl)
            end in
          if (e_tag =? ACL_USER_OBJ) || (e_tag =? ACL_GROUP_OBJ) || (e_tag =? ACL_MASK)
             || (e_tag =? ACL_OTHER) then continue (junk n)
          else if e_tag =? ACL_USER then
            let e_uid := make_kuid user_ns e_id in
            if e_uid =? INVALID_ID then inl (- EINVAL) else continue e_uid
          else if e_tag =? ACL_GROUP then
            let e_gid := make_kgid user_ns e_id in
            if e_gid =? INVALID_ID then inl (- EINVAL) else continue e_gid
          else inl (- EINVAL)
      | _ => inl (- EFAULT)
      end
  end.

(** An error, NULL or a list; [size] is the length of the value.  The entry
    loop stays inside the value because [count] comes from its length. *)
Definition posix_acl_from_xattr (user_ns : user_namespace) (junk : nat -> Z) (alloc : bool)
    (value : option (list Z)) : Z + option posix_acl :=
  match value with
  | None => inr None
  | Some value =>
      let size := Z.of_nat (length value) in
      if size <? XATTR_HEADER_SIZE then inl (- EINVAL)
      else if negb (bool_decide (xattr_version value = Some POSIX_ACL_XATTR_VERSION))
      then inl (- EOPNOTSUPP)
      else
        let count := posix_acl_xattr_count size in
        if count <? 0 then inl (- EINVAL)
        else if count =? 0 then inr None
        else if negb alloc then inl (- ENOMEM)
        else
          match from_xattr_entries user_ns junk 0 (Z.to_nat count) (drop 4 value) with
          | inl e => inl e
          | inr acl => inr (Some acl)
          end
  end.

Definition xattr_entry (user_ns : user_namespace) (acl_e : posix_acl_entry) : list Z :=
  cpu_to_le16 (e_tag acl_e) ++ cpu_to_le16 (e_perm acl_e)
  ++ (if e_tag acl_e =? ACL_USER then cpu_to_le32 (from_kuid user_ns (e_id acl_e))
      else if e_tag acl_e =? ACL_GROUP then cpu_to_le32 (from_kgid user_ns (e_id acl_e))
      else cpu_to_le32 ACL_UNDEFINED_ID).

(** The return value and the bytes written; [buffer] is false for NULL. *)
Definition posix_acl_to_xattr (user_ns : user_namespace) (acl : posix_acl) (buffer : bool)
    (size : Z) : Z * list Z :=
  let real_size := s32 (posix_acl_xattr_size (Z.of_nat (length acl))) in
  if negb buffer then (real_size, [])
  else if u64 real_size >? size then (- ERANGE, [])
  else (real_size, cpu_to_le32 POSIX_ACL_XATTR_VERSION ++ concat (xattr_entry user_ns <$> acl)).

(** ** The cache of an inode *)

Inductive cached_acl := ACL_NOT_CACHED | Cached (acl : option posix_acl).

(** [i_posixacl] and [i_immutable] are [IS_POSIXACL] and [IS_IMMUTABLE],
    [i_rdonly] the superblock's [MS_RDONLY]. *)
Record inode := Inode {
  i_mode : Z; i_uid : Z; i_gid : Z;
  i_acl : cached_acl; i_default_acl : cached_acl;
  i_ctime : Z;
  i_posixacl : bool; i_immutable : bool; i_rdonly : bool
}.

Definition set_mode (i : inode) (mode : Z) : inode :=
  Inode mode (i_uid i) (i_gid i) (i_acl i) (i_default_acl i) (i_ctime i)
    (i_posixacl i) (i_immutable i) (i_rdonly i).
Definition set_ctime (i : inode) (now : Z) : inode :=
  Inode (i_mode i) (i_uid i) (i_gid i) (i_acl i) (i_default_acl i) now
    (i_posixacl i) (i_immutable i) (i_rdonly i).
Definition set_acls (i : inode) (acl default_acl : cached_acl) : inode :=
  Inode (i_mode i) (i_uid i) (i_gid i) acl default_acl (i_ctime i)
    (i_posixacl i) (i_immutable i) (i_rdonly i).

(** [acl_by_type], as the reading and the writing of the slot. *)
Definition acl_by_type (i : inode) (type : Z) : outcome cached_acl :=
  if type =? ACL_TYPE_ACCESS then Ok (i_acl i)
  else if type =? ACL_TYPE_DEFAULT then Ok (i_default_acl i)
  else Bug.

Definition store_acl (i : inode) (type : Z) (c : cached_acl) : outcome inode :=
  if type =? ACL_TYPE_ACCESS then Ok (set_acls i c (i_default_acl i))
  else if type =? ACL_TYPE_DEFAULT then Ok (set_acls i (i_acl i) c)
  else Bug.

Definition get_cached_acl (i : inode) (type : Z) : outcome cached_acl := acl_by_type i type.
Definition get_cached_acl_rcu (i : inode) (type : Z) : outcome cached_acl := acl_by_type i type.
Definition set_cached_acl (i : inode) (type : Z) (acl : option posix_acl) : outcome inode :=
  store_acl i type (Cached acl).
Definition forget_cached_acl (i : inode) (type : Z) : outcome inode :=
  store_acl i type ACL_NOT_CACHED.
Definition forget_all_cached_acls (i : inode) : inode :=
  set_acls i ACL_NOT_CACHED ACL_NOT_CACHED.

(** The callbacks of a filesystem; one that has none leaves NULL. *)
Record inode_operations := InodeOps {
  op_get_acl : option (inode -> Z -> outcome (inode * (Z + option posix_acl)));
  op_set_acl : option (inode -> option posix_acl -> Z -> outcome (Z * inode));
  op_permission : option (inode -> Z -> outcome (inode * Z))
}.

Definition get_acl (i_op : inode_operations) (i : inode) (type : Z)
    : outcome (inode * (Z + option posix_acl)) :=
  let! acl := get_cached_acl i type in
  match acl with
  | Cached acl => Ok (i, inr acl)
  | ACL_NOT_CACHED =>
      if negb (i_posixacl i) then Ok (i, inr None)
      else
        match op_get_acl i_op with
        | None => let! i := set_cached_acl i type None in Ok (i, inr None)
        | Some get => get i type
        end
  end.

Definition posix_acl_chmod (i_op : inode_operations) (alloc : bool) (i : inode) (mode : Z)
    : outcome (Z * inode) :=
  if negb (i_posixacl i) then Ok (0, i)
  else
    match op_set_acl i_op with
    | None => Ok (- EOPNOTSUPP, i)
    | Some set_acl =>
        let! (i, acl) := get_acl i_op i ACL_TYPE_ACCESS in
        match acl with
        | inl err => Ok (if err =? - EOPNOTSUPP then 0 else err, i)
        | inr None => Ok (0, i)
        | inr (Some acl) =>
            let (ret, acl) := __posix_acl_chmod alloc (Some acl) mode in
            if negb (ret =? 0) then Ok (ret, i)
            else set_acl i acl ACL_TYPE_ACCESS
        end
    end.

(** The directory afterwards, and an error or [*mode], [*default_acl] and
    [*acl]. *)
Definition posix_acl_create (i_op : inode_operations) (alloc : bool) (current_umask : Z)
    (dir : inode) (mode : Z)
    : outcome (inode * (Z + Z * option posix_acl * option posix_acl)) :=
  if S_ISLNK mode || negb (i_posixacl dir) then Ok (dir, inr (mode, None, None))
  else
    let! (dir, p) := get_acl i_op dir ACL_TYPE_DEFAULT in
    let apply_umask := inr (Z.land mode (Z.lnot current_umask), None, None) in
    match p with
    | inl err => Ok (dir, if err =? - EOPNOTSUPP then apply_umask else inl err)
    | inr None => Ok (dir, apply_umask)
    | inr (Some p) =>
        match posix_acl_clone alloc (Some p) with
        | None => Ok (dir, inl (- ENOMEM))
        | Some acl =>
            match posix_acl_create_masq acl mode with
            | inl _ => Ok (dir, inl (- ENOMEM))
            | inr (acl, mode, ret) =>
                let acl := if ret =? 0 then None else Some acl in
                let default_acl := if negb (S_ISDIR mode) then None else Some p in
                Ok (dir, inr (mode, default_acl, acl))
            end
        end
    end.

(** [now] is [CURRENT_TIME]. *)
Definition simple_set_acl (now : Z) (i : inode) (acl : option posix_acl) (type : Z)
    : outcome (Z * inode) :=
  let store i acl :=
    let! i := set_cached_acl (set_ctime i now) type acl in Ok (0, i) in
  if type =? ACL_TYPE_ACCESS then
    let '(error, mode) := posix_acl_equiv_mode acl (Some (i_mode i)) in
    let i := set_mode i (default (i_mode i) mode) in
    if error <? 0 then Ok (0, i)
    else if error =? 0 then store i None
    else store i acl
  else store i acl.

(** The directory and the new inode. *)
Definition simple_acl_create (i_op : inode_operations) (alloc : bool) (current_umask : Z)
    (dir i : inode) : outcome (Z * inode * inode) :=
  let! (dir, r) := posix_acl_create i_op alloc current_umask dir (i_mode i) in
  match r with
  | inl error => Ok (error, dir, i)
  | inr (mode, default_acl, acl) =>
      let! i := set_cached_acl (set_mode i mode) ACL_TYPE_DEFAULT default_acl in
      let! i := set_cached_acl i ACL_TYPE_ACCESS acl in
      Ok (0, dir, i)
  end.

(** tmpfs (mm/shmem.c): no [get_acl], [simple_set_acl]. *)
Definition simple_ops (now : Z) : inode_operations :=
  InodeOps None (Some (simple_set_acl now)) None.

(** ** Permission (fs/namei.c) *)

#[global] Instance cred_subject (c : cred) : Subject := {|
  subject_uid := fsuid c; subject_in_group := in_group_p c |}.

Definition CAP_DAC_OVERRIDE : Z := 1.
Definition CAP_DAC_READ_SEARCH : Z := 2.
Definition CAP_FOWNER : Z := 3.
Definition AID_SDCARD_RW : Z := 1015.
Definition AID_SDCARD_R : Z := 1028.

Section Permission.
Context `{SecurityModule} (i_op : inode_operations).
(** The caller. *)
Context (st : ns_store) (current : cred).

#[local] Existing Instance cred_subject.

Definition check_acl (i : inode) (mask : Z) : outcome (inode * Z) :=
  if negb (Z.land mask MAY_NOT_BLOCK =? 0) then
    let! acl := get_cached_acl_rcu i ACL_TYPE_ACCESS in
    match acl with
    | Cached None => Ok (i, - EAGAIN)
    | ACL_NOT_CACHED => Ok (i, - ECHILD)
    | Cached (Some acl) =>
        Ok (i, posix_acl_permission (S := cred_subject current) (i_uid i) (i_gid i) acl
                 (Z.land mask (Z.lnot MAY_NOT_BLOCK)))
    end
  else
    let! (i, acl) := get_acl i_op i ACL_TYPE_ACCESS in
    match acl with
    | inl err => Ok (i, err)
    | inr (Some acl) =>
        Ok (i, posix_acl_permission (S := cred_subject current) (i_uid i) (i_gid i) acl mask)
    | inr None => Ok (i, - EAGAIN)
    end.

(** The comparison with the mode bits already shifted to the class. *)
Definition mode_check (mode mask : Z) : Z :=
  if Z.land (Z.land mask (Z.lnot mode)) (Z.lor MAY_READ (Z.lor MAY_WRITE MAY_EXEC)) =? 0
  then 0 else - EACCES.

Definition acl_permission_check (i : inode) (mask : Z) : outcome (inode * Z) :=
  let mode := i_mode i in
  if fsuid current =? i_uid i then Ok (i, mode_check (Z.shiftr mode 6) mask)
  else
    let by_group i :=
      if in_group_p current (i_gid i) then mode_check (Z.shiftr mode 3) mask
      else mode_check mode mask in
    if i_posixacl i && negb (Z.land mode S_IRWXG =? 0) then
      let! (i, error) := check_acl i mask in
      if negb (error =? - EAGAIN) then Ok (i, error) else Ok (i, by_group i)
    else Ok (i, by_group i).

Definition capable_wrt_inode_uidgid (i : inode) (cap : Z) : outcome bool :=
  match st !! cred_user_ns current with
  | None => Bug
  | Some ns =>
      let! capable := ns_capable st current (cred_user_ns current) cap in
      Ok (capable && kuid_has_mapping ns (i_uid i) && kgid_has_mapping ns (i_gid i))
  end.

Definition inode_owner_or_capable (i : inode) : outcome bool :=
  if fsuid current =? i_uid i then Ok true
  else
    match st !! cred_user_ns current with
    | None => Bug
    | Some ns =>
        let! capable := ns_capable st current (cred_user_ns current) CAP_FOWNER in
        if capable && kuid_has_mapping ns (i_uid i) then Ok true
        else if (i_gid i =? AID_SDCARD_RW) || (i_gid i =? AID_SDCARD_R) then Ok true
        else Ok false
    end.

Definition generic_permission (i : inode) (mask : Z) : outcome (inode * Z) :=
  let! (i, ret) := acl_permission_check i mask in
  if negb (ret =? - EACCES) then Ok (i, ret)
  else if S_ISDIR (i_mode i) then
    let! override := capable_wrt_inode_uidgid i CAP_DAC_OVERRIDE in
    if override then Ok (i, 0)
    else if Z.land mask MAY_WRITE =? 0 then
      let! search := capable_wrt_inode_uidgid i CAP_DAC_READ_SEARCH in
      Ok (i, if search then 0 else - EACCES)
    else Ok (i, - EACCES)
  else
    let! override :=
      if (Z.land mask MAY_EXEC =? 0) || negb (Z.land (i_mode i) S_IXUGO =? 0) then
        capable_wrt_inode_uidgid i CAP_DAC_OVERRIDE
      else Ok false in
    if override then Ok (i, 0)
    else if Z.land mask (Z.lor MAY_READ (Z.lor MAY_WRITE MAY_EXEC)) =? MAY_READ then
      let! search := capable_wrt_inode_uidgid i CAP_DAC_READ_SEARCH in
      Ok (i, if search then 0 else - EACCES)
    else Ok (i, - EACCES).

(** [IOP_FASTPERM] only remembers that there is no callback. *)
Definition do_inode_permission (i : inode) (mask : Z) : outcome (inode * Z) :=
  match op_permission i_op with
  | Some permission => permission i mask
  | None => generic_permission i mask
  end.

(** The device cgroup and the security module, which may refuse. *)
Context (devcgroup_inode_permission security_inode_permission : inode -> Z -> Z).

Definition __inode_permission (i : inode) (mask : Z) : outcome (inode * Z) :=
  if negb (Z.land mask MAY_WRITE =? 0) && i_immutable i then Ok (i, - EACCES)
  else
    let! (i, retval) := do_inode_permission i mask in
    if negb (retval =? 0) then Ok (i, retval)
    else
      let retval := devcgroup_inode_permission i mask in
      if negb (retval =? 0) then Ok (i, retval)
      else Ok (i, security_inode_permission i mask).

Definition sb_permission (i : inode) (mask : Z) : Z :=
  if negb (Z.land mask MAY_WRITE =? 0)
     && (i_rdonly i && (S_ISREG (i_mode i) || S_ISDIR (i_mode i) || S_ISLNK (i_mode i)))
  then - EROFS else 0.

Definition inode_permission (i : inode) (mask : Z) : outcome (inode * Z) :=
  let retval := sb_permission i mask in
  if negb (retval =? 0) then Ok (i, retval) else __inode_permission i mask.

(** ** The attribute's handlers *)

Definition posix_acl_xattr_get (i : inode) (buffer : bool) (size type : Z)
    : outcome (inode * (Z * list Z)) :=
  if negb (i_posixacl i) then Ok (i, (- EOPNOTSUPP, []))
  else if S_ISLNK (i_mode i) then Ok (i, (- EOPNOTSUPP, []))
  else
    let! (i, acl) := get_acl i_op i type in
    match acl with
    | inl err => Ok (i, (err, []))
    | inr None => Ok (i, (- ENODATA, []))
    | inr (Some acl) =>
        match st !! 1%positive with
        | None => Bug
        | Some init => Ok (i, posix_acl_to_xattr init acl buffer size)
        end
    end.

Definition posix_acl_xattr_set (junk : nat -> Z) (alloc : bool) (i : inode)
    (value : option (list Z)) (type : Z) : outcome (Z * inode) :=
  if negb (i_posixacl i) then Ok (- EOPNOTSUPP, i)
  else
    match op_set_acl i_op with
    | None => Ok (- EOPNOTSUPP, i)
    | Some set_acl =>
        if (type =? ACL_TYPE_DEFAULT) && negb (S_ISDIR (i_mode i)) then
          Ok (match value with Some _ => - EACCES | None => 0 end, i)
        else
          let! owner := inode_owner_or_capable i in
          if negb owner then Ok (- EPERM, i)
          else
            match st !! 1%positive with
            | None => Bug
            | Some init =>
                match posix_acl_from_xattr init junk alloc value with
                | inl err => Ok (err, i)
                | inr None => set_acl i None type
                | inr (Some acl) =>
                    let ret := posix_acl_valid acl in
                    if negb (ret =? 0) then Ok (ret, i) else set_acl i (Some acl) type
                end
            end
    end.

End Permission.
