(* ===== verification/PosixAclFacts.v ===== *)
(** * Access control lists: valid lists, mode bits and edits *)

From S2P Require Import Prelude UserNs PosixAcl.

(** ** Permission bits *)

Definition perm_ok (p : Z) : Prop := 0 <= p < 8.

Lemma perm_ok_iff p : Z.land p (Z.lnot 7) = 0 <-> perm_ok p.
Proof.
  change (Z.land p (Z.lnot 7)) with (Z.land p (Z.lnot (Z.ones 3))).
  rewrite <- Z.ldiff_land, Z.ldiff_ones_r by lia.
  rewrite Z.shiftl_mul_pow2, Z.shiftr_div_pow2 by lia. unfold perm_ok.
  change (2 ^ 3) with 8. pose proof (Z.div_mod p 8). pose proof (Z.mod_pos_bound p 8). nia.
Qed.

Lemma perm_bit p n : perm_ok p -> ~ 0 <= n < 3 -> Z.testbit p n = false.
Proof.
  intros [H0 H8] Hn. destruct (decide (n < 0)); [by apply Z.testbit_neg_r|].
  destruct (decide (p = 0)) as [->|]; [apply Z.bits_0|].
  apply Z.bits_above_log2; [done|]. apply Z.lt_le_trans with 3; [|lia].
  apply Z.log2_lt_pow2; [lia|]. change (2 ^ 3) with 8. lia.
Qed.

Lemma perm_ok_bits p : (forall n, 3 <= n -> Z.testbit p n = false) -> perm_ok p.
Proof.
  intros Hb. apply perm_ok_iff, Z.bits_inj'. intros n Hn. rewrite Z.land_spec, Z.lnot_spec, Z.bits_0 by done.
  destruct (decide (3 <= n)); [by rewrite Hb|].
  assert (n = 0 \/ n = 1 \/ n = 2) as [-> | [-> | ->]] by lia; apply andb_false_r.
Qed.

Lemma ones_bit k n : 0 <= k -> 0 <= n -> Z.testbit (Z.ones k) n = bool_decide (n < k).
Proof.
  intros Hk Hn. rewrite Z.testbit_ones_nonneg by lia.
  destruct (Z.ltb_spec n k); symmetry;
    [apply bool_decide_eq_true_2|apply bool_decide_eq_false_2]; lia.
Qed.

Lemma bit_7 n : 0 <= n -> Z.testbit 7 n = bool_decide (n < 3).
Proof. apply (ones_bit 3); lia. Qed.

Lemma bit_56 n : 0 <= n -> Z.testbit 56 n = bool_decide (3 <= n < 6).
Proof.
  intros Hn. change 56 with (Z.shiftl 7 3). rewrite Z.shiftl_spec by done.
  destruct (decide (n < 3)).
  - rewrite Z.testbit_neg_r by lia. symmetry. apply bool_decide_eq_false_2. lia.
  - rewrite bit_7 by lia. apply bool_decide_ext. lia.
Qed.

Lemma bit_448 n : 0 <= n -> Z.testbit 448 n = bool_decide (6 <= n < 9).
Proof.
  intros Hn. change 448 with (Z.shiftl 7 6). rewrite Z.shiftl_spec by done.
  destruct (decide (n < 6)).
  - rewrite Z.testbit_neg_r by lia. symmetry. apply bool_decide_eq_false_2. lia.
  - rewrite bit_7 by lia. apply bool_decide_ext. lia.
Qed.

Lemma bit_511 n : 0 <= n -> Z.testbit 511 n = bool_decide (n < 9).
Proof. apply (ones_bit 9); lia. Qed.

(** Reduces [Z.testbit] of an expression over permissions and modes to the
    bits of its variables. *)
Ltac bit_step :=
  match goal with
  | |- context [Z.testbit ?a ?i] =>
      first
        [ rewrite (Z.testbit_neg_r a i) by lia
        | lazymatch a with
          | Z.land ?x ?y => rewrite (Z.land_spec x y i)
          | Z.lor ?x ?y => rewrite (Z.lor_spec x y i)
          | Z.lnot ?x => rewrite (Z.lnot_spec x i) by lia
          | Z.shiftl ?x ?k => rewrite (Z.shiftl_spec x k i) by lia
          | Z.shiftr ?x ?k => rewrite (Z.shiftr_spec x k i) by lia
          | 0 => rewrite (Z.bits_0 i)
          | 7 => rewrite (bit_7 i) by lia
          | 56 => rewrite (bit_56 i) by lia
          | 448 => rewrite (bit_448 i) by lia
          | 511 => rewrite (bit_511 i) by lia
          end
        | rewrite (perm_bit a i) by (assumption || lia) ]
  | |- context [bool_decide ?P] =>
      first [ rewrite (bool_decide_eq_true_2 P) by lia
            | rewrite (bool_decide_eq_false_2 P) by lia ]
  | |- context [?n - ?k + ?k] => replace (n - k + k) with n by lia
  | |- context [?n + ?k - ?k] => replace (n + k - k) with n by lia
  | |- context [?n + ?k - ?l] =>
      lazymatch isZcst k with true => lazymatch isZcst l with true =>
        let d := eval compute in (k - l) in
        lazymatch d with
        | Z.neg ?p => replace (n + k - l) with (n - Z.pos p) by lia
        | _ => replace (n + k - l) with (n + d) by lia
        end end end
  end.

Ltac bit_cases :=
  repeat match goal with |- context [Z.testbit ?a ?i] => destruct (Z.testbit a i) end;
  reflexivity.

Ltac mode_bits :=
  unfold S_IRWXU, S_IRWXG, S_IRWXO in *;
  change S_IRWXUGO with 511 in *;
  apply Z.bits_inj'; let n := fresh "n" in let Hn := fresh "Hn" in
  intros n Hn;
  let H := fresh in
  assert (0 <= n < 3 \/ 3 <= n < 6 \/ 6 <= n < 9 \/ 9 <= n) as H by lia;
  destruct H as [H | [H | [H | H]]]; repeat (bit_step; cbn [negb andb orb]); bit_cases.

Lemma land_perm p m : perm_ok p -> Z.land p (Z.lor m (Z.lnot S_IRWXO)) = Z.land p m.
Proof. intros. mode_bits. Qed.

Lemma perm_ok_land p m : perm_ok p -> perm_ok (Z.land p m).
Proof. intros Hp. apply perm_ok_bits. intros n Hn. by rewrite Z.land_spec, perm_bit by (done || lia). Qed.

(** The permission of a class in a mode. *)
Definition owner_bits (m : Z) : Z := Z.land (Z.shiftr m 6) 7.
Definition group_bits (m : Z) : Z := Z.land (Z.shiftr m 3) 7.
Definition other_bits (m : Z) : Z := Z.land m 7.

Lemma perm_ok_bits_7 x : perm_ok (Z.land x 7).
Proof. rewrite Z.land_comm. apply perm_ok_land. by unfold perm_ok. Qed.

(** ** The shape of valid lists

    What a valid list says, apart from the ids of entries that have none. *)

Record acl_view := View {
  v_user : Z; v_users : list (Z * Z);
  v_group : Z; v_groups : list (Z * Z);
  v_mask : option Z; v_other : Z
}.

Record acl_junk := Junk { j_user : Z; j_group : Z; j_mask : Z; j_other : Z }.

Definition named (tag : Z) (ip : Z * Z) : posix_acl_entry := Entry tag ip.2 ip.1.

Definition mask_entries (j : acl_junk) (mask : option Z) : posix_acl :=
  match mask with Some p => [Entry ACL_MASK p (j_mask j)] | None => [] end.

Definition acl_of (j : acl_junk) (v : acl_view) : posix_acl :=
  Entry ACL_USER_OBJ (v_user v) (j_user j)
  :: (named ACL_USER <$> v_users v)
  ++ Entry ACL_GROUP_OBJ (v_group v) (j_group j)
  :: (named ACL_GROUP <$> v_groups v)
  ++ mask_entries j (v_mask v)
  ++ [Entry ACL_OTHER (v_other v) (j_other j)].

Definition named_ok (ip : Z * Z) : Prop := perm_ok ip.2 /\ ip.1 <> INVALID_ID.

Record wf_view (v : acl_view) : Prop := {
  wv_user : perm_ok (v_user v);
  wv_users : Forall named_ok (v_users v);
  wv_group : perm_ok (v_group v);
  wv_groups : Forall named_ok (v_groups v);
  wv_mask : forall p, v_mask v = Some p -> perm_ok p;
  wv_other : perm_ok (v_other v);
  wv_needs_mask : v_mask v = None -> v_users v = [] /\ v_groups v = []
}.

(** Tags are compared as constants. *)
Ltac tags :=
  unfold ACL_USER_OBJ, ACL_USER, ACL_GROUP_OBJ, ACL_GROUP, ACL_MASK, ACL_OTHER in *.

Lemma perm_test p :
  (Z.land p (Z.lnot (Z.lor ACL_READ (Z.lor ACL_WRITE ACL_EXECUTE))) =? 0) = true <-> perm_ok p.
Proof. rewrite Z.eqb_eq. apply perm_ok_iff. Qed.

Lemma valid_done acl nm : posix_acl_valid_loop acl 0 nm = 0 -> acl = [].
Proof.
  destruct acl as [|[t p i] acl]; [done|]. cbn [posix_acl_valid_loop e_tag e_perm e_id].
  tags. repeat (case_if; cbn; try done).
Qed.

Lemma valid_other acl nm :
  posix_acl_valid_loop acl ACL_OTHER nm = 0 ->
  exists p i, acl = [Entry ACL_OTHER p i] /\ perm_ok p.
Proof.
  destruct acl as [|[t p i] acl]; [done|]. cbn [posix_acl_valid_loop e_tag e_perm e_id].
  case_if; [done|]. tags. repeat (case_if; cbn; try done). intros ->%valid_done.
  exists p, i. split; [by subst|]. by apply perm_ok_iff.
Qed.

Lemma valid_group acl nm :
  posix_acl_valid_loop acl ACL_GROUP nm = 0 ->
  exists gs j mask p, acl = (named ACL_GROUP <$> gs) ++ mask_entries j mask
                            ++ [Entry ACL_OTHER p (j_other j)]
    /\ Forall named_ok gs /\ (forall q, mask = Some q -> perm_ok q) /\ perm_ok p
    /\ (mask = None -> gs = [] /\ nm = 0).
Proof.
  revert nm. induction acl as [|[t p i] acl IH]; intros nm; [done|].
  cbn [posix_acl_valid_loop e_tag e_perm e_id].
  destruct (Z.land p _ =? 0) eqn:Hp; cbn [negb]; [|done]. apply perm_test in Hp.
  tags. repeat (case_if; cbn; try done); subst.
  - intros (gs & j & mask & q & -> & Hg & Hm & Hq & Hn)%IH.
    exists ((i, p) :: gs), j, mask, q. split_and!; try done.
    + by constructor.
    + intros Em. by apply Hn in Em as [_ ?].
  - intros (q & k & -> & Hq)%valid_other.
    exists [], (Junk 0 0 i k), (Some p), q. split_and!; naive_solver.
  - intros ->%valid_done. exists [], (Junk 0 0 0 i), None, p. split_and!; done.
Qed.

Lemma valid_users acl nm :
  posix_acl_valid_loop acl ACL_USER nm = 0 ->
  exists us gp gi rest nm', acl = (named ACL_USER <$> us) ++ Entry ACL_GROUP_OBJ gp gi :: rest
    /\ Forall named_ok us /\ perm_ok gp /\ posix_acl_valid_loop rest ACL_GROUP nm' = 0
    /\ (nm' = 0 -> us = [] /\ nm = 0).
Proof.
  revert nm. induction acl as [|[t p i] acl IH]; intros nm; [done|].
  cbn [posix_acl_valid_loop e_tag e_perm e_id].
  destruct (Z.land p _ =? 0) eqn:Hp; cbn [negb]; [|done]. apply perm_test in Hp.
  tags. repeat (case_if; cbn; try done); subst.
  - intros (us & gp & gi & rest & nm' & -> & Hu & Hg & Hr & Hn)%IH.
    exists ((i, p) :: us), gp, gi, rest, nm'. split_and!; try done; [by constructor|].
    intros En. by apply Hn in En as [_ ?].
  - intros Hv. exists [], p, i, acl, nm. split_and!; done.
Qed.

Lemma posix_acl_valid_view acl :
  posix_acl_valid acl = 0 -> exists j v, wf_view v /\ acl = acl_of j v.
Proof.
  unfold posix_acl_valid. destruct acl as [|[t p i] acl]; [done|].
  cbn [posix_acl_valid_loop e_tag e_perm e_id].
  destruct (Z.land p _ =? 0) eqn:Hp; cbn [negb]; [|done]. apply perm_test in Hp.
  destruct (t =? ACL_USER_OBJ) eqn:Et; zbool; [|tags; repeat (case_if; cbn; try done)].
  subst t. cbn [Z.eqb]. intros (us & gp & gi & rest & nm & -> & Hu & Hg & Hr & Hn)%valid_users.
  apply valid_group in Hr as (gs & j & mask & q & -> & Hgs & Hm & Hq & Hnm).
  exists (Junk i gi (j_mask j) (j_other j)), (View p us gp gs mask q). split.
  - split; cbn; try done. intros En. apply Hnm in En as [-> En]. by apply Hn in En as [-> _].
  - done.
Qed.

(** The loops over the entries of a named class. *)
Lemma valid_skip_users us rest nm : Forall named_ok us ->
  posix_acl_valid_loop ((named ACL_USER <$> us) ++ rest) ACL_USER nm
  = posix_acl_valid_loop rest ACL_USER (match us with [] => nm | _ => 1 end).
Proof.
  intros Hu. revert nm. induction Hu as [|[i p] us [Hp Hi] Hu IH]; intros nm; [done|].
  cbn [fmap list_fmap app posix_acl_valid_loop named e_tag e_perm e_id fst snd] in *.
  rewrite (proj2 (perm_test p)) by done. cbn [negb].
  rewrite (proj2 (Z.eqb_neq i INVALID_ID)) by done. cbn. rewrite IH. by destruct us.
Qed.

Lemma valid_skip_groups gs rest nm : Forall named_ok gs ->
  posix_acl_valid_loop ((named ACL_GROUP <$> gs) ++ rest) ACL_GROUP nm
  = posix_acl_valid_loop rest ACL_GROUP (match gs with [] => nm | _ => 1 end).
Proof.
  intros Hu. revert nm. induction Hu as [|[i p] us [Hp Hi] Hu IH]; intros nm; [done|].
  cbn [fmap list_fmap app posix_acl_valid_loop named e_tag e_perm e_id fst snd] in *.
  rewrite (proj2 (perm_test p)) by done. cbn [negb].
  rewrite (proj2 (Z.eqb_neq i INVALID_ID)) by done. cbn. rewrite IH. by destruct us.
Qed.

Lemma posix_acl_valid_of j v : wf_view v -> posix_acl_valid (acl_of j v) = 0.
Proof.
  intros [Hu Hus Hg Hgs Hm Ho Hn]. unfold posix_acl_valid, acl_of.
  cbn [posix_acl_valid_loop e_tag e_perm e_id]. rewrite (proj2 (perm_test _)) by done. cbn [negb].
  cbn [Z.eqb ACL_USER_OBJ Pos.eqb]. rewrite valid_skip_users by done.
  cbn [posix_acl_valid_loop e_tag e_perm e_id]. rewrite (proj2 (perm_test _)) by done.
  cbn [negb]. tags. cbn [Z.eqb Pos.eqb]. change 8 with ACL_GROUP.
  rewrite valid_skip_groups by done.
  destruct (v_mask v) as [q|]; cbn [mask_entries app posix_acl_valid_loop e_tag e_perm e_id].
  - rewrite (proj2 (perm_test q)) by auto. cbn. by rewrite (proj2 (perm_test _)) by done.
  - destruct Hn as [-> ->]; [done|]. cbn. by rewrite (proj2 (perm_test _)) by done.
Qed.

(** ** Mode bits *)

(** What governs the group class: the mask, or the owning group's entry. *)
Definition v_class (v : acl_view) : Z := default (v_group v) (v_mask v).

Definition mode_of (v : acl_view) : Z :=
  Z.lor (Z.shiftl (v_user v) 6) (Z.lor (Z.shiftl (v_class v) 3) (v_other v)).

(** Whether the list says more than mode bits. *)
Definition extended (v : acl_view) : Z := match v_mask v with Some _ => 1 | None => 0 end.

Lemma v_class_ok v : wf_view v -> perm_ok (v_class v).
Proof. intros [_ _ ? _ Hm _ _]. unfold v_class. destruct (v_mask v); cbn; auto. Qed.

Lemma equiv_skip_users us rest m ne :
  equiv_mode_loop ((named ACL_USER <$> us) ++ rest) m ne
  = equiv_mode_loop rest m (match us with [] => ne | _ => 1 end).
Proof. revert ne. induction us as [|ip us IH]; intros ne; [done|]. cbn in *. rewrite IH. by destruct us. Qed.

Lemma equiv_skip_groups gs rest m ne :
  equiv_mode_loop ((named ACL_GROUP <$> gs) ++ rest) m ne
  = equiv_mode_loop rest m (match gs with [] => ne | _ => 1 end).
Proof. revert ne. induction gs as [|ip gs IH]; intros ne; [done|]. cbn in *. rewrite IH. by destruct gs. Qed.

Lemma equiv_mode_loop_of j v : wf_view v ->
  equiv_mode_loop (acl_of j v) 0 0 = Some (mode_of v, extended v).
Proof.
  intros [Hu _ Hg _ Hm Ho Hn]. unfold acl_of. cbn [equiv_mode_loop e_tag e_perm]. tags.
  cbn [Z.eqb Pos.eqb]. change 2 with ACL_USER. change 8 with ACL_GROUP.
  rewrite equiv_skip_users. cbn [equiv_mode_loop e_tag e_perm Z.eqb Pos.eqb].
  cbn [ACL_USER_OBJ Z.eqb Pos.eqb ACL_GROUP_OBJ]. rewrite equiv_skip_groups.
  unfold mode_of, v_class, extended.
  destruct (v_mask v) as [q|]; cbn [mask_entries app equiv_mode_loop e_tag e_perm default id].
  - specialize (Hm q eq_refl). cbn [Z.eqb ACL_USER_OBJ ACL_GROUP_OBJ ACL_OTHER ACL_MASK Pos.eqb].
    apply (f_equal Some), f_equal2; [mode_bits|reflexivity].
  - destruct Hn as [-> ->]; [done|]. cbn [Z.eqb ACL_USER_OBJ ACL_GROUP_OBJ ACL_OTHER Pos.eqb].
    apply (f_equal Some), f_equal2; [mode_bits|reflexivity].
Qed.

(** ** Creation *)

Definition masq (v : acl_view) (m : Z) : acl_view :=
  match v_mask v with
  | Some q => View (Z.land (v_user v) (Z.shiftr m 6)) (v_users v) (v_group v) (v_groups v)
                (Some (Z.land q (Z.shiftr m 3))) (Z.land (v_other v) m)
  | None => View (Z.land (v_user v) (Z.shiftr m 6)) (v_users v)
              (Z.land (v_group v) (Z.shiftr m 3)) (v_groups v) None (Z.land (v_other v) m)
  end.

Lemma masq_wf v m : wf_view v -> wf_view (masq v m).
Proof.
  intros [Hu Hus Hg Hgs Hm Ho Hn]. unfold masq.
  destruct (v_mask v) as [q|]; split; cbn; auto using perm_ok_land.
  - intros p [= <-]. auto using perm_ok_land.
  - done.
Qed.

Lemma create_skip tag l rest i m g k ne : tag = ACL_USER \/ tag = ACL_GROUP ->
  create_masq_loop ((named tag <$> l) ++ rest) i m g k ne
  = match create_masq_loop rest (i + length l) m g k (match l with [] => ne | _ => 1 end) with
    | None => None
    | Some (rest', m, g, k, ne) => Some ((named tag <$> l) ++ rest', m, g, k, ne)
    end.
Proof.
  intros Ht. revert i ne. induction l as [|ip l IH]; intros i ne.
  - cbn [fmap list_fmap app length]. rewrite Nat.add_0_r.
    by destruct (create_masq_loop rest i m g k ne) as [[[[[? ?] ?] ?] ?]|].
  - assert (E : create_masq_loop ((named tag <$> ip :: l) ++ rest) i m g k ne
      = match create_masq_loop ((named tag <$> l) ++ rest) (S i) m g k 1 with
        | None => None
        | Some (rest', m, g, k, ne) => Some (named tag ip :: rest', m, g, k, ne)
        end) by (destruct Ht; subst tag; reflexivity).
    rewrite E, IH. cbn [length]. rewrite <- Nat.add_succ_comm.
    replace (match l with [] => 1 | _ => 1 end) with 1 by (by destruct l).
    by destruct (create_masq_loop rest (S i + length l) m g k 1) as [[[[[? ?] ?] ?] ?]|].
Qed.

(** The edited mode: permissions the list does not grant are removed. *)
Lemma masq_mode u c o m :
  perm_ok u -> perm_ok c -> perm_ok o ->
  let m1 := Z.land m (Z.lor (Z.shiftl (Z.land u (Z.shiftr m 6)) 6) (Z.lnot S_IRWXU)) in
  let m2 := Z.land m1 (Z.lor (Z.land o m1) (Z.lnot S_IRWXO)) in
  Z.land o m1 = Z.land o m
  /\ Z.land c (Z.shiftr m2 3) = Z.land c (Z.shiftr m 3)
  /\ Z.lor (Z.land m (Z.lnot S_IRWXUGO))
       (Z.land m2 (Z.lor (Z.shiftl (Z.land c (Z.shiftr m2 3)) 3) (Z.lnot S_IRWXG)))
     = Z.land m (Z.lor (Z.lor (Z.shiftl u 6) (Z.lor (Z.shiftl c 3) o)) (Z.lnot S_IRWXUGO)).
Proof. intros. subst m1 m2. split_and!; mode_bits. Qed.

(** The entry a pointer kept from the loop refers to. *)
Lemma lookup_group (a : posix_acl_entry) l g r i : i = S (length l) ->
  (a :: l ++ g :: r) !! i = Some g.
Proof. intros ->. cbn. by apply list_lookup_middle. Qed.

Lemma lookup_mask (a : posix_acl_entry) l g l' k r i : i = S (length l + S (length l')) ->
  (a :: l ++ g :: l' ++ k :: r) !! i = Some k.
Proof.
  intros ->. change (a :: l ++ g :: l' ++ k :: r) with ((a :: l) ++ (g :: l') ++ k :: r).
  rewrite app_assoc. apply list_lookup_middle. rewrite length_app. done.
Qed.

Lemma update_middle f l k r i : i = length l ->
  update_perm f i (l ++ k :: r) = l ++ set_perm k (f (e_perm k)) :: r.
Proof.
  intros ->. unfold update_perm. replace (length l) with (length l + 0)%nat by lia.
  by rewrite alter_app_r.
Qed.

Lemma update_group f a l g r i : i = S (length l) ->
  update_perm f i (a :: l ++ g :: r) = a :: l ++ set_perm g (f (e_perm g)) :: r.
Proof. intros ->. by rewrite app_comm_cons, update_middle. Qed.

Lemma update_mask f a l g l' k r i : i = S (length l + S (length l')) ->
  update_perm f i (a :: l ++ g :: l' ++ k :: r)
  = a :: l ++ g :: l' ++ set_perm k (f (e_perm k)) :: r.
Proof.
  intros ->. change (a :: l ++ g :: l' ++ k :: r) with ((a :: l) ++ (g :: l') ++ k :: r).
  rewrite app_assoc, update_middle, <- app_assoc by (by rewrite length_app). done.
Qed.

Ltac eval_tags :=
  cbn [Z.eqb Pos.eqb orb ACL_USER_OBJ ACL_USER ACL_GROUP_OBJ ACL_GROUP ACL_MASK ACL_OTHER
       e_tag e_perm set_perm e_id].

Lemma create_masq_of j v m : wf_view v ->
  posix_acl_create_masq (acl_of j v) m
  = inr (acl_of j (masq v m), Z.land m (Z.lor (mode_of v) (Z.lnot S_IRWXUGO)), extended v).
Proof.
  intros Hwf. pose proof (v_class_ok v Hwf) as Hc. destruct Hwf as [Hu _ Hg _ Hm Ho Hn].
  destruct (masq_mode (v_user v) (v_class v) (v_other v) m Hu Hc Ho) as (Eo & Ec & Em).
  unfold posix_acl_create_masq, acl_of, mode_of, extended, masq, v_class in *.
  cbn [create_masq_loop e_tag e_perm]. rewrite land_perm by done. eval_tags.
  rewrite create_skip by auto. cbn [create_masq_loop e_tag e_perm]. eval_tags.
  rewrite create_skip by auto.
  destruct (v_mask v) as [q|]; cbn [default id mask_entries app create_masq_loop class_obj] in *;
    eval_tags; rewrite !(land_perm (v_other v)) by done; cbn [class_obj].
  - rewrite update_mask, lookup_mask by (rewrite !length_fmap; lia). cbn [fmap option_fmap option_map default id].
    eval_tags. rewrite land_perm by auto. rewrite Em, Ec, Eo. done.
  - rewrite update_group, lookup_group by (rewrite !length_fmap; lia). cbn [fmap option_fmap option_map default id app].
    eval_tags. rewrite land_perm by auto. rewrite Em, Ec, Eo. by destruct Hn as [-> ->].
Qed.

(** ** Change of mode *)

Definition rechmod (v : acl_view) (m : Z) : acl_view :=
  match v_mask v with
  | Some q => View (owner_bits m) (v_users v) (v_group v) (v_groups v)
                (Some (group_bits m)) (other_bits m)
  | None => View (owner_bits m) (v_users v) (group_bits m) (v_groups v) None (other_bits m)
  end.

Lemma shifted_owner m : Z.shiftr (Z.land m S_IRWXU) 6 = owner_bits m.
Proof. unfold owner_bits. mode_bits. Qed.

Lemma shifted_group m : Z.shiftr (Z.land m S_IRWXG) 3 = group_bits m.
Proof. unfold group_bits. mode_bits. Qed.

Lemma rechmod_wf v m : wf_view v -> wf_view (rechmod v m).
Proof.
  intros [Hu Hus Hg Hgs Hm Ho Hn]. unfold rechmod.
  destruct (v_mask v) as [q|]; split; cbn; auto using perm_ok_bits_7; try apply perm_ok_bits_7.
  - intros p [= <-]. apply perm_ok_bits_7.
  - done.
Qed.

Lemma rechmod_mode v m : mode_of (rechmod v m) = Z.land m S_IRWXUGO.
Proof.
  unfold mode_of, v_class, rechmod. destruct (v_mask v); cbn [v_user v_group v_mask v_other default id];
    unfold owner_bits, group_bits, other_bits; mode_bits.
Qed.

Lemma chmod_skip tag l rest i m g k : tag = ACL_USER \/ tag = ACL_GROUP ->
  chmod_masq_loop ((named tag <$> l) ++ rest) i m g k
  = match chmod_masq_loop rest (i + length l) m g k with
    | None => None
    | Some (rest', g, k) => Some ((named tag <$> l) ++ rest', g, k)
    end.
Proof.
  intros Ht. revert i. induction l as [|ip l IH]; intros i.
  - cbn [fmap list_fmap app length]. rewrite Nat.add_0_r.
    by destruct (chmod_masq_loop rest i m g k) as [[[? ?] ?]|].
  - assert (E : chmod_masq_loop ((named tag <$> ip :: l) ++ rest) i m g k
      = match chmod_masq_loop ((named tag <$> l) ++ rest) (S i) m g k with
        | None => None
        | Some (rest', g, k) => Some (named tag ip :: rest', g, k)
        end) by (destruct Ht; subst tag; reflexivity).
    rewrite E, IH. cbn [length]. rewrite <- Nat.add_succ_comm.
    by destruct (chmod_masq_loop rest (S i + length l) m g k) as [[[? ?] ?]|].
Qed.

Lemma chmod_masq_of j v m : wf_view v ->
  __posix_acl_chmod_masq (acl_of j v) m = inr (acl_of j (rechmod v m)).
Proof.
  intros [_ _ _ _ _ _ Hn]. unfold __posix_acl_chmod_masq, acl_of, rechmod.
  cbn [chmod_masq_loop e_tag e_perm]. eval_tags. rewrite chmod_skip by auto.
  cbn [chmod_masq_loop e_tag e_perm]. eval_tags. rewrite chmod_skip by auto.
  rewrite shifted_owner, shifted_group.
  destruct (v_mask v) as [q|]; cbn [mask_entries app chmod_masq_loop class_obj] in *;
    eval_tags; cbn [class_obj].
  - rewrite update_mask by (rewrite !length_fmap; lia). done.
  - by rewrite update_group by (rewrite !length_fmap; lia).
Qed.

(** ** Access *)

Lemma grants_land p q w : grants (Z.land p q) w = grants p w && grants q w.
Proof.
  apply eq_bool_prop_intro. unfold grants. rewrite andb_True, !Is_true_true, !Z.eqb_eq. split.
  - intros E. split; rewrite <- E at 2; rewrite <- E at 1;
      apply Z.bits_inj'; intros n Hn; rewrite !Z.land_spec; bit_cases.
  - intros [Ep Eq]. by rewrite <- Z.land_assoc, Eq.
Qed.

Lemma land_7 p : perm_ok p -> Z.land p 7 = p.
Proof. intros. mode_bits. Qed.

Section Access.
Context {Sub : Subject}.

Definition v_mask_of (v : acl_view) : Z := default 7 (v_mask v).

(** The group entries that apply to the caller. *)
Definition group_perms (v : acl_view) (i_gid : Z) : list Z :=
  (if subject_in_group i_gid then [v_group v] else [])
  ++ (snd <$> List.filter (fun ip => subject_in_group ip.1) (v_groups v)).

(** The access check algorithm of POSIX 1003.1e: the owner's entry, else the
    caller's named entry under the mask, else any applying group entry under
    the mask, else the entry for others. *)
Definition access (v : acl_view) (i_uid i_gid want : Z) : bool :=
  if i_uid =? subject_uid then grants (v_user v) want
  else
    match List.find (fun ip => ip.1 =? subject_uid) (v_users v) with
    | Some ip => grants (Z.land ip.2 (v_mask_of v)) want
    | None =>
        match group_perms v i_gid with
        | [] => grants (v_other v) want
        | ps => existsb (fun p => grants (Z.land p (v_mask_of v)) want) ps
        end
    end.

Definition verdict (b : bool) : Z := if b then 0 else - EACCES.

Lemma mask_skip tag l pa rest want : tag = ACL_USER \/ tag = ACL_GROUP ->
  mask_loop pa ((named tag <$> l) ++ rest) want = mask_loop pa rest want.
Proof. intros Ht. induction l as [|ip l IH]; [done|]. destruct Ht; subst tag; exact IH. Qed.

Lemma mask_loop_tail j v pa want : perm_ok (e_perm pa) ->
  mask_loop pa (mask_entries j (v_mask v) ++ [Entry ACL_OTHER (v_other v) (j_other j)]) want
  = verdict (grants (Z.land (e_perm pa) (v_mask_of v)) want).
Proof.
  intros Hp. unfold v_mask_of. destruct (v_mask v) as [q|]; cbn [mask_entries app mask_loop default id].
  - done.
  - rewrite land_7 by done. done.
Qed.

Lemma loop_users i_uid i_gid us rest found want :
  permission_loop i_uid i_gid ((named ACL_USER <$> us) ++ rest) found want
  = match List.find (fun ip => ip.1 =? subject_uid) us with
    | Some ip => mask_loop (named ACL_USER ip) rest want
    | None => permission_loop i_uid i_gid rest found want
    end.
Proof.
  induction us as [|ip us IH]; [done|]. cbn [List.find].
  cbn [fmap list_fmap app permission_loop named e_tag e_id e_perm]. eval_tags.
  destruct (ip.1 =? subject_uid); [by apply mask_skip; auto|exact IH].
Qed.

Lemma loop_groups i_uid i_gid gs j v found want : Forall named_ok gs ->
  permission_loop i_uid i_gid ((named ACL_GROUP <$> gs) ++ mask_entries j (v_mask v)
    ++ [Entry ACL_OTHER (v_other v) (j_other j)]) found want
  = let ps := snd <$> List.filter (fun ip => subject_in_group ip.1) gs in
    if existsb (fun p => grants p want) ps then verdict (grants (v_mask_of v) want)
    else if found || negb (Nat.eqb (length ps) 0) then - EACCES
    else verdict (grants (v_other v) want).
Proof.
  intros Hg. revert found. induction Hg as [|[i p] gs [Hp _] Hg IH]; intros found.
  - cbn. rewrite orb_false_r. by destruct (v_mask v).
  - cbn [fmap list_fmap app permission_loop named e_tag e_id e_perm fst snd List.filter] in *.
    eval_tags. destruct (subject_in_group i); [|by rewrite IH].
    cbn [fmap list_fmap existsb length snd Nat.eqb negb]. rewrite orb_true_r.
    destruct (grants p want) eqn:E; cbn [orb].
    + rewrite mask_skip by auto. rewrite mask_loop_tail by done. cbn [named e_perm snd].
      by rewrite grants_land, E.
    + rewrite IH. done.
Qed.

Lemma existsb_mask ps q want :
  existsb (fun p => grants (Z.land p q) want) ps
  = existsb (fun p => grants p want) ps && grants q want.
Proof.
  induction ps as [|p ps IH]; [done|]. cbn [existsb]. rewrite IH, grants_land.
  by rewrite andb_orb_distrib_l.
Qed.

Lemma permission_of j v i_uid i_gid want : wf_view v ->
  permission_loop i_uid i_gid (acl_of j v) false want = verdict (access v i_uid i_gid want).
Proof.
  intros [Hu Hus Hg Hgs Hm Ho Hn]. unfold acl_of, access. cbn [permission_loop e_tag e_perm e_id].
  eval_tags. destruct (i_uid =? subject_uid); [done|]. rewrite loop_users.
  destruct (List.find _ (v_users v)) as [ip|] eqn:Ef.
  - apply find_some in Ef as [Hin _]. rewrite Forall_forall in Hus.
    assert (perm_ok ip.2) by (by apply Hus, list_elem_of_In). cbn [mask_loop]. eval_tags.
    rewrite mask_skip by auto. by rewrite mask_loop_tail.
  - cbn [permission_loop]. eval_tags. unfold group_perms.
    destruct (subject_in_group i_gid); cbn [app].
    + destruct (grants (v_group v) want) eqn:Eg.
      * rewrite mask_skip by auto. rewrite mask_loop_tail by done. cbn [existsb e_perm].
        rewrite existsb_mask, grants_land, Eg. cbn [andb orb]. by destruct (grants (v_mask_of v) want), (existsb _ _).
      * rewrite loop_groups by done. cbn zeta. cbn [existsb]. rewrite existsb_mask, grants_land, Eg.
        cbn [orb andb]. by destruct (existsb _ _).
    + rewrite loop_groups by done. cbn zeta. destruct (snd <$> _) as [|p ps]; [done|].
      rewrite existsb_mask. cbn [length Nat.eqb negb orb]. by destruct (existsb _ _).
Qed.

End Access.
