(* ===== verification/InodeAclFacts.v ===== *)
(** * Extended attributes and cached lists: encodings and translations *)

From stdpp Require Import gmap.
From S2P Require Import Prelude CText UserNs UserNsFacts Groups PosixAcl InodeAcl PosixAclFacts.

#[local] Ltac Zify.zify_post_hook ::= Z.div_mod_to_equations.

(** ** Fields *)

Lemma le32_id x : is_u32 x ->
  le32_to_cpu (x mod 256) (x / 256 mod 256) (x / 65536 mod 256) (x / 16777216 mod 256) = x.
Proof. unfold le32_to_cpu. ulia. Qed.

Lemma le16_id x : 0 <= x < 65536 -> le16_to_cpu (x mod 256) (x / 256 mod 256) = x.
Proof. unfold le16_to_cpu. lia. Qed.

Lemma s16_id x : -32768 <= x < 32768 -> s16 x = x.
Proof. unfold s16. lia. Qed.

Lemma version_bytes rest : xattr_version (cpu_to_le32 POSIX_ACL_XATTR_VERSION ++ rest)
  = Some POSIX_ACL_XATTR_VERSION.
Proof. done. Qed.

Lemma xattr_entry_length ns e : length (xattr_entry ns e) = 8%nat.
Proof. unfold xattr_entry. repeat case_if; reflexivity. Qed.

Lemma xattr_entries_length ns acl : length (concat (xattr_entry ns <$> acl)) = (8 * length acl)%nat.
Proof.
  induction acl as [|e acl IH]; [done|]. cbn [fmap list_fmap concat length].
  rewrite length_app, xattr_entry_length. rewrite IH. lia.
Qed.

Lemma xattr_count n : Z.of_nat n < 2 ^ 31 ->
  posix_acl_xattr_count (4 + 8 * Z.of_nat n) = Z.of_nat n.
Proof.
  intros Hn. unfold posix_acl_xattr_count, XATTR_HEADER_SIZE, XATTR_ENTRY_SIZE.
  repeat case_if; try lia. rewrite s32_id; lia.
Qed.

(** ** Ids of the initial namespace *)

Lemma init_map_down k : is_u32 k -> map_id_down init_map k = k.
Proof.
  intros Hk. unfold map_id_down, init_map, find_extent. cbn [first count lower_first].
  rewrite (u32_id (0 + _ - 1)) by ulia. case_if; [cbn [first lower_first]; rewrite (u32_id (k - 0)), u32_id by ulia; lia|].
  unfold INVALID_ID. ulia.
Qed.

Lemma init_map_up k : is_u32 k -> map_id_up init_map k = k.
Proof.
  intros Hk. rewrite <- (init_map_down k Hk) at 2.
  unfold map_id_up, map_id_down, init_map, find_extent. cbn [first count lower_first]. by case_if.
Qed.

Lemma map_id_down_u32 m id : is_u32 (map_id_down m id).
Proof.
  unfold map_id_down, INVALID_ID. destruct (find_extent _ m); [|ulia].
  unfold u32, is_u32, U32_MAX. lia.
Qed.

Lemma map_id_up_u32 m id : is_u32 (map_id_up m id).
Proof.
  unfold map_id_up, INVALID_ID. destruct (find_extent _ m); [|ulia].
  unfold u32, is_u32, U32_MAX. lia.
Qed.

Lemma map_up_down m k : wf_map m -> is_u32 k -> map_id_up m k <> INVALID_ID ->
  map_id_down m (map_id_up m k) = k /\ k <> INVALID_ID.
Proof.
  intros Hwf Hk Hne. assert (Hm : maps m (map_id_up m k) k) by (by apply map_id_up_iff).
  apply map_id_down_iff; [done|apply map_id_up_u32|done].
Qed.

(** ** Entries *)

(** An entry of a known tag whose id the namespace knows. *)
Record entry_ok (ns : user_namespace) (e : posix_acl_entry) : Prop := {
  eo_perm : 0 <= e_perm e < 65536;
  eo_tag : e_tag e ∈ [ACL_USER_OBJ; ACL_USER; ACL_GROUP_OBJ; ACL_GROUP; ACL_MASK; ACL_OTHER];
  eo_id : e_tag e = ACL_USER \/ e_tag e = ACL_GROUP -> is_u32 (e_id e);
  eo_user : e_tag e = ACL_USER -> from_kuid ns (e_id e) <> INVALID_ID;
  eo_group : e_tag e = ACL_GROUP -> from_kgid ns (e_id e) <> INVALID_ID
}.

(** The entry as it comes back: an unnamed one has whatever id memory held. *)
Definition rejunk1 (junk : Z) (e : posix_acl_entry) : posix_acl_entry :=
  if (e_tag e =? ACL_USER) || (e_tag e =? ACL_GROUP) then e else Entry (e_tag e) (e_perm e) junk.

Fixpoint rejunk (junk : nat -> Z) (n : nat) (acl : posix_acl) : posix_acl :=
  match acl with
  | [] => []
  | e :: acl => rejunk1 (junk n) e :: rejunk junk (S n) acl
  end.

Lemma from_xattr_step ns junk n count e rest :
  wf_map (uid_map ns) -> wf_map (gid_map ns) -> entry_ok ns e ->
  from_xattr_entries ns junk n (S count) (xattr_entry ns e ++ rest)
  = match from_xattr_entries ns junk (S n) count rest with
    | inl err => inl err
    | inr acl => inr (rejunk1 (junk n) e :: acl)
    end.
Proof.
  intros Hu Hg [Hp Ht Hi Hku Hkg]. destruct e as [t p i]. cbn [e_tag e_perm e_id] in *.
  unfold xattr_entry, rejunk1. cbn [e_tag e_perm e_id].
  assert (Ep : le16_to_cpu (p mod 256) (p / 256 mod 256) = p) by (by apply le16_id).
  repeat (apply elem_of_cons in Ht as [->|Ht]); [..|by apply elem_of_nil in Ht];
    eval_tags; cbn [cpu_to_le16 cpu_to_le32 app from_xattr_entries].
  1, 3, 5, 6: rewrite Ep; reflexivity.
  - destruct (map_up_down (uid_map ns) i) as [E Hne]; auto.
    rewrite Ep, le32_id by apply map_id_up_u32. unfold make_kuid, from_kuid. rewrite E. cbn.
    by rewrite (proj2 (Z.eqb_neq i INVALID_ID)).
  - destruct (map_up_down (gid_map ns) i) as [E Hne]; auto.
    rewrite Ep, le32_id by apply map_id_up_u32. unfold make_kgid, from_kgid. rewrite E. cbn.
    by rewrite (proj2 (Z.eqb_neq i INVALID_ID)).
Qed.

Lemma from_xattr_entries_of ns junk n acl :
  wf_map (uid_map ns) -> wf_map (gid_map ns) -> Forall (entry_ok ns) acl ->
  from_xattr_entries ns junk n (length acl) (concat (xattr_entry ns <$> acl))
  = inr (rejunk junk n acl).
Proof.
  intros Hu Hg Ha. revert n. induction Ha as [|e acl He Ha IH]; intros n; [done|].
  cbn [fmap list_fmap concat length rejunk]. rewrite from_xattr_step by done.
  by rewrite IH.
Qed.

Lemma rejunk_app junk n l1 l2 :
  rejunk junk n (l1 ++ l2) = rejunk junk n l1 ++ rejunk junk (n + length l1) l2.
Proof.
  revert n. induction l1 as [|e l1 IH]; intros n; [by rewrite Nat.add_0_r|].
  cbn [app rejunk length]. by rewrite IH, Nat.add_succ_comm.
Qed.

Lemma rejunk_named junk n tag l : tag = ACL_USER \/ tag = ACL_GROUP ->
  rejunk junk n (named tag <$> l) = named tag <$> l.
Proof.
  intros Ht. revert n. induction l as [|ip l IH]; intros n; [done|].
  cbn [fmap list_fmap rejunk]. rewrite IH. by destruct Ht; subst tag.
Qed.

Lemma rejunk_acl_of junk n j v : exists j', rejunk junk n (acl_of j v) = acl_of j' v.
Proof.
  pose (lu := length (v_users v)). pose (lg := length (v_groups v)).
  exists (Junk (junk n) (junk (S n + lu)%nat) (junk (S (S n + lu) + lg)%nat)
    (junk (S (S n + lu) + lg + length (mask_entries j (v_mask v)))%nat)).
  unfold acl_of. cbn [rejunk]. rewrite rejunk_app, rejunk_named by auto. cbn [rejunk].
  rewrite !rejunk_app, rejunk_named by auto. rewrite !length_fmap. by destruct (v_mask v).
Qed.

(** ** Translation between namespaces *)

Record initial (init : user_namespace) : Prop := {
  in_uid : uid_map init = init_map;
  in_gid : gid_map init = init_map
}.

Lemma initial_uid init k : initial init -> is_u32 k ->
  make_kuid init k = k /\ from_kuid init k = k.
Proof.
  intros [E _] Hk. unfold make_kuid, from_kuid. rewrite E.
  by rewrite init_map_down, init_map_up.
Qed.

Lemma initial_gid init k : initial init -> is_u32 k ->
  make_kgid init k = k /\ from_kgid init k = k.
Proof.
  intros [_ E] Hk. unfold make_kgid, from_kgid. rewrite E.
  by rewrite init_map_down, init_map_up.
Qed.

Definition is_bytes (l : list Z) : Prop := Forall (fun b => 0 <= b < 256) l.

Lemma s16_tag t0 t1 k : 0 <= t0 < 256 -> 0 <= t1 < 256 -> 0 <= k < 32768 ->
  (s16 (le16_to_cpu t0 t1) =? k) = (le16_to_cpu t0 t1 =? k).
Proof.
  intros. apply eq_bool_prop_intro. rewrite !Is_true_true, !Z.eqb_eq.
  unfold s16, le16_to_cpu. lia.
Qed.

Lemma fix_from_entries init ns junk n count value :
  initial init -> is_bytes value ->
  from_xattr_entries init junk n count (fix_xattr_entries init ns count value)
  = from_xattr_entries ns junk n count value.
Proof.
  intros Hi. revert n value. induction count as [|count IH]; intros n value Hb; [done|].
  destruct value as [|t0 [|t1 [|p0 [|p1 [|i0 [|i1 [|i2 [|i3 rest]]]]]]]]; [done..|].
  do 8 (apply Forall_cons in Hb as [? Hb]).
  cbn [fix_xattr_entries]. cbv zeta. set (t := le16_to_cpu t0 t1).
  assert (Ht : forall k, 0 <= k < 32768 -> (s16 t =? k) = (t =? k)) by (intros; by apply s16_tag).
  destruct (t =? ACL_USER) eqn:Eu.
  - set (k := make_kuid ns _). assert (Hk : is_u32 k) by apply map_id_down_u32.
    rewrite (proj2 (initial_uid init k Hi Hk)).
    cbn [cpu_to_le32 app from_xattr_entries]. cbv zeta. fold t. fold k. rewrite le32_id by done.
    rewrite (proj1 (initial_uid init k Hi Hk)), IH by done. zbool.
    rewrite !Ht by (vm_compute; split; congruence). rewrite Eu. done.
  - destruct (t =? ACL_GROUP) eqn:Eg.
    + set (k := make_kgid ns _). assert (Hk : is_u32 k) by apply map_id_down_u32.
      rewrite (proj2 (initial_gid init k Hi Hk)).
      cbn [cpu_to_le32 app from_xattr_entries]. cbv zeta. fold t. fold k. rewrite le32_id by done.
      rewrite (proj1 (initial_gid init k Hi Hk)), IH by done. zbool.
      rewrite !Ht by (vm_compute; split; congruence). rewrite Eg. done.
    + cbn [app from_xattr_entries]. cbv zeta. fold t. rewrite IH by done.
      by rewrite !Ht, Eu, Eg by (vm_compute; split; congruence).
Qed.

Lemma fix_entries_length to from count value :
  length (fix_xattr_entries to from count value) = length value.
Proof.
  revert value. induction count as [|count IH]; intros value; [done|].
  destruct value as [|t0 [|t1 [|p0 [|p1 [|i0 [|i1 [|i2 [|i3 rest]]]]]]]]; [done..|].
  cbn [fix_xattr_entries length]. cbv zeta. rewrite length_app, IH.
  repeat case_if; reflexivity.
Qed.

Lemma fix_to_entries init ns acl :
  initial init -> Forall (entry_ok init) acl ->
  fix_xattr_entries ns init (length acl) (concat (xattr_entry init <$> acl))
  = concat (xattr_entry ns <$> acl).
Proof.
  intros Hi Ha. induction Ha as [|[t p i] acl [Hp Ht Hid _ _] Ha IH]; [done|].
  cbn [fmap list_fmap concat length].
  cbn [e_tag e_perm e_id] in *. unfold xattr_entry at 1 3. cbn [e_tag e_perm e_id].
  repeat (apply elem_of_cons in Ht as [->|Ht]); [..|by apply elem_of_nil in Ht];
    eval_tags; cbn [cpu_to_le16 cpu_to_le32 app fix_xattr_entries].
  1, 3, 5, 6: rewrite IH; reflexivity.
  - destruct (initial_uid init i Hi) as [E1 E2]; [by auto|].
    rewrite E2, le32_id, E1, IH by auto. reflexivity.
  - destruct (initial_gid init i Hi) as [E1 E2]; [by auto|].
    rewrite E2, le32_id, E1, IH by auto. reflexivity.
Qed.

Lemma xattr_value_length ns acl :
  Z.of_nat (length (cpu_to_le32 POSIX_ACL_XATTR_VERSION ++ concat (xattr_entry ns <$> acl)))
  = 4 + 8 * Z.of_nat (length acl).
Proof. rewrite length_app, xattr_entries_length. cbn [length cpu_to_le32]. lia. Qed.

Lemma to_xattr_ok ns acl size :
  Z.of_nat (length acl) < 2 ^ 28 -> 4 + 8 * Z.of_nat (length acl) <= size ->
  posix_acl_to_xattr ns acl true size
  = (4 + 8 * Z.of_nat (length acl),
     cpu_to_le32 POSIX_ACL_XATTR_VERSION ++ concat (xattr_entry ns <$> acl)).
Proof.
  intros Hl Hs. unfold posix_acl_to_xattr, posix_acl_xattr_size, XATTR_HEADER_SIZE, XATTR_ENTRY_SIZE.
  cbn [negb]. rewrite (u64_id (4 + _ * 8)), s32_id by ulia. rewrite u64_id by ulia.
  case_if; [lia|]. f_equal. lia.
Qed.

Lemma from_xattr_of ns junk acl :
  wf_map (uid_map ns) -> wf_map (gid_map ns) -> Forall (entry_ok ns) acl ->
  acl <> [] -> Z.of_nat (length acl) < 2 ^ 28 ->
  posix_acl_from_xattr ns junk true
    (Some (cpu_to_le32 POSIX_ACL_XATTR_VERSION ++ concat (xattr_entry ns <$> acl)))
  = inr (Some (rejunk junk 0 acl)).
Proof.
  intros Hu Hg Ha Hne Hl. unfold posix_acl_from_xattr. rewrite xattr_value_length, version_bytes.
  rewrite xattr_count by lia. unfold XATTR_HEADER_SIZE. case_if; [lia|].
  rewrite bool_decide_true by done. cbn [negb]. case_if; [lia|].
  case_if; [destruct acl; cbn in *; [done|lia]|].
  change (drop 4 (cpu_to_le32 ?x ++ ?l)) with l. rewrite Nat2Z.id.
  by rewrite from_xattr_entries_of.
Qed.

Lemma acl_of_entries_ok ns j v :
  wf_view v ->
  Forall (fun ip => is_u32 ip.1 /\ from_kuid ns ip.1 <> INVALID_ID) (v_users v) ->
  Forall (fun ip => is_u32 ip.1 /\ from_kgid ns ip.1 <> INVALID_ID) (v_groups v) ->
  Forall (entry_ok ns) (acl_of j v).
Proof.
  intros [Hu Hus Hg Hgs Hm Ho Hn] Hku Hkg. unfold perm_ok in *.
  assert (Hplain : forall t p i, 0 <= p < 8 ->
    t ∈ [ACL_USER_OBJ; ACL_GROUP_OBJ; ACL_MASK; ACL_OTHER] -> entry_ok ns (Entry t p i)).
  { intros t p i Hp Ht. tags. split; cbn [e_tag e_perm e_id]; [lia| |set_solver..].
    set_solver. }
  unfold acl_of. constructor; [apply Hplain; [done|set_solver]|].
  apply Forall_app. split; [|constructor; [apply Hplain; [done|set_solver]|]].
  - apply Forall_fmap, Forall_forall. intros ip Hin. rewrite Forall_forall in Hus, Hku.
    destruct (Hus ip Hin) as [Hp _], (Hku ip Hin). unfold perm_ok in Hp. tags.
    split; cbn; [lia|set_solver|done..].
  - apply Forall_app. split; [|apply Forall_app; split].
    + apply Forall_fmap, Forall_forall. intros ip Hin. rewrite Forall_forall in Hgs, Hkg.
      destruct (Hgs ip Hin) as [Hp _], (Hkg ip Hin). unfold perm_ok in Hp. tags.
      split; cbn; [lia|set_solver|done..].
    + destruct (v_mask v); [|constructor]. constructor; [apply Hplain; [auto|set_solver]|constructor].
    + constructor; [apply Hplain; [done|set_solver]|constructor].
Qed.

Lemma fix_from_ok init ns junk alloc value :
  initial init -> is_bytes value ->
  posix_acl_from_xattr init junk alloc (posix_acl_fix_xattr_userns init ns (Some value))
  = posix_acl_from_xattr ns junk alloc (Some value).
Proof.
  intros Hi Hb. unfold posix_acl_fix_xattr_userns, XATTR_HEADER_SIZE.
  destruct (Z.of_nat (length value) <? 4) eqn:El.
  { unfold posix_acl_from_xattr, XATTR_HEADER_SIZE. by rewrite El. }
  destruct (bool_decide (xattr_version value = _)) eqn:Ev; cbn [negb].
  2: { unfold posix_acl_from_xattr, XATTR_HEADER_SIZE. by rewrite El, Ev. }
  destruct (posix_acl_xattr_count _ <? 0) eqn:E0.
  { unfold posix_acl_from_xattr, XATTR_HEADER_SIZE. by rewrite El, Ev, E0. }
  destruct (posix_acl_xattr_count _ =? 0) eqn:E1.
  { unfold posix_acl_from_xattr, XATTR_HEADER_SIZE. by rewrite El, Ev, E0, E1. }
  destruct value as [|b0 [|b1 [|b2 [|b3 rest]]]]; [done..|].
  cbn [take drop app]. rewrite take_0, drop_0. cbn [app]. unfold posix_acl_from_xattr, XATTR_HEADER_SIZE.
  cbn [length] in *. rewrite fix_entries_length, El. cbn [xattr_version] in *. rewrite Ev. cbn [negb].
  rewrite E0, E1. cbn [drop]. rewrite !drop_0. do 4 (apply Forall_cons in Hb as [? Hb]).
  by rewrite fix_from_entries.
Qed.

Lemma fix_to_ok init ns acl :
  initial init -> Forall (entry_ok init) acl -> Z.of_nat (length acl) < 2 ^ 28 ->
  posix_acl_fix_xattr_userns ns init
    (Some (cpu_to_le32 POSIX_ACL_XATTR_VERSION ++ concat (xattr_entry init <$> acl)))
  = Some (cpu_to_le32 POSIX_ACL_XATTR_VERSION ++ concat (xattr_entry ns <$> acl)).
Proof.
  intros Hi Ha Hl. unfold posix_acl_fix_xattr_userns. rewrite xattr_value_length, version_bytes.
  rewrite xattr_count by lia. unfold XATTR_HEADER_SIZE. case_if; [lia|].
  rewrite bool_decide_true by done. cbn [negb]. case_if; [lia|].
  case_if; [by destruct acl|].
  change (drop 4 (cpu_to_le32 ?x ++ ?l)) with l. rewrite Nat2Z.id, fix_to_entries by done.
  done.
Qed.
