(* ===== verification/InodeAclProps.v ===== *)
(** * The properties of access control lists and inode permissions *)

From stdpp Require Import gmap.
From Stdlib Require Import Sorting.Sorted.
From S2P Require Import Prelude CText UserNs UserNsFacts Groups GroupsProps PosixAcl InodeAcl PosixAclFacts InodeAclFacts.

(** ** What the access check relies on

    Membership is membership in a set of groups. *)
Class SubjectGroups (Sub : Subject) (G : gset Z) : Prop :=
  subject_in_group_spec g : subject_in_group g = bool_decide (g ∈ G).

(** Credentials installed by [set_groups] keep the promise. *)
Lemma cred_subject_groups c :
  StronglySorted Z.le (groups c) -> Z.of_nat (length (groups c)) < 2 ^ 31 ->
  SubjectGroups (cred_subject c) ({[fsgid c]} ∪ list_to_set (groups c)).
Proof. intros Hs Hl g. by apply in_group_p_spec. Qed.

Lemma valid_loop_result acl state nm :
  posix_acl_valid_loop acl state nm = 0 \/ posix_acl_valid_loop acl state nm = - EINVAL.
Proof.
  revert state nm. induction acl as [|e acl IH]; intros state nm; cbn [posix_acl_valid_loop];
    repeat case_if; auto.
Qed.

(** [posix_acl_valid] accepts exactly the lists of the documented shape:
    owner, named users, owning group, named groups, mask, others, each once
    where it is unique, with a mask whenever there is a named entry, rwx
    permissions and valid ids; anything else is -EINVAL. *)
Theorem posix_acl_valid_iff acl :
  (posix_acl_valid acl = 0 <-> exists j v, wf_view v /\ acl = acl_of j v)
  /\ (posix_acl_valid acl = 0 \/ posix_acl_valid acl = - EINVAL).
Proof.
  split.
  - split; [apply posix_acl_valid_view|]. intros (j & v & Hv & ->). by apply posix_acl_valid_of.
  - apply valid_loop_result.
Qed.

Section Access.
Context {Sub : Subject} {G : gset Z}.

(** Who may do what, by the sets of ids and groups. *)
Definition entitled (v : acl_view) (i_uid i_gid want : Z) : Prop :=
  if decide (i_uid = subject_uid) then grants (v_user v) want = true
  else
    match List.find (fun ip => ip.1 =? subject_uid) (v_users v) with
    | Some ip => grants (Z.land ip.2 (v_mask_of v)) want = true
    | None =>
        (exists p, (i_gid ∈ G /\ p = v_group v \/ exists g, (g, p) ∈ v_groups v /\ g ∈ G)
                   /\ grants (Z.land p (v_mask_of v)) want = true)
        \/ (i_gid ∉ G) /\ (forall g p, (g, p) ∈ v_groups v -> g ∉ G)
           /\ grants (v_other v) want = true
    end.

Lemma elem_of_group_perms `{!SubjectGroups Sub G} v i_gid p :
  p ∈ group_perms v i_gid
  <-> i_gid ∈ G /\ p = v_group v \/ exists g, (g, p) ∈ v_groups v /\ g ∈ G.
Proof.
  unfold group_perms. rewrite elem_of_app, list_elem_of_fmap, subject_in_group_spec.
  assert (Hf : (exists y, p = y.2
      /\ y ∈ List.filter (fun ip => subject_in_group ip.1) (v_groups v))
    <-> exists g, (g, p) ∈ v_groups v /\ g ∈ G).
  { split.
    - intros ([g q] & -> & Hin). apply list_elem_of_In, filter_In in Hin as [Hin Hs].
      rewrite subject_in_group_spec in Hs. apply bool_decide_eq_true in Hs.
      exists g. split; [by apply list_elem_of_In|done].
    - intros (g & Hin & Hg). exists (g, p). split; [done|]. apply list_elem_of_In, filter_In.
      rewrite subject_in_group_spec. split; [by apply list_elem_of_In|by apply bool_decide_eq_true]. }
  rewrite Hf. case_bool_decide; set_solver.
Qed.

Lemma access_entitled `{!SubjectGroups Sub G} v i_uid i_gid want :
  access v i_uid i_gid want = true <-> entitled v i_uid i_gid want.
Proof.
  unfold access, entitled. destruct (decide (i_uid = subject_uid)) as [->|Hne].
  { by rewrite Z.eqb_refl. }
  rewrite (proj2 (Z.eqb_neq i_uid subject_uid)) by done.
  destruct (List.find _ _); [done|].
  pose proof (elem_of_group_perms v i_gid) as Hp.
  destruct (group_perms v i_gid) as [|p0 ps].
  - split.
    + intros Ho. right. split_and!; [|intros g p Hin|done].
      * intros Hg. apply (elem_of_nil (v_group v)), Hp. auto.
      * intros Hg. apply (elem_of_nil p), Hp. eauto.
    + intros [(p & Hin & _)|(_ & _ & Ho)]; [|done]. by apply Hp, elem_of_nil in Hin.
  - rewrite existsb_exists. split.
    + intros (p & Hin & Hg). left. exists p. split; [|done]. by apply Hp, list_elem_of_In.
    + intros [(p & Hin & Hg)|(Hg & Hgs & _)].
      * exists p. split; [|done]. by apply list_elem_of_In, Hp.
      * exfalso. destruct (proj1 (Hp p0)) as [[? _]|(g & ? & ?)]; [left|done|by eapply Hgs].
Qed.

(** C21. The access check of a valid list is the algorithm of POSIX 1003.1e:
    the owner has the owner's permissions, a named user those of its entry
    under the mask, a member of the owning or of named groups those of any
    of these entries under the mask, everybody else those of others; it
    answers 0 or -EACCES. *)
Theorem posix_acl_permission_correct `{!SubjectGroups Sub G} acl i_uid i_gid want :
  posix_acl_valid acl = 0 ->
  exists j v, wf_view v /\ acl = acl_of j v
    /\ (posix_acl_permission i_uid i_gid acl want = 0
        <-> entitled v i_uid i_gid (Z.land want 135))
    /\ (posix_acl_permission i_uid i_gid acl want = 0
        \/ posix_acl_permission i_uid i_gid acl want = - EACCES).
Proof.
  intros (j & v & Hv & ->)%posix_acl_valid_view. exists j, v.
  unfold posix_acl_permission. rewrite permission_of by done.
  rewrite <- access_entitled. change (Z.lor MAY_READ _) with 135. unfold verdict.
  destruct (access _ _ _ _); naive_solver.
Qed.

End Access.

(** ** Edits *)

Lemma masq_mode_of v m : wf_view v ->
  mode_of (masq v m) = Z.land (Z.land m S_IRWXUGO) (mode_of v).
Proof.
  intros Hwf. pose proof (v_class_ok v Hwf) as Hc. destruct Hwf as [Hu _ Hg _ Hm Ho _].
  unfold mode_of, masq, v_class in *.
  destruct (v_mask v) as [q|]; cbn [v_user v_group v_mask v_other default id] in *; mode_bits.
Qed.

Lemma extended_masq v m : extended (masq v m) = extended v.
Proof. unfold extended, masq. by destruct (v_mask v). Qed.

Lemma grants_weaken p q w : grants (Z.land p q) w = true -> grants p w = true.
Proof. rewrite grants_land. by intros [? _]%andb_true_iff. Qed.

Lemma access_masq (Sub : Subject) v m i_uid i_gid want : wf_view v ->
  access (masq v m) i_uid i_gid want = true -> access v i_uid i_gid want = true.
Proof.
  intros [_ _ _ _ _ _ Hn]. unfold access, group_perms, v_mask_of, masq.
  destruct (v_mask v) as [q|]; cbn [v_user v_users v_group v_groups v_mask v_other default id].
  - destruct (i_uid =? subject_uid); [apply grants_weaken|].
    destruct (List.find _ (v_users v)) as [ip|]; [rewrite Z.land_assoc; apply grants_weaken|].
    destruct (_ ++ _) as [|p ps]; [apply grants_weaken|].
    rewrite !existsb_mask, grants_land. intros [? [? _]%andb_true_iff]%andb_true_iff.
    by apply andb_true_iff.
  - destruct Hn as [-> ->]; [done|]. cbn [List.find List.filter fmap list_fmap app].
    destruct (i_uid =? subject_uid); [apply grants_weaken|].
    destruct (subject_in_group i_gid); cbn [existsb app]; [|apply grants_weaken].
    rewrite !orb_false_r, !grants_land. by intros [[? _]%andb_true_iff ?]%andb_true_iff; apply andb_true_iff.
Qed.

Lemma equiv_mode_of j v m : wf_view v ->
  posix_acl_equiv_mode (Some (acl_of j v)) (Some m)
  = (extended v, Some (Z.lor (Z.land m (Z.lnot S_IRWXUGO)) (mode_of v))).
Proof. intros Hv. unfold posix_acl_equiv_mode. by rewrite equiv_mode_loop_of. Qed.

(** Creating a file with a default list: on a valid list
    [posix_acl_create_masq] succeeds, the new mode is the requested one
    restricted to what the list grants, the new list is valid, denotes
    exactly the new mode's permission bits, and gives nobody an access the
    old list does not give. *)
Theorem posix_acl_create_masq_correct acl mode :
  posix_acl_valid acl = 0 ->
  exists j v acl' mode', wf_view v /\ acl = acl_of j v
    /\ posix_acl_create_masq acl mode = inr (acl', mode', extended v)
    /\ mode' = Z.land mode (Z.lor (mode_of v) (Z.lnot S_IRWXUGO))
    /\ posix_acl_valid acl' = 0
    /\ posix_acl_equiv_mode (Some acl') (Some mode') = (extended v, Some mode')
    /\ forall (Sub : Subject) i_uid i_gid want,
         posix_acl_permission i_uid i_gid acl' want = 0 ->
         posix_acl_permission i_uid i_gid acl want = 0.
Proof.
  intros (j & v & Hv & ->)%posix_acl_valid_view. pose proof (masq_wf v mode Hv) as Hv'.
  eexists j, v, _, _. split; [done|]. split; [done|]. split; [by apply create_masq_of|].
  split_and!; [done|by apply posix_acl_valid_of| |].
  - rewrite equiv_mode_of, extended_masq, masq_mode_of by done. do 2 f_equal.
    pose proof (v_class_ok v Hv) as Hc. destruct Hv as [Hu _ _ _ _ Ho _]. unfold mode_of. mode_bits.
  - intros Sub i_uid i_gid want. unfold posix_acl_permission. rewrite !permission_of by done.
    unfold verdict. destruct (access (masq _ _) _ _ _) eqn:E; [|done].
    intros _. apply access_masq in E; [|done]. by rewrite E.
Qed.

(** chmod: on a valid list [__posix_acl_chmod] succeeds when it has
    memory, the new list is valid and denotes the permission bits of the mode,
    the named entries stay, and a named user gets what its entry and the
    mode's group bits both give. *)
Theorem posix_acl_chmod_correct acl mode :
  posix_acl_valid acl = 0 ->
  exists j v acl', wf_view v /\ acl = acl_of j v
    /\ __posix_acl_chmod true (Some acl) mode = (0, Some acl')
    /\ posix_acl_valid acl' = 0
    /\ posix_acl_equiv_mode (Some acl') (Some mode) = (extended v, Some mode)
    /\ forall (Sub : Subject) i_uid i_gid want p, i_uid <> subject_uid ->
         List.find (fun ip => ip.1 =? subject_uid) (v_users v) = Some (subject_uid, p) ->
         posix_acl_permission i_uid i_gid acl' want
         = verdict (grants (Z.land p (group_bits mode)) (Z.land want 135)).
Proof.
  intros (j & v & Hv & ->)%posix_acl_valid_view. pose proof (rechmod_wf v mode Hv) as Hv'.
  eexists j, v, (acl_of j (rechmod v mode)). split; [done|]. split; [done|].
  unfold __posix_acl_chmod, posix_acl_clone. rewrite chmod_masq_of by done.
  split_and!; [done|by apply posix_acl_valid_of| |].
  - rewrite equiv_mode_of, rechmod_mode by done. f_equal.
    + unfold extended, rechmod. by destruct (v_mask v).
    + f_equal. mode_bits.
  - intros Sub i_uid i_gid want p Hne Hf. unfold posix_acl_permission. rewrite permission_of by done.
    change (Z.lor MAY_READ _) with 135. f_equal.
    unfold access, v_mask_of, rechmod. rewrite (proj2 (Z.eqb_neq i_uid subject_uid)) by done.
    destruct (v_mask v) eqn:Em; cbn [v_users v_mask default id]; [by rewrite Hf|].
    destruct (wv_needs_mask v Hv Em) as [Eu _]. by rewrite Eu in Hf.
Qed.

(** ** Extended attributes *)

(** Writing a valid list as an extended attribute and reading it back in
    the same namespace gives the list, entry by entry, whatever memory held
    where an entry has no id; the size is what the kernel reports. *)
Theorem posix_acl_xattr_roundtrip ns junk j v size :
  wf_map (uid_map ns) -> wf_map (gid_map ns) -> wf_view v ->
  Forall (fun ip => is_u32 ip.1 /\ from_kuid ns ip.1 <> INVALID_ID) (v_users v) ->
  Forall (fun ip => is_u32 ip.1 /\ from_kgid ns ip.1 <> INVALID_ID) (v_groups v) ->
  Z.of_nat (length (acl_of j v)) < 2 ^ 28 ->
  (posix_acl_to_xattr ns (acl_of j v) false size).1 <= size ->
  exists j' value,
    posix_acl_to_xattr ns (acl_of j v) true size = (Z.of_nat (length value), value)
    /\ Z.of_nat (length value) = (posix_acl_to_xattr ns (acl_of j v) false size).1
    /\ posix_acl_from_xattr ns junk true (Some value) = inr (Some (acl_of j' v)).
Proof.
  intros Hu Hg Hv Hku Hkg Hl Hs. destruct (rejunk_acl_of junk 0 j v) as [j' Ej].
  assert (Es : (posix_acl_to_xattr ns (acl_of j v) false size).1
               = 4 + 8 * Z.of_nat (length (acl_of j v))).
  { unfold posix_acl_to_xattr, posix_acl_xattr_size, XATTR_HEADER_SIZE, XATTR_ENTRY_SIZE. cbn [negb fst].
    rewrite u64_id, s32_id by ulia. lia. }
  rewrite Es in *. eexists j', _. rewrite to_xattr_ok by done. split_and!.
  - f_equal. by rewrite xattr_value_length.
  - by rewrite xattr_value_length.
  - rewrite from_xattr_of by (done || by apply acl_of_entries_ok). by rewrite Ej.
Qed.

(** The translation of attributes at the system call boundary is exact:
    an attribute written by a process in a namespace is understood, after
    [posix_acl_fix_xattr_from_user], as the list it denotes in that namespace
    (errors included), and one read back is, after
    [posix_acl_fix_xattr_to_user], the attribute of that namespace. *)
Theorem posix_acl_xattr_translation (st : ns_store) current init ns :
  st !! 1%positive = Some init -> initial init ->
  cred_user_ns current <> 1%positive -> st !! cred_user_ns current = Some ns ->
  (forall junk alloc value, is_bytes value ->
     exists value', posix_acl_fix_xattr_from_user st current (Some value) = Ok (Some value')
       /\ posix_acl_from_xattr init junk alloc (Some value')
          = posix_acl_from_xattr ns junk alloc (Some value))
  /\ (forall acl size, Forall (entry_ok init) acl -> Z.of_nat (length acl) < 2 ^ 28 ->
       4 + 8 * Z.of_nat (length acl) <= size ->
       posix_acl_fix_xattr_to_user st current (Some (posix_acl_to_xattr init acl true size).2)
       = Ok (Some (posix_acl_to_xattr ns acl true size).2)).
Proof.
  intros E1 Hi Hc Ens. unfold posix_acl_fix_xattr_from_user, posix_acl_fix_xattr_to_user.
  rewrite (proj2 (Pos.eqb_neq (cred_user_ns current) 1) Hc), E1, Ens. split.
  - intros junk alloc value Hb. pose proof (fix_from_ok init ns junk alloc value Hi Hb) as Hf.
    destruct (posix_acl_fix_xattr_userns init ns (Some value)) as [value'|] eqn:E; [by exists value'|].
    unfold posix_acl_fix_xattr_userns in E. repeat (case_if_in E; [done|]). done.
  - intros acl size Ha Hl Hs. rewrite !to_xattr_ok by done. cbn [snd]. by rewrite fix_to_ok.
Qed.

(** ** Permission *)

Definition view_of_mode (m : Z) : acl_view :=
  View (owner_bits m) [] (group_bits m) [] None (other_bits m).

(** The list in force: the cached one, in step with the mode, or the mode's. *)
Inductive effective (i : inode) : acl_view -> Prop :=
| eff_mode : i_acl i = Cached None -> effective i (view_of_mode (i_mode i))
| eff_acl j v :
    i_acl i = Cached (Some (acl_of j v)) -> wf_view v -> extended v = 1 ->
    Z.land (i_mode i) S_IRWXUGO = mode_of v -> effective i v.

Lemma eff_mode_eq i v : i_acl i = Cached None -> view_of_mode (i_mode i) = v -> effective i v.
Proof. intros E <-. by apply eff_mode. Qed.

Lemma mode_check_grants m mask :
  mode_check m mask = verdict (grants (Z.land m 7) (Z.land mask 7)).
Proof.
  unfold mode_check, verdict, grants. change (Z.lor MAY_READ _) with 7.
  replace (Z.land (Z.land mask (Z.lnot m)) 7 =? 0)
    with (Z.land (Z.land m 7) (Z.land mask 7) =? Z.land mask 7); [done|].
  apply eq_bool_prop_intro. rewrite !Is_true_true, !Z.eqb_eq. split; intros E;
    apply Z.bits_inj'; intros n Hn; apply (f_equal (fun x => Z.testbit x n)) in E;
    rewrite ?Z.land_spec, ?Z.lnot_spec, ?Z.bits_0, ?Z.land_spec in * by done;
    destruct (Z.testbit m n), (Z.testbit mask n), (Z.testbit 7 n); done.
Qed.

Lemma want_rwx mask : Z.land mask MAY_NOT_BLOCK = 0 -> Z.land mask 135 = Z.land mask 7.
Proof.
  intros E. change 135 with (Z.lor 7 MAY_NOT_BLOCK). by rewrite Z.land_lor_distr_r, E, Z.lor_0_r.
Qed.

Lemma want_blocking mask : Z.land (Z.land mask (Z.lnot MAY_NOT_BLOCK)) 135 = Z.land mask 7.
Proof. by rewrite <- Z.land_assoc. Qed.

Section Permission.
Context `{SecurityModule} (i_op : inode_operations) (st : ns_store) (current : cred).

Lemma check_acl_cached i j v mask :
  i_acl i = Cached (Some (acl_of j v)) -> wf_view v ->
  check_acl i_op current i mask
  = Ok (i, verdict (access (Sub := cred_subject current) v (i_uid i) (i_gid i) (Z.land mask 7))).
Proof.
  intros E Hv. unfold check_acl, get_acl, get_cached_acl_rcu, get_cached_acl, acl_by_type.
  rewrite E. cbn [Z.eqb ACL_TYPE_ACCESS Pos.eqb obind]. unfold posix_acl_permission.
  change (Z.lor MAY_READ _) with 135. case_if.
  - by rewrite permission_of, want_blocking by done.
  - by rewrite permission_of, want_rwx by done.
Qed.

Lemma check_acl_none i mask : i_acl i = Cached None ->
  check_acl i_op current i mask = Ok (i, - EAGAIN).
Proof.
  intros E. unfold check_acl, get_acl, get_cached_acl_rcu, get_cached_acl, acl_by_type.
  rewrite E. by case_if.
Qed.

Lemma mode_of_bits v m : wf_view v -> Z.land m S_IRWXUGO = mode_of v ->
  owner_bits m = v_user v /\ group_bits m = v_class v /\ other_bits m = v_other v.
Proof.
  intros Hv E. pose proof (v_class_ok v Hv) as Hc. destruct Hv as [Hu _ _ _ _ Ho _].
  assert (owner_bits m = owner_bits (Z.land m S_IRWXUGO)
    /\ group_bits m = group_bits (Z.land m S_IRWXUGO)
    /\ other_bits m = other_bits (Z.land m S_IRWXUGO)) as (-> & -> & ->).
  { unfold owner_bits, group_bits, other_bits. split_and!; mode_bits. }
  rewrite E. unfold mode_of, owner_bits, group_bits, other_bits. split_and!; mode_bits.
Qed.

Lemma access_view_of_mode (Sub : Subject) m i_uid i_gid want :
  access (view_of_mode m) i_uid i_gid want
  = if i_uid =? subject_uid then grants (owner_bits m) want
    else if subject_in_group i_gid then grants (group_bits m) want
    else grants (other_bits m) want.
Proof.
  unfold access, group_perms, view_of_mode, v_mask_of.
  cbn [v_user v_users v_group v_groups v_mask v_other default List.find List.filter fmap list_fmap].
  destruct (i_uid =? subject_uid); [done|].
  destruct (subject_in_group i_gid); cbn [app existsb]; [|done].
  rewrite land_7 by apply perm_ok_bits_7. by rewrite orb_false_r.
Qed.

(** A list the mode cannot express is skipped when the mode's group bits, its
    mask, are empty. *)
Definition consulted (i : inode) (v : acl_view) : Prop :=
  fsuid current = i_uid i \/ Z.land (i_mode i) S_IRWXG <> 0 \/ extended v = 0.

Lemma acl_permission_check_spec i v mask :
  effective i v -> i_posixacl i = true -> consulted i v ->
  acl_permission_check i_op current i mask
  = Ok (i, verdict (access (Sub := cred_subject current) v (i_uid i) (i_gid i) (Z.land mask 7))).
Proof.
  intros Heff Hp Hc. unfold acl_permission_check. rewrite Hp. cbn [andb].
  destruct Heff as [E|j v E Hv Hx Hm].
  - rewrite check_acl_none, !mode_check_grants by done. cbn [obind].
    change (negb (- EAGAIN =? - EAGAIN)) with false. cbn iota.
    rewrite access_view_of_mode, (Z.eqb_sym (i_uid i)). cbn [subject_uid subject_in_group cred_subject].
    by repeat case_if.
  - destruct (mode_of_bits v (i_mode i) Hv Hm) as (Eu & Eg & Eo).
    destruct (fsuid current =? i_uid i) eqn:Euid; zbool.
    + rewrite mode_check_grants. fold (owner_bits (i_mode i)). rewrite Eu. unfold access. cbn.
      by rewrite Euid, Z.eqb_refl.
    + case_if; [|destruct Hc as [?|[?|?]]; [done|done|lia]].
      rewrite (check_acl_cached i j v) by done. cbn [obind]. by destruct (access _ _ _ _).
Qed.
Definition holds (ns : user_namespace) (i : inode) (cap : Z) : bool :=
  security_capable st current (cred_user_ns current) cap
  && kuid_has_mapping ns (i_uid i) && kgid_has_mapping ns (i_gid i).

(** What capabilities add: everything on a directory, everything on a file
    except executing one nobody may execute; reading and searching. *)
Definition privileged (ns : user_namespace) (i : inode) (mask : Z) : bool :=
  if S_ISDIR (i_mode i) then
    holds ns i CAP_DAC_OVERRIDE
    || ((Z.land mask MAY_WRITE =? 0) && holds ns i CAP_DAC_READ_SEARCH)
  else
    ((Z.land mask MAY_EXEC =? 0) || negb (Z.land (i_mode i) S_IXUGO =? 0))
      && holds ns i CAP_DAC_OVERRIDE
    || ((Z.land mask 7 =? MAY_READ) && holds ns i CAP_DAC_READ_SEARCH).

Lemma capable_holds ns i cap : st !! cred_user_ns current = Some ns -> cap_valid cap = true ->
  capable_wrt_inode_uidgid st current i cap = Ok (holds ns i cap).
Proof.
  intros Ens Hcap. unfold capable_wrt_inode_uidgid, ns_capable. by rewrite Ens, Hcap.
Qed.

(** C22. [generic_permission] grants access exactly when the list in force
    does by the POSIX algorithm or a capability over the inode covers the
    request, provided the code consults the list: the caller owns the file,
    the list is no more than mode bits, or its mask is not empty. *)
Theorem generic_permission_correct i v ns mask :
  effective i v -> i_posixacl i = true -> consulted i v ->
  st !! cred_user_ns current = Some ns ->
  generic_permission i_op st current i mask
  = Ok (i, verdict (access (Sub := cred_subject current) v (i_uid i) (i_gid i) (Z.land mask 7)
                    || privileged ns i mask)).
Proof.
  intros Heff Hp Hc Ens. unfold generic_permission, privileged.
  rewrite (acl_permission_check_spec i v) by done. cbn [obind].
  destruct (access _ _ _ _); [done|]. cbn [verdict orb].
  change (negb (- EACCES =? - EACCES)) with false. cbn iota.
  rewrite !(capable_holds ns) by done. cbn [obind]. change (Z.lor MAY_READ _) with 7.
  repeat (case_if; cbn [obind andb orb negb verdict]; try done);
    destruct (holds ns i CAP_DAC_OVERRIDE), (holds ns i CAP_DAC_READ_SEARCH); done.
Qed.

End Permission.

(** ** Keeping the list and the mode in step *)

Lemma view_of_mode_plain v m : wf_view v -> extended v = 0 ->
  view_of_mode (Z.lor (Z.land m (Z.lnot S_IRWXUGO)) (mode_of v)) = v.
Proof.
  intros Hv Hx. set (m' := Z.lor _ _).
  assert (E : Z.land m' S_IRWXUGO = mode_of v).
  { pose proof (v_class_ok v Hv). destruct Hv. subst m'. unfold mode_of. mode_bits. }
  destruct (mode_of_bits v m' Hv E) as (Eu & Eg & Eo). unfold view_of_mode. rewrite Eu, Eg, Eo.
  unfold extended, v_class in *. destruct v as [u us g gs [q|] o]; [done|].
  destruct (wv_needs_mask _ Hv eq_refl) as [E1 E2]. cbn in E1, E2. by rewrite E1, E2.
Qed.

Lemma simple_set_acl_some now i j v : wf_view v ->
  exists i', simple_set_acl now i (Some (acl_of j v)) ACL_TYPE_ACCESS = Ok (0, i')
    /\ effective i' v
    /\ i_mode i' = Z.lor (Z.land (i_mode i) (Z.lnot S_IRWXUGO)) (mode_of v)
    /\ i_default_acl i' = i_default_acl i.
Proof.
  intros Hv. unfold simple_set_acl. rewrite equiv_mode_of by done.
  cbn [Z.eqb ACL_TYPE_ACCESS Pos.eqb default id].
  assert (extended v = 0 \/ extended v = 1) as [Hx|Hx]
    by (unfold extended; destruct (v_mask v); auto); rewrite Hx; eexists; (split; [done|]).
  - split; [|done]. apply eff_mode_eq; [done|]. by apply view_of_mode_plain.
  - split; [|done]. apply (eff_acl _ j); [done..|].
    pose proof (v_class_ok v Hv). destruct Hv. cbn. unfold mode_of. mode_bits.
Qed.

(** C23. The list in force and the mode on a filesystem with [simple_set_acl]
    (tmpfs).  Setting a valid list puts it in force.  The part of chmod that
    follows the change of the mode puts the re-masked list in force and keeps
    the requested mode; without memory for the copy of a list it fails, and
    the list then stays as it was under the new mode.  Creation below a
    directory with a default list puts the restricted default list in force
    and hands the default on to directories, or fails for lack of memory and
    changes nothing.  Below a directory without one the new inode has no list
    and the mode less the umask, and a symbolic link, or an inode on a
    filesystem without lists, its mode as it was. *)
Theorem simple_acl_in_step now i v :
  i_posixacl i = true -> effective i v ->
  (forall j w, wf_view w ->
     exists i', simple_set_acl now i (Some (acl_of j w)) ACL_TYPE_ACCESS = Ok (0, i')
       /\ effective i' w)
  /\ (forall alloc m, exists ret i', posix_acl_chmod (simple_ops now) alloc (set_mode i m) m = Ok (ret, i')
       /\ i_mode i' = m
       /\ (ret = 0 /\ effective i' (rechmod v m)
           \/ ret = - ENOMEM /\ alloc = false /\ i_acl i <> Cached None /\ i' = set_mode i m))
  /\ (forall dir j d umask, i_posixacl dir = true -> wf_view d ->
       i_default_acl dir = Cached (Some (acl_of j d)) -> S_ISLNK (i_mode i) = false ->
       simple_acl_create (simple_ops now) false umask dir i = Ok (- ENOMEM, dir, i)
       /\ exists i', simple_acl_create (simple_ops now) true umask dir i = Ok (0, dir, i')
         /\ effective i' (masq d (i_mode i))
         /\ i_mode i' = Z.land (i_mode i) (Z.lor (mode_of d) (Z.lnot S_IRWXUGO))
         /\ i_default_acl i'
            = Cached (if S_ISDIR (i_mode i') then Some (acl_of j d) else None))
  /\ (forall alloc dir umask,
       (i_posixacl dir = true -> i_default_acl dir = Cached None \/ i_default_acl dir = ACL_NOT_CACHED) ->
       exists dir' i', simple_acl_create (simple_ops now) alloc umask dir i = Ok (0, dir', i')
         /\ i_mode i' = (if S_ISLNK (i_mode i) || negb (i_posixacl dir) then i_mode i
                         else Z.land (i_mode i) (Z.lnot umask))
         /\ effective i' (view_of_mode (i_mode i')) /\ i_default_acl i' = Cached None).
Proof.
  intros Hp Heff. split_and!.
  - intros j w Hw. destruct (simple_set_acl_some now i j w Hw) as (i' & E & He & _). by exists i'.
  - intros alloc m. unfold posix_acl_chmod, get_acl, get_cached_acl, acl_by_type.
    cbn [op_set_acl simple_ops i_posixacl set_mode i_acl]. rewrite Hp. cbn [negb].
    cbn [Z.eqb ACL_TYPE_ACCESS Pos.eqb obind]. destruct Heff as [E|j v E Hv Hx Hm]; rewrite E; cbn [obind].
    + eexists _, _. split; [done|]. split; [done|]. left. split; [done|]. by apply (eff_mode (set_mode i m)).
    + unfold __posix_acl_chmod, posix_acl_clone. destruct alloc; [|eexists _, _; split; [done|]; split; [done|]; right; by split_and!].
      rewrite chmod_masq_of by done. cbn [Z.eqb negb].
      destruct (simple_set_acl_some now (set_mode i m) j (rechmod v m)) as (i' & E' & He & Em & _);
        [by apply rechmod_wf|].
      exists 0, i'. split; [exact E'|]. split; [|by left]. rewrite Em, rechmod_mode. cbn. mode_bits.
  - intros dir j d umask Hdp Hd Edef Hl. unfold simple_acl_create, posix_acl_create.
    rewrite Hl, Hdp. cbn [orb negb]. unfold get_acl, get_cached_acl, acl_by_type.
    rewrite Edef. cbn [Z.eqb ACL_TYPE_ACCESS ACL_TYPE_DEFAULT Pos.eqb obind posix_acl_clone]. split; [done|].
    rewrite create_masq_of by done. set (m' := Z.land (i_mode i) _). cbn [obind].
    assert (Hmm : Z.land m' S_IRWXUGO = mode_of (masq d (i_mode i))).
    { rewrite masq_mode_of by done. pose proof (v_class_ok d Hd). destruct Hd. subst m'.
      unfold mode_of. mode_bits. }
    assert (Hw : wf_view (masq d (i_mode i))) by (by apply masq_wf).
    assert (extended d = 0 \/ extended d = 1) as [Hx|Hx]
      by (unfold extended; destruct (v_mask d); auto); rewrite Hx; eexists; (split; [done|]);
      (split; [|split; [done|cbn -[S_ISDIR]; by destruct (S_ISDIR m')]]).
    + apply eff_mode_eq; [done|].
      etrans; [|apply (view_of_mode_plain _ m' Hw); by rewrite extended_masq].
      rewrite <- Hmm. apply (f_equal view_of_mode). cbn. clearbody m'. mode_bits.
    + apply (eff_acl _ j); [done|done|by rewrite extended_masq|done].
  - intros alloc dir umask Hdef. unfold simple_acl_create, posix_acl_create.
    destruct (S_ISLNK (i_mode i) || negb (i_posixacl dir)) eqn:Hs;
      [eexists _, _; split; [done|]; split; [done|]; split; [by apply eff_mode|done]|].
    apply orb_false_iff in Hs as [_ Hs]. apply negb_false_iff in Hs.
    unfold get_acl, get_cached_acl, acl_by_type, set_cached_acl. rewrite Hs.
    destruct (Hdef Hs) as [E|E]; rewrite E; eexists _, _; (split; [done|]); (split; [done|]);
      (split; [by apply eff_mode|done]).
Qed.

(** ** Where the code departs from the lists *)

#[local] Instance acl_security : SecurityModule := {|
  security_capable _ _ _ _ := false; page_bytes := 4096 |}.

Definition acl_ops : inode_operations := simple_ops 0.
Definition acl_store : ns_store :=
  {[ 1%positive := init_user_ns;
     2%positive := UserNs [Extent 0 1000 10] [Extent 0 2000 10] [] (Some 1%positive) 1 0 0 0 ]}.
Definition acl_user : cred := Cred 1001 1001 1001 1001 1 [2001; 2005] 0 0 0 0.
Definition acl_junk0 : acl_junk := Junk 0 0 0 0.
(** user::rwx, user:1001:rw-, group::r-x, group:2001:r--, mask::rw-, other::r-- *)
Definition acl_view0 : acl_view := View 7 [(1001, 6)] 5 [(2001, 4)] (Some 6) 4.
Definition acl_inode (v : acl_view) (gid : Z) : inode :=
  Inode (32768 + mode_of v) 1000 gid (Cached (Some (acl_of acl_junk0 v))) (Cached None) 0 true
    false false.

(** With an empty mask the list is not consulted: a named user the list denies
    everything reads the file by the permissions of others. *)
Example empty_mask_not_consulted :
  let v := View 6 [(1001, 6)] 0 [] (Some 0) 4 in
  posix_acl_valid (acl_of acl_junk0 v) = 0
  /\ posix_acl_permission (S := cred_subject acl_user) 1000 1000 (acl_of acl_junk0 v) MAY_READ
     = - EACCES
  /\ acl_permission_check acl_ops acl_user (acl_inode v 1000) MAY_READ
     = Ok (acl_inode v 1000, 0).
Proof. vm_compute. split_and!; reflexivity. Qed.

(** A file of the groups sdcard_rw or sdcard_r may be given any list by
    anybody: [inode_owner_or_capable] holds for every caller. *)
Lemma sdcard_owned_by_everybody st current ns i :
  st !! cred_user_ns current = Some ns -> i_gid i = AID_SDCARD_RW \/ i_gid i = AID_SDCARD_R ->
  inode_owner_or_capable st current i = Ok true.
Proof.
  intros E Hg. unfold inode_owner_or_capable, ns_capable. rewrite E. case_if; [done|].
  cbn [obind negb]. case_if; [done|]. by destruct Hg as [-> | ->].
Qed.

(** ** Witnesses *)

Lemma acl_user_groups : SubjectGroups (cred_subject acl_user) ({[1001]} ∪ list_to_set [2001; 2005]).
Proof. apply cred_subject_groups; [repeat constructor|]; cbn; lia. Qed.

Lemma acl_view0_wf : wf_view acl_view0.
Proof.
  assert (Hn : forall ip, perm_ok ip.2 -> ip.1 <> INVALID_ID -> Forall named_ok [ip])
    by (intros; by apply Forall_singleton).
  assert (Hp : forall p, p < 8 -> 0 <= p -> perm_ok p) by (unfold perm_ok; lia).
  split; cbn; [by apply Hp|by apply Hn; [apply Hp|]|by apply Hp|by apply Hn; [apply Hp|]| |by apply Hp|done].
  intros p [= <-]. by apply Hp.
Qed.

Lemma init_map_wf : wf_map init_map.
Proof.
  split; [apply Forall_singleton; split; cbn; ulia|repeat constructor|].
  unfold nr_extents, UID_GID_MAP_MAX_EXTENTS. cbn. lia.
Qed.

Lemma posix_acl_permission_correct_witness :
  posix_acl_valid (acl_of acl_junk0 acl_view0) = 0
  /\ exists j v, wf_view v /\ acl_of acl_junk0 acl_view0 = acl_of j v
    /\ (posix_acl_permission (S := cred_subject acl_user) 1000 1000 (acl_of acl_junk0 acl_view0) 6 = 0
        <-> entitled (Sub := cred_subject acl_user) (G := {[1001]} ∪ list_to_set [2001; 2005])
              v 1000 1000 6).
Proof.
  split; [reflexivity|].
  destruct (posix_acl_permission_correct (Sub := cred_subject acl_user)
    (G := {[1001]} ∪ list_to_set [2001; 2005]) (SubjectGroups0 := acl_user_groups)
    (acl_of acl_junk0 acl_view0) 1000 1000 6) as (j & v & Hv & E & Hp & _); [reflexivity|].
  exists j, v. split; [exact Hv|]. split; [exact E|exact Hp].
Defined.

Lemma posix_acl_create_masq_correct_witness :
  exists j v acl' mode', wf_view v /\ acl_of acl_junk0 acl_view0 = acl_of j v
    /\ posix_acl_create_masq (acl_of acl_junk0 acl_view0) 33188 = inr (acl', mode', extended v)
    /\ posix_acl_valid acl' = 0.
Proof.
  destruct (posix_acl_create_masq_correct (acl_of acl_junk0 acl_view0) 33188)
    as (j & v & a & m & Hv & E & Hc & _ & Ha & _); [reflexivity|].
  exists j, v, a, m. split; [exact Hv|]. split; [exact E|]. split; [exact Hc|exact Ha].
Defined.

Lemma posix_acl_chmod_correct_witness :
  exists j v acl', wf_view v /\ acl_of acl_junk0 acl_view0 = acl_of j v
    /\ __posix_acl_chmod true (Some (acl_of acl_junk0 acl_view0)) 33188 = (0, Some acl')
    /\ posix_acl_equiv_mode (Some acl') (Some 33188) = (extended v, Some 33188).
Proof.
  destruct (posix_acl_chmod_correct (acl_of acl_junk0 acl_view0) 33188)
    as (j & v & a & Hv & E & Hc & _ & Ha & _); [reflexivity|].
  exists j, v, a. split; [exact Hv|]. split; [exact E|]. split; [exact Hc|exact Ha].
Defined.

Lemma posix_acl_xattr_roundtrip_witness :
  exists j' value,
    posix_acl_to_xattr init_user_ns (acl_of acl_junk0 acl_view0) true 64
    = (Z.of_nat (length value), value)
    /\ posix_acl_from_xattr init_user_ns (fun _ => 7) true (Some value)
       = inr (Some (acl_of j' acl_view0)).
Proof.
  destruct (posix_acl_xattr_roundtrip init_user_ns (fun _ => 7) acl_junk0 acl_view0 64)
    as (j' & value & Hw & _ & Hr).
  - apply init_map_wf.
  - apply init_map_wf.
  - apply acl_view0_wf.
  - apply Forall_singleton. split; [cbn; ulia|vm_compute; congruence].
  - apply Forall_singleton. split; [cbn; ulia|vm_compute; congruence].
  - cbn. lia.
  - vm_compute. congruence.
  - exists j', value. split; [exact Hw|exact Hr].
Defined.

Lemma posix_acl_xattr_translation_witness :
  exists value', posix_acl_fix_xattr_from_user acl_store (set_cred_user_ns acl_user 2)
      (Some [2; 0; 0; 0; 2; 0; 6; 0; 5; 0; 0; 0]) = Ok (Some value')
    /\ posix_acl_from_xattr init_user_ns (fun _ => 0) true (Some value')
       = inr (Some [Entry ACL_USER 6 1005]).
Proof.
  destruct (posix_acl_xattr_translation acl_store (set_cred_user_ns acl_user 2) init_user_ns
    (UserNs [Extent 0 1000 10] [Extent 0 2000 10] [] (Some 1%positive) 1 0 0 0)) as [Hf _];
    [reflexivity|by split|done|reflexivity|].
  destruct (Hf (fun _ => 0) true [2; 0; 0; 0; 2; 0; 6; 0; 5; 0; 0; 0]) as (value' & E & Hr).
  - repeat (apply Forall_cons_2; [lia|]). apply Forall_nil_2.
  - exists value'. split; [exact E|]. rewrite Hr. vm_compute. reflexivity.
Defined.

Lemma generic_permission_correct_witness :
  generic_permission acl_ops acl_store acl_user
    (acl_inode acl_view0 1000) MAY_READ
  = Ok (set_mode (acl_inode acl_view0 1000) (32768 + mode_of acl_view0), 0).
Proof.
  rewrite (generic_permission_correct acl_ops acl_store acl_user
    (acl_inode acl_view0 1000) acl_view0 init_user_ns).
  - vm_compute. reflexivity.
  - apply (eff_acl _ acl_junk0); [reflexivity|apply acl_view0_wf|reflexivity|reflexivity].
  - reflexivity.
  - right. left. vm_compute. congruence.
  - reflexivity.
Defined.

Lemma simple_acl_in_step_witness :
  exists i', posix_acl_chmod acl_ops true
      (set_mode (acl_inode acl_view0 1000) 33152) 33152
    = Ok (0, i') /\ i_mode i' = 33152.
Proof.
  destruct (simple_acl_in_step 0
    (acl_inode acl_view0 1000) acl_view0) as (_ & Hc & _).
  - reflexivity.
  - apply (eff_acl _ acl_junk0); [reflexivity|apply acl_view0_wf|reflexivity|reflexivity].
  - destruct (Hc true 33152) as (ret & i' & E & Em & [[-> _]|(_ & Hf & _)]); [|discriminate Hf].
    exists i'. split; [exact E|exact Em].
Defined.
