(* ===== verification/Resource.v ===== *)
(** * Trees of I/O and memory resources (kernel/resource.c)

    A store of descriptors under the names the code's pointers hold.  The
    [child] and [sibling] links of a descriptor are the list of its children
    in order: reading or writing [*p] with [p] at the [i]-th link is reading
    or editing the list at position [i].  A missing name is a dangling or NULL
    pointer, whose use is [Bug].  The lock is held by every caller. *)

From stdpp Require Import gmap.
From S2P Require Import Prelude CText.

Abbreviation res_ref := positive.

Record resource := Res {
  r_start : Z; r_end : Z; r_name : list Z; r_flags : Z;
  r_parent : option res_ref; r_children : list res_ref
}.

Abbreviation res_store := (gmap res_ref resource).

Definition IORESOURCE_TYPE_BITS : Z := 7936.
Definition IORESOURCE_MEM : Z := 512.
Definition IORESOURCE_SIZEALIGN : Z := 262144.
Definition IORESOURCE_STARTALIGN : Z := 524288.
Definition IORESOURCE_MUXED : Z := 4194304.
Definition IORESOURCE_UNSET : Z := 536870912.
Definition IORESOURCE_BUSY : Z := 2147483648.

Definition set_range (r : resource) (start end_ : Z) : resource :=
  Res start end_ (r_name r) (r_flags r) (r_parent r) (r_children r).
Definition set_parent (r : resource) (parent : option res_ref) : resource :=
  Res (r_start r) (r_end r) (r_name r) (r_flags r) parent (r_children r).
Definition set_children (r : resource) (children : list res_ref) : resource :=
  Res (r_start r) (r_end r) (r_name r) (r_flags r) (r_parent r) children.

(** Dereference, and update through a pointer. *)
Definition deref (st : res_store) (p : res_ref) : outcome resource :=
  match st !! p with Some r => Ok r | None => Bug end.

Definition upd (st : res_store) (p : res_ref) (f : resource -> resource) : res_store :=
  alter f p st.

Definition resource_size (r : resource) : Z := u64 (r_end r - r_start r + 1).
Definition resource_type (r : resource) : Z := Z.land (r_flags r) IORESOURCE_TYPE_BITS.

Definition resource_contains (r1 r2 : resource) : bool :=
  if negb (resource_type r1 =? resource_type r2) then false
  else if negb (Z.land (r_flags r1) IORESOURCE_UNSET =? 0)
          || negb (Z.land (r_flags r2) IORESOURCE_UNSET =? 0) then false
  else (r_start r1 <=? r_start r2) && (r_end r1 >=? r_end r2).

(** ** Requesting and releasing *)

(** The loop of [__request_resource]: the conflicting child, or the position
    of the link at which the new resource goes in. *)
Fixpoint request_scan (st : res_store) (children : list res_ref) (start end_ : Z)
    : outcome (res_ref + nat) :=
  match children with
  | [] => Ok (inr 0%nat)
  | tmp :: rest =>
      let! t := deref st tmp in
      if r_start t >? end_ then Ok (inr 0%nat)
      else if r_end t <? start then
        let! r := request_scan st rest start end_ in
        Ok (match r with inl c => inl c | inr n => inr (S n) end)
      else Ok (inl tmp)
  end.

(** The conflict, None on success. *)
Definition __request_resource (st : res_store) (root new : res_ref)
    : outcome (option res_ref * res_store) :=
  let! n := deref st new in
  let! r := deref st root in
  let start := r_start n in
  let end_ := r_end n in
  if end_ <? start then Ok (Some root, st)
  else if start <? r_start r then Ok (Some root, st)
  else if end_ >? r_end r then Ok (Some root, st)
  else
    let! found := request_scan st (r_children r) start end_ in
    match found with
    | inl tmp => Ok (Some tmp, st)
    | inr i =>
        let st := upd st root (fun r =>
          set_children r (take i (r_children r) ++ new :: drop i (r_children r))) in
        let st := upd st new (fun n => set_parent n (Some root)) in
        Ok (None, st)
    end.

Definition request_resource_conflict := __request_resource.

Definition request_resource (st : res_store) (root new : res_ref) : outcome (Z * res_store) :=
  let! (conflict, st) := request_resource_conflict st root new in
  Ok (match conflict with Some _ => - EBUSY | None => 0 end, st).

(** Unlinking a child from a list. *)
Fixpoint unlink (old : res_ref) (children : list res_ref) : option (list res_ref) :=
  match children with
  | [] => None
  | tmp :: rest => if (tmp =? old)%positive then Some rest else cons tmp <$> unlink old rest
  end.

Definition __release_resource (st : res_store) (old : res_ref) : outcome (Z * res_store) :=
  let! o := deref st old in
  match r_parent o with
  | None => Bug
  | Some parent =>
      let! p := deref st parent in
      match unlink old (r_children p) with
      | None => Ok (- EINVAL, st)
      | Some children =>
          let st := upd st parent (fun p => set_children p children) in
          let st := upd st old (fun o => set_parent o None) in
          Ok (0, st)
      end
  end.

Definition release_resource := __release_resource.

(** [__release_child_resources]; [fuel] bounds the depth and the number of
    descendants together. *)
Fixpoint release_children (fuel : nat) (st : res_store) (children : list res_ref)
    : outcome res_store :=
  match fuel with
  | O => NoFuel
  | S fuel =>
      match children with
      | [] => Ok st
      | tmp :: p =>
          let st := upd st tmp (fun t => set_parent t None) in
          let! t := deref st tmp in
          let st := upd st tmp (fun t => set_children t []) in
          let! st := release_children fuel st (r_children t) in
          let! t := deref st tmp in
          let size := resource_size t in
          let st := upd st tmp (fun t => set_range t 0 (u64 (size - 1))) in
          release_children fuel st p
      end
  end.

Definition release_child_resources (st : res_store) (r : res_ref) : outcome res_store :=
  let! x := deref st r in
  release_children (S (size st)) (upd st r (fun x => set_children x [])) (r_children x).

(** ** Insertion *)

(** The second loop of [__insert_resource] from the first conflict on: a
    partial overlap, or how many children the new resource adopts. *)
Fixpoint insert_scan (st : res_store) (next : list res_ref) (new : resource)
    : outcome (res_ref + nat) :=
  match next with
  | [] => Bug
  | next :: rest =>
      let! n := deref st next in
      if (r_start n <? r_start new) || (r_end n >? r_end new) then Ok (inl next)
      else
        match rest with
        | [] => Ok (inr 1%nat)
        | sibling :: _ =>
            let! s := deref st sibling in
            if r_start s >? r_end new then Ok (inr 1%nat)
            else
              let! r := insert_scan st rest new in
              Ok (match r with inl c => inl c | inr k => inr (S k) end)
        end
  end.

(** The rewiring: [new] takes the place of [k] children from position [i]. *)
Definition adopt (st : res_store) (parent new : res_ref) (i k : nat) (children : list res_ref)
    : res_store :=
  let adopted := take k (drop i children) in
  let st := upd st new (fun n => set_parent n (Some parent)) in
  let st := upd st new (fun n => set_children n adopted) in
  let st := foldl (fun st next => upd st next (fun x => set_parent x (Some new))) st adopted in
  upd st parent (fun p => set_children p (take i children ++ new :: drop (i + k) children)).

(** The position of a child. *)
Fixpoint position (c : res_ref) (children : list res_ref) : option nat :=
  match children with
  | [] => None
  | x :: rest => if (x =? c)%positive then Some 0%nat else S <$> position c rest
  end.

Fixpoint insert_loop (fuel : nat) (st : res_store) (parent new : res_ref)
    : outcome (option res_ref * res_store) :=
  match fuel with
  | O => NoFuel
  | S fuel =>
      let! (conflict, st) := __request_resource st parent new in
      match conflict with
      | None => Ok (None, st)
      | Some first =>
          if (first =? parent)%positive then Ok (Some first, st)
          else if (first =? new)%positive then Ok (Some first, st)
          else
            let! f := deref st first in
            let! n := deref st new in
            if (r_start f >? r_start n) || (r_end f <? r_end n)
               || ((r_start f =? r_start n) && (r_end f =? r_end n)) then
              let! p := deref st parent in
              match position first (r_children p) with
              | None => Bug
              | Some i =>
                  let! found := insert_scan st (drop i (r_children p)) n in
                  match found with
                  | inl next => Ok (Some next, st)
                  | inr k => Ok (None, adopt st parent new i k (r_children p))
                  end
              end
            else insert_loop fuel st first new
      end
  end.

Definition __insert_resource (st : res_store) (parent new : res_ref)
    : outcome (option res_ref * res_store) :=
  insert_loop (S (size st)) st parent new.

Definition insert_resource_conflict := __insert_resource.

Definition insert_resource (st : res_store) (parent new : res_ref) : outcome (Z * res_store) :=
  let! (conflict, st) := insert_resource_conflict st parent new in
  Ok (match conflict with Some _ => - EBUSY | None => 0 end, st).

Fixpoint expand_loop (fuel : nat) (st : res_store) (root new : res_ref) : outcome res_store :=
  match fuel with
  | O => NoFuel
  | S fuel =>
      let! (conflict, st) := __insert_resource st root new in
      match conflict with
      | None => Ok st
      | Some conflict =>
          if (conflict =? root)%positive then Ok st
          else
            let! c := deref st conflict in
            let st := upd st new (fun n =>
              set_range n (if r_start c <? r_start n then r_start c else r_start n)
                (if r_end c >? r_end n then r_end c else r_end n)) in
            expand_loop fuel st root new
      end
  end.

(** Each expansion covers a further resource entirely. *)
Definition insert_resource_expand_to_fit (st : res_store) (root new : res_ref)
    : outcome res_store :=
  let! n := deref st new in
  match r_parent n with
  | Some _ => Ok st
  | None => expand_loop (S (size st)) st root new
  end.

(** ** Adjusting *)

Fixpoint all_within (st : res_store) (children : list res_ref) (start end_ : Z) : outcome bool :=
  match children with
  | [] => Ok true
  | tmp :: rest =>
      let! t := deref st tmp in
      if (r_start t <? start) || (r_end t >? end_) then Ok false
      else all_within st rest start end_
  end.

(** The tests against parent and neighbours; a resource that is not among its
    parent's children makes the search for its predecessor run off the list. *)
Definition neighbours_ok (st : res_store) (res parent : res_ref) (start end_ : Z)
    : outcome bool :=
  let! p := deref st parent in
  if (start <? r_start p) || (end_ >? r_end p) then Ok false
  else
    match position res (r_children p) with
    | None => Bug
    | Some i =>
        let! free_after :=
          match r_children p !! S i with
          | None => Ok true
          | Some sibling => let! s := deref st sibling in Ok (negb (r_start s <=? end_))
          end in
        if negb free_after then Ok false
        else
          match i with
          | O => Ok true
          | S j =>
              match r_children p !! j with
              | None => Bug
              | Some tmp => let! t := deref st tmp in Ok (negb (start <=? r_end t))
              end
          end
    end.

Definition __adjust_resource (st : res_store) (res : res_ref) (start size : Z)
    : outcome (Z * res_store) :=
  let! r := deref st res in
  let end_ := u64 (start + size - 1) in
  let! ok :=
    match r_parent r with
    | None => Ok true
    | Some parent => neighbours_ok st res parent start end_
    end in
  if negb ok then Ok (- EBUSY, st)
  else
    let! ok := all_within st (r_children r) start end_ in
    if negb ok then Ok (- EBUSY, st)
    else Ok (0, upd st res (fun r => set_range r start end_)).

Definition adjust_resource := __adjust_resource.

(** ** Finding room *)

Record resource_constraint := Constraint {
  c_min : Z; c_max : Z; c_align : Z;
  c_alignf : resource -> Z -> Z -> Z
}.

Definition simple_align_resource (avail : resource) (size align : Z) : Z := r_start avail.

(** [ALIGN] at [resource_size_t]. *)
Definition align_up (x a : Z) : Z := Z.land (u64 (x + (a - 1))) (Z.lnot (u64 (a - 1))).

Section Find.
Context (root : resource) (old : option res_ref) (new_flags size : Z)
  (constraint : resource_constraint).

(** One pass of the loop between the clipping and the label [next]: the range
    found in the clipped hole, if any. *)
Definition try_hole (tmp_start tmp_end : Z) : option (Z * Z) :=
  let flags := Z.land new_flags (Z.lnot IORESOURCE_UNSET) in
  let avail := Res (align_up tmp_start (c_align constraint)) tmp_end [] flags None [] in
  if r_start avail >=? tmp_start then
    let start := c_alignf constraint avail size (c_align constraint) in
    let alloc := Res start (u64 (start + size - 1)) [] flags None [] in
    if resource_contains avail alloc then Some (r_start alloc, r_end alloc) else None
  else None.

Definition is_old (this : res_ref) : bool := bool_decide (old = Some this).

(** [this] is the head of the list. *)
Fixpoint find_loop (st : res_store) (this : list res_ref) (tmp_start : Z)
    : outcome (option (Z * Z)) :=
  match this with
  | [] =>
      let tmp_end := r_end root in
      if tmp_end <? tmp_start then Ok None
      else Ok (try_hole (Z.max tmp_start (c_min constraint)) (Z.min tmp_end (c_max constraint)))
  | this :: rest =>
      let! t := deref st this in
      let tmp_end := if is_old this then r_end t else u64 (r_start t - 1) in
      let next tmp_start :=
        if r_end t =? r_end root then Ok None
        else find_loop st rest (if is_old this then tmp_start else u64 (r_end t + 1)) in
      if tmp_end <? tmp_start then next tmp_start
      else
        let tmp_start := Z.max tmp_start (c_min constraint) in
        match try_hole tmp_start (Z.min tmp_end (c_max constraint)) with
        | Some range => Ok (Some range)
        | None => next tmp_start
        end
  end.

Definition __find_resource (st : res_store) : outcome (option (Z * Z)) :=
  match r_children root with
  | [] => find_loop st [] (r_start root)
  | this :: rest =>
      let! t := deref st this in
      if r_start t =? r_start root then
        find_loop st rest (if is_old this then r_start t else u64 (r_end t + 1))
      else find_loop st (this :: rest) (r_start root)
  end.

End Find.

(** The return value and [*new]'s range is set on success. *)
Definition find_resource (st : res_store) (root new : res_ref) (size : Z)
    (constraint : resource_constraint) : outcome (Z * res_store) :=
  let! r := deref st root in
  let! n := deref st new in
  let! found := __find_resource r None (r_flags n) size constraint st in
  match found with
  | None => Ok (- EBUSY, st)
  | Some (start, end_) => Ok (0, upd st new (fun n => set_range n start end_))
  end.

Definition reallocate_resource (st : res_store) (root old : res_ref) (newsize : Z)
    (constraint : resource_constraint) : outcome (Z * res_store) :=
  let! r := deref st root in
  let! o := deref st old in
  let! found := __find_resource r (Some old) (r_flags o) newsize constraint st in
  match found with
  | None => Ok (- EBUSY, st)
  | Some (start, end_) =>
      let new := set_range o start end_ in
      if resource_contains new o then Ok (0, upd st old (fun o => set_range o start end_))
      else
        match r_children o with
        | _ :: _ => Ok (- EBUSY, st)
        | [] =>
            if resource_contains o new then Ok (0, upd st old (fun o => set_range o start end_))
            else
              let! (_, st) := __release_resource st old in
              (* *old = new: the parent too is copied back *)
              let st := upd st old (fun _ => new) in
              let! (conflict, st) := __request_resource st root old in
              match conflict with Some _ => Bug | None => Ok (0, st) end
        end
  end.

(** [alignf] is None for NULL. *)
Definition allocate_resource (st : res_store) (root new : res_ref) (size min max align : Z)
    (alignf : option (resource -> Z -> Z -> Z)) : outcome (Z * res_store) :=
  let constraint := Constraint min max align (default simple_align_resource alignf) in
  let! n := deref st new in
  match r_parent n with
  | Some _ => reallocate_resource st root new size constraint
  | None =>
      let! (err, st) := find_resource st root new size constraint in
      if negb (err >=? 0) then Ok (err, st)
      else
        let! (conflict, st) := __request_resource st root new in
        Ok (match conflict with Some _ => - EBUSY | None => err end, st)
  end.

Fixpoint lookup_loop (st : res_store) (children : list res_ref) (start : Z)
    : outcome (option res_ref) :=
  match children with
  | [] => Ok None
  | res :: rest =>
      let! r := deref st res in
      if r_start r =? start then Ok (Some res) else lookup_loop st rest start
  end.

Definition lookup_resource (st : res_store) (root : res_ref) (start : Z)
    : outcome (option res_ref) :=
  let! r := deref st root in lookup_loop st (r_children r) start.

(** Zero is no alignment. *)
Definition resource_alignment (r : resource) : Z :=
  let a := Z.land (r_flags r) (Z.lor IORESOURCE_SIZEALIGN IORESOURCE_STARTALIGN) in
  if a =? IORESOURCE_SIZEALIGN then resource_size r
  else if a =? IORESOURCE_STARTALIGN then r_start r
  else 0.

(** ** Regions *)

(** A new region, no region, or sleep until a muxed region is released and
    go on with the parent given. *)
Inductive region_result := Granted (res : res_ref) | Refused | Waits (parent : res_ref).

(** [free_resource]. *)
Definition free_resource (st : res_store) (res : res_ref) : res_store := delete res st.

Fixpoint request_region_loop (fuel : nat) (st : res_store) (parent res : res_ref) (flags : Z)
    : outcome (region_result * res_store) :=
  match fuel with
  | O => NoFuel
  | S fuel =>
      let! (conflict, st) := __request_resource st parent res in
      match conflict with
      | None => Ok (Granted res, st)
      | Some conflict =>
          let! c := deref st conflict in
          let busy :=
            if negb (Z.land (Z.land (r_flags c) flags) IORESOURCE_MUXED =? 0)
            then Ok (Waits conflict, st)
            else Ok (Refused, free_resource st res) in
          if negb (conflict =? parent)%positive then
            if Z.land (r_flags c) IORESOURCE_BUSY =? 0
            then request_region_loop fuel st conflict res flags
            else busy
          else busy
      end
  end.

(** [fresh] is the descriptor [alloc_resource] returns, None without memory. *)
Definition __request_region (st : res_store) (fresh : option res_ref) (parent : res_ref)
    (start n : Z) (name : list Z) (flags : Z) : outcome (region_result * res_store) :=
  match fresh with
  | None => Ok (Refused, st)
  | Some res =>
      let! p := deref st parent in
      let r := Res start (u64 (start + n - 1)) name
                 (Z.lor (resource_type p) (Z.lor IORESOURCE_BUSY flags)) None [] in
      let st := <[res := r]> st in
      request_region_loop (size st) st parent res flags
  end.

(** The [continue] after the sleep, on the store as the others left it. *)
Definition request_region_resume (st : res_store) (parent res : res_ref) (flags : Z)
    : outcome (region_result * res_store) :=
  request_region_loop (size st) st parent res flags.

Definition __check_region (st : res_store) (fresh : option res_ref) (parent : res_ref)
    (start n : Z) : outcome (Z * res_store) :=
  let! (r, st) := __request_region st fresh parent start n [] 0 in
  match r with
  | Granted res =>
      let! (_, st) := release_resource st res in
      Ok (0, free_resource st res)
  | _ => Ok (- EBUSY, st)
  end.

(** Walks the children of [parent] from [p] on; on success the region is
    unlinked and freed.  The boolean is false where the code only prints a
    warning. *)
Fixpoint release_region_loop (fuel : nat) (st : res_store) (parent : res_ref)
    (p : list res_ref) (start end_ : Z) : outcome (bool * res_store) :=
  match fuel with
  | O => NoFuel
  | S fuel =>
      match p with
      | [] => Ok (false, st)
      | res :: rest =>
          let! r := deref st res in
          if (r_start r <=? start) && (r_end r >=? end_) then
            if Z.land (r_flags r) IORESOURCE_BUSY =? 0 then
              release_region_loop fuel st res (r_children r) start end_
            else if negb (r_start r =? start) || negb (r_end r =? end_) then Ok (false, st)
            else
              match
                (let! q := deref st parent in
                 match unlink res (r_children q) with Some cs => Ok cs | None => Bug end)
              with
              | Ok children =>
                  let st := upd st parent (fun q => set_children q children) in
                  Ok (true, free_resource st res)
              | _ => Bug
              end
          else release_region_loop fuel st parent rest start end_
      end
  end.

Definition __release_region (st : res_store) (parent : res_ref) (start n : Z)
    : outcome (bool * res_store) :=
  let! p := deref st parent in
  release_region_loop (S (size st) * S (size st)) st parent (r_children p) start
    (u64 (start + n - 1)).

(** [long_bits] is the width of [unsigned long]; [flags] is an [int]. *)
Fixpoint region_is_ram_loop (long_bits : Z) (st : res_store) (p : list res_ref) (start end_ : Z)
    (name : list Z) : outcome Z :=
  match p with
  | [] => Ok (-1)
  | p :: rest =>
      let! r := deref st p in
      let flags := s32 (Z.lor IORESOURCE_MEM IORESOURCE_BUSY) in
      if end_ <? r_start r then region_is_ram_loop long_bits st rest start end_ name
      else if (r_start r <=? start) && (end_ <=? r_end r) then
        if negb (r_flags r =? flags mod 2 ^ long_bits) || negb (strcmp (r_name r) name =? 0)
        then Ok 0 else Ok 1
      else if r_end r <? start then Ok (-1)
      else region_is_ram_loop long_bits st rest start end_ name
  end.

(** "System RAM" *)
Definition system_ram : list Z := [83; 121; 115; 116; 101; 109; 32; 82; 65; 77].

Definition region_is_ram (long_bits : Z) (st : res_store) (iomem : res_ref) (start size : Z)
    : outcome Z :=
  let! r := deref st iomem in
  region_is_ram_loop long_bits st (r_children r) start (u64 (start + size - 1)) system_ram.
