(* ===== verification/ResourceFacts.v ===== *)
(** * Well-formed resource trees

    The invariant of a store, and what requesting and releasing do to it. *)

From stdpp Require Import gmap.
From Stdlib Require Import Sorting.Sorted.
From S2P Require Import Prelude Resource.

(** ** The invariant *)

(** One resource entirely below another. *)
Definition below (st : res_store) (c d : res_ref) : Prop :=
  forall rc rd, st !! c = Some rc -> st !! d = Some rd -> r_end rc < r_start rd.

Record child_ok (st : res_store) (p : res_ref) (r : resource) (c : res_ref) : Prop := {
  co_child : exists rc, st !! c = Some rc /\ r_parent rc = Some p
    /\ r_start r <= r_start rc /\ r_start rc <= r_end rc /\ r_end rc <= r_end r
}.

(** Children point back, lie in order inside their parent and do not overlap;
    whoever has a parent is among its children; there is no cycle. *)
Record wf_res (st : res_store) : Prop := {
  wr_child : forall p r, st !! p = Some r -> Forall (child_ok st p r) (r_children r);
  wr_sorted : forall p r, st !! p = Some r -> StronglySorted (below st) (r_children r);
  wr_listed : forall c rc p, st !! c = Some rc -> r_parent rc = Some p ->
    exists r, st !! p = Some r /\ c ∈ r_children r;
  wr_rank : exists rank : res_ref -> nat,
    forall c rc p, st !! c = Some rc -> r_parent rc = Some p -> (rank p < rank c)%nat
}.

(** A descriptor ready to be inserted. *)
Record detached (st : res_store) (new : res_ref) (n : resource) : Prop := {
  de_lookup : st !! new = Some n;
  de_parent : r_parent n = None;
  de_children : r_children n = []
}.

Definition overlaps (r : resource) (start end_ : Z) : Prop :=
  r_start r <= end_ /\ start <= r_end r.

Definition within (r : resource) (start end_ : Z) : Prop :=
  start <= r_start r /\ r_end r <= end_.

(** ** Lookup after an update *)

Lemma lookup_upd_eq st p f : upd st p f !! p = f <$> st !! p.
Proof. apply lookup_alter_eq. Qed.

Lemma lookup_upd_ne st p q f : p <> q -> upd st p f !! q = st !! q.
Proof. apply lookup_alter_ne. Qed.

Lemma deref_ok st p r : st !! p = Some r -> deref st p = Ok r.
Proof. intros E. unfold deref. by rewrite E. Qed.

Lemma upd_id st p r f : st !! p = Some r -> f r = r -> upd st p f = st.
Proof.
  intros E Hf. apply map_eq. intros q. destruct (decide (p = q)) as [<-|Hne].
  - by rewrite lookup_upd_eq, E; cbn; rewrite Hf.
  - by rewrite lookup_upd_ne.
Qed.

Lemma upd_upd st p f g : upd (upd st p f) p g = upd st p (fun r => g (f r)).
Proof.
  apply map_eq. intros q. destruct (decide (p = q)) as [<-|Hne].
  - rewrite !lookup_upd_eq. by destruct (st !! p).
  - by rewrite !lookup_upd_ne.
Qed.

(** ** Consequences of the invariant *)

Section Wf.
Context (st : res_store) (Hwf : wf_res st).

Lemma wf_child p r c : st !! p = Some r -> c ∈ r_children r ->
  exists rc, st !! c = Some rc /\ r_parent rc = Some p
    /\ r_start r <= r_start rc /\ r_start rc <= r_end rc /\ r_end rc <= r_end r.
Proof.
  intros Hp Hc. pose proof (wr_child st Hwf p r Hp) as Hf. rewrite Forall_forall in Hf.
  by destruct (Hf c Hc).
Qed.

Lemma parent_ne c rc p : st !! c = Some rc -> r_parent rc = Some p -> p <> c.
Proof.
  intros Hc Hp ->. destruct (wr_rank st Hwf) as [rank Hr]. specialize (Hr c rc c Hc Hp). lia.
Qed.

Lemma child_ne p r c : st !! p = Some r -> c ∈ r_children r -> c <> p.
Proof.
  intros Hp Hc ->. destruct (wf_child p r p Hp Hc) as (rc & Ec & Hpar & _).
  by apply (parent_ne p rc p Ec Hpar).
Qed.

Lemma detached_not_child new n p r : detached st new n -> st !! p = Some r -> new ∉ r_children r.
Proof.
  intros [En Hn _] Hp Hc. destruct (wf_child p r new Hp Hc) as (rc & Ec & Hpar & _). congruence.
Qed.

Lemma children_NoDup p r : st !! p = Some r -> NoDup (r_children r).
Proof.
  intros Hp. pose proof (wr_sorted st Hwf p r Hp) as Hs.
  assert (Hc : forall c, c ∈ r_children r -> exists rc, st !! c = Some rc /\ r_start rc <= r_end rc).
  { intros c Hin. destruct (wf_child p r c Hp Hin) as (rc & ? & ? & ? & ? & ?). eauto. }
  induction Hs as [|c l Hs IH Hb]; constructor.
  - intros Hin. rewrite Forall_forall in Hb. specialize (Hb c Hin).
    destruct (Hc c) as (rc & Ec & Hle); [set_solver|]. specialize (Hb rc rc Ec Ec). lia.
  - apply IH. set_solver.
Qed.

(** ** The scan for a place *)

Lemma request_scan_spec p r start end_ cs : st !! p = Some r -> start <= end_ ->
  (forall c, c ∈ cs -> c ∈ r_children r) -> StronglySorted (below st) cs ->
  (exists c rc, request_scan st cs start end_ = Ok (inl c) /\ c ∈ cs /\ st !! c = Some rc
     /\ overlaps rc start end_
     /\ exists pre post, cs = pre ++ c :: post
        /\ forall d rd, d ∈ pre -> st !! d = Some rd -> r_end rd < start)
  \/ (exists i, request_scan st cs start end_ = Ok (inr i)
     /\ (forall c rc, c ∈ take i cs -> st !! c = Some rc -> r_end rc < start)
     /\ (forall c rc, c ∈ drop i cs -> st !! c = Some rc -> end_ < r_start rc)).
Proof.
  intros Hp Hse. induction cs as [|c cs IH]; intros Hin Hs.
  { right. exists 0%nat. split; [done|]. split; intros ? ? Hc; by apply elem_of_nil in Hc. }
  apply StronglySorted_inv in Hs as [Hs Hb]. rewrite Forall_forall in Hb.
  destruct (wf_child p r c Hp) as (rc & Ec & _ & _ & Hle & _); [set_solver|].
  cbn [request_scan]. rewrite (deref_ok _ _ _ Ec). cbn [obind].
  case_if; [|case_if].
  - right. exists 0%nat. split; [done|]. split; [intros ? ? Hc; by apply elem_of_nil in Hc|].
    intros d rd [->|Hd]%elem_of_cons Ed; [simplify_eq; lia|].
    specialize (Hb d Hd rc rd Ec Ed). lia.
  - destruct IH as [(d & rd & E1 & Hd & Ed & Ho & pre & post & -> & Hpre)|(i & E1 & Hl & Hg)];
      [set_solver|done| |]; rewrite E1; cbn [obind].
    + left. exists d, rd. split; [done|]. split; [set_solver|]. split_and!; try done; try apply Ho.
      exists (c :: pre), post. split; [done|]. intros e re [->|He]%elem_of_cons Ee; [|eauto].
      simplify_eq. lia.
    + right. exists (S i). split; [done|]. cbn. split; [|done].
      intros e re [->|He]%elem_of_cons Ee; [simplify_eq; lia|eauto].
  - left. exists c, rc. split; [done|]. split; [set_solver|]. split; [done|]. split; [split; lia|].
    exists [], cs. split; [done|]. intros ? ? Hd. by apply elem_of_nil in Hd.
Qed.

End Wf.

(** ** Ranges, and stores that agree on them *)

Definition rng (st : res_store) (x : res_ref) : option (Z * Z) :=
  (fun r => (r_start r, r_end r)) <$> st !! x.

Lemma rng_Some st x r : st !! x = Some r -> rng st x = Some (r_start r, r_end r).
Proof. intros E. unfold rng. by rewrite E. Qed.

Lemma rng_inv st st' x r : rng st' x = rng st x -> st' !! x = Some r ->
  exists r0, st !! x = Some r0 /\ r_start r0 = r_start r /\ r_end r0 = r_end r.
Proof.
  intros E Ex. rewrite (rng_Some _ _ _ Ex) in E. symmetry in E.
  unfold rng in E. apply fmap_Some in E as (r0 & E0 & [=]). eauto.
Qed.

Lemma below_ext st st' c d :
  rng st' c = rng st c -> rng st' d = rng st d -> below st c d -> below st' c d.
Proof.
  intros Ec Ed Hb rc rd Hc Hd.
  destruct (rng_inv _ _ _ _ Ec Hc) as (rc0 & Ec0 & ? & <-).
  destruct (rng_inv _ _ _ _ Ed Hd) as (rd0 & Ed0 & <- & ?). by apply Hb.
Qed.

Lemma sorted_ext st st' l : (forall x, x ∈ l -> rng st' x = rng st x) ->
  StronglySorted (below st) l -> StronglySorted (below st') l.
Proof.
  intros He Hs. induction Hs as [|x l Hs IH Hb]; constructor.
  - apply IH. set_solver.
  - rewrite Forall_forall in Hb |- *. intros y Hy. apply (below_ext st); [..|by apply Hb];
      apply He; set_solver.
Qed.

Lemma child_ok_intro (st : res_store) p r c rc : st !! c = Some rc -> r_parent rc = Some p ->
  r_start r <= r_start rc -> r_start rc <= r_end rc -> r_end rc <= r_end r -> child_ok st p r c.
Proof. intros. split. eauto 10. Qed.

Lemma elem_of_split {A} i (l : list A) x : x ∈ l <-> x ∈ take i l \/ x ∈ drop i l.
Proof. rewrite <- elem_of_app. by rewrite take_drop. Qed.

(** ** Linking a child *)

Definition link (st : res_store) (root new : res_ref) (i : nat) : res_store :=
  upd (upd st root (fun r =>
    set_children r (take i (r_children r) ++ new :: drop i (r_children r))))
    new (fun n => set_parent n (Some root)).

Record room (st : res_store) (root : res_ref) (r n : resource) (i : nat) : Prop := {
  ro_order : r_start n <= r_end n;
  ro_start : r_start r <= r_start n;
  ro_end : r_end n <= r_end r;
  ro_left : forall c rc, c ∈ take i (r_children r) -> st !! c = Some rc -> r_end rc < r_start n;
  ro_right : forall c rc, c ∈ drop i (r_children r) -> st !! c = Some rc -> r_end n < r_start rc
}.

Section Link.
Context (st : res_store) (root new : res_ref) (r n : resource) (i : nat).
Context (Hr : st !! root = Some r) (Hd : detached st new n) (Hne : new <> root).

Lemma link_new : link st root new i !! new = Some (set_parent n (Some root)).
Proof.
  unfold link. rewrite lookup_upd_eq, lookup_upd_ne by done. by rewrite (de_lookup _ _ _ Hd).
Qed.

Lemma link_root : link st root new i !! root
  = Some (set_children r (take i (r_children r) ++ new :: drop i (r_children r))).
Proof. unfold link. by rewrite lookup_upd_ne, lookup_upd_eq, Hr by done. Qed.

Lemma link_other x : x <> new -> x <> root -> link st root new i !! x = st !! x.
Proof. intros. unfold link. by rewrite !lookup_upd_ne by done. Qed.

Lemma link_rng x : rng (link st root new i) x = rng st x.
Proof.
  unfold rng. destruct (decide (x = new)) as [->|Hx].
  { rewrite link_new, (de_lookup _ _ _ Hd). done. }
  destruct (decide (x = root)) as [->|Hx']; [|by rewrite link_other].
  by rewrite link_root, Hr.
Qed.

(** Everything but the new resource keeps its parent. *)
Lemma link_parent x rx : x <> new -> link st root new i !! x = Some rx ->
  exists rx0, st !! x = Some rx0 /\ r_parent rx0 = r_parent rx
    /\ r_start rx0 = r_start rx /\ r_end rx0 = r_end rx
    /\ (x <> root -> rx0 = rx).
Proof.
  intros Hx. destruct (decide (x = root)) as [->|Hx'].
  - rewrite link_root. intros [= <-]. exists r. done.
  - rewrite link_other by done. intros Ex. by exists rx.
Qed.

Lemma link_up x rx : x <> new -> st !! x = Some rx ->
  exists rx', link st root new i !! x = Some rx' /\ r_parent rx' = r_parent rx
    /\ r_start rx' = r_start rx /\ r_end rx' = r_end rx.
Proof.
  intros Hx Ex. destruct (decide (x = root)) as [->|Hx'].
  - rewrite link_root. eexists. split; [done|]. by simplify_eq.
  - rewrite link_other by done. by exists rx.
Qed.

Context (Hwf : wf_res st) (Hroom : room st root r n i).

Lemma link_child_ok p rp c : st !! p = Some rp -> c ∈ r_children rp ->
  forall rp', r_start rp' = r_start rp -> r_end rp' = r_end rp ->
  child_ok (link st root new i) p rp' c.
Proof.
  intros Hp Hc rp' Es Ee. destruct (wf_child st Hwf p rp c Hp Hc) as (rc & Ec & Epar & ? & ? & ?).
  destruct (link_up c rc) as (rc' & Ec' & Ep' & Es' & Ee'); [|done|].
  { intros ->. by apply (detached_not_child st Hwf new n p rp). }
  apply (child_ok_intro _ _ _ _ rc'); [done|congruence|lia|lia|lia].
Qed.

Lemma link_sorted : StronglySorted (below (link st root new i))
  (take i (r_children r) ++ new :: drop i (r_children r)).
Proof.
  destruct Hroom as [Ho _ _ Hl Hg]. pose proof (wr_sorted st Hwf root r Hr) as Hs.
  rewrite <- (take_drop i (r_children r)) in Hs.
  pose proof (sorted_ext st (link st root new i) _ (fun x _ => link_rng x) Hs) as Hs'.
  apply StronglySorted_app_2; [intros x y Hx Hy| |constructor].
  - apply elem_of_cons in Hy as [->|Hy].
    + apply (below_ext st); [apply link_rng..|]. intros rc rd Ec Ed.
      rewrite (de_lookup _ _ _ Hd) in Ed. injection Ed as <-. by apply (Hl x).
    + by apply (StronglySorted_app_1_elem_of _ _ _ _ _ Hs').
  - by apply StronglySorted_app_1_l in Hs'.
  - by apply StronglySorted_app_1_r in Hs'.
  - apply Forall_forall. intros y Hy. apply (below_ext st); [apply link_rng..|].
    intros rc rd Ec Ed. rewrite (de_lookup _ _ _ Hd) in Ec. injection Ec as <-. by apply (Hg y).
Qed.

Lemma link_wf : wf_res (link st root new i).
Proof.
  pose proof (de_parent _ _ _ Hd) as Hnp. pose proof (de_children _ _ _ Hd) as Hnc. split.
  - intros p rp Ep. destruct (decide (p = new)) as [->|Hp].
    { rewrite link_new in Ep. injection Ep as <-. cbn. rewrite Hnc. constructor. }
    destruct (decide (p = root)) as [->|Hp'].
    + rewrite link_root in Ep. injection Ep as <-. apply Forall_forall. cbn [set_children r_children].
      intros c [Hc|[->|Hc]%elem_of_cons]%elem_of_app.
      * apply (link_child_ok root r); try done. by apply (elem_of_split i); left.
      * destruct Hroom. apply (child_ok_intro _ _ _ _ (set_parent n (Some root))); try done.
        apply link_new.
      * apply (link_child_ok root r); try done. by apply (elem_of_split i); right.
    + rewrite link_other in Ep by done. apply Forall_forall. intros c Hc. by apply (link_child_ok p rp).
  - intros p rp Ep. destruct (decide (p = new)) as [->|Hp].
    { rewrite link_new in Ep. injection Ep as <-. cbn. rewrite Hnc. constructor. }
    destruct (decide (p = root)) as [->|Hp'].
    + rewrite link_root in Ep. injection Ep as <-. apply link_sorted.
    + rewrite link_other in Ep by done. apply (sorted_ext st); [intros; apply link_rng|].
      by apply (wr_sorted st Hwf p).
  - intros c rc p Ec Epar. destruct (decide (c = new)) as [->|Hc].
    { rewrite link_new in Ec. injection Ec as <-. injection Epar as <-. rewrite link_root.
      eexists. split; [done|]. cbn. set_solver. }
    destruct (link_parent c rc Hc Ec) as (rc0 & Ec0 & Epar0 & _).
    destruct (wr_listed st Hwf c rc0 p Ec0) as (rp & Ep & Hin); [congruence|].
    destruct (decide (p = new)) as [->|Hp].
    { rewrite (de_lookup _ _ _ Hd) in Ep. injection Ep as <-. rewrite Hnc in Hin. by apply elem_of_nil in Hin. }
    destruct (decide (p = root)) as [->|Hp']; [|rewrite link_other by done; eauto].
    rewrite link_root. eexists. split; [done|]. cbn. simplify_eq.
    rewrite <- (take_drop i (r_children r)) in Hin. set_solver.
  - destruct (wr_rank st Hwf) as [rank Hrank].
    exists (fun x => if decide (x = new) then S (rank root) else rank x).
    intros c rc p Ec Epar. destruct (decide (c = new)) as [->|Hc].
    { rewrite link_new in Ec. injection Ec as <-. injection Epar as <-.
      rewrite decide_False by done. lia. }
    destruct (link_parent c rc Hc Ec) as (rc0 & Ec0 & Epar0 & _). rewrite <- Epar0 in Epar.
    rewrite decide_False; [by apply (Hrank c rc0)|]. intros ->.
    destruct (wr_listed st Hwf c rc0 new Ec0 Epar) as (rp & Ep & Hin).
    rewrite (de_lookup _ _ _ Hd) in Ep. injection Ep as <-. rewrite Hnc in Hin. by apply elem_of_nil in Hin.
Qed.

End Link.

(** ** Requesting *)

Definition fits (r n : resource) : Prop :=
  r_start n <= r_end n /\ r_start r <= r_start n /\ r_end n <= r_end r.

(** What a request can come to. *)
Inductive request_outcome (st : res_store) (root new : res_ref) (r n : resource)
    : option res_ref -> res_store -> Prop :=
| ro_linked i : room st root r n i -> request_outcome st root new r n None (link st root new i)
| ro_outside : ~ fits r n -> request_outcome st root new r n (Some root) st
| ro_conflict c rc pre post :
    fits r n -> r_children r = pre ++ c :: post -> st !! c = Some rc ->
    overlaps rc (r_start n) (r_end n) ->
    (forall d rd, d ∈ pre -> st !! d = Some rd -> r_end rd < r_start n) ->
    request_outcome st root new r n (Some c) st.

Lemma request_spec st root new r n :
  wf_res st -> st !! root = Some r -> st !! new = Some n ->
  exists conflict st', __request_resource st root new = Ok (conflict, st')
    /\ request_outcome st root new r n conflict st'.
Proof.
  intros Hwf Hr Hn. unfold __request_resource.
  rewrite (deref_ok _ _ _ Hn), (deref_ok _ _ _ Hr). cbn [obind].
  repeat case_if; try (eexists _, _; split; [done|]; apply ro_outside; unfold fits; lia).
  destruct (request_scan_spec st Hwf root r (r_start n) (r_end n) (r_children r))
    as [(c & rc & -> & _ & Ec & Ho & pre & post & Es & Hpre)|(i & -> & Hl & Hg)];
    [done|lia|done|by apply (wr_sorted st Hwf root)| |]; cbn [obind].
  - eexists _, _. split; [done|]. apply (ro_conflict _ _ _ _ _ c rc pre post); done.
  - eexists _, _. split; [done|]. apply ro_linked. split; [lia..|done|done].
Qed.

(** ** Releasing *)

Lemma unlink_app pre old post : old ∉ pre -> unlink old (pre ++ old :: post) = Some (pre ++ post).
Proof.
  intros Hn. induction pre as [|x pre IH]; cbn [unlink app].
  - by rewrite Pos.eqb_refl.
  - rewrite (proj2 (Pos.eqb_neq x old)) by set_solver. rewrite IH by set_solver. done.
Qed.

Definition cut (st : res_store) (p old : res_ref) (children : list res_ref) : res_store :=
  upd (upd st p (fun r => set_children r children)) old (fun o => set_parent o None).

Lemma release_spec st old o p r pre post :
  st !! old = Some o -> r_parent o = Some p -> st !! p = Some r ->
  r_children r = pre ++ old :: post -> old ∉ pre ->
  release_resource st old = Ok (0, cut st p old (pre ++ post)).
Proof.
  intros Ho Hp Hr Hc Hn. unfold release_resource, __release_resource.
  rewrite (deref_ok _ _ _ Ho). cbn [obind]. rewrite Hp, (deref_ok _ _ _ Hr). cbn [obind].
  by rewrite Hc, unlink_app.
Qed.

(** Cutting what was linked restores the store. *)
Lemma cut_link st root new r n i :
  st !! root = Some r -> detached st new n -> new <> root ->
  cut (link st root new i) root new (take i (r_children r) ++ drop i (r_children r)) = st.
Proof.
  intros Hr Hd Hne. apply map_eq. intros x. unfold cut.
  destruct (decide (x = new)) as [->|Hx].
  - rewrite lookup_upd_eq, lookup_upd_ne, (link_new st root new n) by done.
    rewrite (de_lookup _ _ _ Hd). cbn. f_equal. destruct n. pose proof (de_parent _ _ _ Hd) as E.
    cbn in *. by subst.
  - rewrite lookup_upd_ne by done. destruct (decide (x = root)) as [->|Hx'].
    + rewrite lookup_upd_eq, (link_root st root new r), Hr by done. cbn. f_equal.
      rewrite take_drop. by destruct r.
    + by rewrite lookup_upd_ne, link_other.
Qed.

Section Cut.
Context (st : res_store) (Hwf : wf_res st) (old p : res_ref) (o r : resource)
  (pre post : list res_ref).
Context (Ho : st !! old = Some o) (Hp : r_parent o = Some p) (Hr : st !! p = Some r)
  (Hc : r_children r = pre ++ old :: post).

Lemma cut_ne : p <> old.
Proof. by apply (parent_ne st Hwf old o). Qed.

Lemma cut_NoDup : (old ∉ pre) /\ (old ∉ post).
Proof.
  pose proof (children_NoDup st Hwf p r Hr) as Hn. rewrite Hc in Hn.
  apply NoDup_app in Hn as (_ & Hx & Hn%NoDup_cons). split; [|tauto].
  intros Hin. apply (Hx old Hin). set_solver.
Qed.

Lemma cut_old : cut st p old (pre ++ post) !! old = Some (set_parent o None).
Proof. unfold cut. rewrite lookup_upd_eq, lookup_upd_ne by apply cut_ne. by rewrite Ho. Qed.

Lemma cut_parent : cut st p old (pre ++ post) !! p = Some (set_children r (pre ++ post)).
Proof.
  unfold cut. rewrite lookup_upd_ne by (pose proof cut_ne; congruence).
  by rewrite lookup_upd_eq, Hr.
Qed.

Lemma cut_other x : x <> old -> x <> p -> cut st p old (pre ++ post) !! x = st !! x.
Proof. intros. unfold cut. by rewrite !lookup_upd_ne. Qed.

Lemma cut_back x rx : cut st p old (pre ++ post) !! x = Some rx ->
  exists rx0, st !! x = Some rx0 /\ r_start rx0 = r_start rx /\ r_end rx0 = r_end rx
    /\ (x <> old -> r_parent rx = r_parent rx0)
    /\ (x = old -> r_parent rx = None)
    /\ (forall c, c ∈ r_children rx <-> c ∈ r_children rx0 /\ (x = p -> c <> old)).
Proof.
  destruct cut_NoDup as [Hpre Hpost].
  destruct (decide (x = old)) as [->|Hx]; [|destruct (decide (x = p)) as [->|Hx']].
  - rewrite cut_old. intros [= <-]. exists o. split_and!; try done.
    intros c. split; [|by intros []]. intros Hin. split; [done|]. intros E. by destruct cut_ne.
  - rewrite cut_parent. intros [= <-]. exists r. split_and!; try done. intros c. cbn.
    rewrite Hc. set_solver.
  - rewrite cut_other by done. intros Ex. exists rx. split_and!; try done. intros c. naive_solver.
Qed.

Lemma cut_up x rx : st !! x = Some rx -> exists rx', cut st p old (pre ++ post) !! x = Some rx'.
Proof.
  intros Ex. destruct (decide (x = old)) as [->|Hx]; [rewrite cut_old; eauto|].
  destruct (decide (x = p)) as [->|Hx']; [rewrite cut_parent; eauto|]. rewrite cut_other; eauto.
Qed.

Lemma cut_rng x : rng (cut st p old (pre ++ post)) x = rng st x.
Proof.
  unfold rng. destruct (decide (x = old)) as [->|Hx]; [by rewrite cut_old, Ho|].
  destruct (decide (x = p)) as [->|Hx']; [by rewrite cut_parent, Hr|]. by rewrite cut_other.
Qed.

Lemma cut_wf : wf_res (cut st p old (pre ++ post)).
Proof.
  split.
  - intros q rq Eq. apply Forall_forall. intros c Hcq.
    destruct (cut_back q rq Eq) as (rq0 & Eq0 & Es & Ee & _ & _ & Hch).
    destruct (proj1 (Hch c) Hcq) as [Hcq0 Hno]. destruct (wf_child st Hwf q rq0 c Eq0 Hcq0) as (rc & Ec & Ep & ? & ? & ?).
    destruct (cut_up c rc Ec) as (rc' & Ec'). destruct (cut_back c rc' Ec') as (rc0 & ? & ? & ? & Hpar & _).
    simplify_eq. apply (child_ok_intro _ _ _ _ rc'); [done| |lia..].
    rewrite Hpar; [done|]. intros ->. apply Hno; [|done]. congruence.
  - intros q rq Eq. apply (sorted_ext st); [intros; apply cut_rng|].
    destruct (decide (q = p)) as [->|Hq].
    + rewrite cut_parent in Eq. injection Eq as <-. cbn. pose proof (wr_sorted st Hwf p r Hr) as Hs.
      rewrite Hc in Hs. apply StronglySorted_app_2.
      * intros x y Hx Hy. apply (StronglySorted_app_1_elem_of _ _ _ _ _ Hs); set_solver.
      * by apply StronglySorted_app_1_l in Hs.
      * apply StronglySorted_app_1_r in Hs. by apply StronglySorted_inv in Hs as [? _].
    + destruct (decide (q = old)) as [->|Hq'].
      * rewrite cut_old in Eq. injection Eq as <-. exact (wr_sorted st Hwf old o Ho).
      * rewrite cut_other in Eq by done. by apply (wr_sorted st Hwf q).
  - intros c rc q Ec Epar. destruct (cut_back c rc Ec) as (rc0 & Ec0 & _ & _ & Hpar & Hnone & _).
    assert (Hco : c <> old) by (intros ->; rewrite Hnone in Epar; done).
    rewrite Hpar in Epar by done. destruct (wr_listed st Hwf c rc0 q Ec0 Epar) as (rq & Eq & Hin).
    destruct (cut_up q rq Eq) as (rq' & Eq'). exists rq'. split; [done|].
    destruct (cut_back q rq' Eq') as (rq0 & ? & _ & _ & _ & _ & Hch). simplify_eq.
    by apply Hch.
  - destruct (wr_rank st Hwf) as [rank Hrank]. exists rank. intros c rc q Ec Epar.
    destruct (cut_back c rc Ec) as (rc0 & Ec0 & _ & _ & Hpar & Hnone & _).
    assert (Hco : c <> old) by (intros ->; rewrite Hnone in Epar; done).
    rewrite Hpar in Epar by done. by apply (Hrank c rc0).
Qed.

End Cut.
