(* ===== verification/ResourceInsert.v ===== *)
(** * Insertion into resource trees

    [__insert_resource] descends to the smallest resource around the new one
    and puts it there, above the resources it covers. *)

From stdpp Require Import gmap.
From Stdlib Require Import Sorting.Sorted.
From S2P Require Import Prelude Resource ResourceFacts.

(** ** Adoption *)

Lemma foldl_upd_lookup (f : resource -> resource) l (st : res_store) x :
  (forall r, f (f r) = f r) ->
  foldl (fun st y => upd st y f) st l !! x = if decide (x ∈ l) then f <$> st !! x else st !! x.
Proof.
  intros Hf. revert st. induction l as [|y l IH]; intros st.
  { by rewrite decide_False by apply not_elem_of_nil. }
  cbn [foldl]. rewrite IH. destruct (decide (y = x)) as [->|Hne].
  - rewrite lookup_upd_eq. rewrite (decide_True (P := x ∈ x :: l)) by set_solver.
    case_decide; [|done]. destruct (st !! x); cbn; by rewrite ?Hf.
  - rewrite lookup_upd_ne by done. repeat case_decide; set_solver.
Qed.

(** The new resource [n] covers the children [A] of [p] and lies between the
    others. *)
Record covers (st : res_store) (p : res_ref) (rp n : resource) (L A R : list res_ref) : Prop := {
  cv_split : r_children rp = L ++ A ++ R;
  cv_fits : fits rp n;
  cv_some : A <> [];
  cv_left : forall c rc, c ∈ L -> st !! c = Some rc -> r_end rc < r_start n;
  cv_in : forall c rc, c ∈ A -> st !! c = Some rc -> within rc (r_start n) (r_end n);
  cv_right : forall c rc, c ∈ R -> st !! c = Some rc -> r_end n < r_start rc
}.

Section Adopt.
Context (st : res_store) (Hwf : wf_res st) (p new : res_ref) (rp n : resource)
  (L A R : list res_ref).
Context (Hp : st !! p = Some rp) (Hd : detached st new n) (Hne : new <> p)
  (Hcv : covers st p rp n L A R).

Definition adopted : res_store := adopt st p new (length L) (length A) (r_children rp).

Lemma taken : take (length A) (drop (length L) (r_children rp)) = A.
Proof. rewrite (cv_split _ _ _ _ _ _ _ Hcv), drop_app_length. apply take_app_length. Qed.

Lemma kept : take (length L) (r_children rp) ++ new :: drop (length L + length A) (r_children rp)
  = L ++ new :: R.
Proof.
  rewrite (cv_split _ _ _ _ _ _ _ Hcv). rewrite take_app_length, <- drop_drop.
  by rewrite drop_app_length, drop_app_length.
Qed.

Lemma A_child c : c ∈ A -> c ∈ r_children rp.
Proof. intros Hc. rewrite (cv_split _ _ _ _ _ _ _ Hcv). set_solver. Qed.

Lemma A_ne c : c ∈ A -> c <> new /\ c <> p.
Proof.
  intros Hc%A_child. split.
  - intros ->. by apply (detached_not_child st Hwf new n p rp).
  - by apply (child_ne st Hwf p rp).
Qed.

Lemma adopted_new : adopted !! new = Some (set_children (set_parent n (Some p)) A).
Proof.
  unfold adopted, adopt. rewrite taken, lookup_upd_ne by congruence.
  rewrite foldl_upd_lookup by done. rewrite decide_False by (intros Hc; by destruct (A_ne new Hc)).
  by rewrite !lookup_upd_eq, (de_lookup _ _ _ Hd).
Qed.

Lemma adopted_p : adopted !! p = Some (set_children rp (L ++ new :: R)).
Proof.
  unfold adopted, adopt. rewrite taken, lookup_upd_eq, foldl_upd_lookup by done.
  rewrite decide_False by (intros Hc; by destruct (A_ne p Hc)).
  rewrite !lookup_upd_ne, Hp by done. cbn. by rewrite kept.
Qed.

Lemma adopted_in c : c ∈ A -> adopted !! c = (fun r => set_parent r (Some new)) <$> st !! c.
Proof.
  intros Hc. destruct (A_ne c Hc) as [H1 H2]. unfold adopted, adopt. rewrite taken.
  rewrite lookup_upd_ne, foldl_upd_lookup, decide_True by done.
  by rewrite !lookup_upd_ne by congruence.
Qed.

Lemma adopted_other x : x <> new -> x <> p -> x ∉ A -> adopted !! x = st !! x.
Proof.
  intros H1 H2 H3. unfold adopted, adopt. rewrite taken.
  rewrite lookup_upd_ne, foldl_upd_lookup, decide_False by done.
  by rewrite !lookup_upd_ne by congruence.
Qed.

(** What a resource was before. *)
Lemma adopted_back x rx : adopted !! x = Some rx ->
  exists rx0, st !! x = Some rx0 /\ r_start rx0 = r_start rx /\ r_end rx0 = r_end rx
    /\ (x <> new -> x <> p -> r_children rx0 = r_children rx)
    /\ ((x = new /\ r_parent rx = Some p) \/ (x ∈ A /\ r_parent rx = Some new)
        \/ (x <> new /\ (x ∉ A) /\ r_parent rx = r_parent rx0)).
Proof.
  intros Ex. destruct (decide (x = new)) as [->|H1].
  { rewrite adopted_new in Ex. injection Ex as <-. exists n. split; [apply Hd|]. naive_solver. }
  destruct (decide (x ∈ A)) as [HA|HA].
  { rewrite adopted_in in Ex by done. apply fmap_Some in Ex as (rx0 & Ex & ->). exists rx0.
    split_and!; try done. right. left. done. }
  destruct (decide (x = p)) as [->|H2].
  { rewrite adopted_p in Ex. injection Ex as <-. exists rp. split_and!; try done.
    right. right. done. }
  rewrite adopted_other in Ex by done. exists rx. split_and!; try done. right. right. done.
Qed.

Lemma adopted_up x rx : st !! x = Some rx ->
  exists rx', adopted !! x = Some rx' /\ r_start rx' = r_start rx /\ r_end rx' = r_end rx.
Proof.
  intros Ex. destruct (decide (x = new)) as [->|H1].
  { rewrite adopted_new. rewrite (de_lookup _ _ _ Hd) in Ex. injection Ex as <-. by eexists. }
  destruct (decide (x ∈ A)) as [HA|HA].
  { rewrite adopted_in, Ex by done. by eexists. }
  destruct (decide (x = p)) as [->|H2].
  { rewrite adopted_p. rewrite Hp in Ex. injection Ex as <-. by eexists. }
  rewrite adopted_other by done. by exists rx.
Qed.

Lemma adopted_rng x : rng adopted x = rng st x.
Proof.
  unfold rng. destruct (st !! x) as [rx|] eqn:Ex.
  - destruct (adopted_up x rx Ex) as (rx' & -> & E1 & E2). cbn. by rewrite E1, E2.
  - destruct (adopted !! x) as [rx|] eqn:Ex'; [|done].
    destruct (adopted_back x rx Ex') as (rx0 & ? & _). congruence.
Qed.

(** A child that keeps its parent is as well placed as before. *)
Lemma adopted_child_ok q rq rq' c : st !! q = Some rq -> c ∈ r_children rq -> c ∉ A ->
  r_start rq' = r_start rq -> r_end rq' = r_end rq -> child_ok adopted q rq' c.
Proof.
  intros Eq Hc HcA Es Ee. destruct (wf_child st Hwf q rq c Eq Hc) as (rc & Ec & Epar & ? & ? & ?).
  destruct (adopted_up c rc Ec) as (rc' & Ec' & Es' & Ee').
  destruct (adopted_back c rc' Ec') as (rc0 & ? & _ & _ & _ & Hpar). simplify_eq.
  apply (child_ok_intro _ _ _ _ rc'); [done| |lia..].
  destruct Hpar as [[-> _]|[[? _]|(_ & _ & ->)]]; [|done|done].
  by destruct (detached_not_child st Hwf new n q rq Hd Eq).
Qed.

Lemma adopted_sorted_p : StronglySorted (below adopted) (L ++ new :: R).
Proof.
  pose proof (wr_sorted st Hwf p rp Hp) as Hs. destruct Hcv as [Es _ _ Hl _ Hr]. rewrite Es in Hs.
  apply (sorted_ext st); [intros; apply adopted_rng|].
  apply StronglySorted_app_2; [intros x y Hx Hy| |constructor].
  - apply elem_of_cons in Hy as [->|Hy].
    + intros rc rd Ec Ed. rewrite (de_lookup _ _ _ Hd) in Ed. injection Ed as <-. by apply (Hl x).
    + apply (StronglySorted_app_1_elem_of _ _ _ _ _ Hs); set_solver.
  - by apply StronglySorted_app_1_l in Hs.
  - apply StronglySorted_app_1_r in Hs. by apply StronglySorted_app_1_r in Hs.
  - apply Forall_forall. intros y Hy rc rd Ec Ed.
    rewrite (de_lookup _ _ _ Hd) in Ec. injection Ec as <-. by apply (Hr y).
Qed.

Lemma A_not_elsewhere q rq c : st !! q = Some rq -> c ∈ r_children rq -> c ∈ A -> q = p.
Proof.
  intros Eq Hc HA. destruct (wf_child st Hwf q rq c Eq Hc) as (rc & Ec & E1 & _).
  destruct (wf_child st Hwf p rp c Hp (A_child c HA)) as (rc' & Ec' & E2 & _). congruence.
Qed.

Lemma LR_not_A c : c ∈ L \/ c ∈ R -> c ∉ A.
Proof.
  pose proof (children_NoDup st Hwf p rp Hp) as Hn. rewrite (cv_split _ _ _ _ _ _ _ Hcv) in Hn.
  apply NoDup_app in Hn as (_ & H1 & (_ & H2 & _)%NoDup_app).
  intros [Hc|Hc] HA; [by apply (H1 c Hc); set_solver|by apply (H2 c HA)].
Qed.

Lemma adopted_children q rq : adopted !! q = Some rq -> Forall (child_ok adopted q rq) (r_children rq).
Proof.
  intros Eq. apply Forall_forall. intros c Hc. destruct (decide (q = new)) as [->|H1].
  { rewrite adopted_new in Eq. injection Eq as <-. cbn in Hc.
    destruct (wf_child st Hwf p rp c Hp (A_child c Hc)) as (rc & Ec & _ & _ & ? & _).
    destruct (cv_in _ _ _ _ _ _ _ Hcv c rc Hc Ec).
    apply (child_ok_intro _ _ _ _ (set_parent rc (Some new))); try done.
    by rewrite adopted_in, Ec. }
  destruct (decide (q = p)) as [->|H2].
  { rewrite adopted_p in Eq. injection Eq as <-. cbn [set_children r_children] in Hc.
    rewrite elem_of_app, elem_of_cons in Hc. destruct (decide (c = new)) as [->|Hcn].
    - destruct (cv_fits _ _ _ _ _ _ _ Hcv) as (? & ? & ?).
      eapply child_ok_intro; [apply adopted_new|done..].
    - apply (adopted_child_ok p rp); try done; [|apply LR_not_A; tauto].
      rewrite (cv_split _ _ _ _ _ _ _ Hcv), !elem_of_app. tauto. }
  destruct (adopted_back q rq Eq) as (rq0 & Eq0 & Es & Ee & Ech & _). specialize (Ech H1 H2).
  rewrite <- Ech in Hc. apply (adopted_child_ok q rq0); try done.
  intros HA. by apply H2, (A_not_elsewhere q rq0 c).
Qed.

Lemma adopted_sorted q rq : adopted !! q = Some rq -> StronglySorted (below adopted) (r_children rq).
Proof.
  intros Eq. destruct (decide (q = p)) as [->|H2].
  { rewrite adopted_p in Eq. injection Eq as <-. apply adopted_sorted_p. }
  apply (sorted_ext st); [intros; apply adopted_rng|]. destruct (decide (q = new)) as [->|H1].
  { rewrite adopted_new in Eq. injection Eq as <-. cbn. pose proof (wr_sorted st Hwf p rp Hp) as Hs.
    rewrite (cv_split _ _ _ _ _ _ _ Hcv) in Hs. apply StronglySorted_app_1_r in Hs.
    by apply StronglySorted_app_1_l in Hs. }
  destruct (adopted_back q rq Eq) as (rq0 & Eq0 & _ & _ & Ech & _).
  rewrite <- Ech by done. by apply (wr_sorted st Hwf q).
Qed.

Lemma adopted_listed c rc q : adopted !! c = Some rc -> r_parent rc = Some q ->
  exists rq, adopted !! q = Some rq /\ c ∈ r_children rq.
Proof.
  intros Ec Epar. destruct (adopted_back c rc Ec) as (rc0 & Ec0 & _ & _ & _ & Hpar).
  destruct Hpar as [[-> E]|[[HA E]|(H1 & HA & E)]]; rewrite E in Epar.
  - injection Epar as <-. rewrite adopted_p. eexists. split; [done|]. cbn. set_solver.
  - injection Epar as <-. rewrite adopted_new. eexists. split; [done|]. done.
  - destruct (wr_listed st Hwf c rc0 q Ec0 Epar) as (rq & Eq & Hin).
    destruct (decide (q = p)) as [->|H2].
    + rewrite adopted_p. eexists. split; [done|]. cbn [set_children r_children].
      rewrite Hp in Eq. injection Eq as <-. rewrite (cv_split _ _ _ _ _ _ _ Hcv) in Hin. set_solver.
    + destruct (adopted_up q rq Eq) as (rq' & Eq' & _). exists rq'. split; [done|].
      destruct (decide (q = new)) as [->|H3].
      { rewrite (de_lookup _ _ _ Hd) in Eq. injection Eq as <-.
        rewrite (de_children _ _ _ Hd) in Hin. by apply elem_of_nil in Hin. }
      destruct (adopted_back q rq' Eq') as (rq0 & ? & _ & _ & Ech & _). simplify_eq.
      by rewrite <- Ech.
Qed.

(** Doubling the ranks leaves room for the new resource between [p] and the
    adopted ones. *)
Lemma adopted_rank : exists rank : res_ref -> nat,
  forall c rc q, adopted !! c = Some rc -> r_parent rc = Some q -> (rank q < rank c)%nat.
Proof.
  destruct (wr_rank st Hwf) as [rank Hrank].
  exists (fun x => if decide (x = new) then S (2 * rank p) else (2 * rank x)%nat).
  intros c rc q Ec Epar. destruct (adopted_back c rc Ec) as (rc0 & Ec0 & _ & _ & _ & Hpar).
  destruct Hpar as [[-> E]|[[HA E]|(H1 & HA & E)]]; rewrite E in Epar.
  - injection Epar as <-. rewrite decide_False, decide_True by congruence. lia.
  - injection Epar as <-. destruct (A_ne c HA). rewrite decide_True, decide_False by done.
    destruct (wf_child st Hwf p rp c Hp (A_child c HA)) as (rc' & Ec' & Ep' & _).
    specialize (Hrank c rc' p Ec' Ep'). lia.
  - specialize (Hrank c rc0 q Ec0 Epar). rewrite (decide_False (P := c = new)) by done.
    rewrite decide_False; [lia|]. intros ->.
    destruct (wr_listed st Hwf c rc0 new Ec0 Epar) as (rq & Eq & Hin).
    rewrite (de_lookup _ _ _ Hd) in Eq. injection Eq as <-.
    rewrite (de_children _ _ _ Hd) in Hin. by apply elem_of_nil in Hin.
Qed.

Lemma adopted_wf : wf_res adopted.
Proof.
  split; [apply adopted_children|apply adopted_sorted|apply adopted_listed|apply adopted_rank].
Qed.

End Adopt.

(** ** The scan for a partial overlap *)

(** The range cuts through the resource: they overlap, and neither contains
    the other. *)
Definition partial (rc : resource) (start end_ : Z) : Prop :=
  overlaps rc start end_ /\ ~ within rc start end_ /\ ~ (r_start rc <= start /\ end_ <= r_end rc).

Lemma insert_scan_spec st p rp n cs c0 rest :
  wf_res st -> st !! p = Some rp -> cs = c0 :: rest ->
  (forall c, c ∈ cs -> c ∈ r_children rp) -> StronglySorted (below st) cs ->
  (forall r0, st !! c0 = Some r0 -> overlaps r0 (r_start n) (r_end n)
     /\ (r_start r0 <= r_start n /\ r_end n <= r_end r0 -> within r0 (r_start n) (r_end n))) ->
  (exists c rc, insert_scan st cs n = Ok (inl c) /\ c ∈ cs /\ st !! c = Some rc
     /\ partial rc (r_start n) (r_end n))
  \/ (exists k, insert_scan st cs n = Ok (inr k) /\ (0 < k <= length cs)%nat
     /\ (forall c rc, c ∈ take k cs -> st !! c = Some rc -> within rc (r_start n) (r_end n))
     /\ (forall c rc, c ∈ drop k cs -> st !! c = Some rc -> r_end n < r_start rc)).
Proof.
  intros Hwf Hp. revert c0 rest. induction cs as [|c cs IH]; intros c0 rest [= <- <-] Hin Hs Ho.
  apply StronglySorted_inv in Hs as [Hs Hb]. rewrite Forall_forall in Hb.
  destruct (wf_child st Hwf p rp c Hp) as (rc & Ec & _ & _ & Hle & _); [set_solver|].
  destruct (Ho rc Ec) as [Hov Hstrict]. cbn [insert_scan]. rewrite (deref_ok _ _ _ Ec). cbn [obind].
  destruct ((r_start rc <? r_start n) || (r_end rc >? r_end n)) eqn:E; zbool.
  { left. exists c, rc. split; [done|]. split; [set_solver|]. split; [done|]. split; [done|].
    assert (~ within rc (r_start n) (r_end n)) as Hnw by (unfold within; intros [? ?]; destruct E; zbool; lia).
    split; [done|]. intros ?. by apply Hnw, Hstrict. }
  assert (Hw : within rc (r_start n) (r_end n)) by (unfold within; lia).
  assert (Hone : forall d rd, d ∈ [c] -> st !! d = Some rd -> within rd (r_start n) (r_end n)).
  { intros d rd ->%list_elem_of_singleton Ed. by simplify_eq. }
  destruct cs as [|s cs].
  { right. exists 1%nat. split; [done|]. split; [cbn; lia|]. split; [done|].
    intros d rd Hd. by apply elem_of_nil in Hd. }
  destruct (wf_child st Hwf p rp s Hp) as (rs & Es & _ & _ & Hles & _); [set_solver|].
  assert (Hcs : r_end rc < r_start rs) by (by apply (Hb s); [set_solver|..]).
  rewrite (deref_ok _ _ _ Es). cbn [obind]. case_if.
  { right. exists 1%nat. split; [done|]. split; [cbn; lia|]. split; [done|].
    change (drop 1 (c :: s :: cs)) with (s :: cs). intros d rd [->|Hd]%elem_of_cons Ed; [simplify_eq; lia|].
    apply StronglySorted_inv in Hs as [_ Hb']. rewrite Forall_forall in Hb'.
    specialize (Hb' d Hd rs rd Es Ed). lia. }
  destruct (IH s cs) as [(d & rd & -> & Hd & Ed & Hpart)|(k & -> & Hk & Hin' & Hout)];
    [done|set_solver|done|intros r0 E0; simplify_eq; unfold overlaps, within in *; lia| |].
  - left. exists d, rd. split; [done|]. split; [set_solver|]. done.
  - right. exists (S k). split; [done|]. split; [cbn in *; lia|]. split; [|done].
    cbn [take]. intros d rd [->|Hd]%elem_of_cons Ed; [by simplify_eq|by apply (Hin' d)].
Qed.

(** ** The descent *)

Definition is_child (st : res_store) (p c : res_ref) : Prop :=
  exists rp, st !! p = Some rp /\ c ∈ r_children rp.

(** What an insertion below [parent] can come to. *)
Inductive insert_outcome (st : res_store) (parent new : res_ref) (n : resource)
    : option res_ref -> res_store -> Prop :=
| io_linked p rp i :
    rtc (is_child st) parent p -> p <> new -> st !! p = Some rp -> room st p rp n i ->
    insert_outcome st parent new n None (link st p new i)
| io_adopted p rp L A R :
    rtc (is_child st) parent p -> p <> new -> st !! p = Some rp -> covers st p rp n L A R ->
    insert_outcome st parent new n None (adopted st p new rp L A)
| io_outside rp : st !! parent = Some rp -> ~ fits rp n ->
    insert_outcome st parent new n (Some parent) st
| io_partial p c rc :
    rtc (is_child st) parent p -> is_child st p c -> st !! c = Some rc ->
    partial rc (r_start n) (r_end n) ->
    insert_outcome st parent new n (Some c) st.

Lemma position_app c pre post : c ∉ pre -> position c (pre ++ c :: post) = Some (length pre).
Proof.
  intros Hn. induction pre as [|x pre IH]; cbn [position app length].
  - by rewrite Pos.eqb_refl.
  - rewrite (proj2 (Pos.eqb_neq x c)) by set_solver. rewrite IH by set_solver. done.
Qed.

(** The number of resources of higher rank bounds the depth below one. *)
Definition deeper (rank : res_ref -> nat) (st : res_store) (p : res_ref) : nat :=
  size (filter (fun xr => (rank p < rank xr.1)%nat) st).

Lemma deeper_child rank (st : res_store) p c rc :
  st !! c = Some rc -> (rank p < rank c)%nat -> (deeper rank st c < deeper rank st p)%nat.
Proof.
  intros Ec Hr. apply map_subset_size, map_subset_alt. split.
  - apply map_filter_subseteq_ext. intros x rx _. cbn. lia.
  - exists c. rewrite map_lookup_filter_None_2, map_lookup_filter_Some_2 with (x := rc);
      [done|done|done|]. right. cbn. intros ? _. lia.
Qed.

Lemma insert_outcome_below st parent c rc new n conflict st' :
  is_child st parent c -> st !! c = Some rc -> fits rc n ->
  insert_outcome st c new n conflict st' -> insert_outcome st parent new n conflict st'.
Proof.
  intros Hpc Ec Hf Ho. destruct Ho as [p rp i Hr|p rp L A R Hr|rp Ep Hn|p d rd Hr Hpd].
  - eapply io_linked; [by eapply rtc_l|done..].
  - eapply io_adopted; [by eapply rtc_l|done..].
  - simplify_eq. done.
  - by eapply io_partial; [eapply rtc_l|..].
Qed.

(** The decision after a conflict with a child that does not strictly contain
    the new resource. *)
Lemma insert_here st parent new rp n pre c rc post :
  wf_res st -> detached st new n -> st !! parent = Some rp -> parent <> new -> fits rp n ->
  r_children rp = pre ++ c :: post -> st !! c = Some rc -> overlaps rc (r_start n) (r_end n) ->
  (r_start rc <= r_start n /\ r_end n <= r_end rc -> within rc (r_start n) (r_end n)) ->
  (forall d rd, d ∈ pre -> st !! d = Some rd -> r_end rd < r_start n) ->
  exists conflict st',
    match position c (r_children rp) with
    | None => Bug
    | Some i =>
        let! found := insert_scan st (drop i (r_children rp)) n in
        match found with
        | inl next => Ok (Some next, st)
        | inr k => Ok (None, adopt st parent new i k (r_children rp))
        end
    end = Ok (conflict, st')
    /\ insert_outcome st parent new n conflict st'.
Proof.
  intros Hwf Hd Hp Hne Hf Hc Ec Ho Hstrict Hpre.
  assert (Hnd : c ∉ pre).
  { pose proof (children_NoDup st Hwf parent rp Hp) as Hn. rewrite Hc in Hn.
    apply NoDup_app in Hn as (_ & Hx & _). intros Hin. apply (Hx c Hin). set_solver. }
  pose proof (wr_sorted st Hwf parent rp Hp) as Hs. rewrite Hc in Hs.
  apply StronglySorted_app_1_r in Hs.
  assert (position c (r_children rp) = Some (length pre)) as -> by (by rewrite Hc, position_app).
  assert (drop (length pre) (r_children rp) = c :: post) as -> by (by rewrite Hc, drop_app_length).
  destruct (insert_scan_spec st parent rp n (c :: post) c post)
    as [(d & rd & -> & Hin & Ed & Hpart)|(k & -> & Hk & Hin & Hout)];
    [done|done|done|rewrite Hc; set_solver|done|by intros r0 E0; simplify_eq| |]; cbn [obind].
  - eexists _, _. split; [done|]. apply (io_partial _ _ _ _ parent d rd); [done| |done|done].
    exists rp. split; [done|]. rewrite Hc. set_solver.
  - eexists _, _. split; [done|].
    assert (Hcv : covers st parent rp n pre (take k (c :: post)) (drop k (c :: post))).
    { split; [by rewrite take_drop, Hc|done| |done|done|done].
      destruct k; [lia|done]. }
    replace k with (length (take k (c :: post))) at 1 by (rewrite length_take; cbn in *; lia).
    by eapply (io_adopted _ _ _ _ parent rp pre _ _).
Qed.

Lemma insert_loop_spec st new n rank :
  wf_res st -> detached st new n ->
  (forall c rc p, st !! c = Some rc -> r_parent rc = Some p -> (rank p < rank c)%nat) ->
  forall fuel parent rp, st !! parent = Some rp -> parent <> new ->
  (deeper rank st parent < fuel)%nat ->
  exists conflict st', insert_loop fuel st parent new = Ok (conflict, st')
    /\ insert_outcome st parent new n conflict st'.
Proof.
  intros Hwf Hd Hrank fuel. induction fuel as [|fuel IH]; intros parent rp Hp Hne Hfuel; [lia|].
  cbn [insert_loop].
  destruct (request_spec st parent new rp n Hwf Hp (de_lookup _ _ _ Hd)) as (conflict & st' & -> & Hro).
  cbn [obind]. destruct Hro as [i Hroom|Hout|c rc pre post Hf Hc Ec Ho Hpre].
  - eexists _, _. split; [done|]. by eapply io_linked.
  - rewrite Pos.eqb_refl. eexists _, _. split; [done|]. by eapply io_outside.
  - assert (Hin : c ∈ r_children rp) by (rewrite Hc; set_solver).
    assert (c <> parent) by (by apply (child_ne st Hwf parent rp)).
    assert (c <> new) by (intros ->; by apply (detached_not_child st Hwf new n parent rp)).
    rewrite !(proj2 (Pos.eqb_neq _ _)) by done.
    rewrite (deref_ok _ _ _ Ec), (deref_ok _ _ _ (de_lookup _ _ _ Hd)). cbn [obind].
    case_if.
    + rewrite (deref_ok _ _ _ Hp). cbn [obind]. apply (insert_here st parent new rp n pre c rc post); try done.
      unfold within. zbool. lia.
    + destruct (wf_child st Hwf parent rp c Hp Hin) as (rc' & Ec' & Epar & _).
      rewrite Ec in Ec'. injection Ec' as <-.
      destruct (IH c rc Ec) as (conflict & st' & -> & Hio); [done| |].
      { pose proof (deeper_child rank st parent c rc Ec (Hrank c rc parent Ec Epar)). lia. }
      eexists _, _. split; [done|]. eapply insert_outcome_below; [by exists rp|done| |done].
      destruct Hf. unfold fits. zbool. lia.
Qed.

Lemma deeper_size rank st p : (deeper rank st p < S (size st))%nat.
Proof. unfold deeper. apply Nat.lt_succ_r, map_subseteq_size, map_filter_subseteq. Qed.

Lemma deeper_lt_size rank (st : res_store) p rp : st !! p = Some rp -> (deeper rank st p < size st)%nat.
Proof.
  intros Ep. apply map_subset_size, map_subset_alt. split; [apply map_filter_subseteq|].
  exists p. split; [|by exists rp]. apply map_lookup_filter_None_2. right. intros x _. cbn. lia.
Qed.

Lemma insert_spec st parent new rp n :
  wf_res st -> detached st new n -> st !! parent = Some rp -> parent <> new ->
  exists conflict st', __insert_resource st parent new = Ok (conflict, st')
    /\ insert_outcome st parent new n conflict st'.
Proof.
  intros Hwf Hd Hp Hne. destruct (wr_rank st Hwf) as [rank Hrank].
  apply (insert_loop_spec st new n rank Hwf Hd Hrank _ parent rp); [done|done|apply deeper_size].
Qed.

Lemma insert_outcome_wf st parent new n st' :
  wf_res st -> detached st new n -> insert_outcome st parent new n None st' -> wf_res st'.
Proof.
  intros Hwf Hd Ho. inversion Ho as [p rp i Hr Hne Hp Hroom|p rp L A R Hr Hne Hp Hcv| |]; subst.
  - by apply (link_wf st p new rp n).
  - by apply (adopted_wf st Hwf p new rp n L A R).
Qed.

(** ** Expansion *)

#[global] Instance within_dec r s e : Decision (within r s e).
Proof. unfold within. apply _. Defined.

Lemma rank_rtc st rank p q : wf_res st ->
  (forall c rc p, st !! c = Some rc -> r_parent rc = Some p -> (rank p < rank c)%nat) ->
  rtc (is_child st) p q -> (rank p <= rank q)%nat.
Proof.
  intros Hwf Hrank Hr. induction Hr as [|p c q (rp & Hp & Hc) _ IH]; [done|].
  destruct (wf_child st Hwf p rp c Hp Hc) as (rc & Ec & Epar & _).
  specialize (Hrank c rc p Ec Epar). lia.
Qed.

Lemma descendant_ne st p q c : wf_res st -> rtc (is_child st) p q -> is_child st q c -> c <> p.
Proof.
  intros Hwf Hr Hc ->. destruct (wr_rank st Hwf) as [rank Hrank].
  assert (Hrr : rtc (is_child st) p q) by done.
  apply (rank_rtc st rank p q Hwf Hrank) in Hrr. destruct Hc as (rq & Hq & Hc).
  destruct (wf_child st Hwf q rq p Hq Hc) as (rp & Ep & Epar & _).
  specialize (Hrank p rp q Ep Epar). lia.
Qed.

(** The range of a detached resource is free to change. *)
Definition with_range (st : res_store) (new : res_ref) (s e : Z) : res_store :=
  upd st new (fun n => set_range n s e).

Lemma with_range_detached st new n s e : detached st new n ->
  detached (with_range st new s e) new (set_range n s e).
Proof. intros [E Hp Hc]. split; [|done|done]. unfold with_range. by rewrite lookup_upd_eq, E. Qed.

Lemma with_range_other st new s e x : x <> new -> with_range st new s e !! x = st !! x.
Proof. intros. by apply lookup_upd_ne. Qed.

Lemma with_range_wf st new n s e : wf_res st -> detached st new n -> wf_res (with_range st new s e).
Proof.
  intros Hwf Hd. pose proof (with_range_detached st new n s e Hd) as [En' Hp' Hc'].
  assert (Hback : forall x rx, with_range st new s e !! x = Some rx -> x <> new ->
    st !! x = Some rx) by (intros x rx Ex Hx; by rewrite with_range_other in Ex).
  assert (Hch : forall q rq c, st !! q = Some rq -> c ∈ r_children rq -> c <> new).
  { intros q rq c Eq Hc ->. by apply (detached_not_child st Hwf new n q rq). }
  split.
  - intros q rq Eq. destruct (decide (q = new)) as [->|Hq].
    { rewrite En' in Eq. injection Eq as <-. rewrite Hc'. constructor. }
    apply Hback in Eq; [|done]. apply Forall_forall. intros c Hc.
    destruct (wf_child st Hwf q rq c Eq Hc) as (rc & Ec & ? & ? & ? & ?).
    apply (child_ok_intro _ _ _ _ rc); try done. rewrite with_range_other; [done|]. by apply (Hch q rq).
  - intros q rq Eq. destruct (decide (q = new)) as [->|Hq].
    { rewrite En' in Eq. injection Eq as <-. rewrite Hc'. constructor. }
    apply Hback in Eq; [|done]. apply (sorted_ext st); [|by apply (wr_sorted st Hwf q)].
    intros x Hx. unfold rng. rewrite with_range_other; [done|]. by apply (Hch q rq).
  - intros c rc q Ec Epar. destruct (decide (c = new)) as [->|Hc]; [congruence|].
    apply Hback in Ec; [|done]. destruct (wr_listed st Hwf c rc q Ec Epar) as (rq & Eq & Hin).
    exists rq. split; [|done]. rewrite with_range_other; [done|]. intros ->.
    rewrite (de_lookup _ _ _ Hd) in Eq. injection Eq as <-.
    rewrite (de_children _ _ _ Hd) in Hin. by apply elem_of_nil in Hin.
  - destruct (wr_rank st Hwf) as [rank Hrank]. exists rank. intros c rc q Ec Epar.
    destruct (decide (c = new)) as [->|Hc]; [congruence|]. apply Hback in Ec; [|done].
    by apply (Hrank c rc).
Qed.

(** The resources the new one does not yet cover. *)
Definition uncovered (st : res_store) (new : res_ref) (n : resource) : nat :=
  size (filter (fun xr => xr.1 <> new /\ ~ within xr.2 (r_start n) (r_end n)) st).

Definition grow (c n : resource) : resource :=
  set_range n (if r_start c <? r_start n then r_start c else r_start n)
    (if r_end c >? r_end n then r_end c else r_end n).

Lemma grow_spec c n : r_start (grow c n) = Z.min (r_start c) (r_start n)
  /\ r_end (grow c n) = Z.max (r_end c) (r_end n).
Proof. unfold grow. cbn. split; case_if; lia. Qed.

Lemma uncovered_grow st new n c rc :
  c <> new -> st !! c = Some rc -> ~ within rc (r_start n) (r_end n) ->
  (uncovered (with_range st new (r_start (grow rc n)) (r_end (grow rc n))) new (grow rc n)
   < uncovered st new n)%nat.
Proof.
  intros Hne Ec Hw. destruct (grow_spec rc n) as [Es Ee]. apply map_subset_size, map_subset_alt. split.
  - apply map_subseteq_spec. intros x rx. rewrite !map_lookup_filter_Some. intros [Ex [Hx Hn]].
    rewrite with_range_other in Ex by done. split; [done|]. split; [done|]. cbn in *.
    unfold within in *. lia.
  - exists c. split.
    + apply map_lookup_filter_None_2. right. intros x Ex [_ Hn]. rewrite with_range_other in Ex by done.
      simplify_eq. apply Hn. cbn [snd]. rewrite Es, Ee. unfold within. lia.
    + exists rc. by apply map_lookup_filter_Some_2.
Qed.

Lemma uncovered_size st new n : (uncovered st new n < S (size st))%nat.
Proof. apply Nat.lt_succ_r, map_subseteq_size, map_filter_subseteq. Qed.

(** Where an expanding insertion ends: in the tree, or outside of the root. *)
Record expanded (st : res_store) (root new : res_ref) (n : resource) (st' : res_store) : Prop := {
  ex_wf : wf_res st';
  ex_new : exists n', st' !! new = Some n' /\ r_start n' <= r_start n /\ r_end n <= r_end n'
    /\ (is_Some (r_parent n') \/ (exists r, st !! root = Some r /\ ~ fits r n'));
  ex_rng : forall x, x <> new -> rng st' x = rng st x
}.

Lemma insert_outcome_new st parent new n st' : wf_res st -> detached st new n ->
  insert_outcome st parent new n None st' ->
  (exists p cs, st' !! new = Some (set_children (set_parent n (Some p)) cs))
  /\ (forall x, rng st' x = rng st x).
Proof.
  intros Hwf Hd Ho. inversion Ho as [p rp i Hr Hne Hp Hroom|p rp L A R Hr Hne Hp Hcv| |]; subst.
  - split; [|by intros; apply (link_rng st p new rp n)].
    exists p, []. rewrite (link_new st p new n) by done. f_equal. unfold set_children. cbn.
    unfold set_parent. by rewrite (de_children _ _ _ Hd).
  - split; [|by intros; apply (adopted_rng st Hwf p new rp n L A R)].
    exists p, A. by apply (adopted_new st Hwf p new rp n L A R).
Qed.

Lemma expand_loop_spec root : forall fuel st new n rr,
  wf_res st -> detached st new n -> st !! root = Some rr -> root <> new ->
  (uncovered st new n < fuel)%nat ->
  exists st', expand_loop fuel st root new = Ok st' /\ expanded st root new n st'.
Proof.
  induction fuel as [|fuel IH]; intros st new n rr Hwf Hd Hr Hne Hfuel; [lia|]. cbn [expand_loop].
  destruct (insert_spec st root new rr n Hwf Hd Hr Hne) as (conflict & st' & -> & Ho). cbn [obind].
  destruct conflict as [c|].
  - inversion Ho as [| |rp Ep Hf|p c' rc Hrtc Hpc Ec (_ & Hpart & _)]; subst.
    + rewrite Pos.eqb_refl. eexists. split; [done|]. split; [done| |done].
      exists n. split; [apply Hd|]. split; [lia|]. split; [lia|]. right. simplify_eq. eauto.
    + assert (c <> root) by (by eapply descendant_ne).
      rewrite (proj2 (Pos.eqb_neq c root)) by done. rewrite (deref_ok _ _ _ Ec). cbn [obind].
      assert (Hcn : c <> new).
      { intros ->. destruct Hpc as (rp & Ep & Hin). by apply (detached_not_child st' Hwf new n p rp). }
      assert (Eu : upd st' new (fun n => set_range n
          (if r_start rc <? r_start n then r_start rc else r_start n)
          (if r_end rc >? r_end n then r_end rc else r_end n))
        = with_range st' new (r_start (grow rc n)) (r_end (grow rc n))).
      { apply map_eq. intros x. unfold with_range. destruct (decide (x = new)) as [->|Hx].
        - by rewrite !lookup_upd_eq, (de_lookup _ _ _ Hd).
        - by rewrite !lookup_upd_ne. }
      rewrite Eu.
      destruct (IH (with_range st' new (r_start (grow rc n)) (r_end (grow rc n))) new (grow rc n) rr)
        as (st'' & -> & Hex).
      * by eapply with_range_wf.
      * by apply with_range_detached.
      * by rewrite with_range_other.
      * done.
      * pose proof (uncovered_grow st' new n c rc Hcn Ec Hpart). lia.
      * eexists. split; [done|]. destruct Hex as [Hw (n' & En' & ? & ? & Hor) Hrng].
        destruct (grow_spec rc n) as [Es Ee]. split; [done| |].
        -- exists n'. split; [done|]. split; [lia|]. split; [lia|].
           destruct Hor as [?|(r0 & Er0 & ?)]; [by left|right]. rewrite with_range_other in Er0 by done. eauto.
        -- intros x Hx. rewrite Hrng by done. unfold rng. by rewrite with_range_other.
  - eexists. split; [done|]. destruct (insert_outcome_new st root new n st' Hwf Hd Ho) as [(p & cs & En) Hrng].
    split; [by eapply insert_outcome_wf| |by intros].
    eexists. split; [done|]. cbn. split; [lia|]. split; [lia|]. left. by eexists.
Qed.
