(* ===== verification/ResourceAlloc.v ===== *)
(** * Changing the range of a resource, and finding room in the tree

    [adjust_resource] changes a resource that is in the tree;
    [__find_resource] walks the holes between the children of a resource and
    takes the first aligned range that fits. *)

From stdpp Require Import gmap.
From Stdlib Require Import Sorting.Sorted.
From S2P Require Import Prelude Resource ResourceFacts ResourceInsert.

(** The range leaves the children inside, and the resource inside its parent
    and between its neighbours. *)
Record slides (st : res_store) (res : res_ref) (r : resource) (s e : Z) : Prop := {
  sl_children : forall c rc, c ∈ r_children r -> st !! c = Some rc -> within rc s e;
  sl_parent : forall p rp pre post, r_parent r = Some p -> st !! p = Some rp ->
    r_children rp = pre ++ res :: post ->
    r_start rp <= s /\ e <= r_end rp
    /\ (forall c rc, c ∈ pre -> st !! c = Some rc -> r_end rc < s)
    /\ (forall c rc, c ∈ post -> st !! c = Some rc -> e < r_start rc)
}.

Section Ranged.
Context (st : res_store) (Hwf : wf_res st) (res : res_ref) (r : resource) (s e : Z)
  (Hr : st !! res = Some r).

Lemma ranged_here : with_range st res s e !! res = Some (set_range r s e).
Proof using Hr. unfold with_range. by rewrite lookup_upd_eq, Hr. Qed.

Lemma ranged_back x rx : with_range st res s e !! x = Some rx ->
  exists r0, st !! x = Some r0 /\ r_parent rx = r_parent r0 /\ r_children rx = r_children r0
    /\ (x <> res -> rx = r0).
Proof using Hr.
  destruct (decide (x = res)) as [->|Hne].
  - rewrite ranged_here. intros [= <-]. by exists r.
  - rewrite with_range_other by done. by exists rx.
Qed.

Context (Hse : s <= e) (Hsl : slides st res r s e).

Lemma ranged_child_ok q rq c : with_range st res s e !! q = Some rq -> c ∈ r_children rq ->
  child_ok (with_range st res s e) q rq c.
Proof using Hwf Hr Hse Hsl.
  intros Eq Hc. destruct (ranged_back q rq Eq) as (r0 & E0 & _ & Ech & Hsame). rewrite Ech in Hc.
  destruct (wf_child st Hwf q r0 c E0 Hc) as (rc & Ec & Hp & H1 & H2 & H3).
  destruct (decide (c = res)) as [->|Hne].
  - assert (Hq : q <> res) by (by apply (parent_ne st Hwf res rc)). rewrite Hr in Ec. injection Ec as <-.
    apply list_elem_of_split in Hc as (pre & post & Ech').
    destruct (sl_parent _ _ _ _ _ Hsl q r0 pre post Hp E0 Ech') as (? & ? & _).
    rewrite (Hsame Hq). by apply (child_ok_intro _ _ _ _ (set_range r s e)); [apply ranged_here|..].
  - destruct (decide (q = res)) as [->|Hq].
    + rewrite ranged_here in Eq. injection Eq as <-. rewrite Hr in E0. injection E0 as <-.
      destruct (sl_children _ _ _ _ _ Hsl c rc Hc Ec) as [? ?].
      by apply (child_ok_intro _ _ _ _ rc); [rewrite with_range_other|..].
    + rewrite (Hsame Hq). by apply (child_ok_intro _ _ _ _ rc); [rewrite with_range_other|..].
Qed.

Lemma ranged_sorted q rq : with_range st res s e !! q = Some rq ->
  StronglySorted (below (with_range st res s e)) (r_children rq).
Proof using Hwf Hr Hse Hsl.
  intros Eq. destruct (ranged_back q rq Eq) as (r0 & E0 & _ & -> & _).
  pose proof (wr_sorted st Hwf q r0 E0) as Hs.
  assert (Hext : forall l, res ∉ l -> StronglySorted (below st) l ->
    StronglySorted (below (with_range st res s e)) l).
  { intros l Hl. apply sorted_ext. intros x Hx. unfold rng. rewrite with_range_other; [done|set_solver]. }
  destruct (decide (res ∈ r_children r0)) as [Hin|Hni]; [|by apply Hext].
  destruct (wf_child st Hwf q r0 res E0 Hin) as (r' & Er' & Hp & _). rewrite Hr in Er'. injection Er' as <-.
  pose proof (children_NoDup st Hwf q r0 E0) as Hnd. apply list_elem_of_split in Hin as (pre & post & Ech).
  destruct (sl_parent _ _ _ _ _ Hsl q r0 pre post Hp E0 Ech) as (_ & _ & Hl & Hg).
  rewrite Ech in Hs, Hnd |- *. apply NoDup_app in Hnd as (_ & Hpre & [Hpost _]%NoDup_cons).
  assert (Hnp : res ∉ pre) by (intros ?; apply (Hpre res); set_solver).
  pose proof (StronglySorted_app_1_l _ _ _ Hs) as Hs1. pose proof (StronglySorted_app_1_r _ _ _ Hs) as Hs2.
  apply StronglySorted_inv in Hs2 as [Hs2 _].
  apply StronglySorted_app_2; [intros x y Hx Hy|by apply Hext|constructor; [by apply Hext|]].
  - assert (x <> res) by set_solver. intros rx ry. rewrite with_range_other by done. intros Ex Ey.
    apply elem_of_cons in Hy as [->|Hy].
    + rewrite ranged_here in Ey. injection Ey as <-. by apply (Hl x).
    + rewrite with_range_other in Ey by set_solver.
      apply (StronglySorted_app_1_elem_of _ _ _ x y Hs); [done|set_solver|done|done].
  - apply Forall_forall. intros y Hy rx ry Ex Ey. rewrite ranged_here in Ex. injection Ex as <-.
    rewrite with_range_other in Ey by set_solver. by apply (Hg y).
Qed.

Lemma ranged_wf : wf_res (with_range st res s e).
Proof using Hwf Hr Hse Hsl.
  split.
  - intros q rq Eq. apply Forall_forall. intros c Hc. by apply ranged_child_ok.
  - intros q rq Eq. by apply (ranged_sorted q).
  - intros c rc q (rc0 & Ec0 & Ep & _)%ranged_back Epar. rewrite Ep in Epar.
    destruct (wr_listed st Hwf c rc0 q Ec0 Epar) as (rq & Eq & Hin).
    destruct (decide (q = res)) as [->|Hne]; [|exists rq; by rewrite with_range_other].
    rewrite Hr in Eq. injection Eq as <-. exists (set_range r s e). by rewrite ranged_here.
  - destruct (wr_rank st Hwf) as [rank Hrank]. exists rank. intros c rc q (rc0 & Ec0 & Ep & _)%ranged_back Epar.
    rewrite Ep in Epar. by apply (Hrank c rc0).
Qed.

End Ranged.

(** ** The checks *)

Lemma all_within_spec st p r s e : wf_res st -> st !! p = Some r -> forall cs,
  (forall c, c ∈ cs -> c ∈ r_children r) ->
  exists b, all_within st cs s e = Ok b
    /\ (b = true <-> forall c rc, c ∈ cs -> st !! c = Some rc -> within rc s e).
Proof.
  intros Hwf Hp. induction cs as [|c cs IH]; intros Hin; cbn.
  { exists true. split; [done|]. split; [|done]. by intros _ c rc ?%elem_of_nil. }
  destruct (wf_child st Hwf p r c Hp) as (rc & Ec & _); [set_solver|].
  rewrite (deref_ok _ _ _ Ec). cbn [obind]. case_if.
  - exists false. split; [done|]. split; [done|]. intros Hall. destruct (Hall c rc); [set_solver|done|]. lia.
  - destruct IH as (b & -> & Hb); [set_solver|]. exists b. split; [done|]. rewrite Hb. split.
    + intros Hall d rd [->|Hd]%elem_of_cons Ed; [|by apply (Hall d)]. rewrite Ec in Ed. injection Ed as <-.
      unfold within. lia.
    + intros Hall d rd Hd. apply Hall. set_solver.
Qed.

Lemma NoDup_split_unique {A} (x : A) pre post pre' post' :
  NoDup (pre ++ x :: post) -> pre ++ x :: post = pre' ++ x :: post' -> pre = pre' /\ post = post'.
Proof.
  revert pre'. induction pre as [|y pre IH]; intros [|y' pre'] Hnd E; cbn in *.
  - by injection E.
  - injection E as <- ->. apply NoDup_cons in Hnd as [Hni _]. set_solver.
  - injection E as -> <-. apply NoDup_cons in Hnd as [Hni _]. set_solver.
  - injection E as <- E. apply NoDup_cons in Hnd as [_ Hnd]. by destruct (IH pre' Hnd E) as [-> ->].
Qed.

Section Neighbours.
Context (st : res_store) (Hwf : wf_res st) (res p : res_ref) (rp : resource)
  (pre post : list res_ref) (s e : Z)
  (Hp : st !! p = Some rp) (Hch : r_children rp = pre ++ res :: post).

Lemma neighbour c : c ∈ pre ++ post -> exists rc, st !! c = Some rc /\ r_start rc <= r_end rc.
Proof using Hwf Hp Hch.
  intros Hc. destruct (wf_child st Hwf p rp c Hp) as (rc & ? & _ & _ & ? & _); [|by exists rc].
  rewrite Hch. set_solver.
Qed.

(** The successor decides for all behind. *)
Lemma free_after : exists b,
  match r_children rp !! S (length pre) with
  | None => Ok true
  | Some sibling => let! t := deref st sibling in Ok (negb (r_start t <=? e))
  end = Ok b /\ (b = true <-> forall c rc, c ∈ post -> st !! c = Some rc -> e < r_start rc).
Proof using Hwf Hp Hch.
  pose proof (wr_sorted st Hwf p rp Hp) as Hs. pose proof neighbour as Hnb. rewrite Hch in Hs |- *.
  destruct post as [|d l].
  { rewrite lookup_mid_next_end. exists true. split; [done|]. split; [|done]. by intros _ c rc ?%elem_of_nil. }
  rewrite lookup_mid_next. destruct (Hnb d) as (rd & Ed & ?); [set_solver|].
  rewrite (deref_ok _ _ _ Ed). cbn [obind]. eexists. split; [done|].
  apply StronglySorted_app_1_r, StronglySorted_inv in Hs as [Hs _].
  apply StronglySorted_inv in Hs as [_ Hb]. rewrite Forall_forall in Hb.
  rewrite negb_true_iff, Z.leb_gt. split.
  - intros Hlt c rc [->|Hc]%elem_of_cons Ec; [congruence|]. specialize (Hb c Hc rd rc Ed Ec). lia.
  - intros H'. by apply (H' d); [left|].
Qed.

(** The predecessor decides for all before. *)
Lemma free_before : exists b,
  match length pre with
  | O => Ok true
  | S j =>
      match r_children rp !! j with
      | None => Bug
      | Some tmp => let! t := deref st tmp in Ok (negb (s <=? r_end t))
      end
  end = Ok b /\ (b = true <-> forall c rc, c ∈ pre -> st !! c = Some rc -> r_end rc < s).
Proof using Hwf Hp Hch.
  pose proof (wr_sorted st Hwf p rp Hp) as Hs. pose proof neighbour as Hnb. rewrite Hch in Hs |- *.
  destruct pre as [|d l _] using rev_ind; [exists true; split; [done|]; split; [|done]; by intros _ c rc ?%elem_of_nil|].
  rewrite length_snoc, <- app_assoc. cbn [app]. rewrite lookup_mid. destruct (Hnb d) as (rd & Ed & ?); [set_solver|].
  rewrite (deref_ok _ _ _ Ed). cbn [obind]. eexists. split; [done|].
  apply StronglySorted_app_1_l in Hs. rewrite negb_true_iff, Z.leb_gt. split.
  - intros Hlt c rc [Hc| ->%list_elem_of_singleton]%elem_of_app Ec; [|congruence].
    assert (Hcd : below st c d) by (apply (StronglySorted_app_1_elem_of _ _ _ c d Hs); set_solver).
    specialize (Hcd rc rd Ec Ed). lia.
  - intros H'. apply (H' d); [set_solver|done].
Qed.

Lemma neighbours_ok_spec : exists b, neighbours_ok st res p s e = Ok b
  /\ (b = true <-> r_start rp <= s /\ e <= r_end rp
       /\ (forall c rc, c ∈ pre -> st !! c = Some rc -> r_end rc < s)
       /\ (forall c rc, c ∈ post -> st !! c = Some rc -> e < r_start rc)).
Proof using Hwf Hp Hch.
  unfold neighbours_ok. rewrite (deref_ok _ _ _ Hp). cbn [obind]. case_if.
  { exists false. split; [done|]. split; [done|lia]. }
  pose proof (children_NoDup st Hwf p rp Hp) as Hnd. rewrite Hch in Hnd at 1.
  apply NoDup_app in Hnd as (_ & Hpre & _).
  assert (Epos : position res (r_children rp) = Some (length pre)).
  { rewrite Hch. apply position_app. intros ?. apply (Hpre res); set_solver. }
  rewrite Epos. destruct free_after as (b1 & -> & H1). cbn [obind].
  destruct b1; cbn [negb].
  - destruct free_before as (b2 & Eb & H2). exists b2. split; [exact Eb|]. rewrite H2.
    split; [intros ?; split_and!; [lia|lia|done|by apply H1]|tauto].
  - exists false. split; [done|]. split; [done|]. intros (_ & _ & _ & Hg). by apply H1 in Hg.
Qed.

End Neighbours.

(** [adjust_resource] gives a resource the new range exactly when its children
    stay inside and it stays inside its parent and between its neighbours; the
    tree stays well formed.  Otherwise it is -EBUSY and nothing changes. *)
Theorem adjust_resource_correct st res r start size :
  wf_res st -> st !! res = Some r -> 1 <= size -> 0 <= start -> start + size - 1 <= U64_MAX ->
  (slides st res r start (start + size - 1) ->
     adjust_resource st res start size = Ok (0, with_range st res start (start + size - 1))
     /\ wf_res (with_range st res start (start + size - 1)))
  /\ (~ slides st res r start (start + size - 1) ->
     adjust_resource st res start size = Ok (- EBUSY, st)).
Proof.
  intros Hwf Hr Hsz Hst Hmax. unfold adjust_resource, __adjust_resource.
  rewrite (deref_ok _ _ _ Hr), (u64_id (start + size - 1)) by lia. cbn [obind].
  set (e := start + size - 1). destruct (all_within_spec st res r start e Hwf Hr (r_children r))
    as (b & Eb & Hb); [done|].
  assert (Hn : exists b', match r_parent r with
      | None => Ok true | Some parent => neighbours_ok st res parent start e end = Ok b'
    /\ (b = true /\ b' = true <-> slides st res r start e)).
  { destruct (r_parent r) as [p|] eqn:Ep.
    - destruct (wr_listed st Hwf res r p Hr Ep) as (rp & Hp & Hin).
      apply list_elem_of_split in Hin as (pre & post & Hch).
      destruct (neighbours_ok_spec st Hwf res p rp pre post start e Hp Hch) as (b' & -> & Hb').
      exists b'. split; [done|]. rewrite Hb, Hb'. split.
      + intros [Hc Hpar]. split; [done|]. intros p' rp' pre' post' [= <-]%(eq_trans (eq_sym Ep)) Hp' Hch'.
        rewrite Hp in Hp'. injection Hp' as <-. pose proof (children_NoDup st Hwf p rp Hp) as Hnd.
        rewrite Hch in Hnd, Hch'. by apply (NoDup_split_unique res) in Hch' as [-> ->].
      + intros [Hc Hpar]. split; [done|]. by apply (Hpar p rp pre post).
    - exists true. split; [done|]. rewrite Hb. split; [|intros []; done].
      intros [Hc _]. split; [done|]. congruence. }
  destruct Hn as (b' & -> & Hsl). cbn [obind]. destruct b' eqn:Eb'; cbn [negb].
  - rewrite Eb. cbn [obind]. destruct b; cbn [negb].
    + split; [intros Hs; split; [done|]|intros Hs; by destruct Hs; apply Hsl].
      apply (ranged_wf st Hwf res r); [done|subst e; lia|done].
    + split; [intros Hs; by apply Hsl in Hs as [? _]|done].
  - split; [intros Hs; by apply Hsl in Hs as [_ ?]|done].
Qed.

(** * Finding room in a resource tree *)

(** ** Alignment *)

Lemma align_up_spec x k : 0 <= k < 64 -> 0 <= x -> x + 2 ^ k - 1 <= U64_MAX ->
  x <= align_up x (2 ^ k) <= x + 2 ^ k - 1 /\ (2 ^ k | align_up x (2 ^ k))
  /\ forall y, (2 ^ k | y) -> x <= y -> align_up x (2 ^ k) <= y.
Proof.
  intros Hk Hx Hmax. pose proof (Z.pow_pos_nonneg 2 k).
  assert (E : align_up x (2 ^ k) = (x + (2 ^ k - 1)) / 2 ^ k * 2 ^ k).
  { unfold align_up. rewrite (u64_id (x + (2 ^ k - 1))), (u64_id (2 ^ k - 1)) by lia.
    rewrite <- Z.ldiff_land. replace (2 ^ k - 1) with (Z.ones k) at 2 by (rewrite Z.ones_equiv; lia).
    by rewrite Z.ldiff_ones_r, Z.shiftl_mul_pow2, Z.shiftr_div_pow2 by lia. }
  rewrite E. set (d := 2 ^ k) in *.
  pose proof (Z.div_mod (x + (d - 1)) d). pose proof (Z.mod_pos_bound (x + (d - 1)) d).
  split; [nia|]. split; [by apply Z.divide_factor_r|].
  intros y [z ->] Hy. apply Z.mul_le_mono_nonneg_r; [lia|].
  apply Z.lt_succ_r. apply Z.div_lt_upper_bound; nia.
Qed.

Lemma unset_cleared f : Z.land (Z.land f (Z.lnot IORESOURCE_UNSET)) IORESOURCE_UNSET = 0.
Proof.
  rewrite <- Z.land_assoc, (Z.land_comm (Z.lnot _)), Z.land_lnot_diag. apply Z.land_0_r.
Qed.

Section Alloc.
Context (st : res_store) (Hwf : wf_res st) (root : res_ref) (r : resource)
  (Hr : st !! root = Some r).
Context (k size min max new_flags : Z).
Context (Hk : 0 <= k < 64) (Hsize : 1 <= size).
Context (Hstart : 0 <= r_start r <= r_end r) (Hmin : 0 <= min).
Context (Hwrap : Z.max (r_end r + 1) min + 2 ^ k + size <= U64_MAX).

Let c0 : resource_constraint := Constraint min max (2 ^ k) simple_align_resource.

(** The ranges that may be handed out. *)
Record slot (s : Z) : Prop := {
  sl_align : (2 ^ k | s);
  sl_min : min <= s;
  sl_max : s + size - 1 <= max;
  sl_start : r_start r <= s;
  sl_end : s + size - 1 <= r_end r;
  sl_free : forall c rc, c ∈ r_children r -> st !! c = Some rc -> ~ overlaps rc s (s + size - 1)
}.

Lemma pow_pos : 0 < 2 ^ k.
Proof. apply Z.pow_pos_nonneg; lia. Qed.

Lemma try_hole_spec ts te : 0 <= ts -> ts <= Z.max (r_end r + 1) min ->
  let a := align_up ts (2 ^ k) in
  try_hole new_flags size c0 ts te = (if a + size - 1 <=? te then Some (a, a + size - 1) else None).
Proof.
  intros H0 Hts a. pose proof pow_pos.
  destruct (align_up_spec ts k Hk H0) as (Ha & _ & _); [lia|]. fold a in Ha.
  unfold try_hole. cbn [c_align c_alignf c0 simple_align_resource r_start r_end]. fold a.
  unfold resource_contains, resource_type. cbn [r_flags r_start r_end].
  rewrite Z.eqb_refl, unset_cleared. cbn [negb Z.eqb orb].
  rewrite u64_id by lia. case_if; [|lia]. rewrite Z.leb_refl. cbn [andb].
  by rewrite Z.geb_leb.
Qed.

(** The result of looking from [ts] on: the lowest slot, or none. *)
Definition lowest (ts : Z) (found : option (Z * Z)) : Prop :=
  match found with
  | Some (s, e) => slot s /\ e = s + size - 1 /\ forall s', slot s' -> ts <= s' -> s <= s'
  | None => forall s', slot s' -> ts <= s' -> False
  end.

(** One hole [ts, te] with nothing in it. *)
Lemma hole_spec ts te : r_start r <= ts -> ts <= r_end r + 1 -> te <= r_end r ->
  (forall c rc, c ∈ r_children r -> st !! c = Some rc -> r_end rc < ts \/ te < r_start rc) ->
  match try_hole new_flags size c0 (Z.max ts min) (Z.min te max) with
  | Some (s, e) => slot s /\ e = s + size - 1 /\ s + size - 1 <= te
                   /\ forall s', slot s' -> ts <= s' -> s <= s'
  | None => forall s', slot s' -> ts <= s' -> te < s' + size - 1
  end.
Proof.
  intros H1 H2 H3 Hfree. rewrite try_hole_spec by lia. cbn zeta. pose proof pow_pos.
  destruct (align_up_spec (Z.max ts min) k Hk) as (Ha & Hdiv & Hleast); [lia|lia|].
  set (a := align_up (Z.max ts min) (2 ^ k)) in *. case_if.
  - split_and!; [|done|lia|].
    + split; [done|lia|lia|lia|lia|]. intros c rc Hc Ec [Ho1 Ho2].
      destruct (Hfree c rc Hc Ec); lia.
    + intros s' [Hd' ? ? ? ? _] Hs. apply Hleast; [done|lia].
  - intros s' [Hd' ? ? ? ? _] Hs. specialize (Hleast s' Hd'). lia.
Qed.

Lemma lowest_from ts ts' found :
  (forall s', slot s' -> ts <= s' -> ts' <= s') -> lowest ts' found -> lowest ts found.
Proof.
  intros Hmono. destruct found as [[s e]|]; cbn.
  - intros (Hs & He & Hl). split_and!; [done|done|auto].
  - intros Hn s' Hs' Hle. apply (Hn s' Hs'). auto.
Qed.

Lemma later_child pre t cs c rt rc : r_children r = pre ++ t :: cs -> c ∈ cs ->
  st !! t = Some rt -> st !! c = Some rc -> r_end rt < r_start rc.
Proof.
  intros Hc Hin Et Ec. pose proof (wr_sorted st Hwf root r Hr) as Hs. rewrite Hc in Hs.
  apply StronglySorted_app_1_r in Hs. apply StronglySorted_inv in Hs as [_ Hb].
  rewrite Forall_forall in Hb. by apply (Hb c Hin).
Qed.

(** What the loop knows when it looks from [ts] on at the children [cs]. *)
Record looking (ts : Z) (pre cs : list res_ref) : Prop := {
  lk_split : r_children r = pre ++ cs;
  lk_start : r_start r <= ts;
  lk_end : ts <= r_end r + 1;
  lk_pre : forall c rc, c ∈ pre -> st !! c = Some rc -> r_end rc < ts;
  lk_cs : forall c rc, c ∈ cs -> st !! c = Some rc -> ts <= r_start rc /\ 1 <= r_start rc
}.

Lemma looking_next ts pre t cs rt : looking ts pre (t :: cs) -> st !! t = Some rt ->
  r_end rt <> r_end r -> looking (r_end rt + 1) (pre ++ [t]) cs.
Proof.
  intros [Hc H1 H2 Hpre Hcs] Et Hend. destruct (Hcs t rt ltac:(set_solver) Et) as [Hts Hpos].
  assert (Hin : t ∈ r_children r) by (rewrite Hc; set_solver).
  destruct (wf_child st Hwf root r t Hr Hin) as (rt' & Et' & _ & ? & ? & ?). simplify_eq.
  split; [by rewrite <- app_assoc|lia|lia| |].
  - intros c rc [Hcp| ->%list_elem_of_singleton]%elem_of_app Ec; [|simplify_eq; lia].
    specialize (Hpre c rc Hcp Ec). lia.
  - intros c rc Hcc Ec. pose proof (later_child pre t cs c rt rc Hc Hcc Et Ec). lia.
Qed.

(** The hole before the next child is empty. *)
Lemma looking_free ts pre t cs rt : looking ts pre (t :: cs) -> st !! t = Some rt ->
  forall c rc, c ∈ r_children r -> st !! c = Some rc -> r_end rc < ts \/ r_start rt - 1 < r_start rc.
Proof.
  intros [Hc H1 H2 Hpre Hcs] Et c rc Hin Ec. rewrite Hc in Hin.
  assert (Hint : t ∈ r_children r) by (rewrite Hc; set_solver).
  destruct (wf_child st Hwf root r t Hr Hint) as (rt' & Et' & _ & ? & ? & ?). simplify_eq.
  apply elem_of_app in Hin as [Hin|[->|Hin]%elem_of_cons].
  - left. by apply (Hpre c).
  - right. simplify_eq. lia.
  - right. pose proof (later_child pre t cs c rt rc Hc Hin Et Ec). lia.
Qed.

Lemma slot_after ts t rt s : t ∈ r_children r -> st !! t = Some rt -> slot s -> ts <= s ->
  r_start rt - 1 < s + size - 1 -> r_end rt + 1 <= s.
Proof.
  intros Hin Et Hs Hle Hn. pose proof (sl_free s Hs t rt Hin Et) as Hfr. unfold overlaps in Hfr. lia.
Qed.

Lemma find_loop_spec cs : forall ts pre, looking ts pre cs ->
  exists found, find_loop r None new_flags size c0 st cs ts = Ok found /\ lowest ts found.
Proof.
  induction cs as [|t cs IH]; intros ts pre Hlk; cbn [find_loop c_min c_max c0]; fold c0.
  - destruct Hlk as [Hc H1 H2 Hpre _]. rewrite app_nil_r in Hc.
    destruct (r_end r <? ts) eqn:E; zbool.
    { eexists. split; [done|]. intros s' [] ?. lia. }
    eexists. split; [done|]. pose proof (hole_spec ts (r_end r) H1 H2 ltac:(lia)) as Hh.
    destruct (try_hole _ _ _ _ _) as [[s e]|]; cbn.
    + destruct Hh as (Hs & He & _ & Hl); [|done]. intros c rc Hin Ec. left. apply (Hpre c); [by rewrite <- Hc|done].
    + intros s' Hs' Hts. assert (r_end r < s' + size - 1); [|destruct Hs'; lia]. apply Hh; [|done..].
      intros c rc Hin Ec. left. apply (Hpre c); [by rewrite <- Hc|done].
  - pose proof (lk_split _ _ _ Hlk) as Hc.
    assert (Hin : t ∈ r_children r) by (rewrite Hc; set_solver).
    destruct (wf_child st Hwf root r t Hr Hin) as (rt & Et & _ & Ht1 & Ht2 & Ht3).
    destruct (lk_cs _ _ _ Hlk t rt ltac:(set_solver) Et) as [Hts Hpos].
    rewrite (deref_ok _ _ _ Et). cbn [obind]. unfold is_old. rewrite bool_decide_eq_false_2 by done.
    rewrite (u64_id (r_start rt - 1)) by lia.
    assert (Hnext : (forall s', slot s' -> ts <= s' -> r_start rt - 1 < s' + size - 1) ->
      exists found, (if r_end rt =? r_end r then Ok None
        else find_loop r None new_flags size c0 st cs (u64 (r_end rt + 1))) = Ok found
      /\ lowest ts found).
    { intros Hnot. destruct (r_end rt =? r_end r) eqn:Eend; zbool.
      { eexists. split; [done|]. intros s' Hs' Hle.
        pose proof (slot_after ts t rt s' Hin Et Hs' Hle (Hnot s' Hs' Hle)). destruct Hs'. lia. }
      rewrite u64_id by lia.
      destruct (IH (r_end rt + 1) (pre ++ [t])) as (found & -> & Hl); [by eapply looking_next|].
      eexists. split; [done|]. apply (lowest_from ts (r_end rt + 1)); [|done].
      intros s' Hs' Hle. by apply (slot_after ts t rt s'); auto. }
    destruct (r_start rt - 1 <? ts) eqn:E; zbool.
    { apply Hnext. intros s' Hs' Hle. lia. }
    pose proof (hole_spec ts (r_start rt - 1) (lk_start _ _ _ Hlk) (lk_end _ _ _ Hlk) ltac:(lia)
      (looking_free ts pre t cs rt Hlk Et)) as Hh.
    destruct (try_hole _ _ _ _ _) as [[s e]|]; [|by apply Hnext].
    eexists. split; [done|]. destruct Hh as (Hs & -> & _ & Hl). done.
Qed.

Lemma find_resource_spec :
  exists found, __find_resource r None new_flags size c0 st = Ok found
    /\ lowest (r_start r) found.
Proof.
  unfold __find_resource.
  assert (Hnil : forall c rc, c ∈ [] -> st !! c = Some rc -> r_end rc < r_start r)
    by (intros c rc Hin; by apply elem_of_nil in Hin).
  destruct (r_children r) as [|t cs] eqn:Hc.
  { apply (find_loop_spec [] (r_start r) []). split; [done|lia|lia|done|].
    intros c rc Hin; by apply elem_of_nil in Hin. }
  assert (Hin : t ∈ r_children r) by (rewrite Hc; set_solver).
  destruct (wf_child st Hwf root r t Hr Hin) as (rt & Et & _ & Ht1 & Ht2 & Ht3).
  rewrite (deref_ok _ _ _ Et). cbn [obind]. unfold is_old. rewrite bool_decide_eq_false_2 by done.
  case_if.
  - rewrite u64_id by lia.
    destruct (find_loop_spec cs (r_end rt + 1) [t]) as (found & -> & Hl).
    { split; [done|lia|lia| |].
      - intros c rc ->%list_elem_of_singleton Ec. simplify_eq. lia.
      - intros c rc Hcc Ec. pose proof (later_child [] t cs c rt rc Hc Hcc Et Ec). lia. }
    eexists. split; [done|]. apply (lowest_from _ (r_end rt + 1)); [|done].
    intros s' Hs' Hle. apply (slot_after (r_start r) t rt s'); try done. lia.
  - apply (find_loop_spec (t :: cs) (r_start r) []). split; [done|lia|lia|done|].
    intros c rc [->|Hcc]%elem_of_cons Ec; [simplify_eq; lia|].
    pose proof (later_child [] t cs c rt rc Hc Hcc Et Ec). lia.
Qed.

End Alloc.

(** ** Allocation *)

Lemma allocate_spec st root r new n k size min max :
  wf_res st -> st !! root = Some r -> detached st new n -> new <> root ->
  0 <= k < 64 -> 1 <= size -> 0 <= r_start r <= r_end r -> 0 <= min ->
  Z.max (r_end r + 1) min + 2 ^ k + size <= U64_MAX ->
  (exists s st', allocate_resource st root new size min max (2 ^ k) None = Ok (0, st')
     /\ slot st r k size min max s /\ (forall s', slot st r k size min max s' -> s <= s')
     /\ wf_res st'
     /\ st' !! new = Some (set_parent (set_range n s (s + size - 1)) (Some root))
     /\ forall x, x <> new -> x <> root -> st' !! x = st !! x)
  \/ (allocate_resource st root new size min max (2 ^ k) None = Ok (- EBUSY, st)
     /\ forall s, ~ slot st r k size min max s).
Proof.
  intros Hwf Hr Hd Hne Hk Hsize Hstart Hmin Hwrap. unfold allocate_resource, find_resource.
  rewrite (deref_ok _ _ _ (de_lookup _ _ _ Hd)). cbn [obind]. rewrite (de_parent _ _ _ Hd).
  rewrite (deref_ok _ _ _ Hr). cbn [obind default].
  destruct (find_resource_spec st Hwf root r Hr k size min max (r_flags n) Hk Hsize Hstart Hmin Hwrap)
    as (found & -> & Hl). cbn [obind]. destruct found as [[s e]|]; cbn [lowest] in Hl.
  - left. destruct Hl as (Hs & -> & Hlow). cbn [obind negb Z.geb Z.compare].
    fold (with_range st new s (s + size - 1)). set (st1 := with_range _ _ _ _).
    assert (Hr1 : st1 !! root = Some r) by (subst st1; by rewrite with_range_other).
    assert (Hd1 : detached st1 new (set_range n s (s + size - 1))) by (by apply with_range_detached).
    assert (Hwf1 : wf_res st1) by (by eapply with_range_wf).
    destruct (request_spec st1 root new r _ Hwf1 Hr1 (de_lookup _ _ _ Hd1)) as (conflict & st' & -> & Ho).
    assert (Hf : fits r (set_range n s (s + size - 1))) by (destruct Hs; unfold fits; cbn; lia).
    cbn [obind]. destruct Ho as [i Hroom|Hout|c rc pre post _ Hc Ec Hov _]; [|done|].
    + eexists s, _. split; [done|]. split; [done|]. split.
      { intros s' Hs'. apply Hlow; [done|]. by destruct Hs'. }
      split; [by eapply link_wf|]. split; [by apply (link_new st1 root new)|].
      intros x Hx Hx'. rewrite link_other by done. subst st1. by rewrite with_range_other.
    + exfalso. assert (Hin : c ∈ r_children r) by (rewrite Hc; set_solver).
      assert (c <> new) by (intros ->; by apply (detached_not_child st Hwf new n root r)).
      subst st1. rewrite with_range_other in Ec by done. by apply (sl_free _ _ _ _ _ _ _ Hs c rc).
  - right. split; [done|]. intros s Hs. apply (Hl s Hs). by destruct Hs.
Qed.
