(* ===== verification/ResourceRegion.v ===== *)
(** * Busy regions

    [__request_region] puts a busy region below the innermost resource that is
    not busy; [__release_region] finds it again and takes it out. *)

From stdpp Require Import gmap.
From Stdlib Require Import Sorting.Sorted.
From S2P Require Import Prelude Resource ResourceFacts ResourceInsert.

Definition busy (r : resource) : Prop := Z.land (r_flags r) IORESOURCE_BUSY <> 0.

(** The way down from [p] to [q] through resources around [n] that are not
    busy. *)
Inductive opens (st : res_store) (n : resource) : res_ref -> res_ref -> Prop :=
| opens_here p : opens st n p p
| opens_step p rp c rc q :
    st !! p = Some rp -> c ∈ r_children rp -> st !! c = Some rc -> ~ busy rc -> fits rc n ->
    opens st n c q -> opens st n p q.

Section Request.
Context (st : res_store) (Hwf : wf_res st) (res : res_ref) (n : resource) (flags : Z).
Context (Hd : detached st res n).

(** Why a region is not granted: it leaves the parent, or it meets a resource
    below the parent that is busy or does not contain it. *)
Definition blocks (parent c : res_ref) (rc : resource) : Prop :=
  c = parent /\ ~ fits rc n
  \/ tc (is_child st) parent c /\ overlaps rc (r_start n) (r_end n) /\ (busy rc \/ ~ fits rc n).

(** What asking for a region can come to. *)
Inductive region_outcome (parent : res_ref) : region_result -> res_store -> Prop :=
| rg_granted q rq i : opens st n parent q -> q <> res -> st !! q = Some rq -> room st q rq n i ->
    region_outcome parent (Granted res) (link st q res i)
| rg_refused c rc : c <> res -> st !! c = Some rc -> blocks parent c rc ->
    Z.land (Z.land (r_flags rc) flags) IORESOURCE_MUXED = 0 ->
    region_outcome parent Refused (free_resource st res)
| rg_waits c rc : c <> res -> st !! c = Some rc -> blocks parent c rc ->
    Z.land (Z.land (r_flags rc) flags) IORESOURCE_MUXED <> 0 ->
    region_outcome parent (Waits c) st.

Lemma opens_fits p q rp rq : opens st n p q -> st !! p = Some rp -> st !! q = Some rq ->
  fits rq n -> fits rp n.
Proof.
  intros Ho Ep Eq Hf. destruct Ho as [p|p rp' c rc q Ep' Hc Ec _ Hfc _]; [congruence|].
  destruct (wf_child st Hwf p rp' c Ep' Hc) as (rc' & Ec' & _ & ? & ? & ?). simplify_eq.
  unfold fits in *. lia.
Qed.

(** A busy resource is waited for or refuses. *)
Lemma busy_outcome parent c rc : c <> res -> st !! c = Some rc -> blocks parent c rc ->
  exists result st',
    (if negb (Z.land (Z.land (r_flags rc) flags) IORESOURCE_MUXED =? 0) then Ok (Waits c, st)
     else Ok (Refused, free_resource st res)) = Ok (result, st')
    /\ region_outcome parent result st'.
Proof.
  intros Hc Ec Hb. case_if; eexists _, _; (split; [done|]); zbool.
  - by apply (rg_waits _ c rc).
  - by apply (rg_refused _ c rc).
Qed.

Lemma request_region_loop_spec rank :
  (forall c rc p, st !! c = Some rc -> r_parent rc = Some p -> (rank p < rank c)%nat) ->
  forall fuel parent rp, st !! parent = Some rp -> parent <> res ->
  (deeper rank st parent < fuel)%nat ->
  exists result st', request_region_loop fuel st parent res flags = Ok (result, st')
    /\ region_outcome parent result st'.
Proof.
  intros Hrank fuel. induction fuel as [|fuel IH]; intros parent rp Hp Hne Hfuel; [lia|].
  cbn [request_region_loop].
  destruct (request_spec st parent res rp n Hwf Hp (de_lookup _ _ _ Hd)) as (conflict & st' & -> & Ho).
  cbn [obind]. destruct Ho as [i Hroom|Hout|c rc pre post Hf Hc Ec Ho Hpre].
  - eexists _, _. split; [done|]. by eapply rg_granted; [apply opens_here|..].
  - rewrite (deref_ok _ _ _ Hp). cbn [obind]. rewrite Pos.eqb_refl. cbn [negb]. apply busy_outcome; [done|done|by left].
  - assert (Hin : c ∈ r_children rp) by (rewrite Hc; set_solver).
    assert (c <> parent) by (by apply (child_ne st Hwf parent rp)).
    assert (Hcr : c <> res) by (intros ->; by apply (detached_not_child st Hwf res n parent rp)).
    rewrite (deref_ok _ _ _ Ec). cbn [obind]. rewrite (proj2 (Pos.eqb_neq c parent)) by done. cbn [negb].
    assert (Htc : tc (is_child st) parent c) by (apply tc_once; by exists rp).
    destruct (Z.land (r_flags rc) IORESOURCE_BUSY =? 0) eqn:Eb; zbool.
    2: { apply busy_outcome; [done|done|right]. split; [done|]. split; [done|by left]. }
    destruct (wf_child st Hwf parent rp c Hp Hin) as (rc' & Ec' & Epar & _).
    rewrite Ec in Ec'. injection Ec' as <-.
    destruct (IH c rc Ec Hcr) as (result & st' & E & Hro).
    { pose proof (deeper_child rank st parent c rc Ec (Hrank c rc parent Ec Epar)). lia. }
    eexists _, _. split; [done|]. assert (Hup : forall d rd, st !! d = Some rd -> blocks c d rd -> blocks parent d rd).
    { intros d rd Ed [[-> Hnf]|(Htcd & ? & ?)]; right; [simplify_eq; split; [done|]; split; [done|by right]|].
      split; [|done]. by etransitivity. }
    destruct Hro as [q rq i Hop Hq Eq Hroom|d rd Hdr Ed Hb Hm|d rd Hdr Ed Hb Hm].
    + eapply rg_granted; [|done..]. eapply opens_step; [done|done|done|by intros ?| |done].
      destruct Hroom. by apply (opens_fits c q rc rq).
    + by apply (rg_refused _ d rd); [| |apply Hup|].
    + by apply (rg_waits _ d rd); [| |apply Hup|].
Qed.

End Request.

(** ** No busy resource is overlapped *)

Lemma descendant_within st d x rd rx : wf_res st -> rtc (is_child st) d x ->
  st !! d = Some rd -> st !! x = Some rx -> within rx (r_start rd) (r_end rd).
Proof.
  intros Hwf Hr. revert rd. induction Hr as [d|d c x (rd' & Ed' & Hc) _ IH]; intros rd Ed Ex.
  { simplify_eq. unfold within. lia. }
  destruct (wf_child st Hwf d rd' c Ed' Hc) as (rc & Ec & _ & ? & ? & ?).
  specialize (IH rc Ec Ex). simplify_eq. unfold within in *. lia.
Qed.

(** Children of one resource overlap only when they are the same. *)
Lemma siblings_apart st p rp c d rc rd : wf_res st -> st !! p = Some rp ->
  c ∈ r_children rp -> d ∈ r_children rp -> st !! c = Some rc -> st !! d = Some rd -> c <> d ->
  r_end rc < r_start rd \/ r_end rd < r_start rc.
Proof.
  intros Hwf Hp Hc Hd Ec Ed Hne. pose proof (wr_sorted st Hwf p rp Hp) as Hs.
  induction Hs as [|x l Hs IH Hb]; [by apply elem_of_nil in Hc|]. rewrite Forall_forall in Hb.
  apply elem_of_cons in Hc as [->|Hc], Hd as [->|Hd]; [done| | |by apply IH].
  - left. by apply (Hb d).
  - right. by apply (Hb c).
Qed.

Lemma tc_first {A} (R : relation A) x z : tc R x z -> exists y, R x y /\ rtc R y z.
Proof. intros [x' y Hxy|x' y z' Hxy Hyz]; exists y; [done|]. split; [done|by apply tc_rtc]. Qed.

Lemma opens_safe st n p q rq i x rx : wf_res st -> opens st n p q -> st !! q = Some rq ->
  room st q rq n i -> tc (is_child st) p x -> st !! x = Some rx -> busy rx ->
  ~ overlaps rx (r_start n) (r_end n).
Proof.
  intros Hwf Ho Eq Hroom. induction Ho as [p|p rp c rc q Ep Hc Ec Hnb Hf Ho IH]; intros Htc Ex Hb [H1 H2].
  - apply tc_first in Htc as (d & (rp & Ep & Hd) & Hdx). simplify_eq.
    destruct (wf_child st Hwf p rq d Eq Hd) as (rd & Ed & _ & _).
    pose proof (descendant_within st d x rd rx Hwf Hdx Ed Ex) as [? ?].
    apply (elem_of_split i) in Hd as [Hd|Hd];
      [pose proof (ro_left _ _ _ _ _ Hroom d rd Hd Ed)|pose proof (ro_right _ _ _ _ _ Hroom d rd Hd Ed)]; lia.
  - apply tc_first in Htc as (d & (rp' & Ep' & Hd) & Hdx). simplify_eq.
    destruct (wf_child st Hwf p rp d Ep Hd) as (rd & Ed & _ & _).
    destruct (decide (d = c)) as [->|Hne].
    + apply rtc_tc in Hdx as [->|Hdx]; [simplify_eq; done|]. by apply IH.
    + pose proof (descendant_within st d x rd rx Hwf Hdx Ed Ex) as [? ?]. destruct Hf as (? & ? & ?).
      destruct (siblings_apart st p rp d c rd rc Hwf Ep Hd Hc Ed Ec Hne); lia.
Qed.

(** ** Releasing *)

Section Release.
Context (st : res_store) (Hwf : wf_res st) (n : resource) (Hn : r_start n <= r_end n).

Let s : Z := r_start n.
Let e : Z := r_end n.

(** Children before the one around the range are passed. *)
Lemma release_skip p rp t rt : st !! p = Some rp -> t ∈ r_children rp -> st !! t = Some rt ->
  fits rt n -> forall pre post fuel, (forall c, c ∈ pre -> c ∈ r_children rp /\ c <> t) ->
  release_region_loop (length pre + fuel) st p (pre ++ t :: post) s e
  = release_region_loop fuel st p (t :: post) s e.
Proof.
  intros Hp Ht Et (_ & Hf1 & Hf2) pre. induction pre as [|c pre IH]; intros post fuel Hpre; [done|].
  destruct (Hpre c ltac:(set_solver)) as [Hc Hne].
  destruct (wf_child st Hwf p rp c Hp Hc) as (rc & Ec & _ & _ & ? & _).
  cbn [length Nat.add app release_region_loop]. rewrite (deref_ok _ _ _ Ec). cbn [obind].
  destruct (siblings_apart st p rp c t rc rt Hwf Hp Hc Ht Ec Et Hne);
    (case_if; [subst s e; lia|]); apply IH; set_solver.
Qed.

Lemma children_size p rp : st !! p = Some rp -> (length (r_children rp) <= size st)%nat.
Proof.
  intros Hp. rewrite <- (size_dom st), <- (size_list_to_set (C := gset res_ref)).
  - apply subseteq_size. intros c Hc%elem_of_list_to_set. apply elem_of_dom.
    destruct (wf_child st Hwf p rp c Hp Hc) as (rc & Ec & _). by exists rc.
  - by apply (children_NoDup st Hwf p).
Qed.

(** Down the open way, and out. *)
Lemma release_loop_spec rank q rq res rres pre post :
  (forall c rc p, st !! c = Some rc -> r_parent rc = Some p -> (rank p < rank c)%nat) ->
  st !! q = Some rq -> r_children rq = pre ++ res :: post -> st !! res = Some rres ->
  r_start rres = s -> r_end rres = e -> busy rres ->
  forall p rp fuel, opens st n p q -> st !! p = Some rp ->
  (deeper rank st p * S (size st) + length (r_children rp) < fuel)%nat ->
  release_region_loop fuel st p (r_children rp) s e
  = Ok (true, free_resource (upd st q (fun r => set_children r (pre ++ post))) res).
Proof.
  intros Hrank Eq Hc Eres Es Ee Hb p rp fuel Ho. revert rp fuel.
  induction Ho as [q|p rp c rc q Ep Hin Ec Hnb Hf Ho IH]; intros rp0 fuel Ep0 Hfuel.
  - rewrite Eq in Ep0. injection Ep0 as <-.
    assert (Hin : res ∈ r_children rq) by (rewrite Hc; set_solver).
    pose proof (children_NoDup st Hwf q rq Eq) as Hnd. rewrite Hc in Hnd.
    apply NoDup_app in Hnd as (_ & Hx & _).
    assert (Hpre : forall c, c ∈ pre -> c ∈ r_children rq /\ c <> res).
    { intros c Hcp. rewrite Hc. split; [set_solver|]. intros ->. apply (Hx res Hcp). set_solver. }
    assert (res ∉ pre) by (intros Hcp; by destruct (Hpre res Hcp)).
    rewrite Hc in Hfuel |- *. rewrite length_app in Hfuel. cbn [length] in Hfuel.
    replace fuel with (length pre + S (fuel - length pre - 1))%nat by lia.
    rewrite (release_skip q rq res rres) by (done || unfold fits; lia).
    cbn [release_region_loop]. rewrite (deref_ok _ _ _ Eres). cbn [obind].
    rewrite Es, Ee, Z.leb_refl, Z.geb_leb, Z.leb_refl, !Z.eqb_refl. cbn [andb negb orb].
    rewrite (proj2 (Z.eqb_neq _ _)) by done.
    rewrite (deref_ok _ _ _ Eq). cbn [obind]. by rewrite Hc, unlink_app.
  - rewrite Ep in Ep0. injection Ep0 as <-.
    destruct (wf_child st Hwf p rp c Ep Hin) as (rc' & Ec' & Epar & _).
    rewrite Ec in Ec'. injection Ec' as <-.
    apply list_elem_of_split in Hin as (pre' & post' & Hs).
    pose proof (children_NoDup st Hwf p rp Ep) as Hnd. rewrite Hs in Hnd.
    apply NoDup_app in Hnd as (_ & Hx & _).
    assert (Hpre : forall d, d ∈ pre' -> d ∈ r_children rp /\ d <> c).
    { intros d Hdp. rewrite Hs. split; [set_solver|]. intros ->. apply (Hx c Hdp). set_solver. }
    pose proof (deeper_child rank st p c rc Ec (Hrank c rc p Ec Epar)) as Hdeep.
    pose proof (children_size c rc Ec) as Hsz.
    rewrite Hs in Hfuel |- *. rewrite length_app in Hfuel. cbn [length] in Hfuel.
    replace fuel with (length pre' + S (fuel - length pre' - 1))%nat by lia.
    rewrite (release_skip p rp c rc) by (done || rewrite Hs; set_solver).
    cbn [release_region_loop]. rewrite (deref_ok _ _ _ Ec). cbn [obind].
    destruct Hf as (_ & Hf1 & Hf2). case_if; [|subst s e; zbool; lia].
    assert (Z.land (r_flags rc) IORESOURCE_BUSY = 0) as ->
      by (destruct (decide (Z.land (r_flags rc) IORESOURCE_BUSY = 0)); [done|by destruct Hnb]).
    cbn [Z.eqb]. apply (IH Eq rc); [done|nia].
Qed.

End Release.

(** ** Asking and releasing together *)

Section RoundTrip.
Context (st0 : res_store) (Hwf0 : wf_res st0) (res : res_ref) (Hfresh : st0 !! res = None).
Context (n : resource) (Hpar : r_parent n = None) (Hch : r_children n = []).

Let st : res_store := <[res := n]> st0.

Lemma fresh_detached : detached st res n.
Proof. split; [apply lookup_insert_eq|done|done]. Qed.

Lemma fresh_other x : x <> res -> st !! x = st0 !! x.
Proof. intros. by apply lookup_insert_ne. Qed.

Lemma fresh_not_child p rp : st0 !! p = Some rp -> res ∉ r_children rp.
Proof.
  intros Ep Hin. destruct (wf_child st0 Hwf0 p rp res Ep Hin) as (rc & Ec & _). congruence.
Qed.

Lemma fresh_wf : wf_res st.
Proof.
  assert (Hback : forall x rx, st !! x = Some rx -> x <> res -> st0 !! x = Some rx)
    by (intros x rx Ex Hx; by rewrite fresh_other in Ex).
  assert (En : st !! res = Some n) by apply lookup_insert_eq. split.
  - intros q rq Eq. destruct (decide (q = res)) as [->|Hq].
    { rewrite En in Eq. injection Eq as <-. rewrite Hch. constructor. }
    apply Hback in Eq; [|done]. apply Forall_forall. intros c Hc.
    destruct (wf_child st0 Hwf0 q rq c Eq Hc) as (rc & Ec & ? & ? & ? & ?).
    apply (child_ok_intro _ _ _ _ rc); try done. rewrite fresh_other; [done|]. congruence.
  - intros q rq Eq. destruct (decide (q = res)) as [->|Hq].
    { rewrite En in Eq. injection Eq as <-. rewrite Hch. constructor. }
    apply Hback in Eq; [|done]. apply (sorted_ext st0); [|by apply (wr_sorted st0 Hwf0 q)].
    intros x Hx. unfold rng. rewrite fresh_other; [done|]. intros ->. by apply (fresh_not_child q rq).
  - intros c rc q Ec Epar. destruct (decide (c = res)) as [->|Hc]; [congruence|].
    apply Hback in Ec; [|done]. destruct (wr_listed st0 Hwf0 c rc q Ec Epar) as (rq & Eq & Hin).
    exists rq. split; [|done]. rewrite fresh_other; [done|]. congruence.
  - destruct (wr_rank st0 Hwf0) as [rank Hrank]. exists rank. intros c rc q Ec Epar.
    destruct (decide (c = res)) as [->|Hc]; [congruence|]. apply Hback in Ec; [|done].
    by apply (Hrank c rc).
Qed.

Lemma opens_from_fresh q : opens st n res q -> q = res.
Proof.
  intros Ho. inversion Ho as [|? rp c rc ? E0 Hin]; [done|].
  rewrite (de_lookup _ _ _ fresh_detached) in E0. injection E0 as <-. rewrite Hch in Hin.
  by apply elem_of_nil in Hin.
Qed.

(** The open way is still there after linking at its end. *)
Lemma opens_link p q rq i : st !! q = Some rq -> q <> res -> opens st n p q ->
  opens (link st q res i) n p q.
Proof.
  intros Eq Hq Ho. pose proof fresh_detached as Hd.
  induction Ho as [q|p rp c rc q Ep Hin Ec Hnb Hf Ho IH]; [constructor|].
  assert (Hcr : c <> res).
  { intros ->. by apply (detached_not_child st fresh_wf res n p rp). }
  assert (Hl : forall x rx, x <> res -> st !! x = Some rx -> exists rx', link st q res i !! x = Some rx'
    /\ r_start rx' = r_start rx /\ r_end rx' = r_end rx /\ r_flags rx' = r_flags rx
    /\ forall d, d ∈ r_children rx -> d ∈ r_children rx').
  { intros x rx Hx Ex. destruct (decide (x = q)) as [->|Hxq].
    - rewrite (link_root st q res rq) by done. simplify_eq. eexists. split; [done|].
      split_and!; try done. intros d Hdx. cbn. apply (elem_of_split i) in Hdx. set_solver.
    - rewrite link_other by done. by exists rx. }
  assert (Hpr : p <> res).
  { intros ->. rewrite (de_lookup _ _ _ Hd) in Ep. injection Ep as <-. rewrite Hch in Hin.
    by apply elem_of_nil in Hin. }
  destruct (Hl p rp Hpr Ep) as (rp' & Ep' & _ & _ & _ & Hsub).
  destruct (Hl c rc Hcr Ec) as (rc' & Ec' & Es & Ee & Ef & _).
  apply (opens_step _ _ p rp' c rc'); [done|by apply Hsub|done| | |by apply IH].
  - unfold busy in *. by rewrite Ef.
  - unfold fits in *. by rewrite Es, Ee.
Qed.

(** Releasing what was granted gives the old store. *)
Lemma release_granted p rp q rq i : st !! p = Some rp -> opens st n p q -> q <> res ->
  st !! q = Some rq -> room st q rq n i -> busy n ->
  exists rp', link st q res i !! p = Some rp'
    /\ release_region_loop (S (size (link st q res i)) * S (size (link st q res i)))
         (link st q res i) p (r_children rp') (r_start n) (r_end n)
       = Ok (true, st0).
Proof.
  intros Ep Ho Hq Eq Hroom Hb. pose proof fresh_detached as Hd. pose proof fresh_wf as Hwf.
  assert (Hwf' : wf_res (link st q res i)) by (by eapply link_wf).
  assert (exists rp', link st q res i !! p = Some rp') as [rp' Ep'].
  { assert (p <> res); [|destruct (link_up st q res rq i Eq ltac:(done) p rp) as (rp' & ? & _); eauto].
    intros ->. by apply Hq, opens_from_fresh. }
  exists rp'. split; [done|]. destruct (wr_rank _ Hwf') as [rank Hrank].
  rewrite (release_loop_spec (link st q res i) Hwf' n (ro_order _ _ _ _ _ Hroom) rank q
    (set_children rq (take i (r_children rq) ++ res :: drop i (r_children rq))) res
    (set_parent n (Some q)) (take i (r_children rq)) (drop i (r_children rq))); try done.
  - f_equal. f_equal. unfold free_resource. apply map_eq. intros x.
    destruct (decide (x = res)) as [->|Hx]; [by rewrite lookup_delete_eq|].
    rewrite lookup_delete_ne by done. rewrite <- fresh_other by done.
    destruct (decide (x = q)) as [->|Hxq].
    + rewrite lookup_upd_eq, (link_root st q res rq), Eq by done. cbn. f_equal.
      rewrite take_drop. by destruct rq.
    + by rewrite lookup_upd_ne, link_other.
  - by apply (link_root st q res rq).
  - by apply (link_new st q res n).
  - by apply opens_link with rq.
  - pose proof (children_size _ Hwf' p rp' Ep'). pose proof (deeper_size rank (link st q res i) p). nia.
Qed.

End RoundTrip.
