(* ===== verification/ResourceProps.v ===== *)
(** * The properties of resource trees *)

From stdpp Require Import gmap.
From Stdlib Require Import Sorting.Sorted.
From S2P Require Import Prelude Resource ResourceFacts ResourceInsert ResourceAlloc ResourceRegion.

(** Requesting a range below a well-formed resource: it succeeds exactly
    when the range is not empty, lies inside and overlaps no child; then the
    tree stays well formed, only the parent's list and the new descriptor
    change, and releasing restores the store exactly; otherwise it is -EBUSY
    and nothing changes. *)
Theorem request_resource_correct st root new r n :
  wf_res st -> st !! root = Some r -> detached st new n -> new <> root ->
  let free := fits r n /\ forall c rc, c ∈ r_children r -> st !! c = Some rc ->
                            ~ overlaps rc (r_start n) (r_end n) in
  (free -> exists st', request_resource st root new = Ok (0, st') /\ wf_res st'
     /\ st' !! new = Some (set_parent n (Some root))
     /\ (forall x, x <> new -> x <> root -> st' !! x = st !! x)
     /\ release_resource st' new = Ok (0, st))
  /\ (~ free -> request_resource st root new = Ok (- EBUSY, st)).
Proof.
  intros Hwf Hr Hd Hne free. unfold request_resource, request_resource_conflict.
  destruct (request_spec st root new r n Hwf Hr (de_lookup _ _ _ Hd)) as (conflict & st' & -> & Ho).
  cbn [obind]. split.
  - intros [Hf Hno]. destruct Ho as [i Hroom|Hout|c rc pre post _ Hc Ec Hov _]; [|done|].
    + eexists. split; [done|]. split; [by eapply link_wf|]. split; [by apply link_new|].
      split; [intros; by apply link_other|].
      assert (Hnc : new ∉ take i (r_children r)).
      { intros Hin. apply (detached_not_child st Hwf new n root r Hd Hr).
        apply (elem_of_split i). by left. }
      rewrite (release_spec _ new (set_parent n (Some root)) root
        (set_children r (take i (r_children r) ++ new :: drop i (r_children r)))
        (take i (r_children r)) (drop i (r_children r)));
        [|by apply link_new|done|by apply link_root|done|done].
      by rewrite (cut_link st root new r n).
    + destruct (Hno c rc); [rewrite Hc; set_solver|done|done].
  - intros Hnf. destruct Ho as [i [? ? ? Hl Hg]|Hout|c rc pre post _ Hc Ec Hov _]; [|done|done].
    destruct Hnf. split; [done|]. intros c rc [Hc|Hc]%(elem_of_split i) Ec [? ?];
      [specialize (Hl c rc Hc Ec)|specialize (Hg c rc Hc Ec)]; lia.
Qed.

(** Where an insertion went: below [p], instead of the children it covers. *)
Record inserted (st : res_store) (parent new : res_ref) (n : resource) (st' : res_store)
    (p : res_ref) (rq : resource) (n' : resource) : Prop := {
  is_below : rtc (is_child st) parent p;
  is_around : st !! p = Some rq /\ fits rq n;
  is_new : st' !! new = Some n' /\ r_parent n' = Some p;
  is_apart : forall c rc, c ∈ r_children rq -> st !! c = Some rc ->
    within rc (r_start n) (r_end n) \/ ~ overlaps rc (r_start n) (r_end n);
  is_children : forall c rc, st !! c = Some rc ->
    c ∈ r_children n' <-> c ∈ r_children rq /\ within rc (r_start n) (r_end n)
}.

Lemma outcome_inserted st parent new n st' : wf_res st -> detached st new n ->
  insert_outcome st parent new n None st' -> exists p rq n', inserted st parent new n st' p rq n'.
Proof.
  intros Hwf Hd Ho. inversion Ho as [p rp i Hr Hne Hp Hroom|p rp L A R Hr Hne Hp Hcv| |]; subst.
  - destruct Hroom as [H1 H2 H3 Hl Hg].
    assert (Hap : forall c rc, c ∈ r_children rp -> st !! c = Some rc ->
      r_start rc <= r_end rc /\ ~ overlaps rc (r_start n) (r_end n)).
    { intros c rc Hc Ec. destruct (wf_child st Hwf p rp c Hp Hc) as (rc' & Ec' & _ & _ & ? & _). simplify_eq.
      split; [done|]. apply (elem_of_split i) in Hc as [Hc|Hc];
        [specialize (Hl c _ Hc Ec)|specialize (Hg c _ Hc Ec)]; unfold overlaps; lia. }
    exists p, rp, (set_parent n (Some p)). split; [done|done|by split; [apply link_new|]| |].
    + intros c rc Hc Ec. right. by apply (Hap c rc).
    + intros c rc Ec. cbn. rewrite (de_children _ _ _ Hd). split; [by intros ?%elem_of_nil|].
      intros [Hc [? ?]]. destruct (Hap c rc Hc Ec) as [? Hno]. destruct Hno. unfold overlaps. lia.
  - pose proof Hcv as [Hs Hf _ Hl Hin Hr'].
    exists p, rp, (set_children (set_parent n (Some p)) A).
    split; [done|done|by split; [eapply adopted_new|]| |].
    + intros c rc Hc Ec. rewrite Hs, !elem_of_app in Hc. destruct Hc as [Hc|[Hc|Hc]].
      * right. specialize (Hl c rc Hc Ec). unfold overlaps. lia.
      * left. by apply (Hin c).
      * right. specialize (Hr' c rc Hc Ec). unfold overlaps. lia.
    + intros c rc Ec. cbn. rewrite Hs, !elem_of_app. split; [naive_solver|].
      intros [Hc [? ?]]. destruct (wf_child st Hwf p rp c Hp) as (rc' & Ec' & _ & _ & ? & _);
        [rewrite Hs, !elem_of_app; done|]. simplify_eq. destruct Hf as (? & ? & ?).
      destruct Hc as [Hc|[Hc|Hc]]; [specialize (Hl c _ Hc Ec); lia|done|specialize (Hr' c _ Hc Ec); lia].
Qed.

(** C27. [insert_resource] always returns.  On success the tree is well formed,
    every range is what it was, and the new resource hangs below the innermost
    resource around it, with exactly the children it covers as its own.
    Otherwise it is -EBUSY, the store is unchanged, and the range leaves the
    parent or cuts through a resource below it: they overlap and neither
    contains the other. *)
Theorem insert_resource_correct st parent new rp n :
  wf_res st -> detached st new n -> st !! parent = Some rp -> parent <> new ->
  (exists st' p rq n', insert_resource st parent new = Ok (0, st') /\ wf_res st'
     /\ (forall x, rng st' x = rng st x) /\ inserted st parent new n st' p rq n')
  \/ (insert_resource st parent new = Ok (- EBUSY, st)
     /\ (~ fits rp n \/ exists p c rc, rtc (is_child st) parent p /\ is_child st p c
           /\ st !! c = Some rc /\ partial rc (r_start n) (r_end n))).
Proof.
  intros Hwf Hd Hp Hne. unfold insert_resource, insert_resource_conflict.
  destruct (insert_spec st parent new rp n Hwf Hd Hp Hne) as (conflict & st' & -> & Ho). cbn [obind].
  destruct conflict as [c|].
  - right. inversion Ho as [| |rp' Ep Hf|p c' rc Hrtc Hpc Ec Hpart]; subst; (split; [done|]).
    + left. congruence.
    + right. eauto 10.
  - left. destruct (outcome_inserted st parent new n st' Hwf Hd Ho) as (p & rq & n' & Hi).
    exists st', p, rq, n'. split; [done|]. split; [by eapply insert_outcome_wf|].
    split; [by eapply insert_outcome_new|done].
Qed.

(** [insert_resource_expand_to_fit] ends after at most one round per
    resource of the store: the new resource, grown to cover what it cut, is in
    a well-formed tree or outside of the root, and no other range changes. *)
Theorem insert_expand_terminates st root new rr n :
  wf_res st -> detached st new n -> st !! root = Some rr -> root <> new ->
  exists st', insert_resource_expand_to_fit st root new = Ok st' /\ expanded st root new n st'.
Proof.
  intros Hwf Hd Hr Hne. unfold insert_resource_expand_to_fit.
  rewrite (deref_ok _ _ _ (de_lookup _ _ _ Hd)). cbn [obind]. rewrite (de_parent _ _ _ Hd).
  apply (expand_loop_spec root _ st new n rr); [done..|apply uncovered_size].
Qed.

(** Allocation below a resource: it hands out the lowest aligned range of
    the size between the bounds that overlaps no child, linked into a tree
    that stays well formed, and fails with -EBUSY and no change exactly when
    there is none, as long as address arithmetic does not wrap. *)
Theorem allocate_resource_correct st root r new n k size min max :
  wf_res st -> st !! root = Some r -> detached st new n -> new <> root ->
  0 <= k < 64 -> 1 <= size -> 0 <= r_start r <= r_end r -> 0 <= min ->
  Z.max (r_end r + 1) min + 2 ^ k + size <= U64_MAX ->
  (exists s st', allocate_resource st root new size min max (2 ^ k) None = Ok (0, st')
     /\ slot st r k size min max s /\ (forall s', slot st r k size min max s' -> s <= s')
     /\ wf_res st'
     /\ st' !! new = Some (set_parent (set_range n s (s + size - 1)) (Some root))
     /\ forall x, x <> new -> x <> root -> st' !! x = st !! x)
  \/ (allocate_resource st root new size min max (2 ^ k) None = Ok (- EBUSY, st)
     /\ forall s, ~ slot st r k size min max s).
Proof. apply allocate_spec. Qed.

(** The resource [c] keeps the range from being granted below [parent]. *)
Definition in_the_way (st : res_store) (parent c : res_ref) (rc : resource) (start end_ : Z) : Prop :=
  c = parent /\ ~ (r_start rc <= start /\ end_ <= r_end rc)
  \/ tc (is_child st) parent c /\ overlaps rc start end_
     /\ (busy rc \/ ~ (r_start rc <= start /\ end_ <= r_end rc)).

Lemma region_busy f g : Z.land (Z.lor f (Z.lor IORESOURCE_BUSY g)) IORESOURCE_BUSY <> 0.
Proof.
  intros E. apply (f_equal (fun x => Z.testbit x 31)) in E.
  rewrite Z.land_spec, !Z.lor_spec, Z.bits_0 in E.
  change (Z.testbit IORESOURCE_BUSY 31) with true in E.
  rewrite orb_true_l, orb_true_r, andb_true_r in E. done.
Qed.

(** C28. Asking for a busy region, up to the first sleep: the call always comes
    to an answer.  A region granted without a sleep overlaps no busy resource
    below the parent, leaves the tree well formed, and releasing it restores
    the store exactly.  It is refused, and the store then is as before, only
    when there is no memory for it or when it leaves the parent or meets a
    resource below the parent that is busy or does not contain it.  The call
    sleeps only for such a resource, when both are muxed; what it does when it
    is woken is not part of this statement, and [muxed_region_granted_twice]
    shows that it can then grant a range in use. *)
Theorem request_region_correct st parent rp res start n name flags :
  wf_res st -> st !! parent = Some rp -> st !! res = None -> 1 <= n ->
  0 <= start -> start + n - 1 <= U64_MAX ->
  __request_region st None parent start n name flags = Ok (Refused, st)
  /\ exists result st', __request_region st (Some res) parent start n name flags = Ok (result, st')
    /\ match result with
       | Granted x => x = res /\ wf_res st'
           /\ (forall y ry, tc (is_child st) parent y -> st !! y = Some ry -> busy ry ->
                 ~ overlaps ry start (start + n - 1))
           /\ __release_region st' parent start n = Ok (true, st)
       | Refused => st' = st /\ exists c rc, st !! c = Some rc /\ in_the_way st parent c rc start (start + n - 1)
       | Waits c => exists rc, st !! c = Some rc /\ in_the_way st parent c rc start (start + n - 1)
           /\ Z.land (Z.land (r_flags rc) flags) IORESOURCE_MUXED <> 0
           /\ forall x, x <> res -> st' !! x = st !! x
       end.
Proof.
  intros Hwf Hp Hfresh Hn Hs Hmax. split; [done|]. unfold __request_region. rewrite (deref_ok _ _ _ Hp). cbn [obind].
  rewrite u64_id by lia. set (r := Res _ _ _ _ _ _). set (st1 := <[res := r]> st).
  assert (Hpr : parent <> res) by congruence.
  assert (Hd : detached st1 res r) by (by apply fresh_detached).
  assert (Hwf1 : wf_res st1) by (by apply fresh_wf).
  assert (Hp1 : st1 !! parent = Some rp) by (subst st1; by rewrite lookup_insert_ne).
  destruct (wr_rank _ Hwf1) as [rank Hrank].
  destruct (request_region_loop_spec st1 Hwf1 res r flags Hd rank Hrank (size st1) parent rp Hp1 Hpr)
    as (result & st' & -> & Ho); [by apply (deeper_lt_size rank st1 parent rp)|].
  assert (Hback : forall a b, is_child st1 a b -> is_child st a b).
  { intros a b (ra & Ea & Hin). exists ra. split; [|done]. subst st1.
    apply lookup_insert_Some in Ea as [[_ <-]|[_ ?]]; [by apply elem_of_nil in Hin|done]. }
  assert (Hway : forall c rc, blocks st1 r parent c rc -> in_the_way st parent c rc start (start + n - 1)).
  { intros c rc [[-> Hnf]|(Htc & Hov & Hb)]; [left|right]; unfold fits in *; cbn in *.
    - split; [done|]. lia.
    - split; [revert Htc; apply (tc_congruence id); exact Hback|]. split; [done|].
      destruct Hb as [?|Hnf]; [by left|right]. lia. }
  eexists _, _. split; [done|]. destruct Ho as [q rq i Hop Hq Eq Hroom|c rc Hc Ec Hb Hm|c rc Hc Ec Hb Hm].
  - split; [done|]. split; [by eapply link_wf|]. split.
    + intros y ry Htc Ey Hb. assert (y <> res) by congruence.
      apply (opens_safe st1 r parent q rq i y ry); try done; [|by subst st1; rewrite lookup_insert_ne].
      revert Htc. apply (tc_congruence id). intros a b (ra & Ea & Hin). exists ra.
      split; [|done]. subst st1. unfold id. rewrite lookup_insert_ne; [done|congruence].
    + assert (Hb : busy r) by apply region_busy.
      destruct (release_granted st Hwf res Hfresh r eq_refl eq_refl parent rp q rq i Hp1 Hop Hq Eq Hroom Hb)
        as (rp' & Ep' & Hrel).
      fold st1 in Ep', Hrel. unfold __release_region. rewrite (deref_ok _ _ _ Ep'). cbn [obind]. rewrite u64_id by lia. exact Hrel.
  - split; [subst st1; unfold free_resource; by rewrite delete_insert_id|]. exists c, rc.
    split; [subst st1; by rewrite lookup_insert_ne in Ec|by apply Hway].
  - exists rc. split; [subst st1; by rewrite lookup_insert_ne in Ec|]. split; [by apply Hway|]. split; [done|].
    intros x Hx. subst st1. by rewrite lookup_insert_ne.
Qed.

(** ** Where the code departs from its description *)

(** A root with a bus window in it, and a descriptor to insert. *)
Definition tree_store (free : resource) : res_store :=
  {[ 1%positive := Res 0 65535 [] IORESOURCE_MEM None [2%positive];
     2%positive := Res 4096 8191 [] IORESOURCE_MEM (Some 1%positive) [];
     3%positive := free ]}.

(** System RAM above another resource. *)
Definition ram_store : res_store :=
  {[ 1%positive := Res 0 65535 [] IORESOURCE_MEM None [2%positive; 3%positive];
     2%positive := Res 0 4095 [] IORESOURCE_MEM (Some 1%positive) [];
     3%positive := Res 8192 16383 system_ram (Z.lor IORESOURCE_MEM IORESOURCE_BUSY)
                     (Some 1%positive) [] ]}.

(** [region_is_ram] gives up at the first resource below the region and so
    misses the RAM that contains it, and a region that is found is never RAM
    where [long] has 64 bits. *)
Example region_is_ram_misses :
  region_is_ram 32 ram_store 1 8192 4096 = Ok (-1)
  /\ (let st := <[1%positive := Res 0 65535 [] IORESOURCE_MEM None [3%positive]]> ram_store in
      region_is_ram 32 st 1 8192 4096 = Ok 1 /\ region_is_ram 64 st 1 8192 4096 = Ok 0).
Proof. vm_compute. split_and!; reflexivity. Qed.

(** A muxed region in use. *)
Definition muxed_store : res_store :=
  {[ 1%positive := Res 0 65535 [] 256 None [2%positive];
     2%positive := Res 256 511 [] (Z.lor 256 (Z.lor IORESOURCE_BUSY IORESOURCE_MUXED))
                     (Some 1%positive) [] ]}.

(** A task that waits for a muxed region goes on below that region: woken
    while it is still in use, it is granted the same range. *)
Example muxed_region_granted_twice :
  exists st, __request_region muxed_store (Some 3%positive) 1 256 256 [] IORESOURCE_MUXED
             = Ok (Waits 2, st)
    /\ exists st', request_region_resume st 2 3 IORESOURCE_MUXED = Ok (Granted 3, st')
    /\ rng st' 3 = rng st' 2.
Proof. eexists. split; [vm_compute; reflexivity|]. eexists. split; vm_compute; reflexivity. Qed.

(** Woken because the region was released, it goes on with a descriptor that
    has been freed. *)
Example muxed_wait_dangling :
  exists st st', __request_region muxed_store (Some 3%positive) 1 256 256 [] IORESOURCE_MUXED
                 = Ok (Waits 2, st)
    /\ __release_region st 1 256 256 = Ok (true, st')
    /\ request_region_resume st' 2 3 IORESOURCE_MUXED = Bug.
Proof. eexists _, _. split; [vm_compute; reflexivity|]. split; [vm_compute; reflexivity|]. vm_compute. reflexivity. Qed.

(** ** Witnesses *)

Lemma tree_lookup free p r : tree_store free !! p = Some r ->
  p = 1%positive /\ r = Res 0 65535 [] IORESOURCE_MEM None [2%positive]
  \/ p = 2%positive /\ r = Res 4096 8191 [] IORESOURCE_MEM (Some 1%positive) []
  \/ p = 3%positive /\ r = free.
Proof.
  unfold tree_store. intros [[<- <-]|[_ E]]%lookup_insert_Some; [tauto|].
  apply lookup_insert_Some in E as [[<- <-]|[_ E]]; [tauto|].
  apply lookup_singleton_Some in E as [<- <-]. tauto.
Qed.

Lemma tree_wf free : r_parent free = None -> r_children free = [] -> wf_res (tree_store free).
Proof.
  intros Hp Hc. split.
  - intros p r [[-> ->]|[[-> ->]|[-> ->]]]%tree_lookup; [|constructor|rewrite Hc; constructor].
    apply Forall_singleton. eapply child_ok_intro; [reflexivity|done|cbn; lia..].
  - intros p r [[-> ->]|[[-> ->]|[-> ->]]]%tree_lookup; [|constructor|rewrite Hc; constructor].
    constructor; constructor.
  - intros c rc p [[-> ->]|[[-> ->]|[-> ->]]]%tree_lookup Ep; [done| |congruence].
    injection Ep as <-. eexists. split; [reflexivity|]. cbn. set_solver.
  - exists Pos.to_nat. intros c rc p [[-> ->]|[[-> ->]|[-> ->]]]%tree_lookup Ep; [done| |congruence].
    injection Ep as <-. lia.
Qed.

Definition tree_new (start end_ : Z) : resource := Res start end_ [] IORESOURCE_MEM None [].

Lemma request_resource_correct_witness :
  exists st', request_resource (tree_store (tree_new 0 4095)) 1 3 = Ok (0, st') /\ wf_res st'
    /\ release_resource st' 3 = Ok (0, tree_store (tree_new 0 4095)).
Proof.
  destruct (request_resource_correct (tree_store (tree_new 0 4095)) 1 3
    (Res 0 65535 [] IORESOURCE_MEM None [2%positive]) (tree_new 0 4095)) as [Hok _];
    [by apply tree_wf|reflexivity|by split|done|].
  destruct Hok as (st' & E & Hwf & _ & _ & Hr).
  - split; [unfold fits; cbn; lia|]. intros c rc ->%list_elem_of_singleton Ec.
    apply tree_lookup in Ec as [[? ->]|[[? ->]|[? ->]]]; [done| |done]. unfold overlaps. cbn. lia.
  - exists st'. split; [exact E|]. split; [exact Hwf|exact Hr].
Defined.

Lemma insert_resource_correct_witness :
  exists st' p rq n', insert_resource (tree_store (tree_new 0 16383)) 1 3 = Ok (0, st')
    /\ inserted (tree_store (tree_new 0 16383)) 1 3 (tree_new 0 16383) st' p rq n'.
Proof.
  destruct (insert_resource_correct (tree_store (tree_new 0 16383)) 1 3
    (Res 0 65535 [] IORESOURCE_MEM None [2%positive]) (tree_new 0 16383))
    as [(st' & p & rq & n' & E & _ & _ & Hi)|[E _]];
    [by apply tree_wf|by split|reflexivity|done| |].
  - exists st', p, rq, n'. split; [exact E|exact Hi].
  - vm_compute in E. discriminate E.
Defined.

Lemma insert_expand_terminates_witness :
  exists st', insert_resource_expand_to_fit (tree_store (tree_new 0 5000)) 1 3 = Ok st'
    /\ expanded (tree_store (tree_new 0 5000)) 1 3 (tree_new 0 5000) st'.
Proof.
  apply (insert_expand_terminates (tree_store (tree_new 0 5000)) 1 3
    (Res 0 65535 [] IORESOURCE_MEM None [2%positive]) (tree_new 0 5000));
    [by apply tree_wf|by split|reflexivity|done].
Defined.

Lemma allocate_resource_correct_witness :
  (exists s st', allocate_resource (tree_store (tree_new 0 0)) 1 3 8192 0 65535 (2 ^ 12) None
                 = Ok (0, st')
     /\ slot (tree_store (tree_new 0 0)) (Res 0 65535 [] IORESOURCE_MEM None [2%positive])
          12 8192 0 65535 s)
  \/ allocate_resource (tree_store (tree_new 0 0)) 1 3 8192 0 65535 (2 ^ 12) None
     = Ok (- EBUSY, tree_store (tree_new 0 0)).
Proof.
  destruct (allocate_resource_correct (tree_store (tree_new 0 0)) 1
    (Res 0 65535 [] IORESOURCE_MEM None [2%positive]) 3 (tree_new 0 0) 12 8192 0 65535)
    as [(s & st' & E & Hs & _)|[E _]];
    [by apply tree_wf|reflexivity|by split|done|lia|lia|cbn; lia|lia|vm_compute; congruence| |].
  - left. exists s, st'. split; [exact E|exact Hs].
  - right. exact E.
Defined.

Lemma request_region_correct_witness :
  exists st', __request_region (tree_store (tree_new 0 0)) (Some 4%positive) 1 4096 256 [] 0
              = Ok (Granted 4, st')
    /\ __release_region st' 1 4096 256 = Ok (true, tree_store (tree_new 0 0)).
Proof.
  destruct (request_region_correct (tree_store (tree_new 0 0)) 1
    (Res 0 65535 [] IORESOURCE_MEM None [2%positive]) 4 4096 256 [] 0)
    as (_ & result & st' & E & Hr); [by apply tree_wf|reflexivity|reflexivity|lia|lia|vm_compute; congruence|].
  pose proof E as E'. vm_compute in E'. injection E' as E1 _. exists st'. rewrite <- E1 in E, Hr.
  split; [exact E|apply Hr].
Defined.
