(* ===== verification/Locks.v ===== *)
(** * File locks (fs/locks.c)

    The list of locks of an inode, [i_flock], with the requests that wait for a
    lock in its [fl_block] list.  Lock managers ([fl_lmops]) and filesystem
    methods ([fl_ops], the [lock] method of a file) are absent, as for locks
    taken through the system calls on a local filesystem.  Offsets are [Z]:
    the code only computes [start - 1] and [end + 1] below another lock's end,
    which do not leave [loff_t] for offsets between 0 and OFFSET_MAX. *)

From stdpp Require Import list.
From S2P Require Import Prelude.

Definition FL_POSIX : Z := 1.
Definition FL_FLOCK : Z := 2.
Definition FL_DELEG : Z := 4.
Definition FL_ACCESS : Z := 8.
Definition FL_EXISTS : Z := 16.
Definition FL_LEASE : Z := 32.
Definition FL_CLOSE : Z := 64.
Definition FL_SLEEP : Z := 128.
Definition FL_OFDLCK : Z := 1024.
Definition FILE_LOCK_DEFERRED : Z := 1.
Definition OFFSET_MAX : Z := 9223372036854775807.

Definition F_RDLCK : Z := 0.
Definition F_WRLCK : Z := 1.
Definition F_UNLCK : Z := 2.

Definition LOCK_SH : Z := 1.
Definition LOCK_EX : Z := 2.
Definition LOCK_UN : Z := 8.
Definition LOCK_MAND : Z := 32.
Definition LOCK_RW : Z := 192.

(** An owner is the address of a files_struct or of an open file; a file is
    the address of an open file, 0 for NULL. *)
#[warnings="-register-all"] Inductive file_lock := FileLock {
  fl_owner : Z; fl_pid : Z; fl_file : Z; fl_flags : Z; fl_type : Z;
  fl_start : Z; fl_end : Z; fl_block : list file_lock
}.

Definition has_flag (fl : file_lock) (flag : Z) : bool := negb (Z.land (fl_flags fl) flag =? 0).
Definition IS_POSIX (fl : file_lock) : bool := has_flag fl FL_POSIX.
Definition IS_FLOCK (fl : file_lock) : bool := has_flag fl FL_FLOCK.
Definition IS_LEASE (fl : file_lock) : bool := has_flag fl (Z.lor FL_LEASE FL_DELEG).
Definition IS_OFDLCK (fl : file_lock) : bool := has_flag fl FL_OFDLCK.

Definition lock_range (fl : file_lock) (start end_ : Z) : file_lock :=
  FileLock (fl_owner fl) (fl_pid fl) (fl_file fl) (fl_flags fl) (fl_type fl) start end_ (fl_block fl).
Definition lock_type (fl : file_lock) (type : Z) : file_lock :=
  FileLock (fl_owner fl) (fl_pid fl) (fl_file fl) (fl_flags fl) type (fl_start fl) (fl_end fl)
    (fl_block fl).
Definition lock_block (fl : file_lock) (block : list file_lock) : file_lock :=
  FileLock (fl_owner fl) (fl_pid fl) (fl_file fl) (fl_flags fl) (fl_type fl) (fl_start fl) (fl_end fl)
    block.

(** Into a structure whose waiters are [fl_block new]. *)
Definition locks_copy_conflock (new fl : file_lock) : file_lock :=
  FileLock (fl_owner fl) (fl_pid fl) 0 (fl_flags fl) (fl_type fl) (fl_start fl) (fl_end fl)
    (fl_block new).

(** Into a freshly initialised structure. *)
Definition locks_copy_lock (fl : file_lock) : file_lock :=
  FileLock (fl_owner fl) (fl_pid fl) (fl_file fl) (fl_flags fl) (fl_type fl) (fl_start fl)
    (fl_end fl) [].

(** ** From and to user space *)

Definition flock_translate_cmd (cmd : Z) : Z :=
  if negb (Z.land cmd LOCK_MAND =? 0) then Z.land cmd (Z.lor LOCK_MAND LOCK_RW)
  else if cmd =? LOCK_SH then F_RDLCK
  else if cmd =? LOCK_EX then F_WRLCK
  else if cmd =? LOCK_UN then F_UNLCK
  else - EINVAL.

(** [filp], the thread group and whether memory was available. *)
Definition flock_make_lock (filp tgid : Z) (memory : bool) (cmd : Z) : Z + file_lock :=
  let type := flock_translate_cmd cmd in
  if type <? 0 then inl type
  else if negb memory then inl (- ENOMEM)
  else inr (FileLock filp tgid filp FL_FLOCK type 0 OFFSET_MAX []).

Definition assign_type (fl : file_lock) (type : Z) : Z + file_lock :=
  if (type =? F_RDLCK) || (type =? F_WRLCK) || (type =? F_UNLCK)
  then inr (lock_type fl type) else inl (- EINVAL).

(** struct flock64, and struct flock where [long] has 64 bits. *)
Record flock64 := Flock64 {
  l_type : Z; l_whence : Z; l_start : Z; l_len : Z; l_pid : Z
}.

(** What the conversion reads of the caller and the file. *)
Record lock_caller := LockCaller {
  lc_filp : Z; lc_pos : Z; lc_size : Z; lc_files : Z; lc_tgid : Z
}.

Definition flock64_to_posix_lock (c : lock_caller) (l : flock64) : Z + file_lock :=
  match (if l_whence l =? 0 then Some 0
         else if l_whence l =? 1 then Some (lc_pos c)
         else if l_whence l =? 2 then Some (lc_size c)
         else None) with
  | None => inl (- EINVAL)
  | Some start =>
      if l_start l >? OFFSET_MAX - start then inl (- EOVERFLOW)
      else
        let start := s64 (start + l_start l) in
        if start <? 0 then inl (- EINVAL)
        else
          let range :=
            if l_len l >? 0 then
              if l_len l - 1 >? OFFSET_MAX - start then inl (- EOVERFLOW)
              else inr (start, s64 (start + l_len l - 1))
            else if l_len l <? 0 then
              if s64 (start + l_len l) <? 0 then inl (- EINVAL)
              else inr (s64 (start + l_len l), start - 1)
            else inr (start, OFFSET_MAX) in
          match range with
          | inl error => inl error
          | inr (start, end_) =>
              assign_type (FileLock (lc_files c) (lc_tgid c) (lc_filp c) FL_POSIX 0 start end_ [])
                (l_type l)
          end
  end.

(** The result for a 64-bit [long]; the caller's other fields are kept. *)
Definition posix_lock_to_flock (fl : file_lock) : flock64 :=
  Flock64 (fl_type fl) 0 (fl_start fl)
    (if fl_end fl =? OFFSET_MAX then 0 else fl_end fl - fl_start fl + 1)
    (if IS_OFDLCK fl then -1 else fl_pid fl).

(** ** Conflicts *)

Definition locks_overlap (fl1 fl2 : file_lock) : bool :=
  (fl_end fl1 >=? fl_start fl2) && (fl_end fl2 >=? fl_start fl1).

Definition posix_same_owner (fl1 fl2 : file_lock) : bool := fl_owner fl1 =? fl_owner fl2.

Definition locks_conflict (caller_fl sys_fl : file_lock) : bool :=
  if fl_type sys_fl =? F_WRLCK then true
  else if fl_type caller_fl =? F_WRLCK then true
  else false.

Definition posix_locks_conflict (caller_fl sys_fl : file_lock) : bool :=
  if negb (IS_POSIX sys_fl) || posix_same_owner caller_fl sys_fl then false
  else if negb (locks_overlap caller_fl sys_fl) then false
  else locks_conflict caller_fl sys_fl.

Definition flock_locks_conflict (caller_fl sys_fl : file_lock) : bool :=
  if negb (IS_FLOCK sys_fl) || (fl_file caller_fl =? fl_file sys_fl) then false
  else if negb (Z.land (fl_type caller_fl) LOCK_MAND =? 0)
          || negb (Z.land (fl_type sys_fl) LOCK_MAND =? 0) then false
  else locks_conflict caller_fl sys_fl.

(** The first lock of the list that blocks the request, with the locks before
    and after it. *)
Fixpoint find_conflict (request : file_lock) (locks : list file_lock)
    : option (list file_lock * file_lock * list file_lock) :=
  match locks with
  | [] => None
  | fl :: rest =>
      if IS_POSIX fl && posix_locks_conflict request fl then Some ([], fl, rest)
      else
        match find_conflict request rest with
        | None => None
        | Some (pre, c, post) => Some (fl :: pre, c, post)
        end
  end.

Definition posix_test_lock (locks : list file_lock) (fl : file_lock) : file_lock :=
  match find_conflict fl locks with
  | Some (_, cfl, _) => locks_copy_conflock fl cfl
  | None => lock_type fl F_UNLCK
  end.

(** ** Deadlock detection *)

Definition MAX_DEADLK_ITERATIONS : nat := 10.

(** The waiters of the bucket with the locks they wait for, newest first. *)
Fixpoint what_owner_is_waiting_for (blocked_hash : list (file_lock * file_lock))
    (block_fl : file_lock) : option file_lock :=
  match blocked_hash with
  | [] => None
  | (fl, fl_next) :: rest =>
      if posix_same_owner fl block_fl then Some fl_next
      else what_owner_is_waiting_for rest block_fl
  end.

(** [tries] iterations are allowed before the search gives up. *)
Fixpoint deadlock_loop (tries : nat) (blocked_hash : list (file_lock * file_lock))
    (caller_fl block_fl : file_lock) : bool :=
  match what_owner_is_waiting_for blocked_hash block_fl with
  | None => false
  | Some block_fl =>
      match tries with
      | O => false
      | S tries =>
          if posix_same_owner caller_fl block_fl then true
          else deadlock_loop tries blocked_hash caller_fl block_fl
      end
  end.

Definition posix_locks_deadlock (blocked_hash : list (file_lock * file_lock))
    (caller_fl block_fl : file_lock) : bool :=
  if IS_OFDLCK caller_fl then false
  else deadlock_loop (S MAX_DEADLK_ITERATIONS) blocked_hash caller_fl block_fl.

(** ** POSIX locks *)

(** The loop over the locks of the request's owner.  [*before] is the head of
    the locks still to visit, [w_done] are the locks before it.  [request] is
    the caller's structure, or a lock of the list after [request = fl] or
    [request = new_fl], known by its position; so is [left].  [w_new_fl] tells
    whether [new_fl] is not NULL, [w_woken] lists the waiters woken so far. *)
Record walk := Walk {
  w_done : list file_lock; w_caller : file_lock; w_at : option nat;
  w_added : bool; w_left : option nat; w_new_fl : bool; w_woken : list file_lock
}.

(** [*request]. *)
Definition w_request (w : walk) : file_lock :=
  match w_at w with
  | None => w_caller w
  | Some i => nth i (w_done w) (w_caller w)
  end.

(** Assigning to the range of [*request]. *)
Definition set_request (w : walk) (start end_ : Z) : walk :=
  match w_at w with
  | None =>
      Walk (w_done w) (lock_range (w_caller w) start end_) None
        (w_added w) (w_left w) (w_new_fl w) (w_woken w)
  | Some i =>
      Walk (alter (fun fl => lock_range fl start end_) i (w_done w)) (w_caller w) (Some i)
        (w_added w) (w_left w) (w_new_fl w) (w_woken w)
  end.

(** [next_lock], for the lock [fl] at [*before]. *)
Definition next_lock (w : walk) (fl : file_lock) : walk :=
  Walk (w_done w ++ [fl]) (w_caller w) (w_at w) (w_added w) (w_left w) (w_new_fl w) (w_woken w).

(** [locks_delete_lock] of the lock [fl] at [*before]. *)
Definition locks_delete_lock (w : walk) (fl : file_lock) : walk :=
  Walk (w_done w) (w_caller w) (w_at w) (w_added w) (w_left w) (w_new_fl w)
    (w_woken w ++ fl_block fl).

(** [request = fl; added = true] for the lock at [*before]. *)
Definition request_is_here (w : walk) : walk :=
  Walk (w_done w) (w_caller w) (Some (length (w_done w))) true (w_left w) (w_new_fl w) (w_woken w).

Definition set_added (w : walk) : walk :=
  Walk (w_done w) (w_caller w) (w_at w) true (w_left w) (w_new_fl w) (w_woken w).
Definition set_left (w : walk) : walk :=
  Walk (w_done w) (w_caller w) (w_at w) (w_added w) (Some (length (w_done w))) (w_new_fl w)
    (w_woken w).
Definition take_new_fl (w : walk) : walk :=
  Walk (w_done w) (w_caller w) (w_at w) (w_added w) (w_left w) false (w_woken w).

(** How the loop ends: [goto out] for lack of memory, or at [*before] with
    [right] being that lock or NULL. *)
Inductive walk_end :=
  | NoLuck (w : walk) (rest : list file_lock)
  | Stopped (w : walk) (rest : list file_lock) (right : bool).

Fixpoint own_locks (w : walk) (rest : list file_lock) : walk_end :=
  match rest with
  | [] => Stopped w [] false
  | fl :: rest' =>
      let request := w_request w in
      if negb (posix_same_owner request fl) then Stopped w rest false
      else if fl_type request =? fl_type fl then
        if fl_end fl <? fl_start request - 1 then own_locks (next_lock w fl) rest'
        else if fl_start fl - 1 >? fl_end request then Stopped w rest false
        else
          let start := if fl_start fl >? fl_start request then fl_start request else fl_start fl in
          let end_ := if fl_end fl <? fl_end request then fl_end request else fl_end fl in
          let fl := lock_range fl start end_ in
          let w := set_request w start end_ in
          if w_added w then own_locks (locks_delete_lock w fl) rest'
          else own_locks (next_lock (request_is_here w) fl) rest'
      else
        if fl_end fl <? fl_start request then own_locks (next_lock w fl) rest'
        else if fl_start fl >? fl_end request then Stopped w rest false
        else
          let w := if fl_type request =? F_UNLCK then set_added w else w in
          let w := if fl_start fl <? fl_start request then set_left w else w in
          if fl_end fl >? fl_end request then Stopped w rest true
          else if fl_start fl >=? fl_start request then
            if w_added w then own_locks (locks_delete_lock w fl) rest'
            else if negb (w_new_fl w) then NoLuck w rest
            else
              let new_fl := locks_copy_lock request in
              let w := next_lock (request_is_here (take_new_fl (locks_delete_lock w fl))) new_fl in
              (* [before = &fl->fl_next] of the lock just unlinked, which is NULL *)
              Stopped w rest' false
          else own_locks (next_lock w fl) rest'
  end.

(** What the call leaves behind: the error, the list, the waiters woken, the
    caller's request and the conflicting lock it reports. *)
Record lock_result := LockResult {
  lr_error : Z; lr_locks : list file_lock; lr_woken : list file_lock;
  lr_request : file_lock; lr_conflock : option file_lock
}.

(** Cutting [left], which stands before [*before], and waking its waiters. *)
Definition cut_left (w : walk) (end_ : Z) : list file_lock * list file_lock :=
  match w_left w with
  | None => (w_done w, [])
  | Some i =>
      (alter (fun fl => lock_block (lock_range fl (fl_start fl) end_) []) i (w_done w),
       match w_done w !! i with Some fl => fl_block fl | None => [] end)
  end.

(** From the end of the loop to [out]. *)
Definition finish_locks (w : walk) (rest : list file_lock) (right new_fl2 : bool) : lock_result :=
  let request := w_request w in
  let result error locks woken := LockResult error locks (w_woken w ++ woken) (w_caller w) None in
  let same := right && bool_decide (w_left w = Some (length (w_done w))) in
  if same && negb new_fl2 then result (- ENOLCK) (w_done w ++ rest) []
  else if negb (w_added w) && (fl_type request =? F_UNLCK) then
    result (if has_flag request FL_EXISTS then - ENOENT else 0) (w_done w ++ rest) []
  else if negb (w_added w) && negb (w_new_fl w) then result (- ENOLCK) (w_done w ++ rest) []
  else
    let inserted := if w_added w then [] else [locks_copy_lock request] in
    match right, rest with
    | true, r :: rest' =>
        let right := lock_block (lock_range r (fl_end request + 1) (fl_end r)) [] in
        if same then
          let left := locks_copy_lock r in
          let left := lock_range left (fl_start left) (fl_start request - 1) in
          result 0 (w_done w ++ left :: inserted ++ right :: rest') (fl_block r)
        else
          let (done, woken) := cut_left w (fl_start request - 1) in
          result 0 (done ++ inserted ++ right :: rest') (fl_block r ++ woken)
    | _, _ =>
        let (done, woken) := cut_left w (fl_start request - 1) in
        result 0 (done ++ inserted ++ rest) woken
    end.

(** The locks skipped before the first lock of the owner, and the rest. *)
Fixpoint skip_others (request : file_lock) (locks : list file_lock)
    : list file_lock * list file_lock :=
  match locks with
  | [] => ([], [])
  | fl :: rest =>
      if negb (IS_POSIX fl) || negb (posix_same_owner request fl) then
        let (skipped, rest) := skip_others request rest in (fl :: skipped, rest)
      else ([], locks)
  end.

(** [memory] and [memory2] tell whether [new_fl] and [new_fl2] can be
    allocated, where the code tries to. *)
Definition __posix_lock_file (blocked_hash : list (file_lock * file_lock)) (memory memory2 : bool)
    (locks : list file_lock) (request : file_lock) : lock_result :=
  let needed := negb (has_flag request FL_ACCESS)
    && (negb (fl_type request =? F_UNLCK) || negb (fl_start request =? 0)
        || negb (fl_end request =? OFFSET_MAX)) in
  let new_fl := needed && memory in
  let new_fl2 := needed && memory2 in
  match (if negb (fl_type request =? F_UNLCK) then find_conflict request locks else None) with
  | Some (pre, fl, post) =>
      let conflock := Some (locks_copy_conflock (lock_block fl []) fl) in
      if negb (has_flag request FL_SLEEP) then
        LockResult (- EAGAIN) locks [] request conflock
      else if posix_locks_deadlock blocked_hash request fl then
        LockResult (- EDEADLK) locks [] request conflock
      else
        LockResult FILE_LOCK_DEFERRED
          (pre ++ lock_block fl (fl_block fl ++ [request]) :: post) [] request conflock
  | None =>
      if has_flag request FL_ACCESS then LockResult 0 locks [] request None
      else
        let (skipped, rest) := skip_others request locks in
        match own_locks (Walk skipped request None false None new_fl []) rest with
        | NoLuck w rest => LockResult (- ENOLCK) (w_done w ++ rest) (w_woken w) (w_caller w) None
        | Stopped w rest at_right => finish_locks w rest at_right new_fl2
        end
  end.

Definition posix_lock_file := __posix_lock_file.

(** [locks_remove_posix], on a file without a [lock] method. *)
Definition locks_remove_posix (memory memory2 : bool) (locks : list file_lock)
    (filp tgid owner : Z) : list file_lock * list file_lock :=
  match locks with
  | [] => ([], [])
  | _ =>
      let lock := FileLock owner tgid filp (Z.lor FL_POSIX FL_CLOSE) F_UNLCK 0 OFFSET_MAX [] in
      let r := posix_lock_file [] memory memory2 locks lock in
      (lr_locks r, lr_woken r)
  end.

(** No POSIX lock of an owner other than the caller and the open file. *)
Fixpoint locks_mandatory_locked (locks : list file_lock) (files filp : Z) : Z :=
  match locks with
  | [] => 0
  | fl :: rest =>
      if negb (IS_POSIX fl) then locks_mandatory_locked rest files filp
      else if negb (fl_owner fl =? files) && negb (fl_owner fl =? filp) then - EAGAIN
      else locks_mandatory_locked rest files filp
  end.

(** ** BSD locks *)

(** The search for the lock of this open file: the same lock is there already,
    there is none, or it is removed and its waiters are woken. *)
Inductive flock_old :=
  | FlockSame
  | FlockNone
  | FlockGone (locks woken : list file_lock).

Fixpoint flock_find_old (filp : Z) (request : file_lock) (locks : list file_lock) : flock_old :=
  match locks with
  | [] => FlockNone
  | fl :: rest =>
      if IS_POSIX fl then FlockNone
      else if IS_LEASE fl || negb (filp =? fl_file fl) then
        match flock_find_old filp request rest with
        | FlockGone rest woken => FlockGone (fl :: rest) woken
        | r => r
        end
      else if fl_type request =? fl_type fl then FlockSame
      else FlockGone rest (fl_block fl)
  end.

(** The locks before [*before], the conflicting lock if there is one, and the
    locks after it or from [*before] on. *)
Fixpoint flock_find_conflict (request : file_lock) (locks : list file_lock)
    : list file_lock * option file_lock * list file_lock :=
  match locks with
  | [] => ([], None, [])
  | fl :: rest =>
      if IS_POSIX fl then ([], None, locks)
      else if IS_LEASE fl || negb (flock_locks_conflict request fl) then
        match flock_find_conflict request rest with
        | (pre, c, post) => (fl :: pre, c, post)
        end
      else ([], Some fl, rest)
  end.

(** The part of [flock_lock_file] from the label [find_conflict] on. *)
Definition flock_insert (locks woken : list file_lock) (request : file_lock) : lock_result :=
  match flock_find_conflict request locks with
  | (pre, Some fl, post) =>
      if negb (has_flag request FL_SLEEP) then LockResult (- EAGAIN) locks woken request None
      else
        LockResult FILE_LOCK_DEFERRED (pre ++ lock_block fl (fl_block fl ++ [request]) :: post)
          woken request None
  | (pre, None, post) =>
      if has_flag request FL_ACCESS then LockResult 0 locks woken request None
      else LockResult 0 (pre ++ locks_copy_lock request :: post) woken request None
  end.

(** [others] is what other tasks make of the list while the lock on the inode
    is dropped. *)
Definition flock_lock_file (memory : bool) (others : list file_lock -> list file_lock)
    (locks : list file_lock) (filp : Z) (request : file_lock) : lock_result :=
  if negb (has_flag request FL_ACCESS) && negb (fl_type request =? F_UNLCK) && negb memory then
    LockResult (- ENOMEM) locks [] request None
  else if has_flag request FL_ACCESS then flock_insert locks [] request
  else
    match flock_find_old filp request locks with
    | FlockSame => LockResult 0 locks [] request None
    | FlockNone =>
        if fl_type request =? F_UNLCK then
          LockResult (if has_flag request FL_EXISTS then - ENOENT else 0) locks [] request None
        else flock_insert locks [] request
    | FlockGone locks woken =>
        if fl_type request =? F_UNLCK then LockResult 0 locks woken request None
        else flock_insert (others locks) woken request
    end.

(** ** fcntl *)

Definition F_SETLK : Z := 6.
Definition F_SETLKW : Z := 7.
Definition F_OFD_SETLK : Z := 37.
Definition F_OFD_SETLKW : Z := 38.
Definition EBADF : Z := 9.

Definition lock_flags (fl : file_lock) (flags : Z) : file_lock :=
  FileLock (fl_owner fl) (fl_pid fl) (fl_file fl) flags (fl_type fl) (fl_start fl) (fl_end fl)
    (fl_block fl).
Definition lock_owner (fl : file_lock) (owner : Z) : file_lock :=
  FileLock owner (fl_pid fl) (fl_file fl) (fl_flags fl) (fl_type fl) (fl_start fl) (fl_end fl)
    (fl_block fl).

(** What the call depends on besides the list: the caller, the modes of the
    file, the security module, the blocked requests, memory, whether mandatory
    locks clash with a shared mapping, and whether the descriptor still refers
    to the file when the lock has been taken. *)
Record setlk_env := SetlkEnv {
  se_caller : lock_caller; se_read : bool; se_write : bool;
  se_security : Z -> Z; se_blocked : list (file_lock * file_lock);
  se_memory : bool; se_memory2 : bool; se_mandatory : bool; se_still_open : bool
}.

Definition check_fmode_for_setlk (e : setlk_env) (fl : file_lock) : Z :=
  if fl_type fl =? F_RDLCK then if se_read e then 0 else - EBADF
  else if fl_type fl =? F_WRLCK then if se_write e then 0 else - EBADF
  else 0.

(** The command and the request after the switch over [cmd]. *)
Definition setlk_switch (e : setlk_env) (cmd : Z) (l : flock64) (fl : file_lock)
    : Z + Z * file_lock :=
  let ofd fl := lock_owner (lock_flags fl (Z.lor (fl_flags fl) FL_OFDLCK)) (lc_filp (se_caller e)) in
  let sleep fl := lock_flags fl (Z.lor (fl_flags fl) FL_SLEEP) in
  if cmd =? F_OFD_SETLK then
    if negb (l_pid l =? 0) then inl (- EINVAL) else inr (F_SETLK, ofd fl)
  else if cmd =? F_OFD_SETLKW then
    if negb (l_pid l =? 0) then inl (- EINVAL) else inr (F_SETLKW, sleep (ofd fl))
  else if cmd =? F_SETLKW then inr (cmd, sleep fl)
  else inr (cmd, fl).

(** One pass from the label [again] up to and with the first attempt of
    [do_lock_file_wait], on a file without a [lock] method: the error, the
    list, the waiters woken and the command.  A request that is deferred
    sleeps and is tried again. *)
Definition setlk_pass (e : setlk_env) (cmd : Z) (l : flock64) (locks : list file_lock)
    : Z * list file_lock * list file_lock * Z :=
  match flock64_to_posix_lock (se_caller e) l with
  | inl error => (error, locks, [], cmd)
  | inr fl =>
      let error := check_fmode_for_setlk e fl in
      if negb (error =? 0) then (error, locks, [], cmd)
      else
        match setlk_switch e cmd l fl with
        | inl error => (error, locks, [], cmd)
        | inr (cmd, fl) =>
            let error := se_security e (fl_type fl) in
            if negb (error =? 0) then (error, locks, [], cmd)
            else
              let r := posix_lock_file (se_blocked e) (se_memory e) (se_memory2 e) locks fl in
              (lr_error r, lr_locks r, lr_woken r, cmd)
        end
  end.

Definition fcntl_setlk (e : setlk_env) (allocated : bool) (cmd : Z) (flock : option flock64)
    (locks : list file_lock) : Z * list file_lock * list file_lock :=
  if negb allocated then (- ENOLCK, locks, [])
  else
    match flock with
    | None => (- EFAULT, locks, [])
    | Some l =>
        if se_mandatory e then (- EAGAIN, locks, [])
        else
          match setlk_pass e cmd l locks with
          | (error, locks, woken, cmd) =>
              if (error =? 0) && negb (se_still_open e) && negb (l_type l =? F_UNLCK) then
                match setlk_pass e cmd (Flock64 F_UNLCK (l_whence l) (l_start l) (l_len l) (l_pid l))
                        locks with
                | (error, locks, woken', _) => (error, locks, woken ++ woken')
                end
              else (error, locks, woken)
          end
    end.
