(* ===== verification/LocksFacts.v ===== *)
(** * Facts about lists of POSIX locks: what an owner holds at an offset, the
    shape of a list, and the loop over an owner's locks *)

From stdpp Require Import list.
From Stdlib Require Import Sorting.Sorted.
From S2P Require Import Prelude Locks.

(** ** What is held *)

Definition covers_at (fl : file_lock) (x : Z) : bool := (fl_start fl <=? x) && (x <=? fl_end fl).

(** The type of the lock owner [o] holds at offset [x]. *)
Fixpoint held (locks : list file_lock) (o x : Z) : option Z :=
  match locks with
  | [] => None
  | fl :: rest =>
      if IS_POSIX fl && (fl_owner fl =? o) && covers_at fl x then Some (fl_type fl)
      else held rest o x
  end.

Definition own (o : Z) (fl : file_lock) : Prop := IS_POSIX fl = true /\ fl_owner fl = o.
Definition foreign (o : Z) (fl : file_lock) : Prop := ~ own o fl.
Definition other (o : Z) (fl : file_lock) : Prop := IS_POSIX fl = true /\ fl_owner fl <> o.

Lemma held_app l1 l2 o x :
  held (l1 ++ l2) o x = match held l1 o x with Some t => Some t | None => held l2 o x end.
Proof. induction l1 as [|fl l1 IH]; cbn; [done|]. by case_if. Qed.

Lemma held_foreign l o x : Forall (foreign o) l -> held l o x = None.
Proof.
  induction 1 as [|fl l Hf _ IH]; cbn; [done|]. case_if; [|done].
  destruct Hf. split; [|lia]. by destruct (IS_POSIX fl).
Qed.

Lemma held_own fl l o x : own o fl ->
  held (fl :: l) o x = if covers_at fl x then Some (fl_type fl) else held l o x.
Proof. intros [Hp Ho]. cbn. by rewrite Hp, Ho, Z.eqb_refl. Qed.

Lemma covers_at_true fl x : covers_at fl x = true <-> fl_start fl <= x <= fl_end fl.
Proof. unfold covers_at. lia. Qed.

Lemma covers_at_false fl x : covers_at fl x = false <-> x < fl_start fl \/ fl_end fl < x.
Proof. unfold covers_at. lia. Qed.

Lemma held_above l o x : Forall (fun fl => x < fl_start fl) l -> held l o x = None.
Proof.
  induction 1 as [|fl l Hx _ IH]; cbn; [done|].
  rewrite (proj2 (covers_at_false fl x)), andb_false_r by lia. done.
Qed.

Lemma held_below l o x : Forall (fun fl => fl_end fl < x) l -> held l o x = None.
Proof.
  induction 1 as [|fl l Hx _ IH]; cbn; [done|].
  rewrite (proj2 (covers_at_false fl x)), andb_false_r by lia. done.
Qed.

Lemma other_foreign o fl : other o fl -> foreign o fl.
Proof. unfold other, foreign, own. tauto. Qed.

Lemma own_foreign o o' fl : own o fl -> o <> o' -> foreign o' fl.
Proof. unfold foreign, own. intros [? ?] ? [? ?]. congruence. Qed.

Lemma own_other o o' fl : own o fl -> o <> o' -> other o' fl.
Proof. unfold other, own. intros [? ?] ?. split; congruence. Qed.

Global Instance own_dec o fl : Decision (own o fl).
Proof. unfold own. apply _. Defined.

(** ** The shape of a list *)

Definition precedes (a b : file_lock) : Prop := fl_end a < fl_start b.

Record valid_lock (fl : file_lock) : Prop := {
  vl_range : 0 <= fl_start fl <= fl_end fl;
  vl_max : fl_end fl <= OFFSET_MAX;
  vl_type : fl_type fl = F_RDLCK \/ fl_type fl = F_WRLCK
}.

(** The locks of one owner: sorted by address, disjoint. *)
Record group (o : Z) (G : list file_lock) : Prop := {
  gr_own : Forall (own o) G;
  gr_valid : Forall valid_lock G;
  gr_sorted : StronglySorted precedes G
}.

(** POSIX locks come last; those of one owner stand together and form a group. *)
Record split_at (o : Z) (locks A G B : list file_lock) : Prop := {
  sa_eq : locks = A ++ G ++ B;
  sa_before : Forall (foreign o) A;
  sa_group : group o G;
  sa_after : Forall (other o) B
}.

Definition wf_locks (locks : list file_lock) : Prop :=
  forall o, exists A G B, split_at o locks A G B.

Lemma group_nil o : group o [].
Proof. split; constructor. Qed.

Lemma group_cons o fl G :
  group o (fl :: G) <-> own o fl /\ valid_lock fl /\ Forall (precedes fl) G /\ group o G.
Proof.
  split.
  - intros [Ho Hv Hs]. apply Forall_cons in Ho as [? ?]. apply Forall_cons in Hv as [? ?].
    apply StronglySorted_inv in Hs as [? ?]. done.
  - intros (? & ? & ? & [? ? ?]). split; by constructor.
Qed.

Lemma group_app o G1 G2 :
  group o (G1 ++ G2) <-> group o G1 /\ group o G2
    /\ forall a b, a ∈ G1 -> b ∈ G2 -> precedes a b.
Proof.
  induction G1 as [|fl G1 IH]; cbn.
  - split; [|tauto]. intros ?. split_and!; [apply group_nil|done|]. by intros a b ?%elem_of_nil.
  - rewrite !group_cons, IH, Forall_app, !Forall_forall. split.
    + intros (? & ? & [? ?] & ? & ? & Hp). split_and!; [done|done|done|done|done|].
      intros a b [->|?]%elem_of_cons ?; [auto|by apply Hp].
    + intros ((? & ? & ? & ?) & ? & Hp). split_and!; try done.
      * intros b Hb. apply Hp; [by left|done].
      * intros a b Ha Hb. apply Hp; [by right|done].
Qed.

Lemma held_group_other o o' G x : Forall (own o) G -> o <> o' -> held G o' x = None.
Proof.
  intros HG Hne. apply held_foreign. eapply Forall_impl; [exact HG|].
  intros fl Hfl. by eapply own_foreign.
Qed.

(** What an owner holds is what its group holds. *)
Lemma held_split o locks A G B x : split_at o locks A G B -> held locks o x = held G o x.
Proof.
  intros [-> HA _ HB]. rewrite !held_app, (held_foreign A) by done.
  destruct (held G o x); [done|]. apply held_foreign.
  eapply Forall_impl; [exact HB|]. apply other_foreign.
Qed.

(** ** Replacing a group *)

Lemma foreign_app o A B : Forall (foreign o) A -> Forall (other o) B -> Forall (foreign o) (A ++ B).
Proof.
  intros HA HB. apply Forall_app_2; [done|]. eapply Forall_impl; [exact HB|]. apply other_foreign.
Qed.

Lemma foreign_split o l : Forall (foreign o) l -> split_at o l l [] [].
Proof. intros. split; [by rewrite !app_nil_r|done|apply group_nil|done]. Qed.

(** Two groups of different owners do not mix. *)
Lemma groups_apart o o' g G G' B B' m :
  Forall (own o) (g :: G) -> Forall (own o') G' -> o <> o' ->
  (exists k, G' = m ++ k /\ g :: G ++ B = k ++ B') -> G' = m /\ B' = g :: G ++ B.
Proof.
  intros Hg HG' Hne ([|a k] & -> & E); [by rewrite app_nil_r|].
  cbn in E. injection E as <- _. apply Forall_cons in Hg as [Hg _].
  apply Forall_app in HG' as [_ [Hg' _]%Forall_cons]. by destruct (own_foreign _ o' _ Hg).
Qed.

Lemma replace_group o locks A G B G' :
  wf_locks locks -> split_at o locks A G B -> (G = [] -> B = []) -> group o G' ->
  wf_locks (A ++ G' ++ B).
Proof.
  intros Hwf [E HA HG HB] Hnil HG' o'. destruct (decide (o = o')) as [<-|Hne].
  { by exists A, G', B. }
  destruct (Hwf o') as (A0 & G0 & B0 & [E0 HA0 HG0 HB0]).
  assert (Hf : Forall (other o') G').
  { eapply Forall_impl; [apply HG'|]. intros fl Hfl. by eapply own_other. }
  destruct G0 as [|g0 G0].
  { exists (A ++ G' ++ B), [], []. apply foreign_split.
    assert (Hl : Forall (foreign o') locks) by (rewrite E0; by apply foreign_app).
    rewrite E, !Forall_app in Hl. rewrite !Forall_app. split_and!; try tauto.
    eapply Forall_impl; [exact Hf|]. apply other_foreign. }
  destruct G as [|g G].
  { rewrite Hnil in E |- * by done. cbn in E. rewrite app_nil_r in E. subst A.
    exists A0, (g0 :: G0), (B0 ++ G'). rewrite E0, app_nil_r. split; [|done|done|by apply Forall_app_2].
    by rewrite <- !app_assoc. }
  rewrite E in E0. apply app_eq_app in E0 as (k & [[-> Ek]|[-> Ek]]).
  - cbn in Ek. change (g :: G ++ B) with ((g :: G) ++ B) in Ek.
    symmetry in Ek. change (g0 :: G0 ++ B0) with ((g0 :: G0) ++ B0) in Ek.
    apply app_eq_app in Ek as (m & [[-> Em]|[Ek Em]]).
    + exists A0, (g0 :: G0), (m ++ G' ++ B). subst B0. rewrite !Forall_app in HB0.
      split; [by rewrite <- !app_assoc|done|done|rewrite !Forall_app; tauto].
    + destruct (groups_apart o o' g G (g0 :: G0) B B0 k) as [Ek' ->];
        [apply HG|apply HG0|done|by exists m|]. subst k.
      change (g :: G ++ B) with ((g :: G) ++ B) in HB0. rewrite Forall_app in HB0.
      exists A0, (g0 :: G0), (G' ++ B). split; [by rewrite <- !app_assoc|done|done|rewrite Forall_app; tauto].
  - change (g :: G ++ B) with ((g :: G) ++ B) in Ek. apply app_eq_app in Ek as (m & [[Ek Em]|[-> Em]]).
    + destruct (groups_apart o' o g0 G0 (g :: G) B0 B k) as [Ek' ->];
        [apply HG0|apply HG|done|by exists m|]. subst k.
      exists (A ++ G'), (g0 :: G0), B0. apply Forall_app in HA0 as [? _].
      split; [by rewrite <- !app_assoc|by apply foreign_app|done|done].
    + exists (A ++ G' ++ m), (g0 :: G0), B0. subst B. rewrite !Forall_app in HA0.
      split; [by rewrite <- !app_assoc| |done|done].
      rewrite !Forall_app. split_and!; try tauto. eapply Forall_impl; [exact Hf|]. apply other_foreign.
Qed.

Lemma skip_others_foreign request A l :
  Forall (foreign (fl_owner request)) A ->
  match l with [] => True | fl :: _ => own (fl_owner request) fl end ->
  skip_others request (A ++ l) = (A, l).
Proof.
  intros HA Hl. induction HA as [|fl A Hf _ IH]; cbn.
  - destruct l as [|fl l]; [done|]. destruct Hl as [Hp Ho]. cbn. unfold posix_same_owner.
    by rewrite Hp, Ho, Z.eqb_refl.
  - rewrite IH. case_if; [done|]. destruct Hf. unfold own. unfold posix_same_owner in *.
    destruct (IS_POSIX fl); cbn in *; [split; [done|lia]|done].
Qed.

Lemma skip_others_spec request locks : wf_locks locks ->
  exists A G B, skip_others request locks = (A, G ++ B)
    /\ split_at (fl_owner request) locks A G B /\ (G = [] -> B = []).
Proof.
  intros Hwf. destruct (Hwf (fl_owner request)) as (A & G & B & Hs). destruct G as [|g G].
  - destruct Hs as [E HA _ HB]. assert (Hl : Forall (foreign (fl_owner request)) locks).
    { rewrite E. by apply foreign_app. }
    exists locks, [], []. split_and!; [|by apply foreign_split|done].
    rewrite <- (app_nil_r locks) at 1. by apply skip_others_foreign.
  - exists A, (g :: G), B. split_and!; [|done|done]. destruct Hs as [-> HA HG _].
    apply skip_others_foreign; [done|]. apply group_cons in HG. tauto.
Qed.

(** * The loop of [__posix_lock_file] over the locks of one owner *)

(** ** Stopping at the next owner *)

Definition at_ok (w : walk) : Prop := forall i, w_at w = Some i -> (i < length (w_done w))%nat.

Definition add_rest (B : list file_lock) (e : walk_end) : walk_end :=
  match e with
  | NoLuck w rest => NoLuck w (rest ++ B)
  | Stopped w rest rt => Stopped w (rest ++ B) rt
  end.

Lemma w_request_next w fl : at_ok w -> w_request (next_lock w fl) = w_request w.
Proof.
  intros H. unfold w_request, at_ok in *. cbn. destruct (w_at w) as [i|]; [|done].
  apply app_nth1. by apply H.
Qed.

Lemma w_request_here w fl : w_request (next_lock (request_is_here w) fl) = fl.
Proof. unfold w_request. cbn. apply nth_middle. Qed.

Lemma w_request_set w s e : at_ok w -> w_request (set_request w s e) = lock_range (w_request w) s e.
Proof.
  intros H. unfold w_request, set_request, at_ok in *. destruct (w_at w) as [i|]; cbn; [|done].
  specialize (H i eq_refl). rewrite !nth_lookup, list_lookup_alter_eq.
  destruct (lookup_lt_is_Some_2 _ _ H) as [fl ->]. done.
Qed.

Lemma at_ok_next w fl : at_ok w -> at_ok (next_lock w fl).
Proof. intros H i Hi. specialize (H i Hi). cbn. rewrite length_app. cbn. lia. Qed.

Lemma at_ok_here w fl : at_ok (next_lock (request_is_here w) fl).
Proof. intros i [= <-]. cbn. rewrite length_app. cbn. lia. Qed.

Lemma at_ok_set w s e : at_ok w -> at_ok (set_request w s e).
Proof.
  intros H i. unfold set_request, at_ok in *. destruct (w_at w) as [j|]; cbn; [|done].
  intros [= ->]. rewrite length_alter. auto.
Qed.

Lemma w_request_delete w fl : w_request (locks_delete_lock w fl) = w_request w.
Proof. done. Qed.

Lemma at_ok_delete w fl : at_ok w -> at_ok (locks_delete_lock w fl).
Proof. done. Qed.

Lemma at_ok_added w : at_ok w -> at_ok (set_added w).
Proof. done. Qed.

Lemma at_ok_left w : at_ok w -> at_ok (set_left w).
Proof. done. Qed.

Create HintDb walk.
#[export] Hint Resolve at_ok_next at_ok_here at_ok_set at_ok_delete at_ok_added at_ok_left : walk.

(** The locks of other owners behind the group are not looked at. *)
Lemma own_locks_app o G B : Forall (own o) G -> Forall (other o) B ->
  forall w, at_ok w -> fl_owner (w_request w) = o ->
  own_locks w (G ++ B) = add_rest B (own_locks w G).
Proof.
  intros HG HB. induction HG as [|fl G [_ Hfl] _ IH]; intros w Hw Ho.
  - cbn. destruct HB as [|fl B [_ Hfl] _]; cbn; [done|]. unfold posix_same_owner.
    by rewrite Ho, (proj2 (Z.eqb_neq _ _)) by congruence.
  - cbn. unfold posix_same_owner. rewrite Ho, Hfl, Z.eqb_refl. cbn.
    repeat case_if; try done; (apply IH; [solve [auto with walk]|]);
      rewrite ?w_request_here, ?w_request_next, ?w_request_delete, ?w_request_set by auto with walk;
      exact Ho || exact Hfl.
Qed.

(** ** After the request is in the list *)

(** The locks behind the request when its end is [e]: the first one, if it is
    [right], loses its lower part and its waiters. *)
Definition chop (rt : bool) (e : Z) (rest : list file_lock) : list file_lock :=
  match rt, rest with
  | true, r :: rest' => lock_block (lock_range r (e + 1) (fl_end r)) [] :: rest'
  | _, _ => rest
  end.

(** [right] lies across the end of the request. *)
Definition right_ok (rt : bool) (t s e : Z) (rest : list file_lock) : Prop :=
  match rt, rest with
  | true, r :: _ => fl_type r <> t /\ s <= fl_start r <= e /\ e < fl_end r
  | true, [] => False
  | false, _ => Forall (fun fl => e < fl_start fl) rest
  end.

Definition blocks (locks : list file_lock) : list file_lock := flat_map fl_block locks.

(** The request [R] absorbs locks of [G] until it ends at [e]. *)
Record absorbed (o : Z) (R : file_lock) (G : list file_lock) (e : Z) (gone rest : list file_lock)
    (rt : bool) : Prop := {
  ab_end : fl_end R <= e <= OFFSET_MAX;
  ab_split : G = gone ++ rest;
  ab_right : right_ok rt (fl_type R) (fl_start R) e rest;
  ab_held : forall x, held (lock_range R (fl_start R) e :: chop rt e rest) o x = held (R :: G) o x
}.

Lemma own_range o fl s e : own o (lock_range fl s e) <-> own o fl.
Proof. done. Qed.

Lemma own_block o fl b : own o (lock_block fl b) <-> own o fl.
Proof. done. Qed.

Lemma range_self fl : lock_range fl (fl_start fl) (fl_end fl) = fl.
Proof. by destruct fl. Qed.

Lemma valid_not_unlck fl : valid_lock fl -> fl_type fl <> F_UNLCK.
Proof. intros [_ _ [-> | ->]]; done. Qed.

(** Goals about what is held after a cut: every lock named is owned. *)
Ltac held_cases :=
  repeat match goal with
  | |- context [held (?fl :: ?l) ?o ?x] => rewrite (held_own fl l o x) by done
  end;
  repeat match goal with
  | |- context [covers_at ?fl ?x] =>
      let E := fresh "Hc" in destruct (covers_at fl x) eqn:E;
      first [apply covers_at_true in E | apply covers_at_false in E]; cbn in E
  end; cbn [lock_range lock_block fl_type]; try done; try lia; try congruence.

Lemma merge_start a b : (if a >? b then b else a) = Z.min b a.
Proof. case_if; lia. Qed.

Lemma merge_end a b : (if a <? b then b else a) = Z.max b a.
Proof. case_if; lia. Qed.

Lemma absorb_spec o P c lf nf G : forall R wk,
  own o R -> valid_lock R -> group o G -> Forall (fun fl => fl_start R <= fl_start fl) G ->
  exists e gone rest rt,
    own_locks (Walk (P ++ [R]) c (Some (length P)) true lf nf wk) G
    = Stopped (Walk (P ++ [lock_range R (fl_start R) e]) c (Some (length P)) true lf nf
                 (wk ++ blocks gone)) rest rt
    /\ absorbed o R G e gone rest rt.
Proof.
  induction G as [|fl G IH]; intros R wk HR HvR HG Hs.
  { exists (fl_end R), [], [], false. cbn. rewrite app_nil_r, range_self. split; [done|].
    pose proof (vl_max _ HvR). split; [lia|done|constructor|]. intros x. cbn. by rewrite range_self. }
  apply group_cons in HG as (Hfl & Hv & Hp & HG). apply Forall_cons in Hs as [Hs1 Hs].
  pose proof (vl_range _ Hv). pose proof (vl_range _ HvR). pose proof (vl_max _ HvR).
  pose proof (vl_max _ Hv). pose proof (valid_not_unlck _ HvR).
  assert (Hbig : fl_end R < fl_start fl -> Forall (fun fl => fl_end R < fl_start fl) (fl :: G)).
  { intros ?. apply Forall_cons. split; [done|]. eapply Forall_impl; [exact Hp|].
    unfold precedes. intros; lia. }
  assert (Hstop : fl_end R < fl_start fl -> exists e gone rest rt,
    Stopped (Walk (P ++ [R]) c (Some (length P)) true lf nf wk) (fl :: G) false
    = Stopped (Walk (P ++ [lock_range R (fl_start R) e]) c (Some (length P)) true lf nf
                 (wk ++ blocks gone)) rest rt
    /\ absorbed o R (fl :: G) e gone rest rt).
  { intros Hlt. exists (fl_end R), [], (fl :: G), false. rewrite range_self. cbn [blocks flat_map].
    rewrite app_nil_r. split; [done|]. split; [lia|done|by apply Hbig|]. intros x. by rewrite range_self. }
  cbn [own_locks]. unfold w_request, set_request. cbn [w_at w_done w_caller w_added w_left w_new_fl w_woken].
  rewrite nth_middle, alter_mid. unfold posix_same_owner.
  rewrite (proj2 HR), (proj2 Hfl), Z.eqb_refl. cbn [negb]. case_if.
  - (* the same type *)
    case_if; [lia|]. case_if; [apply Hstop; lia|].
    destruct (IH (lock_range R (fl_start R) (Z.max (fl_end R) (fl_end fl))) (wk ++ fl_block fl))
      as (e & gone & rest & rt & Eo & [He HG' Hr Hh]); [done|split; cbn; [lia|lia|apply HvR]|done|done|].
    exists e, (fl :: gone), rest, rt. split.
    + rewrite merge_start, merge_end, Z.min_l by lia. cbn [blocks flat_map].
      rewrite app_assoc. exact Eo.
    + cbn in He. split; [lia|by rewrite HG'|exact Hr|]. intros x. etransitivity; [apply Hh|]. held_cases.
  - case_if; [lia|]. case_if; [apply Hstop; lia|].
    rewrite (proj2 (Z.eqb_neq (fl_type R) F_UNLCK)), (proj2 (Z.ltb_ge (fl_start fl) (fl_start R))) by done.
    cbn [w_added]. case_if.
    + exists (fl_end R), [], (fl :: G), true. rewrite range_self. cbn [blocks flat_map].
      rewrite app_nil_r. split; [done|]. split; [lia|done|cbn; split_and!; congruence || lia|].
      intros x. rewrite range_self. cbn [chop]. held_cases.
    + rewrite (proj2 (Z.geb_le _ _)) by lia. cbn [w_added].
      destruct (IH R (wk ++ fl_block fl)) as (e & gone & rest & rt & Eo & [He HG' Hr Hh]); [done..|].
      exists e, (fl :: gone), rest, rt. split.
      * unfold locks_delete_lock. cbn. rewrite app_assoc. exact Eo.
      * split; [done|by rewrite HG'|done|]. intros x. rewrite Hh. held_cases.
Qed.
