(* ===== verification/LocksReplace.v ===== *)
(** * What the loop of [__posix_lock_file] makes of an owner's locks *)

From stdpp Require Import list.
From Stdlib Require Import Sorting.Sorted.
From S2P Require Import Prelude Locks LocksFacts.

(** What the request asks for at the offsets of its range. *)
Definition wanted (c : file_lock) : option Z :=
  if fl_type c =? F_UNLCK then None else Some (fl_type c).

(** [fl'] is [fl] grown, with its waiters. *)
Definition extends (fl fl' : file_lock) : Prop :=
  fl_block fl' = fl_block fl /\ fl_type fl' = fl_type fl
  /\ fl_start fl' <= fl_start fl /\ fl_end fl <= fl_end fl'.

(** [T] takes the place of the locks [G] of owner [o], and the waiters [wk] are
    woken: the request's range has what it asks for and the rest is as before;
    a lock that keeps waiters has not shrunk; no waiter is forgotten. *)
Record replaced (o : Z) (c : file_lock) (G T wk : list file_lock) : Prop := {
  rp_group : group o T;
  rp_held : forall x, held T o x = if covers_at c x then wanted c else held G o x;
  rp_keep : forall fl', fl' ∈ T -> fl_block fl' = [] \/ exists fl, fl ∈ G /\ extends fl fl';
  rp_wake : forall fl w, fl ∈ G -> w ∈ fl_block fl ->
    w ∈ wk \/ exists fl', fl' ∈ T /\ w ∈ fl_block fl'
}.

Lemma extends_refl fl : extends fl fl.
Proof. unfold extends. split_and!; done || lia. Qed.

(** ** The locks behind the request *)

Definition chop_woken (rt : bool) (rest : list file_lock) : list file_lock :=
  match rt, rest with true, r :: _ => fl_block r | _, _ => [] end.

Lemma chop_group o rt t s e rest : 0 <= s -> group o rest -> right_ok rt t s e rest ->
  group o (chop rt e rest) /\ Forall (fun fl => e < fl_start fl) (chop rt e rest).
Proof.
  intros Hs HG Hr. destruct rt, rest as [|r rest]; cbn in *; try done.
  apply group_cons in HG as (Ho & [Hv1 Hv2 Hv3] & Hp & HG). destruct Hr as (_ & ? & ?). split.
  - apply group_cons. split_and!; [done|by split; cbn; lia || idtac|done|done].
  - apply Forall_cons. cbn. split; [lia|]. eapply Forall_impl; [exact Hp|].
    unfold precedes. intros; lia.
Qed.

Lemma chop_keep rt e rest fl' : fl' ∈ chop rt e rest -> fl_block fl' = [] \/ fl' ∈ rest.
Proof.
  destruct rt, rest as [|r rest]; cbn; auto.
  intros [->|?]%elem_of_cons; [by left|right; by right].
Qed.

Lemma chop_wake rt e rest fl w : fl ∈ rest -> w ∈ fl_block fl ->
  w ∈ chop_woken rt rest \/ exists fl', fl' ∈ chop rt e rest /\ w ∈ fl_block fl'.
Proof.
  intros Hfl Hw. destruct rt, rest as [|r rest]; cbn; eauto.
  apply elem_of_cons in Hfl as [->|?]; [by left|]. right. exists fl. split; [by right|done].
Qed.

Lemma elem_of_blocks w fl locks : fl ∈ locks -> w ∈ fl_block fl -> w ∈ blocks locks.
Proof.
  intros Hfl Hw. unfold blocks. apply list_elem_of_In, in_flat_map.
  exists fl. by rewrite <- !list_elem_of_In.
Qed.

(** A request that absorbed what it could takes the place of [G0]. *)
Lemma absorbed_replaced o c R G0 G e gone rest rt wk0 :
  own o R -> valid_lock R -> group o G -> absorbed o R G e gone rest rt ->
  (forall x, held (R :: G) o x = if covers_at c x then wanted c else held G0 o x) ->
  (fl_block R = [] \/ exists fl, fl ∈ G0 /\ extends fl R) ->
  (forall fl, fl ∈ G -> fl ∈ G0) ->
  (forall fl w, fl ∈ G0 -> w ∈ fl_block fl -> w ∈ fl_block R \/ w ∈ wk0 \/ fl ∈ G) ->
  replaced o c G0 (lock_range R (fl_start R) e :: chop rt e rest)
    (wk0 ++ blocks gone ++ chop_woken rt rest).
Proof.
  intros HR HvR HG [He -> Hr Hh] Hheld HRk Hsub Hw. apply group_app in HG as (_ & HG & _).
  pose proof (vl_range _ HvR).
  destruct (chop_group o rt _ _ e rest (proj1 (vl_range _ HvR)) HG Hr) as [Hcg Hca]. split.
  - apply group_cons. split_and!; [done|split; cbn; [lia|lia|apply HvR]| |done].
    eapply Forall_impl; [exact Hca|]. unfold precedes. cbn. intros; lia.
  - intros x. by rewrite Hh, Hheld.
  - intros fl' [->|Hin]%elem_of_cons.
    + destruct HRk as [?|(fl & Hfl & Hb & Ht & ? & ?)]; [by left|right]. exists fl.
      split; [done|]. split_and!; cbn; done || lia.
    + apply chop_keep in Hin as [?|Hin]; [by left|right]. exists fl'. split; [|apply extends_refl].
      apply Hsub, elem_of_app. by right.
  - intros fl w Hfl Hin. destruct (Hw fl w Hfl Hin) as [?|[?|Hg]].
    + right. exists (lock_range R (fl_start R) e). split; [left|done].
    + left. apply elem_of_app. by left.
    + apply elem_of_app in Hg as [Hg|Hg].
      * left. rewrite !elem_of_app. right. left. by eapply elem_of_blocks.
      * destruct (chop_wake rt e rest fl w Hg Hin) as [?|(fl' & ? & ?)].
        -- left. rewrite !elem_of_app. auto.
        -- right. exists fl'. split; [by right|done].
Qed.

(** A request that absorbs nothing. *)
Lemma absorbed_none o R G rt : own o R -> valid_lock R -> Forall (own o) G ->
  right_ok rt (fl_type R) (fl_start R) (fl_end R) G ->
  absorbed o R G (fl_end R) [] G rt.
Proof.
  intros HR HvR HG Hr. pose proof (vl_max _ HvR). split; [lia|done|done|].
  intros x. rewrite range_self. destruct rt, G as [|r G]; try done. cbn [chop]. cbn in Hr.
  apply Forall_cons in HG as [? _]. held_cases.
Qed.

(** ** Putting the pieces together *)

(** Locks below the range stay in front. *)
Lemma replaced_app o c S G T wk :
  group o (S ++ G) -> Forall (fun fl => fl_end fl < fl_start c) S ->
  (forall a b, a ∈ S -> b ∈ T -> precedes a b) ->
  replaced o c G T wk -> replaced o c (S ++ G) (S ++ T) wk.
Proof.
  intros HG HS Hp [Hg Hh Hk Hw]. apply group_app in HG as (HGS & _ & _). split.
  - by apply group_app.
  - intros x. rewrite !held_app, Hh. case_if; [|done].
    apply covers_at_true in E. rewrite held_below; [done|].
    eapply Forall_impl; [exact HS|]. cbn. lia.
  - intros fl' [Hin|Hin]%elem_of_app.
    + right. exists fl'. split; [apply elem_of_app; by left|apply extends_refl].
    + destruct (Hk fl' Hin) as [?|(fl & ? & ?)]; [by left|right].
      exists fl. split; [apply elem_of_app; by right|done].
  - intros fl w [Hin|Hin]%elem_of_app Hb.
    + right. exists fl. split; [apply elem_of_app; by left|done].
    + destruct (Hw fl w Hin Hb) as [?|(fl' & ? & ?)]; [by left|right].
      exists fl'. split; [apply elem_of_app; by right|done].
Qed.

(** [left] cut at the start of the range. *)
Definition cut_at (c L : file_lock) : file_lock :=
  lock_block (lock_range L (fl_start L) (fl_start c - 1)) [].

(** The part of a lock from the start of the range on. *)
Definition upper (c L : file_lock) : file_lock :=
  lock_block (lock_range L (fl_start c) (fl_end L)) [].

(** A lock that reaches into the range from below is cut there. *)
Lemma replaced_left o c L G T wk :
  group o (L :: G) -> fl_start L < fl_start c <= fl_end L ->
  Forall (fun fl => fl_start c <= fl_start fl) T -> replaced o c (upper c L :: G) T wk ->
  replaced o c (L :: G) (cut_at c L :: T) (wk ++ fl_block L).
Proof.
  intros (Ho & [Hv1 Hv2 Hv3] & _ & _)%group_cons HL HT [Hg Hh Hk Hw]. split.
  - apply group_cons. split_and!; [done|split; cbn; [lia|lia|done]| |done].
    eapply Forall_impl; [exact HT|]. unfold precedes. cbn. intros; lia.
  - intros x. rewrite (held_own L), (held_own (cut_at c L)), Hh, (held_own (upper c L)) by done.
    destruct (covers_at c x) eqn:Hc, (covers_at L x) eqn:HcL, (covers_at (cut_at c L) x) eqn:Hcc,
      (covers_at (upper c L) x) eqn:Hcu;
      rewrite ?covers_at_true, ?covers_at_false in *; cbn in *; done || lia.
  - intros fl' [->|Hin]%elem_of_cons; [by left|].
    destruct (Hk fl' Hin) as [?|(fl & [->|?]%elem_of_cons & He)]; [by left|left; apply He|right].
    exists fl. split; [by right|done].
  - intros fl w [->|Hin]%elem_of_cons Hb; [left; apply elem_of_app; by right|].
    destruct (Hw fl w) as [?|(fl' & ? & ?)]; [by right|done|left; apply elem_of_app; by left|right].
    exists fl'. split; [by right|done].
Qed.

(** Inside the range that part does not matter. *)
Lemma replaced_upper o c L G T wk : own o L -> fl_end L <= fl_end c ->
  replaced o c G T wk -> replaced o c (upper c L :: G) T wk.
Proof.
  intros Ho HL [Hg Hh Hk Hw]. split; [done| | |].
  - intros x. rewrite Hh, (held_own (upper c L)) by done. destruct (covers_at c x) eqn:Hc; [done|].
    apply covers_at_false in Hc. rewrite (proj2 (covers_at_false _ x)) by (cbn; lia). done.
  - intros fl' Hin. destruct (Hk fl' Hin) as [?|(fl & ? & ?)]; [by left|right].
    exists fl. split; [by right|done].
  - intros fl w [->|Hin]%elem_of_cons Hb; [by apply elem_of_nil in Hb|by apply (Hw fl w)].
Qed.

Lemma upper_group o c L G : group o (L :: G) -> 0 <= fl_start c <= fl_end L -> group o (upper c L :: G).
Proof.
  intros (Ho & [Hv1 Hv2 Hv3] & Hp & HG)%group_cons ?. apply group_cons.
  split_and!; [done|split; cbn; [lia|lia|done]|done|done].
Qed.

(** Unlocking: the locks in the range go, [right] is cut. *)
Lemma unlock_replaced o c gone rest rt :
  fl_type c = F_UNLCK -> group o (gone ++ rest) -> 0 <= fl_start c ->
  Forall (fun fl => fl_start c <= fl_start fl) (gone ++ rest) ->
  Forall (fun fl => fl_end fl <= fl_end c) gone ->
  right_ok rt (fl_type c) (fl_start c) (fl_end c) rest ->
  replaced o c (gone ++ rest) (chop rt (fl_end c) rest) (blocks gone ++ chop_woken rt rest).
Proof.
  intros Ht HG Hs Hst Hgone Hr. apply group_app in HG as (_ & HG & _).
  destruct (chop_group o rt _ _ _ rest Hs HG Hr) as [Hcg Hca]. apply Forall_app in Hst as [Hst _].
  split; [done| | |].
  - intros x. unfold wanted. rewrite Ht, Z.eqb_refl. destruct (covers_at c x) eqn:Hc.
    + apply covers_at_true in Hc. apply held_above. eapply Forall_impl; [exact Hca|]. cbn. lia.
    + apply covers_at_false in Hc. rewrite held_app.
      assert (Hn : held gone o x = None).
      { destruct Hc; [apply held_above; eapply Forall_impl; [exact Hst|]
                     |apply held_below; eapply Forall_impl; [exact Hgone|]]; cbn; lia. }
      rewrite Hn. destruct rt, rest as [|r rest]; try done. cbn [chop].
      cbn in Hr. apply group_cons in HG as (Ho & _). held_cases.
  - intros fl' [?|Hin]%chop_keep; [by left|right]. exists fl'.
    split; [apply elem_of_app; by right|apply extends_refl].
  - intros fl w [Hin|Hin]%elem_of_app Hb.
    + left. apply elem_of_app. left. by eapply elem_of_blocks.
    + destruct (chop_wake rt (fl_end c) rest fl w Hin Hb) as [?|?]; [left|by right].
      apply elem_of_app. by right.
Qed.

(** ** The loop from the range on *)

Section Range.
Context (o : Z) (c : file_lock) (Hown : own o c) (Hc : 0 <= fl_start c <= fl_end c)
  (Hmax : fl_end c <= OFFSET_MAX) (Hblock : fl_block c = []).

Lemma owner_same fl : own o fl -> (fl_owner c =? fl_owner fl) = true.
Proof using Hown. destruct Hown as [_ ?]. intros [_ ?]. lia. Qed.

Lemma sorted_above fl G e : Forall (precedes fl) G -> valid_lock fl -> e < fl_start fl ->
  Forall (fun fl => e < fl_start fl) (fl :: G).
Proof using.
  intros Hp [? _ _] He. apply Forall_cons. split; [done|]. eapply Forall_impl; [exact Hp|].
  unfold precedes. intros; lia.
Qed.

(** Unlocking. *)
Lemma unlock_walk P lf nf G : fl_type c = F_UNLCK -> group o G ->
  Forall (fun fl => fl_start c <= fl_start fl) G -> forall ad wk,
  exists ad' gone rest rt,
    own_locks (Walk P c None ad lf nf wk) G
    = Stopped (Walk P c None ad' lf nf (wk ++ blocks gone)) rest rt
    /\ G = gone ++ rest /\ Forall (fun fl => fl_end fl <= fl_end c) gone
    /\ right_ok rt (fl_type c) (fl_start c) (fl_end c) rest
    /\ (ad' = true \/ ad' = ad /\ gone = [] /\ rt = false).
Proof using Hown Hc.
  intros Ht. induction G as [|fl G IH]; intros HG Hs ad wk.
  { exists ad, [], [], false. cbn. rewrite app_nil_r. split_and!; auto. }
  apply group_cons in HG as (Hfl & Hv & Hp & HG). apply Forall_cons in Hs as [Hs1 Hs].
  pose proof (vl_range _ Hv). pose proof (valid_not_unlck _ Hv).
  cbn [own_locks]. unfold w_request, posix_same_owner. cbn [w_at w_caller].
  rewrite owner_same by done. cbn [negb].
  rewrite (proj2 (Z.eqb_neq (fl_type c) (fl_type fl))) by congruence.
  rewrite (proj2 (Z.ltb_ge (fl_end fl) (fl_start c))) by lia. case_if.
  { exists ad, [], (fl :: G), false. cbn [blocks flat_map]. rewrite app_nil_r.
    split_and!; auto. by apply sorted_above. }
  rewrite (proj2 (Z.eqb_eq (fl_type c) F_UNLCK)), (proj2 (Z.ltb_ge (fl_start fl) (fl_start c))) by done.
  case_if.
  - exists true, [], (fl :: G), true. cbn [blocks flat_map]. rewrite app_nil_r.
    split_and!; auto. cbn. split_and!; congruence || lia.
  - rewrite (proj2 (Z.geb_le _ _)) by lia. cbn [w_added set_added].
    destruct (IH HG Hs true (wk ++ fl_block fl)) as (ad' & gone & rest & rt & Eo & -> & Hg & Hr & Had).
    exists true, (fl :: gone), rest, rt. cbn [blocks flat_map]. rewrite app_assoc.
    split_and!; [|done|by apply Forall_cons|done|by left].
    destruct Had as [->|[-> _]]; exact Eo.
Qed.

(** How the loop ends for a request that locks: for lack of memory; at the
    place of insertion; or with the request [R] in the list. *)
Inductive walked (P : list file_lock) (lf : option nat) (nf : bool) (wk : list file_lock) (lo : Z)
    (G : list file_lock) : walk_end -> Prop :=
  | walked_out : nf = false -> walked P lf nf wk lo G (NoLuck (Walk P c None false lf nf wk) G)
  | walked_insert rt :
      fl_start c = lo -> right_ok rt (fl_type c) (fl_start c) (fl_end c) G ->
      replaced o c G (locks_copy_lock c :: chop rt (fl_end c) G) (chop_woken rt G) ->
      walked P lf nf wk lo G (Stopped (Walk P c None false lf nf wk) G rt)
  | walked_merged R c' nf' wk' rest rt :
      fl_start R = lo -> (rt = true -> rest <> []) -> fl_type R <> F_UNLCK ->
      replaced o c G (R :: chop rt (fl_end R) rest) (wk' ++ chop_woken rt rest) ->
      walked P lf nf wk lo G
        (Stopped (Walk (P ++ [R]) c' (Some (length P)) true lf nf' (wk ++ wk')) rest rt).

Lemma right_ok_nonempty rt t s e rest : right_ok rt t s e rest -> rt = true -> rest <> [].
Proof using. intros H ->. by destruct rest. Qed.

Context (Htype : fl_type c = F_RDLCK \/ fl_type c = F_WRLCK).

Lemma copy_ok : own o (locks_copy_lock c) /\ valid_lock (locks_copy_lock c).
Proof using Hown Hc Hmax Htype. split; [done|by split]. Qed.

Lemma wanted_type : wanted c = Some (fl_type c).
Proof using Htype. unfold wanted. by destruct Htype as [-> | ->]. Qed.

(** The copy of the request in front of locks it does not absorb. *)
Lemma copy_replaced G rt : group o G ->
  right_ok rt (fl_type c) (fl_start c) (fl_end c) G ->
  replaced o c G (locks_copy_lock c :: chop rt (fl_end c) G) (chop_woken rt G).
Proof using Hown Hc Hmax Htype.
  intros HG Hr. destruct copy_ok as [Ho Hv].
  assert (Ha : absorbed o (locks_copy_lock c) G (fl_end c) [] G rt).
  { apply (absorbed_none o (locks_copy_lock c)); [done|done|apply HG|done]. }
  apply (absorbed_replaced o c (locks_copy_lock c) G G _ _ _ _ [] Ho Hv HG Ha); [|by left|done|by auto].
  intros x. rewrite (held_own (locks_copy_lock c)), wanted_type by done. done.
Qed.

(** A lock of the same type that touches the range takes the request over. *)
Lemma merge_walk P lf nf wk fl G :
  group o (fl :: G) -> fl_type fl = fl_type c ->
  fl_start c - 1 <= fl_end fl -> fl_start fl - 1 <= fl_end c ->
  walked P lf nf wk (Z.min (fl_start c) (fl_start fl)) (fl :: G)
    (own_locks (Walk P c None false lf nf wk) (fl :: G)).
Proof using Hown Hc Hmax Htype.
  intros (Hfl & Hv & Hp & HG)%group_cons Ht H1 H2. pose proof (vl_range _ Hv). pose proof (vl_max _ Hv).
  cbn [own_locks]. unfold w_request, posix_same_owner, set_request. cbn [w_at w_caller].
  rewrite owner_same by done. cbn [negb]. rewrite Ht, Z.eqb_refl.
  rewrite (proj2 (Z.ltb_ge _ _)) by lia.
  rewrite (Z.gtb_ltb (fl_start fl - 1)), (proj2 (Z.ltb_ge _ (fl_start fl - 1))) by lia.
  rewrite merge_start, merge_end. cbn [w_added].
  set (R := lock_range fl (Z.min (fl_start c) (fl_start fl)) (Z.max (fl_end c) (fl_end fl))).
  assert (HoR : own o R) by done.
  assert (HvR : valid_lock R) by (split; cbn; [lia|lia|apply Hv]).
  unfold next_lock, request_is_here. cbn.
  destruct (absorb_spec o P (lock_range c (fl_start R) (fl_end R)) lf nf G R wk HoR HvR HG)
    as (e & gone & rest & rt & Eo & Ha).
  { eapply Forall_impl; [exact Hp|]. unfold precedes. cbn. intros; lia. }
  cbn in Eo. cbn. rewrite Eo.
  apply (walked_merged _ _ _ _ _ _ (lock_range R (fl_start R) e)); [done|by eapply right_ok_nonempty, Ha| |].
  { cbn. by apply valid_not_unlck. }
  apply (absorbed_replaced o c R (fl :: G) G _ _ _ _ [] HoR HvR HG Ha).
  - intros x. rewrite wanted_type, (held_own fl), (held_own R) by done. cbn [fl_type R lock_range].
    destruct (covers_at c x) eqn:Hcx, (covers_at fl x) eqn:Hfx, (covers_at R x) eqn:HRx;
      rewrite ?covers_at_true, ?covers_at_false in *; cbn in *; congruence || lia.
  - right. exists fl. split; [left|]. unfold extends. cbn. split_and!; done || lia.
  - intros fl' ?. by right.
  - intros fl' w [->|?]%elem_of_cons ?; auto.
Qed.

(** The loop over locks that start in or above the range.  A lock of another
    type inside the range has to be the last one that meets it. *)
Lemma lock_walk P lf nf wk G : group o G -> Forall (fun fl => fl_start c <= fl_start fl) G ->
  (forall fl G', G = fl :: G' -> fl_type fl <> fl_type c -> fl_end fl <= fl_end c ->
     Forall (fun fl => fl_end c < fl_start fl) G') ->
  walked P lf nf wk (fl_start c) G (own_locks (Walk P c None false lf nf wk) G).
Proof using Hown Hc Hmax Htype.
  intros HG Hs Hun. destruct G as [|fl G].
  { apply walked_insert; [done|constructor|]. apply (copy_replaced [] false HG). constructor. }
  pose proof HG as (Hfl & Hv & Hp & HG')%group_cons. pose proof Hs as [Hs1 Hs']%Forall_cons.
  pose proof (vl_range _ Hv).
  assert (Hstop : fl_end c < fl_start fl ->
    walked P lf nf wk (fl_start c) (fl :: G) (Stopped (Walk P c None false lf nf wk) (fl :: G) false)).
  { intros. assert (right_ok false (fl_type c) (fl_start c) (fl_end c) (fl :: G)) by (by apply sorted_above).
    apply walked_insert; [done|done|by apply copy_replaced]. }
  destruct (Z.eq_dec (fl_type fl) (fl_type c)) as [Ht|Ht].
  - destruct (Z_le_gt_dec (fl_start fl - 1) (fl_end c)) as [Hle|Hgt].
    + rewrite <- (Z.min_l (fl_start c) (fl_start fl)) by lia. apply merge_walk; [done|done|lia|lia].
    + cbn [own_locks]. unfold w_request, posix_same_owner. cbn [w_at w_caller].
      rewrite owner_same by done. cbn [negb]. rewrite Ht, Z.eqb_refl.
      rewrite (proj2 (Z.ltb_ge _ _)) by lia. rewrite Z.gtb_ltb, (proj2 (Z.ltb_lt _ _)) by lia.
      apply Hstop. lia.
  - cbn [own_locks]. unfold w_request, posix_same_owner. cbn [w_at w_caller].
    rewrite owner_same by done. cbn [negb]. rewrite (proj2 (Z.eqb_neq _ _)) by congruence.
    rewrite (proj2 (Z.ltb_ge (fl_end fl) (fl_start c))) by lia. case_if; [by apply Hstop|].
    assert (Hu : (fl_type c =? F_UNLCK) = false) by (by destruct Htype as [-> | ->]).
    rewrite Hu, (proj2 (Z.ltb_ge (fl_start fl) (fl_start c))) by lia. case_if.
    + assert (right_ok true (fl_type c) (fl_start c) (fl_end c) (fl :: G)) by (cbn; split_and!; done || lia).
      apply walked_insert; [done|done|by apply copy_replaced].
    + rewrite (proj2 (Z.geb_le _ _)) by lia. cbn [w_added w_new_fl]. destruct nf; cbn [negb].
      * assert (Hr : right_ok false (fl_type c) (fl_start c) (fl_end c) G) by (by apply (Hun fl)).
        apply (walked_merged _ _ _ _ _ _ (locks_copy_lock c)); [done|done|cbn; lia|].
        replace (fl_block fl ++ chop_woken false G) with (fl_block fl ++ blocks [] ++ chop_woken false G) by done.
        destruct copy_ok as [Ho' Hv'].
        apply (absorbed_replaced o c (locks_copy_lock c) (fl :: G) G _ _ _ _ (fl_block fl) Ho' Hv' HG').
        -- apply (absorbed_none o (locks_copy_lock c)); [done|done|apply HG'|done].
        -- intros x. rewrite (held_own (locks_copy_lock c)), (held_own fl), wanted_type by done.
           destruct (covers_at c x) eqn:Hcx, (covers_at fl x) eqn:Hfx;
             change (covers_at (locks_copy_lock c) x) with (covers_at c x); rewrite Hcx;
             rewrite ?covers_at_true, ?covers_at_false in *; done || lia.
        -- by left.
        -- intros fl' ?. by right.
        -- intros fl' w [->|?]%elem_of_cons ?; auto.
      * by apply walked_out.
Qed.

End Range.
