(* ===== verification/LocksApply.v ===== *)
(** * [__posix_lock_file] on the locks of the request's owner *)

From stdpp Require Import list.
From Stdlib Require Import Sorting.Sorted.
From S2P Require Import Prelude Locks LocksFacts LocksReplace.

(** ** After the loop *)

Lemma chop_app rt e rest B : (rt = true -> rest <> []) -> chop rt e (rest ++ B) = chop rt e rest ++ B.
Proof. destruct rt, rest as [|r rest]; try done. intros H. by destruct (H eq_refl). Qed.

Lemma chop_woken_app rt rest B : (rt = true -> rest <> []) ->
  chop_woken rt (rest ++ B) = chop_woken rt rest.
Proof. destruct rt, rest as [|r rest]; try done. intros H. by destruct (H eq_refl). Qed.

Definition inserted_lock (w : walk) : list file_lock :=
  if w_added w then [] else [locks_copy_lock (w_request w)].

(** The tail of the function when nothing fails and no lock is split. *)
Lemma finish_go w rest rt nf2 done wl :
  (rt = true -> w_left w <> Some (length (w_done w))) ->
  w_added w = true \/ fl_type (w_request w) <> F_UNLCK /\ w_new_fl w = true ->
  (rt = true -> rest <> []) -> cut_left w (fl_start (w_request w) - 1) = (done, wl) ->
  finish_locks w rest rt nf2
  = LockResult 0 (done ++ inserted_lock w ++ chop rt (fl_end (w_request w)) rest)
      (w_woken w ++ chop_woken rt rest ++ wl) (w_caller w) None.
Proof.
  intros Hs Ha Hr Hcut. unfold finish_locks, inserted_lock. rewrite Hcut.
  assert (Hsame : rt && bool_decide (w_left w = Some (length (w_done w))) = false).
  { destruct rt; [|done]. by apply bool_decide_eq_false, Hs. }
  rewrite Hsame. cbn [andb].
  assert (H1 : negb (w_added w) && (fl_type (w_request w) =? F_UNLCK) = false).
  { destruct Ha as [->|[? _]]; [done|]. rewrite (proj2 (Z.eqb_neq _ _)) by done. apply andb_false_r. }
  assert (H2 : negb (w_added w) && negb (w_new_fl w) = false).
  { destruct Ha as [->|[_ ->]]; [done|]. apply andb_false_r. }
  rewrite H1, H2. destruct rt; [|done]. destruct rest as [|r rest]; [by destruct (Hr eq_refl)|done].
Qed.

Lemma cut_left_none w e : w_left w = None -> cut_left w e = (w_done w, []).
Proof. unfold cut_left. by intros ->. Qed.

Lemma cut_left_some w c P L D : w_left w = Some (length P) -> w_done w = P ++ L :: D ->
  cut_left w (fl_start c - 1) = (P ++ cut_at c L :: D, fl_block L).
Proof. unfold cut_left. intros -> ->. by rewrite alter_mid, lookup_mid. Qed.

(** [left] is [right]: the lock is split, or there is no memory for it. *)
Lemma finish_split P c ad r rest nf nf2 :
  ad = negb (negb (fl_type c =? F_UNLCK)) ->
  let w := Walk P c None ad (Some (length P)) nf [] in
  finish_locks w (r :: rest) true nf2
  = if negb nf2 || negb (ad || nf) then LockResult (- ENOLCK) (P ++ r :: rest) [] c None
    else LockResult 0 (P ++ cut_at c r :: inserted_lock w ++ chop true (fl_end c) (r :: rest))
           (fl_block r) c None.
Proof.
  intros Had w. unfold finish_locks. subst w. cbn [w_left w_done w_added w_new_fl w_woken w_caller].
  rewrite bool_decide_eq_true_2 by done. unfold w_request, inserted_lock. cbn. rewrite Had.
  destruct nf2, (fl_type c =? F_UNLCK), nf; done.
Qed.

(** ** The locks below the range *)

Definition skipped (c fl : file_lock) : Prop :=
  if fl_type c =? fl_type fl then fl_end fl < fl_start c - 1 else fl_end fl < fl_start c.

Global Instance skipped_dec c fl : Decision (skipped c fl).
Proof. unfold skipped. destruct (_ =? _); apply _. Defined.

Lemma skipped_below c fl : skipped c fl -> fl_end fl < fl_start c.
Proof. unfold skipped. destruct (_ =? _); lia. Qed.

Lemma skip_prefix c G : exists S M, G = S ++ M /\ Forall (skipped c) S
  /\ match M with [] => True | fl :: _ => ~ skipped c fl end.
Proof.
  induction G as [|fl G (S & M & -> & HS & HM)]; [by exists [], []|].
  destruct (decide (skipped c fl)); [|by exists [], (fl :: S ++ M)].
  exists (fl :: S), M. split_and!; [done|by constructor|done].
Qed.

Lemma skip_walk o c P nf S M : fl_owner c = o -> Forall (own o) S -> Forall (skipped c) S ->
  own_locks (Walk P c None false None nf []) (S ++ M)
  = own_locks (Walk (P ++ S) c None false None nf []) M.
Proof.
  intros Ho HS Hsk. revert P. induction S as [|fl S IH]; intros P; [by rewrite app_nil_r|].
  apply Forall_cons in HS as [[_ Hfl] HS]. apply Forall_cons in Hsk as [Hk Hsk].
  cbn [own_locks app]. unfold w_request, posix_same_owner. cbn [w_at w_caller].
  rewrite Ho, Hfl, Z.eqb_refl. cbn [negb]. unfold skipped in Hk.
  assert (Hnext : own_locks (next_lock (Walk P c None false None nf []) fl) (S ++ M)
    = own_locks (Walk (P ++ fl :: S) c None false None nf []) M).
  { unfold next_lock. cbn. rewrite IH by done. by rewrite <- app_assoc. }
  destruct (fl_type c =? fl_type fl); rewrite (proj2 (Z.ltb_lt _ _)) by done; exact Hnext.
Qed.

(** ** The result *)

(** The request does not run into the end of the loop at a replaced lock:
    behind a lock of another type inside the range, another lock meets the
    range only if a lock of the request's type touched it before. *)
Definition untrapped (c : file_lock) (G : list file_lock) : Prop :=
  fl_type c = F_UNLCK \/
  forall fl1 fl2, fl1 ∈ G -> fl2 ∈ G -> fl_type fl1 <> fl_type c ->
    fl_start c <= fl_start fl1 -> fl_end fl1 <= fl_end c ->
    precedes fl1 fl2 -> fl_start fl2 <= fl_end c ->
    exists fl0, fl0 ∈ G /\ fl_type fl0 = fl_type c /\ fl_start c - 1 <= fl_end fl0 /\ precedes fl0 fl1.

(** What the call did to the owner's locks [G]. *)
Inductive applied (o : Z) (c : file_lock) (nf nf2 : bool) (G : list file_lock)
    : Z -> list file_lock -> list file_lock -> Prop :=
  | applied_ok G' wk : replaced o c G G' wk -> applied o c nf nf2 G 0 G' wk
  | applied_trapped G' wk : ~ untrapped c G -> Forall (own o) G' ->
      (forall x, held G' o x = if covers_at c x then wanted c else held G o x) ->
      applied o c nf nf2 G 0 G' wk
  | applied_nothing : fl_type c = F_UNLCK -> has_flag c FL_EXISTS = true ->
      (forall x, covers_at c x = true -> held G o x = None) -> applied o c nf nf2 G (- ENOENT) G []
  | applied_nomem : fl_type c <> F_UNLCK \/ 0 < fl_start c -> nf && nf2 = false ->
      applied o c nf nf2 G (- ENOLCK) G [].

Definition end_result (nf2 : bool) (e : walk_end) : lock_result :=
  match e with
  | NoLuck w rest => LockResult (- ENOLCK) (w_done w ++ rest) (w_woken w) (w_caller w) None
  | Stopped w rest rt => finish_locks w rest rt nf2
  end.

(** [e] is an outcome of the loop over [G], with [A] before and [B] behind. *)
Definition good_end (o : Z) (c : file_lock) (nf nf2 : bool) (A G B : list file_lock) (e : walk_end)
    : Prop :=
  exists err G' wk c', end_result nf2 (add_rest B e) = LockResult err (A ++ G' ++ B) wk c' None
    /\ applied o c nf nf2 G err G' wk.

Lemma group_from o R T : group o (R :: T) -> Forall (fun fl => fl_start R <= fl_start fl) (R :: T).
Proof.
  intros (_ & Hv & Hp & _)%group_cons. pose proof (vl_range _ Hv). apply Forall_cons.
  split; [lia|]. eapply Forall_impl; [exact Hp|]. unfold precedes. intros; lia.
Qed.

Lemma precedes_from S (T : list file_lock) lo : Forall (fun fl => fl_end fl < lo) S ->
  Forall (fun fl => lo <= fl_start fl) T -> forall a b, a ∈ S -> b ∈ T -> precedes a b.
Proof.
  rewrite !Forall_forall. intros HS HT a b Ha Hb. specialize (HS a Ha). specialize (HT b Hb).
  unfold precedes. lia.
Qed.

Lemma skipped_all_below c S : Forall (skipped c) S -> Forall (fun fl => fl_end fl < fl_start c) S.
Proof. intros HS. eapply Forall_impl; [exact HS|]. apply skipped_below. Qed.

(** Without [left]. *)
Lemma replaced_skip o c S M T wk lo :
  group o (S ++ M) -> Forall (skipped c) S -> Forall (fun fl => fl_end fl < lo) S ->
  Forall (fun fl => lo <= fl_start fl) T -> replaced o c M T wk ->
  replaced o c (S ++ M) (S ++ T) wk.
Proof.
  intros HG HS Hlo HT Hr. apply replaced_app; [done|by apply skipped_all_below|by eapply precedes_from|done].
Qed.

(** With [left] cut. *)
Lemma replaced_skip_left o c S L M T wk :
  group o (S ++ L :: M) -> Forall (skipped c) S -> fl_start L < fl_start c <= fl_end L ->
  Forall (fun fl => fl_start c <= fl_start fl) T -> replaced o c (upper c L :: M) T wk ->
  replaced o c (S ++ L :: M) (S ++ cut_at c L :: T) (wk ++ fl_block L).
Proof.
  intros HG HS HL HT Hr. pose proof HG as (_ & HLM & Hp)%group_app.
  apply replaced_app; [done|by apply skipped_all_below| |by apply replaced_left].
  intros a b Ha [->|Hb]%elem_of_cons.
  - specialize (Hp a L Ha). unfold precedes, cut_at in *. cbn. apply Hp. left.
  - apply (precedes_from S T (fl_start c)); [by apply skipped_all_below|done|done|done].
Qed.

Lemma finish_nomem P c lf wk rest rt nf2 : fl_type c <> F_UNLCK ->
  finish_locks (Walk P c None false lf false wk) rest rt nf2
  = LockResult (- ENOLCK) (P ++ rest) (wk ++ []) c None.
Proof.
  intros Ht. unfold finish_locks, w_request. cbn. rewrite (proj2 (Z.eqb_neq _ _)) by done.
  by destruct (_ && _).
Qed.

Section Apply.
Context (o : Z) (c : file_lock) (Hown : own o c) (Hc : 0 <= fl_start c <= fl_end c)
  (Hmax : fl_end c <= OFFSET_MAX) (nf nf2 : bool) (A B : list file_lock).

(** A request that locks, nothing reaching into its range from below. *)
Lemma walked_good S M lo e : fl_type c <> F_UNLCK ->
  walked o c (A ++ S) None nf [] lo M e -> group o (S ++ M) -> Forall (skipped c) S ->
  Forall (fun fl => fl_end fl < lo) S -> good_end o c nf nf2 A (S ++ M) B e.
Proof using.
  intros Ht He HG HS Hlo. destruct He as [Hnf|rt Es Hr Hrep|R c' nf' wk' rest rt Es Hne HtR Hrep].
  - exists (- ENOLCK), (S ++ M), [], c. cbn. rewrite <- !app_assoc. split; [done|].
    apply applied_nomem; [by left|by rewrite Hnf].
  - pose proof (right_ok_nonempty _ _ _ _ _ Hr) as Hne. destruct (Bool.bool_dec nf true) as [Hnf|Hnf].
    + exists 0, (S ++ locks_copy_lock c :: chop rt (fl_end c) M), (chop_woken rt M), c. split.
      * cbn [end_result add_rest]. erewrite finish_go;
          [|done|by right|intros ->; by destruct M; [destruct (Hne eq_refl)|]|by apply cut_left_none].
        unfold w_request, inserted_lock. cbn. rewrite app_nil_r, chop_app, chop_woken_app by done.
        by rewrite <- !app_assoc.
      * apply applied_ok. eapply replaced_skip; [done|done|exact Hlo| |done].
        subst lo. apply group_from with (R := locks_copy_lock c) (o := o), Hrep.
    + apply not_true_is_false in Hnf. subst nf. exists (- ENOLCK), (S ++ M), [], c. split.
      * cbn [end_result add_rest]. rewrite finish_nomem by done. by rewrite <- !app_assoc.
      * apply applied_nomem; [by left|done].
  - exists 0, (S ++ R :: chop rt (fl_end R) rest), (wk' ++ chop_woken rt rest), c'. split.
    + cbn [end_result add_rest]. erewrite finish_go;
        [|done|by left|intros ->; by destruct rest; [destruct (Hne eq_refl)|]|by apply cut_left_none].
      unfold w_request, inserted_lock. cbn [w_at w_done w_caller w_added w_woken].
      rewrite nth_middle, app_nil_r, chop_app, chop_woken_app by done. cbn. by rewrite <- !app_assoc.
    + apply applied_ok. eapply replaced_skip; [done|done|exact Hlo| |done].
      subst lo. eapply group_from, Hrep.
Qed.

(** The same with [left]. *)
Lemma walked_good_left S L M e : fl_type c <> F_UNLCK ->
  walked o c (A ++ S ++ [L]) (Some (length (A ++ S))) nf [] (fl_start c) M e ->
  group o (S ++ L :: M) -> Forall (skipped c) S ->
  fl_start L < fl_start c <= fl_end L -> fl_end L <= fl_end c ->
  good_end o c nf nf2 A (S ++ L :: M) B e.
Proof using.
  intros Ht He HG HS HL HLe. pose proof HG as (_ & (HoL & _)%group_cons & _)%group_app.
  assert (Hnot : Some (length (A ++ S)) <> Some (length (A ++ S ++ [L]))).
  { rewrite app_assoc, length_snoc. intros [= ?]. lia. }
  destruct He as [Hnf|rt Es Hr Hrep|R c' nf' wk' rest rt Es Hne HtR Hrep].
  - exists (- ENOLCK), (S ++ L :: M), [], c. cbn. rewrite <- !app_assoc. split; [done|].
    apply applied_nomem; [by left|by rewrite Hnf].
  - pose proof (right_ok_nonempty _ _ _ _ _ Hr) as Hne. destruct (Bool.bool_dec nf true) as [Hnf|Hnf].
    + exists 0, (S ++ cut_at c L :: locks_copy_lock c :: chop rt (fl_end c) M),
        (chop_woken rt M ++ fl_block L), c. split.
      * cbn [end_result add_rest]. erewrite finish_go;
          [|done|by right|intros ->; by destruct M; [destruct (Hne eq_refl)|]
          |apply (cut_left_some _ c (A ++ S) L []); [done|cbn; by rewrite <- app_assoc]].
        unfold w_request, inserted_lock. cbn. rewrite chop_app, chop_woken_app by done.
        by rewrite <- !app_assoc.
      * apply applied_ok, replaced_skip_left; [done|done|done| |by apply replaced_upper].
        apply group_from with (R := locks_copy_lock c) (o := o), Hrep.
    + apply not_true_is_false in Hnf. subst nf. exists (- ENOLCK), (S ++ L :: M), [], c. split.
      * cbn [end_result add_rest]. rewrite finish_nomem by done. by rewrite <- !app_assoc.
      * apply applied_nomem; [by left|done].
  - exists 0, (S ++ cut_at c L :: R :: chop rt (fl_end R) rest),
      ((wk' ++ chop_woken rt rest) ++ fl_block L), c'. split.
    + cbn [end_result add_rest]. erewrite finish_go;
        [|intros _; cbn; rewrite length_snoc; rewrite !length_app in *; cbn; intros [= ?]; lia|by left
         |intros ->; by destruct rest; [destruct (Hne eq_refl)|]
         |unfold w_request; cbn [w_at w_done w_caller]; rewrite nth_middle, Es;
          apply (cut_left_some _ c (A ++ S) L [R]); [done|cbn; by rewrite <- !app_assoc]].
      unfold w_request, inserted_lock. cbn [w_at w_done w_caller w_added w_woken].
      rewrite nth_middle, chop_app, chop_woken_app by done. cbn. by rewrite <- !app_assoc.
    + apply applied_ok, replaced_skip_left; [done|done|done| |by apply replaced_upper].
      rewrite <- Es. eapply group_from, Hrep.
Qed.

(** Unlocking, nothing reaching into the range from below. *)
Lemma unlock_good S M : fl_type c = F_UNLCK -> group o (S ++ M) -> Forall (skipped c) S ->
  Forall (fun fl => fl_start c <= fl_start fl) M ->
  good_end o c nf nf2 A (S ++ M) B (own_locks (Walk (A ++ S) c None false None nf []) M).
Proof using Hown Hc.
  intros Ht HG HS HM. pose proof HG as (_ & HGM & _)%group_app.
  destruct (unlock_walk o c Hown Hc (A ++ S) None nf M Ht HGM HM false [])
    as (ad & gone & rest & rt & Eo & EM & Hg & Hr & Had).
  assert (Hrep : replaced o c (S ++ M) (S ++ chop rt (fl_end c) rest) (blocks gone ++ chop_woken rt rest)).
  { rewrite EM in HG, HM, HGM |- *. pose proof HGM as (_ & Hrest & _)%group_app.
    destruct (chop_group o rt _ _ _ rest (proj1 Hc) Hrest Hr) as [_ Habove].
    eapply replaced_skip; [done|done|by apply skipped_all_below| |apply unlock_replaced; done || lia].
    eapply Forall_impl; [exact Habove|]. cbn. lia. }
  pose proof (right_ok_nonempty _ _ _ _ _ Hr) as Hne. rewrite Eo. unfold good_end. cbn [end_result add_rest].
  destruct Had as [->|(-> & -> & ->)].
  - exists 0, (S ++ chop rt (fl_end c) rest), (blocks gone ++ chop_woken rt rest), c.
    split; [|by apply applied_ok]. erewrite finish_go;
      [|done|by left|intros ->; by destruct rest; [destruct (Hne eq_refl)|]|by apply cut_left_none].
    unfold w_request, inserted_lock. cbn. rewrite app_nil_r, chop_app, chop_woken_app by done.
    by rewrite <- !app_assoc.
  - cbn in EM. subst rest. unfold finish_locks, w_request. cbn. rewrite Ht, Z.eqb_refl. cbn.
    exists (if has_flag c FL_EXISTS then - ENOENT else 0), (S ++ M), [], c. rewrite <- !app_assoc.
    split; [done|]. destruct (has_flag c FL_EXISTS) eqn:Hex; [|by apply applied_ok].
    apply applied_nothing; [done|done|]. intros x Hx.
    pose proof (rp_held _ _ _ _ _ Hrep x) as Hh. rewrite Hx in Hh. cbn in Hh. rewrite Hh.
    unfold wanted. by rewrite Ht.
Qed.

(** The same with [left]. *)
Lemma unlock_good_left S L M : fl_type c = F_UNLCK -> group o (S ++ L :: M) ->
  Forall (skipped c) S -> Forall (fun fl => fl_start c <= fl_start fl) M ->
  fl_start L < fl_start c <= fl_end L -> fl_end L <= fl_end c ->
  good_end o c nf nf2 A (S ++ L :: M) B
    (own_locks (Walk (A ++ S ++ [L]) c None true (Some (length (A ++ S))) nf []) M).
Proof using Hown Hc.
  intros Ht HG HS HM HL HLe. pose proof HG as (_ & (HoL & _ & _ & HGM)%group_cons & _)%group_app.
  destruct (unlock_walk o c Hown Hc (A ++ S ++ [L]) (Some (length (A ++ S))) nf M Ht HGM HM true [])
    as (ad & gone & rest & rt & Eo & EM & Hg & Hr & Had).
  assert (ad = true) as -> by (destruct Had as [?|[? _]]; done).
  pose proof (right_ok_nonempty _ _ _ _ _ Hr) as Hne. rewrite Eo. unfold good_end. cbn [end_result add_rest].
  exists 0, (S ++ cut_at c L :: chop rt (fl_end c) rest),
    ((blocks gone ++ chop_woken rt rest) ++ fl_block L), c. split.
  - erewrite finish_go;
      [|intros _; cbn; rewrite !length_app; cbn; intros [= ?]; lia|by left
       |intros ->; by destruct rest; [destruct (Hne eq_refl)|]
       |apply (cut_left_some _ c (A ++ S) L []); [done|cbn; by rewrite <- !app_assoc]].
    unfold w_request, inserted_lock. cbn. rewrite chop_app, chop_woken_app by done.
    by rewrite <- !app_assoc.
  - rewrite EM in HM, HGM. pose proof HGM as (_ & Hrest & _)%group_app.
    destruct (chop_group o rt _ _ _ rest (proj1 Hc) Hrest Hr) as [_ Habove].
    apply applied_ok, replaced_skip_left; [done|done|done| |].
    + eapply Forall_impl; [exact Habove|]. cbn. lia.
    + apply replaced_upper; [done|done|]. rewrite EM. apply unlock_replaced; done || lia.
Qed.

(** A lock around the range. *)
Lemma split_good S L M ad : ad = negb (negb (fl_type c =? F_UNLCK)) ->
  (fl_type c = F_UNLCK \/ valid_lock (locks_copy_lock c)) -> fl_type L <> fl_type c ->
  group o (S ++ L :: M) -> Forall (skipped c) S -> fl_start L < fl_start c -> fl_end c < fl_end L ->
  good_end o c nf nf2 A (S ++ L :: M) B
    (Stopped (Walk (A ++ S) c None ad (Some (length (A ++ S))) nf []) (L :: M) true).
Proof using Hown Hc Hmax.
  intros Had Hv HtL HG HS HL HLe. unfold good_end. cbn [end_result add_rest app].
  rewrite finish_split by done. pose proof HG as (_ & HLM & _)%group_app.
  assert (HUM : group o (upper c L :: M)) by (apply upper_group; [done|lia]).
  assert (Hr : right_ok true (fl_type c) (fl_start c) (fl_end c) (upper c L :: M)).
  { cbn. split_and!; done || lia. }
  destruct (negb nf2 || negb (ad || nf)) eqn:Hmem.
  { exists (- ENOLCK), (S ++ L :: M), [], c. rewrite <- !app_assoc. split; [done|].
    pose proof HLM as (_ & [? _ _] & _)%group_cons. apply applied_nomem; [right; lia|].
    destruct nf, nf2; try done. by destruct ad. }
  destruct (chop_group o true _ _ _ _ (proj1 Hc) HUM Hr) as [_ Habove].
  exists 0, (S ++ cut_at c L :: inserted_lock (Walk (A ++ S) c None ad (Some (length (A ++ S))) nf [])
              ++ chop true (fl_end c) (upper c L :: M)), (fl_block L), c.
  split; [rewrite <- !app_assoc; cbn [app]; by rewrite <- !app_assoc|]. apply applied_ok.
  apply (replaced_skip_left o c S L M _ []); [done|done|lia| |].
  - unfold inserted_lock, w_request. cbn [w_added w_at w_caller]. apply Forall_app_2.
    + destruct ad; [done|]. apply Forall_singleton. cbn. lia.
    + eapply Forall_impl; [exact Habove|]. cbn. lia.
  - unfold inserted_lock, w_request. cbn [w_added w_at w_caller]. destruct (fl_type c =? F_UNLCK) eqn:Ht; subst ad; cbn [app negb].
    + apply Z.eqb_eq in Ht. apply (unlock_replaced o c [] (upper c L :: M) true);
        [done|done|lia| |done|done]. apply group_from with (R := upper c L) (o := o). done.
    + apply Z.eqb_neq in Ht. destruct Hv as [?|Hv]; [done|].
      apply (copy_replaced o c Hown Hc Hmax (vl_type _ Hv) (upper c L :: M) true HUM Hr).
Qed.

End Apply.

(** ** All cases *)

(** The loop ends at the first lock of [M], which the request replaces, and
    another lock of [M] meets its range. *)
Definition trap (c : file_lock) (M : list file_lock) : Prop :=
  exists fl M' fl2, M = fl :: M' /\ fl_type fl <> fl_type c /\ fl_end fl <= fl_end c
    /\ fl2 ∈ M' /\ fl_start fl2 <= fl_end c.

Lemma trap_cases c M : trap c M \/
  forall fl M', M = fl :: M' -> fl_type fl <> fl_type c -> fl_end fl <= fl_end c ->
    Forall (fun fl => fl_end c < fl_start fl) M'.
Proof.
  destruct M as [|fl M]; [by right|].
  destruct (decide (Forall (fun fl => fl_end c < fl_start fl) M)) as [Hall|Hnot]; [right; by intros ? ? [= -> ->]|].
  destruct (Z.eq_dec (fl_type fl) (fl_type c)); [right; by intros ? ? [= -> ->]|].
  destruct (Z_le_gt_dec (fl_end fl) (fl_end c)); [|right; intros ? ? [= -> ->]; lia].
  left. apply not_Forall_Exists in Hnot; [|apply _]. apply Exists_exists in Hnot as (fl2 & Hin & Hs). cbn in Hs.
  exists fl, M, fl2. split_and!; done || lia.
Qed.

Lemma trap_not_untrapped o c S M : fl_type c <> F_UNLCK -> group o (S ++ M) ->
  (forall fl, fl ∈ S -> fl_type fl = fl_type c -> fl_end fl < fl_start c - 1) ->
  Forall (fun fl => fl_start c <= fl_start fl) M -> trap c M -> ~ untrapped c (S ++ M).
Proof.
  intros Hn HG HS Hs (fl & M' & fl2 & -> & Ht & He & Hin & He2) [?|Hun]; [done|].
  pose proof HG as (_ & (_ & Hv & Hp & _)%group_cons & _)%group_app. apply Forall_cons in Hs as [Hs _].
  pose proof (vl_range _ Hv). rewrite Forall_forall in Hp.
  destruct (Hun fl fl2) as (fl0 & Hin0 & Ht0 & He0 & Hp0); [set_solver|set_solver|done|done|done|by apply Hp|lia|].
  apply elem_of_app in Hin0 as [Hin0|[->|Hin0]%elem_of_cons]; [specialize (HS fl0 Hin0 Ht0); lia|done|].
  specialize (Hp fl0 Hin0). unfold precedes in *.
  destruct HG as [_ HV _]. apply Forall_app in HV as [_ HV]. rewrite Forall_forall in HV.
  destruct (HV fl0) as [? _ _]; [by right|]. lia.
Qed.

Lemma skipped_same_type c S : Forall (skipped c) S ->
  forall fl, fl ∈ S -> fl_type fl = fl_type c -> fl_end fl < fl_start c - 1.
Proof.
  rewrite Forall_forall. intros HS fl Hfl Ht. specialize (HS fl Hfl). unfold skipped in HS.
  by rewrite Ht, Z.eqb_refl in HS.
Qed.

Lemma starts_after o c fl M : group o (fl :: M) -> fl_start c <= fl_end fl + 1 ->
  Forall (fun fl => fl_start c <= fl_start fl) M.
Proof.
  intros (_ & _ & Hp & _)%group_cons ?. eapply Forall_impl; [exact Hp|]. unfold precedes. intros; lia.
Qed.

Section All.
Context (o : Z) (c : file_lock) (Hown : own o c) (Hc : 0 <= fl_start c <= fl_end c)
  (Hmax : fl_end c <= OFFSET_MAX)
  (Htype : fl_type c = F_RDLCK \/ fl_type c = F_WRLCK \/ fl_type c = F_UNLCK)
  (nf nf2 : bool) (A B : list file_lock).

Lemma type_cases : fl_type c = F_UNLCK
  \/ fl_type c <> F_UNLCK /\ (fl_type c = F_RDLCK \/ fl_type c = F_WRLCK).
Proof using Htype. destruct Htype as [E|[E|E]]; rewrite E; auto. Qed.

(** The first lock looked at lies below the start of the range, in part. *)
Lemma left_step P fl M : own o fl -> fl_type fl <> fl_type c -> fl_start fl < fl_start c <= fl_end fl ->
  let ad := negb (negb (fl_type c =? F_UNLCK)) in
  own_locks (Walk P c None false None nf []) (fl :: M)
  = if fl_end fl >? fl_end c then Stopped (Walk P c None ad (Some (length P)) nf []) (fl :: M) true
    else own_locks (Walk (P ++ [fl]) c None ad (Some (length P)) nf []) M.
Proof using Hown Hc.
  intros Hfl Ht Hs ad. cbn [own_locks]. unfold w_request, posix_same_owner. cbn [w_at w_caller].
  rewrite (owner_same o c Hown fl Hfl). cbn [negb]. rewrite (proj2 (Z.eqb_neq (fl_type c) (fl_type fl))) by congruence.
  rewrite (proj2 (Z.ltb_ge (fl_end fl) (fl_start c))) by lia.
  destruct (fl_start fl >? fl_end c) eqn:Hgt.
  { rewrite Z.gtb_ltb, Z.ltb_lt in Hgt. destruct (fl_end fl >? fl_end c) eqn:He; [|lia]. lia. }
  rewrite (proj2 (Z.ltb_lt (fl_start fl) (fl_start c))) by lia.
  rewrite Z.geb_leb, (proj2 (Z.leb_gt (fl_start c) (fl_start fl))) by lia.
  subst ad. destruct (fl_type c =? F_UNLCK); cbn [negb]; case_if; done.
Qed.

(** The loop ends at a lock inside the range that the request replaces. *)
Lemma trap_step P lf fl M : own o fl -> fl_type fl <> fl_type c -> fl_type c <> F_UNLCK ->
  fl_start c <= fl_start fl <= fl_end fl -> fl_end fl <= fl_end c ->
  own_locks (Walk P c None false lf nf []) (fl :: M)
  = if nf then Stopped (Walk (P ++ [locks_copy_lock c]) c (Some (length P)) true lf false (fl_block fl)) M false
    else NoLuck (Walk P c None false lf false []) (fl :: M).
Proof using Hown Hc.
  intros Hfl Ht Hn Hs He. cbn [own_locks]. unfold w_request, posix_same_owner. cbn [w_at w_caller].
  rewrite (owner_same o c Hown fl Hfl). cbn [negb]. rewrite (proj2 (Z.eqb_neq (fl_type c) (fl_type fl))) by congruence.
  rewrite (proj2 (Z.ltb_ge (fl_end fl) (fl_start c))) by lia. case_if; [lia|].
  rewrite (proj2 (Z.eqb_neq (fl_type c) F_UNLCK)), (proj2 (Z.ltb_ge (fl_start fl) (fl_start c))) by done || lia.
  case_if; [lia|]. rewrite (proj2 (Z.geb_le _ _)) by lia. cbn [w_added w_new_fl]. by destruct nf.
Qed.

Lemma trap_good S M : fl_type c <> F_UNLCK -> group o (S ++ M) -> Forall (skipped c) S ->
  Forall (fun fl => fl_start c <= fl_start fl) M -> trap c M ->
  good_end o c nf nf2 A (S ++ M) B (own_locks (Walk (A ++ S) c None false None nf []) M).
Proof using Hown Hc.
  intros Hn HG HS HM Htr. assert (Hun : ~ untrapped c (S ++ M)).
  { eapply trap_not_untrapped; [done|done|by apply skipped_same_type|done|done]. }
  destruct Htr as (fl & M' & fl2 & -> & Ht & He & _). apply Forall_cons in HM as [Hs HM].
  pose proof HG as (HGS & (Hfl & Hv & _ & HGM)%group_cons & _)%group_app. pose proof (vl_range _ Hv).
  rewrite trap_step by (done || lia). destruct (Bool.bool_dec nf true) as [->| ->%not_true_is_false].
  - exists 0, (S ++ locks_copy_lock c :: M'), (fl_block fl), c. split.
    + cbn [end_result add_rest]. erewrite finish_go; [|done|by left|done|by apply cut_left_none].
      unfold inserted_lock. cbn. rewrite !app_nil_r. by rewrite <- !app_assoc.
    + apply applied_trapped; [done| |].
      * apply Forall_app_2; [apply HGS|]. constructor; [done|apply HGM].
      * intros x. rewrite !held_app, (held_own (locks_copy_lock c)), (held_own fl) by done.
        change (covers_at (locks_copy_lock c) x) with (covers_at c x). unfold wanted. rewrite (proj2 (Z.eqb_neq _ _) Hn).
        destruct (covers_at c x) eqn:Hx.
        -- apply covers_at_true in Hx. rewrite held_below; [done|].
           eapply Forall_impl; [by apply skipped_all_below|]. cbn. lia.
        -- apply covers_at_false in Hx. by rewrite (proj2 (covers_at_false fl x)) by lia.
  - exists (- ENOLCK), (S ++ fl :: M'), [], c. cbn. rewrite <- !app_assoc. split; [done|].
    apply applied_nomem; [by left|done].
Qed.

Lemma trap_good_left S L M : fl_type c <> F_UNLCK -> group o (S ++ L :: M) -> Forall (skipped c) S ->
  fl_type L <> fl_type c -> fl_start L < fl_start c <= fl_end L -> fl_end L <= fl_end c ->
  Forall (fun fl => fl_start c <= fl_start fl) M -> trap c M ->
  good_end o c nf nf2 A (S ++ L :: M) B
    (own_locks (Walk (A ++ S ++ [L]) c None false (Some (length (A ++ S))) nf []) M).
Proof using Hown Hc.
  intros Hn HG HS HtL HL HLe HM Htr. assert (Hun : ~ untrapped c (S ++ L :: M)).
  { replace (S ++ L :: M) with ((S ++ [L]) ++ M) in * by by rewrite <- app_assoc.
    eapply trap_not_untrapped; [done|done| |done|done].
    intros fl' [Hin| ->%list_elem_of_singleton]%elem_of_app; [by apply (skipped_same_type c S)|congruence]. }
  destruct Htr as (fl & M' & fl2 & -> & Ht & He & _). apply Forall_cons in HM as [Hs HM].
  pose proof HG as (HGS & (HoL & _ & _ & (Hfl & Hv & _ & HGM)%group_cons)%group_cons & _)%group_app.
  pose proof (vl_range _ Hv). rewrite trap_step by (done || lia). destruct (Bool.bool_dec nf true) as [->| ->%not_true_is_false].
  - exists 0, (S ++ cut_at c L :: locks_copy_lock c :: M'), (fl_block fl ++ fl_block L), c. split.
    + cbn [end_result add_rest]. erewrite finish_go;
        [|done|by left|done|unfold w_request; cbn [w_at w_done w_caller]; rewrite nth_middle;
          apply (cut_left_some _ (locks_copy_lock c) (A ++ S) L [locks_copy_lock c]); [done|cbn; by rewrite <- !app_assoc]].
      unfold inserted_lock. cbn. by rewrite <- !app_assoc.
    + apply applied_trapped; [done| |].
      * apply Forall_app_2; [apply HGS|]. constructor; [done|]. constructor; [done|apply HGM].
      * intros x. rewrite !held_app, (held_own (cut_at c L)), (held_own (locks_copy_lock c)), (held_own L), (held_own fl) by done.
        change (covers_at (locks_copy_lock c) x) with (covers_at c x). unfold wanted. rewrite (proj2 (Z.eqb_neq _ _) Hn).
        destruct (covers_at c x) eqn:Hx.
        -- apply covers_at_true in Hx. rewrite held_below.
           ++ by rewrite (proj2 (covers_at_false (cut_at c L) x)) by (cbn; lia).
           ++ eapply Forall_impl; [by apply skipped_all_below|]. cbn. lia.
        -- apply covers_at_false in Hx. rewrite (proj2 (covers_at_false fl x)) by lia.
           assert (covers_at (cut_at c L) x = covers_at L x) as -> by (unfold covers_at; cbn; lia). done.
  - exists (- ENOLCK), (S ++ L :: fl :: M'), [], c. cbn. rewrite <- !app_assoc. split; [done|].
    apply applied_nomem; [by left|done].
Qed.

Lemma own_good G : group o G ->
  good_end o c nf nf2 A G B (own_locks (Walk A c None false None nf []) G).
Proof using Hown Hc Hmax Htype.
  intros HG. destruct (skip_prefix c G) as (S & M & -> & HS & HM).
  rewrite (skip_walk o); [|apply Hown|by destruct HG as [[? _]%Forall_app _ _]|done].
  assert (Hfrom : Forall (fun fl => fl_start c <= fl_start fl) M ->
    good_end o c nf nf2 A (S ++ M) B (own_locks (Walk (A ++ S) c None false None nf []) M)).
  { intros Hs. destruct type_cases as [Ht|[Hn Ht]]; [by apply unlock_good|].
    destruct (trap_cases c M) as [Htr|Hun]; [by apply trap_good|]. pose proof HG as (_ & HGM & _)%group_app.
    eapply walked_good; [done|by apply (lock_walk o c Hown Hc Hmax Ht _ None nf [] M HGM Hs)|done|done|].
    by apply skipped_all_below. }
  destruct M as [|fl M]; [by apply Hfrom|].
  destruct (Z_le_gt_dec (fl_start c) (fl_start fl)) as [Hle|Hlt].
  { apply Hfrom, Forall_cons. split; [done|]. pose proof HG as (_ & HGM & _)%group_app.
    eapply starts_after; [done|]. apply group_cons in HGM as (_ & [? _ _] & _). lia. }
  pose proof HG as (_ & HGM & HSM)%group_app. pose proof HGM as (Hfl & Hv & Hp & HGM')%group_cons.
  unfold skipped in HM. destruct (Z.eq_dec (fl_type c) (fl_type fl)) as [Ht|Ht].
  { rewrite (proj2 (Z.eqb_eq _ _) Ht) in HM. cbn in HM. pose proof (valid_not_unlck _ Hv).
    assert (Ht' : fl_type c = F_RDLCK \/ fl_type c = F_WRLCK) by (rewrite Ht; apply Hv).
    eapply walked_good; [congruence|apply (merge_walk o c Hown Hc Hmax Ht'); [done|done|lia|lia]|done|done|].
    rewrite Z.min_r, Forall_forall by lia. intros a Ha. apply (HSM a fl Ha). left. }
  rewrite (proj2 (Z.eqb_neq _ _) Ht) in HM. cbn in HM. rewrite left_step by (done || lia || congruence).
  assert (Hs' : Forall (fun fl => fl_start c <= fl_start fl) M) by (eapply starts_after; [done|lia]).
  rewrite <- app_assoc. case_if.
  - apply split_good; [done..| |congruence|done|done|lia|done].
    destruct type_cases as [?|[_ ?]]; [by left|right; by split].
  - destruct type_cases as [Htu|[Hn Ht']].
    + rewrite Htu. cbn [negb Z.eqb]. apply unlock_good_left; done || lia.
    + rewrite (proj2 (Z.eqb_neq _ _) Hn). cbn [negb].
      destruct (trap_cases c M) as [Htr|Hun]; [apply trap_good_left; done || lia || congruence|].
      eapply walked_good_left; [done| |done|done|lia|lia].
      by apply (lock_walk o c Hown Hc Hmax Ht' _ _ nf [] M HGM' Hs').
Qed.

End All.
