(* ===== verification/LocksProps.v ===== *)
(** * File locks: the detection of deadlocks, and the properties *)

From stdpp Require Import list relations.
From Stdlib Require Import Sorting.Sorted.
From S2P Require Import Prelude Locks LocksFacts LocksReplace LocksApply.

(** Adding one edge to a relation. *)
Definition add_edge {A} (R : relation A) (u v : A) : relation A :=
  fun a b => R a b \/ a = u /\ b = v.

Lemma tc_add_edge {A} (R : relation A) u v a b :
  tc (add_edge R u v) a b -> tc R a b \/ rtc R a u /\ rtc R v b.
Proof.
  assert (Hl : forall a b c, add_edge R u v a b -> tc R b c \/ rtc R b u /\ rtc R v c ->
    tc R a c \/ rtc R a u /\ rtc R v c).
  { intros x y z [Hr|[-> ->]] [Hyz|[Hyu Hvz]].
    - left. by eapply tc_l.
    - right. split; [by eapply rtc_l|done].
    - right. split; [done|by apply tc_rtc].
    - right. done. }
  induction 1 as [x y Hxy|x y z Hxy _ IH]; [|by eapply Hl].
  destruct Hxy as [?|[-> ->]]; [left; by apply tc_once|by right].
Qed.

Definition acyclic {A} (R : relation A) : Prop := forall a, ~ tc R a a.

Lemma acyclic_add_edge {A} (R : relation A) u v :
  acyclic R -> ~ rtc R v u -> acyclic (add_edge R u v).
Proof.
  intros Hac Hvu a [Ht|[H1 H2]]%tc_add_edge; [by apply (Hac a)|]. apply Hvu. by etransitivity.
Qed.

(** The nodes of a path without the last one. *)
Lemma path_nodes {A} (R : relation A) n x y : acyclic R -> nsteps R n x y ->
  exists l, length l = n /\ NoDup l /\ forall u, u ∈ l -> rtc R x u /\ exists v, R u v.
Proof.
  intros Hac. induction 1 as [x|n x z y Hxz _ (l & Hlen & Hnd & Hl)].
  - exists []. split_and!; [done|constructor|]. by intros u ?%elem_of_nil.
  - exists (x :: l). split_and!; [cbn; by rewrite Hlen| |].
    + constructor; [|done]. intros [Hr _]%Hl. apply (Hac x). by eapply tc_rtc_r; [apply tc_once|].
    + intros u [->|Hu]%elem_of_cons; [split; [done|by exists z]|].
      destruct (Hl u Hu) as [? ?]. split; [by eapply rtc_l|done].
Qed.

(** ** Waiting for *)

(** Owner [a] has a request that waits for a lock of owner [b]. *)
Definition waits (hash : list (file_lock * file_lock)) (a b : Z) : Prop :=
  exists w bl, (w, bl) ∈ hash /\ fl_owner w = a /\ fl_owner bl = b.

(** An owner waits for one lock at a time. *)
Definition waits_once (hash : list (file_lock * file_lock)) : Prop :=
  NoDup (map (fun p => fl_owner (fst p)) hash).

Lemma waits_cons c fl hash a b :
  waits ((c, fl) :: hash) a b <-> add_edge (waits hash) (fl_owner c) (fl_owner fl) a b.
Proof.
  unfold waits, add_edge. split.
  - intros (w & bl & [[= -> ->]|Hin]%elem_of_cons & <- & <-); [by right|left; eauto].
  - intros [(w & bl & Hin & <- & <-)|[-> ->]]; [|exists c, fl; split; [left|done]].
    exists w, bl. split; [by right|done].
Qed.

Lemma waiting_for_some hash fl bl : what_owner_is_waiting_for hash fl = Some bl ->
  waits hash (fl_owner fl) (fl_owner bl).
Proof.
  induction hash as [|[w b] hash IH]; cbn; [done|]. unfold posix_same_owner. case_if.
  - intros [= <-]. exists w, b. split; [left|done].
  - intros (w' & b' & ? & ? & ?)%IH. exists w', b'. split; [by right|done].
Qed.

Lemma waiting_for_complete hash fl b : waits_once hash -> waits hash (fl_owner fl) b ->
  exists bl, what_owner_is_waiting_for hash fl = Some bl /\ fl_owner bl = b.
Proof.
  intros Hnd (w & bl & Hin & Hw & <-). induction hash as [|[w' b'] hash IH]; [by apply elem_of_nil in Hin|].
  cbn. apply NoDup_cons in Hnd as [Hni Hnd]. unfold posix_same_owner.
  apply elem_of_cons in Hin as [[= <- <-]|Hin].
  - rewrite Hw, Z.eqb_refl. by exists bl.
  - case_if; [|by apply IH]. destruct Hni. apply list_elem_of_fmap. exists (w, bl). cbn. split; [lia|done].
Qed.

Lemma deadlock_loop_sound tries hash c : forall fl,
  deadlock_loop tries hash c fl = true -> tc (waits hash) (fl_owner fl) (fl_owner c).
Proof.
  induction tries as [|tries IH]; intros fl; cbn;
    (destruct (what_owner_is_waiting_for hash fl) as [bl|] eqn:Ew; [|done]); [done|].
  apply waiting_for_some in Ew. unfold posix_same_owner. case_if.
  - intros _. rewrite E. by apply tc_once.
  - intros ?%IH. by eapply tc_l.
Qed.

Lemma deadlock_loop_complete hash c n : waits_once hash -> forall tries fl,
  nsteps (waits hash) (S n) (fl_owner fl) (fl_owner c) -> (S n <= tries)%nat ->
  deadlock_loop tries hash c fl = true.
Proof.
  intros Hnd. induction n as [|n IH]; intros [|tries] fl Hs Hle; [lia| |lia|];
    inversion_clear Hs as [|? ? b ? Hb Hs'];
    destruct (waiting_for_complete hash fl b Hnd Hb) as (bl & Ew & Hbl); cbn; rewrite Ew;
    unfold posix_same_owner; case_if; [done| |done|].
  - inversion Hs'; subst. congruence.
  - apply IH; [by rewrite Hbl|lia].
Qed.

(** A path is no longer than the table. *)
Lemma path_bounded hash n a b : acyclic (waits hash) -> nsteps (waits hash) n a b ->
  (n <= length hash)%nat.
Proof.
  intros Hac Hs. destruct (path_nodes _ _ _ _ Hac Hs) as (l & <- & Hnd & Hl).
  rewrite <- (length_map (fun p => fl_owner (fst p)) hash). apply submseteq_length, NoDup_submseteq; [done|].
  intros u [_ (v & w & bl & Hin & <- & _)]%Hl. apply list_elem_of_fmap. by exists (w, bl).
Qed.

(** * The properties of file locks *)

(** ** Waiters do not matter to what is held *)

Definition same_lock (fl fl' : file_lock) : Prop := fl' = lock_block fl (fl_block fl').

Lemma same_lock_refl fl : same_lock fl fl.
Proof. by destruct fl. Qed.

Lemma same_list_refl l : Forall2 same_lock l l.
Proof. induction l; constructor; [apply same_lock_refl|done]. Qed.

Lemma held_same l l' o x : Forall2 same_lock l l' -> held l' o x = held l o x.
Proof. induction 1 as [|fl fl' l l' Hs _ IH]; [done|]. cbn. rewrite IH. by rewrite Hs. Qed.

Lemma same_own o fl fl' : same_lock fl fl' -> own o fl -> own o fl'.
Proof. by intros ->. Qed.

Lemma Forall_same (P : file_lock -> Prop) l l' :
  (forall fl b, P fl -> P (lock_block fl b)) -> Forall2 same_lock l l' -> Forall P l -> Forall P l'.
Proof.
  intros HP. induction 1 as [|fl fl' l l' Hs _ IH]; [done|].
  intros [? ?]%Forall_cons. constructor; [rewrite Hs; auto|auto].
Qed.

Lemma group_same o G G' : Forall2 same_lock G G' -> group o G -> group o G'.
Proof.
  induction 1 as [|fl fl' G G' Hs HGG IH]; [done|]. intros (Ho & [? ? ?] & Hp & HG)%group_cons.
  apply group_cons. rewrite Hs. split_and!; [done|by split| |auto].
  by eapply Forall_same; [|exact HGG|exact Hp].
Qed.

Lemma wf_same l l' : Forall2 same_lock l l' -> wf_locks l -> wf_locks l'.
Proof.
  intros Hs Hwf o. destruct (Hwf o) as (A & G & B & [-> HA HG HB]).
  apply Forall2_app_inv_l in Hs as (A' & r' & HAA & Hs & ->).
  apply Forall2_app_inv_l in Hs as (G' & B' & HGG & HBB & ->).
  exists A', G', B'. split; [done| |by eapply group_same|].
  - by eapply Forall_same; [|exact HAA|exact HA].
  - by eapply Forall_same; [|exact HBB|exact HB].
Qed.

Lemma same_waiter pre fl b post :
  Forall2 same_lock (pre ++ fl :: post) (pre ++ lock_block fl b :: post).
Proof. apply Forall2_app; [apply same_list_refl|]. constructor; [done|apply same_list_refl]. Qed.

(** ** Conflicts *)

Lemma find_conflict_some c ls pre fl post : find_conflict c ls = Some (pre, fl, post) ->
  ls = pre ++ fl :: post /\ posix_locks_conflict c fl = true.
Proof.
  revert pre. induction ls as [|a ls IH]; intros pre; cbn; [done|].
  destruct (IS_POSIX a && posix_locks_conflict c a) eqn:Hc.
  - intros [= <- <- <-]. split; [done|]. by apply andb_true_iff in Hc as [_ ?].
  - destruct (find_conflict c ls) as [[[pre' fl'] post']|]; [|done]. intros [= <- <- <-].
    destruct (IH pre' eq_refl) as [-> ?]. done.
Qed.

Lemma conflict_posix c fl : posix_locks_conflict c fl = true -> IS_POSIX fl = true.
Proof. unfold posix_locks_conflict. by destruct (IS_POSIX fl). Qed.

Lemma find_conflict_none c ls : find_conflict c ls = None ->
  forall fl, fl ∈ ls -> posix_locks_conflict c fl = false.
Proof.
  induction ls as [|a ls IH]; cbn; [by intros _ fl ?%elem_of_nil|].
  destruct (IS_POSIX a && posix_locks_conflict c a) eqn:Hn; [done|].
  destruct (find_conflict c ls) as [[[? ?] ?]|]; [done|]. intros _ fl [->|?]%elem_of_cons; [|by apply IH].
  apply not_true_is_false. intros Hc. by rewrite (conflict_posix _ _ Hc), Hc in Hn.
Qed.

Lemma conflict_spec c fl : posix_locks_conflict c fl = true <->
  IS_POSIX fl = true /\ fl_owner c <> fl_owner fl
  /\ fl_start fl <= fl_end c /\ fl_start c <= fl_end fl
  /\ (fl_type fl = F_WRLCK \/ fl_type c = F_WRLCK).
Proof.
  unfold posix_locks_conflict, posix_same_owner, locks_overlap, locks_conflict.
  destruct (IS_POSIX fl); cbn; [|naive_solver]. repeat case_if; naive_solver lia.
Qed.

(** Every request that waits for a POSIX lock conflicts with it. *)
Definition waiting (ls : list file_lock) : Prop :=
  forall fl w, fl ∈ ls -> IS_POSIX fl = true -> w ∈ fl_block fl -> posix_locks_conflict w fl = true.

Lemma held_elem ls o x t : held ls o x = Some t ->
  exists fl, fl ∈ ls /\ own o fl /\ fl_start fl <= x <= fl_end fl /\ fl_type fl = t.
Proof.
  induction ls as [|fl ls IH]; cbn; [done|].
  destruct (IS_POSIX fl && (fl_owner fl =? o) && covers_at fl x) eqn:Hc.
  - intros [= <-]. exists fl. apply andb_true_iff in Hc as [[? ?]%andb_true_iff ?%covers_at_true].
    split; [left|]. split; [split; [done|lia]|done].
  - intros (fl' & ? & ?)%IH. exists fl'. split; [by right|done].
Qed.

Lemma wf_type ls fl : wf_locks ls -> fl ∈ ls -> IS_POSIX fl = true ->
  fl_type fl = F_RDLCK \/ fl_type fl = F_WRLCK.
Proof.
  intros Hwf Hin Hp. destruct (Hwf (fl_owner fl)) as (A & G & B & [-> HA [_ HV _] HB]).
  rewrite Forall_forall in HA, HV, HB. rewrite !elem_of_app in Hin. destruct Hin as [Hin|[Hin|Hin]].
  - by destruct (HA fl Hin).
  - by apply HV.
  - by destruct (HB fl Hin).
Qed.

(** ** What a call comes to *)

Inductive posix_outcome (hash : list (file_lock * file_lock)) (memory memory2 : bool)
    (ls : list file_lock) (c : file_lock) (r : lock_result) : Prop :=
  | po_done : lr_error r = 0 ->
      (fl_type c <> F_UNLCK -> forall fl, fl ∈ ls -> posix_locks_conflict c fl = false) ->
      (forall o x, held (lr_locks r) o x =
         if (o =? fl_owner c) && covers_at c x then wanted c else held ls o x) ->
      posix_outcome hash memory memory2 ls c r
  | po_absent : lr_error r = - ENOENT -> fl_type c = F_UNLCK -> has_flag c FL_EXISTS = true ->
      (forall x, covers_at c x = true -> held ls (fl_owner c) x = None) ->
      lr_locks r = ls -> lr_woken r = [] -> posix_outcome hash memory memory2 ls c r
  | po_nomem : lr_error r = - ENOLCK -> memory && memory2 = false ->
      lr_locks r = ls -> lr_woken r = [] -> posix_outcome hash memory memory2 ls c r
  | po_refused fl : lr_error r = - EAGAIN -> has_flag c FL_SLEEP = false ->
      fl ∈ ls -> posix_locks_conflict c fl = true ->
      lr_locks r = ls -> lr_woken r = [] -> posix_outcome hash memory memory2 ls c r
  | po_deadlock fl : lr_error r = - EDEADLK -> posix_locks_deadlock hash c fl = true ->
      fl ∈ ls -> posix_locks_conflict c fl = true ->
      lr_locks r = ls -> lr_woken r = [] -> posix_outcome hash memory memory2 ls c r
  | po_deferred pre fl post : lr_error r = FILE_LOCK_DEFERRED ->
      has_flag c FL_SLEEP = true -> posix_locks_deadlock hash c fl = false ->
      ls = pre ++ fl :: post -> posix_locks_conflict c fl = true ->
      lr_locks r = pre ++ lock_block fl (fl_block fl ++ [c]) :: post -> lr_woken r = [] ->
      posix_outcome hash memory memory2 ls c r.

(** A request as fcntl makes them. *)
Record good_request (c : file_lock) : Prop := {
  gq_posix : IS_POSIX c = true;
  gq_access : has_flag c FL_ACCESS = false;
  gq_range : 0 <= fl_start c <= fl_end c;
  gq_max : fl_end c <= OFFSET_MAX;
  gq_type : fl_type c = F_RDLCK \/ fl_type c = F_WRLCK \/ fl_type c = F_UNLCK
}.

(** The locks the request's owner has. *)
Definition own_of (c : file_lock) (ls : list file_lock) : list file_lock :=
  filter (own (fl_owner c)) ls.

Lemma own_of_split c ls A G B : split_at (fl_owner c) ls A G B -> own_of c ls = G.
Proof.
  intros [-> HA HG HB]. unfold own_of. rewrite !filter_app.
  assert (Hno : forall l, Forall (foreign (fl_owner c)) l -> filter (own (fl_owner c)) l = []).
  { induction 1 as [|fl l Hf _ IH]; [done|]. by rewrite filter_cons_False. }
  rewrite (Hno A), (Hno B); [|eapply Forall_impl; [exact HB|apply other_foreign]|done].
  rewrite app_nil_r. cbn. destruct HG as [HG _ _].
  induction HG as [|fl G Hf _ IH]; [done|]. rewrite filter_cons_True by done. by f_equal.
Qed.

(** The part of the call behind the search for conflicts. *)
Lemma apply_spec memory memory2 hash ls c :
  wf_locks ls -> good_request c -> (fl_type c <> F_UNLCK -> find_conflict c ls = None) ->
  exists nf nf2 A G B err G' wk c', split_at (fl_owner c) ls A G B /\ (G = [] -> B = [])
    /\ __posix_lock_file hash memory memory2 ls c = LockResult err (A ++ G' ++ B) wk c' None
    /\ own_of c ls = G /\ applied (fl_owner c) c nf nf2 G err G' wk
    /\ (memory && memory2 = true -> err <> - ENOLCK).
Proof.
  intros Hwf [Hp Ha Hr Hm Ht] Hnc.
  destruct (skip_others_spec c ls Hwf) as (A & G & B & Esk & Hs & Hnil).
  unfold __posix_lock_file.
  assert (Enc : (if negb (fl_type c =? F_UNLCK) then find_conflict c ls else None) = None).
  { destruct (fl_type c =? F_UNLCK) eqn:Eu; [done|]. by apply Hnc, Z.eqb_neq. }
  rewrite Enc, Ha, Esk. clear Enc. cbn [negb andb].
  set (needed := negb (fl_type c =? F_UNLCK) || _ || _).
  pose proof (own_good (fl_owner c) c (conj Hp eq_refl) Hr Hm Ht (needed && memory) (needed && memory2)
    A B G (sa_group _ _ _ _ _ Hs)) as (err & G' & wk & c' & Eg & Happ).
  rewrite <- (own_locks_app (fl_owner c) G B) in Eg;
    [|apply (sa_group _ _ _ _ _ Hs)|apply (sa_after _ _ _ _ _ Hs)|by intros i|done].
  exists (needed && memory), (needed && memory2), A, G, B, err, G', wk, c'.
  split_and!; [done|done|exact Eg|by eapply own_of_split|done|]. intros [-> ->]%andb_true_iff Herr.
  destruct Happ as [| | |Hneed Hno]; [done|done|done|]. rewrite !andb_true_r in Hno.
  rewrite andb_diag in Hno. subst needed. destruct Hneed as [Hne|Hpos].
  - by rewrite (proj2 (Z.eqb_neq _ _) Hne) in Hno.
  - rewrite (proj2 (Z.eqb_neq (fl_start c) 0)) in Hno by lia. by rewrite orb_true_r in Hno.
Qed.

(** Other owners hold what they held. *)
Lemma held_other o o' A G G' B x : Forall (own o) G -> Forall (own o) G' -> o <> o' ->
  held (A ++ G' ++ B) o' x = held (A ++ G ++ B) o' x.
Proof.
  intros HG HG' Hne. by rewrite !held_app, (held_group_other o o' G), (held_group_other o o' G').
Qed.

(** What the owner holds is what stands in the place of its locks. *)
Lemma held_middle o A G B x : Forall (foreign o) A -> Forall (other o) B -> held (A ++ G ++ B) o x = held G o x.
Proof.
  intros HA HB. rewrite !held_app, (held_foreign A) by done. destruct (held G o x); [done|].
  apply held_foreign. eapply Forall_impl; [exact HB|]. apply other_foreign.
Qed.

Lemma applied_group o c nf nf2 G err G' wk :
  group o G -> applied o c nf nf2 G err G' wk -> untrapped c G -> group o G'.
Proof. intros HG [] Hun; [by eapply rp_group|done|done|done]. Qed.

Lemma applied_done o c nf nf2 G G' wk : applied o c nf nf2 G 0 G' wk ->
  Forall (own o) G' /\ forall x, held G' o x = if covers_at c x then wanted c else held G o x.
Proof. inversion 1 as [? ? Hr| | |]; subst; [|done]. split; [apply Hr|apply (rp_held _ _ _ _ _ Hr)]. Qed.

(** C17. [__posix_lock_file] on a well formed list (POSIX locks last, the locks
    of an owner together, sorted and disjoint), for every request fcntl can
    make.  On success the first lock of the owner that covers an offset of the
    request's range has the type asked for (none does after an unlock), offsets
    outside the range and other owners have what they had, and there was no
    conflict.  Otherwise what is held does not change: without memory, with
    nothing to unlock, with a conflict that is there, with a deadlock, or
    asleep behind a conflicting lock.  The list stays well formed when the
    request is [untrapped]: the loop ends at the first lock of another type
    that the request replaces, and [untrapped] says that no lock of the owner
    behind that one meets the range.  Without it those locks stay in the list,
    as [downgrade_keeps_write_lock] shows. *)
Theorem posix_lock_file_correct hash memory memory2 ls c :
  wf_locks ls -> good_request c ->
  let r := __posix_lock_file hash memory memory2 ls c in
  posix_outcome hash memory memory2 ls c r /\ (untrapped c (own_of c ls) -> wf_locks (lr_locks r)).
Proof.
  intros Hwf Hq r. subst r.
  destruct (if negb (fl_type c =? F_UNLCK) then find_conflict c ls else None)
    as [[[pre fl] post]|] eqn:Ec.
  - unfold __posix_lock_file. rewrite Ec.
    destruct (negb (fl_type c =? F_UNLCK)); [|done].
    apply find_conflict_some in Ec as [-> Hc]. destruct (has_flag c FL_SLEEP) eqn:Esl; cbn [negb].
    2: { split; [|done]. apply (po_refused _ _ _ _ _ _ fl); try done. set_solver. }
    destruct (posix_locks_deadlock hash c fl) eqn:Hd; cbn.
    + split; [|done]. apply (po_deadlock _ _ _ _ _ _ fl); try done. set_solver.
    + split; [by eapply po_deferred|]. intros _. eapply wf_same; [apply same_waiter|done].
  - assert (Hnc : fl_type c <> F_UNLCK -> find_conflict c ls = None).
    { intros Hn. by rewrite (proj2 (Z.eqb_neq _ _) Hn) in Ec. }
    destruct (apply_spec memory memory2 hash ls c Hwf Hq Hnc)
      as (nf & nf2 & A & G & B & err & G' & wk & c' & Hs & Hnil & -> & -> & Happ & Hmem). cbn.
    split; [|intros Hun; eapply replace_group; [done|done|done|]; by eapply applied_group; [apply Hs| |]].
    destruct (Z.eq_dec err 0) as [->|Herr].
    + destruct (applied_done _ _ _ _ _ _ _ Happ) as [Hown Hheld].
      apply po_done; [done|intros Hn; by apply find_conflict_none, Hnc|]. intros o x. cbn.
      destruct (o =? fl_owner c) eqn:Eo; zbool; cbn [andb].
      * rewrite Eo, (held_split _ _ _ _ _ x Hs), <- Hheld. by apply held_middle; apply Hs.
      * rewrite (sa_eq _ _ _ _ _ Hs). eapply held_other; [apply Hs|done|done].
    + destruct Happ as [| |Ht Hex Hno|Hneed Hno]; [done|done|..].
      * rewrite <- (sa_eq _ _ _ _ _ Hs). apply po_absent; try done. intros x Hx.
        rewrite (held_split _ _ _ _ _ x Hs). by apply Hno.
      * rewrite <- (sa_eq _ _ _ _ _ Hs). apply po_nomem; try done.
        destruct (memory && memory2); [by destruct (Hmem eq_refl)|done].
Qed.

Lemma extends_conflict o w fl fl' : own o fl -> own o fl' -> extends fl fl' ->
  posix_locks_conflict w fl = true -> posix_locks_conflict w fl' = true.
Proof.
  intros [_ Ho] [Hp' Ho'] (_ & Ht & ? & ?). rewrite !conflict_spec, Ho, Ho', Ht.
  intros (_ & ? & ? & ? & ?). split_and!; done || lia.
Qed.

(** C19. The search for deadlocks.  A deadlock it reports is real, in any table
    of waiting requests: the owner of the conflicting lock waits, directly or
    through others, for the request's owner, so that the sleep would close a
    circle.  A request on behalf of an open file is never reported.  The search
    is exact for the other requests as long as each owner waits for one lock,
    nobody waits in a circle yet and at most eleven requests wait: it lets a
    request sleep behind a conflicting lock exactly if no circle arises. *)
Theorem posix_locks_deadlock_correct hash c fl :
  (posix_locks_deadlock hash c fl = true -> tc (waits hash) (fl_owner fl) (fl_owner c))
  /\ (IS_OFDLCK c = true -> posix_locks_deadlock hash c fl = false)
  /\ (IS_OFDLCK c = false -> posix_locks_conflict c fl = true ->
      waits_once hash -> acyclic (waits hash) -> (length hash <= S MAX_DEADLK_ITERATIONS)%nat ->
      posix_locks_deadlock hash c fl = false <-> acyclic (waits ((c, fl) :: hash))).
Proof.
  unfold posix_locks_deadlock. split; [|split; [by intros ->|]].
  { destruct (IS_OFDLCK c); [done|]. apply deadlock_loop_sound. }
  intros Hofd (_ & Hne & _)%conflict_spec Hnd Hac Hlen. rewrite Hofd.
  assert (Hw : forall a b, waits ((c, fl) :: hash) a b
    <-> add_edge (waits hash) (fl_owner c) (fl_owner fl) a b) by apply waits_cons.
  split.
  - intros Hno a Ha. eapply (acyclic_add_edge _ (fl_owner c) (fl_owner fl) Hac); cycle 1.
    { revert Ha. apply (tc_congruence id). intros x y. apply Hw. }
    intros Hr. apply rtc_tc in Hr as [?|Ht]; [done|]. apply tc_nsteps in Ht as (n & Hn & Hs).
    destruct n as [|n]; [lia|]. pose proof (path_bounded hash _ _ _ Hac Hs).
    rewrite (deadlock_loop_complete hash c n Hnd _ fl Hs) in Hno by lia. done.
  - intros Hnew. apply not_true_is_false. intros Ht%deadlock_loop_sound. apply (Hnew (fl_owner c)).
    apply tc_l with (fl_owner fl); [apply Hw; by right|].
    revert Ht. apply (tc_congruence id). intros x y ?. apply Hw. by left.
Qed.

(** ** Requests from user space *)

(** What fcntl accepts is a good request for the range POSIX describes. *)
Lemma flock64_request c l fl :
  0 <= lc_pos c <= OFFSET_MAX -> 0 <= lc_size c <= OFFSET_MAX ->
  - OFFSET_MAX - 1 <= l_start l <= OFFSET_MAX -> - OFFSET_MAX - 1 <= l_len l <= OFFSET_MAX ->
  flock64_to_posix_lock c l = inr fl ->
  good_request fl /\ fl_owner fl = lc_files c /\ fl_type fl = l_type l
  /\ exists base, (l_whence l = 0 /\ base = 0 \/ l_whence l = 1 /\ base = lc_pos c
                   \/ l_whence l = 2 /\ base = lc_size c)
  /\ forall x, 0 <= x <= OFFSET_MAX -> (covers_at fl x = true <->
       if l_len l =? 0 then base + l_start l <= x
       else if l_len l >? 0 then base + l_start l <= x < base + l_start l + l_len l
       else base + l_start l + l_len l <= x < base + l_start l).
Proof.
  intros Hpos Hsize Hst Hlen. unfold flock64_to_posix_lock.
  set (w := if l_whence l =? 0 then _ else _).
  assert (Hw : forall b, w = Some b -> 0 <= b <= OFFSET_MAX
    /\ (l_whence l = 0 /\ b = 0 \/ l_whence l = 1 /\ b = lc_pos c \/ l_whence l = 2 /\ b = lc_size c)).
  { intros b. subst w. repeat case_if; intros [= <-]; (split; [unfold OFFSET_MAX in *; lia|tauto]). }
  destruct w as [base|]; [|done]. destruct (Hw base eq_refl) as [Hb Hwh]. clear Hw.
  unfold OFFSET_MAX in *. case_if; [done|]. rewrite (s64_id (base + l_start l)) by lia. case_if; [done|].
  set (range := if l_len l >? 0 then _ else _).
  assert (Hr : forall s e, range = inr (s, e) -> 0 <= s <= e /\ e <= 9223372036854775807
    /\ forall x, 0 <= x <= 9223372036854775807 -> (s <= x <= e <->
       if l_len l =? 0 then base + l_start l <= x
       else if l_len l >? 0 then base + l_start l <= x < base + l_start l + l_len l
       else base + l_start l + l_len l <= x < base + l_start l)).
  { intros s e. subst range. case_if; [case_if; [done|]|case_if; [case_if; [done|]|]]; intros [= <- <-].
    - rewrite s64_id by lia. split; [lia|]. split; [lia|]. intros. case_if; lia.
    - rewrite s64_id in * by lia. split; [lia|]. split; [lia|]. intros. case_if; lia.
    - split; [lia|]. split; [lia|]. intros. case_if; lia. }
  destruct range as [|[s e]]; [done|]. destruct (Hr s e eq_refl) as (? & ? & Hx). unfold assign_type.
  case_if; [|done]. intros [= <-]. split_and!; [|done|done|].
  - split; [done|done|done|done|]. cbn. lia.
  - exists base. split; [done|]. intros x Hxr. rewrite covers_at_true. cbn. by apply Hx.
Qed.

Lemma assign_type_ok fl t : t = F_RDLCK \/ t = F_WRLCK \/ t = F_UNLCK ->
  assign_type fl t = inr (lock_type fl t).
Proof. by intros [->|[->| ->]]. Qed.

(** Describing a lock to user space and asking for it again gives its range. *)
Lemma posix_lock_flock_roundtrip c fl : good_request fl ->
  exists fl', flock64_to_posix_lock c (posix_lock_to_flock fl) = inr fl'
    /\ fl_start fl' = fl_start fl /\ fl_end fl' = fl_end fl /\ fl_type fl' = fl_type fl.
Proof.
  intros [_ _ Hr Hm Ht]. unfold flock64_to_posix_lock, posix_lock_to_flock, OFFSET_MAX in *.
  cbn [l_whence l_start l_len l_type Z.eqb]. case_if; [lia|].
  rewrite Z.add_0_l, (s64_id (fl_start fl)) by lia. case_if; [lia|].
  destruct (fl_end fl =? 9223372036854775807) eqn:Ee; zbool.
  - cbn -[assign_type]. rewrite assign_type_ok by done. eexists. by split.
  - repeat case_if; try lia. rewrite assign_type_ok, s64_id by done || lia. eexists.
    split; [done|]. cbn. split_and!; lia.
Qed.

(** ** Where the code departs from its description *)

Definition demo_lock (owner type start end_ : Z) : file_lock :=
  FileLock owner owner 50 FL_POSIX type start end_ [].

(** An owner with two write locks turns them into one read lock.  The call
    succeeds, but the loop ends at the first lock it replaces: the second
    write lock stays and still keeps readers out. *)
Example downgrade_keeps_write_lock :
  let ls := [demo_lock 1 F_WRLCK 0 9; demo_lock 1 F_WRLCK 20 29] in
  let r := __posix_lock_file [] true true ls (demo_lock 1 F_RDLCK 0 29) in
  lr_error r = 0 /\ lr_locks r = [demo_lock 1 F_RDLCK 0 29; demo_lock 1 F_WRLCK 20 29]
  /\ lr_error (__posix_lock_file [] true true (lr_locks r) (demo_lock 2 F_RDLCK 20 29)) = - EAGAIN.
Proof. vm_compute. split_and!; reflexivity. Qed.

(** Setting a lock of the open file while another thread closes the descriptor:
    the second pass does not release that lock but the lock the process had. *)
Example ofd_race_releases_other_lock :
  let e := SetlkEnv (LockCaller 50 0 0 1 1) true true (fun _ => 0) [] true true false false in
  let ls := [demo_lock 1 F_RDLCK 0 9] in
  fcntl_setlk e true F_OFD_SETLK (Some (Flock64 F_RDLCK 0 0 10 0)) ls
  = (0, [FileLock 50 1 50 (Z.lor FL_POSIX FL_OFDLCK) F_RDLCK 0 9 []], []).
Proof. vm_compute. reflexivity. Qed.

(** A circle through more waiters than the search follows is not found. *)
Example deadlock_chain_missed :
  let hash := map (fun i => (demo_lock i F_WRLCK 0 9, demo_lock (i + 1) F_WRLCK 0 9))
                [1; 2; 3; 4; 5; 6; 7; 8; 9; 10; 11; 12] in
  posix_locks_deadlock hash (demo_lock 13 F_WRLCK 0 9) (demo_lock 1 F_WRLCK 0 9) = false
  /\ posix_locks_deadlock hash (demo_lock 13 F_WRLCK 0 9) (demo_lock 2 F_WRLCK 0 9) = true.
Proof. vm_compute. split; reflexivity. Qed.

(** ** Witnesses *)

Definition demo_locks : list file_lock :=
  [demo_lock 1 F_RDLCK 0 9; demo_lock 1 F_WRLCK 20 29; demo_lock 2 F_RDLCK 100 109].

Lemma demo_group o ls : ls = [] \/ ls = [demo_lock 1 F_RDLCK 0 9; demo_lock 1 F_WRLCK 20 29] /\ o = 1
  \/ ls = [demo_lock 2 F_RDLCK 100 109] /\ o = 2 -> group o ls.
Proof.
  assert (Hv : forall o t s e, 0 <= s <= e -> e <= OFFSET_MAX -> t = F_RDLCK \/ t = F_WRLCK ->
    own o (demo_lock o t s e) /\ valid_lock (demo_lock o t s e)) by (intros; split; [done|by split]).
  intros [->|[[-> ->]|[-> ->]]]; [apply group_nil|..].
  - apply group_cons. destruct (Hv 1 F_RDLCK 0 9) as [? ?]; [lia|done|by left|].
    destruct (Hv 1 F_WRLCK 20 29) as [? ?]; [lia|done|by right|].
    split_and!; [done|done|by apply Forall_singleton|].
    apply group_cons. split_and!; [done|done|constructor|apply group_nil].
  - apply group_cons. destruct (Hv 2 F_RDLCK 100 109) as [? ?]; [lia|done|by left|].
    split_and!; [done|done|constructor|apply group_nil].
Qed.

Lemma demo_locks_wf : wf_locks demo_locks.
Proof.
  intros o. destruct (decide (o = 1)) as [->|H1]; [|destruct (decide (o = 2)) as [->|H2]].
  - exists [], [demo_lock 1 F_RDLCK 0 9; demo_lock 1 F_WRLCK 20 29], [demo_lock 2 F_RDLCK 100 109].
    split; [done|constructor|apply demo_group; tauto|]. by apply Forall_singleton.
  - exists [demo_lock 1 F_RDLCK 0 9; demo_lock 1 F_WRLCK 20 29], [demo_lock 2 F_RDLCK 100 109], [].
    split; [done| |apply demo_group; tauto|constructor].
    apply Forall_cons_2; [by intros [? ?]|]. apply Forall_singleton. by intros [? ?].
  - exists demo_locks, [], []. apply foreign_split.
    repeat (apply Forall_cons_2; [intros [_ ?]; cbn in *; lia|]). constructor.
Qed.

Definition demo_request : file_lock := demo_lock 1 F_RDLCK 5 40.

Lemma demo_request_good : good_request demo_request.
Proof. split; [done|done|cbn; lia|done|by left]. Qed.

Lemma demo_untrapped : untrapped demo_request (own_of demo_request demo_locks).
Proof.
  right. change (own_of demo_request demo_locks) with [demo_lock 1 F_RDLCK 0 9; demo_lock 1 F_WRLCK 20 29].
  intros fl1 fl2 [->|H1]%elem_of_cons [->|H2]%elem_of_cons; try done.
  - apply list_elem_of_singleton in H1 as ->. unfold precedes. cbn. lia.
  - apply list_elem_of_singleton in H1 as ->, H2 as ->. unfold precedes. cbn. lia.
Qed.

Lemma posix_lock_file_correct_witness :
  posix_outcome [] true true demo_locks demo_request
    (__posix_lock_file [] true true demo_locks demo_request)
  /\ wf_locks (lr_locks (__posix_lock_file [] true true demo_locks demo_request)).
Proof.
  destruct (posix_lock_file_correct [] true true demo_locks demo_request demo_locks_wf demo_request_good) as [Ho Hw].
  split; [exact Ho|exact (Hw demo_untrapped)].
Defined.

(** Owner 2 waits for owner 3, which waits for owner 1: owner 1 must not wait
    for owner 2, owner 4 may. *)
Definition demo_waiting : list (file_lock * file_lock) :=
  [(demo_lock 2 F_WRLCK 0 9, demo_lock 3 F_WRLCK 0 9); (demo_lock 3 F_WRLCK 20 29, demo_lock 1 F_WRLCK 20 29)].

Lemma demo_waiting_edges a b : waits demo_waiting a b -> a = 2 /\ b = 3 \/ a = 3 /\ b = 1.
Proof.
  intros (w & bl & [[= -> ->]|[[= -> ->]|?%elem_of_nil]%elem_of_cons]%elem_of_cons & <- & <-); [by left|by right|done].
Qed.

Lemma demo_waiting_acyclic : acyclic (waits demo_waiting).
Proof.
  assert (Hr : forall a b, tc (waits demo_waiting) a b -> (a = 2 \/ a = 3) /\ (b = 1 \/ b = 3) /\ ~ (a = 3 /\ b = 3)).
  { induction 1 as [a b H|a b d H _ IH]; apply demo_waiting_edges in H; [lia|]. lia. }
  intros a Ha%Hr. lia.
Qed.

Lemma demo_waiting_once : waits_once demo_waiting.
Proof. unfold waits_once. cbn. repeat constructor; set_solver. Qed.

Lemma posix_locks_deadlock_correct_witness :
  tc (waits demo_waiting) 2 1
  /\ acyclic (waits ((demo_lock 4 F_WRLCK 0 9, demo_lock 2 F_WRLCK 0 9) :: demo_waiting)).
Proof.
  destruct (posix_locks_deadlock_correct demo_waiting (demo_lock 1 F_WRLCK 0 9) (demo_lock 2 F_WRLCK 0 9)) as [Hs _].
  destruct (posix_locks_deadlock_correct demo_waiting (demo_lock 4 F_WRLCK 0 9) (demo_lock 2 F_WRLCK 0 9)) as (_ & _ & He).
  split; [apply Hs; reflexivity|]. refine (proj1 (He eq_refl eq_refl demo_waiting_once demo_waiting_acyclic _) eq_refl). vm_compute. lia.
Defined.
