(* ===== verification/LocksSafe.v ===== *)
(** * What every call for a POSIX lock keeps, whatever the owner's locks

    The loop of [__posix_lock_file] can end before it has seen every lock of
    the owner that meets the request, and the list then is no longer sorted
    and disjoint.  The facts of this file need neither: each lock the call
    makes or changes covers only offsets of the request or of a lock the owner
    had of that type, a lock that keeps waiters has grown, and no waiter is
    forgotten. *)

From stdpp Require Import list.
From Stdlib Require Import Sorting.Sorted.
From S2P Require Import Prelude Locks LocksFacts LocksReplace LocksProps.

(** POSIX locks come last. *)
Definition posix_tail (ls : list file_lock) : Prop :=
  StronglySorted (fun a b => IS_POSIX a = true -> IS_POSIX b = true) ls.

Definition rd_or_wr (fl : file_lock) : Prop := fl_type fl = F_RDLCK \/ fl_type fl = F_WRLCK.

Definition typed (ls : list file_lock) : Prop :=
  Forall (fun fl => IS_POSIX fl = true -> rd_or_wr fl) ls.

Section Sound.
Context (c : file_lock) (L : list file_lock) (Hq : good_request c)
  (HL : Forall (fun fl => IS_POSIX fl = true /\ rd_or_wr fl) L).
Abbreviation o := (fl_owner c).

(** Offset [x] is covered by the request, or by a lock of the owner, with type [t]. *)
Definition backed (t x : Z) : Prop :=
  t = fl_type c /\ covers_at c x = true
  \/ exists fl, fl ∈ L /\ fl_owner fl = o /\ fl_type fl = t /\ covers_at fl x = true.

Record derived (fl : file_lock) : Prop := {
  dv_own : own o fl;
  dv_type : rd_or_wr fl;
  dv_points : forall x, covers_at fl x = true -> backed (fl_type fl) x;
  dv_waiters : fl_block fl = [] \/ exists fl0, fl0 ∈ L /\ fl_owner fl0 = o /\ extends fl0 fl
}.

(** The request as it stands in the loop. *)
Record request_ok (r : file_lock) : Prop := {
  rq_own : own o r;
  rq_type : fl_type r = fl_type c;
  rq_range : fl_start r <= fl_end r;
  rq_points : forall x, covers_at r x = true -> backed (fl_type c) x
}.

Record walk_ok (A : list file_lock) (w : walk) (rest : list file_lock) : Prop := {
  wk_done : exists D, w_done w = A ++ D /\ Forall derived D;
  wk_request : request_ok (w_request w);
  wk_at : forall i, w_at w = Some i -> (length A <= i < length (w_done w))%nat;
  wk_left : forall i, w_left w = Some i -> exists fl, w_done w !! i = Some fl /\ (length A <= i)%nat
    /\ fl_type fl <> fl_type c /\ fl_start (w_request w) <= fl_end fl;
  wk_added : w_added w = true -> w_at w <> None \/ fl_type c = F_UNLCK;
  wk_wake : forall fl u, fl ∈ L -> u ∈ fl_block fl ->
    u ∈ w_woken w \/ (exists fl', fl' ∈ w_done w /\ u ∈ fl_block fl') \/ fl ∈ rest;
  wk_rest : forall fl, fl ∈ rest -> fl ∈ L
}.

(** ** One lock *)

Lemma in_list fl : fl ∈ L -> IS_POSIX fl = true /\ rd_or_wr fl.
Proof. rewrite Forall_forall in HL. auto. Qed.

Lemma in_list_derived fl : fl ∈ L -> fl_owner fl = o -> derived fl.
Proof.
  intros Hin Ho. destruct (in_list fl Hin). split; [done|done|intros x Hx; right; eauto|right].
  exists fl. split_and!; [done|done|apply extends_refl].
Qed.

(** A lock cut down loses its waiters. *)
Lemma cut_derived fl s e : derived fl -> fl_start fl <= s -> e <= fl_end fl ->
  derived (lock_block (lock_range fl s e) []).
Proof.
  intros [Ho Ht Hx _] Hs He. split; [done|done| |by left]. intros x Hcx. apply Hx.
  rewrite covers_at_true in *. cbn in Hcx. lia.
Qed.

(** A lock that grows keeps them. *)
Lemma grown_derived fl s e : derived fl -> s <= fl_start fl -> fl_end fl <= e ->
  (forall x, s <= x <= e -> backed (fl_type fl) x) -> derived (lock_range fl s e).
Proof.
  intros [Ho Ht _ Hw] Hs He Hx. split; [done|done| |].
  - intros x. rewrite covers_at_true. apply Hx.
  - destruct Hw as [?|(fl0 & ? & ? & ? & ? & ? & ?)]; [by left|right]. exists fl0.
    split_and!; [done|done|]. unfold extends. cbn. split_and!; done || lia.
Qed.

Lemma copy_derived r : request_ok r -> fl_type c <> F_UNLCK -> derived (locks_copy_lock r).
Proof.
  intros [Ho Ht _ Hx] Hn. split; [done| |intros x; cbn; rewrite Ht; apply Hx|by left].
  unfold rd_or_wr. cbn. rewrite Ht. destruct (gq_type c Hq) as [?|[?|?]]; tauto.
Qed.

Lemma range_request r s e : request_ok r -> s <= fl_start r -> fl_end r <= e ->
  (forall x, s <= x <= e -> backed (fl_type c) x) -> request_ok (lock_range r s e).
Proof.
  intros [Ho Ht Hr _] Hs He Hx. split; [done|done|cbn; lia|]. intros x. rewrite covers_at_true. apply Hx.
Qed.

(** Two touching ranges of one type, merged. *)
Lemma merged_backed r fl x : request_ok r -> fl ∈ L -> fl_owner fl = o -> fl_type fl = fl_type c ->
  fl_start r - 1 <= fl_end fl -> fl_start fl - 1 <= fl_end r ->
  Z.min (fl_start r) (fl_start fl) <= x <= Z.max (fl_end r) (fl_end fl) -> backed (fl_type c) x.
Proof.
  intros [_ _ Hr Hp] Hin Ho Ht H1 H2 Hx. destruct (covers_at r x) eqn:Hc; [by apply Hp|]. right. exists fl.
  split_and!; try done. apply covers_at_false in Hc. apply covers_at_true. lia.
Qed.

(** ** The moves of the loop *)

Lemma ok_at w A rest : walk_ok A w rest -> at_ok w.
Proof. intros Hw i Hi. by apply (wk_at _ _ _ Hw) in Hi as [_ ?]. Qed.

(** The lock the request is, when it is in the list. *)
Lemma request_lookup w A rest i : walk_ok A w rest -> w_at w = Some i ->
  w_done w !! i = Some (w_request w).
Proof.
  intros Hw Hi. unfold w_request. rewrite Hi. destruct (wk_at _ _ _ Hw i Hi) as [_ Hlt].
  apply lookup_lt_is_Some in Hlt as [fl Hl]. by rewrite Hl, (nth_lookup_Some _ _ _ _ Hl).
Qed.

Lemma set_request_ok A w rest s e : walk_ok A w rest ->
  s <= fl_start (w_request w) -> fl_end (w_request w) <= e ->
  (forall x, s <= x <= e -> backed (fl_type c) x) -> walk_ok A (set_request w s e) rest.
Proof.
  intros Hw Hs He Hx. pose proof (ok_at _ _ _ Hw) as Hat. pose proof (w_request_set w s e Hat) as Er.
  pose proof (range_request _ s e (wk_request _ _ _ Hw) Hs He Hx) as Hr. rewrite <- Er in Hr.
  destruct (w_at w) as [i|] eqn:Ei.
  2: { unfold set_request in *. rewrite Ei in *. destruct Hw as [H1 H2 H3 H4 H5 H6 H7]. split; try done.
       - intros j Hj. destruct (H4 j Hj) as (fl & ? & ? & ? & ?). exists fl. rewrite Er. cbn. split_and!; done || lia.
       - intros Ha. cbn in Ha. destruct (H5 Ha) as [[]|]; [done|by right]. }
  pose proof (request_lookup _ _ _ _ Hw Ei) as Hi. pose proof (wk_at _ _ _ Hw i Ei) as [Hlo Hhi].
  destruct (wk_done _ _ _ Hw) as (D & ED & HD).
  assert (Edone : w_done (set_request w s e) = alter (fun fl => lock_range fl s e) i (w_done w)) by (unfold set_request; by rewrite Ei).
  assert (Eat : w_at (set_request w s e) = Some i) by (unfold set_request; by rewrite Ei).
  assert (Eleft : w_left (set_request w s e) = w_left w) by (unfold set_request; by rewrite Ei).
  assert (Ewoken : w_woken (set_request w s e) = w_woken w) by (unfold set_request; by rewrite Ei).
  split; [| done | | | | |apply (wk_rest _ _ _ Hw)].
  - exists (alter (fun fl => lock_range fl s e) (i - length A)%nat D). rewrite Edone, ED. split.
    + replace i with (length A + (i - length A))%nat at 1 by lia. apply alter_app_r.
    + apply Forall_alter; [done|]. intros fl Hfl Hdv. rewrite ED, lookup_app_r in Hi by done. rewrite Hfl in Hi.
      injection Hi as ->. apply grown_derived; [done|done|done|]. by rewrite (rq_type _ (wk_request _ _ _ Hw)).
  - intros j. rewrite Eat, Edone, length_alter. intros [= <-]. lia.
  - intros j. rewrite Eleft, Edone, Er. intros Hj. destruct (wk_left _ _ _ Hw j Hj) as (fl & Hl & ? & Ht & ?).
    assert (i <> j). { intros ->. rewrite Hl in Hi. injection Hi as ->. by destruct Ht, (wk_request _ _ _ Hw). }
    exists fl. rewrite list_lookup_alter_ne by done. cbn. split_and!; done || lia.
  - intros _. left. by rewrite Eat.
  - intros fl u Hfl Hu. rewrite Ewoken. destruct (wk_wake _ _ _ Hw fl u Hfl Hu) as [?|[(fl' & Hin & Hb)|?]]; [by left| |by auto].
    right. left. apply list_elem_of_lookup in Hin as [j Hj]. destruct (decide (i = j)) as [<-|Hne].
    + exists (lock_range fl' s e). split; [|done]. apply list_elem_of_lookup. exists i. rewrite Edone, list_lookup_alter_eq, Hj. done.
    + exists fl'. split; [|done]. apply list_elem_of_lookup. exists j. by rewrite Edone, list_lookup_alter_ne.
Qed.

(** What is handed on when [rest0] is reduced to [rest]. *)
Definition handed_on (rest0 rest : list file_lock) (fl' : file_lock) : Prop :=
  (forall fl, fl ∈ rest -> fl ∈ rest0)
  /\ forall fl u, fl ∈ rest0 -> u ∈ fl_block fl -> fl ∈ rest \/ u ∈ fl_block fl'.

Lemma handed_cons fl fl' rest : fl_block fl' = fl_block fl -> handed_on (fl :: rest) rest fl'.
Proof.
  intros Hb. split; [intros ? ?; by right|]. intros x u [->|?]%elem_of_cons Hu; [right; by rewrite Hb|by left].
Qed.

Lemma next_lock_ok A w rest0 rest fl' : walk_ok A w rest0 -> handed_on rest0 rest fl' -> derived fl' ->
  walk_ok A (next_lock w fl') rest.
Proof.
  intros Hw [Hsub Hh] Hd. pose proof (w_request_next w fl' (ok_at _ _ _ Hw)) as Er.
  destruct Hw as [(D & ED & HD) H2 H3 H4 H5 H6 H7]. split; cbn; rewrite ?Er; try done.
  - exists (D ++ [fl']). rewrite ED, <- app_assoc. split; [done|]. apply Forall_app_2; [done|by apply Forall_singleton].
  - intros i Hi. rewrite length_app. cbn. specialize (H3 i Hi). lia.
  - intros i Hi. destruct (H4 i Hi) as (fl & Hl & ?). exists fl. split; [|done]. by apply lookup_app_l_Some.
  - intros fl u Hfl Hu. destruct (H6 fl u Hfl Hu) as [?|[(fl0 & ? & ?)|Hr]]; [by left|right; left; exists fl0; set_solver|].
    destruct (Hh fl u Hr Hu) as [?|?]; [by auto|]. right. left. exists fl'. set_solver.
  - intros fl Hfl. by apply H7, Hsub.
Qed.

Lemma here_ok A w rest0 rest fl' : walk_ok A w rest0 -> handed_on rest0 rest fl' -> derived fl' ->
  request_ok fl' -> fl_start fl' <= fl_start (w_request w) ->
  walk_ok A (next_lock (request_is_here w) fl') rest.
Proof.
  intros Hw Hh Hd Hr Hs. pose proof (w_request_here w fl') as Er. pose proof (next_lock_ok A w rest0 rest fl' Hw Hh Hd) as Hn.
  pose proof (w_request_next w fl' (ok_at _ _ _ Hw)) as En. destruct (wk_done _ _ _ Hw) as (D & ED & _).
  destruct Hn as [H1 _ _ H4 _ H6 H7]. split; rewrite ?Er; cbn in *; try done.
  - intros i [= <-]. rewrite ED, !length_app. cbn. lia.
  - intros i Hi. destruct (H4 i Hi) as (fl & ? & ? & ? & ?). exists fl. rewrite En in *. split_and!; done || lia.
  - by left.
Qed.

Lemma delete_ok A w rest fl fl' : walk_ok A w (fl :: rest) -> fl_block fl' = fl_block fl ->
  walk_ok A (locks_delete_lock w fl') rest.
Proof.
  intros [H1 H2 H3 H4 H5 H6 H7] Hb. split; cbn; try done; [|by intros x ?; apply H7; right].
  intros x u Hx Hu. destruct (H6 x u Hx Hu) as [?|[?|[->|?]%elem_of_cons]]; [left; set_solver|by auto| |by auto].
  left. rewrite Hb. set_solver.
Qed.

Lemma take_new_ok A w rest : walk_ok A w rest -> walk_ok A (take_new_fl w) rest.
Proof. by intros []. Qed.

Lemma added_ok A w rest : fl_type c = F_UNLCK -> walk_ok A w rest -> walk_ok A (set_added w) rest.
Proof. intros ? []. split; try done. by right. Qed.

Lemma left_ok A w rest fl : walk_ok A w (fl :: rest) -> fl_owner fl = o -> fl_type fl <> fl_type c ->
  fl_start (w_request w) <= fl_end fl -> walk_ok A (next_lock (set_left w) fl) rest.
Proof.
  intros Hw Ho Ht Hs. assert (Hin : fl ∈ L) by (apply (wk_rest _ _ _ Hw); left).
  pose proof (next_lock_ok A w (fl :: rest) rest fl Hw (handed_cons fl fl rest eq_refl) (in_list_derived fl Hin Ho)) as Hn.
  pose proof (w_request_next w fl (ok_at _ _ _ Hw)) as En. destruct (wk_done _ _ _ Hw) as (D & ED & _).
  destruct Hn as [H1 H2 H3 _ H5 H6 H7]. split; try done. intros i [= <-]. exists fl. cbn.
  split; [by apply list_lookup_middle|]. split; [rewrite ED, length_app; lia|]. split; [done|].
  change (fl_start (w_request (next_lock w fl)) <= fl_end fl). by rewrite En.
Qed.

(** The end of the loop, with [right] or without. *)
Definition stop_ok (A : list file_lock) (w : walk) (rest : list file_lock) (rt : bool) : Prop :=
  if rt then
    exists w0 r rest', rest = r :: rest' /\ walk_ok A w0 rest /\ fl_owner r = o /\ fl_type r <> fl_type c
      /\ fl_start r <= fl_end (w_request w) < fl_end r
      /\ (w = w0 \/ w = set_left w0 /\ fl_start r < fl_start (w_request w))
  else walk_ok A w rest.

Lemma own_locks_ok A rest : forall w, walk_ok A w rest ->
  match own_locks w rest with
  | NoLuck w' rest' => walk_ok A w' rest'
  | Stopped w' rest' rt => stop_ok A w' rest' rt
  end.
Proof.
  induction rest as [|fl rest IH]; intros w Hw; [done|]. cbn [own_locks].
  pose proof (wk_request _ _ _ Hw) as Hr. pose proof Hr as [[Hrp Hro] Hrt Hrr _]. set (r := w_request w) in *.
  unfold posix_same_owner. rewrite Hro. destruct (o =? fl_owner fl) eqn:Ho; cbn [negb]; [|done].
  assert (Hin : fl ∈ L) by (apply (wk_rest _ _ _ Hw); left). apply Z.eqb_eq in Ho. symmetry in Ho.
  pose proof (in_list_derived fl Hin Ho) as Hd. pose proof (in_list fl Hin) as [Hfp Hft].
  assert (Hnext : walk_ok A (next_lock w fl) rest) by (by eapply next_lock_ok; [|apply handed_cons|]).
  rewrite Hrt. destruct (fl_type c =? fl_type fl) eqn:Et; zbool.
  - case_if; [by apply IH|]. case_if; [done|]. rewrite merge_start, merge_end.
    set (s := Z.min _ _). set (e := Z.max _ _).
    assert (Hb : forall x, s <= x <= e -> backed (fl_type c) x) by (intros x Hx; apply (merged_backed r fl); done || lia).
    assert (Hs : walk_ok A (set_request w s e) (fl :: rest)) by (apply set_request_ok; [done|subst s e; fold r; lia..|done]).
    destruct (w_added (set_request w s e)); [by apply IH; eapply delete_ok|].
    apply IH. eapply here_ok; [done|by apply handed_cons| | |].
    + apply grown_derived; [done|lia|lia|]. by rewrite <- Et.
    + split; [split; [done|cbn; lia]|done|cbn; lia|]. intros x. rewrite covers_at_true. apply Hb.
    + rewrite w_request_set by (by eapply ok_at). done.
  - case_if; [by apply IH|]. case_if; [done|].
    set (w1 := if fl_type c =? F_UNLCK then set_added w else w).
    assert (Hw1 : walk_ok A w1 (fl :: rest) /\ w_request w1 = r /\ (w_added w1 = false -> fl_type c <> F_UNLCK)).
    { subst w1. case_if; [split; [by apply added_ok|done]|done]. }
    destruct Hw1 as (Hw1 & Er & Hadd). clearbody w1. set (w2 := if fl_start fl <? fl_start r then set_left w1 else w1).
    case_if.
    + exists w1, fl, rest. subst w2. split_and!; [done|done|done|congruence|case_if; fold r; change (w_request (set_left w1)) with (w_request w1); rewrite Er; lia|case_if; fold r; change (w_request (set_left w1)) with (w_request w1); rewrite Er; lia|].
      case_if; [right|by left]. split; [done|]. change (w_request (set_left w1)) with (w_request w1). rewrite Er. lia.
    + subst w2. case_if.
      * rewrite (proj2 (Z.ltb_ge (fl_start fl) (fl_start r))) by lia. case_if; [by apply IH; eapply delete_ok|].
        case_if; [done|]. cbn [stop_ok]. eapply here_ok; [by apply take_new_ok; eapply delete_ok| | | |].
        -- split; [done|]. intros; by left.
        -- apply copy_derived; [done|by apply Hadd].
        -- destruct Hr. split; done.
        -- change (fl_start r <= fl_start (w_request w1)). rewrite Er. lia.
      * rewrite (proj2 (Z.ltb_lt (fl_start fl) (fl_start r))) by lia.
        apply IH, left_ok; [done|done|congruence|rewrite Er; lia].
Qed.
(** ** The end of the call *)

(** The list left behind [A], and the waiters woken. *)
Definition result_ok (A locks woken : list file_lock) : Prop :=
  (exists T, locks = A ++ T /\ Forall (fun fl => derived fl \/ fl ∈ L) T)
  /\ forall fl u, fl ∈ L -> u ∈ fl_block fl -> u ∈ woken \/ exists fl', fl' ∈ locks /\ u ∈ fl_block fl'.

Lemma rest_fine rest : (forall fl, fl ∈ rest -> fl ∈ L) -> Forall (fun fl => derived fl \/ fl ∈ L) rest.
Proof. intros Hs. apply Forall_forall. auto. Qed.

Lemma derived_fine D : Forall derived D -> Forall (fun fl => derived fl \/ fl ∈ L) D.
Proof. intros HD. eapply Forall_impl; [exact HD|]. auto. Qed.

(** The list with [left] cut. *)
Lemma cut_left_ok A w rest : walk_ok A w rest ->
  let (done, woken) := cut_left w (fl_start (w_request w) - 1) in
  (exists D, done = A ++ D /\ Forall derived D)
  /\ forall fl u, fl ∈ w_done w -> u ∈ fl_block fl -> u ∈ woken \/ exists fl', fl' ∈ done /\ u ∈ fl_block fl'.
Proof.
  intros Hw. destruct (wk_done _ _ _ Hw) as (D & ED & HD). unfold cut_left.
  destruct (w_left w) as [i|] eqn:El; [|split; [by exists D|eauto]].
  destruct (wk_left _ _ _ Hw i El) as (fl & Hl & Hlo & _ & Hs). rewrite Hl. split.
  - eexists (alter _ (i - length A)%nat D). rewrite ED. split.
    + replace i with (length A + (i - length A))%nat at 1 by lia. apply alter_app_r.
    + apply Forall_alter; [done|]. intros fl0 Hfl Hd. rewrite ED, lookup_app_r in Hl by done. rewrite Hfl in Hl.
      injection Hl as ->. apply cut_derived; [done|lia|lia].
  - intros fl0 u Hin Hu. apply list_elem_of_lookup in Hin as [j Hj]. destruct (decide (i = j)) as [<-|Hne].
    + left. rewrite Hl in Hj. by injection Hj as ->.
    + right. exists fl0. split; [|done]. apply list_elem_of_lookup. exists j. by rewrite list_lookup_alter_ne.
Qed.

Lemma kept_ok A w rest : walk_ok A w rest -> result_ok A (w_done w ++ rest) (w_woken w).
Proof.
  intros [(D & -> & HD) _ _ _ _ Hwk Hs]. split.
  - exists (D ++ rest). rewrite <- app_assoc. split; [done|].
    apply Forall_app_2; [by apply derived_fine|by apply rest_fine].
  - intros fl u Hfl Hu. destruct (Hwk fl u Hfl Hu) as [?|[(fl' & ? & ?)|?]]; [by left|right; exists fl'; set_solver|].
    right. exists fl. set_solver.
Qed.

(** Something put in before [rest], the first lock of which may be replaced. *)
Lemma put_lock_safe A w rest new tail woken : walk_ok A w rest ->
  Forall derived new -> Forall (fun fl => derived fl \/ fl ∈ L) tail ->
  (forall fl u, fl ∈ rest -> u ∈ fl_block fl -> u ∈ woken \/ fl ∈ tail) ->
  let (done, wl) := cut_left w (fl_start (w_request w) - 1) in
  result_ok A (done ++ new ++ tail) (w_woken w ++ woken ++ wl).
Proof.
  intros Hw Hn Ht Hr. pose proof (cut_left_ok A w rest Hw) as Hcut.
  destruct (cut_left w _) as [done wl]. destruct Hcut as [(D & -> & HD) Hl]. split.
  - exists (D ++ new ++ tail). rewrite <- app_assoc. split; [done|].
    repeat apply Forall_app_2; [by apply derived_fine|by apply derived_fine|done].
  - intros fl u Hfl Hu. destruct (wk_wake _ _ _ Hw fl u Hfl Hu) as [?|[(fl' & Hin & Hb)|Hin]]; [left; set_solver| |].
    + destruct (Hl fl' u Hin Hb) as [?|(fl2 & ? & ?)]; [left; set_solver|right; exists fl2; set_solver].
    + destruct (Hr fl u Hin Hu) as [?|?]; [left; set_solver|right; exists fl; set_solver].
Qed.

Lemma inserted_ok A w rest : walk_ok A w rest -> (w_added w = false -> fl_type c <> F_UNLCK) ->
  Forall derived (if w_added w then [] else [locks_copy_lock (w_request w)]).
Proof.
  intros Hw Ha. destruct (w_added w); [constructor|]. apply Forall_singleton, copy_derived; [apply Hw|by apply Ha].
Qed.

Lemma finish_locks_safe A w rest rt nf2 : stop_ok A w rest rt ->
  let r := finish_locks w rest rt nf2 in result_ok A (lr_locks r) (lr_woken r).
Proof.
  intros Hs r. subst r. unfold finish_locks.
  assert (Hkeep : result_ok A (w_done w ++ rest) (w_woken w ++ [])).
  { rewrite app_nil_r. destruct rt; [|by apply kept_ok].
    destruct Hs as (w0 & r & rest' & _ & Hw & _ & _ & _ & [->|[-> _]]); by apply (kept_ok A w0). }
  case_if; [done|]. destruct (negb (w_added w) && (fl_type (w_request w) =? F_UNLCK)) eqn:Eu; [by case_if|].
  case_if; [done|].
  assert (Hadd : fl_type (w_request w) = fl_type c -> w_added w = false -> fl_type c <> F_UNLCK).
  { intros Ht Ha Hu. destruct Eu as [Eu|Eu]; [by rewrite Ha in Eu|zbool; congruence]. }
  destruct rt; cbn [stop_ok] in Hs.
  - destruct Hs as (w0 & r & rest' & -> & Hw & Ho & Ht & [Hr1 Hr2] & Hcase).
    assert (Hin : r ∈ L) by (apply (wk_rest _ _ _ Hw); left). pose proof (in_list_derived r Hin Ho) as Hd.
    assert (Hrest : Forall (fun fl => derived fl \/ fl ∈ L) rest') by (apply rest_fine; intros; apply (wk_rest _ _ _ Hw); by right).
    assert (Hcut : Forall (fun fl => derived fl \/ fl ∈ L)
      (lock_block (lock_range r (fl_end (w_request w) + 1) (fl_end r)) [] :: rest')).
    { constructor; [left; apply cut_derived; [done|lia|lia]|done]. }
    destruct Hcase as [<-|[-> Hlt]].
    + pose proof (inserted_ok A w _ Hw (Hadd (rq_type _ (wk_request _ _ _ Hw)))) as Hi.
      rewrite bool_decide_eq_false_2.
      2: { intros Hl. destruct (wk_left _ _ _ Hw _ Hl) as (fl & Hl' & _). apply lookup_lt_Some in Hl'. lia. }
      cbn [andb]. pose proof (put_lock_safe A w (r :: rest') _ _ (fl_block r) Hw Hi Hcut) as Hput.
      destruct (cut_left w _) as [done wl]. apply Hput. intros fl u [->|?]%elem_of_cons ?; [by left|right; by right].
    + change (w_request (set_left w0)) with (w_request w0) in *. change (w_added (set_left w0)) with (w_added w0) in *.
      pose proof (inserted_ok A w0 _ Hw (Hadd (rq_type _ (wk_request _ _ _ Hw)))) as Hi.
      pose proof (rq_range _ (wk_request _ _ _ Hw)). rewrite bool_decide_eq_true_2 by done. cbn [andb lr_locks lr_woken].
      destruct (wk_done _ _ _ Hw) as (D & ED & HD). cbn [w_done set_left w_woken]. split.
      * eexists (D ++ _). rewrite ED, <- app_assoc. split; [done|]. apply Forall_app_2; [by apply derived_fine|].
        constructor; [|apply Forall_app_2; [by apply derived_fine|done]].
        left. apply (cut_derived r (fl_start r) (fl_start (w_request w0) - 1) Hd); lia.
      * intros fl u Hfl Hu. destruct (wk_wake _ _ _ Hw fl u Hfl Hu) as [?|[(fl' & ? & ?)|[->|?]%elem_of_cons]];
          [left; set_solver|right; exists fl'; set_solver|left; set_solver|right; exists fl; set_solver].
  - pose proof (inserted_ok A w _ Hs (Hadd (rq_type _ (wk_request _ _ _ Hs)))) as Hi. cbn [andb].
    pose proof (put_lock_safe A w rest _ rest [] Hs Hi (rest_fine rest (wk_rest _ _ _ Hs))) as Hput.
    destruct (cut_left w _) as [done wl]. apply Hput. auto.
Qed.

End Sound.

(** ** The whole call *)

Lemma skip_others_parts c ls A rest : skip_others c ls = (A, rest) -> ls = A ++ rest
  /\ match rest with [] => True | fl :: _ => IS_POSIX fl = true end.
Proof.
  revert A. induction ls as [|fl ls IH]; intros A; cbn; [by intros [= <- <-]|].
  destruct (negb (IS_POSIX fl) || _) eqn:Hs; [|intros [= <- <-]; split; [done|by destruct (IS_POSIX fl)]].
  destruct (skip_others c ls) as [A' rest']. intros [= <- ->]. by destruct (IH A' eq_refl) as [-> ?].
Qed.

Lemma posix_tail_rest A rest : posix_tail (A ++ rest) ->
  match rest with [] => True | fl :: _ => IS_POSIX fl = true end -> Forall (fun fl => IS_POSIX fl = true) rest.
Proof.
  intros Ht Hh. apply StronglySorted_app_1_r in Ht. destruct rest as [|fl rest]; [done|].
  apply StronglySorted_inv in Ht as [_ Hall]. constructor; [done|].
  eapply Forall_impl; [exact Hall|]. auto.
Qed.

(** A call that finds no conflict. *)
Lemma posix_apply_ok hash memory memory2 ls c :
  posix_tail ls -> typed ls -> good_request c -> (fl_type c <> F_UNLCK -> find_conflict c ls = None) ->
  let r := __posix_lock_file hash memory memory2 ls c in
  exists A L, ls = A ++ L /\ Forall (fun fl => IS_POSIX fl = true /\ rd_or_wr fl) L
    /\ result_ok c L A (lr_locks r) (lr_woken r).
Proof.
  intros Htail Htyped Hq Hnc r. subst r. unfold __posix_lock_file.
  assert ((if negb (fl_type c =? F_UNLCK) then find_conflict c ls else None) = None) as ->.
  { destruct (fl_type c =? F_UNLCK) eqn:Eu; [done|]. by apply Hnc, Z.eqb_neq. }
  rewrite (gq_access c Hq). destruct (skip_others c ls) as [A L] eqn:Esk.
  apply skip_others_parts in Esk as [-> Hh]. pose proof (posix_tail_rest A L Htail Hh) as Hp.
  assert (HL : Forall (fun fl => IS_POSIX fl = true /\ rd_or_wr fl) L).
  { apply Forall_app in Htyped as [_ Ht]. rewrite Forall_forall in Hp, Ht |- *. intros fl Hfl. split; auto. }
  exists A, L. split; [done|]. split; [done|].
  set (w := Walk A c None false None _ []).
  assert (Hw : walk_ok c L A w L).
  { split; cbn; try done; [exists []; by rewrite app_nil_r| |by auto].
    split; [split; [apply Hq|done]|done|apply Hq|]. intros x Hx. by left. }
  pose proof (own_locks_ok c L Hq HL A L w Hw) as Hend.
  destruct (own_locks w L) as [w' rest'|w' rest' rt]; [by apply kept_ok|by apply finish_locks_safe].
Qed.

(** ** What a call keeps *)

(** No offset is covered by POSIX locks of two owners unless both only read. *)
Definition apart (ls : list file_lock) : Prop :=
  forall a b x, a ∈ ls -> b ∈ ls -> IS_POSIX a = true -> IS_POSIX b = true -> fl_owner a <> fl_owner b ->
    covers_at a x = true -> covers_at b x = true -> fl_type a = F_RDLCK /\ fl_type b = F_RDLCK.

(** The waiters of [ls] are woken or stay behind a lock of [ls']. *)
Definition none_forgotten (ls ls' woken : list file_lock) : Prop :=
  forall fl w, fl ∈ ls -> w ∈ fl_block fl -> w ∈ woken \/ exists fl', fl' ∈ ls' /\ w ∈ fl_block fl'.

Lemma same_back l l' fl' : Forall2 same_lock l l' -> fl' ∈ l' ->
  exists fl, fl ∈ l /\ fl' = lock_block fl (fl_block fl').
Proof.
  intros Hs [i Hi]%list_elem_of_lookup. destruct (Forall2_lookup_r _ _ _ _ _ Hs Hi) as (fl & Hl & Hsame).
  exists fl. split; [|done]. apply list_elem_of_lookup. by exists i.
Qed.

Lemma same_tail l l' : Forall2 same_lock l l' -> posix_tail l -> posix_tail l'.
Proof.
  induction 1 as [|fl fl' l l' Hs Hl IH]; [done|]. intros [Ht Hall]%StronglySorted_inv. constructor; [by apply IH|].
  rewrite Forall_forall in Hall |- *. intros b' Hb. destruct (same_back l l' b' Hl Hb) as (b & Hin & ->).
  rewrite Hs. exact (Hall b Hin).
Qed.

Lemma same_typed l l' : Forall2 same_lock l l' -> typed l -> typed l'.
Proof. intros Hs. eapply Forall_same; [|exact Hs]. done. Qed.

Lemma same_apart l l' : Forall2 same_lock l l' -> apart l -> apart l'.
Proof.
  intros Hs Ha a b x Hina Hinb. destruct (same_back l l' a Hs Hina) as (a0 & ? & ->).
  destruct (same_back l l' b Hs Hinb) as (b0 & ? & ->). by apply (Ha a0 b0 x).
Qed.

(** A lock of the result belongs to the list or is made for the owner. *)
Lemma result_elem c L A locks woken fl : result_ok c L A locks woken -> fl ∈ locks ->
  fl ∈ A ++ L \/ derived c L fl.
Proof.
  intros [(T & -> & HT) _] [?|Hin]%elem_of_app; [set_solver|]. rewrite Forall_forall in HT.
  destruct (HT fl Hin) as [?|?]; [by right|set_solver].
Qed.

Lemma result_posix c L A locks woken : Forall (fun fl => IS_POSIX fl = true /\ rd_or_wr fl) L ->
  result_ok c L A locks woken -> exists T, locks = A ++ T /\ Forall (fun fl => IS_POSIX fl = true /\ rd_or_wr fl) T.
Proof.
  intros HL [(T & -> & HT) _]. exists T. split; [done|]. rewrite Forall_forall in HL. eapply Forall_impl; [exact HT|].
  intros fl [[[? _] ? _ _]|?]; [done|by apply HL].
Qed.

Lemma posix_behind A T : posix_tail A -> Forall (fun fl => IS_POSIX fl = true /\ rd_or_wr fl) T -> posix_tail (A ++ T).
Proof.
  intros HA HT. rewrite Forall_forall in HT. apply StronglySorted_app_2; [|done|].
  - intros a b _ Hb _. by apply HT.
  - clear A HA. induction T as [|fl T IH]; constructor; [apply IH; intros; apply HT; by right|].
    apply Forall_forall. intros b Hb _. apply HT. by right.
Qed.

(** A lock made for the owner does not meet a lock of another owner. *)
Lemma derived_apart c L A a b x : good_request c -> typed (A ++ L) -> apart (A ++ L) ->
  (fl_type c <> F_UNLCK -> forall fl, fl ∈ A ++ L -> posix_locks_conflict c fl = false) ->
  Forall (fun fl => IS_POSIX fl = true /\ rd_or_wr fl) L ->
  derived c L a -> b ∈ A ++ L -> IS_POSIX b = true -> fl_owner b <> fl_owner c ->
  covers_at a x = true -> covers_at b x = true -> fl_type a = F_RDLCK /\ fl_type b = F_RDLCK.
Proof.
  intros Hq Ht Ha Hnc HL [_ Hta Hx _] Hb Hp Ho Hax Hbx. destruct (Hx x Hax) as [[Etype Hcx]|(fl & Hin & Hown & <- & Hfx)].
  - assert (Hn : fl_type c <> F_UNLCK) by (rewrite <- Etype; destruct Hta as [-> | ->]; done).
    specialize (Hnc Hn b Hb). apply covers_at_true in Hcx, Hbx.
    unfold typed in Ht. rewrite Forall_forall in Ht. destruct Hta as [Hc|Hc], (Ht b Hb Hp) as [Hbt|Hbt]; [done|..];
      rewrite (proj2 (conflict_spec c b)) in Hnc by (split_and!; first [done|congruence|lia|tauto]); done.
  - rewrite Forall_forall in HL. apply (Ha fl b x); [set_solver|done|by apply HL|done|congruence|done|done].
Qed.

Lemma posix_call_keeps hash memory memory2 ls c :
  posix_tail ls -> typed ls -> good_request c ->
  let r := __posix_lock_file hash memory memory2 ls c in
  posix_tail (lr_locks r) /\ typed (lr_locks r) /\ (apart ls -> apart (lr_locks r))
  /\ (waiting ls -> waiting (lr_locks r)) /\ none_forgotten ls (lr_locks r) (lr_woken r).
Proof.
  intros Htail Htyped Hq r. subst r.
  destruct (if negb (fl_type c =? F_UNLCK) then find_conflict c ls else None) as [[[pre fl] post]|] eqn:Ec.
  - assert (Hsame : posix_tail ls /\ typed ls /\ (apart ls -> apart ls) /\ (waiting ls -> waiting ls)
      /\ none_forgotten ls ls []) by (split_and!; try done; intros f w ? ?; right; eauto).
    unfold __posix_lock_file. rewrite Ec. destruct (negb (fl_type c =? F_UNLCK)); [|done].
    apply find_conflict_some in Ec as [-> Hc]. case_if; [done|]. case_if; [done|]. cbn.
    pose proof (same_waiter pre fl (fl_block fl ++ [c]) post) as Hs.
    split; [by eapply same_tail|]. split; [by eapply same_typed|]. split; [by apply same_apart|]. split.
    + intros Hw f w Hin Hp Hb. rewrite elem_of_app, elem_of_cons in Hin.
      destruct Hin as [Hin|[->|Hin]]; [by apply Hw; [set_solver|..]| |by apply Hw; [set_solver|..]].
      cbn in Hb. apply elem_of_app in Hb as [Hb| ->%list_elem_of_singleton]; [|exact Hc].
      apply (Hw fl w); [set_solver|exact Hp|done].
    + intros f w Hin Hb. right. rewrite elem_of_app, elem_of_cons in Hin.
      destruct Hin as [Hin|[->|Hin]]; [exists f; set_solver| |exists f; set_solver].
      exists (lock_block fl (fl_block fl ++ [c])). cbn. set_solver.
  - assert (Hnc : fl_type c <> F_UNLCK -> find_conflict c ls = None).
    { intros Hn. by rewrite (proj2 (Z.eqb_neq _ _) Hn) in Ec. }
    destruct (posix_apply_ok hash memory memory2 ls c Htail Htyped Hq Hnc) as (A & L & -> & HL & Hres).
    set (r := __posix_lock_file _ _ _ _ _) in *. destruct (result_posix _ _ _ _ _ HL Hres) as (T & ET & HT).
    rewrite ET in *. split_and!.
    + apply posix_behind; [by apply StronglySorted_app_1_l in Htail|done].
    + apply Forall_app in Htyped as [? _]. apply Forall_app_2; [done|]. eapply Forall_impl; [exact HT|]. by intros ? [_ ?].
    + intros Ha a b x Hina Hinb Hpa Hpb Hne Hxa Hxb.
      assert (Hnc' : fl_type c <> F_UNLCK -> forall fl, fl ∈ A ++ L -> posix_locks_conflict c fl = false).
      { intros Hn. by apply find_conflict_none, Hnc. }
      destruct (result_elem _ _ _ _ _ a Hres Hina) as [Ha1|Ha1], (result_elem _ _ _ _ _ b Hres Hinb) as [Hb1|Hb1].
      * by apply (Ha a b x).
      * pose proof (dv_own _ _ _ Hb1) as [_ Eb].
        destruct (derived_apart c L A b a x) as [? ?]; try done. congruence.
      * pose proof (dv_own _ _ _ Ha1) as [_ Ea]. apply (derived_apart c L A a b x); try done. congruence.
      * destruct Hne. by rewrite (proj2 (dv_own _ _ _ Ha1)), (proj2 (dv_own _ _ _ Hb1)).
    + intros Hw f w Hin Hp Hb. destruct (result_elem _ _ _ _ _ f Hres Hin) as [?|[Ho _ _ [Hnil|(f0 & Hf0 & Ho0 & Hext)]]];
        [by apply Hw|by rewrite Hnil in Hb; apply elem_of_nil in Hb|].
      rewrite Forall_forall in HL. pose proof (HL f0 Hf0) as [Hp0 _].
      apply (extends_conflict (fl_owner c) w f0 f); [done|done|done|]. apply Hw; [set_solver|done|].
      destruct Hext as [<- _]. done.
    + intros f w [Hin|Hin]%elem_of_app Hb; [right; exists f; set_solver|]. by apply (proj2 Hres f w).
Qed.
