(* ===== verification/LocksSystem.v ===== *)
(** * The lock list of an inode under every sequence of operations *)

From stdpp Require Import list relations.
From Stdlib Require Import Sorting.Sorted.
From S2P Require Import Prelude Locks LocksFacts LocksProps LocksSafe.

(** ** BSD locks in the list *)

Definition is_bsd (fl : file_lock) : Prop :=
  IS_POSIX fl = false /\ IS_FLOCK fl = true /\ IS_LEASE fl = false.

Global Instance is_bsd_dec fl : Decision (is_bsd fl).
Proof. unfold is_bsd. apply _. Defined.



(** A request as flock makes them. *)
Record good_flock (c : file_lock) : Prop := {
  gf_flock : IS_FLOCK c = true;
  gf_posix : IS_POSIX c = false;
  gf_lease : IS_LEASE c = false
}.








(** ** The two halves of [flock_lock_file] *)



(** ** Steps *)

(** One critical section of the lock on the inode: a call for a POSIX lock, the
    release of an owner's locks on close, the two halves of [flock], and a
    waiter that gives up. *)
Inductive lock_step (ls : list file_lock) : list file_lock -> Prop :=
  | step_posix hash memory memory2 c :
      good_request c -> lock_step ls (lr_locks (__posix_lock_file hash memory memory2 ls c))
  | step_close memory memory2 filp tgid owner :
      lock_step ls (fst (locks_remove_posix memory memory2 ls filp tgid owner))
  | step_flock_drop filp c ls' woken :
      flock_find_old filp c ls = FlockGone ls' woken -> lock_step ls ls'
  | step_flock_insert woken c :
      good_flock c -> lock_step ls (lr_locks (flock_insert ls woken c))
  | step_give_up pre fl post before w after :
      ls = pre ++ fl :: post -> fl_block fl = before ++ w :: after ->
      lock_step ls (pre ++ lock_block fl (before ++ after) :: post).


(** [flock_lock_file] is a sequence of steps, if other tasks do steps. *)
Lemma flock_lock_file_steps memory others ls filp c :
  good_flock c -> (forall l, rtc lock_step l (others l)) ->
  rtc lock_step ls (lr_locks (flock_lock_file memory others ls filp c)).
Proof.
  intros Hc Ho. unfold flock_lock_file. case_if; [done|].
  assert (Hi : forall l wk, rtc lock_step l (lr_locks (flock_insert l wk c))).
  { intros l wk. by apply rtc_once, step_flock_insert. }
  case_if; [done|]. destruct (flock_find_old filp c ls) as [| |l wk] eqn:Ef; [done|by case_if|].
  eapply rtc_l; [by eapply step_flock_drop|]. case_if; [done|].
  etransitivity; [apply Ho|apply Hi].
Qed.









(** ** Witness *)


