(* ===== verification/Semaphore.v ===== *)
(** * Counting semaphores (kernel/locking/semaphore.c)

    A semaphore with the tasks that sleep in it.  The code of a [down] runs in
    pieces under the lock of the semaphore: up to the first sleep, and from
    each return of the scheduler to the next sleep or the return.  A waiter
    lives on the stack of the sleeping task, so it is kept with the task; the
    wait list holds the tasks. *)

From stdpp Require Import gmap list.
From S2P Require Import Prelude.

Abbreviation task := positive.

Definition EINTR : Z := 4.
Definition ETIME : Z := 62.

Definition TASK_INTERRUPTIBLE : Z := 1.
Definition TASK_UNINTERRUPTIBLE : Z := 2.
Definition TASK_WAKEKILL : Z := 128.
Definition TASK_KILLABLE : Z := 130.
Definition MAX_SCHEDULE_TIMEOUT : Z := 9223372036854775807.

(** struct semaphore_waiter, with the sleep the task is in. *)
Record waiter := Waiter { wt_up : bool; wt_state : Z; wt_timeout : Z }.

Record semaphore := Semaphore {
  sem_count : Z; sem_wait_list : list task; sem_sleeping : gmap task waiter
}.

Definition sema_init (val : Z) : semaphore := Semaphore (u32 val) [] ∅.

(** [pending] and [fatal] tell about the signals of the task. *)
Definition signal_pending_state (state : Z) (pending fatal : bool) : bool :=
  if Z.land state (Z.lor TASK_INTERRUPTIBLE TASK_WAKEKILL) =? 0 then false
  else if negb pending then false
  else negb (Z.land state TASK_INTERRUPTIBLE =? 0) || fatal.

(** What [schedule_timeout] returns when it comes back after [elapsed] jiffies. *)
Definition schedule_timeout (timeout elapsed : Z) : Z :=
  if timeout =? MAX_SCHEDULE_TIMEOUT then timeout
  else if timeout <? 0 then 0
  else let timeout := s64 (timeout - elapsed) in if timeout <? 0 then 0 else timeout.

(** [list_del(&waiter.list)] and leaving the function. *)
Definition leave (t : task) (sem : semaphore) : semaphore :=
  Semaphore (sem_count sem) (filter (fun u => u <> t) (sem_wait_list sem))
    (delete t (sem_sleeping sem)).

(** The loop of [__down_common] from its top to the sleep or to an error; the
    result is None when the task sleeps. *)
Definition down_loop (t : task) (state timeout : Z) (pending fatal : bool) (sem : semaphore)
    : option Z * semaphore :=
  if signal_pending_state state pending fatal then (Some (- EINTR), leave t sem)
  else if timeout <=? 0 then (Some (- ETIME), leave t sem)
  else
    (None, Semaphore (sem_count sem) (sem_wait_list sem)
             (<[t := Waiter false state timeout]> (sem_sleeping sem))).

Definition __down_common (t : task) (state timeout : Z) (pending fatal : bool) (sem : semaphore)
    : option Z * semaphore :=
  down_loop t state timeout pending fatal
    (Semaphore (sem_count sem) (sem_wait_list sem ++ [t])
       (<[t := Waiter false state timeout]> (sem_sleeping sem))).

(** What follows when the scheduler returns to a sleeping task. *)
Definition down_wake (t : task) (elapsed : Z) (pending fatal : bool) (sem : semaphore)
    : option (option Z * semaphore) :=
  match sem_sleeping sem !! t with
  | None => None
  | Some w =>
      let timeout := schedule_timeout (wt_timeout w) elapsed in
      if wt_up w then
        Some (Some 0, Semaphore (sem_count sem) (sem_wait_list sem) (delete t (sem_sleeping sem)))
      else Some (down_loop t (wt_state w) timeout pending fatal sem)
  end.

(** The part the variants of [down] share. *)
Definition down_with (state timeout : Z) (t : task) (pending fatal : bool) (sem : semaphore)
    : option Z * semaphore :=
  if sem_count sem >? 0 then
    (Some 0, Semaphore (u32 (sem_count sem - 1)) (sem_wait_list sem) (sem_sleeping sem))
  else __down_common t state timeout pending fatal sem.

Definition down := down_with TASK_UNINTERRUPTIBLE MAX_SCHEDULE_TIMEOUT.
Definition down_interruptible := down_with TASK_INTERRUPTIBLE MAX_SCHEDULE_TIMEOUT.
Definition down_killable := down_with TASK_KILLABLE MAX_SCHEDULE_TIMEOUT.
Definition down_timeout (timeout : Z) := down_with TASK_UNINTERRUPTIBLE timeout.

(** 0 when the semaphore was acquired, 1 otherwise. *)
Definition down_trylock (sem : semaphore) : Z * semaphore :=
  let count := s32 (sem_count sem - 1) in
  if count >=? 0 then (0, Semaphore count (sem_wait_list sem) (sem_sleeping sem))
  else (1, sem).

(** The first waiter is taken off the list and told. *)
Definition __up (sem : semaphore) : semaphore :=
  match sem_wait_list sem with
  | [] => sem
  | t :: rest =>
      Semaphore (sem_count sem) rest
        (alter (fun w => Waiter true (wt_state w) (wt_timeout w)) t (sem_sleeping sem))
  end.

Definition up (sem : semaphore) : semaphore :=
  match sem_wait_list sem with
  | [] => Semaphore (u32 (sem_count sem + 1)) [] (sem_sleeping sem)
  | _ => __up sem
  end.

(** ** Executions *)

(** A call of a variant of [down], the scheduler returning to a sleeping task,
    [up] and [down_trylock] from anywhere; with what the code returns. *)
Inductive sem_label :=
  | LDown (t : task) (state timeout : Z) (result : option Z)
  | LWake (t : task) (result : option Z)
  | LUp
  | LTry (result : Z).

Inductive sem_step : semaphore -> sem_label -> semaphore -> Prop :=
  | step_down sem t state timeout pending fatal result sem' :
      sem_sleeping sem !! t = None ->
      down_with state timeout t pending fatal sem = (result, sem') ->
      sem_step sem (LDown t state timeout result) sem'
  | step_wake sem t elapsed pending fatal result sem' :
      down_wake t elapsed pending fatal sem = Some (result, sem') ->
      sem_step sem (LWake t result) sem'
  | step_up sem : sem_step sem LUp (up sem)
  | step_try sem result sem' :
      down_trylock sem = (result, sem') -> sem_step sem (LTry result) sem'.

(** An infinite execution. *)
Definition sem_exec (run : nat -> semaphore) (lab : nat -> sem_label) : Prop :=
  forall n, sem_step (run n) (lab n) (run (S n)).
