(* ===== verification/SemaphoreProps.v ===== *)
(** * The properties of semaphores *)

From stdpp Require Import gmap list.
From S2P Require Import Prelude Semaphore.

(** ** Nobody waits for ever *)

Definition sleeper : waiter := Waiter false TASK_UNINTERRUPTIBLE MAX_SCHEDULE_TIMEOUT.

(** Task [t] sleeps in [down] with [k] tasks before it in the list. *)
Definition waits_at (t : task) (k : nat) (sem : semaphore) : Prop :=
  sem_wait_list sem !! k = Some t /\ sem_sleeping sem !! t = Some sleeper.

(** Task [t] has been handed the semaphore and not run yet. *)
Definition granted (t : task) (sem : semaphore) : Prop :=
  exists w, sem_sleeping sem !! t = Some w /\ wt_up w = true.

Lemma filter_position (t u : task) (l : list task) k : t <> u -> l !! k = Some t ->
  exists k', (k' <= k)%nat /\ filter (fun v => v <> u) l !! k' = Some t.
Proof.
  intros Hne. revert k. induction l as [|v l IH]; intros [|k] Hk; try done.
  - injection Hk as ->. exists 0%nat. split; [lia|]. by rewrite filter_cons_True.
  - destruct (IH k Hk) as (k' & ? & Hk'). destruct (decide (v <> u)).
    + exists (S k'). split; [lia|]. by rewrite filter_cons_True.
    + exists k'. split; [lia|]. by rewrite filter_cons_False.
Qed.

(** Another task's turn through the loop keeps [t] or moves it forward. *)
Lemma down_loop_keeps t u k state timeout pending fatal sem result sem' : t <> u ->
  waits_at t k sem -> down_loop u state timeout pending fatal sem = (result, sem') ->
  exists k', (k' <= k)%nat /\ waits_at t k' sem'.
Proof.
  intros Hne [Hk Hs] Hd.
  assert (Hl : exists k', (k' <= k)%nat /\ waits_at t k' (leave u sem)).
  { destruct (filter_position t u _ k Hne Hk) as (k' & ? & ?). exists k'. split; [done|].
    split; [done|]. cbn. by rewrite lookup_delete_ne. }
  unfold down_loop in Hd. repeat case_if_in Hd; injection Hd as <- <-; [done|done|].
  exists k. split; [lia|]. split; [done|]. cbn. by rewrite lookup_insert_ne.
Qed.

Lemma step_keeps t k sem l sem' : sem_step sem l sem' -> waits_at t k sem -> l <> LUp ->
  exists k', (k' <= k)%nat /\ waits_at t k' sem'.
Proof.
  intros Hstep Hw Hl. pose proof Hw as [Hk Hs].
  destruct Hstep as [sem u state timeout pending fatal result sem' Hu Hd
                    |sem u elapsed pending fatal result sem' Hd|sem|sem result sem' Hd]; [..|done|].
  - assert (t <> u) by congruence. unfold down_with in Hd. case_if_in Hd.
    + injection Hd as <- <-. by exists k.
    + eapply down_loop_keeps; [done| |exact Hd]. split; cbn; [|by rewrite lookup_insert_ne].
      rewrite lookup_app_l; [done|]. by eapply lookup_lt_Some.
  - unfold down_wake in Hd. destruct (sem_sleeping sem !! u) as [w|] eqn:Ew; [|done].
    destruct (decide (t = u)) as [<-|Hne].
    + rewrite Hs in Ew. injection Ew as <-. cbn in Hd. injection Hd as <- <-. exists k.
      split; [lia|]. split; [done|]. cbn. apply lookup_insert_eq.
    + case_if_in Hd; [injection Hd as <- <-|injection Hd as Hd; by eapply down_loop_keeps].
      exists k. split; [lia|]. split; [done|]. cbn. by rewrite lookup_delete_ne.
  - unfold down_trylock in Hd. case_if_in Hd; injection Hd as <- <-; by exists k.
Qed.

(** [up] hands the semaphore to the first waiter. *)
Lemma up_hands_over t k sem : waits_at t k sem ->
  granted t (up sem) \/ exists k', (k' < k)%nat /\ waits_at t k' (up sem).
Proof.
  intros [Hk Hs]. unfold up, __up. destruct (sem_wait_list sem) as [|u rest]; [done|].
  destruct (decide (u = t)) as [->|Hne].
  - left. eexists. cbn. rewrite lookup_alter_eq, Hs. done.
  - right. destruct k as [|k]; [by injection Hk|]. exists k. split; [lia|]. split; [done|].
    cbn. by rewrite lookup_alter_ne.
Qed.

Lemma granted_keeps t sem l sem' : sem_step sem l sem' -> granted t sem ->
  l = LWake t (Some 0) \/ granted t sem'.
Proof.
  intros Hstep (w & Hs & Hup).
  destruct Hstep as [sem u state timeout pending fatal result sem' Hu Hd
                    |sem u elapsed pending fatal result sem' Hd|sem|sem result sem' Hd].
  - right. exists w. split; [|done]. assert (t <> u) by congruence.
    unfold down_with, __down_common, down_loop in Hd. repeat case_if_in Hd; injection Hd as <- <-; cbn;
      rewrite ?lookup_delete_ne, ?lookup_insert_ne by done; done.
  - unfold down_wake in Hd. destruct (sem_sleeping sem !! u) as [w'|] eqn:Ew; [|done].
    destruct (decide (t = u)) as [<-|Hne].
    + rewrite Hs in Ew. injection Ew as <-. rewrite Hup in Hd. injection Hd as <- _. by left.
    + right. exists w. split; [|done]. unfold down_loop in Hd.
      repeat case_if_in Hd; injection Hd as <- <-; cbn;
        rewrite ?lookup_delete_ne, ?lookup_insert_ne by done; done.
  - right. unfold up, __up. destruct (sem_wait_list sem) as [|u rest]; [by exists w|].
    destruct (decide (u = t)) as [->|Hne].
    + eexists. cbn. rewrite lookup_alter_eq, Hs. done.
    + exists w. cbn. by rewrite lookup_alter_ne.
  - right. unfold down_trylock in Hd. case_if_in Hd; injection Hd as <- <-; by exists w.
Qed.

Lemma granted_wake t sem r sem' : sem_step sem (LWake t r) sem' -> granted t sem -> r = Some 0.
Proof.
  intros Hstep (w & Hs & Hup). inversion Hstep as [|? ? ? ? ? ? ? Hd| |]; subst.
  unfold down_wake in Hd. rewrite Hs, Hup in Hd. by injection Hd as <- _.
Qed.

(** The releases among [len] steps from [n] on. *)
Fixpoint ups (lab : nat -> sem_label) (n len : nat) : nat :=
  match len with
  | O => 0
  | S len => (match lab n with LUp => 1 | _ => 0 end) + ups lab (S n) len
  end.

Lemma label_up_dec (l : sem_label) : {l = LUp} + {l <> LUp}.
Proof. destruct l; by (left + right). Qed.

Lemma ups_grant run lab t : sem_exec run lab -> forall len n k,
  waits_at t k (run n) -> (k < ups lab n len)%nat -> exists j, (n <= j)%nat /\ granted t (run j).
Proof.
  intros Hex. induction len as [|len IH]; intros n k Hw Hk; cbn in Hk; [lia|].
  pose proof (Hex n) as Hstep. destruct (label_up_dec (lab n)) as [El|El].
  - rewrite El in Hk, Hstep. inversion Hstep as [| |sem E1 E2|]; subst.
    destruct (up_hands_over t k (run n) Hw) as [Hg|(k' & ? & Hw')].
    + exists (S n). split; [lia|congruence].
    + destruct (IH (S n) k') as (j & ? & ?); [congruence|lia|]. exists j. split; [lia|done].
  - destruct (step_keeps t k _ _ _ Hstep Hw El) as (k' & ? & Hw').
    destruct (IH (S n) k' Hw') as (j & ? & ?); [by destruct (lab n); cbn in Hk; lia || done|].
    exists j. split; [lia|done].
Qed.

Lemma granted_returns run lab t : sem_exec run lab -> forall d n r,
  granted t (run n) -> lab (n + d)%nat = LWake t r ->
  exists j, (n <= j)%nat /\ lab j = LWake t (Some 0).
Proof.
  intros Hex. induction d as [|d IH]; intros n r Hg Hl; pose proof (Hex n) as Hstep.
  - rewrite Nat.add_0_r in Hl. exists n. split; [lia|]. rewrite Hl in Hstep.
    rewrite (granted_wake t _ _ _ Hstep Hg) in Hl. done.
  - destruct (granted_keeps t _ _ _ Hstep Hg) as [?|Hg']; [by exists n|].
    destruct (IH (S n) r Hg') as (j & ? & ?); [by rewrite Nat.add_succ_comm|].
    exists j. split; [lia|done].
Qed.

(** C25. A task that sleeps in [down] gets the semaphore: with [k] tasks before
    it, after [k + 1] releases, whatever other tasks do meanwhile, if the
    scheduler runs every task the semaphore was handed to. *)
Theorem down_eventually_returns run lab t k n len :
  sem_exec run lab -> waits_at t k (run n) -> (k < ups lab n len)%nat ->
  (forall m u, granted u (run m) -> exists m' r, (m <= m')%nat /\ lab m' = LWake u r) ->
  exists j, (n <= j)%nat /\ lab j = LWake t (Some 0).
Proof.
  intros Hex Hw Hk Hfair. destruct (ups_grant run lab t Hex len n k Hw Hk) as (j & ? & Hg).
  destruct (Hfair j t Hg) as (m & r & ? & Hl).
  destruct (granted_returns run lab t Hex (m - j) j r Hg) as (j' & ? & ?).
  { by replace (j + (m - j))%nat with m by lia. }
  exists j'. split; [lia|done].
Qed.

(** ** Accounting *)

(** How many tasks have been handed the semaphore and not run yet. *)
Definition handed (m : gmap task waiter) : Z :=
  Z.of_nat (size (filter (fun kw => wt_up (snd kw) = true) m)).

Lemma handed_not_up m t w : wt_up w = false -> (forall w', m !! t = Some w' -> wt_up w' = false) ->
  handed (<[t := w]> m) = handed m /\ handed (delete t m) = handed m.
Proof.
  intros Hw Hm. unfold handed.
  assert (Hd : filter (fun kw => wt_up (snd kw) = true) (delete t m)
    = filter (fun kw => wt_up (snd kw) = true) m).
  { rewrite map_filter_delete. apply delete_id, map_lookup_filter_None_2. right.
    intros w' Ew. cbn. by rewrite (Hm w' Ew). }
  split; [|by rewrite Hd]. rewrite map_filter_insert_False by (cbn; congruence). by rewrite Hd.
Qed.

Lemma handed_up m t w : m !! t = Some w -> wt_up w = true -> handed (delete t m) = handed m - 1.
Proof.
  intros Hm Hw. unfold handed. rewrite map_filter_delete.
  assert (Hl : filter (fun kw => wt_up (snd kw) = true) m !! t = Some w)
    by (by apply map_lookup_filter_Some_2).
  rewrite map_size_delete, Hl. pose proof (map_size_non_empty_iff (filter (fun kw => wt_up (snd kw) = true) m)) as Hs.
  assert (size (filter (fun kw => wt_up (snd kw) = true) m) <> 0%nat).
  { apply Hs. intros E. by rewrite E in Hl. }
  lia.
Qed.

Lemma handed_alter m t w : m !! t = Some w -> wt_up w = false ->
  handed (alter (fun w => Waiter true (wt_state w) (wt_timeout w)) t m) = handed m + 1.
Proof.
  intros Hm Hw. unfold handed.
  assert (Ea : alter (fun w => Waiter true (wt_state w) (wt_timeout w)) t m
    = <[t := Waiter true (wt_state w) (wt_timeout w)]> m).
  { apply map_eq. intros u. destruct (decide (u = t)) as [->|?].
    - by rewrite lookup_alter_eq, lookup_insert_eq, Hm.
    - by rewrite lookup_alter_ne, lookup_insert_ne. }
  rewrite Ea, map_filter_insert_True by done. rewrite map_size_insert_None; [lia|].
  apply map_lookup_filter_None_2. right. intros w' Ew. cbn. congruence.
Qed.

(** The semaphore is free only when nobody waits, and the list holds exactly
    the sleeping tasks that have not been handed the semaphore. *)
Record sem_inv (sem : semaphore) : Prop := {
  si_count : 0 <= sem_count sem;
  si_idle : 0 < sem_count sem -> sem_wait_list sem = [];
  si_nodup : NoDup (sem_wait_list sem);
  si_wait : forall t, t ∈ sem_wait_list sem <->
    exists w, sem_sleeping sem !! t = Some w /\ wt_up w = false
}.

Definition acquires (l : sem_label) : Z :=
  match l with
  | LDown _ _ _ (Some r) | LWake _ (Some r) | LTry r => if r =? 0 then 1 else 0
  | _ => 0
  end.

Definition releases (l : sem_label) : Z := match l with LUp => 1 | _ => 0 end.

(** The free, the handed over and the acquired. *)
Definition total (sem : semaphore) : Z := sem_count sem + handed (sem_sleeping sem).

(** A task on the list through the loop: it stays, or it leaves with an error. *)
Lemma down_loop_inv t state timeout pending fatal sem result sem' w :
  sem_inv sem -> sem_sleeping sem !! t = Some w -> wt_up w = false ->
  down_loop t state timeout pending fatal sem = (result, sem') ->
  sem_inv sem' /\ total sem' = total sem /\ result <> Some 0.
Proof.
  intros [Hc Hi Hn Hwt] Hs Hup Hd.
  assert (Hnot : forall w', sem_sleeping sem !! t = Some w' -> wt_up w' = false) by congruence.
  assert (Hleave : sem_inv (leave t sem) /\ total (leave t sem) = total sem).
  { split; [|unfold total, leave; cbn; by rewrite (proj2 (handed_not_up _ _ w Hup Hnot))].
    split; cbn; [done|intros ?; by rewrite Hi|by apply NoDup_filter|].
    intros u. rewrite list_elem_of_filter, Hwt. split.
    - intros [Hne (w' & ? & ?)]. exists w'. by rewrite lookup_delete_ne.
    - intros (w' & [? Hl]%lookup_delete_Some & ?). split; [done|]. by exists w'. }
  unfold down_loop in Hd. repeat case_if_in Hd; injection Hd as <- <-;
    [destruct Hleave; done|destruct Hleave; done|].
  split_and!; [|unfold total; cbn; by rewrite (proj1 (handed_not_up _ _ (Waiter false state timeout) eq_refl Hnot))|done].
  split; cbn; [done|done|done|]. intros u. rewrite Hwt. destruct (decide (u = t)) as [->|?].
  - rewrite lookup_insert_eq. split; intros _; eauto.
  - by rewrite lookup_insert_ne.
Qed.

(** Joining the list. *)
Lemma enqueue_inv t state timeout sem : sem_inv sem -> sem_count sem <= 0 ->
  sem_sleeping sem !! t = None ->
  let sem' := Semaphore (sem_count sem) (sem_wait_list sem ++ [t])
                (<[t := Waiter false state timeout]> (sem_sleeping sem)) in
  sem_inv sem' /\ total sem' = total sem.
Proof.
  intros [Hc Hi Hn Hwt] H0 Ht sem'. split.
  - split; cbn; [done|lia| |].
    + apply NoDup_app. split_and!; [done| |apply NoDup_singleton].
      intros u Hu ->%list_elem_of_singleton. apply Hwt in Hu as (w & ? & _). congruence.
    + intros u. rewrite elem_of_app, list_elem_of_singleton, Hwt. destruct (decide (u = t)) as [->|?].
      * rewrite lookup_insert_eq. split; [|by right]. intros _. by eexists.
      * rewrite lookup_insert_ne by done. naive_solver.
  - unfold total. cbn. f_equal. apply handed_not_up; [done|congruence].
Qed.

Definition INT_MAX : Z := 2147483647.

Lemma step_inv sem l sem' : sem_step sem l sem' -> sem_inv sem -> sem_count sem <= INT_MAX ->
  sem_inv sem' /\ total sem' + acquires l = total sem + releases l.
Proof.
  intros Hstep Hinv Hmax. pose proof Hinv as [Hc Hi Hn Hwt]. unfold INT_MAX in Hmax.
  destruct Hstep as [sem t state timeout pending fatal result sem' Ht Hd
                    |sem t elapsed pending fatal result sem' Hd|sem|sem result sem' Hd].
  - unfold down_with in Hd. case_if_in Hd.
    + injection Hd as <- <-. rewrite u32_id by (unfold U32_MAX; lia).
      split; [split; cbn; [lia|intros ?; by apply Hi|done|done]|unfold total; cbn; lia].
    + destruct (enqueue_inv t state timeout sem Hinv) as [Hinv' Htot]; [lia|done|].
      destruct (down_loop_inv _ _ _ _ _ _ _ _ (Waiter false state timeout) Hinv' (lookup_insert_eq _ _ _) eq_refl Hd)
        as (? & ? & Hr). split; [done|]. cbn. destruct result as [r|]; [case_if; [congruence|lia]|lia].
  - unfold down_wake in Hd. destruct (sem_sleeping sem !! t) as [w|] eqn:Ew; [|done]. case_if_in Hd.
    + injection Hd as <- <-. split; [|unfold total; cbn; rewrite (handed_up _ _ w) by done; lia].
      split; cbn; [done|done|done|]. intros u. rewrite Hwt. destruct (decide (u = t)) as [->|?].
      * rewrite lookup_delete_eq, Ew. split; [intros (? & [= <-] & ?); congruence|by intros (? & ? & _)].
      * by rewrite lookup_delete_ne.
    + injection Hd as Hd. destruct (down_loop_inv _ _ _ _ _ _ _ _ w Hinv Ew E Hd) as (? & ? & Hr).
      split; [done|]. cbn. destruct result as [r|]; [case_if; [congruence|lia]|lia].
  - unfold up, __up. destruct (sem_wait_list sem) as [|t rest] eqn:El; cbn [releases acquires].
    + rewrite u32_id by (unfold U32_MAX; lia).
      split; [split; cbn; [lia|done|done|done]|unfold total; cbn; lia].
    + destruct (proj1 (Hwt t)) as (w & Ew & Hup); [left|].
      split; [|unfold total; cbn; rewrite (handed_alter _ _ w) by done; lia].
      apply NoDup_cons in Hn as [Hni Hn]. split; cbn; [done|intros ?; by discriminate (Hi H)|done|].
      intros u. destruct (decide (u = t)) as [->|Hne].
      * rewrite lookup_alter_eq, Ew. split; [done|]. by intros (? & [= <-] & ?).
      * rewrite lookup_alter_ne, <- Hwt, elem_of_cons by done. naive_solver.
  - unfold down_trylock in Hd. rewrite s32_id in Hd by lia. case_if_in Hd; injection Hd as <- <-; cbn.
    + split; [split; cbn; [done|intros ?; apply Hi; lia|done|done]|unfold total; cbn; lia].
    + split; [done|lia].
Qed.

Definition sum_of (f : sem_label -> Z) (tr : list sem_label) : Z := foldr (fun l n => f l + n) 0 tr.

Lemma sum_of_snoc f tr l : sum_of f (tr ++ [l]) = sum_of f tr + f l.
Proof. induction tr as [|x tr IH]; cbn; [lia|]. unfold sum_of in IH. rewrite IH. lia. Qed.

(** An execution in which the count always fits into an int. *)
Inductive fitting_run (start : semaphore) : list sem_label -> semaphore -> Prop :=
  | fitting_nil : sem_count start <= INT_MAX -> fitting_run start [] start
  | fitting_snoc tr sem l sem' : fitting_run start tr sem -> sem_step sem l sem' -> sem_count sem' <= INT_MAX ->
      fitting_run start (tr ++ [l]) sem'.

Lemma fitting_fits start tr sem : fitting_run start tr sem -> sem_count sem <= INT_MAX.
Proof. by destruct 1. Qed.

(** C24. In every execution from [sema_init] in which the count always fits into
    an int, however long it is: the free units, those handed to tasks that are
    about to run, and the acquisitions add up to the initial value and the
    releases, so a semaphore is never acquired more often than it is
    available; it is free only when nobody waits; and the wait list holds
    exactly the tasks still waiting. *)
Theorem semaphore_accounting val tr sem :
  0 <= val <= INT_MAX -> fitting_run (sema_init val) tr sem ->
  sem_inv sem
  /\ sem_count sem + handed (sem_sleeping sem) + sum_of acquires tr = val + sum_of releases tr.
Proof.
  intros Hv Hrun. induction Hrun as [_|tr sem' l sem'' Hrun IH Hstep _].
  - unfold sema_init. rewrite u32_id by (unfold U32_MAX, INT_MAX in *; lia).
    split; [|cbn; unfold handed; rewrite map_filter_empty, map_size_empty; lia].
    split; cbn; [lia|done|constructor|]. intros t. rewrite elem_of_nil. split; [done|].
    by intros (w & ? & _).
  - destruct IH as [Hinv Heq]. destruct (step_inv _ _ _ Hstep Hinv (fitting_fits _ _ _ Hrun)) as [Hinv' Ht].
    split; [done|]. rewrite !sum_of_snoc. unfold total in Ht. lia.
Qed.

(** ** Witnesses *)

Definition demo_sem : semaphore := Semaphore 0 [1%positive] {[1%positive := sleeper]}.

Definition demo_run (n : nat) : semaphore :=
  match n with O => demo_sem | 1%nat => up demo_sem | _ => sema_init 0 end.
Definition demo_lab (n : nat) : sem_label :=
  match n with O => LUp | 1%nat => LWake 1 (Some 0) | _ => LTry 1 end.

Lemma demo_exec : sem_exec demo_run demo_lab.
Proof.
  intros [|[|n]].
  - apply step_up.
  - apply (step_wake _ _ 0 false false). vm_compute. reflexivity.
  - apply step_try. reflexivity.
Qed.

Lemma down_eventually_returns_witness :
  exists j, (0 <= j)%nat /\ demo_lab j = LWake 1 (Some 0).
Proof.
  apply (down_eventually_returns demo_run demo_lab 1 0 0 1);
    [exact demo_exec|split; reflexivity|cbn; lia|].
  intros [|[|m]] u (w & Hw & Hup).
  - cbn in Hw. apply lookup_singleton_Some in Hw as [_ <-]. done.
  - cbn in Hw. destruct (decide (u = 1%positive)) as [->|Hne].
    + exists 1%nat, (Some 0). split; [lia|reflexivity].
    + rewrite lookup_alter_ne, lookup_singleton_ne in Hw by congruence. done.
  - cbn in Hw. by rewrite lookup_empty in Hw.
Defined.

Lemma semaphore_accounting_witness :
  exists sem, fitting_run (sema_init 1) [LTry 0; LUp] sem /\ sem_inv sem
    /\ sem_count sem + handed (sem_sleeping sem) + sum_of acquires [LTry 0; LUp]
       = 1 + sum_of releases [LTry 0; LUp].
Proof.
  assert (Hrun : fitting_run (sema_init 1) ([LTry 0] ++ [LUp]) (up (sema_init 0))).
  { eapply fitting_snoc; [|apply step_up|vm_compute; congruence].
    apply (fitting_snoc _ []) with (sema_init 1); [constructor; vm_compute; congruence| |vm_compute; congruence].
    apply step_try. reflexivity. }
  exists (up (sema_init 0)). split; [exact Hrun|].
  apply (semaphore_accounting 1 [LTry 0; LUp] (up (sema_init 0))); [unfold INT_MAX; lia|exact Hrun].
Defined.
