(* ===== verification/Glob.v ===== *)
(** * Shell patterns (lib/glob.c)

    [glob_match] with its pointers as positions into the two NUL-terminated
    strings.  A read past the terminating NUL is a [Bug].  The meaning of a
    pattern is the relation [glob_rel], defined from the tokens of the pattern
    without backtracking. *)

From S2P Require Import Prelude.

(** The metacharacters. *)
Definition c_question : Z := 63.
Definition c_star : Z := 42.
Definition c_open : Z := 91.
Definition c_close : Z := 93.
Definition c_bang : Z := 33.
Definition c_dash : Z := 45.
Definition c_backslash : Z := 92.

(** ** The code *)

(** Dereference of a pointer into a C string. *)
Definition rd (s : list Z) (i : nat) : outcome Z :=
  match s !! i with
  | Some c => Ok c
  | None => if (i =? length s)%nat then Ok 0 else Bug
  end.

(** [pat], [str] and, once a [*] was met, [back_pat] and [back_str]. *)
Record gstate := GState {
  g_pat : nat;
  g_str : nat;
  g_back : option (nat * nat);
}.

(** The label [backtrack]. *)
Definition backtrack (c : Z) (back : option (nat * nat)) : bool + gstate :=
  match back with
  | Some (back_pat, back_str) =>
      if c =? 0 then inl false
      else inr (GState back_pat (S back_str) (Some (back_pat, S back_str)))
  | None => inl false
  end.

(** The label [literal]. *)
Definition literal (c d : Z) (pat str : nat) (back : option (nat * nat)) : bool + gstate :=
  if c =? d then
    if d =? 0 then inl true else inr (GState pat str back)
  else backtrack c back.

(** The loop over the spans of a class: [None] is the jump to [literal],
    otherwise [match] and the position after the closing bracket. *)
Fixpoint class_loop (fuel : nat) (p : list Z) (c a : Z) (class : nat) (mtch : bool)
    : outcome (option (bool * nat)) :=
  match fuel with
  | O => NoFuel
  | S fuel =>
      if a =? 0 then Ok None else
      let! c0 := rd p class in
      let! (b, class) :=
        (if c0 =? c_dash then
           let! c1 := rd p (class + 1)%nat in
           if c1 =? c_close then Ok (a, class) else Ok (c1, (class + 2)%nat)
         else Ok (a, class)) in
      if b =? 0 then Ok None else
      let mtch := mtch || ((a <=? c) && (c <=? b)) in
      let! a := rd p class in
      if a =? c_close then Ok (Some (mtch, S class))
      else class_loop fuel p c a (S class) mtch
  end.

(** One iteration of the loop over the tokens. *)
Definition glob_step (p s : list Z) (g : gstate) : outcome (bool + gstate) :=
  let! c := rd s (g_str g) in
  let str := S (g_str g) in
  let! d := rd p (g_pat g) in
  let pat := S (g_pat g) in
  let back := g_back g in
  if d =? c_question then
    if c =? 0 then Ok (inl false) else Ok (inr (GState pat str back))
  else if d =? c_star then
    let! e := rd p pat in
    if e =? 0 then Ok (inl true)
    else Ok (inr (GState pat (g_str g) (Some (pat, g_str g))))
  else if d =? c_open then
    let! e := rd p pat in
    let inverted := (e =? c_bang) in
    let class := if inverted then S pat else pat in
    let! a := rd p class in
    let! r := class_loop (S (length p)) p c a (S class) false in
    match r with
    | None => Ok (literal c d pat str back)
    | Some (mtch, class) =>
        if eqb mtch inverted then Ok (backtrack c back)
        else Ok (inr (GState class str back))
    end
  else if d =? c_backslash then
    let! d := rd p pat in
    Ok (literal c d (S pat) str back)
  else Ok (literal c d pat str back).

Fixpoint glob_loop (fuel : nat) (p s : list Z) (g : gstate) : outcome bool :=
  match fuel with
  | O => NoFuel
  | S fuel =>
      let! r := glob_step p s g in
      match r with
      | inl b => Ok b
      | inr g => glob_loop fuel p s g
      end
  end.

(** The number of iterations: quadratic, as the comment of the function says. *)
Definition glob_fuel (p s : list Z) : nat := S (S (length p) * S (length s) + length p).

Definition glob_match (p s : list Z) : outcome bool :=
  glob_loop (glob_fuel p s) p s (GState 0 0 None).

(** ** The meaning of a pattern *)

(** The spans up to the closing bracket: at least one, the first may be a
    bracket; [None] when the class is not closed. *)
Fixpoint spans (l : list Z) : option (list (Z * Z) * list Z) :=
  match l with
  | [] => None
  | a :: l1 =>
      let single :=
        match l1 with
        | x :: r =>
            if x =? c_close then Some ([(a, a)], r)
            else '(sps, r) ← spans l1; Some ((a, a) :: sps, r)
        | [] => None
        end in
      match l1 with
      | x :: l2 =>
          if x =? c_dash then
            match l2 with
            | [] => None
            | b :: l3 =>
                if b =? c_close then single
                else match l3 with
                     | y :: r =>
                         if y =? c_close then Some ([(a, b)], r)
                         else '(sps, r) ← spans l3; Some ((a, b) :: sps, r)
                     | [] => None
                     end
            end
          else single
      | [] => None
      end
  end.

Definition in_spans (c : Z) (sps : list (Z * Z)) : bool :=
  existsb (fun ab => (ab.1 <=? c) && (c <=? ab.2)) sps.

(** What a pattern starts with: its end, a [*], or a token for one character,
    with the pattern after it. *)
Inductive token :=
| TEnd
| TStar (rest : list Z)
| TChar (accepts : Z -> bool) (rest : list Z).

Definition class_token (p : list Z) : token :=
  let '(inv, body) :=
    match p with
    | x :: q => if x =? c_bang then (true, q) else (false, p)
    | [] => (false, p)
    end in
  match spans body with
  | Some (sps, rest) => TChar (fun c => xorb inv (in_spans c sps)) rest
  | None => TChar (Z.eqb c_open) p
  end.

Definition next_token (p : list Z) : token :=
  match p with
  | [] => TEnd
  | d :: p =>
      if d =? c_question then TChar (fun c => negb (c =? 0)) p
      else if d =? c_star then TStar p
      else if d =? c_open then class_token p
      else if d =? c_backslash then
        match p with
        | [] => TEnd
        | e :: p => TChar (Z.eqb e) p
        end
      else TChar (Z.eqb d) p
  end.

Inductive glob_rel : list Z -> list Z -> Prop :=
| glob_end p : next_token p = TEnd -> glob_rel p []
| glob_star p p' u s : next_token p = TStar p' -> glob_rel p' s -> glob_rel p (u ++ s)
| glob_char p f p' c s :
    next_token p = TChar f p' -> f c = true -> glob_rel p' s -> glob_rel p (c :: s).
