(* ===== verification/GlobProps.v ===== *)
(** * The glob matcher: facts and properties

    Each iteration of [glob_match] against the token the pattern has at its
    position, the invariant of the loop, since the last [*] every token has
    consumed one character, and the matcher against the meaning of the
    pattern, with the one case in which it leaves its string. *)

From S2P Require Import Prelude Glob.

(** The bytes of a C string before its NUL. *)
Definition cstr (s : list Z) : Prop := Forall (fun c => 0 < c < 256) s.

Lemma rd_mid pre l : rd (pre ++ l) (length pre) = Ok (hd 0 l).
Proof.
  unfold rd. destruct l as [|c l].
  - rewrite app_nil_r, lookup_mid_end, Nat.eqb_refl. done.
  - by rewrite lookup_mid.
Qed.

Lemma rd_mid_at n pre l : n = length pre -> rd (pre ++ l) n = Ok (hd 0 l).
Proof. intros ->. apply rd_mid. Qed.

Lemma rd_past s : rd s (S (length s)) = Bug.
Proof.
  unfold rd. rewrite lookup_ge_None_2 by lia.
  by rewrite (proj2 (Nat.eqb_neq _ _)) by lia.
Qed.

(** ** Character classes *)

Lemma spans_suffix l sps rest :
  spans l = Some (sps, rest) -> exists u, l = u ++ rest /\ u <> [].
Proof.
  remember (length l) as n eqn:Hn. revert l sps rest Hn.
  induction (lt_wf n) as [n _ IH]; intros [|a l1] sps rest -> Hs; [done|].
  cbn [spans] in Hs.
  assert (forall pre l' ab sps' rest', (length l' < length (a :: l1))%nat -> a :: l1 = pre ++ l' ->
    match l' with
    | [] => None
    | y :: r => if y =? c_close then Some ([ab], r)
        else '(sps, r) ← spans l'; Some (ab :: sps, r)
    end = Some (sps', rest') -> exists u, a :: l1 = u ++ rest' /\ u <> []) as Htail.
  { intros pre [|y r] ab sps' rest' Hlt Heq Hm; [done|]. case_if_in Hm.
    - injection Hm as <- <-. exists (pre ++ [y]). rewrite <- app_assoc. split; [done|].
      by destruct pre.
    - destruct (spans (y :: r)) as [[sps2 r2]|] eqn:Hsp; [|done].
      cbn in Hm. injection Hm as <- <-.
      destruct (IH _ Hlt _ _ _ eq_refl Hsp) as (u & Hu & Hne).
      exists (pre ++ u). rewrite <- app_assoc, <- Hu. split; [done|].
      by destruct pre, u. }
  destruct l1 as [|x l2]; [done|].
  case_if_in Hs; [destruct l2 as [|b l3]; [done|]; case_if_in Hs|].
  - apply (Htail [a] (x :: b :: l3) _ _ _ ltac:(cbn; lia) eq_refl Hs).
  - apply (Htail [a; x; b] l3 _ _ _ ltac:(cbn; lia) eq_refl Hs).
  - apply (Htail [a] (x :: l2) _ _ _ ltac:(cbn; lia) eq_refl Hs).
Qed.

(** What the loop answers once a span has been read. *)
Definition class_result (p : list Z) (c : Z) (m : bool) (r : option (list (Z * Z) * list Z))
    : option (bool * nat) :=
  match r with
  | Some (sps, rest) => Some (m || in_spans c sps, (length p - length rest)%nat)
  | None => None
  end.

(** The end of an iteration: the span is [ab], the class goes on at [l]. *)
Definition spans_after (ab : Z * Z) (l : list Z) : option (list (Z * Z) * list Z) :=
  match l with
  | [] => None
  | y :: r =>
      if y =? c_close then Some ([ab], r)
      else '(sps, r) ← spans l; Some (ab :: sps, r)
  end.

Lemma class_next fuel pre l c ab m m' :
  m' = m || (ab.1 <=? c) && (c <=? ab.2) -> (0 < fuel)%nat ->
  class_loop fuel (pre ++ l) c (hd 0 l) (S (length pre)) m'
  = Ok (class_result (pre ++ l) c m' (spans l)) ->
  (let! a := rd (pre ++ l) (length pre) in
   if a =? c_close then Ok (Some (m', S (length pre)))
   else class_loop fuel (pre ++ l) c a (S (length pre)) m')
  = Ok (class_result (pre ++ l) c m (spans_after ab l)).
Proof.
  intros Hm Hf IH. rewrite rd_mid. cbn [obind]. destruct l as [|y r].
  - destruct fuel; [lia|]. done.
  - cbn [hd spans_after] in *. case_if.
    + cbn [class_result]. rewrite length_app. cbn [length]. do 3 f_equal; [|lia].
      cbn. by rewrite orb_false_r.
    + rewrite IH. destruct (spans (y :: r)) as [[sps2 r2]|]; cbn; [|done].
      by rewrite Hm, orb_assoc.
Qed.

Lemma spans_cons a l1 :
  spans (a :: l1) =
  match l1 with
  | x :: l2 =>
      if x =? c_dash then
        match l2 with
        | [] => None
        | b :: l3 => if b =? c_close then spans_after (a, a) l1 else spans_after (a, b) l3
        end
      else spans_after (a, a) l1
  | [] => None
  end.
Proof. by destruct l1 as [|x [|b l3]]. Qed.

Lemma class_loop_spans fuel pre l c m :
  cstr l -> (length l < fuel)%nat ->
  class_loop fuel (pre ++ l) c (hd 0 l) (S (length pre)) m
  = Ok (class_result (pre ++ l) c m (spans l)).
Proof.
  revert pre l m. induction fuel as [|fuel IH]; [lia|].
  intros pre [|a l1] m Hl Hf; [done|]. rewrite spans_cons.
  cbn [class_loop hd]. apply Forall_cons in Hl as [Ha Hl1].
  rewrite (proj2 (Z.eqb_neq a 0)) by lia. rewrite <- (length_snoc pre a), app_snoc.
  rewrite (rd_mid (pre ++ [a]) l1) at 1. cbn [obind].
  destruct l1 as [|x l2].
  { cbn [hd]. change (0 =? c_dash) with false. cbn [obind].
    rewrite (proj2 (Z.eqb_neq a 0)) by lia.
    apply (class_next fuel (pre ++ [a]) [] c (a, a)); [done|cbn in *; lia|].
    apply IH; [done|cbn in *; lia]. }
  cbn [hd].
  assert (forall m', class_loop fuel ((pre ++ [a]) ++ x :: l2) c x (S (length (pre ++ [a]))) m'
    = Ok (class_result ((pre ++ [a]) ++ x :: l2) c m' (spans (x :: l2)))) as Hsingle.
  { intros m'. apply (IH (pre ++ [a]) (x :: l2)); [done|]. cbn [length] in *. lia. }
  assert (forall b, a = b -> (if b =? 0 then Ok None else
      let! a0 := rd ((pre ++ [a]) ++ x :: l2) (length (pre ++ [a])) in
      if a0 =? c_close then Ok (Some (m || (a <=? c) && (c <=? b), S (length (pre ++ [a]))))
      else class_loop fuel ((pre ++ [a]) ++ x :: l2) c a0 (S (length (pre ++ [a])))
             (m || (a <=? c) && (c <=? b)))
    = Ok (class_result ((pre ++ [a]) ++ x :: l2) c m (spans_after (a, a) (x :: l2)))) as Hone.
  { intros b <-. rewrite (proj2 (Z.eqb_neq a 0)) by lia.
    apply (class_next fuel (pre ++ [a]) (x :: l2) c (a, a)); [done|cbn in *; lia|].
    apply Hsingle. }
  destruct (x =? c_dash) eqn:Ex; [|by apply Hone].
  rewrite (app_snoc (pre ++ [a]) x l2) at 1.
  rewrite (rd_mid_at _ ((pre ++ [a]) ++ [x]) l2) by (rewrite !length_snoc; lia).
  cbn [obind]. apply Forall_cons in Hl1 as [Hx Hl2]. destruct l2 as [|b l3]; [done|].
  cbn [hd]. apply Forall_cons in Hl2 as [Hb Hl3].
  destruct (b =? c_close); [by apply Hone|]. cbn [obind].
  rewrite (proj2 (Z.eqb_neq b 0)) by lia.
  replace ((pre ++ [a]) ++ x :: b :: l3) with ((pre ++ [a; x; b]) ++ l3)
    by (by rewrite <- !app_assoc).
  replace (length (pre ++ [a]) + 2)%nat with (length (pre ++ [a; x; b]))
    by (rewrite !length_app; cbn; lia).
  apply (class_next fuel _ l3 c (a, b)); [done|cbn in *; lia|].
  apply IH; [done|]. cbn [length] in *. lia.
Qed.

(** ** Tokens *)

Lemma class_token_char q : exists f q', class_token q = TChar f q'.
Proof.
  unfold class_token.
  destruct (match q with [] => _ | _ => _ end) as [inv body].
  destruct (spans body) as [[sps rest]|]; eauto.
Qed.

Lemma class_token_suffix q f q' :
  class_token q = TChar f q' -> exists u, q = u ++ q'.
Proof.
  unfold class_token. intros Ht.
  assert (exists u, q = u ++ (match q with
    | x :: q0 => if x =? c_bang then (true, q0) else (false, q)
    | [] => (false, q) end).2) as [u Hu].
  { destruct q as [|x q0]; [by exists []|]. case_if; [by exists [x]|by exists []]. }
  destruct (match q with [] => _ | _ => _ end) as [inv body]. cbn in Hu.
  destruct (spans body) as [[sps rest]|] eqn:Hs; injection Ht as <- <-.
  - destruct (spans_suffix _ _ _ Hs) as (v & -> & _). exists (u ++ v).
    by rewrite <- app_assoc.
  - by exists [].
Qed.

Lemma next_token_suffix l f l' :
  next_token l = TChar f l' \/ next_token l = TStar l' ->
  exists u, l = u ++ l' /\ u <> [].
Proof.
  destruct l as [|d l]; cbn [next_token]; [by intros [?|?]|].
  case_if; [intros [Ht|Ht]; [injection Ht as <- <-|done]; by exists [d]|].
  case_if; [intros [Ht|Ht]; [done|injection Ht as <-]; by exists [d]|].
  case_if.
  { destruct (class_token_char l) as (g & q & Hc). intros [Ht|Ht]; [|congruence].
    destruct (class_token_suffix _ _ _ Ht) as [u ->]. by exists (d :: u). }
  case_if.
  { destruct l as [|e l]; [by intros [?|?]|].
    intros [Ht|Ht]; [injection Ht as <- <-|done]. by exists [d; e]. }
  intros [Ht|Ht]; [injection Ht as <- <-|done]. by exists [d].
Qed.

(** ** One iteration *)

(** What an iteration does, from the token of the pattern. *)
Definition token_step (np : nat) (l r : list Z) (str : nat) (back : option (nat * nat))
    : bool + gstate :=
  match next_token l with
  | TEnd => match r with [] => inl true | c :: _ => backtrack c back end
  | TStar [] => inl true
  | TStar l' => inr (GState (np - length l') str (Some ((np - length l')%nat, str)))
  | TChar f l' =>
      if f (hd 0 r) then inr (GState (np - length l') (S str) back)
      else backtrack (hd 0 r) back
  end.

Lemma backtrack_nul back : backtrack 0 back = inl false.
Proof. by destruct back as [[??]|]. Qed.

Lemma literal_nonzero c d pat str back :
  d <> 0 -> literal c d pat str back = if d =? c then inr (GState pat str back) else backtrack c back.
Proof.
  intros Hd. unfold literal. rewrite (Z.eqb_sym d c). case_if; [|done].
  by rewrite (proj2 (Z.eqb_neq d 0)).
Qed.

Lemma class_step pp l c str back :
  cstr l ->
  (let! e := rd (pp ++ c_open :: l) (S (length pp)) in
   let inverted := (e =? c_bang) in
   let class := if inverted then S (S (length pp)) else S (length pp) in
   let! a := rd (pp ++ c_open :: l) class in
   let! r := class_loop (S (length (pp ++ c_open :: l))) (pp ++ c_open :: l) c a (S class) false in
   match r with
   | None => Ok (literal c c_open (S (length pp)) str back)
   | Some (mtch, class) =>
       if eqb mtch inverted then Ok (backtrack c back)
       else Ok (inr (GState class str back))
   end)
  = Ok match class_token l with
       | TChar f l' =>
           if f c then inr (GState (length (pp ++ c_open :: l) - length l') str back)
           else backtrack c back
       | _ => inl true
       end.
Proof.
  intros Hl. rewrite app_snoc, <- (length_snoc pp c_open). set (pre := pp ++ [c_open]).
  rewrite rd_mid. cbn [obind].
  assert (forall inv pre' body, pre ++ l = pre' ++ body -> cstr body ->
    (let! a := rd (pre ++ l) (length pre') in
     let! r := class_loop (S (length (pre ++ l))) (pre ++ l) c a (S (length pre')) false in
     match r with
     | None => Ok (literal c c_open (length pre) str back)
     | Some (mtch, class) =>
         if eqb mtch inv then Ok (backtrack c back) else Ok (inr (GState class str back))
     end) = Ok match match spans body with
        | Some (sps, rest) => TChar (fun c => xorb inv (in_spans c sps)) rest
        | None => TChar (Z.eqb c_open) l
        end with
       | TChar f l' => if f c then inr (GState (length (pre ++ l) - length l') str back)
                       else backtrack c back
       | _ => inl true
       end) as Hrun.
  { intros inv pre' body Heq Hb. rewrite Heq, rd_mid. cbn [obind].
    rewrite class_loop_spans by (done || (rewrite length_app; lia)). cbn [obind].
    destruct (spans body) as [[sps rest]|]; cbn [class_result].
    - cbn [orb]. destruct (in_spans c sps), inv; done.
    - rewrite literal_nonzero by done. rewrite <- Heq, length_app.
      by replace (length pre + length l - length l)%nat with (length pre) by lia. }
  unfold class_token. destruct l as [|x q]; cbn [hd].
  - by apply (Hrun false pre []).
  - destruct (x =? c_bang).
    + rewrite <- (length_snoc pre x). apply (Hrun true (pre ++ [x]) q).
      * by rewrite <- app_assoc.
      * by apply Forall_cons in Hl as [_ ?].
    + by apply (Hrun false pre (x :: q)).
Qed.

Lemma pos_after pp d (l : list Z) : (length (pp ++ d :: l) - length l)%nat = S (length pp).
Proof. rewrite length_app. cbn [length]. lia. Qed.

Lemma glob_step_token pp l ss r back :
  cstr l -> cstr r ->
  glob_step (pp ++ l) (ss ++ r) (GState (length pp) (length ss) back)
  = Ok (token_step (length (pp ++ l)) l r (length ss) back).
Proof.
  intros Hl Hr. unfold glob_step, token_step. cbn [g_pat g_str g_back]. rewrite !rd_mid.
  cbn [obind].
  assert (forall pat str, literal (hd 0 r) 0 pat str back
    = match r with [] => inl true | c :: _ => backtrack c back end) as Hend.
  { intros. unfold literal. destruct r as [|c r]; [done|]. cbn [hd].
    apply Forall_cons in Hr as [? _]. by rewrite (proj2 (Z.eqb_neq c 0)) by lia. }
  destruct l as [|d l]; cbn [hd next_token].
  { cbn -[backtrack literal]. by rewrite Hend. }
  apply Forall_cons in Hl as [Hd Hl]. case_if.
  { rewrite pos_after. destruct (hd 0 r =? 0) eqn:E0; zbool; [|done].
    cbn [negb]. by rewrite E0, backtrack_nul. }
  case_if.
  { rewrite app_snoc, <- (length_snoc pp d), rd_mid. cbn [obind].
    destruct l as [|e l]; [done|]. cbn [hd]. apply Forall_cons in Hl as [He _].
    rewrite (proj2 (Z.eqb_neq e 0)) by lia. rewrite (length_app (pp ++ [d])).
    by rewrite Nat.add_sub. }
  case_if.
  { subst d. rewrite class_step by done. destruct (class_token_char l) as (f & l' & ->). done. }
  case_if.
  { rewrite app_snoc, <- (length_snoc pp d), rd_mid. cbn [obind].
    destruct l as [|e l]; cbn [hd]; [by rewrite Hend|]. apply Forall_cons in Hl as [He _].
    rewrite literal_nonzero by lia. by rewrite pos_after. }
  rewrite literal_nonzero by lia. by rewrite pos_after.
Qed.

(** ** Segments: what was matched since the last [*] *)

Inductive seg (bl br : list Z) : list Z -> list Z -> Prop :=
| seg_start : seg bl br bl br
| seg_char l f l' c r :
    seg bl br l (c :: r) -> next_token l = TChar f l' -> f c = true -> seg bl br l' r.

Lemma glob_rel_char_inv l f l' s :
  next_token l = TChar f l' -> glob_rel l s ->
  exists c s', s = c :: s' /\ f c = true /\ glob_rel l' s'.
Proof.
  intros Ht Hg. inversion Hg as [? He|? ? ? ? He|? ? ? c s' He Hf Hg']; subst; rewrite Ht in He;
    simplify_eq. by exists c, s'.
Qed.

Lemma glob_rel_star l l' s :
  next_token l = TStar l' ->
  glob_rel l s <-> exists k, (k <= length s)%nat /\ glob_rel l' (drop k s).
Proof.
  intros Ht. split.
  - intros Hg. inversion Hg as [? He|? ? u s' Ht' Hg'|? ? ? ? ? Ht']; subst; try congruence.
    exists (length u). rewrite length_app, drop_app_length. split; [lia|]. congruence.
  - intros (k & _ & Hg). rewrite <- (take_drop k s). by apply (glob_star _ l').
Qed.

(** The tokens of a segment consume one character each, on any string. *)
Lemma seg_rel bl br l r w :
  seg bl br l r -> glob_rel bl w ->
  exists n, (n + length r = length br)%nat /\ (n <= length w)%nat
    /\ drop n br = r /\ glob_rel l (drop n w).
Proof.
  intros Hseg Hg. induction Hseg as [|l f l' c r Hseg IH Ht Hf].
  { exists 0%nat. rewrite !drop_0. split_and!; done || lia. }
  destruct IH as (n & Hn & Hw & Hd & Hl).
  destruct (glob_rel_char_inv _ _ _ _ Ht Hl) as (c' & s' & Hs & _ & Hg').
  exists (S n). cbn [length] in Hn. split; [lia|].
  assert (length (drop n w) = S (length s')) as Hlen by (by rewrite Hs).
  rewrite length_drop in Hlen. split; [lia|].
  rewrite <- Nat.add_1_r, <- !drop_drop, Hd, Hs. by rewrite !skipn_cons, !drop_0.
Qed.

Lemma seg_length bl br l r : seg bl br l r -> (length r <= length br)%nat.
Proof. induction 1; cbn [length] in *; lia. Qed.

Lemma seg_drop bl br l r : seg bl br l r -> r = drop (length br - length r) br.
Proof.
  induction 1 as [|l f l' c r Hseg IH].
  - by rewrite Nat.sub_diag, drop_0.
  - pose proof (seg_length _ _ _ _ Hseg). cbn [length] in *.
    replace (length br - length r)%nat with ((length br - S (length r)) + 1)%nat by lia.
    by rewrite <- drop_drop, <- IH, skipn_cons, drop_0.
Qed.

(** What remains to be tried after a mismatch: the last [*] takes more. *)
Definition retry (B : option (list Z * list Z)) : Prop :=
  match B with
  | Some (bl, br) => exists k, (1 <= k <= length br)%nat /\ glob_rel bl (drop k br)
  | None => False
  end.

Definition seg_opt (B : option (list Z * list Z)) (l r : list Z) : Prop :=
  match B with Some (bl, br) => seg bl br l r | None => True end.

(** A later [*] makes the earlier one redundant. *)
Lemma star_subsumes B l l' r :
  seg_opt B l r -> next_token l = TStar l' -> retry B -> glob_rel l r.
Proof.
  destruct B as [[bl br]|]; [|done]. cbn. intros Hseg Ht (k & Hk & Hg).
  destruct (seg_rel _ _ _ _ _ Hseg Hg) as (n & Hn & _ & Hd & Hl).
  apply (glob_rel_star _ _ _ Ht) in Hl as (j & _ & Hj). apply (glob_rel_star _ _ _ Ht).
  rewrite !drop_drop in Hj. rewrite <- Hd.
  assert (glob_rel l' (drop (k + j) (drop n br))) as Hj'.
  { rewrite drop_drop. by replace (n + (k + j))%nat with (k + (n + j))%nat by lia. }
  destruct (decide (k + j <= length (drop n br))%nat).
  - by exists (k + j)%nat.
  - exists (length (drop n br)). split; [done|].
    rewrite drop_ge in Hj' by lia. by rewrite (drop_ge (drop n br) (length _)) by lia.
Qed.

(** At the end of the string nothing remains to be tried. *)
Lemma retry_end B l : seg_opt B l [] -> retry B -> False.
Proof.
  destruct B as [[bl br]|]; [|done]. cbn. intros Hseg (k & Hk & Hg).
  destruct (seg_rel _ _ _ _ _ Hseg Hg) as (n & Hn & Hw & _). cbn in Hn.
  rewrite length_drop in Hw. lia.
Qed.

(** ** The loop *)

(** A pattern in which some token would accept the terminating NUL: an
    inverted class. *)
Inductive accepts_nul : list Z -> Prop :=
| nul_here p f p' : next_token p = TChar f p' -> f 0 = true -> accepts_nul p
| nul_star p p' : next_token p = TStar p' -> accepts_nul p' -> accepts_nul p
| nul_char p f p' : next_token p = TChar f p' -> accepts_nul p' -> accepts_nul p.

Lemma spans_nul l sps rest :
  cstr l -> spans l = Some (sps, rest) -> in_spans 0 sps = false.
Proof.
  remember (length l) as n eqn:Hn. revert l sps rest Hn.
  induction (lt_wf n) as [n _ IH]; intros [|a l1] sps rest -> Hl Hs; [done|].
  rewrite spans_cons in Hs.
  assert (forall ab l', 0 < ab.1 -> (length l' < length (a :: l1))%nat -> cstr l' ->
    spans_after ab l' = Some (sps, rest) -> in_spans 0 sps = false) as Hafter.
  { intros [a' b] [|y r] Ha Hlt Hl' Hm; [done|]. cbn [spans_after] in Hm. cbn in Ha.
    assert ((a' <=? 0) && (0 <=? b) = false) as Hab.
    { by rewrite (proj2 (Z.leb_gt a' 0)) by lia. }
    destruct (y =? c_close); [injection Hm as <- <-; cbn [in_spans existsb fst snd]; by rewrite Hab|].
    destruct (spans (y :: r)) as [[sps2 r2]|] eqn:Hsp; [|done].
    cbn in Hm. injection Hm as <- <-. cbn [in_spans existsb fst snd]. rewrite Hab.
    apply (IH _ Hlt (y :: r) _ r2 eq_refl Hl' Hsp). }
  apply Forall_cons in Hl as [Ha Hl1].
  destruct l1 as [|x l2]; [done|]. pose proof Hl1 as [_ Hl2]%Forall_cons.
  case_if_in Hs; [destruct l2 as [|b l3]; [done|]; pose proof Hl2 as [_ Hl3]%Forall_cons;
    case_if_in Hs|].
  all: eapply Hafter; [|..|exact Hs]; cbn in *; done || lia.
Qed.

Lemma accepts_nul_inverted p :
  cstr p -> accepts_nul p -> exists u v, p = u ++ c_open :: c_bang :: v.
Proof.
  assert (forall p p', cstr p -> (exists u, p = u ++ p' /\ u <> []) ->
    (cstr p' -> exists u v, p' = u ++ c_open :: c_bang :: v) ->
    exists u v, p = u ++ c_open :: c_bang :: v) as Hlater.
  { intros q q' Hq (w & -> & _) Hin. apply Forall_app in Hq as [_ Hq].
    destruct (Hin Hq) as (u & v & ->). exists (w ++ u), v. by rewrite <- app_assoc. }
  intros Hp Hn. induction Hn as [p f p' Ht Hf|p p' Ht _ IH|p f p' Ht _ IH].
  - destruct p as [|d p]; [done|]. cbn [next_token] in Ht.
    apply Forall_cons in Hp as [Hd Hp]. exists [], (tail p).
    case_if_in Ht; [injection Ht as <- <-; done|]. case_if_in Ht; [done|].
    case_if_in Ht.
    + subst d. unfold class_token in Ht. destruct p as [|x q]; [by injection Ht as <- <-|].
      destruct (x =? c_bang) eqn:Ex; zbool; [by subst x|]. exfalso.
      destruct (spans (x :: q)) as [[sps rest]|] eqn:Hs; injection Ht as <- <-; [|done].
      rewrite (spans_nul _ _ _ Hp Hs) in Hf. done.
    + exfalso. case_if_in Ht; [destruct p as [|x q]; [done|]; apply Forall_cons in Hp as [Hx _]|];
        injection Ht as <- <-; zbool; lia.
  - apply (Hlater p p'); [done| |done]. apply (next_token_suffix p (fun _ => true)). by right.
  - apply (Hlater p p'); [done| |done]. apply (next_token_suffix p f). by left.
Qed.

(** The invariant: the positions are those of the suffixes [l] and [r], and
    [B] is what follows the last [*]. *)
Record glob_inv (p s : list Z) (g : gstate) (l r : list Z) (B : option (list Z * list Z)) : Prop := {
  gi_pat : exists pp, p = pp ++ l /\ g_pat g = length pp;
  gi_str : exists ss, s = ss ++ r /\ g_str g = length ss;
  gi_back : g_back g = (fun b => ((length p - length b.1)%nat, (length s - length b.2)%nat)) <$> B;
  gi_bsuf : forall bl br, B = Some (bl, br) -> bl `suffix_of` p /\ br `suffix_of` s;
  gi_seg : seg_opt B l r;
  gi_nul : accepts_nul l -> accepts_nul p;
  gi_bnul : forall bl br, B = Some (bl, br) -> accepts_nul bl -> accepts_nul p;
}.

(** Iterations left: every backtrack shortens [br], every token the pattern. *)
Definition glob_left (p s l : list Z) (B : option (list Z * list Z)) : nat :=
  (S (length p) * (match B with Some (_, br) => length br | None => S (length s) end)
   + length l)%nat.

Definition glob_ok (p : list Z) (m : outcome bool) (P : Prop) : Prop :=
  (exists b, m = Ok b /\ (b = true <-> P)) \/ (m = Bug /\ accepts_nul p).

Lemma suffix_pos (l p : list Z) :
  l `suffix_of` p -> exists pp, p = pp ++ l /\ (length p - length l)%nat = length pp.
Proof. intros [pp ->]. exists pp. rewrite length_app. split; [done|lia]. Qed.

Lemma token_suffix_of p l f l' :
  l `suffix_of` p -> next_token l = TChar f l' \/ next_token l = TStar l' -> l' `suffix_of` p.
Proof.
  intros Hl Ht. destruct (next_token_suffix l f l' Ht) as (u & Hu & _). subst l.
  etrans; [|exact Hl]. by exists u.
Qed.

Section Invariant.
Context (p s : list Z) (g : gstate) (l r : list Z) (B : option (list Z * list Z)).
Context (Hinv : glob_inv p s g l r B).

Lemma gi_lsuf : l `suffix_of` p.
Proof using Hinv. destruct (gi_pat _ _ _ _ _ _ Hinv) as (pp & -> & _). by exists pp. Qed.

Lemma gi_rsuf : r `suffix_of` s.
Proof using Hinv. destruct (gi_str _ _ _ _ _ _ Hinv) as (ss & -> & _). by exists ss. Qed.

Lemma inv_char f l' c r' :
  next_token l = TChar f l' -> r = c :: r' -> f c = true ->
  glob_inv p s (GState (length p - length l') (S (g_str g)) (g_back g)) l' r' B.
Proof using Hinv.
  intros Ht Hr Hf. pose proof gi_lsuf as Hlsuf. subst r.
  destruct Hinv as [Hp (ss & Hs & Hss) Hb Hbs Hseg Hnul Hbnul].
  split; cbn [g_pat g_str g_back]; try done.
  - apply suffix_pos. apply (token_suffix_of _ _ f _ Hlsuf). by left.
  - exists (ss ++ [c]). by rewrite length_snoc, Hss, <- app_assoc.
  - destruct B as [[bl br]|]; [|done]. by apply (seg_char _ _ l f l' c).
  - intros Hn. apply Hnul. by apply (nul_char l f l').
Qed.

Lemma inv_star l' :
  next_token l = TStar l' ->
  glob_inv p s (GState (length p - length l') (g_str g) (Some ((length p - length l')%nat, g_str g)))
    l' r (Some (l', r)).
Proof using Hinv.
  intros Ht.
  assert (l' `suffix_of` p) as Hl' by (apply (token_suffix_of _ _ (fun _ => true) _ gi_lsuf); by right).
  assert (accepts_nul l' -> accepts_nul p) as Hn.
  { intros Hn. apply (gi_nul _ _ _ _ _ _ Hinv). by apply (nul_star l l'). }
  split; cbn [g_pat g_str g_back]; try done.
  - by apply suffix_pos.
  - apply (gi_str _ _ _ _ _ _ Hinv).
  - cbn. destruct (gi_str _ _ _ _ _ _ Hinv) as (ss & -> & ->). rewrite length_app.
    do 2 f_equal. lia.
  - intros bl br [= <- <-]. split; [done|]. apply gi_rsuf.
  - constructor.
  - by intros bl br [= <- <-].
Qed.

Lemma inv_back bl c br :
  B = Some (bl, c :: br) ->
  exists bp bs, g_back g = Some (bp, bs) /\
    glob_inv p s (GState bp (S bs) (Some (bp, S bs))) bl br (Some (bl, br)).
Proof using Hinv.
  intros HB. destruct (gi_bsuf _ _ _ _ _ _ Hinv _ _ HB) as [Hbl Hbr].
  pose proof (gi_bnul _ _ _ _ _ _ Hinv _ _ HB) as Hbn.
  pose proof (gi_back _ _ _ _ _ _ Hinv) as Hb. subst B. cbn [fmap option_fmap option_map fst snd] in Hb.
  do 2 eexists. split; [exact Hb|].
  destruct (suffix_pos _ _ Hbr) as (bb & Hs & Hlen).
  assert (S (length s - length (c :: br)) = length s - length br)%nat as Hpos.
  { rewrite Hs, length_app. cbn [length]. lia. }
  split; cbn [g_pat g_str g_back]; try done.
  - by apply suffix_pos.
  - exists (bb ++ [c]). rewrite length_snoc, <- Hlen, <- app_assoc. done.
  - cbn. by rewrite <- Hpos.
  - intros bl' br' [= <- <-]. split; [done|]. etrans; [|exact Hbr]. by exists [c].
  - constructor.
  - by intros bl' br' [= <- <-].
Qed.

End Invariant.

Lemma retry_cons bl c br :
  retry (Some (bl, c :: br)) <-> glob_rel bl br \/ retry (Some (bl, br)).
Proof.
  cbn. split.
  - intros ([|[|k]] & Hk & Hg); [lia|by left|right].
    exists (S k). split; [lia|done].
  - intros [Hg|(k & Hk & Hg)].
    + exists 1%nat. split; [lia|done].
    + exists (S k). split; [lia|done].
Qed.

(** A mismatch at a character: the loop goes on from the last [*]. *)
Lemma glob_ok_backtrack fuel p s g l r B c r' :
  glob_inv p s g l r B -> r = c :: r' -> cstr s -> ~ glob_rel l r ->
  (forall g l2 r2 B2, glob_inv p s g l2 r2 B2 ->
     (glob_left p s l2 B2 < glob_left p s l B)%nat ->
     glob_ok p (glob_loop fuel p s g) (glob_rel l2 r2 \/ retry B2)) ->
  glob_ok p (match backtrack c (g_back g) with
             | inl b => Ok b
             | inr g => glob_loop fuel p s g
             end) (glob_rel l r \/ retry B).
Proof.
  intros Hinv -> Hs Hno IH. destruct B as [[bl br]|].
  - pose proof (seg_length _ _ _ _ (gi_seg _ _ _ _ _ _ Hinv)) as Hlen.
    destruct br as [|c0 br]; [cbn in Hlen; lia|].
    destruct (inv_back p s g l _ _ Hinv bl c0 br eq_refl) as (bp & bs & -> & Hinv').
    assert (c <> 0) as Hc.
    { destruct (gi_rsuf _ _ _ _ _ _ Hinv) as [u ->].
      apply Forall_app in Hs as [_ [Hc _]%Forall_cons]. lia. }
    cbn [backtrack]. rewrite (proj2 (Z.eqb_neq c 0)) by done.
    assert (glob_left p s bl (Some (bl, br)) < glob_left p s l (Some (bl, c0 :: br)))%nat as Hlt.
    { unfold glob_left. cbn [length].
      destruct (gi_bsuf _ _ _ _ _ _ Hinv _ _ eq_refl) as [[u ->] _].
      rewrite length_app. lia. }
    specialize (IH _ _ _ _ Hinv' Hlt).
    destruct IH as [(b & Hb & Hiff)|Hbug]; [left|by right].
    exists b. split; [done|]. rewrite Hiff, retry_cons. tauto.
  - rewrite (gi_back _ _ _ _ _ _ Hinv). left. exists false. split; [done|].
    split; [done|]. by intros [?|[]].
Qed.

(** A [*]: the earlier one is given up. *)
Lemma glob_ok_star fuel p s g l r B l' :
  glob_inv p s g l r B -> next_token l = TStar l' ->
  (forall g l2 r2 B2, glob_inv p s g l2 r2 B2 ->
     (glob_left p s l2 B2 < glob_left p s l B)%nat ->
     glob_ok p (glob_loop fuel p s g) (glob_rel l2 r2 \/ retry B2)) ->
  glob_ok p (match match l' with
                   | [] => inl true
                   | _ => inr (GState (length p - length l') (g_str g)
                            (Some ((length p - length l')%nat, g_str g)))
                   end with
             | inl b => Ok b
             | inr g => glob_loop fuel p s g
             end) (glob_rel l r \/ retry B).
Proof.
  intros Hinv Ht IH.
  assert (glob_rel l r \/ retry B <-> glob_rel l' r \/ retry (Some (l', r))) as Hiff.
  { transitivity (glob_rel l r).
    - split; [|by left]. intros [?|Hre]; [done|].
      by apply (star_subsumes B l l'); [apply (gi_seg _ _ _ _ _ _ Hinv)|..].
    - rewrite (glob_rel_star _ _ _ Ht). cbn. split.
      + intros ([|k] & Hk & Hg); [by left|right]. exists (S k). split; [lia|done].
      + intros [Hg|(k & Hk & Hg)]; [exists 0%nat|exists k]; (split; [lia|done]). }
  destruct l' as [|x l'].
  - left. exists true. split; [done|]. split; [|done]. intros _. rewrite Hiff.
    destruct r as [|c r]; [by left; constructor|right].
    exists (length (c :: r)). split; [cbn; lia|]. rewrite drop_ge by done. by constructor.
  - assert (glob_left p s (x :: l') (Some (x :: l', r)) < glob_left p s l B)%nat as Hlt.
    { unfold glob_left.
      destruct (next_token_suffix l (fun _ => true) _ (or_intror Ht)) as ([|y u] & -> & Hne); [done|].
      rewrite length_app. cbn [length].
      assert (length r <= match B with Some (_, br) => length br | None => S (length s) end)%nat.
      { destruct B as [[bl br]|]; [apply (seg_length _ _ _ _ (gi_seg _ _ _ _ _ _ Hinv))|].
        destruct (gi_rsuf _ _ _ _ _ _ Hinv) as [v ->]. rewrite length_app. lia. }
      nia. }
    destruct (IH _ _ _ _ (inv_star _ _ _ _ _ _ Hinv _ Ht) Hlt) as [(b & Hb & Hb')|Hbug];
      [left|by right]. exists b. split; [done|]. by rewrite Hb', Hiff.
Qed.

(** A token for one character. *)
Lemma glob_ok_char fuel p s g l r B f l' :
  glob_inv p s g l r B -> next_token l = TChar f l' -> cstr s -> (0 < fuel)%nat ->
  (forall g l2 r2 B2, glob_inv p s g l2 r2 B2 ->
     (glob_left p s l2 B2 < glob_left p s l B)%nat ->
     glob_ok p (glob_loop fuel p s g) (glob_rel l2 r2 \/ retry B2)) ->
  glob_ok p (match (if f (hd 0 r) then inr (GState (length p - length l') (S (g_str g)) (g_back g))
                    else backtrack (hd 0 r) (g_back g)) with
             | inl b => Ok b
             | inr g => glob_loop fuel p s g
             end) (glob_rel l r \/ retry B).
Proof.
  intros Hinv Ht Hs Hfuel IH. destruct r as [|c r]; cbn [hd].
  - destruct (f 0) eqn:Hf.
    + right. split; [|apply (gi_nul _ _ _ _ _ _ Hinv); by apply (nul_here l f l')].
      destruct fuel as [|fuel]; [lia|]. cbn [glob_loop]. unfold glob_step. cbn [g_str].
      destruct (gi_str _ _ _ _ _ _ Hinv) as (ss & Hss & ->). rewrite app_nil_r in Hss. subst ss.
      by rewrite rd_past.
    + rewrite backtrack_nul. left. exists false. split; [done|]. split; [done|].
      intros [Hg|Hre].
      * by destruct (glob_rel_char_inv _ _ _ _ Ht Hg) as (? & ? & ? & _).
      * by destruct (retry_end B l (gi_seg _ _ _ _ _ _ Hinv) Hre).
  - destruct (f c) eqn:Hf.
    + assert (glob_left p s l' B < glob_left p s l B)%nat as Hlt.
      { unfold glob_left.
        destruct (next_token_suffix l f _ (or_introl Ht)) as ([|y u] & -> & Hne); [done|].
        rewrite length_app. cbn [length]. lia. }
      destruct (IH _ _ _ _ (inv_char _ _ _ _ _ _ Hinv f l' c r Ht eq_refl Hf) Hlt)
        as [(b & Hb & Hb')|Hbug]; [left|by right].
      exists b. split; [done|]. rewrite Hb'.
      assert (glob_rel l' r <-> glob_rel l (c :: r)) as ->; [|done]. split.
      * intros Hg. by apply (glob_char l f l').
      * intros Hg. by destruct (glob_rel_char_inv _ _ _ _ Ht Hg) as (? & ? & [= <- <-] & _ & ?).
    + eapply glob_ok_backtrack; [done..| |done]. intros Hg.
      destruct (glob_rel_char_inv _ _ _ _ Ht Hg) as (? & ? & [= <- <-] & ? & _). congruence.
Qed.

Lemma glob_loop_ok fuel p s g l r B :
  cstr p -> cstr s -> glob_inv p s g l r B -> (glob_left p s l B < fuel)%nat ->
  glob_ok p (glob_loop fuel p s g) (glob_rel l r \/ retry B).
Proof.
  intros Hp Hs. revert g l r B. induction fuel as [|fuel IH]; [lia|].
  intros g l r B Hinv Hfuel.
  assert (forall g l2 r2 B2, glob_inv p s g l2 r2 B2 ->
     (glob_left p s l2 B2 < glob_left p s l B)%nat ->
     glob_ok p (glob_loop fuel p s g) (glob_rel l2 r2 \/ retry B2)) as IH'.
  { intros. apply IH; [done|lia]. }
  clear IH. cbn [glob_loop].
  destruct (gi_pat _ _ _ _ _ _ Hinv) as (pp & Hpp & Hgp).
  destruct (gi_str _ _ _ _ _ _ Hinv) as (ss & Hss & Hgs).
  assert (cstr l) as Hl by (rewrite Hpp in Hp; by apply Forall_app in Hp as [_ ?]).
  assert (cstr r) as Hr by (rewrite Hss in Hs; by apply Forall_app in Hs as [_ ?]).
  assert (glob_step p s g = Ok (token_step (length p) l r (g_str g) (g_back g))) as ->.
  { destruct g as [gp gs gb]. cbn in *. subst gp gs. rewrite Hpp, Hss. by apply glob_step_token. }
  cbn [obind]. unfold token_step. destruct (next_token l) as [|l'|f l'] eqn:Ht.
  - destruct r as [|c r].
    { left. exists true. split; [done|]. split; [|done]. left. by constructor. }
    eapply glob_ok_backtrack; [done..| |done]. intros Hg.
    inversion Hg; congruence.
  - apply glob_ok_star; done.
  - apply (glob_ok_char fuel p s g l r B f l'); try done.
    destruct l; [done|]. unfold glob_left in Hfuel. cbn [length] in Hfuel. lia.
Qed.

(** * Properties of the glob matcher *)

(** C36. [glob_match] returns, within a number of iterations quadratic in the
    lengths, and answers exactly whether the string is one the pattern denotes
    (so a single level of backtracking is enough), or it reads past the end of
    the string, which takes a pattern with an inverted class. *)
Theorem glob_match_correct p s :
  cstr p -> cstr s ->
  (exists b, glob_match p s = Ok b /\ (b = true <-> glob_rel p s))
  \/ (glob_match p s = Bug /\ exists u v, p = u ++ c_open :: c_bang :: v).
Proof.
  intros Hp Hs. unfold glob_match.
  assert (glob_inv p s (GState 0 0 None) p s None) as Hinv.
  { split; try done; by exists []. }
  destruct (glob_loop_ok (glob_fuel p s) p s _ _ _ _ Hp Hs Hinv) as [(b & Hb & Hiff)|[Hbug Hn]].
  - unfold glob_left, glob_fuel. lia.
  - left. exists b. split; [done|]. rewrite Hiff. split; [by intros [?|[]]|by left].
  - right. split; [done|]. by apply accepts_nul_inverted.
Qed.

(** [a?*[b-d]] on the string [axyc]: the matcher answers, and answers yes. *)
Lemma glob_match_correct_witness :
  glob_match [97; 63; 42; 91; 98; 45; 100; 93] [97; 120; 121; 99] = Ok true
  /\ glob_rel [97; 63; 42; 91; 98; 45; 100; 93] [97; 120; 121; 99].
Proof.
  assert (glob_match [97; 63; 42; 91; 98; 45; 100; 93] [97; 120; 121; 99] = Ok true) as H
    by reflexivity.
  split; [exact H|].
  destruct (glob_match_correct [97; 63; 42; 91; 98; 45; 100; 93] [97; 120; 121; 99])
    as [(b & Hb & Hiff)|[Hbug _]].
  - repeat constructor.
  - repeat constructor.
  - apply Hiff. rewrite H in Hb. injection Hb as <-. reflexivity.
  - rewrite H in Hbug. discriminate.
Defined.

(** The pattern [[!a]] against the empty string: the class accepts the NUL
    and the next iteration reads behind it. *)
Example glob_match_reads_past_nul : glob_match [91; 33; 97; 93] [] = Bug.
Proof. reflexivity. Qed.
