(* ===== verification/ListSort.v ===== *)
(** * Sorting of linked lists (lib/list_sort.c)

    The bottom-up merge sort of circular doubly linked lists, on an explicit
    memory of [struct list_head]s.  An access through a pointer that is not
    the address of a node is a [Bug].  The comparison function is the
    caller's: a parameter, that looks at the nodes' data and not at their
    links. *)

From stdpp Require Import gmap.
From S2P Require Import Prelude.

Definition NULL : Z := 0.

Record list_head := ListHead { next : Z; prev : Z }.

Abbreviation mem := (gmap Z list_head).

Definition load (m : mem) (p : Z) : outcome list_head :=
  match m !! p with Some n => Ok n | None => Bug end.

(** [p->next = v] and [p->prev = v]. *)
Definition set_next (m : mem) (p v : Z) : outcome mem :=
  let! n := load m p in Ok (<[p := ListHead v (prev n)]> m).

Definition set_prev (m : mem) (p v : Z) : outcome mem :=
  let! n := load m p in Ok (<[p := ListHead (next n) v]> m).

(** [a ?: b] *)
Definition elvis (a b : Z) : Z := if a =? NULL then b else a.

Definition list_empty (m : mem) (head : Z) : outcome bool :=
  let! h := load m head in Ok (next h =? head).

(** The address of the local [head] of [merge]. *)
Definition stack_head : Z := -1.

Section Sort.
Context (cmp : Z -> Z -> Z).

Fixpoint merge_loop (fuel : nat) (m : mem) (tail a b : Z) : outcome (mem * Z * Z * Z) :=
  match fuel with
  | O => NoFuel
  | S fuel =>
      if negb (a =? NULL) && negb (b =? NULL) then
        if cmp a b <=? 0 then
          let! m := set_next m tail a in
          let! na := load m a in
          let! nt := load m tail in
          merge_loop fuel m (next nt) (next na) b
        else
          let! m := set_next m tail b in
          let! nb := load m b in
          let! nt := load m tail in
          merge_loop fuel m (next nt) a (next nb)
      else Ok (m, tail, a, b)
  end.

(** The loops visit each node of the memory at most once. *)
Definition node_fuel (m : mem) : nat := S (size m).

Definition merge (m : mem) (a b : Z) : outcome (mem * Z) :=
  let m := <[stack_head := ListHead NULL NULL]> m in
  let! (m, tail, a, b) := merge_loop (node_fuel m) m stack_head a b in
  let! m := set_next m tail (elvis a b) in
  let! h := load m stack_head in
  Ok (delete stack_head m, next h).

Fixpoint merge_back_loop (fuel : nat) (m : mem) (tail a b : Z) : outcome (mem * Z * Z * Z) :=
  match fuel with
  | O => NoFuel
  | S fuel =>
      if negb (a =? NULL) && negb (b =? NULL) then
        if cmp a b <=? 0 then
          let! m := set_next m tail a in
          let! m := set_prev m a tail in
          let! na := load m a in
          let! nt := load m tail in
          merge_back_loop fuel m (next nt) (next na) b
        else
          let! m := set_next m tail b in
          let! m := set_prev m b tail in
          let! nb := load m b in
          let! nt := load m tail in
          merge_back_loop fuel m (next nt) a (next nb)
      else Ok (m, tail, a, b)
  end.

(** The [do ... while (tail->next)]; the calls of [cmp] it makes every 256
    iterations, whose result is not used, are left out. *)
Fixpoint restore_loop (fuel : nat) (m : mem) (tail : Z) : outcome (mem * Z) :=
  match fuel with
  | O => NoFuel
  | S fuel =>
      let! nt := load m tail in
      let! m := set_prev m (next nt) tail in
      let! nt := load m tail in
      let tail := next nt in
      let! nt := load m tail in
      if next nt =? NULL then Ok (m, tail) else restore_loop fuel m tail
  end.

Definition merge_and_restore_back_links (m : mem) (head a b : Z) : outcome mem :=
  let! (m, tail, a, b) := merge_back_loop (node_fuel m) m head a b in
  let! m := set_next m tail (elvis a b) in
  let! (m, tail) := restore_loop (node_fuel m) m tail in
  let! m := set_next m tail head in
  set_prev m head tail.

Definition MAX_LIST_LENGTH_BITS : nat := 20.

(** [part[lev]] *)
Definition slot (part : list Z) (lev : nat) : outcome Z :=
  match part !! lev with Some p => Ok p | None => Bug end.

(** The [for] loop that merges [cur] with the full slots. *)
Fixpoint carry_loop (fuel : nat) (m : mem) (part : list Z) (lev : nat) (cur : Z)
    : outcome (mem * list Z * nat * Z) :=
  match fuel with
  | O => NoFuel
  | S fuel =>
      let! p := slot part lev in
      if p =? NULL then Ok (m, part, lev, cur) else
      let! (m, cur) := merge m p cur in
      carry_loop fuel m (<[lev := NULL]> part) (S lev) cur
  end.

(** The body of the [while (list)] loop after [cur] has been unlinked. *)
Definition place (m : mem) (part : list Z) (max_lev : nat) (cur : Z)
    : outcome (mem * list Z * nat) :=
  let! (m, part, lev, cur) := carry_loop (S (length part)) m part 0 cur in
  let '(lev, max_lev) :=
    (if (max_lev <? lev)%nat then
       let lev := if (length part - 1 <=? lev)%nat then (lev - 1)%nat else lev in
       (lev, lev)
     else (lev, max_lev)) in
  let! _ := slot part lev in
  Ok (m, <[lev := cur]> part, max_lev).

Fixpoint split_loop (fuel : nat) (m : mem) (part : list Z) (max_lev : nat) (lst : Z)
    : outcome (mem * list Z * nat) :=
  match fuel with
  | O => NoFuel
  | S fuel =>
      if lst =? NULL then Ok (m, part, max_lev) else
      let cur := lst in
      let! n := load m lst in
      let lst := next n in
      let! m := set_next m cur NULL in
      let! (m, part, max_lev) := place m part max_lev cur in
      split_loop fuel m part max_lev lst
  end.

(** The merge of the slots below [max_lev], from [lev], [n] to go. *)
Fixpoint collect_loop (n : nat) (m : mem) (part : list Z) (lev : nat) (lst : Z)
    : outcome (mem * Z) :=
  match n with
  | O => Ok (m, lst)
  | S n =>
      let! p := slot part lev in
      if p =? NULL then collect_loop n m part (S lev) lst else
      let! (m, lst) := merge m p lst in
      collect_loop n m part (S lev) lst
  end.

Definition list_sort (m : mem) (head : Z) : outcome mem :=
  let! empty := list_empty m head in
  if empty then Ok m else
  let part := replicate (MAX_LIST_LENGTH_BITS + 1) NULL in
  let! h := load m head in
  let! m := set_next m (prev h) NULL in
  let! h := load m head in
  let! (m, part, max_lev) := split_loop (node_fuel m) m part 0 (next h) in
  let! (m, lst) := collect_loop max_lev m part 0 NULL in
  let! p := slot part max_lev in
  merge_and_restore_back_links m head p lst.

End Sort.
