(* ===== verification/ListSortFacts.v ===== *)
(** * Facts about the sorting of linked lists

    The merge of lists as sequences is associative, so the merges in the order
    the code makes them give the sort by insertion; the loops on the memory
    compute the merge. *)

From stdpp Require Import gmap.
From S2P Require Import Prelude ListSort.

(** ** Stable sorting of sequences *)

Section Reference.
Context (cmp : Z -> Z -> Z).

(** [a] may stay in front of [b]. *)
Definition cmp_le (a b : Z) : Prop := cmp a b <= 0.
#[local] Instance cmp_le_dec a b : Decision (cmp_le a b) := Z_le_dec (cmp a b) 0.

(** The sort by insertion: an element goes in front of its equals. *)
Definition isort (l : list Z) : list Z := foldr (fun x s => list_merge cmp_le [x] s) [] l.

Lemma isort_perm l : isort l ≡ₚ l.
Proof.
  induction l as [|x l IH]; [done|]. cbn [isort foldr].
  rewrite (merge_Permutation cmp_le [x]). cbn. by rewrite IH.
Qed.

(** The contract of the comparison: a total preorder. *)
Class CmpOrder : Prop := {
  cmp_total : forall a b, cmp_le a b \/ cmp_le b a;
  cmp_trans : forall a b c, cmp_le a b -> cmp_le b c -> cmp_le a c;
}.
Context `{!CmpOrder}.

#[local] Instance cmp_le_total : Total cmp_le.
Proof using Type*. intros a b. apply cmp_total. Qed.
#[local] Instance cmp_le_trans : Transitive cmp_le.
Proof using Type*. intros a b c. apply cmp_trans. Qed.

Lemma isort_sorted l : StronglySorted cmp_le (isort l).
Proof using Type*.
  apply Sorted_StronglySorted; [apply _|]. induction l as [|x l IH]; [constructor|].
  cbn [isort foldr]. apply Sorted_list_merge; [apply _| |done]. by repeat constructor.
Qed.

(** Elements that compare equal keep their order. *)
Definition cmp_eq (u x : Z) : Prop := cmp_le u x /\ cmp_le x u.
#[local] Instance cmp_eq_dec u x : Decision (cmp_eq u x) := and_dec _ _.

Lemma insert_stable u x s :
  filter (cmp_eq u) (list_merge cmp_le [x] s) = filter (cmp_eq u) (x :: s).
Proof using Type*.
  induction s as [|y s IH]; [done|]. rewrite list_merge_cons.
  case_decide as Hxy; [done|]. rewrite filter_cons, IH.
  rewrite !filter_cons. do 2 case_decide; try done.
  exfalso. apply Hxy. unfold cmp_eq in *. apply (cmp_trans x u y); tauto.
Qed.

Lemma isort_stable u l : filter (cmp_eq u) (isort l) = filter (cmp_eq u) l.
Proof using Type*.
  induction l as [|x l IH]; [done|]. cbn [isort foldr].
  rewrite insert_stable, !filter_cons. fold (isort l). by rewrite IH.
Qed.

Lemma list_merge_l x y a b :
  cmp_le x y -> list_merge cmp_le (x :: a) (y :: b) = x :: list_merge cmp_le a (y :: b).
Proof using Type. intros. rewrite list_merge_cons. by rewrite decide_True. Qed.

Lemma list_merge_r x y a b :
  ~ cmp_le x y -> list_merge cmp_le (x :: a) (y :: b) = y :: list_merge cmp_le (x :: a) b.
Proof using Type. intros. rewrite list_merge_cons. by rewrite decide_False. Qed.

(** The merge that prefers its left argument is associative. *)
Lemma list_merge_assoc a b c :
  list_merge cmp_le (list_merge cmp_le a b) c = list_merge cmp_le a (list_merge cmp_le b c).
Proof using Type*.
  revert b c. induction a as [|x a IHa]; [by intros; rewrite !list_merge_nil_l|].
  intros b. induction b as [|y b IHb].
  { intros. by rewrite list_merge_nil_r, list_merge_nil_l. }
  induction c as [|z c IHc]; [by rewrite !list_merge_nil_r|].
  pose proof (cmp_total x y) as Txy. pose proof (cmp_total y z) as Tyz.
  destruct (decide (cmp_le x y)) as [Hxy|Hxy].
  - rewrite (list_merge_l x y a b Hxy) in *.
    destruct (decide (cmp_le x z)) as [Hxz|Hxz].
    + rewrite list_merge_l, IHa by done.
      destruct (decide (cmp_le y z)).
      * by rewrite (list_merge_l y z), (list_merge_l x y).
      * by rewrite (list_merge_r y z), (list_merge_l x z).
    + assert (~ cmp_le y z) by (intros ?; apply Hxz; by apply (cmp_trans x y z)).
      by rewrite (list_merge_r x z), IHc, (list_merge_r y z), (list_merge_r x z).
  - rewrite (list_merge_r x y a b Hxy) in *.
    destruct (decide (cmp_le y z)) as [Hyz|Hyz].
    + by rewrite (list_merge_l y z), IHb, (list_merge_l y z), (list_merge_r x y).
    + assert (~ cmp_le x z) by (intros ?; apply Hxy; apply (cmp_trans x z y); tauto).
      by rewrite (list_merge_r y z), IHc, (list_merge_r y z), (list_merge_r x z).
Qed.

Lemma isort_app l1 l2 : isort (l1 ++ l2) = list_merge cmp_le (isort l1) (isort l2).
Proof using Type*.
  induction l1 as [|x l1 IH]; [cbn; by rewrite list_merge_nil_l|].
  cbn [app isort foldr]. fold (isort (l1 ++ l2)) (isort l1). by rewrite IH, list_merge_assoc.
Qed.

End Reference.

(** ** Linked lists in the memory *)

(** The nodes of [l] are linked by their [next] pointers, the last to [e]. *)
Fixpoint path (m : mem) (l : list Z) (e : Z) : Prop :=
  match l with
  | [] => True
  | x :: t => (exists n, m !! x = Some n /\ next n = hd e t) /\ path m t e
  end.

(** Each node of [l] points back to the one before it, the first to [p]. *)
Fixpoint prevs (m : mem) (p : Z) (l : list Z) : Prop :=
  match l with
  | [] => True
  | x :: t => (exists n, m !! x = Some n /\ prev n = p) /\ prevs m x t
  end.

(** Addresses of nodes. *)
Definition node_addr (x : Z) : Prop := 0 < x.

(** The circular doubly linked list with head [head] and elements [l]. *)
Record ring (m : mem) (head : Z) (l : list Z) : Prop := {
  ring_next : path m (head :: l) head;
  ring_prev : prevs m head (l ++ [head]);
  ring_nodup : NoDup (head :: l);
  ring_addr : Forall node_addr (head :: l);
}.

(** [m'] differs from [m] only in the nodes of [S], and has the same nodes. *)
Definition only (S : list Z) (m m' : mem) : Prop :=
  (forall x, x ∉ S -> m' !! x = m !! x) /\ (forall x, is_Some (m' !! x) <-> is_Some (m !! x)).

#[export] Instance only_proper : Proper ((≡ₚ) ==> (=) ==> (=) ==> iff) only.
Proof.
  intros S1 S2 HS m1 ? <- m2 ? <-. unfold only.
  split; intros [Hs Hd]; split; try done; intros x Hx; apply Hs; by rewrite ?HS, <- ?HS in *.
Qed.

Lemma only_refl S m : only S m m.
Proof. done. Qed.

Lemma only_trans S1 S2 S m1 m2 m3 :
  only S1 m1 m2 -> only S2 m2 m3 -> S1 ⊆ S -> S2 ⊆ S -> only S m1 m3.
Proof.
  intros [H1 D1] [H2 D2] HS1 HS2. split.
  - intros x Hx. rewrite H2 by set_solver. apply H1. set_solver.
  - intros x. by rewrite D2, D1.
Qed.

Lemma path_only S m m' l e :
  only S m m' -> (forall x, x ∈ l -> x ∉ S) -> path m l e -> path m' l e.
Proof.
  intros [Hm _] Hd. induction l as [|x l IH]; [done|]. cbn. intros [Hx Hl].
  rewrite Hm by (apply Hd; set_solver). split; [done|]. apply IH; [set_solver|done].
Qed.

Lemma prevs_only S m m' p l :
  only S m m' -> (forall x, x ∈ l -> x ∉ S) -> prevs m p l -> prevs m' p l.
Proof.
  intros [Hm _]. revert p. induction l as [|x l IH]; [done|]. cbn. intros p Hd [Hx Hl].
  rewrite Hm by (apply Hd; set_solver). split; [done|]. apply IH; [set_solver|done].
Qed.

Lemma path_app m l1 l2 e : path m (l1 ++ l2) e <-> path m l1 (hd e l2) /\ path m l2 e.
Proof.
  induction l1 as [|x l1 IH]; cbn; [tauto|]. rewrite IH.
  assert (hd e (l1 ++ l2) = hd (hd e l2) l1) as -> by (by destruct l1). tauto.
Qed.

Lemma last_cons_default (l : list Z) p x : List.last (x :: l) p = List.last l x.
Proof.
  revert p x. induction l as [|y l IH]; intros p x; [done|].
  change (List.last (y :: l) p = List.last (y :: l) x). by rewrite !IH.
Qed.

Lemma prevs_app m p l1 l2 :
  prevs m p (l1 ++ l2) <-> prevs m p l1 /\ prevs m (List.last l1 p) l2.
Proof.
  revert p. induction l1 as [|x l1 IH]; intros p; cbn -[List.last]; [cbn; tauto|].
  rewrite IH, last_cons_default. tauto.
Qed.

(** *** The accesses *)

Lemma set_next_ok m p v n :
  m !! p = Some n ->
  set_next m p v = Ok (<[p := ListHead v (prev n)]> m)
  /\ only [p] m (<[p := ListHead v (prev n)]> m).
Proof.
  intros Hp. unfold set_next, load. rewrite Hp. split; [done|]. split.
  - intros x Hx. rewrite lookup_insert_ne; [done|set_solver].
  - intros x. destruct (decide (x = p)) as [->|Hne].
    + rewrite lookup_insert_eq, Hp. by split; eauto.
    + by rewrite lookup_insert_ne.
Qed.

Lemma set_prev_ok m p v n :
  m !! p = Some n ->
  set_prev m p v = Ok (<[p := ListHead (next n) v]> m)
  /\ only [p] m (<[p := ListHead (next n) v]> m).
Proof.
  intros Hp. unfold set_prev, load. rewrite Hp. split; [done|]. split.
  - intros x Hx. rewrite lookup_insert_ne; [done|set_solver].
  - intros x. destruct (decide (x = p)) as [->|Hne].
    + rewrite lookup_insert_eq, Hp. by split; eauto.
    + by rewrite lookup_insert_ne.
Qed.

Lemma load_ok m p n : m !! p = Some n -> load m p = Ok n.
Proof. unfold load. by intros ->. Qed.

Lemma hd_null l : Forall node_addr l -> (hd NULL l =? NULL) = match l with [] => true | _ => false end.
Proof.
  unfold NULL. destruct l as [|x l]; [done|]. intros [Hx _]%Forall_cons. cbn.
  unfold node_addr in Hx. by rewrite (proj2 (Z.eqb_neq x 0)) by lia.
Qed.

(** ** The merges on the memory *)

(** From [tail], whose predecessor is [p], the nodes of [l] are linked up to
    [tail']; [rem] is the part of [l] behind it. *)
Definition linked (back : bool) (m : mem) (tail p : Z) (l : list Z) (tail' : Z) (rem : list Z)
    : Prop :=
  (exists n, m !! tail = Some n /\ prev n = p) /\ is_Some (m !! tail')
  /\ exists pre, tail :: l = pre ++ tail' :: rem /\ path m pre tail' /\ path m rem NULL
       /\ (back = true -> prevs m tail (List.tl (pre ++ [tail']))).

Lemma linked_start back m tail n rem :
  m !! tail = Some n -> path m rem NULL -> linked back m tail (prev n) rem tail rem.
Proof. intros Hn Hr. split; [by exists n|]. split; [by exists n|]. by exists []. Qed.

Lemma linked_cons back m tail n x q l tail' rem :
  m !! tail = Some n -> next n = x -> linked back m x q l tail' rem ->
  (back = true -> q = tail) -> linked back m tail (prev n) (x :: l) tail' rem.
Proof.
  intros Hn Hx ((nx & Hnx & Hq) & Htl & (pre & Hl & Hpre & Hrem & Hback)) Hqt.
  split; [by exists n|]. split; [done|]. exists (tail :: pre). split_and!.
  - by rewrite Hl.
  - cbn. split; [|done]. exists n. split; [done|]. by destruct pre; cbn in *; simplify_eq.
  - done.
  - intros Hb. cbn.
    assert (pre ++ [tail'] = x :: List.tl (pre ++ [tail'])) as ->.
    { destruct pre; cbn in *; by simplify_eq. }
    cbn. split; [|by apply Hback]. exists nx. split; [done|]. by rewrite Hq, Hqt.
Qed.

(** The paths survive a change of [tail] and of the back link of [x]. *)
Lemma path_off m m1 tail x l :
  only [tail; x] m m1 -> tail ∉ l -> x ∉ l -> path m l NULL -> path m1 l NULL.
Proof. intros Ho Ht Hx. apply (path_only _ _ _ _ _ Ho). set_solver. Qed.

Lemma path_insert_other m x n l e : x ∉ l -> path m l e -> path (<[x := n]> m) l e.
Proof.
  induction l as [|y l IH]; [done|]. cbn. intros Hx [Hy Hl].
  rewrite lookup_insert_ne by set_solver. split; [done|]. apply IH; [set_solver|done].
Qed.

Lemma path_delete_other m x l e : x ∉ l -> path m l e -> path (delete x m) l e.
Proof.
  induction l as [|y l IH]; [done|]. cbn. intros Hx [Hy Hl].
  rewrite lookup_delete_ne by set_solver. split; [done|]. apply IH; [set_solver|done].
Qed.

(** The nodes of a list are at most those of the memory. *)
Lemma path_is_Some m l e x : path m l e -> x ∈ l -> is_Some (m !! x).
Proof.
  induction l as [|y l IH]; [set_solver|]. cbn. intros [(n & Hn & _) Hl] Hx.
  apply elem_of_cons in Hx as [->|Hx]; [by exists n|by apply IH].
Qed.

Lemma nodes_size (m : mem) (l : list Z) :
  NoDup l -> (forall x, x ∈ l -> is_Some (m !! x)) -> (length l <= size m)%nat.
Proof.
  intros Hnd Hin. rewrite <- size_dom, <- (size_list_to_set (C := gset Z) l) by done.
  apply subseteq_size. intros x Hx. apply elem_of_dom. apply Hin. set_solver.
Qed.

Lemma prevs_set_next m x n v p l :
  m !! x = Some n -> prevs m p l -> prevs (<[x := ListHead v (prev n)]> m) p l.
Proof.
  intros Hx. revert p. induction l as [|y l IH]; [done|]. cbn. intros p [(ny & Hy & Hp) Hl].
  split; [|by apply IH]. destruct (decide (x = y)) as [->|Hne].
  - rewrite lookup_insert_eq. eexists. split; [done|]. cbn. congruence.
  - rewrite lookup_insert_ne by done. by exists ny.
Qed.

(** The assignment [tail->next = a ?: b] completes the list. *)
Lemma linked_close back m tail p l tail' rem :
  linked back m tail p l tail' rem -> NoDup (tail :: l) ->
  exists m' n' pre, set_next m tail' (hd NULL rem) = Ok m' /\ m' !! tail' = Some n'
    /\ tail :: l = pre ++ tail' :: rem /\ path m' (tail :: l) NULL /\ only [tail'] m m'
    /\ (exists n, m' !! tail = Some n /\ prev n = p)
    /\ (back = true -> prevs m' tail (List.tl (pre ++ [tail']))).
Proof.
  intros ((n & Hn & Hp) & [nt Hnt] & (pre & Hl & Hpre & Hrem & Hback)) Hnd.
  destruct (set_next_ok m tail' (hd NULL rem) nt Hnt) as [Hset Ho].
  set (m' := <[tail' := ListHead (hd NULL rem) (prev nt)]> m) in *.
  assert (m' !! tail' = Some (ListHead (hd NULL rem) (prev nt))) as Ht' by apply lookup_insert_eq.
  exists m', (ListHead (hd NULL rem) (prev nt)), pre. split_and!; try done.
  - rewrite Hl in Hnd |- *. apply NoDup_app in Hnd as (_ & Hd & Hnd).
    apply NoDup_cons in Hnd as [Hnr _]. rewrite path_app. cbn [hd path]. split_and!.
    + apply (path_only [tail'] m m'); [done|set_solver|done].
    + by eexists.
    + apply (path_only [tail'] m m'); [done|set_solver|done].
  - destruct (decide (tail = tail')) as [->|Hne].
    + exists (ListHead (hd NULL rem) (prev nt)). split; [done|]. cbn. congruence.
    + exists n. unfold m'. by rewrite lookup_insert_ne.
  - intros Hb. apply prevs_set_next; [done|]. by apply Hback.
Qed.

Lemma path_set_prev m x n v l e :
  m !! x = Some n -> path m l e -> path (<[x := ListHead (next n) v]> m) l e.
Proof.
  intros Hx. induction l as [|y l IH]; [done|]. cbn. intros [(ny & Hy & Hp) Hl].
  split; [|by apply IH]. destruct (decide (x = y)) as [->|Hne].
  - rewrite lookup_insert_eq. eexists. split; [done|]. cbn. congruence.
  - rewrite lookup_insert_ne by done. by exists ny.
Qed.

Lemma path_retarget m l x n e v :
  m !! x = Some n -> x ∉ l -> path m (l ++ [x]) e ->
  path (<[x := ListHead v (prev n)]> m) (l ++ [x]) v.
Proof.
  intros Hx Hl. rewrite !path_app. cbn. intros [Hp _]. split; [by apply path_insert_other|].
  split; [|done]. rewrite lookup_insert_eq. by eexists.
Qed.

(** The walk that restores the back links. *)
Lemma restore_loop_ok fuel m tail x rem :
  path m (tail :: x :: rem) NULL -> NoDup (tail :: x :: rem) -> Forall node_addr (x :: rem) ->
  (length rem < fuel)%nat ->
  exists m', restore_loop fuel m tail = Ok (m', List.last rem x)
    /\ prevs m' tail (x :: rem) /\ only (x :: rem) m m'
    /\ (forall l e, path m l e -> path m' l e).
Proof.
  revert m tail x rem. induction fuel as [|fuel IH]; [lia|].
  intros m tail x rem Hpath Hnd Hadr Hf. pose proof Hpath as [(nt & Ht & Hnt) [(nx & Hx & Hnx) Hrem]].
  cbn [hd] in Hnt. cbn [restore_loop]. rewrite (load_ok _ _ _ Ht). cbn [obind]. rewrite Hnt.
  destruct (set_prev_ok m x tail nx Hx) as [-> Ho]. cbn [obind].
  set (m1 := <[x := ListHead (next nx) tail]> m) in *.
  assert (tail <> x) by (apply NoDup_cons in Hnd as [? _]; set_solver).
  assert (m1 !! tail = Some nt) as Ht1 by (unfold m1; by rewrite lookup_insert_ne).
  assert (m1 !! x = Some (ListHead (next nx) tail)) as Hx1 by apply lookup_insert_eq.
  rewrite (load_ok _ _ _ Ht1). cbn [obind]. rewrite Hnt, (load_ok _ _ _ Hx1). cbn [obind next].
  rewrite Hnx, hd_null by (by apply Forall_cons in Hadr as [_ ?]).
  destruct rem as [|y rem].
  { exists m1. split; [done|]. split; [|split; [done|intros; by apply path_set_prev]].
    cbn. split; [|done]. by eexists. }
  apply NoDup_cons in Hnd as [_ Hnd]. apply Forall_cons in Hadr as [_ Hadr].
  destruct (IH m1 x y rem) as (m' & -> & Hprevs & [Hsame Hdom] & Hkeep); try done.
  { apply path_set_prev; [done|]. by destruct Hpath as [_ ?]. }
  { cbn in *; lia. }
  exists m'. split; [by rewrite last_cons_default|]. split; [|split].
  - cbn [prevs]. split; [|done]. rewrite Hsame, Hx1 by (by apply NoDup_cons in Hnd as [? _]).
    by eexists.
  - apply (only_trans [x] (y :: rem) _ m m1 m'); [done|by split|set_solver..].
  - intros l e Hl. apply Hkeep. by apply path_set_prev.
Qed.

(** The assignments of a round, without and with the back link. *)
Lemma take_node {A} m tail n x nx (k : mem -> Z -> Z -> outcome A) :
  m !! tail = Some n -> m !! x = Some nx -> tail <> x ->
  exists m1 n1,
    (let! m := set_next m tail x in
     let! nx := load m x in
     let! nt := load m tail in
     k m (next nt) (next nx)) = k m1 x (next nx)
    /\ m1 !! tail = Some n1 /\ next n1 = x /\ prev n1 = prev n
    /\ m1 !! x = Some nx /\ only [tail; x] m m1.
Proof.
  intros Hn Hx Hne. destruct (set_next_ok m tail x n Hn) as [-> Ho]. cbn [obind].
  set (m1 := <[tail := ListHead x (prev n)]> m) in *.
  assert (m1 !! tail = Some (ListHead x (prev n))) as Ht1 by apply lookup_insert_eq.
  assert (m1 !! x = Some nx) as Hx1 by (unfold m1; by rewrite lookup_insert_ne).
  exists m1, (ListHead x (prev n)).
  rewrite (load_ok _ _ _ Hx1), (load_ok _ _ _ Ht1). split_and!; try done.
  eapply only_trans; [apply (only_refl [])|done|set_solver..].
Qed.

Lemma take_node_back {A} m tail n x nx (k : mem -> Z -> Z -> outcome A) :
  m !! tail = Some n -> m !! x = Some nx -> tail <> x ->
  exists m1 n1 nx1,
    (let! m := set_next m tail x in
     let! m := set_prev m x tail in
     let! nx := load m x in
     let! nt := load m tail in
     k m (next nt) (next nx)) = k m1 x (next nx)
    /\ m1 !! tail = Some n1 /\ next n1 = x /\ prev n1 = prev n
    /\ m1 !! x = Some nx1 /\ (true = true -> prev nx1 = tail) /\ only [tail; x] m m1.
Proof.
  intros Hn Hx Hne. destruct (set_next_ok m tail x n Hn) as [-> Ho]. cbn [obind].
  set (m1 := <[tail := ListHead x (prev n)]> m) in *.
  assert (m1 !! tail = Some (ListHead x (prev n))) as Ht1 by apply lookup_insert_eq.
  assert (m1 !! x = Some nx) as Hx1 by (unfold m1; by rewrite lookup_insert_ne).
  destruct (set_prev_ok m1 x tail nx Hx1) as [-> Ho1]. cbn [obind].
  set (m2 := <[x := ListHead (next nx) tail]> m1) in *.
  assert (m2 !! x = Some (ListHead (next nx) tail)) as Hx2 by apply lookup_insert_eq.
  assert (m2 !! tail = Some (ListHead x (prev n))) as Ht2
    by (unfold m2; by rewrite lookup_insert_ne).
  exists m2, (ListHead x (prev n)), (ListHead (next nx) tail).
  rewrite (load_ok _ _ _ Hx2), (load_ok _ _ _ Ht2). split_and!; try done.
  eapply only_trans; [exact Ho|exact Ho1|set_solver..].
Qed.

(** The last merge also closes the ring. *)
Lemma close_ring m head n l t :
  m !! head = Some n -> path m (head :: l ++ [t]) NULL -> prevs m head (l ++ [t]) ->
  NoDup (head :: l ++ [t]) -> Forall node_addr (head :: l ++ [t]) ->
  exists m', (let! m := set_next m t head in set_prev m head t) = Ok m'
    /\ ring m' head (l ++ [t]) /\ only [t; head] m m'.
Proof.
  intros Hh Hp Hprev Hnd Hadr. pose proof Hp as Hp'. rewrite app_comm_cons in Hp'.
  apply path_app in Hp' as [_ [(nt & Ht & _) _]].
  destruct (set_next_ok m t head nt Ht) as [-> Ho]. cbn [obind].
  set (m1 := <[t := ListHead head (prev nt)]> m) in *.
  assert (t <> head) as Hne by (apply NoDup_cons in Hnd as [? _]; set_solver).
  assert (m1 !! head = Some n) as Hh1 by (unfold m1; by rewrite lookup_insert_ne).
  destruct (set_prev_ok m1 head t n Hh1) as [-> Ho1].
  eexists. split; [done|]. split; [|by apply (only_trans [t] [head] _ m m1); [done..|set_solver|set_solver]].
  split; [| |done|done].
  - apply path_set_prev; [done|]. rewrite app_comm_cons. eapply path_retarget; [done| |by rewrite <- app_comm_cons].
    rewrite app_comm_cons in Hnd. apply NoDup_app in Hnd as (_ & Hd & _). set_solver.
  - rewrite prevs_app. split.
    + apply (prevs_only [head] m1); [done| |].
      { intros x Hx Hxh. apply NoDup_cons in Hnd as [? _]. set_solver. }
      by apply prevs_set_next.
    + cbn. split; [|done]. rewrite lookup_insert_eq. eexists. split; [done|].
      cbn. by rewrite last_last.
Qed.

Lemma restore_ring m head l pre tail' rem :
  path m (head :: l) NULL -> NoDup (head :: l) -> Forall node_addr (head :: l) ->
  head :: l = pre ++ tail' :: rem -> rem <> [] -> prevs m head (List.tl (pre ++ [tail'])) ->
  exists m',
    (let! (m, tail) := restore_loop (node_fuel m) m tail' in
     let! m := set_next m tail head in set_prev m head tail) = Ok m'
    /\ ring m' head l /\ only (head :: l) m m'.
Proof.
  intros Hp Hnd Hadr Hl Hne Hpr. destruct rem as [|x rem]; [done|].
  assert (head ∉ x :: rem) as Hhr.
  { destruct pre as [|y pre]; cbn in Hl; simplify_eq; apply NoDup_cons in Hnd as [? _]; set_solver. }
  assert (length rem < node_fuel m)%nat as Hf.
  { unfold node_fuel. pose proof (nodes_size m _ Hnd (fun x => path_is_Some m _ _ x Hp)) as Hsz. rewrite Hl, length_app in Hsz. cbn in Hsz. lia. }
  assert (l = List.tl (pre ++ [tail']) ++ x :: rem) as Hl'.
  { destruct pre as [|y pre]; cbn in *; simplify_eq; [done|]. by rewrite <- app_assoc. }
  assert (exists n, m !! head = Some n) as [n Hn] by (by destruct Hp as [(n & ? & _) _]; exists n).
  pose proof Hp as Hp'. rewrite Hl in Hp'. apply path_app in Hp' as [_ Hpt].
  pose proof Hnd as Hnd'. rewrite Hl in Hnd'. apply NoDup_app in Hnd' as (_ & _ & Hndt).
  assert (Forall node_addr (x :: rem)) as Hadrt.
  { rewrite Hl in Hadr. by apply Forall_app in Hadr as [_ [_ ?]%Forall_cons]. }
  destruct (restore_loop_ok (node_fuel m) m tail' x rem Hpt Hndt Hadrt Hf)
    as (m1 & -> & Hprevs & Ho & Hkeep). cbn [obind].
  set (l0 := List.tl (pre ++ [tail']) ++ removelast (x :: rem)).
  assert (l = l0 ++ [List.last rem x]) as Hl0.
  { unfold l0. rewrite Hl', <- app_assoc, <- (last_cons_default rem x x). f_equal.
    by apply app_removelast_last. }
  assert (List.last (List.tl (pre ++ [tail'])) head = tail') as Hlast.
  { destruct pre as [|y pre]; cbn in *; simplify_eq; [done|]. by rewrite last_last. }
  assert (prevs m1 head l) as Hpl.
  { rewrite Hl', prevs_app, Hlast. split; [|done]. apply (prevs_only _ _ _ _ _ Ho); [|done].
    intros y Hy. rewrite Hl' in Hnd. apply NoDup_cons in Hnd as [_ (_ & Hd & _)%NoDup_app].
    by apply Hd. }
  assert (m1 !! head = Some n) as Hn1 by (by rewrite (proj1 Ho)).
  rewrite Hl0 in *.
  destruct (close_ring m1 head n l0 (List.last rem x)) as (m' & -> & Hr & Ho'); try done.
  { by apply Hkeep. }
  exists m'. split; [done|]. split; [done|].
  eapply (only_trans _ _ _ m m1 m'); [done|done|..].
  - rewrite Hl'. set_solver.
  - set_solver.
Qed.

Section Merge.
Context (cmp : Z -> Z -> Z).
#[local] Existing Instance cmp_le_dec.
Abbreviation lmerge := (list_merge (cmp_le cmp)).

(** What a loop of comparisons promises. *)
Definition merge_post (back : bool) (m : mem) (tail p : Z) (la lb : list Z)
    (r : outcome (mem * Z * Z * Z)) : Prop :=
  exists m' tail' a' b' rem,
    r = Ok (m', tail', a', b') /\ elvis a' b' = hd NULL rem
    /\ linked back m' tail p (lmerge la lb) tail' rem
    /\ only (tail :: la ++ lb) m m' /\ (la ++ lb <> [] -> rem <> []).

Lemma merge_post_end back m tail n la lb :
  m !! tail = Some n -> path m la NULL -> path m lb NULL ->
  Forall node_addr (la ++ lb) -> la = [] \/ lb = [] ->
  merge_post back m tail (prev n) la lb (Ok (m, tail, hd NULL la, hd NULL lb)).
Proof using Type.
  intros Hn Ha Hb Hadr Hor. exists m, tail, (hd NULL la), (hd NULL lb), (la ++ lb).
  split; [done|]. split; [|split; [|split; [apply only_refl|done]]].
  - apply Forall_app in Hadr as [Hla _]. unfold elvis. rewrite hd_null by done. by destruct la.
  - destruct Hor as [-> | ->]; cbn [app].
    + rewrite list_merge_nil_l. by apply linked_start.
    + rewrite list_merge_nil_r, app_nil_r. by apply linked_start.
Qed.

(** One round: [x] is appended behind [tail] and its own list goes on. *)
Lemma merge_post_step back m m1 tail n n1 nx x la lb la' lb' r :
  m !! tail = Some n -> m1 !! tail = Some n1 -> next n1 = x -> prev n1 = prev n ->
  m1 !! x = Some nx -> (back = true -> prev nx = tail) -> only [tail; x] m m1 ->
  lmerge la lb = x :: lmerge la' lb' -> x :: la' ++ lb' ≡ₚ la ++ lb ->
  NoDup (tail :: la ++ lb) -> la' ++ lb' <> [] ->
  merge_post back m1 x (prev nx) la' lb' r -> merge_post back m tail (prev n) la lb r.
Proof using Type.
  intros Hn Hn1 Hnext Hprev Hnx Hback Honly Hm Hperm Hnd Hne
    (m' & tail' & a' & b' & rem & -> & Hel & Hlink & Honly' & Hrem).
  exists m', tail', a', b', rem. split; [done|]. split; [done|].
  assert (tail ∉ x :: la' ++ lb') as Htail.
  { rewrite Hperm. by apply NoDup_cons in Hnd as [? _]. }
  split; [|split].
  - rewrite Hm, <- Hprev. apply (linked_cons back m' tail n1 x (prev nx)); [|done|done|done].
    destruct Honly' as [Hsame _]. by rewrite Hsame.
  - apply (only_trans [tail; x] (x :: la' ++ lb') _ m m1 m'); [done|done|..];
      intros y Hy; rewrite <- Hperm; set_solver.
  - intros _. by apply Hrem.
Qed.

(** The lists a loop works on, behind [tail]. *)
Record merge_pre (m : mem) (tail : Z) (la lb : list Z) : Prop := {
  mp_a : path m la NULL;
  mp_b : path m lb NULL;
  mp_nodup : NoDup (tail :: la ++ lb);
  mp_addr : Forall node_addr (la ++ lb);
}.

(** A loop [F] keeps its promise on lists of fewer than [k] nodes. *)
Definition loop_ok (back : bool) (k : nat) (F : mem -> Z -> Z -> Z -> outcome (mem * Z * Z * Z))
    : Prop :=
  forall m tail n la lb, m !! tail = Some n -> merge_pre m tail la lb ->
    (length la + length lb < k)%nat ->
    merge_post back m tail (prev n) la lb (F m tail (hd NULL la) (hd NULL lb)).

Lemma loop_step_a back k F m m1 tail n n1 nx a la b lb :
  loop_ok back k F -> merge_pre m tail (a :: la) (b :: lb) ->
  (length la + S (length lb) < k)%nat -> cmp_le cmp a b ->
  m !! tail = Some n -> m1 !! tail = Some n1 -> next n1 = a -> prev n1 = prev n ->
  m1 !! a = Some nx -> (back = true -> prev nx = tail) -> only [tail; a] m m1 ->
  merge_post back m tail (prev n) (a :: la) (b :: lb) (F m1 a (hd NULL la) b).
Proof using Type.
  intros HF [[_ Ha] Hb Hnd Hadr] Hk Hle Hn Hn1 Hnext Hprev Hnx Hback Ho.
  eapply (merge_post_step back m m1 tail n n1 nx a _ _ la (b :: lb)); try done.
  { by apply list_merge_l. }
  { by destruct la. }
  apply NoDup_cons in Hnd as [Ht Hnd]. pose proof Hnd as [Hna _]%NoDup_cons.
  apply (HF m1 a nx la (b :: lb)); [done| |done]. split; [| |done|].
  - apply (path_off m m1 tail a); [done|set_solver..|done].
  - apply (path_off m m1 tail a); [done|set_solver..|done].
  - by apply Forall_cons in Hadr as [_ ?].
Qed.

Lemma loop_step_b back k F m m1 tail n n1 nx a la b lb :
  loop_ok back k F -> merge_pre m tail (a :: la) (b :: lb) ->
  (length la + S (length lb) < k)%nat -> ~ cmp_le cmp a b ->
  m !! tail = Some n -> m1 !! tail = Some n1 -> next n1 = b -> prev n1 = prev n ->
  m1 !! b = Some nx -> (back = true -> prev nx = tail) -> only [tail; b] m m1 ->
  merge_post back m tail (prev n) (a :: la) (b :: lb) (F m1 b a (hd NULL lb)).
Proof using Type.
  intros HF [Ha [_ Hb] Hnd Hadr] Hk Hle Hn Hn1 Hnext Hprev Hnx Hback Ho.
  eapply (merge_post_step back m m1 tail n n1 nx b _ _ (a :: la) lb); try done.
  { by apply list_merge_r. }
  { by rewrite <- Permutation_middle. }
  rewrite <- Permutation_middle in Hnd, Hadr.
  apply NoDup_cons in Hnd as [Ht Hnd]. pose proof Hnd as [Hnb _]%NoDup_cons.
  apply (HF m1 b nx (a :: la) lb); [done| |cbn in *; lia]. split; [| |done|].
  - apply (path_off m m1 tail b); [done|set_solver..|done].
  - apply (path_off m m1 tail b); [done|set_solver..|done].
  - by apply Forall_cons in Hadr as [_ ?].
Qed.

Lemma merge_loop_ok fuel : loop_ok false fuel (merge_loop cmp fuel).
Proof using Type.
  induction fuel as [|fuel IH]; intros m tail n la lb Hn Hpre Hf; [lia|].
  pose proof (mp_addr _ _ _ _ Hpre) as Hadr. pose proof Hadr as [Hla Hlb]%Forall_app.
  cbn [merge_loop]. rewrite !hd_null by done.
  destruct la as [|a la]; [by apply merge_post_end; destruct Hpre; auto|].
  destruct lb as [|b lb]; [by apply merge_post_end; destruct Hpre; auto|]. cbn [negb andb hd].
  destruct (mp_a _ _ _ _ Hpre) as [(na & Hna & Hnexta) _].
  destruct (mp_b _ _ _ _ Hpre) as [(nb & Hnb & Hnextb) _].
  pose proof (mp_nodup _ _ _ _ Hpre) as [Ht _]%NoDup_cons. cbn [length] in Hf. case_if.
  - destruct (take_node m tail n a na (fun m t x => merge_loop cmp fuel m t x b))
      as (m1 & n1 & -> & ? & ? & ? & ? & ?); [done|done|set_solver|]. rewrite Hnexta.
    apply (loop_step_a false fuel _ m m1 tail n n1 na); try done; lia.
  - destruct (take_node m tail n b nb (fun m t x => merge_loop cmp fuel m t a x))
      as (m1 & n1 & -> & ? & ? & ? & ? & ?); [done|done|set_solver|]. rewrite Hnextb.
    apply (loop_step_b false fuel _ m m1 tail n n1 nb); try done; [lia|unfold cmp_le; lia].
Qed.

Lemma merge_back_loop_ok fuel : loop_ok true fuel (merge_back_loop cmp fuel).
Proof using Type.
  induction fuel as [|fuel IH]; intros m tail n la lb Hn Hpre Hf; [lia|].
  pose proof (mp_addr _ _ _ _ Hpre) as Hadr. pose proof Hadr as [Hla Hlb]%Forall_app.
  cbn [merge_back_loop]. rewrite !hd_null by done.
  destruct la as [|a la]; [by apply merge_post_end; destruct Hpre; auto|].
  destruct lb as [|b lb]; [by apply merge_post_end; destruct Hpre; auto|]. cbn [negb andb hd].
  destruct (mp_a _ _ _ _ Hpre) as [(na & Hna & Hnexta) _].
  destruct (mp_b _ _ _ _ Hpre) as [(nb & Hnb & Hnextb) _].
  pose proof (mp_nodup _ _ _ _ Hpre) as [Ht _]%NoDup_cons. cbn [length] in Hf. case_if.
  - destruct (take_node_back m tail n a na (fun m t x => merge_back_loop cmp fuel m t x b))
      as (m1 & n1 & nx & -> & ? & ? & ? & ? & ? & ?); [done|done|set_solver|]. rewrite Hnexta.
    apply (loop_step_a true fuel _ m m1 tail n n1 nx); try done; lia.
  - destruct (take_node_back m tail n b nb (fun m t x => merge_back_loop cmp fuel m t a x))
      as (m1 & n1 & nx & -> & ? & ? & ? & ? & ? & ?); [done|done|set_solver|]. rewrite Hnextb.
    apply (loop_step_b true fuel _ m m1 tail n n1 nx); try done; [lia|unfold cmp_le; lia].
Qed.

Lemma merge_nodup la lb : NoDup (lmerge la lb) <-> NoDup (la ++ lb).
Proof using Type. by rewrite (merge_Permutation (cmp_le cmp) la lb). Qed.

(** [merge] links the two lists into their merge, and touches nothing else. *)
Lemma merge_ok m la lb :
  m !! stack_head = None -> path m la NULL -> path m lb NULL -> NoDup (la ++ lb) ->
  Forall node_addr (la ++ lb) ->
  exists m', merge cmp m (hd NULL la) (hd NULL lb) = Ok (m', hd NULL (lmerge la lb))
    /\ path m' (lmerge la lb) NULL /\ only (la ++ lb) m m'.
Proof using Type.
  intros Hst Ha Hb Hnd Hadr. unfold merge.
  set (m0 := <[stack_head := ListHead NULL NULL]> m).
  assert (stack_head ∉ la ++ lb) as Hns.
  { intros Hin. apply (proj1 (Forall_forall _ _) Hadr) in Hin. done. }
  assert (m0 !! stack_head = Some (ListHead NULL NULL)) as H0 by apply lookup_insert_eq.
  assert (length la + length lb < node_fuel m0)%nat as Hfuel.
  { unfold node_fuel, m0. rewrite map_size_insert_None by done.
    pose proof (nodes_size m (la ++ lb) Hnd) as Hsz. rewrite length_app in Hsz.
    enough (length la + length lb <= size m)%nat by lia. apply Hsz.
    intros x [Hx|Hx]%elem_of_app; eauto using path_is_Some. }
  destruct (merge_loop_ok (node_fuel m0) m0 stack_head _ la lb H0)
    as (m1 & tail' & a' & b' & rem & -> & Hel & Hlink & Ho & _); [|done|].
  { split; try done; [apply path_insert_other; [set_solver|done]..|]. by apply NoDup_cons. }
  cbn [obind]. rewrite Hel.
  destruct (linked_close _ _ _ _ _ _ _ Hlink) as (m2 & n' & pre & -> & Ht2 & Hl & Hpath & Ho2 & _).
  { apply NoDup_cons. rewrite merge_nodup. split; [|done].
    by rewrite (merge_Permutation (cmp_le cmp) la lb). }
  cbn [obind]. destruct Hpath as [(nh & Hnh & Hnext) Hpath].
  rewrite (load_ok _ _ _ Hnh). cbn [obind]. rewrite Hnext.
  assert (tail' ∈ stack_head :: la ++ lb) as Htin.
  { rewrite <- (merge_Permutation (cmp_le cmp) la lb), Hl. set_solver. }
  pose proof (only_trans _ _ (stack_head :: la ++ lb) _ _ _ Ho Ho2 ltac:(set_solver) ltac:(set_solver))
    as [Hsame Hdom].
  exists (delete stack_head m2). split; [done|]. split; [|split].
  - apply path_delete_other; [|done]. by rewrite (merge_Permutation (cmp_le cmp) la lb).
  - intros x Hx. destruct (decide (x = stack_head)) as [->|Hne].
    + by rewrite lookup_delete_eq, Hst.
    + rewrite lookup_delete_ne, Hsame by set_solver. unfold m0. by rewrite lookup_insert_ne.
  - intros x. destruct (decide (x = stack_head)) as [->|Hne].
    + by rewrite lookup_delete_eq, Hst.
    + rewrite lookup_delete_ne, Hdom by done. unfold m0. by rewrite lookup_insert_ne.
Qed.

Lemma merge_and_restore_ok m head n la lb :
  m !! head = Some n -> merge_pre m head la lb -> node_addr head -> la ++ lb <> [] ->
  exists m', merge_and_restore_back_links cmp m head (hd NULL la) (hd NULL lb) = Ok m'
    /\ ring m' head (lmerge la lb) /\ only (head :: la ++ lb) m m'.
Proof using Type.
  intros Hh Hpre Hhadr Hne. unfold merge_and_restore_back_links.
  pose proof Hpre as [Ha Hb Hnd Hadr].
  pose proof (merge_Permutation (cmp_le cmp) la lb) as Hperm.
  assert (length la + length lb < node_fuel m)%nat as Hf1.
  { unfold node_fuel. apply NoDup_cons in Hnd as [_ Hnd].
    pose proof (nodes_size m _ Hnd) as Hsz. rewrite length_app in Hsz.
    enough (length la + length lb <= size m)%nat by lia. apply Hsz.
    intros x [Hx|Hx]%elem_of_app; eauto using path_is_Some. }
  destruct (merge_back_loop_ok (node_fuel m) m head n la lb Hh Hpre Hf1)
    as (m1 & tail' & a' & b' & rem & -> & Hel & Hlink & Ho & Hrem).
  cbn [obind]. rewrite Hel. rewrite <- Hperm in Hnd, Hadr.
  destruct (linked_close _ _ _ _ _ _ _ Hlink Hnd)
    as (m2 & n' & pre & -> & Ht2 & Hl & Hpath & Ho2 & _ & Hback). cbn [obind].
  destruct (restore_ring m2 head (lmerge la lb) pre tail' rem) as (m' & -> & Hr & Ho3); try done.
  { by constructor. }
  { by apply Hrem. }
  { by apply Hback. }
  exists m'. split; [done|]. split; [done|].
  assert (tail' ∈ head :: lmerge la lb) as Htin by (rewrite Hl; set_solver).
  rewrite Hperm in Htin, Ho3. eapply only_trans; [|exact Ho3| |done].
  - eapply only_trans; [exact Ho|exact Ho2|done|set_solver].
  - done.
Qed.

End Merge.
