(* ===== verification/ListSortProps.v ===== *)
(** * The sorting of linked lists: its slots and its property

    [list_sort] keeps sorted runs of the list in the slots of [part], the
    later runs in the lower slots, and merges them the way a binary counter
    carries. *)

From stdpp Require Import gmap.
From S2P Require Import Prelude ListSort ListSortFacts.

(** The elements of the runs, in the original order. *)
Definition flat (runs : list (list Z)) : list Z := concat (reverse runs).

Lemma flat_app r1 r2 : flat (r1 ++ r2) = flat r2 ++ flat r1.
Proof. unfold flat. by rewrite reverse_app, concat_app. Qed.

Lemma flat_cons c r : flat (c :: r) = flat r ++ c.
Proof. change (c :: r) with ([c] ++ r). rewrite flat_app. unfold flat. cbn. by rewrite app_nil_r. Qed.

Lemma flat_empty n : flat (replicate n []) = [].
Proof. induction n as [|n IH]; [done|]. cbn [replicate]. by rewrite flat_cons, IH. Qed.

Lemma elem_of_flat x runs : x ∈ flat runs <-> exists c, c ∈ runs /\ x ∈ c.
Proof.
  induction runs as [|c runs IH]; [cbn; set_solver|]. rewrite flat_cons, elem_of_app, IH. set_solver.
Qed.

Section Slots.
Context (cmp : Z -> Z -> Z) `{!CmpOrder cmp}.
#[local] Existing Instance cmp_le_dec.
Abbreviation sorted := (isort cmp).

Lemma sorted_addr l : Forall node_addr l -> Forall node_addr (sorted l).
Proof using Type. by rewrite (isort_perm cmp l). Qed.

Lemma sorted_hd_null l :
  Forall node_addr l -> (hd NULL (sorted l) =? NULL) = match l with [] => true | _ => false end.
Proof using Type.
  intros Hl. rewrite hd_null by (by apply sorted_addr).
  destruct l as [|x l]; [done|]. destruct (sorted (x :: l)) eqn:He; [|done].
  pose proof (isort_perm cmp (x :: l)) as Hp. rewrite He in Hp.
  by apply Permutation_nil_l in Hp.
Qed.

(** Each slot holds, sorted, a run of the original list: those of [runs], the
    later runs in the lower slots. *)
Record slots (m : mem) (part : list Z) (runs : list (list Z)) : Prop := {
  sl_part : part = (fun c => hd NULL (sorted c)) <$> runs;
  sl_path : Forall (fun c => path m (sorted c) NULL) runs;
  sl_addr : Forall (Forall node_addr) runs;
  sl_stack : m !! stack_head = None;
}.

(** A merge of two sorted runs is the sorted run of both. *)
Lemma merge_runs m c d :
  m !! stack_head = None -> path m (sorted c) NULL -> path m (sorted d) NULL ->
  NoDup (c ++ d) -> Forall node_addr (c ++ d) ->
  exists m', merge cmp m (hd NULL (sorted c)) (hd NULL (sorted d)) = Ok (m', hd NULL (sorted (c ++ d)))
    /\ path m' (sorted (c ++ d)) NULL /\ only (c ++ d) m m' /\ m' !! stack_head = None.
Proof using Type*.
  intros Hst Hc Hd Hnd Hadr.
  assert (sorted c ++ sorted d ≡ₚ c ++ d) as Hp by (by rewrite !isort_perm).
  destruct (merge_ok cmp m (sorted c) (sorted d)) as (m' & Hm & Hpath & Ho); try done.
  { by rewrite Hp. }
  { by rewrite Hp. }
  exists m'. rewrite isort_app by done. split; [done|]. split; [done|]. rewrite Hp in Ho.
  split; [done|]. destruct Ho as [Hs _]. rewrite Hs; [done|].
  intros Hin. by apply (proj1 (Forall_forall _ _) Hadr) in Hin.
Qed.

(** Runs disjoint from what changed are still there. *)
Lemma paths_only S m m' runs :
  only S m m' -> (forall x, x ∈ flat runs -> x ∉ S) ->
  Forall (fun c => path m (sorted c) NULL) runs -> Forall (fun c => path m' (sorted c) NULL) runs.
Proof using Type.
  intros Ho Hd Hr. apply Forall_forall. intros c Hc. apply (path_only _ _ _ _ _ Ho).
  - intros x. rewrite (isort_perm cmp c). intros Hx. apply Hd, elem_of_flat. by exists c.
  - by apply (proj1 (Forall_forall _ _) Hr).
Qed.

Lemma slot_ok part runs i c :
  part = (fun c => hd NULL (sorted c)) <$> runs -> runs !! i = Some c ->
  slot part i = Ok (hd NULL (sorted c)).
Proof using Type. intros -> Hi. unfold slot. by rewrite list_lookup_fmap, Hi. Qed.

(** One slot is given another run, the others are left alone. *)
Lemma slots_set S m m1 part pre f post c :
  slots m part (pre ++ f :: post) -> only S m m1 ->
  (forall x, x ∈ flat (pre ++ post) -> x ∉ S) -> m1 !! stack_head = None ->
  path m1 (sorted c) NULL -> Forall node_addr c ->
  slots m1 (<[length pre := hd NULL (sorted c)]> part) (pre ++ c :: post).
Proof using Type.
  intros [Hpart Hpath Hadr _] Ho Hd Hst Hc Hca.
  assert (Forall (fun c => path m1 (sorted c) NULL) (pre ++ post)) as Hkeep.
  { apply (paths_only S m); [done|done|]. rewrite <- Permutation_middle in Hpath.
    by apply Forall_cons in Hpath as [_ ?]. }
  apply Forall_app in Hkeep as [Hk1 Hk2].
  apply Forall_app in Hadr as [Ha1 [_ Ha2]%Forall_cons].
  split; [|apply Forall_app; by split; [|constructor]..|done].
  subst part. rewrite <- list_fmap_insert with (f := fun c => hd NULL (sorted c)).
  f_equal. apply insert_mid.
Qed.

Lemma carry_loop_ok fuel m part lev full later c :
  slots m part (replicate lev [] ++ full ++ [] :: later) -> Forall (fun c => c <> []) full ->
  path m (sorted c) NULL -> NoDup (flat (full ++ [] :: later) ++ c) -> Forall node_addr c ->
  (length full < fuel)%nat ->
  exists m' part',
    carry_loop cmp fuel m part lev (hd NULL (sorted c))
    = Ok (m', part', (lev + length full)%nat, hd NULL (sorted (flat full ++ c)))
    /\ slots m' part' (replicate (lev + length full) [] ++ [] :: later)
    /\ path m' (sorted (flat full ++ c)) NULL /\ only (flat full ++ c) m m'.
Proof using Type*.
  revert m part lev c fuel. induction full as [|f full IH].
  { intros m part lev c [|fuel] Hsl _ Hc _ _ Hf; [cbn in Hf; lia|]. cbn [length carry_loop].
    rewrite Nat.add_0_r. rewrite (slot_ok part _ lev [] (sl_part _ _ _ Hsl)); cycle 1.
    { rewrite lookup_app_r; rewrite length_replicate; [by rewrite Nat.sub_diag|done]. }
    by exists m, part. }
  intros m part lev c [|fuel] Hsl Hne Hc Hnd Hadr Hf; [cbn in Hf; lia|].
  cbn [length] in *. cbn [carry_loop]. pose proof Hsl as [Hpart Hpath Haddr Hst].
  apply Forall_app in Haddr as [_ [Hfa Haddr]%Forall_cons].
  apply Forall_app in Hpath as [Hpr [Hfp Hpath]%Forall_cons].
  apply Forall_cons in Hne as [Hfne Hne].
  rewrite (slot_ok part _ lev f Hpart); cycle 1.
  { rewrite lookup_app_r; rewrite length_replicate; [by rewrite Nat.sub_diag|done]. }
  cbn [obind]. rewrite sorted_hd_null by done. destruct f as [|y f]; [done|].
  set (f' := y :: f) in *. rewrite <- app_comm_cons, flat_cons, <- app_assoc in Hnd.
  apply NoDup_app in Hnd as (Hndl & Hdis & Hndc).
  destruct (merge_runs m f' c Hst Hfp Hc Hndc) as (m1 & -> & Hp1 & Ho1 & Hst1).
  { by apply Forall_app. }
  cbn [obind].
  assert (slots m1 (<[lev := NULL]> part) (replicate (S lev) [] ++ full ++ [] :: later)) as Hsl1.
  { pose proof (slots_set _ m m1 part (replicate lev []) f' (full ++ [] :: later) [] Hsl Ho1) as Hset.
    rewrite length_replicate in Hset. rewrite replicate_S_end, <- app_assoc. apply Hset; try done.
    rewrite flat_app, flat_empty, app_nil_r. done. }
  destruct (IH m1 (<[lev := NULL]> part) (S lev) (f' ++ c) fuel)
    as (m' & part' & Hrun & Hsl' & Hp' & Ho'); try done; [|by apply Forall_app|lia|].
  { by apply NoDup_app. }
  exists m', part'. rewrite flat_cons, <- app_assoc, Nat.add_succ_r. split_and!; try done.
  eapply only_trans; [exact Ho1|exact Ho'|set_solver..].
Qed.

(** The highest slot in use, [max_lev], below the sentinel. *)
Record levels (runs : list (list Z)) (max_lev : nat) : Prop := {
  lv_length : length runs = S MAX_LIST_LENGTH_BITS;
  lv_max : (max_lev < MAX_LIST_LENGTH_BITS)%nat;
  lv_above : forall i c, runs !! i = Some c -> (max_lev < i)%nat -> c = [];
  lv_top : (exists c, runs !! max_lev = Some c /\ c <> []) \/ (max_lev = 0%nat /\ flat runs = []);
}.

Lemma first_empty (runs : list (list Z)) i :
  runs !! i = Some [] ->
  exists full later, runs = full ++ [] :: later /\ Forall (fun c => c <> []) full.
Proof using Type.
  revert i. induction runs as [|[|x c] runs IH]; intros i Hi; [done|by exists [], runs|].
  destruct i as [|i]; [done|]. destruct (IH i Hi) as (full & later & -> & Hf).
  exists ((x :: c) :: full), later. split; [done|]. by constructor.
Qed.

Lemma lookup_behind {A} (x : A) lev c (post : list A) i :
  (replicate lev x ++ c :: post) !! (lev + S i)%nat = post !! i.
Proof using Type.
  rewrite lookup_app_r, length_replicate by (rewrite length_replicate; lia).
  by replace (lev + S i - lev)%nat with (S i) by lia.
Qed.

(** The run [c] becomes the highest one. *)
Lemma levels_new lev (c : list Z) post :
  (lev < MAX_LIST_LENGTH_BITS)%nat -> (lev + S (length post) = S MAX_LIST_LENGTH_BITS)%nat ->
  c <> [] -> (forall i d, post !! i = Some d -> d = []) ->
  levels (replicate lev [] ++ c :: post) lev.
Proof using Type.
  intros Hlt Hlen Hc Hpost. split; [|done|..].
  - by rewrite length_app, length_replicate.
  - intros i d Hi Hgt. apply (Hpost (i - S lev)%nat).
    by rewrite <- Hi, <- (lookup_behind [] lev c post), <- (Nat.add_succ_comm lev), Nat.add_comm,
      Nat.sub_add by lia.
  - left. exists c. split; [|done]. rewrite <- (length_replicate lev (@nil Z)) at 1. apply lookup_mid.
Qed.

(** The run [c] fills the slot behind the full ones, below the highest. *)
Lemma levels_fill full later max_lev (c : list Z) :
  levels (full ++ [] :: later) max_lev -> (length full <= max_lev)%nat -> c <> [] ->
  levels (replicate (length full) [] ++ c :: later) max_lev.
Proof using Type.
  intros [Hlen Hmax Habove Htop] Hle Hc. rewrite length_app in Hlen. cbn [length] in Hlen.
  assert (forall i, (full ++ [] :: later) !! (length full + S i)%nat = later !! i) as Hlk.
  { intros i. rewrite lookup_app_r by lia.
    by replace (length full + S i - length full)%nat with (S i) by lia. }
  assert (forall i, (length full < i)%nat -> exists j, i = (length full + S j)%nat) as Hex.
  { intros i Hi. exists (i - S (length full))%nat. lia. }
  split; [|done|..].
  - by rewrite length_app, length_replicate.
  - intros i d Hi Hgt. destruct (Hex i) as [j ->]; [lia|]. rewrite lookup_behind in Hi.
    apply (Habove (length full + S j)%nat); [|done]. by rewrite Hlk.
  - left. destruct (decide (length full = max_lev)) as [<-|Hne].
    + exists c. split; [|done]. rewrite <- (length_replicate (length full) (@nil Z)) at 1. apply lookup_mid.
    + destruct Htop as [(d & Hd & Hdne)|[-> _]]; [|lia]. exists d. split; [|done].
      destruct (Hex max_lev) as [j ->]; [lia|]. by rewrite lookup_behind, <- Hlk.
Qed.

(** Where the merged run [c] goes, and the new [max_lev]. *)
Lemma levels_place max_lev full later (c : list Z) lev' max' :
  levels (full ++ [] :: later) max_lev -> Forall (fun c => c <> []) full -> c <> [] ->
  (if (max_lev <? length full)%nat then
     let lev := if (MAX_LIST_LENGTH_BITS <=? length full)%nat then (length full - 1)%nat
                else length full in
     (lev, lev)
   else (length full, max_lev)) = (lev', max') ->
  exists pre post, replicate (length full) [] ++ [] :: later = pre ++ [] :: post
    /\ length pre = lev' /\ flat pre = [] /\ flat post = flat later
    /\ levels (pre ++ c :: post) max'.
Proof using Type.
  intros Hlv Hfull Hc. pose proof Hlv as [Hlen Hmax Habove Htop].
  rewrite length_app in Hlen. cbn [length] in Hlen. case_if; cycle 1.
  { intros [= <- <-]. exists (replicate (length full) []), later.
    rewrite length_replicate, flat_empty. split_and!; try done. by apply levels_fill. }
  assert (forall i d, later !! i = Some d -> d = []) as Hlater.
  { intros i d Hi. apply (Habove (length full + S i)%nat); [|lia].
    rewrite lookup_app_r by lia. by replace (length full + S i - length full)%nat with (S i) by lia. }
  case_if; intros [= <- <-].
  - assert (later = []) as -> by (apply length_zero_iff_nil; unfold MAX_LIST_LENGTH_BITS in *; lia).
    assert (length full = 20%nat) as Hl by (cbn in Hlen; unfold MAX_LIST_LENGTH_BITS in *; lia).
    rewrite Hl in *. exists (replicate 19 []), [[]]. split_and!; try done.
    apply levels_new; [unfold MAX_LIST_LENGTH_BITS; lia|done|done|].
    intros [|i] d Hi; cbn in Hi; by simplify_eq.
  - exists (replicate (length full) []), later. rewrite length_replicate, flat_empty.
    split_and!; try done. by apply levels_new.
Qed.

Lemma place_ok m part runs max_lev x :
  slots m part runs -> levels runs max_lev -> path m [x] NULL ->
  NoDup (flat runs ++ [x]) -> node_addr x ->
  exists m' part' runs' max', place cmp m part max_lev x = Ok (m', part', max')
    /\ slots m' part' runs' /\ levels runs' max' /\ flat runs' = flat runs ++ [x]
    /\ only (flat runs ++ [x]) m m'.
Proof using Type*.
  intros Hsl Hlv Hx Hnd Hadr.
  assert (exists c, runs !! MAX_LIST_LENGTH_BITS = Some c) as [c0 Hc0].
  { apply lookup_lt_is_Some_2. rewrite (lv_length _ _ Hlv). lia. }
  pose proof (lv_above _ _ Hlv _ _ Hc0 (lv_max _ _ Hlv)) as ->.
  destruct (first_empty runs _ Hc0) as (full & later & -> & Hfull).
  assert (length part = S MAX_LIST_LENGTH_BITS) as Hlen.
  { rewrite (sl_part _ _ _ Hsl), length_fmap. apply (lv_length _ _ Hlv). }
  unfold place.
  destruct (carry_loop_ok (S (length part)) m part 0 full later [x])
    as (m1 & part1 & Hrun & Hsl1 & Hp1 & Ho1); try done.
  { by constructor. }
  { rewrite Hlen, <- (lv_length _ _ Hlv), length_app. cbn. lia. }
  cbn [app replicate Nat.add] in Hrun, Hsl1. change (hd NULL (sorted [x])) with x in Hrun.
  rewrite Hrun. cbn [obind].
  assert (length part1 = S MAX_LIST_LENGTH_BITS) as Hlen1.
  { rewrite (sl_part _ _ _ Hsl1), length_fmap, length_app, length_replicate, <- (lv_length _ _ Hlv),
      length_app. done. }
  rewrite Hlen1. replace (S MAX_LIST_LENGTH_BITS - 1)%nat with MAX_LIST_LENGTH_BITS by lia.
  destruct (if (max_lev <? length full)%nat then _ else _) as [lev' max'] eqn:Hif.
  set (c := flat full ++ [x]) in *.
  assert (c <> []) as Hc by (unfold c; by destruct (flat full)).
  destruct (levels_place _ _ _ c _ _ Hlv Hfull Hc Hif) as (pre & post & Heq & <- & Hpre & Hpost & Hlv').
  rewrite Heq in Hsl1. rewrite (slot_ok part1 _ (length pre) [] (sl_part _ _ _ Hsl1)) by apply lookup_mid.
  cbn [obind].
  exists m1, (<[length pre := hd NULL (sorted c)]> part1), (pre ++ c :: post), max'.
  assert (flat (full ++ [] :: later) = flat later ++ flat full) as Hflat
    by (by rewrite flat_app, flat_cons, app_nil_r).
  split_and!; try done.
  - apply (slots_set [] m1 m1 part1 pre [] post); [done|done|set_solver|apply Hsl1|done|].
    apply Forall_app. split; [|by constructor].
    pose proof (sl_addr _ _ _ Hsl) as Ha. apply Forall_forall. intros y Hy.
    apply elem_of_flat in Hy as (d & Hd & Hy). apply Forall_app in Ha as [Ha _].
    by apply (proj1 (Forall_forall _ _) (proj1 (Forall_forall _ _) Ha d Hd)).
  - rewrite flat_app, flat_cons, Hpre, Hpost, app_nil_r, Hflat. unfold c. by rewrite app_assoc.
  - eapply only_trans; [apply (only_refl [])|exact Ho1|set_solver|].
    unfold c. rewrite Hflat. set_solver.
Qed.

(** ** The whole sort *)

Lemma split_loop_ok fuel m part runs max_lev rest :
  slots m part runs -> levels runs max_lev -> path m rest NULL ->
  NoDup (flat runs ++ rest) -> Forall node_addr rest -> (length rest < fuel)%nat ->
  exists m' part' runs' max', split_loop cmp fuel m part max_lev (hd NULL rest) = Ok (m', part', max')
    /\ slots m' part' runs' /\ levels runs' max' /\ flat runs' = flat runs ++ rest
    /\ only (flat runs ++ rest) m m'.
Proof using Type*.
  revert m part runs max_lev rest. induction fuel as [|fuel IH]; [lia|].
  intros m part runs max_lev rest Hsl Hlv Hp Hnd Hadr Hf. cbn [split_loop].
  rewrite hd_null by done. destruct rest as [|x rest].
  { exists m, part, runs, max_lev. rewrite app_nil_r. split_and!; done. }
  destruct Hp as [(n & Hn & Hnext) Hp]. apply Forall_cons in Hadr as [Hx Hadr]. cbn [hd].
  rewrite (load_ok _ _ _ Hn). cbn [obind]. rewrite Hnext.
  destruct (set_next_ok m x NULL n Hn) as [-> Ho]. cbn [obind].
  set (m1 := <[x := ListHead NULL (prev n)]> m) in *.
  rewrite app_snoc in Hnd. pose proof Hnd as (Hnd1 & Hdis & _)%NoDup_app.
  pose proof Hnd1 as (_ & Hdx & _)%NoDup_app.
  assert (slots m1 part runs) as Hsl1.
  { destruct Hsl as [Hpart Hpath Ha Hst]. split; [done| |done|].
    - apply (paths_only [x] m); [done| |done]. set_solver.
    - destruct Ho as [Hs _]. rewrite Hs; [done|]. intros Heq%list_elem_of_singleton. by rewrite <- Heq in Hx. }
  destruct (place_ok m1 part runs max_lev x) as (m2 & part2 & runs2 & max2 & -> & Hsl2 & Hlv2 & Hfl & Ho2);
    try done.
  { cbn [path hd]. split; [|done]. exists (ListHead NULL (prev n)). split; [apply lookup_insert_eq|done]. }
  cbn [obind]. destruct (IH m2 part2 runs2 max2 rest) as (m' & part' & runs' & max' & -> & ? & ? & Hfl' & Ho');
    try done.
  { apply (path_only (flat runs ++ [x]) m1); [done|set_solver|].
    apply (path_only [x] m); [done|set_solver|done]. }
  { by rewrite Hfl. }
  { cbn in Hf. lia. }
  exists m', part', runs', max'. rewrite app_snoc. rewrite Hfl in Hfl', Ho'. split_and!; try done.
  apply (only_trans (flat runs ++ [x]) ((flat runs ++ [x]) ++ rest) _ m m2); [|done|set_solver|done].
  eapply only_trans; [exact Ho|exact Ho2|set_solver..].
Qed.

Lemma collect_loop_ok m part pre mid post c :
  part = (fun c => hd NULL (sorted c)) <$> (pre ++ mid ++ post) ->
  Forall (fun c => path m (sorted c) NULL) (mid ++ post) -> path m (sorted c) NULL ->
  m !! stack_head = None -> NoDup (flat (mid ++ post) ++ c) -> Forall node_addr (flat mid ++ c) ->
  exists m', collect_loop cmp (length mid) m part (length pre) (hd NULL (sorted c))
      = Ok (m', hd NULL (sorted (flat mid ++ c)))
    /\ path m' (sorted (flat mid ++ c)) NULL /\ Forall (fun c => path m' (sorted c) NULL) post
    /\ only (flat mid ++ c) m m'.
Proof using Type*.
  revert m pre c. induction mid as [|d mid IH]; intros m pre c Hpart Hpath Hc Hst Hnd Hadr.
  { by exists m. }
  cbn [length collect_loop]. rewrite (slot_ok part _ (length pre) d Hpart) by apply lookup_mid.
  rewrite <- app_comm_cons in Hpath, Hnd, Hpart. apply Forall_cons in Hpath as [Hd Hpath].
  rewrite flat_cons, <- app_assoc in *. pose proof Hadr as [Hamid [Had Hac]%Forall_app]%Forall_app.
  cbn [obind]. rewrite sorted_hd_null, <- (length_snoc pre d) by done.
  rewrite app_snoc in Hpart. destruct d as [|y d].
  { by apply IH. }
  set (d' := y :: d) in *. pose proof Hnd as (_ & Hdis & Hndc)%NoDup_app.
  destruct (merge_runs m d' c Hst Hd Hc Hndc) as (m1 & -> & Hp1 & Ho1 & Hst1).
  { by apply Forall_app. }
  cbn [obind]. destruct (IH m1 (pre ++ [d']) (d' ++ c)) as (m' & -> & Hp' & Hpost & Ho'); try done.
  { by apply (paths_only _ _ _ _ Ho1). }
  exists m'. split_and!; try done. eapply only_trans; [exact Ho1|exact Ho'|set_solver..].
Qed.

Lemma levels_start : levels (replicate (S MAX_LIST_LENGTH_BITS) []) 0.
Proof using Type.
  split; [done|unfold MAX_LIST_LENGTH_BITS; lia| |right; split; [done|apply flat_empty]].
  by intros i c [-> _]%lookup_replicate.
Qed.

Lemma slots_start m : m !! stack_head = None ->
  slots m (replicate (S MAX_LIST_LENGTH_BITS) NULL) (replicate (S MAX_LIST_LENGTH_BITS) []).
Proof using Type. intros Hst. split; [by rewrite fmap_replicate|by apply Forall_replicate..|done]. Qed.

End Slots.

(** The highest run and the others, when there is an element. *)
Lemma levels_split runs max_lev :
  levels runs max_lev -> flat runs <> [] ->
  exists mid c post, runs = mid ++ c :: post /\ length mid = max_lev /\ c <> []
    /\ flat runs = c ++ flat mid.
Proof.
  intros [Hlen Hmax Habove [(c & Hc & Hne)|[_ Hnil]]] Hf; [|done].
  pose proof (take_drop_middle runs max_lev c Hc) as Hsplit.
  exists (take max_lev runs), c, (drop (S max_lev) runs). split_and!; try done.
  - rewrite length_take. lia.
  - rewrite <- Hsplit at 1. rewrite flat_app, flat_cons.
    destruct (flat (drop (S max_lev) runs)) as [|y r] eqn:Hy; [done|]. exfalso.
    assert (y ∈ flat (drop (S max_lev) runs)) as Hin by (rewrite Hy; set_solver).
    apply elem_of_flat in Hin as (d & [i Hd]%list_elem_of_lookup & Hyd).
    rewrite lookup_drop in Hd. apply Habove in Hd; [|lia]. subst d. set_solver.
Qed.

(** The list cut open: NULL-terminated, behind [head]. *)
Lemma ring_open m head l t n :
  ring m head (l ++ [t]) -> m !! head = Some n ->
  next n <> head /\ prev n = t /\ exists m1,
    set_next m t NULL = Ok m1 /\ m1 !! head = Some n /\ path m1 (l ++ [t]) NULL
    /\ next n = hd NULL (l ++ [t]) /\ only [t] m m1.
Proof.
  intros [Hnext Hprev Hnd Hadr] Hn.
  assert (next n = hd NULL (l ++ [t])) as Hn1.
  { destruct Hnext as [(n' & Hn' & Hx) _]. assert (n = n') as <- by congruence.
    rewrite Hx. by destruct l. }
  pose proof Hnd as [Hh Hnd']%NoDup_cons. pose proof Hnd' as (_ & Hd & _)%NoDup_app.
  split; [|split].
  - rewrite Hn1. intros Heq. apply Hh. rewrite <- Heq. destruct l; set_solver.
  - apply prevs_app in Hprev as [_ [(n' & Hn' & Hp) _]]. rewrite last_last in Hp. congruence.
  - destruct Hnext as [_ Hp]. pose proof Hp as [_ [(nt & Ht & _) _]]%path_app.
    destruct (set_next_ok m t NULL nt Ht) as [Hset Ho]. eexists. split; [exact Hset|].
    split_and!; try done.
    + rewrite lookup_insert_ne; [done|]. set_solver.
    + apply (path_retarget m l t nt head NULL Ht); [set_solver|exact Hp].
Qed.

Section Whole.
Context (cmp : Z -> Z -> Z) `{!CmpOrder cmp}.
#[local] Existing Instance cmp_le_dec.
Abbreviation sorted := (isort cmp).

(** The merges after the last element has been placed. *)
Lemma finish_ok m head n mid c post part :
  part = (fun c => hd NULL (sorted c)) <$> mid ++ c :: post ->
  Forall (fun c => path m (sorted c) NULL) (mid ++ c :: post) -> m !! stack_head = None ->
  m !! head = Some n -> NoDup (flat (mid ++ c :: post)) -> head ∉ c ++ flat mid ->
  Forall node_addr (head :: c ++ flat mid) -> c <> [] ->
  exists m',
    (let! (m, lst) := collect_loop cmp (length mid) m part 0 NULL in
     let! p := slot part (length mid) in
     merge_and_restore_back_links cmp m head p lst) = Ok m'
    /\ ring m' head (sorted (c ++ flat mid)) /\ only (head :: c ++ flat mid) m m'.
Proof using Type*.
  intros Hpart Hpath Hst Hn Hnd Hh Hadr Hc. pose proof Hadr as [Hha [Hac Ham]%Forall_app]%Forall_cons.
  assert (NoDup (c ++ flat mid)) as Hndc.
  { rewrite flat_app, flat_cons, <- app_assoc in Hnd. by apply NoDup_app in Hnd as (_ & _ & ?). }
  destruct (collect_loop_ok cmp m part [] mid (c :: post) []) as (m1 & Hrun & Hp1 & Hpost & Ho1);
    rewrite ?app_nil_r in *; try done.
  change (hd NULL (sorted [])) with NULL in Hrun. cbn [length] in Hrun. rewrite Hrun. cbn [obind].
  rewrite (slot_ok cmp part _ (length mid) c Hpart) by apply lookup_mid. cbn [obind].
  apply Forall_cons in Hpost as [Hpc _].
  assert (sorted c ++ sorted (flat mid) ≡ₚ c ++ flat mid) as Hperm by (by rewrite !isort_perm).
  destruct (merge_and_restore_ok cmp m1 head n (sorted c) (sorted (flat mid))) as (m' & -> & Hr & Ho2).
  - rewrite (proj1 Ho1); [done|]. set_solver.
  - split; [done|done|..]; rewrite Hperm; [by constructor|by apply Forall_app].
  - done.
  - intros Hnil. rewrite Hnil in Hperm. apply Permutation_nil_l in Hperm.
    symmetry in Hperm. by apply app_nil in Hperm as [? _].
  - exists m'. rewrite isort_app by done. split; [done|]. split; [done|]. rewrite Hperm in Ho2.
    eapply only_trans; [exact Ho1|exact Ho2|set_solver..].
Qed.

Lemma list_sort_ok m head l :
  ring m head l -> m !! stack_head = None ->
  exists m', list_sort cmp m head = Ok m' /\ ring m' head (sorted l) /\ only (head :: l) m m'.
Proof using Type*.
  intros Hring Hst. pose proof Hring as [[(n & Hn & Hnx) _] _ Hnd Hadr].
  unfold list_sort, list_empty. rewrite (load_ok _ _ _ Hn). cbn [obind].
  destruct l as [|t l _] using rev_ind.
  { cbn in Hnx. rewrite Hnx, Z.eqb_refl. by exists m. }
  destruct (ring_open m head l t n Hring Hn) as (Hne & -> & m1 & -> & Hn1 & Hp1 & Hnext & Ho1).
  rewrite (proj2 (Z.eqb_neq _ _)) by done. cbn [obind]. rewrite (load_ok _ _ _ Hn1). cbn [obind].
  set (L := l ++ [t]) in *. rewrite Hnext.
  apply NoDup_cons in Hnd as [HhL HndL]. apply Forall_cons in Hadr as [Hha HaL].
  assert (t ∈ L) as HtL by set_solver.
  assert (m1 !! stack_head = None) as Hst1.
  { rewrite (proj1 Ho1); [done|]. intros Heq%list_elem_of_singleton.
    rewrite <- Heq in HtL. by apply (proj1 (Forall_forall _ _) HaL) in HtL. }
  change (MAX_LIST_LENGTH_BITS + 1)%nat with (S MAX_LIST_LENGTH_BITS).
  destruct (split_loop_ok cmp (node_fuel m1) m1 _ _ 0 L (slots_start cmp m1 Hst1) levels_start Hp1)
    as (m2 & part & runs & max_lev & -> & Hsl & Hlv & Hflat & Ho2).
  { by rewrite flat_empty. }
  { done. }
  { unfold node_fuel. pose proof (nodes_size m1 L HndL (fun x => path_is_Some _ _ _ x Hp1)). lia. }
  rewrite flat_empty in Hflat, Ho2. cbn [app] in Hflat, Ho2. cbn [obind].
  destruct (levels_split runs max_lev Hlv) as (mid & c & post & -> & <- & Hc & Hcm).
  { rewrite Hflat. unfold L. by destruct l. }
  rewrite Hflat in Hcm. destruct Hsl as [Hpart Hpath Hra Hst2].
  destruct (finish_ok m2 head n mid c post part) as (m' & -> & Hr & Ho3); try done.
  { by rewrite (proj1 Ho2). }
  { by rewrite Hflat. }
  { by rewrite <- Hcm. }
  { by rewrite <- Hcm; constructor. }
  rewrite <- Hcm in Hr, Ho3. exists m'. split; [done|]. split; [done|].
  eapply only_trans; [|exact Ho3|reflexivity|reflexivity].
  eapply only_trans; [exact Ho1|exact Ho2|set_solver..].
Qed.

End Whole.

(** * Properties of the sorting of linked lists *)

#[local] Existing Instance cmp_eq_dec.

(** C35. [list_sort] returns on every circular list, of any length, when the
    comparison is a total preorder.  The result is again a well-formed
    circular doubly linked list of the same nodes, in ascending order, and
    stable: the nodes equal to any given one are in their original order.  No
    other node of the memory is touched. *)
Theorem list_sort_correct (cmp : Z -> Z -> Z) m head l :
  CmpOrder cmp -> ring m head l -> m !! stack_head = None ->
  exists m' l', list_sort cmp m head = Ok m' /\ ring m' head l'
    /\ l' ≡ₚ l /\ StronglySorted (fun a b => cmp a b <= 0) l'
    /\ (forall u, filter (cmp_eq cmp u) l' = filter (cmp_eq cmp u) l)
    /\ (forall x, x ∉ head :: l -> m' !! x = m !! x).
Proof.
  intros Hord Hring Hst. destruct (list_sort_ok cmp m head l Hring Hst) as (m' & Hrun & Hr & [Ho _]).
  exists m', (isort cmp l). split; [done|]. split; [done|]. split; [apply isort_perm|].
  split; [by apply isort_sorted|]. split; [|done]. intros u. by apply isort_stable.
Qed.

(** Three nodes at 16, 32 and 48 behind the head at 8, compared by their
    address modulo 32: 16 and 48 are equal, and stay in order. *)
Definition demo_mem : mem :=
  <[8 := ListHead 16 48]> (<[16 := ListHead 32 8]> (<[32 := ListHead 48 16]>
    (<[48 := ListHead 8 32]> ∅))).

Lemma list_sort_correct_witness :
  exists m' l', list_sort (fun a b => a mod 32 - b mod 32) demo_mem 8 = Ok m'
    /\ ring m' 8 l' /\ l' ≡ₚ [16; 32; 48].
Proof.
  destruct (list_sort_correct (fun a b => a mod 32 - b mod 32) demo_mem 8 [16; 32; 48])
    as (m' & l' & Hrun & Hring & Hrest).
  - split; unfold cmp_le; intros; lia.
  - split.
    + repeat split; by eexists.
    + repeat split; by eexists.
    + apply NoDup_ListNoDup. repeat constructor; set_solver.
    + repeat constructor.
  - reflexivity.
  - exists m', l'. tauto.
Defined.

Example list_sort_demo :
  (let! m := list_sort (fun a b => a mod 32 - b mod 32) demo_mem 8 in
   Ok ((fun x => prev <$> m !! x) <$> [8; 32; 16; 48]))
  = Ok [Some 48; Some 8; Some 32; Some 16].
Proof. reflexivity. Qed.
