(* ===== verification/Kfifo.v ===== *)
(** * Ring buffers (lib/kfifo.c, include/linux/kfifo.h)

    The lock-free fifo: two free-running 32-bit indices and a buffer whose
    size is a power of two.  A copy that leaves the buffer, or that reads more
    than its source holds, is a [Bug].  The scatter-gather operations are not
    here. *)

From S2P Require Import Prelude.

(** [data] is the memory the fifo was given, as bytes. *)
Record __kfifo := Kfifo {
  f_in : Z;
  f_out : Z;
  mask : Z;
  esize : Z;
  data : list Z;
}.

(** [memcpy(dst + doff, src + soff, n)] *)
Definition memcpy (dst : list Z) (doff : Z) (src : list Z) (soff n : Z) : outcome (list Z) :=
  if (doff + n <=? Z.of_nat (length dst)) && (soff + n <=? Z.of_nat (length src))
  then Ok (list_inserts (Z.to_nat doff) (take (Z.to_nat n) (drop (Z.to_nat soff) src)) dst)
  else Bug.

(** [fls_long] and [__roundup_pow_of_two]; a shift by 64, as for [n = 0], is
    undefined. *)
Definition fls_long (x : Z) : Z := if x =? 0 then 0 else Z.log2 x + 1.
Definition roundup_pow_of_two (n : Z) : outcome Z :=
  let shift := fls_long (u64 (n - 1)) in
  bug_on shift >=? 64 in
  Ok (u64 (Z.shiftl 1 shift)).

Definition kfifo_unused (f : __kfifo) : Z := u32 (u32 (mask f + 1) - u32 (f_in f - f_out f)).

(** ** Set up *)

(** [kmalloc] gives, for a number of bytes, the memory or nothing. *)
Definition __kfifo_alloc (kmalloc : Z -> option (list Z)) (size esize : Z)
    : outcome (__kfifo * Z) :=
  let! size := roundup_pow_of_two size in
  let size := u32 size in
  if size <? 2 then Ok (Kfifo 0 0 0 (u32 esize) [], - EINVAL)
  else match kmalloc (u64 (size * esize)) with
       | None => Ok (Kfifo 0 0 0 (u32 esize) [], - ENOMEM)
       | Some mem => Ok (Kfifo 0 0 (u32 (size - 1)) (u32 esize) mem, 0)
       end.

Definition __kfifo_free (f : __kfifo) : __kfifo := Kfifo 0 0 0 0 [].

Definition __kfifo_init (buffer : list Z) (size esize : Z) : outcome (__kfifo * Z) :=
  bug_on esize =? 0 in
  let size := u32 (size / esize) in
  let! size := roundup_pow_of_two size in
  let size := u32 size in
  if size <? 2 then Ok (Kfifo 0 0 0 (u32 esize) buffer, - EINVAL)
  else Ok (Kfifo 0 0 (u32 (size - 1)) (u32 esize) buffer, 0).

Definition kfifo_initialized (f : __kfifo) : bool := negb (mask f =? 0).
Definition kfifo_size (f : __kfifo) : Z := u32 (mask f + 1).
Definition kfifo_reset (f : __kfifo) : __kfifo := Kfifo 0 0 (mask f) (esize f) (data f).
Definition kfifo_reset_out (f : __kfifo) : __kfifo :=
  Kfifo (f_in f) (f_in f) (mask f) (esize f) (data f).
Definition kfifo_len (f : __kfifo) : Z := u32 (f_in f - f_out f).
Definition kfifo_is_empty (f : __kfifo) : bool := f_in f =? f_out f.
Definition kfifo_is_full (f : __kfifo) : bool := kfifo_len f >? mask f.

Definition set_in (f : __kfifo) (i : Z) : __kfifo := Kfifo (u32 i) (f_out f) (mask f) (esize f) (data f).
Definition set_out (f : __kfifo) (o : Z) : __kfifo := Kfifo (f_in f) (u32 o) (mask f) (esize f) (data f).
Definition set_data (f : __kfifo) (d : list Z) : __kfifo :=
  Kfifo (f_in f) (f_out f) (mask f) (esize f) d.

(** ** Plain copies *)

(** The common head of the copies: the byte offset, the byte length, and how
    much of it is in front of the end of the buffer. *)
Definition copy_span (f : __kfifo) (len off : Z) : Z * Z * Z :=
  let size := u32 (mask f + 1) in
  let off := Z.land off (mask f) in
  let '(off, size, len) :=
    (if negb (esize f =? 1) then (u32 (off * esize f), u32 (size * esize f), u32 (len * esize f))
     else (off, size, len)) in
  (off, len, Z.min len (u32 (size - off))).

Definition kfifo_copy_in (f : __kfifo) (src : list Z) (len off : Z) : outcome __kfifo :=
  let '(off, len, l) := copy_span f len off in
  let! d := memcpy (data f) off src 0 l in
  let! d := memcpy d 0 src l (u32 (len - l)) in
  Ok (set_data f d).

Definition __kfifo_in (f : __kfifo) (buf : list Z) (len : Z) : outcome (__kfifo * Z) :=
  let l := kfifo_unused f in
  let len := if len >? l then l else len in
  let! f := kfifo_copy_in f buf len (f_in f) in
  Ok (set_in f (f_in f + len), len).

(** The bytes written to [dst]. *)
Definition kfifo_copy_out (f : __kfifo) (len off : Z) : outcome (list Z) :=
  let '(off, len, l) := copy_span f len off in
  let n := u32 (len - l) in
  if (off + l <=? Z.of_nat (length (data f))) && (n <=? Z.of_nat (length (data f)))
  then Ok (take (Z.to_nat l) (drop (Z.to_nat off) (data f)) ++ take (Z.to_nat n) (data f))
  else Bug.

Definition __kfifo_out_peek (f : __kfifo) (len : Z) : outcome (list Z * Z) :=
  let l := u32 (f_in f - f_out f) in
  let len := if len >? l then l else len in
  let! b := kfifo_copy_out f len (f_out f) in
  Ok (b, len).

Definition __kfifo_out (f : __kfifo) (len : Z) : outcome (__kfifo * list Z * Z) :=
  let! (b, len) := __kfifo_out_peek f len in
  Ok (set_out f (f_out f + len), b, len).

(** ** Copies from and to user space *)

(** [copy_from_user(dst + doff, from + soff, n)]: the readable bytes at
    [from] are [ubuf]; what could not be read is zeroed and counted. *)
Definition copy_from_user (dst : list Z) (doff : Z) (ubuf : list Z) (soff n : Z)
    : outcome (list Z * Z) :=
  let got := take (Z.to_nat n) (drop (Z.to_nat soff) ubuf) in
  let left := n - Z.of_nat (length got) in
  if doff + n <=? Z.of_nat (length dst)
  then Ok (list_inserts (Z.to_nat doff) (got ++ replicate (Z.to_nat left) 0) dst, left)
  else Bug.

Definition DIV_ROUND_UP (n d : Z) : Z := u64 (n + d - 1) / d.

(** The fifo, the number of elements not copied, and [*copied]. *)
Definition kfifo_copy_from_user (f : __kfifo) (ubuf : list Z) (len off : Z)
    : outcome (__kfifo * Z * Z) :=
  let '(off, len, l) := copy_span f len off in
  let! (d, ret) := copy_from_user (data f) off ubuf 0 l in
  let! (d, ret) :=
    (if negb (ret =? 0) then Ok (d, DIV_ROUND_UP (u64 (ret + len - l)) (esize f))
     else
       let! (d, ret) := copy_from_user d 0 ubuf l (u32 (len - l)) in
       if negb (ret =? 0) then Ok (d, DIV_ROUND_UP ret (esize f)) else Ok (d, 0)) in
  Ok (set_data f d, ret, u32 (len - ret * esize f)).

Definition __kfifo_from_user (f : __kfifo) (ubuf : list Z) (len : Z)
    : outcome (__kfifo * Z * Z) :=
  let len := if negb (esize f =? 1) then len / esize f else len in
  let l := kfifo_unused f in
  let len := if len >? l then l else len in
  let! (f, ret, copied) := kfifo_copy_from_user f ubuf (u32 len) (f_in f) in
  let '(len, err) := if negb (ret =? 0) then (u64 (len - ret), - EFAULT) else (len, 0) in
  Ok (set_in f (f_in f + len), err, copied).

(** [copy_to_user]: [room] bytes are writable at the destination from
    position [soff] on. *)
Definition copy_to_user (room soff : Z) (src : list Z) (off n : Z) : outcome (list Z * Z) :=
  let got := Z.max 0 (Z.min n (room - soff)) in
  if off + n <=? Z.of_nat (length src)
  then Ok (take (Z.to_nat got) (drop (Z.to_nat off) src), n - got)
  else Bug.

Definition kfifo_copy_to_user (f : __kfifo) (room len off : Z) : outcome (list Z * Z * Z) :=
  let '(off, len, l) := copy_span f len off in
  let! (b1, ret) := copy_to_user room 0 (data f) off l in
  let! (b2, ret) :=
    (if negb (ret =? 0) then Ok ([], DIV_ROUND_UP (u64 (ret + len - l)) (esize f))
     else
       let! (b2, ret) := copy_to_user room l (data f) 0 (u32 (len - l)) in
       if negb (ret =? 0) then Ok (b2, DIV_ROUND_UP ret (esize f)) else Ok (b2, 0)) in
  Ok (b1 ++ b2, ret, u32 (len - ret * esize f)).

Definition __kfifo_to_user (f : __kfifo) (room len : Z) : outcome (__kfifo * list Z * Z * Z) :=
  let len := if negb (esize f =? 1) then len / esize f else len in
  let l := u32 (f_in f - f_out f) in
  let len := if len >? l then l else len in
  let! (b, ret, copied) := kfifo_copy_to_user f room (u32 len) (f_out f) in
  let '(len, err) := if negb (ret =? 0) then (u64 (len - ret), - EFAULT) else (len, 0) in
  Ok (set_out f (f_out f + len), b, err, copied).

(** ** Records: a length of [recsize] bytes in front of each *)

Definition __kfifo_max_r (len recsize : Z) : Z :=
  let max := u32 (s32 (Z.shiftl 1 (Z.shiftl recsize 3)) - 1) in
  if len >? max then max else len.

Definition __KFIFO_PEEK (d : list Z) (out mask : Z) : outcome Z :=
  match d !! Z.to_nat (Z.land out mask) with Some b => Ok b | None => Bug end.

Definition __kfifo_peek_n (f : __kfifo) (recsize : Z) : outcome Z :=
  let! l := __KFIFO_PEEK (data f) (f_out f) (mask f) in
  if negb (recsize - 1 =? 0) then
    let! h := __KFIFO_PEEK (data f) (u32 (f_out f + 1)) (mask f) in
    Ok (Z.lor l (Z.shiftl h 8))
  else Ok l.

Definition __KFIFO_POKE (d : list Z) (in_ mask val : Z) : outcome (list Z) :=
  let i := Z.to_nat (Z.land in_ mask) in
  if (i <? length d)%nat then Ok (<[i := val mod 256]> d) else Bug.

Definition __kfifo_poke_n (f : __kfifo) (n recsize : Z) : outcome __kfifo :=
  let! d := __KFIFO_POKE (data f) (f_in f) (mask f) n in
  if recsize >? 1 then
    let! d := __KFIFO_POKE d (u32 (f_in f + 1)) (mask f) (Z.shiftr n 8) in
    Ok (set_data f d)
  else Ok (set_data f d).

Definition __kfifo_len_r (f : __kfifo) (recsize : Z) : outcome Z := __kfifo_peek_n f recsize.

Definition __kfifo_in_r (f : __kfifo) (buf : list Z) (len recsize : Z) : outcome (__kfifo * Z) :=
  if len + recsize >? kfifo_unused f then Ok (f, 0) else
  let! f := __kfifo_poke_n f len recsize in
  let! f := kfifo_copy_in f buf len (u32 (f_in f + recsize)) in
  Ok (set_in f (f_in f + (len + recsize)), len).

(** The bytes, the number of bytes, and the length of the record. *)
Definition kfifo_out_copy_r (f : __kfifo) (len recsize : Z) : outcome (list Z * Z * Z) :=
  let! n := __kfifo_peek_n f recsize in
  let len := if len >? n then n else len in
  let! b := kfifo_copy_out f len (u32 (f_out f + recsize)) in
  Ok (b, len, n).

Definition __kfifo_out_peek_r (f : __kfifo) (len recsize : Z) : outcome (list Z * Z) :=
  if f_in f =? f_out f then Ok ([], 0) else
  let! (b, len, n) := kfifo_out_copy_r f len recsize in
  Ok (b, len).

Definition __kfifo_out_r (f : __kfifo) (len recsize : Z) : outcome (__kfifo * list Z * Z) :=
  if f_in f =? f_out f then Ok (f, [], 0) else
  let! (b, len, n) := kfifo_out_copy_r f len recsize in
  Ok (set_out f (f_out f + (n + recsize)), b, len).

Definition __kfifo_skip_r (f : __kfifo) (recsize : Z) : outcome __kfifo :=
  let! n := __kfifo_peek_n f recsize in
  Ok (set_out f (f_out f + (n + recsize))).

Definition __kfifo_from_user_r (f : __kfifo) (ubuf : list Z) (len recsize : Z)
    : outcome (__kfifo * Z * Z) :=
  let len := __kfifo_max_r (u32 len) recsize in
  if len + recsize >? kfifo_unused f then Ok (f, 0, 0) else
  let! f := __kfifo_poke_n f len recsize in
  let! (f, ret, copied) := kfifo_copy_from_user f ubuf len (u32 (f_in f + recsize)) in
  if negb (ret =? 0) then Ok (f, - EFAULT, 0)
  else Ok (set_in f (f_in f + (len + recsize)), 0, copied).

Definition __kfifo_to_user_r (f : __kfifo) (room len recsize : Z)
    : outcome (__kfifo * list Z * Z * Z) :=
  if f_in f =? f_out f then Ok (f, [], 0, 0) else
  let! n := __kfifo_peek_n f recsize in
  let len := if len >? n then n else len in
  let! (b, ret, copied) := kfifo_copy_to_user f room len (u32 (f_out f + recsize)) in
  if negb (ret =? 0) then Ok (f, b, - EFAULT, 0)
  else Ok (set_out f (f_out f + (n + recsize)), b, 0, copied).
