(* ===== verification/KfifoOps.v ===== *)
(** * The ring buffers: the invariant and the operations

    Reads and writes of a ring of bytes that may wrap, the invariant of a
    fifo, and what its buffer holds between the two indices.  Every operation
    of lib/kfifo.c keeps the invariant, and takes from the front or adds to
    the back of the bytes the fifo holds. *)

From S2P Require Import Prelude Kfifo.

#[local] Ltac Zify.zify_post_hook ::= Z.div_mod_to_equations.

(** ** Rings of bytes *)

(** [n] bytes from position [o] on, wrapping at the end. *)
Definition ring_take (d : list Z) (o n : nat) : list Z := take n (drop o (d ++ d)).

(** [b] written from position [p] on, wrapping at the end. *)
Definition ring_put (d : list Z) (p : nat) (b : list Z) : list Z :=
  list_inserts 0 (drop (length d - p) b) (list_inserts p (take (length d - p) b) d).

(** Position [j] of a ring of [c] bytes, for [j < 2 * c]. *)
Definition ring_idx (c j : nat) : nat := if (j <? c)%nat then j else (j - c)%nat.

Lemma ring_take_lookup d o n i :
  (o < length d)%nat -> (n <= length d)%nat -> (i < n)%nat ->
  ring_take d o n !! i = d !! ring_idx (length d) (o + i).
Proof.
  intros Ho Hn Hi. unfold ring_take, ring_idx. rewrite lookup_take_lt, lookup_drop by done.
  case_if; [by rewrite lookup_app_l|]. by rewrite lookup_app_r.
Qed.

Lemma ring_take_length d o n :
  (o <= length d)%nat -> (n <= length d)%nat -> length (ring_take d o n) = n.
Proof. intros. unfold ring_take. rewrite length_take, length_drop, length_app. lia. Qed.

Lemma ring_put_length d p b : length (ring_put d p b) = length d.
Proof. unfold ring_put. by rewrite !length_inserts. Qed.

Lemma ring_put_lookup d p b j :
  (p < length d)%nat -> (length b <= length d)%nat -> (j < length d)%nat ->
  ring_put d p b !! j =
    if decide (p <= j < p + length b)%nat then b !! (j - p)%nat
    else if decide (j + length d < p + length b)%nat then b !! (j + length d - p)%nat
    else d !! j.
Proof.
  intros Hp Hb Hj. unfold ring_put.
  destruct (decide (j + length d < p + length b)%nat) as [Hw|Hw].
  - rewrite list_lookup_inserts; [|rewrite length_drop; lia|rewrite length_inserts; lia].
    rewrite lookup_drop, decide_False by lia. f_equal. lia.
  - rewrite list_lookup_inserts_ge by (rewrite length_drop; lia). case_decide.
    + rewrite list_lookup_inserts; [|rewrite length_take; lia|lia].
      by rewrite lookup_take_lt by lia.
    + destruct (decide (j < p)%nat).
      * by rewrite list_lookup_inserts_lt by lia.
      * by rewrite list_lookup_inserts_ge by (rewrite length_take; lia).
Qed.

(** What is read after a write behind the content is the content and the
    written bytes. *)
Lemma ring_take_put d o q b :
  (o < length d)%nat -> (q + length b <= length d)%nat ->
  ring_take (ring_put d (ring_idx (length d) (o + q)) b) o (q + length b)
  = ring_take d o q ++ b.
Proof.
  intros Ho Hq. apply list_eq. intros i.
  assert (ring_idx (length d) (o + q) < length d)%nat as Hp by (unfold ring_idx; case_if; lia).
  destruct (decide (i < q + length b)%nat) as [Hi|Hi].
  - rewrite ring_take_lookup; rewrite ?ring_put_length; [|lia..].
    assert (ring_idx (length d) (o + i) < length d)%nat by (unfold ring_idx; case_if; lia).
    rewrite ring_put_lookup by lia.
    destruct (decide (i < q)%nat) as [Hiq|Hiq].
    + rewrite lookup_app_l by (rewrite ring_take_length; lia).
      rewrite ring_take_lookup by lia. unfold ring_idx in *.
      repeat (case_if || case_decide); done || lia.
    + rewrite lookup_app_r; rewrite ring_take_length; [|lia..].
      unfold ring_idx in *. repeat (case_if || case_decide); f_equal; lia.
  - rewrite !lookup_ge_None_2; [done|..].
    + rewrite length_app, ring_take_length; lia.
    + rewrite ring_take_length; rewrite ?ring_put_length; lia.
Qed.

(** The content behind its first [k] bytes. *)
Lemma ring_take_drop d o n k :
  (o < length d)%nat -> (k <= n)%nat -> (n <= length d)%nat ->
  ring_take d (ring_idx (length d) (o + k)) (n - k) = drop k (ring_take d o n).
Proof.
  intros Ho Hk Hn. apply list_eq. intros i. rewrite lookup_drop.
  assert (ring_idx (length d) (o + k) < length d)%nat by (unfold ring_idx; case_if; lia).
  destruct (decide (i < n - k)%nat) as [Hi|Hi].
  - rewrite !ring_take_lookup by lia. f_equal. unfold ring_idx in *.
    repeat case_if; lia.
  - rewrite !lookup_ge_None_2; [done|..]; rewrite ring_take_length; lia.
Qed.

Lemma ring_take_take d o n k : (k <= n)%nat -> take k (ring_take d o n) = ring_take d o k.
Proof. intros. unfold ring_take. rewrite take_take. f_equal. lia. Qed.

(** The two copies of the code are a read of the ring. *)
Lemma ring_take_split d o n :
  (o < length d)%nat -> (n <= length d)%nat ->
  take (min n (length d - o)) (drop o d) ++ take (n - min n (length d - o)) d = ring_take d o n.
Proof.
  intros Ho Hn. unfold ring_take. rewrite drop_app_le by lia. rewrite take_app, length_drop.
  destruct (decide (n <= length d - o)%nat) as [Hle|Hgt].
  - by rewrite Nat.min_l, Nat.sub_diag, (proj2 (Nat.sub_0_le n (length d - o))) by lia.
  - rewrite Nat.min_r by lia. f_equal. by rewrite !take_ge by (rewrite length_drop; lia).
Qed.

(** ** The invariant *)

Record kfifo_wf (f : __kfifo) : Prop := {
  wf_mask : exists k, 1 <= k <= 31 /\ mask f = 2 ^ k - 1;
  wf_esize : 0 < esize f;
  wf_bytes_fit : (mask f + 1) * esize f <= U32_MAX;
  wf_data : Z.of_nat (length (data f)) = (mask f + 1) * esize f;
  wf_in : is_u32 (f_in f);
  wf_out : is_u32 (f_out f);
  wf_len : kfifo_len f <= mask f + 1;
  wf_bytes : Forall (fun b => 0 <= b < 256) (data f);
}.

(** The byte position of element index [x]. *)
Definition pos (f : __kfifo) (x : Z) : nat := Z.to_nat (x mod (mask f + 1) * esize f).

(** The bytes of the elements between the two indices, oldest first. *)
Definition contents (f : __kfifo) : list Z :=
  ring_take (data f) (pos f (f_out f)) (Z.to_nat (kfifo_len f * esize f)).

Section Wf.
Context (f : __kfifo) (Hwf : kfifo_wf f).
Abbreviation SZ := (mask f + 1).
Abbreviation EZ := (esize f).

Lemma wf_size_pow : exists k, 1 <= k <= 31 /\ SZ = 2 ^ k.
Proof using Hwf. destruct (wf_mask f Hwf) as (k & Hk & Hm). exists k. lia. Qed.

Lemma wf_size_range : 2 <= SZ <= 2147483648.
Proof using Hwf.
  destruct wf_size_pow as (k & Hk & ->). split.
  - change 2 with (2 ^ 1) at 1. apply Z.pow_le_mono_r; lia.
  - change 2147483648 with (2 ^ 31). apply Z.pow_le_mono_r; lia.
Qed.

Lemma wf_land x : 0 <= x -> Z.land x (mask f) = x mod SZ.
Proof using Hwf.
  intros Hx. destruct (wf_mask f Hwf) as (k & Hk & Hm).
  replace (mask f) with (Z.ones k) by (rewrite Z.ones_equiv; lia).
  rewrite Z.land_ones by lia. rewrite Z.ones_equiv. f_equal. lia.
Qed.

(** The size divides the range of the indices. *)
Lemma wf_mod_u32 x : u32 x mod SZ = x mod SZ.
Proof using Hwf.
  destruct wf_size_pow as (k & Hk & ->). unfold u32, U32_MAX.
  change (4294967295 + 1) with (2 ^ 32). replace 32 with (k + (32 - k)) by lia.
  rewrite Z.pow_add_r by lia.
  rewrite Z.rem_mul_r by (try apply Z.pow_nonzero; lia || (apply Z.pow_pos_nonneg; lia)).
  rewrite Z.mul_comm, Z.mod_add by (apply Z.pow_nonzero; lia). apply Z.mod_mod.
  apply Z.pow_nonzero; lia.
Qed.

Lemma wf_pos_lt x : (pos f x < length (data f))%nat.
Proof using Hwf.
  unfold pos. pose proof wf_size_range. pose proof (wf_data f Hwf). pose proof (wf_esize f Hwf).
  assert (0 <= x mod SZ < SZ) by (apply Z.mod_pos_bound; lia). nia.
Qed.

(** Moving an index by at most the size moves its position around the ring. *)
Lemma pos_add x n :
  0 <= n <= SZ -> pos f (u32 (x + n)) = ring_idx (length (data f)) (pos f x + Z.to_nat (n * EZ)).
Proof using Hwf.
  intros Hn. unfold pos, ring_idx. rewrite wf_mod_u32.
  pose proof wf_size_range. pose proof (wf_data f Hwf). pose proof (wf_esize f Hwf).
  assert (0 <= x mod SZ < SZ) as Hx by (apply Z.mod_pos_bound; lia).
  rewrite <- Z2Nat.inj_add by nia. rewrite <- Z.mul_add_distr_r.
  rewrite <- Z.add_mod_idemp_l by lia.
  destruct (decide (x mod SZ + n < SZ)).
  - rewrite Z.mod_small by lia. rewrite (proj2 (Nat.ltb_lt _ _)); [done|nia].
  - rewrite (proj2 (Nat.ltb_ge _ _)) by nia.
    replace ((x mod SZ + n) mod SZ) with (x mod SZ + n - SZ).
    2:{ symmetry. rewrite <- (Z.mod_add _ (-1)) by lia. apply Z.mod_small. lia. }
    nia.
Qed.

Lemma wf_copy_span len off :
  0 <= off -> 0 <= len <= SZ ->
  copy_span f len off =
    (Z.of_nat (pos f off), len * EZ,
     Z.of_nat (min (Z.to_nat (len * EZ)) (length (data f) - pos f off))).
Proof using Hwf.
  intros Ho Hl. unfold copy_span, pos. rewrite wf_land by done.
  pose proof wf_size_range. pose proof (wf_data f Hwf) as Hd. pose proof (wf_esize f Hwf).
  pose proof (wf_bytes_fit f Hwf) as Hb.
  assert (0 <= off mod SZ < SZ) by (apply Z.mod_pos_bound; lia).
  assert (off mod SZ * EZ < SZ * EZ) by nia.
  rewrite (u32_id SZ) by ulia. case_if.
  - rewrite (u32_id (off mod SZ * EZ)), (u32_id (SZ * EZ)), (u32_id (len * EZ)) by ulia || nia.
    rewrite u32_id by nia. f_equal; [f_equal; nia|]. nia.
  - rewrite E, !Z.mul_1_r in *. rewrite u32_id by ulia. f_equal; [f_equal; lia|]. lia.
Qed.

Lemma wf_len_range : 0 <= kfifo_len f <= SZ.
Proof using Hwf.
  split; [|apply (wf_len f Hwf)]. unfold kfifo_len, u32. apply Z.mod_pos_bound. done.
Qed.

Lemma wf_unused : kfifo_unused f = SZ - kfifo_len f.
Proof using Hwf.
  unfold kfifo_unused. fold (kfifo_len f). pose proof wf_len_range. pose proof wf_size_range.
  rewrite (u32_id SZ) by ulia. apply u32_id. ulia.
Qed.

Lemma wf_empty : kfifo_is_empty f = (kfifo_len f =? 0).
Proof using Hwf.
  pose proof (wf_in f Hwf). pose proof (wf_out f Hwf). unfold kfifo_is_empty, kfifo_len, u32.
  unfold is_u32, U32_MAX in *. destruct (Z.eqb_spec (f_in f) (f_out f)) as [->|Hne].
  - by rewrite Z.sub_diag.
  - symmetry. apply Z.eqb_neq. lia.
Qed.

Lemma len_set_in n :
  0 <= n <= SZ - kfifo_len f -> kfifo_len (set_in f (f_in f + n)) = kfifo_len f + n.
Proof using Hwf.
  intros Hn. pose proof wf_len_range. pose proof wf_size_range. unfold kfifo_len in *.
  cbn [f_in f_out set_in]. unfold u32, U32_MAX in *. lia.
Qed.

Lemma len_set_out n :
  0 <= n <= kfifo_len f -> kfifo_len (set_out f (f_out f + n)) = kfifo_len f - n.
Proof using Hwf.
  intros Hn. pose proof wf_len_range. pose proof wf_size_range. unfold kfifo_len in *.
  cbn [f_in f_out set_out]. unfold u32, U32_MAX in *. lia.
Qed.

Lemma u32_is x : is_u32 (u32 x).
Proof using Type. unfold is_u32, u32, U32_MAX. lia. Qed.

Lemma wf_set_in n : 0 <= n <= SZ - kfifo_len f -> kfifo_wf (set_in f (f_in f + n)).
Proof using Hwf.
  intros Hn. pose proof (len_set_in n Hn) as Hl. destruct Hwf. split; try done.
  - apply u32_is.
  - rewrite Hl. cbn [mask set_in]. lia.
Qed.

Lemma wf_set_out n : 0 <= n <= kfifo_len f -> kfifo_wf (set_out f (f_out f + n)).
Proof using Hwf.
  intros Hn. pose proof (len_set_out n Hn) as Hl. destruct Hwf. split; try done.
  - apply u32_is.
  - rewrite Hl. cbn [mask set_out]. lia.
Qed.

Lemma wf_set_data d :
  length d = length (data f) -> Forall (fun b => 0 <= b < 256) d -> kfifo_wf (set_data f d).
Proof using Hwf. intros Hl Hd. destruct Hwf. split; try done. cbn [data set_data]. by rewrite Hl. Qed.

Lemma wf_ring_put p b :
  Forall (fun b => 0 <= b < 256) b -> (p < length (data f))%nat ->
  (length b <= length (data f))%nat -> kfifo_wf (set_data f (ring_put (data f) p b)).
Proof using Hwf.
  intros Hb Hp Hl. apply wf_set_data; [apply ring_put_length|].
  apply Forall_lookup. intros i x Hi.
  assert (i < length (data f))%nat as Hlt.
  { apply lookup_lt_Some in Hi. by rewrite ring_put_length in Hi. }
  rewrite ring_put_lookup in Hi by done.
  pose proof (wf_bytes f Hwf) as Hd. rewrite Forall_lookup in Hb, Hd.
  repeat case_decide; eauto.
Qed.

(** ** The copies *)

Lemma copy_in_ok src len off :
  0 <= off -> 0 <= len <= SZ -> len * EZ <= Z.of_nat (length src) ->
  kfifo_copy_in f src len off
  = Ok (set_data f (ring_put (data f) (pos f off) (take (Z.to_nat (len * EZ)) src))).
Proof using Hwf.
  intros Ho Hl Hs. unfold kfifo_copy_in. rewrite wf_copy_span by done.
  pose proof (wf_pos_lt off) as Hp. set (p := pos f off) in *.
  pose proof (wf_data f Hwf) as Hd. pose proof (wf_bytes_fit f Hwf). pose proof (wf_esize f Hwf).
  assert (0 <= len * EZ <= U32_MAX) as Hn by nia.
  set (n := Z.to_nat (len * EZ)). assert (len * EZ = Z.of_nat n) as Hnz by lia.
  assert (n <= length (data f))%nat as Hnd by nia.
  clearbody n p. rewrite Hnz in *. set (C := length (data f)) in *.
  rewrite (u32_id (Z.of_nat n - _)) by ulia. unfold memcpy.
  rewrite (proj2 (Z.leb_le (Z.of_nat p + _) _)) by lia.
  rewrite (proj2 (Z.leb_le (0 + Z.of_nat (min n (C - p))) _)) by lia. cbn [andb obind].
  rewrite length_inserts. rewrite (proj2 (Z.leb_le (0 + _) (Z.of_nat (length (data f))))) by lia.
  rewrite (proj2 (Z.leb_le (Z.of_nat (min n (C - p)) + _) _)) by lia. cbn [andb obind].
  do 2 f_equal. unfold ring_put. fold C. rewrite !Nat2Z.id, drop_0, take_take.
  replace (Z.to_nat (Z.of_nat n - Z.of_nat (n `min` (C - p)))) with (n - min n (C - p))%nat by lia.
  rewrite (Nat.min_comm (C - p)). f_equal. rewrite skipn_firstn_comm.
  destruct (decide (n <= C - p)%nat).
  - rewrite Nat.min_l, Nat.sub_diag by lia. by replace (n - (C - p))%nat with 0%nat by lia.
  - by rewrite Nat.min_r by lia.
Qed.

Lemma copy_out_ok len off :
  0 <= off -> 0 <= len <= SZ ->
  kfifo_copy_out f len off = Ok (ring_take (data f) (pos f off) (Z.to_nat (len * EZ))).
Proof using Hwf.
  intros Ho Hl. unfold kfifo_copy_out. rewrite wf_copy_span by done.
  pose proof (wf_pos_lt off) as Hp. set (p := pos f off) in *.
  pose proof (wf_data f Hwf) as Hd. pose proof (wf_bytes_fit f Hwf). pose proof (wf_esize f Hwf).
  assert (0 <= len * EZ <= U32_MAX) as Hn by nia.
  set (n := Z.to_nat (len * EZ)). assert (len * EZ = Z.of_nat n) as Hnz by lia.
  assert (n <= length (data f))%nat as Hnd by nia.
  clearbody n p. rewrite Hnz in *. set (C := length (data f)) in *.
  rewrite u32_id by ulia. rewrite !(proj2 (Z.leb_le _ _)) by lia. cbn [andb].
  rewrite <- ring_take_split by done. fold C. rewrite !Nat2Z.id. do 3 f_equal. lia.
Qed.

End Wf.

(** * The operations of a ring buffer on its contents *)

#[local] Ltac Zify.zify_post_hook ::= Z.div_mod_to_equations.

(** Bytes of a buffer. *)
Abbreviation bytes := (Forall (fun b => 0 <= b < 256)).

Lemma ring_put_app d p a b :
  (p < length d)%nat -> (length a + length b <= length d)%nat ->
  ring_put (ring_put d p a) (ring_idx (length d) (p + length a)) b = ring_put d p (a ++ b).
Proof.
  intros Hp Hl. apply list_eq. intros j.
  destruct (decide (j < length d)%nat) as [Hj|Hj]; cycle 1.
  { rewrite !lookup_ge_None_2; rewrite ?ring_put_length; done || lia. }
  assert (ring_idx (length d) (p + length a) < length d)%nat by (unfold ring_idx; case_if; lia).
  rewrite (ring_put_lookup (ring_put d p a)) by (rewrite ring_put_length; lia).
  rewrite ring_put_length, !ring_put_lookup by (rewrite ?length_app; lia).
  rewrite length_app. unfold ring_idx in *.
  repeat (case_if || case_decide); try lia; try done.
  all: first [rewrite lookup_app_l by lia | rewrite lookup_app_r by lia]; f_equal; lia.
Qed.

Lemma ring_put_single d p x : (p < length d)%nat -> ring_put d p [x] = <[p := x]> d.
Proof.
  intros Hp. unfold ring_put. destruct (length d - p)%nat as [|k] eqn:Hk; [lia|].
  cbn [take drop]. by rewrite take_nil, drop_nil.
Qed.

Lemma ring_put_two d p x y :
  (length x <= length d - p)%nat -> (y = [] \/ length x = length d - p)%nat ->
  list_inserts 0 y (list_inserts p x d) = ring_put d p (x ++ y).
Proof.
  intros Hx Hy. unfold ring_put. destruct Hy as [->|Hy].
  - rewrite app_nil_r, take_ge, drop_ge by lia. done.
  - by rewrite <- Hy, take_app_length, drop_app_length.
Qed.

(** Elements not copied, from bytes not copied. *)
Lemma div_round_up x e :
  0 <= x <= U32_MAX -> 0 < e <= U32_MAX -> DIV_ROUND_UP x e = (x + e - 1) / e.
Proof. intros Hx He. unfold DIV_ROUND_UP. by rewrite u64_id by ulia. Qed.

(** Bytes missing of [n] when [a] are there, and what is rounded up to
    elements of [e] bytes. *)
Definition missing (n a e : Z) : Z := (Z.max 0 (n - a) + e - 1) / e.

Lemma missing_zero n a e : 0 < e -> n <= a -> missing n a e = 0.
Proof. intros. unfold missing. rewrite Z.max_l by lia. apply Z.div_small. lia. Qed.

Lemma missing_pos n a e : 0 < e -> a < n -> missing n a e <> 0.
Proof. intros. unfold missing. rewrite Z.max_r by lia. intros ?%Z.div_small_iff; lia. Qed.

(** Whole elements of [n = k * e] bytes that are there. *)
Lemma missing_left k a e : 0 < e -> 0 <= k -> 0 <= a -> k - missing (k * e) a e = Z.min k (a / e).
Proof.
  intros He Hk Ha. destruct (decide (k * e <= a)) as [Hle|Hgt].
  - rewrite missing_zero by lia. rewrite Z.sub_0_r, Z.min_l; [done|].
    apply Z.div_le_lower_bound; lia.
  - unfold missing. rewrite Z.max_r by lia.
    assert (a / e < k) by (apply Z.div_lt_upper_bound; lia).
    rewrite Z.min_r by lia.
    replace (k * e - a + e - 1) with ((e - 1 - a) + k * e) by lia.
    rewrite Z.div_add by lia.
    enough ((e - 1 - a) / e = - (a / e)) by lia.
    pose proof (Z.div_mod a e ltac:(lia)). pose proof (Z.mod_pos_bound a e ltac:(lia)).
    symmetry. apply (Z.div_unique _ _ _ (e - 1 - a mod e)); [lia|]. nia.
Qed.

(** The readable bytes of a user buffer, padded with zeros to [n]. *)
Definition padded (ubuf : list Z) (n : nat) : list Z :=
  take n ubuf ++ replicate (n - length ubuf) 0.

Lemma padded_length ubuf n : length (padded ubuf n) = n.
Proof. unfold padded. rewrite length_app, length_take, length_replicate. lia. Qed.

Lemma padded_bytes ubuf n : bytes ubuf -> bytes (padded ubuf n).
Proof. intros. apply Forall_app. split; [by apply Forall_take|]. by apply Forall_replicate. Qed.

Lemma padded_take ubuf n : take (length ubuf) (padded ubuf n) = take n ubuf.
Proof.
  unfold padded. destruct (decide (n <= length ubuf)%nat).
  - replace (n - length ubuf)%nat with 0%nat by lia. cbn [replicate]. rewrite app_nil_r, take_take.
    f_equal. lia.
  - rewrite (take_ge ubuf n) by lia. apply take_app_length.
Qed.

(** One copy: the padded bytes of the range, and those missing. *)
Lemma copy_from_user_one d p ubuf so n :
  (p + n <= length d)%nat ->
  copy_from_user d (Z.of_nat p) ubuf (Z.of_nat so) (Z.of_nat n)
  = Ok (list_inserts p (padded (drop so ubuf) n) d,
        Z.max 0 (Z.of_nat n - Z.of_nat (length ubuf - so))).
Proof.
  intros Hp. unfold copy_from_user. rewrite (proj2 (Z.leb_le _ _)) by lia.
  rewrite !Nat2Z.id, length_take, length_drop. unfold padded. rewrite length_drop.
  f_equal. f_equal; [|lia]. do 3 f_equal. lia.
Qed.

(** The two copies are one write to the ring, of [l] or of all [n] bytes. *)
Lemma copy_from_user_two d p ubuf n e :
  (p < length d)%nat -> (n <= length d)%nat -> Z.of_nat n <= U32_MAX -> 0 < e <= U32_MAX ->
  bytes ubuf ->
  let l := min n (length d - p) in
  exists k,
    (let! (d, ret) := copy_from_user d (Z.of_nat p) ubuf 0 (Z.of_nat l) in
     if negb (ret =? 0) then Ok (d, DIV_ROUND_UP (u64 (ret + Z.of_nat n - Z.of_nat l)) e)
     else
       let! (d, ret) := copy_from_user d 0 ubuf (Z.of_nat l) (Z.of_nat n - Z.of_nat l) in
       if negb (ret =? 0) then Ok (d, DIV_ROUND_UP ret e) else Ok (d, 0))
    = Ok (ring_put d p (padded ubuf k), missing (Z.of_nat n) (Z.of_nat (length ubuf)) e)
    /\ (min n (length ubuf) <= k <= n)%nat.
Proof.
  intros Hp Hn Hnu He Hb l. change 0 with (Z.of_nat 0) at 1.
  rewrite copy_from_user_one by lia. rewrite drop_0, Nat.sub_0_r. cbn [obind].
  unfold missing. case_if.
  - exists l. split; [|lia].
    rewrite u64_id by ulia. rewrite div_round_up by ulia.
    assert (list_inserts p (padded ubuf l) d = ring_put d p (padded ubuf l)) as ->.
    { rewrite <- (app_nil_r (padded ubuf l)) at 2. rewrite <- ring_put_two; [done| |by left].
      rewrite padded_length. lia. }
    do 3 f_equal. lia.
  - exists n. split; [|lia].
    replace (Z.of_nat n - Z.of_nat l) with (Z.of_nat (n - l)) by lia. change 0 with (Z.of_nat 0) at 1.
    rewrite copy_from_user_one by (rewrite length_inserts; lia). cbn [obind].
    assert (list_inserts 0 (padded (drop l ubuf) (n - l)) (list_inserts p (padded ubuf l) d)
      = ring_put d p (padded ubuf n)) as ->.
    { rewrite ring_put_two; [|rewrite padded_length; lia|]; cycle 1.
      { rewrite padded_length. destruct (decide (n <= length d - p)%nat); [left|right; lia].
        by replace (n - l)%nat with 0%nat by lia. }
      f_equal. unfold padded. rewrite length_drop.
      replace (l - length ubuf)%nat with 0%nat by lia. cbn [replicate]. rewrite app_nil_r, app_assoc.
      f_equal; [|f_equal; lia]. rewrite take_take_drop. f_equal. lia. }
    case_if.
    + rewrite div_round_up by ulia. do 3 f_equal. lia.
    + do 2 f_equal. symmetry. apply Z.div_small. lia.
Qed.

Lemma copy_to_user_one room so src off n :
  (off + n <= length src)%nat ->
  copy_to_user (Z.of_nat room) (Z.of_nat so) src (Z.of_nat off) (Z.of_nat n)
  = Ok (take (min n (room - so)) (drop off src), Z.max 0 (Z.of_nat n - Z.of_nat (room - so))).
Proof.
  intros Hp. unfold copy_to_user. rewrite (proj2 (Z.leb_le _ _)) by lia.
  f_equal. f_equal; [|lia]. f_equal; [lia|]. f_equal. lia.
Qed.

(** The two copies to user space write a prefix of the bytes of the ring. *)
Lemma copy_to_user_two d p room n e :
  (p < length d)%nat -> (n <= length d)%nat -> Z.of_nat n <= U32_MAX -> 0 < e <= U32_MAX ->
  let l := min n (length d - p) in
  (let! (b1, ret) := copy_to_user (Z.of_nat room) 0 d (Z.of_nat p) (Z.of_nat l) in
   let! (b2, ret) :=
     (if negb (ret =? 0) then Ok ([], DIV_ROUND_UP (u64 (ret + Z.of_nat n - Z.of_nat l)) e)
      else
        let! (b2, ret) := copy_to_user (Z.of_nat room) (Z.of_nat l) d 0 (Z.of_nat n - Z.of_nat l) in
        if negb (ret =? 0) then Ok (b2, DIV_ROUND_UP ret e) else Ok (b2, 0)) in
   Ok (b1 ++ b2, ret))
  = Ok (take room (ring_take d p n), missing (Z.of_nat n) (Z.of_nat room) e).
Proof.
  intros Hp Hn Hnu He l. change 0 with (Z.of_nat 0) at 1.
  rewrite copy_to_user_one by lia. rewrite Nat.sub_0_r. cbn [obind].
  rewrite <- ring_take_split by done. fold l. unfold missing.
  assert (length (take l (drop p d)) = l) as Hlen by (rewrite length_take, length_drop; lia).
  case_if.
  - cbn [obind]. rewrite app_nil_r, u64_id, div_round_up by ulia.
    rewrite take_app_le, take_take, Nat.min_comm by lia. do 3 f_equal. lia.
  - replace (Z.of_nat n - Z.of_nat l) with (Z.of_nat (n - l)) by lia.
    change 0 with (Z.of_nat 0) at 1. rewrite copy_to_user_one by lia. cbn [obind].
    assert (take (min l room) (drop p d) ++ take (min (n - l) (room - l)) (drop 0 d)
      = take room (take l (drop p d) ++ take (n - l) d)) as Hb.
    { rewrite take_app, Hlen, take_take, take_take, drop_0, Nat.min_comm, (Nat.min_comm (n - l)). done. }
    case_if; cbn [obind]; rewrite Hb.
    + rewrite div_round_up by ulia. do 3 f_equal. lia.
    + do 2 f_equal. symmetry. apply Z.div_small. lia.
Qed.

Section Ops.
Context (f : __kfifo) (Hwf : kfifo_wf f).
Abbreviation SZ := (mask f + 1).
Abbreviation EZ := (esize f).

(** Bytes the fifo holds, and can still take. *)
Lemma contents_length : Z.of_nat (length (contents f)) = kfifo_len f * EZ.
Proof using Hwf.
  pose proof (wf_pos_lt f Hwf (f_out f)). pose proof (wf_len_range f Hwf).
  pose proof (wf_data f Hwf). pose proof (wf_esize f Hwf).
  unfold contents. rewrite ring_take_length by nia. nia.
Qed.

Lemma wf_in_out : f_in f = u32 (f_out f + kfifo_len f).
Proof using Hwf.
  pose proof (wf_in f Hwf). pose proof (wf_out f Hwf). unfold kfifo_len, u32, is_u32, U32_MAX in *. lia.
Qed.

Lemma pos_in : pos f (f_in f) = ring_idx (length (data f)) (pos f (f_out f) + length (contents f)).
Proof using Hwf.
  rewrite wf_in_out, (pos_add f Hwf) by apply (wf_len_range f Hwf).
  pose proof contents_length as Hc. do 2 f_equal. lia.
Qed.

(** A write behind the contents, and the index moved over [n] elements of it. *)
Lemma put_ok b n :
  bytes b -> Z.of_nat (length b) <= (SZ - kfifo_len f) * EZ -> 0 <= n -> n * EZ <= Z.of_nat (length b) ->
  let f' := set_in (set_data f (ring_put (data f) (pos f (f_in f)) b)) (f_in f + n) in
  kfifo_wf f' /\ contents f' = contents f ++ take (Z.to_nat (n * EZ)) b.
Proof using Hwf.
  intros Hb Hlen Hn0 Hn f'. pose proof (wf_esize f Hwf) as HE. pose proof (wf_data f Hwf) as Hd.
  pose proof (wf_len_range f Hwf) as Hlr. pose proof (wf_pos_lt f Hwf) as Hpos.
  pose proof contents_length as Hcl.
  assert (0 <= n <= SZ - kfifo_len f) as Hns by nia.
  set (f1 := set_data f (ring_put (data f) (pos f (f_in f)) b)) in *.
  assert (kfifo_wf f1) as Hwf1 by (apply wf_ring_put; [done|done|apply Hpos|nia]).
  split; [by apply (wf_set_in f1)|].
  unfold contents at 1. change (f_out f') with (f_out f). change (esize f') with EZ.
  change (pos f' (f_out f)) with (pos f (f_out f)).
  pose proof (len_set_in f1 Hwf1 n Hns) as Hl. change (kfifo_len f' = kfifo_len f + n) in Hl.
  rewrite Hl. change (data f') with (ring_put (data f) (pos f (f_in f)) b).
  rewrite pos_in. rewrite <- (ring_take_take _ _ (length (contents f) + length b)) by nia.
  rewrite ring_take_put by (try apply Hpos; nia).
  assert (ring_take (data f) (pos f (f_out f)) (length (contents f)) = contents f) as ->.
  { unfold contents at 2. f_equal. lia. }
  rewrite take_app_ge by nia. do 2 f_equal. nia.
Qed.

(** The index moved over [n] elements of the contents. *)
Lemma drop_ok n :
  0 <= n <= kfifo_len f ->
  let f' := set_out f (f_out f + n) in
  kfifo_wf f' /\ contents f' = drop (Z.to_nat (n * EZ)) (contents f).
Proof using Hwf.
  intros Hn f'. split; [by apply wf_set_out|].
  pose proof (wf_esize f Hwf) as HE. pose proof (wf_data f Hwf) as Hd.
  pose proof (wf_len_range f Hwf) as Hlr. pose proof (wf_pos_lt f Hwf) as Hpos.
  unfold contents at 1. change (esize f') with EZ. change (data f') with (data f).
  pose proof (len_set_out f Hwf n Hn) as Hl. change (kfifo_len f' = kfifo_len f - n) in Hl. rewrite Hl.
  change (pos f' (f_out f')) with (pos f (u32 (f_out f + n))).
  rewrite (pos_add f Hwf) by lia. unfold contents.
  rewrite <- ring_take_drop by (try apply Hpos; nia). f_equal. nia.
Qed.

(** A read of elements [k] to [k + n] of the contents. *)
Lemma read_ok k n :
  0 <= k -> 0 <= n -> k + n <= kfifo_len f ->
  kfifo_copy_out f n (u32 (f_out f + k))
  = Ok (take (Z.to_nat (n * EZ)) (drop (Z.to_nat (k * EZ)) (contents f))).
Proof using Hwf.
  intros Hk Hn Hkn. pose proof (wf_len_range f Hwf) as Hlr. pose proof (wf_esize f Hwf) as HE.
  pose proof (wf_data f Hwf) as Hd. pose proof (wf_pos_lt f Hwf) as Hpos.
  rewrite (copy_out_ok f Hwf) by (try lia; apply u32_is).
  rewrite (pos_add f Hwf) by lia. unfold contents.
  rewrite <- ring_take_drop by (try apply Hpos; nia). by rewrite ring_take_take by nia.
Qed.

Lemma read_front n :
  0 <= n <= kfifo_len f ->
  kfifo_copy_out f n (f_out f) = Ok (take (Z.to_nat (n * EZ)) (contents f)).
Proof using Hwf.
  intros Hn. pose proof (read_ok 0 n) as Hr. rewrite Z.add_0_r, Z.mul_0_l, drop_0 in Hr.
  rewrite u32_id in Hr by apply (wf_out f Hwf). apply Hr; lia.
Qed.

(** ** Plain data *)

Lemma __kfifo_in_ok buf len :
  bytes buf -> 0 <= len -> len * EZ <= Z.of_nat (length buf) ->
  exists f' r, __kfifo_in f buf len = Ok (f', r) /\ kfifo_wf f'
    /\ r = Z.min len (SZ - kfifo_len f)
    /\ contents f' = contents f ++ take (Z.to_nat (r * EZ)) buf
    /\ mask f' = mask f /\ esize f' = esize f.
Proof using Hwf.
  intros Hb Hl Hlb. unfold __kfifo_in. rewrite (wf_unused f Hwf).
  pose proof (wf_len_range f Hwf). pose proof (wf_esize f Hwf).
  set (r := if len >? SZ - kfifo_len f then _ else _).
  assert (r = Z.min len (SZ - kfifo_len f)) as Hr by (unfold r; case_if; lia).
  clearbody r. rewrite (copy_in_ok f Hwf) by (try apply (wf_in f Hwf); nia). cbn [obind].
  destruct (put_ok (take (Z.to_nat (r * EZ)) buf) r) as [Hwf' Hc].
  - by apply Forall_take.
  - rewrite length_take. nia.
  - lia.
  - rewrite length_take. nia.
  - do 2 eexists. split; [done|]. split; [done|]. split; [done|]. split; [|done].
    rewrite take_take, Nat.min_id in Hc. exact Hc.
Qed.

Lemma __kfifo_out_peek_ok len :
  0 <= len ->
  __kfifo_out_peek f len =
    Ok (take (Z.to_nat (Z.min len (kfifo_len f) * EZ)) (contents f), Z.min len (kfifo_len f)).
Proof using Hwf.
  intros Hl. unfold __kfifo_out_peek. fold (kfifo_len f). pose proof (wf_len_range f Hwf).
  set (r := if len >? kfifo_len f then _ else _).
  assert (r = Z.min len (kfifo_len f)) as -> by (unfold r; case_if; lia).
  rewrite read_front by lia. done.
Qed.

Lemma __kfifo_out_ok len :
  0 <= len ->
  exists f' b r, __kfifo_out f len = Ok (f', b, r) /\ kfifo_wf f'
    /\ r = Z.min len (kfifo_len f) /\ b = take (Z.to_nat (r * EZ)) (contents f)
    /\ contents f' = drop (Z.to_nat (r * EZ)) (contents f)
    /\ mask f' = mask f /\ esize f' = esize f.
Proof using Hwf.
  intros Hl. unfold __kfifo_out. rewrite __kfifo_out_peek_ok by done. cbn [obind].
  pose proof (wf_len_range f Hwf).
  destruct (drop_ok (Z.min len (kfifo_len f))) as [Hw Hc]; [lia|].
  do 3 eexists. split; [done|]. by split_and!.
Qed.

(** ** User space *)

Lemma copy_from_user_ok ubuf len off :
  0 <= off -> 0 <= len <= SZ -> bytes ubuf ->
  exists k, kfifo_copy_from_user f ubuf len off
      = Ok (set_data f (ring_put (data f) (pos f off) (padded ubuf k)),
            missing (len * EZ) (Z.of_nat (length ubuf)) EZ,
            (len - missing (len * EZ) (Z.of_nat (length ubuf)) EZ) * EZ)
    /\ Z.min (len * EZ) (Z.of_nat (length ubuf)) <= Z.of_nat k <= len * EZ.
Proof using Hwf.
  intros Ho Hl Hb. unfold kfifo_copy_from_user. rewrite (wf_copy_span f Hwf) by done.
  pose proof (wf_pos_lt f Hwf off) as Hp. set (p := pos f off) in *.
  pose proof (wf_data f Hwf) as Hd. pose proof (wf_bytes_fit f Hwf). pose proof (wf_esize f Hwf) as HE.
  assert (0 <= len * EZ <= U32_MAX) as Hn by nia.
  assert (EZ <= U32_MAX) as HEm by (pose proof (wf_size_range f Hwf); nia).
  pose proof (missing_left len (Z.of_nat (length ubuf)) EZ HE ltac:(lia) ltac:(lia)) as Hleft.
  assert (0 <= Z.of_nat (length ubuf) / EZ) by (apply Z.div_pos; lia).
  set (n := Z.to_nat (len * EZ)). assert (len * EZ = Z.of_nat n) as Hnz by lia.
  destruct (copy_from_user_two (data f) p ubuf n EZ) as (k & Hrun & Hk); [done|nia|lia|lia|done|].
  exists k. split; [|lia]. rewrite (u32_id (len * EZ - _)) by ulia. rewrite Hnz.
  destruct (copy_from_user (data f) (Z.of_nat p) ubuf 0 _) as [[d ret]| | |]; try done.
  cbn [obind] in *. rewrite Hrun. cbn [obind]. do 2 f_equal. rewrite <- Hnz.
  rewrite u32_id; [lia|]. nia.
Qed.

Lemma copy_to_user_ok room len k :
  0 <= k -> 0 <= len -> k + len <= kfifo_len f ->
  kfifo_copy_to_user f (Z.of_nat room) len (u32 (f_out f + k))
  = Ok (take room (take (Z.to_nat (len * EZ)) (drop (Z.to_nat (k * EZ)) (contents f))),
        missing (len * EZ) (Z.of_nat room) EZ,
        (len - missing (len * EZ) (Z.of_nat room) EZ) * EZ).
Proof using Hwf.
  intros Hk Hl Hkl. unfold kfifo_copy_to_user. pose proof (wf_len_range f Hwf) as Hlr.
  set (off := u32 (f_out f + k)). assert (0 <= off) as Ho by apply u32_is.
  rewrite (wf_copy_span f Hwf) by lia. pose proof (wf_pos_lt f Hwf off) as Hp.
  pose proof (wf_data f Hwf) as Hd. pose proof (wf_bytes_fit f Hwf). pose proof (wf_esize f Hwf) as HE.
  assert (0 <= len * EZ <= U32_MAX) as Hn by nia.
  assert (EZ <= U32_MAX) as HEm by (pose proof (wf_size_range f Hwf); nia).
  pose proof (missing_left len (Z.of_nat room) EZ HE ltac:(lia) ltac:(lia)) as Hleft.
  assert (0 <= Z.of_nat room / EZ) by (apply Z.div_pos; lia).
  set (n := Z.to_nat (len * EZ)). assert (len * EZ = Z.of_nat n) as Hnz by lia.
  pose proof (copy_to_user_two (data f) (pos f off) room n EZ Hp ltac:(nia) ltac:(lia) ltac:(lia))
    as Hrun. cbn zeta in Hrun.
  rewrite (u32_id (len * EZ - _)) by ulia. rewrite Hnz.
  destruct (copy_to_user (Z.of_nat room) 0 _ _ _) as [[b1 ret]| | |]; try done. cbn [obind] in *.
  destruct (if negb (ret =? 0) then _ else _) as [[b2 ret2]| | |]; try done. cbn [obind] in *.
  injection Hrun as -> ->.
  pose proof (read_ok k len Hk Hl Hkl) as Hread. fold off in Hread.
  rewrite (copy_out_ok f Hwf) in Hread by lia. fold n in Hread. injection Hread as ->.
  do 2 f_equal. rewrite <- Hnz. rewrite u32_id; [lia|]. nia.
Qed.

Lemma __kfifo_from_user_ok ubuf len :
  0 <= len <= U64_MAX -> bytes ubuf ->
  let L := Z.min (len / EZ) (SZ - kfifo_len f) in
  let m := Z.min L (Z.of_nat (length ubuf) / EZ) in
  exists f', __kfifo_from_user f ubuf len
      = Ok (f', if Z.of_nat (length ubuf) <? L * EZ then - EFAULT else 0, m * EZ)
    /\ kfifo_wf f' /\ contents f' = contents f ++ take (Z.to_nat (m * EZ)) ubuf
    /\ mask f' = mask f /\ esize f' = esize f.
Proof using Hwf.
  intros Hlen Hb L m. unfold __kfifo_from_user.
  pose proof (wf_len_range f Hwf) as Hlr. pose proof (wf_size_range f Hwf) as Hsr.
  pose proof (wf_esize f Hwf) as HE.
  assert ((if negb (EZ =? 1) then len / EZ else len) = len / EZ) as ->.
  { case_if; [done|]. rewrite E. by rewrite Z.div_1_r. }
  assert (0 <= len / EZ) by (apply Z.div_pos; lia).
  rewrite (wf_unused f Hwf). set (r := if len / EZ >? _ then _ else _).
  assert (r = L) as -> by (unfold r, L; case_if; lia). rewrite (u32_id L) by ulia.
  destruct (copy_from_user_ok ubuf L (f_in f)) as (k & -> & Hk); [apply (wf_in f Hwf)|lia|done|].
  cbn [obind]. pose proof (missing_left L (Z.of_nat (length ubuf)) EZ HE ltac:(lia) ltac:(lia)) as Hleft.
  fold m in Hleft. assert (0 <= Z.of_nat (length ubuf) / EZ) by (apply Z.div_pos; lia).
  assert (m * EZ <= Z.of_nat (length ubuf)) as Hmu.
  { pose proof (Z.mul_div_le (Z.of_nat (length ubuf)) EZ HE). nia. }
  destruct (put_ok (padded ubuf k) m) as [Hwf' Hc].
  { by apply padded_bytes. }
  { rewrite padded_length. nia. }
  { lia. }
  { rewrite padded_length. nia. }
  rewrite Hleft. exists (set_in (set_data f (ring_put (data f) (pos f (f_in f)) (padded ubuf k))) (f_in f + m)).
  split; [|split; [exact Hwf'|split; [|done]]].
  - destruct (Z.ltb_spec (Z.of_nat (length ubuf)) (L * EZ)) as [Hlt|Hge].
    + pose proof (missing_pos (L * EZ) (Z.of_nat (length ubuf)) EZ HE Hlt) as Hm0.
      rewrite (proj2 (Z.eqb_neq _ _)) by done. cbn [negb].
      by rewrite u64_id by ulia.
    + rewrite missing_zero in * by lia. rewrite Z.sub_0_r in Hleft. cbn [negb Z.eqb]. by rewrite Hleft.
  - rewrite Hc. f_equal.
    rewrite <- (Nat.min_l (Z.to_nat (m * EZ)) (length ubuf)) at 1 by lia.
    rewrite <- take_take, padded_take, take_take. f_equal. nia.
Qed.

Lemma __kfifo_to_user_ok room len :
  0 <= len <= U64_MAX ->
  let L := Z.min (len / EZ) (kfifo_len f) in
  let m := Z.min L (Z.of_nat room / EZ) in
  exists f', __kfifo_to_user f (Z.of_nat room) len
      = Ok (f', take room (take (Z.to_nat (L * EZ)) (contents f)),
            if Z.of_nat room <? L * EZ then - EFAULT else 0, m * EZ)
    /\ kfifo_wf f' /\ contents f' = drop (Z.to_nat (m * EZ)) (contents f)
    /\ mask f' = mask f /\ esize f' = esize f.
Proof using Hwf.
  intros Hlen L m. unfold __kfifo_to_user.
  pose proof (wf_len_range f Hwf) as Hlr. pose proof (wf_size_range f Hwf) as Hsr.
  pose proof (wf_esize f Hwf) as HE.
  assert ((if negb (EZ =? 1) then len / EZ else len) = len / EZ) as ->.
  { case_if; [done|]. rewrite E. by rewrite Z.div_1_r. }
  assert (0 <= len / EZ) by (apply Z.div_pos; lia).
  fold (kfifo_len f). set (r := if len / EZ >? _ then _ else _).
  assert (r = L) as -> by (unfold r, L; case_if; lia). rewrite (u32_id L) by ulia.
  pose proof (copy_to_user_ok room L 0 ltac:(lia) ltac:(lia) ltac:(lia)) as Hrun.
  rewrite Z.add_0_r, u32_id, Z.mul_0_l, drop_0 in Hrun by apply (wf_out f Hwf).
  rewrite Hrun. cbn [obind].
  pose proof (missing_left L (Z.of_nat room) EZ HE ltac:(lia) ltac:(lia)) as Hleft. fold m in Hleft.
  assert (0 <= Z.of_nat room / EZ) by (apply Z.div_pos; lia).
  destruct (drop_ok m) as [Hwf' Hc]; [lia|]. rewrite Hleft.
  exists (set_out f (f_out f + m)). split; [|by split].
  destruct (Z.ltb_spec (Z.of_nat room) (L * EZ)) as [Hlt|Hge].
  - pose proof (missing_pos (L * EZ) (Z.of_nat room) EZ HE Hlt) as Hm0.
    rewrite (proj2 (Z.eqb_neq _ _)) by done. cbn [negb]. by rewrite u64_id by ulia.
  - rewrite missing_zero in * by lia. rewrite Z.sub_0_r in Hleft. cbn [negb Z.eqb]. by rewrite Hleft.
Qed.

End Ops.
