(* ===== verification/KfifoRecords.v ===== *)
(** * Records in a ring buffer

    The record operations of lib/kfifo.c: a byte fifo whose contents are
    records, each behind its length in one or two bytes. *)

From S2P Require Import Prelude Kfifo KfifoOps.

#[local] Ltac Zify.zify_post_hook ::= Z.div_mod_to_equations.

(** The length field the code writes. *)
Definition len_field (recsize n : Z) : list Z :=
  if recsize >? 1 then [n mod 256; Z.shiftr n 8 mod 256] else [n mod 256].

Definition encode (recsize : Z) (r : list Z) : list Z :=
  len_field recsize (Z.of_nat (length r)) ++ r.

(** The records a fifo holds. *)
Definition holds (f : __kfifo) (recsize : Z) (rs : list (list Z)) : Prop :=
  contents f = concat (encode recsize <$> rs)
  /\ Forall (fun r => Z.of_nat (length r) < 256 ^ recsize) rs.

Lemma lor_bytes l h : Z.lor (l mod 256) (Z.shiftl h 8) = l mod 256 + 256 * h.
Proof.
  assert (Z.land (l mod 256) (Z.shiftl h 8) = 0) as H0.
  { apply Z.bits_inj'. intros i Hi. rewrite Z.land_spec, Z.bits_0. change 256 with (2 ^ 8).
    destruct (decide (i < 8)).
    - by rewrite Z.shiftl_spec_low, andb_false_r.
    - by rewrite Z.mod_pow2_bits_high by lia. }
  rewrite <- Z.lxor_lor, <- Z.add_nocarry_lxor by done. rewrite Z.shiftl_mul_pow2 by done.
  change (2 ^ 8) with 256. lia.
Qed.

Lemma set_in_same d (f : __kfifo) :
  is_u32 (f_in f) -> set_in (set_data f d) (f_in f) = set_data f d.
Proof. intros Hi. unfold set_in, set_data. cbn. by rewrite u32_id by apply Hi. Qed.

Section Records.
Context (f : __kfifo) (Hwf : kfifo_wf f) (He : esize f = 1).
Context (recsize : Z) (Hrec : recsize = 1 \/ recsize = 2).

Lemma len_field_length n : Z.of_nat (length (len_field recsize n)) = recsize.
Proof using Hrec. unfold len_field. destruct Hrec as [-> | ->]; done. Qed.

Lemma len_field_bytes n : bytes (len_field recsize n).
Proof using Type.
  unfold len_field. case_if; repeat constructor; apply Z.mod_pos_bound; lia.
Qed.

Lemma length_len : Z.of_nat (length (contents f)) = kfifo_len f.
Proof using Hwf He. rewrite (contents_length f Hwf), He. lia. Qed.

Lemma poke_one d x v :
  length d = length (data f) -> 0 <= x ->
  __KFIFO_POKE d x (mask f) v = Ok (ring_put d (pos f x) [v mod 256]).
Proof using Hwf He.
  intros Hd Hx. unfold __KFIFO_POKE. rewrite (wf_land f Hwf) by done.
  pose proof (wf_pos_lt f Hwf x) as Hp. unfold pos in *. rewrite He, Z.mul_1_r in *.
  rewrite (proj2 (Nat.ltb_lt _ _)) by lia. by rewrite ring_put_single by lia.
Qed.

Lemma poke_n_ok n :
  recsize <= mask f + 1 ->
  __kfifo_poke_n f n recsize
  = Ok (set_data f (ring_put (data f) (pos f (f_in f)) (len_field recsize n))).
Proof using Hwf He Hrec.
  intros Hfit. unfold __kfifo_poke_n, len_field.
  pose proof (wf_in f Hwf) as Hin. pose proof (wf_data f Hwf) as Hd. rewrite He in Hd.
  rewrite poke_one by (done || apply Hin). cbn [obind]. case_if; [|done].
  rewrite poke_one by (apply ring_put_length || apply u32_is). cbn [obind].
  rewrite (pos_add f Hwf) by lia. rewrite He, Z.mul_1_r. do 2 f_equal.
  apply (ring_put_app _ _ [_] [_]); [apply (wf_pos_lt f Hwf)|cbn; lia].
Qed.

(** The bytes of the length field at the front. *)
Lemma peek_one k x :
  0 <= k -> contents f !! Z.to_nat k = Some x ->
  __KFIFO_PEEK (data f) (u32 (f_out f + k)) (mask f) = Ok x.
Proof using Hwf He.
  intros Hk Hx. pose proof length_len as Hlen. pose proof (lookup_lt_Some _ _ _ Hx) as Hlt.
  pose proof (wf_len_range f Hwf) as Hlr. pose proof (wf_data f Hwf) as Hd. rewrite He in Hd.
  unfold __KFIFO_PEEK. rewrite (wf_land f Hwf) by apply u32_is.
  assert (Z.to_nat (u32 (f_out f + k) mod (mask f + 1))
    = ring_idx (length (data f)) (pos f (f_out f) + Z.to_nat k)) as ->.
  { pose proof (pos_add f Hwf (f_out f) k ltac:(lia)) as Hp. unfold pos in Hp at 1.
    rewrite He, !Z.mul_1_r in Hp. exact Hp. }
  unfold contents in Hx. rewrite ring_take_lookup in Hx by (try apply (wf_pos_lt f Hwf); lia).
  by rewrite Hx.
Qed.

Lemma peek_n_ok n rest :
  contents f = len_field recsize n ++ rest -> 0 <= n < 256 ^ recsize ->
  __kfifo_peek_n f recsize = Ok n.
Proof using Hwf He Hrec.
  intros Hc Hn. unfold __kfifo_peek_n, len_field in *.
  pose proof (wf_out f Hwf) as Ho. rewrite <- (u32_id (f_out f)) at 1 by apply Ho.
  rewrite <- (Z.add_0_r (f_out f)) at 1.
  destruct Hrec as [-> | ->].
  - change (1 >? 1) with false in Hc. rewrite (peek_one 0 (n mod 256)) by (lia || by rewrite Hc).
    cbn. f_equal. change (256 ^ 1) with 256 in Hn. lia.
  - change (2 >? 1) with true in Hc. rewrite (peek_one 0 (n mod 256)) by (lia || by rewrite Hc).
    cbn [obind]. change (negb (2 - 1 =? 0)) with true.
    rewrite (peek_one 1 (Z.shiftr n 8 mod 256)) by (lia || by rewrite Hc).
    cbn [obind]. f_equal. change (256 ^ 2) with 65536 in Hn.
    rewrite Z.shiftr_div_pow2 by lia. change (2 ^ 8) with 256. rewrite lor_bytes. lia.
Qed.

(** A record fits behind the contents, or is refused. *)
Lemma __kfifo_in_r_ok buf len :
  bytes buf -> 0 <= len <= Z.of_nat (length buf) ->
  if len + recsize >? mask f + 1 - kfifo_len f then __kfifo_in_r f buf len recsize = Ok (f, 0)
  else exists f', __kfifo_in_r f buf len recsize = Ok (f', len) /\ kfifo_wf f'
    /\ contents f' = contents f ++ len_field recsize len ++ take (Z.to_nat len) buf
    /\ mask f' = mask f /\ esize f' = esize f.
Proof using Hwf He Hrec.
  intros Hb Hl. unfold __kfifo_in_r. rewrite (wf_unused f Hwf).
  pose proof (wf_len_range f Hwf) as Hlr. case_if; [done|].
  rewrite poke_n_ok by lia. cbn [obind].
  set (f1 := set_data f (ring_put (data f) (pos f (f_in f)) (len_field recsize len))).
  pose proof (wf_data f Hwf) as Hd. rewrite He in Hd. pose proof (len_field_length len) as Hlf.
  assert (kfifo_wf f1) as Hwf1.
  { apply (wf_ring_put f Hwf); [apply len_field_bytes|apply (wf_pos_lt f Hwf)|lia]. }
  rewrite (copy_in_ok f1 Hwf1); change (esize f1) with (esize f); rewrite ?He;
    [|apply u32_is|change (mask f1) with (mask f); lia|lia].
  cbn [obind]. change (f_in f1) with (f_in f).
  change (pos f1 (u32 (f_in f + recsize))) with (pos f (u32 (f_in f + recsize))).
  rewrite (pos_add f Hwf) by lia. rewrite He, !Z.mul_1_r, <- Hlf, Nat2Z.id.
  change (data f1) with (ring_put (data f) (pos f (f_in f)) (len_field recsize len)).
  rewrite ring_put_app; [|apply (wf_pos_lt f Hwf)|rewrite length_take; lia].
  rewrite Hlf.
  destruct (put_ok f Hwf (len_field recsize len ++ take (Z.to_nat len) buf) (len + recsize)) as [Hwf' Hc].
  - apply Forall_app. split; [apply len_field_bytes|by apply Forall_take].
  - rewrite He, length_app, length_take. lia.
  - lia.
  - rewrite He, length_app, length_take. lia.
  - exists (set_in (set_data f (ring_put (data f) (pos f (f_in f))
      (len_field recsize len ++ take (Z.to_nat len) buf))) (f_in f + (len + recsize))).
    split; [done|]. split; [exact Hwf'|]. split; [|done]. rewrite Hc. f_equal. apply take_ge.
    rewrite He, length_app, length_take. lia.
Qed.

(** Length and bytes of the record at the front. *)
Lemma out_copy_ok r rest len :
  contents f = encode recsize r ++ rest -> Z.of_nat (length r) < 256 ^ recsize -> 0 <= len ->
  kfifo_out_copy_r f len recsize
  = Ok (take (Z.to_nat len) r, Z.min len (Z.of_nat (length r)), Z.of_nat (length r)).
Proof using Hwf He Hrec.
  intros Hc Hr Hl. unfold kfifo_out_copy_r, encode in *. rewrite <- app_assoc in Hc.
  rewrite (peek_n_ok (Z.of_nat (length r)) (r ++ rest)) by (done || lia). cbn [obind].
  pose proof length_len as Hlen. rewrite Hc, !length_app in Hlen.
  pose proof (len_field_length (Z.of_nat (length r))) as Hlf.
  set (m := if len >? Z.of_nat (length r) then _ else _).
  assert (m = Z.min len (Z.of_nat (length r))) as -> by (unfold m; case_if; lia).
  rewrite (read_ok f Hwf) by lia. cbn [obind]. rewrite He, !Z.mul_1_r, Hc.
  do 3 f_equal.
  replace (Z.to_nat recsize) with (length (len_field recsize (Z.of_nat (length r)))) by lia.
  rewrite drop_app_length, take_app_le by lia.
  destruct (decide (len <= Z.of_nat (length r))); [by rewrite Z.min_l by lia|].
  by rewrite !take_ge by lia.
Qed.

Lemma record_not_empty r rest :
  contents f = encode recsize r ++ rest -> (f_in f =? f_out f) = false.
Proof using Hwf He Hrec.
  intros Hc. pose proof (wf_empty f Hwf) as He'. unfold kfifo_is_empty in He'. rewrite He'.
  pose proof length_len as Hlen. rewrite Hc in Hlen. unfold encode in Hlen.
  rewrite !length_app in Hlen. pose proof (len_field_length (Z.of_nat (length r))).
  apply Z.eqb_neq. lia.
Qed.

(** The front record gone. *)
Lemma drop_record r rest :
  contents f = encode recsize r ++ rest ->
  let f' := set_out f (f_out f + (Z.of_nat (length r) + recsize)) in
  kfifo_wf f' /\ contents f' = rest.
Proof using Hwf He Hrec.
  intros Hc f'. pose proof length_len as Hlen. rewrite Hc in Hlen. unfold encode in *.
  rewrite !length_app in Hlen. pose proof (len_field_length (Z.of_nat (length r))) as Hlf.
  destruct (drop_ok f Hwf (Z.of_nat (length r) + recsize)) as [Hwf' Hc']; [lia|].
  split; [exact Hwf'|]. unfold f'. rewrite Hc', Hc, He. apply drop_app_length'.
  rewrite length_app. lia.
Qed.

Lemma __kfifo_out_r_ok r rest len :
  contents f = encode recsize r ++ rest -> Z.of_nat (length r) < 256 ^ recsize -> 0 <= len ->
  exists f', __kfifo_out_r f len recsize = Ok (f', take (Z.to_nat len) r, Z.min len (Z.of_nat (length r)))
    /\ kfifo_wf f' /\ contents f' = rest /\ mask f' = mask f /\ esize f' = esize f.
Proof using Hwf He Hrec.
  intros Hc Hr Hl. unfold __kfifo_out_r. rewrite (record_not_empty r rest Hc).
  rewrite (out_copy_ok r rest) by done. cbn [obind].
  destruct (drop_record r rest Hc) as [Hwf' Hc']. by eexists.
Qed.

Lemma __kfifo_out_peek_r_ok r rest len :
  contents f = encode recsize r ++ rest -> Z.of_nat (length r) < 256 ^ recsize -> 0 <= len ->
  __kfifo_out_peek_r f len recsize = Ok (take (Z.to_nat len) r, Z.min len (Z.of_nat (length r))).
Proof using Hwf He Hrec.
  intros Hc Hr Hl. unfold __kfifo_out_peek_r. rewrite (record_not_empty r rest Hc).
  by rewrite (out_copy_ok r rest) by done.
Qed.

Lemma __kfifo_skip_r_ok r rest :
  contents f = encode recsize r ++ rest -> Z.of_nat (length r) < 256 ^ recsize ->
  exists f', __kfifo_skip_r f recsize = Ok f' /\ kfifo_wf f' /\ contents f' = rest
    /\ mask f' = mask f /\ esize f' = esize f.
Proof using Hwf He Hrec.
  intros Hc Hr. unfold __kfifo_skip_r. destruct (drop_record r rest Hc) as [Hwf' Hc'].
  unfold encode in Hc. rewrite <- app_assoc in Hc.
  rewrite (peek_n_ok (Z.of_nat (length r)) (r ++ rest)) by (done || lia). cbn [obind]. by eexists.
Qed.

(** From user space: a record is added whole or, on a fault, not at all. *)
Lemma __kfifo_from_user_r_ok ubuf len :
  bytes ubuf -> 0 <= len <= U64_MAX ->
  let L := __kfifo_max_r (u32 len) recsize in
  if L + recsize >? mask f + 1 - kfifo_len f then __kfifo_from_user_r f ubuf len recsize = Ok (f, 0, 0)
  else exists f',
    __kfifo_from_user_r f ubuf len recsize
      = Ok (f', if Z.of_nat (length ubuf) <? L then - EFAULT else 0,
            if Z.of_nat (length ubuf) <? L then 0 else L)
    /\ kfifo_wf f' /\ mask f' = mask f /\ esize f' = esize f
    /\ contents f' = contents f ++ (if Z.of_nat (length ubuf) <? L then []
                                    else len_field recsize L ++ take (Z.to_nat L) ubuf).
Proof using Hwf He Hrec.
  intros Hb Hl L. unfold __kfifo_from_user_r. fold L.
  assert (0 <= L) as HL0.
  { unfold L, __kfifo_max_r. pose proof (u32_is len) as [? _].
    case_if; [apply u32_is|done]. }
  clearbody L. rewrite (wf_unused f Hwf).
  pose proof (wf_len_range f Hwf) as Hlr. case_if; [done|].
  rewrite poke_n_ok by lia. cbn [obind].
  set (f1 := set_data f (ring_put (data f) (pos f (f_in f)) (len_field recsize L))).
  pose proof (wf_data f Hwf) as Hd. rewrite He in Hd. pose proof (len_field_length L) as Hlf.
  assert (kfifo_wf f1) as Hwf1.
  { apply (wf_ring_put f Hwf); [apply len_field_bytes|apply (wf_pos_lt f Hwf)|lia]. }
  destruct (copy_from_user_ok f1 Hwf1 ubuf L (u32 (f_in f1 + recsize))) as (k & Hrun & Hk);
    [apply u32_is|change (mask f1) with (mask f); lia|done|].
  rewrite Hrun. cbn [obind]. change (esize f1) with (esize f) in *. rewrite He, Z.mul_1_r in *.
  change (f_in f1) with (f_in f). change (set_data f1 ?d) with (set_data f d).
  change (pos f1 (u32 (f_in f + recsize))) with (pos f (u32 (f_in f + recsize))).
  rewrite (pos_add f Hwf) by lia. rewrite He, !Z.mul_1_r.
  replace (Z.to_nat recsize) with (length (len_field recsize L)) by lia.
  change (data f1) with (ring_put (data f) (pos f (f_in f)) (len_field recsize L)).
  rewrite ring_put_app; [|apply (wf_pos_lt f Hwf)|rewrite padded_length; lia].
  set (b := len_field recsize L ++ padded ubuf k).
  assert (bytes b) as Hbb by (apply Forall_app; split; [apply len_field_bytes|by apply padded_bytes]).
  assert (Z.of_nat (length b) = recsize + Z.of_nat k) as Hbl.
  { unfold b. rewrite length_app, padded_length. lia. }
  destruct (Z.ltb_spec (Z.of_nat (length ubuf)) L) as [Hlt|Hge].
  - rewrite (proj2 (Z.eqb_neq _ _)) by (apply missing_pos; lia). cbn [negb].
    destruct (put_ok f Hwf b 0) as [Hwf' Hc']; [done|rewrite He; lia|lia|rewrite He; lia|].
    rewrite Z.add_0_r, set_in_same in Hwf', Hc' by apply (wf_in f Hwf).
    eexists. split; [done|]. split; [exact Hwf'|]. split; [done|]. split; [done|]. exact Hc'.
  - rewrite missing_zero by lia. cbn [negb Z.eqb].
    destruct (put_ok f Hwf b (L + recsize)) as [Hwf' Hc'];
      [done|rewrite He; lia|lia|rewrite He; lia|].
    exists (set_in (set_data f (ring_put (data f) (pos f (f_in f)) b)) (f_in f + (L + recsize))).
    split; [by rewrite Z.sub_0_r|]. split; [exact Hwf'|]. split; [done|]. split; [done|]. rewrite Hc'. f_equal.
    rewrite He, take_ge by lia. unfold b. f_equal. unfold padded.
    replace (k - length ubuf)%nat with 0%nat by lia. cbn [replicate]. rewrite app_nil_r.
    f_equal. lia.
Qed.

Lemma __kfifo_to_user_r_ok r rest room len :
  contents f = encode recsize r ++ rest -> Z.of_nat (length r) < 256 ^ recsize ->
  0 <= len <= U64_MAX ->
  let L := Z.min len (Z.of_nat (length r)) in
  exists f', __kfifo_to_user_r f (Z.of_nat room) len recsize
      = Ok (f', take room (take (Z.to_nat L) r), if Z.of_nat room <? L then - EFAULT else 0,
            if Z.of_nat room <? L then 0 else L)
    /\ kfifo_wf f' /\ mask f' = mask f /\ esize f' = esize f
    /\ contents f' = if Z.of_nat room <? L then contents f else rest.
Proof using Hwf He Hrec.
  intros Hc Hr Hl L. unfold __kfifo_to_user_r. rewrite (record_not_empty r rest Hc).
  destruct (drop_record r rest Hc) as [Hwf' Hc'].
  pose proof Hc as Hc2. unfold encode in Hc2. rewrite <- app_assoc in Hc2.
  rewrite (peek_n_ok (Z.of_nat (length r)) (r ++ rest)) by (done || lia). cbn [obind].
  pose proof length_len as Hlen. rewrite Hc2, !length_app in Hlen.
  pose proof (len_field_length (Z.of_nat (length r))) as Hlf.
  set (m := if len >? Z.of_nat (length r) then _ else _).
  assert (m = L) as -> by (unfold m, L; case_if; lia).
  rewrite (copy_to_user_ok f Hwf) by lia. cbn [obind]. rewrite He, !Z.mul_1_r, Hc2.
  replace (Z.to_nat recsize) with (length (len_field recsize (Z.of_nat (length r)))) by lia.
  rewrite drop_app_length, (take_app_le r) by lia.
  destruct (Z.ltb_spec (Z.of_nat room) L) as [Hlt|Hge].
  - rewrite (proj2 (Z.eqb_neq _ _)) by (apply missing_pos; lia). cbn [negb]. exists f.
    by rewrite Hc2.
  - rewrite missing_zero by lia. cbn [negb Z.eqb]. rewrite Z.sub_0_r. by eexists.
Qed.

End Records.
