(* ===== verification/KfifoProps.v ===== *)
(** * Properties of the ring buffers

    Set up, the invariant under every sequence of operations, the refinement
    of a bounded queue, and the framing of records. *)

From S2P Require Import Prelude Kfifo KfifoOps KfifoRecords.

(** ** Set up *)

Lemma roundup_pow n :
  2 <= n <= 2147483648 ->
  exists k, 1 <= k <= 31 /\ roundup_pow_of_two n = Ok (2 ^ k) /\ n <= 2 ^ k < 2 * n.
Proof.
  intros Hn. unfold roundup_pow_of_two, fls_long. rewrite (u64_id (n - 1)) by ulia.
  rewrite (proj2 (Z.eqb_neq (n - 1) 0)) by lia.
  pose proof (Z.log2_spec (n - 1) ltac:(lia)) as [Hlo Hhi]. rewrite <- Z.add_1_r in Hhi.
  assert (0 <= Z.log2 (n - 1)) by apply Z.log2_nonneg.
  assert (Z.log2 (n - 1) < 31) by (apply Z.log2_lt_pow2; lia).
  exists (Z.log2 (n - 1) + 1). split; [lia|].
  rewrite Z.pow_add_r in * by lia. change (2 ^ 1) with 2 in *.
  split; [|lia]. rewrite Z.geb_leb, (proj2 (Z.leb_gt _ _)) by lia.
  rewrite Z.shiftl_mul_pow2, Z.mul_1_l, Z.pow_add_r by lia.
  change (2 ^ 1) with 2. by rewrite u64_id by ulia.
Qed.

(** What the allocator is documented to give: that many bytes. *)
Definition kmalloc_ok (kmalloc : Z -> option (list Z)) : Prop :=
  forall n mem, kmalloc n = Some mem -> Z.of_nat (length mem) = n /\ bytes mem.

Lemma kfifo_fresh_wf k e mem :
  1 <= k <= 31 -> 0 < e -> 2 ^ k * e <= U32_MAX -> Z.of_nat (length mem) = 2 ^ k * e -> bytes mem ->
  let f := Kfifo 0 0 (2 ^ k - 1) e mem in
  kfifo_wf f /\ contents f = [] /\ kfifo_size f = 2 ^ k.
Proof.
  intros Hk He Hfit Hlen Hb f. unfold f.
  assert (2 ^ k <= 2 ^ 31) as Hle by (apply Z.pow_le_mono_r; lia).
  assert (0 < 2 ^ k) by (apply Z.pow_pos_nonneg; lia). change (2 ^ 31) with 2147483648 in Hle.
  split; [|split].
  - split; cbn [f_in f_out mask esize data]; try done; try lia.
    + by exists k.
    + unfold kfifo_len. cbn [f_in f_out]. change (u32 (0 - 0)) with 0. lia.
  - unfold contents, kfifo_len. cbn [f_in f_out esize]. change (u32 (0 - 0)) with 0. done.
  - unfold kfifo_size. cbn [mask]. rewrite u32_id by ulia. lia.
Qed.

Lemma alloc_errors kmalloc size e :
  size = 1 \/ 2147483648 < size <= U32_MAX ->
  __kfifo_alloc kmalloc size e = Ok (Kfifo 0 0 0 (u32 e) [], - EINVAL).
Proof.
  intros [->|Hs]; unfold __kfifo_alloc; [done|].
  assert (roundup_pow_of_two size = Ok 4294967296) as ->; [|done].
  unfold roundup_pow_of_two, fls_long. rewrite (u64_id (size - 1)) by ulia.
  rewrite (proj2 (Z.eqb_neq (size - 1) 0)) by lia.
  rewrite (Z.log2_unique (size - 1) 31) by (unfold U32_MAX in *; lia). done.
Qed.

(** C31. Allocation of a fifo of elements of [e] bytes, for every [size] an
    unsigned int can hold.  For 0 the rounding is undefined.  1, and a size
    above 2^31, are refused with -EINVAL.  Otherwise the capacity is the least
    power of two that is not below the request: a failed allocation of that
    many elements gives -ENOMEM, and with the memory the fifo is empty, has
    that capacity and, as long as its bytes can be counted in an unsigned int,
    is well formed. *)
Theorem kfifo_alloc_correct kmalloc size e :
  kmalloc_ok kmalloc -> 0 <= size <= U32_MAX -> 0 < e <= U32_MAX ->
  (size = 0 /\ __kfifo_alloc kmalloc size e = Bug)
  \/ ((size = 1 \/ 2147483648 < size) /\ __kfifo_alloc kmalloc size e = Ok (Kfifo 0 0 0 e [], - EINVAL))
  \/ exists k, 2 <= size <= 2147483648 /\ size <= 2 ^ k < 2 * size
     /\ match kmalloc (2 ^ k * e) with
        | None => __kfifo_alloc kmalloc size e = Ok (Kfifo 0 0 0 e [], - ENOMEM)
        | Some mem => exists f, __kfifo_alloc kmalloc size e = Ok (f, 0)
            /\ data f = mem /\ esize f = e /\ kfifo_size f = 2 ^ k /\ contents f = []
            /\ (2 ^ k * e <= U32_MAX -> kfifo_wf f)
        end.
Proof.
  intros Hkm Hs He. destruct (decide (size = 0)) as [->|H0]; [by left|right].
  destruct (decide (2 <= size <= 2147483648)) as [Hr|Hr]; cycle 1.
  { left. split; [lia|]. rewrite alloc_errors by lia. by rewrite (u32_id e) by ulia. }
  right. destruct (roundup_pow size Hr) as (k & Hk & Hru & Hb). exists k. split; [done|]. split; [done|].
  unfold __kfifo_alloc. rewrite Hru. cbn [obind].
  assert (2 ^ k <= 2 ^ 31) as Hle by (apply Z.pow_le_mono_r; lia). change (2 ^ 31) with 2147483648 in Hle.
  rewrite (u32_id (2 ^ k)) by ulia. rewrite (proj2 (Z.ltb_ge (2 ^ k) 2)) by lia.
  rewrite (u64_id (2 ^ k * e)) by (unfold U64_MAX, U32_MAX in *; nia).
  rewrite (u32_id (2 ^ k - 1)), (u32_id e) by ulia.
  destruct (kmalloc (2 ^ k * e)) as [mem|] eqn:Hm; [|done].
  eexists. split; [done|]. destruct (Hkm _ _ Hm) as [Hlen Hby]. cbn [data esize].
  split; [done|]. split; [done|]. split; [unfold kfifo_size; cbn [mask]; rewrite u32_id by ulia; lia|].
  split; [unfold contents, kfifo_len; cbn [f_in f_out esize]; by change (u32 (0 - 0)) with 0|].
  intros Hfit. by apply (kfifo_fresh_wf k e mem Hk ltac:(lia) Hfit Hlen Hby).
Qed.

Definition zero_alloc (n : Z) : option (list Z) :=
  if n <? 0 then None else Some (replicate (Z.to_nat n) 0).

Lemma zero_alloc_ok : kmalloc_ok zero_alloc.
Proof.
  intros n mem. unfold zero_alloc. case_if; [done|]. intros [= <-].
  split; [rewrite length_replicate; lia|by apply Forall_replicate].
Qed.

(** Five elements of two bytes: a fifo of eight. *)
Lemma kfifo_alloc_correct_witness :
  exists f, __kfifo_alloc zero_alloc 5 2 = Ok (f, 0) /\ kfifo_size f = 8 /\ kfifo_wf f.
Proof.
  destruct (kfifo_alloc_correct zero_alloc 5 2 zero_alloc_ok ltac:(unfold U32_MAX; lia) ltac:(unfold U32_MAX; lia))
    as [[H _]|[[H _]|(k & _ & Hk & H)]]; [lia|lia|].
  assert (k = 3) as ->.
  { destruct (Z.lt_ge_cases k 0); [rewrite Z.pow_neg_r in Hk by lia; lia|].
    assert (2 < k) by (apply (Z.pow_lt_mono_r_iff 2 2 k); lia).
    assert (k < 4) by (apply (Z.pow_lt_mono_r_iff 2 k 4); lia). lia. }
  change (zero_alloc (2 ^ 3 * 2)) with (Some (replicate 16 0)) in H. destruct H as (f & E & _ & _ & Hs & _ & Hw).
  exists f. split; [exact E|]. split; [exact Hs|]. apply Hw. unfold U32_MAX. lia.
Defined.

(** A buffer of six bytes handed to [__kfifo_init]: the size is rounded up, and
    a write the fifo accepts runs over the end of the buffer. *)
Example kfifo_init_overruns :
  exists f, __kfifo_init (replicate 6 0) 6 1 = Ok (f, 0)
    /\ kfifo_size f = 8 /\ __kfifo_in f (replicate 8 1) 8 = Bug.
Proof. eexists. split; [vm_compute; reflexivity|]. vm_compute. done. Qed.

(** ** Sequences of operations *)

Inductive kop :=
| KIn (buf : list Z) (len : Z)
| KOut (len : Z)
| KPeek (len : Z)
| KFromUser (ubuf : list Z) (len : Z)
| KToUser (room : nat) (len : Z)
| KReset
| KResetOut.

(** The arguments the caller owes: a buffer as long as it says. *)
Definition kop_ok (e : Z) (o : kop) : Prop :=
  match o with
  | KIn buf len => bytes buf /\ 0 <= len /\ len * e <= Z.of_nat (length buf)
  | KOut len | KPeek len => 0 <= len
  | KFromUser ubuf len => bytes ubuf /\ 0 <= len <= U64_MAX
  | KToUser _ len => 0 <= len <= U64_MAX
  | KReset | KResetOut => True
  end.

(** The bytes delivered, the value returned, and [*copied]. *)
Definition kfifo_step (f : __kfifo) (o : kop) : outcome (__kfifo * (list Z * Z * Z)) :=
  match o with
  | KIn buf len => let! (f, r) := __kfifo_in f buf len in Ok (f, ([], r, 0))
  | KOut len => let! (f, b, r) := __kfifo_out f len in Ok (f, (b, r, 0))
  | KPeek len => let! (b, r) := __kfifo_out_peek f len in Ok (f, (b, r, 0))
  | KFromUser ubuf len => let! (f, err, c) := __kfifo_from_user f ubuf len in Ok (f, ([], err, c))
  | KToUser room len =>
      let! (f, b, err, c) := __kfifo_to_user f (Z.of_nat room) len in Ok (f, (b, err, c))
  | KReset => Ok (kfifo_reset f, ([], 0, 0))
  | KResetOut => Ok (kfifo_reset_out f, ([], 0, 0))
  end.

Fixpoint kfifo_run (f : __kfifo) (ops : list kop) : outcome (__kfifo * list (list Z * Z * Z)) :=
  match ops with
  | [] => Ok (f, [])
  | o :: ops =>
      let! (f, out) := kfifo_step f o in
      let! (f, outs) := kfifo_run f ops in
      Ok (f, out :: outs)
  end.

(** The specification: a queue of bytes with room for [cap] elements of [e]
    bytes, which moves whole elements. *)
Definition queue_step (cap e : Z) (q : list Z) (o : kop) : list Z * (list Z * Z * Z) :=
  let n := Z.of_nat (length q) / e in
  match o with
  | KIn buf len =>
      let r := Z.min len (cap - n) in (q ++ take (Z.to_nat (r * e)) buf, ([], r, 0))
  | KOut len =>
      let r := Z.min len n in
      (drop (Z.to_nat (r * e)) q, (take (Z.to_nat (r * e)) q, r, 0))
  | KPeek len => let r := Z.min len n in (q, (take (Z.to_nat (r * e)) q, r, 0))
  | KFromUser ubuf len =>
      let want := Z.min (len / e) (cap - n) in
      let got := Z.min want (Z.of_nat (length ubuf) / e) in
      (q ++ take (Z.to_nat (got * e)) ubuf,
       ([], if Z.of_nat (length ubuf) <? want * e then - EFAULT else 0, got * e))
  | KToUser room len =>
      let want := Z.min (len / e) n in
      let got := Z.min want (Z.of_nat room / e) in
      (drop (Z.to_nat (got * e)) q,
       (take room (take (Z.to_nat (want * e)) q),
        if Z.of_nat room <? want * e then - EFAULT else 0, got * e))
  | KReset | KResetOut => ([], ([], 0, 0))
  end.

Fixpoint queue_run (cap e : Z) (q : list Z) (ops : list kop) : list Z * list (list Z * Z * Z) :=
  match ops with
  | [] => (q, [])
  | o :: ops =>
      let '(q, out) := queue_step cap e q o in
      let '(q, outs) := queue_run cap e q ops in
      (q, out :: outs)
  end.

Lemma reset_wf f x :
  kfifo_wf f -> is_u32 x ->
  let f' := Kfifo x x (mask f) (esize f) (data f) in kfifo_wf f' /\ contents f' = [].
Proof.
  intros Hwf Hx f'. pose proof (wf_size_range f Hwf).
  assert (kfifo_len f' = 0) as Hl by (unfold kfifo_len, f'; cbn [f_in f_out]; by rewrite Z.sub_diag).
  split; [destruct Hwf; split; try done; rewrite Hl; cbn; lia|].
  unfold contents. by rewrite Hl.
Qed.

(** One operation against the specification. *)
Lemma kfifo_step_ok f o :
  kfifo_wf f -> kop_ok (esize f) o ->
  exists f', kfifo_step f o = Ok (f', (queue_step (mask f + 1) (esize f) (contents f) o).2)
    /\ kfifo_wf f' /\ contents f' = (queue_step (mask f + 1) (esize f) (contents f) o).1
    /\ mask f' = mask f /\ esize f' = esize f.
Proof.
  intros Hwf Ho. pose proof (wf_esize f Hwf) as He.
  assert (Z.of_nat (length (contents f)) / esize f = kfifo_len f) as Hn.
  { rewrite (contents_length f Hwf). apply Z.div_mul. lia. }
  destruct o as [buf len|len|len|ubuf len|room len| |];
    cbn [kfifo_step queue_step fst snd kop_ok] in *; rewrite ?Hn.
  - destruct Ho as (Hb & Hl & Hlb).
    destruct (__kfifo_in_ok f Hwf buf len Hb Hl Hlb) as (f' & r & -> & ? & -> & ? & ?). by exists f'.
  - destruct (__kfifo_out_ok f Hwf len Ho) as (f' & b & r & -> & ? & -> & -> & ? & ?). by exists f'.
  - rewrite (__kfifo_out_peek_ok f Hwf) by done. by exists f.
  - destruct Ho as [Hb Hl].
    destruct (__kfifo_from_user_ok f Hwf ubuf len Hl Hb) as (f' & -> & ? & ? & ?). by exists f'.
  - destruct (__kfifo_to_user_ok f Hwf room len Ho) as (f' & -> & ? & ? & ?). by exists f'.
  - destruct (reset_wf f 0 Hwf) as [? ?]; [done|]. by exists (kfifo_reset f).
  - destruct (reset_wf f (f_in f) Hwf) as [? ?]; [apply (wf_in f Hwf)|]. by exists (kfifo_reset_out f).
Qed.

(** C30. The invariant of a fifo (the size a power of two and the buffer of
    that size, the indices 32-bit and at most the size apart) is kept by every
    operation: no sequence of operations makes a copy leave the buffer, or
    changes the shape of the fifo. *)
Theorem kfifo_run_type f ops :
  kfifo_wf f -> Forall (kop_ok (esize f)) ops ->
  exists f' outs, kfifo_run f ops = Ok (f', outs) /\ kfifo_wf f'
    /\ mask f' = mask f /\ esize f' = esize f /\ length (data f') = length (data f).
Proof.
  revert f. induction ops as [|o ops IH]; intros f Hwf Hok; [by exists f, []|].
  apply Forall_cons in Hok as [Ho Hok].
  destruct (kfifo_step_ok f o Hwf Ho) as (f1 & Hs & Hwf1 & _ & Hm & He).
  rewrite <- He in Hok. destruct (IH f1 Hwf1 Hok) as (f' & outs & Hr & Hwf' & Hm' & He' & Hd').
  eexists f', _. cbn [kfifo_run]. rewrite Hs. cbn [obind]. rewrite Hr. cbn [obind].
  split; [done|]. split; [done|]. split; [by rewrite Hm'|]. split; [by rewrite He'|].
  pose proof (wf_data f Hwf) as D. pose proof (wf_data f' Hwf') as D'.
  rewrite Hm', He', Hm, He in D'. lia.
Qed.

Ltac byte_list := repeat (apply Forall_cons; split; [lia|]); apply Forall_nil; exact I.

(** A fifo of two elements near the wrap-around of its indices. *)
Definition wrap_fifo : __kfifo := Kfifo 1 4294967295 1 1 [7; 8].

Lemma wrap_fifo_wf : kfifo_wf wrap_fifo.
Proof.
  split; try done; [by exists 1|cbn; byte_list].
Qed.

Lemma kfifo_run_type_witness :
  exists f' outs, kfifo_run wrap_fifo [KOut 1; KIn [9; 9] 2; KOut 5] = Ok (f', outs) /\ kfifo_wf f'.
Proof.
  destruct (kfifo_run_type wrap_fifo [KOut 1; KIn [9; 9] 2; KOut 5] wrap_fifo_wf)
    as (f' & outs & Hr & Hw & _).
  - apply Forall_cons; split; [cbn; lia|]. apply Forall_cons; split; [split; [byte_list|cbn; lia]|].
    apply Forall_cons; split; [cbn; lia|]. apply Forall_nil; exact I.
  - exists f', outs. split; [exact Hr|exact Hw].
Defined.

(** C29. A fifo is a bounded queue: for every sequence of operations, across
    the wrap-around of the indices and of the buffer, everything the fifo
    returns and delivers is what the queue of bytes returns and delivers, and
    what remains in it is what remains in the queue. *)
Theorem kfifo_refines_queue f ops :
  kfifo_wf f -> Forall (kop_ok (esize f)) ops ->
  exists f', kfifo_run f ops = Ok (f', (queue_run (mask f + 1) (esize f) (contents f) ops).2)
    /\ contents f' = (queue_run (mask f + 1) (esize f) (contents f) ops).1.
Proof.
  revert f. induction ops as [|o ops IH]; intros f Hwf Hok; [by exists f|].
  apply Forall_cons in Hok as [Ho Hok].
  destruct (kfifo_step_ok f o Hwf Ho) as (f1 & Hs & Hwf1 & Hc & Hm & He).
  rewrite <- He in Hok. destruct (IH f1 Hwf1 Hok) as (f' & Hr & Hc').
  exists f'. cbn [kfifo_run queue_run]. rewrite Hs. cbn [obind]. rewrite Hr. cbn [obind].
  rewrite Hm, He, Hc in *.
  destruct (queue_step (mask f + 1) (esize f) (contents f) o) as [q1 out1]. cbn [fst snd] in *.
  destruct (queue_run (mask f + 1) (esize f) q1 ops) as [q2 outs]. done.
Qed.

Lemma kfifo_refines_queue_witness :
  exists f', kfifo_run wrap_fifo [KOut 1; KIn [9; 9] 2; KOut 5]
    = Ok (f', (queue_run 2 1 (contents wrap_fifo) [KOut 1; KIn [9; 9] 2; KOut 5]).2).
Proof.
  destruct (kfifo_refines_queue wrap_fifo [KOut 1; KIn [9; 9] 2; KOut 5] wrap_fifo_wf) as (f' & Hr & _).
  - apply Forall_cons; split; [cbn; lia|]. apply Forall_cons; split; [split; [byte_list|cbn; lia]|].
    apply Forall_cons; split; [cbn; lia|]. apply Forall_nil; exact I.
  - exists f'. exact Hr.
Defined.

(** ** Records *)

(** Records come back as they were put in: a record that fits is added
    behind the others and a record that does not fit changes nothing; taking
    one out delivers the oldest, cut to the reader's length, and leaves the
    others. *)
Theorem kfifo_records_roundtrip f recsize rs :
  kfifo_wf f -> esize f = 1 -> recsize = 1 \/ recsize = 2 -> holds f recsize rs ->
  (forall r, bytes r -> Z.of_nat (length r) < 256 ^ recsize ->
     exists f', __kfifo_in_r f r (Z.of_nat (length r)) recsize
         = Ok (f', if Z.of_nat (length r) + recsize >? mask f + 1 - kfifo_len f then 0
                   else Z.of_nat (length r))
       /\ kfifo_wf f'
       /\ holds f' recsize (if Z.of_nat (length r) + recsize >? mask f + 1 - kfifo_len f then rs
                            else rs ++ [r]))
  /\ (forall len, 0 <= len ->
        match rs with
        | [] => __kfifo_out_r f len recsize = Ok (f, [], 0)
        | r :: rs' =>
            exists f', __kfifo_out_r f len recsize
                = Ok (f', take (Z.to_nat len) r, Z.min len (Z.of_nat (length r)))
              /\ kfifo_wf f' /\ holds f' recsize rs'
        end).
Proof.
  intros Hwf He Hrec [Hc Hshort]. split.
  - intros r Hb Hr. pose proof (__kfifo_in_r_ok f Hwf He recsize Hrec r (Z.of_nat (length r)) Hb) as Hin.
    specialize (Hin ltac:(lia)). destruct (_ >? _).
    + by exists f.
    + destruct Hin as (f' & -> & Hwf' & Hc' & _). exists f'. split; [done|]. split; [done|]. split.
      * rewrite Hc', Hc, Nat2Z.id, firstn_all, fmap_app, concat_app. cbn. by rewrite app_nil_r.
      * apply Forall_app. by split; [|constructor].
  - intros len Hl. destruct rs as [|r rs].
    + unfold __kfifo_out_r. pose proof (wf_empty f Hwf) as Hem. unfold kfifo_is_empty in Hem.
      rewrite Hem. pose proof (contents_length f Hwf) as Hcl. rewrite Hc, He in Hcl. cbn in Hcl.
      by rewrite (proj2 (Z.eqb_eq _ 0)) by lia.
    + apply Forall_cons in Hshort as [Hr Hshort]. cbn in Hc.
      destruct (__kfifo_out_r_ok f Hwf He recsize Hrec r _ len Hc Hr Hl) as (f' & -> & Hwf' & Hc' & _).
      exists f'. split; [done|]. split; [done|]. by split.
Qed.

(** A byte fifo that holds the record [5; 6]. *)
Definition record_fifo : __kfifo := Kfifo 3 0 7 1 [2; 5; 6; 0; 0; 0; 0; 0].

Lemma kfifo_records_roundtrip_witness :
  exists f', __kfifo_out_r record_fifo 4 1 = Ok (f', [5; 6], 2) /\ holds f' 1 [].
Proof.
  destruct (kfifo_records_roundtrip record_fifo 1 [[5; 6]]) as [_ Hout].
  - split; try done; [by exists 3|cbn; byte_list].
  - reflexivity.
  - left. reflexivity.
  - split; [reflexivity|repeat constructor].
  - destruct (Hout 4 ltac:(lia)) as (f' & Hr & _ & Hh). exists f'. split; [exact Hr|exact Hh].
Defined.

(** A record of 256 bytes behind a length of one byte: it is accepted, and
    read back as an empty record, with its bytes left in the way of the next. *)
Example kfifo_long_record_lost :
  (let! (f, r) := __kfifo_in_r (Kfifo 0 0 511 1 (replicate 512 0)) (replicate 256 7) 256 1 in
   let! (f, b, n) := __kfifo_out_r f 300 1 in
   Ok (r, b, n, kfifo_len f)) = Ok (256, [], 0, 256).
Proof. vm_compute. done. Qed.
