(* ===== verification/Rwsem.v ===== *)
(** * Reader/writer semaphores (kernel/locking/rwsem-spinlock.c)

    The generic implementation under a spinlock.  The parts of the functions
    that hold [wait_lock] are atomic; between them a task sleeps in the
    scheduler.  A waiter lives on the stack of its task, so its [task] field
    and the task's state are kept with the task. *)

From stdpp Require Import gmap list.
From S2P Require Import Prelude.

Abbreviation task := positive.

Inductive rwsem_waiter_type := RWSEM_WAITING_FOR_WRITE | RWSEM_WAITING_FOR_READ.

(** Where a task is: in the loop of [__down_read], with [waiter.task] cleared
    or not, in the loop of [__down_write_nested], each asleep or runnable; or
    back from them, with the lock. *)
Inductive position :=
| InRead (granted asleep : bool)
| InWrite (asleep : bool)
| HasRead
| HasWrite.

Record rw_semaphore := RwSem {
  rw_count : Z;
  rw_wait_list : list (task * rwsem_waiter_type);
  rw_tasks : gmap task position;
}.

Definition __init_rwsem : rw_semaphore := RwSem 0 [] ∅.

Definition rwsem_is_locked (sem : rw_semaphore) : bool := negb (rw_count sem =? 0).

Definition wake (p : position) : position :=
  match p with
  | InRead g _ => InRead g false
  | InWrite _ => InWrite false
  | p => p
  end.

Definition wake_up_process (t : task) (tasks : gmap task position) : gmap task position :=
  alter wake t tasks.

(** The [do ... while] of [__rwsem_do_wake]: the readers at the front are taken
    off the list, their [waiter.task] is cleared, and they are woken. *)
Fixpoint grant_readers (wl : list (task * rwsem_waiter_type)) (tasks : gmap task position)
    (woken : Z) : list (task * rwsem_waiter_type) * gmap task position * Z :=
  match wl with
  | [] => (wl, tasks, woken)
  | (t, _) :: next =>
      let tasks := wake_up_process t (<[t := InRead true true]> tasks) in
      let woken := woken + 1 in
      match next with
      | [] => (next, tasks, woken)
      | (_, RWSEM_WAITING_FOR_WRITE) :: _ => (next, tasks, woken)
      | (_, RWSEM_WAITING_FOR_READ) :: _ => grant_readers next tasks woken
      end
  end.

(** Called with a list that is not empty. *)
Definition __rwsem_do_wake (sem : rw_semaphore) (wakewrite : bool) : rw_semaphore :=
  match rw_wait_list sem with
  | [] => sem
  | (t, RWSEM_WAITING_FOR_WRITE) :: _ =>
      if wakewrite
      then RwSem (rw_count sem) (rw_wait_list sem) (wake_up_process t (rw_tasks sem))
      else sem
  | (_, RWSEM_WAITING_FOR_READ) :: _ =>
      let '(wl, tasks, woken) := grant_readers (rw_wait_list sem) (rw_tasks sem) 0 in
      RwSem (s32 (rw_count sem + woken)) wl tasks
  end.

Definition __rwsem_wake_one_writer (sem : rw_semaphore) : rw_semaphore :=
  match rw_wait_list sem with
  | [] => sem
  | (t, _) :: _ => RwSem (rw_count sem) (rw_wait_list sem) (wake_up_process t (rw_tasks sem))
  end.

Definition list_empty {A} (l : list A) : bool := match l with [] => true | _ => false end.

(** Up to the sleep, or to the return with the lock. *)
Definition __down_read (t : task) (sem : rw_semaphore) : rw_semaphore :=
  if (rw_count sem >=? 0) && list_empty (rw_wait_list sem) then
    RwSem (s32 (rw_count sem + 1)) (rw_wait_list sem) (<[t := HasRead]> (rw_tasks sem))
  else
    RwSem (rw_count sem) (rw_wait_list sem ++ [(t, RWSEM_WAITING_FOR_READ)])
      (<[t := InRead false true]> (rw_tasks sem)).

(** The scheduler returns to a reader. *)
Definition down_read_resume (t : task) (sem : rw_semaphore) : option rw_semaphore :=
  match rw_tasks sem !! t with
  | Some (InRead granted false) =>
      Some (RwSem (rw_count sem) (rw_wait_list sem)
              (<[t := if granted then HasRead else InRead false true]> (rw_tasks sem)))
  | _ => None
  end.

Definition __down_read_trylock (t : task) (sem : rw_semaphore) : Z * rw_semaphore :=
  if (rw_count sem >=? 0) && list_empty (rw_wait_list sem) then
    (1, RwSem (s32 (rw_count sem + 1)) (rw_wait_list sem) (<[t := HasRead]> (rw_tasks sem)))
  else (0, sem).

(** The loop of a writer, from its top to the next sleep or the return. *)
Definition write_loop (t : task) (sem : rw_semaphore) : rw_semaphore :=
  if rw_count sem =? 0 then
    RwSem (-1) (filter (fun w => w.1 <> t) (rw_wait_list sem)) (<[t := HasWrite]> (rw_tasks sem))
  else RwSem (rw_count sem) (rw_wait_list sem) (<[t := InWrite true]> (rw_tasks sem)).

Definition __down_write_nested (t : task) (sem : rw_semaphore) : rw_semaphore :=
  write_loop t
    (RwSem (rw_count sem) (rw_wait_list sem ++ [(t, RWSEM_WAITING_FOR_WRITE)]) (rw_tasks sem)).

Definition __down_write := __down_write_nested.

Definition down_write_resume (t : task) (sem : rw_semaphore) : option rw_semaphore :=
  match rw_tasks sem !! t with
  | Some (InWrite false) => Some (write_loop t sem)
  | _ => None
  end.

Definition __down_write_trylock (t : task) (sem : rw_semaphore) : Z * rw_semaphore :=
  if rw_count sem =? 0
  then (1, RwSem (-1) (rw_wait_list sem) (<[t := HasWrite]> (rw_tasks sem)))
  else (0, sem).

Definition __up_read (t : task) (sem : rw_semaphore) : rw_semaphore :=
  let sem := RwSem (s32 (rw_count sem - 1)) (rw_wait_list sem) (delete t (rw_tasks sem)) in
  if (rw_count sem =? 0) && negb (list_empty (rw_wait_list sem))
  then __rwsem_wake_one_writer sem else sem.

Definition __up_write (t : task) (sem : rw_semaphore) : rw_semaphore :=
  let sem := RwSem 0 (rw_wait_list sem) (delete t (rw_tasks sem)) in
  if negb (list_empty (rw_wait_list sem)) then __rwsem_do_wake sem true else sem.

Definition __downgrade_write (t : task) (sem : rw_semaphore) : rw_semaphore :=
  let sem := RwSem 1 (rw_wait_list sem) (<[t := HasRead]> (rw_tasks sem)) in
  if negb (list_empty (rw_wait_list sem)) then __rwsem_do_wake sem false else sem.

(** ** Executions *)

(** Tasks that are not in the semaphore call, tasks that have the lock release
    it, runnable tasks in the loops go on, and any task may be woken by
    something else. *)
Inductive rw_step : rw_semaphore -> rw_semaphore -> Prop :=
| step_down_read sem t : rw_tasks sem !! t = None -> rw_step sem (__down_read t sem)
| step_read_resume sem t sem' : down_read_resume t sem = Some sem' -> rw_step sem sem'
| step_read_try sem t : rw_tasks sem !! t = None -> rw_step sem (__down_read_trylock t sem).2
| step_down_write sem t : rw_tasks sem !! t = None -> rw_step sem (__down_write t sem)
| step_write_resume sem t sem' : down_write_resume t sem = Some sem' -> rw_step sem sem'
| step_write_try sem t : rw_tasks sem !! t = None -> rw_step sem (__down_write_trylock t sem).2
| step_up_read sem t : rw_tasks sem !! t = Some HasRead -> rw_step sem (__up_read t sem)
| step_up_write sem t : rw_tasks sem !! t = Some HasWrite -> rw_step sem (__up_write t sem)
| step_downgrade sem t : rw_tasks sem !! t = Some HasWrite -> rw_step sem (__downgrade_write t sem)
| step_spurious sem t :
    rw_step sem (RwSem (rw_count sem) (rw_wait_list sem) (wake_up_process t (rw_tasks sem))).

(** include/linux/threads.h: the number of tasks. *)
Definition PID_MAX_LIMIT : Z := 4194304.

Definition rw_bounded_step (sem sem' : rw_semaphore) : Prop :=
  rw_step sem sem' /\ Z.of_nat (size (rw_tasks sem')) <= PID_MAX_LIMIT.

Definition rw_reachable (sem : rw_semaphore) : Prop := rtc rw_bounded_step __init_rwsem sem.
