(* ===== verification/RwsemProps.v ===== *)
(** * Reader/writer semaphores: the invariant and the properties *)

From stdpp Require Import gmap list.
From S2P Require Import Prelude Rwsem.

(** A read lock counted in [count]: held, or granted to a task that has not
    run yet. *)
Definition share (p : position) : bool :=
  match p with HasRead | InRead true _ => true | _ => false end.

Definition shares (m : gmap task position) : Z :=
  Z.of_nat (size (filter (fun kp => share (snd kp) = true) m)).

Definition share_at (m : gmap task position) (t : task) : Z :=
  match m !! t with Some p => if share p then 1 else 0 | None => 0 end.

Lemma shares_split m t : shares m = shares (delete t m) + share_at m t.
Proof.
  unfold shares, share_at. rewrite map_filter_delete, map_size_delete.
  destruct (m !! t) as [p|] eqn:Hp.
  - destruct (share p) eqn:Hs.
    + rewrite (map_lookup_filter_Some_2 _ m t p) by done.
      assert (size (filter (fun kp => share (snd kp) = true) m) <> 0%nat); [|cbv iota; lia].
      apply map_size_non_empty_iff. intros He.
      assert (filter (fun kp => share (snd kp) = true) m !! t = Some p) as Hl
        by (by apply map_lookup_filter_Some_2).
      by rewrite He in Hl.
    + rewrite (map_lookup_filter_None_2 _ m t); [unfold id; lia|]. right. intros p' Hp'. cbn. congruence.
  - rewrite (map_lookup_filter_None_2 _ m t); [unfold id; lia|]. by left.
Qed.

Lemma shares_insert m t p : shares (<[t := p]> m) = shares m - share_at m t + (if share p then 1 else 0).
Proof.
  rewrite (shares_split (<[t := p]> m) t), (shares_split m t), delete_insert_eq.
  unfold share_at. rewrite lookup_insert_eq. lia.
Qed.

Lemma shares_delete m t : shares (delete t m) = shares m - share_at m t.
Proof. rewrite (shares_split m t). lia. Qed.

Lemma shares_wake m t : shares (wake_up_process t m) = shares m.
Proof.
  unfold wake_up_process. rewrite (shares_split (alter wake t m) t), (shares_split m t).
  assert (delete t (alter wake t m) = delete t m) as ->.
  { apply map_eq. intros u. destruct (decide (u = t)) as [->|Hne].
    - by rewrite !lookup_delete_eq.
    - by rewrite !lookup_delete_ne, lookup_alter_ne. }
  f_equal. unfold share_at. rewrite lookup_alter_eq. by destruct (m !! t) as [[[] ?|?| |]|].
Qed.

Lemma shares_nonneg m : 0 <= shares m.
Proof. unfold shares. lia. Qed.

Lemma shares_size m : shares m <= Z.of_nat (size m).
Proof. unfold shares. pose proof (map_size_filter (fun kp => share (snd kp) = true) m). lia. Qed.

Lemma shares_zero m t p : shares m = 0 -> m !! t = Some p -> share p = false.
Proof.
  intros H0 Hp. rewrite (shares_split m t) in H0. pose proof (shares_nonneg (delete t m)).
  unfold share_at in H0. rewrite Hp in H0. by destruct (share p); [lia|].
Qed.

(** A task in the list waits as its entry says. *)
Definition waits (ty : rwsem_waiter_type) (p : position) : Prop :=
  match ty with
  | RWSEM_WAITING_FOR_READ => exists b, p = InRead false b
  | RWSEM_WAITING_FOR_WRITE => exists b, p = InWrite b
  end.

Record rw_inv (sem : rw_semaphore) : Prop := {
  ri_count :
    (rw_count sem = -1 /\ shares (rw_tasks sem) = 0
     /\ exists w, forall t, rw_tasks sem !! t = Some HasWrite <-> t = w)
    \/ (rw_count sem = shares (rw_tasks sem) /\ forall t, rw_tasks sem !! t <> Some HasWrite);
  ri_nodup : NoDup (rw_wait_list sem).*1;
  ri_wait : forall t ty, (t, ty) ∈ rw_wait_list sem <-> exists p, rw_tasks sem !! t = Some p /\ waits ty p;
  ri_head : 0 <= rw_count sem -> forall t ty rest, rw_wait_list sem = (t, ty) :: rest ->
    ty = RWSEM_WAITING_FOR_WRITE /\ (rw_count sem = 0 -> rw_tasks sem !! t = Some (InWrite false));
}.

Lemma rw_inv_init : rw_inv __init_rwsem.
Proof.
  split; cbn.
  - right. split; [done|]. intros t. by rewrite lookup_empty.
  - constructor.
  - intros t ty. split; [set_solver|]. intros (p & Hp & _). by rewrite lookup_empty in Hp.
  - done.
Qed.

(** ** Waking *)

Lemma wake_waits ty p : waits ty (wake p) <-> waits ty p.
Proof.
  destruct ty, p as [[] b|b| |]; cbn; split; intros [? ?]; simplify_eq; eauto.
Qed.

Lemma wake_wait m t u ty :
  (exists p, wake_up_process t m !! u = Some p /\ waits ty p)
  <-> (exists p, m !! u = Some p /\ waits ty p).
Proof.
  unfold wake_up_process. destruct (decide (u = t)) as [->|Hne]; [|by rewrite lookup_alter_ne].
  rewrite lookup_alter_eq. destruct (m !! t) as [p|]; cbn; split; intros (q & ? & ?); simplify_eq.
  - exists p. split; [done|]. by apply wake_waits.
  - exists (wake q). split; [done|]. by apply wake_waits.
Qed.

Lemma wake_has_write m t u : wake_up_process t m !! u = Some HasWrite <-> m !! u = Some HasWrite.
Proof.
  unfold wake_up_process. destruct (decide (u = t)) as [->|Hne]; [|by rewrite lookup_alter_ne].
  rewrite lookup_alter_eq. destruct (m !! t) as [[]|]; cbn; split; congruence.
Qed.

Lemma wake_runnable m t u : m !! u = Some (InWrite false) -> wake_up_process t m !! u = Some (InWrite false).
Proof.
  unfold wake_up_process. destruct (decide (u = t)) as [->|Hne]; [|by rewrite lookup_alter_ne].
  rewrite lookup_alter_eq. by intros ->.
Qed.

Lemma wake_writer m t b : m !! t = Some (InWrite b) -> wake_up_process t m !! t = Some (InWrite false).
Proof. intros Ht. unfold wake_up_process. by rewrite lookup_alter_eq, Ht. Qed.

(** Waking anybody keeps the invariant. *)
Lemma wake_inv sem t :
  rw_inv sem -> rw_inv (RwSem (rw_count sem) (rw_wait_list sem) (wake_up_process t (rw_tasks sem))).
Proof.
  intros [Hc Hn Hw Hh]. split; cbn.
  - rewrite shares_wake. destruct Hc as [(? & ? & w & Hu)|[? Hu]].
    + left. split; [done|]. split; [done|]. exists w. intros u. by rewrite wake_has_write.
    + right. split; [done|]. intros u. by rewrite wake_has_write.
  - done.
  - intros u ty. by rewrite wake_wait.
  - intros H0 u ty rest Hl. destruct (Hh H0 u ty rest Hl) as [Hty Hrun]. split; [done|].
    intros Hz. apply wake_runnable. by apply Hrun.
Qed.

(** ** Granting *)

Lemma grant_one m t b :
  m !! t = Some (InRead false b) ->
  let m' := wake_up_process t (<[t := InRead true true]> m) in
  shares m' = shares m + 1
  /\ forall u, m' !! u = if decide (u = t) then Some (InRead true false) else m !! u.
Proof.
  intros Ht m'. unfold m'. split.
  - rewrite shares_wake, shares_insert. unfold share_at. rewrite Ht. cbn. lia.
  - intros u. unfold wake_up_process. case_decide as Hu.
    + subst u. by rewrite lookup_alter_eq, lookup_insert_eq.
    + by rewrite lookup_alter_ne, lookup_insert_ne.
Qed.

(** Behind the granted readers the list is empty or goes on with a writer. *)
Definition starts_with_writer (wl : list (task * rwsem_waiter_type)) : Prop :=
  forall t ty rest, wl = (t, ty) :: rest -> ty = RWSEM_WAITING_FOR_WRITE.

Lemma grant_readers_spec wl m woken t rest :
  wl = (t, RWSEM_WAITING_FOR_READ) :: rest -> NoDup wl.*1 ->
  (forall u ty, (u, ty) ∈ wl -> exists p, m !! u = Some p /\ waits ty p) ->
  exists pre post m', grant_readers wl m woken = (post, m', woken + Z.of_nat (length pre))
    /\ wl = pre ++ post /\ pre <> [] /\ Forall (fun w => w.2 = RWSEM_WAITING_FOR_READ) pre
    /\ starts_with_writer post
    /\ (forall u, m' !! u = if decide (u ∈ pre.*1) then Some (InRead true false) else m !! u)
    /\ shares m' = shares m + Z.of_nat (length pre).
Proof.
  revert m woken t rest. induction wl as [|[v ty] wl IH]; [done|].
  intros m woken t rest [= -> -> <-] Hnd Hw. cbn [fmap list_fmap fst] in Hnd.
  apply NoDup_cons in Hnd as [Hv Hnd].
  destruct (Hw t RWSEM_WAITING_FOR_READ) as (p & Hp & b & ->); [left|].
  destruct (grant_one m t b Hp) as [Hsh Hlk]. cbn [grant_readers].
  set (m1 := wake_up_process t (<[t := InRead true true]> m)) in *.
  assert (starts_with_writer wl -> exists pre post m', (wl, m1, woken + 1) = (post, m', woken + Z.of_nat (length pre))
    /\ (t, RWSEM_WAITING_FOR_READ) :: wl = pre ++ post /\ pre <> []
    /\ Forall (fun w => w.2 = RWSEM_WAITING_FOR_READ) pre /\ starts_with_writer post
    /\ (forall u, m' !! u = if decide (u ∈ pre.*1) then Some (InRead true false) else m !! u)
    /\ shares m' = shares m + Z.of_nat (length pre)) as Hstop.
  { intros Hsw. exists [(t, RWSEM_WAITING_FOR_READ)], wl, m1. split_and!; try done.
    - by constructor.
    - intros u. rewrite Hlk. cbn. repeat case_decide; try done; set_solver. }
  destruct wl as [|[v ty] wl]; [by apply Hstop|]. destruct ty.
  { apply Hstop. by intros ? ? ? [= <- <- <-]. }
  destruct (IH m1 (woken + 1) v wl eq_refl Hnd) as (pre & post & m' & Hg & Heq & Hne & Hfa & Hsw & Hlk' & Hsh').
  { intros u ty Hu. rewrite Hlk. case_decide as Hut; [|by apply Hw; right].
    subst u. destruct Hv. apply list_elem_of_fmap. by exists (t, ty). }
  exists ((t, RWSEM_WAITING_FOR_READ) :: pre), post, m'. rewrite Hg, Heq.
  split_and!; try done.
  - f_equal. cbn [length]. lia.
  - by constructor.
  - intros u. rewrite Hlk', Hlk. cbn. repeat case_decide; try done; set_solver.
  - cbn [length]. lia.
Qed.

(** ** The steps *)

(** The invariant without its last part, with a count that is the readers'. *)
Record rw_core (sem : rw_semaphore) : Prop := {
  rc_count : rw_count sem = shares (rw_tasks sem);
  rc_no_writer : forall t, rw_tasks sem !! t <> Some HasWrite;
  rc_nodup : NoDup (rw_wait_list sem).*1;
  rc_wait : forall t ty, (t, ty) ∈ rw_wait_list sem <-> exists p, rw_tasks sem !! t = Some p /\ waits ty p;
}.

Lemma core_inv sem :
  rw_core sem -> starts_with_writer (rw_wait_list sem) ->
  (rw_count sem = 0 -> forall t ty rest, rw_wait_list sem = (t, ty) :: rest ->
     rw_tasks sem !! t = Some (InWrite false)) -> rw_inv sem.
Proof.
  intros [Hc Hw Hn Hwt] Hs Hr. split; [by right|done|done|].
  intros _ t ty rest Hl. split; [by apply (Hs t ty rest)|]. intros H0. by apply (Hr H0 t ty rest).
Qed.

Definition small (sem : rw_semaphore) : Prop := Z.of_nat (size (rw_tasks sem)) <= PID_MAX_LIMIT.

Lemma s32_shares sem x : small sem -> x = shares (rw_tasks sem) -> s32 x = shares (rw_tasks sem).
Proof.
  intros Hs ->. unfold small, PID_MAX_LIMIT in Hs. pose proof (shares_size (rw_tasks sem)).
  pose proof (shares_nonneg (rw_tasks sem)). apply s32_id. lia.
Qed.

Lemma do_wake_inv sem wakewrite :
  rw_core sem -> wakewrite = true \/ rw_count sem <> 0 -> rw_wait_list sem <> [] ->
  small (__rwsem_do_wake sem wakewrite) -> rw_inv (__rwsem_do_wake sem wakewrite).
Proof.
  intros Hcore Hww Hne. pose proof Hcore as [Hc Hnw Hnd Hwt]. unfold __rwsem_do_wake.
  destruct (rw_wait_list sem) as [|[t ty] rest] eqn:Hl; [done|]. destruct ty.
  - intros _. destruct (proj1 (Hwt t RWSEM_WAITING_FOR_WRITE)) as (p & Hp & b & ->); [left|].
    destruct wakewrite.
    + apply core_inv; cbn.
      * split; cbn; [by rewrite shares_wake|intros u; by rewrite wake_has_write|done|].
        intros u ty. by rewrite wake_wait, <- Hwt.
      * by intros ? ? ? [= <- <- <-].
      * intros _ u ty rest' [= <- <- <-]. by apply (wake_writer _ _ b).
    + destruct Hww as [?|Hz]; [done|]. apply core_inv; [done| |done].
      rewrite Hl. by intros ? ? ? [= <- <- <-].
  - destruct (grant_readers_spec _ (rw_tasks sem) 0 t rest eq_refl Hnd) as
      (pre & post & m' & -> & Heq & Hpne & Hfa & Hsw & Hlk & Hsh).
    { intros u ty. apply Hwt. }
    intros Hsm.
    assert (s32 (rw_count sem + (0 + Z.of_nat (length pre))) = shares m') as Hcount.
    { apply (s32_shares (RwSem _ post m') _ Hsm). cbn. lia. }
    assert (forall u ty, (u, ty) ∈ pre -> ty = RWSEM_WAITING_FOR_READ) as Hpre.
    { intros u ty Hu. by apply (proj1 (Forall_forall _ _) Hfa) in Hu. }
    apply core_inv; cbn; [|done|].
    + rewrite Heq, fmap_app in Hnd. apply NoDup_app in Hnd as (_ & Hdis & Hnd').
      split; cbn; [done| |done|].
      * intros u. rewrite Hlk. case_decide; [done|apply Hnw].
      * intros u ty. rewrite Hlk. case_decide as Hu.
        -- split; [|by intros (q & [= <-] & Hq); destruct ty, Hq].
           intros Hin. destruct (Hdis u Hu). apply list_elem_of_fmap. by exists (u, ty).
        -- rewrite <- Hwt, Heq, elem_of_app. split; [by right|]. intros [Hin|?]; [|done].
           destruct Hu. apply list_elem_of_fmap. by exists (u, ty).
    + rewrite Hcount, Hsh. intros Hz. pose proof (shares_nonneg (rw_tasks sem)).
      destruct pre; [done|]. cbn in Hz. lia.
Qed.

Lemma inv_core sem : rw_inv sem -> 0 <= rw_count sem -> rw_core sem.
Proof. intros [[[Hm _]|[Hc Hw]] Hn Hwt _] H0; [lia|]. by split. Qed.

Lemma inv_count_ge sem : rw_inv sem -> -1 <= rw_count sem.
Proof. intros [[[-> _]|[-> _]] _ _ _]; [lia|]. pose proof (shares_nonneg (rw_tasks sem)). lia. Qed.

(** A task that is not in the list. *)
Lemma not_listed sem t :
  rw_inv sem -> (forall ty p, rw_tasks sem !! t = Some p -> ~ waits ty p) -> t ∉ (rw_wait_list sem).*1.
Proof.
  intros Hinv Ht [[u ty] [-> Hin]]%list_elem_of_fmap. apply (ri_wait _ Hinv) in Hin as (p & Hp & Hwp).
  by apply (Ht ty p).
Qed.

Lemma read_grant_inv sem t :
  rw_inv sem -> 0 <= rw_count sem -> rw_wait_list sem = [] -> rw_tasks sem !! t = None ->
  let sem' := RwSem (s32 (rw_count sem + 1)) (rw_wait_list sem) (<[t := HasRead]> (rw_tasks sem)) in
  small sem' -> rw_inv sem'.
Proof.
  intros Hinv H0 Hl Ht sem' Hsm. destruct (inv_core sem Hinv H0) as [Hc Hnw Hnd Hwt].
  assert (shares (<[t := HasRead]> (rw_tasks sem)) = rw_count sem + 1) as Hsh.
  { rewrite shares_insert. unfold share_at. rewrite Ht, Hc. cbn. lia. }
  apply core_inv; unfold sem' in *; cbn in *; rewrite ?Hl; [|done|done]. split; cbn.
  - apply (s32_shares _ _ Hsm). cbn. lia.
  - intros u. destruct (decide (u = t)) as [->|Hne]; [by rewrite lookup_insert_eq|].
    rewrite lookup_insert_ne by done. apply Hnw.
  - constructor.
  - rewrite Hl in Hwt. intros u ty. rewrite Hwt. destruct (decide (u = t)) as [->|Hne]; [|by rewrite lookup_insert_ne].
    rewrite Ht, lookup_insert_eq. split; intros (p & [= <-] & Hp). by destruct ty, Hp.
Qed.

(** A waiter joins the list, or goes back to sleep; the count stays. *)
Lemma join_inv sem t ty p :
  rw_inv sem -> rw_tasks sem !! t = None -> waits ty p ->
  (0 <= rw_count sem -> rw_wait_list sem = [] -> ty = RWSEM_WAITING_FOR_WRITE /\ rw_count sem <> 0) ->
  rw_inv (RwSem (rw_count sem) (rw_wait_list sem ++ [(t, ty)]) (<[t := p]> (rw_tasks sem))).
Proof.
  intros Hinv Ht Hp Hempty. pose proof (not_listed sem t Hinv ltac:(intros; congruence)) as Hnl.
  destruct Hinv as [Hc Hn Hwt Hh].
  assert (share p = false /\ p <> HasWrite) as [Hsp Hpw].
  { destruct ty; destruct Hp as [b ->]; done. }
  split; cbn.
  - rewrite shares_insert. unfold share_at. rewrite Ht, Hsp.
    replace (shares (rw_tasks sem) - 0 + 0) with (shares (rw_tasks sem)) by lia.
    assert (forall u, <[t := p]> (rw_tasks sem) !! u = Some HasWrite <-> rw_tasks sem !! u = Some HasWrite) as Hu.
    { intros u. destruct (decide (u = t)) as [->|Hne]; [|by rewrite lookup_insert_ne].
      rewrite lookup_insert_eq, Ht. split; congruence. }
    destruct Hc as [(? & ? & w & Hw)|[? Hw]]; [left|right].
    + split; [done|]. split; [done|]. exists w. intros u. by rewrite Hu.
    + split; [done|]. intros u. by rewrite Hu.
  - rewrite fmap_app. apply NoDup_app. split; [done|]. split; [|apply NoDup_singleton]. set_solver.
  - intros u ty'. rewrite elem_of_app, list_elem_of_singleton.
    destruct (decide (u = t)) as [->|Hne].
    + rewrite lookup_insert_eq. split.
      * intros [Hin|[= ->]]; [|by exists p].
        destruct Hnl. apply list_elem_of_fmap. by exists (t, ty').
      * intros (q & [= <-] & Hq). right. f_equal.
        destruct ty, ty'; try done; destruct Hp as [? ->], Hq as [? Hq]; by simplify_eq.
    + rewrite lookup_insert_ne, <- Hwt by done. split; [|by left]. intros [?|[= -> _]]; done.
  - intros H0 u ty' rest Hl. destruct (rw_wait_list sem) as [|[v tv] wl].
    + destruct (Hempty H0 eq_refl) as [-> Hz]. cbn in Hl. by injection Hl as <- <- <-.
    + cbn in Hl. injection Hl as -> -> <-. destruct (Hh H0 u ty' wl eq_refl) as [Hty Hrun].
      split; [done|]. intros Hz. rewrite lookup_insert_ne; [by apply Hrun|].
      intros ->. destruct Hnl. by left.
Qed.

(** A listed writer that finds the lock taken, or a reader not granted yet. *)
Lemma back_to_sleep_inv sem t p q :
  rw_inv sem -> rw_tasks sem !! t = Some p -> (forall ty, waits ty p <-> waits ty q) ->
  share p = share q -> p <> HasWrite -> q <> HasWrite ->
  (rw_count sem = 0 -> forall ty, waits ty p -> ty = RWSEM_WAITING_FOR_READ) ->
  rw_inv (RwSem (rw_count sem) (rw_wait_list sem) (<[t := q]> (rw_tasks sem))).
Proof.
  intros [Hc Hn Hwt Hh] Ht Hpq Hs Hpw Hqw Hz. split; cbn.
  - rewrite shares_insert. unfold share_at. rewrite Ht, Hs.
    replace (shares (rw_tasks sem) - _ + _) with (shares (rw_tasks sem)) by (destruct (share q); lia).
    assert (forall u, <[t := q]> (rw_tasks sem) !! u = Some HasWrite <-> rw_tasks sem !! u = Some HasWrite) as Hu.
    { intros u. destruct (decide (u = t)) as [->|Hne]; [|by rewrite lookup_insert_ne].
      rewrite lookup_insert_eq, Ht. split; congruence. }
    destruct Hc as [(? & ? & w & Hw)|[? Hw]]; [left|right].
    + split; [done|]. split; [done|]. exists w. intros u. by rewrite Hu.
    + split; [done|]. intros u. by rewrite Hu.
  - done.
  - intros u ty. rewrite Hwt. destruct (decide (u = t)) as [->|Hne]; [|by rewrite lookup_insert_ne].
    rewrite Ht, lookup_insert_eq. split; intros (r & [= <-] & Hr); eexists; (split; [done|]); by apply Hpq.
  - intros H0 u ty rest Hl. destruct (Hh H0 u ty rest Hl) as [-> Hrun]. split; [done|]. intros Hcz.
    destruct (decide (u = t)) as [->|Hne]; [|rewrite lookup_insert_ne; [by apply Hrun|done]].
    pose proof (Hrun Hcz) as Hp'. rewrite Ht in Hp'. injection Hp' as ->.
    by specialize (Hz Hcz RWSEM_WAITING_FOR_WRITE (ex_intro _ false eq_refl)).
Qed.

(** A writer takes the free lock. *)
Lemma acquire_inv sem t :
  rw_inv sem -> rw_count sem = 0 ->
  (forall p, rw_tasks sem !! t = Some p -> exists b, p = InWrite b) ->
  rw_inv (RwSem (-1) (filter (fun w => w.1 <> t) (rw_wait_list sem)) (<[t := HasWrite]> (rw_tasks sem))).
Proof.
  intros Hinv H0 Ht. destruct (inv_core sem Hinv ltac:(lia)) as [Hc Hnw Hnd Hwt]. split; cbn.
  - left. split; [done|]. split.
    + rewrite shares_insert. unfold share_at. destruct (rw_tasks sem !! t) as [p|] eqn:Hp.
      * destruct (Ht p eq_refl) as [b ->]. cbn. lia.
      * cbn. lia.
    + exists t. intros u. destruct (decide (u = t)) as [->|Hne]; [by rewrite lookup_insert_eq|].
      rewrite lookup_insert_ne by done. split; [intros Hu; by destruct (Hnw u)|done].
  - apply (sublist_NoDup _ (rw_wait_list sem).*1); [done|]. apply fmap_sublist, sublist_filter.
  - intros u ty. rewrite list_elem_of_filter, Hwt. cbn. destruct (decide (u = t)) as [->|Hne].
    + rewrite lookup_insert_eq. split; [by intros [? _]|].
      intros (p & [= <-] & Hp). by destruct ty, Hp.
    + rewrite lookup_insert_ne by done. tauto.
  - lia.
Qed.

Lemma filter_other (t : task) wl :
  t ∉ wl.*1 -> filter (fun w : task * rwsem_waiter_type => w.1 <> t) wl = wl.
Proof.
  induction wl as [|[u ty] wl IH]; [done|]. rewrite fmap_cons, not_elem_of_cons. cbn [fst].
  intros [Hne Ht]. rewrite filter_cons_True by (cbn; congruence). f_equal. by apply IH.
Qed.

Lemma down_write_inv sem t : rw_inv sem -> rw_tasks sem !! t = None -> rw_inv (__down_write t sem).
Proof.
  intros Hinv Ht. unfold __down_write, __down_write_nested, write_loop. cbn [rw_count rw_wait_list rw_tasks].
  case_if.
  - rewrite filter_app.
    assert (filter (fun w : task * rwsem_waiter_type => w.1 <> t) [(t, RWSEM_WAITING_FOR_WRITE)] = []) as ->.
    { rewrite filter_cons_False by (cbn; tauto). done. }
    rewrite app_nil_r. apply acquire_inv; [done|done|]. intros p Hp. congruence.
  - apply join_inv; [done|done|by exists true|done].
Qed.

Lemma up_read_inv sem t :
  rw_inv sem -> small sem -> rw_tasks sem !! t = Some HasRead -> rw_inv (__up_read t sem).
Proof.
  intros Hinv Hsm Ht.
  assert (shares (delete t (rw_tasks sem)) = shares (rw_tasks sem) - 1) as Hsh.
  { rewrite shares_delete. unfold share_at. by rewrite Ht. }
  pose proof (shares_nonneg (delete t (rw_tasks sem))) as Hnn.
  assert (0 <= rw_count sem) as H0 by (destruct (ri_count _ Hinv) as [(? & ? & _)|[-> _]]; lia).
  destruct (inv_core sem Hinv H0) as [Hc Hnw Hnd Hwt].
  pose proof (shares_size (rw_tasks sem)) as Hsz. unfold small, PID_MAX_LIMIT in Hsm.
  unfold __up_read. rewrite s32_id by lia.
  set (sem1 := RwSem (rw_count sem - 1) (rw_wait_list sem) (delete t (rw_tasks sem))).
  assert (rw_core sem1) as Hcore.
  { split; cbn; [lia| |done|].
    - intros u. destruct (decide (u = t)) as [->|Hne]; [by rewrite lookup_delete_eq|].
      rewrite lookup_delete_ne by done. apply Hnw.
    - intros u ty. rewrite Hwt. destruct (decide (u = t)) as [->|Hne]; [|by rewrite lookup_delete_ne].
      rewrite Ht, lookup_delete_eq. split; intros (p & ? & Hp); simplify_eq. by destruct ty, Hp. }
  assert (starts_with_writer (rw_wait_list sem)) as Hsw.
  { intros u ty rest Hl. by apply (ri_head _ Hinv H0 u ty rest). }
  cbn zeta. change (rw_count sem1) with (rw_count sem - 1). change (rw_wait_list sem1) with (rw_wait_list sem).
  case_if.
  - unfold __rwsem_wake_one_writer. change (rw_wait_list sem1) with (rw_wait_list sem).
    destruct (rw_wait_list sem) as [|[u ty] rest] eqn:Hl; [done|].
    assert (ty = RWSEM_WAITING_FOR_WRITE) as Hty by (by apply (Hsw u ty rest)). subst ty.
    destruct (proj1 (rc_wait _ Hcore u RWSEM_WAITING_FOR_WRITE)) as (p & Hp & b & ->).
    { cbn. left. }
    apply core_inv; cbn; [|done|].
    + destruct Hcore as [Hc1 Hnw1 Hnd1 Hwt1].
      split; cbn; [by rewrite shares_wake|intros v; rewrite wake_has_write; apply Hnw1|done|].
      intros v tv. rewrite wake_wait. apply Hwt1.
    + intros _ v tv r [= <- <- <-]. by apply (wake_writer _ _ b).
  - apply core_inv; [done|done|]. cbn. intros Hz u ty rest Hl. rewrite Hl in E. cbn in E.
    destruct E as [E|E]; [apply Z.eqb_neq in E; lia|done].
Qed.

(** The writer is gone, or becomes a reader. *)
Lemma writer_leaves_core sem t p :
  rw_inv sem -> rw_tasks sem !! t = Some HasWrite -> p = None \/ p = Some HasRead ->
  rw_core (RwSem (match p with Some _ => 1 | None => 0 end) (rw_wait_list sem)
             (match p with Some q => <[t := q]> (rw_tasks sem) | None => delete t (rw_tasks sem) end)).
Proof.
  intros Hinv Ht Hp. destruct (ri_count _ Hinv) as [(Hc & Hs & w & Hw)|[_ Hnw]]; [|by destruct (Hnw t)].
  assert (t = w) as <- by (by apply Hw).
  assert (forall u, match p with Some q => <[t := q]> (rw_tasks sem) | None => delete t (rw_tasks sem) end !! u
    = if decide (u = t) then p else rw_tasks sem !! u) as Hlk.
  { intros u. case_decide as Hu; [subst u|]; destruct p;
      by rewrite ?lookup_insert_eq, ?lookup_delete_eq, ?lookup_insert_ne, ?lookup_delete_ne. }
  split; cbn.
  - destruct Hp as [-> | ->]; rewrite ?shares_delete, ?shares_insert; unfold share_at; rewrite Ht; cbn; lia.
  - intros u. rewrite Hlk. case_decide; [by destruct Hp as [-> | ->]|]. by rewrite Hw.
  - apply (ri_nodup _ Hinv).
  - intros u ty. rewrite (ri_wait _ Hinv), Hlk. case_decide as Hu; [|done]. subst u. rewrite Ht.
    split; intros (q & Hq & Hwq); [by injection Hq as <-; destruct ty, Hwq|].
    destruct Hp as [-> | ->]; [done|]. injection Hq as <-. by destruct ty, Hwq.
Qed.

Lemma up_write_inv sem t :
  rw_inv sem -> rw_tasks sem !! t = Some HasWrite -> small (__up_write t sem) -> rw_inv (__up_write t sem).
Proof.
  intros Hinv Ht Hsm. pose proof (writer_leaves_core sem t None Hinv Ht ltac:(by left)) as Hcore.
  unfold __up_write in *. destruct (rw_wait_list sem) as [|w wl] eqn:Hl;
    cbn [rw_wait_list list_empty negb] in *.
  - by apply core_inv.
  - apply do_wake_inv; [done|by left|done|done].
Qed.

Lemma downgrade_inv sem t :
  rw_inv sem -> rw_tasks sem !! t = Some HasWrite -> small (__downgrade_write t sem) ->
  rw_inv (__downgrade_write t sem).
Proof.
  intros Hinv Ht Hsm. pose proof (writer_leaves_core sem t (Some HasRead) Hinv Ht ltac:(by right)) as Hcore.
  unfold __downgrade_write in *. destruct (rw_wait_list sem) as [|w wl] eqn:Hl;
    cbn [rw_wait_list list_empty negb] in *.
  - by apply core_inv.
  - apply do_wake_inv; [done|by right|done|done].
Qed.

Lemma rw_step_inv sem sem' : rw_step sem sem' -> small sem -> small sem' -> rw_inv sem -> rw_inv sem'.
Proof.
  intros Hstep Hsm Hsm' Hinv.
  destruct Hstep as [sem t Ht|sem t sem' Hr|sem t Ht|sem t Ht|sem t sem' Hr|sem t Ht|sem t Ht|sem t Ht|sem t Ht|sem t].
  - unfold __down_read in *. destruct (_ && _) eqn:E.
    + zbool. apply read_grant_inv; [done|lia|by destruct (rw_wait_list sem)|done|done].
    + apply join_inv; [done|done|by exists true|]. intros H0 Hl. rewrite Hl in E.
      apply andb_false_iff in E as [E|E]; [|done]. rewrite Z.geb_leb in E. zbool. lia.
  - unfold down_read_resume in Hr. destruct (rw_tasks sem !! t) as [[g []|?| |]|] eqn:Ht; try done.
    injection Hr as <-. destruct g.
    + apply (back_to_sleep_inv sem t (InRead true false)); try done.
      * intros []; cbn; split; intros [b Hb]; by simplify_eq.
      * by intros _ [] [b Hb].
    + apply (back_to_sleep_inv sem t (InRead false false)); try done.
      * intros []; cbn; split; intros [b Hb]; simplify_eq; eauto.
      * by intros _ [] [b Hb].
  - unfold __down_read_trylock in *. destruct (_ && _) eqn:E; [|done].
    zbool. apply read_grant_inv; [done|lia|by destruct (rw_wait_list sem)|done|done].
  - by apply down_write_inv.
  - unfold down_write_resume in Hr. destruct (rw_tasks sem !! t) as [[? ?|[]| |]|] eqn:Ht; try done.
    injection Hr as <-. unfold write_loop. case_if.
    + apply acquire_inv; [done|done|]. rewrite Ht. intros p [= <-]. by exists false.
    + apply (back_to_sleep_inv sem t (InWrite false)); try done.
      intros []; cbn; split; intros [b Hb]; simplify_eq; eauto.
  - unfold __down_write_trylock. case_if; [|done]. cbn [snd].
    rewrite <- (filter_other t (rw_wait_list sem)).
    + apply acquire_inv; [done|done|]. intros p Hp. congruence.
    + apply (not_listed sem t Hinv). intros ty p Hp. congruence.
  - by apply up_read_inv.
  - by apply up_write_inv.
  - by apply downgrade_inv.
  - by apply wake_inv.
Qed.

Lemma reachable_inv sem : rw_reachable sem -> rw_inv sem /\ small sem.
Proof.
  unfold rw_reachable. revert sem. apply (rtc_ind_r (fun sem => rw_inv sem /\ small sem)).
  - split; [apply rw_inv_init|]. unfold small. cbn. by rewrite map_size_empty.
  - intros y z _ [Hst Hs] [Hi Hsm]. split; [|exact Hs]. by apply (rw_step_inv y z).
Qed.

(** * Properties of reader/writer semaphores *)

(** C26. In every state the semaphore can reach, with at most PID_MAX_LIMIT
    tasks and any interleaving of their calls, wake-ups and releases: a task
    that has the write lock is alone, with no other writer and no reader; and
    the count means what its comment says, -1 when there is a writer and
    otherwise the number of read locks that are held or already granted. *)
Theorem rwsem_exclusion sem :
  rw_reachable sem ->
  (forall t, rw_tasks sem !! t = Some HasWrite ->
     rw_count sem = -1 /\ forall u, u <> t ->
       rw_tasks sem !! u <> Some HasWrite /\ rw_tasks sem !! u <> Some HasRead)
  /\ (rw_count sem = -1 <-> exists t, rw_tasks sem !! t = Some HasWrite)
  /\ (rw_count sem <> -1 -> rw_count sem = shares (rw_tasks sem)).
Proof.
  intros [Hinv _]%reachable_inv. pose proof (shares_nonneg (rw_tasks sem)).
  destruct (ri_count _ Hinv) as [(Hc & Hs & w & Hw)|[Hc Hnw]].
  - split; [|split; [split; [|done]; intros _; exists w; by apply Hw|done]].
    intros t Ht. apply Hw in Ht as ->. split; [done|]. intros u Hu. split; [by rewrite Hw|].
    intros Hr. by apply (shares_zero _ _ _ Hs) in Hr.
  - split; [intros t Ht; by destruct (Hnw t)|]. split; [|done]. split; [lia|].
    intros [t Ht]. by destruct (Hnw t).
Qed.

(** Two readers come and one goes; a writer waits behind them. *)
Definition demo_state : rw_semaphore :=
  __down_write 3%positive (__down_read 2%positive (__down_read 1%positive __init_rwsem)).

Lemma demo_reachable : rw_reachable demo_state.
Proof.
  eapply rtc_l; [split; [by apply (step_down_read _ 1%positive)|by vm_compute]|].
  eapply rtc_l; [split; [by apply (step_down_read _ 2%positive)|by vm_compute]|].
  apply rtc_once. split; [by apply (step_down_write _ 3%positive)|by vm_compute].
Qed.

Lemma rwsem_exclusion_witness : rw_count demo_state = shares (rw_tasks demo_state).
Proof. apply (rwsem_exclusion demo_state demo_reachable). vm_compute. discriminate. Defined.

(** No wake-up is lost and the semaphore cannot get stuck: in every
    reachable state in which nobody has the lock or has been granted it while
    tasks wait, the first of them is a writer that is awake, and when it runs
    it takes the lock. *)
Theorem rwsem_no_lost_wakeup sem :
  rw_reachable sem -> rw_wait_list sem <> [] ->
  (forall t p, rw_tasks sem !! t = Some p -> share p = false /\ p <> HasWrite) ->
  exists t rest sem', rw_wait_list sem = (t, RWSEM_WAITING_FOR_WRITE) :: rest
    /\ down_write_resume t sem = Some sem' /\ rw_tasks sem' !! t = Some HasWrite
    /\ rw_count sem' = -1 /\ rw_wait_list sem' = rest.
Proof.
  intros [Hinv _]%reachable_inv Hne Hfree.
  assert (rw_count sem = 0) as H0.
  { destruct (ri_count _ Hinv) as [(_ & _ & w & Hw)|[Hc _]].
    - destruct (Hfree w HasWrite) as [_ ?]; [by apply Hw|done].
    - rewrite Hc. unfold shares. rewrite (proj2 (map_empty_filter _ _)), map_size_empty; [done|].
      intros t p Hp. cbn. destruct (Hfree t p Hp). congruence. }
  destruct (rw_wait_list sem) as [|[t ty] rest] eqn:Hl; [done|].
  destruct (ri_head _ Hinv ltac:(lia) t ty rest Hl) as [-> Hrun]. specialize (Hrun H0).
  exists t, rest. unfold down_write_resume. rewrite Hrun. unfold write_loop. rewrite H0. cbn.
  eexists. split; [done|]. split; [done|]. cbn. rewrite lookup_insert_eq. split; [done|].
  split; [done|]. rewrite Hl.
  pose proof (ri_nodup _ Hinv) as Hnd. rewrite Hl in Hnd. cbn in Hnd. apply NoDup_cons in Hnd as [Hnt _].
  rewrite filter_cons_False by (cbn; tauto). by apply filter_other.
Qed.

(** The readers are gone; the writer is awake. *)
Definition freed_state : rw_semaphore := __up_read 1%positive (__up_read 2%positive demo_state).

Lemma rwsem_no_lost_wakeup_witness :
  exists sem', down_write_resume 3%positive freed_state = Some sem' /\ rw_count sem' = -1.
Proof.
  destruct (rwsem_no_lost_wakeup freed_state) as (t & rest & sem' & Hl & Hr & _ & Hc & _).
  - eapply rtc_r; [eapply rtc_r; [exact demo_reachable|]|].
    + split; [by apply (step_up_read _ 2%positive)|by vm_compute].
    + split; [by apply (step_up_read _ 1%positive)|by vm_compute].
  - vm_compute. discriminate.
  - intros t p Hp. assert (rw_tasks freed_state = {[3%positive := InWrite false]}) as Hm by reflexivity.
    rewrite Hm in Hp. apply lookup_singleton_Some in Hp as [_ <-]. split; [reflexivity|discriminate].
  - exists sem'. assert (rw_wait_list freed_state = [(3%positive, RWSEM_WAITING_FOR_WRITE)]) as Hw by reflexivity.
    rewrite Hw in Hl. injection Hl as <- _. split; [exact Hr|exact Hc].
Defined.
