(* ===== verification/SysvSem.v ===== *)
(** * System V semaphores (ipc/sem.c)

    A semaphore array with its queues of sleeping operations: one pair of
    queues per semaphore for operations on that semaphore only, and one pair
    for the whole array while operations on several semaphores sleep.  The
    functions run under the array's lock.  [semadj] arrays are found by the
    undo structure they belong to; the tasks a function wants woken are
    collected in [pt] with the value their call returns. *)

From stdpp Require Import gmap list.
From S2P Require Import Prelude.

(** ** Constants of the ABI *)
Definition SEMVMX : Z := 32767.
Definition SEMAEM : Z := SEMVMX.
Definition SEM_UNDO : Z := 4096.
Definition IPC_NOWAIT : Z := 2048.
Definition EFBIG : Z := 27.
Definition E2BIG : Z := 7.
Definition EIDRM : Z := 43.

(** ** Data *)

Record sembuf := Sembuf { sem_num : nat; sem_op : Z; sem_flg : Z }.

(** [q_task] stands for the sleeping task and for the address of the entry. *)
Record sem_queue := SemQueue {
  q_task : positive;
  q_undo : option positive;
  q_pid : Z;
  q_sops : list sembuf;
  q_blocking : option sembuf;
  q_alter : bool;
}.

Record sem := Sem {
  semval : Z;
  sempid : Z;
  sem_pending_alter : list sem_queue;
  sem_pending_const : list sem_queue;
  sem_otime : Z;
}.

(** [undos] is the list [list_id] of undo structures: their [semadj]. *)
Record sem_array := SemArray {
  sem_base : list sem;
  pending_alter : list sem_queue;
  pending_const : list sem_queue;
  complex_count : Z;
  undos : gmap positive (list Z);
  sem_ctime : Z;
}.

(** What is put on the list [pt]: the entry and the value for its caller. *)
Abbreviation wakeups := (list (sem_queue * Z)).

Definition sop_has (s : sembuf) (flag : Z) : bool := negb (Z.land (sem_flg s) flag =? 0).

(** ** Accesses *)

Definition set_base (sma : sem_array) (b : list sem) : sem_array :=
  SemArray b (pending_alter sma) (pending_const sma) (complex_count sma) (undos sma) (sem_ctime sma).

Definition upd_sem (i : nat) (f : sem -> sem) (sma : sem_array) : sem_array :=
  set_base sma (alter f i (sem_base sma)).

Definition set_semval (v : Z -> Z) (s : sem) : sem :=
  Sem (v (semval s)) (sempid s) (sem_pending_alter s) (sem_pending_const s) (sem_otime s).
Definition set_sempid (p : Z) (s : sem) : sem :=
  Sem (semval s) p (sem_pending_alter s) (sem_pending_const s) (sem_otime s).
Definition set_sem_otime (t : Z) (s : sem) : sem :=
  Sem (semval s) (sempid s) (sem_pending_alter s) (sem_pending_const s) t.
Definition set_sem_alter (l : list sem_queue) (s : sem) : sem :=
  Sem (semval s) (sempid s) l (sem_pending_const s) (sem_otime s).
Definition set_sem_const (l : list sem_queue) (s : sem) : sem :=
  Sem (semval s) (sempid s) (sem_pending_alter s) l (sem_otime s).

(** [sma->sem_base[i].semval]; the callers check the index. *)
Definition val_at (sma : sem_array) (i : nat) : Z :=
  match sem_base sma !! i with Some s => semval s | None => 0 end.

Definition set_undos (sma : sem_array) (u : gmap positive (list Z)) : sem_array :=
  SemArray (sem_base sma) (pending_alter sma) (pending_const sma) (complex_count sma) u (sem_ctime sma).

(** [un->semadj[i]] *)
Definition adj_at (sma : sem_array) (un : option positive) (i : nat) : Z :=
  match un with
  | Some u => default 0 (default [] (undos sma !! u) !! i)
  | None => 0
  end.

Definition upd_adj (un : option positive) (i : nat) (f : Z -> Z) (sma : sem_array) : sem_array :=
  match un with
  | Some u => set_undos sma (alter (alter f i) u (undos sma))
  | None => sma
  end.

(** ** An operation on the array *)

(** Where the forward loop of [perform_atomic_semop] stops: behind the last
    operation, or at the labels [would_block] and [out_of_range]; with the
    operations already performed, the last one first. *)
Inductive semop_stop :=
| StopDone
| StopBlock (s : sembuf)
| StopRange.

Fixpoint semop_forward (un : option positive) (done todo : list sembuf) (sma : sem_array)
    : semop_stop * list sembuf * sem_array :=
  match todo with
  | [] => (StopDone, done, sma)
  | s :: todo =>
      let result := val_at sma (sem_num s) in
      if (sem_op s =? 0) && negb (result =? 0) then (StopBlock s, done, sma) else
      let result := result + sem_op s in
      if result <? 0 then (StopBlock s, done, sma)
      else if result >? SEMVMX then (StopRange, done, sma)
      else if sop_has s SEM_UNDO then
        let undo := adj_at sma un (sem_num s) - sem_op s in
        if (undo <? - SEMAEM - 1) || (undo >? SEMAEM) then (StopRange, done, sma)
        else
          semop_forward un (s :: done) todo
            (upd_sem (sem_num s) (set_semval (fun _ => result))
               (upd_adj un (sem_num s) (fun _ => undo) sma))
      else
        semop_forward un (s :: done) todo (upd_sem (sem_num s) (set_semval (fun _ => result)) sma)
  end.

(** The loop behind the label [undo]. *)
Fixpoint semop_rollback (un : option positive) (done : list sembuf) (sma : sem_array) : sem_array :=
  match done with
  | [] => sma
  | s :: done =>
      let sma := upd_sem (sem_num s) (set_semval (fun v => v - sem_op s)) sma in
      let sma := if sop_has s SEM_UNDO then upd_adj un (sem_num s) (fun a => a + sem_op s) sma else sma in
      semop_rollback un done sma
  end.

(** The loop that records the pid, from the last operation to the first. *)
Fixpoint semop_set_pid (pid : Z) (done : list sembuf) (sma : sem_array) : sem_array :=
  match done with
  | [] => sma
  | s :: done => semop_set_pid pid done (upd_sem (sem_num s) (set_sempid pid) sma)
  end.

Definition set_blocking (q : sem_queue) (s : sembuf) : sem_queue :=
  SemQueue (q_task q) (q_undo q) (q_pid q) (q_sops q) (Some s) (q_alter q).

Definition perform_atomic_semop (sma : sem_array) (q : sem_queue) : Z * sem_array * sem_queue :=
  match semop_forward (q_undo q) [] (q_sops q) sma with
  | (StopDone, done, sma) => (0, semop_set_pid (q_pid q) done sma, q)
  | (StopRange, done, sma) => (- ERANGE, semop_rollback (q_undo q) done sma, q)
  | (StopBlock s, done, sma) =>
      (if sop_has s IPC_NOWAIT then - EAGAIN else 1,
       semop_rollback (q_undo q) done sma, set_blocking q s)
  end.

(** ** The queues *)

(** A queue: [None] is [semnum == -1], the queue of the array. *)
Definition get_alter (sma : sem_array) (semnum : option nat) : list sem_queue :=
  match semnum with
  | None => pending_alter sma
  | Some i => match sem_base sma !! i with Some s => sem_pending_alter s | None => [] end
  end.

Definition get_const (sma : sem_array) (semnum : option nat) : list sem_queue :=
  match semnum with
  | None => pending_const sma
  | Some i => match sem_base sma !! i with Some s => sem_pending_const s | None => [] end
  end.

Definition put_alter (semnum : option nat) (l : list sem_queue) (sma : sem_array) : sem_array :=
  match semnum with
  | None => SemArray (sem_base sma) l (pending_const sma) (complex_count sma) (undos sma) (sem_ctime sma)
  | Some i => upd_sem i (set_sem_alter l) sma
  end.

Definition put_const (semnum : option nat) (l : list sem_queue) (sma : sem_array) : sem_array :=
  match semnum with
  | None => SemArray (sem_base sma) (pending_alter sma) l (complex_count sma) (undos sma) (sem_ctime sma)
  | Some i => upd_sem i (set_sem_const l) sma
  end.

Definition add_complex (n : Z) (sma : sem_array) : sem_array :=
  SemArray (sem_base sma) (pending_alter sma) (pending_const sma) (complex_count sma + n) (undos sma)
    (sem_ctime sma).

(** [unlink_queue] without the [list_del]. *)
Definition uncount (q : sem_queue) (sma : sem_array) : sem_array :=
  if (1 <? length (q_sops q))%nat then add_complex (-1) sma else sma.

(** [seen] has been visited and stays, [walk] is still to be visited. *)
Fixpoint wake_const_loop (semnum : option nat) (seen walk : list sem_queue) (sma : sem_array)
    (pt : wakeups) (completed : bool) : bool * sem_array * wakeups :=
  match walk with
  | [] => (completed, sma, pt)
  | q :: walk =>
      let '(error, sma, q) := perform_atomic_semop sma q in
      if error <=? 0 then
        wake_const_loop semnum seen walk (put_const semnum (seen ++ walk) (uncount q sma))
          (pt ++ [(q, error)]) (completed || (error =? 0))
      else
        wake_const_loop semnum (seen ++ [q]) walk (put_const semnum (seen ++ q :: walk) sma) pt completed
  end.

Definition wake_const_ops (sma : sem_array) (semnum : option nat) (pt : wakeups)
    : bool * sem_array * wakeups :=
  wake_const_loop semnum [] (get_const sma semnum) sma pt false.

(** The loops of [do_smart_wakeup_zero] over the semaphores [nums]. *)
Fixpoint wakeup_zero_loop (nums : list nat) (sma : sem_array) (pt : wakeups) (completed got_zero : bool)
    : bool * bool * sem_array * wakeups :=
  match nums with
  | [] => (completed, got_zero, sma, pt)
  | num :: nums =>
      if val_at sma num =? 0 then
        let '(c, sma, pt) := wake_const_ops sma (Some num) pt in
        wakeup_zero_loop nums sma pt (completed || c) true
      else wakeup_zero_loop nums sma pt completed got_zero
  end.

(** [sops] is [None] when the modified semaphores are not known. *)
Definition do_smart_wakeup_zero (sma : sem_array) (sops : option (list sembuf)) (pt : wakeups)
    : bool * sem_array * wakeups :=
  let nums := match sops with
              | Some sops => sem_num <$> sops
              | None => seq 0 (length (sem_base sma))
              end in
  let '(completed, got_zero, sma, pt) := wakeup_zero_loop nums sma pt false false in
  if got_zero then
    let '(c, sma, pt) := wake_const_ops sma None pt in (completed || c, sma, pt)
  else (completed, sma, pt).

Definition list_is_empty {A} (l : list A) : bool := match l with [] => true | _ => false end.

Definition check_restart (sma : sem_array) (q : sem_queue) : bool :=
  if negb (list_is_empty (pending_alter sma)) then true
  else (1 <? length (q_sops q))%nat.

(** One scan of [update_queue]; the last component tells whether it ends with
    [goto again]. *)
Fixpoint update_scan (semnum : option nat) (seen walk : list sem_queue) (sma : sem_array)
    (pt : wakeups) (completed : bool) : bool * sem_array * wakeups * bool :=
  match walk with
  | [] => (completed, sma, pt, false)
  | q :: walk =>
      if (match semnum with Some i => val_at sma i =? 0 | None => false end)
      then (completed, sma, pt, false) else
      let '(error, sma, q) := perform_atomic_semop sma q in
      if error >? 0 then
        update_scan semnum (seen ++ [q]) walk (put_alter semnum (seen ++ q :: walk) sma) pt completed
      else
        let sma := put_alter semnum (seen ++ walk) (uncount q sma) in
        if error =? 0 then
          let '(_, sma, pt) := do_smart_wakeup_zero sma (Some (q_sops q)) pt in
          let restart := check_restart sma q in
          let pt := pt ++ [(q, error)] in
          if restart then (true, sma, pt, true)
          else update_scan semnum seen walk sma pt true
        else update_scan semnum seen walk sma (pt ++ [(q, error)]) completed
  end.

(** The scans: each but the last takes an operation off the queue. *)
Fixpoint update_loop (fuel : nat) (semnum : option nat) (sma : sem_array) (pt : wakeups)
    (completed : bool) : outcome (bool * sem_array * wakeups) :=
  match fuel with
  | O => NoFuel
  | S fuel =>
      let '(completed, sma, pt, again) :=
        update_scan semnum [] (get_alter sma semnum) sma pt completed in
      if again then update_loop fuel semnum sma pt completed else Ok (completed, sma, pt)
  end.

Definition update_queue (sma : sem_array) (semnum : option nat) (pt : wakeups)
    : outcome (bool * sem_array * wakeups) :=
  update_loop (S (length (get_alter sma semnum))) semnum sma pt false.

Definition set_semotime (now : Z) (sops : option (list sembuf)) (sma : sem_array) : sem_array :=
  upd_sem (match sops with Some (s :: _) => sem_num s | _ => 0%nat end) (set_sem_otime now) sma.

(** [update_queue] for each semaphore of [nums]. *)
Fixpoint update_each (nums : list nat) (sma : sem_array) (pt : wakeups) (otime : bool)
    : outcome (bool * sem_array * wakeups) :=
  match nums with
  | [] => Ok (otime, sma, pt)
  | num :: nums =>
      let! (c, sma, pt) := update_queue sma (Some num) pt in
      update_each nums sma pt (otime || c)
  end.

Definition do_smart_update (now : Z) (sma : sem_array) (sops : option (list sembuf)) (otime : bool)
    (pt : wakeups) : outcome (sem_array * wakeups) :=
  let '(c, sma, pt) := do_smart_wakeup_zero sma sops pt in
  let otime := otime || c in
  let! (otime, sma, pt) :=
    (if negb (list_is_empty (pending_alter sma)) then
       let! (c, sma, pt) := update_queue sma None pt in Ok (otime || c, sma, pt)
     else
       match sops with
       | None => update_each (seq 0 (length (sem_base sma))) sma pt otime
       | Some sops => update_each (sem_num <$> filter (fun s => 0 < sem_op s) sops) sma pt otime
       end) in
  Ok (if otime then set_semotime now sops sma else sma, pt).

(** ** Merging and unmerging *)

(** [list_splice_init] of the queues of the semaphores [nums], each at the head. *)
Fixpoint merge_queues_loop (nums : list nat) (sma : sem_array) : sem_array :=
  match nums with
  | [] => sma
  | i :: nums =>
      let l := get_alter sma (Some i) in
      merge_queues_loop nums (put_alter None (l ++ pending_alter sma) (put_alter (Some i) [] sma))
  end.

Definition merge_queues (sma : sem_array) : sem_array :=
  merge_queues_loop (seq 0 (length (sem_base sma))) sma.

Fixpoint unmerge_queues_loop (l : list sem_queue) (sma : sem_array) : sem_array :=
  match l with
  | [] => sma
  | q :: l =>
      let i := match q_sops q with s :: _ => sem_num s | [] => 0%nat end in
      unmerge_queues_loop l (put_alter (Some i) (get_alter sma (Some i) ++ [q]) sma)
  end.

Definition unmerge_queues (sma : sem_array) : sem_array :=
  if negb (complex_count sma =? 0) then sma
  else put_alter None [] (unmerge_queues_loop (pending_alter sma) sma).

(** The lock taken: [None] is the array's, [Some i] that of semaphore [i]. *)
Definition sem_lock (sma : sem_array) (sops : list sembuf) : option nat :=
  match sops with
  | [s] => if complex_count sma =? 0 then Some (sem_num s) else None
  | _ => None
  end.

Definition sem_unlock (sma : sem_array) (locknum : option nat) : sem_array :=
  match locknum with None => unmerge_queues sma | Some _ => sma end.

(** ** The system calls *)

(** [newary]: an array of [nsems] semaphores. *)
Definition newary (now : Z) (nsems : nat) : sem_array :=
  SemArray (replicate nsems (Sem 0 0 [] [] 0)) [] [] 0 ∅ now.

(** The undo structure [u] of the caller, found or, memory allowing, made. *)
Definition find_alloc_undo (mem : bool) (u : positive) (sma : sem_array) : Z + sem_array :=
  match undos sma !! u with
  | Some _ => inr sma
  | None =>
      if mem then inr (set_undos sma (<[u := replicate (length (sem_base sma)) 0]> (undos sma)))
      else inl (- ENOMEM)
  end.

(** The sleeping operation is put on a queue. *)
Definition enqueue (q : sem_queue) (sma : sem_array) : sem_array :=
  match q_sops q with
  | [s] =>
      if q_alter q then
        if negb (complex_count sma =? 0) then put_alter None (pending_alter sma ++ [q]) sma
        else put_alter (Some (sem_num s)) (get_alter sma (Some (sem_num s)) ++ [q]) sma
      else put_const (Some (sem_num s)) (get_const sma (Some (sem_num s)) ++ [q]) sma
  | _ =>
      let sma := if complex_count sma =? 0 then merge_queues sma else sma in
      let sma :=
        if q_alter q then put_alter None (pending_alter sma ++ [q]) sma
        else put_const None (pending_const sma ++ [q]) sma in
      add_complex 1 sma
  end.

(** [semtimedop] from its checks to the sleep ([None]) or the return; [mem]
    and [perm] say whether memory and permission were granted. *)
Definition semtimedop (now : Z) (sc_semopm : nat) (mem perm : bool) (t u : positive) (pid : Z)
    (sops : list sembuf) (sma : sem_array) : outcome (option Z * sem_array * wakeups) :=
  let nsops := length sops in
  if (nsops <? 1)%nat then Ok (Some (- EINVAL), sma, [])
  else if (sc_semopm <? nsops)%nat then Ok (Some (- E2BIG), sma, [])
  else
    let alter := existsb (fun s => negb (sem_op s =? 0)) sops in
    let undo := existsb (fun s => sop_has s SEM_UNDO) sops in
    match (if undo then find_alloc_undo mem u sma else inr sma) with
    | inl error => Ok (Some error, sma, [])
    | inr sma =>
        if existsb (fun s => (length (sem_base sma) <=? sem_num s)%nat) sops
        then Ok (Some (- EFBIG), sma, [])
        else if negb perm then Ok (Some (- EACCES), sma, [])
        else
          let locknum := sem_lock sma sops in
          let queue := SemQueue t (if undo then Some u else None) pid sops None alter in
          let '(error, sma, queue) := perform_atomic_semop sma queue in
          let! (sma, tasks) :=
            (if error =? 0 then
               if alter then do_smart_update now sma (Some sops) true []
               else Ok (set_semotime now (Some sops) sma, [])
             else Ok (sma, [])) in
          if error <=? 0 then Ok (Some error, sem_unlock sma locknum, tasks)
          else Ok (None, sem_unlock (enqueue queue sma) locknum, tasks)
    end.

(** The entries that are sleeping. *)
Definition pending (sma : sem_array) : list sem_queue :=
  pending_const sma ++ pending_alter sma
  ++ concat ((fun s => sem_pending_const s ++ sem_pending_alter s) <$> sem_base sma).

(** [list_del] of the entry of task [t], wherever it is. *)
Definition list_del (t : positive) (sma : sem_array) : sem_array :=
  let keep := filter (fun q => q_task q <> t) in
  SemArray
    ((fun s => Sem (semval s) (sempid s) (keep (sem_pending_alter s)) (keep (sem_pending_const s))
                 (sem_otime s)) <$> sem_base sma)
    (keep (pending_alter sma)) (keep (pending_const sma)) (complex_count sma) (undos sma) (sem_ctime sma).

(** A signal or the end of the timeout reaches a sleeper whose operation is
    still queued. *)
Definition semtimedop_abort (q : sem_queue) (sma : sem_array) : sem_array :=
  let locknum := sem_lock sma (q_sops q) in
  sem_unlock (uncount q (list_del (q_task q) sma)) locknum.

Definition zero_adj (i : nat) (sma : sem_array) : sem_array :=
  set_undos sma (alter (fun _ => 0) i <$> undos sma).

(** [semctl(SETVAL)] behind its checks of identity and permission. *)
Definition semctl_setval (now : Z) (pid : Z) (semnum : nat) (val : Z) (sma : sem_array)
    : outcome (Z * sem_array * wakeups) :=
  if (val >? SEMVMX) || (val <? 0) then Ok (- ERANGE, sma, [])
  else if (length (sem_base sma) <=? semnum)%nat then Ok (- EINVAL, sma, [])
  else
    let sma := zero_adj semnum sma in
    let sma := upd_sem semnum (fun s => set_sempid pid (set_semval (fun _ => val) s)) sma in
    let sma := SemArray (sem_base sma) (pending_alter sma) (pending_const sma) (complex_count sma)
                 (undos sma) now in
    let! (sma, tasks) := do_smart_update now sma None false [] in
    Ok (0, sem_unlock sma None, tasks).

(** [semctl(SETALL)]: [sem_io] are the values read from the caller. *)
Definition semctl_setall (now : Z) (sem_io : list Z) (sma : sem_array)
    : outcome (Z * sem_array * wakeups) :=
  if existsb (fun v => v >? SEMVMX) sem_io then Ok (- ERANGE, sma, [])
  else
    let sma := set_base sma (zip_with (fun s v => set_semval (fun _ => v) s) (sem_base sma) sem_io) in
    let sma := set_undos sma ((fun l : list Z => replicate (length l) 0) <$> undos sma) in
    let sma := SemArray (sem_base sma) (pending_alter sma) (pending_const sma) (complex_count sma)
                 (undos sma) now in
    let! (sma, tasks) := do_smart_update now sma None false [] in
    Ok (0, sem_unlock sma None, tasks).

(** The adjustment of one semaphore in [exit_sem], capped at both ends. *)
Definition exit_adjust (pid adj : Z) (s : sem) : sem :=
  if adj =? 0 then s
  else
    let v := semval s + adj in
    let v := if v <? 0 then 0 else v in
    let v := if v >? SEMVMX then SEMVMX else v in
    set_sempid pid (set_semval (fun _ => v) s).

(** [exit_sem] for the undo structure [u] of this array. *)
Definition exit_sem (now pid : Z) (u : positive) (sma : sem_array)
    : outcome (sem_array * wakeups) :=
  match undos sma !! u with
  | None => Ok (sma, [])
  | Some semadj =>
      let sma := set_undos sma (delete u (undos sma)) in
      let sma := set_base sma (zip_with (fun s a => exit_adjust pid a s) (sem_base sma) semadj) in
      let! (sma, tasks) := do_smart_update now sma None true [] in
      Ok (sem_unlock sma None, tasks)
  end.

(** [freeary]: everybody who sleeps is woken with EIDRM. *)
Definition freeary (sma : sem_array) : wakeups :=
  (fun q => (q, - EIDRM)) <$>
    (pending_const sma ++ pending_alter sma
     ++ concat ((fun s => sem_pending_const s ++ sem_pending_alter s) <$> sem_base sma)).

(** [check_qop] and [count_semcnt]: GETNCNT and GETZCNT. *)
Definition check_qop (semnum : nat) (count_zero : bool) (q : sem_queue) : Z :=
  match q_blocking q with
  | Some sop =>
      if negb (sem_num sop =? semnum)%nat then 0
      else if count_zero && (sem_op sop =? 0) then 1
      else if negb count_zero && (sem_op sop <? 0) then 1
      else 0
  | None => 0
  end.

Definition count_semcnt (sma : sem_array) (semnum : nat) (count_zero : bool) : Z :=
  let semcnt := Z.of_nat (length (if count_zero then get_const sma (Some semnum)
                                  else get_alter sma (Some semnum))) in
  let sum l := foldr (fun q n => check_qop semnum count_zero q + n) 0 l in
  let semcnt := semcnt + sum (pending_alter sma) in
  if count_zero then semcnt + sum (pending_const sma) else semcnt.
