(* ===== verification/SysvSemFacts.v ===== *)
(** * System V semaphores: accesses, and one operation

    The laws of the accesses to an array, and what [perform_atomic_semop]
    does: it completes with every value changed, or leaves the array as it
    was. *)

From stdpp Require Import gmap list.
From S2P Require Import Prelude SysvSem.

(** ** What can be observed of an array *)

Definition vals (sma : sem_array) : list Z := semval <$> sem_base sma.
Definition nsems (sma : sem_array) : nat := length (sem_base sma).

(** Values and adjustments: what an operation depends on. *)
Definition view (sma : sem_array) : list Z * gmap positive (list Z) := (vals sma, undos sma).

(** The queues and the counter. *)
Definition same_queues (sma sma' : sem_array) : Prop :=
  (forall n, get_alter sma' n = get_alter sma n) /\ (forall n, get_const sma' n = get_const sma n)
  /\ complex_count sma' = complex_count sma /\ nsems sma' = nsems sma.

#[export] Instance same_queues_preorder : PreOrder same_queues.
Proof.
  split; [by intros sma|]. intros a b c (H1 & H2 & H3 & H4) (K1 & K2 & K3 & K4).
  split; [intros n; by rewrite K1|]. split; [intros n; by rewrite K2|]. split; congruence.
Qed.

Lemma val_at_vals sma i : val_at sma i = default 0 (vals sma !! i).
Proof. unfold val_at, vals. rewrite list_lookup_fmap. by destruct (sem_base sma !! i). Qed.

Lemma length_vals sma : length (vals sma) = nsems sma.
Proof. apply length_fmap. Qed.

(** *** Updates of a value *)

Lemma vals_upd f i sma : vals (upd_sem i (set_semval f) sma) = alter f i (vals sma).
Proof. unfold vals, upd_sem. cbn. apply list_fmap_alter. by apply Forall_true. Qed.

Lemma vals_upd_other g i sma :
  (forall s, semval (g s) = semval s) -> vals (upd_sem i g sma) = vals sma.
Proof.
  intros Hg. unfold vals, upd_sem. cbn. rewrite (list_fmap_alter _ _ (fun v => v)) by (apply Forall_true, Hg).
  by apply list_alter_id.
Qed.

Lemma upd_sem_queues g i sma :
  (forall s, sem_pending_alter (g s) = sem_pending_alter s
     /\ sem_pending_const (g s) = sem_pending_const s) ->
  same_queues sma (upd_sem i g sma).
Proof.
  intros Hg. assert (forall n, alter g i (sem_base sma) !! n = (if decide (n = i) then g else id) <$> sem_base sma !! n) as Hl.
  { intros n. case_decide as Hn; [subst n; apply list_lookup_alter_eq|].
    rewrite list_lookup_alter_ne by done. by destruct (sem_base sma !! n). }
  split; [|split; [|split; [done|apply length_alter]]].
  - intros [n|]; [|done]. cbn. rewrite Hl. destruct (sem_base sma !! n) as [s|]; [|done]. cbn.
    destruct (decide (n = i)); [by destruct (Hg s)|done].
  - intros [n|]; [|done]. cbn. rewrite Hl. destruct (sem_base sma !! n) as [s|]; [|done]. cbn.
    destruct (decide (n = i)); [by destruct (Hg s)|done].
Qed.

Lemma upd_adj_queues un i f sma : same_queues sma (upd_adj un i f sma).
Proof. by destruct un. Qed.

Lemma vals_upd_adj un i f sma : vals (upd_adj un i f sma) = vals sma.
Proof. by destruct un. Qed.

Lemma undos_upd_sem i g sma : undos (upd_sem i g sma) = undos sma.
Proof. done. Qed.

Lemma upd_sem_twice i f g sma : upd_sem i f (upd_sem i g sma) = upd_sem i (fun s => f (g s)) sma.
Proof. unfold upd_sem. cbn. unfold set_base. cbn. f_equal. apply list_alter_alter_eq. Qed.

Lemma upd_sem_id i f sma :
  (forall s, sem_base sma !! i = Some s -> f s = s) -> upd_sem i f sma = sma.
Proof.
  intros Hf. unfold upd_sem, set_base. destruct sma as [b pa pc cc un ct]. cbn in *. f_equal.
  rewrite <- (list_alter_id (fun s => s) b i) at 2 by done. by apply list_alter_ext.
Qed.

(** *** Views determine the values *)

Lemma val_at_view sma sma' i : view sma = view sma' -> val_at sma i = val_at sma' i.
Proof. intros [= Hv _]. by rewrite !val_at_vals, Hv. Qed.

(** The same values, and the same adjustments in the undo structure [un]. *)
Definition agree (un : option positive) (sma sma' : sem_array) : Prop :=
  vals sma = vals sma' /\ forall u, un = Some u -> undos sma !! u = undos sma' !! u.

Lemma view_agree un sma sma' : view sma = view sma' -> agree un sma sma'.
Proof. intros [= Hv Hu]. split; [done|]. intros u _. by rewrite Hu. Qed.

Lemma val_at_agree un sma sma' i : agree un sma sma' -> val_at sma i = val_at sma' i.
Proof. intros [Hv _]. by rewrite !val_at_vals, Hv. Qed.

Lemma adj_at_agree sma sma' un i : agree un sma sma' -> adj_at sma un i = adj_at sma' un i.
Proof. intros [_ Hu]. destruct un; [cbn; by rewrite Hu|done]. Qed.

Lemma adj_at_view sma sma' un i : view sma = view sma' -> adj_at sma un i = adj_at sma' un i.
Proof. intros Hv. by apply adj_at_agree, view_agree. Qed.

Lemma agree_upd_semval un i f sma sma' :
  agree un sma sma' -> agree un (upd_sem i (set_semval f) sma) (upd_sem i (set_semval f) sma').
Proof. intros [Hv Hu]. split; [by rewrite !vals_upd, Hv|done]. Qed.

Lemma agree_upd_adj un i f sma sma' :
  agree un sma sma' -> agree un (upd_adj un i f sma) (upd_adj un i f sma').
Proof.
  intros [Hv Hu]. destruct un as [u|]; [|done]. split; [done|]. intros u' [= <-]. cbn.
  by rewrite !lookup_alter_eq, Hu.
Qed.

Lemma val_at_upd_semval i f sma j :
  (i < nsems sma)%nat ->
  val_at (upd_sem i (set_semval f) sma) j = if decide (j = i) then f (val_at sma i) else val_at sma j.
Proof.
  intros Hi. rewrite !val_at_vals, vals_upd. rewrite <- length_vals in Hi.
  destruct (lookup_lt_is_Some_2 _ _ Hi) as [v Hv]. case_decide as Hj.
  - subst j. by rewrite list_lookup_alter_eq, Hv.
  - by rewrite list_lookup_alter_ne.
Qed.

(** ** Going forward and rolling back *)

Lemma upd_adj_back un i op sma :
  upd_adj un i (fun a => a + op) (upd_adj un i (fun _ => adj_at sma un i - op) sma) = sma.
Proof.
  destruct un as [u|]; [|done]. unfold upd_adj, set_undos. destruct sma as [b pa pc cc un ct]. cbn. f_equal.
  apply map_eq. intros u'. destruct (decide (u' = u)) as [->|Hne].
  - rewrite !lookup_alter_eq. destruct (un !! u) as [l|] eqn:Hl; [|done]. cbn. f_equal.
    rewrite list_alter_alter_eq. transitivity (alter (fun a => a) i l); [|by apply list_alter_id].
    apply list_alter_ext; [|done]. intros a Ha. cbn. rewrite Ha. cbn. lia.
  - by rewrite !lookup_alter_ne.
Qed.

Lemma upd_semval_back i op sma sma0 :
  val_at sma0 i = val_at sma i ->
  upd_sem i (set_semval (fun v => v - op)) (upd_sem i (set_semval (fun _ => val_at sma i + op)) sma0)
  = sma0.
Proof.
  intros Hv. rewrite upd_sem_twice. apply upd_sem_id. intros s Hs. unfold val_at in Hv at 1.
  rewrite Hs in Hv. destruct s. unfold set_semval. cbn in *. f_equal. lia.
Qed.

Lemma val_at_upd_adj un i f sma j : val_at (upd_adj un i f sma) j = val_at sma j.
Proof. by destruct un. Qed.

(** The two ways the forward loop passes an operation. *)
Definition pass (un : option positive) (s : sembuf) (sma : sem_array) : sem_array :=
  let sma0 := if sop_has s SEM_UNDO
              then upd_adj un (sem_num s) (fun _ => adj_at sma un (sem_num s) - sem_op s) sma
              else sma in
  upd_sem (sem_num s) (set_semval (fun _ => val_at sma (sem_num s) + sem_op s)) sma0.

(** What it checks before. *)
Definition adj_fits (un : option positive) (s : sembuf) (sma : sem_array) : bool :=
  negb (sop_has s SEM_UNDO)
  || ((- SEMAEM - 1 <=? adj_at sma un (sem_num s) - sem_op s)
      && (adj_at sma un (sem_num s) - sem_op s <=? SEMAEM)).

Definition would_block (s : sembuf) (sma : sem_array) : bool :=
  ((sem_op s =? 0) && negb (val_at sma (sem_num s) =? 0)) || (val_at sma (sem_num s) + sem_op s <? 0).

Lemma semop_forward_cons un dn s todo sma :
  semop_forward un dn (s :: todo) sma =
  if would_block s sma then (StopBlock s, dn, sma)
  else if (val_at sma (sem_num s) + sem_op s >? SEMVMX) || negb (adj_fits un s sma)
  then (StopRange, dn, sma)
  else semop_forward un (s :: dn) todo (pass un s sma).
Proof.
  unfold would_block, adj_fits, pass. cbn [semop_forward].
  destruct ((sem_op s =? 0) && _); [done|]. cbn [orb]. destruct (_ <? 0); [done|].
  destruct (_ >? SEMVMX); [done|]. cbn [orb]. destruct (sop_has s SEM_UNDO); [|done]. cbn [negb orb].
  destruct (_ <? - SEMAEM - 1) eqn:H1; destruct (_ >? SEMAEM) eqn:H2;
    destruct (- SEMAEM - 1 <=? _) eqn:H3; destruct (_ <=? SEMAEM) eqn:H4; cbn; try done; zbool; lia.
Qed.

Lemma pass_queues un s sma : same_queues sma (pass un s sma).
Proof.
  unfold pass. cbn zeta. destruct (sop_has s SEM_UNDO).
  - etrans; [apply (upd_adj_queues un)|by apply upd_sem_queues].
  - by apply upd_sem_queues.
Qed.

Lemma pass_agree un s sma sma' : agree un sma sma' -> agree un (pass un s sma) (pass un s sma').
Proof.
  intros Hv. unfold pass. cbn zeta. rewrite (val_at_agree _ _ _ _ Hv). apply agree_upd_semval.
  destruct (sop_has s SEM_UNDO); [|done]. rewrite (adj_at_agree _ _ _ _ Hv). by apply agree_upd_adj.
Qed.

Lemma val_at_pass un s sma j :
  (sem_num s < nsems sma)%nat ->
  val_at (pass un s sma) j = val_at sma j + if decide (j = sem_num s) then sem_op s else 0.
Proof.
  intros Hs. unfold pass. cbn zeta. rewrite val_at_upd_semval.
  - destruct (sop_has s SEM_UNDO); rewrite ?val_at_upd_adj; case_decide; subst; lia.
  - destruct (sop_has s SEM_UNDO); [|done]. by destruct un.
Qed.

Lemma pass_back un s sma dn :
  semop_rollback un (s :: dn) (pass un s sma) = semop_rollback un dn sma.
Proof.
  cbn [semop_rollback]. unfold pass. cbn zeta. destruct (sop_has s SEM_UNDO).
  - by rewrite upd_semval_back, upd_adj_back by apply val_at_upd_adj.
  - by rewrite upd_semval_back.
Qed.

Lemma semop_forward_back un todo : forall dn sma st d sma1,
  semop_forward un dn todo sma = (st, d, sma1) ->
  semop_rollback un d sma1 = semop_rollback un dn sma.
Proof.
  induction todo as [|s todo IH]; intros dn sma st d sma1; [by intros [= <- <- <-]|].
  rewrite semop_forward_cons. destruct (would_block s sma); [by intros [= <- <- <-]|].
  destruct (_ || _); [by intros [= <- <- <-]|]. intros H. apply IH in H. by rewrite H, pass_back.
Qed.

Lemma semop_forward_queues un todo : forall dn sma st d sma1,
  semop_forward un dn todo sma = (st, d, sma1) -> same_queues sma sma1.
Proof.
  induction todo as [|s todo IH]; intros dn sma st d sma1; [by intros [= <- <- <-]|].
  rewrite semop_forward_cons. destruct (would_block s sma); [by intros [= <- <- <-]|].
  destruct (_ || _); [by intros [= <- <- <-]|]. intros H. etrans; [apply pass_queues|by eapply IH].
Qed.

Lemma semop_forward_agree un todo : forall dn sma sma',
  agree un sma sma' ->
  (semop_forward un dn todo sma).1 = (semop_forward un dn todo sma').1.
Proof.
  induction todo as [|s todo IH]; intros dn sma sma' Hv; [done|].
  rewrite !semop_forward_cons. unfold would_block, adj_fits.
  rewrite (adj_at_agree _ _ _ _ Hv), (val_at_agree _ _ _ _ Hv).
  destruct (_ || (_ <? 0)); [done|]. destruct (_ || negb _); [done|]. by apply IH, pass_agree.
Qed.

Lemma semop_set_pid_queues pid l : forall sma, same_queues sma (semop_set_pid pid l sma).
Proof.
  induction l as [|s l IH]; intros sma; [done|]. cbn. etrans; [|apply IH]. by apply upd_sem_queues.
Qed.

Lemma semop_set_pid_view pid l : forall sma, view (semop_set_pid pid l sma) = view sma.
Proof.
  induction l as [|s l IH]; intros sma; [done|]. cbn. rewrite IH. unfold view.
  by rewrite vals_upd_other.
Qed.

(** ** [perform_atomic_semop] *)

(** Entries that differ in the operation they are blocked on only. *)
Definition same_op (q q' : sem_queue) : Prop :=
  q_task q' = q_task q /\ q_undo q' = q_undo q /\ q_pid q' = q_pid q /\ q_sops q' = q_sops q
  /\ q_alter q' = q_alter q.

#[export] Instance same_op_preorder : PreOrder same_op.
Proof. split; [done|]. unfold same_op. intros ? ? ? ? ?. intuition congruence. Qed.

(** The operation would complete. *)
Definition completes (sma : sem_array) (q : sem_queue) : bool :=
  (perform_atomic_semop sma q).1.1 =? 0.

Lemma perform_same_op sma q e sma' q' :
  perform_atomic_semop sma q = (e, sma', q') -> same_op q q'.
Proof.
  unfold perform_atomic_semop. destruct (semop_forward _ _ _ _) as [[[|s|] d] sma1];
    by intros [= <- <- <-].
Qed.

Lemma perform_queues sma q e sma' q' :
  perform_atomic_semop sma q = (e, sma', q') -> same_queues sma sma'.
Proof.
  unfold perform_atomic_semop. destruct (semop_forward _ _ _ _) as [[st d] sma1] eqn:Hf.
  pose proof (semop_forward_back _ _ _ _ _ _ _ Hf) as Hb. apply semop_forward_queues in Hf.
  destruct st; intros [= <- <- <-].
  - etrans; [exact Hf|apply semop_set_pid_queues].
  - by rewrite Hb.
  - by rewrite Hb.
Qed.

(** An operation that does not complete has no effect. *)
Lemma perform_undone sma q e sma' q' :
  perform_atomic_semop sma q = (e, sma', q') -> e <> 0 -> sma' = sma.
Proof.
  unfold perform_atomic_semop. destruct (semop_forward _ _ _ _) as [[st d] sma1] eqn:Hf.
  pose proof (semop_forward_back _ _ _ _ _ _ _ Hf) as Hb.
  destruct st; intros [= <- <- <-] He; [done|apply Hb|apply Hb].
Qed.

Lemma perform_agree sma sma' q q' :
  agree (q_undo q) sma sma' -> same_op q q' ->
  (perform_atomic_semop sma q).1.1 = (perform_atomic_semop sma' q').1.1.
Proof.
  intros Hv (_ & Hu & _ & Hs & _). unfold perform_atomic_semop. rewrite Hu, Hs.
  pose proof (semop_forward_agree (q_undo q) (q_sops q) [] _ _ Hv) as H.
  destruct (semop_forward _ _ _ sma) as [[st d] s1], (semop_forward _ _ _ sma') as [[st' d'] s1'].
  injection H as -> ->. by destruct st'.
Qed.

(** ** The effect of the operations on values and adjustments *)

(** What [sops] add to semaphore [j]. *)
Fixpoint delta (sops : list sembuf) (j : nat) : Z :=
  match sops with
  | [] => 0
  | s :: sops => (if decide (j = sem_num s) then sem_op s else 0) + delta sops j
  end.

Definition sops_in (n : nat) (sops : list sembuf) : Prop := Forall (fun s => (sem_num s < n)%nat) sops.

Definition vals_ok (sma : sem_array) : Prop := Forall (fun v => 0 <= v <= SEMVMX) (vals sma).

Definition undos_ok (sma : sem_array) : Prop :=
  forall u l, undos sma !! u = Some l ->
    length l = nsems sma /\ Forall (fun a => - SEMAEM - 1 <= a <= SEMAEM) l.

(** SEM_UNDO operations have an undo structure. *)
Definition undo_for (sma : sem_array) (un : option positive) (sops : list sembuf) : Prop :=
  (Exists (fun s => sop_has s SEM_UNDO = true) sops -> is_Some un)
  /\ forall u, un = Some u -> is_Some (undos sma !! u).

Lemma val_at_range sma i : vals_ok sma -> 0 <= val_at sma i <= SEMVMX.
Proof.
  intros Hv. rewrite val_at_vals. destruct (vals sma !! i) as [v|] eqn:Hi; [|unfold SEMVMX; cbn; lia].
  cbn. by eapply Forall_lookup_1 in Hv.
Qed.

Lemma vals_ok_val_at sma :
  (forall i, (i < nsems sma)%nat -> 0 <= val_at sma i <= SEMVMX) -> vals_ok sma.
Proof.
  intros H. apply Forall_lookup_2. intros i v Hi. pose proof (lookup_lt_Some _ _ _ Hi) as Hl.
  rewrite length_vals in Hl. specialize (H i Hl). by rewrite val_at_vals, Hi in H.
Qed.

Lemma adj_at_range sma un i : undos_ok sma -> - SEMAEM - 1 <= adj_at sma un i <= SEMAEM.
Proof.
  intros Hu. assert (- SEMAEM - 1 <= 0 <= SEMAEM) as H0 by (unfold SEMAEM, SEMVMX; lia).
  destruct un as [u|]; [|exact H0]. cbn. destruct (undos sma !! u) as [l|] eqn:Hl; [|exact H0].
  cbn. destruct (l !! i) as [a|] eqn:Ha; [|exact H0]. destruct (Hu _ _ Hl) as [_ Hr].
  cbn. by eapply Forall_lookup_1 in Hr.
Qed.

Lemma undos_ok_upd_adj un i a sma :
  undos_ok sma -> - SEMAEM - 1 <= a <= SEMAEM -> undos_ok (upd_adj un i (fun _ => a) sma).
Proof.
  intros Hu Ha. destruct un as [u|]; [|done]. intros u' l. cbn. destruct (decide (u' = u)) as [->|Hne].
  - rewrite lookup_alter_eq. destruct (undos sma !! u) as [l0|] eqn:Hl; [|done]. intros [= <-].
    destruct (Hu _ _ Hl) as [Hlen Hr]. rewrite length_alter. split; [done|]. by apply Forall_alter.
  - rewrite lookup_alter_ne by done. apply Hu.
Qed.

Lemma nsems_view sma sma' : view sma' = view sma -> nsems sma' = nsems sma.
Proof. intros [= Hv _]. by rewrite <- !length_vals, Hv. Qed.

Lemma undos_ok_same sma sma' :
  undos sma' = undos sma -> nsems sma' = nsems sma -> undos_ok sma -> undos_ok sma'.
Proof. intros Hu Hn H u l. rewrite Hu, Hn. apply H. Qed.

Lemma vals_ok_view sma sma' : view sma' = view sma -> vals_ok sma -> vals_ok sma'.
Proof. intros [= Hv _]. unfold vals_ok. by rewrite Hv. Qed.

Lemma pass_ok un s sma :
  undos_ok sma -> vals_ok sma -> (sem_num s < nsems sma)%nat -> would_block s sma = false ->
  (val_at sma (sem_num s) + sem_op s >? SEMVMX) || negb (adj_fits un s sma) = false ->
  undos_ok (pass un s sma) /\ vals_ok (pass un s sma).
Proof.
  intros Hu Hv Hs Hb Hr. apply orb_false_iff in Hr as [Hr Ha]. apply orb_false_iff in Hb as [_ Hb]. split.
  - unfold pass. cbn zeta. eapply undos_ok_same; [apply undos_upd_sem|apply length_alter|].
    unfold adj_fits in Ha. destruct (sop_has s SEM_UNDO); [|done].
    apply undos_ok_upd_adj; [done|]. cbn in Ha. zbool. lia.
  - apply vals_ok_val_at. intros i Hi. rewrite val_at_pass by done. pose proof (val_at_range _ i Hv).
    case_decide; [subst i|]; zbool; lia.
Qed.

Lemma adj_at_pass un s sma j :
  undos_ok sma -> (sem_num s < nsems sma)%nat -> undo_for sma un [s] ->
  adj_at (pass un s sma) un j
  = adj_at sma un j - if sop_has s SEM_UNDO && bool_decide (j = sem_num s) then sem_op s else 0.
Proof.
  intros Hu Hs Hun. unfold pass. cbn zeta. destruct (sop_has s SEM_UNDO) eqn:Hf; cbn [andb].
  2: { change (adj_at (upd_sem _ _ sma) un j) with (adj_at sma un j). lia. }
  destruct Hun as [Hf1 Hf2]. destruct un as [u|]; [|by destruct Hf1; [constructor|]].
  destruct (Hf2 u eq_refl) as [l Hl]. destruct (Hu _ _ Hl) as [Hlen _].
  cbn. rewrite lookup_alter_eq, Hl. cbn. case_bool_decide as Hj.
  - subst j. rewrite list_lookup_alter_eq. rewrite <- Hlen in Hs.
    destruct (lookup_lt_is_Some_2 _ _ Hs) as [a Ha]. by rewrite Ha.
  - rewrite list_lookup_alter_ne by done. lia.
Qed.

(** In turn each operation finds its semaphore at zero, or leaves it within
    the limits. *)
Definition admitted (v : nat -> Z) (sops : list sembuf) : Prop :=
  forall pre s post, sops = pre ++ s :: post ->
    (sem_op s = 0 -> v (sem_num s) + delta pre (sem_num s) = 0)
    /\ 0 <= v (sem_num s) + delta pre (sem_num s) + sem_op s <= SEMVMX.

Abbreviation undo_sops sops := (filter (fun s => sop_has s SEM_UNDO = true) sops).

Lemma admitted_cons v v' s sops :
  (sem_op s = 0 -> v (sem_num s) = 0) -> 0 <= v (sem_num s) + sem_op s <= SEMVMX ->
  (forall j, v' j = v j + if decide (j = sem_num s) then sem_op s else 0) ->
  admitted v' sops -> admitted v (s :: sops).
Proof.
  intros Hz Hr Hv Ha pre x post Heq. destruct pre as [|y pre]; injection Heq as <- Heq.
  - cbn. split; [intros; rewrite Hz by done; lia|lia].
  - specialize (Ha _ _ _ Heq). rewrite Hv in Ha. cbn [delta]. destruct Ha as [H1 H2].
    split; [intros Hx; specialize (H1 Hx); lia|lia].
Qed.

Lemma undo_for_step sma sma' un s sops :
  undo_for sma un (s :: sops) -> (forall u, is_Some (undos sma !! u) -> is_Some (undos sma' !! u)) ->
  undo_for sma un [s] /\ undo_for sma' un sops.
Proof.
  intros [Hu1 Hu2] Hk. split; split; [|done| |by auto].
  - intros Hex. apply Hu1. inversion Hex as [? ? H|? ? H]; [by apply Exists_cons_hd|by apply Exists_nil in H].
  - intros Hex. by apply Hu1, Exists_cons_tl.
Qed.

Lemma pass_undos_dom un s sma u : is_Some (undos sma !! u) -> is_Some (undos (pass un s sma) !! u).
Proof.
  unfold pass. cbn zeta. rewrite undos_upd_sem. destruct (sop_has s SEM_UNDO); [|done].
  destruct un as [u'|]; [|done]. cbn. destruct (decide (u = u')) as [->|Hne].
  - rewrite lookup_alter_eq. intros [l ->]. by eexists.
  - by rewrite lookup_alter_ne.
Qed.

(** Where and why the loop stops. *)
Definition stopped (st : semop_stop) (un : option positive) (sma : sem_array) (post : list sembuf) : Prop :=
  match st with
  | StopDone => post = []
  | StopBlock s => (exists l, post = s :: l) /\ would_block s sma = true
  | StopRange => exists s l, post = s :: l /\ would_block s sma = false
      /\ (val_at sma (sem_num s) + sem_op s > SEMVMX \/ adj_fits un s sma = false)
  end.

(** What the loop establishes from [sma] to its stop in [sma1]. *)
Definition forward_spec (un : option positive) (todo : list sembuf) (sma : sem_array) (st : semop_stop)
    (sma1 : sem_array) : Prop :=
  undos_ok sma1 /\ vals_ok sma1 /\ exists pre post, todo = pre ++ post
    /\ stopped st un sma1 post
    /\ (forall j, val_at sma1 j = val_at sma j + delta pre j)
    /\ (forall j, adj_at sma1 un j = adj_at sma un j - delta (undo_sops pre) j)
    /\ admitted (val_at sma) pre.

Lemma forward_spec_here un todo sma st :
  undos_ok sma -> vals_ok sma -> stopped st un sma todo -> forward_spec un todo sma st sma.
Proof.
  intros Hu Hv Hst. split; [done|]. split; [done|]. exists [], todo. split; [done|]. split; [done|].
  split; [intros j; cbn; lia|]. split; [intros j; cbn; lia|]. by intros [|y l] s post Heq.
Qed.

Lemma semop_forward_spec un todo : forall dn sma st d sma1,
  undos_ok sma -> vals_ok sma -> sops_in (nsems sma) todo -> undo_for sma un todo ->
  semop_forward un dn todo sma = (st, d, sma1) -> forward_spec un todo sma st sma1.
Proof.
  induction todo as [|s todo IH]; intros dn sma st d sma1 Hu Hv Hin Hun.
  { intros [= <- <- <-]. by apply forward_spec_here. }
  rewrite semop_forward_cons. destruct (would_block s sma) eqn:Hb.
  { intros [= <- <- <-]. apply forward_spec_here; [done..|]. split; [by eexists|done]. }
  destruct (_ || negb _) eqn:Hr.
  { intros [= <- <- <-]. apply forward_spec_here; [done..|]. exists s, todo. split; [done|]. split; [done|].
    apply orb_true_iff in Hr as [Hr|Hr]; [left; zbool; lia|right]. by apply negb_true_iff in Hr. }
  intros Hf. inversion Hin as [|? ? Hs Hin']; subst.
  destruct (pass_ok un s sma) as [Hu1 Hv1]; try done.
  destruct (undo_for_step _ (pass un s sma) _ _ _ Hun) as [Hun1 Hun2]; [intros; by apply pass_undos_dom|].
  assert (nsems (pass un s sma) = nsems sma) as Hns by apply (pass_queues un s sma).
  apply IH in Hf as (Hu2 & Hv2 & pre & post & -> & Hst & Hval & Hadj & Hadm); try done; [|by rewrite Hns].
  split_and!; try done. exists (s :: pre), post. split_and!; try done.
  - intros j. rewrite Hval, val_at_pass by done. cbn [delta]. lia.
  - intros j. rewrite Hadj, adj_at_pass by done. rewrite filter_cons.
    destruct (sop_has s SEM_UNDO); cbn [andb].
    + rewrite decide_True by done. cbn [delta]. case_bool_decide; case_decide; try done; lia.
    + rewrite decide_False by done. lia.
  - apply orb_false_iff in Hb as [Hb1 Hb2]. apply orb_false_iff in Hr as [Hr _].
    eapply admitted_cons; [|zbool; lia|intros j; by apply val_at_pass|exact Hadm].
    intros Hz. rewrite Hz in Hb1. cbn in Hb1. zbool. lia.
Qed.

(** ** Completed and blocked operations *)

Definition arr_ok (sma : sem_array) : Prop := undos_ok sma /\ vals_ok sma.

(** The entry can be performed on the array. *)
Definition q_ok (sma : sem_array) (q : sem_queue) : Prop :=
  sops_in (nsems sma) (q_sops q) /\ undo_for sma (q_undo q) (q_sops q).

Lemma perform_spec sma q e sma' q' :
  arr_ok sma -> q_ok sma q -> perform_atomic_semop sma q = (e, sma', q') ->
  exists st sma1, forward_spec (q_undo q) (q_sops q) sma st sma1 /\
    match st with
    | StopDone => e = 0 /\ view sma' = view sma1
    | StopBlock s => e = (if sop_has s IPC_NOWAIT then - EAGAIN else 1) /\ q' = set_blocking q s
    | StopRange => e = - ERANGE
    end.
Proof.
  intros [Hu Hv] [Hs Hun]. unfold perform_atomic_semop.
  destruct (semop_forward _ _ _ _) as [[st d] sma1] eqn:Hf.
  intros Hp. exists st, sma1. split; [by eapply semop_forward_spec|].
  destruct st; injection Hp as <- <- <-; [|done..]. split; [done|apply semop_set_pid_view].
Qed.

Lemma perform_completed sma q sma' q' :
  arr_ok sma -> q_ok sma q -> perform_atomic_semop sma q = (0, sma', q') ->
  arr_ok sma' /\ admitted (val_at sma) (q_sops q)
  /\ (forall j, val_at sma' j = val_at sma j + delta (q_sops q) j)
  /\ (forall j, adj_at sma' (q_undo q) j = adj_at sma (q_undo q) j - delta (undo_sops (q_sops q)) j).
Proof.
  intros Ha Hq Hp.
  destruct (perform_spec _ _ _ _ _ Ha Hq Hp) as (st & sma1 & (Hu & Hv & pre & post & Heq & Hst & Hval & Hadj & Hadm) & He).
  destruct st as [|s|]; [|by destruct He as [He _]; destruct (sop_has s IPC_NOWAIT)|done].
  destruct He as [_ Hview]. cbn in Hst. subst post. rewrite app_nil_r in Heq. rewrite Heq.
  split; [split|].
  - eapply undos_ok_same; [|by apply nsems_view|exact Hu]. by injection Hview.
  - by apply (vals_ok_view sma1).
  - split; [done|]. split; intros j; [by rewrite (val_at_view _ _ _ Hview)|by rewrite (adj_at_view _ _ _ _ Hview)].
Qed.

Lemma arr_ok_view sma sma' : view sma' = view sma -> arr_ok sma -> arr_ok sma'.
Proof.
  intros Hv [Hu Ha]. split; [|by apply (vals_ok_view sma)].
  eapply undos_ok_same; [|by apply nsems_view|exact Hu]. by injection Hv.
Qed.

(** The operation that blocks the entry, when it neither completes nor fails. *)
Lemma perform_blocked sma q e sma' q' :
  arr_ok sma -> q_ok sma q -> perform_atomic_semop sma q = (e, sma', q') -> 0 < e ->
  exists pre s post, q_sops q = pre ++ s :: post /\ q_blocking q' = Some s
    /\ sop_has s IPC_NOWAIT = false
    /\ (sem_op s = 0 /\ val_at sma (sem_num s) + delta pre (sem_num s) <> 0
        \/ val_at sma (sem_num s) + delta pre (sem_num s) + sem_op s < 0).
Proof.
  intros Ha Hq Hp He.
  destruct (perform_spec _ _ _ _ _ Ha Hq Hp) as (st & sma1 & (_ & _ & pre & post & Heq & Hst & Hval & _) & Hr).
  destruct st as [|s|]; [lia| |unfold ERANGE in Hr; lia]. destruct Hr as [-> ->].
  destruct (sop_has s IPC_NOWAIT) eqn:Hn; [unfold EAGAIN in He; lia|].
  destruct Hst as [[l ->] Hb]. exists pre, s, l. split_and!; try done.
  unfold would_block in Hb. rewrite Hval in Hb. apply orb_true_iff in Hb as [Hb|Hb]; zbool; lia.
Qed.

(** *** Operations that only wait for zero *)

Definition all_zero_ops (sops : list sembuf) : Prop := Forall (fun s => sem_op s = 0) sops.
Definition zeroes (sma : sem_array) (sops : list sembuf) : Prop :=
  Forall (fun s => val_at sma (sem_num s) = 0) sops.

Lemma delta_zero sops j : all_zero_ops sops -> delta sops j = 0.
Proof. induction 1 as [|s sops Hs _ IH]; [done|]. cbn. rewrite IH, Hs. by case_decide. Qed.

Lemma pass_zero_view un s sma : sem_op s = 0 -> view (pass un s sma) = view sma.
Proof.
  intros Hs. unfold view, pass. cbn zeta. rewrite vals_upd, undos_upd_sem, Hs. f_equal.
  - replace (vals (if sop_has s SEM_UNDO then _ else sma)) with (vals sma)
      by (destruct (sop_has s SEM_UNDO); by rewrite ?vals_upd_adj).
    transitivity (alter (fun a => a) (sem_num s) (vals sma)); [|by apply list_alter_id].
    apply list_alter_ext; [|done]. intros v Hv. rewrite val_at_vals, Hv. cbn. lia.
  - destruct (sop_has s SEM_UNDO); [|done]. destruct un as [u|]; [|done]. cbn.
    apply map_eq. intros u'. destruct (decide (u' = u)) as [->|Hne]; [|by rewrite lookup_alter_ne].
    rewrite lookup_alter_eq. destruct (undos sma !! u) as [l|]; [|done]. cbn. f_equal.
    transitivity (alter (fun a => a) (sem_num s) l); [|by apply list_alter_id].
    apply list_alter_ext; [|done]. intros a Ha. rewrite Ha. cbn. lia.
Qed.

Lemma forward_zero_view un todo : forall dn sma,
  all_zero_ops todo -> view (semop_forward un dn todo sma).2 = view sma.
Proof.
  induction todo as [|s todo IH]; intros dn sma Hz; [done|]. inversion Hz; subst.
  rewrite semop_forward_cons. destruct (would_block s sma); [done|]. destruct (_ || _); [done|].
  rewrite IH by done. by apply pass_zero_view.
Qed.

Lemma perform_const_view sma q e sma' q' :
  all_zero_ops (q_sops q) -> perform_atomic_semop sma q = (e, sma', q') -> view sma' = view sma.
Proof.
  intros Hz Hp. destruct (decide (e = 0)) as [->|He]; [|by rewrite (perform_undone _ _ _ _ _ Hp)].
  pose proof (forward_zero_view (q_undo q) (q_sops q) [] sma Hz) as Hv.
  unfold perform_atomic_semop in Hp. destruct (semop_forward _ _ _ _) as [[st d] sma1].
  destruct st as [|s|]; [|by destruct (sop_has s IPC_NOWAIT)|done].
  injection Hp as <- _. rewrite semop_set_pid_view. exact Hv.
Qed.

Lemma const_completes sma q :
  arr_ok sma -> q_ok sma q -> all_zero_ops (q_sops q) -> zeroes sma (q_sops q) <-> completes sma q = true.
Proof.
  intros Ha Hq Hz. unfold completes. destruct (perform_atomic_semop sma q) as [[e sma'] q'] eqn:Hp. cbn.
  split; intros H.
  - destruct (perform_spec _ _ _ _ _ Ha Hq Hp) as (st & sma1 & (Hu & _ & pre & post & Heq & Hst & Hval & Hadj & _) & Hr).
    assert (forall s l, post = s :: l -> sem_op s = 0 /\ val_at sma1 (sem_num s) = 0) as Hpost.
    { intros s l ->. unfold all_zero_ops in Hz. unfold zeroes in H. rewrite Heq in Hz, H.
      apply Forall_app in Hz as [Hz Hz']. apply Forall_app in H as [_ H]. inversion Hz'; subst. inversion H; subst.
      rewrite Hval, delta_zero by done. split; [done|lia]. }
    destruct st as [|s|]; [apply Z.eqb_eq, Hr| |]; exfalso.
    + destruct Hst as [[l ->] Hb]. destruct (Hpost _ _ eq_refl) as [Ho Hs].
      unfold would_block in Hb. by rewrite Ho, Hs in Hb.
    + destruct Hst as (s & l & -> & _ & [Hb|Hb]); destruct (Hpost _ _ eq_refl) as [Ho Hs].
      * unfold SEMVMX in Hb. lia.
      * unfold adj_fits in Hb. pose proof (adj_at_range sma1 (q_undo q) (sem_num s) Hu).
        destruct (sop_has s SEM_UNDO); [|done]. cbn in Hb. rewrite Ho in Hb. zbool. lia.
  - zbool. subst e. apply perform_completed in Hp as (_ & Hadm & _); [|done..].
    apply Forall_forall. intros s Hs. apply list_elem_of_split in Hs as (pre & post & Heq).
    destruct (Hadm _ _ _ Heq) as [H0 _]. unfold all_zero_ops in Hz. rewrite Heq in Hz.
    apply Forall_app in Hz as [Hz Hz']. inversion Hz'; subst. rewrite delta_zero in H0 by done. specialize (H0 ltac:(done)). lia.
Qed.
