(* ===== verification/SysvSemQueues.v ===== *)
(** * System V semaphores: the queues of sleeping operations

    The laws of the queues, what a state looks like under the lock, and what
    waking operations keep: nobody is lost, everybody stays where they belong. *)

From stdpp Require Import gmap list.
From S2P Require Import Prelude SysvSem SysvSemFacts.

(** ** Laws of the queues *)

Definition slot_ok (sma : sem_array) (n : option nat) : Prop :=
  match n with Some i => (i < nsems sma)%nat | None => True end.

Lemma lookup_base_ok sma i : (i < nsems sma)%nat -> is_Some (sem_base sma !! i).
Proof. apply lookup_lt_is_Some_2. Qed.

Lemma get_alter_ok sma n q : q ∈ get_alter sma n -> slot_ok sma n.
Proof.
  destruct n as [i|]; [|done]. cbn. destruct (sem_base sma !! i) eqn:Hi; [|by intros ?%not_elem_of_nil].
  intros _. by eapply lookup_lt_Some.
Qed.

Lemma get_const_ok sma n q : q ∈ get_const sma n -> slot_ok sma n.
Proof.
  destruct n as [i|]; [|done]. cbn. destruct (sem_base sma !! i) eqn:Hi; [|by intros ?%not_elem_of_nil].
  intros _. by eapply lookup_lt_Some.
Qed.

Lemma nsems_put_alter n l sma : nsems (put_alter n l sma) = nsems sma.
Proof. destruct n; [apply length_alter|done]. Qed.

Lemma nsems_put_const n l sma : nsems (put_const n l sma) = nsems sma.
Proof. destruct n; [apply length_alter|done]. Qed.

Lemma view_put_alter n l sma : view (put_alter n l sma) = view sma.
Proof. destruct n; [|done]. unfold view. cbn [put_alter]. by rewrite vals_upd_other. Qed.

Lemma view_put_const n l sma : view (put_const n l sma) = view sma.
Proof. destruct n; [|done]. unfold view. cbn [put_const]. by rewrite vals_upd_other. Qed.

Lemma count_put_alter n l sma : complex_count (put_alter n l sma) = complex_count sma.
Proof. by destruct n. Qed.

Lemma count_put_const n l sma : complex_count (put_const n l sma) = complex_count sma.
Proof. by destruct n. Qed.

Lemma get_alter_put n l sma m :
  slot_ok sma n -> get_alter (put_alter n l sma) m = if decide (m = n) then l else get_alter sma m.
Proof.
  intros Hn. destruct n as [i|], m as [j|]; try done. cbn in Hn. cbn [put_alter get_alter upd_sem set_base sem_base].
  case_decide as Hj.
  - injection Hj as ->. rewrite list_lookup_alter_eq. destruct (lookup_base_ok _ _ Hn) as [s ->]. done.
  - rewrite list_lookup_alter_ne by congruence. done.
Qed.

Lemma get_const_put n l sma m :
  slot_ok sma n -> get_const (put_const n l sma) m = if decide (m = n) then l else get_const sma m.
Proof.
  intros Hn. destruct n as [i|], m as [j|]; try done. cbn in Hn. cbn [put_const get_const upd_sem set_base sem_base].
  case_decide as Hj.
  - injection Hj as ->. rewrite list_lookup_alter_eq. destruct (lookup_base_ok _ _ Hn) as [s ->]. done.
  - rewrite list_lookup_alter_ne by congruence. done.
Qed.

Lemma get_alter_put_const n l sma m : get_alter (put_const n l sma) m = get_alter sma m.
Proof.
  destruct n as [i|], m as [j|]; try done. cbn [put_const get_alter upd_sem set_base sem_base].
  rewrite list_lookup_alter. destruct (decide (i = j)) as [->|]; [|done]. by destruct (sem_base sma !! j).
Qed.

Lemma get_const_put_alter n l sma m : get_const (put_alter n l sma) m = get_const sma m.
Proof.
  destruct n as [i|], m as [j|]; try done. cbn [put_alter get_const upd_sem set_base sem_base].
  rewrite list_lookup_alter. destruct (decide (i = j)) as [->|]; [|done]. by destruct (sem_base sma !! j).
Qed.

(** ** Everybody who sleeps *)


Definition at_sem (sma : sem_array) (i : nat) : list sem_queue :=
  get_const sma (Some i) ++ get_alter sma (Some i).

Lemma pending_alt sma :
  pending sma = get_const sma None ++ get_alter sma None ++ concat (at_sem sma <$> seq 0 (nsems sma)).
Proof.
  unfold pending. do 2 f_equal. cbn. f_equal. apply list_eq. intros i. rewrite !list_lookup_fmap.
  destruct (sem_base sma !! i) as [s|] eqn:Hs.
  - rewrite lookup_seq_lt by (by eapply lookup_lt_Some). unfold at_sem. cbn. by rewrite Hs.
  - rewrite lookup_seq_ge; [done|]. by apply lookup_ge_None_1 in Hs.
Qed.

Lemma elem_of_pending sma q :
  q ∈ pending sma <-> exists n, q ∈ get_const sma n \/ q ∈ get_alter sma n.
Proof.
  rewrite pending_alt, !elem_of_app. split.
  - intros [H|[H|H]]; [exists None; by left|exists None; by right|].
    apply list_elem_of_In, in_concat in H as (l & Hl & Hq).
    apply list_elem_of_In, list_elem_of_fmap in Hl as (i & -> & _).
    apply list_elem_of_In, elem_of_app in Hq. by exists (Some i).
  - intros [[i|] H]; [|by destruct H; auto]. right. right. apply list_elem_of_In, in_concat. exists (at_sem sma i).
    split; [|by apply list_elem_of_In, elem_of_app]. apply list_elem_of_In, list_elem_of_fmap. exists i.
    split; [done|]. apply elem_of_seq. cbn. split; [lia|].
    destruct H as [H|H]; [by apply get_const_ok in H|by apply get_alter_ok in H].
Qed.

Lemma pending_same sma sma' : same_queues sma sma' -> pending sma' = pending sma.
Proof.
  intros (Ha & Hc & _ & Hn). rewrite !pending_alt, Ha, Hc, Hn. do 3 f_equal.
  apply list_fmap_ext. intros _ i _. unfold at_sem. by rewrite Ha, Hc.
Qed.

Lemma at_sem_split sma i :
  (i < nsems sma)%nat ->
  exists r, concat (at_sem sma <$> seq 0 (nsems sma)) ≡ₚ at_sem sma i ++ r
    /\ forall f, (forall j, j <> i -> f j = at_sem sma j) -> concat (f <$> seq 0 (nsems sma)) ≡ₚ f i ++ r.
Proof.
  intros Hi. assert (i ∈ seq 0 (nsems sma)) as Hin by (apply elem_of_seq; lia).
  apply list_elem_of_split in Hin as (l1 & l2 & Hl). pose proof (NoDup_seq 0 (nsems sma)) as Hnd.
  rewrite Hl in *. apply NoDup_app in Hnd as (_ & H1 & H2). apply NoDup_cons in H2 as [H2 _].
  exists (concat (at_sem sma <$> l1) ++ concat (at_sem sma <$> l2)).
  assert (forall f, (forall j, j <> i -> f j = at_sem sma j) ->
    concat (f <$> l1 ++ i :: l2) ≡ₚ f i ++ concat (at_sem sma <$> l1) ++ concat (at_sem sma <$> l2)) as H.
  { intros f Hf. assert (forall l : list nat, i ∉ l -> f <$> l = at_sem sma <$> l) as Hfl.
    { intros l Hl'. apply list_fmap_ext. intros k j Hj. apply Hf. intros ->. by apply list_elem_of_lookup_2 in Hj. }
    rewrite fmap_app, concat_app, fmap_cons. cbn [concat].
    rewrite (Hfl l1), (Hfl l2); [|done|intros Hx; apply (H1 i Hx); by left]. apply Permutation_app_swap_app. }
  split; [by apply H|exact H].
Qed.

Lemma pending_put_alter n sma :
  slot_ok sma n -> exists r, pending sma ≡ₚ get_alter sma n ++ r
    /\ forall l, pending (put_alter n l sma) ≡ₚ l ++ r.
Proof.
  intros Hn. destruct n as [i|].
  - destruct (at_sem_split sma i Hn) as (r & Hr & Hf).
    exists (get_const sma None ++ get_alter sma None ++ get_const sma (Some i) ++ r). split.
    + rewrite pending_alt, Hr. unfold at_sem. solve_Permutation.
    + intros l. rewrite pending_alt, nsems_put_alter, Hf.
      2: { intros j Hj. unfold at_sem. rewrite get_const_put_alter, get_alter_put by done. by rewrite decide_False by congruence. }
      unfold at_sem. rewrite !get_const_put_alter, !get_alter_put by done.
      rewrite decide_False, decide_True by done. solve_Permutation.
  - exists (get_const sma None ++ concat (at_sem sma <$> seq 0 (nsems sma))). split.
    + rewrite pending_alt. solve_Permutation.
    + intros l. rewrite pending_alt, get_alter_put, decide_True, get_const_put_alter, nsems_put_alter by done.
      rewrite (list_fmap_ext _ (at_sem sma)). 2: { intros _ j _. unfold at_sem. rewrite get_const_put_alter. done. }
      solve_Permutation.
Qed.

Lemma pending_put_const n sma :
  slot_ok sma n -> exists r, pending sma ≡ₚ get_const sma n ++ r
    /\ forall l, pending (put_const n l sma) ≡ₚ l ++ r.
Proof.
  intros Hn. destruct n as [i|].
  - destruct (at_sem_split sma i Hn) as (r & Hr & Hf).
    exists (get_const sma None ++ get_alter sma None ++ get_alter sma (Some i) ++ r). split.
    + rewrite pending_alt, Hr. unfold at_sem. solve_Permutation.
    + intros l. rewrite pending_alt, nsems_put_const, Hf.
      2: { intros j Hj. unfold at_sem. rewrite get_alter_put_const, get_const_put by done. by rewrite decide_False by congruence. }
      unfold at_sem. rewrite !get_alter_put_const, !get_const_put by done.
      rewrite decide_False, decide_True by done. solve_Permutation.
  - exists (get_alter sma None ++ concat (at_sem sma <$> seq 0 (nsems sma))). split.
    + rewrite pending_alt. solve_Permutation.
    + intros l. rewrite pending_alt, get_const_put, decide_True, get_alter_put_const, nsems_put_const by done.
      rewrite (list_fmap_ext _ (at_sem sma)). 2: { intros _ j _. unfold at_sem. rewrite get_alter_put_const. done. }
      solve_Permutation.
Qed.

(** ** Waking *)

Definition strip (q : sem_queue) : sem_queue :=
  SemQueue (q_task q) (q_undo q) (q_pid q) (q_sops q) None (q_alter q).

Definition complex_in (l : list sem_queue) : Z :=
  Z.of_nat (length (filter (fun q => (1 < length (q_sops q))%nat) l)).

(** The counter of the array and the operations it counts. *)
Definition miscount (sma : sem_array) : Z :=
  complex_count sma - complex_in (get_alter sma None) - complex_in (get_const sma None).

(** Entries leave the queues for [pt] and do nothing else. *)
Record woken (sma : sem_array) (pt : wakeups) (sma' : sem_array) (pt' : wakeups) : Prop := {
  wk_nsems : nsems sma' = nsems sma;
  wk_undos : forall u, is_Some (undos sma !! u) -> is_Some (undos sma' !! u);
  wk_alter : forall n q', q' ∈ get_alter sma' n -> exists q, q ∈ get_alter sma n /\ same_op q q';
  wk_const : forall n q', q' ∈ get_const sma' n -> exists q, q ∈ get_const sma n /\ same_op q q';
  wk_count : miscount sma' = miscount sma;
  wk_stock : exists new, pt' = pt ++ new /\ strip <$> pending sma ≡ₚ strip <$> (pending sma' ++ new.*1);
}.

Lemma strip_same q q' : same_op q q' -> strip q' = strip q.
Proof. intros (H1 & H2 & H3 & H4 & H5). unfold strip. by rewrite H1, H2, H3, H4, H5. Qed.

Lemma cnt_app l1 l2 : complex_in (l1 ++ l2) = complex_in l1 + complex_in l2.
Proof. unfold complex_in. rewrite filter_app, length_app. lia. Qed.

Lemma cnt_cons q l : complex_in (q :: l) = (if (1 <? length (q_sops q))%nat then 1 else 0) + complex_in l.
Proof.
  unfold complex_in. rewrite filter_cons. case_decide as Hd.
  - apply Nat.ltb_lt in Hd. rewrite Hd. cbn [length]. lia.
  - apply Nat.ltb_nlt in Hd. by rewrite Hd.
Qed.

Lemma woken_refl sma pt : woken sma pt sma pt.
Proof.
  split; try done; [intros n q Hq; by exists q..|]. exists []. by rewrite !app_nil_r.
Qed.

Lemma woken_trans sma1 pt1 sma2 pt2 sma3 pt3 :
  woken sma1 pt1 sma2 pt2 -> woken sma2 pt2 sma3 pt3 -> woken sma1 pt1 sma3 pt3.
Proof.
  intros [A1 A2 A3 A4 A5 (n1 & A6 & A7)] [B1 B2 B3 B4 B5 (n2 & B6 & B7)]. split; try congruence.
  - auto.
  - intros n q (q1 & H1 & S1)%B3. apply A3 in H1 as (q2 & H2 & S2). exists q2. split; [done|by etrans].
  - intros n q (q1 & H1 & S1)%B4. apply A4 in H1 as (q2 & H2 & S2). exists q2. split; [done|by etrans].
  - exists (n1 ++ n2). split; [by rewrite B6, A6, (assoc_L (++))|].
    rewrite !fmap_app in *. rewrite A7, B7. solve_Permutation.
Qed.

(** *** The steps of the loops *)

Lemma uncount_get_alter q sma n : get_alter (uncount q sma) n = get_alter sma n.
Proof. unfold uncount. by destruct (1 <? _)%nat. Qed.

Lemma uncount_get_const q sma n : get_const (uncount q sma) n = get_const sma n.
Proof. unfold uncount. by destruct (1 <? _)%nat. Qed.

Lemma uncount_view q sma : view (uncount q sma) = view sma.
Proof. unfold uncount. by destruct (1 <? _)%nat. Qed.

Lemma uncount_count q sma :
  complex_count (uncount q sma) = complex_count sma - if (1 <? length (q_sops q))%nat then 1 else 0.
Proof. unfold uncount. destruct (1 <? _)%nat; cbn; lia. Qed.

Lemma view_undos sma sma' : view sma' = view sma -> undos sma' = undos sma.
Proof. by intros [= _ ?]. Qed.

Lemma pending_uncount q sma : pending (uncount q sma) = pending sma.
Proof. unfold uncount. by destruct (1 <? _)%nat. Qed.

Lemma slot_ok_same sma sma' n : nsems sma' = nsems sma -> slot_ok sma n -> slot_ok sma' n.
Proof. intros Hn. destruct n; [|done]. cbn. by rewrite Hn. Qed.

Lemma elem_of_mid_same {A} (R : A -> A -> Prop) `{!Reflexive R} (l1 l2 : list A) x y z :
  R x y -> z ∈ l1 ++ y :: l2 -> exists w, w ∈ l1 ++ x :: l2 /\ R w z.
Proof.
  intros Hxy [Hz|[->|Hz]%elem_of_cons]%elem_of_app.
  - exists z. split; [|done]. apply elem_of_app. by left.
  - exists x. split; [|done]. apply elem_of_app. right. by left.
  - exists z. split; [|done]. apply elem_of_app. right. by right.
Qed.

Lemma elem_of_mid_drop {A} (l1 l2 : list A) x z : z ∈ l1 ++ l2 -> z ∈ l1 ++ x :: l2.
Proof. rewrite !elem_of_app, elem_of_cons. tauto. Qed.

(** An entry is taken off the queue and put on [pt]. *)
Lemma woken_const_off n l1 q0 q l2 e sma pt :
  get_const sma n = l1 ++ q0 :: l2 -> same_op q0 q -> (n <> None -> (length (q_sops q) <= 1)%nat) ->
  woken sma pt (put_const n (l1 ++ l2) (uncount q sma)) (pt ++ [(q, e)]).
Proof.
  intros Hg Hs Hc. pose proof (uncount_view q sma) as Hv. pose proof (nsems_view _ _ Hv) as Hns.
  assert (slot_ok sma n) as Hok by (apply (get_const_ok _ _ q0); rewrite Hg; apply elem_of_app; right; by left).
  pose proof (slot_ok_same _ _ _ Hns Hok) as Hok'. split.
  - by rewrite nsems_put_const.
  - intros u. by rewrite (view_undos _ _ (view_put_const n _ _)), (view_undos _ _ Hv).
  - intros m q'. rewrite get_alter_put_const, uncount_get_alter. by exists q'.
  - intros m q'. rewrite get_const_put, uncount_get_const by done. case_decide; [subst m|by exists q'].
    intros H. exists q'. split; [|done]. rewrite Hg. by apply elem_of_mid_drop.
  - unfold miscount. rewrite count_put_const, get_alter_put_const, get_const_put, !uncount_get_const,
      uncount_get_alter, uncount_count by done. case_decide as Hn.
    + subst n. rewrite Hg, !cnt_app, cnt_cons. destruct Hs as (_ & _ & _ & -> & _). lia.
    + assert ((1 <? length (q_sops q))%nat = false) as -> by (apply Nat.ltb_nlt; specialize (Hc ltac:(congruence)); lia).
      lia.
  - exists [(q, e)]. split; [done|]. destruct (pending_put_const n (uncount q sma) Hok') as (r & H1 & H2).
    rewrite H2. rewrite pending_uncount, uncount_get_const, Hg in H1. rewrite H1, !fmap_app. cbn.
    rewrite (strip_same _ _ Hs). solve_Permutation.
Qed.

Lemma woken_alter_off n l1 q0 q l2 e sma pt :
  get_alter sma n = l1 ++ q0 :: l2 -> same_op q0 q -> (n <> None -> (length (q_sops q) <= 1)%nat) ->
  woken sma pt (put_alter n (l1 ++ l2) (uncount q sma)) (pt ++ [(q, e)]).
Proof.
  intros Hg Hs Hc. pose proof (uncount_view q sma) as Hv. pose proof (nsems_view _ _ Hv) as Hns.
  assert (slot_ok sma n) as Hok by (apply (get_alter_ok _ _ q0); rewrite Hg; apply elem_of_app; right; by left).
  pose proof (slot_ok_same _ _ _ Hns Hok) as Hok'. split.
  - by rewrite nsems_put_alter.
  - intros u. by rewrite (view_undos _ _ (view_put_alter n _ _)), (view_undos _ _ Hv).
  - intros m q'. rewrite get_alter_put, uncount_get_alter by done. case_decide; [subst m|by exists q'].
    intros H. exists q'. split; [|done]. rewrite Hg. by apply elem_of_mid_drop.
  - intros m q'. rewrite get_const_put_alter, uncount_get_const. by exists q'.
  - unfold miscount. rewrite count_put_alter, get_const_put_alter, get_alter_put, !uncount_get_const,
      uncount_get_alter, uncount_count by done. case_decide as Hn.
    + subst n. rewrite Hg, !cnt_app, cnt_cons. destruct Hs as (_ & _ & _ & -> & _). lia.
    + assert ((1 <? length (q_sops q))%nat = false) as -> by (apply Nat.ltb_nlt; specialize (Hc ltac:(congruence)); lia).
      lia.
  - exists [(q, e)]. split; [done|]. destruct (pending_put_alter n (uncount q sma) Hok') as (r & H1 & H2).
    rewrite H2. rewrite pending_uncount, uncount_get_alter, Hg in H1. rewrite H1, !fmap_app. cbn.
    rewrite (strip_same _ _ Hs). solve_Permutation.
Qed.

(** An entry stays, blocked on another of its operations perhaps. *)
Lemma woken_const_stays n l1 q0 q l2 sma pt :
  get_const sma n = l1 ++ q0 :: l2 -> same_op q0 q -> woken sma pt (put_const n (l1 ++ q :: l2) sma) pt.
Proof.
  intros Hg Hs.
  assert (slot_ok sma n) as Hok by (apply (get_const_ok _ _ q0); rewrite Hg; apply elem_of_app; right; by left).
  split.
  - by rewrite nsems_put_const.
  - intros u. by rewrite (view_undos _ _ (view_put_const n _ _)).
  - intros m q'. rewrite get_alter_put_const. by exists q'.
  - intros m q'. rewrite get_const_put by done. case_decide; [subst m; rewrite Hg|by exists q'].
    by apply elem_of_mid_same.
  - unfold miscount. rewrite count_put_const, get_alter_put_const, get_const_put by done. case_decide; [|done].
    subst n. rewrite Hg, !cnt_app, !cnt_cons. destruct Hs as (_ & _ & _ & -> & _). lia.
  - exists []. split; [by rewrite app_nil_r|]. destruct (pending_put_const n sma Hok) as (r & H1 & H2).
    rewrite H2, H1, Hg, !fmap_app. cbn. by rewrite (strip_same _ _ Hs), app_nil_r.
Qed.

Lemma woken_alter_stays n l1 q0 q l2 sma pt :
  get_alter sma n = l1 ++ q0 :: l2 -> same_op q0 q -> woken sma pt (put_alter n (l1 ++ q :: l2) sma) pt.
Proof.
  intros Hg Hs.
  assert (slot_ok sma n) as Hok by (apply (get_alter_ok _ _ q0); rewrite Hg; apply elem_of_app; right; by left).
  split.
  - by rewrite nsems_put_alter.
  - intros u. by rewrite (view_undos _ _ (view_put_alter n _ _)).
  - intros m q'. rewrite get_alter_put by done. case_decide; [subst m; rewrite Hg|by exists q'].
    by apply elem_of_mid_same.
  - intros m q'. rewrite get_const_put_alter. by exists q'.
  - unfold miscount. rewrite count_put_alter, get_const_put_alter, get_alter_put by done. case_decide; [|done].
    subst n. rewrite Hg, !cnt_app, !cnt_cons. destruct Hs as (_ & _ & _ & -> & _). lia.
  - exists []. split; [by rewrite app_nil_r|]. destruct (pending_put_alter n sma Hok) as (r & H1 & H2).
    rewrite H2, H1, Hg, !fmap_app. cbn. by rewrite (strip_same _ _ Hs), app_nil_r.
Qed.

(** An operation is performed. *)
Lemma forward_undos_dom un todo u : forall dn sma,
  is_Some (undos sma !! u) -> is_Some (undos (semop_forward un dn todo sma).2 !! u).
Proof.
  induction todo as [|s todo IH]; intros dn sma Hu; [done|]. rewrite semop_forward_cons.
  destruct (would_block s sma); [done|]. destruct (_ || _); [done|]. by apply IH, pass_undos_dom.
Qed.

Lemma perform_undos_dom sma q e sma' q' u :
  perform_atomic_semop sma q = (e, sma', q') -> is_Some (undos sma !! u) -> is_Some (undos sma' !! u).
Proof.
  intros Hp Hu. destruct (decide (e = 0)) as [->|He]; [|by rewrite (perform_undone _ _ _ _ _ Hp)].
  pose proof (forward_undos_dom (q_undo q) (q_sops q) u [] sma Hu) as Hd. unfold perform_atomic_semop in Hp.
  destruct (semop_forward _ _ _ _) as [[[|s|] d] sma1]; [|by destruct (sop_has s IPC_NOWAIT)|done].
  injection Hp as <- _. by rewrite (view_undos _ _ (semop_set_pid_view _ _ _)).
Qed.

Lemma woken_perform sma q e sma' q' pt :
  perform_atomic_semop sma q = (e, sma', q') -> woken sma pt sma' pt.
Proof.
  intros Hp. pose proof (perform_queues _ _ _ _ _ Hp) as Hq. pose proof (pending_same _ _ Hq) as Hpe.
  destruct Hq as (Ha & Hc & Hn & Hs). split; [done| | | | |].
  - intros u. by apply (perform_undos_dom _ _ _ _ _ _ Hp).
  - intros n x. rewrite Ha. by exists x.
  - intros n x. rewrite Hc. by exists x.
  - unfold miscount. by rewrite Ha, Hc, Hn.
  - exists []. by rewrite Hpe, !app_nil_r.
Qed.

(** ** What the queues hold *)

Definition simple_on (q : sem_queue) (i : nat) (P : Z -> Prop) : Prop :=
  exists s, q_sops q = [s] /\ sem_num s = i /\ P (sem_op s).

(** The array under its lock. *)
Record shape (sma : sem_array) : Prop := {
  sh_arr : arr_ok sma;
  sh_q : forall q, q ∈ pending sma -> q_ok sma q;
  sh_single : forall i q, q ∈ get_alter sma (Some i) -> simple_on q i (fun op => op < 0);
  sh_zero : forall i q, q ∈ get_const sma (Some i) -> simple_on q i (fun op => op = 0);
  sh_const : forall q, q ∈ get_const sma None -> all_zero_ops (q_sops q) /\ (1 < length (q_sops q))%nat;
  sh_glob : forall q, q ∈ get_alter sma None -> (1 < length (q_sops q))%nat \/ exists i, simple_on q i (fun op => op < 0);
  sh_count : miscount sma = 0;
  sh_mode : get_alter sma None <> [] -> forall i, get_alter sma (Some i) = [];
  sh_tasks : NoDup (q_task <$> pending sma);
}.

Lemma q_ok_woken sma pt sma' pt' q q' : woken sma pt sma' pt' -> same_op q q' -> q_ok sma q -> q_ok sma' q'.
Proof.
  intros Hw (_ & Hu & _ & Hs & _) [H1 [H2 H3]]. unfold q_ok, undo_for. rewrite Hu, Hs, (wk_nsems _ _ _ _ Hw).
  split; [done|]. split; [done|]. intros u Hun. by apply (wk_undos _ _ _ _ Hw), H3.
Qed.

Lemma simple_on_same q q' i P : same_op q q' -> simple_on q i P -> simple_on q' i P.
Proof. intros (_ & _ & _ & Hs & _). unfold simple_on. by rewrite Hs. Qed.

Lemma woken_nil sma pt sma' pt' n : woken sma pt sma' pt' -> get_alter sma n = [] -> get_alter sma' n = [].
Proof.
  intros Hw Hn. destruct (get_alter sma' n) as [|q l] eqn:Hg; [done|]. exfalso.
  destruct (wk_alter _ _ _ _ Hw n q) as (q0 & H & _); [rewrite Hg; by left|]. rewrite Hn in H.
  by apply not_elem_of_nil in H.
Qed.

Lemma q_task_strip (l : list sem_queue) : q_task <$> l = q_task <$> (strip <$> l).
Proof. rewrite <- list_fmap_compose. by apply list_fmap_ext. Qed.

Lemma shape_woken sma pt sma' pt' : shape sma -> woken sma pt sma' pt' -> arr_ok sma' -> shape sma'.
Proof.
  intros Hsh Hw Ha. split; [done| | | | | | | |].
  - intros q [n [H|H]]%elem_of_pending;
      [apply (wk_const _ _ _ _ Hw) in H as (q0 & Hq & Hs)|apply (wk_alter _ _ _ _ Hw) in H as (q0 & Hq & Hs)];
      (eapply q_ok_woken; [done..|]; apply (sh_q _ Hsh), elem_of_pending; by eauto).
  - intros i q (q0 & Hq & Hs)%(wk_alter _ _ _ _ Hw). by eapply simple_on_same, (sh_single _ Hsh).
  - intros i q (q0 & Hq & Hs)%(wk_const _ _ _ _ Hw). by eapply simple_on_same, (sh_zero _ Hsh).
  - intros q (q0 & Hq & (_ & _ & _ & -> & _))%(wk_const _ _ _ _ Hw). by apply (sh_const _ Hsh).
  - intros q (q0 & Hq & Hs)%(wk_alter _ _ _ _ Hw). destruct (sh_glob _ Hsh _ Hq) as [H|[i H]].
    + left. by destruct Hs as (_ & _ & _ & -> & _).
    + right. exists i. by eapply simple_on_same.
  - rewrite (wk_count _ _ _ _ Hw). apply Hsh.
  - intros Hg i. apply (woken_nil _ _ _ _ _ Hw), (sh_mode _ Hsh). intros H. by apply Hg, (woken_nil _ _ _ _ _ Hw).
  - destruct (wk_stock _ _ _ _ Hw) as (new & _ & Hp). pose proof (sh_tasks _ Hsh) as Hnd.
    rewrite q_task_strip, Hp, <- q_task_strip, fmap_app in Hnd. by apply NoDup_app in Hnd as [? _].
Qed.

Lemma shape_view sma pt sma' pt' : shape sma -> woken sma pt sma' pt' -> view sma' = view sma -> shape sma'.
Proof. intros Hsh Hw Hv. eapply shape_woken; [done..|]. by eapply arr_ok_view, sh_arr. Qed.
