(* ===== verification/SysvSemWake.v ===== *)
(** * System V semaphores: waking

    The functions that look for sleeping operations that can go on find all
    of them: after [do_smart_update] no sleeping operation would complete. *)

From stdpp Require Import gmap list.
From S2P Require Import Prelude SysvSem SysvSemFacts SysvSemQueues.

(** ** Operations that wait for zero *)

Lemma zeroes_view sma sma' sops : view sma' = view sma -> zeroes sma' sops <-> zeroes sma sops.
Proof.
  intros Hv. unfold zeroes. rewrite !Forall_forall.
  split; intros H s Hs; specialize (H s Hs); [by rewrite <- (val_at_view _ _ _ Hv)|by rewrite (val_at_view _ _ _ Hv)].
Qed.

Lemma const_all_zero sma n q : shape sma -> q ∈ get_const sma n -> all_zero_ops (q_sops q).
Proof.
  intros Hsh. destruct n as [i|]; [|apply (sh_const _ Hsh)].
  intros (s & -> & _ & Hs)%(sh_zero _ Hsh). by constructor.
Qed.

Lemma const_simple sma n q :
  shape sma -> q ∈ get_const sma n -> n <> None -> (length (q_sops q) <= 1)%nat.
Proof. intros Hsh. destruct n as [i|]; [|done]. by intros (s & -> & _)%(sh_zero _ Hsh) _. Qed.

(** The alter queues and the values stay. *)
Definition const_phase (sma : sem_array) (pt : wakeups) (sma' : sem_array) (pt' : wakeups) : Prop :=
  woken sma pt sma' pt' /\ view sma' = view sma /\ forall m, get_alter sma' m = get_alter sma m.

Lemma const_phase_refl sma pt : const_phase sma pt sma pt.
Proof. split; [apply woken_refl|done]. Qed.

Lemma const_phase_trans sma1 pt1 sma2 pt2 sma3 pt3 :
  const_phase sma1 pt1 sma2 pt2 -> const_phase sma2 pt2 sma3 pt3 -> const_phase sma1 pt1 sma3 pt3.
Proof.
  intros (A1 & A2 & A3) (B1 & B2 & B3). split; [by eapply woken_trans|]. split; [congruence|].
  intros m. by rewrite B3.
Qed.

Lemma const_phase_shape sma pt sma' pt' : shape sma -> const_phase sma pt sma' pt' -> shape sma'.
Proof. intros Hsh (Hw & Hv & _). by eapply shape_view. Qed.

(** Performing an operation that waits for zero, and putting the queue back. *)
Lemma const_phase_off n seen q walk sma pt e sma1 q1 :
  shape sma -> get_const sma n = seen ++ q :: walk -> perform_atomic_semop sma q = (e, sma1, q1) ->
  const_phase sma pt (put_const n (seen ++ walk) (uncount q1 sma1)) (pt ++ [(q1, e)]).
Proof.
  intros Hsh Hg Hp. assert (q ∈ get_const sma n) as Hin by (rewrite Hg; apply elem_of_app; right; by left).
  pose proof (perform_const_view _ _ _ _ _ (const_all_zero _ _ _ Hsh Hin) Hp) as Hv.
  pose proof (perform_queues _ _ _ _ _ Hp) as (Ha & Hc & _). pose proof (perform_same_op _ _ _ _ _ Hp) as Hs.
  split; [|split].
  - eapply woken_trans; [by eapply woken_perform|]. eapply woken_const_off; [by rewrite Hc|done|].
    intros Hn. destruct Hs as (_ & _ & _ & -> & _). by eapply const_simple.
  - by rewrite view_put_const, uncount_view.
  - intros m. by rewrite get_alter_put_const, uncount_get_alter.
Qed.

Lemma const_phase_stays n seen q walk sma pt e sma1 q1 :
  shape sma -> get_const sma n = seen ++ q :: walk -> perform_atomic_semop sma q = (e, sma1, q1) ->
  const_phase sma pt (put_const n (seen ++ q1 :: walk) sma1) pt.
Proof.
  intros Hsh Hg Hp. assert (q ∈ get_const sma n) as Hin by (rewrite Hg; apply elem_of_app; right; by left).
  pose proof (perform_const_view _ _ _ _ _ (const_all_zero _ _ _ Hsh Hin) Hp) as Hv.
  pose proof (perform_queues _ _ _ _ _ Hp) as (Ha & Hc & _). pose proof (perform_same_op _ _ _ _ _ Hp) as Hs.
  split; [|split].
  - eapply woken_trans; [by eapply woken_perform|]. eapply woken_const_stays; [by rewrite Hc|done].
  - by rewrite view_put_const.
  - intros m. by rewrite get_alter_put_const.
Qed.

(** [wake_const_ops] leaves those only that some semaphore keeps from going on. *)
Lemma wake_const_loop_ok n walk : forall seen sma pt c c' sma' pt',
  shape sma -> get_const sma n = seen ++ walk ->
  wake_const_loop n seen walk sma pt c = (c', sma', pt') ->
  const_phase sma pt sma' pt' /\ (forall m, m <> n -> get_const sma' m = get_const sma m)
  /\ exists kept, get_const sma' n = seen ++ kept /\ Forall (fun q => ~ zeroes sma (q_sops q)) kept.
Proof.
  induction walk as [|q walk IH]; intros seen sma pt c c' sma' pt' Hsh Hg; cbn [wake_const_loop].
  { intros [= <- <- <-]. split; [apply const_phase_refl|]. split; [done|]. by exists []. }
  assert (q ∈ get_const sma n) as Hin by (rewrite Hg; apply elem_of_app; right; by left).
  pose proof (get_const_ok _ _ _ Hin) as Hok.
  destruct (perform_atomic_semop sma q) as [[e sma1] q1] eqn:Hp.
  pose proof (perform_queues _ _ _ _ _ Hp) as (Ha & Hc & _ & Hns).
  destruct (e <=? 0) eqn:He.
  - intros Hl. pose proof (const_phase_off _ _ _ _ _ pt _ _ _ Hsh Hg Hp) as Hph.
    assert (slot_ok (uncount q1 sma1) n) as Hok1.
    { eapply slot_ok_same; [|exact Hok]. by rewrite (nsems_view _ _ (uncount_view _ _)). }
    apply IH in Hl as (H1 & H2 & kept & H3 & H4); [|by eapply const_phase_shape|].
    2: { by rewrite get_const_put, decide_True. }
    split; [by eapply const_phase_trans|]. split.
    + intros m Hm. by rewrite H2, get_const_put, decide_False, uncount_get_const, Hc.
    + exists kept. split; [done|]. eapply Forall_impl; [exact H4|]. intros x Hx Hz. apply Hx.
      eapply zeroes_view; [apply Hph|done].
  - intros Hl. pose proof (const_phase_stays _ _ _ _ _ pt _ _ _ Hsh Hg Hp) as Hph.
    assert (slot_ok sma1 n) as Hok1 by (by eapply slot_ok_same).
    apply IH in Hl as (H1 & H2 & kept & H3 & H4); [|by eapply const_phase_shape|].
    2: { by rewrite get_const_put, decide_True, <- (assoc_L (++)). }
    split; [by eapply const_phase_trans|]. split.
    + intros m Hm. by rewrite H2, get_const_put, decide_False, Hc.
    + exists (q1 :: kept). rewrite <- (assoc_L (++)) in H3. split; [done|]. constructor.
      * destruct (perform_same_op _ _ _ _ _ Hp) as (_ & _ & _ & -> & _).
        rewrite const_completes; [|apply Hsh| |by eapply const_all_zero].
        -- unfold completes. rewrite Hp. cbn. zbool. lia.
        -- apply (sh_q _ Hsh), elem_of_pending. by eauto.
      * eapply Forall_impl; [exact H4|]. intros x Hx Hz. apply Hx. eapply zeroes_view; [apply Hph|done].
Qed.

Lemma wake_const_ops_ok n sma pt c sma' pt' :
  shape sma -> wake_const_ops sma n pt = (c, sma', pt') ->
  const_phase sma pt sma' pt' /\ (forall m, m <> n -> get_const sma' m = get_const sma m)
  /\ forall q, q ∈ get_const sma' n -> ~ zeroes sma' (q_sops q).
Proof.
  intros Hsh Hl. apply wake_const_loop_ok in Hl as (H1 & H2 & kept & H3 & H4); [|done..].
  split; [done|]. split; [done|]. intros q. rewrite H3. cbn. intros Hq Hz.
  rewrite Forall_forall in H4. apply (H4 q Hq). eapply zeroes_view; [symmetry; apply H1|done].
Qed.

(** Nobody who waits for zero could go on. *)
Definition const_quiet (sma : sem_array) : Prop :=
  forall n q, q ∈ get_const sma n -> ~ zeroes sma (q_sops q).

(** Only those could who wait for one of the semaphores [nums]. *)
Definition const_quiet_but (nums : list nat) (sma : sem_array) : Prop :=
  forall n q, q ∈ get_const sma n -> zeroes sma (q_sops q) -> exists s, s ∈ q_sops q /\ sem_num s ∈ nums.

Lemma phase_not_zeroes sma pt sma' pt' n :
  const_phase sma pt sma' pt' ->
  (forall q, q ∈ get_const sma n -> ~ zeroes sma (q_sops q)) ->
  forall q, q ∈ get_const sma' n -> ~ zeroes sma' (q_sops q).
Proof.
  intros (Hw & Hv & _) H q (q0 & Hq & (_ & _ & _ & -> & _))%(wk_const _ _ _ _ Hw) Hz.
  apply (H q0 Hq). by eapply zeroes_view.
Qed.

Lemma wakeup_zero_loop_ok nums : forall sma pt c g c' g' sma' pt',
  shape sma -> wakeup_zero_loop nums sma pt c g = (c', g', sma', pt') ->
  const_phase sma pt sma' pt' /\ get_const sma' None = get_const sma None
  /\ (forall i q, i ∈ nums -> q ∈ get_const sma' (Some i) -> ~ zeroes sma' (q_sops q))
  /\ (g' = false -> g = false /\ forall i, i ∈ nums -> val_at sma i <> 0).
Proof.
  induction nums as [|num nums IH]; intros sma pt c g c' g' sma' pt' Hsh; cbn [wakeup_zero_loop].
  { intros [= <- <- <- <-]. split; [apply const_phase_refl|]. split; [done|].
    split; [by intros i q ?%not_elem_of_nil|]. intros Hg. split; [done|]. by intros i ?%not_elem_of_nil. }
  destruct (val_at sma num =? 0) eqn:Hz.
  - destruct (wake_const_ops sma (Some num) pt) as [[c1 sma1] pt1] eqn:Hw. intros Hl.
    apply wake_const_ops_ok in Hw as (A1 & A2 & A3); [|done].
    apply IH in Hl as (B1 & B2 & B3 & B4); [|by eapply const_phase_shape].
    split; [by eapply const_phase_trans|]. split; [by rewrite B2, A2|]. split.
    + intros i q [->|Hi]%elem_of_cons; [|by apply B3]. by eapply phase_not_zeroes.
    + intros Hg. by destruct (B4 Hg).
  - intros Hl. apply IH in Hl as (B1 & B2 & B3 & B4); [|done]. split; [done|]. split; [done|]. split.
    + intros i q [->|Hi]%elem_of_cons; [|by apply B3]. revert q. eapply phase_not_zeroes; [done|].
      intros q (s & -> & Hs & _)%(sh_zero _ Hsh) Hq. inversion Hq; subst. zbool. lia.
    + intros Hg. destruct (B4 Hg) as [H1 H2]. split; [done|].
      intros i [->|Hi]%elem_of_cons; [zbool; lia|by apply H2].
Qed.

Definition touched (sma : sem_array) (sops : option (list sembuf)) : list nat :=
  match sops with Some sops => sem_num <$> sops | None => seq 0 (nsems sma) end.

Lemma do_smart_wakeup_zero_ok sma sops pt c sma' pt' :
  shape sma -> const_quiet_but (touched sma sops) sma ->
  do_smart_wakeup_zero sma sops pt = (c, sma', pt') ->
  const_phase sma pt sma' pt' /\ const_quiet sma'.
Proof.
  intros Hsh Hq. unfold do_smart_wakeup_zero. change (match sops with Some _ => _ | None => _ end) with (touched sma sops).
  destruct (wakeup_zero_loop _ sma pt false false) as [[[c1 g1] sma1] pt1] eqn:Hl.
  apply wakeup_zero_loop_ok in Hl as (A1 & A2 & A3 & A4); [|done].
  pose proof (const_phase_shape _ _ _ _ Hsh A1) as Hsh1.
  assert (forall i q, q ∈ get_const sma1 (Some i) -> ~ zeroes sma1 (q_sops q)) as Hsome.
  { intros i q Hin Hz. destruct (decide (i ∈ touched sma sops)) as [Hi|Hi]; [by eapply A3|].
    destruct (wk_const _ _ _ _ (proj1 A1) _ _ Hin) as (q0 & Hin0 & (_ & _ & _ & Hs & _)).
    destruct (Hq _ _ Hin0) as (s & Hs1 & Hs2).
    - rewrite <- Hs. eapply zeroes_view; [symmetry; apply A1|done].
    - destruct (sh_zero _ Hsh _ _ Hin0) as (s0 & Hs0 & Hn & _). rewrite Hs0 in Hs1.
      apply list_elem_of_singleton in Hs1 as ->. by rewrite Hn in Hs2. }
  destruct g1.
  - destruct (wake_const_ops sma1 None pt1) as [[c2 sma2] pt2] eqn:Hw. intros [= <- <- <-].
    apply wake_const_ops_ok in Hw as (B1 & B2 & B3); [|done]. split; [by eapply const_phase_trans|].
    intros [i|] q; [|apply B3]. eapply phase_not_zeroes; [exact B1|apply Hsome].
  - intros [= <- <- <-]. split; [done|]. intros [i|] q Hin Hz; [by eapply Hsome|].
    rewrite A2 in Hin. assert (zeroes sma (q_sops q)) as Hz0 by (eapply zeroes_view; [symmetry; apply A1|done]).
    destruct (Hq _ _ Hin Hz0) as (s & Hs1 & Hs2). destruct (A4 eq_refl) as [_ H]. apply (H _ Hs2).
    unfold zeroes in Hz0. rewrite Forall_forall in Hz0. by apply Hz0.
Qed.

(** ** Operations that alter values *)

Lemma delta_elem sops j : delta sops j <> 0 -> j ∈ sem_num <$> sops.
Proof.
  induction sops as [|s sops IH]; [done|]. cbn [delta]. intros H. rewrite fmap_cons. apply elem_of_cons.
  destruct (decide (j = sem_num s)) as [|Hne]; [by left|]. right. apply IH. lia.
Qed.

(** What a completed operation may set going among those who wait for zero. *)
Lemma completed_quiet_but sma q sma1 q1 sma2 :
  shape sma -> q_ok sma q -> const_quiet sma -> perform_atomic_semop sma q = (0, sma1, q1) ->
  view sma2 = view sma1 -> (forall n, get_const sma2 n = get_const sma n) ->
  const_quiet_but (sem_num <$> q_sops q) sma2.
Proof.
  intros Hsh Hok Hq Hp Hv Hc n x. rewrite Hc. intros Hx Hz. specialize (Hq n x Hx).
  apply perform_completed in Hp as (_ & _ & Hval & _); [|apply Hsh|done].
  unfold zeroes in Hq. apply not_Forall_Exists, Exists_exists in Hq as (s & Hs & Hne); [|solve_decision].
  exists s. split; [done|]. apply delta_elem. unfold zeroes in Hz. rewrite Forall_forall in Hz.
  specialize (Hz s Hs). rewrite (val_at_view _ _ _ Hv), Hval in Hz. cbn in Hne. lia.
Qed.

(** The entry of the queue [n] cannot go on. *)
Definition stuck (sma : sem_array) (n : option nat) (q : sem_queue) : Prop :=
  match n with
  | None => completes sma q = false
      /\ forall s, q_sops q = [s] -> val_at sma (sem_num s) + sem_op s < 0
  | Some i => Forall (fun s => val_at sma i + sem_op s < 0) (q_sops q)
  end.

Lemma stuck_view sma sma' n q q' :
  view sma' = view sma -> same_op q q' -> stuck sma n q -> stuck sma' n q'.
Proof.
  intros Hv Hs. destruct n as [i|]; cbn.
  - destruct Hs as (_ & _ & _ & -> & _). by rewrite (val_at_view _ _ _ Hv).
  - unfold completes. rewrite (perform_agree sma sma' q q') by (done || by apply view_agree).
    destruct Hs as (_ & _ & _ & -> & _). intros [H1 H2]. split; [done|]. intros s Hs.
    rewrite (val_at_view _ _ _ Hv). by apply H2.
Qed.

(** What the scan of the queue [n] keeps. *)
Record scanned (n : option nat) (sma : sem_array) (pt : wakeups) (sma' : sem_array) (pt' : wakeups) : Prop := {
  sc_shape : shape sma';
  sc_quiet : const_quiet sma';
  sc_woken : woken sma pt sma' pt';
  sc_other : forall m, m <> n -> get_alter sma' m = get_alter sma m;
  sc_val : forall i, n = Some i -> forall j, j <> i -> val_at sma' j = val_at sma j;
}.

Lemma scanned_trans n sma1 pt1 sma2 pt2 sma3 pt3 :
  scanned n sma1 pt1 sma2 pt2 -> scanned n sma2 pt2 sma3 pt3 -> scanned n sma1 pt1 sma3 pt3.
Proof.
  intros [A1 A2 A3 A4 A5] [B1 B2 B3 B4 B5]. split; [done|done|by eapply woken_trans| |].
  - intros m Hm. by rewrite B4, A4.
  - intros i Hi j Hj. by rewrite (B5 i Hi j Hj), (A5 i Hi j Hj).
Qed.

Lemma scanned_refl n sma pt : shape sma -> const_quiet sma -> scanned n sma pt sma pt.
Proof. intros. split; try done. apply woken_refl. Qed.

Lemma const_quiet_view sma pt sma' pt' :
  woken sma pt sma' pt' -> view sma' = view sma -> const_quiet sma -> const_quiet sma'.
Proof.
  intros Hw Hv Hq n q (q0 & Hin & (_ & _ & _ & -> & _))%(wk_const _ _ _ _ Hw) Hz.
  apply (Hq n q0 Hin). by eapply zeroes_view.
Qed.

(** A step of the scan that does not complete an operation. *)
Lemma scanned_view n sma pt sma' pt' :
  shape sma -> const_quiet sma -> woken sma pt sma' pt' -> view sma' = view sma ->
  (forall m, m <> n -> get_alter sma' m = get_alter sma m) -> scanned n sma pt sma' pt'.
Proof.
  intros Hsh Hq Hw Hv Ho. split; [by eapply shape_view|by eapply const_quiet_view|done|done|].
  intros i _ j _. by apply val_at_view.
Qed.

Lemma alter_simple sma n q :
  shape sma -> q ∈ get_alter sma n -> n <> None -> (length (q_sops q) <= 1)%nat.
Proof. intros Hsh. destruct n as [i|]; [|done]. by intros (s & -> & _)%(sh_single _ Hsh) _. Qed.

Lemma perform_stuck sma n q e sma1 q1 :
  shape sma -> q ∈ get_alter sma n -> perform_atomic_semop sma q = (e, sma1, q1) -> 0 < e ->
  stuck sma n q.
Proof.
  intros Hsh Hin Hp He. assert (q_ok sma q) as Hok by (apply (sh_q _ Hsh), elem_of_pending; by eauto).
  destruct (perform_blocked _ _ _ _ _ (sh_arr _ Hsh) Hok Hp He) as (pre & s & post & Heq & _ & _ & Hb).
  assert (forall s0, q_sops q = [s0] -> sem_op s0 < 0 -> val_at sma (sem_num s0) + sem_op s0 < 0) as Hone.
  { intros s0 Hs Ho. rewrite Hs in Heq. destruct pre as [|x pre]; [|by destruct pre]. injection Heq as <- <-.
    cbn in Hb. lia. }
  destruct n as [i|]; cbn.
  - destruct (sh_single _ Hsh _ _ Hin) as (s0 & Hs & Hn & Ho). rewrite Hs. constructor; [|done].
    rewrite <- Hn. by apply Hone.
  - split; [unfold completes; rewrite Hp; cbn; zbool; lia|]. intros s0 Hs. apply Hone; [done|].
    destruct (sh_glob _ Hsh _ Hin) as [Hl|(i & s1 & Hs1 & _ & Ho)]; [rewrite Hs in Hl; cbn in Hl; lia|].
    congruence.
Qed.

Section scan_step.
  Context (n : option nat) (seen walk : list sem_queue) (q : sem_queue) (sma : sem_array) (pt : wakeups).
  Context (e : Z) (sma1 : sem_array) (q1 : sem_queue).
  Hypothesis Hsh : shape sma.
  Hypothesis Hquiet : const_quiet sma.
  Hypothesis Hg : get_alter sma n = seen ++ q :: walk.
  Hypothesis Hp : perform_atomic_semop sma q = (e, sma1, q1).

Lemma scan_elem : q ∈ get_alter sma n.
Proof using Hg. rewrite Hg. apply elem_of_app. right. by left. Qed.

Lemma scan_slot : slot_ok sma1 n.
Proof using Hg Hp.
  eapply slot_ok_same; [by eapply wk_nsems, (woken_perform _ _ _ _ _ [])|].
  eapply get_alter_ok, scan_elem.
Qed.

Lemma scan_slot' : slot_ok (uncount q1 sma1) n.
Proof using Hg Hp. eapply slot_ok_same; [|apply scan_slot]. by rewrite (nsems_view _ _ (uncount_view _ _)). Qed.

Lemma scan_stays :
  0 < e ->
  scanned n sma pt (put_alter n (seen ++ q1 :: walk) sma1) pt
  /\ view (put_alter n (seen ++ q1 :: walk) sma1) = view sma
  /\ get_alter (put_alter n (seen ++ q1 :: walk) sma1) n = seen ++ q1 :: walk.
Proof using All.
  intros He. pose proof (perform_undone _ _ _ _ _ Hp ltac:(lia)) as Heq.
  assert (view (put_alter n (seen ++ q1 :: walk) sma1) = view sma) as Hv by (by rewrite view_put_alter, Heq).
  split; [|split; [done|]].
  - apply scanned_view; try done.
    + rewrite Heq. eapply woken_alter_stays; [exact Hg|by eapply perform_same_op].
    + intros m Hm. rewrite get_alter_put, decide_False by (done || apply scan_slot). by rewrite Heq.
  - rewrite get_alter_put by apply scan_slot. by rewrite decide_True.
Qed.

Lemma scan_off_woken x : woken sma pt (put_alter n (seen ++ walk) (uncount q1 sma1)) (pt ++ [(q1, x)]).
Proof using All.
  eapply woken_trans; [by eapply woken_perform|]. pose proof (perform_same_op _ _ _ _ _ Hp) as Hs.
  eapply woken_alter_off; [|exact Hs|].
  - destruct (perform_queues _ _ _ _ _ Hp) as (Ha & _). by rewrite Ha.
  - destruct Hs as (_ & _ & _ & -> & _). eapply alter_simple; [done|apply scan_elem].
Qed.

Lemma scan_off_alter m :
  get_alter (put_alter n (seen ++ walk) (uncount q1 sma1)) m
  = if decide (m = n) then seen ++ walk else get_alter sma m.
Proof using Hg Hp.
  rewrite get_alter_put by apply scan_slot'. case_decide; [done|]. rewrite uncount_get_alter.
  by destruct (perform_queues _ _ _ _ _ Hp) as (-> & _).
Qed.

Lemma scan_off_const m : get_const (put_alter n (seen ++ walk) (uncount q1 sma1)) m = get_const sma m.
Proof using Hp.
  rewrite get_const_put_alter, uncount_get_const. by destruct (perform_queues _ _ _ _ _ Hp) as (_ & -> & _).
Qed.

Lemma scan_failed :
  e < 0 ->
  scanned n sma pt (put_alter n (seen ++ walk) (uncount q1 sma1)) (pt ++ [(q1, e)])
  /\ view (put_alter n (seen ++ walk) (uncount q1 sma1)) = view sma.
Proof using All.
  intros He. pose proof (perform_undone _ _ _ _ _ Hp ltac:(lia)) as Heq.
  assert (view (put_alter n (seen ++ walk) (uncount q1 sma1)) = view sma) as Hv
    by (by rewrite view_put_alter, uncount_view, Heq).
  split; [|done]. apply scanned_view; try done; [apply scan_off_woken|].
  intros m Hm. by rewrite scan_off_alter, decide_False.
Qed.
End scan_step.

Lemma woken_swap sma1 pt sma2 x sma3 pt3 :
  woken sma1 pt sma2 (pt ++ [x]) -> woken sma2 pt sma3 pt3 -> woken sma1 pt sma3 (pt3 ++ [x]).
Proof.
  intros [A1 A2 A3 A4 A5 (n1 & A6 & A7)] [B1 B2 B3 B4 B5 (n2 & -> & B7)]. apply app_inv_head in A6 as <-.
  eassert (woken sma1 pt sma3 (pt ++ (n2 ++ [x]))) as H; [|by rewrite (assoc_L (++)) in H].
  split; try congruence; [by auto| | |].
  - intros n q (q1 & H1 & S1)%B3. apply A3 in H1 as (q2 & H2 & S2). exists q2. split; [done|by etrans].
  - intros n q (q1 & H1 & S1)%B4. apply A4 in H1 as (q2 & H2 & S2). exists q2. split; [done|by etrans].
  - exists (n2 ++ [x]). split; [done|]. rewrite !fmap_app in *. rewrite A7, B7. solve_Permutation.
Qed.

Section scan_complete.
  Context (n : option nat) (seen walk : list sem_queue) (q : sem_queue) (sma : sem_array) (pt : wakeups).
  Context (sma1 : sem_array) (q1 : sem_queue) (c : bool) (sma3 : sem_array) (pt3 : wakeups).
  Hypothesis Hsh : shape sma.
  Hypothesis Hquiet : const_quiet sma.
  Hypothesis Hg : get_alter sma n = seen ++ q :: walk.
  Hypothesis Hp : perform_atomic_semop sma q = (0, sma1, q1).
  Hypothesis Hw : do_smart_wakeup_zero (put_alter n (seen ++ walk) (uncount q1 sma1)) (Some (q_sops q1)) pt
    = (c, sma3, pt3).

Lemma complete_ok : q_ok sma q.
Proof using Hsh Hg. apply (sh_q _ Hsh), elem_of_pending. exists n. right. by eapply scan_elem. Qed.

Lemma complete_phase :
  const_phase (put_alter n (seen ++ walk) (uncount q1 sma1)) pt sma3 pt3 /\ const_quiet sma3
  /\ shape (put_alter n (seen ++ walk) (uncount q1 sma1)).
Proof using All.
  pose proof (perform_completed _ _ _ _ (sh_arr _ Hsh) complete_ok Hp) as (Ha1 & _).
  assert (view (put_alter n (seen ++ walk) (uncount q1 sma1)) = view sma1) as Hv
    by (by rewrite view_put_alter, uncount_view).
  assert (shape (put_alter n (seen ++ walk) (uncount q1 sma1))) as Hsh2.
  { eapply shape_woken; [exact Hsh|by eapply (scan_off_woken n seen walk q sma pt 0 sma1 q1 Hsh Hquiet Hg Hp 0)|].
    by eapply arr_ok_view. }
  enough (const_phase (put_alter n (seen ++ walk) (uncount q1 sma1)) pt sma3 pt3 /\ const_quiet sma3) by tauto.
  eapply do_smart_wakeup_zero_ok; [exact Hsh2| |exact Hw]. cbn. destruct (perform_same_op _ _ _ _ _ Hp) as (_ & _ & _ & -> & _).
  eapply completed_quiet_but; [exact Hsh|apply complete_ok|done..|]. by eapply scan_off_const.
Qed.

Lemma complete_val j : val_at sma3 j = val_at sma j + delta (q_sops q) j.
Proof using All.
  destruct complete_phase as [(_ & Hv & _) _]. rewrite view_put_alter, uncount_view in Hv.
  rewrite (val_at_view _ _ _ Hv). by apply (perform_completed _ _ _ _ (sh_arr _ Hsh) complete_ok Hp).
Qed.

Lemma scan_completed :
  scanned n sma pt sma3 (pt3 ++ [(q1, 0)]) /\ get_alter sma3 n = seen ++ walk
  /\ forall i, n = Some i -> val_at sma3 i <= val_at sma i.
Proof using All.
  destruct complete_phase as ((Hwk & Hv & Ha) & Hq & Hsh2).
  pose proof (scan_elem n seen walk q sma Hg) as Hin.
  assert (forall i, n = Some i -> exists s, q_sops q = [s] /\ sem_num s = i /\ sem_op s < 0) as Hs.
  { intros i ->. destruct (sh_single _ Hsh _ _ Hin) as (s & H). by exists s. }
  split; [|split].
  - split; [by eapply shape_view|done| | |].
    + eapply woken_swap; [|exact Hwk]. by eapply scan_off_woken.
    + intros m Hm. rewrite Ha, (scan_off_alter n seen walk q sma 0 sma1 q1 Hg Hp). by rewrite decide_False.
    + intros i Hi j Hj. rewrite complete_val. destruct (Hs i Hi) as (s & -> & Hn & _). cbn.
      rewrite decide_False by congruence. lia.
  - rewrite Ha, (scan_off_alter n seen walk q sma 0 sma1 q1 Hg Hp). by rewrite decide_True.
  - intros i Hi. rewrite complete_val. destruct (Hs i Hi) as (s & -> & Hn & Ho). cbn.
    rewrite decide_True by done. lia.
Qed.
End scan_complete.

(** ** [update_queue] *)

Definition scan_post (n : option nat) (sma : sem_array) (pt : wakeups) (len : nat)
    (sma' : sem_array) (pt' : wakeups) (again : bool) : Prop :=
  scanned n sma pt sma' pt' /\
  if again then n = None /\ (length (get_alter sma' n) < len)%nat
  else forall q, q ∈ get_alter sma' n -> stuck sma' n q.

Lemma scan_post_trans n sma1 pt1 sma2 pt2 sma3 pt3 len2 len1 again :
  scanned n sma1 pt1 sma2 pt2 -> (len2 <= len1)%nat ->
  scan_post n sma2 pt2 len2 sma3 pt3 again -> scan_post n sma1 pt1 len1 sma3 pt3 again.
Proof.
  intros H1 Hlen [H2 H3]. split; [by eapply scanned_trans|]. destruct again; [|done].
  destruct H3. split; [done|lia].
Qed.

Lemma scan_break sma i seen walk :
  shape sma -> get_alter sma (Some i) = seen ++ walk -> val_at sma i = 0 ->
  Forall (stuck sma (Some i)) seen -> forall q, q ∈ get_alter sma (Some i) -> stuck sma (Some i) q.
Proof.
  intros Hsh Hg Hv Hst q Hq. destruct (sh_single _ Hsh _ _ Hq) as (s & Hs & _ & Ho). cbn. rewrite Hs.
  constructor; [lia|done].
Qed.

Lemma stuck_lower sma sma' i q : val_at sma' i <= val_at sma i -> stuck sma (Some i) q -> stuck sma' (Some i) q.
Proof. intros Hv H. eapply Forall_impl; [exact H|]. cbn. intros s Hs. lia. Qed.

(** Whether the scan starts again after a completed operation. *)
Lemma restart_cases n sma sma3 q q1 rest :
  shape sma -> q ∈ get_alter sma n -> same_op q q1 -> (n <> None -> get_alter sma3 None = []) ->
  get_alter sma3 n = rest ->
  if check_restart sma3 q1 then n = None else n = None -> rest = [].
Proof.
  intros Hsh Hin (_ & _ & _ & Hs & _) Hn Hr. unfold check_restart.
  destruct (pending_alter sma3) as [|x l] eqn:Hpa; cbn [list_is_empty negb].
  - rewrite Hs. destruct (1 <? length (q_sops q))%nat eqn:Hc.
    + destruct (decide (n = None)) as [|Hne]; [done|]. apply Nat.ltb_lt in Hc.
      pose proof (alter_simple _ _ _ Hsh Hin Hne). lia.
    + intros ->. cbn in Hr. congruence.
  - destruct (decide (n = None)) as [|Hne]; [done|]. specialize (Hn Hne). cbn in Hn. congruence.
Qed.

Lemma update_scan_ok n walk : forall seen sma pt c c' sma' pt' again,
  shape sma -> const_quiet sma -> get_alter sma n = seen ++ walk ->
  (n <> None -> get_alter sma None = []) -> Forall (stuck sma n) seen ->
  update_scan n seen walk sma pt c = (c', sma', pt', again) ->
  scan_post n sma pt (length (seen ++ walk)) sma' pt' again.
Proof.
  induction walk as [|q walk IH]; intros seen sma pt c c' sma' pt' again Hsh Hq Hg Hm Hst; cbn [update_scan].
  { intros [= <- <- <- <-]. split; [by apply scanned_refl|]. rewrite Hg, app_nil_r. by apply Forall_forall. }
  destruct (match n with Some i => val_at sma i =? 0 | None => false end) eqn:Hbr.
  { intros [= <- <- <- <-]. split; [by apply scanned_refl|]. destruct n as [i|]; [|done].
    zbool. by eapply scan_break. }
  destruct (perform_atomic_semop sma q) as [[e sma1] q1] eqn:Hp.
  pose proof (scan_elem _ _ _ _ _ Hg) as Hin. pose proof (perform_same_op _ _ _ _ _ Hp) as Hs.
  destruct (e >? 0) eqn:He; [apply Z.gtb_gt in He|].
  - intros Hl. destruct (scan_stays n seen walk q sma pt e sma1 q1) as (H1 & H2 & H3); try done; [lia|].
    eapply scan_post_trans; [exact H1| |eapply IH; [apply H1|apply H1|rewrite H3; apply (assoc_L (++) seen [q1])| | |exact Hl]].
    + rewrite !length_app. cbn. lia.
    + intros Hn. rewrite (sc_other _ _ _ _ _ H1) by done. by apply Hm.
    + apply Forall_app. split.
      * eapply Forall_impl; [exact Hst|]. intros x Hx. by eapply stuck_view.
      * constructor; [|done]. eapply stuck_view; [exact H2|exact Hs|]. eapply perform_stuck; [done..|]. lia.
  - destruct (e =? 0) eqn:He0.
    + assert (e = 0) as -> by (by apply Z.eqb_eq).
      destruct (do_smart_wakeup_zero _ _ _) as [[c2 sma3] pt3] eqn:Hw.
      destruct (scan_completed n seen walk q sma pt sma1 q1 c2 sma3 pt3) as (H1 & H2 & H3); try done.
      assert (n <> None -> get_alter sma3 None = []) as Hm3
        by (intros Hn; rewrite (sc_other _ _ _ _ _ H1) by done; by apply Hm).
      pose proof (restart_cases _ _ _ _ _ _ Hsh Hin Hs Hm3 H2) as Hr. destruct (check_restart sma3 q1).
      * intros [= <- <- <- <-]. split; [done|]. split; [done|]. rewrite H2, !length_app. cbn. lia.
      * intros Hl. eapply scan_post_trans; [exact H1| |eapply IH; [apply H1|apply H1|done|done| |exact Hl]].
        -- rewrite !length_app. cbn. lia.
        -- destruct n as [i|]; [|by destruct seen; [|specialize (Hr eq_refl)]].
           eapply Forall_impl; [exact Hst|]. intros x Hx. eapply stuck_lower; [by apply H3|done].
    + intros Hl. assert (e < 0) as Hneg by (zbool; lia).
      destruct (scan_failed n seen walk q sma pt e sma1 q1) as (H1 & H2); try done.
      eapply scan_post_trans; [exact H1| |eapply IH; [apply H1|apply H1| | | |exact Hl]].
      * rewrite !length_app. cbn. lia.
      * rewrite (scan_off_alter n seen walk q sma e sma1 q1) by done. by rewrite decide_True.
      * intros Hn. rewrite (sc_other _ _ _ _ _ H1) by done. by apply Hm.
      * eapply Forall_impl; [exact Hst|]. intros x Hx. by eapply stuck_view.
Qed.

Lemma update_loop_ok fuel n : forall sma pt c,
  (length (get_alter sma n) < fuel)%nat -> shape sma -> const_quiet sma ->
  (n <> None -> get_alter sma None = []) ->
  exists c' sma' pt', update_loop fuel n sma pt c = Ok (c', sma', pt') /\ scanned n sma pt sma' pt'
    /\ forall q, q ∈ get_alter sma' n -> stuck sma' n q.
Proof.
  induction fuel as [|fuel IH]; intros sma pt c Hlen Hsh Hq Hm; [lia|]. cbn [update_loop].
  destruct (update_scan n [] (get_alter sma n) sma pt c) as [[[c1 sma1] pt1] again] eqn:Hs.
  apply update_scan_ok in Hs as [H1 H2]; try done. cbn in H2. destruct again; [|by exists c1, sma1, pt1].
  destruct H2 as [-> H2]. destruct (IH sma1 pt1 c1) as (c' & sma' & pt' & E1 & E2 & E3); [lia|apply H1|apply H1|done|].
  exists c', sma', pt'. split; [done|]. split; [by eapply scanned_trans|done].
Qed.

Lemma update_queue_ok n sma pt :
  shape sma -> const_quiet sma -> (n <> None -> get_alter sma None = []) ->
  exists c' sma' pt', update_queue sma n pt = Ok (c', sma', pt') /\ scanned n sma pt sma' pt'
    /\ forall q, q ∈ get_alter sma' n -> stuck sma' n q.
Proof. intros. apply update_loop_ok; [lia|done..]. Qed.

(** ** [do_smart_update] *)

(** No sleeping operation could go on. *)
Definition quiet (sma : sem_array) : Prop :=
  const_quiet sma /\ forall n q, q ∈ get_alter sma n -> stuck sma n q.

(** Those who wait for semaphore [i] only cannot. *)
Definition quiet_at (sma : sem_array) (i : nat) : Prop :=
  forall q, q ∈ get_alter sma (Some i) -> stuck sma (Some i) q.

Lemma update_each_ok nums : forall sma pt otime,
  shape sma -> const_quiet sma -> get_alter sma None = [] -> (forall i, i ∉ nums -> quiet_at sma i) ->
  exists otime' sma' pt', update_each nums sma pt otime = Ok (otime', sma', pt')
    /\ woken sma pt sma' pt' /\ shape sma' /\ quiet sma'.
Proof.
  induction nums as [|num nums IH]; intros sma pt otime Hsh Hq Hn Hi; cbn [update_each].
  { exists otime, sma, pt. split; [done|]. split; [apply woken_refl|]. split; [done|]. split; [done|].
    intros [i|] q; [apply Hi, not_elem_of_nil|]. rewrite Hn. by intros ?%not_elem_of_nil. }
  destruct (update_queue_ok (Some num) sma pt) as (c & sma1 & pt1 & -> & Hsc & Hst); try done. simpl_ok.
  destruct (IH sma1 pt1 (otime || c)) as (o' & sma' & pt' & Heq & H1 & H2 & H3); try apply Hsc.
  - by rewrite (sc_other _ _ _ _ _ Hsc).
  - intros i Hni. destruct (decide (i = num)) as [->|Hne]; [exact Hst|].
    assert (quiet_at sma i) as Hqi by (apply Hi; by rewrite not_elem_of_cons).
    intros q. rewrite (sc_other _ _ _ _ _ Hsc) by congruence. intros Hin. cbn.
    rewrite (sc_val _ _ _ _ _ Hsc num eq_refl i Hne). by apply Hqi.
  - exists o', sma', pt'. split; [exact Heq|]. split; [by eapply woken_trans, H1; apply Hsc|done].
Qed.

Lemma woken_same sma sma' pt :
  same_queues sma sma' -> (forall u, is_Some (undos sma !! u) -> is_Some (undos sma' !! u)) -> woken sma pt sma' pt.
Proof.
  intros Hs Hu. pose proof (pending_same _ _ Hs) as Hpe. destruct Hs as (Ha & Hc & Hn & Hns).
  split; [done|done| | | |].
  - intros n x. rewrite Ha. by exists x.
  - intros n x. rewrite Hc. by exists x.
  - unfold miscount. by rewrite Ha, Hc, Hn.
  - exists []. by rewrite Hpe, !app_nil_r.
Qed.

Lemma quiet_view sma pt sma' pt' :
  woken sma pt sma' pt' -> view sma' = view sma -> quiet sma -> quiet sma'.
Proof.
  intros Hw Hv [Hc Ha]. split; [by eapply const_quiet_view|].
  intros n q (q0 & Hin & Hs)%(wk_alter _ _ _ _ Hw). by eapply stuck_view, Ha.
Qed.

Lemma set_semotime_woken now sops sma pt : woken sma pt (set_semotime now sops sma) pt.
Proof. apply woken_same; [by apply upd_sem_queues|done]. Qed.

Lemma set_semotime_view now sops sma : view (set_semotime now sops sma) = view sma.
Proof. unfold view, set_semotime. by rewrite vals_upd_other. Qed.

(** The semaphores that operations have raised. *)
Definition raised (sma : sem_array) (sops : option (list sembuf)) : list nat :=
  match sops with
  | Some sops => sem_num <$> filter (fun s => 0 < sem_op s) sops
  | None => seq 0 (nsems sma)
  end.

Lemma do_smart_update_ok now sma sops otime pt :
  shape sma -> const_quiet_but (touched sma sops) sma ->
  (get_alter sma None = [] -> forall i, i ∉ raised sma sops -> quiet_at sma i) ->
  exists sma' pt', do_smart_update now sma sops otime pt = Ok (sma', pt')
    /\ woken sma pt sma' pt' /\ shape sma' /\ quiet sma'.
Proof.
  intros Hsh Hq Hi. unfold do_smart_update.
  destruct (do_smart_wakeup_zero sma sops pt) as [[c sma1] pt1] eqn:Hw.
  apply do_smart_wakeup_zero_ok in Hw as [(Hw & Hv & Ha) Hq1]; [|done..].
  pose proof (shape_view _ _ _ _ Hsh Hw Hv) as Hsh1.
  assert (exists o sma' pt', (if negb (list_is_empty (pending_alter sma1)) then
       let! (c', sma', pt') := update_queue sma1 None pt1 in Ok (otime || c || c', sma', pt')
     else match sops with
       | None => update_each (seq 0 (length (sem_base sma1))) sma1 pt1 (otime || c)
       | Some sops => update_each (sem_num <$> filter (fun s => 0 < sem_op s) sops) sma1 pt1 (otime || c)
       end) = Ok (o, sma', pt') /\ woken sma1 pt1 sma' pt' /\ shape sma' /\ quiet sma') as (o & sma2 & pt2 & -> & A1 & A2 & A3).
  { destruct (list_is_empty (pending_alter sma1)) eqn:Hg; cbn [negb].
    - assert (get_alter sma1 None = []) as Hn by (cbn; by destruct (pending_alter sma1)).
      assert (nsems sma1 = nsems sma) as Hns by apply Hw.
      destruct (update_each_ok (raised sma sops) sma1 pt1 (otime || c)) as (o & s & p & E1 & E2); try done.
      + intros i Hin q. rewrite Ha. intros Hq2. eapply stuck_view; [exact Hv|done|]. apply Hi; [|done..].
        by rewrite <- Ha.
      + exists o, s, p. split; [|done]. destruct sops; [exact E1|]. rewrite <- E1. unfold raised. by rewrite <- Hns.
    - destruct (update_queue_ok None sma1 pt1) as (c' & s & p & -> & Hsc & Hst); try done. simpl_ok.
      exists (otime || c || c'), s, p. split; [done|]. split; [apply Hsc|]. split; [apply Hsc|]. split; [apply Hsc|].
      intros [i|] q; [|apply Hst]. rewrite (sc_other _ _ _ _ _ Hsc), (sh_mode _ Hsh1) by (done || cbn; by destruct (pending_alter sma1)).
      by intros ?%not_elem_of_nil. }
  simpl_ok. assert (woken sma pt sma2 pt2) as A0 by (by eapply woken_trans).
  destruct o.
  - pose proof (set_semotime_woken now sops sma2 pt2) as Ho. pose proof (set_semotime_view now sops sma2) as Hvo.
    eexists _, _. split; [done|]. split; [by eapply woken_trans|]. split; [by eapply shape_view|by eapply quiet_view].
  - by eexists _, _.
Qed.
