(* ===== verification/SysvSemCalls.v ===== *)
(** * System V semaphores: the system calls

    Merging and unmerging of the queues, and what every system call
    establishes when it releases the lock. *)

From stdpp Require Import gmap list.
From S2P Require Import Prelude SysvSem SysvSemFacts SysvSemQueues SysvSemWake.

(** ** The array when nobody holds its lock *)

Record rest (sma : sem_array) : Prop := {
  r_shape : shape sma;
  r_quiet : quiet sma;
  r_split : complex_count sma = 0 -> get_alter sma None = [];
  r_merged : complex_count sma <> 0 -> forall i, get_alter sma (Some i) = [];
}.

Lemma low_not_completes sma q s :
  q_sops q = [s] -> val_at sma (sem_num s) + sem_op s < 0 -> completes sma q = false.
Proof.
  intros Hs Hv. unfold completes, perform_atomic_semop. rewrite Hs, semop_forward_cons. unfold would_block.
  replace (val_at sma (sem_num s) + sem_op s <? 0) with true by (symmetry; zbool; lia). rewrite orb_true_r. cbn.
  by destruct (sop_has s IPC_NOWAIT).
Qed.

(** Nobody sleeps whose operation could complete. *)
Lemma rest_no_completes sma q : rest sma -> q ∈ pending sma -> completes sma q = false.
Proof.
  intros [Hsh [Hc Ha] _ _] Hq. pose proof (sh_q _ Hsh q Hq) as Hok.
  apply elem_of_pending in Hq as [n [Hq|Hq]].
  - apply not_true_iff_false. intros Ht. apply (Hc n q Hq).
    apply const_completes; [apply Hsh|done| |done]. by eapply const_all_zero.
  - specialize (Ha n q Hq). destruct n as [i|]; [|apply Ha].
    destruct (sh_single _ Hsh _ _ Hq) as (s & Hs & Hn & _). cbn in Ha. rewrite Hs in Ha. inversion Ha; subst.
    by eapply low_not_completes.
Qed.

Lemma cnt_nonneg l : 0 <= complex_in l.
Proof. unfold complex_in. lia. Qed.

Lemma cnt_zero l q : complex_in l = 0 -> q ∈ l -> (length (q_sops q) <= 1)%nat.
Proof.
  intros Hc Hq. apply list_elem_of_split in Hq as (l1 & l2 & ->). rewrite cnt_app, cnt_cons in Hc.
  pose proof (cnt_nonneg l1). pose proof (cnt_nonneg l2).
  destruct (1 <? length (q_sops q))%nat eqn:Hl; [lia|]. by apply Nat.ltb_ge in Hl.
Qed.

Lemma count_zero sma :
  shape sma -> complex_count sma = 0 -> complex_in (get_alter sma None) = 0 /\ get_const sma None = [].
Proof.
  intros Hsh Hc. pose proof (sh_count _ Hsh) as Hm. unfold miscount in Hm.
  pose proof (cnt_nonneg (get_alter sma None)). pose proof (cnt_nonneg (get_const sma None)).
  split; [lia|]. destruct (get_const sma None) as [|q l] eqn:Hg; [done|].
  destruct (sh_const _ Hsh q) as [_ Hl]; [rewrite Hg; by left|].
  rewrite (cnt_cons q l) in *. apply Nat.ltb_lt in Hl. rewrite Hl in *. pose proof (cnt_nonneg l). lia.
Qed.

(** *** Moving entries between the queues *)

Record requeued (sma sma' : sem_array) : Prop := {
  mv_view : view sma' = view sma;
  mv_const : forall n, get_const sma' n = get_const sma n;
  mv_count : complex_count sma' = complex_count sma;
  mv_pending : pending sma' ≡ₚ pending sma;
}.

Lemma q_ok_view sma sma' q : view sma' = view sma -> q_ok sma q -> q_ok sma' q.
Proof.
  intros Hv. unfold q_ok, undo_for. by rewrite (nsems_view _ _ Hv), (view_undos _ _ Hv).
Qed.

Lemma shape_moved sma sma' :
  shape sma -> requeued sma sma' -> complex_in (get_alter sma' None) = complex_in (get_alter sma None) ->
  (forall i q, q ∈ get_alter sma' (Some i) -> simple_on q i (fun op => op < 0)) ->
  (forall q, q ∈ get_alter sma' None -> (1 < length (q_sops q))%nat \/ exists i, simple_on q i (fun op => op < 0)) ->
  (get_alter sma' None <> [] -> forall i, get_alter sma' (Some i) = []) -> shape sma'.
Proof.
  intros Hsh [Hv Hc Hn Hp] Hcnt Hs Hg Hm. split; try done.
  - eapply arr_ok_view; [done|apply Hsh].
  - intros q. rewrite Hp. intros Hq. by apply (q_ok_view sma), (sh_q _ Hsh).
  - intros i q. rewrite Hc. apply Hsh.
  - intros q. rewrite Hc. apply Hsh.
  - unfold miscount. rewrite Hn, Hc, Hcnt. apply Hsh.
  - rewrite Hp. apply Hsh.
Qed.

(** ** [unmerge_queues] *)

Definition home (q : sem_queue) : nat := match q_sops q with s :: _ => sem_num s | [] => 0%nat end.

Lemma unmerge_loop_ok l : forall sma,
  Forall (fun q => (home q < nsems sma)%nat) l ->
  view (unmerge_queues_loop l sma) = view sma
  /\ (forall n, get_const (unmerge_queues_loop l sma) n = get_const sma n)
  /\ complex_count (unmerge_queues_loop l sma) = complex_count sma
  /\ pending (unmerge_queues_loop l sma) ≡ₚ l ++ pending sma
  /\ get_alter (unmerge_queues_loop l sma) None = get_alter sma None
  /\ forall i, get_alter (unmerge_queues_loop l sma) (Some i)
       = get_alter sma (Some i) ++ filter (fun q => home q = i) l.
Proof.
  induction l as [|q l IH]; intros sma Hl; cbn [unmerge_queues_loop].
  { split_and!; try done. intros i. by rewrite filter_nil, app_nil_r. }
  change (match q_sops q with s :: _ => sem_num s | [] => 0%nat end) with (home q).
  inversion Hl as [|? ? Hq Hl']; subst. set (sma1 := put_alter _ _ sma).
  assert (slot_ok sma (Some (home q))) as Hok by done.
  destruct (IH sma1) as (H1 & H2 & H3 & H4 & H5 & H6); [unfold sma1; by rewrite nsems_put_alter|].
  rewrite H1, H3, H4, H5. unfold sma1. split_and!.
  - apply view_put_alter.
  - intros n. by rewrite H2; unfold sma1; rewrite get_const_put_alter.
  - done.
  - destruct (pending_put_alter (Some (home q)) sma Hok) as (r & P1 & P2). rewrite P2, P1. solve_Permutation.
  - done.
  - intros i. rewrite H6. unfold sma1. rewrite get_alter_put, filter_cons by done.
    destruct (decide (home q = i)) as [->|Hne].
    + by rewrite decide_True, <- (assoc_L (++)).
    + by rewrite decide_False by congruence.
Qed.

Lemma simple_home q i P : simple_on q i P -> home q = i.
Proof. intros (s & Hs & Hn & _). unfold home. by rewrite Hs. Qed.

Lemma unmerge_glob sma q :
  shape sma -> complex_count sma = 0 -> q ∈ get_alter sma None ->
  simple_on q (home q) (fun op => op < 0) /\ (home q < nsems sma)%nat.
Proof.
  intros Hsh Hc Hq. destruct (count_zero _ Hsh Hc) as [Hg _]. pose proof (cnt_zero _ _ Hg Hq).
  destruct (sh_glob _ Hsh _ Hq) as [Hl|[i Hi]]; [lia|]. rewrite (simple_home _ _ _ Hi). split; [done|].
  destruct (sh_q _ Hsh q) as [Hin _]; [apply elem_of_pending; by eauto|]. destruct Hi as (s & Hs & <- & _).
  rewrite Hs in Hin. by inversion Hin.
Qed.

Lemma unmerge_ok sma :
  shape sma -> quiet sma -> (complex_count sma <> 0 -> forall i, get_alter sma (Some i) = []) ->
  rest (unmerge_queues sma) /\ requeued sma (unmerge_queues sma).
Proof.
  intros Hsh [Hcq Haq] Hm. unfold unmerge_queues. destruct (complex_count sma =? 0) eqn:Hc; zbool; cbn [negb].
  2: { split; [by split|by split]. }
  pose proof (fun q => unmerge_glob sma q Hsh Hc) as Hg. set (sma1 := unmerge_queues_loop _ sma).
  destruct (unmerge_loop_ok (pending_alter sma) sma) as (H1 & H2 & H3 & H4 & H5 & H6);
    [apply Forall_forall; apply Hg|]. fold sma1 in H1, H2, H3, H4, H5, H6.
  destruct (pending_put_alter None sma1) as (r & P1 & P2); [done|]. rewrite H5 in P1.
  assert (requeued sma (put_alter None [] sma1)) as Hmv.
  { split; [by rewrite view_put_alter|intros n; by rewrite get_const_put_alter|done|].
    rewrite P2. cbn. rewrite H4 in P1. cbn in P1. symmetry. by eapply Permutation_app_inv_l. }
  assert (forall i q, q ∈ get_alter (put_alter None [] sma1) (Some i) ->
    simple_on q i (fun op => op < 0) /\ stuck sma (Some i) q) as Hsome.
  { intros i q. rewrite get_alter_put, decide_False, H6, elem_of_app by done. intros [Hq|Hq].
    - split; [by apply Hsh|by apply Haq].
    - apply list_elem_of_filter in Hq as [<- Hq]. destruct (Hg q Hq) as [(s & Hs & Hn & Ho) _].
      split; [by exists s|]. cbn. rewrite Hs. constructor; [|done]. rewrite <- Hn.
      destruct (Haq None q Hq) as [_ H]. by apply H. }
  split; [|done]. assert (get_alter (put_alter None [] sma1) None = []) as Hnone by done.
  split.
  - eapply shape_moved; [done..| | | |]; rewrite ?Hnone.
    + symmetry. by apply count_zero.
    + intros i q Hq. by apply Hsome.
    + by intros q ?%not_elem_of_nil.
    + done.
  - split.
    + intros n q Hq Hz. rewrite (mv_const _ _ Hmv) in Hq. apply (Hcq n q Hq).
      by eapply zeroes_view; [symmetry; apply Hmv|].
    + intros [i|] q; [|rewrite Hnone; by intros ?%not_elem_of_nil]. intros Hq.
      eapply stuck_view; [apply Hmv|done|]. by apply Hsome.
  - done.
  - intros Hne. exfalso. apply Hne. by rewrite (mv_count _ _ Hmv).
Qed.

(** ** [merge_queues] *)

Lemma merge_queues_loop_ok nums : forall sma,
  Forall (fun i => (i < nsems sma)%nat) nums ->
  requeued sma (merge_queues_loop nums sma)
  /\ (forall i, get_alter (merge_queues_loop nums sma) (Some i)
        = if decide (i ∈ nums) then [] else get_alter sma (Some i))
  /\ forall q, q ∈ get_alter (merge_queues_loop nums sma) None ->
       q ∈ get_alter sma None \/ exists i, q ∈ get_alter sma (Some i).
Proof.
  induction nums as [|num nums IH]; intros sma Hl; cbn [merge_queues_loop].
  { split; [by split|]. split; [|by left]. intros i. by rewrite decide_False by apply not_elem_of_nil. }
  inversion Hl as [|? ? Hn Hl']; subst. set (sma1 := put_alter None _ _).
  assert (slot_ok sma (Some num)) as Hok by done.
  destruct (IH sma1) as ([H1 H2 H3 H4] & H5 & H6); [unfold sma1; by rewrite !nsems_put_alter|].
  assert (forall n, get_alter sma1 n = match n with
    | None => get_alter sma (Some num) ++ get_alter sma None
    | Some i => if decide (i = num) then [] else get_alter sma (Some i) end) as Hg.
  { intros n. unfold sma1. rewrite get_alter_put by done. destruct n as [i|]; [|by rewrite decide_True].
    rewrite decide_False, get_alter_put by done. repeat case_decide; congruence. }
  split; [split|split].
  - rewrite H1. unfold sma1. by rewrite !view_put_alter.
  - intros n. rewrite H2. unfold sma1. by rewrite !get_const_put_alter.
  - by rewrite H3.
  - rewrite H4. unfold sma1. destruct (pending_put_alter (Some num) sma Hok) as (r & P1 & P2).
    destruct (pending_put_alter None (put_alter (Some num) [] sma)) as (r' & P3 & P4); [done|].
    rewrite P4, P1. rewrite P2 in P3. cbn in P3. rewrite P3. cbn. solve_Permutation.
  - intros i. rewrite H5, Hg. repeat case_decide; set_solver.
  - intros q [Hq|[i Hq]]%H6; rewrite Hg in Hq.
    + apply elem_of_app in Hq as [Hq|Hq]; [right; by exists num|by left].
    + case_decide; [by apply not_elem_of_nil in Hq|]. right. by exists i.
Qed.

Lemma cnt_simple l : (forall q, q ∈ l -> (length (q_sops q) <= 1)%nat) -> complex_in l = 0.
Proof.
  induction l as [|q l IH]; intros Hl; [done|]. rewrite cnt_cons, IH by (intros x Hx; apply Hl; by right).
  assert ((1 <? length (q_sops q))%nat = false) as -> by (apply Nat.ltb_ge, Hl; by left). done.
Qed.

Lemma merge_queues_ok sma :
  rest sma -> complex_count sma = 0 ->
  requeued sma (merge_queues sma) /\ shape (merge_queues sma) /\ quiet (merge_queues sma)
  /\ forall i, get_alter (merge_queues sma) (Some i) = [].
Proof.
  intros [Hsh [Hcq Haq] Hs _] Hc. specialize (Hs Hc). unfold merge_queues.
  destruct (merge_queues_loop_ok (seq 0 (length (sem_base sma))) sma) as (Hmv & H1 & H2).
  { apply Forall_forall. intros i Hi%elem_of_seq. unfold nsems. lia. }
  set (sma1 := merge_queues_loop _ sma) in *.
  assert (forall i, get_alter sma1 (Some i) = []) as Hnil.
  { intros i. rewrite H1. case_decide as Hi; [done|].
    destruct (get_alter sma (Some i)) as [|q l] eqn:Hg; [done|]. exfalso. apply Hi, elem_of_seq.
    assert (slot_ok sma (Some i)) as Hok by (apply (get_alter_ok _ _ q); rewrite Hg; by left).
    cbn in Hok. unfold nsems in Hok. lia. }
  assert (forall q, q ∈ get_alter sma1 None -> exists i, simple_on q i (fun op => op < 0) /\ stuck sma (Some i) q) as Hg.
  { intros q [Hq|[i Hq]]%H2; [rewrite Hs in Hq; by apply not_elem_of_nil in Hq|]. exists i.
    split; [by apply Hsh|by apply Haq]. }
  split; [done|]. split; [|split; [|done]].
  - eapply shape_moved; [done..| | | |].
    + rewrite Hs. apply cnt_simple. intros q (i & (s & -> & _) & _)%Hg. done.
    + intros i q. rewrite Hnil. by intros ?%not_elem_of_nil.
    + intros q (i & Hi & _)%Hg. right. by exists i.
    + intros _. exact Hnil.
  - split.
    + intros n q Hq Hz. rewrite (mv_const _ _ Hmv) in Hq. apply (Hcq n q Hq).
      by eapply zeroes_view; [symmetry; apply Hmv|].
    + intros [i|] q; [rewrite Hnil; by intros ?%not_elem_of_nil|]. intros (i & (s & Hs1 & Hn & Ho) & Hst)%Hg.
      cbn in Hst. rewrite Hs1 in Hst. inversion Hst as [|? ? Hlow _]; subst.
      eapply stuck_view; [apply Hmv|done|]. split; [by eapply low_not_completes|].
      intros s0 Hs0. by replace s0 with s by congruence.
Qed.

(** ** Going to sleep *)

Definition counted (q : sem_queue) (sma : sem_array) : sem_array :=
  if (1 <? length (q_sops q))%nat then add_complex 1 sma else sma.

Lemma counted_same q sma :
  view (counted q sma) = view sma /\ (forall n, get_alter (counted q sma) n = get_alter sma n)
  /\ (forall n, get_const (counted q sma) n = get_const sma n) /\ pending (counted q sma) = pending sma
  /\ complex_count (counted q sma) = complex_count sma + if (1 <? length (q_sops q))%nat then 1 else 0.
Proof. unfold counted. destruct (1 <? _)%nat; split_and!; try done. lia. Qed.

(** The conditions under which [q] may join. *)
Definition newcomer (sma : sem_array) (q : sem_queue) : Prop :=
  q_ok sma q /\ q_task q ∉ q_task <$> pending sma.

(** What joining a queue leaves of the others. *)
Lemma joined_shape sma sma' q :
  shape sma -> newcomer sma q -> view sma' = view sma -> pending sma' ≡ₚ q :: pending sma ->
  miscount sma' = 0 ->
  (forall i x, x ∈ get_alter sma' (Some i) -> simple_on x i (fun op => op < 0)) ->
  (forall i x, x ∈ get_const sma' (Some i) -> simple_on x i (fun op => op = 0)) ->
  (forall x, x ∈ get_const sma' None -> all_zero_ops (q_sops x) /\ (1 < length (q_sops x))%nat) ->
  (forall x, x ∈ get_alter sma' None -> (1 < length (q_sops x))%nat \/ exists i, simple_on x i (fun op => op < 0)) ->
  (get_alter sma' None <> [] -> forall i, get_alter sma' (Some i) = []) ->
  shape sma'.
Proof.
  intros Hsh [Hok Ht] Hv Hp Hm H1 H2 H3 H4 H5. split; try done.
  - eapply arr_ok_view; [done|apply Hsh].
  - intros x. rewrite Hp. intros [->|Hx]%elem_of_cons; (apply (q_ok_view sma); [done|]); [done|by apply Hsh].
  - rewrite Hp. cbn. apply NoDup_cons. split; [done|apply Hsh].
Qed.

Lemma join_alter n q sma :
  shape sma -> quiet sma -> newcomer sma q -> slot_ok sma n -> stuck sma n q ->
  match n with
  | Some i => simple_on q i (fun op => op < 0) /\ get_alter sma None = []
  | None => ((1 < length (q_sops q))%nat \/ exists i, simple_on q i (fun op => op < 0))
      /\ forall i, get_alter sma (Some i) = []
  end ->
  let sma' := counted q (put_alter n (get_alter sma n ++ [q]) sma) in
  shape sma' /\ quiet sma' /\ pending sma' ≡ₚ q :: pending sma /\ view sma' = view sma
  /\ forall m, m <> n -> get_alter sma' m = get_alter sma m.
Proof.
  intros Hsh [Hcq Haq] Hnew Hok Hst Hn sma'.
  destruct (counted_same q (put_alter n (get_alter sma n ++ [q]) sma)) as (V & A & C & P & K). fold sma' in V, A, C, P, K.
  rewrite view_put_alter in V. setoid_rewrite get_const_put_alter in C. rewrite count_put_alter in K.
  assert (forall m, get_alter sma' m = if decide (m = n) then get_alter sma n ++ [q] else get_alter sma m) as A'
    by (intros m; by rewrite A, get_alter_put).
  assert (pending sma' ≡ₚ q :: pending sma) as Hp.
  { rewrite P. destruct (pending_put_alter n sma Hok) as (r & P1 & P2). rewrite P2, P1. solve_Permutation. }
  assert (forall m x, x ∈ get_alter sma' m -> m = n /\ x = q \/ x ∈ get_alter sma m) as Hel.
  { intros m x. rewrite A'. case_decide; [|by right]. subst m. rewrite elem_of_app, list_elem_of_singleton. naive_solver. }
  split_and!; try done.
  - eapply joined_shape; [done..| | | | | |].
    + pose proof (sh_count _ Hsh) as Hm. unfold miscount in *. rewrite K, C, A'. case_decide as Hd.
      * subst n. rewrite cnt_app, cnt_cons. change (complex_in []) with 0. lia.
      * destruct n as [i|]; [|done]. destruct Hn as [(s & -> & _) _]. cbn [length Nat.ltb Nat.leb]. lia.
    + intros i x [[<- ->]|Hx]%Hel; [apply Hn|by apply Hsh].
    + intros i x. rewrite C. apply Hsh.
    + intros x. rewrite C. apply Hsh.
    + intros x [[<- ->]|Hx]%Hel; [apply Hn|by apply Hsh].
    + destruct n as [i|].
      * rewrite A', decide_False by done. intros Hne. by destruct Hn as [_ Hn].
      * intros _ i. rewrite A', decide_False by done. apply Hn.
  - split.
    + intros m x. rewrite C. intros Hx Hz. apply (Hcq m x Hx). by eapply zeroes_view.
    + intros m x [[-> ->]|Hx]%Hel; (eapply stuck_view; [exact V|done|]); [done|by apply Haq].
  - intros m Hm. by rewrite A', decide_False.
Qed.

Lemma join_const n q sma :
  shape sma -> quiet sma -> newcomer sma q -> slot_ok sma n -> ~ zeroes sma (q_sops q) ->
  match n with
  | Some i => simple_on q i (fun op => op = 0)
  | None => all_zero_ops (q_sops q) /\ (1 < length (q_sops q))%nat
  end ->
  let sma' := counted q (put_const n (get_const sma n ++ [q]) sma) in
  shape sma' /\ quiet sma' /\ pending sma' ≡ₚ q :: pending sma /\ view sma' = view sma
  /\ forall m, get_alter sma' m = get_alter sma m.
Proof.
  intros Hsh [Hcq Haq] Hnew Hok Hz Hn sma'.
  destruct (counted_same q (put_const n (get_const sma n ++ [q]) sma)) as (V & A & C & P & K). fold sma' in V, A, C, P, K.
  rewrite view_put_const in V. setoid_rewrite get_alter_put_const in A. rewrite count_put_const in K.
  assert (forall m, get_const sma' m = if decide (m = n) then get_const sma n ++ [q] else get_const sma m) as C'
    by (intros m; by rewrite C, get_const_put).
  assert (pending sma' ≡ₚ q :: pending sma) as Hp.
  { rewrite P. destruct (pending_put_const n sma Hok) as (r & P1 & P2). rewrite P2, P1. solve_Permutation. }
  assert (forall m x, x ∈ get_const sma' m -> m = n /\ x = q \/ x ∈ get_const sma m) as Hel.
  { intros m x. rewrite C'. case_decide; [|by right]. subst m. rewrite elem_of_app, list_elem_of_singleton. naive_solver. }
  split_and!; try done.
  - eapply joined_shape; [done..| | | | | |].
    + pose proof (sh_count _ Hsh) as Hm. unfold miscount in *. rewrite K, C', A. case_decide as Hd.
      * subst n. rewrite cnt_app, cnt_cons. change (complex_in []) with 0. lia.
      * destruct n as [i|]; [|done]. destruct Hn as (s & -> & _). cbn [length Nat.ltb Nat.leb]. lia.
    + intros i x. rewrite A. apply Hsh.
    + intros i x [[<- ->]|Hx]%Hel; [apply Hn|by apply Hsh].
    + intros x [[<- ->]|Hx]%Hel; [apply Hn|by apply Hsh].
    + intros x. rewrite A. apply Hsh.
    + rewrite A. intros Hne i. rewrite A. by apply Hsh.
  - split.
    + intros m x [[-> ->]|Hx]%Hel Hz'; [apply Hz|apply (Hcq m x Hx)]; by eapply zeroes_view.
    + intros m x. rewrite A. intros Hx. eapply stuck_view; [exact V|done|]. by apply Haq.
Qed.

(** What [semtimedop] knows of the operation it queues. *)
Definition op_sleeper (sma : sem_array) (q : sem_queue) : Prop :=
  newcomer sma q /\ completes sma q = false /\ q_sops q <> []
  /\ q_alter q = existsb (fun s => negb (sem_op s =? 0)) (q_sops q)
  /\ (all_zero_ops (q_sops q) -> ~ zeroes sma (q_sops q))
  /\ (forall s, q_sops q = [s] -> sem_op s <> 0 -> val_at sma (sem_num s) + sem_op s < 0).

Lemma alter_all_zero sops : existsb (fun s => negb (sem_op s =? 0)) sops = false -> all_zero_ops sops.
Proof.
  intros He. apply Forall_forall. intros s Hs. apply not_true_iff_false in He. apply dec_stable. intros Hne.
  apply He, existsb_exists. exists s. split; [by apply list_elem_of_In|]. zbool. lia.
Qed.

Lemma newcomer_moved sma sma' q : requeued sma sma' -> newcomer sma q -> newcomer sma' q.
Proof. intros Hmv [H1 H2]. split; [by apply (q_ok_view sma), H1; apply Hmv|]. by rewrite (mv_pending _ _ Hmv). Qed.

(** The queue of the array serves everybody from now on. *)
Lemma enqueue_merged sma :
  rest sma ->
  let sma1 := if complex_count sma =? 0 then merge_queues sma else sma in
  requeued sma sma1 /\ shape sma1 /\ quiet sma1 /\ forall i, get_alter sma1 (Some i) = [].
Proof.
  intros Hr sma1. unfold sma1. destruct (complex_count sma =? 0) eqn:Hc; zbool; [by apply merge_queues_ok|].
  split; [by split|]. split; [apply Hr|]. split; [apply Hr|]. by apply (r_merged _ Hr).
Qed.

Definition enqueued (q : sem_queue) (sma sma' : sem_array) : Prop :=
  rest sma' /\ pending sma' ≡ₚ q :: pending sma /\ view sma' = view sma.

Lemma enqueue_simple q s sma :
  rest sma -> op_sleeper sma q -> q_sops q = [s] -> enqueued q sma (enqueue q sma).
Proof.
  intros Hr (Hnew & Hc & _ & Ha & Hz & Hlow) Hs. destruct Hr as [Hsh Hq Hsp Hmg]. unfold enqueue. rewrite Hs.
  assert (slot_ok sma (Some (sem_num s))) as Hok.
  { destruct Hnew as [[Hin _] _]. rewrite Hs in Hin. by inversion Hin. }
  assert (forall x, counted q x = x) as Hcount by (intros x; unfold counted; by rewrite Hs).
  rewrite Ha, Hs. cbn [existsb]. rewrite orb_false_r. destruct (sem_op s =? 0) eqn:Ho; zbool; cbn [negb].
  - destruct (join_const (Some (sem_num s)) q sma) as (H1 & H2 & H3 & H4 & H5); try done.
    + apply Hz. rewrite Hs. by constructor.
    + by exists s.
    + rewrite Hcount in *. split; [|done]. split; [done|done| |]; rewrite count_put_const.
      * intros H. rewrite H5. by apply Hsp.
      * intros H i. rewrite H5. by apply Hmg.
  - specialize (Hlow s Hs Ho). pose proof (val_at_range sma (sem_num s) (proj2 (sh_arr _ Hsh))).
    assert (simple_on q (sem_num s) (fun op => op < 0)) as Hon by (exists s; split; [done|]; split; [done|lia]).
    destruct (complex_count sma =? 0) eqn:Hcc; zbool; cbn [negb].
    + destruct (join_alter (Some (sem_num s)) q sma) as (H1 & H2 & H3 & H4 & H5); try done.
      * cbn. rewrite Hs. by constructor.
      * split; [done|]. by apply Hsp.
      * rewrite Hcount in *. split; [|done]. split; [done|done| |]; rewrite count_put_alter; [|done].
        intros _. rewrite H5 by done. by apply Hsp.
    + destruct (join_alter None q sma) as (H1 & H2 & H3 & H4 & H5); try done.
      * split; [done|]. intros s0 Hs0. by replace s0 with s by congruence.
      * split; [right; by exists (sem_num s)|]. by apply Hmg.
      * rewrite Hcount in *. split; [|done]. split; [done|done| |]; rewrite count_put_alter; [done|].
        intros _ i. rewrite H5 by done. by apply Hmg.
Qed.

Lemma enqueue_complex q sma :
  rest sma -> op_sleeper sma q -> (1 < length (q_sops q))%nat -> enqueued q sma (enqueue q sma).
Proof.
  intros Hr (Hnew & Hc & _ & Ha & Hz & _) Hl. destruct (enqueue_merged sma Hr) as (Hmv & Hsh & Hq & Hnil).
  set (sma1 := if complex_count sma =? 0 then merge_queues sma else sma) in *.
  pose proof (newcomer_moved _ _ _ Hmv Hnew) as Hnew1.
  assert (forall x, counted q x = add_complex 1 x) as Hcount.
  { intros x. unfold counted. apply Nat.ltb_lt in Hl. by rewrite Hl. }
  assert (enqueue q sma = counted q (if q_alter q then put_alter None (get_alter sma1 None ++ [q]) sma1
                                     else put_const None (get_const sma1 None ++ [q]) sma1)) as ->.
  { rewrite Hcount. unfold enqueue. destruct (q_sops q) as [|s1 [|s2 l]]; [done|cbn in Hl; lia|done]. }
  assert (0 <= complex_count sma1) as Hpos.
  { pose proof (sh_count _ Hsh) as Hm. unfold miscount in Hm.
    pose proof (cnt_nonneg (get_alter sma1 None)). pose proof (cnt_nonneg (get_const sma1 None)). lia. }
  destruct (q_alter q) eqn:Hal.
  - destruct (join_alter None q sma1) as (H1 & H2 & H3 & H4 & H5); try done.
    + split; [|intros s Hs; rewrite Hs in Hl; cbn in Hl; lia]. rewrite <- Hc. unfold completes.
      rewrite (perform_agree sma1 sma q q); [done|apply view_agree, Hmv|done].
    + split; [by left|done].
    + split; [|by rewrite H3, (mv_pending _ _ Hmv), H4, (mv_view _ _ Hmv)].
      split; [done|done| |]; rewrite Hcount in *; cbn [complex_count add_complex]; rewrite count_put_alter.
      * lia.
      * intros _ i. by rewrite H5.
  - destruct (join_const None q sma1) as (H1 & H2 & H3 & H4 & H5); try done.
    + intros Hz1. apply Hz; [apply alter_all_zero; congruence|]. eapply zeroes_view; [symmetry; apply Hmv|done].
    + split; [apply alter_all_zero; congruence|done].
    + split; [|by rewrite H3, (mv_pending _ _ Hmv), H4, (mv_view _ _ Hmv)].
      split; [done|done| |]; rewrite Hcount in *; cbn [complex_count add_complex]; rewrite count_put_const.
      * lia.
      * intros _ i. by rewrite H5.
Qed.

Lemma enqueue_ok q sma : rest sma -> op_sleeper sma q -> enqueued q sma (enqueue q sma).
Proof.
  intros Hr Hs. destruct (q_sops q) as [|s [|s2 l]] eqn:Hq.
  - by destruct Hs as (_ & _ & Hne & _).
  - by eapply enqueue_simple.
  - apply enqueue_complex; [done..|]. rewrite Hq. cbn. lia.
Qed.

(** ** Releasing the lock *)

Definition settled (sma : sem_array) : Prop :=
  (complex_count sma = 0 -> get_alter sma None = [])
  /\ (complex_count sma <> 0 -> forall i, get_alter sma (Some i) = []).

Lemma settled_woken sma pt sma' pt' :
  shape sma -> settled sma -> shape sma' -> woken sma pt sma' pt' ->
  (complex_count sma' <> 0 -> forall i, get_alter sma' (Some i) = [])
  /\ (complex_count sma = 0 -> complex_count sma' = 0 /\ get_alter sma' None = []).
Proof.
  intros Hsh [Hs Hm] Hsh' Hw.
  assert (complex_count sma = 0 -> complex_count sma' = 0 /\ get_alter sma' None = []) as H0.
  { intros Hc. destruct (count_zero _ Hsh Hc) as [_ Hcn]. specialize (Hs Hc).
    pose proof (woken_nil _ _ _ _ _ Hw Hs) as Hg. split; [|done].
    pose proof (sh_count _ Hsh') as Hmc. unfold miscount in Hmc. rewrite Hg in Hmc.
    destruct (get_const sma' None) as [|q l] eqn:Hgc; [change (complex_in []) with 0 in Hmc; lia|]. exfalso.
    destruct (wk_const _ _ _ _ Hw None q) as (q0 & Hq0 & _); [rewrite Hgc; by left|].
    rewrite Hcn in Hq0. by apply not_elem_of_nil in Hq0. }
  split; [|done]. intros Hc i. apply (woken_nil _ _ _ _ _ Hw), Hm. intros Hz. by destruct (H0 Hz).
Qed.

Lemma unlock_ok sma pt sma' pt' locknum :
  shape sma -> settled sma -> woken sma pt sma' pt' -> shape sma' -> quiet sma' ->
  (locknum <> None -> complex_count sma = 0) ->
  rest (sem_unlock sma' locknum) /\ requeued sma' (sem_unlock sma' locknum).
Proof.
  intros Hsh Hst Hw Hsh' Hq Hl. destruct (settled_woken _ _ _ _ Hsh Hst Hsh' Hw) as [H1 H2].
  destruct locknum as [i|]; cbn [sem_unlock]; [|by apply unmerge_ok].
  destruct (H2 (Hl ltac:(done))) as [Hc Hg]. split; [by split|by split].
Qed.

Lemma rest_settled sma : rest sma -> settled sma.
Proof. intros [_ _ H1 H2]. by split. Qed.

Lemma sem_lock_single sma sops : sem_lock sma sops <> None -> complex_count sma = 0.
Proof.
  unfold sem_lock. destruct sops as [|s [|s2 l]]; try done. destruct (complex_count sma =? 0) eqn:Hc; [|done].
  by zbool.
Qed.
