(* ===== verification/SysvSemProps.v ===== *)
(** * System V semaphores: every call leaves the array at rest; properties

    [semtimedop], a sleeper that gives up, SETVAL, SETALL and the undo of an
    exiting task return with the array at rest, and everybody who slept
    before still sleeps or has been woken. *)

From stdpp Require Import gmap list.
From S2P Require Import Prelude SysvSem SysvSemFacts SysvSemQueues SysvSemWake SysvSemCalls.

(** Those who slept, and [new] ones, sleep in [sma'] or are woken by [pt]. *)
Definition accounted (new : list sem_queue) (sma sma' : sem_array) (pt : wakeups) : Prop :=
  strip <$> (new ++ pending sma) ≡ₚ strip <$> (pending sma' ++ pt.*1).

Lemma woken_accounted sma sma' sma2 pt :
  woken sma [] sma' pt -> requeued sma' sma2 -> accounted [] sma sma2 pt.
Proof.
  intros Hw Hm. destruct (wk_stock _ _ _ _ Hw) as (new & -> & Hp). unfold accounted. cbn.
  by rewrite Hp, !fmap_app, (mv_pending _ _ Hm).
Qed.

(** ** Calls that change values anywhere *)

Lemma shape_same_queues sma sma1 :
  shape sma -> same_queues sma sma1 -> arr_ok sma1 -> (forall q, q ∈ pending sma -> q_ok sma1 q) -> shape sma1.
Proof.
  intros Hsh Hs Ha Hok. pose proof (pending_same _ _ Hs) as Hp. destruct Hs as (HA & HC & HK & HN).
  split; [done| | | | | | | |].
  - rewrite Hp. exact Hok.
  - intros i q. rewrite HA. apply Hsh.
  - intros i q. rewrite HC. apply Hsh.
  - intros q. rewrite HC. apply Hsh.
  - intros q. rewrite HA. apply Hsh.
  - unfold miscount. rewrite HA, HC, HK. apply Hsh.
  - rewrite HA. intros Hne i. rewrite HA. by apply Hsh.
  - rewrite Hp. apply Hsh.
Qed.

Lemma settled_same sma sma1 : same_queues sma sma1 -> settled sma -> settled sma1.
Proof.
  intros (HA & _ & HK & _) [H1 H2]. split; rewrite HK; [rewrite HA; exact H1|].
  intros Hc i. rewrite HA. by apply H2.
Qed.

Lemma const_nonempty sma n q : shape sma -> q ∈ get_const sma n -> exists s, s ∈ q_sops q.
Proof.
  intros Hsh. destruct n as [i|].
  - intros (s & -> & _)%(sh_zero _ Hsh). exists s. by apply list_elem_of_singleton.
  - intros [_ Hl]%(sh_const _ Hsh). destruct (q_sops q) as [|s l]; [cbn in Hl; lia|]. exists s. by left.
Qed.

Lemma update_all_ok now otime sma sma1 :
  rest sma -> same_queues sma sma1 -> arr_ok sma1 -> (forall q, q ∈ pending sma -> q_ok sma1 q) ->
  exists sma2 pt, do_smart_update now sma1 None otime [] = Ok (sma2, pt)
    /\ rest (sem_unlock sma2 None) /\ accounted [] sma (sem_unlock sma2 None) pt.
Proof.
  intros Hr Hs Ha Hok. pose proof (shape_same_queues _ _ (r_shape _ Hr) Hs Ha Hok) as Hsh.
  destruct (do_smart_update_ok now sma1 None otime []) as (sma2 & pt & Hu & Hw & Hsh2 & Hq2); [done| | |].
  - intros n q Hq _. destruct (const_nonempty _ _ _ Hsh Hq) as [s Hin]. exists s. split; [done|].
    destruct (sh_q _ Hsh q) as [Hsi _]; [apply elem_of_pending; by eauto|].
    unfold sops_in in Hsi. rewrite Forall_forall in Hsi. specialize (Hsi s Hin). apply elem_of_seq. lia.
  - intros _ i Hi q Hq. exfalso. apply Hi, elem_of_seq. pose proof (get_alter_ok _ _ _ Hq) as Hsl. cbn in Hsl. lia.
  - exists sma2, pt. split; [done|].
    destruct (unlock_ok sma1 [] sma2 pt None) as [H1 H2]; try done; [by eapply settled_same, rest_settled|].
    split; [done|]. unfold accounted. rewrite <- (pending_same _ _ Hs). by eapply woken_accounted.
Qed.

Lemma q_ok_undos sma sma1 q :
  nsems sma1 = nsems sma ->
  (forall u, q_undo q = Some u -> is_Some (undos sma !! u) -> is_Some (undos sma1 !! u)) ->
  q_ok sma q -> q_ok sma1 q.
Proof.
  intros Hn Hu [H1 [H2 H3]]. split; [by rewrite Hn|]. split; [done|]. intros u Hq. by apply Hu, H3.
Qed.

Lemma keep_queues_zip {A} (f : sem -> A -> sem) (l : list A) sma :
  length l = nsems sma ->
  (forall s x, sem_pending_alter (f s x) = sem_pending_alter s /\ sem_pending_const (f s x) = sem_pending_const s) ->
  same_queues sma (set_base sma (zip_with f (sem_base sma) l)).
Proof.
  intros Hl Hf. unfold nsems in Hl.
  assert (forall i s, sem_base sma !! i = Some s -> exists x, zip_with f (sem_base sma) l !! i = Some (f s x)) as Hlk.
  { intros i s Hs. destruct (lookup_lt_is_Some_2 l i) as [x Hx]; [rewrite Hl; by eapply lookup_lt_Some|].
    exists x. rewrite lookup_zip_with, Hs. cbn. by rewrite Hx. }
  assert (forall i, sem_base sma !! i = None -> zip_with f (sem_base sma) l !! i = None) as Hln.
  { intros i Hs. by rewrite lookup_zip_with, Hs. }
  split; [|split; [|split; [done|]]].
  - intros [i|]; [|done]. cbn. destruct (sem_base sma !! i) as [s|] eqn:Hs; [|by rewrite Hln].
    destruct (Hlk _ _ Hs) as [x ->]. by apply Hf.
  - intros [i|]; [|done]. cbn. destruct (sem_base sma !! i) as [s|] eqn:Hs; [|by rewrite Hln].
    destruct (Hlk _ _ Hs) as [x ->]. by apply Hf.
  - unfold nsems. cbn. rewrite length_zip_with. lia.
Qed.

Lemma vals_ok_zip {A} (f : sem -> A -> sem) (l : list A) sma :
  Forall (fun x => forall s, 0 <= semval (f s x) <= SEMVMX) l ->
  vals_ok (set_base sma (zip_with f (sem_base sma) l)).
Proof.
  intros Hl. unfold vals_ok, vals. cbn. revert l Hl. induction (sem_base sma) as [|s b IH]; intros l Hl; [constructor|].
  destruct Hl as [|x l Hx Hl]; [constructor|]. cbn. constructor; [apply Hx|by apply IH].
Qed.

(** *** SETVAL *)

Lemma zero_adj_ok i sma : undos_ok sma -> undos_ok (zero_adj i sma).
Proof.
  intros Hu u l. cbn. rewrite lookup_fmap. destruct (undos sma !! u) as [l0|] eqn:Hl; [|done]. intros [= <-].
  destruct (Hu _ _ Hl) as [H1 H2]. rewrite length_alter. split; [done|]. apply Forall_alter; [done|].
  intros. unfold SEMAEM, SEMVMX. lia.
Qed.

Lemma semctl_setval_ok now pid semnum val sma :
  rest sma ->
  exists r sma' pt, semctl_setval now pid semnum val sma = Ok (r, sma', pt)
    /\ rest sma' /\ accounted [] sma sma' pt.
Proof.
  intros Hr. assert (accounted [] sma sma []) as Hid by (unfold accounted; by rewrite app_nil_r).
  unfold semctl_setval. destruct ((val >? SEMVMX) || (val <? 0)) eqn:Hv; [by eexists _, _, _|].
  destruct (length (sem_base sma) <=? semnum)%nat; [by eexists _, _, _|]. cbn zeta.
  apply orb_false_iff in Hv as [Hv1 Hv2].
  set (sma1 := SemArray _ _ _ _ _ now).
  assert (same_queues sma sma1) as Hs by (etrans; [|apply (upd_sem_queues (fun s => set_sempid pid (set_semval (fun _ => val) s)) semnum (zero_adj semnum sma))]; done).
  destruct (update_all_ok now false sma sma1) as (sma2 & pt & -> & H1 & H2); try done.
  - destruct (r_shape _ Hr) as [[Hu Hva] _ _ _ _ _ _ _ _]. split.
    + eapply undos_ok_same; [| |apply (zero_adj_ok semnum), Hu]; [done|apply Hs].
    + unfold vals_ok, vals. cbn. rewrite (list_fmap_alter _ _ (fun _ => val)) by (by apply Forall_true).
      apply Forall_alter; [exact Hva|]. intros. zbool. lia.
  - intros q Hq. eapply q_ok_undos; [apply Hs| |by apply (sh_q _ (r_shape _ Hr))].
    intros u _ [l Hl]. cbn. by rewrite lookup_fmap, Hl.
  - simpl_ok. by eexists _, _, _.
Qed.

(** *** SETALL *)

Lemma semctl_setall_ok now sem_io sma :
  rest sma -> length sem_io = nsems sma -> Forall (fun v => 0 <= v) sem_io ->
  exists r sma' pt, semctl_setall now sem_io sma = Ok (r, sma', pt)
    /\ rest sma' /\ accounted [] sma sma' pt.
Proof.
  intros Hr Hl Hpos. assert (accounted [] sma sma []) as Hid by (unfold accounted; by rewrite app_nil_r).
  unfold semctl_setall. destruct (existsb _ sem_io) eqn:Hex; [by eexists _, _, _|]. cbn zeta.
  set (sma1 := SemArray _ _ _ _ _ now).
  assert (same_queues sma sma1) as Hs by (apply (keep_queues_zip (fun s v => set_semval (fun _ => v) s)); done).
  destruct (update_all_ok now false sma sma1) as (sma2 & pt & -> & H1 & H2); try done.
  - destruct (r_shape _ Hr) as [[Hu Hva] _ _ _ _ _ _ _ _]. split.
    + intros u l. cbn. rewrite lookup_fmap. destruct (undos sma !! u) as [l0|] eqn:Hl0; [|done]. intros [= <-].
      destruct (Hu _ _ Hl0) as [Hlen _]. rewrite length_replicate.
      split; [rewrite Hlen; symmetry; apply Hs|]. apply Forall_replicate. unfold SEMAEM, SEMVMX. lia.
    + apply (vals_ok_zip (fun s v => set_semval (fun _ => v) s)). apply Forall_forall. intros v Hv s. cbn.
      rewrite Forall_forall in Hpos. split; [by apply Hpos|]. apply not_true_iff_false in Hex.
      destruct (v >? SEMVMX) eqn:Hgt; [|zbool; lia]. exfalso. apply Hex, existsb_exists. exists v.
      split; [by apply list_elem_of_In|done].
  - intros q Hq. eapply q_ok_undos; [apply Hs| |by apply (sh_q _ (r_shape _ Hr))].
    intros u _ [l Hl']. cbn. by rewrite lookup_fmap, Hl'.
  - simpl_ok. by eexists _, _, _.
Qed.

(** *** A task exits *)

Lemma exit_adjust_range pid adj s : 0 <= semval s <= SEMVMX -> 0 <= semval (exit_adjust pid adj s) <= SEMVMX.
Proof.
  intros Hs. unfold exit_adjust. destruct (adj =? 0); [done|]. cbn.
  destruct (semval s + adj <? 0) eqn:H1; destruct (_ >? SEMVMX) eqn:H2; zbool; unfold SEMVMX in *; lia.
Qed.

Lemma exit_sem_ok now pid u sma :
  rest sma -> (forall q, q ∈ pending sma -> q_undo q <> Some u) ->
  exists sma' pt, exit_sem now pid u sma = Ok (sma', pt) /\ rest sma' /\ accounted [] sma sma' pt.
Proof.
  intros Hr Hnu. assert (accounted [] sma sma []) as Hid by (unfold accounted; by rewrite app_nil_r).
  unfold exit_sem. destruct (undos sma !! u) as [semadj|] eqn:Hu; [|by eexists _, _]. cbn zeta.
  destruct (r_shape _ Hr) as [[Hun Hva] Hq _ _ _ _ _ _ _]. destruct (Hun _ _ Hu) as [Hlen _].
  set (sma0 := set_undos sma _). set (sma1 := set_base _ _).
  assert (same_queues sma sma1) as Hs.
  { apply (keep_queues_zip (fun s a => exit_adjust pid a s) semadj sma0 Hlen).
    intros s a. unfold exit_adjust. by destruct (a =? 0). }
  destruct (update_all_ok now true sma sma1) as (sma2 & pt & -> & H1 & H2); try done.
  - split.
    + intros u' l Hl. cbn in Hl. apply lookup_delete_Some in Hl as [_ Hl]. destruct (Hun _ _ Hl).
      split; [|done]. etrans; [done|]. symmetry. apply Hs.
    + unfold vals_ok, vals in *. cbn. clearbody sma0. clear -Hva. revert semadj.
      induction (sem_base sma) as [|s b IH]; intros [|a l]; try constructor.
      * cbn. apply exit_adjust_range. by inversion Hva.
      * apply IH. by inversion Hva.
  - intros q Hin. eapply q_ok_undos; [apply Hs| |by apply Hq].
    intros u' Hu' Hsome. cbn. rewrite lookup_delete_ne; [done|]. intros ->. by eapply Hnu.
  - simpl_ok. by eexists _, _.
Qed.

(** ** A op_sleeper gives up *)

Abbreviation others t := (filter (fun q => q_task q <> t)).

Lemma list_del_alter t sma n : get_alter (list_del t sma) n = others t (get_alter sma n).
Proof.
  destruct n as [i|]; [|done]. cbn. rewrite list_lookup_fmap. by destruct (sem_base sma !! i).
Qed.

Lemma list_del_const t sma n : get_const (list_del t sma) n = others t (get_const sma n).
Proof.
  destruct n as [i|]; [|done]. cbn. rewrite list_lookup_fmap. by destruct (sem_base sma !! i).
Qed.

Lemma list_del_view t sma : view (list_del t sma) = view sma.
Proof. unfold view, vals. cbn. f_equal. rewrite <- list_fmap_compose. by apply list_fmap_ext. Qed.

Lemma filter_concat (P : sem_queue -> Prop) `{!forall x, Decision (P x)} (ls : list (list sem_queue)) :
  filter P (concat ls) = concat (filter P <$> ls).
Proof. induction ls as [|l ls IH]; [done|]. cbn. by rewrite filter_app, IH. Qed.

Lemma list_del_pending t sma : pending (list_del t sma) = others t (pending sma).
Proof.
  rewrite !pending_alt, list_del_alter, list_del_const, !filter_app. do 2 f_equal.
  rewrite filter_concat, <- list_fmap_compose, (nsems_view _ _ (list_del_view t sma)). f_equal.
  apply list_fmap_ext. intros _ i _. unfold at_sem. by rewrite list_del_alter, list_del_const, <- filter_app.
Qed.

Lemma others_split q l : NoDup (q_task <$> l) -> q ∈ l -> l ≡ₚ q :: others (q_task q) l.
Proof.
  intros Hnd Hq. apply list_elem_of_split in Hq as (l1 & l2 & ->).
  rewrite fmap_app, fmap_cons, NoDup_app, NoDup_cons in Hnd. destruct Hnd as (_ & H1 & H2 & _).
  assert (forall l : list sem_queue, q_task q ∉ q_task <$> l -> others (q_task q) l = l) as Hid.
  { induction l as [|x l IH]; intros Hl; [done|]. rewrite fmap_cons, not_elem_of_cons in Hl.
    destruct Hl as [Hx Hl]. rewrite filter_cons, decide_True, IH by congruence || done. done. }
  rewrite filter_app, filter_cons, decide_False by (intros H; by apply H).
  rewrite !Hid; [solve_Permutation|done|]. intros Hin. apply (H1 _ Hin). by left.
Qed.

Lemma cnt_perm l1 l2 : l1 ≡ₚ l2 -> complex_in l1 = complex_in l2.
Proof. intros Hp. unfold complex_in. by rewrite Hp. Qed.

Lemma cnt_concat_simple (ls : list (list sem_queue)) :
  (forall l q, l ∈ ls -> q ∈ l -> (length (q_sops q) <= 1)%nat) -> complex_in (concat ls) = 0.
Proof.
  intros H. apply cnt_simple. intros q Hq. apply list_elem_of_In, in_concat in Hq as (l & Hl & Hq).
  apply list_elem_of_In in Hl. apply list_elem_of_In in Hq. by eapply H.
Qed.

(** The operations on several semaphores are in the queues of the array. *)
Lemma cnt_pending sma :
  (forall i q, q ∈ at_sem sma i -> (length (q_sops q) <= 1)%nat) ->
  complex_in (pending sma) = complex_in (get_alter sma None) + complex_in (get_const sma None).
Proof.
  intros H. rewrite pending_alt, !cnt_app, cnt_concat_simple; [lia|].
  intros l q Hl Hq. apply list_elem_of_fmap in Hl as (i & -> & _). by eapply H.
Qed.

Lemma at_sem_simple sma i q : shape sma -> q ∈ at_sem sma i -> (length (q_sops q) <= 1)%nat.
Proof.
  intros Hsh [Hq|Hq]%elem_of_app; [by eapply const_simple|by eapply alter_simple].
Qed.

Lemma list_del_woken q sma :
  shape sma -> q ∈ pending sma -> woken sma [] (uncount q (list_del (q_task q) sma)) [(q, 0)].
Proof.
  intros Hsh Hq. set (sma1 := uncount _ _).
  assert (view sma1 = view sma) as Hv by (unfold sma1; by rewrite uncount_view, list_del_view).
  assert (forall n, get_alter sma1 n = others (q_task q) (get_alter sma n)) as HA
    by (intros n; unfold sma1; by rewrite uncount_get_alter, list_del_alter).
  assert (forall n, get_const sma1 n = others (q_task q) (get_const sma n)) as HC
    by (intros n; unfold sma1; by rewrite uncount_get_const, list_del_const).
  assert (pending sma ≡ₚ q :: pending sma1) as Hp.
  { unfold sma1. rewrite pending_uncount, list_del_pending. apply others_split; [apply Hsh|done]. }
  split.
  - by apply nsems_view.
  - intros u. by rewrite (view_undos _ _ Hv).
  - intros n x. rewrite HA. intros [_ Hx]%list_elem_of_filter. by exists x.
  - intros n x. rewrite HC. intros [_ Hx]%list_elem_of_filter. by exists x.
  - pose proof (cnt_perm _ _ Hp) as Hc. rewrite cnt_cons, !cnt_pending in Hc.
    + unfold miscount. unfold sma1 at 1. rewrite uncount_count. cbn [complex_count list_del]. lia.
    + intros i x [Hx|Hx]%elem_of_app; [rewrite HC in Hx|rewrite HA in Hx];
        apply list_elem_of_filter in Hx as [_ Hx]; (eapply at_sem_simple; [done|apply elem_of_app; by eauto]).
    + intros i x. by apply at_sem_simple.
  - exists [(q, 0)]. split; [done|]. rewrite Hp, fmap_app. cbn. solve_Permutation.
Qed.

Lemma semtimedop_abort_ok q sma :
  rest sma -> q ∈ pending sma ->
  rest (semtimedop_abort q sma) /\ pending sma ≡ₚ q :: pending (semtimedop_abort q sma).
Proof.
  intros Hr Hq. pose proof (list_del_woken q sma (r_shape _ Hr) Hq) as Hw. unfold semtimedop_abort. cbn zeta.
  set (sma1 := uncount _ _) in *.
  assert (view sma1 = view sma) as Hv by (unfold sma1; by rewrite uncount_view, list_del_view).
  destruct (unlock_ok sma [] sma1 [(q, 0)] (sem_lock sma (q_sops q))) as [H1 H2]; try done.
  - apply Hr.
  - by apply rest_settled.
  - eapply shape_view; [apply Hr|done..].
  - eapply quiet_view; [done..|apply Hr].
  - apply sem_lock_single.
  - split; [done|]. rewrite (mv_pending _ _ H2). unfold sma1. rewrite pending_uncount, list_del_pending.
    apply others_split; [apply (r_shape _ Hr)|done].
Qed.

(** ** [semtimedop] *)

Lemma find_alloc_undo_ok mem u sma sma0 :
  rest sma -> find_alloc_undo mem u sma = inr sma0 ->
  rest sma0 /\ same_queues sma sma0 /\ is_Some (undos sma0 !! u).
Proof.
  intros Hr. unfold find_alloc_undo. destruct (undos sma !! u) as [l|] eqn:Hu; [intros [= <-]; by rewrite Hu|].
  destruct mem; [|done]. intros [= <-]. set (sma0 := set_undos _ _).
  assert (same_queues sma sma0) as Hs by done.
  split; [|split; [done|cbn; by rewrite lookup_insert_eq]].
  destruct Hr as [Hsh [Hcq Haq] Hsp Hmg]. split; [|split|done|done].
  - eapply shape_same_queues; [done..| |].
    + destruct (sh_arr _ Hsh) as [Hun Hva]. split; [|done]. intros u' l. cbn.
      destruct (decide (u' = u)) as [->|Hne]; [|rewrite lookup_insert_ne by done; apply Hun].
      rewrite lookup_insert_eq. intros [= <-]. rewrite length_replicate. split; [done|].
      apply Forall_replicate. unfold SEMAEM, SEMVMX. lia.
    + intros q Hq. apply (q_ok_undos sma); [done| |by apply (sh_q _ Hsh)]. intros u' _ Hsome. cbn.
      destruct (decide (u' = u)) as [->|Hne]; [by rewrite lookup_insert_eq|by rewrite lookup_insert_ne].
  - exact Hcq.
  - intros n q Hq. specialize (Haq n q Hq). destruct n as [i|]; [exact Haq|]. destruct Haq as [H1 H2].
    split; [|exact H2]. rewrite <- H1. unfold completes. rewrite (perform_agree sma0 sma q q); [done| |done].
    split; [done|]. intros u' Hu'. cbn. apply lookup_insert_ne. intros <-.
    destruct (sh_q _ Hsh q) as [_ [_ Hd]]; [apply elem_of_pending; exists None; by right|].
    destruct (Hd u Hu') as [l Hl]. congruence.
Qed.

Lemma existsb_false {A} (f : A -> bool) l : existsb f l = false -> Forall (fun x => f x = false) l.
Proof.
  intros H. apply Forall_forall. intros x Hx. apply not_true_iff_false. intros Hf. apply not_true_iff_false in H.
  apply H, existsb_exists. exists x. split; [by apply list_elem_of_In|done].
Qed.

Lemma delta_not_raised sops i : i ∉ sem_num <$> filter (fun s => 0 < sem_op s) sops -> delta sops i <= 0.
Proof.
  induction sops as [|s sops IH]; [done|]. rewrite filter_cons. cbn [delta]. case_decide as Hs; intros Hi.
  - rewrite fmap_cons, not_elem_of_cons in Hi. destruct Hi as [Hi1 Hi2]. rewrite decide_False by done.
    specialize (IH Hi2). lia.
  - specialize (IH Hi). case_decide; lia.
Qed.

(** The operation completes at once and wakes others. *)
Lemma completed_update now sma q sma1 q1 :
  rest sma -> q_ok sma q -> perform_atomic_semop sma q = (0, sma1, q1) ->
  exists sma2 pt, do_smart_update now sma1 (Some (q_sops q)) true [] = Ok (sma2, pt)
    /\ woken sma [] sma2 pt /\ shape sma2 /\ quiet sma2.
Proof.
  intros [Hsh [Hcq Haq] _ _] Hok Hp. pose proof (woken_perform _ _ _ _ _ [] Hp) as Hw.
  pose proof (perform_queues _ _ _ _ _ Hp) as (HA & HC & _).
  destruct (perform_completed _ _ _ _ (sh_arr _ Hsh) Hok Hp) as (Ha & _ & Hval & _).
  destruct (do_smart_update_ok now sma1 (Some (q_sops q)) true []) as (sma2 & pt & Hu & Hw2 & Hsh2 & Hq2).
  - by eapply shape_woken.
  - by eapply completed_quiet_but.
  - intros _ i Hi x Hx. rewrite HA in Hx. specialize (Haq _ _ Hx). eapply stuck_lower; [|exact Haq].
    rewrite Hval. pose proof (delta_not_raised _ _ Hi). lia.
  - exists sma2, pt. split; [done|]. split; [by eapply woken_trans|done].
Qed.

(** The operation has to sleep. *)
Lemma blocked_sleeper sma q e sma1 q1 :
  rest sma -> newcomer sma q -> q_sops q <> [] ->
  q_alter q = existsb (fun s => negb (sem_op s =? 0)) (q_sops q) ->
  perform_atomic_semop sma q = (e, sma1, q1) -> 0 < e -> op_sleeper sma q1.
Proof.
  intros Hr [Hok Ht] Hne Hal Hp He. destruct (perform_same_op _ _ _ _ _ Hp) as (S1 & S2 & S3 & S4 & S5).
  assert (completes sma q = false) as Hc by (unfold completes; rewrite Hp; cbn; zbool; lia).
  pose proof (r_shape _ Hr) as Hsh. split; [|rewrite S4, S5; split; [|split; [done|split; [done|split]]]].
  - split; [|by rewrite S1]. unfold q_ok. by rewrite S2, S4.
  - rewrite <- Hc. unfold completes. by rewrite (perform_agree sma sma q q1).
  - intros Hz Hzs. apply const_completes in Hzs; [congruence|apply Hsh|done|done].
  - intros s Hs Ho. destruct (perform_blocked _ _ _ _ _ (sh_arr _ Hsh) Hok Hp He) as (pre & x & post & Heq & _ & _ & Hb).
    rewrite Hs in Heq. destruct pre as [|y pre]; [|by destruct pre]. injection Heq as <- <-. cbn in Hb. lia.
Qed.

(** The operation has been tried on the array at rest. *)
Lemma semtimedop_tried now sma q :
  rest sma -> newcomer sma q -> q_sops q <> [] ->
  q_alter q = existsb (fun s => negb (sem_op s =? 0)) (q_sops q) ->
  exists r sma' pt,
    (let locknum := sem_lock sma (q_sops q) in
     let '(error, sma, queue) := perform_atomic_semop sma q in
     let! (sma, tasks) :=
       (if error =? 0 then
          if q_alter q then do_smart_update now sma (Some (q_sops q)) true []
          else Ok (set_semotime now (Some (q_sops q)) sma, [])
        else Ok (sma, [])) in
     if error <=? 0 then Ok (Some error, sem_unlock sma locknum, tasks)
     else Ok (None, sem_unlock (enqueue queue sma) locknum, tasks)) = Ok (r, sma', pt)
    /\ rest sma' /\ accounted (match r with None => [q] | Some _ => [] end) sma sma' pt.
Proof.
  intros Hr Hnew Hne Hal. cbn zeta. destruct (perform_atomic_semop sma q) as [[e sma1] q1] eqn:Hp.
  pose proof (sem_lock_single sma (q_sops q)) as Hl. pose proof (r_shape _ Hr) as Hsh.
  destruct (e =? 0) eqn:He0.
  - assert (e = 0) as -> by (by apply Z.eqb_eq).
    assert (exists sma2 pt, (if q_alter q then do_smart_update now sma1 (Some (q_sops q)) true []
      else Ok (set_semotime now (Some (q_sops q)) sma1, [])) = Ok (sma2, pt)
      /\ woken sma [] sma2 pt /\ shape sma2 /\ quiet sma2) as (sma2 & pt & -> & H1 & H2 & H3).
    { destruct (q_alter q); [eapply completed_update; [done|apply Hnew|done]|].
      pose proof (perform_const_view _ _ _ _ _ (alter_all_zero _ (eq_sym Hal)) Hp) as Hv.
      assert (woken sma [] (set_semotime now (Some (q_sops q)) sma1) []) as Hw
        by (eapply woken_trans; [by eapply woken_perform|apply set_semotime_woken]).
      rewrite <- (set_semotime_view now (Some (q_sops q))) in Hv.
      eexists _, _. split; [done|]. split; [done|]. split; [by eapply shape_view|eapply quiet_view; [done..|apply Hr]]. }
    simpl_ok. destruct (unlock_ok _ _ _ _ _ Hsh (rest_settled _ Hr) H1 H2 H3 Hl) as [U1 U2].
    eexists _, _, _. split; [done|]. split; [done|]. by eapply woken_accounted.
  - assert (e <> 0) as Hnz by (zbool; lia). rewrite (perform_undone _ _ _ _ _ Hp Hnz). simpl_ok.
    destruct (e <=? 0) eqn:Hle.
    + destruct (unlock_ok _ _ _ _ _ Hsh (rest_settled _ Hr) (woken_refl sma []) Hsh (r_quiet _ Hr) Hl) as [U1 U2].
      eexists _, _, _. split; [done|]. split; [done|]. by eapply woken_accounted; [apply woken_refl|].
    + assert (op_sleeper sma q1) as Hsl by (eapply blocked_sleeper; [done..|]; zbool; lia).
      destruct (enqueue_ok _ _ Hr Hsl) as (E1 & E2 & E3). set (sma2 := enqueue q1 sma) in *.
      assert (rest (sem_unlock sma2 (sem_lock sma (q_sops q))) /\ requeued sma2 (sem_unlock sma2 (sem_lock sma (q_sops q)))) as [U1 U2].
      { destruct (sem_lock sma (q_sops q)); cbn [sem_unlock]; [by split|]. apply unmerge_ok; apply E1. }
      exists None, (sem_unlock sma2 (sem_lock sma (q_sops q))), []. split; [done|]. split; [done|].
      unfold accounted. rewrite !fmap_app.
      rewrite (mv_pending _ _ U2), E2, !fmap_cons, (strip_same _ _ (perform_same_op _ _ _ _ _ Hp)). solve_Permutation.
Qed.

(** * Properties *)

(** ** Sequences of calls *)

Inductive sem_call :=
| CallOp (sc_semopm : nat) (mem perm : bool) (t u : positive) (pid : Z) (sops : list sembuf)
| CallAbort (t : positive)
| CallSetval (pid : Z) (semnum : nat) (val : Z)
| CallSetall (sem_io : list Z)
| CallExit (pid : Z) (u : positive).

(** A task that sleeps makes no call; only a sleeper gives up; the values of
    SETALL are unsigned, one for each semaphore; an undo structure outlives
    the sleeping operations that use it. *)
Definition valid_call (c : sem_call) (sma : sem_array) : bool :=
  match c with
  | CallOp _ _ _ t _ _ _ => bool_decide (t ∉ q_task <$> pending sma)
  | CallAbort t => bool_decide (t ∈ q_task <$> pending sma)
  | CallSetval _ _ _ => true
  | CallSetall sem_io => (length sem_io =? length (sem_base sma))%nat && forallb (fun v => 0 <=? v) sem_io
  | CallExit _ u => forallb (fun q => negb (bool_decide (q_undo q = Some u))) (pending sma)
  end.

(** The state behind the call, the tasks the call puts to sleep and those who
    stop sleeping. *)
Definition do_call (now : Z) (c : sem_call) (sma : sem_array)
    : outcome (sem_array * list positive * list positive) :=
  let woken_tasks (pt : wakeups) := q_task <$> pt.*1 in
  match c with
  | CallOp sc_semopm mem perm t u pid sops =>
      let! (r, sma, pt) := semtimedop now sc_semopm mem perm t u pid sops sma in
      Ok (sma, match r with None => [t] | Some _ => [] end, woken_tasks pt)
  | CallAbort t =>
      match List.find (fun q => bool_decide (q_task q = t)) (pending sma) with
      | Some q => Ok (semtimedop_abort q sma, [], [t])
      | None => Ok (sma, [], [])
      end
  | CallSetval pid semnum val =>
      let! (_, sma, pt) := semctl_setval now pid semnum val sma in Ok (sma, [], woken_tasks pt)
  | CallSetall sem_io => let! (_, sma, pt) := semctl_setall now sem_io sma in Ok (sma, [], woken_tasks pt)
  | CallExit pid u => let! (sma, pt) := exit_sem now pid u sma in Ok (sma, [], woken_tasks pt)
  end.

(** The states of an array of [nsems] semaphores. *)
Inductive sem_reachable (nsems : nat) : sem_array -> Prop :=
| reach_new now : sem_reachable nsems (newary now nsems)
| reach_call now c sma sma' new gone :
    sem_reachable nsems sma -> valid_call c sma = true -> do_call now c sma = Ok (sma', new, gone) ->
    sem_reachable nsems sma'.

(** ** The invariant *)

Lemma newary_rest now n : rest (newary now n).
Proof.
  assert (forall m, get_alter (newary now n) m = []) as HA.
  { intros [i|]; [|done]. cbn. destruct (replicate n _ !! i) as [s|] eqn:Hs; [|done].
    by apply lookup_replicate in Hs as [-> _]. }
  assert (forall m, get_const (newary now n) m = []) as HC.
  { intros [i|]; [|done]. cbn. destruct (replicate n _ !! i) as [s|] eqn:Hs; [|done].
    by apply lookup_replicate in Hs as [-> _]. }
  assert (forall q, q ∉ pending (newary now n)) as HP.
  { intros q (m & [H|H])%elem_of_pending; [rewrite HC in H|rewrite HA in H]; by apply not_elem_of_nil in H. }
  pose proof (elem_of_nil_inv _ HP) as HP'.
  split; [split|split|done|done].
  - split; [intros u l; cbn; by rewrite lookup_empty|]. unfold vals_ok, vals. cbn.
    rewrite fmap_replicate. apply Forall_replicate. unfold SEMVMX. cbn. lia.
  - intros q Hq. by apply HP in Hq.
  - intros i q. rewrite HA. by intros ?%not_elem_of_nil.
  - intros i q. rewrite HC. by intros ?%not_elem_of_nil.
  - intros q. rewrite HC. by intros ?%not_elem_of_nil.
  - intros q. rewrite HA. by intros ?%not_elem_of_nil.
  - done.
  - by rewrite HA.
  - rewrite HP'. constructor.
  - intros m q. rewrite HC. by intros ?%not_elem_of_nil.
  - intros m q. rewrite HA. by intros ?%not_elem_of_nil.
Qed.

Lemma accounted_refl sma : accounted [] sma sma [].
Proof. unfold accounted. by rewrite app_nil_r. Qed.

(** The entry a call makes when it sleeps. *)
Definition op_entry (t u : positive) (pid : Z) (sops : list sembuf) : sem_queue :=
  SemQueue t (if existsb (fun s => sop_has s SEM_UNDO) sops then Some u else None) pid sops None
    (existsb (fun s => negb (sem_op s =? 0)) sops).

Lemma op_entry_ok t u pid sops sma :
  existsb (fun s => (length (sem_base sma) <=? sem_num s)%nat) sops = false ->
  (existsb (fun s => sop_has s SEM_UNDO) sops = true -> is_Some (undos sma !! u)) ->
  q_ok sma (op_entry t u pid sops).
Proof.
  intros Hin Hu. split; [|split]; cbn.
  - apply existsb_false in Hin. eapply Forall_impl; [exact Hin|]. cbn. intros s Hs. apply Nat.leb_gt in Hs. exact Hs.
  - intros (s & Hs & Hf)%Exists_exists.
    assert (existsb (fun s => sop_has s SEM_UNDO) sops = true) as ->; [|done].
    apply existsb_exists. exists s. split; [by apply list_elem_of_In|done].
  - intros u'. destruct (existsb (fun s => sop_has s SEM_UNDO) sops); [|done]. intros [= <-]. by apply Hu.
Qed.

Lemma semtimedop_ok now sc_semopm mem perm t u pid sops sma :
  rest sma -> t ∉ q_task <$> pending sma ->
  exists r sma' pt, semtimedop now sc_semopm mem perm t u pid sops sma = Ok (r, sma', pt) /\ rest sma'
    /\ accounted (match r with None => [op_entry t u pid sops] | Some _ => [] end) sma sma' pt.
Proof.
  intros Hr Ht. pose proof (accounted_refl sma) as Hid. unfold semtimedop. cbn zeta.
  destruct (length sops <? 1)%nat eqn:Hlen; [by eexists _, _, _|].
  destruct (sc_semopm <? length sops)%nat; [by eexists _, _, _|].
  destruct (if existsb (fun s => sop_has s SEM_UNDO) sops then find_alloc_undo mem u sma else inr sma)
    as [err|sma0] eqn:Hf; [by eexists _, _, _|].
  assert (rest sma0 /\ same_queues sma sma0
    /\ (existsb (fun s => sop_has s SEM_UNDO) sops = true -> is_Some (undos sma0 !! u))) as (Hr0 & Hs0 & Hu0).
  { destruct (existsb (fun s => sop_has s SEM_UNDO) sops); [|by injection Hf as <-].
    destruct (find_alloc_undo_ok _ _ _ _ Hr Hf) as (? & ? & ?). done. }
  pose proof (pending_same _ _ Hs0) as Hp0. unfold accounted in *. rewrite <- Hp0 in *.
  destruct (existsb (fun s => (length (sem_base sma0) <=? sem_num s)%nat) sops) eqn:Hin.
  { eexists _, _, _. split; [done|]. split; [done|]. cbn. by rewrite app_nil_r. }
  destruct perm; cbn [negb].
  2: { eexists _, _, _. split; [done|]. split; [done|]. cbn. by rewrite app_nil_r. }
  apply (semtimedop_tried now sma0 (op_entry t u pid sops)); [done| | |done].
  - split; [by apply op_entry_ok|done].
  - cbn. by destruct sops.
Qed.

Lemma setall_ok now sem_io sma :
  rest sma -> (length sem_io =? length (sem_base sma))%nat && forallb (fun v => 0 <=? v) sem_io = true ->
  exists r sma' pt, semctl_setall now sem_io sma = Ok (r, sma', pt) /\ rest sma' /\ accounted [] sma sma' pt.
Proof.
  intros Hr [Hl Hp]%andb_true_iff. apply Nat.eqb_eq in Hl. apply semctl_setall_ok; [done|done|].
  apply Forall_forall. intros v Hv. rewrite forallb_forall in Hp. specialize (Hp v).
  rewrite <- list_elem_of_In in Hp. specialize (Hp Hv). zbool. lia.
Qed.

Lemma abort_ok t sma :
  rest sma -> t ∈ q_task <$> pending sma ->
  exists q, List.find (fun q => bool_decide (q_task q = t)) (pending sma) = Some q /\ q_task q = t
    /\ rest (semtimedop_abort q sma) /\ pending sma ≡ₚ q :: pending (semtimedop_abort q sma).
Proof.
  intros Hr (q0 & -> & Hq0)%list_elem_of_fmap.
  destruct (List.find _ _) as [q|] eqn:Hf.
  - apply find_some in Hf as [Hq Ht]. apply bool_decide_eq_true in Ht. apply list_elem_of_In in Hq.
    exists q. split; [done|]. split; [done|]. by apply semtimedop_abort_ok.
  - apply list_elem_of_In in Hq0. pose proof (find_none _ _ Hf _ Hq0) as Hn. cbn in Hn.
    by rewrite bool_decide_eq_false in Hn.
Qed.

Lemma exit_ok now pid u sma :
  rest sma -> forallb (fun q => negb (bool_decide (q_undo q = Some u))) (pending sma) = true ->
  exists sma' pt, exit_sem now pid u sma = Ok (sma', pt) /\ rest sma' /\ accounted [] sma sma' pt.
Proof.
  intros Hr Hf. apply exit_sem_ok; [done|]. intros q Hq Hu. rewrite forallb_forall in Hf.
  apply list_elem_of_In in Hq. specialize (Hf q Hq). by rewrite bool_decide_eq_true_2 in Hf.
Qed.

Lemma accounted_tasks new sma sma' pt :
  accounted new sma sma' pt ->
  (q_task <$> new) ++ (q_task <$> pending sma) ≡ₚ (q_task <$> pending sma') ++ (q_task <$> pt.*1).
Proof. intros H. rewrite <- !fmap_app, !(q_task_strip (_ ++ _)). by rewrite H. Qed.

Lemma do_call_ok now c sma :
  rest sma -> valid_call c sma = true ->
  exists sma' new gone, do_call now c sma = Ok (sma', new, gone) /\ rest sma'
    /\ NoDup (new ++ (q_task <$> pending sma))
    /\ new ++ (q_task <$> pending sma) ≡ₚ (q_task <$> pending sma') ++ gone.
Proof.
  intros Hr Hv. pose proof (sh_tasks _ (r_shape _ Hr)) as Hnd. destruct c; cbn [do_call valid_call] in *.
  - apply bool_decide_eq_true in Hv.
    destruct (semtimedop_ok now sc_semopm mem perm t u pid sops sma Hr Hv) as (r & sma' & pt & -> & H & Ha).
    simpl_ok. eexists _, _, _. split; [done|]. split; [done|]. apply accounted_tasks in Ha.
    destruct r; [done|]. split; [by apply NoDup_cons|done].
  - apply bool_decide_eq_true in Hv. destruct (abort_ok _ _ Hr Hv) as (q & -> & <- & H & Hp).
    eexists _, _, _. split; [done|]. split; [done|]. split; [done|]. rewrite Hp. cbn. solve_Permutation.
  - destruct (semctl_setval_ok now pid semnum val sma Hr) as (r & sma' & pt & -> & H & Ha). simpl_ok.
    eexists _, _, _. split; [done|]. split; [done|]. split; [done|]. by apply (accounted_tasks []).
  - destruct (setall_ok now sem_io sma Hr Hv) as (r & sma' & pt & -> & H & Ha). simpl_ok.
    eexists _, _, _. split; [done|]. split; [done|]. split; [done|]. by apply (accounted_tasks []).
  - destruct (exit_ok now pid u sma Hr Hv) as (sma' & pt & -> & H & Ha). simpl_ok.
    eexists _, _, _. split; [done|]. split; [done|]. split; [done|]. by apply (accounted_tasks []).
Qed.

Lemma reachable_rest n sma : sem_reachable n sma -> rest sma.
Proof.
  induction 1 as [now|now c sma sma' new gone _ IH Hv Hc]; [apply newary_rest|].
  destruct (do_call_ok now c sma IH Hv) as (s & x & y & Heq & H & _). rewrite Hc in Heq. by injection Heq as <- _ _.
Qed.

(** ** Properties *)

(** C15. An operation on several semaphores is atomic: when
    [perform_atomic_semop] returns 0, every operation was admissible in its
    turn, each semaphore has moved by the sum of the operations on it and each
    adjustment by the opposite of those with SEM_UNDO, all within the limits;
    when it returns anything else the array is exactly what it was, and a
    sleep is due to the operation recorded in [q_blocking]. *)
Theorem semop_atomic sma q e sma' q' :
  arr_ok sma -> q_ok sma q -> perform_atomic_semop sma q = (e, sma', q') ->
  (e = 0 -> arr_ok sma' /\ admitted (val_at sma) (q_sops q)
     /\ (forall j, val_at sma' j = val_at sma j + delta (q_sops q) j)
     /\ (forall j, adj_at sma' (q_undo q) j = adj_at sma (q_undo q) j - delta (undo_sops (q_sops q)) j))
  /\ (e <> 0 -> sma' = sma)
  /\ (0 < e -> exists pre s post, q_sops q = pre ++ s :: post /\ q_blocking q' = Some s
        /\ sop_has s IPC_NOWAIT = false
        /\ (sem_op s = 0 /\ val_at sma (sem_num s) + delta pre (sem_num s) <> 0
            \/ val_at sma (sem_num s) + delta pre (sem_num s) + sem_op s < 0)).
Proof.
  intros Ha Hq Hp. split; [|split].
  - intros ->. by eapply perform_completed.
  - by apply (perform_undone _ _ _ _ _ Hp).
  - by eapply perform_blocked.
Qed.

Definition sem_demo_ops : list sembuf := [Sembuf 0 (-2) 4096; Sembuf 1 1 0].
Definition sem_demo_array : sem_array :=
  SemArray [Sem 3 0 [] [] 0; Sem 0 0 [] [] 0] [] [] 0 {[1%positive := [5; 0]]} 0.

Lemma semop_atomic_witness :
  val_at (perform_atomic_semop sem_demo_array (SemQueue 1 (Some 1%positive) 7 sem_demo_ops None true)).1.2 1 = 0 + 1.
Proof.
  assert (arr_ok sem_demo_array) as Ha.
  { split; [|repeat constructor; unfold SEMVMX; cbn; lia].
    intros u l. cbn. intros [<- <-]%lookup_singleton_Some. split; [done|].
    repeat constructor; unfold SEMAEM, SEMVMX; lia. }
  assert (q_ok sem_demo_array (SemQueue 1 (Some 1%positive) 7 sem_demo_ops None true)) as Hq.
  { split; [repeat constructor|]. split; [by eexists|]. intros u [= <-]. cbn. by eexists. }
  destruct (perform_atomic_semop sem_demo_array (SemQueue 1 (Some 1%positive) 7 sem_demo_ops None true)) as [[e sma'] q'] eqn:Hp.
  destruct (semop_atomic _ _ _ _ _ Ha Hq Hp) as (H0 & _). vm_compute in Hp.
  injection Hp as He _ _. destruct (H0 (eq_sym He)) as (_ & _ & Hv & _). cbn [fst snd]. exact (Hv 1%nat).
Defined.

(** C14. No wakeup is missed: between calls no sleeping operation could
    complete, whatever sequence of semop, semtimedop that times out or is
    interrupted, SETVAL, SETALL and task exits with undo led there; and every
    value is within 0 and SEMVMX. *)
Theorem sem_no_missed_wakeup n sma :
  sem_reachable n sma ->
  (forall q, q ∈ pending sma -> completes sma q = false) /\ vals_ok sma.
Proof.
  intros Hr%reachable_rest. split; [intros q; by apply rest_no_completes|]. apply (r_shape _ Hr).
Qed.

(** Task 1 waits for semaphore 0, task 2 for both semaphores, task 3 raises
    semaphore 0 by one and wakes task 1; task 2 keeps sleeping. *)
Definition sem_demo_calls : list sem_call :=
  [CallOp 10 true true 1 1 101 [Sembuf 0 (-1) 0];
   CallOp 10 true true 2 2 102 [Sembuf 0 (-1) 4096; Sembuf 1 (-1) 4096];
   CallOp 10 true true 3 3 103 [Sembuf 0 1 0]].

Fixpoint run_calls (cs : list sem_call) (sma : sem_array) : outcome sem_array :=
  match cs with
  | [] => Ok sma
  | c :: cs => if valid_call c sma then let! (sma, _, _) := do_call 0 c sma in run_calls cs sma else Panic
  end.

Lemma run_calls_reachable n cs : forall sma sma',
  sem_reachable n sma -> run_calls cs sma = Ok sma' -> sem_reachable n sma'.
Proof.
  induction cs as [|c cs IH]; intros sma sma' Hr; cbn [run_calls]; [by intros [= <-]|].
  destruct (valid_call c sma) eqn:Hv; [|done]. destruct (do_call 0 c sma) as [[[s x] y]| | |] eqn:Hc; try done.
  simpl_ok. apply IH. by econstructor.
Qed.

Definition sem_demo : sem_array :=
  match run_calls sem_demo_calls (newary 0 2) with Ok sma => sma | _ => newary 0 0 end.

Lemma sem_no_missed_wakeup_witness :
  q_task <$> pending sem_demo = [2%positive] /\ vals_ok sem_demo.
Proof.
  split; [vm_compute; reflexivity|]. apply (sem_no_missed_wakeup 2).
  apply (run_calls_reachable 2 sem_demo_calls (newary 0 2)); [constructor|vm_compute; reflexivity].
Defined.

(** C16. Every call returns: the rescans of the queues end, and every task
    that slept before the call or starts to sleep in it either sleeps behind
    it or is woken exactly once. *)
Theorem sem_call_total n now c sma :
  sem_reachable n sma -> valid_call c sma = true ->
  exists sma' new gone, do_call now c sma = Ok (sma', new, gone)
    /\ NoDup ((q_task <$> pending sma') ++ gone)
    /\ new ++ (q_task <$> pending sma) ≡ₚ (q_task <$> pending sma') ++ gone.
Proof.
  intros Hr%reachable_rest Hv. destruct (do_call_ok now c sma Hr Hv) as (sma' & new & gone & Hc & _ & Hnd & Hp).
  exists sma', new, gone. split; [done|]. split; [by rewrite <- Hp|done].
Qed.

Lemma sem_call_total_witness :
  exists sma' new gone, do_call 0 (CallSetval 9 1 1) sem_demo = Ok (sma', new, gone)
    /\ new ++ [2%positive] ≡ₚ (q_task <$> pending sma') ++ gone.
Proof.
  destruct (sem_call_total 2 0 (CallSetval 9 1 1) sem_demo) as (sma' & new & gone & H1 & _ & H3).
  - apply (run_calls_reachable 2 sem_demo_calls (newary 0 2)); [constructor|vm_compute; reflexivity].
  - reflexivity.
  - exists sma', new, gone. split; [exact H1|exact H3].
Defined.

(** The last call of the sequence woke task 1, which took what task 3 gave. *)
Example demo_wakes : val_at sem_demo 0 = 0 /\ undos sem_demo !! 2%positive = Some [0; 0].
Proof. vm_compute. split; reflexivity. Qed.
