(* ===== verification/Buddy.v ===== *)
(** * The page allocator (mm/page_alloc.c)

    One zone of memory: its free lists of blocks of two to the order pages,
    one list per order and mobility type, and the state of the pages that the
    allocator reads.  A page is its frame number.  VM_BUG_ON on what the zone
    records is rendered as a stop, as in a kernel built with CONFIG_DEBUG_VM;
    reference counts of pages are not part of the state, and so the check that
    [page_is_buddy] makes on one is not either.  CMA, memory isolation and
    holes in zones (CONFIG_HOLES_IN_ZONE) are configured; guard pages
    (CONFIG_DEBUG_PAGEALLOC) and NUMA are not, which leaves [move_freepages]
    without its two checks. *)

From stdpp Require Import gmap list.
From S2P Require Import Prelude.

(** ** Constants and configuration *)

Definition MAX_ORDER : nat := 11.
Definition PAGE_ALLOC_COSTLY_ORDER : nat := 3.

Inductive migratetype :=
| MIGRATE_UNMOVABLE
| MIGRATE_RECLAIMABLE
| MIGRATE_MOVABLE
| MIGRATE_RESERVE
| MIGRATE_CMA
| MIGRATE_ISOLATE.

#[export] Instance migratetype_eq_dec : EqDecision migratetype.
Proof. solve_decision. Defined.

Definition mt_index (mt : migratetype) : nat :=
  match mt with
  | MIGRATE_UNMOVABLE => 0
  | MIGRATE_RECLAIMABLE => 1
  | MIGRATE_MOVABLE => 2
  | MIGRATE_RESERVE => 3
  | MIGRATE_CMA => 4
  | MIGRATE_ISOLATE => 5
  end.

Definition MIGRATE_PCPTYPES : nat := 3.

Definition mt_of_index (n : nat) : option migratetype :=
  [MIGRATE_UNMOVABLE; MIGRATE_RECLAIMABLE; MIGRATE_MOVABLE; MIGRATE_RESERVE; MIGRATE_CMA; MIGRATE_ISOLATE] !! n.

#[export] Program Instance migratetype_countable : Countable migratetype :=
  inj_countable mt_index mt_of_index _.
Next Obligation. by intros []. Qed.

Definition is_migrate_cma (mt : migratetype) : bool := bool_decide (mt = MIGRATE_CMA).
Definition is_migrate_isolate (mt : migratetype) : bool := bool_decide (mt = MIGRATE_ISOLATE).

(** What the architecture and the configuration provide: which frames have a
    page, the zone each belongs to, the zone at hand and its span. *)
Class ZoneConfig := {
  pageblock_order : nat;
  CONFIG_NO_FALLBACK_CMA : bool;
  page_group_by_mobility_disabled : bool;
  pfn_valid_within : Z -> bool;
  page_zone : Z -> Z;
  this_zone : Z;
  zone_start_pfn : Z;
  spanned_pages : Z;
}.

(** ** The zone *)

(** [page_buddy] holds the order ([page_private]) of each page with the flag
    PageBuddy; [page_index] and [pageblock] are the types remembered per page
    and per block of pages. *)
Record zone := Zone {
  free_list : gmap (nat * migratetype) (list Z);
  nr_free : gmap nat Z;
  page_buddy : gmap Z nat;
  page_index : gmap Z migratetype;
  pageblock : gmap Z migratetype;
  nr_free_pages : Z;
  nr_free_cma_pages : Z;
}.

Definition set_lists (f : gmap (nat * migratetype) (list Z) -> gmap (nat * migratetype) (list Z)) (z : zone) : zone :=
  Zone (f (free_list z)) (nr_free z) (page_buddy z) (page_index z) (pageblock z) (nr_free_pages z)
    (nr_free_cma_pages z).

Definition area_list (z : zone) (order : nat) (mt : migratetype) : list Z :=
  default [] (free_list z !! (order, mt)).

Definition list_add (page : Z) (order : nat) (mt : migratetype) (z : zone) : zone :=
  set_lists <[(order, mt) := page :: area_list z order mt]> z.

Definition list_add_tail (page : Z) (order : nat) (mt : migratetype) (z : zone) : zone :=
  set_lists <[(order, mt) := area_list z order mt ++ [page]]> z.

(** [list_del]: the page leaves the list it is on. *)
Definition page_list_del (page : Z) (z : zone) : zone :=
  set_lists (fmap (filter (fun p => p <> page))) z.

Definition nr_free_at (z : zone) (order : nat) : Z := default 0 (nr_free z !! order).

Definition add_nr_free (order : nat) (n : Z) (z : zone) : zone :=
  Zone (free_list z) (<[order := nr_free_at z order + n]> (nr_free z)) (page_buddy z) (page_index z)
    (pageblock z) (nr_free_pages z) (nr_free_cma_pages z).

Definition set_page_order (page : Z) (order : nat) (z : zone) : zone :=
  Zone (free_list z) (nr_free z) (<[page := order]> (page_buddy z)) (page_index z) (pageblock z)
    (nr_free_pages z) (nr_free_cma_pages z).

Definition rmv_page_order (page : Z) (z : zone) : zone :=
  Zone (free_list z) (nr_free z) (delete page (page_buddy z)) (page_index z) (pageblock z)
    (nr_free_pages z) (nr_free_cma_pages z).

Definition set_freepage_migratetype (page : Z) (mt : migratetype) (z : zone) : zone :=
  Zone (free_list z) (nr_free z) (page_buddy z) (<[page := mt]> (page_index z)) (pageblock z)
    (nr_free_pages z) (nr_free_cma_pages z).

Definition get_freepage_migratetype (z : zone) (page : Z) : migratetype :=
  default MIGRATE_UNMOVABLE (page_index z !! page).

Definition mod_zone_page_state (n ncma : Z) (z : zone) : zone :=
  Zone (free_list z) (nr_free z) (page_buddy z) (page_index z) (pageblock z) (nr_free_pages z + n)
    (nr_free_cma_pages z + ncma).

Definition __mod_zone_freepage_state (nr_pages : Z) (mt : migratetype) (z : zone) : zone :=
  mod_zone_page_state nr_pages (if is_migrate_cma mt then nr_pages else 0) z.

(** [1 << order] *)
Definition pages_of (order : nat) : Z := Z.shiftl 1 (Z.of_nat order).

Section Ops.
Context {C : ZoneConfig}.

(** ** Page blocks *)

Definition block_of (page : Z) : Z := Z.shiftr page (Z.of_nat pageblock_order).

Definition get_pageblock_migratetype (z : zone) (page : Z) : migratetype :=
  default MIGRATE_UNMOVABLE (pageblock z !! block_of page).

Definition set_pageblock_migratetype (page : Z) (mt : migratetype) (z : zone) : zone :=
  let mt := if page_group_by_mobility_disabled && (mt_index mt <? MIGRATE_PCPTYPES)%nat
            then MIGRATE_UNMOVABLE else mt in
  Zone (free_list z) (nr_free z) (page_buddy z) (page_index z) (<[block_of page := mt]> (pageblock z))
    (nr_free_pages z) (nr_free_cma_pages z).

Definition pageblock_nr_pages : Z := pages_of pageblock_order.

Definition zone_end_pfn : Z := zone_start_pfn + spanned_pages.
Definition zone_spans_pfn (pfn : Z) : bool := (zone_start_pfn <=? pfn) && (pfn <? zone_end_pfn).

Definition bad_range (page : Z) : bool :=
  if negb (zone_spans_pfn page) then true
  else if negb (pfn_valid_within page && (page_zone page =? this_zone)) then true else false.

(** ** Freeing *)

Definition __find_buddy_index (page_idx : Z) (order : nat) : Z := Z.lxor page_idx (pages_of order).

Definition page_is_buddy (z : zone) (page buddy : Z) (order : nat) : bool :=
  if negb (pfn_valid_within buddy) then false
  else match page_buddy z !! buddy with
       | Some o => if (o =? order)%nat then page_zone page =? page_zone buddy else false
       | None => false
       end.

(** The loop of [__free_one_page], [n] rounds at most.  The last component is
    [buddy_idx] and [buddy], unset before the first round. *)
Fixpoint free_loop (n : nat) (z : zone) (page page_idx : Z) (order : nat) (bud : option (Z * Z))
    : zone * Z * Z * nat * option (Z * Z) :=
  match n with
  | O => (z, page, page_idx, order, bud)
  | S n =>
      let buddy_idx := __find_buddy_index page_idx order in
      let buddy := page + (buddy_idx - page_idx) in
      if negb (page_is_buddy z page buddy order) then (z, page, page_idx, order, Some (buddy_idx, buddy))
      else
        let z := rmv_page_order buddy (add_nr_free order (-1) (page_list_del buddy z)) in
        let combined_idx := Z.land buddy_idx page_idx in
        free_loop n z (page + (combined_idx - page_idx)) combined_idx (S order) (Some (buddy_idx, buddy))
  end.

(** Whether the block goes to the tail of its list: the next larger buddy is
    free, so it is likely to be merged soon. *)
Definition add_to_tail (z : zone) (page page_idx : Z) (order : nat) (bud : option (Z * Z)) : outcome bool :=
  if (order <? MAX_ORDER - 2)%nat then
    match bud with
    | None => Bug
    | Some (buddy_idx, buddy) =>
        if pfn_valid_within buddy then
          let combined_idx := Z.land buddy_idx page_idx in
          let higher_page := page + (combined_idx - page_idx) in
          let buddy_idx := __find_buddy_index combined_idx (S order) in
          let higher_buddy := higher_page + (buddy_idx - combined_idx) in
          Ok (page_is_buddy z higher_page higher_buddy (S order))
        else Ok false
    end
  else Ok false.

(** [compound_bad]: the page is a compound page found damaged. *)
Definition __free_one_page (compound_bad : bool) (page : Z) (order : nat) (mt : migratetype) (z : zone)
    : outcome zone :=
  if compound_bad then Ok z
  else
    let max_order := if is_migrate_isolate mt then Nat.min MAX_ORDER (pageblock_order + 1) else MAX_ORDER in
    let z := if is_migrate_isolate mt then z else __mod_zone_freepage_state (pages_of order) mt z in
    let page_idx := Z.land page (Z.shiftl 1 (Z.of_nat max_order) - 1) in
    bug_on negb (Z.land page_idx (pages_of order - 1) =? 0) in
    bug_on bad_range page in
    let '(z, page, page_idx, order, bud) := free_loop (max_order - 1 - order) z page page_idx order None in
    let z := set_page_order page order z in
    let! tail := add_to_tail z page page_idx order bud in
    let z := if tail then list_add_tail page order mt z else list_add page order mt z in
    Ok (add_nr_free order 1 z).

(** [has_isolate]: some block of the zone is being isolated. *)
Definition free_one_page (compound_bad has_isolate : bool) (page : Z) (order : nat) (mt : migratetype) (z : zone)
    : outcome zone :=
  let mt := if has_isolate || is_migrate_isolate mt then get_pageblock_migratetype z page else mt in
  __free_one_page compound_bad page order mt z.

(** [prepared] is the answer of [free_pages_prepare]. *)
Definition __free_pages_ok (prepared compound_bad has_isolate : bool) (page : Z) (order : nat) (z : zone)
    : outcome zone :=
  if negb prepared then Ok z
  else
    let mt := get_pageblock_migratetype z page in
    free_one_page compound_bad has_isolate page order mt (set_freepage_migratetype page mt z).

(** ** Allocating *)

(** [d] halvings are left: [high = low + d]. *)
Fixpoint expand (d : nat) (page : Z) (low : nat) (mt : migratetype) (z : zone) : outcome zone :=
  match d with
  | O => Ok z
  | S d =>
      let high := (low + d)%nat in
      let size := pages_of high in
      bug_on bad_range (page + size) in
      expand d page low mt (set_page_order (page + size) high (add_nr_free high 1 (list_add (page + size) high mt z)))
  end.

(** The loop of [__rmqueue_smallest], [n] orders left. *)
Fixpoint smallest_loop (n : nat) (order current_order : nat) (mt : migratetype) (z : zone)
    : outcome (option Z * zone) :=
  match n with
  | O => Ok (None, z)
  | S n =>
      match area_list z current_order mt with
      | [] => smallest_loop n order (S current_order) mt z
      | page :: _ =>
          let z := add_nr_free current_order (-1) (rmv_page_order page (page_list_del page z)) in
          let! z := expand (current_order - order) page order mt z in
          Ok (Some page, set_freepage_migratetype page mt z)
      end
  end.

Definition __rmqueue_smallest (order : nat) (mt : migratetype) (z : zone) : outcome (option Z * zone) :=
  smallest_loop (MAX_ORDER - order) order order mt z.

(** The row of the table, up to MIGRATE_RESERVE. *)
Definition fallbacks (mt : migratetype) : list migratetype :=
  match mt with
  | MIGRATE_UNMOVABLE => [MIGRATE_RECLAIMABLE; MIGRATE_MOVABLE; MIGRATE_RESERVE]
  | MIGRATE_RECLAIMABLE => [MIGRATE_UNMOVABLE; MIGRATE_MOVABLE; MIGRATE_RESERVE]
  | MIGRATE_MOVABLE => [MIGRATE_CMA; MIGRATE_RECLAIMABLE; MIGRATE_UNMOVABLE; MIGRATE_RESERVE]
  | _ => [MIGRATE_RESERVE]
  end.

(** [move_freepages] from [page] over [n] pages at most; [list_move] goes to
    the head of the list. *)
Fixpoint move_freepages (n : nat) (page end_page : Z) (mt : migratetype) (moved : Z) (z : zone) : Z * zone :=
  match n with
  | O => (moved, z)
  | S n =>
      if page >? end_page then (moved, z)
      else if negb (pfn_valid_within page) then move_freepages n (page + 1) end_page mt moved z
      else match page_buddy z !! page with
           | None => move_freepages n (page + 1) end_page mt moved z
           | Some order =>
               let z := set_freepage_migratetype page mt (list_add page order mt (page_list_del page z)) in
               move_freepages n (page + pages_of order) end_page mt (moved + pages_of order) z
           end
  end.

Definition move_freepages_block (page : Z) (mt : migratetype) (z : zone) : Z * zone :=
  let start_pfn := Z.land page (Z.lnot (pageblock_nr_pages - 1)) in
  let end_pfn := start_pfn + pageblock_nr_pages - 1 in
  let start_page := if negb (zone_spans_pfn start_pfn) then page else start_pfn in
  if negb (zone_spans_pfn end_pfn) then (0, z)
  else move_freepages (S (Z.to_nat (end_pfn - start_page))) start_page end_pfn mt 0 z.

Fixpoint change_pageblock_range (nr_pageblocks : nat) (page : Z) (mt : migratetype) (z : zone) : zone :=
  match nr_pageblocks with
  | O => z
  | S n => change_pageblock_range n (page + pageblock_nr_pages) mt (set_pageblock_migratetype page mt z)
  end.

(** [current_order] is [page_order(page)]. *)
Definition try_to_steal_freepages (page : Z) (current_order : nat) (start_type : migratetype) (z : zone) : zone :=
  if (pageblock_order <=? current_order)%nat then
    change_pageblock_range (Z.to_nat (pages_of (current_order - pageblock_order))) page start_type z
  else if (Nat.div pageblock_order 2 <=? current_order)%nat || bool_decide (start_type = MIGRATE_RECLAIMABLE)
          || bool_decide (start_type = MIGRATE_UNMOVABLE) || page_group_by_mobility_disabled then
    let '(pages, z) := move_freepages_block page start_type z in
    if (pages >=? pages_of (pageblock_order - 1)) || page_group_by_mobility_disabled
    then set_pageblock_migratetype page start_type z else z
  else z.

(** The loop over the row [row] of the table. *)
Fixpoint __rmqueue_fallback_order (row : list migratetype) (order : nat) (start_mt : migratetype)
    (current_order : nat) (z : zone) : outcome (option Z * zone) :=
  match row with
  | [] => Bug
  | mt :: row =>
      if bool_decide (mt = MIGRATE_RESERVE) then Ok (None, z)
      else if CONFIG_NO_FALLBACK_CMA && is_migrate_cma mt
      then __rmqueue_fallback_order row order start_mt current_order z
      else match area_list z current_order mt with
           | [] => __rmqueue_fallback_order row order start_mt current_order z
           | page :: _ =>
               let z := add_nr_free current_order (-1) z in
               let buddy_type := if is_migrate_cma mt then mt else start_mt in
               let z := if is_migrate_cma mt then z
                        else try_to_steal_freepages page (default 0%nat (page_buddy z !! page)) start_mt z in
               let z := rmv_page_order page (page_list_del page z) in
               let! z := expand (current_order - order) page order buddy_type z in
               Ok (Some page, set_freepage_migratetype page buddy_type z)
           end
  end.

(** The orders [__rmqueue_fallback] tries, in this order. *)
Definition fallback_orders (order : nat) : list nat :=
  let first := Nat.max (PAGE_ALLOC_COSTLY_ORDER + 1) order in
  reverse (seq first (MAX_ORDER - first)) ++ seq order (PAGE_ALLOC_COSTLY_ORDER + 1 - order).

Fixpoint fallback_loop (orders : list nat) (order : nat) (start_mt : migratetype) (z : zone)
    : outcome (option Z * zone) :=
  match orders with
  | [] => Ok (None, z)
  | current_order :: orders =>
      let! (page, z) := __rmqueue_fallback_order (fallbacks start_mt) order start_mt current_order z in
      match page with
      | Some page => Ok (Some page, z)
      | None => fallback_loop orders order start_mt z
      end
  end.

Definition __rmqueue_fallback (order : nat) (start_mt : migratetype) (z : zone) : outcome (option Z * zone) :=
  fallback_loop (fallback_orders order) order start_mt z.

Definition __rmqueue (order : nat) (mt : migratetype) (z : zone) : outcome (option Z * zone) :=
  let! (page, z) := __rmqueue_smallest order mt z in
  match page with
  | Some page => Ok (Some page, z)
  | None =>
      if bool_decide (mt = MIGRATE_RESERVE) then Ok (None, z)
      else
        let! (page, z) := __rmqueue_fallback order mt z in
        match page with
        | Some page => Ok (Some page, z)
        | None => __rmqueue_smallest order MIGRATE_RESERVE z
        end
  end.

End Ops.

(** ** Per-processor lists *)

Record per_cpu_pages := Pcp {
  pcp_count : Z;
  pcp_high : Z;
  pcp_batch : nat;
  pcp_lists : gmap nat (list Z);
}.

Definition pcp_list (pcp : per_cpu_pages) (mt : nat) : list Z := default [] (pcp_lists pcp !! mt).

Definition set_pcp (count : Z) (mt : nat) (l : list Z) (pcp : per_cpu_pages) : per_cpu_pages :=
  Pcp count (pcp_high pcp) (pcp_batch pcp) (<[mt := l]> (pcp_lists pcp)).

(** The sizes of the lists; the shift of a page enters [pageset_set_high]. *)

Definition pageset_update (pcp : per_cpu_pages) (high : Z) (batch : nat) : per_cpu_pages :=
  Pcp (pcp_count pcp) high batch (pcp_lists pcp).

Definition pageset_set_batch (pcp : per_cpu_pages) (batch : nat) : per_cpu_pages :=
  pageset_update pcp (6 * Z.of_nat batch) (Nat.max 1 batch).

Definition pageset_set_high (page_shift : nat) (pcp : per_cpu_pages) (high : nat) : per_cpu_pages :=
  let batch := Nat.max 1 (high / 4) in
  let batch := if (page_shift * 8 <? high / 4)%nat then (page_shift * 8)%nat else batch in
  pageset_update pcp (Z.of_nat high) batch.

Definition pageset_init : per_cpu_pages := Pcp 0 0 0 ∅.

Definition setup_pageset (batch : nat) : per_cpu_pages := pageset_set_batch pageset_init batch.

(** The lists before [setup_per_cpu_pageset]. *)
Definition boot_pageset : per_cpu_pages := setup_pageset 0.

Section Pcp.
Context {C : ZoneConfig}.

(** [count] pages at most; the pages in the order they were got. *)
Fixpoint bulk_loop (count : nat) (order : nat) (mt : migratetype) (z : zone) : outcome (list Z * zone) :=
  match count with
  | O => Ok ([], z)
  | S count =>
      let! (page, z) := __rmqueue order mt z in
      match page with
      | None => Ok ([], z)
      | Some page =>
          let z := if is_migrate_cma (get_freepage_migratetype z page)
                   then mod_zone_page_state 0 (- pages_of order) z else z in
          let! (pages, z) := bulk_loop count order mt z in
          Ok (page :: pages, z)
      end
  end.

(** Each page is linked behind the one before it, or before it when [cold]. *)
Definition rmqueue_bulk (order count : nat) (l : list Z) (mt : migratetype) (cold : bool) (z : zone)
    : outcome (Z * list Z * zone) :=
  let! (pages, z) := bulk_loop count order mt z in
  let i := Z.of_nat (length pages) in
  Ok (i, (if cold then l ++ reverse pages else pages ++ l),
      mod_zone_page_state (- Z.shiftl i (Z.of_nat order)) 0 z).

(** The next list that has pages, with [batch_free] counting the lists passed;
    the search does not end when there is none. *)
Fixpoint pick_list (fuel : nat) (pcp : per_cpu_pages) (mt batch_free : nat) : outcome (nat * nat) :=
  match fuel with
  | O => NoFuel
  | S fuel =>
      let batch_free := S batch_free in
      let mt := if (S mt =? MIGRATE_PCPTYPES)%nat then 0%nat else S mt in
      match pcp_list pcp mt with
      | [] => pick_list fuel pcp mt batch_free
      | _ => Ok (mt, batch_free)
      end
  end.

(** The inner loop: pages from the tail of [l], [to_free] of them at most. *)
Fixpoint pcp_inner (has_isolate : bool) (to_free batch_free : nat) (l : list Z) (z : zone)
    : outcome (nat * nat * list Z * zone) :=
  match to_free, last l with
  | S to_free, Some page =>
      let l := take (length l - 1) l in
      let mt := if has_isolate then get_pageblock_migratetype z page else get_freepage_migratetype z page in
      let! z := __free_one_page false page 0 mt z in
      if (to_free =? 0)%nat then Ok (0%nat, batch_free, l, z)
      else
        let batch_free := (batch_free - 1)%nat in
        if (batch_free =? 0)%nat then Ok (to_free, 0%nat, l, z)
        else match l with
             | [] => Ok (to_free, batch_free, l, z)
             | _ => pcp_inner has_isolate to_free batch_free l z
             end
  | _, _ => Bug
  end.

(** The outer loop; every round frees a page. *)
Fixpoint pcp_outer (fuel : nat) (has_isolate : bool) (to_free mt batch_free : nat) (pcp : per_cpu_pages) (z : zone)
    : outcome (per_cpu_pages * zone) :=
  if (to_free =? 0)%nat then Ok (pcp, z)
  else match fuel with
  | O => NoFuel
  | S fuel =>
      let! (mt, batch_free) := pick_list MIGRATE_PCPTYPES pcp mt batch_free in
      let batch_free := if (batch_free =? MIGRATE_PCPTYPES)%nat then to_free else batch_free in
      let! (to_free, batch_free, l, z) := pcp_inner has_isolate to_free batch_free (pcp_list pcp mt) z in
      pcp_outer fuel has_isolate to_free mt batch_free (set_pcp (pcp_count pcp) mt l pcp) z
  end.

Definition free_pcppages_bulk (has_isolate : bool) (count : nat) (pcp : per_cpu_pages) (z : zone)
    : outcome (per_cpu_pages * zone) :=
  pcp_outer count has_isolate count 0 0 pcp z.

Definition free_hot_cold_page (prepared has_isolate : bool) (page : Z) (cold : bool)
    (pcp : per_cpu_pages) (z : zone) : outcome (per_cpu_pages * zone) :=
  if negb prepared then Ok (pcp, z)
  else
    let mt := get_pageblock_migratetype z page in
    let z := set_freepage_migratetype page mt z in
    if (MIGRATE_PCPTYPES <=? mt_index mt)%nat && is_migrate_isolate mt then
      let! z := free_one_page false has_isolate page 0 mt z in Ok (pcp, z)
    else
      let mt := if (MIGRATE_PCPTYPES <=? mt_index mt)%nat then mt_index MIGRATE_MOVABLE else mt_index mt in
      let l := pcp_list pcp mt in
      let pcp := set_pcp (pcp_count pcp + 1) mt (if cold then l ++ [page] else page :: l) pcp in
      if pcp_count pcp >=? pcp_high pcp then
        let batch := pcp_batch pcp in
        let! (pcp, z) := free_pcppages_bulk has_isolate batch pcp z in
        Ok (Pcp (pcp_count pcp - Z.of_nat batch) (pcp_high pcp) (pcp_batch pcp) (pcp_lists pcp), z)
      else Ok (pcp, z).

(** [drain_pages] for this zone. *)
Definition drain_pages (has_isolate : bool) (pcp : per_cpu_pages) (z : zone) : outcome (per_cpu_pages * zone) :=
  if negb (pcp_count pcp =? 0) then
    let! (pcp, z) := free_pcppages_bulk has_isolate (Z.to_nat (pcp_count pcp)) pcp z in
    Ok (Pcp 0 (pcp_high pcp) (pcp_batch pcp) (pcp_lists pcp), z)
  else Ok (pcp, z).

(** [buffered_rmqueue] until the page is taken. *)
Definition rmqueue_once (order : nat) (cold : bool) (mt : migratetype) (pcp : per_cpu_pages) (z : zone)
    : outcome (option Z * per_cpu_pages * zone) :=
  if (order =? 0)%nat then
    let! (pcp, z) :=
      (match pcp_list pcp (mt_index mt) with
       | [] =>
           let! (n, l, z) := rmqueue_bulk 0 (pcp_batch pcp) [] mt cold z in
           Ok (set_pcp (pcp_count pcp + n) (mt_index mt) l pcp, z)
       | _ => Ok (pcp, z)
       end) in
    let l := pcp_list pcp (mt_index mt) in
    match (if cold then last l else head l) with
    | None => Ok (None, pcp, z)
    | Some page =>
        let l := if cold then take (length l - 1) l else tail l in
        Ok (Some page, set_pcp (pcp_count pcp - 1) (mt_index mt) l pcp, z)
    end
  else
    let! (page, z) := __rmqueue order mt z in
    match page with
    | None => Ok (None, pcp, z)
    | Some page =>
        Ok (Some page, pcp, __mod_zone_freepage_state (- pages_of order) (get_freepage_migratetype z page) z)
    end.

(** [bad] of the blocks taken, the first ones, fail the check that
    [prep_new_page] makes: each is left to nobody and another one is taken.
    The blocks left are the second component. *)
Fixpoint buffered_rmqueue (bad : nat) (order : nat) (cold : bool) (mt : migratetype) (pcp : per_cpu_pages) (z : zone)
    : outcome (option Z * list Z * per_cpu_pages * zone) :=
  let! (page, pcp, z) := rmqueue_once order cold mt pcp z in
  match page with
  | None => Ok (None, [], pcp, z)
  | Some page =>
      bug_on bad_range page in
      match bad with
      | O => Ok (Some page, [], pcp, z)
      | S bad =>
          let! (r, lost, pcp, z) := buffered_rmqueue bad order cold mt pcp z in
          Ok (r, page :: lost, pcp, z)
      end
  end.

(** [__free_pages] once the last reference is gone. *)
Definition __free_pages (prepared compound_bad has_isolate : bool) (page : Z) (order : nat)
    (pcp : per_cpu_pages) (z : zone) : outcome (per_cpu_pages * zone) :=
  if (order =? 0)%nat then free_hot_cold_page prepared has_isolate page false pcp z
  else let! z := __free_pages_ok prepared compound_bad has_isolate page order z in Ok (pcp, z).

End Pcp.
