(* ===== verification/BuddyFacts.v ===== *)
(** * The page allocator: blocks and buddies

    The arithmetic of aligned blocks, what the free lists of a zone look like,
    and how taking a block off its list and putting one on a list changes the
    blocks and the pages that are free. *)

From stdpp Require Import gmap list.
From S2P Require Import Prelude Buddy.

(** ** Aligned blocks *)

Definition sz (o : nat) : Z := 2 ^ Z.of_nat o.

Lemma pages_of_sz o : pages_of o = sz o.
Proof. unfold pages_of, sz. rewrite Z.shiftl_1_l. done. Qed.

Lemma sz_pos o : 0 < sz o.
Proof. unfold sz. apply Z.pow_pos_nonneg; lia. Qed.

Lemma sz_S o : sz (S o) = 2 * sz o.
Proof. unfold sz. rewrite Nat2Z.inj_succ, Z.pow_succ_r by lia. done. Qed.

Lemma sz_split o d : sz (o + d) = sz o * sz d.
Proof. unfold sz. rewrite Nat2Z.inj_add, Z.pow_add_r by lia. done. Qed.

Definition aligned (p : Z) (o : nat) : Prop := exists k, p = k * sz o.

Lemma aligned_le p o o' : aligned p o' -> (o <= o')%nat -> aligned p o.
Proof.
  intros [k ->] Ho. replace o' with (o + (o' - o))%nat by lia. rewrite sz_split.
  exists (k * sz (o' - o)). lia.
Qed.

(** The buddy of a block, and the block the two form. *)
Definition bud (p : Z) (o : nat) : Z := if Z.odd (p / sz o) then p - sz o else p + sz o.
Definition par (p : Z) (o : nat) : Z := if Z.odd (p / sz o) then p - sz o else p.

Lemma div_sz k o : k * sz o / sz o = k.
Proof. pose proof (sz_pos o). apply Z.div_mul. lia. Qed.

Lemma bud_cases p o :
  aligned p o ->
  aligned (bud p o) o /\ aligned (par p o) (S o) /\
  (bud p o = p + sz o /\ par p o = p \/ bud p o = p - sz o /\ par p o = bud p o).
Proof.
  intros [k ->]. unfold bud, par. rewrite div_sz. destruct (Z.odd k) eqn:Hk.
  - apply Z.odd_spec in Hk as [j ->]. split; [exists (2 * j); lia|]. split; [exists j; rewrite sz_S; lia|].
    right. split; lia.
  - rewrite <- Z.negb_even in Hk. apply negb_false_iff, Z.even_spec in Hk as [j ->].
    split; [exists (2 * j + 1); lia|]. split; [exists j; rewrite sz_S; lia|]. left. split; lia.
Qed.

Lemma bud_bud p o : aligned p o -> bud (bud p o) o = p.
Proof.
  intros [k ->]. pose proof (sz_pos o). unfold bud at 2. rewrite div_sz. destruct (Z.odd k) eqn:Hk.
  - replace (k * sz o - sz o) with ((k - 1) * sz o) by lia. unfold bud. rewrite div_sz, Z.odd_sub, Hk. cbn. lia.
  - replace (k * sz o + sz o) with ((k + 1) * sz o) by lia. unfold bud. rewrite div_sz, Z.odd_add, Hk. cbn. lia.
Qed.

Lemma bud_upper p o : aligned p (S o) -> bud (p + sz o) o = p /\ aligned (p + sz o) o.
Proof.
  intros [k ->]. rewrite sz_S. replace (k * (2 * sz o) + sz o) with ((2 * k + 1) * sz o) by lia.
  split; [|by eexists]. unfold bud. rewrite div_sz. replace (Z.odd (2 * k + 1)) with true; [lia|].
  rewrite Z.add_comm, Z.odd_add_mul_2. done.
Qed.

(** Two aligned blocks are nested or disjoint. *)
Lemma aligned_nested p o q o' x :
  aligned p o -> aligned q o' -> (o <= o')%nat -> p <= x < p + sz o -> q <= x < q + sz o' ->
  q <= p /\ p + sz o <= q + sz o'.
Proof.
  intros [k ->] [j ->] Ho Hx Hy. replace o' with (o + (o' - o))%nat in * by lia. rewrite sz_split in *.
  pose proof (sz_pos o) as Ha. set (a := sz o) in *. set (d := sz (o' - o)) in *.
  assert (j * d < k + 1) by (apply (Z.mul_lt_mono_pos_r a); [done|lia]).
  assert (k < j * d + d) by (apply (Z.mul_lt_mono_pos_r a); [done|lia]).
  split; nia.
Qed.

(** *** The index within the largest block *)

Lemma testbit_odd p o : 0 <= p -> Z.testbit p (Z.of_nat o) = Z.odd (p / sz o).
Proof. intros Hp. rewrite Z.testbit_odd, Z.shiftr_div_pow2 by lia. done. Qed.

Lemma land_idx p m o : (o < m)%nat -> Z.testbit (Z.land p (Z.shiftl 1 (Z.of_nat m) - 1)) (Z.of_nat o) = Z.testbit p (Z.of_nat o).
Proof.
  intros Ho. rewrite Z.shiftl_1_l, Z.sub_1_r, <- Z.ones_equiv, Z.land_spec, Z.ones_spec_low by lia. apply andb_true_r.
Qed.

Lemma sub_bit x o : Z.testbit x (Z.of_nat o) = true -> x - sz o = Z.ldiff x (sz o).
Proof.
  intros Hb. unfold sz. apply Z.sub_nocarry_ldiff, Z.bits_inj'. intros i Hi.
  rewrite Z.ldiff_spec, Z.pow2_bits_eqb, Z.bits_0 by lia. destruct (Z.eqb_spec (Z.of_nat o) i); [subst; by rewrite Hb|done].
Qed.

Lemma lxor_bit x o :
  Z.lxor x (sz o) = if Z.testbit x (Z.of_nat o) then x - sz o else x + sz o.
Proof.
  destruct (Z.testbit x (Z.of_nat o)) eqn:Hb.
  - rewrite sub_bit by done. unfold sz. apply Z.bits_inj'. intros i Hi.
    rewrite Z.lxor_spec, Z.ldiff_spec, Z.pow2_bits_eqb by lia.
    destruct (Z.eqb_spec (Z.of_nat o) i); [subst; by rewrite Hb|by destruct (Z.testbit x i)].
  - unfold sz. symmetry. apply Z.add_nocarry_lxor, Z.bits_inj'. intros i Hi.
    rewrite Z.land_spec, Z.pow2_bits_eqb, Z.bits_0 by lia.
    destruct (Z.eqb_spec (Z.of_nat o) i); [subst; by rewrite Hb|apply andb_false_r].
Qed.

Lemma land_lxor_bit x o :
  Z.land (Z.lxor x (sz o)) x = if Z.testbit x (Z.of_nat o) then x - sz o else x.
Proof.
  assert (Z.land (Z.lxor x (sz o)) x = Z.ldiff x (sz o)) as ->.
  { apply Z.bits_inj'. intros i Hi. rewrite Z.land_spec, Z.lxor_spec, Z.ldiff_spec.
    by destruct (Z.testbit x i), (Z.testbit (sz o) i). }
  destruct (Z.testbit x (Z.of_nat o)) eqn:Hb; [by rewrite sub_bit|].
  unfold sz. apply Z.bits_inj'. intros i Hi. rewrite Z.ldiff_spec, Z.pow2_bits_eqb by lia.
  destruct (Z.eqb_spec (Z.of_nat o) i); [subst; by rewrite Hb|apply andb_true_r].
Qed.

(** The index of a page within the largest block. *)
Definition idx_of (m : nat) (p : Z) : Z := Z.land p (Z.shiftl 1 (Z.of_nat m) - 1).

Lemma find_buddy m p o :
  0 <= p -> (o < m)%nat -> p + (__find_buddy_index (idx_of m p) o - idx_of m p) = bud p o.
Proof.
  intros Hp Ho. unfold __find_buddy_index. rewrite pages_of_sz, lxor_bit. unfold idx_of, bud.
  rewrite land_idx, testbit_odd by lia. destruct (Z.odd _); lia.
Qed.

Lemma combined_page m p o :
  0 <= p -> (o < m)%nat ->
  p + (Z.land (__find_buddy_index (idx_of m p) o) (idx_of m p) - idx_of m p) = par p o.
Proof.
  intros Hp Ho. unfold __find_buddy_index. rewrite pages_of_sz, land_lxor_bit. unfold idx_of, par.
  rewrite land_idx, testbit_odd by lia. destruct (Z.odd _); lia.
Qed.

Lemma combined_idx m p o :
  0 <= p -> (o < m)%nat ->
  Z.land (__find_buddy_index (idx_of m p) o) (idx_of m p) = idx_of m (par p o).
Proof.
  intros Hp Ho. unfold __find_buddy_index. rewrite pages_of_sz, land_lxor_bit. unfold idx_of, par.
  rewrite land_idx, <- testbit_odd by lia. destruct (Z.testbit p (Z.of_nat o)) eqn:Hb; [|done].
  rewrite !sub_bit; [|done|by rewrite land_idx]. apply Z.bits_inj'. intros i Hi.
  rewrite Z.land_spec, !Z.ldiff_spec, Z.land_spec. by destruct (Z.testbit p i), (Z.testbit (sz o) i), (Z.testbit _ i).
Qed.

Lemma aligned_idx m p o : aligned p o -> (o <= m)%nat -> Z.land (idx_of m p) (sz o - 1) = 0.
Proof.
  intros [k ->] Ho. unfold idx_of, sz. rewrite Z.shiftl_1_l, !Z.sub_1_r, <- !Z.ones_equiv.
  rewrite <- Z.land_assoc, (Z.land_comm (Z.ones _) (Z.ones (Z.of_nat o))), Z.land_assoc, !Z.land_ones by lia.
  rewrite Z.mod_mul by (apply Z.pow_nonzero; lia). done.
Qed.

(** ** The free lists *)

Section Zone.
Context {C : ZoneConfig}.

Definition fblock (z : zone) (p : Z) (o : nat) : Prop := exists mt, p ∈ area_list z o mt.

Definition in_block (q p : Z) (o : nat) : Prop := p <= q < p + sz o.

(** Every page of the block is a page of the zone. *)
Definition in_zone (p : Z) (o : nat) : Prop := forall q, in_block q p o -> bad_range q = false.

Definition disj (p : Z) (o : nat) (q : Z) (o' : nat) : Prop := p + sz o <= q \/ q + sz o' <= p.

Record good_block (p : Z) (o : nat) : Prop := {
  gb_order : (o < MAX_ORDER)%nat;
  gb_pos : 0 <= p;
  gb_aligned : aligned p o;
  gb_zone : in_zone p o;
}.

(** What holds of the lists and the page flags. *)
Record lists_ok (z : zone) : Prop := {
  lo_nodup : forall o mt, NoDup (area_list z o mt);
  lo_once : forall p o mt mt', p ∈ area_list z o mt -> p ∈ area_list z o mt' -> mt = mt';
  lo_flag : forall p o, fblock z p o -> page_buddy z !! p = Some o;
  lo_listed : forall p o, page_buddy z !! p = Some o -> bad_range p = false -> fblock z p o;
  lo_block : forall p o, fblock z p o -> good_block p o;
  lo_disj : forall p o q o', fblock z p o -> fblock z q o' -> p <> q -> disj p o q o';
}.

(** A block of the zone of which no page is free. *)
Definition hole (z : zone) (p : Z) (o : nat) : Prop :=
  good_block p o /\ forall q o', fblock z q o' -> disj p o q o'.

(** No two buddies are both free. *)
Definition coalesced (z : zone) : Prop :=
  forall p o, (S o < MAX_ORDER)%nat -> fblock z p o -> ~ fblock z (bud p o) o.

Definition free_page (z : zone) (q : Z) : Prop := exists p o, fblock z p o /\ in_block q p o.

Definition all_types : list migratetype :=
  [MIGRATE_UNMOVABLE; MIGRATE_RECLAIMABLE; MIGRATE_MOVABLE; MIGRATE_RESERVE; MIGRATE_CMA; MIGRATE_ISOLATE].

(** The number of blocks of an order. *)
Definition total (z : zone) (o : nat) : Z :=
  foldr (fun mt n => Z.of_nat (length (area_list z o mt)) + n) 0 all_types.

Definition count_ok (z : zone) : Prop := forall o, nr_free_at z o = total z o.

(** *** Taking a block off its list *)

Definition taken (p : Z) (z z' : zone) : Prop :=
  (forall o mt, area_list z' o mt = filter (fun q => q <> p) (area_list z o mt))
  /\ page_buddy z' = delete p (page_buddy z).

Lemma taken_fblock p z z' q o : taken p z z' -> fblock z' q o <-> fblock z q o /\ q <> p.
Proof using Type.
  intros [Ht _]. unfold fblock. setoid_rewrite Ht. setoid_rewrite list_elem_of_filter. naive_solver.
Qed.

Lemma disj_sym p o q o' : disj p o q o' -> disj q o' p o.
Proof using Type. unfold disj. tauto. Qed.

Lemma taken_ok p o z z' : lists_ok z -> fblock z p o -> taken p z z' -> lists_ok z' /\ hole z' p o.
Proof using Type.
  intros Hl Hp Ht. pose proof (fun q o => taken_fblock p z z' q o Ht) as Hf. destruct Ht as [Ht Hb]. split; [split|split].
  - intros o' mt. rewrite Ht. apply NoDup_filter, Hl.
  - intros q o' mt mt'. rewrite !Ht. intros [_ H1]%list_elem_of_filter [_ H2]%list_elem_of_filter. by eapply lo_once.
  - intros q o' [Hq Hne]%Hf. rewrite Hb, lookup_delete_ne by done. by apply Hl.
  - intros q o' Hq Hz. rewrite Hb in Hq. apply lookup_delete_Some in Hq as [Hne Hq]. apply Hf. split; [|done]. by apply Hl.
  - intros q o' [Hq _]%Hf. by apply Hl.
  - intros q1 o1 q2 o2 [H1 _]%Hf [H2 _]%Hf. by apply Hl.
  - by apply Hl.
  - intros q o' [Hq Hne]%Hf. by apply (lo_disj _ Hl).
Qed.

Lemma taken_free p o z z' q :
  taken p z z' -> lists_ok z -> fblock z p o -> free_page z q <-> free_page z' q \/ in_block q p o.
Proof using Type.
  intros Ht Hl Hp. unfold free_page. setoid_rewrite (taken_fblock _ _ _ _ _ Ht). split.
  - intros (p' & o' & Hf & Hq). destruct (decide (p' = p)) as [->|Hne]; [|left; by eauto]. right.
    pose proof (lo_flag _ Hl _ _ Hf). pose proof (lo_flag _ Hl _ _ Hp). by replace o with o' by congruence.
  - intros [(p' & o' & [Hf _] & Hq)|Hq]; by eauto.
Qed.

(** *** Putting a block on a list *)

Definition put (p : Z) (o : nat) (mt : migratetype) (z z' : zone) : Prop :=
  (exists l, l ≡ₚ p :: area_list z o mt
     /\ forall o' mt', area_list z' o' mt' = if decide ((o', mt') = (o, mt)) then l else area_list z o' mt')
  /\ page_buddy z' = <[p := o]> (page_buddy z).

Lemma put_elem p o mt z z' q o' mt' :
  put p o mt z z' -> q ∈ area_list z' o' mt' <-> q ∈ area_list z o' mt' \/ (q = p /\ o' = o /\ mt' = mt).
Proof using Type.
  intros [(l & Hl & Ha) _]. rewrite Ha. case_decide as Hd.
  - injection Hd as -> ->. rewrite Hl, elem_of_cons. naive_solver.
  - naive_solver.
Qed.

Lemma put_fblock p o mt z z' q o' : put p o mt z z' -> fblock z' q o' <-> fblock z q o' \/ (q = p /\ o' = o).
Proof using Type. intros Hp. unfold fblock. setoid_rewrite (put_elem _ _ _ _ _ _ _ _ Hp). naive_solver. Qed.

Lemma hole_not_fblock z p o q o' : lists_ok z -> hole z p o -> in_block q p o -> ~ fblock z q o'.
Proof using Type.
  intros Hl [_ Hd] Hq Hf. unfold in_block in Hq. pose proof (sz_pos o'). destruct (Hd _ _ Hf); lia.
Qed.

Lemma in_block_first p o : in_block p p o.
Proof using Type. pose proof (sz_pos o). unfold in_block. lia. Qed.

Lemma put_lists_ok p o mt z z' : lists_ok z -> hole z p o -> put p o mt z z' -> lists_ok z'.
Proof using Type.
  intros Hl Hh Hp. pose proof (fun q o' => put_fblock _ _ _ _ _ q o' Hp) as Hf.
  pose proof (fun o' => hole_not_fblock z p o p o' Hl Hh (in_block_first p o)) as Hno.
  pose proof Hp as [(l & Hperm & Ha) Hb]. split.
  - intros o' mt'. rewrite Ha. case_decide as Hd; [|apply Hl]. injection Hd as -> ->. rewrite Hperm.
    apply NoDup_cons. split; [intros Hin; apply (Hno o); by exists mt|apply Hl].
  - intros q o' mt1 mt2. rewrite !(put_elem _ _ _ _ _ _ _ _ Hp).
    intros [H1|(-> & -> & ->)] [H2|(E1 & E2 & E3)]; subst; try done; [by eapply lo_once|exfalso..];
      [apply (Hno o); by exists mt1|apply (Hno o); by exists mt2].
  - intros q o' [Hq|[-> ->]]%Hf; rewrite Hb.
    + rewrite lookup_insert_ne; [by apply Hl|]. intros ->. by eapply Hno.
    + apply lookup_insert_eq.
  - intros q o' Hq Hz. apply Hf. rewrite Hb in Hq. apply lookup_insert_Some in Hq as [[-> ->]|[Hne Hq]]; [by right|].
    left. by apply Hl.
  - intros q o' [Hq|[-> ->]]%Hf; [by apply Hl|apply Hh].
  - intros q1 o1 q2 o2 [H1|[-> ->]]%Hf [H2|[-> ->]]%Hf Hne; [by apply Hl| |by apply Hh|done].
    by apply disj_sym, Hh.
Qed.

Lemma put_free p o mt z z' q : put p o mt z z' -> free_page z' q <-> free_page z q \/ in_block q p o.
Proof using Type.
  intros Hp. unfold free_page. setoid_rewrite (put_fblock _ _ _ _ _ _ _ Hp). naive_solver.
Qed.

(** A block may be put back where no buddy waits. *)
Lemma put_coalesced p o mt z z' :
  lists_ok z -> hole z p o -> put p o mt z z' -> coalesced z ->
  ((S o < MAX_ORDER)%nat -> ~ fblock z (bud p o) o) -> coalesced z'.
Proof using Type.
  intros Hl Hh Hp Hc Hb q o' Ho Hq Hbq. apply (put_fblock _ _ _ _ _ _ _ Hp) in Hq, Hbq.
  pose proof (gb_aligned _ _ (proj1 Hh)) as Ha. pose proof (sz_pos o).
  destruct Hq as [Hq|[-> ->]], Hbq as [Hbq|[E1 E2]].
  - by apply (Hc q o').
  - subst o'. apply Hb; [done|]. rewrite <- E1, bud_bud; [done|]. by apply (lo_block _ Hl).
  - by apply Hb.
  - destruct (bud_cases p o Ha) as (_ & _ & [[H1 _]|[H1 _]]); lia.
Qed.

(** *** The number of blocks *)

Lemma sum_types (f g : migratetype -> Z) mt0 d :
  (forall mt, g mt = f mt + if decide (mt = mt0) then d else 0) ->
  foldr (fun mt n => g mt + n) 0 all_types = foldr (fun mt n => f mt + n) 0 all_types + d.
Proof using Type.
  intros H. unfold all_types. cbn [foldr]. rewrite !H. destruct mt0; repeat case_decide; congruence || lia.
Qed.

Lemma length_filter_ne (l : list Z) p :
  NoDup l -> Z.of_nat (length (filter (fun q => q <> p) l)) = Z.of_nat (length l) + if decide (p ∈ l) then -1 else 0.
Proof using Type.
  induction 1 as [|x l Hx Hnd IH]; [done|]. rewrite filter_cons. destruct (decide (x <> p)) as [Hne|Heq].
  - cbn [length]. rewrite Nat2Z.inj_succ, IH, Nat2Z.inj_succ. repeat case_decide; try lia; exfalso; set_solver.
  - apply dec_stable in Heq as ->. rewrite IH. cbn [length]. repeat case_decide; try lia; exfalso; set_solver.
Qed.

Lemma taken_total p o z z' o' :
  lists_ok z -> fblock z p o -> taken p z z' -> total z' o' = total z o' + if decide (o' = o) then -1 else 0.
Proof using Type.
  intros Hl [mt0 Hp] [Ht _]. unfold total. apply (sum_types _ _ mt0). intros mt. rewrite Ht, length_filter_ne by apply Hl.
  assert (forall o1 mt1, p ∈ area_list z o1 mt1 -> o1 = o /\ mt1 = mt0) as Hu.
  { intros o1 mt1 Hin. assert (o1 = o) as ->; [|split; [done|by eapply lo_once]].
    pose proof (lo_flag _ Hl p o1 ltac:(by exists mt1)). pose proof (lo_flag _ Hl p o ltac:(by exists mt0)). congruence. }
  destruct (decide (p ∈ area_list z o' mt)) as [Hin|Hin].
  - destruct (Hu _ _ Hin) as [-> ->]. by rewrite !decide_True.
  - destruct (decide (mt = mt0)) as [->|]; [|done]. destruct (decide (o' = o)) as [->|]; done.
Qed.

Lemma put_total p o mt z z' o' :
  put p o mt z z' -> total z' o' = total z o' + if decide (o' = o) then 1 else 0.
Proof using Type.
  intros [(l & Hperm & Ha) _]. unfold total. apply (sum_types _ _ mt). intros mt'. rewrite Ha.
  repeat case_decide; simplify_eq; try lia. rewrite Hperm. cbn [length]. lia.
Qed.

(** *** The number of pages *)

Definition weight (z : zone) : Z := foldr (fun o n => total z o * sz o + n) 0 (seq 0 MAX_ORDER).

Lemma sum_orders (f g : nat -> Z) o0 d n : forall s,
  (forall o, g o = f o + if decide (o = o0) then d else 0) -> (s <= o0 < s + n)%nat ->
  foldr (fun o n => g o * sz o + n) 0 (seq s n) = foldr (fun o n => f o * sz o + n) 0 (seq s n) + d * sz o0.
Proof using Type.
  induction n as [|n IH]; intros s H Ho; [lia|]. cbn [seq foldr]. rewrite H. case_decide as Hs.
  - subst o0. assert (foldr (fun o n => g o * sz o + n) 0 (seq (S s) n) = foldr (fun o n => f o * sz o + n) 0 (seq (S s) n)) as ->; [|lia].
    clear IH Ho. revert s H. enough (forall t s, (forall o, g o = f o + if decide (o = s) then d else 0) -> (s < t)%nat ->
      foldr (fun o n => g o * sz o + n) 0 (seq t n) = foldr (fun o n => f o * sz o + n) 0 (seq t n)) by eauto.
    induction n as [|n IH]; intros t s H Ht; [done|]. cbn [seq foldr]. rewrite H, decide_False, (IH (S t) s) by (done || lia). lia.
  - rewrite (IH (S s)) by (done || lia). lia.
Qed.

Lemma taken_weight p o z z' : lists_ok z -> fblock z p o -> taken p z z' -> weight z' = weight z - sz o.
Proof using Type.
  intros Hl Hp Ht. unfold weight. rewrite (sum_orders (total z) (total z') o (-1)); [lia| |].
  - intros o'. by apply taken_total with p.
  - pose proof (gb_order _ _ (lo_block _ Hl _ _ Hp)). lia.
Qed.

Lemma put_weight p o mt z z' : hole z p o -> put p o mt z z' -> weight z' = weight z + sz o.
Proof using Type.
  intros Hh Hp. unfold weight. rewrite (sum_orders (total z) (total z') o 1); [lia| |].
  - intros o'. by apply put_total with p mt.
  - pose proof (gb_order _ _ (proj1 Hh)). lia.
Qed.
End Zone.
