(* ===== verification/BuddyOps.v ===== *)
(** * The page allocator: freeing and allocating

    [__free_one_page] makes exactly the pages of its block free and merges
    buddies; [__rmqueue] takes exactly one block out of the free pages. *)

From stdpp Require Import gmap list.
From S2P Require Import Prelude Buddy BuddyFacts.

(** What the allocator relies on: the span of a zone covers its pages and
    theirs only, and blocks of pages are not small. *)
Class ZoneConfigOk `{C : ZoneConfig} : Prop := {
  zone_pages_spanned : forall p, pfn_valid_within p = true -> page_zone p = this_zone -> zone_spans_pfn p = true;
  zone_span_pages : forall p, zone_spans_pfn p = true -> pfn_valid_within p = true -> page_zone p = this_zone;
  pageblock_order_large : (MAX_ORDER - 2 <= pageblock_order)%nat;
}.

(** ** Observing a zone *)

Lemma area_list_del p z o mt : area_list (page_list_del p z) o mt = filter (fun q => q <> p) (area_list z o mt).
Proof. unfold area_list. cbn. rewrite lookup_fmap. by destruct (free_list z !! (o, mt)). Qed.

Lemma area_list_add p o mt z o' mt' :
  area_list (list_add p o mt z) o' mt' = if decide ((o', mt') = (o, mt)) then p :: area_list z o mt else area_list z o' mt'.
Proof.
  unfold area_list, list_add. cbn. case_decide as Hd; [by rewrite Hd, lookup_insert_eq|]. by rewrite lookup_insert_ne.
Qed.

Lemma area_list_add_tail p o mt z o' mt' :
  area_list (list_add_tail p o mt z) o' mt'
  = if decide ((o', mt') = (o, mt)) then area_list z o mt ++ [p] else area_list z o' mt'.
Proof.
  unfold area_list, list_add_tail. cbn. case_decide as Hd; [by rewrite Hd, lookup_insert_eq|]. by rewrite lookup_insert_ne.
Qed.

Lemma nr_free_add o n z o' : nr_free_at (add_nr_free o n z) o' = nr_free_at z o' + if decide (o' = o) then n else 0.
Proof.
  unfold nr_free_at, add_nr_free. cbn. case_decide as Hd; [by rewrite Hd, lookup_insert_eq|].
  rewrite lookup_insert_ne by done. lia.
Qed.

(** Two zones with the same lists and flags. *)
Definition same_blocks (z z' : zone) : Prop :=
  (forall o mt, area_list z' o mt = area_list z o mt) /\ page_buddy z' = page_buddy z.

Section Ops.
Context `{CfgOk : ZoneConfigOk}.

Definition zone_ok (z : zone) : Prop := lists_ok z /\ count_ok z.

(** What is free in [z'] is what is free in [z], changed from block to block. *)
Definition frees (z : zone) (p : Z) (o : nat) (z' : zone) (p' : Z) (o' : nat) : Prop :=
  forall q, free_page z q \/ in_block q p o <-> free_page z' q \/ in_block q p' o'.

Lemma take_zone_ok p o z z' :
  zone_ok z -> fblock z p o -> taken p z z' ->
  (forall o', nr_free_at z' o' = nr_free_at z o' + if decide (o' = o) then -1 else 0) ->
  zone_ok z' /\ hole z' p o.
Proof using Type.
  intros [Hl Hc] Hp Ht Hn. destruct (taken_ok _ _ _ _ Hl Hp Ht) as [H1 H2]. split; [|done]. split; [done|].
  intros o'. by rewrite Hn, Hc, (taken_total p o z z').
Qed.

Lemma put_zone_ok p o mt z z' :
  zone_ok z -> hole z p o -> put p o mt z z' ->
  (forall o', nr_free_at z' o' = nr_free_at z o' + if decide (o' = o) then 1 else 0) ->
  zone_ok z'.
Proof using Type.
  intros [Hl Hc] Hp Ht Hn. split; [by eapply put_lists_ok|]. intros o'. by rewrite Hn, Hc, (put_total p o mt z z').
Qed.

Lemma coalesced_sub z z' : (forall q o, fblock z' q o -> fblock z q o) -> coalesced z -> coalesced z'.
Proof using Type. intros H Hc p o Ho Hp Hb. apply (Hc p o Ho); by apply H. Qed.

(** ** Freeing *)

Lemma bad_range_false p :
  bad_range p = false <-> zone_spans_pfn p = true /\ pfn_valid_within p = true /\ page_zone p = this_zone.
Proof using Type.
  unfold bad_range. destruct (zone_spans_pfn p); cbn; [|naive_solver].
  destruct (pfn_valid_within p); cbn; [|naive_solver]. destruct (page_zone p =? this_zone) eqn:Hz; cbn; zbool; naive_solver.
Qed.

Lemma page_is_buddy_iff z page buddy o :
  lists_ok z -> bad_range page = false -> page_is_buddy z page buddy o = true <-> fblock z buddy o.
Proof using CfgOk.
  intros Hl Hp. apply bad_range_false in Hp as (_ & _ & Hz). unfold page_is_buddy. split.
  - destruct (pfn_valid_within buddy) eqn:Hv; cbn; [|done]. destruct (page_buddy z !! buddy) as [o'|] eqn:Hb; [|done].
    destruct (o' =? o)%nat eqn:Ho; [|done]. apply Nat.eqb_eq in Ho as ->. intros He. apply Z.eqb_eq in He.
    apply (lo_listed _ Hl); [done|]. apply bad_range_false. rewrite <- He. split; [|done].
    apply zone_pages_spanned; [done|congruence].
  - intros Hf. pose proof (gb_zone _ _ (lo_block _ Hl _ _ Hf) buddy (in_block_first buddy o)) as Hg.
    apply bad_range_false in Hg as (_ & -> & Hzb). cbn. rewrite (lo_flag _ Hl _ _ Hf), Nat.eqb_refl. by apply Z.eqb_eq; congruence.
Qed.

(** The block two buddies form. *)
Lemma hole_merge z z' p o :
  lists_ok z -> hole z p o -> fblock z (bud p o) o -> (S o < MAX_ORDER)%nat -> taken (bud p o) z z' ->
  hole z' (par p o) (S o) /\ frees z p o z' (par p o) (S o).
Proof using Type.
  intros Hl [[Ho Hpos Ha Hz] Hd] Hb HSo Ht. pose proof (lo_block _ Hl _ _ Hb) as [_ Hbpos _ Hbz].
  pose proof (fun q => taken_free _ _ _ _ q Ht Hl Hb) as Hfree.
  destruct (bud_cases p o Ha) as (Hba & Hpa & Hcase). pose proof (sz_pos o).
  assert (forall q, in_block q (par p o) (S o) <-> in_block q p o \/ in_block q (bud p o) o) as Hsplit.
  { intros q. unfold in_block. rewrite sz_S. destruct Hcase as [[-> ->]|[H1 H2]]; [lia|]. rewrite H2, H1. lia. }
  split; [split; [split|]|].
  - done.
  - destruct Hcase as [[_ ->]|[_ ->]]; done.
  - done.
  - intros q Hq. apply Hsplit in Hq as [Hq|Hq]; [by apply Hz|by apply Hbz].
  - intros q o' Hq. apply (taken_fblock _ _ _ _ _ Ht) in Hq as [Hq Hne].
    pose proof (Hd _ _ Hq) as H1. pose proof (lo_disj _ Hl _ _ _ _ Hb Hq ltac:(done)) as H2.
    unfold disj in *. rewrite sz_S. pose proof (sz_pos o'). destruct Hcase as [[E1 E2]|[E1 E2]]; rewrite E2, ?E1 in *; lia.
  - intros q. rewrite Hfree, Hsplit. tauto.
Qed.

Lemma free_loop_ok m n : forall z page order bd,
  zone_ok z -> hole z page order -> (order + n = m - 1 \/ n = 0 /\ m <= S order)%nat -> (m <= MAX_ORDER)%nat ->
  exists z' page' order' bd',
    free_loop n z page (idx_of m page) order bd = (z', page', idx_of m page', order', bd')
    /\ zone_ok z' /\ hole z' page' order' /\ frees z page order z' page' order'
    /\ (coalesced z -> coalesced z')
    /\ ((S order' < m)%nat -> ~ fblock z' (bud page' order') order')
    /\ (order <= order')%nat /\ (bd <> None \/ n <> 0%nat -> bd' <> None)
    /\ page_index z' = page_index z /\ pageblock z' = pageblock z
    /\ weight z' + sz order' = weight z + sz order
    /\ nr_free_pages z' = nr_free_pages z /\ nr_free_cma_pages z' = nr_free_cma_pages z.
Proof using CfgOk.
  induction n as [|n IH]; intros z page order bd Hz Hh Hm HM; cbn [free_loop].
  { exists z, page, order, bd. split_and!; try done; [lia|by intros [?|?]]. }
  pose proof (proj1 Hh) as [Ho Hpos Ha Hzn].
  rewrite find_buddy by lia. pose proof (Hzn page (in_block_first page order)) as Hbad.
  destruct (page_is_buddy z page (bud page order) order) eqn:Hb; cbn [negb].
  - apply page_is_buddy_iff in Hb; [|apply Hz|done].
    rewrite combined_page, combined_idx by lia.
    set (z1 := rmv_page_order _ _).
    assert (taken (bud page order) z z1) as Ht.
    { split; [|done]. intros o' mt. apply area_list_del. }
    destruct (take_zone_ok _ _ _ _ Hz Hb Ht) as [Hz1 _];
      [exact (nr_free_add order (-1) (page_list_del (bud page order) z))|].
    destruct (hole_merge z z1 page order) as [Hh1 Hf1]; try done; [apply Hz|lia|].
    destruct (IH z1 (par page order) (S order) (Some (__find_buddy_index (idx_of m page) order, bud page order)))
      as (z' & page' & order' & bd' & -> & H1 & H2 & H3 & H4 & H5 & H6 & H7 & H8 & H9 & H10 & H11 & H12); [done|done|lia|done|].
    exists z', page', order', bd'. split_and!; try done.
    + intros q. rewrite (Hf1 q). apply H3.
    + intros Hc. apply H4. eapply coalesced_sub; [|exact Hc]. intros q o'. rewrite (taken_fblock _ _ _ _ _ Ht). tauto.
    + lia.
    + intros _. apply H7. by left.
    + rewrite H10, (taken_weight _ _ _ _ (proj1 Hz) Hb Ht), sz_S. lia.
  - exists z, page, order, (Some (__find_buddy_index (idx_of m page) order, bud page order)). split_and!; try done.
    + intros _ Hf. apply not_true_iff_false in Hb. apply Hb. apply page_is_buddy_iff; [apply Hz|done|done].
Qed.

Lemma same_blocks_fblock z z' p o : same_blocks z z' -> fblock z' p o <-> fblock z p o.
Proof using Type. intros [Ha _]. unfold fblock. by setoid_rewrite Ha. Qed.

Lemma lists_ok_same z z' : same_blocks z z' -> lists_ok z -> lists_ok z'.
Proof using Type.
  intros Hs Hl. pose proof (fun p o => same_blocks_fblock z z' p o Hs) as Hf. destruct Hs as [Ha Hb]. split.
  - intros o mt. rewrite Ha. apply Hl.
  - intros p o mt mt'. rewrite !Ha. apply Hl.
  - intros p o Hp%Hf. rewrite Hb. by apply Hl.
  - intros p o Hp Hz. rewrite Hb in Hp. apply Hf. by apply Hl.
  - intros p o Hp%Hf. by apply Hl.
  - intros p o q o' Hp%Hf Hq%Hf. by apply Hl.
Qed.

Lemma zone_ok_same z z' : same_blocks z z' -> (forall o, nr_free_at z' o = nr_free_at z o) -> zone_ok z -> zone_ok z'.
Proof using Type.
  intros Hs Hn [Hl Hc]. split; [by eapply lists_ok_same|]. intros o. rewrite Hn, Hc. unfold total.
  destruct Hs as [Ha _]. cbn. by rewrite !Ha.
Qed.

Lemma hole_same z z' p o : same_blocks z z' -> hole z p o -> hole z' p o.
Proof using Type. intros Hs [Hg Hd]. split; [done|]. intros q o'. rewrite (same_blocks_fblock _ _ _ _ Hs). apply Hd. Qed.

Lemma free_page_same z z' q : same_blocks z z' -> free_page z' q <-> free_page z q.
Proof using Type. intros Hs. unfold free_page. by setoid_rewrite (same_blocks_fblock _ _ _ _ Hs). Qed.

Lemma coalesced_same z z' : same_blocks z z' -> coalesced z -> coalesced z'.
Proof using Type. intros Hs. apply coalesced_sub. intros q o. by rewrite (same_blocks_fblock _ _ _ _ Hs). Qed.

Lemma weight_same z z' : same_blocks z z' -> weight z' = weight z.
Proof using Type.
  intros [Ha _]. unfold weight. apply foldr_ext; [|done..]. intros o n. unfold total. cbn. by rewrite !Ha.
Qed.

(** Freeing a block of the zone of which no page is free. *)
Record freed (z : zone) (p : Z) (o : nat) (mt : migratetype) (z' : zone) : Prop := {
  fr_ok : zone_ok z';
  fr_pages : forall q, free_page z' q <-> free_page z q \/ in_block q p o;
  fr_coalesced : coalesced z -> mt <> MIGRATE_ISOLATE -> coalesced z';
  fr_index : page_index z' = page_index z;
  fr_block : pageblock z' = pageblock z;
  fr_weight : weight z' = weight z + sz o;
  fr_nr : mt <> MIGRATE_ISOLATE -> nr_free_pages z' = nr_free_pages z + sz o;
}.

Lemma __free_one_page_ok p o mt z :
  zone_ok z -> hole z p o ->
  exists z', __free_one_page false p o mt z = Ok z' /\ freed z p o mt z'.
Proof using CfgOk.
  intros Hz Hh. unfold __free_one_page. pose proof (proj1 Hh) as [Ho Hpos Ha Hzn].
  set (m := if is_migrate_isolate mt then Nat.min MAX_ORDER (pageblock_order + 1) else MAX_ORDER).
  assert (m <= MAX_ORDER /\ MAX_ORDER - 1 <= m)%nat as (Hm1 & Hm2).
  { pose proof pageblock_order_large. unfold m. destruct (is_migrate_isolate mt); unfold MAX_ORDER in *; lia. }
  set (z0 := if is_migrate_isolate mt then z else _).
  assert (same_blocks z z0 /\ page_index z0 = page_index z /\ pageblock z0 = pageblock z) as (Hs0 & Hi0 & Hp0)
    by (unfold z0; by destruct (is_migrate_isolate mt)).
  assert (zone_ok z0) as Hz0 by (eapply zone_ok_same; [done| |done]; unfold z0; by destruct (is_migrate_isolate mt)).
  rewrite pages_of_sz. change (Z.land p (Z.shiftl 1 (Z.of_nat m) - 1)) with (idx_of m p).
  rewrite aligned_idx by (done || lia). cbn [Z.eqb negb]. rewrite (Hzn p (in_block_first p o)).
  destruct (free_loop_ok m (m - 1 - o) z0 p o None) as (z1 & p1 & o1 & bd & -> & H1 & H2 & H3 & H4 & H5 & H6 & H7 & H8 & H9 & H10 & H11 & H12);
    [done|by eapply hole_same|lia|done|].
  assert (exists t, add_to_tail (set_page_order p1 o1 z1) p1 (idx_of m p1) o1 bd = Ok t) as [t ->].
  { unfold add_to_tail. destruct (o1 <? MAX_ORDER - 2)%nat eqn:Hlt; [|by eexists]. apply Nat.ltb_lt in Hlt.
    destruct bd as [[bi b]|]; [by destruct (pfn_valid_within b); eexists|]. exfalso. apply H7; [right; lia|done]. }
  set (z2 := add_nr_free o1 1 (if t then list_add_tail p1 o1 mt (set_page_order p1 o1 z1)
                               else list_add p1 o1 mt (set_page_order p1 o1 z1))).
  assert (put p1 o1 mt z1 z2) as Hput.
  { split; [|by unfold z2; destruct t]. unfold z2. destruct t.
    - exists (area_list z1 o1 mt ++ [p1]). split; [symmetry; apply Permutation_cons_append|].
      intros o' mt'. exact (area_list_add_tail p1 o1 mt (set_page_order p1 o1 z1) o' mt').
    - exists (p1 :: area_list z1 o1 mt). split; [done|]. intros o' mt'. exact (area_list_add p1 o1 mt (set_page_order p1 o1 z1) o' mt'). }
  exists z2. split; [done|]. split.
  - eapply put_zone_ok; [done..|]. intros o'. unfold z2. rewrite nr_free_add. by destruct t.
  - intros q. rewrite (put_free _ _ _ _ _ _ Hput), <- (H3 q). by rewrite (free_page_same _ _ _ Hs0).
  - intros Hc Hmt. eapply put_coalesced; [apply H1|done..| |].
    + apply H4. by eapply coalesced_same.
    + intros Hlt. apply H5. unfold m, is_migrate_isolate. by rewrite bool_decide_eq_false_2.
  - rewrite <- Hi0, <- H8. unfold z2. by destruct t.
  - rewrite <- Hp0, <- H9. unfold z2. by destruct t.
  - rewrite (put_weight _ _ _ _ _ H2 Hput), H10. f_equal. by apply weight_same.
  - intros Hmt. transitivity (nr_free_pages z1); [unfold z2; by destruct t|]. rewrite H11. unfold z0, is_migrate_isolate.
    rewrite bool_decide_eq_false_2 by done. cbn. by rewrite pages_of_sz.
Qed.

(** ** Allocating *)

(** What no step of the allocation changes. *)
Definition same_state (z z' : zone) : Prop :=
  pageblock z' = pageblock z /\ nr_free_pages z' = nr_free_pages z /\ nr_free_cma_pages z' = nr_free_cma_pages z.

#[local] Instance same_state_preorder : PreOrder same_state.
Proof using Type. split; [done|]. intros a b c (? & ? & ?) (? & ? & ?). split_and!; congruence. Qed.

Lemma hole_split z p o :
  hole z p (S o) -> hole z p o /\ hole z (p + sz o) o.
Proof using Type.
  intros [[Ho Hpos Ha Hz] Hd]. pose proof (sz_pos o). pose proof (sz_S o) as HS.
  destruct (bud_upper _ _ Ha) as [_ Hau]. split; (split; [split|]); try done; try lia.
  - by eapply aligned_le; [|apply Nat.le_succ_diag_r].
  - intros q Hq. apply Hz. unfold in_block in *. lia.
  - intros q o' Hq. specialize (Hd _ _ Hq). unfold disj in *. lia.
  - intros q Hq. apply Hz. unfold in_block in *. lia.
  - intros q o' Hq. specialize (Hd _ _ Hq). unfold disj in *. lia.
Qed.

(** The upper half of a block that is not free goes to a list. *)
Lemma put_upper z z' p o mt :
  zone_ok z -> hole z p (S o) -> put (p + sz o) o mt z z' ->
  (forall o', nr_free_at z' o' = nr_free_at z o' + if decide (o' = o) then 1 else 0) ->
  zone_ok z' /\ hole z' p o /\ frees z p (S o) z' p o /\ (coalesced z -> coalesced z')
  /\ weight z' + sz o = weight z + sz (S o).
Proof using Type.
  intros Hz Hh Hput Hn. destruct (hole_split _ _ _ Hh) as [Hlow Hup]. pose proof (sz_pos o).
  pose proof (gb_aligned _ _ (proj1 Hh)) as Ha. split_and!.
  - by eapply put_zone_ok.
  - split; [apply Hlow|]. intros q o'. rewrite (put_fblock _ _ _ _ _ _ _ Hput). intros [Hq|[-> ->]]; [by apply Hlow|].
    left. lia.
  - intros q. rewrite (put_free _ _ _ _ _ _ Hput). unfold in_block. rewrite sz_S. split.
    + intros [Hq|Hq]; [by left; left|]. destruct (decide (q < p + sz o)); [right; lia|left; right; lia].
    + intros [[Hq|Hq]|Hq]; [by left|right; lia..].
  - intros Hc. eapply put_coalesced; [apply Hz|exact Hup|done..|]. intros _.
    rewrite (proj1 (bud_upper _ _ Ha)). eapply hole_not_fblock; [apply Hz|exact Hlow|apply in_block_first].
  - rewrite (put_weight _ _ _ _ _ Hup Hput), sz_S. lia.
Qed.

Lemma expand_ok low mt d : forall p z,
  zone_ok z -> hole z p (low + d) ->
  exists z', expand d p low mt z = Ok z' /\ zone_ok z' /\ hole z' p low /\ frees z p (low + d) z' p low
    /\ (coalesced z -> coalesced z') /\ weight z' + sz low = weight z + sz (low + d)
    /\ page_index z' = page_index z /\ same_state z z'.
Proof using Type.
  induction d as [|d IH]; intros p z Hz Hh; cbn [expand].
  { rewrite Nat.add_0_r in *. exists z. split_and!; done. }
  rewrite Nat.add_succ_r in Hh. rewrite pages_of_sz.
  destruct (hole_split _ _ _ Hh) as [_ Hup].
  rewrite (gb_zone _ _ (proj1 Hup) _ (in_block_first _ _)).
  set (z1 := set_page_order _ _ _).
  assert (put (p + sz (low + d)) (low + d) mt z z1) as Hput.
  { split; [|done]. exists ((p + sz (low + d)) :: area_list z (low + d) mt). split; [done|].
    intros o' mt'. exact (area_list_add _ _ _ z o' mt'). }
  destruct (put_upper z z1 p (low + d) mt) as (H1 & H2 & H3 & H4 & H5); try done.
  { exact (nr_free_add (low + d) 1 (list_add (p + sz (low + d)) (low + d) mt z)). }
  destruct (IH p z1 H1 H2) as (z' & -> & E1 & E2 & E3 & E4 & E5 & E6 & E7).
  exists z'. rewrite Nat.add_succ_r. split_and!; try done.
  - intros q. rewrite (H3 q). apply E3.
  - auto.
  - lia.
Qed.

(** A block is taken out of the free pages. *)
Record allocated (z : zone) (p : Z) (o : nat) (z' : zone) : Prop := {
  al_ok : zone_ok z';
  al_hole : hole z' p o;
  al_pages : forall q, free_page z q <-> free_page z' q \/ in_block q p o;
  al_coalesced : coalesced z -> coalesced z';
  al_weight : weight z' = weight z - sz o;
  al_state : nr_free_pages z' = nr_free_pages z /\ nr_free_cma_pages z' = nr_free_cma_pages z;
}.

(** A free block is taken off its list, split down to [order], and its head
    remembered to be of type [mt]. *)
Lemma take_expand z z1 p co order mt mt' :
  zone_ok z -> fblock z p co -> taken p z z1 ->
  (forall o', nr_free_at z1 o' = nr_free_at z o' + if decide (o' = co) then -1 else 0) ->
  same_state z z1 -> (order <= co)%nat ->
  exists z2, expand (co - order) p order mt z1 = Ok z2
    /\ allocated z p order (set_freepage_migratetype p mt' z2)
    /\ pageblock z2 = pageblock z /\ page_index z2 = page_index z1.
Proof using Type.
  intros Hz Hp Ht Hn Hs Ho. destruct (take_zone_ok _ _ _ _ Hz Hp Ht Hn) as [Hz1 Hh1].
  destruct (expand_ok order mt (co - order) p z1) as (z2 & Hx & E1 & E2 & E3 & E4 & E5 & E6 & E7); [done| |].
  { by replace (order + (co - order))%nat with co by lia. }
  replace (order + (co - order))%nat with co in * by lia.
  assert (same_blocks z2 (set_freepage_migratetype p mt' z2)) as Hsb by done.
  pose proof (taken_weight _ _ _ _ (proj1 Hz) Hp Ht) as Hw. destruct (transitivity Hs E7) as (S1 & S2 & S3).
  exists z2. split; [done|]. split; [|done]. split; [by eapply zone_ok_same|by eapply hole_same| | | |done].
  - intros q. rewrite (taken_free _ _ _ _ q Ht (proj1 Hz) Hp), (E3 q). done.
  - intros Hc. apply (coalesced_same z2); [done|]. apply E4. eapply coalesced_sub; [|exact Hc].
    intros q o'. rewrite (taken_fblock _ _ _ _ _ Ht). tauto.
  - rewrite (weight_same _ _ Hsb). lia.
Qed.

(** [__rmqueue_smallest] finds the smallest block that is large enough. *)
Lemma smallest_loop_ok order mt n : forall co z,
  zone_ok z -> (order <= co)%nat -> (co + n = MAX_ORDER)%nat ->
  (exists z', smallest_loop n order co mt z = Ok (None, z') /\ z' = z
     /\ forall o, (co <= o < MAX_ORDER)%nat -> area_list z o mt = [])
  \/ exists p z' o, smallest_loop n order co mt z = Ok (Some p, z') /\ allocated z p order z'
     /\ (co <= o < MAX_ORDER)%nat /\ p ∈ area_list z o mt
     /\ (forall o', (co <= o' < o)%nat -> area_list z o' mt = [])
     /\ pageblock z' = pageblock z /\ page_index z' = <[p := mt]> (page_index z).
Proof using Type.
  induction n as [|n IH]; intros co z Hz Hco Hn; cbn [smallest_loop].
  { left. exists z. split; [done|]. split; [done|]. intros o Ho. lia. }
  destruct (area_list z co mt) as [|p l] eqn:Hl.
  - destruct (IH (S co) z Hz) as [(z' & H1 & H2 & H3)|(p & z' & o & H1 & H2 & H3 & H4 & H5 & H6)]; [lia..| |].
    + left. exists z'. split; [done|]. split; [done|]. intros o Ho. destruct (decide (o = co)) as [->|]; [done|]. apply H3. lia.
    + right. exists p, z', o. split; [done|]. split; [done|]. split; [lia|]. split; [done|]. split; [|done].
      intros o' Ho'. destruct (decide (o' = co)) as [->|]; [done|]. apply H5. lia.
  - right. assert (p ∈ area_list z co mt) as Hin by (rewrite Hl; by left).
    set (z1 := add_nr_free _ _ _).
    assert (taken p z z1) as Ht by (split; [intros; apply area_list_del|done]).
    destruct (take_expand z z1 p co order mt mt) as (z2 & -> & Ha & Hb & Hi); [done|by exists mt|done| |done|done|].
    { exact (nr_free_add co (-1) (rmv_page_order p (page_list_del p z))). }
    cbn [obind]. exists p, (set_freepage_migratetype p mt z2), co. split; [done|]. split; [done|]. split; [lia|]. split; [done|].
    split; [intros o' Ho'; lia|]. split; [done|]. cbn. by rewrite Hi.
Qed.

(** *** Stealing from another type *)

(** Blocks change lists, nothing else. *)
Record shuffled (z z' : zone) : Prop := {
  sf_lists : lists_ok z';
  sf_blocks : forall p o, fblock z' p o <-> fblock z p o;
  sf_total : forall o, total z' o = total z o;
  sf_buddy : page_buddy z' = page_buddy z;
  sf_nr : forall o, nr_free_at z' o = nr_free_at z o;
  sf_counts : nr_free_pages z' = nr_free_pages z /\ nr_free_cma_pages z' = nr_free_cma_pages z;
}.

Lemma shuffled_refl z : lists_ok z -> shuffled z z.
Proof using Type. by intros. Qed.

Lemma shuffled_trans z1 z2 z3 : shuffled z1 z2 -> shuffled z2 z3 -> shuffled z1 z3.
Proof using Type.
  intros [A1 A2 A3 A4 A5 [A6 A7]] [B1 B2 B3 B4 B5 [B6 B7]]. split; [done| | |congruence| |split; congruence].
  - intros p o. by rewrite B2.
  - intros o. by rewrite B3.
  - intros o. by rewrite B5.
Qed.

Lemma list_move_ok p o mt mt' z :
  lists_ok z -> fblock z p o ->
  shuffled z (set_freepage_migratetype p mt' (list_add p o mt (page_list_del p z))).
Proof using Type.
  intros Hl Hp. set (z' := set_freepage_migratetype _ _ _). set (z1 := rmv_page_order p (page_list_del p z)).
  assert (taken p z z1) as Ht by (split; [intros; apply area_list_del|done]).
  destruct (taken_ok _ _ _ _ Hl Hp Ht) as [Hl1 Hh1].
  assert (put p o mt z1 z') as Hput.
  { split; [|cbn; by rewrite insert_delete_id by apply (lo_flag _ Hl _ _ Hp)].
    exists (p :: area_list z1 o mt). split; [done|]. intros o' mt1. exact (area_list_add p o mt z1 o' mt1). }
  split; try done.
  - by eapply put_lists_ok.
  - intros q o'. rewrite (put_fblock _ _ _ _ _ _ _ Hput), (taken_fblock _ _ _ _ _ Ht). split.
    + intros [[Hq _]|[-> ->]]; done.
    + intros Hq. destruct (decide (q = p)) as [->|]; [|by left]. right. split; [done|].
      pose proof (lo_flag _ Hl _ _ Hq). pose proof (lo_flag _ Hl _ _ Hp). congruence.
  - intros o'. rewrite (put_total _ _ _ _ _ _ Hput), (taken_total _ _ _ _ _ Hl Hp Ht). case_decide; lia.
Qed.

Lemma move_freepages_ok mt end_page n : forall page moved z,
  lists_ok z -> (forall q, page <= q <= end_page -> zone_spans_pfn q = true) ->
  shuffled z (move_freepages n page end_page mt moved z).2.
Proof using CfgOk.
  induction n as [|n IH]; intros page moved z Hl Hsp; cbn [move_freepages]; [by apply shuffled_refl|].
  destruct (page >? end_page) eqn:He; [by apply shuffled_refl|].
  assert (page <= end_page) as Hle by (zbool; lia).
  destruct (pfn_valid_within page) eqn:Hv; cbn [negb]; [|apply IH; [done|intros q Hq; apply Hsp; lia]].
  destruct (page_buddy z !! page) as [o|] eqn:Hb; [|apply IH; [done|intros q Hq; apply Hsp; lia]].
  assert (zone_spans_pfn page = true) as Hs by (apply Hsp; lia).
  assert (fblock z page o) as Hf.
  { apply (lo_listed _ Hl); [done|]. apply bad_range_false. split; [done|]. split; [done|]. by apply zone_span_pages. }
  pose proof (list_move_ok page o mt mt z Hl Hf) as Hm.
  eapply shuffled_trans; [exact Hm|]. apply IH; [apply Hm|].
  intros q Hq. apply Hsp. rewrite pages_of_sz in Hq. pose proof (sz_pos o). lia.
Qed.

Lemma spans_between a b q : zone_spans_pfn a = true -> zone_spans_pfn b = true -> a <= q <= b -> zone_spans_pfn q = true.
Proof using Type. unfold zone_spans_pfn. intros Ha Hb Hq. rewrite andb_true_iff in *. zbool. lia. Qed.

Lemma move_block_ok page mt z :
  lists_ok z -> zone_spans_pfn page = true -> shuffled z (move_freepages_block page mt z).2.
Proof using CfgOk.
  intros Hl Hs. unfold move_freepages_block. cbn zeta.
  set (start := Z.land page _). set (e := start + pageblock_nr_pages - 1).
  destruct (zone_spans_pfn e) eqn:He; cbn [negb]; [|by apply shuffled_refl].
  apply move_freepages_ok; [done|]. intros q Hq. destruct (zone_spans_pfn start) eqn:Hst; cbn [negb] in Hq;
    by eapply spans_between; [..|exact Hq].
Qed.

Lemma set_pageblock_shuffled page mt z : lists_ok z -> shuffled z (set_pageblock_migratetype page mt z).
Proof using Type. intros Hl. split; try done. by apply (lists_ok_same z). Qed.

Lemma change_range_ok n mt : forall page z, lists_ok z -> shuffled z (change_pageblock_range n page mt z).
Proof using Type.
  induction n as [|n IH]; intros page z Hl; cbn [change_pageblock_range]; [by apply shuffled_refl|].
  pose proof (set_pageblock_shuffled page mt z Hl) as Hs. eapply shuffled_trans; [exact Hs|]. apply IH, Hs.
Qed.

Lemma steal_ok page co mt z :
  lists_ok z -> zone_spans_pfn page = true -> shuffled z (try_to_steal_freepages page co mt z).
Proof using CfgOk.
  intros Hl Hs. unfold try_to_steal_freepages. destruct (pageblock_order <=? co)%nat; [by apply change_range_ok|].
  destruct (_ || _ || _ || _); [|by apply shuffled_refl].
  pose proof (move_block_ok page mt z Hl Hs) as Hm. destruct (move_freepages_block page mt z) as [pages z1].
  cbn in Hm. destruct (_ || _); [|done]. eapply shuffled_trans; [exact Hm|]. apply set_pageblock_shuffled, Hm.
Qed.

Lemma weight_total z z' : (forall o, total z' o = total z o) -> weight z' = weight z.
Proof using Type. intros H. unfold weight. apply foldr_ext; [|done..]. intros o n. by rewrite H. Qed.

(** A block taken after others have changed lists. *)
Lemma allocated_shuffled z zs p o z' : shuffled z zs -> allocated zs p o z' -> allocated z p o z'.
Proof using Type.
  intros Hs [A1 A2 A3 A4 A5 A6]. split; [done|done| | | |].
  - intros q. rewrite <- A3. unfold free_page. by setoid_rewrite (sf_blocks _ _ Hs).
  - intros Hc. apply A4. eapply coalesced_sub; [|exact Hc]. intros q o'. by rewrite (sf_blocks _ _ Hs).
  - rewrite A5. f_equal. apply weight_total, Hs.
  - destruct (sf_counts _ _ Hs). destruct A6. split; congruence.
Qed.

(** The types [__rmqueue_fallback_order] looks at. *)
Fixpoint tried (row : list migratetype) : list migratetype :=
  match row with
  | [] => []
  | mt :: row =>
      if bool_decide (mt = MIGRATE_RESERVE) then []
      else if CONFIG_NO_FALLBACK_CMA && is_migrate_cma mt then tried row else mt :: tried row
  end.

Lemma take_stolen z p co order start mt cma :
  zone_ok z -> p ∈ area_list z co mt -> (order <= co)%nat ->
  let z1 := add_nr_free co (-1) z in
  let z2 := if cma : bool then z1 else try_to_steal_freepages p (default 0%nat (page_buddy z1 !! p)) start z1 in
  let z3 := rmv_page_order p (page_list_del p z2) in
  exists z4, expand (co - order) p order (if cma then mt else start) z3 = Ok z4
    /\ allocated z p order (set_freepage_migratetype p (if cma then mt else start) z4).
Proof using CfgOk.
  intros Hz Hin Ho z1 z2 z3. assert (fblock z p co) as Hp by (by exists mt).
  pose proof (gb_zone _ _ (lo_block _ (proj1 Hz) _ _ Hp) p (in_block_first p co)) as Hbad.
  apply bad_range_false in Hbad as (Hsp & _).
  assert (lists_ok z1) as Hl1 by (apply (lists_ok_same z); [done|apply Hz]).
  assert (shuffled z1 z2) as Hs by (unfold z2; destruct cma; [by apply shuffled_refl|by apply steal_ok]).
  set (zs := add_nr_free co 1 z2).
  assert (shuffled z zs) as Hzs.
  { split; try apply Hs; [apply (lists_ok_same z2); [done|apply Hs]|].
    intros o'. unfold zs. rewrite nr_free_add, (sf_nr _ _ Hs). unfold z1. rewrite nr_free_add. case_decide; lia. }
  assert (zone_ok zs) as Hzok.
  { split; [apply Hzs|]. intros o'. rewrite (sf_nr _ _ Hzs), (sf_total _ _ Hzs). apply Hz. }
  destruct (take_expand zs z3 p co order (if cma then mt else start) (if cma then mt else start))
    as (z4 & H1 & H2 & _); [done|by apply (sf_blocks _ _ Hzs)| | |done|done|].
  - split; [|done]. intros o' mt'. exact (area_list_del p z2 o' mt').
  - intros o'. unfold zs. rewrite nr_free_add. change (nr_free_at z3 o') with (nr_free_at z2 o'). case_decide; lia.
  - exists z4. split; [done|]. by eapply allocated_shuffled.
Qed.

Lemma fallback_order_ok order start co row : forall z,
  zone_ok z -> (order <= co)%nat -> MIGRATE_RESERVE ∈ row ->
  (__rmqueue_fallback_order row order start co z = Ok (None, z) /\ forall mt, mt ∈ tried row -> area_list z co mt = [])
  \/ exists p z' mt, __rmqueue_fallback_order row order start co z = Ok (Some p, z') /\ allocated z p order z'
       /\ mt ∈ tried row /\ p ∈ area_list z co mt.
Proof using CfgOk.
  induction row as [|mt row IH]; intros z Hz Ho Hin; [by apply not_elem_of_nil in Hin|].
  cbn [__rmqueue_fallback_order tried]. case_bool_decide as Hres.
  { left. split; [done|]. by intros mt' ?%not_elem_of_nil. }
  assert (MIGRATE_RESERVE ∈ row) as Hin' by (apply elem_of_cons in Hin as [Heq|]; [congruence|done]).
  destruct (CONFIG_NO_FALLBACK_CMA && is_migrate_cma mt); [by apply IH|].
  destruct (area_list z co mt) as [|p l] eqn:Hl.
  - destruct (IH z Hz Ho Hin') as [[H1 H2]|(p & z' & mt' & H1 & H2 & H3 & H4)].
    + left. split; [done|]. intros mt' [->|Hmt]%elem_of_cons; [done|by apply H2].
    + right. exists p, z', mt'. split; [done|]. split; [done|]. split; [by right|done].
  - right. assert (p ∈ area_list z co mt) as Hp by (rewrite Hl; by left).
    destruct (take_stolen z p co order start mt (is_migrate_cma mt) Hz Hp Ho) as (z4 & H1 & H2). cbn zeta in H1.
    rewrite H1. cbn [obind]. eexists p, _, mt. split; [done|]. split; [done|]. split; [by left|done].
Qed.

Lemma fallback_loop_ok order start orders : forall z,
  zone_ok z -> Forall (fun co => order <= co)%nat orders ->
  (fallback_loop orders order start z = Ok (None, z)
     /\ forall co mt, co ∈ orders -> mt ∈ tried (fallbacks start) -> area_list z co mt = [])
  \/ exists p z' co mt, fallback_loop orders order start z = Ok (Some p, z') /\ allocated z p order z'
       /\ co ∈ orders /\ mt ∈ tried (fallbacks start) /\ p ∈ area_list z co mt.
Proof using CfgOk.
  induction orders as [|co orders IH]; intros z Hz Ho; cbn [fallback_loop].
  { left. split; [done|]. by intros co mt ?%not_elem_of_nil. }
  apply Forall_cons in Ho as [Hco Ho]. destruct (fallback_order_ok order start co (fallbacks start) z) as [[-> H2]|(p & z' & mt & -> & H2 & H3 & H4)]; try done.
  - destruct start; cbn; set_solver.
  - cbn [obind]. destruct (IH z Hz) as [[E1 E2]|(p & z' & co' & mt & E1 & E2 & E3 & E4 & E5)]; [done| |].
    + left. split; [done|]. intros co' mt [->|Hc]%elem_of_cons Hmt; [by apply H2|by apply E2].
    + right. exists p, z', co', mt. split; [done|]. split; [done|]. split; [by right|done].
  - cbn [obind]. right. exists p, z', co, mt. split; [done|]. split; [done|]. split; [by left|done].
Qed.

Lemma elem_of_fallback_orders order o :
  (order < MAX_ORDER)%nat -> o ∈ fallback_orders order <-> (order <= o < MAX_ORDER)%nat.
Proof using Type.
  intros Ho. unfold fallback_orders. rewrite elem_of_app, elem_of_reverse, !elem_of_seq.
  unfold MAX_ORDER, PAGE_ALLOC_COSTLY_ORDER in *. lia.
Qed.

(** The types an allocation may be served from. *)
Definition candidates (mt : migratetype) : list migratetype :=
  mt :: (if bool_decide (mt = MIGRATE_RESERVE) then [] else tried (fallbacks mt) ++ [MIGRATE_RESERVE]).

(** [__rmqueue] fails only when no list it may use has a block that is large enough. *)
Lemma __rmqueue_ok order mt z :
  zone_ok z -> (order < MAX_ORDER)%nat ->
  (__rmqueue order mt z = Ok (None, z)
     /\ forall o mt', (order <= o < MAX_ORDER)%nat -> mt' ∈ candidates mt -> area_list z o mt' = [])
  \/ exists p z', __rmqueue order mt z = Ok (Some p, z') /\ allocated z p order z'
     /\ exists o mt', (order <= o < MAX_ORDER)%nat /\ mt' ∈ candidates mt /\ p ∈ area_list z o mt'.
Proof using CfgOk.
  intros Hz Ho. unfold __rmqueue, __rmqueue_smallest, candidates.
  destruct (smallest_loop_ok order mt (MAX_ORDER - order) order z) as [(z0 & -> & -> & H1)|(p & z' & o & -> & H1 & H2 & H3 & _)];
    [done|done|lia| |].
  2: { right. cbn [obind]. exists p, z'. split; [done|]. split; [done|]. exists o, mt. split; [done|]. split; [by left|done]. }
  cbn [obind]. case_bool_decide as Hres.
  { left. split; [done|]. intros o mt' Hr Hmt. apply list_elem_of_singleton in Hmt as ->. by apply H1. }
  unfold __rmqueue_fallback.
  destruct (fallback_loop_ok order mt (fallback_orders order) z) as [[-> H2]|(p & z' & co & mt' & -> & H2 & H3 & H4 & H5)]; [done| | |].
  { apply Forall_forall. intros o Hin. rewrite elem_of_fallback_orders in Hin by done. lia. }
  2: { right. cbn [obind]. exists p, z'. split; [done|]. split; [done|]. exists co, mt'.
       split; [by apply elem_of_fallback_orders|]. split; [|done]. right. apply elem_of_app. by left. }
  cbn [obind]. destruct (smallest_loop_ok order MIGRATE_RESERVE (MAX_ORDER - order) order z)
    as [(z0 & -> & -> & H3)|(p & z' & o & -> & H3 & H4 & H5 & _)]; [done|done|lia| |].
  - left. split; [done|]. intros o mt' Hr Hmt. apply elem_of_cons in Hmt as [->|Hmt]; [by apply H1|].
    apply elem_of_app in Hmt as [Hmt|Hmt]; [by apply H2; [apply elem_of_fallback_orders|]|].
    apply list_elem_of_singleton in Hmt as ->. by apply H3.
  - right. exists p, z'. split; [done|]. split; [done|]. exists o, MIGRATE_RESERVE. split; [done|]. split; [|done].
    right. apply elem_of_app. right. by apply list_elem_of_singleton.
Qed.
End Ops.
