(* ===== verification/BuddyPcp.v ===== *)
(** * The page allocator: who owns which page

    Every managed page is free, on a per-processor list, or handed out, and
    only one of these; the operations in front of the buddy lists keep it so. *)

From stdpp Require Import gmap list.
From S2P Require Import Prelude Buddy BuddyFacts BuddyOps.

Section Pcp.
Context `{CfgOk : ZoneConfigOk}.

(** ** Blocks that are held *)

Definition covered (held : list (Z * nat)) (q : Z) : Prop := exists p o, (p, o) ∈ held /\ in_block q p o.

Fixpoint separate (held : list (Z * nat)) : Prop :=
  match held with
  | [] => True
  | (p, o) :: held => (forall q, in_block q p o -> ~ covered held q) /\ separate held
  end.

Lemma covered_cons p o held q : covered ((p, o) :: held) q <-> in_block q p o \/ covered held q.
Proof using Type. unfold covered. setoid_rewrite elem_of_cons. naive_solver. Qed.

Lemma covered_perm l l' q : l ≡ₚ l' -> covered l q <-> covered l' q.
Proof using Type. intros Hp. unfold covered. by setoid_rewrite Hp. Qed.

Lemma separate_perm l l' : l ≡ₚ l' -> separate l -> separate l'.
Proof using Type.
  induction 1 as [|[p o] l l' Hp IH|[p o] [p' o'] l|l1 l2 l3 _ IH1 _ IH2]; [done| | |by auto].
  - intros [H1 H2]. split; [|by apply IH]. intros q Hq Hc. apply (H1 q Hq). by rewrite covered_perm.
  - intros [H1 [H2 H3]]. cbn. split; [|split; [|done]].
    + intros q Hq Hc. apply covered_cons in Hc as [Hc|Hc]; [|by eapply H2].
      apply (H1 q Hc). apply covered_cons. by left.
    + intros q Hq Hc. apply (H1 q Hq). apply covered_cons. by right.
Qed.

(** The managed pages [M] are the free ones and those of the blocks held. *)
Record owned (M : Z -> Prop) (z : zone) (held : list (Z * nat)) : Prop := {
  ow_zone : zone_ok z;
  ow_holes : forall p o, (p, o) ∈ held -> good_block p o /\ forall q, in_block q p o -> ~ free_page z q;
  ow_separate : separate held;
  ow_managed : forall q, M q <-> free_page z q \/ covered held q;
}.

Lemma owned_perm M z held held' : held ≡ₚ held' -> owned M z held -> owned M z held'.
Proof using Type.
  intros Hp [H1 H2 H3 H4]. split; [done| |by eapply separate_perm|].
  - intros p o. rewrite <- Hp. apply H2.
  - intros q. rewrite H4. by rewrite (covered_perm held held').
Qed.

Lemma hole_pages z p o :
  hole z p o <-> good_block p o /\ forall q, in_block q p o -> ~ free_page z q.
Proof using Type.
  split; intros [Hg Hd]; (split; [done|]).
  - intros q Hq (p' & o' & Hf & Hq'). unfold in_block in *. destruct (Hd _ _ Hf); lia.
  - intros p' o' Hf. pose proof (sz_pos o). pose proof (sz_pos o'). unfold disj.
    destruct (decide (p + sz o <= p')) as [|H1]; [by left|]. destruct (decide (p' + sz o' <= p)) as [|H2]; [by right|].
    exfalso. apply (Hd (Z.max p p')); [unfold in_block; lia|]. exists p', o'. split; [done|]. unfold in_block. lia.
Qed.

Lemma owned_same M z z' held :
  same_blocks z z' -> (forall o, nr_free_at z' o = nr_free_at z o) -> owned M z held -> owned M z' held.
Proof using Type.
  intros Hs Hn [H1 H2 H3 H4]. split; [by eapply zone_ok_same| |done|].
  - intros p o Hin. destruct (H2 _ _ Hin) as [Hg Hf]. split; [done|]. intros q. rewrite (free_page_same _ _ _ Hs). apply Hf.
  - intros q. by rewrite (free_page_same _ _ _ Hs).
Qed.

(** ** The two moves *)

Lemma owned_free M z p o mt held :
  owned M z ((p, o) :: held) -> exists z', __free_one_page false p o mt z = Ok z' /\ owned M z' held /\ freed z p o mt z'.
Proof using CfgOk.
  intros [H1 H2 [H3 H3'] H4]. destruct (H2 p o) as [Hg Hf]; [by left|].
  destruct (__free_one_page_ok p o mt z) as (z' & Hz & Hfr); [done|by apply hole_pages|].
  exists z'. split; [done|]. split; [|done]. split; [apply Hfr| |done|].
  - intros p' o' Hin. destruct (H2 p' o') as [Hg' Hf']; [by right|]. split; [done|].
    intros q Hq. rewrite (fr_pages _ _ _ _ _ Hfr). intros [Hq'|Hq']; [by eapply Hf'|].
    apply (H3 q Hq'). by exists p', o'.
  - intros q. rewrite H4, (fr_pages _ _ _ _ _ Hfr), covered_cons. tauto.
Qed.

Lemma owned_alloc M z p o z' held :
  owned M z held -> allocated z p o z' -> owned M z' ((p, o) :: held).
Proof using Type.
  intros [H1 H2 H3 H4] Ha. pose proof (al_hole _ _ _ _ Ha) as Hh. apply hole_pages in Hh as [Hg Hh].
  assert (forall q, in_block q p o -> ~ covered held q) as Hsep.
  { intros q Hq (p' & o' & Hin & Hq'). destruct (H2 _ _ Hin) as [_ Hf]. apply (Hf q Hq').
    apply (al_pages _ _ _ _ Ha). by right. }
  split; [apply Ha| |done|].
  - intros p' o' [[= -> ->]|Hin]%elem_of_cons; [done|]. destruct (H2 _ _ Hin) as [Hg' Hf']. split; [done|].
    intros q Hq Hq'. apply (Hf' q Hq). apply (al_pages _ _ _ _ Ha). by left.
  - intros q. rewrite H4, (al_pages _ _ _ _ Ha), covered_cons. tauto.
Qed.

(** ** Per-processor lists *)

Definition single (q : Z) : Z * nat := (q, 0%nat).

(** The pages on the lists. *)
Definition pcp_pages (pcp : per_cpu_pages) : list Z :=
  pcp_list pcp 0 ++ pcp_list pcp 1 ++ pcp_list pcp 2.

Record pcp_ok (pcp : per_cpu_pages) : Prop := {
  po_count : pcp_count pcp = Z.of_nat (length (pcp_pages pcp));
  po_batch : Z.of_nat (pcp_batch pcp) <= Z.max 1 (pcp_high pcp);
}.

(** The lists of [boot_pageset] hold nothing for long, and every choice of
    sizes the code makes is a proper one. *)
Lemma boot_pageset_ok : pcp_ok boot_pageset.
Proof using Type. split; [done|]. cbn. lia. Qed.

Lemma set_batch_ok pcp batch : pcp_ok pcp -> pcp_ok (pageset_set_batch pcp batch).
Proof using Type. intros [Hc _]. split; [done|]. cbn [pcp_batch pcp_high pageset_set_batch pageset_update]. lia. Qed.

Lemma set_high_ok shift pcp high : pcp_ok pcp -> pcp_ok (pageset_set_high shift pcp high).
Proof using Type.
  intros [Hc _]. split; [done|]. unfold pageset_set_high. cbn [pcp_batch pcp_high pageset_update].
  pose proof (Nat.Div0.div_le_upper_bound high 4 high). destruct (Nat.ltb_spec (shift * 8) (high / 4)); lia.
Qed.

Lemma pcp_list_set c mt l pcp mt' : pcp_list (set_pcp c mt l pcp) mt' = if decide (mt' = mt) then l else pcp_list pcp mt'.
Proof using Type.
  unfold pcp_list. cbn. case_decide as Hd; [by rewrite Hd, lookup_insert_eq|by rewrite lookup_insert_ne].
Qed.

Lemma pcp_pages_set c mt l pcp :
  (mt < MIGRATE_PCPTYPES)%nat -> exists r,
    pcp_pages pcp ≡ₚ pcp_list pcp mt ++ r /\ pcp_pages (set_pcp c mt l pcp) ≡ₚ l ++ r.
Proof using Type.
  intros Hmt. unfold pcp_pages. rewrite !pcp_list_set. destruct mt as [|[|[|mt]]]; [..|unfold MIGRATE_PCPTYPES in Hmt; lia]; cbn.
  - exists (pcp_list pcp 1 ++ pcp_list pcp 2). split; solve_Permutation.
  - exists (pcp_list pcp 0 ++ pcp_list pcp 2). split; solve_Permutation.
  - exists (pcp_list pcp 0 ++ pcp_list pcp 1). split; solve_Permutation.
Qed.

(** The inner loop frees some pages from the tail of a list. *)
Lemma pcp_inner_ok M iso n : forall batch l z rest,
  l <> [] -> (0 < n)%nat -> owned M z ((single <$> l) ++ rest) ->
  exists n' batch' l' z', pcp_inner iso n batch l z = Ok (n', batch', l', z')
    /\ owned M z' ((single <$> l') ++ rest)
    /\ (n' + length l = n + length l')%nat /\ (length l' < length l)%nat.
Proof using CfgOk.
  induction n as [|n IH]; intros batch l z rest Hl Hn Ho; [lia|]. cbn [pcp_inner].
  destruct (exists_last Hl) as (l0 & p & ->). rewrite last_snoc, length_app. cbn [length].
  replace (length l0 + 1 - 1)%nat with (length l0) by lia. rewrite take_app_length.
  destruct (owned_free M z p 0 (if iso then get_pageblock_migratetype z p else get_freepage_migratetype z p) ((single <$> l0) ++ rest))
    as (z1 & -> & Ho1 & _).
  { eapply owned_perm; [|exact Ho]. rewrite fmap_app. cbn. solve_Permutation. }
  cbn [obind]. destruct (n =? 0)%nat eqn:Hn0.
  { apply Nat.eqb_eq in Hn0. eexists _, _, _, _. split; [done|]. split; [done|]. rewrite ?length_app. cbn. lia. }
  apply Nat.eqb_neq in Hn0. destruct (batch - 1 =? 0)%nat.
  { eexists _, _, _, _. split; [done|]. split; [done|]. rewrite ?length_app. cbn. lia. }
  destruct l0 as [|x l0]; [eexists _, _, _, _; split; [done|]; split; [done|cbn; lia]|].
  destruct (IH (batch - 1)%nat (x :: l0) z1 rest) as (n' & b' & l' & z' & -> & H1 & H2 & H3); [done|lia|done|].
  exists n', b', l', z'. split; [done|]. split; [done|]. cbn [length] in *. lia.
Qed.

(** A list with pages is found. *)
Lemma pick_list_ok pcp mt batch :
  (mt < MIGRATE_PCPTYPES)%nat -> pcp_pages pcp <> [] ->
  exists mt' batch', pick_list MIGRATE_PCPTYPES pcp mt batch = Ok (mt', batch')
    /\ (mt' < MIGRATE_PCPTYPES)%nat /\ pcp_list pcp mt' <> [].
Proof using Type.
  intros Hmt Hne. unfold pcp_pages in Hne. unfold MIGRATE_PCPTYPES in *.
  destruct mt as [|[|[|mt]]]; [..|lia]; cbn;
    destruct (pcp_list pcp 0) eqn:E0, (pcp_list pcp 1) eqn:E1, (pcp_list pcp 2) eqn:E2; try done;
    eexists _, _; (split; [done|]); (split; [lia|congruence]).
Qed.

Lemma pcp_outer_ok M iso rest fuel : forall n mt batch pcp z,
  (n <= fuel)%nat -> (n <= length (pcp_pages pcp))%nat -> (mt < MIGRATE_PCPTYPES)%nat ->
  owned M z ((single <$> pcp_pages pcp) ++ rest) ->
  exists pcp' z', pcp_outer fuel iso n mt batch pcp z = Ok (pcp', z')
    /\ owned M z' ((single <$> pcp_pages pcp') ++ rest)
    /\ (length (pcp_pages pcp') + n = length (pcp_pages pcp))%nat
    /\ pcp_count pcp' = pcp_count pcp /\ pcp_high pcp' = pcp_high pcp /\ pcp_batch pcp' = pcp_batch pcp.
Proof using CfgOk.
  induction fuel as [|fuel IH]; intros n mt batch pcp z Hf Hn Hmt Ho; cbn [pcp_outer].
  { assert (n = 0%nat) as -> by lia. exists pcp, z. split_and!; done || lia. }
  destruct (n =? 0)%nat eqn:Hn0; [apply Nat.eqb_eq in Hn0 as ->; exists pcp, z; split_and!; done || lia|].
  apply Nat.eqb_neq in Hn0.
  destruct (pick_list_ok pcp mt batch) as (mt1 & b1 & -> & Hmt1 & Hne); [done|by destruct (pcp_pages pcp); [cbn in Hn; lia|]|].
  cbn [obind]. set (b2 := if (b1 =? MIGRATE_PCPTYPES)%nat then n else b1).
  destruct (pcp_pages_set (pcp_count pcp) mt1 [] pcp Hmt1) as (r & P1 & _).
  destruct (pcp_inner_ok M iso n b2 (pcp_list pcp mt1) z ((single <$> r) ++ rest)) as (n' & b' & l' & z' & -> & H1 & H2 & H3);
    [done|lia| |].
  { eapply owned_perm; [|exact Ho]. rewrite P1, fmap_app. solve_Permutation. }
  cbn [obind]. destruct (pcp_pages_set (pcp_count pcp) mt1 l' pcp Hmt1) as (r' & P2 & P3).
  assert (r ≡ₚ r') as Hr by (eapply Permutation_app_inv_l; by rewrite <- P1, <- P2).
  apply Permutation_length in P2 as L2. apply Permutation_length in P3 as L3. rewrite length_app in L2, L3.
  destruct (IH n' mt1 b' (set_pcp (pcp_count pcp) mt1 l' pcp) z') as (pcp' & z2 & -> & E1 & E2 & E3 & E4 & E5); [lia|lia|done| |].
  { eapply owned_perm; [|exact H1]. rewrite P3, fmap_app, Hr. solve_Permutation. }
  exists pcp', z2. split_and!; try done. lia.
Qed.

Lemma free_pcppages_bulk_ok M iso n rest pcp z :
  (n <= length (pcp_pages pcp))%nat -> owned M z ((single <$> pcp_pages pcp) ++ rest) ->
  exists pcp' z', free_pcppages_bulk iso n pcp z = Ok (pcp', z')
    /\ owned M z' ((single <$> pcp_pages pcp') ++ rest)
    /\ (length (pcp_pages pcp') + n = length (pcp_pages pcp))%nat
    /\ pcp_count pcp' = pcp_count pcp /\ pcp_high pcp' = pcp_high pcp /\ pcp_batch pcp' = pcp_batch pcp.
Proof using CfgOk. intros Hn Ho. apply pcp_outer_ok; [done|done|unfold MIGRATE_PCPTYPES; lia|done]. Qed.

(** ** The allocator as a whole *)

(** [out] are the blocks handed out. *)
Definition sys_ok (M : Z -> Prop) (pcp : per_cpu_pages) (z : zone) (out : list (Z * nat)) : Prop :=
  pcp_ok pcp /\ owned M z ((single <$> pcp_pages pcp) ++ out).

(** Lists that hand every page on at once, as those of [boot_pageset]. *)
Definition passing (pcp : per_cpu_pages) : Prop :=
  pcp_pages pcp = [] /\ pcp_high pcp <= 1 /\ pcp_batch pcp = 1%nat.

Lemma boot_pageset_passing : passing boot_pageset.
Proof using Type. by split_and!. Qed.

Lemma free_hot_cold_page_ok M prepared iso p cold pcp z out :
  sys_ok M pcp z ((p, 0%nat) :: out) ->
  exists pcp' z', free_hot_cold_page prepared iso p cold pcp z = Ok (pcp', z')
    /\ sys_ok M pcp' z' (if prepared then out else (p, 0%nat) :: out)
    /\ (passing pcp -> passing pcp').
Proof using CfgOk.
  intros [Hp Ho]. unfold free_hot_cold_page. destruct prepared; cbn [negb]; [|by eexists _, _].
  set (mt := get_pageblock_migratetype z p). set (z1 := set_freepage_migratetype p mt z).
  assert (owned M z1 ((p, 0%nat) :: (single <$> pcp_pages pcp) ++ out)) as Ho1.
  { eapply owned_perm; [|by apply (owned_same M z)]. solve_Permutation. }
  destruct ((MIGRATE_PCPTYPES <=? mt_index mt)%nat && is_migrate_isolate mt).
  { unfold free_one_page. match goal with |- context [__free_one_page false p 0 ?mt2 z1] =>
      destruct (owned_free M z1 p 0 mt2 _ Ho1) as (z2 & -> & Ho2 & _) end. cbn [obind]. by eexists _, _. }
  set (k := if (MIGRATE_PCPTYPES <=? mt_index mt)%nat then mt_index MIGRATE_MOVABLE else mt_index mt).
  assert (k < MIGRATE_PCPTYPES)%nat as Hk.
  { unfold k. destruct (MIGRATE_PCPTYPES <=? mt_index mt)%nat eqn:Hle; [cbn; unfold MIGRATE_PCPTYPES; lia|].
    by apply Nat.leb_gt in Hle. }
  cbn zeta. set (l := if cold then pcp_list pcp k ++ [p] else p :: pcp_list pcp k).
  set (pcp1 := set_pcp _ _ _ _).
  assert (pcp_pages pcp1 ≡ₚ p :: pcp_pages pcp) as Hpages.
  { destruct (pcp_pages_set (pcp_count pcp + 1) k l pcp Hk) as (r & P1 & P2). fold pcp1 in P2. rewrite P2, P1.
    unfold l. destruct cold; solve_Permutation. }
  assert (pcp_ok pcp1) as Hpcp1.
  { destruct Hp as [Hc Hb]. split; [|done]. rewrite (Permutation_length Hpages). cbn [length pcp_count pcp1 set_pcp]. lia. }
  assert (owned M z1 ((single <$> pcp_pages pcp1) ++ out)) as Ho2.
  { eapply owned_perm; [|exact Ho1]. by rewrite Hpages. }
  destruct (pcp_count pcp1 >=? pcp_high pcp1) eqn:Hhigh.
  2: { eexists _, _. split; [done|]. split; [done|]. intros (Hnil & Hh & _). exfalso. zbool.
       destruct Hpcp1 as [Hc _]. rewrite (Permutation_length Hpages) in Hc. cbn [length pcp_high pcp1 set_pcp] in *. lia. }
  destruct Hpcp1 as [Hc Hb].
  destruct (free_pcppages_bulk_ok M iso (pcp_batch pcp1) out pcp1 z1) as (pcp2 & z2 & -> & E1 & E2 & E3 & E4 & E5);
    [zbool; rewrite (Permutation_length Hpages) in Hc |- *; cbn [length] in *; lia|done|].
  cbn [obind]. eexists _, _. split; [done|]. split; [split; [|done]; split|].
  - change (pcp_pages (Pcp _ _ _ (pcp_lists pcp2))) with (pcp_pages pcp2). cbn [pcp_count]. rewrite E3. lia.
  - cbn [pcp_batch pcp_high]. by rewrite E5, E4.
  - intros (Hnil & Hh & Hb1). unfold passing. change (pcp_pages (Pcp _ _ _ (pcp_lists pcp2))) with (pcp_pages pcp2).
    cbn [pcp_high pcp_batch]. rewrite E4, E5. rewrite (Permutation_length Hpages), Hnil in E2.
    change (pcp_batch pcp1) with (pcp_batch pcp) in *. split; [|done]. apply length_zero_iff_nil. cbn in E2. lia.
Qed.

Lemma drain_pages_ok M iso pcp z out :
  sys_ok M pcp z out ->
  exists pcp' z', drain_pages iso pcp z = Ok (pcp', z') /\ sys_ok M pcp' z' out /\ pcp_pages pcp' = [].
Proof using CfgOk.
  intros [[Hc Hb] Ho]. unfold drain_pages. destruct (pcp_count pcp =? 0) eqn:Hz; cbn [negb].
  { eexists _, _. split; [done|]. split; [by split|]. apply length_zero_iff_nil. zbool. lia. }
  destruct (free_pcppages_bulk_ok M iso (Z.to_nat (pcp_count pcp)) out pcp z) as (pcp' & z' & -> & E1 & E2 & E3 & E4 & E5);
    [lia|done|].
  assert (pcp_pages pcp' = []) as Hnil by (apply length_zero_iff_nil; lia).
  cbn [obind]. eexists _, _. split; [done|].
  change (pcp_pages (Pcp _ _ _ (pcp_lists pcp'))) with (pcp_pages pcp'). split; [|done]. split; [|done]. split.
  - change (pcp_pages (Pcp _ _ _ (pcp_lists pcp'))) with (pcp_pages pcp'). by rewrite Hnil.
  - cbn [pcp_batch pcp_high]. by rewrite E5, E4.
Qed.

Lemma __free_pages_sys M prepared bad iso p o pcp z out :
  sys_ok M pcp z ((p, o) :: out) ->
  exists pcp' z', __free_pages prepared bad iso p o pcp z = Ok (pcp', z')
    /\ sys_ok M pcp' z' (if prepared && ((o =? 0)%nat || negb bad) then out else (p, o) :: out)
    /\ (passing pcp -> passing pcp').
Proof using CfgOk.
  intros Hs. unfold __free_pages. destruct (o =? 0)%nat eqn:Ho.
  { apply Nat.eqb_eq in Ho as ->. rewrite andb_true_r. by apply free_hot_cold_page_ok. }
  cbn [orb]. unfold __free_pages_ok. destruct prepared; cbn [negb andb]; [|by eexists _, _].
  unfold free_one_page. set (z1 := set_freepage_migratetype _ _ z).
  assert (owned M z1 ((p, o) :: (single <$> pcp_pages pcp) ++ out)) as Ho1.
  { eapply owned_perm; [|apply (owned_same M z); [done|done|apply Hs]]. solve_Permutation. }
  destruct bad; cbn [negb].
  - cbn. eexists _, _. split; [done|]. split; [|done]. split; [apply Hs|]. eapply owned_perm; [|exact Ho1]. solve_Permutation.
  - match goal with |- context [__free_one_page false p o ?mt z1] =>
      destruct (owned_free M z1 p o mt _ Ho1) as (z2 & -> & Ho2 & _) end.
    cbn [obind]. eexists _, _. split; [done|]. split; [|done]. split; [apply Hs|done].
Qed.

(** Nothing left for a request of [order] pages of type [mt]. *)
Definition exhausted (z : zone) (order : nat) (mt : migratetype) : Prop :=
  forall o mt', (order <= o < MAX_ORDER)%nat -> mt' ∈ candidates mt -> area_list z o mt' = [].

Lemma bulk_loop_ok M order mt n : forall z held,
  (order < MAX_ORDER)%nat -> owned M z held ->
  exists pages z', bulk_loop n order mt z = Ok (pages, z')
    /\ owned M z' (((fun p => (p, order)) <$> pages) ++ held)
    /\ (pages = [] -> n <> 0%nat -> exhausted z' order mt).
Proof using CfgOk.
  induction n as [|n IH]; intros z held Ho Hw; cbn [bulk_loop]; [by exists [], z|].
  destruct (__rmqueue_ok order mt z) as [[-> H1]|(p & z1 & -> & H1 & _)]; [apply Hw|done| |]; cbn [obind].
  - exists [], z. split; [done|]. split; [done|]. by intros.
  - match goal with |- context [bulk_loop n order mt ?zz] => set (z2 := zz) end.
    assert (owned M z2 ((p, order) :: held)) as Hw2.
    { unfold z2. destruct (is_migrate_cma _); [apply (owned_same M z1); [done|done|]|]; by eapply owned_alloc. }
    destruct (IH z2 ((p, order) :: held) Ho Hw2) as (pages & z' & -> & E1 & E2). cbn [obind].
    exists (p :: pages), z'. split; [done|]. split; [|done]. eapply owned_perm; [|exact E1]. rewrite fmap_cons. solve_Permutation.
Qed.

Lemma take_page (l : list Z) (cold : bool) :
  match (if cold then last l else head l) with
  | None => l = []
  | Some p => l ≡ₚ p :: (if cold then take (length l - 1) l else tail l)
  end.
Proof using Type.
  destruct cold; [|destruct l as [|x l]; [done|apply Permutation_refl]]. destruct (list_eq_nil_dec l) as [->|Hne]; [done|].
  destruct (exists_last Hne) as (l0 & p & ->). rewrite last_snoc, length_app. cbn [length].
  replace (length l0 + 1 - 1)%nat with (length l0) by lia. rewrite take_app_length. solve_Permutation.
Qed.

Lemma rmqueue_once_ok M order cold mt pcp z out :
  (order < MAX_ORDER)%nat -> (order = 0%nat -> mt_index mt < MIGRATE_PCPTYPES)%nat -> sys_ok M pcp z out ->
  exists r pcp' z', rmqueue_once order cold mt pcp z = Ok (r, pcp', z')
    /\ match r with
       | Some p => sys_ok M pcp' z' ((p, order) :: out)
       | None => sys_ok M pcp' z' out /\ (order <> 0%nat \/ pcp_batch pcp <> 0%nat -> exhausted z' order mt)
       end.
Proof using CfgOk.
  intros Ho Hmt [Hp Hw]. unfold rmqueue_once. destruct (order =? 0)%nat eqn:H0.
  - apply Nat.eqb_eq in H0 as ->. specialize (Hmt eq_refl).
    assert (exists pcp1 z1, (match pcp_list pcp (mt_index mt) with
       | [] => let! (n, l, z) := rmqueue_bulk 0 (pcp_batch pcp) [] mt cold z in
               Ok (set_pcp (pcp_count pcp + n) (mt_index mt) l pcp, z)
       | _ => Ok (pcp, z) end) = Ok (pcp1, z1) /\ sys_ok M pcp1 z1 out
       /\ (pcp_list pcp1 (mt_index mt) = [] -> pcp_batch pcp <> 0%nat -> exhausted z1 0 mt)) as (pcp1 & z1 & -> & [Hp1 Hw1] & Hx).
    { destruct (pcp_list pcp (mt_index mt)) as [|x l] eqn:Hl.
      2: { exists pcp, z. split; [done|]. split; [done|]. by rewrite Hl. }
      unfold rmqueue_bulk. destruct (bulk_loop_ok M 0 mt (pcp_batch pcp) z _ Ho Hw) as (pages & z1 & -> & E1 & E2). cbn [obind].
      set (l := if cold then [] ++ reverse pages else pages ++ []).
      assert (l ≡ₚ pages) as Hlp by (unfold l; destruct cold; [cbn; apply reverse_Permutation|by rewrite app_nil_r]).
      destruct (pcp_pages_set (pcp_count pcp + Z.of_nat (length pages)) (mt_index mt) l pcp Hmt) as (r & P1 & P2).
      rewrite Hl in P1. cbn in P1.
      eexists _, _. split; [done|]. split; [split; [split|]|].
      - rewrite (Permutation_length P2), length_app, (Permutation_length Hlp). cbn [pcp_count set_pcp].
        rewrite (po_count _ Hp), (Permutation_length P1). lia.
      - apply Hp.
      - apply (owned_same M z1); [done|done|]. eapply owned_perm; [|exact E1]. rewrite P2, P1, fmap_app, Hlp.
        unfold single. solve_Permutation.
      - rewrite pcp_list_set, decide_True by done. intros Hnil Hb. apply E2; [|done].
        rewrite Hnil in Hlp. by apply Permutation_nil in Hlp. }
    cbn [obind]. pose proof (take_page (pcp_list pcp1 (mt_index mt)) cold) as Htk.
    destruct (if cold then last _ else head _) as [p|].
    + set (l := if cold then take _ _ else tail _) in *. eexists _, _, _. split; [done|].
      destruct (pcp_pages_set (pcp_count pcp1 - 1) (mt_index mt) l pcp1 Hmt) as (r & P1 & P2). rewrite Htk in P1.
      split; [split|].
      * rewrite (Permutation_length P2). cbn [pcp_count set_pcp]. rewrite (po_count _ Hp1), (Permutation_length P1).
        cbn [app length]. lia.
      * apply Hp1.
      * eapply owned_perm; [|exact Hw1]. rewrite P1, P2. cbn [app]. rewrite fmap_cons. unfold single at 1. solve_Permutation.
    + eexists _, _, _. split; [done|]. split; [by split|]. intros [?|Hb]; [done|]. by apply Hx.
  - destruct (__rmqueue_ok order mt z) as [[-> H1]|(p & z1 & -> & H1 & _)]; [apply Hw|done| |]; cbn [obind].
    + eexists _, _, _. split; [done|]. split; [by split|]. by intros.
    + eexists _, _, _. split; [done|]. split; [done|]. apply (owned_same M z1); [done|done|].
      eapply owned_perm; [|by eapply owned_alloc]. solve_Permutation.
Qed.

Lemma held_good M pcp z p o out : sys_ok M pcp z ((p, o) :: out) -> bad_range p = false.
Proof using CfgOk.
  intros [_ Ho]. destruct (ow_holes _ _ _ Ho p o) as [Hg _]; [set_solver|]. apply Hg, in_block_first.
Qed.

Lemma buffered_rmqueue_ok M order cold mt bad : forall pcp z out,
  (order < MAX_ORDER)%nat -> (order = 0%nat -> mt_index mt < MIGRATE_PCPTYPES)%nat -> sys_ok M pcp z out ->
  exists r lost pcp' z', buffered_rmqueue bad order cold mt pcp z = Ok (r, lost, pcp', z')
    /\ (length lost <= bad)%nat /\ (bad = 0%nat -> lost = [])
    /\ sys_ok M pcp' z' (match r with Some p => [(p, order)] | None => [] end
                         ++ ((fun p => (p, order)) <$> lost) ++ out).
Proof using CfgOk.
  induction bad as [|bad IH]; intros pcp z out Ho Hmt Hs; cbn [buffered_rmqueue];
    destruct (rmqueue_once_ok M order cold mt pcp z out Ho Hmt Hs) as (r & pcp1 & z1 & -> & H); cbn [obind];
    (destruct r as [p|]; [|destruct H as [H _]; eexists _, [], _, _; split; [done|]; cbn; split_and!; done || lia]);
    rewrite (held_good _ _ _ _ _ _ H).
  - eexists _, [], _, _. split; [done|]. cbn. by split_and!.
  - destruct (IH pcp1 z1 ((p, order) :: out) Ho Hmt H) as (r & lost & pcp2 & z2 & -> & Hl & _ & H2). cbn [obind].
    exists r, (p :: lost), pcp2, z2. split; [done|]. split; [cbn; lia|]. split; [done|]. split; [apply H2|].
    eapply owned_perm; [|apply H2]. rewrite fmap_cons. destruct r; solve_Permutation.
Qed.
End Pcp.
