(* ===== verification/BuddyProps.v ===== *)
(** * The page allocator: properties *)

From stdpp Require Import gmap list.
From S2P Require Import Prelude Buddy BuddyFacts BuddyOps BuddyPcp.

(** The number of blocks counts the blocks. *)
Definition blocks_at (z : zone) (o : nat) : list Z := concat (area_list z o <$> all_types).

Lemma total_blocks z o : total z o = Z.of_nat (length (blocks_at z o)).
Proof. unfold total, blocks_at, all_types. cbn. rewrite !length_app. cbn. lia. Qed.

Lemma elem_of_blocks_at z o p : p ∈ blocks_at z o <-> fblock z p o.
Proof.
  unfold blocks_at, fblock. rewrite list_elem_of_In, in_concat. split.
  - intros (l & Hl & Hp). apply list_elem_of_In, list_elem_of_fmap in Hl as (mt & -> & _). exists mt. by apply list_elem_of_In.
  - intros [mt Hp]. exists (area_list z o mt). split; [|by apply list_elem_of_In].
    apply list_elem_of_In, list_elem_of_fmap. exists mt. split; [done|]. destruct mt; cbn; set_solver.
Qed.

Lemma NoDup_concat_types (f : migratetype -> list Z) l :
  NoDup l -> (forall mt, NoDup (f mt)) -> (forall p mt mt', p ∈ f mt -> p ∈ f mt' -> mt = mt') -> NoDup (concat (f <$> l)).
Proof.
  intros Hnd Hf Honce. induction Hnd as [|mt l Hmt _ IH]; [constructor|]. cbn. apply NoDup_app. split; [apply Hf|].
  split; [|done]. intros p Hp Hin. apply list_elem_of_In, in_concat in Hin as (l' & Hl' & Hp').
  apply list_elem_of_In, list_elem_of_fmap in Hl' as (mt' & -> & Hmt'). apply list_elem_of_In in Hp'.
  by rewrite (Honce _ _ _ Hp Hp') in Hmt.
Qed.

Lemma all_types_NoDup : NoDup all_types.
Proof. apply (bool_decide_unpack _). vm_compute. exact I. Qed.

Section Canonical.
Context `{CfgOk : ZoneConfigOk}.

(** ** The free pages determine the free blocks *)

Lemma contained z : lists_ok z -> coalesced z -> forall o p,
  (o < MAX_ORDER)%nat -> aligned p o -> (forall q, in_block q p o -> free_page z q) ->
  exists p' o', fblock z p' o' /\ (o <= o')%nat /\ p' <= p /\ p + sz o <= p' + sz o'.
Proof using Type.
  intros Hl Hc. induction o as [|o IH]; intros p Ho Ha Hf.
  - destruct (Hf p (in_block_first p 0)) as (p' & o' & Hb & Hq). exists p', o'. split; [done|]. split; [lia|].
    unfold in_block in Hq. change (sz 0) with 1. lia.
  - pose proof (sz_S o) as HS. pose proof (sz_pos o) as Hpos. destruct (bud_upper _ _ Ha) as [Hbu Hau].
    assert (aligned p o) as Hap by (eapply aligned_le; [exact Ha|lia]).
    destruct (IH p) as (p1 & o1 & H1 & Ho1 & L1 & R1); [lia|done|intros q Hq; apply Hf; unfold in_block in *; lia|].
    destruct (IH (p + sz o)) as (p2 & o2 & H2 & Ho2 & L2 & R2); [lia|done|intros q Hq; apply Hf; unfold in_block in *; lia|].
    destruct (decide (S o <= o1)%nat) as [Hle|Hgt].
    { exists p1, o1. split; [done|]. split; [done|]. rewrite HS.
      destruct (aligned_nested p (S o) p1 o1 p) as [N1 N2]; try done; [apply (lo_block _ Hl _ _ H1)|rewrite HS; lia|lia|]. lia. }
    destruct (decide (S o <= o2)%nat) as [Hle|Hgt2].
    { exists p2, o2. split; [done|]. split; [done|]. rewrite HS.
      destruct (aligned_nested p (S o) p2 o2 (p + sz o)) as [N1 N2]; try done; [apply (lo_block _ Hl _ _ H2)|rewrite HS; lia|lia|]. lia. }
    exfalso. assert (o1 = o) as -> by lia. assert (o2 = o) as -> by lia.
    assert (p1 = p) as -> by lia. assert (p2 = p + sz o) as -> by lia.
    apply (Hc _ _ Ho H2). by rewrite Hbu.
Qed.

Lemma fblock_contained z1 z2 p o :
  lists_ok z1 -> lists_ok z2 -> coalesced z1 -> coalesced z2 ->
  (forall q, free_page z1 q <-> free_page z2 q) -> fblock z1 p o -> fblock z2 p o.
Proof using Type.
  intros Hl1 Hl2 Hc1 Hc2 Hf Hp. pose proof (lo_block _ Hl1 _ _ Hp) as [Ho _ Ha _]. pose proof (sz_pos o).
  destruct (contained z2 Hl2 Hc2 o p) as (p' & o' & Hb' & Ho' & L & R); [done|done| |].
  { intros q Hq. apply Hf. by exists p, o. }
  pose proof (lo_block _ Hl2 _ _ Hb') as [Ho2 _ Ha' _].
  destruct (contained z1 Hl1 Hc1 o' p') as (p'' & o'' & Hb'' & Ho'' & L' & R'); [done|done| |].
  { intros q Hq. apply Hf. by exists p', o'. }
  assert (p'' = p) as ->.
  { apply dec_stable. intros Hne. destruct (lo_disj _ Hl1 _ _ _ _ Hb'' Hp Hne); lia. }
  assert (o'' = o) as ->.
  { pose proof (lo_flag _ Hl1 _ _ Hb''). pose proof (lo_flag _ Hl1 _ _ Hp). congruence. }
  assert (o' = o) as -> by lia. by replace p with p' by lia.
Qed.

Lemma total_fblock z1 z2 o :
  lists_ok z1 -> lists_ok z2 -> (forall p, fblock z1 p o <-> fblock z2 p o) -> total z1 o = total z2 o.
Proof using Type.
  intros H1 H2 Hb. rewrite !total_blocks. f_equal. apply Permutation_length, NoDup_Permutation.
  - apply NoDup_concat_types; [apply all_types_NoDup|apply H1|intros p mt mt'; apply H1].
  - apply NoDup_concat_types; [apply all_types_NoDup|apply H2|intros p mt mt'; apply H2].
  - intros p. rewrite !elem_of_blocks_at. apply Hb.
Qed.

(** C7. Merging is canonical: when no two buddies are both free, the free
    blocks are determined by the free pages, so allocating a block and
    freeing it again, whatever splits and merges that takes, gives back
    exactly the blocks there were before, with every counter right. *)
Theorem buddy_roundtrip z order mt mt' p z1 :
  zone_ok z -> coalesced z -> (order < MAX_ORDER)%nat -> mt' <> MIGRATE_ISOLATE ->
  __rmqueue order mt z = Ok (Some p, z1) ->
  exists z2, __free_one_page false p order mt' z1 = Ok z2 /\ zone_ok z2
    /\ (forall q o, fblock z2 q o <-> fblock z q o)
    /\ (forall o, nr_free_at z2 o = nr_free_at z o)
    /\ nr_free_pages z2 = nr_free_pages z + sz order.
Proof using CfgOk.
  intros Hz Hc Ho Hmt Hr. destruct (__rmqueue_ok order mt z Hz Ho) as [[Hn _]|(p0 & z0 & Hs & Ha & _)]; [congruence|].
  rewrite Hr in Hs. injection Hs as <- <-.
  destruct (__free_one_page_ok p order mt' z1 (al_ok _ _ _ _ Ha) (al_hole _ _ _ _ Ha)) as (z2 & Hf & Hfr).
  exists z2. split; [done|]. split; [apply Hfr|].
  assert (forall q, free_page z2 q <-> free_page z q) as Hpages.
  { intros q. by rewrite (fr_pages _ _ _ _ _ Hfr), (al_pages _ _ _ _ Ha). }
  assert (coalesced z2) as Hc2 by (apply (fr_coalesced _ _ _ _ _ Hfr); [by apply (al_coalesced _ _ _ _ Ha)|done]).
  pose proof (fr_ok _ _ _ _ _ Hfr) as Hz2.
  assert (forall q o, fblock z2 q o <-> fblock z q o) as Hb.
  { intros q o. split; intros H; eapply fblock_contained; [apply Hz2|apply Hz|done..|apply Hz|apply Hz2|done|done| |done].
    intros q'. by rewrite Hpages. }
  split; [done|]. split.
  - intros o. rewrite (proj2 Hz2 o), (proj2 Hz o). apply total_fblock; [apply Hz2|apply Hz|]. intros q. apply Hb.
  - rewrite (fr_nr _ _ _ _ _ Hfr Hmt). f_equal. apply Ha.
Qed.

(** C6. [__rmqueue] serves a request from the lists it may use: it fails, and
    changes nothing, exactly when none of them has a large enough block;
    otherwise the block it returns was free and is not any more, no other page
    changes hands, and lists, flags and counters stay consistent with the
    buddies still merged. *)
Theorem rmqueue_correct z order mt :
  zone_ok z -> (order < MAX_ORDER)%nat ->
  exists r z', __rmqueue order mt z = Ok (r, z') /\ zone_ok z' /\ (coalesced z -> coalesced z') /\
    match r with
    | None => z' = z /\ exhausted z order mt
    | Some p => good_block p order /\ ~ exhausted z order mt
        /\ (forall q, in_block q p order -> free_page z q /\ ~ free_page z' q)
        /\ forall q, ~ in_block q p order -> free_page z' q <-> free_page z q
    end.
Proof using CfgOk.
  intros Hz Ho. destruct (__rmqueue_ok order mt z Hz Ho) as [[Hn Hx]|(p & z' & Hs & Ha & o & mt' & Hr & Hc & Hp)].
  - exists None, z. by split_and!.
  - exists (Some p), z'. split; [done|]. split; [apply Ha|]. split; [apply Ha|].
    pose proof (al_hole _ _ _ _ Ha) as Hh. split; [apply Hh|]. apply hole_pages in Hh as [_ Hh]. split; [|split].
    + intros Hex. rewrite (Hex o mt' Hr Hc) in Hp. by apply not_elem_of_nil in Hp.
    + intros q Hq. split; [apply (al_pages _ _ _ _ Ha); by right|by apply Hh].
    + intros q Hq. rewrite (al_pages _ _ _ _ Ha). tauto.
Qed.

(** ** Life of a zone *)

(** The zone before its pages are released at boot, with the types that
    [memmap_init] gives its page blocks. *)
Definition bare_zone (blocks : gmap Z migratetype) : zone := Zone ∅ ∅ ∅ ∅ blocks 0 0.
Definition empty_zone : zone := bare_zone ∅.

Inductive page_op :=
| PageAlloc (bad : nat) (order : nat) (cold : bool) (mt : migratetype)
| PageFree (page : Z) (order : nat) (prepared compound_bad has_isolate : bool)
| PageDrain (has_isolate : bool)
| PageBatch (batch : nat)
| PageHigh (page_shift high : nat).

(** The last two components are the blocks handed out and the damaged blocks
    that were left to nobody. *)
Definition alloc_state : Type := per_cpu_pages * zone * list (Z * nat) * list (Z * nat).

(** An operation that a caller may not make is skipped: blocks of impossible
    orders, and freeing what was not handed out.  A block that turns out to be
    damaged when it is freed is not, and stays with its owner. *)
Definition page_step (op : page_op) (s : alloc_state) : outcome alloc_state :=
  let '(pcp, z, out, lost) := s in
  match op with
  | PageAlloc bad order cold mt =>
      if (order <? MAX_ORDER)%nat && (negb (order =? 0)%nat || (mt_index mt <? MIGRATE_PCPTYPES)%nat) then
        let! (r, damaged, pcp, z) := buffered_rmqueue bad order cold mt pcp z in
        Ok (pcp, z, match r with Some p => (p, order) :: out | None => out end,
            ((fun p => (p, order)) <$> damaged) ++ lost)
      else Ok s
  | PageFree page order prepared bad iso =>
      match list_find (fun b => b = (page, order)) out with
      | None => Ok s
      | Some (i, _) =>
          let! (pcp, z) := __free_pages prepared bad iso page order pcp z in
          Ok (pcp, z, if prepared && ((order =? 0)%nat || negb bad) then delete i out else out, lost)
      end
  | PageDrain iso => let! (pcp, z) := drain_pages iso pcp z in Ok (pcp, z, out, lost)
  | PageBatch batch => Ok (pageset_set_batch pcp batch, z, out, lost)
  | PageHigh page_shift high => Ok (pageset_set_high page_shift pcp high, z, out, lost)
  end.

Fixpoint page_run (ops : list page_op) (s : alloc_state) : outcome alloc_state :=
  match ops with
  | [] => Ok s
  | op :: ops => let! s := page_step op s in page_run ops s
  end.

Lemma page_step_ok M op pcp z out lost :
  sys_ok M pcp z (out ++ lost) ->
  exists pcp' z' out' lost', page_step op (pcp, z, out, lost) = Ok (pcp', z', out', lost') /\ sys_ok M pcp' z' (out' ++ lost').
Proof using CfgOk.
  intros Hs. destruct op as [bad order cold mt|page order prepared bad iso|iso|batch|shift high]; cbn [page_step].
  - destruct (_ && _) eqn:Hv; [|by eexists _, _, _, _]. apply andb_true_iff in Hv as [Ho Hmt]. apply Nat.ltb_lt in Ho.
    destruct (buffered_rmqueue_ok M order cold mt bad pcp z (out ++ lost)) as (r & damaged & pcp' & z' & -> & _ & _ & H); [done| |done|].
    + intros ->. by apply Nat.ltb_lt.
    + cbn [obind]. eexists _, _, _, _. split; [done|]. split; [apply H|]. eapply owned_perm; [|apply H].
      destruct r; solve_Permutation.
  - destruct (list_find _ out) as [[i b]|] eqn:Hf; [|by eexists _, _, _, _].
    apply list_find_Some in Hf as (Hi & -> & _). pose proof (delete_Permutation _ _ _ Hi) as Hp.
    destruct (__free_pages_sys M prepared bad iso page order pcp z (delete i out ++ lost)) as (pcp' & z' & -> & H1 & _).
    { split; [apply Hs|]. eapply owned_perm; [|apply Hs]. by rewrite Hp at 1. }
    cbn [obind]. eexists _, _, _, _. split; [done|]. destruct (prepared && _); [done|].
    split; [apply H1|]. eapply owned_perm; [|apply H1]. by rewrite Hp at 2.
  - destruct (drain_pages_ok M iso pcp z (out ++ lost) Hs) as (pcp' & z' & -> & H & _). cbn [obind]. by eexists _, _, _, _.
  - eexists _, _, _, _. split; [done|]. destruct Hs as [Hp Ho]. split; [by apply set_batch_ok|exact Ho].
  - eexists _, _, _, _. split; [done|]. destruct Hs as [Hp Ho]. split; [by apply set_high_ok|exact Ho].
Qed.

Lemma page_run_ok M ops : forall pcp z out lost,
  sys_ok M pcp z (out ++ lost) ->
  exists pcp' z' out' lost', page_run ops (pcp, z, out, lost) = Ok (pcp', z', out', lost') /\ sys_ok M pcp' z' (out' ++ lost').
Proof using CfgOk.
  induction ops as [|op ops IH]; intros pcp z out lost Hs; cbn [page_run]; [by eexists _, _, _, _|].
  destruct (page_step_ok M op pcp z out lost Hs) as (pcp1 & z1 & out1 & lost1 & -> & H1). cbn [obind]. by apply IH.
Qed.

(** Nothing is left to nobody unless a block fails its check. *)
Definition sound_op (op : page_op) : Prop := match op with PageAlloc bad _ _ _ => bad = 0%nat | _ => True end.

Lemma buffered_sound order cold mt pcp z r damaged pcp' z' :
  buffered_rmqueue 0 order cold mt pcp z = Ok (r, damaged, pcp', z') -> damaged = [].
Proof using Type.
  cbn [buffered_rmqueue]. destruct (rmqueue_once order cold mt pcp z) as [[[[p|] pcp1] z1]|  | |]; cbn [obind]; try done; [|congruence].
  destruct (bad_range p); congruence.
Qed.

Lemma page_run_sound ops : Forall sound_op ops -> forall pcp z out pcp' z' out' lost',
  page_run ops (pcp, z, out, []) = Ok (pcp', z', out', lost') -> lost' = [].
Proof using Type.
  induction 1 as [|op ops Hop _ IH]; intros pcp z out pcp' z' out' lost'; cbn [page_run]; [congruence|].
  destruct (page_step op (pcp, z, out, [])) as [[[[pcp1 z1] out1] lost1]| | |] eqn:E; cbn [obind]; try done.
  assert (lost1 = []) as ->; [|by apply IH]. revert E.
  destruct op as [bad order cold mt|page order prepared bad iso|iso|batch|shift high]; cbn [page_step].
  - cbn in Hop. subst bad. destruct (_ && _); [|congruence].
    destruct (buffered_rmqueue 0 order cold mt pcp z) as [[[[r d] pcp2] z2]| | |] eqn:E; cbn [obind]; try done.
    apply buffered_sound in E as ->. cbn. congruence.
  - destruct (list_find _ out) as [[i b]|]; [|congruence].
    destruct (__free_pages _ _ _ _ _ _ _) as [[pcp2 z2]| | |]; cbn [obind]; congruence.
  - destruct (drain_pages iso pcp z) as [[pcp2 z2]| | |]; cbn [obind]; congruence.
  - congruence.
  - congruence.
Qed.

Lemma bare_zone_ok blocks : zone_ok (bare_zone blocks).
Proof using Type.
  assert (forall o mt, area_list (bare_zone blocks) o mt = []) as Hn by (intros; unfold area_list; cbn; by rewrite lookup_empty).
  assert (forall p o, ~ fblock (bare_zone blocks) p o) as Hf by (intros p o [mt Hp]; rewrite Hn in Hp; by apply not_elem_of_nil in Hp).
  split; [split|].
  - intros o mt. rewrite Hn. constructor.
  - intros p o mt mt'. rewrite !Hn. by intros ?%not_elem_of_nil.
  - intros p o H. by apply Hf in H.
  - intros p o H. cbn in H. by rewrite lookup_empty in H.
  - intros p o H. by apply Hf in H.
  - intros p o q o' H. by apply Hf in H.
  - intros o. unfold nr_free_at, total. cbn. by rewrite !Hn, lookup_empty.
Qed.

Lemma bare_not_free blocks q : ~ free_page (bare_zone blocks) q.
Proof using Type.
  intros (p & o & [mt Hm] & _). unfold area_list in Hm. cbn in Hm. rewrite lookup_empty in Hm. by apply not_elem_of_nil in Hm.
Qed.

Lemma covered_singles l out q : covered ((single <$> l) ++ out) q <-> q ∈ l \/ covered out q.
Proof using Type.
  unfold covered. setoid_rewrite elem_of_app. setoid_rewrite list_elem_of_fmap. unfold single. split.
  - intros (p & o & [(x & [= -> ->] & Hx)|Hin] & Hq); [|by right; eauto]. left. unfold in_block in Hq. change (sz 0) with 1 in Hq.
    assert (x = q) as <- by lia. done.
  - intros [Hq|(p & o & Hin & Hq)]; [|by eauto]. exists q, 0%nat. split; [left; by eauto|]. apply in_block_first.
Qed.

(** C5. Pages are owned once: from the release of the pages at boot, with the
    page lists of [boot_pageset], through any sequence of allocations
    (including those that find the blocks they take damaged and take others),
    releases (of single pages through the per-processor lists, of larger
    blocks directly, of damaged ones not at all), drains and changes of the
    sizes of the lists, every call returns, and each page released at boot is
    at any time in exactly one place: free in the zone, on a per-processor
    list, in a block handed out, or in a block an allocation found damaged.
    Without such findings there are no blocks of the last kind. *)
Theorem pages_owned_once boot blocks ops :
  (forall p o, (p, o) ∈ boot -> good_block p o) -> separate boot ->
  exists pcp z out lost, page_run ops (boot_pageset, bare_zone blocks, boot, []) = Ok (pcp, z, out, lost)
    /\ (forall q, covered boot q <-> free_page z q \/ q ∈ pcp_pages pcp \/ covered out q \/ covered lost q)
    /\ (forall q, free_page z q -> (q ∉ pcp_pages pcp) /\ ~ covered out q /\ ~ covered lost q)
    /\ separate ((single <$> pcp_pages pcp) ++ out ++ lost) /\ zone_ok z
    /\ (Forall sound_op ops -> lost = []).
Proof using CfgOk.
  intros Hg Hs.
  destruct (page_run_ok (covered boot) ops boot_pageset (bare_zone blocks) boot []) as (pcp & z & out & lost & Hrun & [_ [H1 H2 H3 H4]]).
  { split; [apply boot_pageset_ok|]. rewrite app_nil_r.
    pose proof (bare_not_free blocks) as Hf. split; [apply bare_zone_ok| |done|].
    - intros p o Hin. split; [by apply Hg|]. intros q _. apply Hf.
    - intros q. pose proof (Hf q). cbn. tauto. }
  assert (forall q, covered ((single <$> pcp_pages pcp) ++ out ++ lost) q <->
    q ∈ pcp_pages pcp \/ covered out q \/ covered lost q) as Hcov.
  { intros q. rewrite covered_singles. unfold covered at 1. setoid_rewrite elem_of_app. unfold covered. naive_solver. }
  exists pcp, z, out, lost. split; [done|]. split; [intros q; by rewrite H4, Hcov|]. split; [|split; [done|split; [done|]]].
  - intros q Hq. assert (~ covered ((single <$> pcp_pages pcp) ++ out ++ lost) q) as Hn; [|rewrite Hcov in Hn; tauto].
    intros (p & o & Hin & Hb). destruct (H2 _ _ Hin) as [_ Hf]. by apply (Hf q).
  - intros Hops. by eapply page_run_sound.
Qed.
End Canonical.

(** ** A zone of two megabytes and more *)

(** Frames 0 to 2047 form the zone, in blocks of 512 pages. *)
#[local] Instance demo_config : ZoneConfig := {|
  pageblock_order := 9;
  CONFIG_NO_FALLBACK_CMA := false;
  page_group_by_mobility_disabled := false;
  pfn_valid_within p := (0 <=? p) && (p <? 2048);
  page_zone _ := 0;
  this_zone := 0;
  zone_start_pfn := 0;
  spanned_pages := 2048;
|}.

#[local] Instance demo_config_ok : ZoneConfigOk.
Proof.
  split; [|done|unfold MAX_ORDER; cbn; lia]. intros p Hp _. unfold zone_spans_pfn, zone_end_pfn. cbn in *. exact Hp.
Qed.

Lemma demo_block p o : (o < MAX_ORDER)%nat -> 0 <= p -> aligned p o -> p + sz o <= 2048 -> good_block p o.
Proof.
  intros Ho Hp Ha He. split; try done. intros q Hq. unfold in_block in Hq. apply bad_range_false.
  unfold zone_spans_pfn, zone_end_pfn. cbn. rewrite !andb_true_iff. zbool. lia.
Qed.

(** A zone with the lower 1024 pages free, in one block. *)
Definition demo_zone : zone :=
  match __free_one_page false 0 10 MIGRATE_MOVABLE empty_zone with Ok z => z | _ => empty_zone end.

Lemma demo_zone_ok : zone_ok demo_zone /\ coalesced demo_zone.
Proof.
  destruct (__free_one_page_ok 0 10 MIGRATE_MOVABLE empty_zone) as (z & Hz & Hf).
  - apply bare_zone_ok.
  - apply hole_pages. split; [apply demo_block; [unfold MAX_ORDER; lia|lia|by exists 0|vm_compute; discriminate]|].
    intros q _. apply bare_not_free.
  - unfold demo_zone. rewrite Hz. split; [apply Hf|]. apply Hf; [|done].
    intros p o _ [mt Hm]. unfold area_list in Hm. cbn in Hm. rewrite lookup_empty in Hm. by apply not_elem_of_nil in Hm.
Qed.

Definition demo_taken : zone :=
  match __rmqueue 3 MIGRATE_UNMOVABLE demo_zone with Ok (_, z) => z | _ => empty_zone end.

Lemma buddy_roundtrip_witness :
  exists z2, __free_one_page false 0 3 MIGRATE_MOVABLE demo_taken = Ok z2
    /\ forall q o, fblock z2 q o <-> fblock demo_zone q o.
Proof.
  destruct demo_zone_ok as [Hz Hc].
  destruct (buddy_roundtrip demo_zone 3 MIGRATE_UNMOVABLE MIGRATE_MOVABLE 0 demo_taken) as (z2 & H1 & _ & H2 & _).
  - exact Hz.
  - exact Hc.
  - unfold MAX_ORDER. lia.
  - discriminate.
  - vm_compute. reflexivity.
  - exists z2. split; [exact H1|exact H2].
Defined.

Lemma rmqueue_correct_witness :
  exists r z', __rmqueue 3 MIGRATE_UNMOVABLE demo_zone = Ok (r, z') /\ zone_ok z'.
Proof.
  destruct (rmqueue_correct demo_zone 3 MIGRATE_UNMOVABLE) as (r & z' & H1 & H2 & _).
  - apply demo_zone_ok.
  - unfold MAX_ORDER. lia.
  - exists r, z'. split; [exact H1|exact H2].
Defined.

(** The request is served from the movable block, which is split down; the
    whole page block is stolen. *)
Example demo_split :
  (fun o => area_list demo_taken o MIGRATE_UNMOVABLE) <$> [3; 4; 9]%nat = [[8]; [16]; [512]]
  /\ area_list demo_taken 10 MIGRATE_MOVABLE = []
  /\ get_pageblock_migratetype demo_taken 600 = MIGRATE_UNMOVABLE.
Proof. vm_compute. done. Qed.

Definition demo_boot : list (Z * nat) := [(0, 10%nat); (1024, 9%nat)].
Definition demo_page_ops : list page_op :=
  [PageFree 0 10 true false false; PageFree 1024 9 true false false; PageBatch 3; PageAlloc 1 0 false MIGRATE_MOVABLE;
   PageAlloc 0 4 false MIGRATE_UNMOVABLE; PageFree 1 0 true false false; PageDrain false].

Lemma pages_owned_once_witness :
  exists pcp z out lost, page_run demo_page_ops (boot_pageset, empty_zone, demo_boot, []) = Ok (pcp, z, out, lost) /\ zone_ok z.
Proof.
  destruct (pages_owned_once demo_boot ∅ demo_page_ops) as (pcp & z & out & lost & H1 & _ & _ & _ & H2 & _).
  - intros p o Hin. apply elem_of_cons in Hin as [[= -> ->]|Hin]; [|apply list_elem_of_singleton in Hin as [= -> ->]];
      (apply demo_block; [unfold MAX_ORDER; lia|lia| |vm_compute; discriminate]); [by exists 0|by exists 2].
  - cbn. split; [|split; [|exact I]].
    + intros q Hq (p & o & Hin & Hq'). apply list_elem_of_singleton in Hin as [= -> ->].
      unfold in_block in *. change (sz 10) with 1024 in Hq. lia.
    + intros q Hq (p & o & Hin & _). by apply not_elem_of_nil in Hin.
  - exists pcp, z, out, lost. split; [exact H1|exact H2].
Defined.

(** The first page taken is damaged and stays lost; the second is handed out,
    freed and drained. *)
Example demo_damaged :
  match page_run demo_page_ops (boot_pageset, empty_zone, demo_boot, []) with
  | Ok (pcp, _, out, lost) => pcp_pages pcp = [] /\ length out = 1%nat /\ length lost = 1%nat
  | _ => False
  end.
Proof. vm_compute. done. Qed.
