(* ===== verification/TimerWheel.v ===== *)
(** * The timer wheel (kernel/time/timer.c)

    The timers of one processor, sorted by their distance into five arrays of
    lists; each tick the list at hand is run, and lists of the coarser arrays
    are distributed over the finer ones.  [jiffies] is an argument, constant
    during a call.  A timer is its address; a handler is the list of calls it
    makes. *)

From stdpp Require Import gmap list.
From S2P Require Import Prelude.

Definition TVN_BITS : Z := 6.
Definition TVR_BITS : Z := 8.
Definition TVN_SIZE : Z := Z.shiftl 1 TVN_BITS.
Definition TVR_SIZE : Z := Z.shiftl 1 TVR_BITS.
Definition TVN_MASK : Z := TVN_SIZE - 1.
Definition TVR_MASK : Z := TVR_SIZE - 1.
Definition MAX_TVAL : Z := Z.shiftl 1 (TVR_BITS + 4 * TVN_BITS) - 1.
Definition NEXT_TIMER_MAX_DELTA : Z := Z.shiftl 1 30 - 1.

Definition time_after (a b : Z) : bool := s64 (b - a) <? 0.
Definition time_before (a b : Z) : bool := time_after b a.
Definition time_after_eq (a b : Z) : bool := s64 (a - b) >=? 0.
Definition time_before_eq (a b : Z) : bool := time_after_eq b a.

(** ** Data *)

(** [t_pending] is [timer->entry.next != NULL]. *)
Record timer_list := Timer {
  t_expires : Z;
  t_deferrable : bool;
  t_slack : Z;
  t_pending : bool;
}.

(** [vec] are the lists of tv1 to tv5, by array (from 0) and index.
    [work_list] is the list [__run_timers] is running. *)
Record tvec_base := Base {
  timer_jiffies : Z;
  next_timer : Z;
  active_timers : Z;
  all_timers : Z;
  vec : gmap (nat * Z) (list positive);
  work_list : list positive;
  running_timer : option positive;
  timers : gmap positive timer_list;
}.

Definition set_timer_jiffies (j : Z) (base : tvec_base) : tvec_base :=
  Base j (next_timer base) (active_timers base) (all_timers base) (vec base) (work_list base)
    (running_timer base) (timers base).

Definition set_counts (next active all : Z) (base : tvec_base) : tvec_base :=
  Base (timer_jiffies base) next active all (vec base) (work_list base) (running_timer base) (timers base).

Definition set_vec (f : gmap (nat * Z) (list positive) -> gmap (nat * Z) (list positive)) (work : list positive)
    (base : tvec_base) : tvec_base :=
  Base (timer_jiffies base) (next_timer base) (active_timers base) (all_timers base) (f (vec base)) work
    (running_timer base) (timers base).

Definition set_running (r : option positive) (base : tvec_base) : tvec_base :=
  Base (timer_jiffies base) (next_timer base) (active_timers base) (all_timers base) (vec base)
    (work_list base) r (timers base).

Definition set_timers (ts : gmap positive timer_list) (base : tvec_base) : tvec_base :=
  Base (timer_jiffies base) (next_timer base) (active_timers base) (all_timers base) (vec base)
    (work_list base) (running_timer base) ts.

Definition bucket (base : tvec_base) (tv : nat) (i : Z) : list positive := default [] (vec base !! (tv, i)).

Definition set_pending (p : bool) (t : timer_list) : timer_list :=
  Timer (t_expires t) (t_deferrable t) (t_slack t) p.
Definition set_expires (e : Z) (t : timer_list) : timer_list :=
  Timer e (t_deferrable t) (t_slack t) (t_pending t).

(** ** Adding *)

(** Returns whether the wheel was empty. *)
Definition catchup_timer_jiffies (jiffies : Z) (base : tvec_base) : bool * tvec_base :=
  if all_timers base =? 0 then (true, set_timer_jiffies jiffies base) else (false, base).

(** The array and the index [__internal_add_timer] chooses. *)
Definition wheel_position (timer_jiffies expires : Z) : nat * Z :=
  let idx := u64 (expires - timer_jiffies) in
  if idx <? TVR_SIZE then (0%nat, Z.land expires TVR_MASK)
  else if idx <? Z.shiftl 1 (TVR_BITS + TVN_BITS) then
    (1%nat, Z.land (Z.shiftr expires TVR_BITS) TVN_MASK)
  else if idx <? Z.shiftl 1 (TVR_BITS + 2 * TVN_BITS) then
    (2%nat, Z.land (Z.shiftr expires (TVR_BITS + TVN_BITS)) TVN_MASK)
  else if idx <? Z.shiftl 1 (TVR_BITS + 3 * TVN_BITS) then
    (3%nat, Z.land (Z.shiftr expires (TVR_BITS + 2 * TVN_BITS)) TVN_MASK)
  else if s64 idx <? 0 then (0%nat, Z.land timer_jiffies TVR_MASK)
  else
    let expires := if idx >? MAX_TVAL then u64 (MAX_TVAL + timer_jiffies) else expires in
    (4%nat, Z.land (Z.shiftr expires (TVR_BITS + 3 * TVN_BITS)) TVN_MASK).

(** [list_add_tail] makes the timer pending. *)
Definition __internal_add_timer (base : tvec_base) (t : positive) (timer : timer_list) : tvec_base :=
  let '(tv, i) := wheel_position (timer_jiffies base) (t_expires timer) in
  set_timers (<[t := set_pending true timer]> (timers base))
    (set_vec <[(tv, i) := bucket base tv i ++ [t]]> (work_list base) base).

Definition internal_add_timer (jiffies : Z) (base : tvec_base) (t : positive) (timer : timer_list) : tvec_base :=
  let '(_, base) := catchup_timer_jiffies jiffies base in
  let base := __internal_add_timer base t timer in
  let base :=
    if t_deferrable timer then base
    else
      let next := if (active_timers base =? 0) || time_before (t_expires timer) (next_timer base)
                  then t_expires timer else next_timer base in
      set_counts next (u64 (active_timers base + 1)) (all_timers base) base in
  set_counts (next_timer base) (active_timers base) (u64 (all_timers base + 1)) base.

(** ** Removing *)

(** [__list_del], from a list of the wheel or from the work list. *)
Definition detach_timer (clear_pending : bool) (base : tvec_base) (t : positive) : tvec_base :=
  let base := set_vec (fmap (filter (fun x => x <> t))) (filter (fun x => x <> t) (work_list base)) base in
  if clear_pending then set_timers (alter (set_pending false) t (timers base)) base else base.

Definition detach_expired_timer (jiffies : Z) (base : tvec_base) (t : positive) (timer : timer_list) : tvec_base :=
  let base := detach_timer true base t in
  let active := if t_deferrable timer then active_timers base else u64 (active_timers base - 1) in
  let base := set_counts (next_timer base) active (u64 (all_timers base - 1)) base in
  (catchup_timer_jiffies jiffies base).2.

Definition detach_if_pending (jiffies : Z) (base : tvec_base) (t : positive) (timer : timer_list)
    (clear_pending : bool) : Z * tvec_base :=
  if negb (t_pending timer) then (0, base)
  else
    let base := detach_timer clear_pending base t in
    let base :=
      if t_deferrable timer then base
      else
        set_counts (if t_expires timer =? next_timer base then timer_jiffies base else next_timer base)
          (u64 (active_timers base - 1)) (all_timers base) base in
    let base := set_counts (next_timer base) (active_timers base) (u64 (all_timers base - 1)) base in
    (1, (catchup_timer_jiffies jiffies base).2).

(** ** The calls *)

(** A timer that has not been set up stops the machine. *)
Definition with_timer {A} (base : tvec_base) (t : positive) (k : timer_list -> outcome A) : outcome A :=
  match timers base !! t with Some timer => k timer | None => Bug end.

(** On the processor the timer is on; [expires] has been stored. *)
Definition __mod_timer (jiffies : Z) (t : positive) (expires : Z) (pending_only : bool) (base : tvec_base)
    : outcome (Z * tvec_base) :=
  with_timer base t (fun timer =>
    let '(ret, base) := detach_if_pending jiffies base t timer false in
    if (ret =? 0) && pending_only then Ok (ret, base)
    else
      let timer := set_expires expires timer in
      Ok (ret, internal_add_timer jiffies (set_timers (<[t := timer]> (timers base)) base) t timer)).

Definition mod_timer_pending (jiffies : Z) (t : positive) (expires : Z) (base : tvec_base)
    : outcome (Z * tvec_base) := __mod_timer jiffies t expires true base.

Definition apply_slack (jiffies : Z) (timer : timer_list) (expires : Z) : Z :=
  let round expires_limit :=
    let mask := Z.lxor expires expires_limit in
    if mask =? 0 then expires
    else
      let bit := Z.log2 mask in
      let mask := Z.shiftl 1 bit - 1 in
      Z.land expires_limit (Z.lnot mask) in
  if t_slack timer >=? 0 then round (u64 (expires + t_slack timer))
  else
    let delta := s64 (expires - jiffies) in
    if delta <? 256 then expires else round (u64 (expires + delta / 256)).

Definition mod_timer (jiffies : Z) (t : positive) (expires : Z) (base : tvec_base) : outcome (Z * tvec_base) :=
  with_timer base t (fun timer =>
    let expires := apply_slack jiffies timer expires in
    if t_pending timer && (t_expires timer =? expires) then Ok (1, base)
    else __mod_timer jiffies t expires false base).

Definition add_timer (jiffies : Z) (t : positive) (base : tvec_base) : outcome tvec_base :=
  with_timer base t (fun timer =>
    bug_on t_pending timer in
    let! (_, base) := mod_timer jiffies t (t_expires timer) base in Ok base).

Definition del_timer (jiffies : Z) (t : positive) (base : tvec_base) : outcome (Z * tvec_base) :=
  with_timer base t (fun timer =>
    if t_pending timer then Ok (detach_if_pending jiffies base t timer true) else Ok (0, base)).

Definition try_to_del_timer_sync (jiffies : Z) (t : positive) (base : tvec_base) : outcome (Z * tvec_base) :=
  with_timer base t (fun timer =>
    if bool_decide (running_timer base = Some t) then Ok (-1, base)
    else Ok (detach_if_pending jiffies base t timer true)).

(** A wheel set up by [init_timers_cpu]. *)
Definition init_timers_cpu (jiffies : Z) (ts : gmap positive timer_list) : tvec_base :=
  Base jiffies jiffies 0 0 ∅ [] None (set_pending false <$> ts).

(** ** Running *)

(** The timers of [l] are distributed again. *)
Fixpoint cascade_loop (l : list positive) (base : tvec_base) : tvec_base :=
  match l with
  | [] => base
  | t :: l =>
      let base := match timers base !! t with
                  | Some timer => __internal_add_timer base t timer
                  | None => base
                  end in
      cascade_loop l base
  end.

Definition cascade (tv : nat) (index : Z) (base : tvec_base) : Z * tvec_base :=
  let l := bucket base tv index in
  (index, cascade_loop l (set_vec (delete (tv, index)) (work_list base) base)).

Definition INDEX (base : tvec_base) (n : Z) : Z :=
  Z.land (Z.shiftr (timer_jiffies base) (TVR_BITS + n * TVN_BITS)) TVN_MASK.

(** The chain of cascades: an array follows when the one before started over. *)
Fixpoint cascade_chain (tvs : list (nat * Z)) (base : tvec_base) : tvec_base :=
  match tvs with
  | [] => base
  | (tv, n) :: tvs =>
      let '(i, base) := cascade tv (INDEX base n) base in
      if i =? 0 then cascade_chain tvs base else base
  end.

(** The calls a handler may make. *)
Inductive timer_call :=
| CallModTimer (t : positive) (expires : Z)
| CallModTimerPending (t : positive) (expires : Z)
| CallDelTimer (t : positive).

Definition do_timer_call (jiffies : Z) (c : timer_call) (base : tvec_base) : outcome tvec_base :=
  match c with
  | CallModTimer t expires => let! (_, base) := mod_timer jiffies t expires base in Ok base
  | CallModTimerPending t expires => let! (_, base) := mod_timer_pending jiffies t expires base in Ok base
  | CallDelTimer t => let! (_, base) := del_timer jiffies t base in Ok base
  end.

Fixpoint do_timer_calls (jiffies : Z) (cs : list timer_call) (base : tvec_base) : outcome tvec_base :=
  match cs with
  | [] => Ok base
  | c :: cs => let! base := do_timer_call jiffies c base in do_timer_calls jiffies cs base
  end.

Section Run.
Context (fn : positive -> list timer_call).

(** The timers of the work list; every round takes one off it. *)
Fixpoint run_work (fuel : nat) (jiffies : Z) (base : tvec_base) (ran : list positive)
    : outcome (tvec_base * list positive) :=
  match work_list base with
  | [] => Ok (base, ran)
  | t :: _ =>
      match fuel with
      | O => NoFuel
      | S fuel =>
          with_timer base t (fun timer =>
            let base := detach_expired_timer jiffies (set_running (Some t) base) t timer in
            let! base := do_timer_calls jiffies (fn t) base in
            run_work fuel jiffies base (ran ++ [t]))
      end
  end.

(** One round of the loop: the tick [timer_jiffies]. *)
Definition run_tick (jiffies : Z) (base : tvec_base) : outcome (tvec_base * list positive) :=
  let index := Z.land (timer_jiffies base) TVR_MASK in
  let base := if index =? 0
              then cascade_chain [(1%nat, 0); (2%nat, 1); (3%nat, 2); (4%nat, 3)] base else base in
  let base := set_timer_jiffies (u64 (timer_jiffies base + 1)) base in
  let head := bucket base 0 index in
  let base := set_vec (delete (0%nat, index)) head base in
  run_work (length head) jiffies base [].

(** The timers run, each with the tick it was run for. *)
Fixpoint run_loop (fuel : nat) (jiffies : Z) (base : tvec_base) (log : list (positive * Z))
    : outcome (tvec_base * list (positive * Z)) :=
  if time_after_eq jiffies (timer_jiffies base) then
    match fuel with
    | O => NoFuel
    | S fuel =>
        let tick := timer_jiffies base in
        let! (base, ran) := run_tick jiffies base in
        run_loop fuel jiffies base (log ++ ((fun t => (t, tick)) <$> ran))
    end
  else Ok (base, log).

Definition __run_timers (fuel : nat) (jiffies : Z) (base : tvec_base)
    : outcome (tvec_base * list (positive * Z)) :=
  let '(empty, base) := catchup_timer_jiffies jiffies base in
  if empty : bool then Ok (base, [])
  else
    let! (base, log) := run_loop fuel jiffies base [] in
    Ok (set_running None base, log).
End Run.

(** ** The next timer *)

(** Timers that may not be deferred, with their expiry. *)
Definition active_expires (base : tvec_base) (l : list positive) : list Z :=
  omap (fun t => match timers base !! t with
                 | Some timer => if t_deferrable timer then None else Some (t_expires timer)
                 | None => None
                 end) l.

(** tv1 from [slot], [n] slots left: the first timer and its slot. *)
Fixpoint next_tv1 (n : nat) (slot : Z) (base : tvec_base) : option (Z * Z) :=
  match n with
  | O => None
  | S n =>
      match active_expires base (bucket base 0 slot) with
      | e :: _ => Some (e, slot)
      | [] => next_tv1 n (Z.land (slot + 1) TVR_MASK) base
      end
  end.

(** One of tv2 to tv5 from [slot]: the earliest expiry of the first slot that
    has timers (of the first slot only when one has been [found] before), and
    the slot at which the loop breaks or returns. *)
Fixpoint next_tvn (n : nat) (tv : nat) (slot : Z) (found : bool) (expires : Z) (base : tvec_base)
    : bool * Z * option Z :=
  match n with
  | O => (found, expires, None)
  | S n =>
      let es := active_expires base (bucket base tv slot) in
      let expires := foldl (fun m e => if time_before e m then e else m) expires es in
      let found := found || negb (match es with [] => true | _ => false end) in
      if found then (found, expires, Some slot)
      else next_tvn n tv (Z.land (slot + 1) TVN_MASK) found expires base
  end.

Fixpoint next_arrays (tvs : list nat) (timer_jiffies : Z) (found : bool) (expires : Z) (base : tvec_base) : Z :=
  match tvs with
  | [] => expires
  | tv :: tvs =>
      let index := Z.land timer_jiffies TVN_MASK in
      let '(found, expires, stop) := next_tvn (Z.to_nat TVN_SIZE) tv index found expires base in
      if (match stop with Some slot => negb ((index =? 0) || (slot <? index)) | None => false end) then expires
      else
        let timer_jiffies := if index =? 0 then timer_jiffies else u64 (timer_jiffies + (TVN_SIZE - index)) in
        next_arrays tvs (Z.shiftr timer_jiffies TVN_BITS) found expires base
  end.

Definition __next_timer_interrupt (base : tvec_base) : Z :=
  let timer_jiffies := timer_jiffies base in
  let expires := u64 (timer_jiffies + NEXT_TIMER_MAX_DELTA) in
  let index := Z.land timer_jiffies TVR_MASK in
  let first := next_tv1 (Z.to_nat TVR_SIZE) index base in
  match first with
  | Some (e, slot) =>
      if (index =? 0) || (slot <? index) then
        let timer_jiffies := if index =? 0 then timer_jiffies else u64 (timer_jiffies + (TVR_SIZE - index)) in
        next_arrays [1; 2; 3; 4]%nat (Z.shiftr timer_jiffies TVR_BITS) true e base
      else e
  | None =>
      let timer_jiffies := if index =? 0 then timer_jiffies else u64 (timer_jiffies + (TVR_SIZE - index)) in
      next_arrays [1; 2; 3; 4]%nat (Z.shiftr timer_jiffies TVR_BITS) false expires base
  end.
