(* ===== verification/TimerOps.v ===== *)
(** * The timer wheel: where timers wait, and the calls

    Each queued timer has a tick at which it is due.  The facts below relate
    the list it waits on to that tick, and show what adding, moving, removing
    and cascading timers does to it. *)

From stdpp Require Import gmap list.
From S2P Require Import Prelude TimerWheel.

(** ** Ticks and slots *)

(** Ticks are counted without bound; the machine sees them modulo [2 ^ 64]. *)
Definition tick_of (J expires : Z) : Z :=
  let idx := u64 (expires - J) in if idx <? 2 ^ 63 then J + idx else J.

Definition tv_shift (tv : nat) : Z := 8 + 6 * (Z.of_nat tv - 1).

(** The timer due at [D] waits in array [tv] at index [i]: in tv1 for its own
    tick, in the others for a tick [S] not behind [D] at which its list is
    cascaded. *)
Definition placed (J D : Z) (tv : nat) (i : Z) : Prop :=
  match tv with
  | O => J <= D < J + 256 /\ i = D mod 256
  | _ => exists S, (2 ^ tv_shift tv | S) /\ J <= S < J + 2 ^ (tv_shift tv + 6) /\ S <= D
           /\ i = (S / 2 ^ tv_shift tv) mod 64
  end.

Lemma u64_mod x : u64 x = x mod 2 ^ 64.
Proof. reflexivity. Qed.

Lemma land_mask x : Z.land x TVN_MASK = x mod 64.
Proof. change TVN_MASK with (Z.ones 6). by rewrite Z.land_ones. Qed.

Lemma land_root x : Z.land x TVR_MASK = x mod 256.
Proof. change TVR_MASK with (Z.ones 8). by rewrite Z.land_ones. Qed.

Lemma u64_mod_256 x : u64 x mod 256 = x mod 256.
Proof. rewrite u64_mod. change 256 with (2 ^ 8). rewrite <- !Z.land_ones by lia. rewrite <- Z.land_assoc. done. Qed.

Lemma div_mod_pow2 x s : 0 <= s <= 58 -> (x mod 2 ^ 64) / 2 ^ s mod 64 = x / 2 ^ s mod 64.
Proof.
  intros Hs. change 64 with (2 ^ 6). apply Z.bits_inj'. intros i Hi. destruct (decide (i < 6)) as [Hlt|Hge].
  - rewrite !Z.mod_pow2_bits_low, !Z.div_pow2_bits, Z.mod_pow2_bits_low by lia. done.
  - rewrite !Z.mod_pow2_bits_high by lia. done.
Qed.

Lemma slot_u64 x s : 0 <= s <= 58 -> Z.land (Z.shiftr (u64 x) s) TVN_MASK = x / 2 ^ s mod 64.
Proof. intros Hs. rewrite land_mask, Z.shiftr_div_pow2, u64_mod by lia. by apply div_mod_pow2. Qed.

Lemma u64_add_sub J x : u64 (J + u64 (x - J)) = u64 x.
Proof. rewrite !u64_mod. rewrite Zplus_mod_idemp_r. f_equal. lia. Qed.

Lemma u64_small x : 0 <= x < 2 ^ 64 -> u64 x = x.
Proof. intros Hx. rewrite u64_mod. by apply Z.mod_small. Qed.

Lemma u64_bounds x : 0 <= u64 x < 2 ^ 64.
Proof. rewrite u64_mod. apply Z.mod_pos_bound. lia. Qed.

Lemma s64_negative x : 0 <= x < 2 ^ 64 -> (s64 x <? 0) = (2 ^ 63 <=? x).
Proof.
  intros Hx. unfold s64. change 18446744073709551616 with (2 * 9223372036854775808).
  change (2 ^ 63) with 9223372036854775808 in *. change (2 ^ 64) with (2 * 9223372036854775808) in Hx.
  destruct (9223372036854775808 <=? x) eqn:He; zbool.
  - replace ((x + 9223372036854775808) mod (2 * 9223372036854775808)) with (x - 9223372036854775808); [lia|].
    apply Z.mod_unique_pos with 1; lia.
  - rewrite Z.mod_small by lia. lia.
Qed.

Lemma slots_apart q k : k + 1 <= q < k + 64 -> q mod 64 <> k mod 64.
Proof. intros Hq. Z.to_euclidean_division_equations. lia. Qed.

(** A position between one and sixty-four slots ahead. *)
Lemma placed_ahead tv J E D :
  (0 < tv)%nat -> J + 2 ^ tv_shift tv <= E < J + 2 ^ (tv_shift tv + 6) -> E <= D ->
  placed J D tv (E / 2 ^ tv_shift tv mod 64)
  /\ ((2 ^ tv_shift tv | J) -> E / 2 ^ tv_shift tv mod 64 <> J / 2 ^ tv_shift tv mod 64).
Proof.
  intros Htv HE HD. assert (0 < 2 ^ tv_shift tv) as Hpos by (apply Z.pow_pos_nonneg; unfold tv_shift; lia).
  pose proof (Z.div_mod E (2 ^ tv_shift tv) ltac:(lia)) as Hdm.
  pose proof (Z.mod_pos_bound E (2 ^ tv_shift tv) Hpos) as Hm.
  destruct tv as [|tv]; [lia|]. set (p := 2 ^ tv_shift (S tv)) in *.
  assert (2 ^ (tv_shift (S tv) + 6) = 64 * p) as Hp6 by (rewrite Z.pow_add_r by (unfold tv_shift; lia); lia).
  split; [|intros [k ->]; rewrite Z.div_mul by lia; apply slots_apart; split;
      [apply Z.div_le_lower_bound; lia|apply Z.div_lt_upper_bound; lia]].
  exists (p * (E / p)).
  split; [apply Z.divide_factor_l|]. split; [lia|]. split; [lia|].
  rewrite (Z.mul_comm p), Z.div_mul by lia. done.
Qed.

Lemma and_weaken (A B X : Prop) : A /\ B -> A /\ (X -> B).
Proof. tauto. Qed.

Lemma wheel_position_ok J expires tv i :
  0 <= expires < 2 ^ 64 -> wheel_position (u64 J) expires = (tv, i) ->
  (tv <= 4)%nat /\ placed J (tick_of J expires) tv i
  /\ (tv <> 0%nat -> (2 ^ tv_shift tv | J) -> i <> J / 2 ^ tv_shift tv mod 64).
Proof.
  intros He. unfold wheel_position. cbn zeta.
  assert (u64 (expires - u64 J) = u64 (expires - J)) as Hidx by (rewrite !u64_mod; apply Zminus_mod_idemp_r).
  rewrite Hidx. set (idx := u64 (expires - J)). pose proof (u64_bounds (expires - J)) as Hr. fold idx in Hr.
  assert (u64 (J + idx) = expires) as Hback by (unfold idx; rewrite u64_add_sub; by apply u64_small).
  assert (forall s, 0 <= s <= 58 -> Z.land (Z.shiftr expires s) TVN_MASK = (J + idx) / 2 ^ s mod 64) as Hslot
    by (intros s Hs; rewrite <- Hback at 1; by apply slot_u64).
  unfold tick_of. fold idx.
  destruct (idx <? TVR_SIZE) eqn:H0.
  { change TVR_SIZE with 256 in H0. zbool. rewrite (proj2 (Z.ltb_lt idx (2 ^ 63))) by lia. intros [= <- <-].
    split; [lia|]. split; [|done]. split; [lia|]. rewrite land_root, <- Hback. apply u64_mod_256. }
  destruct (idx <? Z.shiftl 1 (TVR_BITS + TVN_BITS)) eqn:H1.
  { change TVR_SIZE with 256 in H0. change (Z.shiftl 1 _) with (2 ^ 14) in H1. zbool.
    rewrite (proj2 (Z.ltb_lt idx (2 ^ 63))) by lia. intros [= <- <-]. split; [lia|]. apply and_weaken.
    rewrite Hslot by (unfold TVR_BITS; lia). apply (placed_ahead 1); [lia|unfold tv_shift; cbn; lia|lia]. }
  destruct (idx <? Z.shiftl 1 (TVR_BITS + 2 * TVN_BITS)) eqn:H2.
  { change (Z.shiftl 1 (TVR_BITS + TVN_BITS)) with (2 ^ 14) in H1. change (Z.shiftl 1 _) with (2 ^ 20) in H2. zbool.
    rewrite (proj2 (Z.ltb_lt idx (2 ^ 63))) by lia. intros [= <- <-]. split; [lia|]. apply and_weaken.
    rewrite Hslot by (unfold TVR_BITS, TVN_BITS; lia). apply (placed_ahead 2); [lia|unfold tv_shift; cbn; lia|lia]. }
  destruct (idx <? Z.shiftl 1 (TVR_BITS + 3 * TVN_BITS)) eqn:H3.
  { change (Z.shiftl 1 (TVR_BITS + 2 * TVN_BITS)) with (2 ^ 20) in H2. change (Z.shiftl 1 _) with (2 ^ 26) in H3. zbool.
    rewrite (proj2 (Z.ltb_lt idx (2 ^ 63))) by lia. intros [= <- <-]. split; [lia|]. apply and_weaken.
    rewrite Hslot by (unfold TVR_BITS, TVN_BITS; lia). apply (placed_ahead 3); [lia|unfold tv_shift; cbn; lia|lia]. }
  change (Z.shiftl 1 (TVR_BITS + 3 * TVN_BITS)) with (2 ^ 26) in H3. rewrite s64_negative by done.
  destruct (2 ^ 63 <=? idx) eqn:H4; zbool.
  { rewrite (proj2 (Z.ltb_ge idx (2 ^ 63))) by lia. intros [= <- <-]. split; [lia|]. split; [|done].
    split; [lia|]. rewrite land_root. apply u64_mod_256. }
  rewrite (proj2 (Z.ltb_lt idx (2 ^ 63))) by lia. intros [= <- <-]. split; [lia|]. apply and_weaken.
  destruct (idx >? MAX_TVAL) eqn:H5; change MAX_TVAL with (2 ^ 32 - 1) in *; zbool.
  - assert (u64 (2 ^ 32 - 1 + u64 J) = u64 (J + (2 ^ 32 - 1))) as ->.
    { rewrite !u64_mod, Zplus_mod_idemp_r. f_equal. lia. }
    rewrite slot_u64 by (unfold TVR_BITS, TVN_BITS; lia). apply (placed_ahead 4); [lia|unfold tv_shift; cbn; lia|lia].
  - rewrite Hslot by (unfold TVR_BITS, TVN_BITS; lia). apply (placed_ahead 4); [lia|unfold tv_shift; cbn; lia|lia].
Qed.

Lemma tick_of_due J D : J <= D < J + 2 ^ 63 -> tick_of J (u64 D) = D.
Proof.
  intros HD. unfold tick_of. assert (u64 (u64 D - J) = D - J) as ->.
  { rewrite !u64_mod, Zminus_mod_idemp_l. apply Z.mod_small. lia. }
  rewrite (proj2 (Z.ltb_lt _ _)) by lia. lia.
Qed.

Lemma tick_of_ge J e : J <= tick_of J e < J + 2 ^ 63.
Proof.
  unfold tick_of. pose proof (u64_bounds (e - J)). destruct (_ <? _) eqn:He; zbool; lia.
Qed.

(** A timer not due at this tick is due when it was. *)
Lemma tick_of_next J e : tick_of J e <> J -> tick_of (J + 1) e = tick_of J e.
Proof.
  unfold tick_of. pose proof (u64_bounds (e - J)) as Hr.
  destruct (u64 (e - J) <? 2 ^ 63) eqn:He; intros Hne; zbool; [|done].
  assert (u64 (e - (J + 1)) = u64 (e - J) - 1) as ->; [|rewrite (proj2 (Z.ltb_lt _ _)); lia].
  replace (e - (J + 1)) with (e - J - 1) by lia. rewrite (u64_mod (_ - 1)), <- Zminus_mod_idemp_l.
  change ((e - J) mod 2 ^ 64) with (u64 (e - J)). apply Z.mod_small. lia.
Qed.

(** ** The wheel *)

(** The timers of [float] are queued but on no list. *)
Record wheel_inv (J : Z) (due : gmap positive Z) (float : list positive) (base : tvec_base) : Prop := {
  wi_jiffies : timer_jiffies base = u64 J;
  wi_placed : forall t tv i, t ∈ bucket base tv i -> exists D timer,
    due !! t = Some D /\ timers base !! t = Some timer /\ (tv <= 4)%nat /\ placed J D tv i
    /\ D = tick_of J (t_expires timer);
  wi_float : forall t, t ∈ float -> exists timer D,
    due !! t = Some D /\ timers base !! t = Some timer /\ D = tick_of J (t_expires timer);
  wi_work : forall t, t ∈ work_list base -> exists timer,
    due !! t = Some (J - 1) /\ timers base !! t = Some timer /\ tick_of (J - 1) (t_expires timer) = J - 1;
  wi_queued : forall t, is_Some (due !! t) -> t ∈ float \/ t ∈ work_list base \/ exists tv i, t ∈ bucket base tv i;
  wi_once : forall t tv i tv' i', t ∈ bucket base tv i -> t ∈ bucket base tv' i' -> tv = tv' /\ i = i';
  wi_nodup : forall tv i, NoDup (bucket base tv i);
  wi_work_nodup : NoDup (work_list base);
  wi_work_only : forall t tv i, t ∈ work_list base -> t ∉ bucket base tv i;
  wi_float_nodup : NoDup float;
  wi_float_only : forall t, t ∈ float -> (t ∉ work_list base) /\ forall tv i, t ∉ bucket base tv i;
  wi_pending : forall t timer, timers base !! t = Some timer -> t_pending timer = true <-> is_Some (due !! t);
  wi_dom : forall t, is_Some (due !! t) -> is_Some (timers base !! t);
  wi_expires : forall t timer, timers base !! t = Some timer -> 0 <= t_expires timer < 2 ^ 64;
  wi_slack : forall t timer, timers base !! t = Some timer -> - 2 ^ 31 <= t_slack timer < 2 ^ 31;
  wi_count : all_timers base = Z.of_nat (size due);
  wi_size : Z.of_nat (size (timers base)) < 2 ^ 64;
}.

Definition wheel_ok J due base : Prop := wheel_inv J due [] base.

Lemma bucket_insert tv i l work base tv' i' :
  bucket (set_vec <[(tv, i) := l]> work base) tv' i' = if decide ((tv', i') = (tv, i)) then l else bucket base tv' i'.
Proof. unfold bucket. cbn. case_decide as Hd; [by rewrite Hd, lookup_insert_eq|by rewrite lookup_insert_ne]. Qed.

Lemma bucket_delete tv i work base tv' i' :
  bucket (set_vec (delete (tv, i)) work base) tv' i' = if decide ((tv', i') = (tv, i)) then [] else bucket base tv' i'.
Proof. unfold bucket. cbn. case_decide as Hd; [by rewrite Hd, lookup_delete_eq|by rewrite lookup_delete_ne]. Qed.

Lemma bucket_filter t work base tv i :
  bucket (set_vec (fmap (filter (fun x => x <> t))) work base) tv i = filter (fun x => x <> t) (bucket base tv i).
Proof. unfold bucket. cbn. rewrite lookup_fmap. by destruct (vec base !! (tv, i)). Qed.

(** [__internal_add_timer] puts a floating timer on its list. *)
Lemma add_inv J due t float base timer :
  wheel_inv J due (t :: float) base -> timers base !! t = Some timer ->
  wheel_inv J due float (__internal_add_timer base t timer).
Proof.
  intros Hw Ht. unfold __internal_add_timer. rewrite (wi_jiffies _ _ _ _ Hw).
  destruct (wheel_position (u64 J) (t_expires timer)) as [tv i] eqn:Hp.
  destruct (wi_float _ _ _ _ Hw t) as (timer' & D & HD & Ht' & HDt); [by left|].
  rewrite Ht in Ht'. injection Ht' as <-.
  destruct (wheel_position_ok J _ _ _ (wi_expires _ _ _ _ Hw _ _ Ht) Hp) as (Htv & Hpl & _). rewrite <- HDt in Hpl.
  assert (t_pending timer = true) as Hpend by (apply (wi_pending _ _ _ _ Hw _ _ Ht); by rewrite HD).
  assert (<[t := set_pending true timer]> (timers base) = timers base) as Hsame.
  { apply insert_id. rewrite Ht. f_equal. destruct timer. cbn in *. unfold set_pending. cbn. by rewrite Hpend. }
  set (base' := set_timers _ _).
  assert (timers base' = timers base) as HT by exact Hsame.
  assert (forall tv' i', bucket base' tv' i' = if decide ((tv', i') = (tv, i)) then bucket base tv i ++ [t] else bucket base tv' i') as HB
    by (intros; apply bucket_insert).
  assert (forall x tv' i', x ∈ bucket base' tv' i' <-> x ∈ bucket base tv' i' \/ (x = t /\ tv' = tv /\ i' = i)) as HE.
  { intros x tv' i'. rewrite HB. case_decide as Hd; [injection Hd as -> ->; rewrite elem_of_app, list_elem_of_singleton; naive_solver|naive_solver]. }
  destruct (wi_float_only _ _ _ _ Hw t) as [Hnw Hnb]; [by left|].
  pose proof (wi_float_nodup _ _ _ _ Hw) as Hfn. apply NoDup_cons in Hfn as [Htf Hfn].
  split; try apply Hw; try done; rewrite ?HT.
  - intros x tv' i' [Hx|(-> & -> & ->)]%HE; [by apply Hw|]. by exists D, timer.
  - intros x Hx. apply Hw. by right.
  - exact (wi_work _ _ _ _ Hw).
  - intros x Hx. destruct (wi_queued _ _ _ _ Hw x Hx) as [[->|Hf]%elem_of_cons|[Hk|(tv' & i' & Hb)]]; [|by left|by right; left|].
    + right. right. exists tv, i. apply HE. by right.
    + right. right. exists tv', i'. apply HE. by left.
  - intros x tv1 i1 tv2 i2 [H1|(-> & -> & ->)]%HE [H2|(E1 & E2 & E3)]%HE; subst; try done; [by eapply wi_once|exfalso..];
      [by apply (Hnb tv1 i1)|by apply (Hnb tv2 i2)].
  - intros tv' i'. rewrite HB. case_decide; [|apply Hw]. apply NoDup_app. split; [apply Hw|].
    split; [|apply NoDup_singleton]. intros x Hx ->%list_elem_of_singleton. by apply (Hnb tv i).
  - intros x tv' i' Hx [Hb|(-> & _)]%HE; [by apply (wi_work_only _ _ _ _ Hw x tv' i')|done].
  - intros x Hx. destruct (wi_float_only _ _ _ _ Hw x) as [H1 H2]; [by right|]. split; [done|].
    intros tv' i' [Hb|(-> & _)]%HE; [by apply (H2 tv' i')|done].
  - exact (wi_pending _ _ _ _ Hw).
  - exact (wi_dom _ _ _ _ Hw).
  - exact (wi_expires _ _ _ _ Hw).
  - exact (wi_slack _ _ _ _ Hw).
  - exact (wi_size _ _ _ _ Hw).
Qed.

(** * The calls *)

(** ** Catching up *)

(** The tick of a wheel that may have been caught up at [N]. *)
Definition caught_up (N J : Z) (due : gmap positive Z) : Z := if decide (due = ∅) then N else J.

Lemma all_timers_zero J due float base :
  wheel_inv J due float base -> (all_timers base =? 0) = bool_decide (due = ∅).
Proof.
  intros Hw. rewrite (wi_count _ _ _ _ Hw). apply eq_true_iff_eq.
  rewrite Z.eqb_eq, bool_decide_eq_true. rewrite <- map_size_empty_iff. lia.
Qed.

Lemma wheel_empty J base t tv i : wheel_ok J ∅ base -> (t ∉ bucket base tv i) /\ (t ∉ work_list base).
Proof.
  intros Hw. split; intros Ht.
  - destruct (wi_placed _ _ _ _ Hw _ _ _ Ht) as (D & ? & [=] & _).
  - by destruct (wi_work _ _ _ _ Hw _ Ht) as (? & ? & _).
Qed.

Lemma catchup_ok N J due base :
  wheel_ok J due base -> wheel_ok (caught_up N J due) due (catchup_timer_jiffies (u64 N) base).2.
Proof.
  intros Hw. unfold catchup_timer_jiffies, caught_up. rewrite (all_timers_zero J due [] base Hw).
  destruct (decide (due = ∅)) as [->|Hne]; [|by rewrite bool_decide_eq_false_2].
  rewrite bool_decide_eq_true_2 by done. cbn. pose proof (fun t tv i => wheel_empty J base t tv i Hw) as He.
  split; try apply Hw; try done.
  - intros t tv i Ht. by destruct (He t tv i).
  - intros t []%elem_of_nil.
  - intros t Ht. by destruct (He t 0%nat 0).
Qed.

Lemma catchup_same jiffies base :
  let base' := (catchup_timer_jiffies jiffies base).2 in
  timers base' = timers base /\ work_list base' = work_list base /\ all_timers base' = all_timers base
  /\ vec base' = vec base.
Proof. unfold catchup_timer_jiffies. by case_if. Qed.

(** ** Adding *)

Definition timer_fits (timer : timer_list) : Prop :=
  0 <= t_expires timer < 2 ^ 64 /\ - 2 ^ 31 <= t_slack timer < 2 ^ 31.

Lemma due_size J due base t :
  wheel_ok J due base -> due !! t = None -> is_Some (timers base !! t) -> Z.of_nat (size due) + 1 < 2 ^ 64.
Proof.
  intros Hw Hn Ht. pose proof (wi_size _ _ _ _ Hw) as Hs.
  assert (size (dom (<[t := 0%Z]> due)) <= size (dom (timers base)))%nat as Hle.
  { apply subseteq_size. intros x. rewrite !elem_of_dom. intros Hx. destruct (decide (x = t)) as [->|Hne]; [done|].
    rewrite lookup_insert_ne in Hx by done. by eapply wi_dom. }
  rewrite !size_dom, map_size_insert_None in Hle by done. lia.
Qed.

Definition arm (next active : Z) (t : positive) (timer : timer_list) (base : tvec_base) : tvec_base :=
  set_counts next active (u64 (all_timers base + 1)) (set_timers (<[t := set_pending true timer]> (timers base)) base).

(** A timer that is taken up waits to be put on a list. *)
Lemma arm_inv J due base t timer next active :
  wheel_ok J due base -> due !! t = None -> is_Some (timers base !! t) -> timer_fits timer ->
  wheel_inv J (<[t := tick_of J (t_expires timer)]> due) [t] (arm next active t timer base).
Proof.
  intros Hw Hn Ht [He Hs]. pose proof (due_size J due base t Hw Hn Ht) as Hsz.
  assert (forall tv i, bucket (arm next active t timer base) tv i = bucket base tv i) as HB by done.
  assert (forall tv i, t ∉ bucket base tv i) as Hnb.
  { intros tv i Hb. destruct (wi_placed _ _ _ _ Hw _ _ _ Hb) as (D & ? & HD & _). congruence. }
  assert (t ∉ work_list base) as Hnw by (intros (? & ? & _)%(wi_work _ _ _ _ Hw); congruence).
  split; try apply Hw; try done; try setoid_rewrite HB; cbn.
  - intros x tv i Hx. destruct (wi_placed _ _ _ _ Hw _ _ _ Hx) as (D & tm & HD & Htm & Hr).
    exists D, tm. rewrite !lookup_insert_ne by (intros ->; by apply (Hnb tv i)). done.
  - intros x ->%list_elem_of_singleton. exists (set_pending true timer), (tick_of J (t_expires timer)).
    by rewrite !lookup_insert_eq.
  - intros x Hx. rewrite !lookup_insert_ne by (intros ->; done). by apply (wi_work _ _ _ _ Hw).
  - intros x Hx. destruct (decide (x = t)) as [->|Hne]; [left; by apply list_elem_of_singleton|].
    rewrite lookup_insert_ne in Hx by done. right. destruct (wi_queued _ _ _ _ Hw x Hx) as [[]%elem_of_nil|Hq]. done.
  - apply NoDup_singleton.
  - intros x ->%list_elem_of_singleton. done.
  - intros x tm. destruct (decide (x = t)) as [->|Hne].
    + rewrite !lookup_insert_eq. intros [= <-]. cbn. by split.
    + rewrite !lookup_insert_ne by done. apply Hw.
  - intros x. destruct (decide (x = t)) as [->|Hne]; [rewrite !lookup_insert_eq; done|].
    rewrite !lookup_insert_ne by done. apply Hw.
  - intros x tm. destruct (decide (x = t)) as [->|Hne].
    + rewrite !lookup_insert_eq. by intros [= <-].
    + rewrite !lookup_insert_ne by done. apply Hw.
  - intros x tm. destruct (decide (x = t)) as [->|Hne].
    + rewrite !lookup_insert_eq. by intros [= <-].
    + rewrite !lookup_insert_ne by done. apply Hw.
  - rewrite map_size_insert_None, u64_small, (wi_count _ _ _ _ Hw) by (rewrite ?(wi_count _ _ _ _ Hw); done || lia). lia.
  - rewrite map_size_insert_Some by done. apply Hw.
Qed.

Lemma internal_add_eq jiffies base t timer timer' :
  exists next active,
    internal_add_timer jiffies (set_timers (<[t := timer']> (timers base)) base) t timer
    = __internal_add_timer (arm next active t timer (catchup_timer_jiffies jiffies base).2) t (set_pending true timer).
Proof.
  unfold internal_add_timer, catchup_timer_jiffies, arm, __internal_add_timer. cbn [all_timers set_timers].
  destruct base as [tj nt ac al v w r ts]. cbn -[wheel_position].
  destruct (al =? 0), (t_deferrable timer); cbn -[wheel_position];
    destruct (wheel_position _ _) as [tv i]; cbn; do 2 eexists; unfold set_counts, set_timers; cbn;
    rewrite !insert_insert_eq; reflexivity.
Qed.

Lemma internal_add_ok N J due base t timer timer' :
  wheel_ok J due base -> due !! t = None -> is_Some (timers base !! t) -> timer_fits timer ->
  let J' := caught_up N J due in
  wheel_ok J' (<[t := tick_of J' (t_expires timer)]> due)
    (internal_add_timer (u64 N) (set_timers (<[t := timer']> (timers base)) base) t timer).
Proof.
  intros Hw Hn Ht He J'. destruct (internal_add_eq (u64 N) base t timer timer') as (next & active & ->).
  destruct (catchup_same (u64 N) base) as (HT & _). apply add_inv.
  - apply arm_inv; [by apply catchup_ok|done|by rewrite HT|done].
  - cbn. by rewrite lookup_insert_eq.
Qed.

(** ** Removing *)

Lemma filter_ne_elem (t x : positive) (l : list positive) : x ∈ filter (fun y => y <> t) l <-> x <> t /\ x ∈ l.
Proof. by rewrite list_elem_of_filter. Qed.

Definition disarm (next active : Z) (t : positive) (base : tvec_base) : tvec_base :=
  set_counts next active (u64 (all_timers base - 1)) (detach_timer true base t).

Lemma disarm_ok J due base t D next active :
  wheel_ok J due base -> due !! t = Some D -> wheel_ok J (delete t due) (disarm next active t base).
Proof.
  intros Hw HD. set (base' := disarm next active t base).
  assert (forall x tv i, x ∈ bucket base' tv i <-> x <> t /\ x ∈ bucket base tv i) as HE.
  { intros x tv i. rewrite <- filter_ne_elem, <- (bucket_filter t (filter (fun x => x <> t) (work_list base)) base). done. }
  assert (forall x, x ∈ work_list base' <-> x <> t /\ x ∈ work_list base) as HW by (intros; apply filter_ne_elem).
  assert (forall x, x <> t -> timers base' !! x = timers base !! x) as HT
    by (intros x Hx; cbn; by rewrite lookup_alter_ne).
  assert (forall timer, timers base' !! t = Some timer -> t_pending timer = false /\ timer_fits timer) as Ht.
  { intros timer. cbn. rewrite lookup_alter_eq. destruct (timers base !! t) as [tm|] eqn:Htm; [|done].
    intros [= <-]. cbn. split; [done|]. split; cbn; [by apply (wi_expires _ _ _ _ Hw t)|by apply (wi_slack _ _ _ _ Hw t)]. }
  split; try apply Hw; try done.
  - intros x tv i [Hx Hb]%HE. rewrite HT, lookup_delete_ne by done. by apply Hw.
  - intros x []%elem_of_nil.
  - intros x [Hx Hb]%HW. rewrite HT, lookup_delete_ne by done. by apply Hw.
  - intros x Hx. destruct (decide (x = t)) as [->|Hne]; [rewrite lookup_delete_eq in Hx; by destruct Hx|].
    rewrite lookup_delete_ne in Hx by done.
    destruct (wi_queued _ _ _ _ Hw x Hx) as [[]%elem_of_nil|[Hk|(tv & i & Hb)]]; right; [left; by apply HW|].
    right. exists tv, i. by apply HE.
  - intros x tv i tv' i' [_ H1]%HE [_ H2]%HE. by eapply wi_once.
  - intros tv i. change (NoDup (bucket (set_vec (fmap (filter (fun x => x <> t))) [] base) tv i)).
    rewrite bucket_filter. apply NoDup_filter, Hw.
  - apply NoDup_filter, Hw.
  - intros x tv i [_ H1]%HW [_ H2]%HE. by apply (wi_work_only _ _ _ _ Hw x tv i).
  - intros x []%elem_of_nil.
  - intros x timer Hx. destruct (decide (x = t)) as [->|Hne].
    + destruct (Ht _ Hx) as [-> _]. rewrite lookup_delete_eq. split; [done|by intros []].
    + rewrite HT in Hx by done. rewrite lookup_delete_ne by done. by apply Hw.
  - intros x Hx. destruct (decide (x = t)) as [->|Hne]; [rewrite lookup_delete_eq in Hx; by destruct Hx|].
    rewrite lookup_delete_ne in Hx by done. rewrite HT by done. by apply (wi_dom _ _ _ _ Hw).
  - intros x timer Hx. destruct (decide (x = t)) as [->|Hne]; [by apply Ht|]. rewrite HT in Hx by done. by eapply wi_expires.
  - intros x timer Hx. destruct (decide (x = t)) as [->|Hne]; [by apply Ht|]. rewrite HT in Hx by done. by eapply wi_slack.
  - assert (size due <> 0)%nat as Hs by (intros E%map_size_empty_inv; subst; done).
    assert (Z.of_nat (size due) < 2 ^ 64) as Hlt.
    { pose proof (wi_size _ _ _ _ Hw). assert (size (dom due) <= size (dom (timers base)))%nat as Hle.
      { apply subseteq_size. intros x. rewrite !elem_of_dom. apply Hw. }
      rewrite !size_dom in Hle. lia. }
    cbn. rewrite map_size_delete_Some, (wi_count _ _ _ _ Hw) by done. rewrite u64_small by lia. lia.
  - cbn. rewrite <- size_dom, dom_alter_L, size_dom. apply Hw.
Qed.

Lemma detach_expired_ok N J due base t timer D :
  wheel_ok J due base -> due !! t = Some D ->
  wheel_ok (caught_up N J (delete t due)) (delete t due) (detach_expired_timer (u64 N) base t timer).
Proof. intros Hw HD. apply catchup_ok, (disarm_ok J due base t D); done. Qed.

Lemma detach_if_pending_ok N J due base t timer :
  wheel_ok J due base -> timers base !! t = Some timer ->
  exists ret base', detach_if_pending (u64 N) base t timer true = (ret, base')
    /\ wheel_ok (if decide (is_Some (due !! t)) then caught_up N J (delete t due) else J) (delete t due) base'
    /\ (ret = 0 <-> due !! t = None).
Proof.
  intros Hw Ht. unfold detach_if_pending. pose proof (wi_pending _ _ _ _ Hw _ _ Ht) as Hp.
  destruct (t_pending timer); cbn [negb].
  - destruct (proj1 Hp eq_refl) as [D HD]. rewrite decide_True by (by rewrite HD).
    do 2 eexists. split; [reflexivity|]. split; [|rewrite HD; by split].
    apply catchup_ok. destruct (t_deferrable timer); by apply (disarm_ok J due base t D).
  - assert (due !! t = None) as HD.
    { destruct (due !! t) eqn:E; [|done]. enough (false = true) by done. apply Hp. by eexists. }
    rewrite decide_False by (rewrite HD; by intros []). rewrite delete_id by done.
    do 2 eexists. split; [reflexivity|]. done.
Qed.

(** ** Slack *)

Definition slack_round (expires expires_limit : Z) : Z :=
  let mask := Z.lxor expires expires_limit in
  if mask =? 0 then expires
  else Z.land expires_limit (Z.lnot (Z.shiftl 1 (Z.log2 mask) - 1)).

Lemma clear_low x b : 0 <= b -> Z.land x (Z.lnot (Z.shiftl 1 b - 1)) = (x / 2 ^ b) * 2 ^ b.
Proof.
  intros Hb. rewrite Z.shiftl_1_l, Z.sub_1_r, <- Z.ones_equiv, <- Z.ldiff_land, Z.ldiff_ones_r by lia.
  by rewrite Z.shiftl_mul_pow2, Z.shiftr_div_pow2.
Qed.

Lemma top_bit_differs x y :
  0 <= x -> 0 <= y -> Z.lxor x y <> 0 -> x / 2 ^ Z.log2 (Z.lxor x y) <> y / 2 ^ Z.log2 (Z.lxor x y).
Proof.
  intros Hx Hy Hne Heq. set (b := Z.log2 (Z.lxor x y)) in *.
  assert (0 < Z.lxor x y) as Hpos by (pose proof (proj2 (Z.lxor_nonneg x y)); lia).
  pose proof (Z.bit_log2 _ Hpos) as Hbit. fold b in Hbit. rewrite Z.lxor_spec in Hbit.
  assert (Z.testbit (x / 2 ^ b) 0 = Z.testbit (y / 2 ^ b) 0) as Hbb by (by rewrite Heq).
  rewrite !Z.div_pow2_bits in Hbb by (try apply Z.log2_nonneg; lia). rewrite Z.add_0_l in Hbb. rewrite Hbb in Hbit.
  by rewrite xorb_nilpotent in Hbit.
Qed.

Lemma slack_round_between e l : 0 <= e <= l -> e <= slack_round e l <= l.
Proof.
  intros Hel. unfold slack_round. cbn zeta. destruct (Z.lxor e l =? 0) eqn:Hm; zbool; [lia|].
  pose proof (Z.log2_nonneg (Z.lxor e l)) as Hb. rewrite clear_low by done.
  pose proof (top_bit_differs e l ltac:(lia) ltac:(lia) Hm) as Hd. set (b := Z.log2 _) in *.
  assert (0 < 2 ^ b) as Hp by (by apply Z.pow_pos_nonneg).
  pose proof (Z.div_le_mono e l (2 ^ b) Hp ltac:(lia)).
  pose proof (Z.div_mod e (2 ^ b) ltac:(lia)). pose proof (Z.mod_pos_bound e (2 ^ b) Hp).
  pose proof (Z.div_mod l (2 ^ b) ltac:(lia)). pose proof (Z.mod_pos_bound l (2 ^ b) Hp). nia.
Qed.

(** The limit has passed the end of the range. *)
Lemma slack_round_wrap e l : 0 <= l < 2 ^ 63 -> 2 ^ 63 <= e < 2 ^ 64 -> slack_round e l = 0.
Proof.
  intros Hl He. unfold slack_round. cbn zeta.
  assert (Z.testbit (Z.lxor e l) 63 = true) as Hb.
  { rewrite Z.lxor_spec. rewrite (proj2 (Z.testbit_true e 63 ltac:(lia))), (proj2 (Z.testbit_false l 63 ltac:(lia))); [done|..].
    - by rewrite Z.div_small by lia.
    - replace (e / 2 ^ 63) with 1; [done|]. apply Z.div_unique_pos with (e - 2 ^ 63); lia. }
  assert (Z.lxor e l <> 0) as Hne by (intros E; by rewrite E in Hb).
  rewrite (proj2 (Z.eqb_neq _ _)) by done. rewrite clear_low by apply Z.log2_nonneg.
  assert (63 <= Z.log2 (Z.lxor e l)) as Hlog.
  { apply Z.log2_le_pow2; [pose proof (proj2 (Z.lxor_nonneg e l)); lia|].
    destruct (Z.le_gt_cases (2 ^ 63) (Z.lxor e l)); [done|].
    rewrite Z.bits_above_log2 in Hb; [done|apply Z.lxor_nonneg; lia|].
    apply Z.log2_lt_pow2; [pose proof (proj2 (Z.lxor_nonneg e l)); lia|done]. }
  rewrite Z.div_small; [lia|]. split; [lia|]. eapply Z.lt_le_trans; [apply Hl|]. by apply Z.pow_le_mono_r.
Qed.

Lemma slack_round_ok E k : 0 <= k < 2 ^ 63 -> exists E', slack_round (u64 E) (u64 (u64 E + k)) = u64 E' /\ E <= E' <= E + k.
Proof.
  intros Hk. pose proof (u64_bounds E) as Hr. pose proof (Z.div_mod E (2 ^ 64) ltac:(lia)) as Hdm.
  rewrite <- u64_mod in Hdm. set (e := u64 E) in *. set (q := E / 2 ^ 64) in *.
  destruct (decide (e + k < 2 ^ 64)) as [Hlt|Hge].
  - rewrite (u64_small (e + k)) by lia. pose proof (slack_round_between e (e + k) ltac:(lia)) as Hb.
    exists (2 ^ 64 * q + slack_round e (e + k)). split; [|lia].
    rewrite u64_mod. apply Z.mod_unique_pos with q; lia.
  - assert (u64 (e + k) = e + k - 2 ^ 64) as -> by (rewrite u64_mod; symmetry; apply Z.mod_unique_pos with 1; lia).
    rewrite slack_round_wrap by lia. exists (2 ^ 64 * (q + 1)). split; [|lia].
    by rewrite u64_mod, Z.mul_comm, Z_mod_mult.
Qed.

(** What a timer may be late by. *)
Definition slack_of (N E : Z) (timer : timer_list) : Z :=
  if t_slack timer >=? 0 then t_slack timer else if E - N <? 256 then 0 else (E - N) / 256.

Lemma apply_slack_ok N E timer :
  - 2 ^ 63 <= E - N < 2 ^ 63 -> t_slack timer < 2 ^ 31 ->
  exists E', apply_slack (u64 N) timer (u64 E) = u64 E' /\ E <= E' <= E + slack_of N E timer.
Proof.
  intros HE Hs. unfold slack_of.
  change (apply_slack (u64 N) timer (u64 E)) with
    (if t_slack timer >=? 0 then slack_round (u64 E) (u64 (u64 E + t_slack timer))
     else let delta := s64 (u64 E - u64 N) in
          if delta <? 256 then u64 E else slack_round (u64 E) (u64 (u64 E + delta / 256))).
  destruct (t_slack timer >=? 0) eqn:Hsl; zbool.
  - apply slack_round_ok. lia.
  - assert (s64 (u64 E - u64 N) = E - N) as ->.
    { unfold s64. change 18446744073709551616 with (2 ^ 64). change 9223372036854775808 with (2 ^ 63).
      rewrite !u64_mod. rewrite <- Zplus_mod_idemp_l, <- Zminus_mod, Zplus_mod_idemp_l, Z.mod_small by lia. lia. }
    cbn zeta. destruct (E - N <? 256) eqn:Hd; zbool; [exists E; split; [done|lia]|].
    apply slack_round_ok. split; [apply Z.div_pos; lia|]. apply Z.div_lt_upper_bound; lia.
Qed.

(** ** The calls *)

(** The timers a call has set up and the work list it leaves. *)
Definition same_timers (base base' : tvec_base) : Prop :=
  (forall x, is_Some (timers base' !! x) <-> is_Some (timers base !! x))
  /\ work_list base' `sublist_of` work_list base.

#[global] Instance same_timers_preorder : PreOrder same_timers.
Proof.
  split; [by intros base|]. intros b1 b2 b3 [H1 H2] [H3 H4]. split; [intros x; by rewrite H3|by etrans].
Qed.

Lemma catchup_same_timers jiffies base : same_timers base (catchup_timer_jiffies jiffies base).2.
Proof. destruct (catchup_same jiffies base) as (HT & HW & _). split; [by rewrite HT|by rewrite HW]. Qed.

Lemma detach_same_timers clear base t : same_timers base (detach_timer clear base t).
Proof.
  split; [|destruct clear; apply sublist_filter].
  intros x. destruct clear; [|done]. cbn. rewrite lookup_alter_is_Some. done.
Qed.

Lemma detach_if_pending_same jiffies base t timer clear ret base' :
  detach_if_pending jiffies base t timer clear = (ret, base') -> same_timers base base'.
Proof.
  unfold detach_if_pending. case_if; intros [= <- <-]; [done|].
  etrans; [apply (detach_same_timers clear _ t)|]. etrans; [|apply catchup_same_timers].
  by destruct (t_deferrable timer).
Qed.

Lemma internal_add_same jiffies base t timer timer' :
  is_Some (timers base !! t) ->
  same_timers base (internal_add_timer jiffies (set_timers (<[t := timer']> (timers base)) base) t timer).
Proof.
  intros Ht. destruct (internal_add_eq jiffies base t timer timer') as (next & active & ->).
  etrans; [apply (catchup_same_timers jiffies)|]. set (base1 := (catchup_timer_jiffies jiffies base).2).
  assert (is_Some (timers base1 !! t)) as Ht1 by (by apply (catchup_same_timers jiffies base)).
  unfold __internal_add_timer. destruct (wheel_position _ _) as [tv i]. split; [|done].
  intros x. cbn. destruct (decide (x = t)) as [->|Hne]; [by rewrite lookup_insert_eq|by rewrite !lookup_insert_ne].
Qed.

(** Whether the timer is cleared does not matter to [__mod_timer]. *)
Lemma detach_clear jiffies base t timer timer' :
  let '(ret1, base1) := detach_if_pending jiffies base t timer false in
  let '(ret2, base2) := detach_if_pending jiffies base t timer true in
  ret1 = ret2 /\ set_timers (<[t := timer']> (timers base1)) base1 = set_timers (<[t := timer']> (timers base2)) base2.
Proof.
  unfold detach_if_pending, catchup_timer_jiffies. destruct (negb (t_pending timer)); [done|]. split; [done|].
  destruct (t_deferrable timer); cbn; case_if; unfold set_timers; cbn; by rewrite insert_alter_eq.
Qed.

Lemma __mod_timer_ok N J due base t timer expires pending_only :
  wheel_ok J due base -> timers base !! t = Some timer -> 0 <= expires < 2 ^ 64 ->
  exists ret base' J' due', __mod_timer (u64 N) t expires pending_only base = Ok (ret, base')
    /\ wheel_ok J' due' base' /\ same_timers base base'
    /\ (J' = J /\ due' = due /\ pending_only = true /\ due !! t = None
        \/ J' = caught_up N J (delete t due) /\ due' = <[t := tick_of J' expires]> due
           /\ (pending_only = false \/ is_Some (due !! t))).
Proof.
  intros Hw Ht He. unfold __mod_timer, with_timer. rewrite Ht.
  pose proof (detach_clear (u64 N) base t timer (set_expires expires timer)) as Hc.
  destruct (detach_if_pending_ok N J due base t timer Hw Ht) as (ret & base2 & Hd & Hw2 & Hret). rewrite Hd in Hc.
  destruct (detach_if_pending (u64 N) base t timer false) as [ret1 base1] eqn:Hd1. destruct Hc as [-> Heq].
  pose proof (detach_if_pending_same _ _ _ _ _ _ _ Hd) as Hs2.
  destruct ((ret =? 0) && pending_only) eqn:Hr.
  { apply andb_prop in Hr as [Hr%Z.eqb_eq ->]. apply Hret in Hr as Hn. unfold detach_if_pending in Hd1.
    assert (t_pending timer = false) as Hp.
    { destruct (t_pending timer) eqn:Hp; [|done]. apply (wi_pending _ _ _ _ Hw _ _ Ht) in Hp. rewrite Hn in Hp. by destruct Hp. }
    rewrite Hp in Hd1. injection Hd1 as <- <-. exists 0, base, J, due. split; [done|]. split; [done|]. split; [done|]. by left. }
  rewrite Heq. set (J2 := if decide _ then _ else _) in Hw2.
  assert (caught_up N J2 (delete t due) = caught_up N J (delete t due)) as HJ.
  { unfold J2. destruct (decide _) as [|Hn]; [|done]. unfold caught_up. by destruct (decide _). }
  pose proof (internal_add_ok N J2 (delete t due) base2 t (set_expires expires timer) (set_expires expires timer) Hw2) as Hadd.
  cbn zeta in Hadd. rewrite insert_delete_eq, HJ in Hadd. eexists ret, _, _, _. split; [reflexivity|].
  assert (is_Some (timers base2 !! t)) as Ht2 by (apply Hs2; by rewrite Ht).
  split; [apply Hadd; [apply lookup_delete_eq|done|split; [done|exact (wi_slack _ _ _ _ Hw t timer Ht)]]|].
  split; [etrans; [done|by apply internal_add_same]|]. right. split; [done|]. split; [done|].
  destruct pending_only; [|by left]. right. apply andb_false_iff in Hr as [Hr%Z.eqb_neq|[=]].
  apply not_eq_None_Some. by rewrite <- Hret.
Qed.
