(* ===== verification/TimerRun.v ===== *)
(** * The timer wheel: arming and running timers

    The calls of drivers and handlers, by the ticks at which timers are due
    before and after.  Cascading keeps every timer due when it was and leaves
    nothing behind; a tick takes up the timers due at it, and no others. *)

From stdpp Require Import gmap list sorting.
From S2P Require Import Prelude TimerWheel TimerOps.

(** The wheel is at most one tick ahead of [N], and not far behind. *)
Definition near (N J : Z) : Prop := J <= N + 1 /\ N - J < 2 ^ 61.

(** A timer that is queued is due when its [expires] says. *)
Lemma queued_due J due base t timer :
  wheel_ok J due base -> timers base !! t = Some timer -> t_pending timer = true ->
  due !! t = Some (tick_of J (t_expires timer)) \/ tick_of (J - 1) (t_expires timer) = J - 1 /\ due !! t = Some (J - 1).
Proof.
  intros Hw Ht Hp%(wi_pending _ _ _ _ Hw _ _ Ht).
  destruct (wi_queued _ _ _ _ Hw t Hp) as [[]%elem_of_nil|[Hk|(tv & i & Hb)]].
  - right. destruct (wi_work _ _ _ _ Hw t Hk) as (tm & HD & Ht' & Htk). rewrite Ht in Ht'. by injection Ht' as <-.
  - left. destruct (wi_placed _ _ _ _ Hw t tv i Hb) as (D & tm & HD & Ht' & _ & _ & ->). rewrite Ht in Ht'. by injection Ht' as <-.
Qed.

Lemma mod_timer_ok N J due base t timer E :
  wheel_ok J due base -> timers base !! t = Some timer -> near N J -> N < E < N + 2 ^ 62 ->
  exists ret base' J' E', mod_timer (u64 N) t (u64 E) base = Ok (ret, base')
    /\ E <= E' <= E + slack_of N E timer
    /\ wheel_ok J' (<[t := E']> due) base' /\ same_timers base base'
    /\ (J' = J \/ J' = caught_up N J (delete t due)).
Proof.
  intros Hw Ht [Hn1 Hn2] HE. unfold mod_timer, with_timer. rewrite Ht. cbn zeta.
  pose proof (wi_slack _ _ _ _ Hw _ _ Ht) as Hsl.
  destruct (apply_slack_ok N E timer ltac:(lia) ltac:(lia)) as (E' & -> & HE').
  assert (E' < N + 2 ^ 62 + 2 ^ 61) as Hfar.
  { assert (slack_of N E timer < 2 ^ 61) as Hs; [|lia]. unfold slack_of. case_if; zbool; [lia|]. case_if; zbool; [lia|].
    apply Z.div_lt_upper_bound; lia. }
  destruct (t_pending timer && (t_expires timer =? u64 E')) eqn:Hsame.
  - apply andb_prop in Hsame as [Hp Hx%Z.eqb_eq]. exists 1, base, J, E'. split; [done|]. split; [done|].
    split; [|split; [done|by left]].
    destruct (queued_due J due base t timer Hw Ht Hp) as [HD|[Htk HD]]; rewrite Hx, tick_of_due in * by lia; [|lia].
    by rewrite insert_id.
  - destruct (__mod_timer_ok N J due base t timer (u64 E') false Hw Ht (u64_bounds _))
      as (ret & base' & J' & due' & -> & Hw' & Hs & [(_ & _ & [=] & _)|(-> & -> & _)]).
    exists ret, base', (caught_up N J (delete t due)), E'. split; [done|]. split; [done|].
    rewrite tick_of_due in Hw'; [by auto|]. unfold caught_up. destruct (decide _); lia.
Qed.

Lemma mod_timer_pending_ok N J due base t timer E :
  wheel_ok J due base -> timers base !! t = Some timer -> near N J -> N < E < N + 2 ^ 62 ->
  exists ret base' J', mod_timer_pending (u64 N) t (u64 E) base = Ok (ret, base')
    /\ wheel_ok J' (if decide (is_Some (due !! t)) then <[t := E]> due else due) base' /\ same_timers base base'
    /\ (J' = J \/ J' = caught_up N J (delete t due) /\ is_Some (due !! t)).
Proof.
  intros Hw Ht [Hn1 Hn2] HE. unfold mod_timer_pending.
  destruct (__mod_timer_ok N J due base t timer (u64 E) true Hw Ht (u64_bounds _))
    as (ret & base' & J' & due' & Heq & Hw' & Hs & [(-> & -> & _ & Hn)|(-> & -> & [[=]|Hp])]).
  - exists ret, base', J. rewrite decide_False by (rewrite Hn; by intros []). by eauto 10.
  - exists ret, base', (caught_up N J (delete t due)). rewrite decide_True by done.
    rewrite tick_of_due in Hw'; [by eauto 10|]. unfold caught_up. destruct (decide _); lia.
Qed.

Lemma del_timer_ok N J due base t timer :
  wheel_ok J due base -> timers base !! t = Some timer ->
  exists ret base' J', del_timer (u64 N) t base = Ok (ret, base')
    /\ wheel_ok J' (delete t due) base' /\ same_timers base base'
    /\ (J' = J \/ J' = caught_up N J (delete t due)) /\ (ret = 0 <-> due !! t = None).
Proof.
  intros Hw Ht. unfold del_timer, with_timer. rewrite Ht.
  destruct (detach_if_pending_ok N J due base t timer Hw Ht) as (ret & base' & Hd & Hw' & Hret).
  pose proof (detach_if_pending_same _ _ _ _ _ _ _ Hd) as Hs. rewrite Hd.
  assert ((if t_pending timer then Ok (ret, base') else Ok (0, base)) = Ok (ret, base')) as ->.
  { unfold detach_if_pending in Hd. destruct (t_pending timer); [done|]. by injection Hd as <- <-. }
  do 3 eexists. split; [done|]. split; [done|]. split; [done|]. split; [|done]. destruct (decide _); auto.
Qed.

(** ** Calls that arm timers later than now *)

Definition call_timer (c : timer_call) : positive :=
  match c with CallModTimer t _ | CallModTimerPending t _ | CallDelTimer t => t end.

Definition arms_later (N : Z) (c : timer_call) : Prop :=
  match c with
  | CallModTimer _ e | CallModTimerPending _ e => exists E, e = u64 E /\ N < E < N + 2 ^ 62
  | CallDelTimer _ => True
  end.

(** Only the timers [ts] have been armed, later than [N], or removed. *)
Record changed (N : Z) (ts : list positive) (due : gmap positive Z) (base : tvec_base)
    (due' : gmap positive Z) (base' : tvec_base) : Prop := {
  ch_due : forall x D, due' !! x = Some D -> due !! x = Some D \/ N < D;
  ch_others : forall x, x ∉ ts -> due' !! x = due !! x;
  ch_same : same_timers base base';
}.

Definition all_later (N : Z) (due : gmap positive Z) : Prop := forall x D, due !! x = Some D -> N < D.

(** A step of the calls at [N]: the wheel catches up only when nothing is left
    to run. *)
Record stepped (N : Z) (ts : list positive) (J : Z) (due : gmap positive Z) (base : tvec_base)
    (J' : Z) (due' : gmap positive Z) (base' : tvec_base) : Prop := {
  sp_ok : wheel_ok J' due' base';
  sp_tick : J' = J \/ J' = N /\ all_later N due';
  sp_changed : changed N ts due base due' base';
}.

Lemma changed_trans N ts1 ts2 due1 base1 due2 base2 due3 base3 :
  changed N ts1 due1 base1 due2 base2 -> changed N ts2 due2 base2 due3 base3 ->
  changed N (ts1 ++ ts2) due1 base1 due3 base3.
Proof.
  intros [D1 O1 S1] [D2 O2 S2]. split.
  - intros x D Hx. destruct (D2 x D Hx) as [Hx2|]; [|by right]. by apply D1.
  - intros x Hx. rewrite O2, O1 by set_solver. done.
  - by etrans.
Qed.

Lemma changed_weaken N ts ts' due base due' base' :
  ts ⊆ ts' -> changed N ts due base due' base' -> changed N ts' due base due' base'.
Proof. intros Hts [D O S]. split; [done| |done]. intros x Hx. apply O. by intros Hx'%Hts. Qed.

Lemma changed_later N ts due base due' base' : changed N ts due base due' base' -> all_later N due -> all_later N due'.
Proof. intros Hc Hl x D Hx. destruct (ch_due _ _ _ _ _ _ Hc x D Hx); eauto. Qed.

Lemma stepped_refl N J due base : wheel_ok J due base -> stepped N [] J due base J due base.
Proof. intros Hw. split; [done|by left|]. by split; auto. Qed.

Lemma stepped_trans N ts1 ts2 J1 due1 base1 J2 due2 base2 J3 due3 base3 :
  stepped N ts1 J1 due1 base1 J2 due2 base2 -> stepped N ts2 J2 due2 base2 J3 due3 base3 ->
  stepped N (ts1 ++ ts2) J1 due1 base1 J3 due3 base3.
Proof.
  intros [W1 T1 C1] [W2 T2 C2]. split; [done| |by eapply changed_trans].
  destruct T2 as [->|T2]; [|by right]. destruct T1 as [->|[-> T1]]; [by left|]. right. split; [done|].
  by eapply changed_later.
Qed.

Lemma stepped_insert N J due base t E J' base' :
  N < E -> wheel_ok J' (<[t := E]> due) base' -> same_timers base base' ->
  J' = J \/ J' = caught_up N J (delete t due) -> stepped N [t] J due base J' (<[t := E]> due) base'.
Proof.
  intros HE Hw Hs HJ. split; [done| |split; [..|done]].
  - destruct HJ as [->| ->]; [by left|]. unfold caught_up. destruct (decide _) as [He|]; [|by left]. right. split; [done|].
    intros x D. rewrite <- insert_delete_eq, He. rewrite lookup_insert_Some. intros [[_ <-]|[_ [=]]]. done.
  - intros x D. rewrite lookup_insert_Some. intros [[_ <-]|[_ Hx]]; auto.
  - intros x Hx. rewrite lookup_insert_ne by set_solver. done.
Qed.

Lemma stepped_delete N J due base t J' base' :
  wheel_ok J' (delete t due) base' -> same_timers base base' ->
  J' = J \/ J' = caught_up N J (delete t due) -> stepped N [t] J due base J' (delete t due) base'.
Proof.
  intros Hw Hs HJ. split; [done| |split; [..|done]].
  - destruct HJ as [->| ->]; [by left|]. unfold caught_up. destruct (decide _) as [He|]; [|by left]. right. split; [done|].
    intros x D. rewrite He. done.
  - intros x D [_ Hx]%lookup_delete_Some. by left.
  - intros x Hx. rewrite lookup_delete_ne by set_solver. done.
Qed.

Lemma stepped_near N ts J due base J' due' base' : stepped N ts J due base J' due' base' -> near N J -> near N J'.
Proof. intros Hs Hn. destruct (sp_tick _ _ _ _ _ _ _ _ Hs) as [->|[-> _]]; [done|]. unfold near. lia. Qed.

Lemma do_timer_call_ok N J due base c :
  wheel_ok J due base -> near N J -> is_Some (timers base !! call_timer c) -> arms_later N c ->
  exists base' J' due', do_timer_call (u64 N) c base = Ok base' /\ stepped N [call_timer c] J due base J' due' base'.
Proof.
  intros Hw Hn [timer Ht]. destruct c as [t e|t e|t]; cbn in Ht |- *.
  - intros (E & -> & HE). destruct (mod_timer_ok N J due base t timer E Hw Ht Hn HE) as (ret & base' & J' & E' & -> & HE' & Hw' & Hs & HJ).
    exists base', J', (<[t := E']> due). split; [done|]. apply stepped_insert; [lia|done..].
  - intros (E & -> & HE). destruct (mod_timer_pending_ok N J due base t timer E Hw Ht Hn HE) as (ret & base' & J' & -> & Hw' & Hs & HJ).
    destruct (decide _) as [Hp|Hp].
    + exists base', J', (<[t := E]> due). split; [done|]. apply stepped_insert; [lia|done|done|tauto].
    + assert (J' = J) as -> by tauto. exists base', J, due. split; [done|]. split; [done|by left|]. by split; auto.
  - intros _. destruct (del_timer_ok N J due base t timer Hw Ht) as (ret & base' & J' & -> & Hw' & Hs & HJ & _).
    exists base', J', (delete t due). split; [done|]. by apply stepped_delete.
Qed.

(** What a handler may do: calls on timers that have been set up. *)
Definition handler_ok (N : Z) (base : tvec_base) (cs : list timer_call) : Prop :=
  forall c, c ∈ cs -> is_Some (timers base !! call_timer c) /\ arms_later N c.

Lemma handler_ok_same N base base' cs : same_timers base base' -> handler_ok N base cs -> handler_ok N base' cs.
Proof. intros [Hs _] H c Hc. destruct (H c Hc). by rewrite Hs. Qed.

Lemma do_timer_calls_ok N cs : forall J due base,
  wheel_ok J due base -> near N J -> handler_ok N base cs ->
  exists base' J' due', do_timer_calls (u64 N) cs base = Ok base'
    /\ stepped N (call_timer <$> cs) J due base J' due' base'.
Proof.
  induction cs as [|c cs IH]; intros J due base Hw Hn Hc.
  { exists base, J, due. split; [done|]. by apply stepped_refl. }
  destruct (do_timer_call_ok N J due base c Hw Hn) as (base1 & J1 & due1 & Heq & Hs1); [apply Hc; by left..|].
  destruct (IH J1 due1 base1) as (base2 & J2 & due2 & Heq2 & Hs2).
  - apply Hs1.
  - by eapply stepped_near.
  - eapply handler_ok_same; [apply (sp_changed _ _ _ _ _ _ _ _ Hs1)|]. intros c' Hc'. apply Hc. by right.
  - exists base2, J2, due2. cbn. rewrite Heq. cbn [obind]. split; [done|].
    exact (stepped_trans _ _ _ _ _ _ _ _ _ _ _ _ Hs1 Hs2).
Qed.

(** * Running timers *)

(** ** Cascading *)

(** No timer waits for a cascade of array [tv] at the tick [J]. *)
Definition spent (J : Z) (base : tvec_base) (tv : nat) : Prop :=
  (2 ^ tv_shift tv | J) -> bucket base tv (J / 2 ^ tv_shift tv mod 64) = [].

Lemma add_spent J base t timer tv :
  timer_jiffies base = u64 J -> 0 <= t_expires timer < 2 ^ 64 -> (0 < tv)%nat ->
  spent J base tv -> spent J (__internal_add_timer base t timer) tv.
Proof.
  intros HJ He Htv Hs Hd. unfold __internal_add_timer. rewrite HJ.
  destruct (wheel_position (u64 J) (t_expires timer)) as [tv' i] eqn:Hp.
  destruct (wheel_position_ok J _ _ _ He Hp) as (_ & _ & Hne).
  change (bucket (set_vec <[(tv', i) := bucket base tv' i ++ [t]]> (work_list base) base) tv (J / 2 ^ tv_shift tv mod 64) = []).
  rewrite bucket_insert, decide_False; [by apply Hs|]. intros [= -> <-]. by apply Hne; [lia|..].
Qed.

Lemma cascade_loop_ok J due l : forall base,
  wheel_inv J due l base ->
  wheel_ok J due (cascade_loop l base) /\ timers (cascade_loop l base) = timers base
  /\ work_list (cascade_loop l base) = work_list base
  /\ forall tv, (0 < tv)%nat -> spent J base tv -> spent J (cascade_loop l base) tv.
Proof.
  induction l as [|t l IH]; intros base Hw; [done|]. cbn [cascade_loop].
  destruct (wi_float _ _ _ _ Hw t) as (timer & D & HD & Ht & _); [by left|]. rewrite Ht.
  pose proof (add_inv _ _ _ _ _ _ Hw Ht) as Hw1. destruct (IH _ Hw1) as (Hw2 & HT & HW & Hsp). split; [done|].
  assert (timers (__internal_add_timer base t timer) = timers base) as HT1.
  { unfold __internal_add_timer. destruct (wheel_position _ _) as [tv i]. cbn. apply insert_id. rewrite Ht. f_equal.
    assert (t_pending timer = true) as Hp by (apply (wi_pending _ _ _ _ Hw _ _ Ht); by rewrite HD).
    destruct timer. cbn in Hp. by rewrite Hp. }
  split; [congruence|]. split.
  - rewrite HW. unfold __internal_add_timer. by destruct (wheel_position _ _) as [tv i].
  - intros tv Htv Hs. apply Hsp; [done|]. apply add_spent; [apply Hw|exact (wi_expires _ _ _ _ Hw _ _ Ht)|done|done].
Qed.

(** The timers of a list that is cascaded have come to its tick. *)
Lemma float_bucket J due base tv i :
  wheel_ok J due base ->
  wheel_inv J due (bucket base tv i) (set_vec (delete (tv, i)) (work_list base) base).
Proof.
  intros Hw. set (base' := set_vec _ _ _).
  assert (forall x tv' i', x ∈ bucket base' tv' i' <-> (tv', i') <> (tv, i) /\ x ∈ bucket base tv' i') as HE.
  { intros x tv' i'. unfold base'. rewrite bucket_delete. case_decide as Hd; [|naive_solver].
    split; [by intros []%elem_of_nil|naive_solver]. }
  split; try apply Hw; try done.
  - intros x tv' i' [_ Hx]%HE. by apply Hw.
  - intros x Hx. destruct (wi_placed _ _ _ _ Hw x tv i Hx) as (D & timer & ? & ? & _ & _ & ?). by exists timer, D.
  - intros x Hx. destruct (wi_queued _ _ _ _ Hw x Hx) as [[]%elem_of_nil|[Hk|(tv' & i' & Hb)]]; [by right; left|].
    destruct (decide ((tv', i') = (tv, i))) as [[= -> ->]|Hne]; [by left|]. right. right. exists tv', i'. by apply HE.
  - intros x tv1 i1 tv2 i2 [_ H1]%HE [_ H2]%HE. by eapply wi_once.
  - intros tv' i'. unfold base'. rewrite bucket_delete. case_decide; [apply NoDup_nil_2|apply Hw].
  - intros x tv' i' Hx [_ Hb]%HE. by apply (wi_work_only _ _ _ _ Hw x tv' i').
  - intros x Hx. split; [intros Hk; by apply (wi_work_only _ _ _ _ Hw x tv i)|].
    intros tv' i' [Hne Hb]%HE. destruct (wi_once _ _ _ _ Hw x tv i tv' i' Hx Hb) as [-> ->]. done.
Qed.

Lemma cascade_ok J due base tv i :
  wheel_ok J due base -> (0 < tv)%nat -> i = J / 2 ^ tv_shift tv mod 64 ->
  let base' := (cascade tv i base).2 in
  wheel_ok J due base' /\ timers base' = timers base /\ work_list base' = work_list base
  /\ spent J base' tv /\ forall tv', (0 < tv')%nat -> spent J base tv' -> spent J base' tv'.
Proof.
  intros Hw Htv Hi. unfold cascade. cbn [snd].
  destruct (cascade_loop_ok J due _ _ (float_bucket J due base tv i Hw)) as (Hw' & HT & HW & Hsp).
  split; [done|]. split; [done|]. split; [done|]. split.
  - apply Hsp; [done|]. intros _. rewrite bucket_delete, decide_True by congruence. done.
  - intros tv' Htv' Hs. apply Hsp; [done|]. intros Hd. rewrite bucket_delete. case_decide; [done|]. by apply Hs.
Qed.

(** The arrays from [tv] on, with their numbers in [INDEX]. *)
Definition levels (tv k : nat) : list (nat * Z) := (fun m => (m, Z.of_nat m - 1)) <$> seq tv k.

Lemma INDEX_ok J base tv :
  timer_jiffies base = u64 J -> (0 < tv <= 4)%nat -> INDEX base (Z.of_nat tv - 1) = J / 2 ^ tv_shift tv mod 64.
Proof.
  intros HJ Htv. unfold INDEX. rewrite HJ, slot_u64 by (unfold TVR_BITS, TVN_BITS; lia).
  do 3 f_equal. unfold TVR_BITS, TVN_BITS, tv_shift. lia.
Qed.

(** An array that has not started over keeps the next from being cascaded. *)
Lemma not_started_over J tv tv' :
  (0 < tv < tv')%nat -> J / 2 ^ tv_shift tv mod 64 <> 0 -> ~ (2 ^ tv_shift tv' | J).
Proof.
  intros Htv Hne [c ->]. apply Hne. assert (0 <= tv_shift tv) as Hs by (unfold tv_shift; lia).
  replace (tv_shift tv') with (tv_shift tv + (6 + (tv_shift tv' - tv_shift tv - 6))) by lia.
  rewrite !Z.pow_add_r by (unfold tv_shift; lia). set (r := 2 ^ (tv_shift tv' - tv_shift tv - 6)).
  replace (c * (2 ^ tv_shift tv * (2 ^ 6 * r))) with ((c * r * 64) * 2 ^ tv_shift tv) by lia.
  rewrite Z.div_mul by (apply Z.pow_nonzero; lia). apply Z.mod_mul. lia.
Qed.

Lemma chain_ok J due k : forall tv base,
  wheel_ok J due base -> (0 < tv)%nat -> (tv + k = 5)%nat -> (forall m, (0 < m < tv)%nat -> spent J base m) ->
  let base' := cascade_chain (levels tv k) base in
  wheel_ok J due base' /\ timers base' = timers base /\ work_list base' = work_list base
  /\ forall m, (0 < m < 5)%nat -> spent J base' m.
Proof.
  induction k as [|k IH]; intros tv base Hw Htv Hk Hs.
  { cbn. split; [done|]. split; [done|]. split; [done|]. intros m Hm. apply Hs. lia. }
  cbn [levels seq fmap list_fmap cascade_chain].
  pose proof (INDEX_ok J base tv (wi_jiffies _ _ _ _ Hw) ltac:(lia)) as Hi.
  destruct (cascade_ok J due base tv _ Hw Htv Hi) as (Hw1 & HT1 & HW1 & Hs1 & Hkeep).
  destruct (cascade tv (INDEX base (Z.of_nat tv - 1)) base) as [i base1] eqn:Hc.
  assert (i = J / 2 ^ tv_shift tv mod 64) as -> by (injection Hc; congruence). cbn [snd] in *.
  assert (forall m, (0 < m < S tv)%nat -> spent J base1 m) as Hs2.
  { intros m Hm. destruct (decide (m = tv)) as [->|]; [done|]. apply Hkeep; [lia|]. apply Hs. lia. }
  destruct (_ =? 0) eqn:H0; zbool.
  - destruct (IH (S tv) base1 Hw1 ltac:(lia) ltac:(lia) Hs2) as (Hw2 & HT2 & HW2 & Hs3).
    split; [done|]. split; [by etrans|]. split; [by etrans|done].
  - split; [done|]. split; [done|]. split; [done|]. intros m Hm. destruct (decide (m <= tv)%nat); [apply Hs2; lia|].
    intros Hd. by apply (not_started_over J tv m) in Hd; [|lia|].
Qed.

(** ** A tick *)

Lemma due_ahead J due base t D :
  wheel_ok J due base -> due !! t = Some D -> J <= D \/ t ∈ work_list base /\ D = J - 1.
Proof.
  intros Hw HD. destruct (wi_queued _ _ _ _ Hw t) as [[]%elem_of_nil|[Hk|(tv & i & Hb)]]; [by rewrite HD|..].
  - right. destruct (wi_work _ _ _ _ Hw t Hk) as (? & HD' & _). split; [done|congruence].
  - left. destruct (wi_placed _ _ _ _ Hw t tv i Hb) as (D' & tm & HD' & _ & _ & _ & E).
    rewrite HD in HD'. injection HD' as ->. rewrite E. apply tick_of_ge.
Qed.

(** With the cascades done, the timers due at [J] are on one list of tv1. *)
Lemma advance_ok J due base :
  wheel_ok J due base -> work_list base = [] -> (forall m, (0 < m < 5)%nat -> spent J base m) ->
  wheel_ok (J + 1) due (set_vec (delete (0%nat, J mod 256)) (bucket base 0 (J mod 256))
                          (set_timer_jiffies (u64 (u64 J + 1)) base)).
Proof.
  intros Hw HW Hs. set (base' := set_vec _ _ _).
  assert (forall x tv i, x ∈ bucket base' tv i <-> (tv, i) <> (0%nat, J mod 256) /\ x ∈ bucket base tv i) as HE.
  { intros x tv i. unfold base'. rewrite bucket_delete. case_decide as Hd; [|naive_solver].
    split; [by intros []%elem_of_nil|naive_solver]. }
  split; try apply Hw; try done.
  - cbn. rewrite !u64_mod. apply Zplus_mod_idemp_l.
  - intros x tv i [Hne Hx]%HE. destruct (wi_placed _ _ _ _ Hw x tv i Hx) as (D & timer & HD & Ht & Htv & Hpl & ED).
    exists D, timer. split; [done|]. split; [done|]. split; [done|].
    assert (placed (J + 1) D tv i /\ J + 1 <= D) as [Hpl' HDJ]; [|split; [done|]; rewrite tick_of_next; lia].
    destruct tv as [|tv]; cbn [placed] in Hpl |- *.
    + destruct Hpl as [HJD ->]. assert (D <> J) by (intros ->; done). lia.
    + destruct Hpl as (S' & Hdiv & HS1 & HS2 & Hi). assert (S' <> J) as HSJ.
      { intros ->. specialize (Hs (S tv) ltac:(lia) Hdiv). rewrite <- Hi in Hs. rewrite Hs in Hx. by apply elem_of_nil in Hx. }
      split; [|lia]. exists S'. split; [done|]. lia.
  - intros x []%elem_of_nil.
  - intros x Hx. cbn in Hx |- *. destruct (wi_placed _ _ _ _ Hw x _ _ Hx) as (D & timer & HD & Ht & _ & [HJD Hmod] & ED).
    assert (D = J) as -> by (Z.to_euclidean_division_equations; lia).
    exists timer. replace (J + 1 - 1) with J by lia. done.
  - intros x Hx. right. destruct (wi_queued _ _ _ _ Hw x Hx) as [[]%elem_of_nil|[Hk|(tv & i & Hb)]].
    { rewrite HW in Hk. by apply elem_of_nil in Hk. }
    destruct (decide ((tv, i) = (0%nat, J mod 256))) as [[= -> ->]|Hne]; [by left|]. right. exists tv, i. by apply HE.
  - intros x tv1 i1 tv2 i2 [_ H1]%HE [_ H2]%HE. by eapply wi_once.
  - intros tv i. unfold base'. rewrite bucket_delete. case_decide; [apply NoDup_nil_2|apply Hw].
  - intros x tv i Hx [Hne Hb]%HE. cbn in Hx. destruct (wi_once _ _ _ _ Hw _ _ _ _ _ Hx Hb) as [<- <-]. done.
  - intros x []%elem_of_nil.
Qed.

Lemma wheel_ok_running J due base r : wheel_ok J due base -> wheel_ok J due (set_running r base).
Proof. intros Hw. split; apply Hw. Qed.

Lemma detach_expired_same jiffies base t timer : same_timers base (detach_expired_timer jiffies base t timer).
Proof. etrans; [apply (detach_same_timers true _ t)|]. unfold detach_expired_timer. etrans; [|apply catchup_same_timers]. done. Qed.

Lemma detach_expired_work jiffies base t timer work :
  work_list base = t :: work -> (length (work_list (detach_expired_timer jiffies base t timer)) <= length work)%nat.
Proof.
  intros HW. unfold detach_expired_timer.
  match goal with |- context [catchup_timer_jiffies _ ?b] => destruct (catchup_same jiffies b) as (_ & -> & _) end.
  cbn. rewrite HW, filter_cons_False by auto. apply length_filter.
Qed.

Section Handlers.
Context (fn : positive -> list timer_call) (N : Z).

(** The timers run and those their handlers touch. *)
Definition touched (ran : list positive) : list positive := ran ++ (ran ≫= fun t => call_timer <$> fn t).

Lemma touched_cons t ran : [t] ++ (call_timer <$> fn t) ++ touched ran ⊆ touched (t :: ran).
Proof. unfold touched. cbn. set_solver. Qed.

Lemma run_work_ok fuel : forall J due base ran,
  wheel_ok J due base -> near N J -> (length (work_list base) <= fuel)%nat ->
  (forall t, handler_ok N base (fn t)) ->
  exists base' J' due' new, run_work fn fuel (u64 N) base ran = Ok (base', ran ++ new)
    /\ stepped N (touched new) J due base J' due' base' /\ work_list base' = []
    /\ (J' = J \/ new <> []) /\ NoDup new /\ forall t, t ∈ new -> due !! t = Some (J - 1).
Proof.
  induction fuel as [|fuel IH]; intros J due base ran Hw Hn Hf Hh; cbn [run_work];
    destruct (work_list base) as [|t work] eqn:HW; cbn in Hf; try lia.
  1, 2: exists base, J, due, []; rewrite app_nil_r; split; [done|]; split; [by apply stepped_refl|];
    split; [done|]; split; [by left|]; split; [apply NoDup_nil_2|by intros ? ?%elem_of_nil].
  destruct (wi_work _ _ _ _ Hw t) as (timer & HD & Ht & _); [rewrite HW; by left|].
  unfold with_timer. rewrite Ht. set (base0 := set_running (Some t) base).
  pose proof (detach_expired_ok N J due base0 t timer _ (wheel_ok_running J due base _ Hw) HD) as Hw1.
  set (base1 := detach_expired_timer (u64 N) base0 t timer) in *.
  assert (same_timers base base1) as Hsame1 by exact (detach_expired_same (u64 N) base0 t timer).
  pose proof (stepped_delete N J due base t _ base1 Hw1 Hsame1 (or_intror eq_refl)) as Hs1.
  destruct (do_timer_calls_ok N (fn t) _ _ base1 Hw1) as (base2 & J2 & due2 & -> & Hs2).
  { by eapply stepped_near. }
  { by eapply handler_ok_same. }
  cbn [obind]. pose proof (stepped_trans _ _ _ _ _ _ _ _ _ _ _ _ Hs1 Hs2) as Hs12.
  assert (length (work_list base2) <= fuel)%nat as Hlen.
  { assert (work_list base2 `sublist_of` work_list base1) as Hsub by apply (ch_same _ _ _ _ _ _ (sp_changed _ _ _ _ _ _ _ _ Hs2)).
    apply sublist_length in Hsub. pose proof (detach_expired_work (u64 N) base0 t timer work HW) as Hl.
    fold base1 in Hl. lia. }
  pose proof (sp_changed _ _ _ _ _ _ _ _ Hs12) as Hc12.
  destruct (IH J2 due2 base2 (ran ++ [t]) (sp_ok _ _ _ _ _ _ _ _ Hs12)) as (base3 & J3 & due3 & new & -> & Hs3 & HW3 & HJ3 & Hnd & Hnew).
  { by eapply stepped_near. }
  { done. }
  { intros x. eapply handler_ok_same; [apply Hc12|done]. }
  assert (forall x, x ∈ new -> x <> t /\ due !! x = Some (J - 1)) as Hnew'.
  { intros x Hx. specialize (Hnew x Hx). destruct (sp_tick _ _ _ _ _ _ _ _ Hs12) as [->|[-> Hl]]; [|apply Hl in Hnew; lia].
    destruct (ch_due _ _ _ _ _ _ (sp_changed _ _ _ _ _ _ _ _ Hs2) x _ Hnew) as [Hx1|]; [|unfold near in Hn; lia].
    by apply lookup_delete_Some in Hx1 as [? ?]. }
  exists base3, J3, due3, (t :: new). rewrite <- app_assoc. split; [done|]. split.
  { pose proof (stepped_trans _ _ _ _ _ _ _ _ _ _ _ _ Hs12 Hs3) as [W T C]. split; [done|done|].
    eapply changed_weaken; [|exact C]. rewrite <- app_assoc. apply touched_cons. }
  split; [done|]. split; [by right|]. split; [apply NoDup_cons; split; [|done]; intros Hx; by apply Hnew' in Hx as [? _]|].
  intros x [->|Hx]%elem_of_cons; [done|]. by apply Hnew'.
Qed.

Lemma cascades_ok J due base :
  wheel_ok J due base ->
  let base' := if Z.land (timer_jiffies base) TVR_MASK =? 0
               then cascade_chain [(1%nat, 0); (2%nat, 1); (3%nat, 2); (4%nat, 3)] base else base in
  wheel_ok J due base' /\ timers base' = timers base /\ work_list base' = work_list base
  /\ forall m, (0 < m < 5)%nat -> spent J base' m.
Proof.
  intros Hw. rewrite (wi_jiffies _ _ _ _ Hw), land_root, u64_mod_256. destruct (_ =? 0) eqn:H0; zbool.
  - apply (chain_ok J due 4 1 base); [done|lia|done|]. lia.
  - split; [done|]. split; [done|]. split; [done|]. intros m Hm [c HJ]. exfalso. apply H0. rewrite HJ.
    replace (tv_shift m) with (8 + (tv_shift m - 8)) by lia. rewrite Z.pow_add_r by (unfold tv_shift; lia).
    change (2 ^ 8) with 256. rewrite (Z.mul_comm 256), Z.mul_assoc. apply Z.mod_mul. lia.
Qed.

Lemma run_tick_ok J due base :
  wheel_ok J due base -> work_list base = [] -> near N J -> J <= N -> (forall t, handler_ok N base (fn t)) ->
  exists base' J' due' new, run_tick fn (u64 N) base = Ok (base', new)
    /\ wheel_ok J' due' base' /\ work_list base' = [] /\ changed N (touched new) due base due' base'
    /\ (J' = J + 1 \/ J' = N /\ all_later N due' /\ new <> []) /\ NoDup new
    /\ forall t, t ∈ new -> due !! t = Some J.
Proof.
  intros Hw HW Hn HJN Hh. destruct (cascades_ok J due base Hw) as (Hw1 & HT1 & HW1 & Hs1). unfold run_tick.
  set (base1 := if Z.land (timer_jiffies base) TVR_MASK =? 0
                then cascade_chain [(1%nat, 0); (2%nat, 1); (3%nat, 2); (4%nat, 3)] base else base) in *. cbn zeta.
  rewrite (wi_jiffies _ _ _ _ Hw1), (wi_jiffies _ _ _ _ Hw), land_root, u64_mod_256.
  pose proof (advance_ok J due base1 Hw1 ltac:(by rewrite HW1) Hs1) as Hw2.
  change (bucket (set_timer_jiffies (u64 (u64 J + 1)) base1) 0 (J mod 256)) with (bucket base1 0 (J mod 256)).
  set (base2 := set_vec _ _ _) in *.
  assert (forall x, timers base2 !! x = timers base !! x) as HT2 by (intros x; by rewrite <- HT1).
  destruct (run_work_ok (length (bucket base1 0 (J mod 256))) (J + 1) due base2 [] Hw2)
    as (base3 & J3 & due3 & new & Heq & Hs & HW3 & HJ3 & Hnd & Hnew).
  { unfold near in *. lia. }
  { done. }
  { intros t c Hc. rewrite HT2. exact (Hh t c Hc). }
  exists base3, J3, due3, new. split; [done|]. split; [apply Hs|]. split; [done|]. split.
  - destruct (sp_changed _ _ _ _ _ _ _ _ Hs) as [D O [S1 S2]]. split; [done|done|]. split; [|by rewrite HW3, HW].
    intros x. by rewrite S1, HT2.
  - split; [destruct (sp_tick _ _ _ _ _ _ _ _ Hs) as [->|[-> Hl]]; [by left|]; destruct HJ3 as [->|HJ3]; auto|].
    split; [done|]. intros t Ht. rewrite (Hnew t Ht). f_equal. lia.
Qed.

(** ** The loop *)

Definition logged (new : list (positive * Z)) : list (positive * Z) := (fun p => (p.1, u64 p.2)) <$> new.

Lemma time_after_eq_near J : near N J -> time_after_eq (u64 N) (u64 J) = (J <=? N).
Proof.
  intros [H1 H2]. unfold time_after_eq. assert (s64 (u64 N - u64 J) = N - J) as ->.
  { unfold s64. change 18446744073709551616 with (2 ^ 64). change 9223372036854775808 with (2 ^ 63).
    rewrite !u64_mod. rewrite <- Zplus_mod_idemp_l, <- Zminus_mod, Zplus_mod_idemp_l, Z.mod_small by lia. lia. }
  apply eq_true_iff_eq. rewrite Z.geb_le, Z.leb_le. lia.
Qed.

Lemma touched_app ran ran' : touched ran ++ touched ran' ⊆ touched (ran ++ ran').
Proof. unfold touched. rewrite bind_app. set_solver. Qed.

Lemma same_tick (J a : Z) (ran : list positive) : a ∈ ((fun t => (t, J)) <$> ran).*2 -> a = J.
Proof. rewrite <- list_fmap_compose. intros (t & -> & _)%list_elem_of_fmap. done. Qed.

Lemma same_tick_sorted J (ran : list positive) : StronglySorted Z.le ((fun t => (t, J)) <$> ran).*2.
Proof.
  induction ran as [|t ran IH]; cbn; constructor; [done|]. apply Forall_forall. intros a Ha.
  apply same_tick in Ha as ->. lia.
Qed.

(** [extra] is one more round for a wheel that catches up after its last tick. *)
Lemma run_loop_ok fuel : forall J due base log extra,
  wheel_ok J due base -> work_list base = [] -> near N J -> (forall t, handler_ok N base (fn t)) ->
  (extra = 0%nat -> all_later N due) -> (Z.to_nat (N + 1 - J) + extra <= fuel)%nat ->
  exists base' due' new, run_loop fn fuel (u64 N) base log = Ok (base', log ++ logged new)
    /\ wheel_ok (N + 1) due' base' /\ work_list base' = [] /\ changed N (touched new.*1) due base due' base'
    /\ NoDup new.*1 /\ StronglySorted Z.le new.*2
    /\ forall t D, (t, D) ∈ new -> due !! t = Some D /\ J <= D <= N.
Proof.
  induction fuel as [|fuel IH]; intros J due base log extra Hw HW Hn Hh Hx Hf; cbn [run_loop];
    rewrite (wi_jiffies _ _ _ _ Hw), time_after_eq_near by done; destruct (J <=? N) eqn:HJ; zbool; [lia| | |].
  1, 3: assert (J = N + 1) as -> by (unfold near in Hn; lia); exists base, due, []; rewrite app_nil_r;
    split; [done|]; split; [done|]; split; [done|]; split; [by split; auto|]; split; [apply NoDup_nil_2|];
    split; [constructor|by intros ? ? ?%elem_of_nil].
  destruct (run_tick_ok J due base Hw HW Hn HJ Hh) as (base1 & J1 & due1 & ran & -> & Hw1 & HW1 & Hc1 & HJ1 & Hnd1 & Hran).
  cbn [obind].
  assert (near N J1) as Hn1 by (unfold near in *; destruct HJ1 as [->|[-> _]]; lia).
  assert (forall t, handler_ok N base1 (fn t)) as Hh1 by (intros t; eapply handler_ok_same; [apply Hc1|done]).
  assert (exists extra1, (extra1 = 0%nat -> all_later N due1) /\ (Z.to_nat (N + 1 - J1) + extra1 <= fuel)%nat) as (extra1 & Hx1 & Hf1).
  { destruct HJ1 as [->|(-> & Hl & Hne)]; [exists extra; split; [intros E; by eapply changed_later; [|apply Hx]|lia]|].
    exists 0%nat. split; [done|]. destruct extra as [|extra]; [|lia].
    destruct ran as [|t ran]; [done|]. specialize (Hx eq_refl t J (Hran t ltac:(by left))). lia. }
  destruct (IH J1 due1 base1 (log ++ ((fun t => (t, u64 J)) <$> ran)) extra1 Hw1 HW1 Hn1 Hh1 Hx1 Hf1)
    as (base2 & due2 & new & -> & Hw2 & HW2 & Hc2 & Hnd2 & Hs2 & Hnew).
  exists base2, due2, (((fun t => (t, J)) <$> ran) ++ new). split.
  { rewrite <- app_assoc. do 3 f_equal. unfold logged. rewrite fmap_app. f_equal. rewrite <- list_fmap_compose. done. }
  split; [done|]. split; [done|].
  assert ((((fun t => (t, J)) <$> ran) ++ new).*1 = ran ++ new.*1) as ->.
  { rewrite fmap_app, <- list_fmap_compose. f_equal. apply list_fmap_id. }
  assert (forall t D, (t, D) ∈ new -> due !! t = Some D /\ J <= D <= N /\ t ∉ ran) as Hnew'.
  { intros t D Ht. destruct (Hnew t D Ht) as [HD HDN]. destruct (ch_due _ _ _ _ _ _ Hc1 t D HD) as [HD0|]; [|lia].
    split; [done|]. assert (J < D) as HJD.
    { destruct HJ1 as [->|(-> & Hl & _)]; [lia|]. apply Hl in HD. lia. }
    split; [lia|]. intros Hr. apply Hran in Hr. rewrite Hr in HD0. injection HD0. lia. }
  split; [eapply changed_weaken; [apply touched_app|by eapply changed_trans]|]. split.
  { apply NoDup_app. split; [done|]. split; [|done]. intros t Hr ([t' D] & -> & Ht)%list_elem_of_fmap.
    by destruct (Hnew' t' D Ht) as (_ & _ & ?). }
  split.
  - rewrite fmap_app. apply StronglySorted_app_2; [|by apply same_tick_sorted|done].
    intros a b Ha ([t D] & -> & Ht)%list_elem_of_fmap. apply same_tick in Ha as ->. destruct (Hnew' t D Ht) as (_ & ? & _). cbn. lia.
  - intros t D [Hr|Ht]%elem_of_app; [|by destruct (Hnew' t D Ht) as (? & ? & _)].
    apply list_elem_of_fmap in Hr as (t' & [= -> ->] & Hr). split; [by apply Hran|lia].
Qed.
End Handlers.
