(* ===== verification/TimerProps.v ===== *)
(** * The timer wheel: timers run on time

    Over every history of calls and runs, a timer runs at the tick it is due,
    once, and in the order of the ticks; a timer that was armed for a tick runs
    when that tick has come and not before. *)

From stdpp Require Import gmap list sorting.
From S2P Require Import Prelude TimerWheel TimerOps TimerRun.

(** ** Histories *)

(** A call with any expiry of the machine's width. *)
Definition call_fits (base : tvec_base) (c : timer_call) : Prop :=
  is_Some (timers base !! call_timer c)
  /\ match c with CallModTimer _ e | CallModTimerPending _ e => 0 <= e < 2 ^ 64 | CallDelTimer _ => True end.

(** [wheel_reachable N J base]: the time is [N], and the wheel, at the tick [J],
    has come to [base]. *)
Inductive wheel_reachable : Z -> Z -> tvec_base -> Prop :=
| wr_init N ts :
    (forall t timer, ts !! t = Some timer -> timer_fits timer) -> Z.of_nat (size ts) < 2 ^ 64 ->
    wheel_reachable N N (init_timers_cpu (u64 N) ts)
| wr_later N N' J base :
    wheel_reachable N J base -> N <= N' -> N' - J < 2 ^ 61 -> wheel_reachable N' J base
| wr_call N J c base base' J' :
    wheel_reachable N J base -> call_fits base c -> do_timer_call (u64 N) c base = Ok base' ->
    J' = J \/ J' = N -> timer_jiffies base' = u64 J' -> wheel_reachable N J' base'
| wr_run N J fn fuel base base' log J' :
    wheel_reachable N J base -> (forall t, handler_ok N base (fn t)) -> (Z.to_nat (N + 2 - J) <= fuel)%nat ->
    __run_timers fn fuel (u64 N) base = Ok (base', log) ->
    J' = N \/ J' = N + 1 -> timer_jiffies base' = u64 J' -> wheel_reachable N J' base'.

Definition wheel_at (N J : Z) (base : tvec_base) : Prop :=
  near N J /\ exists due, wheel_ok J due base /\ work_list base = [].

Lemma init_ok N ts :
  (forall t timer, ts !! t = Some timer -> timer_fits timer) -> Z.of_nat (size ts) < 2 ^ 64 ->
  wheel_ok N ∅ (init_timers_cpu (u64 N) ts).
Proof.
  intros Hf Hs. assert (forall tv i, bucket (init_timers_cpu (u64 N) ts) tv i = []) as HB by done.
  assert (forall t timer, timers (init_timers_cpu (u64 N) ts) !! t = Some timer -> t_pending timer = false /\ timer_fits timer) as HT.
  { intros t timer. cbn. rewrite lookup_fmap_Some. intros (tm & <- & Ht). by specialize (Hf t tm Ht). }
  split; try done; try (intros * H; by apply elem_of_nil in H); try apply NoDup_nil_2.
  - intros t [D [=]].
  - intros tv i. apply NoDup_nil_2.
  - intros t timer Ht. destruct (HT t timer Ht) as [-> _]. split; [done|]. intros [D [=]].
  - intros t [D [=]].
  - intros t timer Ht. apply (HT t timer Ht).
  - intros t timer Ht. apply (HT t timer Ht).
  - cbn. by rewrite map_size_fmap.
Qed.

(** ** Calls in general *)

Lemma u64_nearest N e : 0 <= e < 2 ^ 64 -> exists E, e = u64 E /\ - 2 ^ 63 <= E - N < 2 ^ 63.
Proof.
  intros He. pose proof (u64_bounds (e - N)) as Hr. pose proof (u64_add_sub N e) as Ha. rewrite (u64_small e He) in Ha.
  destruct (decide (u64 (e - N) < 2 ^ 63)).
  - exists (N + u64 (e - N)). split; [done|lia].
  - exists (N + u64 (e - N) - 2 ^ 64). split; [|lia]. rewrite <- Ha at 1. rewrite !u64_mod.
    rewrite <- (Z_mod_plus_full _ (-1)). f_equal.
Qed.

Lemma mod_timer_any N J due base t timer e :
  wheel_ok J due base -> timers base !! t = Some timer -> 0 <= e < 2 ^ 64 ->
  exists ret base' J' due', mod_timer (u64 N) t e base = Ok (ret, base')
    /\ wheel_ok J' due' base' /\ same_timers base base' /\ (J' = J \/ J' = N).
Proof.
  intros Hw Ht He. unfold mod_timer, with_timer. rewrite Ht. cbn zeta.
  destruct (u64_nearest N e He) as (E & -> & HE). pose proof (wi_slack _ _ _ _ Hw _ _ Ht) as Hsl.
  destruct (apply_slack_ok N E timer HE ltac:(lia)) as (E' & -> & _).
  destruct (t_pending timer && _); [exists 1, base, J, due; split; [done|]; split; [done|]; split; [done|by left]|].
  destruct (__mod_timer_ok N J due base t timer (u64 E') false Hw Ht (u64_bounds _)) as (ret & base' & J' & due' & -> & ? & ? & HJ).
  exists ret, base', J', due'. split; [done|]. split; [done|]. split; [done|].
  destruct HJ as [(? & _)|(-> & _)]; [by left|]. unfold caught_up. destruct (decide _); auto.
Qed.

Lemma do_timer_call_any N J due base c :
  wheel_ok J due base -> call_fits base c ->
  exists base' J' due', do_timer_call (u64 N) c base = Ok base'
    /\ wheel_ok J' due' base' /\ same_timers base base' /\ (J' = J \/ J' = N).
Proof.
  intros Hw [[timer Ht] He]. destruct c as [t e|t e|t]; cbn in Ht, He |- *.
  - destruct (mod_timer_any N J due base t timer e Hw Ht He) as (ret & base' & J' & due' & -> & ?). by exists base', J', due'.
  - unfold mod_timer_pending.
    destruct (__mod_timer_ok N J due base t timer e true Hw Ht He) as (ret & base' & J' & due' & -> & ? & ? & HJ).
    exists base', J', due'. split; [done|]. split; [done|]. split; [done|].
    destruct HJ as [(? & _)|(-> & _)]; [by left|]. unfold caught_up. destruct (decide _); auto.
  - destruct (del_timer_ok N J due base t timer Hw Ht) as (ret & base' & J' & -> & ? & ? & HJ & _).
    exists base', J', (delete t due). split; [done|]. split; [done|]. split; [done|].
    destruct HJ as [?| ->]; [by left|]. unfold caught_up. destruct (decide _); auto.
Qed.

(** ** Runs *)

Lemma run_timers_ok fn N J due base fuel :
  wheel_ok J due base -> work_list base = [] -> near N J -> (forall t, handler_ok N base (fn t)) ->
  (Z.to_nat (N + 2 - J) <= fuel)%nat ->
  exists base' J' due' new, __run_timers fn fuel (u64 N) base = Ok (base', logged new)
    /\ wheel_ok J' due' base' /\ work_list base' = [] /\ (J' = N \/ J' = N + 1)
    /\ all_later N due' /\ changed N (touched fn new.*1) due base due' base'
    /\ NoDup new.*1 /\ StronglySorted Z.le new.*2
    /\ forall t D, (t, D) ∈ new -> due !! t = Some D /\ J <= D <= N.
Proof.
  intros Hw HW Hn Hh Hf. unfold __run_timers, catchup_timer_jiffies. rewrite (all_timers_zero J due [] base Hw).
  case_bool_decide as Hd.
  - pose proof (catchup_ok N J due base Hw) as Hw'. unfold caught_up, catchup_timer_jiffies in Hw'.
    rewrite (all_timers_zero J due [] base Hw), decide_True, bool_decide_eq_true_2 in Hw' by done. cbn in Hw'.
    exists (set_timer_jiffies (u64 N) base), N, due, []. split; [done|]. split; [done|]. split; [done|]. split; [by left|].
    split; [intros x D; by rewrite Hd|]. split; [by split; auto|]. split; [apply NoDup_nil_2|].
    split; [constructor|by intros ? ? ?%elem_of_nil].
  - destruct (run_loop_ok fn N fuel J due base [] 1 Hw HW Hn Hh) as (base' & due' & new & -> & Hw' & HW' & Hc & Hnd & Hs & Hnew);
      [done|unfold near in Hn; lia|].
    cbn [obind]. exists (set_running None base'), (N + 1), due', new. split; [done|].
    split; [by apply wheel_ok_running|]. split; [done|]. split; [by right|]. split.
    { intros x D HD. destruct (due_ahead _ _ _ _ _ Hw' HD) as [|[Hx _]]; [lia|]. rewrite HW' in Hx. by apply elem_of_nil in Hx. }
    split; [|done]. destruct Hc as [D O S]. by split.
Qed.

Lemma tick_unique N J J' : u64 J = u64 J' -> N - 2 ^ 62 < J < N + 2 ^ 62 -> N - 2 ^ 62 < J' < N + 2 ^ 62 -> J = J'.
Proof. rewrite !u64_mod. intros He H1 H2. Z.to_euclidean_division_equations. lia. Qed.

Lemma reachable_at N J base : wheel_reachable N J base -> wheel_at N J base.
Proof.
  induction 1 as [N ts Hf Hs|N N' J base _ [Hn (due & Hw & HW)] Hle Hlag|
    N J c base base' J' _ [Hn (due & Hw & HW)] Hc Heq HJ Htj|N J fn fuel base base' log J' _ [Hn (due & Hw & HW)] Hh Hf Heq HJ Htj].
  - split; [unfold near; lia|]. exists ∅. split; [by apply init_ok|done].
  - split; [unfold near in *; lia|]. by exists due.
  - destruct (do_timer_call_any N J due base c Hw Hc) as (base1 & J1 & due1 & Heq1 & Hw1 & [_ Hsub] & HJ1).
    rewrite Heq in Heq1. injection Heq1 as <-. unfold near in *.
    assert (J1 = J') as -> by (apply (tick_unique N); [by rewrite <- (wi_jiffies _ _ _ _ Hw1)|lia|lia]).
    split; [unfold near; lia|]. exists due1. split; [done|]. rewrite HW in Hsub. by apply sublist_nil_r in Hsub.
  - destruct (run_timers_ok fn N J due base fuel Hw HW Hn Hh Hf) as (base1 & J1 & due1 & new & Heq1 & Hw1 & HW1 & HJ1 & _).
    rewrite Heq in Heq1. injection Heq1 as <- _. unfold near in *.
    assert (J1 = J') as -> by (apply (tick_unique N); [by rewrite <- (wi_jiffies _ _ _ _ Hw1)|lia|lia]).
    split; [unfold near; lia|]. by exists due1.
Qed.

(** A queued timer is due when its [expires] says. *)
Lemma due_pending J due base t D :
  wheel_ok J due base -> work_list base = [] ->
  due !! t = Some D <-> exists timer, timers base !! t = Some timer /\ t_pending timer = true /\ D = tick_of J (t_expires timer).
Proof.
  intros Hw HW. split.
  - intros HD. destruct (wi_queued _ _ _ _ Hw t) as [[]%elem_of_nil|[Hk|(tv & i & Hb)]]; [by rewrite HD|..].
    + rewrite HW in Hk. by apply elem_of_nil in Hk.
    + destruct (wi_placed _ _ _ _ Hw t tv i Hb) as (D' & timer & HD' & Ht & _ & _ & E). exists timer.
      split; [done|]. split; [apply (wi_pending _ _ _ _ Hw t timer Ht); by rewrite HD|congruence].
  - intros (timer & Ht & Hp & ->). destruct (queued_due J due base t timer Hw Ht Hp) as [|[_ HD]]; [done|].
    destruct (due_ahead _ _ _ _ _ Hw HD) as [|[Hk _]]; [lia|]. rewrite HW in Hk. by apply elem_of_nil in Hk.
Qed.

(** ** The properties *)

Lemma touched_elem fn ran t :
  t ∈ touched fn ran -> t ∈ ran \/ exists x c, x ∈ ran /\ c ∈ fn x /\ call_timer c = t.
Proof.
  unfold touched. rewrite elem_of_app, list_elem_of_bind. intros [|(x & Ht & Hx)]; [by left|right].
  apply list_elem_of_fmap in Ht as (c & -> & Hc). by exists x, c.
Qed.

(** C9. [__run_timers] ends, for every wheel that calls and runs can lead to
    and whatever timers the handlers arm for later ticks or remove; it runs
    only queued timers that have come due, each once and for the tick it is
    due, in the order of the ticks; and it runs all of them, but for those a
    handler that ran has moved or removed. *)
Theorem run_timers_on_time fn N J base fuel :
  wheel_reachable N J base -> (forall t, handler_ok N base (fn t)) -> (Z.to_nat (N + 2 - J) <= fuel)%nat ->
  exists base' new, __run_timers fn fuel (u64 N) base = Ok (base', logged new)
    /\ NoDup new.*1 /\ StronglySorted Z.le new.*2
    /\ (forall t D, (t, D) ∈ new -> exists timer, timers base !! t = Some timer /\ t_pending timer = true
          /\ D = tick_of J (t_expires timer) /\ D <= N)
    /\ (forall t timer, timers base !! t = Some timer -> t_pending timer = true -> tick_of J (t_expires timer) <= N ->
          (t, tick_of J (t_expires timer)) ∈ new
          \/ exists x c, x ∈ new.*1 /\ c ∈ fn x /\ call_timer c = t).
Proof.
  intros [Hn (due & Hw & HW)]%reachable_at Hh Hf.
  destruct (run_timers_ok fn N J due base fuel Hw HW Hn Hh Hf)
    as (base' & J' & due' & new & Heq & Hw' & HW' & _ & Hl & Hc & Hnd & Hs & Hnew).
  exists base', new. split; [done|]. split; [done|]. split; [done|]. split.
  - intros t D Ht. destruct (Hnew t D Ht) as [HD HDN]. apply (due_pending J due base t D Hw HW) in HD as (timer & ? & ? & ?).
    exists timer. split; [done|]. split; [done|]. split; [done|lia].
  - intros t timer Ht Hp HD. pose proof (proj2 (due_pending J due base t _ Hw HW) (ex_intro _ timer (conj Ht (conj Hp eq_refl)))) as Hdue.
    destruct (decide (t ∈ touched fn new.*1)) as [Htc|Hnt].
    + destruct (touched_elem fn _ t Htc) as [([t' D] & -> & Hin)%list_elem_of_fmap|]; [left|by right].
      cbn in *. destruct (Hnew t' D Hin) as [HD' _]. rewrite HD' in Hdue. by injection Hdue as <-.
    + exfalso. rewrite <- (ch_others _ _ _ _ _ _ Hc t Hnt) in Hdue. apply Hl in Hdue. lia.
Qed.

(** C10. A timer armed by [mod_timer] for a tick [E] to come is due at a tick
    between [E] and [E] and its slack, and the next [__run_timers], at any later
    time, runs it exactly when that tick has come. *)
Theorem armed_timer_fires N J base t timer E :
  wheel_reachable N J base -> timers base !! t = Some timer -> N < E < N + 2 ^ 62 ->
  exists ret base1 J1 E', mod_timer (u64 N) t (u64 E) base = Ok (ret, base1)
    /\ E <= E' <= E + slack_of N E timer /\ wheel_reachable N J1 base1
    /\ forall M fn fuel, N <= M -> M - J1 < 2 ^ 61 -> (forall x, handler_ok M base1 (fn x)) ->
         (forall x c, x <> t -> c ∈ fn x -> call_timer c <> t) -> (Z.to_nat (M + 2 - J1) <= fuel)%nat ->
         exists base2 log, __run_timers fn fuel (u64 M) base1 = Ok (base2, log) /\ (t ∈ log.*1 <-> E' <= M).
Proof.
  intros Hr Ht HE. destruct (reachable_at _ _ _ Hr) as [Hn (due & Hw & HW)].
  destruct (mod_timer_ok N J due base t timer E Hw Ht Hn HE) as (ret & base1 & J1 & E' & Heq & HE' & Hw1 & Hs & HJ).
  assert (J1 = J \/ J1 = N) as HJN by (destruct HJ as [->| ->]; [by left|]; unfold caught_up; destruct (decide _); auto).
  assert (work_list base1 = []) as HW1 by (destruct Hs as [_ Hs]; rewrite HW in Hs; by apply sublist_nil_r in Hs).
  exists ret, base1, J1, E'. split; [done|]. split; [done|]. split.
  { eapply (wr_call N J (CallModTimer t (u64 E))); [done| |cbn; by rewrite Heq|done|apply Hw1].
    split; [cbn; by rewrite Ht|apply u64_bounds]. }
  intros M fn fuel HM Hlag Hh Hoth Hf.
  destruct (run_timers_ok fn M J1 _ base1 fuel Hw1 HW1) as (base2 & J2 & due2 & new & -> & _ & _ & _ & Hl & Hc & _ & _ & Hnew);
    [unfold near in *; lia|done|done|].
  exists base2, (logged new). split; [done|].
  assert ((logged new).*1 = new.*1) as -> by (unfold logged; by rewrite <- list_fmap_compose).
  split.
  - intros ([t' D] & -> & Hin)%list_elem_of_fmap. cbn in *. destruct (Hnew t' D Hin) as [HD HDM].
    rewrite lookup_insert_eq in HD. injection HD as ->. lia.
  - intros HEM. destruct (decide (t ∈ touched fn new.*1)) as [Htc|Hnt].
    + destruct (touched_elem fn _ t Htc) as [|(x & c & Hx & Hcx & Hct)]; [done|].
      destruct (decide (x = t)) as [->|Hne]; [done|]. by destruct (Hoth x c Hne Hcx).
    + exfalso. assert (due2 !! t = Some E') as HD by (rewrite (ch_others _ _ _ _ _ _ Hc t Hnt); apply lookup_insert_eq).
      apply Hl in HD. lia.
Qed.

(** ** On concrete wheels *)

Definition demo_timers : gmap positive timer_list :=
  {[1%positive := Timer 0 false (-1) false; 2%positive := Timer 0 false (-1) false; 3%positive := Timer 0 true 40 false]}.

Definition after (o : outcome tvec_base) : tvec_base :=
  match o with Ok base => base | _ => init_timers_cpu 0 demo_timers end.

(** At tick 100: timer 1 for tick 103, timer 2 for 400 and timer 3 for 402, which
    their slack makes 401 and 416. *)
Definition demo_base0 : tvec_base := init_timers_cpu 100 demo_timers.
Definition demo_base1 : tvec_base := after (do_timer_call 100 (CallModTimer 1 103) demo_base0).
Definition demo_base2 : tvec_base := after (do_timer_call 100 (CallModTimer 2 400) demo_base1).
Definition demo_base3 : tvec_base := after (do_timer_call 100 (CallModTimer 3 402) demo_base2).

Lemma demo_fits t timer : demo_timers !! t = Some timer -> timer_fits timer.
Proof.
  unfold demo_timers. rewrite !lookup_insert_Some, lookup_singleton_Some.
  intros [[_ <-]|[_ [[_ <-]|[_ [_ <-]]]]]; split; cbn; lia.
Qed.

Lemma demo_reachable1 : wheel_reachable 100 100 demo_base1.
Proof.
  apply (wr_call 100 100 (CallModTimer 1 103) demo_base0).
  - apply (wr_init 100 demo_timers); [apply demo_fits|by vm_compute].
  - by split; [vm_compute; eexists|cbn].
  - vm_compute. reflexivity.
  - by left.
  - vm_compute. reflexivity.
Qed.

Lemma demo_wheel_reachable : wheel_reachable 100 100 demo_base3.
Proof.
  apply (wr_call 100 100 (CallModTimer 3 402) demo_base2); [apply (wr_call 100 100 (CallModTimer 2 400) demo_base1)|..].
  1: apply demo_reachable1.
  all: try (by left); try (vm_compute; reflexivity).
  all: by split; [vm_compute; eexists|cbn].
Qed.

(** The handler of timer 1 arms it again; that of timer 2 removes timer 3. *)
Definition demo_fn (t : positive) : list timer_call :=
  match t with 1%positive => [CallModTimer 1 1000] | 2%positive => [CallDelTimer 3] | _ => [] end.

Lemma demo_handlers N base :
  (forall t, is_Some (demo_timers !! t) -> is_Some (timers base !! t)) -> N < 1000 < N + 2 ^ 62 ->
  forall t, handler_ok N base (demo_fn t).
Proof.
  intros Hb HN t c Hc. destruct t as [t|t|]; [|destruct t|]; cbn in Hc; try (by apply elem_of_nil in Hc);
    apply list_elem_of_singleton in Hc as ->; (split; [apply Hb; by eexists|]); [done|].
  cbn. by exists 1000.
Qed.

Lemma demo_same t : is_Some (demo_timers !! t) -> is_Some (timers demo_base3 !! t).
Proof.
  intros [tm Ht]. unfold demo_timers in Ht. rewrite !lookup_insert_Some, lookup_singleton_Some in Ht.
  destruct Ht as [[<- _]|[_ [[<- _]|[_ [<- _]]]]]; vm_compute; by eexists.
Qed.

Definition demo_base4 : tvec_base := after (do_timer_call (u64 100) (CallModTimer 2 (u64 500)) demo_base3).

Lemma demo_kept t : is_Some (demo_timers !! t) -> is_Some (timers demo_base4 !! t).
Proof.
  intros [tm Ht]. unfold demo_timers in Ht. rewrite !lookup_insert_Some, lookup_singleton_Some in Ht.
  destruct Ht as [[<- _]|[_ [[<- _]|[_ [<- _]]]]]; vm_compute; by eexists.
Qed.

Lemma run_timers_on_time_witness :
  exists base' new, __run_timers demo_fn 400 (u64 450) demo_base3 = Ok (base', logged new) /\ NoDup new.*1.
Proof.
  destruct (run_timers_on_time demo_fn 450 100 demo_base3 400) as (base' & new & H1 & H2 & _).
  - apply (wr_later 100); [apply demo_wheel_reachable|lia|lia].
  - apply demo_handlers; [apply demo_same|lia].
  - lia.
  - exists base', new. exact (conj H1 H2).
Defined.

Lemma armed_timer_fires_witness :
  exists base2 log, __run_timers demo_fn 702 (u64 700) demo_base4 = Ok (base2, log) /\ 2%positive ∈ log.*1.
Proof.
  destruct (armed_timer_fires 100 100 demo_base3 2 (Timer 401 false (-1) true) 500)
    as (ret & base1 & J1 & E' & Heq & HE & Hr & Hrun); [apply demo_wheel_reachable|vm_compute; reflexivity|lia|].
  assert (demo_base4 = base1) as <- by (unfold demo_base4; cbn [do_timer_call]; rewrite Heq; reflexivity).
  destruct (reachable_at _ _ _ Hr) as [Hn (due & Hw & _)].
  assert (J1 = 100) as ->.
  { apply (tick_unique 100); [rewrite <- (wi_jiffies _ _ _ _ Hw); vm_compute; reflexivity|unfold near in Hn; lia|lia]. }
  destruct (Hrun 700 demo_fn 702%nat) as (base2 & log & Hlog & Hiff); [lia|lia|..].
  - apply demo_handlers; [|lia]. intros t Ht. apply (demo_kept t Ht).
  - intros x c Hx Hc Hct. destruct x as [x|x|]; [|destruct x|]; cbn in Hc;
      try (by apply elem_of_nil in Hc); apply list_elem_of_singleton in Hc; subst; done.
  - lia.
  - exists base2, log. split; [exact Hlog|]. apply Hiff. revert HE. vm_compute (slack_of _ _ _). lia.
Defined.

(** Timers 1 and 2 run at their ticks, and timer 3 not at all. *)
Example demo_runs :
  (let! (_, log) := __run_timers demo_fn 400 450 demo_base3 in Ok log) = Ok [(1%positive, 103); (2%positive, 401)].
Proof. vm_compute. reflexivity. Qed.

(** ** Where the wheel falls short *)

(** The handler of timer 1 arms it for the present tick. *)
Definition rearm_now (t : positive) : list timer_call := [CallModTimer 1 110].

Lemma run_loop_stuck fn jiffies base ran fuel :
  run_tick fn jiffies base = Ok (base, ran) -> time_after_eq jiffies (timer_jiffies base) = true ->
  forall log, run_loop fn fuel jiffies base log = NoFuel.
Proof.
  intros Hr Ht. induction fuel as [|fuel IH]; intros log; cbn [run_loop]; rewrite Ht; [done|].
  rewrite Hr. cbn [obind]. apply IH.
Qed.

Definition rearmed_base : tvec_base :=
  after (do_timer_call 110 (CallModTimer 1 110) (init_timers_cpu 110 demo_timers)).

(** With one timer on the wheel, [detach_expired_timer] sets the tick back to
    [jiffies] when it takes that timer off, so that a handler that arms it for
    the present tick has it run again at once, without end. *)
Example rearmed_for_now_never_ends fuel : __run_timers rearm_now fuel 110 rearmed_base = NoFuel.
Proof.
  change (__run_timers rearm_now fuel 110 rearmed_base)
    with (let! (base, log) := run_loop rearm_now fuel 110 rearmed_base [] in Ok (set_running None base, log)).
  destruct fuel as [|fuel]; [reflexivity|]. cbn [run_loop].
  replace (time_after_eq 110 (timer_jiffies rearmed_base)) with true by (vm_compute; reflexivity).
  replace (run_tick rearm_now 110 rearmed_base) with (Ok (set_running (Some 1%positive) rearmed_base, [1%positive]))
    by (vm_compute; reflexivity).
  cbn [obind]. rewrite (run_loop_stuck _ _ _ [1%positive]); [reflexivity|vm_compute; reflexivity..].
Qed.

(** A timer for a far tick waits in tv5 no longer than [MAX_TVAL] ticks, before
    a timer 2 that comes due earlier than it: [__next_timer_interrupt] finds
    the first and names a tick after the second is due. *)
Definition far_base : tvec_base :=
  after (do_timer_call (2 ^ 32 - 2 ^ 27) (CallModTimer 2 (2 ^ 32 + 2 ^ 26))
    (Base (2 ^ 32 - 2 ^ 27) (2 ^ 40) 1 1 {[(4%nat, 63) := [1%positive]]} [] None
       {[1%positive := Timer (2 ^ 40) false 0 true; 2%positive := Timer 0 false 0 false]})).

Example next_timer_interrupt_late :
  (t_expires <$> timers far_base !! 2%positive, __next_timer_interrupt far_base) = (Some (2 ^ 32 + 2 ^ 26), 2 ^ 32 - 2 ^ 27 + 2 ^ 30 - 1).
Proof. vm_compute. reflexivity. Qed.

(** The far timer is where [__internal_add_timer] put it at tick 0. *)
Example far_timer_position : wheel_position 0 (2 ^ 40) = (4%nat, 63).
Proof. vm_compute. reflexivity. Qed.
