(* ===== verification/Bootmem.v ===== *)
(** * From the boot-time memory map to the page allocator (mm/nobootmem.c)

    Early allocations are served by memblock; when the page allocator takes
    over, every page of free memory is handed to it, in blocks as large as
    their alignment allows. *)

From stdpp Require Import gmap list.
From S2P Require Import Prelude Memblock Buddy.

Section Bootmem.
Context `{MemblockConfig} `{ZoneConfig}.

(** ** Early allocations *)

(** The result is a physical address; 0 is NULL. *)
Definition __alloc_memory_core_early (nid size align goal limit : Z) (st : memblock) : outcome (Z * memblock) :=
  let limit := if limit >? current_limit st then current_limit st else limit in
  let! addr := memblock_find_in_range_node st size align goal limit nid in
  if addr =? 0 then Ok (0, st)
  else
    let! (ret, st) := memblock_reserve addr size st in
    if negb (ret =? 0) then Ok (0, st) else Ok (addr, st).

(** Without the fallback to the slab allocator, which is not up yet. *)
Definition ___alloc_bootmem_nopanic (size align goal limit : Z) (st : memblock) : outcome (Z * memblock) :=
  let! (ptr, st) := __alloc_memory_core_early NUMA_NO_NODE size align goal limit st in
  if negb (ptr =? 0) then Ok (ptr, st)
  else if negb (goal =? 0) then __alloc_memory_core_early NUMA_NO_NODE size align 0 limit st
  else Ok (0, st).

Definition or_panic (r : outcome (Z * memblock)) : outcome (Z * memblock) :=
  let! (mem, st) := r in if negb (mem =? 0) then Ok (mem, st) else Panic.

Definition ___alloc_bootmem (size align goal limit : Z) (st : memblock) : outcome (Z * memblock) :=
  or_panic (___alloc_bootmem_nopanic size align goal limit st).

Definition __alloc_bootmem_nopanic (size align goal : Z) (st : memblock) : outcome (Z * memblock) :=
  ___alloc_bootmem_nopanic size align goal U64_MAX st.

Definition __alloc_bootmem (size align goal : Z) (st : memblock) : outcome (Z * memblock) :=
  ___alloc_bootmem size align goal U64_MAX st.

(** One round of the loop: first the node, then any. *)
Definition node_round (node_id size align goal limit : Z) (st : memblock) : outcome (Z * memblock) :=
  let! (ptr, st) := __alloc_memory_core_early node_id size align goal limit st in
  if negb (ptr =? 0) then Ok (ptr, st)
  else __alloc_memory_core_early NUMA_NO_NODE size align goal limit st.

Definition ___alloc_bootmem_node_nopanic (node_id size align goal limit : Z) (st : memblock)
    : outcome (Z * memblock) :=
  let! (ptr, st) := node_round node_id size align goal limit st in
  if negb (ptr =? 0) then Ok (ptr, st)
  else if negb (goal =? 0) then node_round node_id size align 0 limit st
  else Ok (0, st).

Definition ___alloc_bootmem_node (node_id size align goal limit : Z) (st : memblock) : outcome (Z * memblock) :=
  or_panic (___alloc_bootmem_node_nopanic node_id size align goal limit st).

Definition ARCH_LOW_ADDRESS_LIMIT : Z := 4294967295.

Definition __alloc_bootmem_low (size align goal : Z) (st : memblock) : outcome (Z * memblock) :=
  ___alloc_bootmem size align goal ARCH_LOW_ADDRESS_LIMIT st.

(** ** Handing over *)

(** include/asm-generic/bitops/__ffs.h *)
Definition ffs_step (width : Z) (s : Z * Z) : Z * Z :=
  let '(num, word) := s in
  if Z.land word (Z.ones width) =? 0 then (num + width, Z.shiftr word width) else (num, word).

Definition __ffs (word : Z) : Z :=
  let '(num, word) := foldl (fun s width => ffs_step width s) (0, word) [32; 16; 8; 4; 2] in
  if Z.land word 1 =? 0 then num + 1 else num.

(** The lists of this processor, the zone and its [managed_pages]. *)
Record page_state := PageState {
  ps_pcp : per_cpu_pages;
  ps_zone : zone;
  ps_managed : Z;
}.

(** The pages are clean: nothing has used them. *)
Definition __free_pages_bootmem (page : Z) (order : nat) (s : page_state) : outcome page_state :=
  let managed := u64 (ps_managed s + pages_of order) in
  let! (pcp, z) := __free_pages true false false page order (ps_pcp s) (ps_zone s) in
  Ok (PageState pcp z managed).

(** A shift by a negative order is undefined. *)
Fixpoint shrink_order (order : nat) (start end_ : Z) : outcome nat :=
  if u64 (start + pages_of order) >? end_ then
    match order with O => Bug | S order => shrink_order order start end_ end
  else Ok order.

(** Every round frees a page or more. *)
Fixpoint __free_pages_memory (fuel : nat) (start end_ : Z) (s : page_state) : outcome page_state :=
  if start <? end_ then
    match fuel with
    | O => NoFuel
    | S fuel =>
        let! order := shrink_order (Nat.min (MAX_ORDER - 1) (Z.to_nat (__ffs start))) start end_ in
        let! s := __free_pages_bootmem start order s in
        __free_pages_memory fuel (u64 (start + pages_of order)) end_ s
    end
  else Ok s.

Definition __free_memory_core (max_low_pfn start end_ : Z) (s : page_state) : outcome (Z * page_state) :=
  let start_pfn := PFN_UP start in
  let end_pfn := Z.min (PFN_DOWN end_) max_low_pfn in
  if start_pfn >? end_pfn then Ok (0, s)
  else
    let! s := __free_pages_memory (Z.to_nat (end_pfn - start_pfn)) start_pfn end_pfn s in
    Ok (end_pfn - start_pfn, s).

Fixpoint free_ranges (max_low_pfn : Z) (ranges : list (Z * Z * Z)) (count : Z) (s : page_state)
    : outcome (Z * page_state) :=
  match ranges with
  | [] => Ok (count, s)
  | (start, end_, _) :: ranges =>
      let! (n, s) := __free_memory_core max_low_pfn start end_ s in
      free_ranges max_low_pfn ranges (u64 (count + n)) s
  end.

Definition free_low_memory_core_early (max_low_pfn : Z) (st : memblock) (s : page_state)
    : outcome (Z * memblock * page_state) :=
  let! (_, st) := memblock_clear_hotplug 0 U64_MAX st in
  let! ranges := for_each_free_mem_range st NUMA_NO_NODE in
  let! (count, s) := free_ranges max_low_pfn ranges 0 s in
  Ok (count, st, s).

Definition reset_all_zones_managed_pages (reset_managed_pages_done : bool) (s : page_state) : page_state :=
  if reset_managed_pages_done then s else PageState (ps_pcp s) (ps_zone s) 0.

(** The number of pages released, [totalram_pages], and what is left. *)
Definition free_all_bootmem (max_low_pfn totalram_pages : Z) (reset_managed_pages_done : bool) (st : memblock)
    (s : page_state) : outcome (Z * Z * memblock * page_state) :=
  let s := reset_all_zones_managed_pages reset_managed_pages_done s in
  let! (pages, st, s) := free_low_memory_core_early max_low_pfn st s in
  Ok (pages, u64 (totalram_pages + pages), st, s).

(** [free_bootmem_late]: single pages, when memblock is gone. *)
Fixpoint late_loop (n : nat) (cursor totalram_pages : Z) (s : page_state) : outcome (Z * page_state) :=
  match n with
  | O => Ok (totalram_pages, s)
  | S n =>
      let! s := __free_pages_bootmem cursor 0 s in
      late_loop n (cursor + 1) (u64 (totalram_pages + 1)) s
  end.

Definition free_bootmem_late (addr size totalram_pages : Z) (s : page_state) : outcome (Z * page_state) :=
  let cursor := PFN_UP addr in
  let end_ := PFN_DOWN (u64 (addr + size)) in
  late_loop (Z.to_nat (end_ - cursor)) cursor totalram_pages s.
End Bootmem.
