(* ===== verification/BootmemProps.v ===== *)
(** * The hand-over of memory at boot

    The blocks that [__free_pages_memory] frees are aligned and lie one after
    the other, so they add up to the pages of the range.  The pages the page
    allocator starts with are exactly the whole pages of free memory, each of
    them once. *)

From stdpp Require Import gmap list list_numbers sorting.
From S2P Require Import Prelude Memblock MemblockFacts MemblockSpec MemblockFind MemblockResize Buddy BuddyFacts BuddyOps BuddyPcp BuddyProps Bootmem.

(** ** The order of a block *)

Definition ffs_inv (w : Z) (s : Z * Z) : Prop := 0 <= s.1 /\ w = s.2 * 2 ^ s.1.

Lemma ffs_step_inv w width s : 0 <= width -> ffs_inv w s -> ffs_inv w (ffs_step width s).
Proof.
  intros Hw [Hn He]. destruct s as [num word]. cbn in *. unfold ffs_step. rewrite Z.land_ones by done.
  destruct (_ =? 0) eqn:Hm; zbool; [|done]. split; cbn; [lia|].
  rewrite Z.shiftr_div_pow2, Z.add_comm, Z.pow_add_r, Z.mul_assoc by lia. rewrite He. f_equal.
  pose proof (Z.div_mod word (2 ^ width) ltac:(apply Z.pow_nonzero; lia)). lia.
Qed.

Lemma ffs_divides w : 0 <= __ffs w /\ (2 ^ __ffs w | w).
Proof.
  unfold __ffs. cbn [foldl].
  pose proof (ffs_step_inv w 2 _ ltac:(lia) (ffs_step_inv w 4 _ ltac:(lia) (ffs_step_inv w 8 _ ltac:(lia)
    (ffs_step_inv w 16 _ ltac:(lia) (ffs_step_inv w 32 (0, w) ltac:(lia) ltac:(split; cbn; lia)))))) as [Hn He].
  destruct (ffs_step 2 _) as [num word]. cbn in *. rewrite (Z.land_ones word 1 ltac:(lia) : Z.land word 1 = _).
  destruct (_ =? 0) eqn:Hm; zbool; [|split; [done|by exists word]]. split; [lia|].
  exists (word / 2). rewrite Z.pow_add_r by lia. pose proof (Z.div_mod word 2 ltac:(lia)).
  change (2 ^ 1) with 2 in *. rewrite He at 1. nia.
Qed.

Lemma ffs_aligned w o : (o <= Z.to_nat (__ffs w))%nat -> aligned w o.
Proof.
  intros Ho. destruct (ffs_divides w) as [Hn [k Hk]]. exists (k * 2 ^ (__ffs w - Z.of_nat o)).
  unfold sz. rewrite <- Z.mul_assoc, <- Z.pow_add_r by lia. rewrite Hk at 1. do 2 f_equal. lia.
Qed.

Lemma sz_mono o o' : (o <= o')%nat -> sz o <= sz o'.
Proof. intros Ho. apply Z.pow_le_mono_r; lia. Qed.

Lemma shrink_order_ok order start end_ :
  0 <= start < end_ -> start + sz order < 2 ^ 64 ->
  exists o, shrink_order order start end_ = Ok o /\ (o <= order)%nat /\ start + sz o <= end_.
Proof.
  induction order as [|order IH]; intros Hse Hfit; cbn [shrink_order]; rewrite pages_of_sz;
    (rewrite u64_id by (unfold U64_MAX; match goal with |- context [sz ?o] => pose proof (sz_pos o) end; lia)).
  - change (sz 0) with 1 in *. destruct (_ >? _) eqn:Hg; zbool; [lia|]. exists 0%nat. split; [done|]. split; [lia|done].
  - destruct (_ >? _) eqn:Hg; zbool; [|exists (S order); split; [done|]; split; [lia|done]].
    destruct IH as (o & -> & Ho & Hle); [done|rewrite sz_S in Hfit; pose proof (sz_pos order); lia|].
    exists o. split; [done|]. split; [lia|done].
Qed.

(** ** Freeing a block that was in use *)

Section Handover.
Context `{MemblockConfig} `{CfgOk : ZoneConfigOk}.

Definition pages_of_list (L : list Z) (q : Z) : Prop := q ∈ L.

(** A block nobody knows of is handed to the allocator's caller. *)
Lemma sys_add L pcp z p o :
  sys_ok (pages_of_list L) pcp z [] -> good_block p o -> (forall q, in_block q p o -> q ∉ L) ->
  sys_ok (pages_of_list (L ++ seqZ p (sz o))) pcp z [(p, o)].
Proof using Type.
  intros [Hp [H1 H2 H3 H4]] Hg Hn. rewrite app_nil_r in *. split; [done|].
  assert (forall q, in_block q p o -> ~ free_page z q /\ ~ covered (single <$> pcp_pages pcp) q) as Hf.
  { intros q Hq. split; intros Hx; apply (Hn q Hq), H4; auto. }
  split; [done|..].
  - intros p' o' [Hin|Hin%list_elem_of_singleton]%elem_of_app; [by apply H2|]. injection Hin as -> ->.
    split; [done|]. intros q Hq. by apply Hf.
  - eapply separate_perm; [by rewrite Permutation_app_comm|]. cbn. split; [|done]. intros q Hq. by apply Hf.
  - intros q. unfold pages_of_list. rewrite elem_of_app, elem_of_seqZ. change (q ∈ L) with (pages_of_list L q). rewrite (H4 q).
    rewrite (covered_perm (_ ++ [(p, o)]) ([(p, o)] ++ (single <$> pcp_pages pcp)) q) by apply Permutation_app_comm. cbn.
    rewrite covered_cons. unfold in_block. tauto.
Qed.

Record handed (L : list Z) (s : page_state) : Prop := {
  hd_sys : sys_ok (pages_of_list L) (ps_pcp s) (ps_zone s) [];
  hd_passing : passing (ps_pcp s);
  hd_nodup : NoDup L;
  hd_managed : ps_managed s = Z.of_nat (length L);
}.

Lemma free_bootmem_ok L s p o :
  handed L s -> good_block p o -> (forall q, in_block q p o -> q ∉ L) -> Z.of_nat (length L) + sz o < 2 ^ 64 ->
  exists s', __free_pages_bootmem p o s = Ok s' /\ handed (L ++ seqZ p (sz o)) s'.
Proof using CfgOk.
  intros [Hs Hpass Hnd Hm] Hg Hn Hlen. unfold __free_pages_bootmem.
  destruct (__free_pages_sys _ true false false p o _ _ [] (sys_add L _ _ p o Hs Hg Hn)) as (pcp' & z' & -> & Hs' & Hp').
  cbn [obind]. eexists. split; [done|]. pose proof (sz_pos o). split; cbn.
  - destruct (o =? 0)%nat; exact Hs'.
  - by apply Hp'.
  - apply NoDup_app. split; [done|]. split; [|apply NoDup_seqZ]. intros q Hq Hq'%elem_of_seqZ. by apply (Hn q).
  - rewrite length_app, length_seqZ, Hm, pages_of_sz, u64_id by (unfold U64_MAX; lia). lia.
Qed.

Lemma free_pages_memory_ok fuel : forall start end_ L s,
  handed L s -> 0 <= start <= end_ -> end_ <= 2 ^ 63 -> (Z.to_nat (end_ - start) <= fuel)%nat ->
  (forall q, start <= q < end_ -> bad_range q = false /\ q ∉ L) -> Z.of_nat (length L) + (end_ - start) < 2 ^ 64 ->
  exists s', __free_pages_memory fuel start end_ s = Ok s' /\ handed (L ++ seqZ start (end_ - start)) s'.
Proof using CfgOk.
  induction fuel as [|fuel IH]; intros start end_ L s Hs Hse He Hf Hq Hlen; cbn [__free_pages_memory];
    destruct (start <? end_) eqn:Hlt; zbool; try lia.
  1, 3: rewrite seqZ_nil, app_nil_r by lia; by exists s.
  set (order := Nat.min (MAX_ORDER - 1) (Z.to_nat (__ffs start))).
  assert (sz order <= 1024) as Hsz by (apply (sz_mono order 10); unfold order, MAX_ORDER; lia).
  destruct (shrink_order_ok order start end_) as (o & -> & Ho & Hfit); [lia|lia|]. cbn [obind].
  pose proof (sz_pos o) as Hpos.
  destruct (free_bootmem_ok L s start o Hs) as (s1 & -> & Hs1).
  - split; [unfold order, MAX_ORDER in *; lia|lia|apply ffs_aligned; unfold order in Ho; lia|].
    intros q Hb. unfold in_block in Hb. apply Hq. lia.
  - intros q Hb. unfold in_block in Hb. apply Hq. lia.
  - lia.
  - cbn [obind]. rewrite pages_of_sz, u64_id by (unfold U64_MAX; lia).
    destruct (IH (start + sz o) end_ (L ++ seqZ start (sz o)) s1 Hs1) as (s2 & -> & Hs2); [lia|lia|lia|..].
    + intros q Hb. split; [apply Hq; lia|]. rewrite elem_of_app, elem_of_seqZ. intros [?|?]; [|lia]. by apply (Hq q); [lia|].
    + rewrite length_app, length_seqZ. lia.
    + exists s2. split; [done|]. rewrite <- app_assoc in Hs2.
      replace (end_ - start) with (sz o + (end_ - (start + sz o))) by lia. rewrite seqZ_app by lia. done.
Qed.

(** ** Pages of a range of addresses *)

Lemma pfn_up_le x q : 0 <= PAGE_SHIFT -> 0 <= x -> x + PAGE_SIZE <= 2 ^ 64 -> PFN_UP x <= q <-> x <= q * PAGE_SIZE.
Proof using Type.
  intros Hs Hx Hfit. unfold PFN_UP. assert (0 < PAGE_SIZE) as Hps by (by apply Z.pow_pos_nonneg).
  rewrite u64_id by (unfold U64_MAX; lia). rewrite Z.shiftr_div_pow2 by done. fold PAGE_SIZE.
  set (P := PAGE_SIZE) in *. pose proof (Z.div_mod (x + P - 1) P ltac:(lia)). pose proof (Z.mod_pos_bound (x + P - 1) P Hps).
  split; intros; nia.
Qed.

Lemma pfn_down_lt x q : 0 <= PAGE_SHIFT -> q < PFN_DOWN x <-> (q + 1) * PAGE_SIZE <= x.
Proof using Type.
  intros Hs. unfold PFN_DOWN. assert (0 < PAGE_SIZE) as Hps by (by apply Z.pow_pos_nonneg).
  rewrite Z.shiftr_div_pow2 by done. fold PAGE_SIZE. set (P := PAGE_SIZE) in *.
  pose proof (Z.div_mod x P ltac:(lia)). pose proof (Z.mod_pos_bound x P Hps). split; intros; nia.
Qed.
End Handover.

(** * The hand-over of memory at boot *)

(** ** The ranges of free memory *)

Lemma length_within (L : list Z) n : NoDup L -> (forall q, q ∈ L -> 0 <= q < n) -> 0 <= n -> Z.of_nat (length L) <= n.
Proof.
  intros Hnd Hr Hn. assert (length L <= length (seqZ 0 n))%nat as Hl.
  { apply submseteq_length, NoDup_submseteq; [done|]. intros q Hq%Hr. apply elem_of_seqZ. lia. }
  rewrite length_seqZ in Hl. lia.
Qed.

Section Ranges.
Context `{MemblockConfig} `{CfgOk : ZoneConfigOk}.
Context (max_low_pfn : Z) (Hmax : 0 <= max_low_pfn < 2 ^ 63) (Hshift : 0 <= PAGE_SHIFT).

(** The whole pages of a range, below the limit. *)
Definition range_pages (r : Z * Z * Z) : list Z :=
  seqZ (PFN_UP (range_start r)) (Z.min (PFN_DOWN (range_stop r)) max_low_pfn - PFN_UP (range_start r)).

Definition range_fits (r : Z * Z * Z) : Prop := 0 <= range_start r /\ range_start r + PAGE_SIZE <= 2 ^ 64.

Lemma elem_of_range_pages r q :
  range_fits r ->
  q ∈ range_pages r <-> (range_start r <= q * PAGE_SIZE /\ (q + 1) * PAGE_SIZE <= range_stop r) /\ q < max_low_pfn.
Proof using Hshift.
  intros [H0 Hf]. unfold range_pages. rewrite elem_of_seqZ.
  rewrite <- (pfn_up_le _ q Hshift H0 Hf), <- (pfn_down_lt _ q Hshift). lia.
Qed.

Lemma range_pages_pos r q : range_fits r -> q ∈ range_pages r -> 0 <= q < max_low_pfn.
Proof using Hshift.
  intros Hf Hq. apply elem_of_range_pages in Hq as [[Hs _] Hm]; [|done]. destruct Hf as [H0 _].
  assert (0 < PAGE_SIZE) by (by apply Z.pow_pos_nonneg). nia.
Qed.

Lemma free_memory_core_ok r L s :
  handed L s -> range_fits r -> (forall q, q ∈ L -> 0 <= q < max_low_pfn) ->
  (forall q, q ∈ range_pages r -> bad_range q = false /\ q ∉ L) ->
  exists s', __free_memory_core max_low_pfn (range_start r) (range_stop r) s
      = Ok (Z.of_nat (length (range_pages r)), s') /\ handed (L ++ range_pages r) s'.
Proof using CfgOk Hmax Hshift.
  intros Hs Hf HL Hq. unfold __free_memory_core. unfold range_pages in *.
  set (a := PFN_UP (range_start r)) in *. set (b := Z.min _ _) in *.
  assert (0 <= a) as Ha by (unfold a, PFN_UP; apply Z.shiftr_nonneg, u64_range).
  destruct (a >? b) eqn:Hab; zbool.
  { rewrite seqZ_nil, app_nil_r by lia. by exists s. }
  pose proof (length_within L max_low_pfn (hd_nodup _ _ Hs) HL ltac:(lia)) as Hlen.
  destruct (free_pages_memory_ok (Z.to_nat (b - a)) a b L s Hs) as (s' & -> & Hs'); [lia|unfold b; lia|done|..].
  - intros q Hb. apply Hq. apply elem_of_seqZ. lia.
  - unfold b. lia.
  - cbn [obind]. exists s'. split; [|done]. do 2 f_equal. rewrite length_seqZ. lia.
Qed.

Lemma free_ranges_ok ranges : forall L s,
  handed L s -> StronglySorted range_before ranges -> Forall range_fits ranges ->
  (forall r, r ∈ ranges -> range_start r <= range_stop r) ->
  (forall q, q ∈ L -> 0 <= q < max_low_pfn) ->
  (forall q r, q ∈ L -> r ∈ ranges -> (q + 1) * PAGE_SIZE <= range_start r) ->
  (forall q r, r ∈ ranges -> q ∈ range_pages r -> bad_range q = false) ->
  exists s', free_ranges max_low_pfn ranges (Z.of_nat (length L)) s
      = Ok (Z.of_nat (length (L ++ (ranges ≫= range_pages))), s')
    /\ handed (L ++ (ranges ≫= range_pages)) s'.
Proof using CfgOk Hmax Hshift.
  induction ranges as [|r ranges IH]; intros L s Hs Hsort Hfit Hprop HL Hbelow Hgood; cbn [free_ranges].
  { cbn. rewrite app_nil_r. by exists s. }
  apply Forall_cons in Hfit as [Hr Hfit]. apply StronglySorted_cons in Hsort as [Hfirst Hsort].
  assert (0 < PAGE_SIZE) as HP by (by apply Z.pow_pos_nonneg).
  destruct (free_memory_core_ok r L s Hs Hr HL) as (s1 & Heq & Hs1).
  { intros q Hq. split; [by apply (Hgood q r); [left|]|]. intros HqL.
    specialize (Hbelow q r HqL ltac:(by left)). apply elem_of_range_pages in Hq as [[Hq _] _]; [|done]. lia. }
  destruct r as [[start end_] nid]. change (range_start (start, end_, nid)) with start in Heq.
  change (range_stop (start, end_, nid)) with end_ in Heq. rewrite Heq. cbn [obind]. clear Heq.
  set (r := (start, end_, nid)) in *. set (L1 := L ++ range_pages r) in *.
  assert (forall q, q ∈ L1 -> 0 <= q < max_low_pfn) as HL1.
  { intros q [Hq|Hq]%elem_of_app; [by apply HL|by apply (range_pages_pos r)]. }
  pose proof (length_within L1 max_low_pfn (hd_nodup _ _ Hs1) HL1 ltac:(lia)) as Hlen.
  rewrite u64_id by (unfold L1 in Hlen; rewrite length_app in Hlen; unfold U64_MAX; lia).
  replace (Z.of_nat (length L) + Z.of_nat (length (range_pages r))) with (Z.of_nat (length L1))
    by (unfold L1; rewrite length_app; lia).
  rewrite bind_cons, app_assoc. fold L1. apply IH; try done.
  - intros r' Hr'. apply Hprop. by right.
  - intros q r' [Hq|Hq]%elem_of_app Hr'; [apply Hbelow; [done|by right]|].
    apply elem_of_range_pages in Hq as [[_ Hq] _]; [|done]. eapply Forall_forall in Hfirst; [|done].
    unfold range_before in Hfirst. lia.
  - intros q r' Hr'. apply Hgood. by right.
Qed.
End Ranges.

(** ** Whole pages of memory *)

Section Pages.
Context `{MCfg : MemblockConfigOk}.

(** What clearing the hot-plug mark leaves of a node and its flags. *)
Definition unplugged (x : Z * Z) : Z * Z := (fst x, Z.ldiff (snd x) MEMBLOCK_HOTPLUG).

(** Every address of the page is memory of one kind, and none is reserved. *)
Definition whole_page (st : memblock) (q : Z) : Prop :=
  exists a, forall x, q * PAGE_SIZE <= x < (q + 1) * PAGE_SIZE ->
    unplugged <$> lookup_addr Memory st x = Some a /\ lookup_addr Reserved st x = None.

Lemma minimal_covers rs : forall lo c n a,
  chain lo rs -> minimal rs -> 0 < n -> (forall x, c <= x < c + n -> attr_at rs x = Some a) ->
  exists m, m ∈ rs /\ attr m = a /\ rgn_base m <= c /\ c + n <= rgn_end m.
Proof using Type.
  induction rs as [|r rs IH]; intros lo c n a Hc Hm Hn Hx; [by specialize (Hx c ltac:(lia))|].
  pose proof (Hx c ltac:(lia)) as Hat. cbn [attr_at] in Hat. destruct (in_region r c) eqn:Hin.
  - apply in_region_iff in Hin. injection Hat as <-. exists r. split; [by left|]. split; [done|]. split; [lia|].
    destruct (decide (c + n <= rgn_end r)); [done|]. exfalso.
    apply (attr_at_end_differs lo r rs Hc Hm), Hx. lia.
  - pose proof Hc as (_ & Hsz & _ & Hc').
    assert (rgn_end r <= c) as Hle.
    { destruct (decide (rgn_end r <= c)); [done|]. rewrite (attr_at_below (rgn_end r)) in Hat by (done || lia). done. }
    destruct (IH (rgn_end r) c n a Hc' (minimal_tail _ _ Hm) Hn) as (m & Hin' & Hr).
    { intros x Hx'. rewrite <- (Hx x Hx'). cbn [attr_at].
      destruct (in_region r x) eqn:Hb; [|done]. apply in_region_iff in Hb. lia. }
    exists m. split; [by right|done].
Qed.

Lemma dummy_attr r a : is_dummy r -> attr_at [r] a = None.
Proof using Type. intros [Hb Hs]. apply attr_at_None. intros r' ->%list_elem_of_singleton. unfold in_region, rgn_end. rewrite Hb, Hs. lia. Qed.

Lemma wf_attr_above ty a : wf_type ty -> a < 0 \/ U64_MAX <= a -> attr_at (regions ty) a = None.
Proof using Type.
  intros Hwf Ha. apply attr_at_None. intros r Hr. destruct (wf_region_bounds ty r Hwf Hr) as (? & ? & ? & _).
  unfold in_region. lia.
Qed.

(** Clearing the mark on all of memory. *)
Lemma clear_all_hotplug st :
  wf_memblock st -> has_room Memory 2 st ->
  exists ty', memblock_clear_hotplug 0 U64_MAX st = Ok (0, set_type Memory ty' st)
    /\ wf_type ty' /\ minimal (regions ty') /\ (cnt ty' <= cnt (memory st) + 2)%nat
    /\ forall x, attr_at (regions ty') x = unplugged <$> lookup_addr Memory st x.
Proof using Type.
  intros Hwf Hroom.
  destruct (update_range_room Memory 0 U64_MAX st Hwf ltac:(ulia) ltac:(ulia) Hroom ltac:(by vm_compute)
    (fun r => memblock_clear_region_flags r MEMBLOCK_HOTPLUG) unplugged)
    as (ty' & Hr & Hw & _ & _ & Hmin & Hc & Hat); [done|done|by intros; apply clear_flags_attr|].
  exists ty'. split; [exact Hr|]. split; [done|]. split; [done|]. split; [exact Hc|]. intros x. rewrite Hat.
  destruct (in_range 0 U64_MAX x) eqn:Hx; [done|]. unfold lookup_addr. rewrite wf_attr_above; [done|by apply wf_get|].
  unfold in_range, range_end in Hx. change (0 + memblock_cap_size 0 U64_MAX) with U64_MAX in Hx. lia.
Qed.

Lemma unplugged_not_hotplug m x : attr m = unplugged x -> memblock_is_hotpluggable m = false.
Proof using Type.
  intros [= _ Hf]. unfold memblock_is_hotpluggable. rewrite Hf.
  assert (Z.land (Z.ldiff (snd x) MEMBLOCK_HOTPLUG) MEMBLOCK_HOTPLUG = 0) as ->; [|by rewrite andb_false_r].
  apply Z.bits_inj'. intros i Hi. rewrite Z.land_spec, Z.ldiff_spec, Z.bits_0. by destruct (Z.testbit _ _), (Z.testbit _ _).
Qed.

(** The iterator's notion of a free page and the address map's agree. *)
Lemma free_block_whole st ty' q :
  wf_type ty' -> minimal (regions ty') ->
  (forall x, attr_at (regions ty') x = unplugged <$> lookup_addr Memory st x) ->
  free_block (set_type Memory ty' st) NUMA_NO_NODE (q * PAGE_SIZE) PAGE_SIZE <-> whole_page st q.
Proof using MCfg.
  intros Hw Hmin Hat. pose proof page_size_bounds as HP. unfold whole_page, free_block. cbn [set_type memory].
  replace ((q + 1) * PAGE_SIZE) with (q * PAGE_SIZE + PAGE_SIZE) by lia.
  change (lookup_addr Reserved (Memblock _ _ _ _ _ _ _)) with (lookup_addr Reserved st).
  setoid_rewrite <- Hat.
  assert (q * PAGE_SIZE <= q * PAGE_SIZE < q * PAGE_SIZE + PAGE_SIZE) as Hfirst by lia. destruct Hw as [[[_ Hc]|(r & Hr & Hd)] _ _].
  - split.
    + intros [(m & Hm & _ & Hb & He) Hres]. exists (attr m). intros x Hx. split; [|by apply Hres].
      eapply attr_at_In; [exact Hc|done|]. apply in_region_iff. lia.
    + intros [a Ha]. split; [|intros x Hx; by apply Ha].
      destruct (minimal_covers _ 0 (q * PAGE_SIZE) PAGE_SIZE a Hc Hmin) as (m & Hm & Hattr & Hb & He); [lia|apply Ha|].
      exists m. split; [done|]. split; [|done]. unfold region_skipped. cbn.
      destruct (Ha _ Hfirst) as [Hq _]. rewrite Hat, <- Hattr in Hq.
      apply fmap_Some in Hq as (x & _ & Hx). by rewrite (unplugged_not_hotplug m x Hx), andb_false_r.
  - rewrite Hr. split.
    + intros [(m & ->%list_elem_of_singleton & _ & Hb & He) _]. destruct Hd as [Hd1 Hd2]. unfold rgn_end in He. lia.
    + intros [a Ha]. destruct (Ha _ Hfirst) as [Hq _]. by rewrite dummy_attr in Hq.
Qed.

End Pages.

(** ** The hand-over *)

Section Correct.
Context `{MCfg : MemblockConfigOk} `{CfgOk : ZoneConfigOk}.

Lemma handed_empty blocks : handed [] (PageState boot_pageset (bare_zone blocks) 0).
Proof using Type.
  split; [|apply boot_pageset_passing|constructor|done]. split; [apply boot_pageset_ok|]. cbn [ps_pcp ps_zone]. split; cbn.
  - apply bare_zone_ok.
  - by intros p o ?%not_elem_of_nil.
  - done.
  - intros q. pose proof (bare_not_free blocks q). unfold pages_of_list, covered. split; [by intros ?%not_elem_of_nil|].
    intros [?|(p & o & Hin & _)]; [done|by apply not_elem_of_nil in Hin].
Qed.

Lemma handed_owned L s :
  handed L s -> forall q, q ∈ L <-> free_page (ps_zone s) q.
Proof using Type.
  intros [[_ [_ _ _ Hm]] (Hnil & _) _ _] q. rewrite Hnil in Hm. unfold pages_of_list in Hm. rewrite Hm.
  assert (~ covered [] q) by (by intros (p & o & Hin & _); apply not_elem_of_nil in Hin). cbn. tauto.
Qed.

(** No range starts in the last page of the address space. *)
Lemma ranges_fit st ty' :
  wf_memblock (set_type Memory ty' st) ->
  (forall x, attr_at (regions ty') x = unplugged <$> lookup_addr Memory st x) ->
  (forall x, 2 ^ 64 - PAGE_SIZE <= x -> lookup_addr Memory st x = None) ->
  Forall range_fits (all_ranges NUMA_NO_NODE (regions ty') (gaps (reserved st))).
Proof using MCfg.
  intros Hwf Hat Htop. apply Forall_forall. intros r Hr.
  pose proof (ranges_proper (set_type Memory ty' st) Hwf NUMA_NO_NODE r Hr) as Hp.
  apply elem_of_all_ranges in Hr as (m & g & Hm & _ & _ & _ & ->).
  unfold range_fits, range_start, range_stop in *. cbn [fst snd] in *.
  pose proof page_size_bounds as HP. pose proof (wf_memory _ Hwf) as Hw. cbn [set_type memory] in Hw.
  destruct (wf_region_bounds ty' m Hw Hm) as (Hb & Hs & He & _). split; [lia|].
  destruct (decide (rgn_size m = 0)) as [Hz|Hz].
  { destruct Hw as [[[_ Hc]|(r & Hr & [Hd1 Hd2])] _ _]; [destruct (chain_In _ _ _ Hc Hm); lia|].
    rewrite Hr in Hm. apply list_elem_of_singleton in Hm as ->. unfold rgn_end in *. lia. }
  assert (rgn_end m - 1 < 2 ^ 64 - PAGE_SIZE); [|lia].
  destruct (attr_at_hit (regions ty') (rgn_end m - 1)) as [x Hx].
  { exists m. split; [done|]. apply in_region_iff. unfold rgn_end in *. lia. }
  rewrite Hat in Hx. destruct (decide (rgn_end m - 1 < 2 ^ 64 - PAGE_SIZE)) as [|Hn]; [done|].
  rewrite Htop in Hx by lia. done.
Qed.

(** C8. The hand-over of memory at boot, to a zone without free blocks and the
    page lists of [boot_pageset].  When the array of memory regions has room
    for two more (the call splits regions where hot-plug marks change), no
    memory lies in the last page of the address space, and the pages to be
    handed over all lie in the zone, [free_all_bootmem] ends without an error,
    and the free pages of the zone are then exactly the pages below
    [max_low_pfn] that are entirely memory of one kind and entirely
    unreserved; none stays on a list of the processor.  The count returned,
    the zone's managed pages and the growth of [totalram_pages] are the number
    of these pages, and memory keeps its areas and nodes and loses its
    hot-plug marks. *)
Theorem free_all_bootmem_correct max_low_pfn totalram_pages managed st blocks :
  wf_memblock st -> has_room Memory 2 st ->
  Z.of_nat (cnt (memory st)) + 3 < idx_max -> Z.of_nat (cnt (reserved st)) + 2 < idx_max ->
  (forall x, 2 ^ 64 - PAGE_SIZE <= x -> lookup_addr Memory st x = None) ->
  0 <= max_low_pfn < 2 ^ 63 ->
  (forall q, 0 <= q < max_low_pfn -> whole_page st q -> bad_range q = false) ->
  exists L st' s',
    free_all_bootmem max_low_pfn totalram_pages false st (PageState boot_pageset (bare_zone blocks) managed)
      = Ok (Z.of_nat (length L), u64 (totalram_pages + Z.of_nat (length L)), st', s')
    /\ NoDup L /\ (forall q, q ∈ L <-> 0 <= q < max_low_pfn /\ whole_page st q)
    /\ (forall q, q ∈ L <-> free_page (ps_zone s') q) /\ pcp_pages (ps_pcp s') = []
    /\ zone_ok (ps_zone s') /\ pcp_ok (ps_pcp s') /\ ps_managed s' = Z.of_nat (length L)
    /\ wf_memblock st' /\ (forall x, lookup_addr Memory st' x = unplugged <$> lookup_addr Memory st x)
    /\ (forall x, lookup_addr Reserved st' x = lookup_addr Reserved st x).
Proof using MCfg CfgOk.
  intros Hwf Hroom Hi1 Hi2 Htop Hmax Hgood.
  destruct (clear_all_hotplug st Hwf Hroom) as (ty' & Hclear & Hw & Hmin & Hc & Hat).
  assert (wf_memblock (set_type Memory ty' st)) as Hwf' by (by apply wf_set).
  pose proof page_shift_ok as [Hshift _]. pose proof page_size_bounds as HP. assert (0 < PAGE_SIZE) as Hpos by lia.
  pose proof (ranges_fit st ty' Hwf' Hat Htop) as Hfit.
  set (ranges := all_ranges NUMA_NO_NODE (regions ty') (gaps (reserved st))) in *.
  assert (forall q, q ∈ (ranges ≫= range_pages max_low_pfn) <-> 0 <= q < max_low_pfn /\ whole_page st q) as HL.
  { intros q. rewrite list_elem_of_bind, <- (free_block_whole st ty' q Hw Hmin Hat).
    rewrite <- (in_ranges_free _ Hwf' NUMA_NO_NODE (q * PAGE_SIZE) PAGE_SIZE Hpos).
    change (all_ranges _ _ _) with ranges. rewrite Forall_forall in Hfit. split.
    - intros (r & Hq & Hr). split; [by apply (range_pages_pos max_low_pfn Hshift r); [apply Hfit|]|].
      apply elem_of_range_pages in Hq; [|done|by apply Hfit]. exists r. split; [done|lia].
    - intros [Hq (r & Hr & Hs & He)]. exists r. split; [|done]. apply elem_of_range_pages; [done|by apply Hfit|lia]. }
  destruct (free_ranges_ok max_low_pfn Hmax Hshift ranges [] (PageState boot_pageset (bare_zone blocks) 0))
    as (s' & Hrun & Hs').
  - apply handed_empty.
  - by apply (all_ranges_sorted (set_type Memory ty' st)).
  - done.
  - by apply (ranges_proper (set_type Memory ty' st)).
  - by intros q ?%not_elem_of_nil.
  - by intros q r ?%not_elem_of_nil.
  - intros q r Hr Hq. assert (q ∈ (ranges ≫= range_pages max_low_pfn)) as [? ?]%HL; [|by apply Hgood].
    apply list_elem_of_bind. by exists r.
  - cbn [app length] in Hrun, Hs'. exists (ranges ≫= range_pages max_low_pfn), (set_type Memory ty' st), s'.
    split; [|split; [by apply hd_nodup in Hs'|split; [done|]]].
    + unfold free_all_bootmem, free_low_memory_core_early, reset_all_zones_managed_pages. rewrite Hclear. cbn [obind].
      unfold for_each_free_mem_range. cbn [set_type memory reserved].
      rewrite for_each_mem_range_all by (first [apply no_node_ne_max|done|by destruct Hwf|cbn [cnt] in *; lia]). cbn [obind]. fold ranges.
      cbn [ps_pcp ps_zone]. change (Z.of_nat 0) with 0 in Hrun. by rewrite Hrun.
    + split; [by apply handed_owned|]. destruct Hs' as [[Hpo Ho] [Hnil _] _ Hm]. split; [done|]. split; [by destruct Ho|]. split; [done|]. split; [done|]. split; [done|].
      split; [exact Hat|done].
Qed.

(** ** Early allocations *)

Section Early.
Variables (st : memblock) (size k limit : Z).
Hypothesis Hwf : wf_memblock st.
Hypothesis Hidx : idx_ok st.
Hypothesis Hroom : (cnt (reserved st) < max (reserved st))%nat.
Hypothesis Hk : 0 <= k < 64.
Hypothesis Hlimit : is_u64 limit.
Hypothesis Hsize : 0 < size <= U64_MAX.

(** The blocks an early allocation from [goal] on may return. *)
Definition early_block (nid goal c : Z) : Prop :=
  eligible st size k goal (Z.min limit (current_limit st)) nid c.

Lemma alloc_early_spec nid goal :
  nid <> MAX_NUMNODES -> is_u64 goal ->
  exists c st', __alloc_memory_core_early nid size (2 ^ k) goal limit st = Ok (c, st')
    /\ ((c = 0 /\ st' = st /\ forall c', ~ early_block nid goal c')
        \/ (early_block nid goal c /\ c <> 0 /\ MemblockResize.allocated size c st st')).
Proof using MCfg Hwf Hidx Hroom Hk Hlimit Hsize.
  intros Hnid Hgoal. pose proof (wf_limit _ Hwf) as Hcl.
  assert (is_u64 (Z.min limit (current_limit st))) as Hl by ulia.
  destruct (alloc_range_nid_spec st size k goal (Z.min limit (current_limit st)) nid) as (c & st' & Heq & Hc); try done.
  exists c, st'. split; [|exact Hc]. rewrite <- Heq. unfold __alloc_memory_core_early, memblock_alloc_range_nid.
  pose proof (pow2_u64 k Hk). rewrite (proj2 (Z.eqb_neq (2 ^ k) 0)) by lia.
  replace (if limit >? current_limit st then current_limit st else limit) with (Z.min limit (current_limit st))
    by (destruct (limit >? current_limit st) eqn:?; zbool; lia).
  destruct (memblock_find_in_range_node _ _ _ _ _ _) as [addr| | |]; cbn [obind]; try done.
  destruct (addr =? 0) eqn:Ha; [by zbool|]. destruct (memblock_reserve addr size st) as [[ret st1]| | |]; try done. cbn [obind]. by destruct (ret =? 0).
Qed.

(** Where [___alloc_bootmem_node] looks, in this order. *)
Definition attempts (node_id goal : Z) : list (Z * Z) :=
  [(node_id, goal); (NUMA_NO_NODE, goal); (node_id, 0); (NUMA_NO_NODE, 0)].

(** The first attempt that can succeed decides; with none the result is 0. *)
Definition first_attempt (l : list (Z * Z)) (r : Z * memblock) : Prop :=
  (r = (0, st) /\ forall nid goal c, (nid, goal) ∈ l -> ~ early_block nid goal c)
  \/ (exists before nid goal after, l = before ++ (nid, goal) :: after
      /\ (forall nid' goal' c, (nid', goal') ∈ before -> ~ early_block nid' goal' c)
      /\ early_block nid goal (fst r) /\ fst r <> 0 /\ MemblockResize.allocated size (fst r) st (snd r)).

Lemma first_attempt_app l1 l2 r1 :
  first_attempt l1 r1 ->
  (fst r1 <> 0 -> first_attempt (l1 ++ l2) r1)
  /\ (fst r1 = 0 -> snd r1 = st /\ forall r2, first_attempt l2 r2 -> first_attempt (l1 ++ l2) r2).
Proof using Type.
  intros [[-> Hn]|(before & nid & goal & after & -> & Hb & He & Hne & Ha)]; (split; [intros Hr|intros Hr]); try done.
  - split; [done|]. intros r2 [[-> Hn2]|(before & nid & goal & after & -> & Hb & Hrest)].
    + left. split; [done|]. intros nid goal c [Hin|Hin]%elem_of_app; [by apply Hn|by apply Hn2].
    + right. exists (l1 ++ before), nid, goal, after. split; [by rewrite app_assoc|]. split; [|done].
      intros nid' goal' c [Hin|Hin]%elem_of_app; [by apply Hn|by apply Hb].
  - right. exists before, nid, goal, (after ++ l2). split; [by rewrite <- app_assoc|done].
Qed.

Lemma alloc_early_attempt nid goal :
  nid <> MAX_NUMNODES -> is_u64 goal ->
  exists r, __alloc_memory_core_early nid size (2 ^ k) goal limit st = Ok r /\ first_attempt [(nid, goal)] r.
Proof using MCfg Hwf Hidx Hroom Hk Hlimit Hsize.
  intros Hnid Hgoal. destruct (alloc_early_spec nid goal Hnid Hgoal) as (c & st' & Heq & [(-> & -> & Hn)|(He & Hc & Ha)]).
  - exists (0, st). split; [done|]. left. split; [done|]. by intros ? ? ? [= -> ->]%list_elem_of_singleton.
  - exists (c, st'). split; [done|]. right. exists [], nid, goal, []. split; [done|]. split; [|done].
    by intros ? ? ? ?%not_elem_of_nil.
Qed.

Lemma node_round_attempts node_id goal :
  node_id <> MAX_NUMNODES -> is_u64 goal ->
  exists r, node_round node_id size (2 ^ k) goal limit st = Ok r
    /\ first_attempt [(node_id, goal); (NUMA_NO_NODE, goal)] r.
Proof using MCfg Hwf Hidx Hroom Hk Hlimit Hsize.
  intros Hnid Hgoal. destruct (alloc_early_attempt node_id goal Hnid Hgoal) as ([c st'] & Heq & Hr).
  destruct (first_attempt_app _ [(NUMA_NO_NODE, goal)] _ Hr) as [H1 H2].
  unfold node_round. rewrite Heq. cbn [obind]. cbn [fst snd] in *.
  destruct (c =? 0) eqn:Hc; zbool; cbn [negb]; [|exists (c, st'); split; [done|by apply H1]].
  destruct (H2 Hc) as [-> H3]. destruct (alloc_early_attempt NUMA_NO_NODE goal no_node_ne_max Hgoal) as (r & -> & Hr2).
  exists r. split; [done|by apply H3].
Qed.

(** An early allocation on a node takes a block from the first place that
    has one, or the system stops when none has. *)
Theorem alloc_bootmem_node_correct node_id goal :
  node_id <> MAX_NUMNODES -> is_u64 goal ->
  exists r, first_attempt (attempts node_id goal) r
    /\ ___alloc_bootmem_node node_id size (2 ^ k) goal limit st = (if fst r =? 0 then Panic else Ok r).
Proof using MCfg Hwf Hidx Hroom Hk Hlimit Hsize.
  intros Hnid Hgoal. destruct (node_round_attempts node_id goal Hnid Hgoal) as ([c st'] & Heq & Hr).
  destruct (first_attempt_app _ [(node_id, 0); (NUMA_NO_NODE, 0)] _ Hr) as [H1 H2].
  unfold ___alloc_bootmem_node, ___alloc_bootmem_node_nopanic, or_panic. rewrite Heq. cbn [obind].
  cbn [fst snd app] in *. fold (attempts node_id goal) in *. destruct (c =? 0) eqn:Hc; cbn [negb].
  - zbool. subst c. destruct (H2 eq_refl) as [-> H3].
    destruct (node_round_attempts node_id 0 Hnid ltac:(ulia)) as ([c2 st2] & Heq2 & Hr2).
    exists (c2, st2). split; [by apply H3|]. destruct (goal =? 0) eqn:Hg; cbn [negb].
    + zbool. subst goal. rewrite Heq in Heq2. injection Heq2 as <- <-. done.
    + rewrite Heq2. cbn. by destruct (c2 =? 0).
  - exists (c, st'). cbn [fst]. rewrite Hc. zbool. split; [by apply H1|]. cbn. by rewrite (proj2 (Z.eqb_neq c 0)).
Qed.
End Early.
End Correct.

(** ** A machine with two megabytes of memory *)

#[local] Instance boot_memory : MemblockConfig := {|
  have_node_map := true; config_movable_node := true; movable_node_enabled := true;
  MAX_NUMNODES := 4; PAGE_SHIFT := 12; SMP_CACHE_BYTES := 64; kernel_end := 65536;
  slab_is_available := false; kmalloc_pa := fun _ => 0 |}.

#[local] Instance boot_memory_ok : MemblockConfigOk.
Proof. split; cbn; ulia. Qed.

#[local] Instance boot_zone : ZoneConfig := {|
  pageblock_order := 9;
  CONFIG_NO_FALLBACK_CMA := false;
  page_group_by_mobility_disabled := false;
  pfn_valid_within p := (0 <=? p) && (p <? 2048);
  page_zone _ := 0;
  this_zone := 0;
  zone_start_pfn := 0;
  spanned_pages := 2048;
|}.

#[local] Instance boot_zone_ok : ZoneConfigOk.
Proof. split; [|done|unfold MAX_ORDER; cbn; lia]. intros p Hp _. unfold zone_spans_pfn, zone_end_pfn. cbn in *. exact Hp. Qed.

(** 16 pages from page 1 and 16 hot-pluggable ones behind, ending in the
    middle of a page; page 3 and part of page 7 are taken. *)
Definition boot_map : memblock :=
  Memblock false U64_MAX
    (MType [Region 4096 65536 0 0; Region 69632 63488 1 0] 8 129024 memblock_memory_init_regions)
    (MType [Region 12288 4096 0 4; Region 28700 10 0 4] 8 4106 memblock_reserved_init_regions)
    true false false.

Lemma boot_map_wf : wf_memblock boot_map.
Proof. split; [split|split|]; try (left; split; [done|]); cbn; unfold rgn_end; cbn; ulia. Qed.

Lemma free_all_bootmem_correct_witness :
  exists (L : list Z) st' s', free_all_bootmem 64 100 false boot_map (PageState boot_pageset empty_zone 7)
      = Ok (Z.of_nat (length L), u64 (100 + Z.of_nat (length L)), st', s') /\ zone_ok (ps_zone s').
Proof.
  destruct (free_all_bootmem_correct 64 100 7 boot_map ∅)
    as (L & st' & s' & Heq & _ & _ & _ & _ & Hz & _).
  - exact boot_map_wf.
  - vm_compute. lia.
  - vm_compute. reflexivity.
  - vm_compute. reflexivity.
  - intros x Hx. change (2 ^ 64 - PAGE_SIZE) with (2 ^ 64 - 4096) in Hx. unfold lookup_addr. cbn.
    unfold in_region, rgn_end. cbn. repeat case_if; zbool; try lia. done.
  - lia.
  - intros q Hq _. apply bad_range_false. unfold zone_spans_pfn, zone_end_pfn. cbn. rewrite !andb_true_iff. zbool. lia.
  - exists L, st', s'. exact (conj Heq Hz).
Defined.
