(* ===== verification/RbTree.v ===== *)
(** * Red-black trees (lib/rbtree.c, include/linux/rbtree.h, rbtree_augmented.h)

    The trees are nodes in a memory, linked by the addresses of their children
    and, in one word, of the parent and the colour.  An access through a
    pointer that is not the address of a node is a [Bug].  Augmented data lives
    outside of the nodes: the callbacks read the nodes and change the data. *)

From stdpp Require Import gmap functions.
From S2P Require Import Prelude.

Definition RB_NULL : Z := 0.
Definition RB_RED : Z := 0.
Definition RB_BLACK : Z := 1.

Record rb_node := RbNode { __rb_parent_color : Z; rb_right : Z; rb_left : Z }.

Abbreviation rb_nodes := (gmap Z rb_node).

(** ** The word of parent and colour *)

Definition __rb_parent (pc : Z) : Z := Z.land pc (Z.lnot 3).
Definition __rb_color (pc : Z) : Z := Z.land pc 1.
Definition __rb_is_black (pc : Z) : bool := negb (__rb_color pc =? 0).
Definition __rb_is_red (pc : Z) : bool := __rb_color pc =? 0.

(** Where the code has two arms that differ only in left and right, one
    definition has the side as an argument. *)
Inductive side := Lft | Rgt.

Definition opp (d : side) : side := match d with Lft => Rgt | Rgt => Lft end.

Definition child (d : side) (n : rb_node) : Z := match d with Lft => rb_left n | Rgt => rb_right n end.

Definition with_child (d : side) (v : Z) (n : rb_node) : rb_node :=
  match d with
  | Lft => RbNode (__rb_parent_color n) (rb_right n) v
  | Rgt => RbNode (__rb_parent_color n) v (rb_left n)
  end.

Definition with_pc (pc : Z) (n : rb_node) : rb_node := RbNode pc (rb_right n) (rb_left n).

Section RbTree.
Context {A : Type}.

(** The nodes, [root->rb_node] and the augmented data. *)
Record rb_state := RbState { nodes : rb_nodes; rb_root : Z; aug : A }.

Definition load (s : rb_state) (p : Z) : outcome rb_node :=
  match nodes s !! p with Some n => Ok n | None => Bug end.

Definition store (p : Z) (n : rb_node) (s : rb_state) : rb_state := RbState (<[p := n]> (nodes s)) (rb_root s) (aug s).

(** Writing one field of a node. *)
Definition set_pc (p pc : Z) (s : rb_state) : outcome rb_state :=
  let! n := load s p in Ok (store p (with_pc pc n) s).

Definition set_child (d : side) (p v : Z) (s : rb_state) : outcome rb_state :=
  let! n := load s p in Ok (store p (with_child d v n) s).

(** Reading one. *)
Definition get_child (d : side) (s : rb_state) (p : Z) : outcome Z := let! n := load s p in Ok (child d n).

Definition rb_parent (s : rb_state) (p : Z) : outcome Z := let! n := load s p in Ok (__rb_parent (__rb_parent_color n)).

Definition rb_is_red (s : rb_state) (p : Z) : outcome bool := let! n := load s p in Ok (__rb_is_red (__rb_parent_color n)).

Definition rb_is_black (s : rb_state) (p : Z) : outcome bool :=
  let! n := load s p in Ok (__rb_is_black (__rb_parent_color n)).

Definition rb_red_parent (s : rb_state) (p : Z) : outcome Z := let! n := load s p in Ok (__rb_parent_color n).

(** [p && rb_is_red(p)] and [!p || rb_is_black(p)] *)
Definition is_red_node (s : rb_state) (p : Z) : outcome bool := if p =? RB_NULL then Ok false else rb_is_red s p.
Definition is_black_or_null (s : rb_state) (p : Z) : outcome bool := if p =? RB_NULL then Ok true else rb_is_black s p.

Definition rb_set_black (p : Z) (s : rb_state) : outcome rb_state :=
  let! n := load s p in set_pc p (Z.lor (__rb_parent_color n) RB_BLACK) s.

Definition rb_set_parent (rb p : Z) (s : rb_state) : outcome rb_state :=
  let! n := load s rb in set_pc rb (Z.lor (__rb_color (__rb_parent_color n)) p) s.

Definition rb_set_parent_color (rb p color : Z) (s : rb_state) : outcome rb_state := set_pc rb (Z.lor p color) s.

(** [if (p) f] *)
Definition if_node (p : Z) (f : rb_state -> outcome rb_state) (s : rb_state) : outcome rb_state :=
  if p =? RB_NULL then Ok s else f s.

Definition __rb_change_child (old new parent : Z) (s : rb_state) : outcome rb_state :=
  if parent =? RB_NULL then Ok (RbState (nodes s) new (aug s))
  else
    let! l := get_child Lft s parent in
    if l =? old then set_child Lft parent new s else set_child Rgt parent new s.

Definition __rb_rotate_set_parents (old new color : Z) (s : rb_state) : outcome rb_state :=
  let! parent := rb_parent s old in
  let! n := load s old in
  let! s := set_pc new (__rb_parent_color n) s in
  let! s := rb_set_parent_color old new color s in
  __rb_change_child old new parent s.

(** ** Callbacks *)

Definition callback : Type := Z -> Z -> rb_nodes -> A -> outcome A.

Record rb_augment_callbacks := Callbacks { propagate : callback; copy : callback; rotate : callback }.

Definition call (f : callback) (a b : Z) (s : rb_state) : outcome rb_state :=
  let! x := f a b (nodes s) (aug s) in Ok (RbState (nodes s) (rb_root s) x).

Definition dummy : callback := fun _ _ _ a => Ok a.
Definition dummy_callbacks : rb_augment_callbacks := Callbacks dummy dummy dummy.

(** A loop passes a node at most once. *)
Definition rb_fuel (s : rb_state) : nat := S (size (nodes s)).

(** ** Insertion *)

Section Insert.
Context (augment_rotate : callback).

(** Case 2: [node] is the inner child of [parent], which hangs on side [d]. *)
Definition insert_inner (d : side) (node parent : Z) (s : rb_state) : outcome (Z * Z * rb_state) :=
  let! tmp := get_child (opp d) s parent in
  if node =? tmp then
    let! tmp := get_child d s node in
    let! s := set_child (opp d) parent tmp s in
    let! s := set_child d node parent s in
    let! s := if_node tmp (rb_set_parent_color tmp parent RB_BLACK) s in
    let! s := rb_set_parent_color parent node RB_RED s in
    let! s := call augment_rotate parent node s in
    let! tmp := get_child (opp d) s node in
    Ok (node, tmp, s)
  else Ok (parent, tmp, s).

(** Case 3: the rotation at [gparent]. *)
Definition insert_outer (d : side) (gparent parent tmp : Z) (s : rb_state) : outcome rb_state :=
  let! s := set_child d gparent tmp s in
  let! s := set_child (opp d) parent gparent s in
  let! s := if_node tmp (rb_set_parent_color tmp gparent RB_BLACK) s in
  let! s := __rb_rotate_set_parents gparent parent RB_RED s in
  call augment_rotate gparent parent s.

(** Case 1: colour flips; what is left to do is at [gparent]. *)
Definition insert_flip (gparent parent tmp : Z) (s : rb_state) : outcome (Z * rb_state) :=
  let! s := rb_set_parent_color tmp gparent RB_BLACK s in
  let! s := rb_set_parent_color parent gparent RB_BLACK s in
  let! up := rb_parent s gparent in
  let! s := rb_set_parent_color gparent up RB_RED s in
  Ok (up, s).

(** One arm: [parent] hangs on side [d] of [gparent], [tmp] on the other. The
    result says whether to go on, from [gparent]. *)
Definition insert_arm (d : side) (node parent gparent tmp : Z) (s : rb_state) : outcome (option Z * rb_state) :=
  let! red := is_red_node s tmp in
  if red then let! (up, s) := insert_flip gparent parent tmp s in Ok (Some up, s)
  else
    let! (parent, tmp, s) := insert_inner d node parent s in
    let! s := insert_outer d gparent parent tmp s in
    Ok (None, s).

Fixpoint insert_loop (fuel : nat) (node parent : Z) (s : rb_state) : outcome rb_state :=
  match fuel with
  | O => NoFuel
  | S fuel =>
      if parent =? RB_NULL then rb_set_parent_color node RB_NULL RB_BLACK s
      else
        let! black := rb_is_black s parent in
        if (black : bool) then Ok s
        else
          let! gparent := rb_red_parent s parent in
          let! tmp := get_child Rgt s gparent in
          let! (next, s) :=
            if negb (parent =? tmp) then insert_arm Lft node parent gparent tmp s
            else let! tmp := get_child Lft s gparent in insert_arm Rgt node parent gparent tmp s in
          match next with
          | Some up => insert_loop fuel gparent up s
          | None => Ok s
          end
  end.

Definition __rb_insert (node : Z) (s : rb_state) : outcome rb_state :=
  let! parent := rb_red_parent s node in insert_loop (rb_fuel s) node parent s.
End Insert.

Definition rb_insert_color (node : Z) (s : rb_state) : outcome rb_state := __rb_insert dummy node s.
Definition __rb_insert_augmented (node : Z) (augment_rotate : callback) (s : rb_state) : outcome rb_state :=
  __rb_insert augment_rotate node s.
Definition rb_insert_augmented (node : Z) (augment : rb_augment_callbacks) (s : rb_state) : outcome rb_state :=
  __rb_insert_augmented node (rotate augment) s.

(** [struct rb_node **rb_link]: where the caller's search ended. *)
Inductive rb_link := RootLink | ChildLink (d : side) (p : Z).

Definition rb_link_node (node parent : Z) (link : rb_link) (s : rb_state) : outcome rb_state :=
  let s := store node (RbNode parent RB_NULL RB_NULL) s in
  match link with
  | RootLink => Ok (RbState (nodes s) node (aug s))
  | ChildLink d p => set_child d p node s
  end.

(** [*rb_link] *)
Definition link_target (link : rb_link) (s : rb_state) : outcome Z :=
  match link with RootLink => Ok (rb_root s) | ChildLink d p => get_child d s p end.

Definition link_parent (link : rb_link) : Z := match link with RootLink => RB_NULL | ChildLink _ p => p end.

(** ** Removal *)

Section EraseColor.
Context (augment_rotate : callback).

(** Case 1: a red sibling is rotated up; the result is the new sibling. *)
Definition erase_red_sibling (d : side) (parent sibling : Z) (s : rb_state) : outcome (Z * rb_state) :=
  let! tmp1 := get_child d s sibling in
  let! s := set_child (opp d) parent tmp1 s in
  let! s := set_child d sibling parent s in
  let! s := rb_set_parent_color tmp1 parent RB_BLACK s in
  let! s := __rb_rotate_set_parents parent sibling RB_RED s in
  let! s := call augment_rotate parent sibling s in
  Ok (tmp1, s).

(** Case 2: the sibling becomes red; the result is where to go on, if so. *)
Definition erase_flip (parent sibling : Z) (s : rb_state) : outcome (option (Z * Z) * rb_state) :=
  let! s := rb_set_parent_color sibling parent RB_RED s in
  let! red := rb_is_red s parent in
  if (red : bool) then let! s := rb_set_black parent s in Ok (None, s)
  else
    let! up := rb_parent s parent in
    Ok (if up =? RB_NULL then None else Some (parent, up), s).

(** Case 3: the rotation at the sibling. *)
Definition erase_inner (d : side) (parent sibling tmp2 : Z) (s : rb_state) : outcome rb_state :=
  let! tmp1 := get_child (opp d) s tmp2 in
  let! s := set_child d sibling tmp1 s in
  let! s := set_child (opp d) tmp2 sibling s in
  let! s := set_child (opp d) parent tmp2 s in
  let! s := if_node tmp1 (rb_set_parent_color tmp1 sibling RB_BLACK) s in
  call augment_rotate sibling tmp2 s.

(** Case 4: the rotation at the parent. *)
Definition erase_outer (d : side) (parent sibling tmp1 : Z) (s : rb_state) : outcome rb_state :=
  let! tmp2 := get_child d s sibling in
  let! s := set_child (opp d) parent tmp2 s in
  let! s := set_child d sibling parent s in
  let! s := rb_set_parent_color tmp1 sibling RB_BLACK s in
  let! s := if_node tmp2 (rb_set_parent tmp2 parent) s in
  let! s := __rb_rotate_set_parents parent sibling RB_BLACK s in
  call augment_rotate parent sibling s.

(** Cases 2 to 4, below a black sibling. *)
Definition erase_black_sibling (d : side) (parent sibling : Z) (s : rb_state) : outcome (option (Z * Z) * rb_state) :=
  let! tmp1 := get_child (opp d) s sibling in
  let! black1 := is_black_or_null s tmp1 in
  if (black1 : bool) then
    let! tmp2 := get_child d s sibling in
    let! black2 := is_black_or_null s tmp2 in
    if (black2 : bool) then erase_flip parent sibling s
    else
      let! s := erase_inner d parent sibling tmp2 s in
      let! s := erase_outer d parent tmp2 sibling s in
      Ok (None, s)
  else
    let! s := erase_outer d parent sibling tmp1 s in
    Ok (None, s).

(** One arm: the short side of [parent] is [d], [sibling] is on the other. *)
Definition erase_arm (d : side) (parent sibling : Z) (s : rb_state) : outcome (option (Z * Z) * rb_state) :=
  let! red := rb_is_red s sibling in
  let! (sibling, s) := if (red : bool) then erase_red_sibling d parent sibling s else Ok (sibling, s) in
  erase_black_sibling d parent sibling s.

Fixpoint erase_color_loop (fuel : nat) (node parent : Z) (s : rb_state) : outcome rb_state :=
  match fuel with
  | O => NoFuel
  | S fuel =>
      let! sibling := get_child Rgt s parent in
      let! (next, s) :=
        if negb (node =? sibling) then erase_arm Lft parent sibling s
        else let! sibling := get_child Lft s parent in erase_arm Rgt parent sibling s in
      match next with
      | Some (node, parent) => erase_color_loop fuel node parent s
      | None => Ok s
      end
  end.

Definition ____rb_erase_color (parent : Z) (s : rb_state) : outcome rb_state :=
  erase_color_loop (rb_fuel s) RB_NULL parent s.
End EraseColor.

Section Erase.
Context (augment : rb_augment_callbacks).

(** [do { parent = successor; successor = tmp; tmp = tmp->rb_left; } while (tmp)] *)
Fixpoint successor_loop (fuel : nat) (successor tmp : Z) (s : rb_state) : outcome (Z * Z) :=
  match fuel with
  | O => NoFuel
  | S fuel =>
      let parent := successor in
      let successor := tmp in
      let! tmp := get_child Lft s tmp in
      if tmp =? RB_NULL then Ok (parent, successor) else successor_loop fuel successor tmp s
  end.

(** Case 1: no left child. The result is where to rebalance and where the
    augmented data is to be updated from. *)
Definition erase_one_child (node only : Z) (s : rb_state) : outcome (Z * Z * rb_state) :=
  let! n := load s node in
  let pc := __rb_parent_color n in
  let parent := __rb_parent pc in
  let! s := __rb_change_child node only parent s in
  if only =? RB_NULL then Ok (if __rb_is_black pc then parent else RB_NULL, parent, s)
  else
    let! s := set_pc only pc s in
    Ok (RB_NULL, parent, s).

(** Case 1 again, when the child is the left one. *)
Definition erase_left_child (node only : Z) (s : rb_state) : outcome (Z * Z * rb_state) :=
  let! n := load s node in
  let pc := __rb_parent_color n in
  let! s := set_pc only pc s in
  let parent := __rb_parent pc in
  let! s := __rb_change_child node only parent s in
  Ok (RB_NULL, parent, s).

(** Cases 2 and 3: take the successor out of the right subtree. The result
    is its old parent, itself and its child. *)
Definition erase_unlink (node rchild : Z) (s : rb_state) : outcome (Z * Z * Z * rb_state) :=
  let! tmp := get_child Lft s rchild in
  if tmp =? RB_NULL then
    let! child2 := get_child Rgt s rchild in
    let! s := call (copy augment) node rchild s in
    Ok (rchild, rchild, child2, s)
  else
    let! (parent, successor) := successor_loop (rb_fuel s) rchild tmp s in
    let! child2 := get_child Rgt s successor in
    let! s := set_child Lft parent child2 s in
    let! s := set_child Rgt successor rchild s in
    let! s := rb_set_parent rchild successor s in
    let! s := call (copy augment) node successor s in
    let! s := call (propagate augment) parent successor s in
    Ok (parent, successor, child2, s).

(** Then the successor takes the place of the node. *)
Definition erase_replace (node parent successor child2 : Z) (s : rb_state) : outcome (Z * Z * rb_state) :=
  let! tmp := get_child Lft s node in
  let! s := set_child Lft successor tmp s in
  let! s := rb_set_parent tmp successor s in
  let! n := load s node in
  let pc := __rb_parent_color n in
  let! s := __rb_change_child node successor (__rb_parent pc) s in
  if child2 =? RB_NULL then
    let! n2 := load s successor in
    let pc2 := __rb_parent_color n2 in
    let! s := set_pc successor pc s in
    Ok (if __rb_is_black pc2 then parent else RB_NULL, successor, s)
  else
    let! s := set_pc successor pc s in
    let! s := rb_set_parent_color child2 parent RB_BLACK s in
    Ok (RB_NULL, successor, s).

Definition __rb_erase_augmented (node : Z) (s : rb_state) : outcome (Z * rb_state) :=
  let! rchild := get_child Rgt s node in
  let! lchild := get_child Lft s node in
  let! (rebalance, tmp, s) :=
    if lchild =? RB_NULL then erase_one_child node rchild s
    else if rchild =? RB_NULL then erase_left_child node lchild s
    else
      let! (parent, successor, child2, s) := erase_unlink node rchild s in
      erase_replace node parent successor child2 s in
  let! s := call (propagate augment) tmp RB_NULL s in
  Ok (rebalance, s).

Definition rb_erase_augmented (node : Z) (s : rb_state) : outcome rb_state :=
  let! (rebalance, s) := __rb_erase_augmented node s in
  if rebalance =? RB_NULL then Ok s else ____rb_erase_color (rotate augment) rebalance s.
End Erase.

Definition rb_erase (node : Z) (s : rb_state) : outcome rb_state :=
  let! (rebalance, s) := __rb_erase_augmented dummy_callbacks node s in
  if rebalance =? RB_NULL then Ok s else ____rb_erase_color dummy rebalance s.

(** ** Walking *)

(** [while (n->rb_left) n = n->rb_left], or right. *)
Fixpoint go_down (fuel : nat) (d : side) (n : Z) (s : rb_state) : outcome Z :=
  match fuel with
  | O => NoFuel
  | S fuel => let! c := get_child d s n in if c =? RB_NULL then Ok n else go_down fuel d c s
  end.

(** [rb_first] and [rb_last] *)
Definition rb_end (d : side) (s : rb_state) : outcome Z :=
  if rb_root s =? RB_NULL then Ok RB_NULL else go_down (rb_fuel s) d (rb_root s) s.
Definition rb_first : rb_state -> outcome Z := rb_end Lft.
Definition rb_last : rb_state -> outcome Z := rb_end Rgt.

(** [while ((parent = rb_parent(node)) && node == parent->rb_right) node = parent], or left. *)
Fixpoint go_up (fuel : nat) (d : side) (node : Z) (s : rb_state) : outcome Z :=
  match fuel with
  | O => NoFuel
  | S fuel =>
      let! parent := rb_parent s node in
      if parent =? RB_NULL then Ok RB_NULL
      else let! c := get_child d s parent in if node =? c then go_up fuel d parent s else Ok parent
  end.

Definition RB_EMPTY_NODE (node : Z) (n : rb_node) : bool := __rb_parent_color n =? node.

(** [rb_next] and [rb_prev]: down on side [d] first. *)
Definition rb_step (d : side) (node : Z) (s : rb_state) : outcome Z :=
  let! n := load s node in
  if RB_EMPTY_NODE node n then Ok RB_NULL
  else if child d n =? RB_NULL then go_up (rb_fuel s) d node s
  else go_down (rb_fuel s) (opp d) (child d n) s.
Definition rb_next : Z -> rb_state -> outcome Z := rb_step Rgt.
Definition rb_prev : Z -> rb_state -> outcome Z := rb_step Lft.

Definition rb_replace_node (victim new : Z) (s : rb_state) : outcome rb_state :=
  let! parent := rb_parent s victim in
  let! s := __rb_change_child victim new parent s in
  let! n := load s victim in
  let! s := if_node (rb_left n) (rb_set_parent (rb_left n) new) s in
  let! n := load s victim in
  let! s := if_node (rb_right n) (rb_set_parent (rb_right n) new) s in
  let! n := load s victim in
  Ok (store new n s).

Fixpoint rb_left_deepest_node (fuel : nat) (node : Z) (s : rb_state) : outcome Z :=
  match fuel with
  | O => NoFuel
  | S fuel =>
      let! n := load s node in
      if negb (rb_left n =? RB_NULL) then rb_left_deepest_node fuel (rb_left n) s
      else if negb (rb_right n =? RB_NULL) then rb_left_deepest_node fuel (rb_right n) s
      else Ok node
  end.

Definition rb_next_postorder (node : Z) (s : rb_state) : outcome Z :=
  if node =? RB_NULL then Ok RB_NULL
  else
    let! parent := rb_parent s node in
    if parent =? RB_NULL then Ok parent
    else
      let! n := load s parent in
      if (node =? rb_left n) && negb (rb_right n =? RB_NULL) then rb_left_deepest_node (rb_fuel s) (rb_right n) s
      else Ok parent.

Definition rb_first_postorder (s : rb_state) : outcome Z :=
  if rb_root s =? RB_NULL then Ok RB_NULL else rb_left_deepest_node (rb_fuel s) (rb_root s) s.
End RbTree.

Arguments rb_state : clear implicits.
Arguments rb_augment_callbacks : clear implicits.
Arguments callback : clear implicits.

(** ** The callbacks of RB_DECLARE_CALLBACKS *)

(** [rbcompute] is the user's, and reads the nodes and the data of children. *)
Section Declared.
Context {V : Type} `{EqDecision V} (rbcompute : Z -> rb_nodes -> (Z -> V) -> V).

Fixpoint propagate_loop (fuel : nat) (rb stop : Z) (m : rb_nodes) (a : Z -> V) : outcome (Z -> V) :=
  match fuel with
  | O => NoFuel
  | S fuel =>
      if rb =? stop then Ok a
      else
        match m !! rb with
        | None => Bug
        | Some n =>
            let augmented := rbcompute rb m a in
            if decide (a rb = augmented) then Ok a
            else propagate_loop fuel (__rb_parent (__rb_parent_color n)) stop m (<[rb := augmented]> a)
        end
  end.

Definition declared_callbacks : rb_augment_callbacks (Z -> V) := {|
  propagate rb stop m a := propagate_loop (S (size m)) rb stop m a;
  copy old new m a := Ok (<[new := a old]> a);
  rotate old new m a := let a := <[new := a old]> a in Ok (<[old := rbcompute old m a]> a);
|}.
End Declared.
