(* ===== verification/RbTreeRep.v ===== *)
(** * Red-black trees: the trees the memory holds

    Trees and their contexts, how nodes in memory represent them, the laws of
    the callbacks, and rotations. *)

From stdpp Require Import gmap functions.
From S2P Require Import Prelude RbTree.

(** Equations between appended lists. *)
Ltac app_eq := cbn [app]; repeat (progress (rewrite <- ?app_assoc; cbn [app])); rewrite ?app_nil_r; done.

(** ** Trees and the places in them *)

Inductive color := Red | Black.

Definition color_bit (c : color) : Z := match c with Red => RB_RED | Black => RB_BLACK end.

Inductive tree := Leaf | Node (c : color) (l : tree) (p : Z) (r : tree).

#[export] Instance side_eq_dec : EqDecision side.
Proof. solve_decision. Defined.
#[export] Instance color_eq_dec : EqDecision color.
Proof. solve_decision. Defined.
#[export] Instance tree_eq_dec : EqDecision tree.
Proof. solve_decision. Defined.

Fixpoint inorder (t : tree) : list Z :=
  match t with Leaf => [] | Node _ l p r => inorder l ++ p :: inorder r end.

Definition ptr (t : tree) : Z := match t with Leaf => RB_NULL | Node _ _ p _ => p end.
Definition root_color (t : tree) : color := match t with Leaf => Black | Node c _ _ _ => c end.
Definition paint (c : color) (t : tree) : tree := match t with Leaf => Leaf | Node _ l p r => Node c l p r end.

(** A node with [x] on side [d] and [y] on the other, and the order of it. *)
Definition mk (d : side) (c : color) (x : tree) (p : Z) (y : tree) : tree :=
  match d with Lft => Node c x p y | Rgt => Node c y p x end.
Definition dord {B} (d : side) (x : list B) (p : B) (y : list B) : list B :=
  match d with Lft => x ++ p :: y | Rgt => y ++ p :: x end.

(** The way from a place in the tree up to the root: the side one comes from,
    the colour and the address of the node, and the subtree on its other side. *)
Record frame := Frame { f_side : side; f_color : color; f_node : Z; f_tree : tree }.

Definition fill (f : frame) (t : tree) : tree := mk (f_side f) (f_color f) t (f_node f) (f_tree f).
Definition plug (K : list frame) (t : tree) : tree := foldl (fun t f => fill f t) t K.
Definition up (K : list frame) : Z := match K with [] => RB_NULL | f :: _ => f_node f end.

Fixpoint before (K : list frame) : list Z :=
  match K with
  | [] => []
  | f :: K => before K ++ match f_side f with Lft => [] | Rgt => inorder (f_tree f) ++ [f_node f] end
  end.
Fixpoint after (K : list frame) : list Z :=
  match K with
  | [] => []
  | f :: K => match f_side f with Lft => f_node f :: inorder (f_tree f) | Rgt => [] end ++ after K
  end.

Lemma inorder_mk d c x p y : inorder (mk d c x p y) = dord d (inorder x) p (inorder y).
Proof. by destruct d. Qed.
Lemma ptr_mk d c x p y : ptr (mk d c x p y) = p.
Proof. by destruct d. Qed.
Lemma root_color_mk d c x p y : root_color (mk d c x p y) = c.
Proof. by destruct d. Qed.
Lemma inorder_paint c t : inorder (paint c t) = inorder t.
Proof. by destruct t. Qed.
Lemma ptr_paint c t : ptr (paint c t) = ptr t.
Proof. by destruct t. Qed.
Lemma mk_opp d c x p y : mk (opp d) c x p y = mk d c y p x.
Proof. by destruct d. Qed.
Lemma dord_opp {B} d (x : list B) p y : dord (opp d) x p y = dord d y p x.
Proof. by destruct d. Qed.

Lemma dord_assoc {B} d (x : list B) p y q z : dord d (dord d x p y) q z = dord d x p (dord d y q z).
Proof. destruct d; cbn; by rewrite <- app_assoc. Qed.

Lemma dord_not_nil {B} d (x : list B) p y : dord d x p y <> [].
Proof. destruct d; [by destruct x|by destruct y]. Qed.

Lemma inorder_plug K : forall t, inorder (plug K t) = before K ++ inorder t ++ after K.
Proof.
  induction K as [|[d c p u] K IH]; intros t; cbn; [by rewrite app_nil_r|].
  unfold plug in IH. rewrite IH. unfold fill. cbn. rewrite inorder_mk. destruct d; cbn; by rewrite <- ?app_assoc.
Qed.

Lemma elem_of_dord {B} d (x : list B) p y q : q ∈ dord d x p y <-> q ∈ x \/ q = p \/ q ∈ y.
Proof. destruct d; cbn; set_solver. Qed.

(** Every node of a tree is at some place. *)
Lemma find_place t q : q ∈ inorder t -> exists K c l r, t = plug K (Node c l q r).
Proof.
  induction t as [|c l IHl p r IHr]; cbn; [by intros ?%not_elem_of_nil|].
  intros [Hq|[->|Hq]%elem_of_cons]%elem_of_app.
  - destruct (IHl Hq) as (K & c' & l' & r' & ->). exists (K ++ [Frame Lft c p r]), c', l', r'. unfold plug. by rewrite foldl_app.
  - by exists [], c, l, r.
  - destruct (IHr Hq) as (K & c' & l' & r' & ->). exists (K ++ [Frame Rgt c p l]), c', l', r'. unfold plug. by rewrite foldl_app.
Qed.

(** ** Balance *)

(** No red node has a red child, and every way down has [n] black nodes. *)
Inductive bal : tree -> color -> nat -> Prop :=
| bal_leaf : bal Leaf Black 0
| bal_red l p r n : bal l Black n -> bal r Black n -> bal (Node Red l p r) Red n
| bal_black l p r cl cr n : bal l cl n -> bal r cr n -> bal (Node Black l p r) Black (S n).

(** A place that takes a tree of a colour and [n] black nodes. *)
Inductive balK : list frame -> color -> nat -> Prop :=
| balK_root n : balK [] Black n
| balK_red d p t K n : bal t Black n -> balK K Red n -> balK (Frame d Red p t :: K) Black n
| balK_black d p t ct K c n : bal t ct n -> balK K Black (S n) -> balK (Frame d Black p t :: K) c n.

Definition red_black (t : tree) : Prop := exists n, bal t Black n.

Create HintDb rb.
#[export] Hint Constructors bal balK : rb.

Lemma bal_color t c n : bal t c n -> root_color t = c.
Proof. by destruct 1. Qed.

Lemma bal_mk_red d x p y n : bal x Black n -> bal y Black n -> bal (mk d Red x p y) Red n.
Proof. destruct d; cbn; eauto with rb. Qed.
Lemma bal_mk_black d x p y cx cy n : bal x cx n -> bal y cy n -> bal (mk d Black x p y) Black (S n).
Proof. destruct d; cbn; eauto with rb. Qed.

Lemma bal_paint_black t c n : bal t c n -> bal (paint Black t) Black (match c with Red => S n | Black => n end).
Proof. destruct 1; cbn; eauto with rb. Qed.

Lemma bal_mk_red_inv d x p y c n : bal (mk d Red x p y) c n -> c = Red /\ bal x Black n /\ bal y Black n.
Proof. destruct d; inversion 1; auto. Qed.
Lemma bal_mk_black_inv d x p y c n :
  bal (mk d Black x p y) c n -> c = Black /\ exists n' cx cy, n = S n' /\ bal x cx n' /\ bal y cy n'.
Proof. destruct d; inversion 1; subst; eauto 10. Qed.

Lemma balK_black_any K c n : balK K c n -> balK K Black n.
Proof. destruct 1; eauto with rb. Qed.

Lemma bal_plug K : forall t c n, bal t c n -> balK K c n -> red_black (plug K t).
Proof.
  induction K as [|f K IH]; intros t c n Ht HK; inversion HK; subst; cbn.
  - by exists n.
  - eapply IH; [apply bal_mk_red; [done|done]|done].
  - eapply IH; [eapply bal_mk_black; [done|done]|done].
Qed.

Lemma bal_unplug K : forall t c' n', bal (plug K t) c' n' -> c' = Black -> exists c n, bal t c n /\ balK K c n.
Proof.
  induction K as [|[d cf p u] K IH]; intros t c' n' H ->; [by exists Black, n'; eauto with rb|].
  destruct (IH (mk d cf t p u) Black n' H eq_refl) as (c & n & Ht & HK). destruct cf.
  - apply bal_mk_red_inv in Ht as (-> & Ht & Hu). exists Black, n. eauto with rb.
  - apply bal_mk_black_inv in Ht as (-> & m & ct & cu & -> & Ht & Hu). exists ct, m. eauto with rb.
Qed.

(** ** Trees in memory *)

(** Addresses of nodes: aligned, and not NULL. *)
Definition node_addr (p : Z) : Prop := 0 < p /\ Z.land p 3 = 0.

(** A node with [x] on side [d] and [y] on the other. *)
Definition mkn (d : side) (pc x y : Z) : rb_node :=
  match d with Lft => RbNode pc y x | Rgt => RbNode pc x y end.

Definition word (parent : Z) (c : color) : Z := Z.lor parent (color_bit c).

Fixpoint tree_at (m : rb_nodes) (parent : Z) (t : tree) : Prop :=
  match t with
  | Leaf => True
  | Node c l p r =>
      m !! p = Some (RbNode (word parent c) (ptr r) (ptr l)) /\ node_addr p /\ tree_at m p l /\ tree_at m p r
  end.

(** The way up from a place with [q] in it. *)
Fixpoint ctx_at (m : rb_nodes) (root : Z) (K : list frame) (q : Z) : Prop :=
  match K with
  | [] => root = q
  | Frame d c p t :: K =>
      m !! p = Some (mkn d (word (up K) c) q (ptr t)) /\ node_addr p /\ tree_at m p t /\ ctx_at m root K p
  end.

Fixpoint ctx_nodes (K : list frame) : list Z :=
  match K with [] => [] | f :: K => f_node f :: inorder (f_tree f) ++ ctx_nodes K end.

Lemma tree_at_mk m parent d c x p y :
  tree_at m parent (mk d c x p y) <->
  m !! p = Some (mkn d (word parent c) (ptr x) (ptr y)) /\ node_addr p /\ tree_at m p x /\ tree_at m p y.
Proof. destruct d; cbn; tauto. Qed.

Lemma tree_at_frame m m' parent t :
  (forall q, q ∈ inorder t -> m' !! q = m !! q) -> tree_at m parent t -> tree_at m' parent t.
Proof.
  revert parent. induction t as [|c l IHl p r IHr]; intros parent Hm; cbn; [done|].
  intros (Hp & Ha & Hl & Hr). rewrite Hm by set_solver. split; [done|]. split; [done|].
  split; [apply IHl|apply IHr]; try done; intros q Hq; apply Hm; set_solver.
Qed.

Lemma ctx_at_frame m m' root K : forall q,
  (forall x, x ∈ ctx_nodes K -> m' !! x = m !! x) -> ctx_at m root K q -> ctx_at m' root K q.
Proof.
  induction K as [|[d c p t] K IH]; intros q Hm; cbn in *; [done|]. intros (Hp & Ha & Ht & HK).
  rewrite Hm by set_solver. split; [done|]. split; [done|].
  split; [eapply tree_at_frame; [|done]|eapply IH; [|done]]; intros x Hx; apply Hm; set_solver.
Qed.

Lemma tree_at_addr m parent t q : tree_at m parent t -> q ∈ inorder t -> node_addr q /\ is_Some (m !! q).
Proof.
  revert parent. induction t as [|c l IHl p r IHr]; intros parent; cbn; [by intros _ ?%not_elem_of_nil|].
  intros (Hp & Ha & Hl & Hr) [Hq|[->|Hq]%elem_of_cons]%elem_of_app; eauto.
Qed.

Lemma ctx_at_addr m root K : forall q x, ctx_at m root K q -> x ∈ ctx_nodes K -> node_addr x /\ is_Some (m !! x).
Proof.
  induction K as [|[d c p t] K IH]; intros q x; cbn; [by intros _ ?%not_elem_of_nil|].
  intros (Hp & Ha & Ht & HK) [->|[Hx|Hx]%elem_of_app]%elem_of_cons; eauto using tree_at_addr.
Qed.

Lemma up_addr m root K q : ctx_at m root K q -> up K = RB_NULL \/ node_addr (up K).
Proof. destruct K as [|[d c p t] K]; cbn; [by left|]. intros (_ & Ha & _). by right. Qed.

(** ** The word *)

Lemma aligned_land p x : Z.land p 3 = 0 -> 0 <= x < 4 -> Z.land p x = 0.
Proof.
  intros Hp Hx. assert (x = Z.land 3 x) as ->.
  { assert (x = 0 \/ x = 1 \/ x = 2 \/ x = 3) as [->|[->|[->| ->]]] by lia; done. }
  by rewrite Z.land_assoc, Hp.
Qed.

Lemma ptr_aligned p : p = RB_NULL \/ node_addr p -> Z.land p 3 = 0.
Proof. intros [->|[_ ?]]; done. Qed.

Lemma word_parent p c : Z.land p 3 = 0 -> __rb_parent (word p c) = p.
Proof.
  intros Hp. unfold __rb_parent, word. rewrite Z.land_lor_distr_l, <- Z.ldiff_land.
  assert (Z.land (color_bit c) (Z.lnot 3) = 0) as -> by (by destruct c). rewrite Z.lor_0_r.
  apply Z.bits_inj'. intros i Hi. rewrite Z.ldiff_spec.
  assert (Z.testbit (Z.land p 3) i = false) as Hb by (rewrite Hp; apply Z.bits_0). rewrite Z.land_spec in Hb.
  by destruct (Z.testbit p i), (Z.testbit 3 i).
Qed.

Lemma word_color p c : Z.land p 3 = 0 -> __rb_color (word p c) = color_bit c.
Proof.
  intros Hp. unfold __rb_color, word. rewrite Z.land_lor_distr_l, aligned_land by (done || lia). by destruct c.
Qed.

Lemma word_is_black p c : Z.land p 3 = 0 -> __rb_is_black (word p c) = match c with Red => false | Black => true end.
Proof. intros Hp. unfold __rb_is_black. rewrite word_color by done. by destruct c. Qed.
Lemma word_is_red p c : Z.land p 3 = 0 -> __rb_is_red (word p c) = match c with Red => true | Black => false end.
Proof. intros Hp. unfold __rb_is_red. rewrite word_color by done. by destruct c. Qed.
Lemma word_red p : word p Red = p.
Proof. apply Z.lor_0_r. Qed.
Lemma word_set_black p c : Z.lor (word p c) RB_BLACK = word p Black.
Proof. unfold word. rewrite <- Z.lor_assoc. by destruct c. Qed.

(** * Representation, callbacks and rotations *)

(** ** Augmented data *)

(** [av a p L]: in [a] the data of node [p] is right for a subtree with nodes [L]. *)
Section Data.
Context {A : Type} (av : A -> Z -> list Z -> Prop).

Fixpoint aug_tree (a : A) (t : tree) : Prop :=
  match t with Leaf => True | Node c l p r => av a p (inorder l ++ p :: inorder r) /\ aug_tree a l /\ aug_tree a r end.

(** Along the way up, when the nodes [L] are below. *)
Fixpoint aug_ctx (a : A) (K : list frame) (L : list Z) : Prop :=
  match K with
  | [] => True
  | Frame d c p t :: K =>
      let L := dord d L p (inorder t) in av a p L /\ aug_tree a t /\ aug_ctx a K L
  end.

(** [a'] is as good as [a] outside of [X]. *)
Definition keeps (X : list Z) (a a' : A) : Prop := forall q L, q ∉ X -> av a q L -> av a' q L.

Lemma aug_tree_mk a d c x p y :
  aug_tree a (mk d c x p y) <-> av a p (dord d (inorder x) p (inorder y)) /\ aug_tree a x /\ aug_tree a y.
Proof. destruct d; cbn; tauto. Qed.

Lemma aug_tree_paint a c t : aug_tree a (paint c t) <-> aug_tree a t.
Proof. by destruct t. Qed.

Lemma aug_tree_keeps X a a' t : keeps X a a' -> (forall q, q ∈ inorder t -> q ∉ X) -> aug_tree a t -> aug_tree a' t.
Proof.
  intros Hk. induction t as [|c l IHl p r IHr]; intros Hx; cbn in *; [done|]. intros (Hp & Hl & Hr).
  split; [apply Hk; [apply Hx; set_solver|done]|].
  split; [apply IHl|apply IHr]; try done; intros q Hq; apply Hx; set_solver.
Qed.

Lemma aug_ctx_keeps X a a' K : forall L,
  keeps X a a' -> (forall q, q ∈ ctx_nodes K -> q ∉ X) -> aug_ctx a K L -> aug_ctx a' K L.
Proof.
  induction K as [|[d c p t] K IH]; intros L Hk Hx; cbn in *; [done|]. intros (Hp & Ht & HK).
  split; [apply Hk; [apply Hx; set_solver|done]|].
  split; [eapply aug_tree_keeps; [done| |done]|apply IH; [done| |done]]; intros q Hq; apply Hx; set_solver.
Qed.
End Data.

(** A way up that ends below [stop]; only links count. *)
Definition upto (stop : Z) (K : list frame) : Z := match K with [] => stop | f :: _ => f_node f end.

Fixpoint path_at (m : rb_nodes) (stop : Z) (K : list frame) (q : Z) : Prop :=
  match K with
  | [] => True
  | Frame d c p t :: K =>
      (exists n, m !! p = Some n /\ child d n = q /\ child (opp d) n = ptr t
        /\ __rb_parent (__rb_parent_color n) = upto stop K)
      /\ path_at m stop K p
  end.

Definition addrs (L : list Z) : Prop := forall q, q ∈ L -> node_addr q.

(** What trees ask of callbacks, and what callbacks may expect. *)
Class RbAugment {A : Type} (cb : rb_augment_callbacks A) (av : A -> Z -> list Z -> Prop) : Prop := {
  rotate_ok : forall old new m a n lt rt,
    m !! old = Some n -> rb_left n = ptr lt -> rb_right n = ptr rt -> addrs (inorder lt ++ inorder rt) ->
    aug_tree av a lt -> aug_tree av a rt -> old <> new -> (old ∉ inorder lt ++ inorder rt) -> (new ∉ inorder lt ++ inorder rt) ->
    exists a', rotate cb old new m a = Ok a' /\ av a' old (inorder lt ++ old :: inorder rt)
      /\ (forall L, av a old L -> av a' new L) /\ keeps av [old; new] a a';
  copy_ok : forall old new m a,
    exists a', copy cb old new m a = Ok a' /\ (forall L, av a old L -> av a' new L) /\ keeps av [new] a a';
  propagate_ok : forall stop K m a t,
    path_at m stop K (ptr t) -> addrs (inorder t ++ ctx_nodes K) -> NoDup (inorder t ++ ctx_nodes K) ->
    (stop ∉ ctx_nodes K) -> aug_tree av a t -> Forall (fun f => aug_tree av a (f_tree f)) K ->
    match K with [] => True | f :: K' => exists L0, L0 <> [] /\ av a (f_node f) L0 /\ aug_ctx av a K' L0 end ->
    exists a', propagate cb (upto stop K) stop m a = Ok a' /\ aug_ctx av a' K (inorder t)
      /\ keeps av (f_node <$> K) a a';
}.

(** ** Trees in a state *)

Section Rep.
Context {A : Type} (av : A -> Z -> list Z -> Prop).

Record repr (s : rb_state A) (K : list frame) (t : tree) : Prop := {
  rp_tree : tree_at (nodes s) (up K) t;
  rp_ctx : ctx_at (nodes s) (rb_root s) K (ptr t);
  rp_nodup : NoDup (inorder t ++ ctx_nodes K);
  rp_aug : aug_tree av (aug s) t;
  rp_augK : aug_ctx av (aug s) K (inorder t);
}.

Lemma repr_fill s f K t : repr s (f :: K) t <-> repr s K (fill f t).
Proof.
  destruct f as [d c p u]. unfold fill. cbn. split; intros [H1 H2 H3 H4 H5]; split; cbn in *.
  - apply tree_at_mk. tauto.
  - rewrite ptr_mk. tauto.
  - rewrite inorder_mk. eapply NoDup_Permutation_proper; [|exact H3]. destruct d; cbn; solve_Permutation.
  - apply aug_tree_mk. tauto.
  - rewrite inorder_mk. tauto.
  - apply tree_at_mk in H1. tauto.
  - apply tree_at_mk in H1. rewrite ptr_mk in H2. tauto.
  - rewrite inorder_mk in H3. eapply NoDup_Permutation_proper; [|exact H3]. destruct d; cbn; solve_Permutation.
  - apply aug_tree_mk in H4. tauto.
  - apply aug_tree_mk in H4. rewrite inorder_mk in H5. tauto.
Qed.

Lemma repr_plug s K : forall t, repr s K t <-> repr s [] (plug K t).
Proof. induction K as [|f K IH]; intros t; [done|]. rewrite repr_fill. apply IH. Qed.
End Rep.

(** ** Single steps *)

(** [split_nodup H] takes the facts out of a [NoDup]; [nd] uses them. *)
Ltac split_nodup H :=
  rewrite ?NoDup_app, ?NoDup_cons, ?elem_of_app, ?elem_of_cons in H;
  repeat (rewrite ?NoDup_app, ?NoDup_cons in H).
Ltac only_sets :=
  repeat match goal with
  | H : ?P |- _ =>
      lazymatch type of P with
      | Prop => lazymatch P with
                | context [lookup] => clear H
                | context [@keeps] => clear H
                | context [elem_of] => fail
                | _ => clear H
                end
      | _ => fail
      end
  end.
Ltac nd := only_sets; set_solver.

(** Inclusion of one list of nodes in another. *)
Ltac mem := intros ?q ?Hq; cbn [ctx_nodes f_node f_tree inorder] in *;
  repeat (progress rewrite ?inorder_mk, ?inorder_paint, ?elem_of_app, ?elem_of_cons, ?elem_of_dord, ?list_elem_of_singleton in * ); tauto.

Lemma tree_addrs m parent t : tree_at m parent t -> addrs (inorder t).
Proof. intros Ht q Hq. by destruct (tree_at_addr m parent t q). Qed.
Lemma addrs_app L L' : addrs L -> addrs L' -> addrs (L ++ L').
Proof. intros H1 H2 q [Hq|Hq]%elem_of_app; auto. Qed.

Lemma ptr_in t : ptr t <> RB_NULL -> ptr t ∈ inorder t.
Proof. destruct t; cbn; set_solver. Qed.

Lemma ptr_not_null m parent t : tree_at m parent t -> t <> Leaf -> ptr t <> RB_NULL.
Proof. destruct t; cbn; [done|]. intros (_ & [Hp _] & _) _. unfold RB_NULL. lia. Qed.

Lemma addr_not_null p : node_addr p -> p <> RB_NULL.
Proof. intros [Hp _]. unfold RB_NULL. lia. Qed.

Lemma child_mkn d pc x y : child d (mkn d pc x y) = x.
Proof. by destruct d. Qed.
Lemma child_opp_mkn d pc x y : child (opp d) (mkn d pc x y) = y.
Proof. by destruct d. Qed.
Lemma pc_mkn d pc x y : __rb_parent_color (mkn d pc x y) = pc.
Proof. by destruct d. Qed.
Lemma with_child_mkn d pc x y v : with_child d v (mkn d pc x y) = mkn d pc v y.
Proof. by destruct d. Qed.
Lemma with_child_opp_mkn d pc x y v : with_child (opp d) v (mkn d pc x y) = mkn d pc x v.
Proof. by destruct d. Qed.
Lemma with_pc_mkn d pc x y v : with_pc v (mkn d pc x y) = mkn d v x y.
Proof. by destruct d. Qed.
Lemma mkn_opp d pc x y : mkn (opp d) pc x y = mkn d pc y x.
Proof. by destruct d. Qed.
Lemma opp_opp d : opp (opp d) = d.
Proof. by destruct d. Qed.
Lemma mkn_eta d n : n = mkn d (__rb_parent_color n) (child d n) (child (opp d) n).
Proof. by destruct n, d. Qed.

Create Rewrite HintDb rb.
#[export] Hint Rewrite child_mkn child_opp_mkn pc_mkn with_child_mkn with_child_opp_mkn with_pc_mkn @opp_opp : rb.

Section Steps.
Context {A : Type}.
Implicit Types s : rb_state A.

Lemma load_node s p n : nodes s !! p = Some n -> load s p = Ok n.
Proof. unfold load. by intros ->. Qed.

Lemma set_child_ok s d p n v : nodes s !! p = Some n -> set_child d p v s = Ok (store p (with_child d v n) s).
Proof. intros Hn. unfold set_child. by rewrite (load_node _ _ _ Hn). Qed.

Lemma set_pc_ok s p n v : nodes s !! p = Some n -> set_pc p v s = Ok (store p (with_pc v n) s).
Proof. intros Hn. unfold set_pc. by rewrite (load_node _ _ _ Hn). Qed.

Lemma get_child_ok s d p n : nodes s !! p = Some n -> get_child d s p = Ok (child d n).
Proof. intros Hn. unfold get_child. by rewrite (load_node _ _ _ Hn). Qed.

Lemma nodes_store p n s : nodes (store p n s) = <[p := n]> (nodes s).
Proof. done. Qed.

(** The same but for the nodes in [X]. *)
Record outside (X : list Z) s s' : Prop := {
  out_nodes : forall q, q ∉ X -> nodes s' !! q = nodes s !! q;
  out_size : forall q, is_Some (nodes s !! q) -> is_Some (nodes s' !! q);
}.

Lemma outside_refl X s : outside X s s.
Proof. by split. Qed.

Lemma outside_trans X s s' s'' : outside X s s' -> outside X s' s'' -> outside X s s''.
Proof. intros [H1 H2] [H3 H4]. split; [intros q Hq; by rewrite H3, H1|auto]. Qed.

Lemma outside_mono X Y s s' : (forall q, q ∈ X -> q ∈ Y) -> outside X s s' -> outside Y s s'.
Proof. intros Hs [H1 H2]. split; [|done]. intros q Hq. apply H1. by intros ?%Hs. Qed.

Lemma outside_store p n s : outside [p] s (store p n s).
Proof.
  split; cbn; intros q Hq.
  - by rewrite lookup_insert_ne by set_solver.
  - destruct (decide (q = p)) as [->|]; [by rewrite lookup_insert_eq|by rewrite lookup_insert_ne].
Qed.

(** A tree gets another parent, and its root a colour. *)
Lemma set_parent_color_ok s parent t p c :
  tree_at (nodes s) parent t -> t <> Leaf -> NoDup (inorder t) ->
  exists s', rb_set_parent_color (ptr t) p (color_bit c) s = Ok s' /\ rb_root s' = rb_root s /\ aug s' = aug s
    /\ tree_at (nodes s') p (paint c t) /\ outside [ptr t] s s'.
Proof.
  intros Ht Hl Hnd. destruct t as [|c0 l q r]; [done|]. cbn in *. destruct Ht as (Hq & Ha & Hl' & Hr).
  unfold rb_set_parent_color. rewrite (set_pc_ok _ _ _ _ Hq). eexists. split; [done|]. split; [done|]. split; [done|].
  split; [|apply outside_store]. cbn. rewrite lookup_insert_eq. split; [done|]. split; [done|].
  split_nodup Hnd. split; (eapply tree_at_frame; [|done]); intros x Hx; rewrite lookup_insert_ne by nd; done.
Qed.

Lemma if_set_parent_color_ok s parent t p c :
  tree_at (nodes s) parent t -> NoDup (inorder t) ->
  exists s', if_node (ptr t) (rb_set_parent_color (ptr t) p (color_bit c)) s = Ok s' /\ rb_root s' = rb_root s
    /\ aug s' = aug s /\ tree_at (nodes s') p (paint c t) /\ outside (inorder t) s s'.
Proof.
  intros Ht Hnd. unfold if_node. destruct (decide (t = Leaf)) as [->|Hl].
  { cbn. exists s. split_and!; first [apply outside_refl|done]. }
  rewrite (proj2 (Z.eqb_neq _ _)) by (by eapply ptr_not_null).
  destruct (set_parent_color_ok s parent t p c Ht Hl Hnd) as (s' & H1 & H2 & H3 & H4 & H5).
  exists s'. split_and!; try done. eapply outside_mono; [|exact H5]. intros q ->%list_elem_of_singleton.
  apply ptr_in. by eapply ptr_not_null.
Qed.

Lemma set_parent_ok s parent t p :
  tree_at (nodes s) parent t -> Z.land parent 3 = 0 -> t <> Leaf -> NoDup (inorder t) ->
  exists s', rb_set_parent (ptr t) p s = Ok s' /\ rb_root s' = rb_root s /\ aug s' = aug s
    /\ tree_at (nodes s') p t /\ outside [ptr t] s s'.
Proof.
  intros Ht Hp Hl Hnd. destruct (set_parent_color_ok s parent t p (root_color t) Ht Hl Hnd) as (s' & H1 & H2 & H3 & H4 & H5).
  exists s'. split; [|destruct t; done]. rewrite <- H1. unfold rb_set_parent, rb_set_parent_color.
  destruct t as [|c l q r]; [done|]. cbn in *. destruct Ht as (Hq & _). rewrite (load_node _ _ _ Hq). cbn [obind __rb_parent_color].
  by rewrite word_color, Z.lor_comm.
Qed.

Lemma if_set_parent_ok s parent t p :
  tree_at (nodes s) parent t -> Z.land parent 3 = 0 -> NoDup (inorder t) ->
  exists s', if_node (ptr t) (rb_set_parent (ptr t) p) s = Ok s' /\ rb_root s' = rb_root s
    /\ aug s' = aug s /\ tree_at (nodes s') p t /\ outside (inorder t) s s'.
Proof.
  intros Ht Hp Hnd. unfold if_node. destruct (decide (t = Leaf)) as [->|Hl].
  { cbn. exists s. split_and!; first [apply outside_refl|done]. }
  rewrite (proj2 (Z.eqb_neq _ _)) by (by eapply ptr_not_null).
  destruct (set_parent_ok s parent t p Ht Hp Hl Hnd) as (s' & H1 & H2 & H3 & H4 & H5).
  exists s'. split_and!; try done. eapply outside_mono; [|exact H5]. intros q ->%list_elem_of_singleton.
  apply ptr_in. by eapply ptr_not_null.
Qed.

(** The place gets another tree. *)
Lemma change_child_ok s K old new :
  ctx_at (nodes s) (rb_root s) K old -> NoDup (ctx_nodes K) -> (old ∉ ctx_nodes K) -> old <> RB_NULL ->
  exists s', __rb_change_child old new (up K) s = Ok s' /\ aug s' = aug s
    /\ ctx_at (nodes s') (rb_root s') K new /\ outside (ctx_nodes K) s s'.
Proof.
  intros HK Hnd Ho Hz. unfold __rb_change_child. destruct K as [|[d c p t] K]; cbn in *.
  { eexists. split; [done|]. split; [done|]. split; [done|]. by split. }
  destruct HK as (Hp & Ha & Ht & HK). rewrite (proj2 (Z.eqb_neq _ _)) by (by apply addr_not_null).
  rewrite (get_child_ok _ _ _ _ Hp). cbn [obind]. split_nodup Hnd.
  assert ((if child Lft (mkn d (word (up K) c) old (ptr t)) =? old then set_child Lft p new s else set_child Rgt p new s)
    = Ok (store p (mkn d (word (up K) c) new (ptr t)) s)) as ->.
  { destruct d; cbn; [by rewrite Z.eqb_refl, (set_child_ok _ _ _ _ _ Hp)|].
    rewrite (proj2 (Z.eqb_neq _ _)), (set_child_ok _ _ _ _ _ Hp); [done|]. intros He. apply Ho.
    right. apply elem_of_app. left. rewrite <- He. apply ptr_in. by rewrite He. }
  eexists. split; [done|]. split; [done|]. cbn. rewrite lookup_insert_eq. split.
  - split; [done|]. split; [done|]. split.
    + eapply tree_at_frame; [|done]. intros x Hx. rewrite lookup_insert_ne by nd. done.
    + eapply ctx_at_frame; [|done]. intros x Hx. rewrite lookup_insert_ne by nd. done.
  - eapply outside_mono; [|apply outside_store]. set_solver.
Qed.
Lemma rotate_set_parents_ok s K old new no nn co col :
  nodes s !! old = Some no -> nodes s !! new = Some nn -> __rb_parent_color no = word (up K) co ->
  node_addr old -> ctx_at (nodes s) (rb_root s) K old -> NoDup (old :: new :: ctx_nodes K) ->
  exists s', __rb_rotate_set_parents old new (color_bit col) s = Ok s' /\ aug s' = aug s
    /\ nodes s' !! new = Some (with_pc (word (up K) co) nn) /\ nodes s' !! old = Some (with_pc (word new col) no)
    /\ ctx_at (nodes s') (rb_root s') K new /\ outside (old :: new :: ctx_nodes K) s s'.
Proof.
  intros Ho Hn Hpc Ha HK Hnd. split_nodup Hnd. unfold __rb_rotate_set_parents, rb_parent.
  rewrite (load_node _ _ _ Ho). cbn [obind]. rewrite Hpc, word_parent by (eapply ptr_aligned, up_addr, HK).
  rewrite (set_pc_ok _ _ _ _ Hn). cbn [obind]. unfold rb_set_parent_color.
  rewrite (set_pc_ok _ _ no) by (cbn; by rewrite lookup_insert_ne by nd). cbn [obind].
  set (s2 := store old _ _).
  assert (outside (old :: new :: ctx_nodes K) s s2) as Hout.
  { eapply outside_trans; (eapply outside_mono; [|apply outside_store]); set_solver. }
  destruct (change_child_ok s2 K old new) as (s' & -> & Haug & HK' & Hout'); [|tauto|nd|by apply addr_not_null|].
  { eapply ctx_at_frame; [|exact HK]. intros x Hx. cbn. by rewrite !lookup_insert_ne by nd. }
  exists s'. destruct Hout' as [Hsame Hsize]. split; [done|]. split; [done|]. rewrite !Hsame by nd. cbn.
  rewrite lookup_insert_ne, !lookup_insert_eq by nd. split; [done|]. split; [done|]. split; [done|].
  eapply outside_trans; [exact Hout|]. split; [|done]. intros q Hq. apply Hsame. set_solver.
Qed.
End Steps.

#[export] Instance outside_proper {A} : Proper ((≡ₚ) ==> eq ==> eq ==> iff) (@outside A).
Proof. intros X Y HXY s _ <- s' _ <-. split; (apply outside_mono; intros q; by rewrite HXY). Qed.

(** ** Rotations *)

Section Rotation.
Context {A : Type} {cb : rb_augment_callbacks A} {av : A -> Z -> list Z -> Prop} `{Aug : !RbAugment cb av}.
Implicit Types s : rb_state A.

Lemma call_rotate_ok s e old new n x u :
  nodes s !! old = Some n -> child e n = ptr x -> child (opp e) n = ptr u -> addrs (inorder x ++ inorder u) ->
  aug_tree av (aug s) x -> aug_tree av (aug s) u -> NoDup (old :: new :: inorder x ++ inorder u) ->
  exists a', call (rotate cb) old new s = Ok (RbState (nodes s) (rb_root s) a')
    /\ av a' old (dord e (inorder x) old (inorder u)) /\ (forall L, av (aug s) old L -> av a' new L)
    /\ keeps av [old; new] (aug s) a'.
Proof using Aug.
  intros Hn Hx Hu Had Hax Hau Hnd. split_nodup Hnd. unfold call. destruct e; cbn in *.
  - destruct (rotate_ok old new (nodes s) (aug s) n x u) as (a' & -> & H); first [by exists a'|done|nd].
  - destruct (rotate_ok old new (nodes s) (aug s) n u x) as (a' & -> & H);
      first [by exists a'|done|intros q Hq; apply Had; set_solver|nd].
Qed.

(** [new] on side [e] of [old] goes up; [x] is its outer and [c] its inner
    subtree, [u] the other subtree of [old]. [f] corrects the parents of the
    subtrees. *)
Definition rotation (e : side) (old new tmp : Z) (f : rb_state A -> outcome (rb_state A)) (color : Z) s :=
  let! s := set_child e old tmp s in
  let! s := set_child (opp e) new old s in
  let! s := f s in
  let! s := __rb_rotate_set_parents old new color s in
  call (rotate cb) old new s.

Lemma rotation_ok s K e co col old new no nn c x u c' x' f L :
  nodes s !! old = Some no -> nodes s !! new = Some nn -> child (opp e) no = ptr u ->
  __rb_parent_color no = word (up K) co -> child e nn = ptr x -> node_addr old -> node_addr new ->
  tree_at (nodes s) old u -> ctx_at (nodes s) (rb_root s) K old ->
  NoDup (inorder x ++ new :: inorder c ++ old :: inorder u ++ ctx_nodes K) ->
  inorder c' = inorder c -> ptr c' = ptr c -> inorder x' = inorder x -> ptr x' = ptr x ->
  aug_tree av (aug s) c' -> aug_tree av (aug s) x' -> aug_tree av (aug s) u ->
  L = dord e (inorder x) new (dord e (inorder c) old (inorder u)) -> av (aug s) old L -> aug_ctx av (aug s) K L ->
  (forall s1, outside [old; new] s s1 -> exists s2, f s1 = Ok s2 /\ rb_root s2 = rb_root s1 /\ aug s2 = aug s1
     /\ tree_at (nodes s2) old c' /\ tree_at (nodes s2) new x' /\ outside (inorder c ++ inorder x) s1 s2) ->
  exists s', rotation e old new (ptr c) f (color_bit col) s = Ok s' /\ repr av s' K (mk e co x' new (mk e col c' old u))
    /\ outside (inorder x ++ new :: inorder c ++ old :: inorder u ++ ctx_nodes K) s s'.
Proof using Aug.
  intros Ho Hn Hu Hpc Hx Hao Han Htu HK Hnd Hc1 Hc2 Hx1 Hx2 Hac Hax Hau -> Hav HavK Hf.
  pose proof Hnd as Hnd'. split_nodup Hnd'. unfold rotation.
  rewrite (set_child_ok _ _ _ _ _ Ho). cbn [obind].
  rewrite (set_child_ok _ _ _ nn) by (cbn; by rewrite lookup_insert_ne by nd). cbn [obind]. set (s1 := store new _ _).
  assert (outside [old; new] s s1) as Hout1.
  { eapply outside_trans; (eapply outside_mono; [|apply outside_store]); set_solver. }
  destruct (Hf s1 Hout1) as (s2 & -> & Hroot2 & Haug2 & Htc & Htx & [Hsame2 Hsize2]). cbn [obind].
  assert (nodes s2 !! old = Some (with_child e (ptr c) no)) as Ho2.
  { rewrite Hsame2 by nd. cbn. by rewrite lookup_insert_ne, lookup_insert_eq by nd. }
  assert (nodes s2 !! new = Some (with_child (opp e) old nn)) as Hn2.
  { rewrite Hsame2 by nd. cbn. by rewrite lookup_insert_eq. }
  assert (forall q, q ∈ inorder u ++ ctx_nodes K -> nodes s2 !! q = nodes s !! q) as Hs2.
  { intros q Hq. rewrite Hsame2 by nd. apply Hout1. nd. }
  destruct (rotate_set_parents_ok s2 K old new _ _ co col Ho2 Hn2) as (s3 & -> & Haug3 & Hn3 & Ho3 & HK3 & [Hsame3 Hsize3]);
    [by destruct e|done| |repeat (apply NoDup_cons; split; [nd|]); tauto|].
  { rewrite Hroot2. eapply ctx_at_frame; [|exact HK]. intros q Hq. apply Hs2. set_solver. }
  cbn [obind].
  assert (tree_at (nodes s3) old c') as Htc3.
  { eapply tree_at_frame; [|exact Htc]. intros q Hq. rewrite Hc1 in Hq. apply Hsame3. nd. }
  assert (tree_at (nodes s3) new x') as Htx3.
  { eapply tree_at_frame; [|exact Htx]. intros q Hq. rewrite Hx1 in Hq. apply Hsame3. nd. }
  assert (tree_at (nodes s3) old u) as Htu3.
  { eapply tree_at_frame; [|exact Htu]. intros q Hq. rewrite Hsame3 by nd. apply Hs2. set_solver. }
  assert (aug s3 = aug s) as Ha3 by (by rewrite Haug3, Haug2).
  destruct (call_rotate_ok s3 e old new _ c' u Ho3) as (a' & -> & Hao' & Han' & Hkeep).
  { destruct e; done. } { by destruct e, no. }
  { apply addrs_app; by eapply tree_addrs. }
  { by rewrite Ha3. } { by rewrite Ha3. }
  { rewrite Hc1. apply NoDup_cons; split; [nd|]. apply NoDup_cons; split; [nd|]. apply NoDup_app. nd. }
  rewrite Ha3 in *. eexists. split; [done|]. rewrite Hc1 in Hao'. split.
  - split; cbn [nodes rb_root aug].
    + apply tree_at_mk. rewrite tree_at_mk, ptr_mk. split_and!; try done.
      * rewrite Hn3. f_equal. rewrite (mkn_eta e nn). autorewrite with rb. by rewrite Hx, Hx2.
      * rewrite Ho3. f_equal. rewrite (mkn_eta e no). autorewrite with rb. by rewrite Hu, Hc2.
    + rewrite ptr_mk. done.
    + rewrite !inorder_mk, Hc1, Hx1. eapply NoDup_Permutation_proper; [|exact Hnd]. destruct e; cbn; solve_Permutation.
    + rewrite !aug_tree_mk, !inorder_mk, Hc1, Hx1. split_and!; [by apply Han'| |done|..];
        (eapply aug_tree_keeps; [exact Hkeep| |done]); rewrite ?Hc1, ?Hx1; intros q Hq; nd.
    + rewrite !inorder_mk, Hc1, Hx1. eapply aug_ctx_keeps; [exact Hkeep| |exact HavK]. nd.
  - split; cbn [nodes].
    + intros q Hq. rewrite Hsame3, Hsame2 by nd. apply Hout1. nd.
    + intros q Hq. by apply Hsize3, Hsize2, Hout1.
Qed.
End Rotation.
