(* ===== verification/RbTreeInsert.v ===== *)
(** * Red-black trees: insertion keeps the tree balanced *)

From stdpp Require Import gmap functions.
From S2P Require Import Prelude RbTree RbTreeRep.

Section Flip.
Context {A : Type} {av : A -> Z -> list Z -> Prop}.
Implicit Types s : rb_state A.

(** ** Reading *)

Lemma is_black_ok s p pc x y parent c : nodes s !! p = Some (mkn x pc y parent) -> forall q, Z.land q 3 = 0 -> pc = word q c ->
  rb_is_black s p = Ok (match c with Red => false | Black => true end).
Proof.
  intros Hp q Hq ->. unfold rb_is_black. rewrite (load_node _ _ _ Hp). cbn [obind]. rewrite pc_mkn, word_is_black by done. done.
Qed.

Lemma is_red_node_ok s parent t :
  tree_at (nodes s) parent t -> Z.land parent 3 = 0 ->
  is_red_node s (ptr t) = Ok (match root_color t with Red => true | Black => false end).
Proof.
  destruct t as [|c l p r]; [done|]. intros (Hp & Ha & _) Hal. unfold is_red_node, rb_is_red. cbn [ptr].
  rewrite (proj2 (Z.eqb_neq _ _)) by (by apply addr_not_null). rewrite (load_node _ _ _ Hp). cbn [obind __rb_parent_color root_color].
  by rewrite word_is_red.
Qed.

Lemma paint_black t : root_color t = Black -> paint Black t = t.
Proof. by destruct t as [|[]]. Qed.

(** ** Case 1 *)

Lemma insert_flip_ok s d d' cp cg p t g u K x :
  repr av s (Frame d cp p t :: Frame d' cg g u :: K) x -> u <> Leaf ->
  exists s', insert_flip g p (ptr u) s = Ok (up K, s')
    /\ repr av s' K (mk d' Red (mk d Black x p t) g (paint Black u)) /\ outside [ptr u; p; g] s s'.
Proof.
  intros [Htx HK Hnd Hax HaK] Hu. cbn in HK, Hnd, HaK.
  destruct HK as (Hp & Hap & Htt & Hg & Hag & Htu & HK). pose proof Hnd as Hnd'. split_nodup Hnd'.
  assert (ptr u ∈ inorder u) as Hin by (by eapply ptr_in, ptr_not_null).
  destruct (set_parent_color_ok s g u g Black Htu Hu ltac:(tauto)) as (s1 & Heq & Hr1 & Ha1 & Htu1 & [Hs1 Hz1]).
  unfold insert_flip. change RB_BLACK with (color_bit Black). rewrite Heq. cbn [obind]. clear Heq.
  assert (forall q, q ∈ p :: g :: inorder x ++ inorder t ++ ctx_nodes K -> nodes s1 !! q = nodes s !! q) as Hsame.
  { intros q Hq. apply Hs1. intros ->%list_elem_of_singleton. nd. }
  unfold rb_set_parent_color. rewrite (set_pc_ok s1 p _ _ ltac:(by rewrite Hsame by set_solver)). cbn [obind].
  unfold rb_parent. erewrite load_node by (cbn; rewrite lookup_insert_ne by nd; by rewrite Hsame by set_solver).
  cbn [obind]. rewrite pc_mkn, word_parent by (eapply ptr_aligned, up_addr, HK).
  erewrite set_pc_ok by (cbn; rewrite lookup_insert_ne by nd; by rewrite Hsame by set_solver). cbn [obind].
  rewrite !with_pc_mkn. eexists. split; [done|]. split.
  - split; cbn.
    + rewrite !tree_at_mk, ptr_mk, ptr_paint. rewrite lookup_insert_eq, lookup_insert_ne, lookup_insert_eq by nd.
      split_and!; try done; (eapply tree_at_frame; [|done]); intros q Hq; rewrite ?inorder_paint in Hq;
        rewrite !lookup_insert_ne by nd; first [done|apply Hsame; set_solver].
    + rewrite ptr_mk, Hr1. eapply ctx_at_frame; [|exact HK]. intros q Hq. rewrite !lookup_insert_ne by nd. apply Hsame. set_solver.
    + rewrite !inorder_mk, inorder_paint. eapply NoDup_Permutation_proper; [|exact Hnd].
      destruct d, d'; cbn; solve_Permutation.
    + rewrite Ha1, !aug_tree_mk, aug_tree_paint, !inorder_mk, inorder_paint. tauto.
    + rewrite Ha1, !inorder_mk, inorder_paint. tauto.
  - split; cbn.
    + intros q Hq. rewrite !lookup_insert_ne by set_solver. apply Hs1. set_solver.
    + intros q Hq. apply Hz1 in Hq. destruct (decide (q = g)) as [->|]; [by rewrite lookup_insert_eq|rewrite lookup_insert_ne by done].
      destruct (decide (q = p)) as [->|]; [by rewrite lookup_insert_eq|by rewrite lookup_insert_ne].
Qed.
End Flip.

Section Insert.
Context {A : Type} {cb : rb_augment_callbacks A} {av : A -> Z -> list Z -> Prop} `{Aug : !RbAugment cb av}.
Implicit Types s : rb_state A.

(** ** Case 3 *)

Lemma insert_outer_ok s d g p ng np x t u K L :
  nodes s !! g = Some ng -> nodes s !! p = Some np -> child (opp d) ng = ptr u ->
  __rb_parent_color ng = word (up K) Black -> child d np = ptr x -> node_addr g -> node_addr p ->
  tree_at (nodes s) p x -> tree_at (nodes s) p t -> tree_at (nodes s) g u -> ctx_at (nodes s) (rb_root s) K g ->
  root_color t = Black -> NoDup (inorder x ++ p :: inorder t ++ g :: inorder u ++ ctx_nodes K) ->
  aug_tree av (aug s) t -> aug_tree av (aug s) x -> aug_tree av (aug s) u ->
  L = dord d (inorder x) p (dord d (inorder t) g (inorder u)) -> av (aug s) g L -> aug_ctx av (aug s) K L ->
  exists s', insert_outer (rotate cb) d g p (ptr t) s = Ok s' /\ repr av s' K (mk d Black x p (mk d Red t g u))
    /\ outside (inorder x ++ p :: inorder t ++ g :: inorder u ++ ctx_nodes K) s s'.
Proof using Aug.
  intros Hg Hp Hu Hpc Hx Hag Hap Htx Htt Htu HK Hc Hnd Hat Hax Hau HL Hav HaK.
  apply (rotation_ok s K d Black Red g p ng np t x u t x (if_node (ptr t) (rb_set_parent_color (ptr t) g (color_bit Black))) L); try done.
  intros s1 [Hs1 _].
  pose proof Hnd as Hnd'. split_nodup Hnd'.
  destruct (if_set_parent_color_ok s1 p t g Black) as (s2 & -> & Hr & Ha & Ht2 & [Hs2 Hz2]); [|tauto|].
  { eapply tree_at_frame; [|exact Htt]. intros q Hq. apply Hs1. nd. }
  exists s2. rewrite paint_black in Ht2 by done. split_and!; try done.
  - eapply tree_at_frame; [|exact Htx]. intros q Hq. rewrite Hs2 by nd. apply Hs1. nd.
  - split; [|done]. intros q Hq. apply Hs2. set_solver.
Qed.

(** ** Case 2 *)

Lemma insert_inner_ok s d n p np nn a b t :
  nodes s !! p = Some np -> child (opp d) np = n -> child d np = ptr t ->
  nodes s !! n = Some nn -> child d nn = ptr a -> child (opp d) nn = ptr b -> node_addr p -> node_addr n ->
  tree_at (nodes s) p t -> tree_at (nodes s) n a -> tree_at (nodes s) n b -> root_color a = Black ->
  NoDup (inorder t ++ p :: inorder a ++ n :: inorder b) -> aug_tree av (aug s) t -> aug_tree av (aug s) a ->
  exists s', insert_inner (rotate cb) d n p s = Ok (n, ptr b, s') /\ rb_root s' = rb_root s
    /\ (exists nn', nodes s' !! n = Some nn' /\ child d nn' = p)
    /\ tree_at (nodes s') n (mk d Red t p a) /\ tree_at (nodes s') n b
    /\ aug_tree av (aug s') (mk d Red t p a) /\ keeps av [p; n] (aug s) (aug s')
    /\ outside (p :: n :: inorder a) s s'.
Proof using Aug.
  intros Hp Hn Ht Hnn Ha Hb Hap Han Htt Hta Htb Hc Hnd Hat Haa. pose proof Hnd as Hnd'. split_nodup Hnd'.
  unfold insert_inner. rewrite (get_child_ok _ _ _ _ Hp). cbn [obind]. rewrite Hn, Z.eqb_refl.
  rewrite (get_child_ok _ _ _ _ Hnn). cbn [obind]. rewrite Ha, (set_child_ok _ _ _ _ _ Hp). cbn [obind].
  rewrite (set_child_ok _ _ _ nn) by (cbn; by rewrite lookup_insert_ne by nd). cbn [obind]. set (s1 := store n _ _).
  assert (forall q, q <> p -> q <> n -> nodes s1 !! q = nodes s !! q) as Hs1.
  { intros q ? ?. cbn. by rewrite !lookup_insert_ne by done. }
  destruct (if_set_parent_color_ok s1 n a p Black) as (s2 & Heq & Hr2 & Ha2 & Hta2 & Hout2); [|tauto|].
  { eapply tree_at_frame; [|exact Hta]. intros q Hq. apply Hs1; nd. }
  change RB_BLACK with (color_bit Black). rewrite Heq. cbn [obind]. clear Heq. rewrite paint_black in Hta2 by done.
  destruct Hout2 as [Hs2 Hz2].
  assert (nodes s2 !! p = Some (with_child (opp d) (ptr a) np)) as Hp2.
  { rewrite Hs2 by nd. cbn. by rewrite lookup_insert_ne, lookup_insert_eq by nd. }
  assert (nodes s2 !! n = Some (with_child d p nn)) as Hn2 by (rewrite Hs2 by nd; cbn; by rewrite lookup_insert_eq).
  unfold rb_set_parent_color. rewrite (set_pc_ok _ _ _ _ Hp2). cbn [obind]. set (s3 := store p _ _).
  assert (nodes s3 !! p = Some (mkn d (word n Red) (ptr t) (ptr a))) as Hp3.
  { cbn. rewrite lookup_insert_eq. f_equal. rewrite (mkn_eta d np). autorewrite with rb. by rewrite Ht. }
  assert (nodes s3 !! n = Some (with_child d p nn)) as Hn3 by (cbn; by rewrite lookup_insert_ne by nd).
  assert (forall q, q ∉ p :: n :: inorder a -> nodes s3 !! q = nodes s !! q) as Hs3.
  { intros q Hq. cbn. rewrite lookup_insert_ne, Hs2 by set_solver. apply Hs1; set_solver. }
  assert (tree_at (nodes s3) p t) as Htt3 by (eapply tree_at_frame; [|exact Htt]; intros q Hq; apply Hs3; nd).
  assert (tree_at (nodes s3) p a) as Hta3.
  { eapply tree_at_frame; [|exact Hta2]. intros q Hq. cbn. by rewrite lookup_insert_ne by nd. }
  assert (aug s3 = aug s) as Ha3 by exact Ha2.
  destruct (call_rotate_ok s3 d p n _ t a Hp3) as (a' & -> & Hao & _ & Hkeep); autorewrite with rb; try done.
  { apply addrs_app; by eapply tree_addrs. } { by rewrite Ha3. } { by rewrite Ha3. }
  { apply NoDup_cons; split; [nd|]. apply NoDup_cons; split; [nd|]. apply NoDup_app. nd. }
  cbn [obind]. rewrite Ha3 in *. rewrite (get_child_ok _ _ _ (with_child d p nn)) by done. cbn [obind].
  eexists. split; [by rewrite (mkn_eta d nn); autorewrite with rb; rewrite Hb|]. cbn [nodes rb_root aug].
  split; [exact Hr2|]. split; [exists (with_child d p nn); split; [exact Hn3|by destruct d]|].
  split; [rewrite tree_at_mk; split_and!; done|].
  split; [eapply tree_at_frame; [|exact Htb]; intros q Hq; apply Hs3; nd|].
  split; [rewrite aug_tree_mk; split_and!; [done|..]; (eapply aug_tree_keeps; [exact Hkeep| |done]); intros q Hq; nd|].
  split; [done|]. split; cbn [nodes]; [done|]. intros q Hq.
  destruct (decide (q = p)) as [->|]; [by rewrite Hp3|]. destruct (decide (q = n)) as [->|]; [by rewrite Hn3|].
  cbn. rewrite lookup_insert_ne by done. apply Hz2. cbn. by rewrite !lookup_insert_ne by done.
Qed.

(** ** One round *)

Lemma insert_arm_outer s d p t g u K x n :
  repr av s (Frame d Red p t :: Frame d Black g u :: K) x -> ptr x = n -> n <> RB_NULL ->
  root_color t = Black -> root_color u = Black ->
  exists s', insert_arm (rotate cb) d n p g (ptr u) s = Ok (None, s')
    /\ repr av s' K (mk d Black x p (mk d Red t g u))
    /\ outside (inorder x ++ ctx_nodes (Frame d Red p t :: Frame d Black g u :: K)) s s'.
Proof using Aug.
  intros [Htx HK Hnd Hax HaK] Hn Hz Hct Hcu. cbn in HK, Hnd, HaK.
  destruct HK as (Hp & Hap & Htt & Hg & Hag & Htu & HK). pose proof Hnd as Hnd'. split_nodup Hnd'.
  unfold insert_arm. rewrite (is_red_node_ok _ g) by (done || apply Hag). cbn [obind]. rewrite Hcu.
  unfold insert_inner. rewrite (get_child_ok _ _ _ _ Hp). cbn [obind]. rewrite child_opp_mkn.
  rewrite (proj2 (Z.eqb_neq _ _)).
  2: { intros He. assert (ptr t ∈ inorder t) as H1 by (apply ptr_in; by rewrite <- He).
       assert (ptr x ∈ inorder x) as H2 by (apply ptr_in; by rewrite Hn). rewrite Hn, He in H2. nd. }
  cbn [obind]. destruct (insert_outer_ok s d g p _ _ x t u K (dord d (dord d (inorder x) p (inorder t)) g (inorder u)) Hg Hp)
    as (s' & -> & Hr & Hout); autorewrite with rb; try done; try tauto.
  - apply dord_assoc.
  - exists s'. split; [done|]. split; [done|]. eapply outside_mono; [|exact Hout]. cbn. set_solver.
Qed.

Lemma insert_arm_inner s d p t g u K a n b :
  repr av s (Frame (opp d) Red p t :: Frame d Black g u :: K) (mk d Red a n b) ->
  root_color a = Black -> root_color b = Black -> root_color u = Black ->
  exists s', insert_arm (rotate cb) d n p g (ptr u) s = Ok (None, s')
    /\ repr av s' K (mk d Black (mk d Red t p a) n (mk d Red b g u))
    /\ outside (inorder (mk d Red a n b) ++ ctx_nodes (Frame (opp d) Red p t :: Frame d Black g u :: K)) s s'.
Proof using Aug.
  intros [Htx HK Hnd Hax HaK] Hca Hcb Hcu. cbn in HK, Hnd, HaK. rewrite inorder_mk in Hnd, HaK. rewrite ptr_mk in HK.
  rewrite tree_at_mk in Htx. rewrite aug_tree_mk in Hax. rewrite dord_opp in HaK.
  destruct HK as (Hp & Hap & Htt & Hg & Hag & Htu & HK). destruct Htx as (Hn & Han & Hta & Htb).
  assert (NoDup (inorder t ++ p :: inorder a ++ n :: inorder b ++ g :: inorder u ++ ctx_nodes K)) as Hnd1.
  { eapply NoDup_Permutation_proper; [|exact Hnd]. destruct d; cbn; solve_Permutation. }
  pose proof Hnd1 as Hnd'. split_nodup Hnd'. rewrite mkn_opp in Hp.
  unfold insert_arm. rewrite (is_red_node_ok _ g) by (done || apply Hag). cbn [obind]. rewrite Hcu.
  destruct (insert_inner_ok s d n p _ (mkn d (word p Red) (ptr a) (ptr b)) a b t Hp) as (s1 & -> & Hr1 & (nn' & Hn1 & Hc1) & Htx1 & Htb1 & Hax1 & Hkeep & [Hs1 Hz1]);
    autorewrite with rb; try done; try tauto.
  { apply (NoDup_app _ (g :: inorder u ++ ctx_nodes K)). rewrite <- app_assoc. cbn. by rewrite <- app_assoc. }
  cbn [obind].
  assert (nodes s1 !! g = Some (mkn d (word (up K) Black) p (ptr u))) as Hg1 by (by rewrite Hs1 by nd).
  destruct (insert_outer_ok s1 d g n _ _ (mk d Red t p a) b u K (dord d (dord d (inorder t) p (dord d (inorder a) n (inorder b))) g (inorder u)) Hg1 Hn1)
    as (s' & -> & Hr & Hout); autorewrite with rb; rewrite ?ptr_mk, ?inorder_mk; try done.
  - eapply tree_at_frame; [|exact Htu]. intros q Hq. apply Hs1. nd.
  - rewrite Hr1. eapply ctx_at_frame; [|exact HK]. intros q Hq. apply Hs1. nd.
  - eapply NoDup_Permutation_proper; [|exact Hnd]. destruct d; cbn; solve_Permutation.
  - eapply aug_tree_keeps; [exact Hkeep| |tauto]. intros q Hq. nd.
  - eapply aug_tree_keeps; [exact Hkeep| |tauto]. intros q Hq. nd.
  - by rewrite !dord_assoc.
  - apply Hkeep; [nd|]. destruct HaK as (_ & _ & HaK & _). exact HaK.
  - eapply aug_ctx_keeps; [exact Hkeep| |]. { intros q Hq. nd. } tauto.
  - exists s'. split; [done|]. split; [done|]. eapply outside_trans; (eapply outside_mono; [|first [exact Hout|by split]]).
    + clear. mem.
    + clear. mem.
Qed.

(** Where a red node with a red parent is, there is a black grandparent. *)
Lemma balK_red_inv d p t K c n :
  balK (Frame d Red p t :: K) c n ->
  c = Black /\ bal t Black n /\ exists d' g u cu K', K = Frame d' Black g u :: K' /\ bal u cu n /\ balK K' Black (S n).
Proof using Type.
  inversion 1 as [|? ? ? ? ? Ht HK|]; subst. split; [done|]. split; [done|].
  inversion HK; subst. eauto 10.
Qed.

Definition whole (K : list frame) (t : tree) : list Z := inorder t ++ ctx_nodes K.

Lemma insert_round s d p t K l n r m :
  repr av s (Frame d Red p t :: K) (Node Red l n r) -> bal l Black m -> bal r Black m ->
  balK (Frame d Red p t :: K) Black m ->
  exists d' g u K' s', K = Frame d' Black g u :: K' /\ balK K' Black (S m)
    /\ outside (whole (Frame d Red p t :: K) (Node Red l n r)) s s'
    /\ ((exists l' r', insert_arm (rotate cb) d' n p g (ptr u) s = Ok (Some (up K'), s')
           /\ bal l' Black (S m) /\ bal r' Black (S m) /\ repr av s' K' (Node Red l' g r')
           /\ inorder (plug K' (Node Red l' g r')) = inorder (plug (Frame d Red p t :: K) (Node Red l n r)))
        \/ (exists T, insert_arm (rotate cb) d' n p g (ptr u) s = Ok (None, s')
           /\ bal T Black (S m) /\ repr av s' K' T
           /\ inorder (plug K' T) = inorder (plug (Frame d Red p t :: K) (Node Red l n r)))).
Proof using Aug.
  intros Hr Hl Hrr HK. apply balK_red_inv in HK as (_ & Ht & d' & g & u & cu & K' & -> & Hu & HK).
  exists d', g, u, K'. destruct (decide (root_color u = Red)) as [Hcu|Hcu].
  - destruct (insert_flip_ok s d d' Red Black p t g u K' _ Hr) as (s' & Heq & Hr' & Hout); [by intros ->|].
    exists s'. split; [done|]. split; [done|]. split.
    { eapply outside_mono; [|exact Hout]. unfold whole. cbn. intros q Hq. assert (ptr u ∈ inorder u) by (destruct u; [done|cbn; set_solver]).
      set_solver. }
    left. pose proof Hr as [_ HK2 _ _ _]. cbn in HK2. destruct HK2 as (_ & _ & _ & _ & Hag & Htu & _).
    unfold insert_arm. rewrite (is_red_node_ok _ g) by (done || apply Hag). rewrite Hcu. cbn [obind]. rewrite Heq. cbn [obind].
    assert (cu = Red) as -> by (by apply bal_color in Hu; congruence). apply bal_paint_black in Hu.
    assert (bal (mk d Black (Node Red l n r) p t) Black (S m)) as Hb by (eapply bal_mk_black; eauto with rb).
    destruct d'.
    + eexists _, _. split_and!; [done|exact Hb|exact Hu|exact Hr'|]. rewrite !inorder_plug. cbn.
      rewrite inorder_mk, inorder_paint. destruct d; cbn; app_eq.
    + eexists _, _. split_and!; [done|exact Hu|exact Hb|exact Hr'|]. rewrite !inorder_plug. cbn.
      rewrite inorder_mk, inorder_paint. destruct d; cbn; app_eq.
  - assert (root_color u = Black) as Hcb by (by destruct (root_color u)). pose proof (bal_color _ _ _ Hu) as <-. rewrite Hcb in Hu.
    destruct (decide (d = d')) as [->|Hd].
    + destruct (insert_arm_outer s d' p t g u K' (Node Red l n r) n Hr) as (s' & -> & Hr' & Hout); try done.
      { apply addr_not_null. apply Hr. } { by eapply bal_color. }
      exists s'. split; [done|]. split; [done|]. split; [exact Hout|]. right. eexists. split; [done|]. split; [|split; [exact Hr'|]].
      * eapply bal_mk_black; [constructor; eauto|]. eapply bal_mk_red; done.
      * rewrite !inorder_plug. cbn. rewrite !inorder_mk. destruct d'; cbn; app_eq.
    + assert (d = opp d') as -> by (by destruct d, d').
      assert (exists a b, Node Red l n r = mk d' Red a n b /\ bal a Black m /\ bal b Black m) as (a & b & Hab & Ha & Hb).
      { destruct d'; [by exists l, r|by exists r, l]. }
      rewrite Hab in *. destruct (insert_arm_inner s d' p t g u K' a n b Hr) as (s' & -> & Hr' & Hout);
        [by eapply bal_color|by eapply bal_color|done|].
      exists s'. split; [done|]. split; [done|]. split; [exact Hout|]. right. eexists. split; [done|]. split; [|split; [exact Hr'|]].
      * eapply bal_mk_black; eapply bal_mk_red; done.
      * rewrite !inorder_plug. cbn. rewrite !inorder_mk. destruct d'; cbn; app_eq.
Qed.

(** ** The loop *)

Lemma whole_perm K : forall t, whole K t ≡ₚ inorder (plug K t).
Proof using Type.
  induction K as [|[d c p u] K IH]; intros t; [unfold whole; cbn; by rewrite app_nil_r|]. cbn.
  rewrite <- (IH (fill (Frame d c p u) t)). unfold whole, fill. cbn. rewrite inorder_mk. destruct d; cbn; solve_Permutation.
Qed.

Lemma insert_loop_ok fuel : forall s K l n r m,
  repr av s K (Node Red l n r) -> bal l Black m -> bal r Black m -> balK K Black m -> (length K < fuel)%nat ->
  exists s' T, insert_loop (rotate cb) fuel n (up K) s = Ok s' /\ repr av s' [] T /\ red_black T
    /\ inorder T = inorder (plug K (Node Red l n r)) /\ outside (inorder T) s s'.
Proof using Aug.
  induction fuel as [|fuel IH]; intros s K l n r m Hr Hl Hrr HK Hf; [lia|]. cbn [insert_loop].
  destruct K as [|[d c p t] K].
  - destruct (set_parent_color_ok s RB_NULL (Node Red l n r) RB_NULL Black) as (s' & Heq & Hr1 & Ha1 & Ht1 & Hout1);
      [apply Hr|done|by destruct Hr as [_ _ ? _ _]; rewrite app_nil_r in *|].
    exists s', (Node Black l n r). cbn in Heq. split; [exact Heq|]. destruct Hr as [H1 H2 H3 H4 H5]. split; [|split; [|split]].
    + split; cbn in *; rewrite ?Hr1, ?Ha1; done.
    + exists (S m). eauto with rb.
    + done.
    + eapply outside_mono; [|exact Hout1]. cbn. set_solver.
  - pose proof Hr as [_ Hctx _ _ _]. cbn in Hctx. destruct Hctx as (Hp & Hap & _ & Hctx).
    pose proof (ptr_aligned _ (up_addr _ _ _ _ Hctx)) as Hal. cbn [up f_node].
    rewrite (proj2 (Z.eqb_neq _ _)) by (by apply addr_not_null).
    erewrite is_black_ok by done. cbn [obind]. destruct c.
    + destruct (insert_round s d p t K l n r m Hr Hl Hrr HK) as (d' & g & u & K' & s' & -> & HK' & Hout & Hcase).
      unfold rb_red_parent. rewrite (load_node _ _ _ Hp). cbn [obind up f_node]. rewrite pc_mkn, word_red. cbn [f_node].
      pose proof Hctx as (Hg & _ & Htu & _). rewrite (get_child_ok _ _ _ _ Hg). cbn [obind].
      rewrite whole_perm in Hout.
      assert ((if negb (p =? child Rgt (mkn d' (word (up K') Black) p (ptr u)))
        then insert_arm (rotate cb) Lft n p g (child Rgt (mkn d' (word (up K') Black) p (ptr u))) s
        else let! tmp := get_child Lft s g in insert_arm (rotate cb) Rgt n p g tmp s)
        = insert_arm (rotate cb) d' n p g (ptr u) s) as ->.
      { destruct d'; cbn [mkn child rb_right].
        - rewrite (proj2 (Z.eqb_neq _ _)); [done|]. intros He. destruct Hr as [_ _ Hnd _ _]. cbn in Hnd. split_nodup Hnd.
          assert (p ∈ inorder u) by (rewrite He; apply ptr_in; rewrite <- He; by apply addr_not_null). set_solver.
        - rewrite Z.eqb_refl. cbn [negb]. by rewrite (get_child_ok _ _ _ _ Hg). }
      destruct Hcase as [(l' & r' & -> & Hl' & Hr' & Hrep & Hin)|(T & -> & HT & Hrep & Hin)]; cbn [obind].
      * destruct (IH s' K' l' g r' (S m) Hrep Hl' Hr' HK') as (s'' & T & -> & H1 & H2 & H3 & H4); [cbn in Hf; lia|].
        exists s'', T. rewrite Hin in H3. rewrite H3 in H4. split_and!; try done. rewrite H3. by eapply outside_trans.
      * exists s', (plug K' T). rewrite <- repr_plug. split_and!; try done; [by eapply bal_plug|by rewrite Hin].
    + exists s, (plug (Frame d Black p t :: K) (Node Red l n r)). split; [done|]. rewrite <- repr_plug. split_and!; try first [done|apply outside_refl].
      inversion HK; subst. eapply bal_plug; [constructor; eauto|eauto with rb].
Qed.

Lemma repr_size s K t : repr av s K t -> (length (inorder t ++ ctx_nodes K) <= size (nodes s))%nat.
Proof using Type.
  intros [Ht HK Hnd _ _]. rewrite <- (size_dom (nodes s)), <- (size_list_to_set (C := gset Z) _ Hnd). apply subseteq_size.
  intros q Hq%elem_of_list_to_set. apply elem_of_dom. apply elem_of_app in Hq as [Hq|Hq].
  - by eapply tree_at_addr.
  - by eapply ctx_at_addr.
Qed.

Lemma length_ctx K : (length K <= length (ctx_nodes K))%nat.
Proof using Type. induction K as [|f K IH]; cbn; [lia|]. rewrite length_app. lia. Qed.

(** ** Linking *)

Definition link_of (K : list frame) : rb_link :=
  match K with [] => RootLink | Frame d _ p _ :: _ => ChildLink d p end.

Lemma link_node_ok s K n :
  ctx_at (nodes s) (rb_root s) K RB_NULL -> NoDup (n :: ctx_nodes K) -> node_addr n ->
  av (aug s) n [n] -> aug_ctx av (aug s) K [n] ->
  exists s', rb_link_node n (up K) (link_of K) s = Ok s' /\ repr av s' K (Node Red Leaf n Leaf)
    /\ outside (n :: ctx_nodes K) s s'.
Proof using Type.
  clear Aug. intros HK Hnd Han Hav HaK. pose proof Hnd as Hnd'. split_nodup Hnd'. unfold rb_link_node. set (s1 := store n _ s).
  assert (outside (n :: ctx_nodes K) s s1) as Hout1 by (eapply outside_mono; [|apply outside_store]; set_solver).
  destruct K as [|[d c p t] K]; cbn [link_of] in *.
  - eexists. split; [done|]. split; [|by split; apply Hout1].
    split; cbn in *; try done. rewrite lookup_insert_eq. by rewrite word_red.
  - destruct HK as (Hp & Hap & Ht & HK). cbn [ctx_nodes f_node f_tree] in *. split_nodup Hnd'.
    assert (nodes s1 !! p = nodes s !! p) as Hp1 by (cbn; rewrite lookup_insert_ne; [done|set_solver]).
    rewrite (set_child_ok s1 d p (mkn d (word (up K) c) RB_NULL (ptr t))) by (by rewrite Hp1). rewrite with_child_mkn.
    eexists. split; [done|]. split.
    + split; cbn in *; try done.
      * rewrite lookup_insert_ne, lookup_insert_eq by set_solver. by rewrite word_red.
      * rewrite lookup_insert_eq. split; [done|]. split; [done|].
        split; [eapply tree_at_frame; [|exact Ht]|eapply ctx_at_frame; [|exact HK]];
          intros q Hq; rewrite !lookup_insert_ne by nd; done.
    + eapply outside_trans; [exact Hout1|]. eapply outside_mono; [|apply outside_store]. set_solver.
Qed.

(** Linking a node and rebalancing. *)
Lemma insert_ok s K n T :
  ctx_at (nodes s) (rb_root s) K RB_NULL -> NoDup (n :: ctx_nodes K) -> node_addr n ->
  av (aug s) n [n] -> aug_ctx av (aug s) K [n] -> T = plug K Leaf -> red_black T ->
  exists s1 s' T', rb_link_node n (up K) (link_of K) s = Ok s1 /\ __rb_insert (rotate cb) n s1 = Ok s'
    /\ repr av s' [] T' /\ red_black T' /\ inorder T' = before K ++ n :: after K /\ outside (inorder T') s s'.
Proof using Aug.
  intros HK Hnd Han Hav HaK -> [m Hb]. destruct (bal_unplug K Leaf _ _ Hb eq_refl) as (c & n0 & Hl & HbK).
  inversion Hl; subst. destruct (link_node_ok s K n HK Hnd Han Hav HaK) as (s1 & Hs1 & Hr1 & Hout1).
  unfold __rb_insert, rb_red_parent. pose proof Hr1 as [Htree _ _ _ _]. cbn in Htree. destruct Htree as (Hn & _).
  destruct (insert_loop_ok (rb_fuel s1) s1 K Leaf n Leaf 0 Hr1) as (s' & T' & Heq & Hr' & Hb' & Hin & Hout); eauto with rb.
  { pose proof (repr_size _ _ _ Hr1) as Hz. pose proof (length_ctx K). rewrite length_app in Hz. unfold rb_fuel. lia. }
  exists s1, s', T'. split; [done|]. split; [by rewrite (load_node _ _ _ Hn); cbn; rewrite word_red|].
  split; [done|]. split; [done|]. split; [by rewrite Hin, inorder_plug|]. eapply outside_trans; [|exact Hout].
  eapply outside_mono; [|exact Hout1]. intros q Hq. rewrite Hin, <- whole_perm. exact Hq.
Qed.
End Insert.
