(* ===== verification/RbTreeErase.v ===== *)
(** * Red-black trees: rebalancing after a removal *)

From stdpp Require Import gmap functions.
From S2P Require Import Prelude RbTree RbTreeRep RbTreeInsert.

Section EraseColor.
Context {A : Type} {cb : rb_augment_callbacks A} {av : A -> Z -> list Z -> Prop} `{Aug : !RbAugment cb av}.
Implicit Types s : rb_state A.

Lemma obind_assoc {B C D} (m : outcome B) (f : B -> outcome C) (g : C -> outcome D) :
  obind (obind m f) g = obind m (fun x => obind (f x) g).
Proof using Type. by destruct m. Qed.

(** ** Case 4 *)

Lemma erase_outer_ok s e K cp p sb np ns x c t px pc L :
  nodes s !! p = Some np -> nodes s !! sb = Some ns -> child (opp e) np = ptr t ->
  __rb_parent_color np = word (up K) cp -> child e ns = ptr x -> child (opp e) ns = ptr c ->
  node_addr p -> node_addr sb -> tree_at (nodes s) p t -> tree_at (nodes s) px x -> x <> Leaf ->
  tree_at (nodes s) pc c -> Z.land pc 3 = 0 -> ctx_at (nodes s) (rb_root s) K p ->
  NoDup (inorder x ++ sb :: inorder c ++ p :: inorder t ++ ctx_nodes K) ->
  aug_tree av (aug s) c -> aug_tree av (aug s) x -> aug_tree av (aug s) t ->
  L = dord e (inorder x) sb (dord e (inorder c) p (inorder t)) -> av (aug s) p L -> aug_ctx av (aug s) K L ->
  exists s', erase_outer (rotate cb) (opp e) p sb (ptr x) s = Ok s'
    /\ repr av s' K (mk e cp (paint Black x) sb (mk e Black c p t))
    /\ outside (inorder x ++ sb :: inorder c ++ p :: inorder t ++ ctx_nodes K) s s'.
Proof using Aug.
  intros Hp Hsb Ht Hpc Hx Hc Hap Hasb Htt Htx Hlx Htc Hal HK Hnd Hac Hax Hat HL Hav HaK.
  pose proof Hnd as Hnd'. split_nodup Hnd'.
  assert (ptr x ∈ inorder x) as Hin by (by eapply ptr_in, ptr_not_null).
  destruct (rotation_ok s K e cp Black p sb np ns c x t c (paint Black x)
    (fun s => let! s := rb_set_parent_color (ptr x) sb (color_bit Black) s in if_node (ptr c) (rb_set_parent (ptr c) p) s) L)
    as (s' & Heq & Hr & Hout); rewrite ?inorder_paint, ?ptr_paint, ?aug_tree_paint; try done.
  - intros s1 [Hs1 _].
    destruct (set_parent_color_ok s1 px x sb Black) as (s2 & -> & Hr2 & Ha2 & Htx2 & [Hs2 Hz2]); [|done|tauto|].
    { eapply tree_at_frame; [|exact Htx]. intros q Hq. apply Hs1. nd. }
    cbn [obind]. destruct (if_set_parent_ok s2 pc c p) as (s3 & -> & Hr3 & Ha3 & Htc3 & [Hs3 Hz3]); [|done|tauto|].
    { eapply tree_at_frame; [|exact Htc]. intros q Hq. rewrite Hs2; [apply Hs1; nd|]. intros ->%list_elem_of_singleton. nd. }
    exists s3. split; [done|]. split; [congruence|]. split; [congruence|]. split; [done|]. split.
    + eapply tree_at_frame; [|exact Htx2]. intros q Hq. rewrite inorder_paint in Hq. apply Hs3. nd.
    + split; [|by auto]. intros q Hq. rewrite Hs3, Hs2 by set_solver. done.
  - exists s'. split; [|done]. rewrite <- Heq. unfold erase_outer, rotation. rewrite !opp_opp.
    rewrite (get_child_ok _ _ _ _ Hsb). cbn [obind]. rewrite Hc.
    destruct (set_child e p (ptr c) s) as [s1| | |]; cbn [obind]; try done.
    destruct (set_child (opp e) sb p s1) as [s2| | |]; cbn [obind]; try done. by rewrite obind_assoc.
Qed.

(** ** Case 1 *)

Lemma erase_red_sibling_ok s e K cp p a sb b t :
  repr av s (Frame (opp e) cp p (mk e Red b sb a) :: K) t -> a <> Leaf -> root_color a = Black ->
  exists s', erase_red_sibling (rotate cb) (opp e) p sb s = Ok (ptr a, s')
    /\ repr av s' (Frame (opp e) Red p a :: Frame (opp e) cp sb b :: K) t
    /\ outside (whole (Frame (opp e) cp p (mk e Red b sb a) :: K) t) s s'.
Proof using Aug.
  intros [Htt HK Hnd Hat HaK] Hla Hca. cbn in HK, Hnd, HaK.
  rewrite tree_at_mk, ptr_mk in HK. rewrite inorder_mk in Hnd, HaK. rewrite aug_tree_mk, dord_opp in HaK.
  destruct HK as (Hp & Hap & (Hsb & Hasb & Htb & Hta) & HK). rewrite mkn_opp in Hp.
  assert (NoDup (inorder b ++ sb :: inorder a ++ p :: inorder t ++ ctx_nodes K)) as Hnd1.
  { eapply NoDup_Permutation_proper; [|exact Hnd]. destruct e; cbn; solve_Permutation. }
  pose proof Hnd1 as Hnd'. split_nodup Hnd'. destruct HaK as (Hav & (_ & Hab & Haa) & HaK).
  assert (ptr a ∈ inorder a) as Hin by (by eapply ptr_in, ptr_not_null).
  destruct (rotation_ok s K e cp Red p sb _ _ a b t a b (rb_set_parent_color (ptr a) p (color_bit Black))
    (dord e (dord e (inorder b) sb (inorder a)) p (inorder t)) Hp Hsb) as (s' & Heq & Hr & Hout); autorewrite with rb; try done.
  - apply dord_assoc.
  - intros s1 [Hs1 _].
    destruct (set_parent_color_ok s1 sb a p Black) as (s2 & -> & Hr2 & Ha2 & Hta2 & [Hs2 Hz2]); [|done|tauto|].
    { eapply tree_at_frame; [|exact Hta]. intros q Hq. apply Hs1. nd. }
    rewrite paint_black in Hta2 by done. exists s2. split_and!; try done.
    + eapply tree_at_frame; [|exact Htb]. intros q Hq. rewrite Hs2; [apply Hs1; nd|]. intros ->%list_elem_of_singleton. nd.
    + split; [|done]. intros q Hq. apply Hs2. intros ->%list_elem_of_singleton. set_solver.
  - exists s'. split; [|split].
    + unfold erase_red_sibling. rewrite !opp_opp, (get_child_ok _ _ _ _ Hsb). cbn [obind]. rewrite child_opp_mkn.
      unfold rotation in Heq. destruct (set_child e p (ptr a) s) as [s1| | |]; cbn [obind] in *; try done.
      destruct (set_child (opp e) sb p s1) as [s2| | |]; cbn [obind] in *; try done.
      change (color_bit Black) with RB_BLACK in Heq.
      destruct (rb_set_parent_color (ptr a) p RB_BLACK s2) as [s3| | |]; cbn [obind] in *; try done.
      change (color_bit Red) with RB_RED in Heq.
      destruct (__rb_rotate_set_parents p sb RB_RED s3) as [s4| | |]; cbn [obind] in *; try done. by rewrite Heq.
    + rewrite !repr_fill. unfold fill. cbn. by rewrite !mk_opp.
    + eapply outside_mono; [|exact Hout]. unfold whole. clear. mem.
Qed.

(** ** Case 3 *)

Lemma erase_inner_ok s e cs p sb a0 np na b a1 a2 :
  nodes s !! p = Some np -> nodes s !! a0 = Some na -> child e na = ptr a2 -> child (opp e) na = ptr a1 ->
  nodes s !! sb = Some (mkn e (word p cs) (ptr b) a0) -> node_addr sb -> node_addr a0 ->
  tree_at (nodes s) sb b -> tree_at (nodes s) a0 a1 -> tree_at (nodes s) a0 a2 -> root_color a2 = Black ->
  NoDup (inorder b ++ sb :: inorder a2 ++ a0 :: p :: inorder a1) -> aug_tree av (aug s) b -> aug_tree av (aug s) a2 ->
  exists s', erase_inner (rotate cb) (opp e) p sb a0 s = Ok s' /\ rb_root s' = rb_root s
    /\ nodes s' !! p = Some (with_child e a0 np)
    /\ (exists na', nodes s' !! a0 = Some na' /\ child e na' = sb /\ child (opp e) na' = ptr a1)
    /\ tree_at (nodes s') p (mk e cs b sb a2) /\ tree_at (nodes s') a0 a1
    /\ aug_tree av (aug s') (mk e cs b sb a2) /\ keeps av [sb; a0] (aug s) (aug s')
    /\ outside (p :: sb :: a0 :: inorder a2) s s'.
Proof using Aug.
  intros Hp Ha0 Hca2 Hca1 Hsb Hasb Haa0 Htb Hta1 Hta2 Hc Hnd Hab Haa. pose proof Hnd as Hnd'. split_nodup Hnd'.
  unfold erase_inner. rewrite !opp_opp, (get_child_ok _ _ _ _ Ha0). cbn [obind]. rewrite Hca2.
  rewrite (set_child_ok _ _ _ _ _ Hsb). cbn [obind]. rewrite with_child_opp_mkn.
  rewrite (set_child_ok _ _ _ na) by (cbn; by rewrite lookup_insert_ne by nd). cbn [obind].
  rewrite (set_child_ok _ _ _ np) by (cbn; by rewrite !lookup_insert_ne by nd). cbn [obind]. set (s1 := store p _ _).
  assert (outside (p :: sb :: a0 :: inorder a2) s s1) as Hout1.
  { do 2 (eapply outside_trans; [|eapply outside_mono; [|apply outside_store]; set_solver]).
    eapply outside_mono; [|apply outside_store]; set_solver. }
  destruct (if_set_parent_color_ok s1 a0 a2 sb Black) as (s2 & Heq & Hr2 & Ha2 & Hta2' & [Hs2 Hz2]); [|tauto|].
  { eapply tree_at_frame; [|exact Hta2]. intros q Hq. cbn. by rewrite !lookup_insert_ne by nd. }
  change RB_BLACK with (color_bit Black). rewrite Heq. cbn [obind]. clear Heq. rewrite paint_black in Hta2' by done.
  assert (nodes s2 !! sb = Some (mkn e (word p cs) (ptr b) (ptr a2))) as Hsb2.
  { rewrite Hs2 by nd. cbn. do 2 rewrite lookup_insert_ne by nd. by rewrite lookup_insert_eq. }
  assert (forall q, q ∉ p :: sb :: a0 :: inorder a2 -> nodes s2 !! q = nodes s !! q) as Hs.
  { intros q Hq. rewrite Hs2 by set_solver. by apply Hout1. }
  assert (tree_at (nodes s2) sb b) as Htb2 by (eapply tree_at_frame; [|exact Htb]; intros q Hq; apply Hs; nd).
  assert (aug s2 = aug s) as Haug by exact Ha2.
  destruct (call_rotate_ok s2 e sb a0 _ b a2 Hsb2) as (a' & -> & Hao & _ & Hkeep); autorewrite with rb; try done.
  { apply addrs_app; by eapply tree_addrs. } { by rewrite Haug. } { by rewrite Haug. }
  { apply NoDup_cons; split; [nd|]. apply NoDup_cons; split; [nd|]. apply NoDup_app. nd. }
  rewrite Haug in *. eexists. split; [done|]. cbn [nodes rb_root aug]. split; [exact Hr2|].
  split; [rewrite Hs2 by nd; cbn; by rewrite lookup_insert_eq|]. split.
  { exists (with_child e sb na). split; [rewrite Hs2 by nd; cbn; by rewrite lookup_insert_ne, lookup_insert_eq by nd|].
    rewrite (mkn_eta e na). autorewrite with rb. done. }
  split; [rewrite tree_at_mk; split_and!; done|].
  split; [eapply tree_at_frame; [|exact Hta1]; intros q Hq; apply Hs; nd|].
  split; [rewrite aug_tree_mk; split_and!; [done|..]; (eapply aug_tree_keeps; [exact Hkeep| |done]); intros q Hq; nd|].
  split; [done|]. split; cbn [nodes]; [done|]. intros q Hq. by apply Hz2, Hout1.
Qed.

(** ** Case 2 *)

Lemma erase_flip_ok s d cp p sib K t :
  repr av s (Frame d cp p sib :: K) t -> sib <> Leaf ->
  exists s', erase_flip p (ptr sib) s
      = Ok (match cp with Red => None | Black => if up K =? RB_NULL then None else Some (p, up K) end, s')
    /\ repr av s' K (mk d Black t p (paint Red sib)) /\ outside (whole (Frame d cp p sib :: K) t) s s'.
Proof using Type.
  clear Aug. intros [Htt HK Hnd Hat HaK] Hl. cbn in HK, Hnd, HaK. destruct HK as (Hp & Hap & Hts & HK).
  pose proof Hnd as Hnd'. split_nodup Hnd'. pose proof (ptr_aligned _ (up_addr _ _ _ _ HK)) as Hal.
  assert (ptr sib ∈ inorder sib) as Hin by (by eapply ptr_in, ptr_not_null).
  destruct (set_parent_color_ok s p sib p Red Hts Hl ltac:(tauto)) as (s1 & Heq & Hr1 & Ha1 & Hts1 & [Hs1 Hz1]).
  unfold erase_flip. change RB_RED with (color_bit Red). rewrite Heq. cbn [obind]. clear Heq.
  assert (forall q, q ∈ p :: inorder t ++ ctx_nodes K -> nodes s1 !! q = nodes s !! q) as Hsame.
  { intros q Hq. apply Hs1. intros ->%list_elem_of_singleton. nd. }
  assert (nodes s1 !! p = Some (mkn d (word (up K) cp) (ptr t) (ptr sib))) as Hp1 by (by rewrite Hsame by set_solver).
  assert (forall s2, outside [p] s1 s2 -> rb_root s2 = rb_root s1 -> aug s2 = aug s1 ->
    nodes s2 !! p = Some (mkn d (word (up K) Black) (ptr t) (ptr sib)) ->
    repr av s2 K (mk d Black t p (paint Red sib)) /\ outside (whole (Frame d cp p sib :: K) t) s s2) as Hdone.
  { intros s2 [Hs2 Hz2] Hr2 Ha2 Hp2. split.
    - split; cbn.
      + rewrite tree_at_mk, ptr_paint. split_and!; try done; (eapply tree_at_frame; [|done]); intros q Hq;
          rewrite ?inorder_paint in Hq; (rewrite Hs2 by nd); first [done|apply Hsame; set_solver].
      + rewrite ptr_mk, Hr2, Hr1. eapply ctx_at_frame; [|exact HK]. intros q Hq. rewrite Hs2 by nd. apply Hsame. set_solver.
      + rewrite inorder_mk, inorder_paint. eapply NoDup_Permutation_proper; [|exact Hnd]. destruct d; cbn; solve_Permutation.
      + rewrite Ha2, Ha1, aug_tree_mk, aug_tree_paint, inorder_paint. tauto.
      + rewrite Ha2, Ha1, inorder_mk, inorder_paint. tauto.
    - unfold whole. cbn. split; [|by auto]. intros q Hq. rewrite Hs2, Hs1; [done|intros ->%list_elem_of_singleton|]; set_solver. }
  unfold rb_is_red. rewrite (load_node _ _ _ Hp1). cbn [obind]. rewrite pc_mkn, word_is_red by done. destruct cp; cbn iota.
  - unfold rb_set_black. rewrite (load_node _ _ _ Hp1). cbn [obind]. rewrite pc_mkn, word_set_black, (set_pc_ok _ _ _ _ Hp1).
    cbn [obind]. rewrite with_pc_mkn. eexists. split; [done|]. apply Hdone; try done; [apply outside_store|]. cbn. by rewrite lookup_insert_eq.
  - unfold rb_parent. rewrite (load_node _ _ _ Hp1). cbn [obind]. rewrite pc_mkn, word_parent by done. eexists. split; [done|].
    by apply Hdone; [apply outside_refl|..].
Qed.

(** ** One round *)

Lemma is_black_or_null_ok s parent t :
  tree_at (nodes s) parent t -> Z.land parent 3 = 0 ->
  is_black_or_null s (ptr t) = Ok (match root_color t with Red => false | Black => true end).
Proof using Type.
  destruct t as [|c l p r]; [done|]. intros (Hp & Ha & _) Hal. unfold is_black_or_null, rb_is_black. cbn [ptr].
  rewrite (proj2 (Z.eqb_neq _ _)) by (by apply addr_not_null). rewrite (load_node _ _ _ Hp). cbn [obind __rb_parent_color root_color].
  by rewrite word_is_black.
Qed.

(** How a round ends: with a balanced tree, or one level up. *)
Definition round_done s s' (K : list frame) (t : tree) (m : nat) (nxt : option (Z * Z)) : Prop :=
  outside (inorder (plug K t)) s s'
  /\ ((nxt = None /\ exists T, repr av s' [] T /\ red_black T /\ inorder T = inorder (plug K t))
      \/ (exists T, nxt = Some (ptr T, up K) /\ K <> [] /\ repr av s' K T /\ inorder T = inorder t
          /\ bal T Black (S m) /\ balK K Black (S (S m)))).

Lemma round_finished s s' K t m T c n :
  outside (whole K t) s s' -> repr av s' K T -> inorder T = inorder t -> bal T c n -> balK K c n ->
  round_done s s' K t m None.
Proof using Type.
  clear Aug. intros Hout Hr Hin Hb HK. split; [by rewrite <- whole_perm|]. left. split; [done|].
  exists (plug K T). rewrite <- repr_plug. split; [done|]. split; [by eapply bal_plug|]. by rewrite !inorder_plug, Hin.
Qed.

Definition height_of (c : color) (m : nat) : nat := match c with Red => m | Black => S m end.

Lemma bal_mk_any d c x p y cx cy m :
  bal x cx m -> bal y cy m -> (c = Red -> cx = Black /\ cy = Black) -> bal (mk d c x p y) c (height_of c m).
Proof using Type.
  clear Aug. intros Hx Hy Hc. destruct c; cbn; [|by eapply bal_mk_black]. destruct (Hc eq_refl) as [-> ->]. by apply bal_mk_red.
Qed.

Lemma erase_case_outer s e cp p b sb a K t m c2 :
  repr av s (Frame (opp e) cp p (mk e Black b sb a) :: K) t -> root_color b = Red -> bal t Black m ->
  bal b Red m -> bal a c2 m -> balK K cp (height_of cp (S m)) ->
  exists s', erase_outer (rotate cb) (opp e) p sb (ptr b) s = Ok s'
    /\ round_done s s' K (fill (Frame (opp e) cp p (mk e Black b sb a)) t) m None.
Proof using Aug.
  intros [Htt HK Hnd Hat HaK] Hcb Hbt Hbb Hba HbK. cbn in HK, Hnd, HaK.
  rewrite tree_at_mk, ptr_mk in HK. rewrite inorder_mk in Hnd, HaK. rewrite aug_tree_mk, dord_opp in HaK.
  destruct HK as (Hp & Hap & (Hsb & Hasb & Htb & Hta) & HK). rewrite mkn_opp in Hp. destruct HaK as (Hav & (_ & Hab & Haa) & HaK).
  destruct (erase_outer_ok s e K cp p sb _ _ b a t sb sb (dord e (dord e (inorder b) sb (inorder a)) p (inorder t)) Hp Hsb)
    as (s' & -> & Hr & Hout); autorewrite with rb; try done; try apply Hasb.
  - by intros ->.
  - eapply NoDup_Permutation_proper; [|exact Hnd]. clear. destruct e; cbn; solve_Permutation.
  - apply dord_assoc.
  - exists s'. split; [done|]. unfold fill. cbn. rewrite mk_opp. eapply round_finished; [|exact Hr|..|exact HbK].
    + eapply outside_mono; [|exact Hout]. unfold whole. clear. mem.
    + by rewrite !inorder_mk, inorder_paint, dord_assoc.
    + apply bal_paint_black in Hbb. eapply bal_mk_any; [done| |done]. by eapply bal_mk_black.
Qed.

Lemma erase_case_inner s e cp p b sb a2 a0 a1 K t m :
  repr av s (Frame (opp e) cp p (mk e Black b sb (mk e Red a2 a0 a1)) :: K) t -> bal t Black m ->
  bal b Black m -> bal a1 Black m -> bal a2 Black m -> balK K cp (height_of cp (S m)) ->
  exists s', (let! s := erase_inner (rotate cb) (opp e) p sb a0 s in erase_outer (rotate cb) (opp e) p a0 sb s) = Ok s'
    /\ round_done s s' K (fill (Frame (opp e) cp p (mk e Black b sb (mk e Red a2 a0 a1))) t) m None.
Proof using Aug.
  intros [Htt HK Hnd Hat HaK] Hbt Hbb Hb1 Hb2 HbK. cbn in HK, Hnd, HaK.
  rewrite !tree_at_mk, !ptr_mk in HK. rewrite !inorder_mk in Hnd, HaK. rewrite !aug_tree_mk, !inorder_mk, dord_opp in HaK.
  destruct HK as (Hp & Hap & (Hsb & Hasb & Htb & Ha0 & Haa0 & Hta2 & Hta1) & HK). rewrite mkn_opp in Hp.
  destruct HaK as (Hav & (_ & Hab & _ & Haa2 & Haa1) & HaK).
  assert (NoDup (inorder b ++ sb :: inorder a2 ++ a0 :: p :: inorder a1 ++ inorder t ++ ctx_nodes K)) as Hnd1.
  { eapply NoDup_Permutation_proper; [|exact Hnd]. clear. destruct e; cbn; solve_Permutation. }
  pose proof Hnd1 as Hnd'. split_nodup Hnd'.
  destruct (erase_inner_ok s e Black p sb a0 _ _ b a1 a2 Hp Ha0)
    as (s1 & -> & Hr1 & Hp1 & (na & Hna & Hc1 & Hc2) & Htx1 & Hta1' & Hax1 & Hkeep & Hout1); autorewrite with rb; try done.
  { by eapply bal_color. }
  { apply (NoDup_app _ (inorder t ++ ctx_nodes K)). eapply NoDup_Permutation_proper; [|exact Hnd1]. clear. solve_Permutation. }
  cbn [obind]. destruct Hout1 as [Hs1 Hz1]. rewrite with_child_mkn in Hp1.
  destruct (erase_outer_ok s1 e K cp p a0 _ na (mk e Black b sb a2) a1 t p a0
    (dord e (dord e (inorder b) sb (dord e (inorder a2) a0 (inorder a1))) p (inorder t)) Hp1 Hna)
    as (s' & Heq & Hr & Hout); autorewrite with rb; rewrite ?ptr_mk, ?inorder_mk; try done; try apply Haa0.
  - eapply tree_at_frame; [|exact Htt]. intros q Hq. apply Hs1. nd.
  - by destruct e.
  - rewrite Hr1. eapply ctx_at_frame; [|exact HK]. intros q Hq. apply Hs1. nd.
  - eapply NoDup_Permutation_proper; [|exact Hnd]. clear. destruct e; cbn; solve_Permutation.
  - eapply aug_tree_keeps; [exact Hkeep| |done]. intros q Hq. nd.
  - eapply aug_tree_keeps; [exact Hkeep| |done]. intros q Hq. nd.
  - by rewrite !dord_assoc.
  - apply Hkeep; [nd|done].
  - eapply aug_ctx_keeps; [exact Hkeep| |done]. intros q Hq. nd.
  - rewrite ptr_mk in Heq. exists s'. split; [exact Heq|]. unfold fill. cbn. rewrite mk_opp. eapply round_finished; [|exact Hr|..|exact HbK].
    + eapply outside_trans; (eapply outside_mono; [|first [exact Hout|by split]]); unfold whole; clear; mem.
    + rewrite !inorder_mk, inorder_paint, inorder_mk. by rewrite !dord_assoc.
    + assert (paint Black (mk e Black b sb a2) = mk e Black b sb a2) as -> by (by destruct e).
      eapply bal_mk_any; [by eapply bal_mk_black|by eapply bal_mk_black|done].
Qed.

Lemma erase_black_sibling_ok s e cp p b sb a K t m c1 c2 :
  repr av s (Frame (opp e) cp p (mk e Black b sb a) :: K) t -> bal t Black m -> bal b c1 m -> bal a c2 m ->
  balK K cp (height_of cp (S m)) ->
  exists s' nxt, erase_black_sibling (rotate cb) (opp e) p sb s = Ok (nxt, s') /\ (cp = Red -> nxt = None)
    /\ round_done s s' K (fill (Frame (opp e) cp p (mk e Black b sb a)) t) m nxt.
Proof using Aug.
  intros Hr Hbt Hbb Hba HbK. pose proof Hr as [_ HK _ _ _]. cbn in HK. rewrite tree_at_mk, ptr_mk in HK.
  destruct HK as (Hp & Hap & (Hsb & Hasb & Htb & Hta) & HK). unfold erase_black_sibling. rewrite opp_opp.
  rewrite (get_child_ok _ _ _ _ Hsb). cbn [obind]. rewrite child_mkn, (is_black_or_null_ok _ sb) by (done || apply Hasb).
  cbn [obind]. pose proof (bal_color _ _ _ Hbb) as Hcb. rewrite Hcb. destruct c1.
  - destruct (erase_case_outer s e cp p b sb a K t m c2 Hr Hcb Hbt Hbb Hba HbK) as (s' & -> & Hd). by exists s', None.
  - rewrite (get_child_ok _ _ _ _ Hsb). cbn [obind]. rewrite child_opp_mkn, (is_black_or_null_ok _ sb) by (done || apply Hasb).
    cbn [obind]. pose proof (bal_color _ _ _ Hba) as Hca. rewrite Hca. destruct c2.
    + assert (exists a2 a0 a1, a = mk e Red a2 a0 a1) as (a2 & a0 & a1 & ->).
      { destruct a as [|c l x r]; [done|]. cbn in Hca. subst c. destruct e; [by exists l, x, r|by exists r, x, l]. }
      apply bal_mk_red_inv in Hba as (_ & Hb2 & Hb1).
      destruct (erase_case_inner s e cp p b sb a2 a0 a1 K t m Hr Hbt Hbb Hb1 Hb2 HbK) as (s' & Heq & Hd).
      exists s', None. split; [|done]. rewrite ptr_mk. destruct (erase_inner _ _ _ _ _ _) as [s1| | |]; cbn [obind] in *; try done.
      by rewrite Heq.
    + destruct (erase_flip_ok s (opp e) cp p _ K t Hr) as (s' & Heq & Hr' & Hout); [by destruct e|]. rewrite ptr_mk in Heq.
      exists s', (match cp with Red => None | Black => if up K =? RB_NULL then None else Some (p, up K) end).
      split; [exact Heq|]. split; [by intros ->|].
      assert (bal (mk (opp e) Black t p (paint Red (mk e Black b sb a))) Black (S m)) as Hb'.
      { eapply bal_mk_black; [done|]. assert (paint Red (mk e Black b sb a) = mk e Red b sb a) as -> by (by destruct e).
        by apply bal_mk_red. }
      assert (inorder (mk (opp e) Black t p (paint Red (mk e Black b sb a))) = inorder (fill (Frame (opp e) cp p (mk e Black b sb a)) t)) as Hin.
      { unfold fill. cbn. by rewrite !inorder_mk, inorder_paint, inorder_mk. }
      assert (outside (whole K (fill (Frame (opp e) cp p (mk e Black b sb a)) t)) s s') as Hout'.
      { rewrite whole_perm. change (plug K (fill ?f ?t)) with (plug (f :: K) t). by rewrite <- whole_perm. }
      destruct cp; [eapply round_finished; eauto using balK_black_any|].
      destruct (up K =? RB_NULL) eqn:Hup; zbool.
      * destruct K as [|[d' c' p' t'] K]; [eapply round_finished; eauto with rb|].
        cbn in HK. destruct HK as (_ & Ha & _). by apply addr_not_null in Ha.
      * split; [by rewrite <- whole_perm|]. right. eexists. rewrite ptr_mk. split; [done|].
        split; [by intros ->|]. split; [exact Hr'|]. done.
Qed.

Lemma erase_arm_ok s e cp p sib K t m :
  repr av s (Frame (opp e) cp p sib :: K) t -> bal t Black m -> balK (Frame (opp e) cp p sib :: K) Black (S m) ->
  exists s' nxt, erase_arm (rotate cb) (opp e) p (ptr sib) s = Ok (nxt, s')
    /\ round_done s s' K (fill (Frame (opp e) cp p sib) t) m nxt.
Proof using Aug.
  intros Hr Hbt HbK.
  assert (exists cs, bal sib cs (S m) /\ balK K cp (height_of cp (S m)) /\ (cp = Red -> cs = Black)) as (cs & Hbs & HbK' & Hcs).
  { inversion HbK; subst; cbn; eexists; (split; [eassumption|]); (split; [eassumption|done]). }
  assert (exists b sb a, sib = mk e cs b sb a) as (b & sb & a & ->).
  { destruct sib as [|c l x r]; [inversion Hbs|]. apply bal_color in Hbs as <-. destruct e; [by exists l, x, r|by exists r, x, l]. }
  unfold erase_arm. pose proof Hr as [_ HK _ _ _]. cbn in HK. rewrite tree_at_mk, ptr_mk in HK. rewrite ptr_mk.
  destruct HK as (_ & Hap & (Hsb & _) & _). unfold rb_is_red. rewrite (load_node _ _ _ Hsb). cbn [obind].
  rewrite pc_mkn, word_is_red by apply Hap. destruct cs.
  - destruct cp; [by discriminate Hcs|]. apply bal_mk_red_inv in Hbs as (_ & Hbb & Hba).
    destruct (erase_red_sibling_ok s e K Black p a sb b t Hr) as (s1 & -> & Hr1 & Hout1).
    { intros ->. inversion Hba. } { by eapply bal_color. }
    cbn [obind]. assert (exists b' sb' a', a = mk e Black b' sb' a') as (b' & sb' & a' & ->).
    { destruct a as [|c l x r]; [inversion Hba|]. apply bal_color in Hba as Hc. cbn in Hc. subst c.
      destruct e; [by exists l, x, r|by exists r, x, l]. }
    apply bal_mk_black_inv in Hba as (_ & n' & c1 & c2 & [= <-] & H1 & H2). rewrite ptr_mk.
    destruct (erase_black_sibling_ok s1 e Red p b' sb' a' (Frame (opp e) Black sb b :: K) t m c1 c2 Hr1 Hbt H1 H2)
      as (s2 & nxt & -> & Hn & [Hout [(_ & T & HT)|(T & -> & _)]]); [by eapply balK_black| |by discriminate Hn].
    exists s2, nxt. split; [done|]. rewrite (Hn eq_refl).
    assert (inorder (plug (Frame (opp e) Black sb b :: K) (fill (Frame (opp e) Red p (mk e Black b' sb' a')) t))
      = inorder (plug K (fill (Frame (opp e) Black p (mk e Red b sb (mk e Black b' sb' a'))) t))) as Hin.
    { rewrite !inorder_plug. unfold fill. cbn. rewrite !mk_opp, !inorder_mk. destruct e; cbn; app_eq. }
    rewrite Hin in *. split; [|left; split; [done|by exists T]]. eapply outside_trans; [|exact Hout]. by rewrite whole_perm in Hout1.
  - apply bal_mk_black_inv in Hbs as (_ & n' & c1 & c2 & [= <-] & H1 & H2). cbn [obind].
    destruct (erase_black_sibling_ok s e cp p b sb a K t m c1 c2 Hr Hbt H1 H2 HbK') as (s' & nxt & Heq & _ & Hd).
    by exists s', nxt.
Qed.

(** ** The loop *)

Lemma erase_color_loop_ok fuel : forall s K t m,
  repr av s K t -> K <> [] -> bal t Black m -> balK K Black (S m) -> (length K <= fuel)%nat ->
  exists s' T, erase_color_loop (rotate cb) fuel (ptr t) (up K) s = Ok s' /\ repr av s' [] T /\ red_black T
    /\ inorder T = inorder (plug K t) /\ outside (inorder T) s s'.
Proof using Aug.
  induction fuel as [|fuel IH]; intros s K t m Hr Hne Hbt HbK Hf; [destruct K; [done|cbn in Hf; lia]|].
  destruct K as [|[d cp p sib] K]; [done|]. cbn [erase_color_loop up f_node].
  pose proof Hr as [_ HK Hnd _ _]. cbn in HK, Hnd. destruct HK as (Hp & Hap & Hts & HK).
  assert (ptr sib ∈ inorder sib) as Hin.
  { assert (exists cs, bal sib cs (S m)) as [cs Hbs] by (inversion HbK; eauto).
    destruct sib; [inversion Hbs|]. cbn. set_solver. }
  assert (exists s' nxt, (let! sibling := get_child Rgt s p in
      if negb (ptr t =? sibling) then erase_arm (rotate cb) Lft p sibling s
      else let! sibling := get_child Lft s p in erase_arm (rotate cb) Rgt p sibling s) = Ok (nxt, s')
    /\ round_done s s' K (fill (Frame d cp p sib) t) m nxt) as (s' & nxt & Heq & Hout & Hd).
  { destruct (erase_arm_ok s (opp d) cp p sib K t m) as (s' & nxt & Heq & Hd); rewrite ?opp_opp in *; try done.
    exists s', nxt. split; [|done]. rewrite <- Heq, (get_child_ok _ _ _ _ Hp). cbn [obind]. destruct d; cbn [mkn child rb_right].
    - rewrite (proj2 (Z.eqb_neq _ _)); [done|]. intros He. split_nodup Hnd. rewrite <- He in Hin.
      assert (ptr t ∈ inorder t); [|nd]. apply ptr_in. rewrite He. eapply ptr_not_null; [done|]. intros ->. by apply not_elem_of_nil in Hin.
    - rewrite Z.eqb_refl. cbn [negb]. by rewrite (get_child_ok _ _ _ _ Hp). }
  rewrite (get_child_ok _ _ _ _ Hp) in *. cbn [obind] in *. rewrite Heq. cbn [obind].
  destruct Hd as [(-> & T & HrT & HbT & HinT)|(T & -> & HneK & HrT & HinT & HbT & HbK')].
  - exists s', T. split_and!; try done. by rewrite HinT.
  - destruct (IH s' K T (S m) HrT HneK HbT HbK') as (s'' & T' & -> & H1 & H2 & H3 & H4); [cbn in Hf; lia|].
    exists s'', T'. rewrite inorder_plug, HinT, <- inorder_plug in H3. split_and!; try done. rewrite H3 in *.
    by eapply outside_trans.
Qed.
End EraseColor.
