(* ===== verification/RbTreeUnlink.v ===== *)
(** * Red-black trees: taking a node out *)

From stdpp Require Import gmap functions.
From S2P Require Import Prelude RbTree RbTreeRep RbTreeInsert RbTreeErase.

(** ** Part of the way up *)

(** The frames [J], when the last of them hangs below [stop]. *)
Fixpoint seg_at (m : rb_nodes) (stop : Z) (J : list frame) (q : Z) : Prop :=
  match J with
  | [] => True
  | Frame d c p t :: J =>
      m !! p = Some (mkn d (word (upto stop J) c) q (ptr t)) /\ node_addr p /\ tree_at m p t /\ seg_at m stop J p
  end.

(** What the parent of the last frame points to. *)
Fixpoint top (J : list frame) (q : Z) : Z := match J with [] => q | f :: J => top J (f_node f) end.

Lemma up_app J K : up (J ++ K) = upto (up K) J.
Proof. by destruct J. Qed.

Lemma ctx_at_app m root K J : forall q,
  ctx_at m root (J ++ K) q <-> seg_at m (up K) J q /\ ctx_at m root K (top J q).
Proof.
  induction J as [|[d c p t] J IH]; intros q; cbn; [tauto|]. rewrite IH, up_app. tauto.
Qed.

Lemma ctx_nodes_app J K : ctx_nodes (J ++ K) = ctx_nodes J ++ ctx_nodes K.
Proof. induction J as [|f J IH]; cbn; [done|]. by rewrite IH, <- app_assoc. Qed.

Lemma plug_app J K t : plug (J ++ K) t = plug K (plug J t).
Proof. unfold plug. apply foldl_app. Qed.

Lemma seg_at_frame m m' stop J : forall q,
  (forall x, x ∈ ctx_nodes J -> m' !! x = m !! x) -> seg_at m stop J q -> seg_at m' stop J q.
Proof.
  induction J as [|[d c p t] J IH]; intros q Hm; cbn in *; [done|]. intros (Hp & Ha & Ht & HK).
  rewrite Hm by set_solver. split; [done|]. split; [done|].
  split; [eapply tree_at_frame; [|done]|eapply IH; [|done]]; intros x Hx; apply Hm; set_solver.
Qed.

Lemma seg_path m stop J : forall q, Z.land stop 3 = 0 -> seg_at m stop J q -> path_at m stop J q.
Proof.
  induction J as [|[d c p t] J IH]; intros q Hs; cbn; [done|]. intros (Hp & Ha & Ht & HJ). split; [|by apply IH].
  eexists. split; [exact Hp|]. autorewrite with rb. split; [done|]. split; [done|]. apply word_parent.
  destruct J as [|[d' c' p' t'] J]; cbn in *; [done|]. apply HJ.
Qed.

Lemma ctx_path m root K q : ctx_at m root K q -> path_at m RB_NULL K q.
Proof.
  intros HK. apply seg_path; [done|]. rewrite <- (app_nil_r K) in HK. by apply ctx_at_app in HK as [? _].
Qed.

Lemma before_app J K : before (J ++ K) = before K ++ before J.
Proof. induction J as [|f J IH]; cbn; [by rewrite app_nil_r|]. by rewrite IH, <- app_assoc. Qed.

Lemma top_in J q : J <> [] -> top J q ∈ ctx_nodes J.
Proof.
  revert q. induction J as [|f J IH]; intros q H; [done|]. cbn. destruct J; [cbn; set_solver|].
  assert (top (f0 :: J) (f_node f) ∈ ctx_nodes (f0 :: J)) by (by apply IH). set_solver.
Qed.

Lemma top_ptr J t : top J (ptr t) = ptr (plug J t).
Proof.
  revert t. induction J as [|f J IH]; intros t; [done|]. cbn. unfold plug in IH. rewrite <- IH. unfold fill. by rewrite ptr_mk.
Qed.

Lemma f_node_in K q : q ∈ f_node <$> K -> q ∈ ctx_nodes K.
Proof. induction K as [|f K IH]; cbn; [done|]. intros [->|Hq]%elem_of_cons; set_solver. Qed.

Lemma seg_addrs m stop J q : seg_at m stop J q -> addrs (ctx_nodes J).
Proof.
  revert q. induction J as [|[d c p t] J IH]; intros q; cbn; [by intros _ ? ?%not_elem_of_nil|].
  intros (_ & Ha & Ht & HJ) x [->|[Hx|Hx]%elem_of_app]%elem_of_cons; [done|by eapply tree_addrs|by eapply IH].
Qed.

Section Seg.
Context {A : Type}.
Implicit Types s : rb_state A.

(** Another tree in the place. *)
Lemma seg_hook s stop d c p t J q q' :
  seg_at (nodes s) stop (Frame d c p t :: J) q -> NoDup (ctx_nodes (Frame d c p t :: J)) ->
  exists s', set_child d p q' s = Ok s' /\ rb_root s' = rb_root s /\ aug s' = aug s
    /\ seg_at (nodes s') stop (Frame d c p t :: J) q' /\ outside [p] s s'.
Proof.
  intros (Hp & Ha & Ht & HJ) Hnd. cbn in Hnd. split_nodup Hnd. rewrite (set_child_ok _ _ _ _ _ Hp), with_child_mkn.
  eexists. split; [done|]. split; [done|]. split; [done|]. split; [|apply outside_store].
  cbn. rewrite lookup_insert_eq. split; [done|]. split; [done|].
  split; [eapply tree_at_frame; [|done]|eapply seg_at_frame; [|done]]; intros x Hx; rewrite lookup_insert_ne by nd; done.
Qed.

(** Another parent of the last frame. *)
Lemma seg_restop stop stop' J : forall s q,
  seg_at (nodes s) stop J q -> Z.land stop 3 = 0 -> J <> [] -> NoDup (ctx_nodes J) ->
  exists s', rb_set_parent (top J q) stop' s = Ok s' /\ rb_root s' = rb_root s /\ aug s' = aug s
    /\ seg_at (nodes s') stop' J q /\ outside [top J q] s s'.
Proof.
  induction J as [|[d c p t] J IH]; intros s q HJ Hal Hne Hnd; [done|]. cbn [seg_at] in HJ.
  destruct HJ as (Hp & Ha & Ht & HJ). cbn in Hnd. split_nodup Hnd. destruct J as [|f J].
  - cbn in *. unfold rb_set_parent. rewrite (load_node _ _ _ Hp). cbn [obind]. rewrite pc_mkn, word_color by done.
    rewrite (set_pc_ok _ _ _ _ Hp), with_pc_mkn, Z.lor_comm. eexists. split; [done|]. split; [done|]. split; [done|].
    split; [|apply outside_store]. cbn. rewrite lookup_insert_eq. split_and!; try done.
    eapply tree_at_frame; [|done]. intros x Hx. rewrite lookup_insert_ne by nd. done.
  - destruct (IH s p HJ Hal) as (s' & H1 & H2 & H3 & H4 & H5); [done|tauto|].
    exists s'. split; [exact H1|]. split; [done|]. split; [done|]. split; [|exact H5].
    assert (top (f :: J) p ∈ ctx_nodes (f :: J)) as Hin by (by apply top_in). destruct H5 as [H5 _].
    cbn [seg_at]. rewrite H5 by nd. split; [exact Hp|]. split; [done|]. split; [|exact H4].
    eapply tree_at_frame; [|exact Ht]. intros x Hx. apply H5. nd.
Qed.
End Seg.

(** ** Data along the way *)

Section AugPlug.
Context {A : Type} (av : A -> Z -> list Z -> Prop).

Lemma aug_ctx_app a J : forall K t,
  aug_ctx av a (J ++ K) (inorder t) <-> aug_ctx av a J (inorder t) /\ aug_ctx av a K (inorder (plug J t)).
Proof.
  induction J as [|[d c p u] J IH]; intros K t; cbn; [tauto|].
  rewrite <- (inorder_mk d c t p u). rewrite IH. unfold fill. cbn. tauto.
Qed.

Lemma aug_tree_plug a J : forall t, aug_tree av a (plug J t) <-> aug_tree av a t /\ aug_ctx av a J (inorder t).
Proof.
  induction J as [|[d c p u] J IH]; intros t; cbn; [tauto|]. unfold plug in IH. rewrite IH. unfold fill. cbn.
  rewrite aug_tree_mk, inorder_mk. tauto.
Qed.

Lemma aug_ctx_sides a K L : aug_ctx av a K L -> Forall (fun f => aug_tree av a (f_tree f)) K.
Proof. revert L. induction K as [|[d c p u] K IH]; intros L; cbn; [constructor|]. intros (_ & H1 & H2). constructor; eauto. Qed.

Lemma aug_ctx_head a K L :
  aug_ctx av a K L ->
  match K with [] => True | f :: K' => exists L0, L0 <> [] /\ av a (f_node f) L0 /\ aug_ctx av a K' L0 end.
Proof. destruct K as [|[d c p u] K]; [done|]. intros (H1 & _ & H2). eexists. split; [|done]. apply dord_not_nil. Qed.
End AugPlug.

Lemma balK_rename d c p p' t K' J : forall c0 n, balK (J ++ Frame d c p t :: K') c0 n -> balK (J ++ Frame d c p' t :: K') c0 n.
Proof.
  induction J as [|f J IH]; intros c0 n; cbn; inversion 1; subst; eauto with rb.
Qed.

(** A node with at most one child can go. *)
Lemma bal_one_child c x n y K c0 m z :
  bal (Node c x n y) c0 m -> balK K c0 m -> (x = Leaf /\ z = y) \/ (y = Leaf /\ z = x) ->
  match z, c with
  | Leaf, Red => balK K Black 0
  | Leaf, Black => balK K Black 1
  | _, _ => c = Black /\ bal (paint Black z) Black m /\ balK K Black m
  end.
Proof.
  intros Hb HK Hz. assert (forall t, bal t Black 0 -> t = Leaf) as H0 by (by inversion 1).
  inversion Hb as [|? ? ? ? Hx Hy|? ? ? cl cr ? Hx Hy]; subst.
  - assert (z = Leaf) as ->; [|by eapply balK_black_any; destruct Hz as [[-> ->]|[-> ->]]; inversion Hx; inversion Hy; subst].
    destruct Hz as [[-> ->]|[-> ->]]; [inversion Hx; subst; by apply H0|inversion Hy; subst; by apply H0].
  - assert (exists cz, bal z cz n0 /\ n0 = 0%nat) as (cz & Hcz & ->).
    { destruct Hz as [[-> ->]|[-> ->]]; [inversion Hx; subst; eauto|inversion Hy; subst; eauto]. }
    destruct z as [|c1 l1 p1 r1]; [done|]. split; [done|]. split; [|done]. apply bal_paint_black in Hcz as Hp.
    destruct cz; [done|]. by apply H0 in Hcz.
Qed.

(** ** Removing from a place *)

Section Unlink.
Context {A : Type} {cb : rb_augment_callbacks A} {av : A -> Z -> list Z -> Prop} `{Aug : !RbAugment cb av}.
Implicit Types s : rb_state A.

(** The links of a tree, without its data. *)
Record shape s (K : list frame) (t : tree) : Prop := {
  sh_tree : tree_at (nodes s) (up K) t;
  sh_ctx : ctx_at (nodes s) (rb_root s) K (ptr t);
  sh_nodup : NoDup (inorder t ++ ctx_nodes K);
}.

Lemma shape_repr s K t : shape s K t <-> repr (fun (_ : A) _ _ => True) s K t.
Proof using Type.
  clear Aug. assert (forall a t, aug_tree (fun (_ : A) _ _ => True) a t) as Ht by (intros a u; induction u; cbn; auto).
  split; intros []; split; try done. clear - Ht. generalize (inorder t) as L.
  induction K as [|[d c p u] K IH]; intros L; cbn; auto.
Qed.

Lemma shape_app s J K t : shape s (J ++ K) t <-> shape s K (plug J t).
Proof using Type. clear Aug. rewrite !shape_repr, (repr_plug _ _ (J ++ K)), (repr_plug _ _ K), plug_app. done. Qed.

(** The data is brought up to date from the first frame on. *)
Lemma propagate_place s f K t L0 :
  shape s (f :: K) t -> aug_tree av (aug s) t -> aug_tree av (aug s) (f_tree f) ->
  L0 <> [] -> av (aug s) (f_node f) L0 -> aug_ctx av (aug s) K L0 ->
  exists s', call (propagate cb) (f_node f) RB_NULL s = Ok s' /\ nodes s' = nodes s /\ rb_root s' = rb_root s
    /\ repr av s' (f :: K) t.
Proof using Aug.
  intros [Ht HK Hnd] Hat Haf HL0 Hav HaK.
  destruct (propagate_ok RB_NULL (f :: K) (nodes s) (aug s) t) as (a' & Heq & HaK' & Hkeep).
  - by eapply ctx_path.
  - apply addrs_app; [by eapply tree_addrs|]. intros q Hq. by eapply ctx_at_addr in Hq as [? _].
  - done.
  - intros Hin. eapply ctx_at_addr in Hin as [Ha _]; [|exact HK]. by apply addr_not_null in Ha.
  - done.
  - constructor; [done|]. by eapply aug_ctx_sides.
  - by exists L0.
  - unfold call. cbn [upto] in Heq. rewrite Heq. eexists. split; [done|]. split; [done|]. split; [done|].
    split; cbn [nodes rb_root aug]; try done. eapply aug_tree_keeps; [exact Hkeep| |done].
    intros q Hq Hin. apply NoDup_app in Hnd as (_ & Hnd & _). apply (Hnd q Hq). by apply f_node_in.
Qed.

Lemma propagate_old_place s K t t0 :
  shape s K t -> aug_tree av (aug s) t -> aug_ctx av (aug s) K (inorder t0) ->
  exists s', call (propagate cb) (up K) RB_NULL s = Ok s' /\ nodes s' = nodes s /\ rb_root s' = rb_root s
    /\ repr av s' K t.
Proof using Aug.
  intros Hsh Hat HaK. destruct K as [|[d c p u] K].
  - destruct (propagate_ok RB_NULL [] (nodes s) (aug s) t) as (a' & Heq & _ & Hkeep); try done.
    + rewrite app_nil_r. eapply tree_addrs, Hsh.
    + apply Hsh.
    + by apply not_elem_of_nil.
    + unfold call. cbn [upto up] in *. rewrite Heq. eexists. split; [done|]. split; [done|]. split; [done|].
      destruct Hsh. split; cbn [nodes rb_root aug]; try done. eapply aug_tree_keeps; [exact Hkeep| |done].
      intros q _. apply not_elem_of_nil.
  - cbn in HaK. destruct HaK as (Hav & Hau & HaK). cbn [up f_node].
    eapply (propagate_place s (Frame d c p u) K t); try done. apply dord_not_nil.
Qed.

(** How the removal ends: balanced, or one black node short at a place. *)
Definition erased s' (X : list Z) (rebalance : Z) : Prop :=
  (rebalance = RB_NULL /\ exists T, repr av s' [] T /\ red_black T /\ inorder T = X)
  \/ (exists K, rebalance = up K /\ K <> [] /\ repr av s' K Leaf /\ balK K Black 1 /\ before K ++ after K = X).

(** The place has lost a node with at most one child, [z]. *)
Lemma erased_place s' K c c0 m x n y z :
  repr av s' K (paint c z) -> bal (Node c x n y) c0 m -> balK K c0 m ->
  (x = Leaf /\ z = y) \/ (y = Leaf /\ z = x) ->
  erased s' (before K ++ inorder z ++ after K)
    (match z, c with Leaf, Black => up K | _, _ => RB_NULL end).
Proof using Type.
  clear Aug. intros Hr Hb HK Hz. pose proof (bal_one_child _ _ _ _ _ _ _ _ Hb HK Hz) as Hone. destruct z as [|c1 l1 p1 r1].
  - destruct c.
    + left. split; [done|]. exists (plug K Leaf). rewrite <- repr_plug. split; [done|].
      split; [eapply bal_plug; [constructor|done]|]. by rewrite inorder_plug.
    + destruct K as [|f K]; [|right; by exists (f :: K)]. left. split; [done|]. exists Leaf. split; [done|].
      split; [by exists 0%nat; constructor|done].
  - destruct Hone as (-> & Hp & HK'). left. split; [done|]. exists (plug K (paint Black (Node c1 l1 p1 r1))).
    rewrite <- repr_plug. split; [done|]. split; [by eapply bal_plug|]. by rewrite inorder_plug, inorder_paint.
Qed.

(** ** Case 1 *)

Lemma set_root_pc s parent t p c :
  tree_at (nodes s) parent t -> t <> Leaf -> NoDup (inorder t) ->
  exists s', set_pc (ptr t) (word p c) s = Ok s' /\ rb_root s' = rb_root s /\ aug s' = aug s
    /\ tree_at (nodes s') p (paint c t) /\ outside [ptr t] s s'.
Proof using Type. apply set_parent_color_ok. Qed.

Lemma erase_one_child_ok s K c n r :
  repr av s K (Node c Leaf n r) ->
  exists s', erase_one_child n (ptr r) s = Ok (match r, c with Leaf, Black => up K | _, _ => RB_NULL end, up K, s')
    /\ shape s' K (paint c r) /\ aug s' = aug s /\ outside (whole K (Node c Leaf n r)) s s'.
Proof using Type.
  clear Aug. intros [Ht HK Hnd _ _]. cbn in Ht, HK, Hnd. destruct Ht as (Hn & Han & _ & Htr).
  pose proof (ptr_aligned _ (up_addr _ _ _ _ HK)) as Hal. pose proof Hnd as Hnd'. split_nodup Hnd'.
  unfold erase_one_child. rewrite (load_node _ _ _ Hn). cbn [obind __rb_parent_color]. rewrite word_parent, word_is_black by done.
  destruct (change_child_ok s K n (ptr r) HK) as (s1 & -> & Ha1 & HK1 & [Hs1 Hz1]); [tauto|nd|by apply addr_not_null|].
  cbn [obind].
  assert (tree_at (nodes s1) n r) as Htr1 by (eapply tree_at_frame; [|exact Htr]; intros q Hq; apply Hs1; nd).
  assert (forall q, q ∉ whole K (Node c Leaf n r) -> nodes s1 !! q = nodes s !! q) as Hout.
  { intros q Hq. apply Hs1. unfold whole in Hq. cbn in Hq. set_solver. }
  destruct (decide (r = Leaf)) as [->|Hl].
  - cbn. exists s1. split; [by destruct c|]. split; [|by split]. split; cbn; [done|done|]. tauto.
  - rewrite (proj2 (Z.eqb_neq _ _)) by (by eapply ptr_not_null).
    destruct (set_root_pc s1 n r (up K) c Htr1 Hl) as (s2 & -> & Hr2 & Ha2 & Ht2 & [Hs2 Hz2]); [tauto|].
    assert (ptr r ∈ inorder r) as Hin by (by eapply ptr_in, ptr_not_null).
    exists s2. cbn [obind]. split; [by destruct r, c|]. split; [|split; [congruence|]].
    + split; [done| |].
      * rewrite ptr_paint, Hr2. eapply ctx_at_frame; [|exact HK1]. intros q Hq. apply Hs2. intros ->%list_elem_of_singleton. nd.
      * rewrite inorder_paint. by apply NoDup_cons in Hnd as [_ ?].
    + split; [|by auto]. intros q Hq. rewrite Hs2; [by apply Hout|]. intros ->%list_elem_of_singleton. apply Hq.
      unfold whole. cbn. set_solver.
Qed.

Lemma erase_left_child_ok s K c n l :
  repr av s K (Node c l n Leaf) -> l <> Leaf ->
  exists s', erase_left_child n (ptr l) s = Ok (RB_NULL, up K, s')
    /\ shape s' K (paint c l) /\ aug s' = aug s /\ outside (whole K (Node c l n Leaf)) s s'.
Proof using Type.
  clear Aug. intros [Ht HK Hnd _ _] Hl. cbn in Ht, HK, Hnd. destruct Ht as (Hn & Han & Htl & _).
  pose proof (ptr_aligned _ (up_addr _ _ _ _ HK)) as Hal. pose proof Hnd as Hnd'. split_nodup Hnd'.
  assert (ptr l ∈ inorder l) as Hin by (by eapply ptr_in, ptr_not_null).
  unfold erase_left_child. rewrite (load_node _ _ _ Hn). cbn [obind __rb_parent_color]. rewrite word_parent by done.
  destruct (set_root_pc s n l (up K) c Htl Hl) as (s1 & -> & Hr1 & Ha1 & Ht1 & [Hs1 Hz1]); [tauto|]. cbn [obind].
  destruct (change_child_ok s1 K n (ptr l)) as (s2 & -> & Ha2 & HK2 & [Hs2 Hz2]); [|tauto|nd|by apply addr_not_null|].
  { rewrite Hr1. eapply ctx_at_frame; [|exact HK]. intros q Hq. apply Hs1. intros ->%list_elem_of_singleton. nd. }
  exists s2. cbn [obind]. split; [done|]. split; [|split; [congruence|]].
  - split; [|by rewrite ptr_paint|rewrite inorder_paint; apply NoDup_app; nd].
    eapply tree_at_frame; [|exact Ht1]. intros q Hq. rewrite inorder_paint in Hq. apply Hs2. nd.
  - split; [|by auto]. intros q Hq. unfold whole in Hq. cbn in Hq. rewrite Hs2, Hs1; [done| |set_solver].
    intros ->%list_elem_of_singleton. set_solver.
Qed.

(** ** The successor *)

Lemma successor_loop_ok s ly : forall fuel cy y ry parent,
  tree_at (nodes s) parent (Node cy ly y ry) -> ly <> Leaf -> (length (inorder ly) <= fuel)%nat ->
  exists J cs sc r', Node cy ly y ry = plug J (Node cs Leaf sc r') /\ J <> [] /\ before J = [] /\ (exists c t J', J = Frame Lft c (up J) t :: J')
    /\ successor_loop fuel y (ptr ly) s = Ok (up J, sc).
Proof using Type.
  clear Aug. induction ly as [|c1 l1 IH p1 r1 _]; intros fuel cy y ry parent Ht Hne Hf; [done|].
  cbn in Hf. rewrite length_app in Hf. cbn in Hf. destruct fuel as [|fuel]; [lia|].
  cbn in Ht. destruct Ht as (Hy & Hay & (Hp1 & Hap1 & Hl1 & Hr1) & Hry). cbn [successor_loop ptr].
  rewrite (get_child_ok _ _ _ _ Hp1). cbn [obind child rb_left]. destruct (decide (l1 = Leaf)) as [->|Hl].
  - cbn. exists [Frame Lft cy y ry], c1, p1, r1. split; [done|]. split; [done|]. split; [done|]. split; [|done]. by eexists _, _, _.
  - rewrite (proj2 (Z.eqb_neq _ _)) by (by eapply ptr_not_null).
    destruct (IH fuel c1 p1 r1 y) as (J & cs & sc & r' & Heq & HJ & HbJ & (c & t & J' & HJ') & ->); [by cbn|done|lia|].
    exists (J ++ [Frame Lft cy y ry]), cs, sc, r'. rewrite plug_app, <- Heq, up_app. split; [done|].
    split; [by destruct J|]. split; [by rewrite before_app, HbJ|]. split; [|by destruct J]. rewrite HJ'. cbn. by eexists _, _, _.
Qed.

(** After [erase_unlink]: [sc] is out of the way [J] below it, and holds the
    rest of the right subtree; its left side and parent are still to come. *)
Record unlinked s (K : list frame) (c : color) (l : tree) (n : Z) (J : list frame) (cs : color) (sc : Z) (r' : tree) : Prop := {
  un_node : exists y, nodes s !! n = Some (RbNode (word (up K) c) y (ptr l));
  un_succ : exists p, Z.land p 3 = 0 /\ nodes s !! sc = Some (RbNode (word p cs) (top J (ptr r')) RB_NULL);
  un_addr : node_addr n /\ node_addr sc;
  un_left : tree_at (nodes s) n l;
  un_right : tree_at (nodes s) sc r';
  un_seg : seg_at (nodes s) sc J (ptr r');
  un_ctx : ctx_at (nodes s) (rb_root s) K n;
  un_nodup : NoDup (n :: sc :: inorder l ++ inorder r' ++ ctx_nodes J ++ ctx_nodes K);
  un_aug : aug_tree av (aug s) l /\ aug_tree av (aug s) r' /\ aug_ctx av (aug s) J (inorder r')
    /\ exists L0, L0 <> [] /\ av (aug s) sc L0 /\ aug_ctx av (aug s) K L0;
}.

Lemma erase_replace_ok s K c l n J cs sc r' :
  unlinked s K c l n J cs sc r' -> l <> Leaf ->
  exists s', erase_replace n (upto sc J) sc (ptr r') s
      = Ok (match r', cs with Leaf, Black => upto sc J | _, _ => RB_NULL end, sc, s')
    /\ shape s' (J ++ Frame Rgt c sc l :: K) (paint Black r') /\ aug s' = aug s
    /\ outside (n :: sc :: inorder l ++ inorder r' ++ ctx_nodes J ++ ctx_nodes K) s s'.
Proof using Type.
  clear Aug. intros [(y & Hn) (psc & Hpsc & Hsc) [Han Hasc] Htl Htr Hseg HK Hnd _] Hl.
  pose proof Hnd as Hnd'. split_nodup Hnd'. pose proof (ptr_aligned _ (up_addr _ _ _ _ HK)) as Hal.
  assert (ptr l ∈ inorder l) as Hin by (by eapply ptr_in, ptr_not_null).
  unfold erase_replace. rewrite (get_child_ok _ _ _ _ Hn). cbn [obind child rb_left].
  rewrite (set_child_ok _ _ _ _ _ Hsc). cbn [obind with_child __rb_parent_color rb_right]. set (s1 := store sc _ s).
  destruct (set_parent_ok s1 n l sc) as (s2 & -> & Hr2 & Ha2 & Htl2 & [Hs2 Hz2]); [|apply Han|done|tauto|].
  { eapply tree_at_frame; [|exact Htl]. intros q Hq. cbn. rewrite lookup_insert_ne; [done|nd]. }
  cbn [obind].
  assert (forall q, q ∉ sc :: inorder l -> nodes s2 !! q = nodes s !! q) as Hs12.
  { intros q Hq. rewrite Hs2 by (intros ->%list_elem_of_singleton; set_solver). cbn. rewrite lookup_insert_ne; [done|set_solver]. }
  assert (nodes s2 !! sc = Some (RbNode (word psc cs) (top J (ptr r')) (ptr l))) as Hsc2.
  { rewrite Hs2 by (intros ->%list_elem_of_singleton; nd). cbn. by rewrite lookup_insert_eq. }
  rewrite (load_node s2 n (RbNode (word (up K) c) y (ptr l))) by (rewrite Hs12; [done|nd]). cbn [obind __rb_parent_color].
  rewrite word_parent by done.
  destruct (change_child_ok s2 K n sc) as (s3 & -> & Ha3 & HK3 & [Hs3 Hz3]); [|tauto|nd|by apply addr_not_null|].
  { rewrite Hr2. eapply ctx_at_frame; [|exact HK]. intros q Hq. apply Hs12. nd. }
  cbn [obind]. assert (nodes s3 !! sc = Some (RbNode (word psc cs) (top J (ptr r')) (ptr l))) as Hsc3 by (rewrite Hs3; [done|nd]).
  set (s4 := store sc (RbNode (word (up K) c) (top J (ptr r')) (ptr l)) s3).
  assert (set_pc sc (word (up K) c) s3 = Ok s4) as Hpc by (by rewrite (set_pc_ok _ _ _ _ Hsc3)).
  assert (forall q, q ∉ n :: sc :: inorder l ++ ctx_nodes K -> nodes s4 !! q = nodes s !! q) as Hs4.
  { intros q Hq. cbn. rewrite lookup_insert_ne, Hs3 by set_solver. apply Hs12. set_solver. }
  assert (outside (n :: sc :: inorder l ++ inorder r' ++ ctx_nodes J ++ ctx_nodes K) s s4) as Hout4.
  { split; [intros q Hq; apply Hs4; set_solver|]. intros q Hq. cbn. destruct (decide (q = sc)) as [->|]; [by rewrite lookup_insert_eq|].
    rewrite lookup_insert_ne by done. apply Hz3, Hz2. cbn. by rewrite lookup_insert_ne by done. }
  assert (ctx_at (nodes s4) (rb_root s4) (Frame Rgt c sc l :: K) (top J (ptr r'))) as HK4.
  { cbn. rewrite lookup_insert_eq. split; [done|]. split; [done|]. split.
    - eapply tree_at_frame; [|exact Htl2]. intros q Hq. rewrite lookup_insert_ne; [|nd]. apply Hs3. nd.
    - eapply ctx_at_frame; [|exact HK3]. intros q Hq. rewrite lookup_insert_ne; [done|nd]. }
  assert (seg_at (nodes s4) sc J (ptr r')) as Hseg4 by (eapply seg_at_frame; [|exact Hseg]; intros q Hq; apply Hs4; nd).
  assert (tree_at (nodes s4) sc r') as Htr4 by (eapply tree_at_frame; [|exact Htr]; intros q Hq; apply Hs4; nd).
  assert (NoDup (inorder (paint Black r') ++ ctx_nodes (J ++ Frame Rgt c sc l :: K))) as Hnd4.
  { rewrite inorder_paint, ctx_nodes_app. cbn. apply NoDup_cons in Hnd as [_ Hnd]. eapply NoDup_Permutation_proper; [|exact Hnd].
    clear. solve_Permutation. }
  assert (aug s4 = aug s) as Haug4 by (change (aug s3 = aug s); by rewrite Ha3, Ha2).
  destruct (decide (r' = Leaf)) as [->|Hr'].
  - cbn [ptr]. rewrite Z.eqb_refl, (load_node _ _ _ Hsc3). cbn [obind __rb_parent_color]. rewrite Hpc. cbn [obind].
    rewrite word_is_black by done. exists s4. split; [by destruct cs|]. split; [|split; [exact Haug4|exact Hout4]].
    split; [done| |done]. apply ctx_at_app. by split.
  - rewrite (proj2 (Z.eqb_neq _ _)) by (by eapply ptr_not_null). rewrite Hpc. cbn [obind].
    destruct (set_parent_color_ok s4 sc r' (upto sc J) Black Htr4 Hr') as (s5 & Heq & Hr5 & Ha5 & Ht5 & [Hs5 Hz5]); [tauto|].
    change RB_BLACK with (color_bit Black). rewrite Heq. cbn [obind]. exists s5. split; [by destruct r', cs|].
    assert (ptr r' ∈ inorder r') as Hin' by (by eapply ptr_in, ptr_not_null). split; [|split; [by rewrite Ha5|]].
    + split; [by rewrite up_app| |done]. rewrite ptr_paint, Hr5. eapply ctx_at_frame; [|apply ctx_at_app; split; [exact Hseg4|exact HK4]].
      intros q Hq. apply Hs5. intros ->%list_elem_of_singleton. rewrite ctx_nodes_app in Hq. cbn in Hq. nd.
    + eapply outside_trans; [exact Hout4|]. eapply outside_mono; [|by split]. intros q ->%list_elem_of_singleton. set_solver.
Qed.

Lemma call_copy_ok s old new :
  exists s', call (copy cb) old new s = Ok s' /\ nodes s' = nodes s /\ rb_root s' = rb_root s
    /\ (forall L, av (aug s) old L -> av (aug s') new L) /\ keeps av [new] (aug s) (aug s').
Proof using Aug.
  unfold call. destruct (copy_ok old new (nodes s) (aug s)) as (a' & -> & H1 & H2). eexists. split; [done|]. cbn. done.
Qed.

(** The successor is the right child. *)
Lemma erase_unlink_near s K c l n cs sc r' :
  repr av s K (Node c l n (Node cs Leaf sc r')) ->
  exists s', erase_unlink cb n sc s = Ok (sc, sc, ptr r', s') /\ unlinked s' K c l n [] cs sc r'
    /\ nodes s' = nodes s.
Proof using Aug.
  intros [Ht HK Hnd Hat HaK]. cbn in Ht, HK, Hnd, Hat, HaK.
  destruct Ht as (Hn & Han & Htl & Hsc & Hasc & _ & Htr). destruct Hat as (Hav & Hal & _ & _ & Har).
  unfold erase_unlink. rewrite !(get_child_ok _ _ _ _ Hsc). cbn [obind child rb_left rb_right]. rewrite Z.eqb_refl.
  destruct (call_copy_ok s n sc) as (s' & -> & Hnodes & Hroot & Hcopy & Hkeep). cbn [obind]. exists s'. split; [done|]. split; [|done].
  assert (NoDup (n :: sc :: inorder l ++ inorder r' ++ [] ++ ctx_nodes K)) as Hnd1.
  { eapply NoDup_Permutation_proper; [|exact Hnd]. clear. solve_Permutation. }
  pose proof Hnd1 as Hnd'. cbn in Hnd'. split_nodup Hnd'.
  split; rewrite ?Hnodes, ?Hroot; try done; [by eexists|by exists n; split; [apply Han|]|].
  split_and!; try (eapply aug_tree_keeps; [exact Hkeep| |done]; intros q Hq; nd); [done|].
  exists (inorder l ++ n :: sc :: inorder r'). split; [by destruct (inorder l)|]. split; [by apply Hcopy|].
  eapply aug_ctx_keeps; [exact Hkeep| |exact HaK]. intros q Hq. nd.
Qed.

(** The successor is further down. *)
Lemma erase_unlink_far s K c l n c1 p1 t1 J' cs sc r' y :
  let J := Frame Lft c1 p1 t1 :: J' in
  repr av s (J ++ Frame Rgt c n l :: K) (Node cs Leaf sc r') -> y = top J sc ->
  exists s',
    (let! s := set_child Lft p1 (ptr r') s in
     let! s := set_child Rgt sc y s in
     let! s := rb_set_parent y sc s in
     let! s := call (copy cb) n sc s in
     call (propagate cb) p1 sc s) = Ok s'
    /\ unlinked s' K c l n J cs sc r' /\ outside (inorder r' ++ sc :: ctx_nodes J) s s'.
Proof using Aug.
  intros J [Ht HK Hnd Hat HaK] ->. apply ctx_at_app in HK as [Hseg HK]. cbn [ptr] in Hseg, HK.
  rewrite ctx_nodes_app in Hnd. cbn [ctx_at] in HK. destruct HK as (Hn & Han & Htl & HK). cbn in Ht. destruct Ht as (Hsc & Hasc & _ & Htr).
  assert (NoDup (n :: sc :: inorder l ++ inorder r' ++ ctx_nodes J ++ ctx_nodes K)) as Hnd1.
  { eapply NoDup_Permutation_proper; [|exact Hnd]. clear. cbn. solve_Permutation. }
  pose proof Hnd1 as Hnd'. split_nodup Hnd'.
  destruct (seg_hook s n Lft c1 p1 t1 J' sc (ptr r') Hseg) as (s1 & -> & Hr1 & Ha1 & Hseg1 & [Hs1 Hz1]); [tauto|].
  assert (p1 ∈ ctx_nodes J) as Hp1 by (cbn; set_solver).
  assert (upto sc J = p1) as Hup by done. assert (J <> []) as HJ by done. assert (node_addr p1) as Hap1 by apply Hseg.
  change (Frame Lft c1 p1 t1 :: J') with J in Hseg1. change (up (J ++ Frame Rgt c n l :: K)) with p1 in Hsc.
  assert (top J sc = top J (ptr r')) as Hy by done. rewrite Hy in *. clearbody J. clear t1 c1 J' Hy.
  cbn [obind]. rewrite (set_child_ok s1 Rgt sc (RbNode (word p1 cs) (ptr r') RB_NULL))
    by (rewrite Hs1; [exact Hsc|intros ->%list_elem_of_singleton; nd]).
  cbn [obind with_child __rb_parent_color rb_left]. set (s2 := store sc _ s1).
  assert (seg_at (nodes s2) n J (ptr r')) as Hseg2.
  { eapply seg_at_frame; [|exact Hseg1]. intros q Hq. cbn. rewrite lookup_insert_ne; [done|]. nd. }
  assert (top J (ptr r') ∈ ctx_nodes J) as Htop by (by apply top_in).
  destruct (seg_restop n sc J s2 (ptr r') Hseg2) as (s3 & -> & Hr3 & Ha3 & Hseg3 & [Hs3 Hz3]); [apply Han|done|tauto|]. cbn [obind].
  destruct (call_copy_ok s3 n sc) as (s4 & -> & Hn4 & Hr4 & Hcopy & Hkeep4). cbn [obind]. rewrite Ha3 in Hcopy, Hkeep4.
  change (aug s2) with (aug s1) in *. rewrite Ha1 in Hcopy, Hkeep4.
  rewrite (aug_ctx_app _ _ J _ (Node cs Leaf sc r')) in HaK. destruct HaK as [HaJ HaK]. cbn in HaK. destruct HaK as (Havn & Hal & HaK).
  cbn [inorder app] in HaJ. destruct Hat as (_ & _ & Har).
  assert (aug_ctx av (aug s4) J (sc :: inorder r')) as HaJ4 by (eapply aug_ctx_keeps; [exact Hkeep4| |exact HaJ]; intros q Hq; nd).
  assert (aug_tree av (aug s4) r') as Har4 by (eapply aug_tree_keeps; [exact Hkeep4| |exact Har]; intros q Hq; nd).
  destruct (propagate_ok sc J (nodes s4) (aug s4) r') as (a' & Hprop & HaJ' & Hkeep5).
  - rewrite Hn4. apply seg_path; [apply Hasc|done].
  - apply addrs_app; [by eapply tree_addrs|by eapply seg_addrs].
  - apply NoDup_app. split; [tauto|]. split; [|tauto]. intros q Hq. nd.
  - nd.
  - done.
  - by eapply aug_ctx_sides.
  - by eapply aug_ctx_head.
  - unfold call. rewrite Hup in Hprop. rewrite Hprop. eexists. split; [done|].
    assert (forall q, q ∉ sc :: ctx_nodes J -> nodes s4 !! q = nodes s !! q) as Hs4.
    { intros q Hq. rewrite Hn4, Hs3 by (intros ->%list_elem_of_singleton; set_solver). cbn. rewrite lookup_insert_ne by set_solver.
      apply Hs1. intros ->%list_elem_of_singleton. set_solver. }
    assert (forall q L, q ∉ sc :: ctx_nodes J -> av (aug s) q L -> av a' q L) as Hkeep.
    { intros q L Hq Hav. apply Hkeep5; [|apply Hkeep4; [set_solver|done]]. intros Hin. apply Hq. right. by apply f_node_in. }
    split.
    + split; cbn [nodes rb_root aug]; try done.
      * eexists. rewrite Hs4 by nd. exact Hn.
      * exists p1. split; [apply Hap1|]. rewrite Hn4, Hs3 by (intros ->%list_elem_of_singleton; nd). cbn. by rewrite lookup_insert_eq.
      * eapply tree_at_frame; [|exact Htl]. intros q Hq. apply Hs4. nd.
      * eapply tree_at_frame; [|exact Htr]. intros q Hq. apply Hs4. nd.
      * by rewrite Hn4.
      * rewrite Hr4, Hr3. cbn. rewrite Hr1. eapply ctx_at_frame; [|exact HK]. intros q Hq. apply Hs4. nd.
      * split_and!; [|eapply aug_tree_keeps; [exact Hkeep5| |done]; intros q Hq Hin%f_node_in; nd|done|].
        { eapply (aug_tree_keeps av (sc :: ctx_nodes J)); [exact Hkeep| |done]. intros q Hq. nd. }
        exists (inorder l ++ n :: inorder (plug J (Node cs Leaf sc r'))). split; [by destruct (inorder l)|]. split.
        -- apply Hkeep5; [intros Hin%f_node_in; nd|]. by apply Hcopy.
        -- eapply (aug_ctx_keeps av (sc :: ctx_nodes J)); [exact Hkeep| |done]. intros q Hq. nd.
    + split; cbn [nodes].
      * intros q Hq. apply Hs4. set_solver.
      * intros q Hq. rewrite Hn4. apply Hz3. cbn. destruct (decide (q = sc)) as [->|]; [by rewrite lookup_insert_eq|].
        rewrite lookup_insert_ne by done. by apply Hz1.
Qed.

Lemma erase_unlink_ok s K c l n r :
  repr av s K (Node c l n r) -> r <> Leaf ->
  exists J cs sc r' s', r = plug J (Node cs Leaf sc r') /\ before J = []
    /\ erase_unlink cb n (ptr r) s = Ok (upto sc J, sc, ptr r', s') /\ unlinked s' K c l n J cs sc r'
    /\ outside (inorder r) s s'.
Proof using Aug.
  intros Hr Hne. destruct r as [|cy ly y ry]; [done|]. destruct (decide (ly = Leaf)) as [->|Hl].
  - destruct (erase_unlink_near s K c l n cy y ry Hr) as (s' & H1 & H2 & H3). exists [], cy, y, ry, s'.
    split_and!; try done. split; by rewrite H3.
  - pose proof Hr as [Ht _ _ _ _]. cbn [tree_at] in Ht. destruct Ht as (_ & _ & _ & Hty).
    destruct (successor_loop_ok s ly (rb_fuel s) cy y ry n Hty Hl) as (J & cs & sc & r' & Heq & HJ & HbJ & (c1 & t1 & J' & HJ') & Hloop).
    { apply repr_size in Hr. cbn in Hr. rewrite !length_app in Hr. cbn in Hr. rewrite !length_app in Hr. unfold rb_fuel. lia. }
    assert (repr av s (J ++ Frame Rgt c n l :: K) (Node cs Leaf sc r')) as Hr'.
    { rewrite repr_plug, plug_app, <- Heq, <- repr_plug, repr_fill. exact Hr. }
    assert (y = top J sc) as Hy by (change sc with (ptr (Node cs Leaf sc r')); by rewrite top_ptr, <- Heq).
    set (p1 := up J) in *. clearbody p1. subst J.
    destruct (erase_unlink_far s K c l n c1 p1 t1 J' cs sc r' y Hr' Hy) as (s' & Hops & Hun & Hout).
    exists (Frame Lft c1 p1 t1 :: J'), cs, sc, r', s'. split; [done|]. split; [done|]. split; [|split; [done|]].
    + cbn [ptr]. unfold erase_unlink. destruct Hty as (Hyn & _ & Hty & _). rewrite (get_child_ok _ _ _ _ Hyn). cbn [obind child rb_left].
      rewrite (proj2 (Z.eqb_neq _ _)) by (by eapply ptr_not_null). rewrite Hloop. cbn [obind].
      destruct Hr' as [Hsc _ _ _ _]. destruct Hsc as (Hsc & _). rewrite (get_child_ok _ _ _ _ Hsc). cbn [obind child rb_right].
      destruct (set_child Lft p1 (ptr r') s) as [s1| | |]; cbn [obind] in *; try done.
      destruct (set_child Rgt sc y s1) as [s2| | |]; cbn [obind] in *; try done.
      destruct (rb_set_parent y sc s2) as [s3| | |]; cbn [obind] in *; try done.
      destruct (call (copy cb) n sc s3) as [s4| | |]; cbn [obind] in *; try done. by rewrite Hops.
    + rewrite Heq. rewrite <- whole_perm. eapply outside_mono; [|exact Hout]. unfold whole. cbn [inorder]. clear.
      intros q. cbn [app]. rewrite !elem_of_app, !elem_of_cons, ?elem_of_app. tauto.
Qed.

Lemma erase_augmented_ok s K c l n r :
  repr av s K (Node c l n r) -> red_black (plug K (Node c l n r)) ->
  exists reb s', __rb_erase_augmented cb n s = Ok (reb, s')
    /\ erased s' (before K ++ inorder l ++ inorder r ++ after K) reb
    /\ outside (inorder (plug K (Node c l n r))) s s'.
Proof using Aug.
  intros Hr [h Hb]. destruct (bal_unplug K _ _ _ Hb eq_refl) as (c0 & m & Hbal & HbK).
  pose proof Hr as [(Hn & Han & Htl & Htr) HK Hnd Hat HaK]. unfold __rb_erase_augmented.
  rewrite !(get_child_ok _ _ _ _ Hn). cbn [obind child rb_right rb_left].
  destruct (decide (l = Leaf)) as [->|Hl]; [|rewrite (proj2 (Z.eqb_neq (ptr l) _)) by (by eapply ptr_not_null);
    destruct (decide (r = Leaf)) as [->|Hrr]; [|rewrite (proj2 (Z.eqb_neq (ptr r) _)) by (by eapply ptr_not_null)]].
  - cbn [ptr]. rewrite Z.eqb_refl. destruct (erase_one_child_ok s K c n r Hr) as (s1 & -> & Hsh & Ha1 & Hout). cbn [obind].
    destruct (propagate_old_place s1 K (paint c r) (Node c Leaf n r) Hsh) as (s2 & -> & Hn2 & Hr2 & Hrep);
      [rewrite Ha1, aug_tree_paint; apply Hat|by rewrite Ha1|].
    eexists _, s2. split; [done|]. split; [|rewrite <- whole_perm; split; rewrite Hn2; apply Hout]. eapply erased_place; eauto.
  - cbn [ptr]. rewrite Z.eqb_refl. destruct (erase_left_child_ok s K c n l Hr Hl) as (s1 & -> & Hsh & Ha1 & Hout). cbn [obind].
    destruct (propagate_old_place s1 K (paint c l) (Node c l n Leaf) Hsh) as (s2 & -> & Hn2 & Hr2 & Hrep);
      [rewrite Ha1, aug_tree_paint; apply Hat|by rewrite Ha1|].
    eexists _, s2. split; [done|]. split; [|rewrite <- whole_perm; split; rewrite Hn2; apply Hout].
    pose proof (erased_place s2 K c c0 m l n Leaf l Hrep Hbal HbK ltac:(by right)) as He. cbn. by destruct l.
  - destruct (erase_unlink_ok s K c l n r Hr Hrr) as (J & cs & sc & r' & s1 & -> & HbJ & -> & Hun & Hout1). cbn [obind].
    destruct (erase_replace_ok s1 K c l n J cs sc r' Hun Hl) as (s2 & -> & Hsh & Ha2 & Hout2). cbn [obind].
    destruct Hun as [_ _ _ _ _ _ _ _ (Hal & Har & HaJ & L0 & HL0 & Hav & HaK')].
    set (J1 := Frame Rgt c sc l :: K) in *. set (z := paint Black r') in *.
    assert (shape s2 J1 (plug J z)) as Hsh1.
    { by apply shape_app. }
    destruct (propagate_place s2 (Frame Rgt c sc l) K (plug J z) L0 Hsh1) as (s3 & Hprop & Hn3 & Hr3 & Hrep); try first [done|rewrite Ha2; done].
    { rewrite Ha2. apply aug_tree_plug. unfold z. by rewrite aug_tree_paint, inorder_paint. }
    cbn [f_node] in Hprop. rewrite Hprop. cbn [obind]. eexists _, s3. split; [done|]. split.
    + change (plug K (Node c l n (plug J (Node cs Leaf sc r')))) with (plug (Frame Rgt c n l :: K) (plug J (Node cs Leaf sc r'))) in Hb.
      rewrite <- plug_app in Hb. destruct (bal_unplug _ _ _ _ Hb eq_refl) as (c1 & m1 & Hb1 & HbK1).
      apply (balK_rename _ _ _ sc) in HbK1. fold J1 in HbK1.
      assert (paint cs r' = z) as Hz.
      { pose proof (bal_one_child _ _ _ _ _ _ _ r' Hb1 HbK1 ltac:(by left)) as Hone. unfold z. destruct r'; [done|]. by destruct Hone as [-> _]. }
      assert (repr av s3 (J ++ J1) (paint cs r')) as Hrep1 by (rewrite Hz, repr_plug, plug_app, <- repr_plug; exact Hrep).
      pose proof (erased_place s3 (J ++ J1) cs c1 m1 Leaf sc r' r' Hrep1 Hb1 HbK1 ltac:(by left)) as He.
      rewrite <- inorder_plug, plug_app, inorder_plug in He. rewrite up_app in He. cbn [up J1 f_node] in He.
      rewrite inorder_plug, HbJ. unfold J1 in He. cbn in He. rewrite inorder_plug, HbJ in He. cbn in *.
      rewrite <- !app_assoc in He. cbn in He. by rewrite <- app_assoc.
    + rewrite <- whole_perm. apply (outside_trans _ _ s1); [|apply (outside_trans _ _ s2); [|split; by rewrite Hn3]].
      * eapply outside_mono; [|exact Hout1]. unfold whole. clear. mem.
      * eapply outside_mono; [|exact Hout2]. intros q Hq. unfold whole. cbn [inorder].
        assert (q ∈ inorder (plug J (Node cs Leaf sc r')) <-> q ∈ whole J (Node cs Leaf sc r')) as Hw by (by rewrite whole_perm).
        rewrite !elem_of_app, elem_of_cons, Hw. unfold whole. clear -Hq. cbn [inorder]. revert Hq.
        repeat (progress rewrite ?elem_of_app, ?elem_of_cons). rewrite elem_of_nil. tauto.
Qed.

Lemma rb_erase_augmented_ok s T n :
  repr av s [] T -> red_black T -> n ∈ inorder T ->
  exists s' T' X Y, rb_erase_augmented cb n s = Ok s' /\ repr av s' [] T' /\ red_black T'
    /\ inorder T = X ++ n :: Y /\ inorder T' = X ++ Y /\ outside (inorder T) s s'.
Proof using Aug.
  intros Hr Hb Hn. destruct (find_place T n Hn) as (K & c & l & r & ->). apply repr_plug in Hr.
  destruct (erase_augmented_ok s K c l n r Hr Hb) as (reb & s1 & Heq & He & Hout).
  unfold rb_erase_augmented. rewrite Heq. cbn [obind]. rewrite inorder_plug.
  assert (before K ++ inorder (Node c l n r) ++ after K = (before K ++ inorder l) ++ n :: (inorder r ++ after K)) as Hin by (cbn; app_eq).
  destruct He as [(-> & T' & Hr' & Hb' & Hin')|(K' & -> & HK' & Hr' & Hb' & Hin')].
  - rewrite Z.eqb_refl. exists s1, T', (before K ++ inorder l), (inorder r ++ after K). split_and!; try done.
    + rewrite Hin'. app_eq.
    + by rewrite <- inorder_plug.
  - assert (up K' <> RB_NULL) as Hup.
    { destruct K' as [|[d1 c1 p1 t1] K']; [done|]. destruct Hr' as [_ (_ & Ha & _) _ _ _]. by apply addr_not_null. }
    rewrite (proj2 (Z.eqb_neq _ _)) by done. unfold ____rb_erase_color.
    destruct (erase_color_loop_ok (rb_fuel s1) s1 K' Leaf 0 Hr' HK' ltac:(constructor) Hb') as (s' & T' & Hloop & Hr2 & Hb2 & Hin2 & Hout2).
    { pose proof (repr_size _ _ _ Hr') as Hz. pose proof (length_ctx K'). rewrite length_app in Hz. unfold rb_fuel. lia. }
    cbn [ptr] in Hloop. rewrite inorder_plug in Hin2. cbn [inorder app] in Hin2. rewrite Hin' in Hin2.
    exists s', T', (before K ++ inorder l), (inorder r ++ after K). split; [exact Hloop|]. split_and!; try done.
    + rewrite Hin2. app_eq.
    + rewrite <- inorder_plug. eapply outside_trans; [exact Hout|]. eapply outside_mono; [|exact Hout2].
      intros q. rewrite Hin2, inorder_plug. cbn. clear. set_solver.
Qed.
End Unlink.
