(* ===== verification/RbTreeWalk.v ===== *)
(** * Red-black trees: the callbacks of plain and of augmented trees; walking,
    replacing and height *)

From stdpp Require Import gmap functions.
From S2P Require Import Prelude RbTree RbTreeRep RbTreeInsert RbTreeUnlink.

(** Trees without data. *)
Definition no_data {A} : A -> Z -> list Z -> Prop := fun _ _ _ => True.

Lemma no_data_tree {A} (a : A) t : aug_tree no_data a t.
Proof. induction t; cbn; [done|]. by split_and!. Qed.
Lemma no_data_ctx {A} (a : A) K L : aug_ctx no_data a K L.
Proof. revert L. induction K as [|[d c p u] K IH]; intros L; cbn; [done|]. split_and!; [done|apply no_data_tree|apply IH]. Qed.

#[export] Instance dummy_augment {A} : RbAugment (dummy_callbacks (A := A)) no_data.
Proof.
  split.
  - intros. by exists a.
  - intros. by exists a.
  - intros stop K m a t _ _ _ _ _ _ _. exists a. split; [done|]. split; [apply no_data_ctx|done].
Qed.

(** The data of a node sums up the nodes of its subtree, in order, and
    [rbcompute] finds it from the data of the children. *)
Section Declared.
Context {V : Type} `{EqDecision V} (rbcompute : Z -> rb_nodes -> (Z -> V) -> V) (summary : list Z -> V).

Definition child_data (a : Z -> V) (q : Z) (L : list Z) : Prop :=
  (q = RB_NULL /\ L = []) \/ (q <> RB_NULL /\ L <> [] /\ a q = summary L).

Hypothesis compute_summary : forall p m a n L R,
  m !! p = Some n -> child_data a (rb_left n) L -> child_data a (rb_right n) R ->
  rbcompute p m a = summary (L ++ p :: R).

Definition summed (a : Z -> V) (p : Z) (L : list Z) : Prop := a p = summary L.

Lemma tree_data a t : aug_tree summed a t -> addrs (inorder t) -> child_data a (ptr t) (inorder t).
Proof using Type. clear dependent rbcompute.
  destruct t as [|c l p r]; [by left|]. intros (Hp & _) Ha. right. split_and!; [|by cbn; destruct (inorder l)|done].
  apply addr_not_null, Ha. cbn. set_solver.
Qed.

Lemma compute_side d p m a n L R :
  m !! p = Some n -> child_data a (child d n) L -> child_data a (child (opp d) n) R ->
  rbcompute p m a = summary (dord d L p R).
Proof using compute_summary. intros Hn HL HR. destruct d; cbn in *; by eapply compute_summary. Qed.

(** Data that did not change needs no changes above. *)
Lemma aug_ctx_same m stop a K : forall p L0 L1,
  path_at m stop K p -> p <> RB_NULL -> addrs (ctx_nodes K) -> a p = summary L0 -> a p = summary L1 -> L0 <> [] -> L1 <> [] ->
  aug_ctx summed a K L0 -> aug_ctx summed a K L1.
Proof using compute_summary.
  induction K as [|[d c q u] K IH]; intros p L0 L1 Hpath Hp Had H0 H1 Hn0 Hn1; [done|]. cbn in *.
  destruct Hpath as [(n & Hn & Hc & Hu & _) Hpath]. intros (Hq & Hau & HK).
  assert (child_data a (child (opp d) n) (inorder u)) as Hd by (rewrite Hu; apply tree_data; [done|]; intros x Hx; apply Had; set_solver).
  assert (a q = summary (dord d L1 q (inorder u))) as Hq1.
  { rewrite <- (compute_side d q m a n L1 _ Hn) by (try done; rewrite Hc; by right).
    unfold summed in Hq. rewrite Hq. symmetry. eapply compute_side; [done| |done]. rewrite Hc. by right. }
  split; [done|]. split; [done|]. apply (IH q (dord d L0 q (inorder u))); try done; try apply dord_not_nil.
  - apply addr_not_null, Had. set_solver.
  - intros x Hx. apply Had. set_solver.
Qed.

Lemma fn_insert_same (a : Z -> V) p v : <[p := v]> a p = v.
Proof using Type. clear dependent rbcompute. apply fn_lookup_insert. Qed.
Lemma fn_insert_other (a : Z -> V) p q v : p <> q -> <[p := v]> a q = a q.
Proof using Type. clear dependent rbcompute. apply fn_lookup_insert_ne. Qed.

Lemma keeps_insert (a : Z -> V) p v : keeps summed [p] a (<[p := v]> a).
Proof using Type. clear dependent rbcompute. intros q L Hq Hs. unfold summed. rewrite fn_insert_other by set_solver. done. Qed.

Lemma keeps_mono {A} (av : A -> Z -> list Z -> Prop) X Y a a' :
  (forall q, q ∈ X -> q ∈ Y) -> keeps av X a a' -> keeps av Y a a'.
Proof using Type. clear dependent rbcompute. intros Hs Hk q L Hq. apply Hk. by intros ?%Hs. Qed.
Lemma keeps_trans {A} (av : A -> Z -> list Z -> Prop) X a a' a'' : keeps av X a a' -> keeps av X a' a'' -> keeps av X a a''.
Proof using Type. clear dependent rbcompute. intros H1 H2 q L Hq Ha. by apply H2, H1. Qed.

Lemma propagate_loop_ok stop K : forall fuel m a t,
  (length K < fuel)%nat -> path_at m stop K (ptr t) -> addrs (inorder t ++ ctx_nodes K) -> NoDup (inorder t ++ ctx_nodes K) ->
  (stop ∉ ctx_nodes K) -> aug_tree summed a t -> Forall (fun f => aug_tree summed a (f_tree f)) K ->
  match K with [] => True | f :: K' => exists L0, L0 <> [] /\ summed a (f_node f) L0 /\ aug_ctx summed a K' L0 end ->
  exists a', propagate_loop rbcompute fuel (upto stop K) stop m a = Ok a' /\ aug_ctx summed a' K (inorder t)
    /\ keeps summed (f_node <$> K) a a'.
Proof using compute_summary.
  induction K as [|[d c p u] K IH]; intros fuel m a t Hf Hpath Had Hnd Hstop Hat Hsides Hhead;
    (destruct fuel as [|fuel]; [lia|]); cbn [propagate_loop upto f_node].
  { rewrite Z.eqb_refl. exists a. split; [done|]. split; [done|by intros ???]. }
  cbn in Hpath, Had, Hnd, Hstop. destruct Hpath as [(n & Hn & Hc & Hu & Hup) Hpath]. destruct Hhead as (L0 & HL0 & Hp & HK).
  apply Forall_cons in Hsides as [Hau Hsides]. pose proof Hnd as Hnd'. split_nodup Hnd'. cbn [f_node f_tree] in *.
  rewrite (proj2 (Z.eqb_neq _ _)) by nd. rewrite Hn.
  assert (rbcompute p m a = summary (dord d (inorder t) p (inorder u))) as Hcomp.
  { eapply compute_side; [done|rewrite Hc|rewrite Hu]; (apply tree_data; [done|]); intros x Hx; apply Had; set_solver. }
  rewrite Hcomp. case_decide as Heq.
  - exists a. split; [done|]. split; [|by intros ???]. cbn. split; [done|]. split; [done|].
    eapply aug_ctx_same; [exact Hpath|apply addr_not_null, Had; set_solver|intros x Hx; apply Had; set_solver|exact Hp|done|done|apply dord_not_nil|done].
  - rewrite Hup. set (a1 := <[p := _]> a).
    assert (keeps summed [p] a a1) as Hk1 by apply keeps_insert.
    destruct (IH fuel m a1 (mk d c t p u)) as (a' & Hloop & HK' & Hk'); rewrite ?ptr_mk, ?inorder_mk; try done.
    + cbn in Hf. lia.
    + intros x Hx. apply Had. rewrite elem_of_app, elem_of_dord in Hx. set_solver.
    + eapply NoDup_Permutation_proper; [|exact Hnd]. clear. destruct d; cbn; solve_Permutation.
    + nd.
    + rewrite aug_tree_mk. split; [apply fn_insert_same|].
      split; (eapply aug_tree_keeps; [exact Hk1| |done]); intros x Hx; nd.
    + apply Forall_forall. intros f Hfin. rewrite Forall_forall in Hsides. eapply aug_tree_keeps; [exact Hk1| |by apply Hsides].
      intros x Hx ->%list_elem_of_singleton. assert (p ∈ ctx_nodes K); [|nd]. clear -Hfin Hx.
      induction K as [|g K IH]; [by apply not_elem_of_nil in Hfin|]. cbn. apply elem_of_cons in Hfin as [->|Hfin]; set_solver.
    + eapply aug_ctx_head, (aug_ctx_keeps summed [p]); [exact Hk1| |exact HK]. intros x Hx. nd.
    + exists a'. split; [exact Hloop|].
      assert (forall x, x ∈ p :: inorder t ++ inorder u -> x ∉ f_node <$> K) as Hnot by (intros x Hx Hin%f_node_in; nd).
      split; [cbn; split; [apply Hk'; [apply Hnot; set_solver|apply fn_insert_same]|split; [|by rewrite inorder_mk in HK']]|].
      * eapply aug_tree_keeps; [exact Hk'|intros x Hx; apply Hnot; set_solver|].
        eapply aug_tree_keeps; [exact Hk1| |exact Hau]. intros x Hx. nd.
      * cbn. eapply keeps_trans; (eapply keeps_mono; [|first [exact Hk1|exact Hk']]); set_solver.
Qed.

Lemma path_size m stop K q : path_at m stop K q -> NoDup (ctx_nodes K) -> (length K <= size m)%nat.
Proof using Type. clear dependent rbcompute.
  intros Hpath Hnd. rewrite <- (length_fmap f_node K). rewrite <- (size_dom m).
  assert (NoDup (f_node <$> K)) as Hnd1.
  { clear -Hnd. induction K as [|f K IH]; cbn in *; [constructor|]. apply NoDup_cons in Hnd as [Hf Hnd]. apply NoDup_app in Hnd as (_ & _ & Hnd).
    constructor; [|auto]. intros Hin%f_node_in. set_solver. }
  rewrite <- (size_list_to_set (C := gset Z) _ Hnd1). apply subseteq_size. intros x Hx%elem_of_list_to_set. apply elem_of_dom.
  clear -Hpath Hx. revert q Hpath. induction K as [|[d c p t] K IH]; intros q; cbn in *; [by apply not_elem_of_nil in Hx|].
  intros [(n & Hn & _) Hpath]. apply elem_of_cons in Hx as [->|Hx]; [by eauto|by eapply IH].
Qed.

Lemma declared_augment : RbAugment (declared_callbacks rbcompute) summed.
Proof using compute_summary.
  split.
  - intros old new m a n lt rt Hn Hl Hr Had Hal Har Hne Ho Hw. cbn [rotate declared_callbacks]. set (a1 := <[new := a old]> a).
    assert (keeps summed [new] a a1) as Hk1 by apply keeps_insert.
    eexists. split; [done|]. split; [|split].
    + unfold summed. rewrite fn_insert_same. eapply compute_summary; [done|rewrite Hl|rewrite Hr];
        (apply tree_data; [eapply aug_tree_keeps; [exact Hk1| |done]|intros q Hq; apply Had]; set_solver).
    + intros L HL. unfold summed in *. rewrite fn_insert_other by done. unfold a1. by rewrite fn_insert_same.
    + eapply keeps_trans; (eapply keeps_mono; [|first [exact Hk1|apply keeps_insert]]); set_solver.
  - intros old new m a. cbn. eexists. split; [done|]. split; [|apply keeps_insert]. intros L HL. unfold summed. by rewrite fn_insert_same.
  - intros stop K m a t Hpath Had Hnd Hstop Hat Hs Hh. cbn [propagate declared_callbacks].
    apply propagate_loop_ok; try done. apply NoDup_app in Hnd as (_ & _ & Hnd). pose proof (path_size _ _ _ _ Hpath Hnd). lia.
Qed.
End Declared.

(** * Walking, replacing and height *)

(** The node a walk towards side [d] ends at, NULL if there is none. *)
Definition ends (d : side) (L : list Z) : Z := default RB_NULL (match d with Lft => head L | Rgt => last L end).

Lemma ends_app_l L L' : L <> [] -> ends Lft (L ++ L') = ends Lft L.
Proof. by destruct L. Qed.
Lemma ends_app_r L L' : L' <> [] -> ends Rgt (L ++ L') = ends Rgt L'.
Proof. intros H. unfold ends. rewrite last_app. by destruct (last L') eqn:E; [|apply last_None in E]. Qed.

(** The order of a walk that visits children first. *)
Fixpoint postorder (t : tree) : list Z :=
  match t with Leaf => [] | Node _ l p r => postorder l ++ postorder r ++ [p] end.

Fixpoint post_after (K : list frame) : list Z :=
  match K with
  | [] => []
  | f :: K => match f_side f with Lft => postorder (f_tree f) | Rgt => [] end ++ f_node f :: post_after K
  end.

Fixpoint post_before (K : list frame) : list Z :=
  match K with [] => [] | f :: K => post_before K ++ match f_side f with Lft => [] | Rgt => postorder (f_tree f) end end.

Lemma postorder_plug K : forall t, postorder (plug K t) = post_before K ++ postorder t ++ post_after K.
Proof.
  induction K as [|[d c p u] K IH]; intros t; cbn; [by rewrite app_nil_r|]. unfold plug in IH. rewrite IH. unfold fill. cbn.
  destruct d; cbn; app_eq.
Qed.

Lemma postorder_perm t : postorder t ≡ₚ inorder t.
Proof. induction t as [|c l IHl p r IHr]; cbn; [done|]. rewrite IHl, IHr. solve_Permutation. Qed.

Section Walk.
Context {A : Type}.
Implicit Types s : rb_state A.

Lemma go_down_ok s d t : forall parent fuel,
  tree_at (nodes s) parent t -> t <> Leaf -> (length (inorder t) <= fuel)%nat ->
  go_down fuel d (ptr t) s = Ok (ends d (inorder t)).
Proof.
  induction t as [|c l IHl p r IHr]; intros parent fuel Ht Hne Hf; [done|].
  cbn [inorder] in *. rewrite length_app in Hf. cbn in Hf. destruct fuel as [|fuel]; [lia|].
  destruct Ht as (Hp & Ha & Hl & Hr). cbn [go_down ptr]. rewrite (get_child_ok _ _ _ _ Hp). cbn [obind].
  destruct d; cbn [child rb_left rb_right].
  - destruct (decide (l = Leaf)) as [->|Hn]; [done|]. rewrite (proj2 (Z.eqb_neq _ _)) by (by eapply ptr_not_null).
    rewrite (IHl p) by (done || lia). by rewrite ends_app_l by (by destruct l; [|cbn; destruct (inorder l1)]).
  - destruct (decide (r = Leaf)) as [->|Hn]; [cbn; unfold ends; by rewrite last_app|].
    rewrite (proj2 (Z.eqb_neq _ _)) by (by eapply ptr_not_null). rewrite (IHr p) by (done || lia).
    rewrite ends_app_r by done. change (p :: inorder r) with ([p] ++ inorder r).
    by rewrite ends_app_r by (by destruct r; [|cbn; destruct (inorder r1)]).
Qed.

Lemma go_up_ok s d K : forall q fuel,
  ctx_at (nodes s) (rb_root s) K q -> NoDup (q :: ctx_nodes K) -> q <> RB_NULL ->
  (exists n, nodes s !! q = Some n /\ __rb_parent (__rb_parent_color n) = up K) -> (length K < fuel)%nat ->
  go_up fuel d q s = Ok (match d with Rgt => ends Lft (after K) | Lft => ends Rgt (before K) end).
Proof.
  induction K as [|[d' c p t] K IH]; intros q fuel HK Hnd Hq (n & Hn & Hup) Hf; (destruct fuel as [|fuel]; [cbn in Hf; lia|]);
    cbn [go_up]; unfold rb_parent; rewrite (load_node _ _ _ Hn); cbn [obind]; rewrite Hup; cbn [up f_node].
  { by destruct d. }
  cbn in HK, Hnd. destruct HK as (Hp & Ha & Ht & HK). pose proof Hnd as Hnd'. split_nodup Hnd'.
  rewrite (proj2 (Z.eqb_neq _ _)) by (by apply addr_not_null). rewrite (get_child_ok _ _ _ _ Hp). cbn [obind].
  destruct (decide (d' = d)) as [->|Hd].
  - rewrite child_mkn, Z.eqb_refl. rewrite IH; [|done|apply NoDup_cons; split; [nd|tauto]|by apply addr_not_null| |cbn in Hf; lia].
    + cbn. destruct d; cbn; [by rewrite app_nil_r|done].
    + eexists. split; [exact Hp|]. rewrite pc_mkn. eapply word_parent, ptr_aligned, up_addr, HK.
  - assert (d = opp d') as -> by (by destruct d, d'). rewrite child_opp_mkn, (proj2 (Z.eqb_neq _ _)).
    + destruct d'; cbn [after before f_side f_tree f_node opp]; [done|].
      by rewrite !ends_app_r by (by destruct (inorder t)).
    + intros He. assert (ptr t ∈ inorder t) by (apply ptr_in; by rewrite <- He). rewrite <- He in *. nd.
Qed.

Lemma rb_end_ok s d T : shape s [] T -> rb_end d s = Ok (ends d (inorder T)).
Proof.
  intros [Ht Hr Hnd]. cbn in Hr. unfold rb_end. rewrite Hr. destruct (decide (T = Leaf)) as [->|Hne].
  { cbn. by destruct d. }
  rewrite (proj2 (Z.eqb_neq _ _)) by (by eapply ptr_not_null). eapply go_down_ok; [done|done|].
  assert (shape s [] T) as Hsh by done. apply shape_repr, repr_size in Hsh. rewrite app_nil_r in Hsh. unfold rb_fuel. lia.
Qed.

(** Nodes in a tree do not look unlinked. *)
Lemma not_empty_node s K c l p r : shape s K (Node c l p r) -> word (up K) c <> p.
Proof.
  intros [(Hp & Ha & _) HK Hnd] He. assert (c = Red) as ->.
  { pose proof (word_color (up K) c (ptr_aligned _ (up_addr _ _ _ _ HK))) as Hc. rewrite He in Hc. unfold __rb_color in Hc.
    rewrite aligned_land in Hc by (apply Ha || lia). by destruct c. }
  rewrite word_red in He. destruct K as [|f K]; cbn in *; [by apply addr_not_null in Ha|].
  apply NoDup_app in Hnd as (_ & Hnd & _). apply (Hnd p); set_solver.
Qed.

Lemma rb_step_ok s d K c l p r :
  shape s K (Node c l p r) ->
  rb_step d p s = Ok (match d with Rgt => ends Lft (inorder r ++ after K) | Lft => ends Rgt (before K ++ inorder l) end).
Proof.
  intros Hsh. pose proof (not_empty_node _ _ _ _ _ _ Hsh) as Hemp. pose proof Hsh as [(Hp & Ha & Hl & Hr) HK Hnd].
  assert (length (inorder (Node c l p r) ++ ctx_nodes K) <= size (nodes s))%nat as Hz by (by apply shape_repr, repr_size in Hsh).
  cbn in Hz. rewrite !length_app in Hz. cbn in Hz. pose proof (length_ctx K).
  unfold rb_step. rewrite (load_node _ _ _ Hp). cbn [obind]. unfold RB_EMPTY_NODE. cbn [__rb_parent_color].
  rewrite (proj2 (Z.eqb_neq _ _)) by done.
  assert (go_up (rb_fuel s) d p s = Ok (match d with Rgt => ends Lft (after K) | Lft => ends Rgt (before K) end)) as Hup.
  { apply go_up_ok; [done| |by apply addr_not_null| |unfold rb_fuel; lia].
    - eapply (NoDup_app (inorder l ++ inorder r)). eapply NoDup_Permutation_proper; [|exact Hnd]. cbn. clear. solve_Permutation.
    - eexists. split; [exact Hp|]. eapply word_parent, ptr_aligned, up_addr, HK. }
  destruct d; cbn [child rb_left rb_right opp].
  - destruct (decide (l = Leaf)) as [->|Hn]; [cbn; by rewrite app_nil_r|].
    rewrite (proj2 (Z.eqb_neq _ _)) by (by eapply ptr_not_null). rewrite (go_down_ok s Rgt l p) by (done || unfold rb_fuel; lia).
    by rewrite ends_app_r by (by destruct l; [|cbn; destruct (inorder l1)]).
  - destruct (decide (r = Leaf)) as [->|Hn]; [done|].
    rewrite (proj2 (Z.eqb_neq _ _)) by (by eapply ptr_not_null). rewrite (go_down_ok s Lft r p) by (done || unfold rb_fuel; lia).
    by rewrite ends_app_l by (by destruct r; [|cbn; destruct (inorder r1)]).
Qed.

(** ** Children first *)

Lemma left_deepest_ok s t : forall parent fuel,
  tree_at (nodes s) parent t -> t <> Leaf -> (length (inorder t) <= fuel)%nat ->
  rb_left_deepest_node fuel (ptr t) s = Ok (ends Lft (postorder t)).
Proof.
  induction t as [|c l IHl p r IHr]; intros parent fuel Ht Hne Hf; [done|].
  cbn [inorder] in *. rewrite length_app in Hf. cbn in Hf. destruct fuel as [|fuel]; [lia|].
  destruct Ht as (Hp & Ha & Hl & Hr). cbn [rb_left_deepest_node ptr postorder]. rewrite (load_node _ _ _ Hp). cbn [obind rb_left rb_right].
  destruct (decide (l = Leaf)) as [->|Hn].
  - cbn [ptr]. rewrite Z.eqb_refl. cbn [negb postorder app]. destruct (decide (r = Leaf)) as [->|Hn]; [done|].
    rewrite (proj2 (Z.eqb_neq _ _)) by (by eapply ptr_not_null). cbn [negb]. rewrite (IHr p) by (done || lia).
    rewrite ends_app_l; [done|]. destruct r as [|? r1 ? r2]; [done|]. cbn. by destruct (postorder r1), (postorder r2).
  - rewrite (proj2 (Z.eqb_neq _ _)) by (by eapply ptr_not_null). cbn [negb]. rewrite (IHl p) by (done || lia).
    rewrite ends_app_l; [done|]. destruct l as [|? l1 ? l2]; [done|]. cbn. by destruct (postorder l1), (postorder l2).
Qed.

Lemma first_postorder_ok s T : shape s [] T -> rb_first_postorder s = Ok (ends Lft (postorder T)).
Proof.
  intros Hsh. pose proof Hsh as [Ht Hr Hnd]. cbn in Hr. unfold rb_first_postorder. rewrite Hr.
  destruct (decide (T = Leaf)) as [->|Hne]; [done|].
  rewrite (proj2 (Z.eqb_neq _ _)) by (by eapply ptr_not_null). eapply left_deepest_ok; [done|done|].
  apply shape_repr, repr_size in Hsh. rewrite app_nil_r in Hsh. unfold rb_fuel. lia.
Qed.

Lemma next_postorder_ok s K c l p r :
  shape s K (Node c l p r) -> rb_next_postorder p s = Ok (ends Lft (post_after K)).
Proof.
  intros Hsh. pose proof Hsh as [(Hp & Ha & Hl & Hr) HK Hnd]. unfold rb_next_postorder.
  rewrite (proj2 (Z.eqb_neq _ _)) by (by apply addr_not_null). unfold rb_parent. rewrite (load_node _ _ _ Hp). cbn [obind __rb_parent_color].
  rewrite word_parent by (eapply ptr_aligned, up_addr, HK). destruct K as [|[d cg g u] K]; [done|]. cbn [up f_node].
  destruct HK as (Hg & Hag & Hu & HK). rewrite (proj2 (Z.eqb_neq _ _)) by (by apply addr_not_null).
  rewrite (load_node _ _ _ Hg). cbn [obind ptr]. cbn [post_after f_side f_node f_tree]. destruct d; cbn [mkn rb_left rb_right app].
  - rewrite Z.eqb_refl. destruct (decide (u = Leaf)) as [->|Hn]; [done|].
    rewrite (proj2 (Z.eqb_neq _ _)) by (by eapply ptr_not_null). cbn [negb andb]. erewrite left_deepest_ok; [|done|done|].
    + rewrite ends_app_l; [done|]. destruct u as [|? u1 ? u2]; [done|]. cbn. by destruct (postorder u1), (postorder u2).
    + apply shape_repr, repr_size in Hsh. rewrite length_app in Hsh. cbn [ctx_nodes f_tree f_node length] in Hsh. rewrite length_app in Hsh.
      unfold rb_fuel. lia.
  - rewrite (proj2 (Z.eqb_neq p _)); [done|]. intros He. cbn in Hnd. apply NoDup_app in Hnd as (_ & Hnd & _).
    apply (Hnd p); [set_solver|]. right. apply elem_of_app. left. rewrite He. apply ptr_in. rewrite <- He. by apply addr_not_null.
Qed.

(** ** Replacing a node *)

Lemma if_reparent s parent t p m :
  tree_at m parent t -> (forall q, q ∈ inorder t -> nodes s !! q = m !! q) -> Z.land parent 3 = 0 -> NoDup (inorder t) ->
  exists s', if_node (ptr t) (rb_set_parent (ptr t) p) s = Ok s' /\ rb_root s' = rb_root s
    /\ aug s' = aug s /\ tree_at (nodes s') p t /\ outside (inorder t) s s'.
Proof. intros Ht Hm Hp Hnd. apply (if_set_parent_ok s parent); try done. by eapply tree_at_frame. Qed.

Lemma replace_node_ok s K c l v r new :
  shape s K (Node c l v r) -> node_addr new -> (new ∉ inorder (Node c l v r) ++ ctx_nodes K) ->
  exists s', rb_replace_node v new s = Ok s' /\ shape s' K (Node c l new r) /\ aug s' = aug s
    /\ outside (new :: inorder (plug K (Node c l v r))) s s'.
Proof.
  intros [(Hv & Hav & Hl & Hr) HK Hnd] Hnew Hfresh. cbn in HK, Hnd, Hfresh. pose proof Hnd as Hnd'. split_nodup Hnd'.
  unfold rb_replace_node, rb_parent. rewrite (load_node _ _ _ Hv). cbn [obind __rb_parent_color].
  rewrite word_parent by (eapply ptr_aligned, up_addr, HK).
  destruct (change_child_ok s K v new HK) as (s1 & -> & Ha1 & HK1 & [Hs1 Hz1]); [tauto|nd|by apply addr_not_null|]. cbn [obind].
  rewrite (load_node s1 v (RbNode (word (up K) c) (ptr r) (ptr l))) by (rewrite Hs1; [done|nd]). cbn [obind rb_left rb_right].
  destruct (if_reparent s1 v l new (nodes s) Hl) as (s2 & -> & Hr2 & Ha2 & Hl2 & [Hs2 Hz2]); [intros q Hq; apply Hs1; nd|apply Hav|tauto|].
  cbn [obind]. rewrite (load_node s2 v (RbNode (word (up K) c) (ptr r) (ptr l))) by (rewrite Hs2, Hs1; [done|nd|nd]).
  cbn [obind rb_left rb_right].
  destruct (if_reparent s2 v r new (nodes s) Hr) as (s3 & -> & Hr3 & Ha3 & Hr3' & [Hs3 Hz3]);
    [intros q Hq; rewrite Hs2, Hs1; [done|nd|nd]|apply Hav|tauto|].
  cbn [obind]. rewrite (load_node s3 v (RbNode (word (up K) c) (ptr r) (ptr l))) by (rewrite Hs3, Hs2, Hs1; [done|nd|nd|nd]).
  cbn [obind]. eexists. split; [done|]. split; [|split; [cbn; congruence|]].
  - split; cbn [nodes store rb_root].
    + cbn. rewrite lookup_insert_eq. split; [done|]. split; [done|].
      split; (eapply tree_at_frame; [|done]); intros q Hq; (rewrite lookup_insert_ne by set_solver); [|done]. apply Hs3. nd.
    + cbn [ptr]. rewrite Hr3, Hr2. eapply ctx_at_frame; [|exact HK1]. intros q Hq. rewrite lookup_insert_ne by set_solver.
      rewrite Hs3, Hs2; [done|nd|nd].
    + cbn. apply NoDup_app. split; [|split; [|tauto]].
      * apply NoDup_app. split; [tauto|]. split; [|apply NoDup_cons; split; [set_solver|tauto]]. intros q Hq. nd.
      * intros q Hq. clear - Hq Hfresh Hnd'. set_solver.
  - rewrite <- whole_perm. unfold whole. cbn [inorder]. eapply (outside_trans _ _ s3); [|eapply outside_mono; [|apply outside_store]; set_solver].
    split; [|by auto]. intros q Hq. rewrite Hs3, Hs2, Hs1 by set_solver. done.
Qed.
End Walk.

(** ** Height *)

Fixpoint height (t : tree) : nat := match t with Leaf => 0 | Node _ l _ r => S (Nat.max (height l) (height r)) end.

Lemma bal_height t c n : bal t c n -> (height t <= 2 * n + match c with Red => 1 | Black => 0 end)%nat.
Proof. induction 1; cbn; [lia|lia|destruct cl, cr; lia]. Qed.

Lemma bal_size t c n : bal t c n -> (2 ^ n <= S (length (inorder t)))%nat.
Proof. induction 1; cbn [inorder length Nat.pow]; rewrite ?length_app; cbn [length]; lia. Qed.

Lemma red_black_height t : red_black t -> (height t <= 2 * Nat.log2 (S (length (inorder t))))%nat.
Proof.
  intros [n Hb]. pose proof (bal_height _ _ _ Hb). pose proof (bal_size _ _ _ Hb) as Hs.
  apply Nat.log2_le_mono in Hs. rewrite Nat.log2_pow2 in Hs by lia. cbn in *. lia.
Qed.
