(* ===== verification/RbTreeProps.v ===== *)
(** * Red-black trees: a balanced sequence of nodes, and searching

    The operations against the sequence of nodes they describe, and what the
    search for the place of a new node keeps true where the sequence is
    sorted, which the queue of timers and the interval tree share. *)

From stdpp Require Import gmap functions sorting.
From S2P Require Import Prelude RbTree RbTreeRep RbTreeInsert RbTreeErase RbTreeUnlink RbTreeWalk.

(** ** Trees as sequences *)

(** The state holds a balanced tree of the nodes [xs]. *)
Definition holds {A} (av : A -> Z -> list Z -> Prop) (s : rb_state A) (xs : list Z) : Prop :=
  exists T, repr av s [] T /\ red_black T /\ inorder T = xs.

(** The place next to a node, on one side. *)
Fixpoint insert_next (d : side) (p n : Z) (xs : list Z) : list Z :=
  match xs with
  | [] => []
  | x :: xs => if x =? p then match d with Lft => n :: x :: xs | Rgt => x :: n :: xs end else x :: insert_next d p n xs
  end.

Lemma insert_next_split d p n X Y : (p ∉ X) -> insert_next d p n (X ++ p :: Y) = X ++ match d with Lft => n :: p :: Y | Rgt => p :: n :: Y end.
Proof.
  induction X as [|x X IH]; cbn; intros Hp; [by rewrite Z.eqb_refl; destruct d|].
  rewrite (proj2 (Z.eqb_neq _ _)) by set_solver. rewrite IH by set_solver. done.
Qed.

Definition insert_link (link : rb_link) (n : Z) (xs : list Z) : list Z :=
  match link with RootLink => [n] | ChildLink d p => insert_next d p n xs end.

Lemma nodup_mid (X Y : list Z) n : NoDup (X ++ n :: Y) -> n ∉ X ++ Y.
Proof. intros H. apply NoDup_app in H as (_ & H1 & H2). apply NoDup_cons in H2 as [H2 _]. intros [Hx|Hy]%elem_of_app; [by apply (H1 n); [|left]|done]. Qed.

Section Links.
Context {A : Type} {av : A -> Z -> list Z -> Prop}.
Implicit Types s : rb_state A.

Lemma holds_nodup s xs : holds av s xs -> NoDup xs.
Proof. intros (T & [_ _ Hnd _ _] & _ & <-). by rewrite app_nil_r in Hnd. Qed.

Lemma repr_shape s K t : repr av s K t -> shape s K t.
Proof. by intros []. Qed.

Lemma leaf_of_null m parent t : tree_at m parent t -> ptr t = RB_NULL -> t = Leaf.
Proof. intros Ht Hp. destruct (decide (t = Leaf)) as [|Hn]; [done|]. by eapply ptr_not_null in Ht. Qed.

(** An empty link of a tree is a place in it. *)
Lemma link_place s T link :
  repr av s [] T -> link_target link s = Ok RB_NULL -> match link with RootLink => True | ChildLink _ p => p ∈ inorder T end ->
  exists K, T = plug K Leaf /\ link_of K = link /\ up K = link_parent link
    /\ forall n, before K ++ n :: after K = insert_link link n (inorder T).
Proof.
  intros Hr Ht Hp. destruct link as [|d p]; cbn in Ht.
  - exists []. pose proof Hr as [Htree Hctx _ _ _]. cbn in Hctx. injection Ht as Hz. rewrite Hctx in Hz.
    apply (leaf_of_null _ _ _ Htree) in Hz as ->. done.
  - destruct (find_place T p Hp) as (K & c & l & r & ->). apply repr_plug in Hr. pose proof Hr as [Htree _ _ _ _].
    destruct Htree as (Hn & _ & Hl & Hrt). rewrite (get_child_ok _ _ _ _ Hn) in Ht. injection Ht as Ht.
    assert (NoDup (before K ++ inorder (Node c l p r) ++ after K)) as Hnd.
    { rewrite <- inorder_plug, <- whole_perm. apply Hr. }
    destruct d; cbn in Ht.
    + apply (leaf_of_null _ _ _ Hl) in Ht as ->. exists (Frame Lft c p r :: K). split_and!; try done. intros n. cbn.
      rewrite inorder_plug. cbn in *. rewrite insert_next_split; [app_eq|]. apply nodup_mid in Hnd. set_solver.
    + apply (leaf_of_null _ _ _ Hrt) in Ht as ->. exists (Frame Rgt c p l :: K). split_and!; try done. intros n. cbn.
      rewrite inorder_plug. cbn in *. replace (before K ++ (inorder l ++ [p]) ++ after K) with ((before K ++ inorder l) ++ p :: after K) in * by app_eq.
      rewrite insert_next_split; [app_eq|]. apply nodup_mid in Hnd. set_solver.
Qed.

(** ** Operations on sequences *)

Lemma holds_first s d xs : holds av s xs -> rb_end d s = Ok (ends d xs).
Proof. intros (T & Hr & _ & <-). by apply rb_end_ok, repr_shape. Qed.

Lemma split_unique (X Y X' Y' : list Z) p : NoDup (X ++ p :: Y) -> X ++ p :: Y = X' ++ p :: Y' -> X = X' /\ Y = Y'.
Proof.
  revert X'. induction X as [|x X IH]; intros X' Hnd Heq; destruct X' as [|x' X']; cbn in *.
  - by injection Heq.
  - injection Heq as -> ->. apply NoDup_cons in Hnd as [Hn _]. set_solver.
  - injection Heq as -> <-. apply NoDup_cons in Hnd as [Hn _]. set_solver.
  - injection Heq as -> Heq. apply NoDup_cons in Hnd as [_ Hnd]. destruct (IH X' Hnd Heq) as [-> ->]. done.
Qed.

Lemma holds_step s d X p Y :
  holds av s (X ++ p :: Y) -> rb_step d p s = Ok (match d with Rgt => ends Lft Y | Lft => ends Rgt X end).
Proof.
  intros Hh. pose proof (holds_nodup _ _ Hh) as Hnd. destruct Hh as (T & Hr & _ & Hin).
  destruct (find_place T p) as (K & c & l & r & ->); [rewrite Hin; set_solver|]. apply repr_plug, repr_shape in Hr.
  rewrite (rb_step_ok s d K c l p r Hr). rewrite inorder_plug in Hin. cbn in Hin.
  replace (before K ++ (inorder l ++ p :: inorder r) ++ after K) with ((before K ++ inorder l) ++ p :: (inorder r ++ after K)) in Hin by app_eq.
  destruct (split_unique _ _ _ _ _ Hnd (eq_sym Hin)) as [-> ->]. done.
Qed.

Lemma erase_holds {cb : rb_augment_callbacks A} `{!RbAugment cb av} s n xs :
  holds av s xs -> n ∈ xs ->
  exists s' X Y, rb_erase_augmented cb n s = Ok s' /\ xs = X ++ n :: Y /\ holds av s' (X ++ Y) /\ outside xs s s'.
Proof.
  intros (T & Hr & Hb & <-) Hn. destruct (rb_erase_augmented_ok s T n Hr Hb Hn) as (s' & T' & X & Y & H1 & H2 & H3 & H4 & H5 & H6).
  exists s', X, Y. split_and!; try done. by exists T'.
Qed.

(** The place is given by the way up to it. *)
Lemma insert_holds {cb : rb_augment_callbacks A} `{!RbAugment cb av} s K n :
  shape s [] (plug K Leaf) -> red_black (plug K Leaf) -> node_addr n -> (n ∉ inorder (plug K Leaf)) ->
  av (aug s) n [n] -> aug_ctx av (aug s) K [n] ->
  exists s1 s', rb_link_node n (up K) (link_of K) s = Ok s1 /\ __rb_insert (rotate cb) n s1 = Ok s'
    /\ holds av s' (before K ++ n :: after K) /\ outside (before K ++ n :: after K) s s'.
Proof.
  intros Hsh Hb Ha Hn Hav HaK.
  assert (shape s K Leaf) as [_ HK Hnd] by (rewrite <- (app_nil_r K); by apply shape_app).
  destruct (insert_ok s K n (plug K Leaf)) as (s1 & s' & T' & H1 & H2 & H3 & H4 & H5 & H6); try done.
  { cbn in Hnd. apply NoDup_cons. split; [|done]. intros Hin. apply Hn. rewrite <- whole_perm. exact Hin. }
  exists s1, s'. rewrite <- H5. split_and!; try done. by exists T'.
Qed.
End Links.

Section Sequence.
Context {A : Type}.
Implicit Types s : rb_state A.

Lemma insert_link_holds s link n xs :
  holds no_data s xs -> link_target link s = Ok RB_NULL -> match link with RootLink => True | ChildLink _ p => p ∈ xs end ->
  node_addr n -> (n ∉ xs) ->
  exists s1 s', rb_link_node n (link_parent link) link s = Ok s1 /\ rb_insert_color n s1 = Ok s'
    /\ holds no_data s' (insert_link link n xs) /\ outside (n :: xs) s s'.
Proof.
  intros (T & Hr & Hb & <-) Ht Hp Ha Hn. destruct (link_place s T link Hr Ht Hp) as (K & -> & <- & Hup & Hins).
  destruct (insert_holds (cb := dummy_callbacks) s K n) as (s1 & s' & H1 & H2 & H3 & H4); try done; [by apply repr_shape in Hr|apply no_data_ctx|].
  rewrite Hup in H1. exists s1, s'. rewrite <- Hins. split_and!; try done. eapply outside_mono; [|exact H4].
  intros q. rewrite inorder_plug. cbn. set_solver.
Qed.

Lemma replace_holds s X v Y new :
  holds no_data s (X ++ v :: Y) -> node_addr new -> (new ∉ X ++ v :: Y) ->
  exists s', rb_replace_node v new s = Ok s' /\ holds no_data s' (X ++ new :: Y) /\ outside (new :: X ++ v :: Y) s s'.
Proof.
  intros Hh Ha Hn. pose proof (holds_nodup _ _ Hh) as Hnd. destruct Hh as (T & Hr & Hb & Hin).
  destruct (find_place T v) as (K & c & l & r & ->); [rewrite Hin; set_solver|]. pose proof Hr as Hsh. apply repr_plug, repr_shape in Hsh.
  rewrite inorder_plug in Hin. cbn in Hin.
  replace (before K ++ (inorder l ++ v :: inorder r) ++ after K) with ((before K ++ inorder l) ++ v :: (inorder r ++ after K)) in Hin by app_eq.
  destruct (split_unique _ _ _ _ _ Hnd (eq_sym Hin)) as [-> ->].
  destruct (replace_node_ok s K c l v r new Hsh Ha) as (s' & Heq & Hsh' & _ & Hout).
  { intros Hq. apply Hn. assert (new ∈ whole K (Node c l v r)) as Hw by exact Hq. rewrite whole_perm, inorder_plug in Hw. cbn in Hw. set_solver. }
  exists s'. split; [done|]. split.
  - exists (plug K (Node c l new r)). split; [rewrite <- repr_plug; destruct Hsh'; split; try done; [apply no_data_tree|apply no_data_ctx]|].
    split; [|rewrite inorder_plug; cbn; app_eq]. destruct Hb as [h Hb]. destruct (bal_unplug _ _ _ _ Hb eq_refl) as (c0 & m & H1 & H2).
    eapply bal_plug; [|exact H2]. inversion H1; subst; econstructor; eauto.
  - eapply outside_mono; [|exact Hout]. intros q. rewrite inorder_plug. cbn. set_solver.
Qed.
End Sequence.

(** ** Any sequence of operations *)

Inductive rb_op := RbInsert (node : Z) (link : rb_link) | RbErase (node : Z) | RbReplace (victim new : Z).

Definition node_ok (n : Z) (xs : list Z) : bool := (0 <? n) && (Z.land n 3 =? 0) && negb (bool_decide (n ∈ xs)).

(** What callers may do, when the nodes of the tree are [xs]: a new node goes
    where a search ended, at an empty link. *)
Definition permitted (s : rb_state unit) (xs : list Z) (op : rb_op) : bool :=
  match op with
  | RbInsert n link =>
      node_ok n xs && match link with RootLink => true | ChildLink _ p => bool_decide (p ∈ xs) end
      && match link_target link s with Ok q => q =? RB_NULL | _ => false end
  | RbErase n => bool_decide (n ∈ xs)
  | RbReplace v n => bool_decide (v ∈ xs) && node_ok n xs
  end.

Definition rb_do (op : rb_op) (s : rb_state unit) : outcome (rb_state unit) :=
  match op with
  | RbInsert n link => let! s := rb_link_node n (link_parent link) link s in rb_insert_color n s
  | RbErase n => rb_erase n s
  | RbReplace v n => rb_replace_node v n s
  end.

(** What they do to the sequence. *)
Definition seq_do (op : rb_op) (xs : list Z) : list Z :=
  match op with
  | RbInsert n link => insert_link link n xs
  | RbErase n => filter (fun x => x <> n) xs
  | RbReplace v n => (fun x => if x =? v then n else x) <$> xs
  end.

(** Operations that are not permitted are left out. *)
Fixpoint rb_run (ops : list rb_op) (s : rb_state unit) (xs : list Z) : outcome (rb_state unit * list Z) :=
  match ops with
  | [] => Ok (s, xs)
  | op :: ops =>
      if permitted s xs op then let! s := rb_do op s in rb_run ops s (seq_do op xs) else rb_run ops s xs
  end.

Definition empty_tree : rb_state unit := RbState ∅ RB_NULL ().

Lemma node_ok_iff n xs : node_ok n xs = true <-> node_addr n /\ n ∉ xs.
Proof. unfold node_ok, node_addr. rewrite !andb_true_iff, negb_true_iff, bool_decide_eq_false, Z.ltb_lt, Z.eqb_eq. tauto. Qed.

Lemma filter_mid n X Y : (n ∉ X ++ Y) -> filter (fun x : Z => x <> n) (X ++ n :: Y) = X ++ Y.
Proof.
  intros Hn. rewrite filter_app, filter_cons_False by (by intros ?).
  assert (forall L : list Z, n ∉ L -> filter (fun x : Z => x <> n) L = L) as H; [|by rewrite !H by set_solver].
  intros L. induction L as [|x L IH]; [done|]. intros Hx. rewrite filter_cons_True by set_solver. by rewrite IH by set_solver.
Qed.

Lemma map_mid v n X Y : (v ∉ X ++ Y) -> (fun x => if x =? v then n else x) <$> (X ++ v :: Y) = X ++ n :: Y.
Proof.
  intros Hn. rewrite fmap_app, fmap_cons, Z.eqb_refl.
  assert (forall L : list Z, v ∉ L -> (fun x => if x =? v then n else x) <$> L = L) as H; [|by rewrite !H by set_solver].
  intros L. induction L as [|x L IH]; [done|]. intros Hx. cbn. rewrite (proj2 (Z.eqb_neq _ _)) by set_solver. by rewrite IH by set_solver.
Qed.

Lemma rb_do_ok op s xs :
  holds no_data s xs -> permitted s xs op = true ->
  exists s', rb_do op s = Ok s' /\ holds no_data s' (seq_do op xs).
Proof.
  intros Hh. destruct op as [n link|n|v n]; cbn [permitted rb_do seq_do].
  - rewrite !andb_true_iff, node_ok_iff. intros [[[Ha Hn] Hl] Ht].
    destruct (insert_link_holds s link n xs Hh) as (s1 & s' & -> & H2 & H3 & _); try done.
    + destruct (link_target link s) as [q| | |]; try done. zbool. by subst.
    + destruct link; [done|]. by apply bool_decide_eq_true in Hl.
    + by exists s'.
  - intros Hn%bool_decide_eq_true. destruct (erase_holds (cb := dummy_callbacks) s n xs Hh Hn) as (s' & X & Y & H1 & -> & H3 & _).
    exists s'. split; [exact H1|]. rewrite filter_mid; [done|]. by apply nodup_mid, (holds_nodup (av := no_data) s).
  - rewrite andb_true_iff, node_ok_iff. intros [Hv%bool_decide_eq_true [Ha Hn]]. apply list_elem_of_split in Hv as (X & Y & ->).
    destruct (replace_holds s X v Y n Hh Ha Hn) as (s' & H1 & H2 & _). exists s'. split; [done|].
    rewrite map_mid; [done|]. by apply nodup_mid, (holds_nodup (av := no_data) s).
Qed.

Lemma rb_run_ok ops : forall s xs, holds no_data s xs -> exists s' xs', rb_run ops s xs = Ok (s', xs') /\ holds no_data s' xs'.
Proof.
  induction ops as [|op ops IH]; intros s xs Hh; cbn [rb_run]; [by exists s, xs|].
  destruct (permitted s xs op) eqn:Hp; [|by apply IH]. destruct (rb_do_ok op s xs Hh Hp) as (s' & -> & Hh'). by apply IH.
Qed.

Lemma empty_holds : holds no_data empty_tree [].
Proof. exists Leaf. split; [by split; cbn; first [done|constructor]|]. split; [by exists 0%nat; constructor|done]. Qed.

(** C11. Red-black trees implement sequences of nodes: after any permitted
    sequence of insertions at empty links, removals and replacements, each of
    which ends without an access to anything but nodes, the links in memory
    form a red-black tree whose nodes, from left to right, are the sequence
    that inserting next to the parent, removing and replacing give; no node is
    further from the root than twice the logarithm of their number. *)
Theorem rbtree_refines_sequence ops :
  exists s xs T, rb_run ops empty_tree [] = Ok (s, xs) /\ repr no_data s [] T /\ red_black T /\ inorder T = xs
    /\ (height T <= 2 * Nat.log2 (S (length xs)))%nat.
Proof.
  destruct (rb_run_ok ops empty_tree [] empty_holds) as (s & xs & Heq & T & Hr & Hb & <-).
  exists s, (inorder T), T. split_and!; try done. by apply red_black_height.
Qed.

(** A tree of five nodes. *)
Definition demo_rb_ops : list rb_op :=
  [RbInsert 8 RootLink; RbInsert 16 (ChildLink Rgt 8); RbInsert 24 (ChildLink Rgt 16); RbInsert 32 (ChildLink Rgt 24);
   RbInsert 40 (ChildLink Rgt 32); RbInsert 48 (ChildLink Lft 8); RbErase 16; RbReplace 24 56].

Definition demo_rb_state : rb_state unit :=
  match rb_run demo_rb_ops empty_tree [] with Ok (s, _) => s | _ => empty_tree end.

(** A node in the walk that visits children first. *)
Lemma postorder_place {A} (s : rb_state A) T X p Y :
  shape s [] T -> postorder T = X ++ p :: Y ->
  exists K c l r, shape s K (Node c l p r) /\ X = post_before K ++ postorder l ++ postorder r /\ Y = post_after K.
Proof.
  intros Hsh Hin. pose proof Hsh as [_ _ Hnd]. rewrite app_nil_r, <- postorder_perm in Hnd.
  destruct (find_place T p) as (K & c & l & r & ->); [rewrite <- postorder_perm, Hin; set_solver|].
  exists K, c, l, r. split; [rewrite <- (app_nil_r K); by apply shape_app|]. rewrite Hin in Hnd. rewrite postorder_plug in Hin. cbn in Hin.
  replace (post_before K ++ (postorder l ++ postorder r ++ [p]) ++ post_after K)
    with ((post_before K ++ postorder l ++ postorder r) ++ p :: post_after K) in Hin by app_eq.
  by apply (split_unique _ _ _ _ _ Hnd).
Qed.

(** The walks visit the sequence: the first and the last node, and from
    each node the next and the previous one, are those of the sequence, NULL
    at its ends; the walk that visits children first follows a sequence of the
    same nodes. *)
Theorem rb_walks_correct ops s xs :
  rb_run ops empty_tree [] = Ok (s, xs) ->
  rb_first s = Ok (ends Lft xs) /\ rb_last s = Ok (ends Rgt xs)
  /\ (forall X p Y, xs = X ++ p :: Y -> rb_next p s = Ok (ends Lft Y) /\ rb_prev p s = Ok (ends Rgt X))
  /\ exists ps, ps ≡ₚ xs /\ rb_first_postorder s = Ok (ends Lft ps)
    /\ forall X p Y, ps = X ++ p :: Y ->
       rb_next_postorder p s = Ok (ends Lft Y) /\ forall d c, get_child d s p = Ok c -> c <> RB_NULL -> c ∈ X.
Proof.
  intros Hrun. destruct (rb_run_ok ops empty_tree [] empty_holds) as (s0 & xs0 & Heq & Hh). rewrite Hrun in Heq. injection Heq as <- <-.
  split; [by apply (holds_first (av := no_data))|]. split; [by apply (holds_first (av := no_data))|]. split.
  { intros X p Y ->. split; [exact (holds_step s Rgt X p Y Hh)|exact (holds_step s Lft X p Y Hh)]. }
  pose proof (holds_nodup _ _ Hh) as Hnd. destruct Hh as (T & Hr & _ & <-). apply repr_shape in Hr.
  exists (postorder T). split; [apply postorder_perm|]. split; [by apply first_postorder_ok|]. intros X p Y Hin.
  destruct (postorder_place s T X p Y Hr Hin) as (K & c & l & r & Hsh & -> & ->).
  split; [by eapply next_postorder_ok|]. intros d q Hd Hq. destruct Hsh as [(Hp & _) _ _]. rewrite (get_child_ok _ _ _ _ Hp) in Hd.
  injection Hd as <-. apply elem_of_app. right. apply elem_of_app.
  destruct d; cbn in *; [left|right]; rewrite postorder_perm; by apply ptr_in.
Qed.

Lemma rb_walks_correct_witness :
  rb_first demo_rb_state = Ok 48 /\ rb_last demo_rb_state = Ok 40 /\ rb_next 8 demo_rb_state = Ok 56 /\ rb_prev 8 demo_rb_state = Ok 48.
Proof.
  destruct (rb_walks_correct demo_rb_ops demo_rb_state [48; 8; 56; 32; 40]) as (H1 & H2 & H3 & _); [vm_compute; reflexivity|].
  split; [exact H1|]. split; [exact H2|]. exact (H3 [48] 8 [56; 32; 40] eq_refl).
Defined.

(** * Searching a sorted red-black tree *)

Section Sorted.
Context (key : Z -> Z).

Definition sorted_by (xs : list Z) : Prop := StronglySorted (fun a b => key a <= key b) xs.

(** Behind all that are not greater. *)
Fixpoint sorted_insert (n : Z) (xs : list Z) : list Z :=
  match xs with [] => [n] | x :: xs => if key n <? key x then n :: x :: xs else x :: sorted_insert n xs end.

Lemma sorted_app_le X Y a b : sorted_by (X ++ Y) -> a ∈ X -> b ∈ Y -> key a <= key b.
Proof. intros Hs Ha Hb. exact (StronglySorted_app_1_elem_of (fun a b => key a <= key b) X Y a b Hs Ha Hb). Qed.

Lemma sorted_insert_between n X Y :
  (forall q, q ∈ X -> key q <= key n) -> (forall q, q ∈ Y -> key n < key q) -> sorted_insert n (X ++ Y) = X ++ n :: Y.
Proof.
  intros HX HY. induction X as [|x X IH]; cbn.
  - destruct Y as [|y Y]; [done|]. cbn. by rewrite (proj2 (Z.ltb_lt _ _)) by (apply HY; set_solver).
  - rewrite (proj2 (Z.ltb_ge _ _)) by (apply HX; set_solver). rewrite IH; [done|]. intros q Hq. apply HX. set_solver.
Qed.

Lemma sorted_between n X Y :
  sorted_by (X ++ Y) -> (forall q, q ∈ X -> key q <= key n) -> (forall q, q ∈ Y -> key n < key q) -> sorted_by (X ++ n :: Y).
Proof.
  intros Hs HX HY. unfold sorted_by. apply StronglySorted_app_2.
  - intros a b Ha [->|Hb]%elem_of_cons; [by apply HX|]. specialize (HX a Ha). specialize (HY b Hb). lia.
  - by apply StronglySorted_app_1_l in Hs.
  - constructor; [by apply StronglySorted_app_1_r in Hs|]. apply Forall_forall. intros q Hq%HY. lia.
Qed.

Lemma sorted_remove X n Y : sorted_by (X ++ n :: Y) -> sorted_by (X ++ Y).
Proof.
  intros Hs. apply StronglySorted_app_2.
  - intros a b Ha Hb. eapply sorted_app_le; [exact Hs|done|by right].
  - by apply StronglySorted_app_1_l in Hs.
  - apply StronglySorted_app_1_r in Hs. by inversion Hs.
Qed.

(** What a search for the place of [n] knows at a place. *)
Definition between (n : Z) (K : list frame) : Prop :=
  (forall q, q ∈ before K -> key q <= key n) /\ (forall q, q ∈ after K -> key n < key q).

Lemma between_left n K c l p r :
  sorted_by (inorder (plug K (Node c l p r))) -> between n K -> key n < key p -> between n (Frame Lft c p r :: K).
Proof.
  intros Hs [Hb Ha] Hk. split; cbn; [by rewrite app_nil_r|]. intros q [->|[Hq|Hq]%elem_of_app]%elem_of_cons; [done| |by apply Ha].
  assert (key p <= key q); [|lia]. rewrite inorder_plug in Hs. apply StronglySorted_app_1_r, StronglySorted_app_1_l in Hs. cbn in Hs.
  apply StronglySorted_app_1_r in Hs. inversion Hs as [|? ? _ Hf]; subst. rewrite Forall_forall in Hf. by apply Hf.
Qed.

Lemma between_right n K c l p r :
  sorted_by (inorder (plug K (Node c l p r))) -> between n K -> key p <= key n -> between n (Frame Rgt c p l :: K).
Proof.
  intros Hs [Hb Ha] Hk. split; cbn; [|done].
  intros q [Hq|[Hq|Hq]%elem_of_app]%elem_of_app; [by apply Hb| |by apply list_elem_of_singleton in Hq as ->].
  assert (key q <= key p); [|lia]. rewrite inorder_plug in Hs. apply StronglySorted_app_1_r, StronglySorted_app_1_l in Hs.
  eapply sorted_app_le; [exact Hs|done|by left].
Qed.
End Sorted.

Section Places.
Context {A : Type}.
Implicit Types s : rb_state A.

(** [*link] at a place is the root of the tree in it. *)
Lemma link_target_place s K t : shape s K t -> link_target (link_of K) s = Ok (ptr t).
Proof.
  intros [_ HK _]. destruct K as [|[d c p u] K]; cbn in *; [by rewrite HK|]. destruct HK as (Hp & _).
  by rewrite (get_child_ok _ _ _ _ Hp), child_mkn.
Qed.

Lemma shape_plug s K t : shape s K t <-> shape s [] (plug K t).
Proof. rewrite <- (shape_app s K []). by rewrite app_nil_r. Qed.

(** A tree is not touched by what happens to other nodes. *)
Lemma holds_frame (av : A -> Z -> list Z -> Prop) s s' xs :
  holds av s xs -> (forall q, q ∈ xs -> nodes s' !! q = nodes s !! q) -> rb_root s' = rb_root s -> aug s' = aug s -> holds av s' xs.
Proof.
  intros (T & [H1 H2 H3 H4 H5] & Hb & <-) Hn Hr Ha. exists T. split; [|done].
  split; rewrite ?Hr, ?Ha; try done. by eapply tree_at_frame.
Qed.
End Places.
