(* ===== verification/TimerQueue.v ===== *)
(** * Queues of timers (lib/timerqueue.c)

    Timers in a red-black tree, by the time they expire; the timer that
    expires first is remembered.  A [struct timerqueue_node] starts with its
    [rb_node], so that both have one address.  The warnings for timers that are
    queued twice or removed without being queued only print. *)

From stdpp Require Import gmap functions sorting.
From S2P Require Import Prelude RbTree RbTreeRep RbTreeInsert RbTreeUnlink RbTreeWalk RbTreeProps.

Record timerqueue_head := TqHead { tq_head : rb_state unit; tq_next : Z }.

Definition timerqueue_init_head (m : rb_nodes) : timerqueue_head := TqHead (RbState m RB_NULL ()) RB_NULL.

Definition timerqueue_getnext (q : timerqueue_head) : Z := tq_next q.

Section Queue.
Context (expires : Z -> Z).

(** [while ( *p) ...]; the result is where the search ended. *)
Fixpoint timerqueue_search (fuel : nat) (node parent : Z) (p : rb_link) (s : rb_state unit) : outcome (Z * rb_link) :=
  match fuel with
  | O => NoFuel
  | S fuel =>
      let! cur := link_target p s in
      if cur =? RB_NULL then Ok (parent, p)
      else timerqueue_search fuel node cur (ChildLink (if expires node <? expires cur then Lft else Rgt) cur) s
  end.

Definition timerqueue_add (node : Z) (q : timerqueue_head) : outcome timerqueue_head :=
  let s := tq_head q in
  let! (parent, p) := timerqueue_search (rb_fuel s) node RB_NULL RootLink s in
  let! s := rb_link_node node parent p s in
  let! s := rb_insert_color node s in
  Ok (TqHead s (if (tq_next q =? RB_NULL) || (expires node <? expires (tq_next q)) then node else tq_next q)).
End Queue.

(** [RB_CLEAR_NODE] *)
Definition RB_CLEAR_NODE (node : Z) (s : rb_state unit) : outcome (rb_state unit) := set_pc node node s.

Definition timerqueue_del (node : Z) (q : timerqueue_head) : outcome timerqueue_head :=
  let s := tq_head q in
  let! next := if tq_next q =? node then rb_next node s else Ok (tq_next q) in
  let! s := rb_erase node s in
  let! s := RB_CLEAR_NODE node s in
  Ok (TqHead s next).

Definition timerqueue_iterate_next (node : Z) (q : timerqueue_head) : outcome Z :=
  if node =? RB_NULL then Ok RB_NULL else rb_next node (tq_head q).

(** ** Adding and removing *)

(** The queue holds [xs], sorted, and knows the first. *)
Definition queue_ok (expires : Z -> Z) (q : timerqueue_head) (xs : list Z) : Prop :=
  holds no_data (tq_head q) xs /\ sorted_by expires xs /\ tq_next q = ends Lft xs.

Lemma search_ok expires s node t : forall K fuel,
  shape s K t -> sorted_by expires (inorder (plug K t)) -> between expires node K -> (length (inorder t) < fuel)%nat ->
  exists K', timerqueue_search expires fuel node (up K) (link_of K) s = Ok (up K', link_of K')
    /\ plug K' Leaf = plug K t /\ between expires node K'.
Proof.
  induction t as [|c l IHl p r IHr]; intros K fuel Hsh Hs Hb Hf; (destruct fuel as [|fuel]; [cbn in Hf; lia|]); cbn [timerqueue_search];
    rewrite (link_target_place _ _ _ Hsh); cbn [obind ptr]; [by exists K|].
  pose proof Hsh as [(_ & Ha & _) _ _]. rewrite (proj2 (Z.eqb_neq _ _)) by (by apply addr_not_null).
  cbn [inorder] in Hf. rewrite length_app in Hf. cbn in Hf. destruct (expires node <? expires p) eqn:Hk; zbool.
  - apply (IHl (Frame Lft c p r :: K)); [|done|by eapply between_left|lia]. apply shape_plug. by apply shape_plug in Hsh.
  - apply (IHr (Frame Rgt c p l :: K)); [|done|by eapply between_right|lia]. apply shape_plug. by apply shape_plug in Hsh.
Qed.

Lemma add_ok expires q node xs :
  queue_ok expires q xs -> node_addr node -> (node ∉ xs) -> addrs xs ->
  exists q', timerqueue_add expires node q = Ok q' /\ queue_ok expires q' (sorted_insert expires node xs).
Proof.
  intros ((T & Hr & Hb & <-) & Hs & Hnext) Ha Hn Hadd. unfold timerqueue_add. apply repr_shape in Hr as Hsh.
  destruct (search_ok expires (tq_head q) node T [] (rb_fuel (tq_head q)) Hsh Hs) as (K & Heq & HT & Hbet); [by split; intros ? ?%not_elem_of_nil| |].
  { apply repr_size in Hr. rewrite app_nil_r in Hr. unfold rb_fuel. lia. }
  cbn [up link_of] in Heq. rewrite Heq. cbn [obind]. cbn in HT. subst T.
  destruct (insert_holds (cb := dummy_callbacks) (av := no_data) (tq_head q) K node) as (s1 & s' & -> & H2 & H3 & _); try done; [apply no_data_ctx|].
  cbn [obind]. change (rb_insert_color node s1 = Ok s') in H2. rewrite H2. cbn [obind]. eexists. split; [done|].
  rewrite inorder_plug in *. cbn [inorder app] in *. destruct Hbet as [Hbefore Hafter].
  rewrite (sorted_insert_between expires node _ _ Hbefore Hafter). split; [done|]. split; [by apply sorted_between|].
  cbn [tq_next]. rewrite Hnext. destruct (before K) as [|b B]; cbn [app] in *.
  - destruct (after K) as [|x X]; [done|]. cbn [ends head default]. rewrite (proj2 (Z.ltb_lt _ _)) by (apply Hafter; set_solver).
    by rewrite orb_true_r.
  - cbn. rewrite (proj2 (Z.eqb_neq b _)) by (apply addr_not_null, Hadd; set_solver).
    by rewrite (proj2 (Z.ltb_ge _ _)) by (apply Hbefore; set_solver).
Qed.

Lemma del_ok expires q node xs :
  queue_ok expires q xs -> node ∈ xs ->
  exists q', timerqueue_del node q = Ok q' /\ queue_ok expires q' (filter (fun x => x <> node) xs).
Proof.
  intros (Hh & Hs & Hnext) Hn. pose proof (holds_nodup _ _ Hh) as Hnd. unfold timerqueue_del.
  destruct (erase_holds (cb := dummy_callbacks) (tq_head q) node xs Hh Hn) as (s' & X & Y & Herase & -> & Hh' & Hout).
  rewrite filter_mid by (by apply nodup_mid).
  assert ((if tq_next q =? node then rb_next node (tq_head q) else Ok (tq_next q)) = Ok (ends Lft (X ++ Y))) as ->.
  { rewrite Hnext. destruct X as [|x X]; cbn.
    - rewrite Z.eqb_refl. exact (holds_step (tq_head q) Rgt [] node Y Hh).
    - rewrite (proj2 (Z.eqb_neq x _)); [done|]. intros ->. apply nodup_mid in Hnd. set_solver. }
  cbn [obind]. change (rb_erase node (tq_head q)) with (rb_erase_augmented dummy_callbacks node (tq_head q)). rewrite Herase. cbn [obind].
  assert (is_Some (nodes s' !! node)) as [n Hnode].
  { apply Hout. destruct Hh as (T & [HT _ _ _ _] & _ & Hin). eapply tree_at_addr; [exact HT|]. rewrite Hin. set_solver. }
  unfold RB_CLEAR_NODE. rewrite (set_pc_ok _ _ _ _ Hnode). cbn [obind]. eexists. split; [done|]. split; [|split; [|done]].
  - eapply holds_frame; [exact Hh'| |done|done]. intros x Hx. cbn. rewrite lookup_insert_ne; [done|]. intros ->. apply nodup_mid in Hnd. done.
  - by eapply sorted_remove.
Qed.

(** ** Any sequence of operations *)

(** Setting the time of a timer, adding and removing one. *)
Inductive tq_op := TqSet (node e : Z) | TqAdd (node : Z) | TqDel (node : Z).

(** What callers may do when [xs] are queued. *)
Definition tq_permitted (xs : list Z) (op : tq_op) : bool :=
  match op with
  | TqSet n _ => negb (bool_decide (n ∈ xs))
  | TqAdd n => node_ok n xs
  | TqDel n => bool_decide (n ∈ xs)
  end.

(** The code on the queue, and what it should do to the sequence of timers. *)
Definition tq_do (op : tq_op) (expires : Z -> Z) (q : timerqueue_head) : outcome (timerqueue_head * (Z -> Z)) :=
  match op with
  | TqSet n e => Ok (q, <[n := e]> expires)
  | TqAdd n => let! q := timerqueue_add expires n q in Ok (q, expires)
  | TqDel n => let! q := timerqueue_del n q in Ok (q, expires)
  end.

Definition tq_spec (op : tq_op) (expires : Z -> Z) (xs : list Z) : list Z :=
  match op with
  | TqSet _ _ => xs
  | TqAdd n => sorted_insert expires n xs
  | TqDel n => filter (fun x => x <> n) xs
  end.

Fixpoint tq_run (ops : list tq_op) (expires : Z -> Z) (q : timerqueue_head) (xs : list Z)
    : outcome (timerqueue_head * (Z -> Z) * list Z) :=
  match ops with
  | [] => Ok (q, expires, xs)
  | op :: ops =>
      if tq_permitted xs op then let! (q, e) := tq_do op expires q in tq_run ops e q (tq_spec op expires xs)
      else tq_run ops expires q xs
  end.

Lemma holds_addrs {A} (av : A -> Z -> list Z -> Prop) s xs : holds av s xs -> addrs xs.
Proof. intros (T & [HT _ _ _ _] & _ & <-). by eapply tree_addrs. Qed.

Lemma sorted_by_ext f g xs : (forall x, x ∈ xs -> f x = g x) -> sorted_by f xs -> sorted_by g xs.
Proof.
  induction xs as [|x xs IH]; intros Hfg Hs; [constructor|]. inversion Hs as [|? ? Hs' Hf]; subst. constructor.
  - apply IH; [|done]. intros y Hy. apply Hfg. set_solver.
  - rewrite Forall_forall in *. intros y Hy. rewrite <- !Hfg by set_solver. by apply Hf.
Qed.

Lemma tq_do_ok op expires q xs :
  queue_ok expires q xs -> tq_permitted xs op = true ->
  exists q' e', tq_do op expires q = Ok (q', e') /\ queue_ok e' q' (tq_spec op expires xs).
Proof.
  intros Hq. destruct op as [n e|n|n]; cbn [tq_permitted tq_do tq_spec].
  - intros Hn%negb_true_iff%bool_decide_eq_false. exists q, (<[n := e]> expires). split; [done|].
    destruct Hq as (Hh & Hs & Hnext). split; [done|]. split; [|done]. eapply sorted_by_ext; [|exact Hs].
    intros x Hx. rewrite fn_lookup_insert_ne; [done|]. by intros ->.
  - rewrite node_ok_iff. intros [Ha Hn]. destruct (add_ok expires q n xs Hq Ha Hn) as (q' & -> & Hq'); [by eapply holds_addrs, Hq|].
    by exists q', expires.
  - intros Hn%bool_decide_eq_true. destruct (del_ok expires q n xs Hq Hn) as (q' & -> & Hq'). by exists q', expires.
Qed.

Lemma tq_run_ok ops : forall expires q xs,
  queue_ok expires q xs -> exists q' e xs', tq_run ops expires q xs = Ok (q', e, xs') /\ queue_ok e q' xs'.
Proof.
  induction ops as [|op ops IH]; intros expires q xs Hq; cbn [tq_run]; [by exists q, expires, xs|].
  destruct (tq_permitted xs op) eqn:Hp; [|by apply IH]. destruct (tq_do_ok op expires q xs Hq Hp) as (q' & e' & -> & Hq'). by apply IH.
Qed.

Lemma empty_queue_ok expires m : queue_ok expires (timerqueue_init_head m) [].
Proof.
  split; [|split; [constructor|done]]. exists Leaf. split; [by split; cbn; first [done|constructor]|]. split; [by exists 0%nat; constructor|done].
Qed.

(** C12. The queue of timers is a stable priority queue: after any sequence
    of settings of times of timers that are not queued, additions and removals,
    none of which touches anything but its nodes, it holds the timers in the
    order of their times, those of the same time in the order they were added;
    [timerqueue_getnext] is the first of them, which no other timer precedes,
    and [timerqueue_iterate_next] goes through the rest in order. *)
Theorem timerqueue_refines ops m expires :
  exists q e xs, tq_run ops expires (timerqueue_init_head m) [] = Ok (q, e, xs)
    /\ holds no_data (tq_head q) xs /\ sorted_by e xs /\ timerqueue_getnext q = ends Lft xs
    /\ (forall n, n ∈ xs -> e (timerqueue_getnext q) <= e n)
    /\ (forall X n Y, xs = X ++ n :: Y -> timerqueue_iterate_next n q = Ok (ends Lft Y)).
Proof.
  destruct (tq_run_ok ops expires _ [] (empty_queue_ok expires m)) as (q & e & xs & Heq & Hh & Hs & Hnext).
  exists q, e, xs. split_and!; try done.
  - intros n Hn. unfold timerqueue_getnext. rewrite Hnext. destruct xs as [|x xs]; [by apply not_elem_of_nil in Hn|]. cbn.
    apply elem_of_cons in Hn as [->|Hn]; [lia|]. inversion Hs as [|? ? _ Hf]; subst. rewrite Forall_forall in Hf. by apply Hf.
  - intros X n Y ->. unfold timerqueue_iterate_next.
    rewrite (proj2 (Z.eqb_neq _ _)) by (apply addr_not_null, (holds_addrs no_data (tq_head q) _ Hh); set_solver).
    exact (holds_step (tq_head q) Rgt X n Y Hh).
Qed.
