(* ===== verification/IntervalTree.v ===== *)
(** * Interval trees (lib/interval_tree.c, include/linux/interval_tree_generic.h)

    Intervals in an augmented red-black tree, by their start; every node knows
    the greatest end in its subtree.  A [struct interval_tree_node] starts with
    its [rb_node], so that both have one address; [__subtree_last] is the
    augmented data. *)

From stdpp Require Import gmap functions sorting.
From S2P Require Import Prelude RbTree RbTreeRep RbTreeInsert RbTreeUnlink RbTreeWalk RbTreeProps.

Section Model.
Context (START LAST : Z -> Z).

Definition interval_tree_compute_subtree_last (node : Z) (m : rb_nodes) (subtree_last : Z -> Z) : Z :=
  match m !! node with
  | None => 0
  | Some n =>
      let larger q max := if q =? RB_NULL then max else if max <? subtree_last q then subtree_last q else max in
      larger (rb_right n) (larger (rb_left n) (LAST node))
  end.

Definition interval_tree_augment : rb_augment_callbacks (Z -> Z) := declared_callbacks interval_tree_compute_subtree_last.

Definition set_subtree_last (p v : Z) (s : rb_state (Z -> Z)) : rb_state (Z -> Z) :=
  RbState (nodes s) (rb_root s) (<[p := v]> (aug s)).

(** [while ( *link) ...] *)
Fixpoint interval_tree_place (fuel : nat) (node parent : Z) (link : rb_link) (s : rb_state (Z -> Z))
    : outcome (Z * rb_link * rb_state (Z -> Z)) :=
  match fuel with
  | O => NoFuel
  | S fuel =>
      let! cur := link_target link s in
      if cur =? RB_NULL then Ok (parent, link, s)
      else
        let s := if aug s cur <? LAST node then set_subtree_last cur (LAST node) s else s in
        interval_tree_place fuel node cur (ChildLink (if START node <? START cur then Lft else Rgt) cur) s
  end.

Definition interval_tree_insert (node : Z) (s : rb_state (Z -> Z)) : outcome (rb_state (Z -> Z)) :=
  let! (parent, link, s) := interval_tree_place (rb_fuel s) node RB_NULL RootLink s in
  let s := set_subtree_last node (LAST node) s in
  let! s := rb_link_node node parent link s in
  rb_insert_augmented node interval_tree_augment s.

Definition interval_tree_remove (node : Z) (s : rb_state (Z -> Z)) : outcome (rb_state (Z -> Z)) :=
  rb_erase_augmented interval_tree_augment node s.

Fixpoint interval_tree_subtree_search (fuel : nat) (node start last : Z) (s : rb_state (Z -> Z)) : outcome Z :=
  match fuel with
  | O => NoFuel
  | S fuel =>
      let! n := load s node in
      if negb (rb_left n =? RB_NULL) && (start <=? aug s (rb_left n))
      then interval_tree_subtree_search fuel (rb_left n) start last s
      else if START node <=? last then
        if start <=? LAST node then Ok node
        else if negb (rb_right n =? RB_NULL) && (start <=? aug s (rb_right n))
        then interval_tree_subtree_search fuel (rb_right n) start last s
        else Ok RB_NULL
      else Ok RB_NULL
  end.

Definition interval_tree_iter_first (start last : Z) (s : rb_state (Z -> Z)) : outcome Z :=
  if rb_root s =? RB_NULL then Ok RB_NULL
  else if aug s (rb_root s) <? start then Ok RB_NULL
  else interval_tree_subtree_search (rb_fuel s) (rb_root s) start last s.

(** [do { ... } while (prev == rb)]: up to a node reached from its left side,
    and the right child of it. *)
Fixpoint interval_tree_climb (fuel : nat) (node : Z) (s : rb_state (Z -> Z)) : outcome (option (Z * Z)) :=
  match fuel with
  | O => NoFuel
  | S fuel =>
      let! parent := rb_parent s node in
      if parent =? RB_NULL then Ok None
      else
        let! rb := get_child Rgt s parent in
        if node =? rb then interval_tree_climb fuel parent s else Ok (Some (parent, rb))
  end.

Fixpoint interval_tree_iter_loop (fuel : nat) (node rb start last : Z) (s : rb_state (Z -> Z)) : outcome Z :=
  match fuel with
  | O => NoFuel
  | S fuel =>
      if negb (rb =? RB_NULL) && (start <=? aug s rb) then interval_tree_subtree_search (rb_fuel s) rb start last s
      else
        let! next := interval_tree_climb (rb_fuel s) node s in
        match next with
        | None => Ok RB_NULL
        | Some (node, rb) =>
            if last <? START node then Ok RB_NULL
            else if start <=? LAST node then Ok node
            else interval_tree_iter_loop fuel node rb start last s
        end
  end.

Definition interval_tree_iter_next (node start last : Z) (s : rb_state (Z -> Z)) : outcome Z :=
  let! rb := get_child Rgt s node in
  interval_tree_iter_loop (rb_fuel s) node rb start last s.

(** ** The greatest end of a list of intervals *)

Fixpoint greatest (L : list Z) : Z := match L with [] => 0 | q :: L => Z.max (LAST q) (greatest L) end.

Lemma greatest_app L R : greatest (L ++ R) = Z.max (greatest L) (greatest R).
Proof using Type.
  assert (forall l, 0 <= greatest l) as H0 by (intros l; induction l; cbn; lia).
  induction L as [|x L IH]; cbn; [pose proof (H0 R)|]; lia.
Qed.

Lemma greatest_perm L R : L ≡ₚ R -> greatest L = greatest R.
Proof using Type. induction 1; cbn; lia. Qed.

Lemma greatest_lt L a : greatest L < a -> forall q, q ∈ L -> LAST q < a.
Proof using Type. induction L as [|x L IH]; cbn; [by intros _ ? ?%not_elem_of_nil|]. intros Ha q [->|Hq]%elem_of_cons; [lia|]. apply IH; [lia|done]. Qed.

Lemma greatest_ge L a : L <> [] -> (forall q, q ∈ L -> 0 <= LAST q) -> a <= greatest L -> exists q, q ∈ L /\ a <= LAST q.
Proof using Type.
  clear START. induction L as [|x L IH]; [done|]. intros _ H0 Ha. cbn in Ha. destruct (decide (a <= LAST x)) as [|Hn]; [exists x; set_solver|].
  destruct L as [|y L]; [cbn in Ha; specialize (H0 x ltac:(set_solver)); lia|].
  destruct IH as (q & Hq & Hl); [done|intros; apply H0; set_solver|lia|]. exists q. set_solver.
Qed.

Abbreviation data := (summed greatest).

Lemma compute_greatest p m a n L R :
  0 <= LAST p -> m !! p = Some n -> child_data greatest a (rb_left n) L -> child_data greatest a (rb_right n) R ->
  interval_tree_compute_subtree_last p m a = greatest (L ++ p :: R).
Proof using Type.
  intros H0 Hn HL HR. unfold interval_tree_compute_subtree_last. rewrite Hn, greatest_app. cbn.
  assert (forall q M x, child_data greatest a q M -> 0 <= x -> (if q =? RB_NULL then x else if x <? a q then a q else x) = Z.max x (greatest M)) as Hstep.
  { intros q M x [[-> ->]|(Hq & _ & ->)] Hx; cbn; [lia|]. rewrite (proj2 (Z.eqb_neq _ _)) by done. destruct (x <? greatest M) eqn:?; zbool; lia. }
  rewrite (Hstep (rb_left n) L), (Hstep (rb_right n) R) by (done || lia). lia.
Qed.

Section Valid.
Hypothesis LAST_unsigned : forall p, 0 <= LAST p.

#[local] Instance interval_augment : RbAugment interval_tree_augment data.
Proof using LAST_unsigned. apply declared_augment. intros. by eapply compute_greatest. Qed.

(** ** Searching *)

Definition intersects (start last q : Z) : bool := (START q <=? last) && (start <=? LAST q).

(** The first interval of the list that intersects [start; last]. *)
Definition first_match (start last : Z) (L : list Z) : Z := ends Lft (filter (fun q => intersects start last q = true) L).


Abbreviation matches a b L := (filter (fun q => intersects a b q = true) L).

Lemma no_match a b L : (forall q, q ∈ L -> b < START q \/ LAST q < a) -> matches a b L = [].
Proof using Type.
  clear LAST_unsigned. intros Hq. induction L as [|x L IH]; [done|]. rewrite filter_cons_False; [apply IH; intros; apply Hq; set_solver|].
  unfold intersects. specialize (Hq x ltac:(set_solver)). rewrite andb_true_iff. intros [??]. zbool. lia.
Qed.

(** Nothing behind a list that has far enough an end and no match, can match. *)
Lemma no_match_behind a b X Y :
  sorted_by START (X ++ Y) -> X <> [] -> a <= greatest X -> matches a b X = [] -> matches a b Y = [].
Proof using LAST_unsigned.
  intros Hs Hne Hg Hm. destruct (greatest_ge X a Hne) as (x & Hx & Ha); [done|done|]. apply no_match. intros q Hq. left.
  pose proof (sorted_app_le START _ _ _ _ Hs Hx Hq) as Hle.
  assert (b < START x); [|lia]. destruct (decide (START x <= b)) as [Hb|]; [|lia].
  assert (x ∈ matches a b X) as Hin by (apply list_elem_of_filter; unfold intersects; split; [lia|done]). rewrite Hm in Hin. by apply not_elem_of_nil in Hin.
Qed.

Lemma first_match_far a b X Y :
  sorted_by START (X ++ Y) -> X <> [] -> a <= greatest X -> first_match a b (X ++ Y) = first_match a b X.
Proof using LAST_unsigned.
  intros Hs Hne Hg. unfold first_match. rewrite filter_app. destruct (matches a b X) eqn:Hm; [|done].
  by rewrite (no_match_behind a b X Y Hs Hne Hg Hm).
Qed.

Lemma first_match_near a b X Y : greatest X < a -> first_match a b (X ++ Y) = first_match a b Y.
Proof using Type.
  clear LAST_unsigned. intros Hg. unfold first_match. rewrite filter_app, no_match; [done|]. intros q Hq. right. by eapply greatest_lt.
Qed.

Lemma first_match_cons a b p Y :
  sorted_by START (p :: Y) ->
  first_match a b (p :: Y) = if START p <=? b then if a <=? LAST p then p else first_match a b Y else RB_NULL.
Proof using Type.
  clear LAST_unsigned. intros Hs. unfold first_match. destruct (START p <=? b) eqn:Hb; zbool.
  - destruct (a <=? LAST p) eqn:Ha; zbool.
    + rewrite filter_cons_True; [done|]. unfold intersects. lia.
    + rewrite filter_cons_False; [done|]. unfold intersects. lia.
  - rewrite no_match; [done|]. inversion Hs as [|? ? _ Hf]; subst. rewrite Forall_forall in Hf.
    intros q [->|Hq]%elem_of_cons; [lia|]. specialize (Hf q Hq). lia.
Qed.

Lemma inorder_not_nil t : t <> Leaf -> inorder t <> [].
Proof using Type. destruct t; [done|]. intros _. cbn. by destruct (inorder t1). Qed.

Lemma subtree_search_ok s a b t : forall parent fuel,
  tree_at (nodes s) parent t -> t <> Leaf -> aug_tree data (aug s) t -> sorted_by START (inorder t) -> (length (inorder t) <= fuel)%nat ->
  interval_tree_subtree_search fuel (ptr t) a b s = Ok (first_match a b (inorder t)).
Proof using LAST_unsigned.
  induction t as [|c l IHl p r IHr]; intros parent fuel Ht Hne Ha Hs Hf; [done|].
  cbn [inorder] in *. rewrite length_app in Hf. cbn in Hf. destruct fuel as [|fuel]; [lia|].
  destruct Ht as (Hp & Hap & Hl & Hr). destruct Ha as (_ & Hal & Har). cbn [interval_tree_subtree_search ptr].
  rewrite (load_node _ _ _ Hp). cbn [obind rb_left rb_right].
  pose proof (StronglySorted_app_1_l _ _ _ Hs) as Hsl. pose proof (StronglySorted_app_1_r _ _ _ Hs) as Hspr.
  assert (sorted_by START (inorder r)) as Hsr by (by inversion Hspr).
  assert (forall t, tree_at (nodes s) p t -> aug_tree data (aug s) t ->
    negb (ptr t =? RB_NULL) && (a <=? aug s (ptr t)) = bool_decide (t <> Leaf) && (a <=? greatest (inorder t))) as Htest.
  { intros t Ht Ha. destruct t as [|c1 l1 p1 r1]; [done|]. cbn [ptr]. destruct Ht as (_ & Hap1 & _).
    rewrite (proj2 (Z.eqb_neq _ _)), bool_decide_true by (done || by apply addr_not_null). destruct Ha as (-> & _). done. }
  assert (forall L, (a <=? greatest L) = false -> greatest L < a) as Hlt by (intros L H; zbool; lia).
  rewrite !Htest by done. destruct (bool_decide (l <> Leaf) && (a <=? greatest (inorder l))) eqn:Etl.
  - apply andb_true_iff in Etl as [Hnl%bool_decide_eq_true Hgl]. zbool. rewrite (IHl p) by (done || lia).
    rewrite first_match_far; [done|done|by apply inorder_not_nil|lia].
  - assert (first_match a b (inorder l ++ p :: inorder r) = first_match a b (p :: inorder r)) as ->.
    { destruct (decide (l = Leaf)) as [->|Hnl]; [done|]. rewrite bool_decide_true in Etl by done. by apply first_match_near, Hlt. }
    rewrite first_match_cons by done. destruct (START p <=? b); [|done]. destruct (a <=? LAST p); [done|].
    destruct (decide (r = Leaf)) as [->|Hnr]; [done|]. rewrite bool_decide_true by done. cbn [andb].
    destruct (a <=? greatest (inorder r)) eqn:Egr; [by apply (IHr p); try done; lia|].
    rewrite <- (app_nil_r (inorder r)), first_match_near by (by apply Hlt). done.
Qed.

Lemma iter_first_ok s a b xs :
  holds data s xs -> sorted_by START xs -> interval_tree_iter_first a b s = Ok (first_match a b xs).
Proof using LAST_unsigned.
  intros (T & Hr & _ & <-) Hs. unfold interval_tree_iter_first. pose proof Hr as [Ht Hroot _ Ha _]. cbn in Hroot. rewrite Hroot.
  destruct (decide (T = Leaf)) as [->|Hne]; [done|]. rewrite (proj2 (Z.eqb_neq _ _)) by (by eapply ptr_not_null).
  assert (aug s (ptr T) = greatest (inorder T)) as Hg by (destruct T; [done|]; apply Ha).
  rewrite Hg. destruct (greatest (inorder T) <? a) eqn:E; zbool.
  - rewrite <- (app_nil_r (inorder T)), first_match_near by done. done.
  - eapply subtree_search_ok; try done. apply repr_size in Hr. rewrite app_nil_r in Hr. unfold rb_fuel. lia.
Qed.

(** ** Going on *)

Lemma shape_parent {A} (s : rb_state A) K t : shape s K t -> t <> Leaf -> rb_parent s (ptr t) = Ok (up K).
Proof using Type.
  intros [Ht HK _] Hne. destruct t as [|c l p r]; [done|]. destruct Ht as (Hp & _). unfold rb_parent. cbn [ptr]. rewrite (load_node _ _ _ Hp).
  cbn [obind __rb_parent_color]. rewrite word_parent by (eapply ptr_aligned, up_addr, HK). done.
Qed.

Lemma climb_ok s K : forall t fuel,
  shape s K t -> t <> Leaf -> (length K < fuel)%nat ->
  exists next, interval_tree_climb fuel (ptr t) s = Ok next
    /\ match next with
       | None => after K = []
       | Some (g, rb) => exists c l u K', shape s K' (Node c l g u) /\ plug K' (Node c l g u) = plug K t /\ rb = ptr u
           /\ after K = g :: inorder u ++ after K' /\ (length K' < length K)%nat
       end.
Proof using Type.
  clear LAST_unsigned. induction K as [|[d c g u] K IH]; intros t fuel Hsh Hne Hf; (destruct fuel as [|fuel]; [cbn in Hf; lia|]);
    cbn [interval_tree_climb]; rewrite (shape_parent _ _ _ Hsh Hne); cbn [obind up f_node]; [by exists None|].
  pose proof Hsh as [Ht (Hg & Hag & Hu & _) Hnd]. rewrite (proj2 (Z.eqb_neq _ _)) by (by apply addr_not_null).
  rewrite (get_child_ok _ _ _ _ Hg). cbn [obind]. assert (shape s K (fill (Frame d c g u) t)) as Hsh' by (apply shape_plug; by apply shape_plug in Hsh).
  unfold fill in Hsh'. cbn in Hsh'. destruct d; cbn [mkn child rb_right mk] in *.
  - rewrite (proj2 (Z.eqb_neq _ _)).
    + exists (Some (g, ptr u)). split; [done|]. exists c, t, u, K. split_and!; try done. cbn. lia.
    + intros He. apply NoDup_app in Hnd as (_ & Hnd & _). assert (ptr t <> RB_NULL) as Hz by (by eapply ptr_not_null).
      apply (Hnd (ptr t)); [by apply ptr_in|]. cbn. right. apply elem_of_app. left. rewrite He. apply ptr_in. by rewrite <- He.
  - rewrite Z.eqb_refl. change g with (ptr (Node c u g t)).
    destruct (IH (Node c u g t) fuel Hsh') as (next & -> & Hnext); [done|cbn in Hf; lia|]. exists next. split; [done|].
    destruct next as [[g' rb]|]; [|done]. destruct Hnext as (c' & l' & u' & K' & H1 & H2 & H3 & H4 & H5).
    exists c', l', u', K'. split_and!; try done. cbn. lia.
Qed.

Lemma iter_loop_ok s a b T fuel : forall K c l p r,
  repr data s [] T -> sorted_by START (inorder T) -> T = plug K (Node c l p r) -> (length K < fuel)%nat ->
  interval_tree_iter_loop fuel p (ptr r) a b s = Ok (first_match a b (inorder r ++ after K)).
Proof using LAST_unsigned.
  induction fuel as [|fuel IH]; intros K c l p r HT Hs -> Hf; [lia|]. cbn [interval_tree_iter_loop].
  pose proof HT as Hr. apply repr_plug in Hr. pose proof (repr_size _ _ _ Hr) as Hz. pose proof (length_ctx K) as Hlen.
  cbn in Hz. rewrite !length_app in Hz. cbn in Hz. pose proof Hr as [(Hp & Hap & Hl & Htr) HK Hnd (_ & Hal & Har) HaK].
  assert (sorted_by START (inorder r ++ after K)) as Hsr.
  { rewrite inorder_plug in Hs. cbn in Hs. apply StronglySorted_app_1_r in Hs. rewrite <- app_assoc in Hs.
    apply StronglySorted_app_1_r in Hs. by inversion Hs. }
  destruct (negb (ptr r =? RB_NULL) && (a <=? aug s (ptr r))) eqn:Etest.
  - apply andb_true_iff in Etest as [Hn Hg]. apply negb_true_iff in Hn. zbool.
    assert (r <> Leaf) as Hne by (by intros ->). assert (aug s (ptr r) = greatest (inorder r)) as Hgr by (destruct r; [done|]; apply Har).
    rewrite Hgr in Hg. rewrite first_match_far; [|done|by apply inorder_not_nil|done].
    eapply subtree_search_ok; try done; [by eapply StronglySorted_app_1_l|]. unfold rb_fuel. lia.
  - assert (first_match a b (inorder r ++ after K) = first_match a b (after K)) as ->.
    { destruct (decide (r = Leaf)) as [->|Hne]; [done|]. rewrite (proj2 (Z.eqb_neq _ _)) in Etest by (by eapply ptr_not_null).
      cbn in Etest. assert (aug s (ptr r) = greatest (inorder r)) as Hgr by (destruct r; [done|]; apply Har). zbool.
      apply first_match_near. lia. }
    destruct (climb_ok s K (Node c l p r) (rb_fuel s)) as (next & Heq & Hnext); [by apply repr_shape in Hr|done|unfold rb_fuel; lia|].
    cbn [ptr] in Heq. rewrite Heq. cbn [obind]. destruct next as [[g rb]|]; [|by rewrite Hnext].
    destruct Hnext as (c' & l' & u & K' & _ & Hplug & -> & Hafter & HlenK). rewrite Hafter.
    apply StronglySorted_app_1_r in Hsr. rewrite Hafter in Hsr. rewrite first_match_cons by done.
    destruct (b <? START g) eqn:Eb; zbool; [by rewrite (proj2 (Z.leb_gt _ _)) by lia|]. rewrite (proj2 (Z.leb_le (START g) _)) by lia.
    destruct (a <=? LAST g); [done|]. apply (IH K' c' l' g u); [done|done|by rewrite Hplug|lia].
Qed.

Lemma iter_next_ok s a b X p Y :
  holds data s (X ++ p :: Y) -> sorted_by START (X ++ p :: Y) -> interval_tree_iter_next p a b s = Ok (first_match a b Y).
Proof using LAST_unsigned.
  intros Hh Hs. pose proof (holds_nodup _ _ Hh) as Hnd. destruct Hh as (T & Hr & _ & Hin).
  destruct (find_place T p) as (K & c & l & r & HT); [rewrite Hin; set_solver|]. rewrite <- Hin in Hs.
  pose proof Hr as Hr'. rewrite HT in Hr'. apply repr_plug in Hr'. pose proof (repr_size _ _ _ Hr') as Hz. pose proof (length_ctx K) as Hlen.
  rewrite !length_app in Hz. destruct Hr' as [(Hp & _) _ _ _ _]. unfold interval_tree_iter_next. rewrite (get_child_ok _ _ _ _ Hp).
  cbn [obind child rb_right]. rewrite (iter_loop_ok s a b T _ K c l p r Hr Hs HT) by (unfold rb_fuel; lia).
  rewrite HT, inorder_plug in Hin. cbn in Hin.
  replace (before K ++ (inorder l ++ p :: inorder r) ++ after K) with ((before K ++ inorder l) ++ p :: (inorder r ++ after K)) in Hin by app_eq.
  destruct (split_unique _ _ _ _ _ Hnd (eq_sym Hin)) as [_ ->]. done.
Qed.

(** ** Inserting and removing *)

Lemma aug_ctx_data_perm a K : forall L L', L ≡ₚ L' -> aug_ctx data a K L -> aug_ctx data a K L'.
Proof using Type.
  clear LAST_unsigned. induction K as [|[d c p u] K IH]; intros L L' HL; cbn; [done|]. intros (Hp & Hu & HK).
  assert (dord d L p (inorder u) ≡ₚ dord d L' p (inorder u)) as Hd by (destruct d; cbn; by rewrite HL).
  split; [|split; [done|by eapply IH]]. unfold summed in *. by rewrite <- (greatest_perm _ _ Hd).
Qed.

Lemma raise_data (a : Z -> Z) p v L n :
  a p = greatest L -> v = LAST n -> (if a p <? v then <[p := v]> a else a) p = greatest (n :: L).
Proof using Type.
  intros Hp ->. cbn. destruct (a p <? LAST n) eqn:E; zbool; [rewrite fn_insert_same|]; lia.
Qed.

Lemma interval_place_ok node t : forall K fuel s,
  shape s K t -> aug_tree data (aug s) t -> aug_ctx data (aug s) K (node :: inorder t) -> sorted_by START (inorder (plug K t)) ->
  between START node K -> (length (inorder t) < fuel)%nat ->
  exists K' s', interval_tree_place fuel node (up K) (link_of K) s = Ok (up K', link_of K', s')
    /\ nodes s' = nodes s /\ rb_root s' = rb_root s /\ plug K' Leaf = plug K t /\ between START node K'
    /\ aug_ctx data (aug s') K' [node].
Proof using Type.
  clear LAST_unsigned.
  induction t as [|c l IHl p r IHr]; intros K fuel s Hsh Ha HaK Hs Hb Hf; (destruct fuel as [|fuel]; [cbn in Hf; lia|]); cbn [interval_tree_place];
    rewrite (link_target_place _ _ _ Hsh); cbn [obind ptr]; [by exists K, s|].
  pose proof Hsh as [(_ & Hap & _) _ Hnd]. rewrite (proj2 (Z.eqb_neq _ _)) by (by apply addr_not_null).
  cbn [inorder] in *. rewrite length_app in Hf. cbn in Hf. destruct Ha as (Hp & Hal & Har).
  set (s1 := if aug s p <? LAST node then set_subtree_last p (LAST node) s else s).
  assert (nodes s1 = nodes s /\ rb_root s1 = rb_root s) as [Hn1 Hr1] by (unfold s1; by destruct (aug s p <? LAST node)).
  assert (aug s1 p = greatest (node :: inorder l ++ p :: inorder r)) as Hp1.
  { rewrite <- (raise_data (aug s) p (LAST node) _ node Hp eq_refl). unfold s1. by destruct (aug s p <? LAST node). }
  assert (keeps data [p] (aug s) (aug s1)) as Hk.
  { unfold s1. destruct (aug s p <? LAST node); [apply keeps_insert|by intros ???]. }
  pose proof Hnd as Hnd'. split_nodup Hnd'.
  assert (aug_tree data (aug s1) l) as Hal1 by (eapply aug_tree_keeps; [exact Hk| |exact Hal]; intros q Hq; nd).
  assert (aug_tree data (aug s1) r) as Har1 by (eapply aug_tree_keeps; [exact Hk| |exact Har]; intros q Hq; nd).
  assert (aug_ctx data (aug s1) K (node :: inorder l ++ p :: inorder r)) as HaK1 by (eapply aug_ctx_keeps; [exact Hk| |exact HaK]; intros q Hq; nd).
  assert (shape s1 K (Node c l p r)) as Hsh1 by (destruct Hsh; split; by rewrite ?Hn1, ?Hr1).
  destruct (START node <? START p) eqn:Ek; zbool.
  - destruct (IHl (Frame Lft c p r :: K) fuel s1) as (K' & s' & H1 & H2 & H3 & H4 & H5 & H6); try done;
      [apply shape_plug; by apply shape_plug in Hsh1|by eapply between_left|lia|exists K', s'; split_and!; try done; congruence].
  - destruct (IHr (Frame Rgt c p l :: K) fuel s1) as (K' & s' & H1 & H2 & H3 & H4 & H5 & H6); try done;
      [apply shape_plug; by apply shape_plug in Hsh1| |by eapply between_right|lia|exists K', s'; split_and!; try done; congruence].
    cbn. assert (node :: inorder l ++ p :: inorder r ≡ₚ inorder l ++ p :: node :: inorder r) as Hperm by solve_Permutation.
    split; [unfold summed; by rewrite <- (greatest_perm _ _ Hperm)|]. split; [done|]. by eapply aug_ctx_data_perm.
Qed.

Lemma insert_interval_ok s node xs :
  holds data s xs -> sorted_by START xs -> node_addr node -> (node ∉ xs) ->
  exists s', interval_tree_insert node s = Ok s' /\ holds data s' (sorted_insert START node xs) /\ sorted_by START (sorted_insert START node xs).
Proof using LAST_unsigned.
  intros (T & Hr & Hb & <-) Hs Ha Hn. pose proof Hr as [_ _ _ Hat _]. apply repr_shape in Hr as Hsh. unfold interval_tree_insert.
  destruct (interval_place_ok node T [] (rb_fuel s) s Hsh Hat) as (K & s1 & Heq & Hn1 & Hr1 & HT & Hbet & HaK); try done.
  { by split; intros ? ?%not_elem_of_nil. } { apply repr_size in Hr. rewrite app_nil_r in Hr. unfold rb_fuel. lia. }
  cbn [up link_of] in Heq. rewrite Heq. cbn [obind]. cbn in HT. subst T. set (s2 := set_subtree_last node (LAST node) s1).
  destruct (insert_holds (cb := interval_tree_augment) (av := data) s2 K node) as (s3 & s' & -> & H2 & H3 & _); try done.
  - destruct Hsh; split; cbn; by rewrite ?Hn1, ?Hr1.
  - unfold summed, s2. cbn. rewrite fn_insert_same. pose proof (LAST_unsigned node). lia.
  - eapply (aug_ctx_keeps data [node]); [apply keeps_insert| |exact HaK]. intros q Hq ->%list_elem_of_singleton. apply Hn.
    rewrite <- whole_perm. exact Hq.
  - cbn [obind]. exists s'. split; [exact H2|]. rewrite inorder_plug in *. cbn [inorder app] in *. destruct Hbet as [Hbefore Hafter].
    rewrite (sorted_insert_between START node _ _ Hbefore Hafter). split; [done|by apply sorted_between].
Qed.

Lemma remove_interval_ok s node xs :
  holds data s xs -> sorted_by START xs -> node ∈ xs ->
  exists s', interval_tree_remove node s = Ok s' /\ holds data s' (filter (fun x => x <> node) xs)
    /\ sorted_by START (filter (fun x => x <> node) xs).
Proof using LAST_unsigned.
  intros Hh Hs Hn. pose proof (holds_nodup _ _ Hh) as Hnd.
  destruct (erase_holds (cb := interval_tree_augment) s node xs Hh Hn) as (s' & X & Y & Herase & -> & Hh' & _).
  exists s'. rewrite filter_mid by (by apply nodup_mid). split; [exact Herase|]. split; [done|]. by eapply sorted_remove.
Qed.
End Valid.
End Model.

(** ** Any sequence of operations *)

Lemma greatest_ext f g L : (forall q, q ∈ L -> f q = g q) -> greatest f L = greatest g L.
Proof. induction L as [|x L IH]; intros H; cbn; [done|]. rewrite H, IH by set_solver. done. Qed.

Lemma data_ext f g a t :
  (forall q, q ∈ inorder t -> f q = g q) -> aug_tree (summed (greatest f)) a t -> aug_tree (summed (greatest g)) a t.
Proof.
  induction t as [|c l IHl p r IHr]; cbn; intros Hfg; [done|]. intros (Hp & Hl & Hr).
  split; [unfold summed in *; by rewrite <- (greatest_ext f g)|]. split; [apply IHl|apply IHr]; try done; intros q Hq; apply Hfg; set_solver.
Qed.

Lemma holds_ext f g s xs :
  (forall q, q ∈ xs -> f q = g q) -> holds (summed (greatest f)) s xs -> holds (summed (greatest g)) s xs.
Proof.
  intros Hfg (T & [H1 H2 H3 H4 _] & Hb & <-). exists T. split; [|done]. split; try done. by eapply data_ext.
Qed.

(** Setting the bounds of an interval, inserting and removing one. *)
Inductive it_op := ItSet (node start last : Z) | ItInsert (node : Z) | ItRemove (node : Z).

Record it_state := It { it_tree : rb_state (Z -> Z); it_start : Z -> Z; it_last : Z -> Z; it_nodes : list Z }.

(** What callers may do: bounds are [unsigned long]s, and fixed while the
    interval is in the tree. *)
Definition it_permitted (x : it_state) (op : it_op) : bool :=
  match op with
  | ItSet n start last => negb (bool_decide (n ∈ it_nodes x)) && (0 <=? start) && (start <=? U64_MAX) && (0 <=? last) && (last <=? U64_MAX)
  | ItInsert n => node_ok n (it_nodes x)
  | ItRemove n => bool_decide (n ∈ it_nodes x)
  end.

(** The code on the tree, and what it should do to the sequence of nodes. *)
Definition it_do (op : it_op) (x : it_state) : outcome it_state :=
  match op with
  | ItSet n start last => Ok (It (it_tree x) (<[n := start]> (it_start x)) (<[n := last]> (it_last x)) (it_nodes x))
  | ItInsert n =>
      let! s := interval_tree_insert (it_start x) (it_last x) n (it_tree x) in
      Ok (It s (it_start x) (it_last x) (sorted_insert (it_start x) n (it_nodes x)))
  | ItRemove n =>
      let! s := interval_tree_remove (it_last x) n (it_tree x) in
      Ok (It s (it_start x) (it_last x) (filter (fun y => y <> n) (it_nodes x)))
  end.

Fixpoint it_run (ops : list it_op) (x : it_state) : outcome it_state :=
  match ops with
  | [] => Ok x
  | op :: ops => if it_permitted x op then let! x := it_do op x in it_run ops x else it_run ops x
  end.

Definition it_empty : it_state := It (RbState ∅ RB_NULL (fun _ => 0)) (fun _ => 0) (fun _ => 0) [].

Record it_ok (x : it_state) : Prop := {
  it_holds : holds (summed (greatest (it_last x))) (it_tree x) (it_nodes x);
  it_sorted : sorted_by (it_start x) (it_nodes x);
  it_unsigned : forall p, 0 <= it_last x p;
}.

Lemma it_do_ok op x : it_ok x -> it_permitted x op = true -> exists x', it_do op x = Ok x' /\ it_ok x'.
Proof.
  intros [Hh Hs Hu]. destruct op as [n start last|n|n]; cbn [it_permitted it_do].
  - rewrite !andb_true_iff, negb_true_iff, bool_decide_eq_false. intros [[[[Hn _] _] Hl] _]. zbool. eexists. split; [done|].
    assert (forall (f : Z -> Z) v q, q ∈ it_nodes x -> f q = <[n := v]> f q) as Hext.
    { intros f v q Hq. rewrite fn_lookup_insert_ne; [done|]. by intros ->. }
    split; cbn.
    + eapply holds_ext; [|exact Hh]. intros q Hq. by apply Hext.
    + clear -Hs Hext. unfold sorted_by in *. induction (it_nodes x) as [|y ys IH]; [constructor|]. inversion Hs as [|? ? Hs' Hf]; subst.
      constructor; [apply IH; [done|]; intros; apply Hext; set_solver|]. rewrite Forall_forall in *. intros z Hz.
      rewrite <- !Hext by set_solver. by apply Hf.
    + intros p. destruct (decide (p = n)) as [->|]; [by rewrite fn_lookup_insert|by rewrite fn_lookup_insert_ne].
  - rewrite node_ok_iff. intros [Ha Hn]. destruct (insert_interval_ok (it_start x) (it_last x) Hu (it_tree x) n _ Hh Hs Ha Hn) as (s' & -> & H1 & H2).
    eexists. split; [done|]. by split.
  - intros Hn%bool_decide_eq_true. destruct (remove_interval_ok (it_start x) (it_last x) Hu (it_tree x) n _ Hh Hs Hn) as (s' & -> & H1 & H2).
    eexists. split; [done|]. by split.
Qed.

Lemma it_run_ok ops : forall x, it_ok x -> exists x', it_run ops x = Ok x' /\ it_ok x'.
Proof.
  induction ops as [|op ops IH]; intros x Hx; cbn [it_run]; [by exists x|].
  destruct (it_permitted x op) eqn:Hp; [|by apply IH]. destruct (it_do_ok op x Hx Hp) as (x' & -> & Hx'). by apply IH.
Qed.

Lemma it_empty_ok : it_ok it_empty.
Proof.
  split; cbn; [|constructor|lia]. exists Leaf. split; [by split; cbn; first [done|constructor]|]. split; [by exists 0%nat; constructor|done].
Qed.

(** C13. Interval trees find what intersects: after any sequence of
    insertions, removals and changes of bounds of intervals that are not in the
    tree, the tree is balanced, holds the intervals in the order of their
    starts, and in every node the greatest end below it; the first interval
    that [interval_tree_iter_first] finds for a range, and the next one that
    [interval_tree_iter_next] finds from a node of the tree, are the first ones
    in this order, from the beginning or behind the node, that intersect the
    range, and NULL if there are none. *)
Theorem interval_tree_correct ops :
  exists x, it_run ops it_empty = Ok x
    /\ holds (summed (greatest (it_last x))) (it_tree x) (it_nodes x) /\ sorted_by (it_start x) (it_nodes x)
    /\ forall start last,
      interval_tree_iter_first (it_start x) (it_last x) start last (it_tree x)
        = Ok (ends Lft (filter (fun q => intersects (it_start x) (it_last x) start last q = true) (it_nodes x)))
      /\ forall X p Y, it_nodes x = X ++ p :: Y ->
        interval_tree_iter_next (it_start x) (it_last x) p start last (it_tree x)
          = Ok (ends Lft (filter (fun q => intersects (it_start x) (it_last x) start last q = true) Y)).
Proof.
  destruct (it_run_ok ops it_empty it_empty_ok) as (x & Heq & [Hh Hs Hu]). exists x. split_and!; try done. intros a b. split.
  - by apply iter_first_ok.
  - intros X p Y Hxs. rewrite Hxs in Hh, Hs. by apply (iter_next_ok (it_start x) (it_last x) Hu (it_tree x) a b X p Y).
Qed.
