(* ===== verification/Crc.v ===== *)
(** * Checksums: lib/crc32.c and the shorter CRCs of lib

    CRC-32 and CRC-32C by eight bytes at a time with tables
    (lib/crc32.c, lib/gen_crc32table.c, lib/crc32defs.h), in the variant
    [CRC_LE_BITS = CRC_BE_BITS = 64] that a 64-bit little-endian machine
    gets by default; the bit-at-a-time variant of the same functions; the
    appending of zero bytes in logarithmic time and the combination of two
    checksums (include/linux/crc32.h); the reversal of bits (lib/bitrev.c);
    CRC-16, CRC-CCITT, CRC-ITU-T, CRC-7 and CRC-8 with their tables.

    A buffer is a range of addresses of a memory of bytes.  A read of a byte
    that is not there, of a word at an address that is not a multiple of
    four, or of an element outside an array is [Bug]. *)

From stdpp Require Import base gmap list.
From S2P Require Import Prelude.

Declare Scope crc_scope.
Delimit Scope crc_scope with crc.
Infix "⊕" := Z.lxor (at level 50, left associativity) : crc_scope.
Infix ">>" := Z.shiftr (at level 35, right associativity) : crc_scope.
Infix "<<" := Z.shiftl (at level 35, right associativity) : crc_scope.
Infix "&" := Z.land (at level 40, left associativity) : crc_scope.
Infix "∣∣" := Z.lor (at level 50, left associativity) : crc_scope.
#[local] Open Scope crc_scope.

(** ** Memory and arrays *)

Definition memory : Type := gmap Z Z.

Definition load8 (mem : memory) (a : Z) : outcome Z :=
  match mem !! a with Some b => Ok b | None => Bug end.

(** An aligned load of a word on a little-endian machine. *)
Definition load32 (mem : memory) (a : Z) : outcome Z :=
  bug_on negb (a & 3 =? 0) in
  let! b0 := load8 mem a in
  let! b1 := load8 mem (a + 1) in
  let! b2 := load8 mem (a + 2) in
  let! b3 := load8 mem (a + 3) in
  Ok (b0 ∣∣ (b1 << 8) ∣∣ (b2 << 16) ∣∣ (b3 << 24)).

Definition get (t : list Z) (i : Z) : outcome Z :=
  match t !! Z.to_nat i with Some v => Ok v | None => Bug end.

Definition put (t : list Z) (i v : Z) : outcome (list Z) :=
  bug_on Z.of_nat (length t) <=? i in Ok (<[Z.to_nat i := v]> t).

Definition row (tab : list (list Z)) (k : Z) : outcome (list Z) :=
  match tab !! Z.to_nat k with Some t => Ok t | None => Bug end.

Definition put_row (tab : list (list Z)) (k i v : Z) : outcome (list (list Z)) :=
  let! t := row tab k in
  let! t := put t i v in
  Ok (<[Z.to_nat k := t]> tab).

(** [while (cond) body]. *)
Fixpoint while {A} (fuel : nat) (cond : A -> bool) (body : A -> outcome A) (s : A) : outcome A :=
  if cond s then
    match fuel with
    | O => NoFuel
    | S f => let! s := body s in while f cond body s
    end
  else Ok s.

(** ** Constants: lib/crc32defs.h *)

Definition CRCPOLY_LE : Z := 0xedb88320.
Definition CRCPOLY_BE : Z := 0x04c11db7.
Definition CRC32C_POLY_LE : Z := 0x82F63B78.
Definition CRC_LE_BITS : Z := 64.
Definition CRC_BE_BITS : Z := 64.

(** ** One bit of a checksum

    [(crc >> 1) ^ ((crc & 1) ? polynomial : 0)], and for a register of [w]
    bits with the most significant bit first
    [(crc << 1) ^ ((crc & msbit) ? polynomial : 0)]. *)

Definition lsb_step (polynomial crc : Z) : Z :=
  (crc >> 1) ⊕ (if crc & 1 =? 0 then 0 else polynomial).

Definition msb_step (w polynomial crc : Z) : Z :=
  ((crc << 1) mod 2 ^ w) ⊕ (if crc & 2 ^ (w - 1) =? 0 then 0 else polynomial).

(** ** Filling a table

    The first row of the generator of the tables of CRC-32 and the tables of
    CRC-8 are filled by the same two loops.  The least significant bit first:
    [for (i = 256 >> 1; i; i >>= 1) { crc = step(crc); for (j = 0; j < 256;
    j += 2 * i) t[i + j] = crc ^ t[j]; }].  The most significant bit first:
    [for (i = 1; i < 256; i <<= 1) { crc = step(crc); for (j = 0; j < i; j++)
    t[i + j] = crc ^ t[j]; }]. *)

Definition lsb_fill_from (i crc : Z) (t : list Z) : outcome (list Z) :=
  let! (_, t) :=
    while 128 (fun '(j, _) => j <? 256)
      (fun '(j, t) => let! v := get t j in let! t := put t (i + j) (crc ⊕ v) in Ok (j + 2 * i, t))
      (0, t) in
  Ok t.

Definition lsb_fill (polynomial : Z) (t : list Z) : outcome (list Z) :=
  let! t := put t 0 0 in
  let! (_, _, t) :=
    while 8 (fun '(i, _, _) => negb (i =? 0))
      (fun '(i, crc, t) =>
         let crc := lsb_step polynomial crc in
         let! t := lsb_fill_from i crc t in Ok (i >> 1, crc, t))
      (256 >> 1, 1, t) in
  Ok t.

Definition msb_fill_from (i crc : Z) (t : list Z) : outcome (list Z) :=
  let! (_, t) :=
    while 128 (fun '(j, _) => j <? i)
      (fun '(j, t) => let! v := get t j in let! t := put t (i + j) (crc ⊕ v) in Ok (j + 1, t))
      (0, t) in
  Ok t.

Definition msb_fill (w polynomial : Z) (t : list Z) : outcome (list Z) :=
  let! t := put t 0 0 in
  let! (_, _, t) :=
    while 8 (fun '(i, _, _) => i <? 256)
      (fun '(i, crc, t) =>
         let crc := msb_step w polynomial crc in
         let! t := msb_fill_from i crc t in Ok (i << 1, crc, t))
      (1, 2 ^ (w - 1), t) in
  Ok t.

(** ** The tables of CRC-32: lib/gen_crc32table.c *)

Definition LE_TABLE_ROWS : Z := CRC_LE_BITS / 8.
Definition BE_TABLE_ROWS : Z := CRC_BE_BITS / 8.

Definition no_table (rows : Z) : list (list Z) := replicate (Z.to_nat rows) (replicate 256 0).

(** The other rows: [for (i = 0; i < 256; i++) { crc = tab[0][i]; for (j = 1;
    j < rows; j++) { crc = byte(crc); tab[j][i] = crc; } }]. *)
Definition fill_column (byte : list (list Z) -> Z -> outcome Z) (rows i crc : Z) (tab : list (list Z)) :
  outcome (list (list Z)) :=
  let! (_, _, tab) :=
    while 8 (fun '(j, _, _) => j <? rows)
      (fun '(j, crc, tab) =>
         let! crc := byte tab crc in
         let! tab := put_row tab j i crc in Ok (j + 1, crc, tab))
      (1, crc, tab) in
  Ok tab.

Definition fill_rows (byte : list (list Z) -> Z -> outcome Z) (rows : Z) (tab : list (list Z)) :
  outcome (list (list Z)) :=
  let! (_, tab) :=
    while 256 (fun '(i, _) => i <? 256)
      (fun '(i, tab) =>
         let! t0 := row tab 0 in
         let! crc := get t0 i in
         let! tab := fill_column byte rows i crc tab in Ok (i + 1, tab))
      (0, tab) in
  Ok tab.

Definition crc32init_le_generic (polynomial : Z) : outcome (list (list Z)) :=
  let tab := no_table LE_TABLE_ROWS in
  let! t0 := row tab 0 in
  let! t0 := lsb_fill polynomial t0 in
  fill_rows
    (fun tab crc =>
       let! t0 := row tab 0 in let! v := get t0 (crc & 0xff) in Ok (v ⊕ (crc >> 8)))
    LE_TABLE_ROWS (<[0%nat := t0]> tab).

Definition crc32init_le : outcome (list (list Z)) := crc32init_le_generic CRCPOLY_LE.
Definition crc32cinit_le : outcome (list (list Z)) := crc32init_le_generic CRC32C_POLY_LE.

Definition crc32init_be : outcome (list (list Z)) :=
  let tab := no_table BE_TABLE_ROWS in
  let! t0 := row tab 0 in
  let! t0 := msb_fill 32 CRCPOLY_BE t0 in
  fill_rows
    (fun tab crc =>
       let! t0 := row tab 0 in let! v := get t0 ((crc >> 24) & 0xff) in Ok (v ⊕ u32 (crc << 8)))
    BE_TABLE_ROWS (<[0%nat := t0]> tab).

(** ** Eight bytes at a time: crc32_body *)

Definition DO_CRC (tab : list (list Z)) (crc x : Z) : outcome Z :=
  let! t0 := row tab 0 in
  let! v := get t0 ((crc ⊕ x) & 255) in
  Ok (v ⊕ (crc >> 8)).

(** The four look-ups of [DO_CRC4] and [DO_CRC8]; [k] is the row of the last. *)
Definition do_crc (tab : list (list Z)) (k q : Z) : outcome Z :=
  let! t3 := row tab (k + 3) in
  let! t2 := row tab (k + 2) in
  let! t1 := row tab (k + 1) in
  let! t0 := row tab k in
  let! v3 := get t3 (q & 255) in
  let! v2 := get t2 ((q >> 8) & 255) in
  let! v1 := get t1 ((q >> 16) & 255) in
  let! v0 := get t0 ((q >> 24) & 255) in
  Ok (v3 ⊕ v2 ⊕ v1 ⊕ v0).

Definition DO_CRC4 (tab : list (list Z)) (q : Z) : outcome Z := do_crc tab 0 q.
Definition DO_CRC8 (tab : list (list Z)) (q : Z) : outcome Z := do_crc tab 4 q.

(** [do { DO_CRC( *buf++); } while ((--len) && ((long)buf)&3);] *)
Fixpoint align_loop (fuel : nat) (tab : list (list Z)) (mem : memory) (crc buf len : Z) :
  outcome (Z * Z * Z) :=
  match fuel with
  | O => NoFuel
  | S f =>
      let! x := load8 mem buf in
      let buf := buf + 1 in
      let! crc := DO_CRC tab crc x in
      let len := len - 1 in
      if negb (len =? 0) && negb (buf & 3 =? 0) then align_loop f tab mem crc buf len
      else Ok (crc, buf, len)
  end.

(** [for (--b; len; --len) { q = crc ^ *++b; ... }]; the pointer [b] is to
    words and steps by four bytes. *)
Fixpoint word_loop (len : nat) (tab : list (list Z)) (mem : memory) (crc b : Z) : outcome (Z * Z) :=
  match len with
  | O => Ok (crc, b)
  | S len =>
      let b := b + 4 in
      let! w := load32 mem b in
      let q := crc ⊕ w in
      let! crc := DO_CRC8 tab q in
      let b := b + 4 in
      let! q := load32 mem b in
      let! v := DO_CRC4 tab q in
      word_loop len tab mem (crc ⊕ v) b
  end.

(** [do { DO_CRC( *++p); } while (--len);] *)
Fixpoint last_bytes (len : nat) (tab : list (list Z)) (mem : memory) (crc p : Z) : outcome Z :=
  match len with
  | O => Ok crc
  | S len =>
      let p := p + 1 in
      let! x := load8 mem p in
      let! crc := DO_CRC tab crc x in
      last_bytes len tab mem crc p
  end.

Definition crc32_body (mem : memory) (crc buf len : Z) (tab : list (list Z)) : outcome Z :=
  let! (crc, buf, len) :=
    if negb (buf & 3 =? 0) && negb (len =? 0) then align_loop 4 tab mem crc buf len
    else Ok (crc, buf, len) in
  let rem_len := len & 7 in
  let len := len >> 3 in
  let b := buf in
  let! (crc, b) := word_loop (Z.to_nat len) tab mem crc (b - 4) in
  let len := rem_len in
  if len =? 0 then Ok crc else last_bytes (Z.to_nat len) tab mem crc ((b + 4) - 1).

(** ** CRC-32 and CRC-32C, least significant bit first

    On a little-endian machine [__cpu_to_le32] and [tole] are the identity. *)

Definition crc32_le_generic (mem : memory) (crc p len : Z) (tab : list (list Z)) : outcome Z :=
  crc32_body mem crc p len tab.

Definition crc32_le (mem : memory) (crc p len : Z) : outcome Z :=
  let! crc32table_le := crc32init_le in crc32_le_generic mem crc p len crc32table_le.

Definition __crc32c_le (mem : memory) (crc p len : Z) : outcome Z :=
  let! crc32ctable_le := crc32cinit_le in crc32_le_generic mem crc p len crc32ctable_le.

(** The variant of one bit at a time, [CRC_LE_BITS == 1]. *)
Fixpoint crc32_le_bits (len : nat) (mem : memory) (crc p polynomial : Z) : outcome Z :=
  match len with
  | O => Ok crc
  | S len =>
      let! x := load8 mem p in
      let crc := crc ⊕ x in
      crc32_le_bits len mem (Nat.iter 8 (lsb_step polynomial) crc) (p + 1) polynomial
  end.

(** ** CRC-32, most significant bit first

    The conversions to and from the big-endian order are parameters. *)
Section BigEndian.
Context (cpu_to_be32 be32_to_cpu : Z -> Z).

Definition tobe (x : Z) : Z := cpu_to_be32 x.

Definition crc32_be_generic (mem : memory) (crc p len : Z) (tab : list (list Z)) : outcome Z :=
  let crc := cpu_to_be32 crc in
  let! crc := crc32_body mem crc p len tab in
  Ok (be32_to_cpu crc).

Definition crc32_be (mem : memory) (crc p len : Z) : outcome Z :=
  let! tab := crc32init_be in
  let crc32table_be := map (map tobe) tab in
  crc32_be_generic mem crc p len crc32table_be.
End BigEndian.

(** The variant of one bit at a time, [CRC_BE_BITS == 1]. *)
Fixpoint crc32_be_bits (len : nat) (mem : memory) (crc p polynomial : Z) : outcome Z :=
  match len with
  | O => Ok crc
  | S len =>
      let! x := load8 mem p in
      let crc := crc ⊕ (x << 24) in
      crc32_be_bits len mem (Nat.iter 8 (msb_step 32 polynomial) crc) (p + 1) polynomial
  end.

(** ** Appending zero bytes *)

(** [for (i = 0; i < 31; i++) { ... }] *)
Definition gf2_step (y modulus : Z) (s : Z * Z) : Z * Z :=
  let '(product, x) := s in
  let product := lsb_step modulus product in
  let x := x >> 1 in
  (product ⊕ (if x & 1 =? 0 then 0 else y), x).

Definition gf2_multiply (x y modulus : Z) : Z :=
  fst (Nat.iter 31 (gf2_step y modulus) (if x & 1 =? 0 then 0 else y, x)).

Fixpoint shift_loop (fuel : nat) (polynomial crc power len : Z) : outcome Z :=
  match fuel with
  | O => NoFuel
  | S f =>
      let crc := if len & 1 =? 0 then crc else gf2_multiply crc power polynomial in
      let len := len >> 1 in
      if len =? 0 then Ok crc
      else shift_loop f polynomial crc (gf2_multiply power power polynomial) len
  end.

Definition crc32_generic_shift (crc len polynomial : Z) : outcome Z :=
  let power := polynomial in
  let crc := Nat.iter (Z.to_nat (8 * (len & 3))) (lsb_step polynomial) crc in
  let len := len >> 2 in
  if len =? 0 then Ok crc else shift_loop 62 polynomial crc power len.

Definition crc32_le_shift (crc len : Z) : outcome Z := crc32_generic_shift crc len CRCPOLY_LE.
Definition __crc32c_le_shift (crc len : Z) : outcome Z := crc32_generic_shift crc len CRC32C_POLY_LE.

Definition crc32_le_combine (crc1 crc2 len2 : Z) : outcome Z :=
  let! crc := crc32_le_shift crc1 len2 in Ok (crc ⊕ crc2).
Definition __crc32c_le_combine (crc1 crc2 len2 : Z) : outcome Z :=
  let! crc := __crc32c_le_shift crc1 len2 in Ok (crc ⊕ crc2).

(** ** Reversal of bits: lib/bitrev.c *)

Definition byte_rev_table : list Z :=
  [0x00; 0x80; 0x40; 0xc0; 0x20; 0xa0; 0x60; 0xe0;
   0x10; 0x90; 0x50; 0xd0; 0x30; 0xb0; 0x70; 0xf0;
   0x08; 0x88; 0x48; 0xc8; 0x28; 0xa8; 0x68; 0xe8;
   0x18; 0x98; 0x58; 0xd8; 0x38; 0xb8; 0x78; 0xf8;
   0x04; 0x84; 0x44; 0xc4; 0x24; 0xa4; 0x64; 0xe4;
   0x14; 0x94; 0x54; 0xd4; 0x34; 0xb4; 0x74; 0xf4;
   0x0c; 0x8c; 0x4c; 0xcc; 0x2c; 0xac; 0x6c; 0xec;
   0x1c; 0x9c; 0x5c; 0xdc; 0x3c; 0xbc; 0x7c; 0xfc;
   0x02; 0x82; 0x42; 0xc2; 0x22; 0xa2; 0x62; 0xe2;
   0x12; 0x92; 0x52; 0xd2; 0x32; 0xb2; 0x72; 0xf2;
   0x0a; 0x8a; 0x4a; 0xca; 0x2a; 0xaa; 0x6a; 0xea;
   0x1a; 0x9a; 0x5a; 0xda; 0x3a; 0xba; 0x7a; 0xfa;
   0x06; 0x86; 0x46; 0xc6; 0x26; 0xa6; 0x66; 0xe6;
   0x16; 0x96; 0x56; 0xd6; 0x36; 0xb6; 0x76; 0xf6;
   0x0e; 0x8e; 0x4e; 0xce; 0x2e; 0xae; 0x6e; 0xee;
   0x1e; 0x9e; 0x5e; 0xde; 0x3e; 0xbe; 0x7e; 0xfe;
   0x01; 0x81; 0x41; 0xc1; 0x21; 0xa1; 0x61; 0xe1;
   0x11; 0x91; 0x51; 0xd1; 0x31; 0xb1; 0x71; 0xf1;
   0x09; 0x89; 0x49; 0xc9; 0x29; 0xa9; 0x69; 0xe9;
   0x19; 0x99; 0x59; 0xd9; 0x39; 0xb9; 0x79; 0xf9;
   0x05; 0x85; 0x45; 0xc5; 0x25; 0xa5; 0x65; 0xe5;
   0x15; 0x95; 0x55; 0xd5; 0x35; 0xb5; 0x75; 0xf5;
   0x0d; 0x8d; 0x4d; 0xcd; 0x2d; 0xad; 0x6d; 0xed;
   0x1d; 0x9d; 0x5d; 0xdd; 0x3d; 0xbd; 0x7d; 0xfd;
   0x03; 0x83; 0x43; 0xc3; 0x23; 0xa3; 0x63; 0xe3;
   0x13; 0x93; 0x53; 0xd3; 0x33; 0xb3; 0x73; 0xf3;
   0x0b; 0x8b; 0x4b; 0xcb; 0x2b; 0xab; 0x6b; 0xeb;
   0x1b; 0x9b; 0x5b; 0xdb; 0x3b; 0xbb; 0x7b; 0xfb;
   0x07; 0x87; 0x47; 0xc7; 0x27; 0xa7; 0x67; 0xe7;
   0x17; 0x97; 0x57; 0xd7; 0x37; 0xb7; 0x77; 0xf7;
   0x0f; 0x8f; 0x4f; 0xcf; 0x2f; 0xaf; 0x6f; 0xef;
   0x1f; 0x9f; 0x5f; 0xdf; 0x3f; 0xbf; 0x7f; 0xff].

Definition bitrev8 (byte : Z) : outcome Z := get byte_rev_table byte.

Definition bitrev16 (x : Z) : outcome Z :=
  let! lo := bitrev8 (x & 0xff) in
  let! hi := bitrev8 (x >> 8) in
  Ok ((lo << 8) ∣∣ hi).

Definition bitrev32 (x : Z) : outcome Z :=
  let! lo := bitrev16 (x & 0xffff) in
  let! hi := bitrev16 (x >> 16) in
  Ok ((lo << 16) ∣∣ hi).

(** [ether_crc] of include/linux/crc32.h; [~0] is converted to [u32]. *)
Definition ether_crc (mem : memory) (len data : Z) : outcome Z :=
  let! crc := crc32_le mem U32_MAX data len in bitrev32 crc.

(** ** The shorter checksums

    [while (len--) crc = byte(crc, *buffer++);] *)
Fixpoint crc_loop (byte : Z -> Z -> outcome Z) (len : nat) (mem : memory) (crc buffer : Z) : outcome Z :=
  match len with
  | O => Ok crc
  | S len =>
      let! x := load8 mem buffer in
      let! crc := byte crc x in
      crc_loop byte len mem crc (buffer + 1)
  end.

Definition crc16_table : list Z :=
  [0x0000; 0xC0C1; 0xC181; 0x0140; 0xC301; 0x03C0; 0x0280; 0xC241;
   0xC601; 0x06C0; 0x0780; 0xC741; 0x0500; 0xC5C1; 0xC481; 0x0440;
   0xCC01; 0x0CC0; 0x0D80; 0xCD41; 0x0F00; 0xCFC1; 0xCE81; 0x0E40;
   0x0A00; 0xCAC1; 0xCB81; 0x0B40; 0xC901; 0x09C0; 0x0880; 0xC841;
   0xD801; 0x18C0; 0x1980; 0xD941; 0x1B00; 0xDBC1; 0xDA81; 0x1A40;
   0x1E00; 0xDEC1; 0xDF81; 0x1F40; 0xDD01; 0x1DC0; 0x1C80; 0xDC41;
   0x1400; 0xD4C1; 0xD581; 0x1540; 0xD701; 0x17C0; 0x1680; 0xD641;
   0xD201; 0x12C0; 0x1380; 0xD341; 0x1100; 0xD1C1; 0xD081; 0x1040;
   0xF001; 0x30C0; 0x3180; 0xF141; 0x3300; 0xF3C1; 0xF281; 0x3240;
   0x3600; 0xF6C1; 0xF781; 0x3740; 0xF501; 0x35C0; 0x3480; 0xF441;
   0x3C00; 0xFCC1; 0xFD81; 0x3D40; 0xFF01; 0x3FC0; 0x3E80; 0xFE41;
   0xFA01; 0x3AC0; 0x3B80; 0xFB41; 0x3900; 0xF9C1; 0xF881; 0x3840;
   0x2800; 0xE8C1; 0xE981; 0x2940; 0xEB01; 0x2BC0; 0x2A80; 0xEA41;
   0xEE01; 0x2EC0; 0x2F80; 0xEF41; 0x2D00; 0xEDC1; 0xEC81; 0x2C40;
   0xE401; 0x24C0; 0x2580; 0xE541; 0x2700; 0xE7C1; 0xE681; 0x2640;
   0x2200; 0xE2C1; 0xE381; 0x2340; 0xE101; 0x21C0; 0x2080; 0xE041;
   0xA001; 0x60C0; 0x6180; 0xA141; 0x6300; 0xA3C1; 0xA281; 0x6240;
   0x6600; 0xA6C1; 0xA781; 0x6740; 0xA501; 0x65C0; 0x6480; 0xA441;
   0x6C00; 0xACC1; 0xAD81; 0x6D40; 0xAF01; 0x6FC0; 0x6E80; 0xAE41;
   0xAA01; 0x6AC0; 0x6B80; 0xAB41; 0x6900; 0xA9C1; 0xA881; 0x6840;
   0x7800; 0xB8C1; 0xB981; 0x7940; 0xBB01; 0x7BC0; 0x7A80; 0xBA41;
   0xBE01; 0x7EC0; 0x7F80; 0xBF41; 0x7D00; 0xBDC1; 0xBC81; 0x7C40;
   0xB401; 0x74C0; 0x7580; 0xB541; 0x7700; 0xB7C1; 0xB681; 0x7640;
   0x7200; 0xB2C1; 0xB381; 0x7340; 0xB101; 0x71C0; 0x7080; 0xB041;
   0x5000; 0x90C1; 0x9181; 0x5140; 0x9301; 0x53C0; 0x5280; 0x9241;
   0x9601; 0x56C0; 0x5780; 0x9741; 0x5500; 0x95C1; 0x9481; 0x5440;
   0x9C01; 0x5CC0; 0x5D80; 0x9D41; 0x5F00; 0x9FC1; 0x9E81; 0x5E40;
   0x5A00; 0x9AC1; 0x9B81; 0x5B40; 0x9901; 0x59C0; 0x5880; 0x9841;
   0x8801; 0x48C0; 0x4980; 0x8941; 0x4B00; 0x8BC1; 0x8A81; 0x4A40;
   0x4E00; 0x8EC1; 0x8F81; 0x4F40; 0x8D01; 0x4DC0; 0x4C80; 0x8C41;
   0x4400; 0x84C1; 0x8581; 0x4540; 0x8701; 0x47C0; 0x4680; 0x8641;
   0x8201; 0x42C0; 0x4380; 0x8341; 0x4100; 0x81C1; 0x8081; 0x4040].

Definition crc16_byte (crc data : Z) : outcome Z :=
  let! v := get crc16_table ((crc ⊕ data) & 0xff) in Ok ((crc >> 8) ⊕ v).

Definition crc16 (mem : memory) (crc buffer len : Z) : outcome Z :=
  crc_loop crc16_byte (Z.to_nat len) mem crc buffer.

Definition crc_ccitt_table : list Z :=
  [0x0000; 0x1189; 0x2312; 0x329b; 0x4624; 0x57ad; 0x6536; 0x74bf;
   0x8c48; 0x9dc1; 0xaf5a; 0xbed3; 0xca6c; 0xdbe5; 0xe97e; 0xf8f7;
   0x1081; 0x0108; 0x3393; 0x221a; 0x56a5; 0x472c; 0x75b7; 0x643e;
   0x9cc9; 0x8d40; 0xbfdb; 0xae52; 0xdaed; 0xcb64; 0xf9ff; 0xe876;
   0x2102; 0x308b; 0x0210; 0x1399; 0x6726; 0x76af; 0x4434; 0x55bd;
   0xad4a; 0xbcc3; 0x8e58; 0x9fd1; 0xeb6e; 0xfae7; 0xc87c; 0xd9f5;
   0x3183; 0x200a; 0x1291; 0x0318; 0x77a7; 0x662e; 0x54b5; 0x453c;
   0xbdcb; 0xac42; 0x9ed9; 0x8f50; 0xfbef; 0xea66; 0xd8fd; 0xc974;
   0x4204; 0x538d; 0x6116; 0x709f; 0x0420; 0x15a9; 0x2732; 0x36bb;
   0xce4c; 0xdfc5; 0xed5e; 0xfcd7; 0x8868; 0x99e1; 0xab7a; 0xbaf3;
   0x5285; 0x430c; 0x7197; 0x601e; 0x14a1; 0x0528; 0x37b3; 0x263a;
   0xdecd; 0xcf44; 0xfddf; 0xec56; 0x98e9; 0x8960; 0xbbfb; 0xaa72;
   0x6306; 0x728f; 0x4014; 0x519d; 0x2522; 0x34ab; 0x0630; 0x17b9;
   0xef4e; 0xfec7; 0xcc5c; 0xddd5; 0xa96a; 0xb8e3; 0x8a78; 0x9bf1;
   0x7387; 0x620e; 0x5095; 0x411c; 0x35a3; 0x242a; 0x16b1; 0x0738;
   0xffcf; 0xee46; 0xdcdd; 0xcd54; 0xb9eb; 0xa862; 0x9af9; 0x8b70;
   0x8408; 0x9581; 0xa71a; 0xb693; 0xc22c; 0xd3a5; 0xe13e; 0xf0b7;
   0x0840; 0x19c9; 0x2b52; 0x3adb; 0x4e64; 0x5fed; 0x6d76; 0x7cff;
   0x9489; 0x8500; 0xb79b; 0xa612; 0xd2ad; 0xc324; 0xf1bf; 0xe036;
   0x18c1; 0x0948; 0x3bd3; 0x2a5a; 0x5ee5; 0x4f6c; 0x7df7; 0x6c7e;
   0xa50a; 0xb483; 0x8618; 0x9791; 0xe32e; 0xf2a7; 0xc03c; 0xd1b5;
   0x2942; 0x38cb; 0x0a50; 0x1bd9; 0x6f66; 0x7eef; 0x4c74; 0x5dfd;
   0xb58b; 0xa402; 0x9699; 0x8710; 0xf3af; 0xe226; 0xd0bd; 0xc134;
   0x39c3; 0x284a; 0x1ad1; 0x0b58; 0x7fe7; 0x6e6e; 0x5cf5; 0x4d7c;
   0xc60c; 0xd785; 0xe51e; 0xf497; 0x8028; 0x91a1; 0xa33a; 0xb2b3;
   0x4a44; 0x5bcd; 0x6956; 0x78df; 0x0c60; 0x1de9; 0x2f72; 0x3efb;
   0xd68d; 0xc704; 0xf59f; 0xe416; 0x90a9; 0x8120; 0xb3bb; 0xa232;
   0x5ac5; 0x4b4c; 0x79d7; 0x685e; 0x1ce1; 0x0d68; 0x3ff3; 0x2e7a;
   0xe70e; 0xf687; 0xc41c; 0xd595; 0xa12a; 0xb0a3; 0x8238; 0x93b1;
   0x6b46; 0x7acf; 0x4854; 0x59dd; 0x2d62; 0x3ceb; 0x0e70; 0x1ff9;
   0xf78f; 0xe606; 0xd49d; 0xc514; 0xb1ab; 0xa022; 0x92b9; 0x8330;
   0x7bc7; 0x6a4e; 0x58d5; 0x495c; 0x3de3; 0x2c6a; 0x1ef1; 0x0f78].

Definition crc_ccitt_byte (crc c : Z) : outcome Z :=
  let! v := get crc_ccitt_table ((crc ⊕ c) & 0xff) in Ok ((crc >> 8) ⊕ v).

Definition crc_ccitt (mem : memory) (crc buffer len : Z) : outcome Z :=
  crc_loop crc_ccitt_byte (Z.to_nat len) mem crc buffer.

Definition crc_itu_t_table : list Z :=
  [0x0000; 0x1021; 0x2042; 0x3063; 0x4084; 0x50a5; 0x60c6; 0x70e7;
   0x8108; 0x9129; 0xa14a; 0xb16b; 0xc18c; 0xd1ad; 0xe1ce; 0xf1ef;
   0x1231; 0x0210; 0x3273; 0x2252; 0x52b5; 0x4294; 0x72f7; 0x62d6;
   0x9339; 0x8318; 0xb37b; 0xa35a; 0xd3bd; 0xc39c; 0xf3ff; 0xe3de;
   0x2462; 0x3443; 0x0420; 0x1401; 0x64e6; 0x74c7; 0x44a4; 0x5485;
   0xa56a; 0xb54b; 0x8528; 0x9509; 0xe5ee; 0xf5cf; 0xc5ac; 0xd58d;
   0x3653; 0x2672; 0x1611; 0x0630; 0x76d7; 0x66f6; 0x5695; 0x46b4;
   0xb75b; 0xa77a; 0x9719; 0x8738; 0xf7df; 0xe7fe; 0xd79d; 0xc7bc;
   0x48c4; 0x58e5; 0x6886; 0x78a7; 0x0840; 0x1861; 0x2802; 0x3823;
   0xc9cc; 0xd9ed; 0xe98e; 0xf9af; 0x8948; 0x9969; 0xa90a; 0xb92b;
   0x5af5; 0x4ad4; 0x7ab7; 0x6a96; 0x1a71; 0x0a50; 0x3a33; 0x2a12;
   0xdbfd; 0xcbdc; 0xfbbf; 0xeb9e; 0x9b79; 0x8b58; 0xbb3b; 0xab1a;
   0x6ca6; 0x7c87; 0x4ce4; 0x5cc5; 0x2c22; 0x3c03; 0x0c60; 0x1c41;
   0xedae; 0xfd8f; 0xcdec; 0xddcd; 0xad2a; 0xbd0b; 0x8d68; 0x9d49;
   0x7e97; 0x6eb6; 0x5ed5; 0x4ef4; 0x3e13; 0x2e32; 0x1e51; 0x0e70;
   0xff9f; 0xefbe; 0xdfdd; 0xcffc; 0xbf1b; 0xaf3a; 0x9f59; 0x8f78;
   0x9188; 0x81a9; 0xb1ca; 0xa1eb; 0xd10c; 0xc12d; 0xf14e; 0xe16f;
   0x1080; 0x00a1; 0x30c2; 0x20e3; 0x5004; 0x4025; 0x7046; 0x6067;
   0x83b9; 0x9398; 0xa3fb; 0xb3da; 0xc33d; 0xd31c; 0xe37f; 0xf35e;
   0x02b1; 0x1290; 0x22f3; 0x32d2; 0x4235; 0x5214; 0x6277; 0x7256;
   0xb5ea; 0xa5cb; 0x95a8; 0x8589; 0xf56e; 0xe54f; 0xd52c; 0xc50d;
   0x34e2; 0x24c3; 0x14a0; 0x0481; 0x7466; 0x6447; 0x5424; 0x4405;
   0xa7db; 0xb7fa; 0x8799; 0x97b8; 0xe75f; 0xf77e; 0xc71d; 0xd73c;
   0x26d3; 0x36f2; 0x0691; 0x16b0; 0x6657; 0x7676; 0x4615; 0x5634;
   0xd94c; 0xc96d; 0xf90e; 0xe92f; 0x99c8; 0x89e9; 0xb98a; 0xa9ab;
   0x5844; 0x4865; 0x7806; 0x6827; 0x18c0; 0x08e1; 0x3882; 0x28a3;
   0xcb7d; 0xdb5c; 0xeb3f; 0xfb1e; 0x8bf9; 0x9bd8; 0xabbb; 0xbb9a;
   0x4a75; 0x5a54; 0x6a37; 0x7a16; 0x0af1; 0x1ad0; 0x2ab3; 0x3a92;
   0xfd2e; 0xed0f; 0xdd6c; 0xcd4d; 0xbdaa; 0xad8b; 0x9de8; 0x8dc9;
   0x7c26; 0x6c07; 0x5c64; 0x4c45; 0x3ca2; 0x2c83; 0x1ce0; 0x0cc1;
   0xef1f; 0xff3e; 0xcf5d; 0xdf7c; 0xaf9b; 0xbfba; 0x8fd9; 0x9ff8;
   0x6e17; 0x7e36; 0x4e55; 0x5e74; 0x2e93; 0x3eb2; 0x0ed1; 0x1ef0].

(** The result is converted to [u16]. *)
Definition crc_itu_t_byte (crc data : Z) : outcome Z :=
  let! v := get crc_itu_t_table (((crc >> 8) ⊕ data) & 0xff) in Ok (((crc << 8) ⊕ v) mod 2 ^ 16).

Definition crc_itu_t (mem : memory) (crc buffer len : Z) : outcome Z :=
  crc_loop crc_itu_t_byte (Z.to_nat len) mem crc buffer.

Definition crc7_be_syndrome_table : list Z :=
  [0x00; 0x12; 0x24; 0x36; 0x48; 0x5a; 0x6c; 0x7e;
   0x90; 0x82; 0xb4; 0xa6; 0xd8; 0xca; 0xfc; 0xee;
   0x32; 0x20; 0x16; 0x04; 0x7a; 0x68; 0x5e; 0x4c;
   0xa2; 0xb0; 0x86; 0x94; 0xea; 0xf8; 0xce; 0xdc;
   0x64; 0x76; 0x40; 0x52; 0x2c; 0x3e; 0x08; 0x1a;
   0xf4; 0xe6; 0xd0; 0xc2; 0xbc; 0xae; 0x98; 0x8a;
   0x56; 0x44; 0x72; 0x60; 0x1e; 0x0c; 0x3a; 0x28;
   0xc6; 0xd4; 0xe2; 0xf0; 0x8e; 0x9c; 0xaa; 0xb8;
   0xc8; 0xda; 0xec; 0xfe; 0x80; 0x92; 0xa4; 0xb6;
   0x58; 0x4a; 0x7c; 0x6e; 0x10; 0x02; 0x34; 0x26;
   0xfa; 0xe8; 0xde; 0xcc; 0xb2; 0xa0; 0x96; 0x84;
   0x6a; 0x78; 0x4e; 0x5c; 0x22; 0x30; 0x06; 0x14;
   0xac; 0xbe; 0x88; 0x9a; 0xe4; 0xf6; 0xc0; 0xd2;
   0x3c; 0x2e; 0x18; 0x0a; 0x74; 0x66; 0x50; 0x42;
   0x9e; 0x8c; 0xba; 0xa8; 0xd6; 0xc4; 0xf2; 0xe0;
   0x0e; 0x1c; 0x2a; 0x38; 0x46; 0x54; 0x62; 0x70;
   0x82; 0x90; 0xa6; 0xb4; 0xca; 0xd8; 0xee; 0xfc;
   0x12; 0x00; 0x36; 0x24; 0x5a; 0x48; 0x7e; 0x6c;
   0xb0; 0xa2; 0x94; 0x86; 0xf8; 0xea; 0xdc; 0xce;
   0x20; 0x32; 0x04; 0x16; 0x68; 0x7a; 0x4c; 0x5e;
   0xe6; 0xf4; 0xc2; 0xd0; 0xae; 0xbc; 0x8a; 0x98;
   0x76; 0x64; 0x52; 0x40; 0x3e; 0x2c; 0x1a; 0x08;
   0xd4; 0xc6; 0xf0; 0xe2; 0x9c; 0x8e; 0xb8; 0xaa;
   0x44; 0x56; 0x60; 0x72; 0x0c; 0x1e; 0x28; 0x3a;
   0x4a; 0x58; 0x6e; 0x7c; 0x02; 0x10; 0x26; 0x34;
   0xda; 0xc8; 0xfe; 0xec; 0x92; 0x80; 0xb6; 0xa4;
   0x78; 0x6a; 0x5c; 0x4e; 0x30; 0x22; 0x14; 0x06;
   0xe8; 0xfa; 0xcc; 0xde; 0xa0; 0xb2; 0x84; 0x96;
   0x2e; 0x3c; 0x0a; 0x18; 0x66; 0x74; 0x42; 0x50;
   0xbe; 0xac; 0x9a; 0x88; 0xf6; 0xe4; 0xd2; 0xc0;
   0x1c; 0x0e; 0x38; 0x2a; 0x54; 0x46; 0x70; 0x62;
   0x8c; 0x9e; 0xa8; 0xba; 0xc4; 0xd6; 0xe0; 0xf2].

Definition crc7_be_byte (crc data : Z) : outcome Z := get crc7_be_syndrome_table (crc ⊕ data).

Definition crc7_be (mem : memory) (crc buffer len : Z) : outcome Z :=
  crc_loop crc7_be_byte (Z.to_nat len) mem crc buffer.

(** CRC-8 takes the polynomial; its tables are filled when the user starts. *)

Definition CRC8_TABLE_SIZE : Z := 256.

Definition crc8_populate_msb (table : list Z) (polynomial : Z) : outcome (list Z) :=
  msb_fill 8 polynomial table.

Definition crc8_populate_lsb (table : list Z) (polynomial : Z) : outcome (list Z) :=
  lsb_fill polynomial table.

Definition crc8 (table : list Z) (mem : memory) (pdata nbytes crc : Z) : outcome Z :=
  crc_loop (fun crc x => get table ((crc ⊕ x) & 0xff)) (Z.to_nat nbytes) mem crc pdata.
