(* ===== verification/CrcBody.v ===== *)
(** * Checksums: the algebra of the steps, and eight bytes at a time

    The step of one bit is linear over exclusive or, and shifts a value whose
    lowest bit is clear.  The class [ByteStep] states what the routine of
    eight bytes at a time needs of the step of one byte and of its tables;
    for every such step [crc32_body] reads the bytes of its buffer and no
    others, its words at aligned addresses, and returns what feeding the
    bytes one by one gives. *)

From stdpp Require Import base gmap list.
From S2P Require Import Prelude Crc.

#[local] Open Scope crc_scope.

(** ** Exclusive or and shifts *)

Definition bits (w x : Z) : Prop := 0 <= x < 2 ^ w.

Lemma bits_testbit w x n : bits w x -> w <= n -> Z.testbit x n = false.
Proof.
  intros [? Hx] Hn. destruct (decide (x = 0)) as [->|]; [apply Z.bits_0|].
  apply Z.bits_above_log2; [done|]. apply Z.log2_lt_pow2; [lia|].
  eapply Z.lt_le_trans; [exact Hx|]. apply Z.pow_le_mono_r; lia.
Qed.

Lemma bits_intro w x : 0 <= w -> 0 <= x -> (forall n, w <= n -> Z.testbit x n = false) -> bits w x.
Proof. intros Hw Hx Hn. split; [done|]. by apply Z.bounded_iff_bits_nonneg. Qed.

Lemma lxor_bits w a b : 0 <= w -> bits w a -> bits w b -> bits w (a ⊕ b).
Proof.
  intros Hw Ha Hb. apply bits_intro; [done| |].
  - apply Z.lxor_nonneg. unfold bits in *. lia.
  - intros n Hn. by rewrite Z.lxor_spec, (bits_testbit w a), (bits_testbit w b).
Qed.

Lemma land_bits w a : 0 <= w -> bits w (a & Z.ones w).
Proof. intros. rewrite Z.land_ones by done. apply Z.mod_pos_bound, Z.pow_pos_nonneg; lia. Qed.

Lemma shiftr_bits w n x : 0 <= n -> n <= w -> bits w x -> bits (w - n) (x >> n).
Proof.
  intros Hn Hw Hx. apply bits_intro; [lia| |].
  - apply Z.shiftr_nonneg. by destruct Hx.
  - intros k Hk. rewrite Z.shiftr_spec by lia. apply (bits_testbit w); [done|lia].
Qed.

Lemma bits_le w w' x : w <= w' -> bits w x -> bits w' x.
Proof.
  intros ? [? ?]. split; [done|]. eapply Z.lt_le_trans; [done|]. apply Z.pow_le_mono_r; lia.
Qed.

Lemma shiftl_bits w n x : 0 <= n -> 0 <= w -> bits w x -> bits (w + n) (x << n).
Proof.
  intros Hn Hw Hx. apply bits_intro; [lia| |].
  - apply Z.shiftl_nonneg. by destruct Hx.
  - intros k Hk. rewrite Z.shiftl_spec by lia. apply (bits_testbit w); [done|lia].
Qed.

Lemma bits_0 w : 0 <= w -> bits w 0.
Proof. intros. split; [lia|]. apply Z.pow_pos_nonneg; lia. Qed.

(** A number is its [n] low bits and the rest. *)
Lemma split_low n x : 0 <= n -> x = (x & Z.ones n) ⊕ ((x >> n) << n).
Proof.
  intros. apply Z.bits_inj'. intros k Hk. rewrite Z.lxor_spec, Z.land_spec, Z.shiftl_spec by done.
  destruct (decide (k < n)).
  - rewrite Z.ones_spec_low, (Z.testbit_neg_r _ (k - n)) by lia. by destruct (Z.testbit x k).
  - rewrite Z.ones_spec_high, Z.shiftr_spec by lia. rewrite Z.sub_add. by destruct (Z.testbit x k).
Qed.

(** Numbers whose bits do not meet are joined by any of [+], [|] and [^]. *)
Lemma lor_disjoint n a b : 0 <= n -> bits n a -> a ∣∣ (b << n) = a ⊕ (b << n).
Proof.
  intros Hn Ha. symmetry. apply Z.lxor_lor. apply Z.bits_inj'. intros k Hk.
  rewrite Z.land_spec, Z.bits_0, Z.shiftl_spec by done. destruct (decide (k < n)).
  - by rewrite (Z.testbit_neg_r _ (k - n)), andb_false_r by lia.
  - by rewrite (bits_testbit n a) by (done || lia).
Qed.

Lemma shiftl_lxor a b n : (a ⊕ b) << n = (a << n) ⊕ (b << n).
Proof. apply Z.shiftl_lxor. Qed.

Lemma shiftr_lxor a b n : (a ⊕ b) >> n = (a >> n) ⊕ (b >> n).
Proof. apply Z.shiftr_lxor. Qed.

Lemma land_lxor a b m : (a ⊕ b) & m = (a & m) ⊕ (b & m).
Proof.
  apply Z.bits_inj'. intros k _. rewrite Z.land_spec, !Z.lxor_spec, !Z.land_spec.
  by destruct (Z.testbit a k), (Z.testbit b k), (Z.testbit m k).
Qed.

Lemma land_1 x : x & 1 = if Z.testbit x 0 then 1 else 0.
Proof. change 1 with (Z.ones 1) at 1. rewrite Z.land_ones, Z.bit0_odd, Zmod_odd by done. done. Qed.

Lemma lxor_cancel a b c : a ⊕ (b ⊕ c) = b ⊕ (a ⊕ c).
Proof. by rewrite <- !Z.lxor_assoc, (Z.lxor_comm a b). Qed.

Lemma lxor_swap4 a b c d : (a ⊕ b) ⊕ (c ⊕ d) = (a ⊕ c) ⊕ (b ⊕ d).
Proof. by rewrite !Z.lxor_assoc, (lxor_cancel b c). Qed.

(** ** Linear maps *)

Definition linear (f : Z -> Z) : Prop := forall a b, f (a ⊕ b) = f a ⊕ f b.

Lemma linear_0 f : linear f -> f 0 = 0.
Proof. intros Hf. rewrite <- (Z.lxor_nilpotent 0), Hf. apply Z.lxor_nilpotent. Qed.

Lemma iter_S {A} n (f : A -> A) x : Nat.iter (S n) f x = f (Nat.iter n f x).
Proof. done. Qed.

Lemma linear_iter f n : linear f -> linear (Nat.iter n f).
Proof. intros Hf. induction n as [|n IH]; intros a b; [done|]. by rewrite !iter_S, IH, Hf. Qed.

Lemma iter_swap {A} n (f : A -> A) x : Nat.iter n f (f x) = f (Nat.iter n f x).
Proof. induction n as [|n IH]; [done|]. by rewrite !iter_S, IH. Qed.

Lemma iter_plus {A} m n (f : A -> A) x : Nat.iter (m + n) f x = Nat.iter m f (Nat.iter n f x).
Proof. induction m as [|m IH]; [done|]. by rewrite Nat.add_succ_l, !iter_S, IH. Qed.

Lemma iter_mult {A} m n (f : A -> A) x : Nat.iter (m * n) f x = Nat.iter m (Nat.iter n f) x.
Proof. induction m as [|m IH]; [done|]. cbn [Nat.mul]. rewrite iter_plus, IH. done. Qed.

Lemma iter_pres {A} (P : A -> Prop) n (f : A -> A) x : (forall y, P y -> P (f y)) -> P x -> P (Nat.iter n f x).
Proof. intros Hf Hx. induction n as [|n IH]; [done|]. by apply Hf. Qed.

(** A choice by a bit. *)
Definition pick (b : bool) (x : Z) : Z := if b then x else 0.

Lemma pick_lxor b c x : pick (xorb b c) x = pick b x ⊕ pick c x.
Proof. destruct b, c; cbn; by rewrite ?Z.lxor_nilpotent, ?Z.lxor_0_r, ?Z.lxor_0_l. Qed.

Lemma choose_pick x p : (if x & 1 =? 0 then 0 else p) = pick (Z.testbit x 0) p.
Proof. rewrite land_1. by destruct (Z.testbit x 0). Qed.

Lemma pick_bits w b x : 0 <= w -> bits w x -> bits w (pick b x).
Proof. destruct b; [done|]. intros. by apply bits_0. Qed.

(** ** The step of one bit, least significant bit first *)

Lemma lsb_step_eq p c : lsb_step p c = (c >> 1) ⊕ pick (Z.testbit c 0) p.
Proof. unfold lsb_step. by rewrite choose_pick. Qed.

Lemma lsb_linear p : linear (lsb_step p).
Proof.
  intros a b. rewrite !lsb_step_eq, shiftr_lxor, Z.lxor_spec, pick_lxor. apply lxor_swap4.
Qed.

Lemma lsb_bits w p c : 1 <= w -> bits w p -> bits w c -> bits w (lsb_step p c).
Proof.
  intros. rewrite lsb_step_eq. apply lxor_bits; [lia| |apply pick_bits; [lia|done]].
  apply (bits_le (w - 1)); [lia|]. apply shiftr_bits; [lia..|done].
Qed.

Lemma lsb_shift p y : lsb_step p (y << 1) = y.
Proof.
  rewrite lsb_step_eq, Z.shiftl_spec_low, Z.shiftr_shiftl_l by lia. cbn. by rewrite Z.lxor_0_r.
Qed.

Lemma lsb_iter_shift p n y : Nat.iter n (lsb_step p) (y << Z.of_nat n) = y.
Proof.
  induction n as [|n IH]; [by rewrite Z.shiftl_0_r|].
  rewrite iter_S, <- iter_swap.
  replace (y << Z.of_nat (S n)) with ((y << Z.of_nat n) << 1).
  - by rewrite lsb_shift.
  - rewrite Z.shiftl_shiftl by lia. f_equal. lia.
Qed.

(** Where the polynomial has its constant term no value but zero steps to zero. *)
Lemma lsb_kernel w p c :
  1 <= w -> bits w c -> Z.testbit p (w - 1) = true -> lsb_step p c = 0 -> c = 0.
Proof.
  intros Hw Hc Hp H0. rewrite lsb_step_eq in H0.
  assert (Z.testbit c 0 = false) as Hb.
  { assert (Z.testbit ((c >> 1) ⊕ pick (Z.testbit c 0) p) (w - 1) = false) as H by (rewrite H0; apply Z.bits_0).
    rewrite Z.lxor_spec, Z.shiftr_spec, (bits_testbit w c) in H by (done || lia).
    destruct (Z.testbit c 0); [|done]. cbn in H. congruence. }
  rewrite Hb in H0. cbn in H0. rewrite Z.lxor_0_r in H0.
  rewrite (split_low 1 c), H0 by lia. change (Z.ones 1) with 1. by rewrite land_1, Hb.
Qed.

Lemma lsb_iter_kernel w p n c :
  1 <= w -> bits w p -> bits w c -> Z.testbit p (w - 1) = true ->
  Nat.iter n (lsb_step p) c = 0 -> c = 0.
Proof.
  intros Hw Hp Hc Ht. revert c Hc. induction n as [|n IH]; [done|]. intros c Hc H.
  rewrite iter_S, <- iter_swap in H. apply (lsb_kernel w p); try done.
  apply IH; [by apply lsb_bits|done].
Qed.

(** ** The step of one bit, most significant bit first *)

Lemma msb_step_eq w p c : 1 <= w -> msb_step w p c = ((c << 1) & Z.ones w) ⊕ pick (Z.testbit c (w - 1)) p.
Proof.
  intros Hw. unfold msb_step. rewrite Z.land_ones by lia. f_equal.
  destruct (Z.testbit c (w - 1)) eqn:E; cbn.
  - destruct (Z.eqb_spec (c & 2 ^ (w - 1)) 0) as [H|]; [|done]. exfalso.
    assert (Z.testbit (c & 2 ^ (w - 1)) (w - 1) = false) as H' by (rewrite H; apply Z.bits_0).
    rewrite Z.land_spec, E, Z.pow2_bits_true in H' by lia. done.
  - destruct (Z.eqb_spec (c & 2 ^ (w - 1)) 0) as [|H]; [done|]. exfalso. apply H. apply Z.bits_inj'. intros k Hk.
    rewrite Z.land_spec, Z.bits_0. destruct (decide (k = w - 1)) as [->|]; [by rewrite E|].
    by rewrite Z.pow2_bits_false, andb_false_r by lia.
Qed.

Lemma msb_linear w p : 1 <= w -> linear (msb_step w p).
Proof.
  intros ? a b. rewrite !msb_step_eq, shiftl_lxor, land_lxor, Z.lxor_spec, pick_lxor by done.
  apply lxor_swap4.
Qed.

Lemma msb_bits w p c : 1 <= w -> bits w p -> bits w (msb_step w p c).
Proof.
  intros. rewrite msb_step_eq by done. apply lxor_bits; [lia| |apply pick_bits; [lia|done]].
  apply land_bits. lia.
Qed.

Lemma msb_shift w p y : 1 <= w -> bits (w - 1) y -> msb_step w p y = y << 1.
Proof.
  intros Hw Hy. rewrite msb_step_eq, (bits_testbit (w - 1) y) by (done || lia). cbn.
  rewrite Z.lxor_0_r, Z.land_ones by lia. apply Z.mod_small.
  replace w with (w - 1 + 1) by lia. apply shiftl_bits; [lia..|done].
Qed.

Lemma msb_iter_shift w p n y :
  1 <= w -> Z.of_nat n <= w -> bits (w - Z.of_nat n) y -> Nat.iter n (msb_step w p) y = y << Z.of_nat n.
Proof.
  intros Hw. induction n as [|n IH]; [by rewrite Z.shiftl_0_r|]. intros Hn Hy. rewrite iter_S.
  rewrite IH; [|lia|apply (bits_le (w - Z.of_nat (S n))); [lia|done]].
  rewrite msb_shift; [|done|].
  - rewrite Z.shiftl_shiftl by lia. f_equal. lia.
  - replace (w - 1) with (w - Z.of_nat (S n) + Z.of_nat n) by lia. apply shiftl_bits; [lia..|done].
Qed.

(** From here on the steps are known by these lemmas alone. *)
#[global] Opaque lsb_step msb_step.

(** * Eight bytes at a time *)

(** ** Buffers *)

(** The bytes [bs] lie in the memory from the address [a] on. *)
Fixpoint bytes_at (mem : memory) (a : Z) (bs : list Z) : Prop :=
  match bs with
  | [] => True
  | b :: bs => mem !! a = Some b /\ bits 8 b /\ bytes_at mem (a + 1) bs
  end.

Lemma bytes_at_app mem a bs cs :
  bytes_at mem a (bs ++ cs) <-> bytes_at mem a bs /\ bytes_at mem (a + Z.of_nat (length bs)) cs.
Proof.
  revert a. induction bs as [|b bs IH]; intros a; cbn [app bytes_at length].
  - rewrite Z.add_0_r. tauto.
  - rewrite IH. replace (a + 1 + Z.of_nat (length bs)) with (a + Z.of_nat (S (length bs))) by lia. tauto.
Qed.

(** A list of at least [n] elements is one of [n] and a rest. *)
Lemma take_n {A} (n : nat) (l : list A) : (n <= length l)%nat -> exists k r, l = k ++ r /\ length k = n.
Proof. intros. exists (take n l), (drop n l). rewrite take_drop, length_take. split; [done|lia]. Qed.

Definition word (b0 b1 b2 b3 : Z) : Z := b0 ⊕ (b1 << 8) ⊕ (b2 << 16) ⊕ (b3 << 24).

Lemma word_bits b0 b1 b2 b3 : bits 8 b0 -> bits 8 b1 -> bits 8 b2 -> bits 8 b3 -> bits 32 (word b0 b1 b2 b3).
Proof.
  intros. unfold word. repeat (apply lxor_bits; [lia| |]).
  - by apply (bits_le 8).
  - apply (bits_le (8 + 8)); [lia|]. by apply shiftl_bits.
  - apply (bits_le (8 + 16)); [lia|]. by apply shiftl_bits.
  - by apply (shiftl_bits 8 24).
Qed.

Lemma load8_ok mem a b : mem !! a = Some b -> load8 mem a = Ok b.
Proof. unfold load8. by intros ->. Qed.

Lemma load32_ok mem a b0 b1 b2 b3 :
  a & 3 = 0 -> bytes_at mem a [b0; b1; b2; b3] -> load32 mem a = Ok (word b0 b1 b2 b3).
Proof.
  intros Ha (H0 & ? & H1 & ? & H2 & ? & H3 & ? & _). unfold load32, word. rewrite Ha. cbn [negb Z.eqb].
  replace (a + 2) with (a + 1 + 1) by lia. replace (a + 3) with (a + 1 + 1 + 1) by lia.
  rewrite (load8_ok _ _ _ H0). cbn [obind]. rewrite (load8_ok _ _ _ H1). cbn [obind].
  rewrite (load8_ok _ _ _ H2). cbn [obind]. rewrite (load8_ok _ _ _ H3). cbn [obind]. f_equal.
  rewrite (lor_disjoint 8) by done. rewrite (lor_disjoint 16); [rewrite (lor_disjoint 24); [done|lia|]|lia|].
  - repeat (apply lxor_bits; [lia| |]).
    + by apply (bits_le 8).
    + apply (bits_le (8 + 8)); [lia|]. by apply shiftl_bits.
    + by apply (shiftl_bits 8 16).
  - apply lxor_bits; [lia|by apply (bits_le 8)|]. by apply (shiftl_bits 8 8).
Qed.

(** [bits_tac] bounds exclusive ors of bounded numbers. *)
Ltac bits_tac := solve [repeat first [assumption | apply lxor_bits; [lia| |]]].

(** ** The interface of the steps *)

Class ByteStep (B : Z -> Z) (tab : list (list Z)) : Prop := {
  bs_bits c : bits 32 c -> bits 32 (B c);
  bs_xor a b : bits 32 a -> bits 32 b -> B (a ⊕ b) = B a ⊕ B b;
  bs_shift y : bits 24 y -> B (y << 8) = y;
  bs_table k : 0 <= k < 8 ->
    exists t, row tab k = Ok t /\
      forall i, bits 8 i -> get t i = Ok (Nat.iter (S (Z.to_nat k)) B i);
}.

Definition feed (B : Z -> Z) (c : Z) (bs : list Z) : Z := foldl (fun c b => B (c ⊕ b)) c bs.

Lemma feed_app B c bs cs : feed B c (bs ++ cs) = feed B (feed B c bs) cs.
Proof. apply foldl_app. Qed.

Section Body.
Context (B : Z -> Z) (tab : list (list Z)) {BS : ByteStep B tab}.

Lemma iter_bits n c : bits 32 c -> bits 32 (Nat.iter n B c).
Proof. apply iter_pres, bs_bits. Qed.

Lemma iter_xor n a b : bits 32 a -> bits 32 b -> Nat.iter n B (a ⊕ b) = Nat.iter n B a ⊕ Nat.iter n B b.
Proof.
  intros Ha Hb. induction n as [|n IH]; [done|].
  rewrite !iter_S, IH. apply bs_xor; by apply iter_bits.
Qed.

Lemma iter_shift m n y : bits (32 - 8 * Z.of_nat m) y ->
  Nat.iter (n + m) B (y << (8 * Z.of_nat m)) = Nat.iter n B y.
Proof.
  intros Hy. rewrite iter_plus. f_equal. revert y Hy. induction m as [|m IH]; intros y Hy.
  - by rewrite Z.mul_0_r, Z.shiftl_0_r.
  - rewrite iter_S, <- iter_swap.
    replace (y << (8 * Z.of_nat (S m))) with ((y << (8 * Z.of_nat m)) << 8) by (rewrite Z.shiftl_shiftl by lia; f_equal; lia).
    destruct (decide (Z.of_nat m <= 3)).
    + rewrite bs_shift; [apply IH; revert Hy; apply bits_le; lia|].
      replace 24 with (32 - 8 * Z.of_nat (S m) + 8 * Z.of_nat m) by lia. apply shiftl_bits; [lia..|done].
    + exfalso. destruct Hy as [? Hy]. rewrite Z.pow_neg_r in Hy by lia. lia.
Qed.

Lemma get_row k : 0 <= k < 8 -> exists t, row tab k = Ok t /\
  forall q, get t (q & 255) = Ok (Nat.iter (S (Z.to_nat k)) B (q & 255)).
Proof.
  intros Hk. destruct (bs_table k Hk) as (t & Ht & Hg). exists t. split; [done|].
  intros x. apply Hg. by apply (land_bits 8).
Qed.

(** One byte. *)
Lemma byte_split q : bits 32 q -> B q = B (q & 255) ⊕ (q >> 8).
Proof.
  intros Hq. rewrite (split_low 8 q) at 1 by lia. change (Z.ones 8) with 255.
  assert (bits 24 (q >> 8)) by (by apply (shiftr_bits 32)).
  rewrite bs_xor; [by rewrite bs_shift| |by apply (shiftl_bits 24 8)].
  apply (bits_le 8); [lia|]. by apply (land_bits 8).
Qed.

Lemma DO_CRC_ok c x : bits 32 c -> bits 8 x -> DO_CRC tab c x = Ok (B (c ⊕ x)).
Proof.
  intros Hc Hx. unfold DO_CRC. destruct (get_row 0) as (t & -> & Hg); [lia|]. cbn [obind].
  rewrite Hg. cbn [obind]. rewrite (byte_split (c ⊕ x)); [|by apply lxor_bits; [..|apply (bits_le 8)]].
  rewrite shiftr_lxor. assert (x >> 8 = 0) as ->; [|by rewrite Z.lxor_0_r].
  rewrite Z.shiftr_div_pow2 by done. apply Z.div_small, Hx.
Qed.

(** A word is four bytes. *)
Lemma word_split q : bits 32 q ->
  q = word (q & 255) ((q >> 8) & 255) ((q >> 16) & 255) ((q >> 24) & 255).
Proof.
  intros Hq. unfold word. rewrite !Z.lxor_assoc. rewrite (split_low 8 q) at 1 by lia. f_equal.
  rewrite (split_low 8 (q >> 8)) at 1 by lia. rewrite shiftl_lxor. f_equal.
  rewrite Z.shiftr_shiftr, Z.shiftl_shiftl by lia.
  rewrite (split_low 8 (q >> (8 + 8))) at 1 by lia. rewrite shiftl_lxor. f_equal.
  rewrite Z.shiftr_shiftr, Z.shiftl_shiftl by lia. cbn -[Z.shiftl Z.shiftr Z.land]. f_equal.
  symmetry. change 255 with (Z.ones 8). rewrite Z.land_ones by lia. apply Z.mod_small.
  by apply (shiftr_bits 32 24).
Qed.

Lemma iter_word n b0 b1 b2 b3 : bits 8 b0 -> bits 8 b1 -> bits 8 b2 -> bits 8 b3 ->
  Nat.iter (n + 3) B (word b0 b1 b2 b3) =
  Nat.iter (n + 3) B b0 ⊕ Nat.iter (n + 2) B b1 ⊕ Nat.iter (n + 1) B b2 ⊕ Nat.iter n B b3.
Proof.
  intros. unfold word.
  assert (bits 32 b0) by (by apply (bits_le 8)).
  assert (bits 32 (b1 << 8)) by (apply (bits_le (8 + 8)); [lia|by apply shiftl_bits]).
  assert (bits 32 (b2 << 16)) by (apply (bits_le (8 + 16)); [lia|by apply shiftl_bits]).
  assert (bits 32 (b3 << 24)) by (by apply (shiftl_bits 8 24)).
  rewrite !iter_xor by bits_tac.
  f_equal; [f_equal; [f_equal|]|].
  - replace (n + 3)%nat with (n + 2 + 1)%nat by lia. apply (iter_shift 1). by apply (bits_le 8).
  - replace (n + 3)%nat with (n + 1 + 2)%nat by lia. apply (iter_shift 2). by apply (bits_le 8).
  - by apply (iter_shift 3).
Qed.

Lemma do_crc_ok k q : 0 <= k <= 4 -> bits 32 q ->
  do_crc tab k q = Ok (Nat.iter (Z.to_nat k + 4) B q).
Proof.
  intros Hk Hq. unfold do_crc.
  destruct (get_row (k + 3)) as (t3 & -> & H3); [lia|]. destruct (get_row (k + 2)) as (t2 & -> & H2); [lia|].
  destruct (get_row (k + 1)) as (t1 & -> & H1); [lia|]. destruct (get_row k) as (t0 & -> & H0); [lia|].
  cbn [obind]. rewrite H3. cbn [obind]. rewrite H2. cbn [obind]. rewrite H1. cbn [obind]. rewrite H0. cbn [obind].
  f_equal. rewrite (word_split q Hq) at 5. replace (Z.to_nat k + 4)%nat with (S (Z.to_nat k) + 3)%nat by lia.
  rewrite iter_word by (by apply (land_bits 8)).
  replace (Z.to_nat (k + 3)) with (Z.to_nat k + 3)%nat by lia. replace (Z.to_nat (k + 2)) with (Z.to_nat k + 2)%nat by lia.
  by replace (Z.to_nat (k + 1)) with (Z.to_nat k + 1)%nat by lia.
Qed.

(** Four bytes fed one by one are a word fed at once. *)
Lemma feed_word c b0 b1 b2 b3 : bits 32 c -> bits 8 b0 -> bits 8 b1 -> bits 8 b2 -> bits 8 b3 ->
  feed B c [b0; b1; b2; b3] = Nat.iter 4 B (c ⊕ word b0 b1 b2 b3).
Proof.
  intros Hc H0 H1 H2 H3. assert (forall b, bits 8 b -> bits 32 b) as Hw by (intros; by apply (bits_le 8)).
  rewrite iter_xor by (done || by apply word_bits). rewrite (iter_word 1) by done.
  cbn [feed foldl]. change (Nat.iter 4 B c) with (B (B (B (B c)))). cbn [Nat.add].
  change (Nat.iter 4 B b0) with (B (B (B (B b0)))). change (Nat.iter 3 B b1) with (B (B (B b1))).
  change (Nat.iter 2 B b2) with (B (B b2)). change (Nat.iter 1 B b3) with (B b3).
  rewrite (bs_xor c b0) by auto. set (x := B c ⊕ B b0).
  assert (bits 32 x) by (apply lxor_bits; [lia|apply bs_bits; auto..]).
  rewrite (bs_xor x b1) by auto. assert (bits 32 (B x)) by (by apply bs_bits). assert (bits 32 (B b1)) by (apply bs_bits; auto).
  rewrite (bs_xor (B x ⊕ B b1) b2) by (auto || by apply lxor_bits). rewrite (bs_xor (B x) (B b1)) by auto.
  assert (bits 32 (B b2)) by (apply bs_bits; auto).
  assert (bits 32 (B (B x) ⊕ B (B b1))) by (apply lxor_bits; [lia|by apply bs_bits..]).
  rewrite (bs_xor (_ ⊕ B b2) b3) by (auto || by apply lxor_bits). rewrite (bs_xor _ (B b2)) by auto.
  rewrite (bs_xor (B (B x)) (B (B b1))) by (by apply bs_bits). subst x.
  rewrite (bs_xor (B c) (B b0)) by (apply bs_bits; auto).
  rewrite (bs_xor (B (B c)) (B (B b0))) by (apply bs_bits, bs_bits; auto).
  rewrite (bs_xor (B (B (B c))) (B (B (B b0)))) by (apply bs_bits, bs_bits, bs_bits; auto).
  by rewrite !Z.lxor_assoc.
Qed.

(** ** The loops *)

Lemma feed_bits mem a c bs : bytes_at mem a bs -> bits 32 c -> bits 32 (feed B c bs).
Proof.
  revert a c. induction bs as [|b bs IH]; intros a c; cbn [bytes_at feed foldl]; [done|].
  intros (_ & Hb & Hr) Hc. apply (IH (a + 1)); [done|]. apply bs_bits, lxor_bits; [lia|done|]. by apply (bits_le 8).
Qed.

Lemma land_3 a : a & 3 = a mod 4.
Proof. by apply (Z.land_ones a 2). Qed.

Lemma align_loop_ok mem fuel c buf bs :
  bits 32 c -> bytes_at mem buf bs -> bs <> [] -> 4 - buf mod 4 <= Z.of_nat fuel ->
  exists pre post, bs = pre ++ post /\ (post = [] \/ (buf + Z.of_nat (length pre)) & 3 = 0) /\
    align_loop fuel tab mem c buf (Z.of_nat (length bs)) =
      Ok (feed B c pre, buf + Z.of_nat (length pre), Z.of_nat (length post)).
Proof.
  revert c buf bs. induction fuel as [|fuel IH]; intros c buf bs Hc Hbs Hne Hf.
  { pose proof (Z.mod_pos_bound buf 4). lia. }
  destruct bs as [|b bs]; [done|]. destruct Hbs as (H0 & Hb & Hr). cbn [align_loop].
  rewrite (load8_ok _ _ _ H0). cbn [obind]. rewrite DO_CRC_ok by done. cbn [obind].
  replace (Z.of_nat (length (b :: bs)) - 1) with (Z.of_nat (length bs)) by (cbn; lia).
  assert (bits 32 (B (c ⊕ b))) by (apply bs_bits, lxor_bits; [lia|done|]; by apply (bits_le 8)).
  destruct (Z.eqb_spec (Z.of_nat (length bs)) 0) as [E|E]; cbn [negb andb].
  { apply (Nat2Z.inj _ 0) in E. apply nil_length_inv in E as ->. exists [b], []. eauto. }
  destruct (Z.eqb_spec ((buf + 1) & 3) 0) as [E'|E']; cbn [negb].
  { exists [b], bs. eauto. }
  destruct (IH (B (c ⊕ b)) (buf + 1) bs) as (pre & post & -> & Hal & ->); [done..|by intros ->| |].
  { rewrite land_3 in E'. revert E' Hf. Z.div_mod_to_equations. lia. }
  exists (b :: pre), post. split; [done|]. cbn [length].
  replace (buf + 1 + Z.of_nat (length pre)) with (buf + Z.of_nat (S (length pre))) in * by lia. eauto.
Qed.

Lemma word_loop_ok mem n c b bs :
  bits 32 c -> bytes_at mem (b + 4) bs -> length bs = (8 * n)%nat -> (bs = [] \/ b & 3 = 0) ->
  word_loop n tab mem c b = Ok (feed B c bs, b + 8 * Z.of_nat n).
Proof.
  revert c b bs. induction n as [|n IH]; intros c b bs Hc Hbs Hl Ha.
  { apply nil_length_inv in Hl as ->. cbn. by rewrite Z.add_0_r. }
  destruct Ha as [->|Ha]; [done|]. rewrite land_3 in Ha.
  destruct bs as [|b0 [|b1 [|b2 [|b3 [|b4 [|b5 [|b6 [|b7 bs]]]]]]]]; cbn [length] in Hl; try lia.
  change (b0 :: b1 :: b2 :: b3 :: b4 :: b5 :: b6 :: b7 :: bs) with ([b0; b1; b2; b3] ++ [b4; b5; b6; b7] ++ bs) in *.
  apply bytes_at_app in Hbs as [Hw1 Hbs]. apply bytes_at_app in Hbs as [Hw2 Hbs]. cbn [length] in *.
  assert (forall k, (b + 4 * k) & 3 = 0) as Hal.
  { intros k. by rewrite land_3, Z.mul_comm, Z.mod_add. }
  cbn [word_loop]. rewrite (load32_ok mem (b + 4) _ _ _ _ (Hal 1) Hw1). cbn [obind].
  pose proof Hw1 as (_ & ? & _ & ? & _ & ? & _ & ? & _). pose proof Hw2 as (_ & ? & _ & ? & _ & ? & _ & ? & _).
  assert (bits 32 (word b0 b1 b2 b3)) by (by apply word_bits). assert (bits 32 (word b4 b5 b6 b7)) by (by apply word_bits).
  unfold DO_CRC8, DO_CRC4. rewrite do_crc_ok by (lia || bits_tac). cbn [obind].
  change (Z.of_nat 4) with 4 in *. replace (b + 4 + 4) with (b + 4 * 2) in * by lia.
  rewrite (load32_ok _ _ _ _ _ _ (Hal 2) Hw2). cbn [obind]. rewrite do_crc_ok by (lia || done). cbn [obind].
  rewrite !feed_app, !feed_word by (done || by apply (feed_bits _ _ _ _ Hw1)).
  set (x := c ⊕ word b0 b1 b2 b3). assert (bits 32 x) by bits_tac.
  rewrite (iter_xor 4 (Nat.iter 4 B x)) by (done || by apply iter_bits). rewrite <- iter_plus.
  change (Z.to_nat 4 + 4)%nat with (4 + 4)%nat. change (Z.to_nat 0 + 4)%nat with 4%nat.
  rewrite IH with (bs := bs).
  - do 2 f_equal. lia.
  - apply lxor_bits; [lia|by apply iter_bits..].
  - done.
  - lia.
  - right. apply Hal.
Qed.

Lemma last_bytes_ok mem c p bs :
  bits 32 c -> bytes_at mem (p + 1) bs -> last_bytes (length bs) tab mem c p = Ok (feed B c bs).
Proof.
  revert c p. induction bs as [|b bs IH]; intros c p Hc; [done|]. intros (H0 & Hb & Hr).
  cbn [length last_bytes feed foldl]. rewrite (load8_ok _ _ _ H0). cbn [obind]. rewrite DO_CRC_ok by done. cbn [obind].
  apply IH; [|done]. apply bs_bits, lxor_bits; [lia|done|]. by apply (bits_le 8).
Qed.

Theorem crc32_body_ok mem c buf bs :
  bits 32 c -> bytes_at mem buf bs ->
  crc32_body mem c buf (Z.of_nat (length bs)) tab = Ok (feed B c bs).
Proof.
  intros Hc Hbs. unfold crc32_body.
  assert (exists pre post, bs = pre ++ post /\ (post = [] \/ (buf + Z.of_nat (length pre)) & 3 = 0) /\
    (if negb (buf & 3 =? 0) && negb (Z.of_nat (length bs) =? 0)
     then align_loop 4 tab mem c buf (Z.of_nat (length bs)) else Ok (c, buf, Z.of_nat (length bs))) =
    Ok (feed B c pre, buf + Z.of_nat (length pre), Z.of_nat (length post))) as (pre & post & -> & Hal & ->).
  { destruct (Z.eqb_spec (buf & 3) 0) as [E|E]; cbn [negb andb].
    { exists [], bs. rewrite Z.add_0_r. eauto. }
    destruct (Z.eqb_spec (Z.of_nat (length bs)) 0) as [E'|E']; cbn [negb].
    { apply (Nat2Z.inj _ 0), nil_length_inv in E' as ->. exists [], []. cbn. rewrite Z.add_0_r. eauto. }
    apply align_loop_ok; [done..|by intros ->|]. pose proof (Z.mod_pos_bound buf 4). lia. }
  cbn [obind]. apply bytes_at_app in Hbs as [Hpre Hpost]. rewrite feed_app.
  set (c1 := feed B c pre). assert (bits 32 c1) by (by apply (feed_bits mem buf)).
  set (a := buf + Z.of_nat (length pre)) in *. clearbody c1 a. clear Hpre.
  change 7 with (Z.ones 3). rewrite Z.land_ones, Z.shiftr_div_pow2 by lia. change (2 ^ 3) with 8.
  pose proof (Z.div_mod (Z.of_nat (length post)) 8). pose proof (Z.mod_pos_bound (Z.of_nat (length post)) 8).
  set (n := Z.of_nat (length post) / 8) in *. set (r := Z.of_nat (length post) mod 8) in *. clearbody n r.
  destruct (take_n (Z.to_nat (8 * n)) post) as (words & tail & -> & Hl); [lia|]. rewrite length_app in *.
  apply bytes_at_app in Hpost as [Hw Ht]. rewrite word_loop_ok with (bs := words).
  - cbn [obind]. rewrite feed_app. set (c2 := feed B c1 words). assert (bits 32 c2) by (by apply (feed_bits mem a)).
    case_if; zbool; [assert (tail = []) as -> by (apply nil_length_inv; lia); done|].
    replace (Z.to_nat r) with (length tail) by lia. apply last_bytes_ok; [done|].
    replace (a - 4 + 8 * Z.of_nat (Z.to_nat n) + 4 - 1 + 1) with (a + Z.of_nat (length words)) by lia. done.
  - done.
  - by rewrite Z.sub_add.
  - lia.
  - destruct Hal as [Hn|Hal]; [left; by apply app_eq_nil in Hn as [-> _]|right].
    rewrite land_3 in *. replace (a - 4) with (a + (-1) * 4) by lia. by rewrite Z.mod_add.
Qed.
End Body.
