(* ===== verification/CrcTables.v ===== *)
(** * Checksums: the tables

    The loops that fill the tables end, and every entry is the step of one
    byte, iterated once more in every row, applied to its index: for every
    polynomial, in both orders of bits, whatever the table held before. *)

From stdpp Require Import base gmap list.
From S2P Require Import Prelude Crc CrcBody.
#[local] Open Scope crc_scope.

(** ** Loops *)

Lemma while_ok {A} (P : A -> Prop) (mu : A -> nat) cond body fuel s :
  (forall s, P s -> cond s = true -> exists s', body s = Ok s' /\ P s' /\ (mu s' < mu s)%nat) ->
  P s -> (mu s <= fuel)%nat ->
  exists s', while fuel cond body s = Ok s' /\ P s' /\ cond s' = false.
Proof.
  intros Hbody. revert s. induction fuel as [|fuel IH]; intros s Hs Hf; cbn [while].
  - destruct (cond s) eqn:E; [|eauto]. destruct (Hbody s Hs E) as (? & _ & _ & ?). lia.
  - destruct (cond s) eqn:E; [|eauto]. destruct (Hbody s Hs E) as (s' & -> & ? & ?). cbn [obind].
    apply IH; [done|lia].
Qed.

(** ** Arrays of 256 elements *)

Lemma table_put_ok t i v : length t = 256%nat -> bits 8 i ->
  exists t', put t i v = Ok t' /\ length t' = 256%nat /\ get t' i = Ok v /\
    forall j, 0 <= j -> j <> i -> get t' j = get t j.
Proof.
  intros Hl [Hi Hi']. change (2 ^ 8) with 256 in Hi'. unfold put, get. rewrite Hl.
  case_if; zbool; [lia|]. eexists. split; [done|]. rewrite length_insert. split; [done|]. split.
  - by rewrite list_lookup_insert_eq by lia.
  - intros j Hj Hne. by rewrite list_lookup_insert_ne by lia.
Qed.

Lemma add_lxor n a b : 0 <= n -> bits n a -> a + (b << n) = a ⊕ (b << n).
Proof.
  intros Hn Ha. rewrite <- (lor_disjoint n) by done. rewrite <- Z.lxor_lor, Z.add_nocarry_lxor; try done;
  apply Z.bits_inj'; intros k Hk; rewrite Z.land_spec, Z.bits_0, Z.shiftl_spec by done;
  (destruct (decide (k < n)); [by rewrite (Z.testbit_neg_r _ (k - n)), andb_false_r by lia
                              |by rewrite (bits_testbit n a) by (done || lia)]).
Qed.

Lemma pow2_bits k n : 0 <= k < n -> bits n (2 ^ k).
Proof. intros. split; [apply Z.pow_nonneg; lia|]. apply Z.pow_lt_mono_r; lia. Qed.

Section Fill.
Context (L : Z -> Z) (HL : linear L).

(** ** Least significant bit first *)

Definition known (t : list Z) (i : Z) : Prop :=
  length t = 256%nat /\ forall m, bits 8 m -> (i | m) -> get t m = Ok (L m).

Lemma lsb_fill_from_ok k t :
  0 <= k < 8 -> known t (2 ^ (k + 1)) ->
  exists t', lsb_fill_from (2 ^ k) (L (2 ^ k)) t = Ok t' /\ known t' (2 ^ k).
Proof.
  intros Hk [Hl Ht]. unfold lsb_fill_from. set (i := 2 ^ k).
  assert (2 ^ (k + 1) = 2 * i) as E by (unfold i; rewrite Z.pow_add_r by lia; lia). rewrite E in Ht.
  assert (0 < i) by (apply Z.pow_pos_nonneg; lia).
  assert (2 * i * 2 ^ (7 - k) = 256) as E2.
  { rewrite <- E, <- Z.pow_add_r by lia. by replace (k + 1 + (7 - k)) with 8 by lia. }
  assert (forall q, i + 2 * i * q = i ⊕ (2 * i * q)) as Hx.
  { intros q. rewrite <- E, Z.mul_comm, <- Z.shiftl_mul_pow2 by lia. apply add_lxor; [lia|]. apply pow2_bits. lia. }
  destruct (while_ok (fun '(j, t) => length t = 256%nat /\ (exists q, j = 2 * i * q /\ 0 <= q <= 2 ^ (7 - k)) /\
      forall m, bits 8 m -> (i | m) -> (2 * i | m) \/ m < j -> get t m = Ok (L m))
    (fun '(j, _) => Z.to_nat (2 ^ (7 - k) - j / (2 * i)))
    (fun '(j, _) => j <? 256)
    (fun '(j, t) => let! v := get t j in let! t := put t (i + j) (L i ⊕ v) in Ok (j + 2 * i, t)) 128 (0, t))
    as ([j t'] & -> & (Hl' & _ & Ht') & Hc).
  - intros [j u] (Hlu & (q & -> & Hq) & Hu) Hc. zbool.
    assert (q < 2 ^ (7 - k)) by nia.
    rewrite Hu; [|split; [nia|done]|by exists (2 * q); lia|left; by exists q; lia]. cbn [obind].
    destruct (table_put_ok u (i + 2 * i * q) (L i ⊕ L (2 * i * q))) as (u' & -> & Hlu' & Hi & Ho); [done|split; [nia|]|].
    { change (2 ^ 8) with 256. nia. }
    cbn [obind]. eexists. split; [done|]. split; [split; [done|split]|].
    + exists (q + 1). lia.
    + intros m Hm Hd Hor. destruct (decide (m = i + 2 * i * q)) as [->|].
      { by rewrite Hi, <- HL, Hx. }
      rewrite Ho by (done || apply Hm). apply Hu; [done..|].
      destruct Hor as [?|Hlt]; [by left|]. destruct Hd as [d ->].
      destruct (decide (d * i < 2 * i * q)); [by right|left].
      assert (d = 2 * q \/ d = 2 * q + 1) as [->| ->] by nia; [by exists q; lia|lia].
    + replace (2 * i * q + 2 * i) with ((q + 1) * (2 * i)) by lia. rewrite (Z.mul_comm _ q), !Z.div_mul by lia. lia.
  - split; [done|]. split; [exists 0; split; [lia|]; split; [lia|apply Z.pow_nonneg; lia]|].
    intros m Hm _ [?|?]; [by apply Ht|]. destruct Hm. lia.
  - rewrite Z.div_0_l by lia. assert (2 ^ (7 - k) <= 2 ^ 7) by (apply Z.pow_le_mono_r; lia). lia.
  - cbn [obind]. zbool. eexists. split; [done|]. split; [done|]. intros m Hm Hd. apply Ht'; [done..|].
    right. destruct Hm as [_ Hm]. change (2 ^ 8) with 256 in Hm. lia.
Qed.

(** ** Most significant bit first *)

Definition known_below (t : list Z) (i : Z) : Prop :=
  length t = 256%nat /\ forall m, 0 <= m < i -> get t m = Ok (L m).

Lemma msb_fill_from_ok k t :
  0 <= k < 8 -> known_below t (2 ^ k) ->
  exists t', msb_fill_from (2 ^ k) (L (2 ^ k)) t = Ok t' /\ known_below t' (2 ^ (k + 1)).
Proof.
  intros Hk [Hl Ht]. unfold msb_fill_from. set (i := 2 ^ k) in *.
  assert (2 ^ (k + 1) = 2 * i) as E by (unfold i; rewrite Z.pow_add_r by lia; lia). rewrite E.
  assert (0 < i <= 2 ^ 7) by (split; [apply Z.pow_pos_nonneg; lia|apply Z.pow_le_mono_r; lia]).
  assert (forall j, 0 <= j < i -> i + j = i ⊕ j) as Hx.
  { intros j Hj. rewrite Z.add_comm, Z.lxor_comm. unfold i. rewrite <- (Z.mul_1_l (2 ^ k)), <- Z.shiftl_mul_pow2 by lia.
    apply add_lxor; [lia|done]. }
  destruct (while_ok (fun '(j, t) => 0 <= j <= i /\ known_below t (i + j))
    (fun '(j, _) => Z.to_nat (i - j)) (fun '(j, _) => j <? i)
    (fun '(j, t) => let! v := get t j in let! t := put t (i + j) (L i ⊕ v) in Ok (j + 1, t)) 128 (0, t))
    as ([j t'] & -> & (Hj & Ht') & Hc).
  - intros [j u] (Hj & Hlu & Hu) Hc. zbool. rewrite Hu by lia. cbn [obind].
    destruct (table_put_ok u (i + j) (L i ⊕ L j)) as (u' & -> & Hlu' & Hi & Ho); [done|split; [lia|]|].
    { change (2 ^ 8) with (2 * 2 ^ 7). lia. }
    cbn [obind]. eexists. split; [done|]. split; [split; [lia|split; [done|]]|lia].
    intros m Hm. destruct (decide (m = i + j)) as [->|]; [by rewrite Hi, <- HL, Hx by lia|].
    rewrite Ho by lia. apply Hu. lia.
  - split; [lia|]. by rewrite Z.add_0_r.
  - lia.
  - cbn [obind]. zbool. assert (j = i) as -> by lia. eexists. split; [done|]. by replace (2 * i) with (i + i) by lia.
Qed.
End Fill.

(** The step of one byte, and the checksum of a byte. *)
Definition lsb_byte (p : Z) : Z -> Z := Nat.iter 8 (lsb_step p).
Definition msb_byte (w p : Z) : Z -> Z := Nat.iter 8 (msb_step w p).

Lemma lsb_byte_linear p : linear (lsb_byte p).
Proof. apply linear_iter, lsb_linear. Qed.

Lemma msb_byte_linear w p : 1 <= w -> linear (msb_byte w p).
Proof. intros. by apply linear_iter, msb_linear. Qed.

(** The entry [i] of a table is the checksum of the byte [i]. *)
Definition msb_entry (w p i : Z) : Z := msb_byte w p (i << (w - 8)).

Lemma msb_entry_linear w p : 1 <= w -> linear (msb_entry w p).
Proof. intros ? a b. unfold msb_entry. by rewrite shiftl_lxor, msb_byte_linear. Qed.

Lemma iter_split {A} m n k (f : A -> A) x : (m + n = k)%nat -> Nat.iter k f x = Nat.iter m f (Nat.iter n f x).
Proof. intros <-. apply iter_plus. Qed.

Lemma lsb_pow2 p k : (k < 8)%nat -> lsb_byte p (2 ^ Z.of_nat k) = Nat.iter (8 - k) (lsb_step p) 1.
Proof.
  intros. unfold lsb_byte. rewrite (iter_split (8 - k) k 8) by lia. f_equal.
  rewrite <- (Z.mul_1_l (2 ^ _)), <- Z.shiftl_mul_pow2 by lia. apply lsb_iter_shift.
Qed.

Lemma msb_pow2 w p k : 8 <= w -> (k < 8)%nat ->
  msb_entry w p (2 ^ Z.of_nat k) = Nat.iter (S k) (msb_step w p) (2 ^ (w - 1)).
Proof.
  intros Hw Hk. unfold msb_entry, msb_byte. rewrite (iter_split (S k) (7 - k) 8) by lia.
  f_equal. rewrite Z.shiftl_mul_pow2, <- Z.pow_add_r by lia.
  rewrite msb_iter_shift; [|lia..|apply pow2_bits; lia].
  rewrite Z.shiftl_mul_pow2, <- Z.pow_add_r by lia. f_equal. lia.
Qed.

(** ** The first rows, and the tables of CRC-8 *)

Lemma lsb_outer_ok p n t : (n <= 8)%nat -> known (lsb_byte p) t (2 ^ Z.of_nat n) ->
  exists t' crc, while n (fun '(i, _, _) => negb (i =? 0))
      (fun '(i, crc, t) => let! t := lsb_fill_from i (lsb_step p crc) t in Ok (i >> 1, lsb_step p crc, t))
      (2 ^ Z.of_nat n >> 1, Nat.iter (8 - n) (lsb_step p) 1, t) = Ok (0, crc, t') /\ known (lsb_byte p) t' 1.
Proof.
  revert t. induction n as [|n IH]; intros t Hn Ht; [cbn; eauto|].
  assert (2 ^ Z.of_nat (S n) >> 1 = 2 ^ Z.of_nat n) as ->.
  { rewrite Z.shiftr_div_pow2, Nat2Z.inj_succ, Z.pow_succ_r, Z.mul_comm by lia. by apply Z.div_mul. }
  cbn [while]. destruct (Z.eqb_spec (2 ^ Z.of_nat n) 0) as [E|_].
  { pose proof (Z.pow_pos_nonneg 2 (Z.of_nat n)). lia. }
  cbn [negb]. rewrite <- iter_S. replace (S (8 - S n)) with (8 - n)%nat by lia. rewrite <- lsb_pow2 by lia.
  destruct (lsb_fill_from_ok (lsb_byte p) (lsb_byte_linear p) (Z.of_nat n) t) as (t' & -> & Ht'); [lia| |].
  { by replace (Z.of_nat n + 1) with (Z.of_nat (S n)) by lia. }
  cbn [obind]. rewrite lsb_pow2 by lia. apply IH; [lia|done].
Qed.

Lemma lsb_fill_ok p t : length t = 256%nat ->
  exists t', lsb_fill p t = Ok t' /\ known (lsb_byte p) t' 1.
Proof.
  intros Hl. unfold lsb_fill. destruct (table_put_ok t 0 0) as (t0 & -> & Hl0 & H0 & _); [done|by split|]. cbn [obind].
  destruct (lsb_outer_ok p 8 t0) as (t' & crc & Hw & Ht'); [lia| |].
  - split; [done|]. intros m [? Hm] [q ->]. change (2 ^ Z.of_nat 8) with 256 in *. change (2 ^ 8) with 256 in Hm.
    assert (q = 0) as -> by lia. by rewrite Z.mul_0_l, (linear_0 (lsb_byte p)) by apply lsb_byte_linear.
  - change (2 ^ Z.of_nat 8) with 256 in Hw. change (Nat.iter (8 - 8) (lsb_step p) 1) with 1 in Hw.
    rewrite Hw. cbn [obind]. eauto.
Qed.

Lemma msb_outer_ok w p n t : 8 <= w -> (n <= 8)%nat -> known_below (msb_entry w p) t (2 ^ Z.of_nat (8 - n)) ->
  exists t' crc i, while n (fun '(i, _, _) => i <? 256)
      (fun '(i, crc, t) => let! t := msb_fill_from i (msb_step w p crc) t in Ok (i << 1, msb_step w p crc, t))
      (2 ^ Z.of_nat (8 - n), Nat.iter (8 - n) (msb_step w p) (2 ^ (w - 1)), t) = Ok (i, crc, t') /\
      known_below (msb_entry w p) t' 256.
Proof.
  intros Hw. revert t. induction n as [|n IH]; intros t Hn Ht.
  { change (2 ^ Z.of_nat (8 - 0)) with 256 in *. cbn [while Z.ltb Z.compare Pos.compare Pos.compare_cont]. eauto. }
  set (k := (8 - S n)%nat) in *. cbn [while]. destruct (Z.ltb_spec (2 ^ Z.of_nat k) 256) as [_|E].
  2: { assert (2 ^ Z.of_nat k < 2 ^ 8) by (apply Z.pow_lt_mono_r; lia). change (2 ^ 8) with 256 in *. lia. }
  rewrite <- iter_S, <- msb_pow2 by lia.
  destruct (msb_fill_from_ok (msb_entry w p) (msb_entry_linear w p ltac:(lia)) (Z.of_nat k) t) as (t' & -> & Ht'); [lia|done|].
  cbn [obind]. replace (8 - n)%nat with (S k) in IH by lia. rewrite msb_pow2 by lia.
  replace (2 ^ Z.of_nat k << 1) with (2 ^ Z.of_nat (S k)).
  - apply IH; [lia|]. by replace (Z.of_nat (S k)) with (Z.of_nat k + 1) by lia.
  - rewrite Z.shiftl_mul_pow2, Nat2Z.inj_succ, Z.pow_succ_r by lia. lia.
Qed.

Lemma msb_fill_ok w p t : 8 <= w -> length t = 256%nat ->
  exists t', msb_fill w p t = Ok t' /\ known_below (msb_entry w p) t' 256.
Proof.
  intros Hw Hl. unfold msb_fill. destruct (table_put_ok t 0 0) as (t0 & -> & Hl0 & H0 & _); [done|by split|]. cbn [obind].
  destruct (msb_outer_ok w p 8 t0) as (t' & crc & i & Hwh & Ht'); [done|lia| |].
  - split; [done|]. intros m Hm. change (2 ^ Z.of_nat (8 - 8)) with 1 in Hm. assert (m = 0) as -> by lia.
    rewrite H0. f_equal. symmetry. apply (linear_0 (msb_entry w p)). apply msb_entry_linear. lia.
  - change (2 ^ Z.of_nat (8 - 8)) with 1 in Hwh. change (Nat.iter (8 - 8) (msb_step w p) (2 ^ (w - 1))) with (2 ^ (w - 1)) in Hwh.
    rewrite Hwh. cbn [obind]. eauto.
Qed.

(** ** The step of one byte by its table *)

Lemma lsb_byte_split p q : lsb_byte p q = lsb_byte p (q & 255) ⊕ (q >> 8).
Proof.
  rewrite (split_low 8 q) at 1 by lia. rewrite lsb_byte_linear. f_equal. apply (lsb_iter_shift p 8).
Qed.

Lemma msb_byte_split w p q : 8 <= w -> bits w q ->
  msb_byte w p q = msb_entry w p (q >> (w - 8)) ⊕ ((q << 8) mod 2 ^ w).
Proof.
  intros Hw Hq. rewrite (split_low (w - 8) q) at 1 by lia. rewrite msb_byte_linear, Z.lxor_comm by lia. f_equal.
  assert (bits (w - 8) (q & Z.ones (w - 8))) by (apply land_bits; lia).
  unfold msb_byte. rewrite msb_iter_shift; [|lia|lia|done]. change (Z.of_nat 8) with 8.
  rewrite Z.land_ones, !Z.shiftl_mul_pow2 by lia. rewrite <- Z.mul_mod_distr_r by (apply Z.pow_nonzero; lia).
  rewrite <- Z.pow_add_r by lia. by replace (w - 8 + 8) with w by lia.
Qed.

(** ** The other rows *)

Definition cell (tab : list (list Z)) (k i : Z) : outcome Z := let! t := row tab k in get t i.
Definition tables (tab : list (list Z)) : Prop := length tab = 8%nat /\ Forall (fun t => length t = 256%nat) tab.

Lemma row_ok tab k : tables tab -> 0 <= k < 8 -> exists t, row tab k = Ok t /\ length t = 256%nat.
Proof.
  intros [Hl Ht] Hk. unfold row. destruct (lookup_lt_is_Some_2 tab (Z.to_nat k)) as [t E]; [lia|].
  rewrite E. eexists. split; [done|]. by eapply Forall_lookup_1 in E; [|exact Ht].
Qed.

Lemma put_row_ok tab k i v : tables tab -> 0 <= k < 8 -> bits 8 i ->
  exists tab', put_row tab k i v = Ok tab' /\ tables tab' /\ cell tab' k i = Ok v /\
    (forall k' i', 0 <= k' -> 0 <= i' -> k' <> k \/ i' <> i -> cell tab' k' i' = cell tab k' i') /\
    (k <> 0 -> row tab' 0 = row tab 0).
Proof.
  intros Ht Hk Hi. unfold put_row. destruct (row_ok tab k Ht Hk) as (t & E & Hl). rewrite E. cbn [obind].
  destruct (table_put_ok t i v Hl Hi) as (t' & -> & Hl' & Hv & Ho). cbn [obind].
  eexists. split; [done|]. destruct Ht as [Hl8 Ht].
  assert (row (<[Z.to_nat k := t']> tab) k = Ok t') as E'.
  { unfold row. by rewrite list_lookup_insert_eq by lia. }
  assert (forall k', 0 <= k' -> k' <> k -> row (<[Z.to_nat k := t']> tab) k' = row tab k') as Er.
  { intros k' ??. unfold row. by rewrite list_lookup_insert_ne by lia. }
  split; [|split; [|split]].
  - split; [by rewrite length_insert|]. by apply Forall_insert.
  - unfold cell. by rewrite E'.
  - intros k' i' ?? Hne. unfold cell. destruct (decide (k' = k)) as [->|]; [|by rewrite Er].
    rewrite E', E. cbn [obind]. apply Ho; [done|]. by destruct Hne.
  - intros. by apply Er.
Qed.

Section Rows.
Context (byte : list (list Z) -> Z -> outcome Z) (F : Z -> Z) (t0 : list Z) (v : Z -> Z).
Context (Hv : forall i, bits 8 i -> get t0 i = Ok (v i) /\ bits 32 (v i)).
Context (HF : forall c, bits 32 c -> bits 32 (F c)).
Context (Hbyte : forall tab c, row tab 0 = Ok t0 -> bits 32 c -> byte tab c = Ok (F c)).

Definition column (tab : list (list Z)) (i n : Z) : Prop :=
  forall k, 0 <= k < n -> cell tab k i = Ok (Nat.iter (Z.to_nat k) F (v i)).

Lemma fill_column_ok tab i : tables tab -> row tab 0 = Ok t0 -> bits 8 i ->
  exists tab', fill_column byte 8 i (v i) tab = Ok tab' /\ tables tab' /\ row tab' 0 = Ok t0 /\ column tab' i 8 /\
    forall i' n, 0 <= i' -> i' <> i -> column tab i' n -> column tab' i' n.
Proof.
  intros Ht H0 Hi. unfold fill_column. destruct (Hv i Hi) as [Hvi Hb].
  destruct (while_ok (fun '(j, c, u) => tables u /\ row u 0 = Ok t0 /\ 1 <= j <= 8 /\
      c = Nat.iter (Z.to_nat (j - 1)) F (v i) /\ column u i j /\
      forall i' n, 0 <= i' -> i' <> i -> column tab i' n -> column u i' n)
    (fun '(j, _, _) => Z.to_nat (8 - j)) (fun '(j, _, _) => j <? 8)
    (fun '(j, c, u) => let! c := byte u c in let! u := put_row u j i c in Ok (j + 1, c, u)) 8 (1, v i, tab))
    as ([[j c] tab'] & -> & (Ht' & H0' & Hj & _ & Hcol & Hoth) & Hc).
  - intros [[j c] u] (Hu & Hu0 & Hj & -> & Hcol & Hoth) Hc. zbool.
    rewrite (Hbyte u) by (done || by apply iter_pres). cbn [obind].
    destruct (put_row_ok u j i (F (Nat.iter (Z.to_nat (j - 1)) F (v i)))) as (u' & -> & Hu' & Hnew & Hold & Hr0); [done|lia|done|].
    cbn [obind]. eexists. split; [done|]. split; [|lia]. rewrite <- iter_S.
    split; [done|]. split; [by rewrite Hr0 by lia|]. split; [lia|]. split; [|split].
    + f_equal. lia.
    + intros k Hk. destruct (decide (k = j)) as [->|].
      * rewrite Hnew, <- iter_S. do 2 f_equal. lia.
      * rewrite Hold; [apply Hcol; lia|lia|by destruct Hi|by left].
    + intros i' n ?? Hn k Hk. rewrite Hold; [by apply (Hoth i' n)|lia|done|by right].
  - split; [done|]. split; [done|]. split; [lia|]. split; [done|]. split; [|done].
    intros k Hk. assert (k = 0) as -> by lia. unfold cell. by rewrite H0.
  - lia.
  - cbn [obind]. zbool. assert (j = 8) as -> by lia. eauto 6.
Qed.

Lemma fill_rows_ok tab : tables tab -> row tab 0 = Ok t0 ->
  exists tab', fill_rows byte 8 tab = Ok tab' /\ tables tab' /\ forall i, bits 8 i -> column tab' i 8.
Proof.
  intros Ht H0. unfold fill_rows.
  destruct (while_ok (fun '(i, u) => tables u /\ row u 0 = Ok t0 /\ 0 <= i <= 256 /\ forall i', 0 <= i' < i -> column u i' 8)
    (fun '(i, _) => Z.to_nat (256 - i)) (fun '(i, _) => i <? 256)
    (fun '(i, u) => let! t0 := row u 0 in let! c := get t0 i in let! u := fill_column byte 8 i c u in Ok (i + 1, u))
    256 (0, tab)) as ([i tab'] & -> & (Ht' & _ & Hi & Hcol) & Hc).
  - intros [i u] (Hu & Hu0 & Hi & Hcol) Hc. zbool. rewrite Hu0. cbn [obind].
    assert (bits 8 i) as Hb by (split; [lia|done]). destruct (Hv i Hb) as [-> _]. cbn [obind].
    destruct (fill_column_ok u i Hu Hu0 Hb) as (u' & -> & Hu' & Hu0' & Hnew & Hold). cbn [obind].
    eexists. split; [done|]. split; [|lia]. split; [done|]. split; [done|]. split; [lia|].
    intros i' Hi'. destruct (decide (i' = i)) as [->|]; [done|]. apply Hold; [lia|done|]. apply Hcol. lia.
  - split; [done|]. split; [done|]. split; [lia|]. intros. lia.
  - lia.
  - cbn [obind]. zbool. eexists. split; [done|]. split; [done|]. intros i' [? Hi']. change (2 ^ 8) with 256 in Hi'.
    apply Hcol. lia.
Qed.
End Rows.

(** ** The three tables of CRC-32 *)

Definition good_tables (B v : Z -> Z) (tab : list (list Z)) : Prop :=
  tables tab /\ forall k i, 0 <= k < 8 -> bits 8 i -> cell tab k i = Ok (Nat.iter (Z.to_nat k) B (v i)).

Lemma no_table_ok t0 : length t0 = 256%nat ->
  tables (<[0%nat := t0]> (no_table 8)) /\ row (<[0%nat := t0]> (no_table 8)) 0 = Ok t0.
Proof. intros. split; [|done]. split; [done|]. repeat constructor; done. Qed.

Lemma lsb_byte_bits p c : bits 32 p -> bits 32 c -> bits 32 (lsb_byte p c).
Proof. intros. apply (iter_pres (bits 32) 8); [|done]. intros. by apply lsb_bits. Qed.

Lemma msb_byte_bits p c : bits 32 p -> bits 32 c -> bits 32 (msb_byte 32 p c).
Proof. intros. apply (iter_pres (bits 32) 8); [|done]. intros. by apply msb_bits. Qed.

Lemma crc32init_le_ok p : bits 32 p ->
  exists tab, crc32init_le_generic p = Ok tab /\ good_tables (lsb_byte p) (lsb_byte p) tab.
Proof.
  intros Hp. unfold crc32init_le_generic. change LE_TABLE_ROWS with 8. change (row (no_table 8) 0) with (Ok (replicate 256 0)).
  cbn [obind]. destruct (lsb_fill_ok p (replicate 256 0)) as (t0 & -> & Hl & Hg); [done|]. cbn [obind].
  destruct (no_table_ok t0 Hl) as [Ht H0].
  assert (forall i, bits 8 i -> get t0 i = Ok (lsb_byte p i)) as Hg' by (intros i Hi; apply Hg; [done|apply Z.divide_1_l]).
  edestruct (fill_rows_ok (fun tab crc => let! t0 := row tab 0 in let! v := get t0 (crc & 0xff) in Ok (v ⊕ (crc >> 8)))
    (lsb_byte p) t0 (lsb_byte p)) as (tab & Hf & Htab & Hcol); [..|exact Ht|exact H0|].
  - intros i Hi. split; [by apply Hg'|]. apply lsb_byte_bits; [done|]. by apply (bits_le 8).
  - intros. by apply lsb_byte_bits.
  - intros u c Hu Hc. rewrite Hu. cbn [obind]. rewrite Hg' by (by apply (land_bits 8)). cbn [obind].
    by rewrite (lsb_byte_split p c).
  - exists tab. split; [exact Hf|]. split; [done|]. intros k i Hk Hi. by apply Hcol.
Qed.

Lemma crc32init_be_ok :
  exists tab, crc32init_be = Ok tab /\ good_tables (msb_byte 32 CRCPOLY_BE) (msb_entry 32 CRCPOLY_BE) tab.
Proof.
  assert (bits 32 CRCPOLY_BE) as Hp by done. revert Hp. unfold crc32init_be. generalize CRCPOLY_BE as p. intros p Hp.
  change BE_TABLE_ROWS with 8. change (row (no_table 8) 0) with (Ok (replicate 256 0)).
  cbn [obind]. destruct (msb_fill_ok 32 p (replicate 256 0)) as (t0 & -> & Hl & Hg); [done..|]. cbn [obind].
  destruct (no_table_ok t0 Hl) as [Ht H0].
  assert (forall i, bits 8 i -> get t0 i = Ok (msb_entry 32 p i)) as Hg' by (intros i Hi; by apply Hg).
  edestruct (fill_rows_ok (fun tab crc => let! t0 := row tab 0 in let! v := get t0 ((crc >> 24) & 0xff) in Ok (v ⊕ u32 (crc << 8)))
    (msb_byte 32 p) t0 (msb_entry 32 p)) as (tab & Hf & Htab & Hcol); [..|exact Ht|exact H0|].
  - intros i Hi. split; [by apply Hg'|]. apply msb_byte_bits; [done|]. by apply (shiftl_bits 8 24).
  - intros. by apply msb_byte_bits.
  - intros u c Hu Hc. rewrite Hu. cbn [obind]. rewrite Hg' by (by apply (land_bits 8)). cbn [obind].
    rewrite (msb_byte_split 32 p c) by done. do 3 f_equal. change 0xff with (Z.ones 8).
    rewrite Z.land_ones by done. apply Z.mod_small. by apply (shiftr_bits 32 24).
  - exists tab. split; [exact Hf|]. split; [done|]. intros k i Hk Hi. by apply Hcol.
Qed.

(** From here on the tables are known by their entries alone. *)
#[global] Opaque crc32init_le_generic crc32init_be.
