(* ===== verification/CrcValue.v ===== *)
(** * Checksums: both orders of bits, and the message as a number

    The steps of one byte of CRC-32 in both orders of bits implement the
    interface [ByteStep].  The checksum with the least significant bit first
    is the message, as one number whose first byte is the lowest, stepped
    once for every bit.  From this follow the combination of checksums, the
    appending of zero bytes by [crc32_generic_shift], and that no burst of
    errors goes unseen that is not longer than the register. *)

From stdpp Require Import base gmap list.
From S2P Require Import Prelude Crc CrcBody CrcTables.

#[local] Open Scope crc_scope.

(** ** The checksums, one bit at a time *)

Definition lsb_crc (polynomial c : Z) (bs : list Z) : Z :=
  foldl (fun c b => Nat.iter 8 (lsb_step polynomial) (c ⊕ b)) c bs.

Definition msb_crc (w polynomial c : Z) (bs : list Z) : Z :=
  foldl (fun c b => Nat.iter 8 (msb_step w polynomial) (c ⊕ (b << (w - 8)))) c bs.

Lemma crc32_le_bits_ok mem c p bs poly : bytes_at mem p bs ->
  crc32_le_bits (length bs) mem c p poly = Ok (lsb_crc poly c bs).
Proof.
  revert c p. induction bs as [|b bs IH]; intros c p; [done|]. intros (H & _ & Hr).
  cbn [length crc32_le_bits]. rewrite (load8_ok _ _ _ H). by apply IH.
Qed.

Lemma crc32_be_bits_ok mem c p bs poly : bytes_at mem p bs ->
  crc32_be_bits (length bs) mem c p poly = Ok (msb_crc 32 poly c bs).
Proof.
  revert c p. induction bs as [|b bs IH]; intros c p; [done|]. intros (H & _ & Hr).
  cbn [length crc32_be_bits]. rewrite (load8_ok _ _ _ H). by apply IH.
Qed.

(** ** Least significant bit first *)

Lemma good_row B v tab k : good_tables B v tab -> 0 <= k < 8 ->
  exists t, row tab k = Ok t /\ forall i, bits 8 i -> get t i = Ok (Nat.iter (Z.to_nat k) B (v i)).
Proof.
  intros [Ht Hc] Hk. destruct (row_ok tab k Ht Hk) as (t & E & _). exists t. split; [done|].
  intros i Hi. specialize (Hc k i Hk Hi). unfold cell in Hc. by rewrite E in Hc.
Qed.

Lemma lsb_ByteStep p tab : bits 32 p -> good_tables (lsb_byte p) (lsb_byte p) tab -> ByteStep (lsb_byte p) tab.
Proof.
  intros Hp Ht. split.
  - intros. by apply lsb_byte_bits.
  - intros. apply lsb_byte_linear.
  - intros y _. apply (lsb_iter_shift p 8).
  - intros k Hk. destruct (good_row _ _ _ _ Ht Hk) as (t & E & Hg). exists t. split; [done|].
    intros i Hi. rewrite Hg by done. by rewrite iter_S, <- iter_swap.
Qed.

Lemma crc32_le_ok mem c a bs p tab : bits 32 p -> crc32init_le_generic p = Ok tab -> bits 32 c -> bytes_at mem a bs ->
  crc32_le_generic mem c a (Z.of_nat (length bs)) tab = Ok (lsb_crc p c bs).
Proof.
  intros Hp Ht Hc Hbs. destruct (crc32init_le_ok p Hp) as (tab' & E & Hg). rewrite Ht in E. injection E as <-.
  unfold crc32_le_generic. rewrite (crc32_body_ok (lsb_byte p) tab (BS := lsb_ByteStep p tab Hp Hg)) by done. done.
Qed.

(** ** Most significant bit first *)

(** The documented behaviour of the conversions on a little-endian machine:
    both reverse the order of the bytes of a word. *)
Class ByteOrder (cpu_to_be32 be32_to_cpu : Z -> Z) : Prop := {
  to_be_word b0 b1 b2 b3 : bits 8 b0 -> bits 8 b1 -> bits 8 b2 -> bits 8 b3 ->
    cpu_to_be32 (word b0 b1 b2 b3) = word b3 b2 b1 b0;
  to_cpu_word b0 b1 b2 b3 : bits 8 b0 -> bits 8 b1 -> bits 8 b2 -> bits 8 b3 ->
    be32_to_cpu (word b0 b1 b2 b3) = word b3 b2 b1 b0;
}.

Lemma word_ind q : bits 32 q -> exists b0 b1 b2 b3, q = word b0 b1 b2 b3 /\ bits 8 b0 /\ bits 8 b1 /\ bits 8 b2 /\ bits 8 b3.
Proof. intros Hq. do 4 eexists. split; [exact (word_split q Hq)|]. repeat split; apply (land_bits 8); lia. Qed.

Lemma word_lxor a0 a1 a2 a3 b0 b1 b2 b3 :
  word a0 a1 a2 a3 ⊕ word b0 b1 b2 b3 = word (a0 ⊕ b0) (a1 ⊕ b1) (a2 ⊕ b2) (a3 ⊕ b3).
Proof. unfold word. rewrite !shiftl_lxor. do 3 (rewrite lxor_swap4; f_equal). Qed.

Section BigEndianFacts.
Context (to_be to_cpu : Z -> Z) {BO : ByteOrder to_be to_cpu}.

Lemma to_be_xor a b : bits 32 a -> bits 32 b -> to_be (a ⊕ b) = to_be a ⊕ to_be b.
Proof.
  intros (a0 & a1 & a2 & a3 & -> & ? & ? & ? & ?)%word_ind (b0 & b1 & b2 & b3 & -> & ? & ? & ? & ?)%word_ind.
  rewrite word_lxor, !to_be_word, word_lxor by (done || by apply lxor_bits). done.
Qed.

Lemma to_cpu_eq a : bits 32 a -> to_cpu a = to_be a.
Proof. intros (a0 & a1 & a2 & a3 & -> & ? & ? & ? & ?)%word_ind. by rewrite to_cpu_word, to_be_word. Qed.

Lemma to_be_bits a : bits 32 a -> bits 32 (to_be a).
Proof. intros (a0 & a1 & a2 & a3 & -> & ? & ? & ? & ?)%word_ind. rewrite to_be_word by done. by apply word_bits. Qed.

Lemma to_be_be a : bits 32 a -> to_be (to_be a) = a.
Proof. intros (a0 & a1 & a2 & a3 & -> & ? & ? & ? & ?)%word_ind. by rewrite !to_be_word. Qed.

Lemma to_be_byte b : bits 8 b -> to_be b = b << 24.
Proof.
  intros Hb. assert (bits 8 0) by done.
  transitivity (to_be (word b 0 0 0)); [f_equal; unfold word; by rewrite !Z.shiftl_0_l, !Z.lxor_0_r|].
  rewrite to_be_word by done. unfold word. by rewrite !Z.shiftl_0_l, !Z.lxor_0_l.
Qed.

(** A byte less on the one side is a byte more on the other. *)
Lemma to_be_shift y : bits 24 y -> bits 24 (to_be (y << 8)) /\ to_be (to_be (y << 8) << 8) = y.
Proof.
  intros Hy. assert (bits 8 0) as H0 by done.
  destruct (word_ind y) as (y0 & y1 & y2 & y3 & E & ? & ? & ? & ?); [by apply (bits_le 24)|].
  assert (y = word y0 y1 y2 0) as ->.
  { assert (y3 = 0) as ->; [|done]. apply Z.bits_inj'. intros n Hn. rewrite Z.bits_0.
    destruct (decide (n < 8)); [|apply (bits_testbit 8); [done|lia]].
    assert (Z.testbit y (n + 24) = false) as Hf by (apply (bits_testbit 24); [done|lia]).
    rewrite E in Hf. unfold word in Hf. rewrite !Z.lxor_spec, !Z.shiftl_spec in Hf by lia.
    rewrite (bits_testbit 8 y0), (bits_testbit 8 y1), (bits_testbit 8 y2) in Hf by (done || lia).
    by rewrite Z.add_simpl_r in Hf. }
  assert (forall a b c, word a b c 0 << 8 = word 0 a b c) as Hs.
  { intros. unfold word. rewrite !shiftl_lxor, !Z.shiftl_shiftl, !Z.shiftl_0_l, Z.lxor_0_r, Z.lxor_0_l by lia. done. }
  rewrite !Hs, to_be_word, Hs, to_be_word by done. split; [|done].
  unfold word. rewrite Z.shiftl_0_l, Z.lxor_0_r. repeat (apply lxor_bits; [lia| |]).
  - by apply (bits_le 8).
  - apply (bits_le (8 + 8)); [lia|]. by apply shiftl_bits.
  - by apply (shiftl_bits 8 16).
Qed.

(** The step of a byte on a register whose bytes are reversed. *)
Definition be_byte (p c : Z) : Z := to_be (msb_byte 32 p (to_be c)).

Lemma be_byte_iter p n c : bits 32 p -> bits 32 c ->
  Nat.iter n (be_byte p) c = to_be (Nat.iter n (msb_byte 32 p) (to_be c)).
Proof.
  intros Hp Hc. induction n as [|n IH]; [cbn; by rewrite to_be_be|].
  rewrite !iter_S, IH. unfold be_byte. rewrite to_be_be; [done|].
  apply iter_pres; [|by apply to_be_bits]. intros. by apply msb_byte_bits.
Qed.

Lemma get_map f t i v : get t i = Ok v -> get (map f t) i = Ok (f v).
Proof. unfold get. rewrite list_lookup_fmap. destruct (t !! Z.to_nat i); cbn; congruence. Qed.

Lemma be_ByteStep p tab : bits 32 p -> good_tables (msb_byte 32 p) (msb_entry 32 p) tab ->
  ByteStep (be_byte p) (map (map (tobe to_be)) tab).
Proof.
  intros Hp Ht. split.
  - intros c Hc. by apply to_be_bits, msb_byte_bits, to_be_bits.
  - intros a b Ha Hb. unfold be_byte. rewrite to_be_xor, msb_byte_linear by (done || lia).
    apply to_be_xor; by apply msb_byte_bits, to_be_bits.
  - intros y Hy. unfold be_byte. destruct (to_be_shift y Hy) as [Hs E].
    unfold msb_byte. rewrite (msb_iter_shift 32 p 8); [exact E|lia..|exact Hs].
  - intros k Hk. destruct (good_row _ _ _ _ Ht Hk) as (t & E & Hg). exists (map (tobe to_be) t). split.
    + unfold row in *. rewrite list_lookup_fmap. destruct (tab !! Z.to_nat k); cbn; congruence.
    + intros i Hi. rewrite (get_map _ _ _ _ (Hg i Hi)), be_byte_iter; [|done|by apply (bits_le 8)].
      unfold tobe. by rewrite (to_be_byte i), iter_S, <- iter_swap by done.
Qed.

Lemma be_feed mem a p c bs : bits 32 p -> bits 32 c -> bytes_at mem a bs ->
  feed (be_byte p) (to_be c) bs = to_be (msb_crc 32 p c bs) /\ bits 32 (msb_crc 32 p c bs).
Proof.
  intros Hp. revert a c. induction bs as [|b bs IH]; intros a c Hc; [done|]. intros (_ & Hb & Hr). cbn [feed msb_crc foldl].
  assert (bits 32 (b << 24)) by (by apply (shiftl_bits 8 24)).
  assert (be_byte p (to_be c ⊕ b) = to_be (msb_byte 32 p (c ⊕ (b << 24)))) as ->.
  { unfold be_byte. rewrite to_be_xor; [|by apply to_be_bits|by apply (bits_le 8)].
    by rewrite (to_be_be c), (to_be_byte b). }
  apply (IH (a + 1)); [|done]. apply msb_byte_bits; [done|]. by apply lxor_bits.
Qed.

Lemma crc32_be_ok mem c a bs : bits 32 c -> bytes_at mem a bs ->
  crc32_be to_be to_cpu mem c a (Z.of_nat (length bs)) = Ok (msb_crc 32 CRCPOLY_BE c bs).
Proof.
  intros Hc Hbs. unfold crc32_be. destruct crc32init_be_ok as (tab & -> & Hg). cbn [obind]. unfold crc32_be_generic.
  assert (bits 32 CRCPOLY_BE) as Hp by done. revert Hp Hg. generalize CRCPOLY_BE as p. intros p Hp Hg.
  rewrite (crc32_body_ok (be_byte p) _ (BS := be_ByteStep p tab Hp Hg)) by (done || by apply to_be_bits). cbn [obind].
  destruct (be_feed mem a p c bs Hp Hc Hbs) as [-> Hb]. rewrite to_cpu_eq, to_be_be by (done || by apply to_be_bits). done.
Qed.
End BigEndianFacts.

(** * The message as a number *)

(** ** Messages *)

Fixpoint le_value (bs : list Z) : Z :=
  match bs with [] => 0 | b :: bs => b ⊕ (le_value bs << 8) end.

Definition bytes (bs : list Z) : Prop := Forall (bits 8) bs.

Lemma bytes_at_bytes mem a bs : bytes_at mem a bs -> bytes bs.
Proof.
  revert a. induction bs as [|b bs IH]; intros a; [constructor|]. intros (_ & Hb & Hr). constructor; [done|]. by eapply IH.
Qed.

Lemma lsb_crc_value p c bs :
  lsb_crc p c bs = Nat.iter (8 * length bs) (lsb_step p) (c ⊕ le_value bs).
Proof.
  revert c. induction bs as [|b bs IH]; intros c; cbn [le_value length].
  - cbn. by rewrite Z.lxor_0_r.
  - change (lsb_crc p c (b :: bs)) with (lsb_crc p (Nat.iter 8 (lsb_step p) (c ⊕ b)) bs). rewrite IH. replace (8 * S (length bs))%nat with (8 * length bs + 8)%nat by lia.
    rewrite iter_plus, <- Z.lxor_assoc. f_equal. rewrite (linear_iter _ 8 (lsb_linear p) (c ⊕ b)). f_equal.
    symmetry. apply (lsb_iter_shift p 8).
Qed.

Lemma lsb_crc_app p c xs ys : lsb_crc p c (xs ++ ys) = lsb_crc p (lsb_crc p c xs) ys.
Proof. apply foldl_app. Qed.

Lemma lsb_crc_bits p c bs : bits 32 p -> bits 32 c -> bytes bs -> bits 32 (lsb_crc p c bs).
Proof.
  intros Hp Hc Hbs. revert c Hc. induction Hbs as [|b bs Hb _ IH]; intros c Hc; [done|].
  apply IH. apply lsb_byte_bits; [done|]. apply lxor_bits; [lia|done|]. by apply (bits_le 8).
Qed.

(** The checksums of two parts combine. *)
Lemma lsb_crc_combine p c xs ys :
  lsb_crc p c (xs ++ ys) = Nat.iter (8 * length ys) (lsb_step p) (lsb_crc p c xs) ⊕ lsb_crc p 0 ys.
Proof.
  rewrite lsb_crc_app, !(lsb_crc_value p _ ys), Z.lxor_0_l. by rewrite (linear_iter _ _ (lsb_linear p)).
Qed.

(** The bit [i] of a message, in the order in which the bits are sent. *)
Definition message_bit (bs : list Z) (i : nat) : bool :=
  Z.testbit (default 0 (bs !! (i / 8)%nat)) (Z.of_nat (i mod 8)).

Lemma le_value_testbit bs i : bytes bs -> Z.testbit (le_value bs) (Z.of_nat i) = message_bit bs i.
Proof.
  intros Hbs. revert i. induction Hbs as [|b bs Hb _ IH]; intros i; cbn [le_value].
  - unfold message_bit. by rewrite !Z.bits_0.
  - rewrite Z.lxor_spec, Z.shiftl_spec by lia. unfold message_bit. destruct (decide (i < 8)%nat).
    + rewrite Nat.div_small, Nat.mod_small, (Z.testbit_neg_r _ (Z.of_nat i - 8)), xorb_false_r by lia. done.
    + rewrite (bits_testbit 8 b), xorb_false_l by (done || lia).
      replace (Z.of_nat i - 8) with (Z.of_nat (i - 8)) by lia. rewrite IH. unfold message_bit.
      replace i with (i - 8 + 1 * 8)%nat at 3 4 by lia. rewrite Nat.div_add, Nat.Div0.mod_add, Nat.add_1_r by lia. done.
Qed.

Lemma message_bit_end bs i : (8 * length bs <= i)%nat -> message_bit bs i = false.
Proof.
  intros. unfold message_bit. rewrite lookup_ge_None_2; [apply Z.bits_0|]. apply Nat.div_le_lower_bound; lia.
Qed.

Lemma le_value_nonneg bs : bytes bs -> 0 <= le_value bs.
Proof.
  induction 1 as [|b bs [Hb _] _ IH]; cbn [le_value]; [done|]. apply Z.lxor_nonneg.
  pose proof (proj2 (Z.shiftl_nonneg (le_value bs) 8) IH). lia.
Qed.

Lemma le_value_inj xs ys : bytes xs -> bytes ys -> length xs = length ys -> le_value xs = le_value ys -> xs = ys.
Proof.
  intros Hx. revert ys. induction Hx as [|x xs Hx _ IH]; intros ys Hys Hl E; [by destruct ys|].
  destruct Hys as [|y ys Hy Hys]; [done|]. cbn [le_value] in E.
  assert (forall b v, bits 8 b -> (b ⊕ (v << 8)) & Z.ones 8 = b /\ (b ⊕ (v << 8)) >> 8 = v) as Hs.
  { intros b v Hb. rewrite <- add_lxor, Z.land_ones, Z.shiftr_div_pow2, Z.shiftl_mul_pow2 by (done || lia).
    rewrite Z.mod_add, Z.div_add, Z.mod_small, Z.div_small by (done || lia). done. }
  destruct (Hs x (le_value xs) Hx) as [Ex Ev]. destruct (Hs y (le_value ys) Hy) as [Ey Ev']. rewrite E in Ex, Ev.
  f_equal; [congruence|]. apply IH; [done|by injection Hl|congruence].
Qed.

(** A value none of whose bits is set below [k] and from [k + 32] on. *)
Lemma window v k : 0 <= v -> (forall i, (i < k \/ k + 32 <= i)%nat -> Z.testbit v (Z.of_nat i) = false) ->
  v = (v >> Z.of_nat k) << Z.of_nat k /\ bits 32 (v >> Z.of_nat k).
Proof.
  intros Hv Hb. split.
  - apply Z.bits_inj'. intros n Hn. rewrite Z.shiftl_spec by done. destruct (decide (n < Z.of_nat k)).
    + rewrite (Z.testbit_neg_r _ (n - _)) by lia. rewrite <- (Z2Nat.id n) by done. apply Hb. lia.
    + rewrite Z.shiftr_spec by lia. by rewrite Z.sub_add.
  - apply bits_intro; [lia|by apply Z.shiftr_nonneg|]. intros n Hn. rewrite Z.shiftr_spec by lia.
    replace (n + Z.of_nat k) with (Z.of_nat (Z.to_nat n + k)) by lia. apply Hb. lia.
Qed.

Lemma lxor_eq_0 a b : a ⊕ b = 0 -> a = b.
Proof. apply Z.lxor_eq. Qed.

(** Different messages whose differences all lie within 32 bits in a row have
    different checksums. *)
Lemma burst p c xs ys k :
  bits 32 p -> Z.testbit p 31 = true -> bytes xs -> bytes ys -> length xs = length ys ->
  (forall i, (i < k \/ k + 32 <= i)%nat -> message_bit xs i = message_bit ys i) ->
  lsb_crc p c xs = lsb_crc p c ys -> le_value xs = le_value ys.
Proof.
  intros Hp Ht Hx Hy Hl Hout E. apply lxor_eq_0. set (v := le_value xs ⊕ le_value ys).
  destruct (window v k) as [Hv Hd].
  { apply Z.lxor_nonneg. pose proof (le_value_nonneg xs Hx). pose proof (le_value_nonneg ys Hy). lia. }
  { intros i Hi. unfold v. rewrite Z.lxor_spec, !le_value_testbit, Hout by done. apply xorb_nilpotent. }
  assert (Nat.iter (8 * length xs) (lsb_step p) v = 0) as H0.
  { rewrite !lsb_crc_value, <- Hl in E. unfold v. rewrite (linear_iter _ _ (lsb_linear p)).
    rewrite !(linear_iter _ _ (lsb_linear p)) in E. apply (f_equal (Z.lxor (Nat.iter (8 * length xs) (lsb_step p) c))) in E.
    rewrite <- !Z.lxor_assoc, Z.lxor_nilpotent, !Z.lxor_0_l in E. rewrite E. apply Z.lxor_nilpotent. }
  assert (v >> Z.of_nat k = 0) as Hd0; [|by rewrite Hv, Hd0, Z.shiftl_0_l].
  destruct (decide (k <= 8 * length xs)%nat).
  - apply (lsb_iter_kernel 32 p (8 * length xs - k)); [lia|done..|].
    rewrite (iter_split (8 * length xs - k) k (8 * length xs)) in H0 by lia. by rewrite Hv, lsb_iter_shift in H0.
  - apply Z.bits_inj'. intros j Hj. rewrite Z.shiftr_spec, Z.bits_0 by done. unfold v.
    replace (j + Z.of_nat k) with (Z.of_nat (Z.to_nat j + k)) by lia.
    by rewrite Z.lxor_spec, !le_value_testbit, !message_bit_end by (done || lia).
Qed.

(** ** Appending zero bytes *)

Lemma lsb_start p : bits 32 p -> Nat.iter 32 (lsb_step p) (2 ^ 31) = p.
Proof.
  intros Hp. rewrite iter_S. change (2 ^ 31) with (1 << Z.of_nat 31). rewrite lsb_iter_shift, lsb_step_eq.
  change (1 >> 1) with 0. change (Z.testbit 1 0) with true. by rewrite Z.lxor_0_l.
Qed.

Lemma take_bit x i : 0 <= i -> x & Z.ones (i + 1) = (x & Z.ones i) ⊕ pick (Z.testbit x i) (2 ^ i).
Proof.
  intros Hi. apply Z.bits_inj'. intros n Hn. rewrite Z.lxor_spec, !Z.land_spec.
  assert (Z.testbit (pick (Z.testbit x i) (2 ^ i)) n = (n =? i) && Z.testbit x i) as ->.
  { destruct (Z.testbit x i); cbn [pick]; [|by rewrite Z.bits_0, andb_false_r]. rewrite andb_true_r.
    destruct (Z.eqb_spec n i) as [->|]; [by apply Z.pow2_bits_true|by apply Z.pow2_bits_false; lia]. }
  destruct (Z.eqb_spec n i) as [->|].
  - rewrite Z.ones_spec_low, Z.ones_spec_high by lia. by destruct (Z.testbit x i).
  - destruct (decide (n < i)); [rewrite !Z.ones_spec_low by lia|rewrite !Z.ones_spec_high by lia];
    by destruct (Z.testbit x n).
Qed.

(** After [i] rounds the product has the lowest [i + 1] bits of [x]. *)
Lemma gf2_rounds p n x i : (i <= 31)%nat ->
  Nat.iter i (gf2_step (Nat.iter n (lsb_step p) (2 ^ 31)) p)
    (if x & 1 =? 0 then 0 else Nat.iter n (lsb_step p) (2 ^ 31), x) =
  (Nat.iter n (lsb_step p) ((x & Z.ones (Z.of_nat i + 1)) << (31 - Z.of_nat i)), x >> Z.of_nat i).
Proof.
  assert (forall b, pick b (Nat.iter n (lsb_step p) (2 ^ 31)) = Nat.iter n (lsb_step p) (pick b (2 ^ 31))) as Hpick.
  { intros []; cbn [pick]; [done|]. by rewrite (linear_0 (Nat.iter n (lsb_step p))) by apply linear_iter, lsb_linear. }
  induction i as [|i IH]; intros Hi.
  - rewrite choose_pick, Hpick. cbn [Nat.iter nat_rect]. rewrite Z.shiftr_0_r. do 2 f_equal.
    change (Z.ones (Z.of_nat 0 + 1)) with 1. rewrite land_1. by destruct (Z.testbit x 0).
  - rewrite iter_S, IH by lia. unfold gf2_step. rewrite choose_pick, Z.shiftr_shiftr, Z.shiftr_spec by lia.
    replace (Z.of_nat i + 1) with (Z.of_nat (S i)) by lia. rewrite Z.add_0_l. f_equal.
    rewrite <- iter_swap, Hpick, <- (linear_iter _ _ (lsb_linear p)). f_equal.
    rewrite take_bit, shiftl_lxor by lia. f_equal.
    + replace (31 - Z.of_nat i) with (31 - Z.of_nat (S i) + 1) by lia.
      rewrite <- Z.shiftl_shiftl by lia. apply lsb_shift.
    + destruct (Z.testbit x _); cbn [pick]; [|by rewrite Z.shiftl_0_l].
      rewrite Z.shiftl_mul_pow2, <- Z.pow_add_r by lia. f_equal. lia.
Qed.

(** Multiplication by the [n]-th power steps [n] times. *)
Lemma gf2_multiply_ok p n x : bits 32 x ->
  gf2_multiply x (Nat.iter n (lsb_step p) (2 ^ 31)) p = Nat.iter n (lsb_step p) x.
Proof.
  intros Hx. unfold gf2_multiply. rewrite gf2_rounds by done. cbn [fst]. f_equal.
  change (Z.of_nat 31 + 1) with 32. rewrite Z.land_ones, Z.mod_small by (done || lia). apply Z.shiftl_0_r.
Qed.

Lemma shift_loop_ok p fuel n l c : bits 32 p -> bits 32 c -> (0 < l)%nat -> Z.of_nat l < 2 ^ Z.of_nat fuel ->
  shift_loop fuel p c (Nat.iter n (lsb_step p) (2 ^ 31)) (Z.of_nat l) = Ok (Nat.iter (n * l) (lsb_step p) c).
Proof.
  intros Hp. revert n l c. induction fuel as [|fuel IH]; intros n l c Hc Hl Hf; [cbn in Hf; lia|]. cbn [shift_loop].
  assert (forall m y, bits 32 y -> bits 32 (Nat.iter m (lsb_step p) y)) as Hb.
  { intros. apply (iter_pres (bits 32)); [|done]. intros. by apply lsb_bits. }
  assert (bits 32 (2 ^ 31)) by done.
  rewrite !gf2_multiply_ok by auto. rewrite land_1, Z.bit0_odd, Z.shiftr_div_pow2 by lia. change (2 ^ 1) with (Z.of_nat 2).
  rewrite <- Nat2Z.inj_div. pose proof (Nat.div_mod_eq l 2) as E. set (h := (l / 2)%nat) in *.
  assert (exists b, (l mod 2 = Nat.b2n b)%nat /\ Z.odd (Z.of_nat l) = b) as (b & Eb & ->).
  { exists (Z.odd (Z.of_nat l)). split; [|done]. pose proof (Zmod_odd (Z.of_nat l)) as Ho.
    change 2 with (Z.of_nat 2) in Ho. rewrite <- Nat2Z.inj_mod in Ho. destruct (Z.odd _); cbn [Nat.b2n]; lia. }
  replace (if (if b then 1 else 0) =? 0 then c else Nat.iter n (lsb_step p) c) with (Nat.iter (n * Nat.b2n b) (lsb_step p) c).
  2: { destruct b; cbn [Nat.b2n]; [by rewrite Nat.mul_1_r|by rewrite Nat.mul_0_r]. }
  destruct (Z.eqb_spec (Z.of_nat h) 0).
  - do 2 f_equal. assert (h = 0)%nat as -> by lia. rewrite E, Eb. cbn. lia.
  - rewrite <- iter_plus, IH; [|auto|lia|].
    + rewrite <- iter_plus. do 2 f_equal. rewrite E, Eb. lia.
    + rewrite Nat2Z.inj_succ, Z.pow_succ_r in Hf by lia. lia.
Qed.

Lemma crc32_generic_shift_ok p c n : bits 32 p -> bits 32 c -> Z.of_nat n <= U64_MAX ->
  crc32_generic_shift c (Z.of_nat n) p = Ok (Nat.iter (8 * n) (lsb_step p) c).
Proof.
  intros Hp Hc Hn. unfold crc32_generic_shift. change 3 with (Z.ones 2). rewrite Z.land_ones, Z.shiftr_div_pow2 by lia.
  change (2 ^ 2) with (Z.of_nat 4). rewrite <- Nat2Z.inj_div, <- Nat2Z.inj_mod.
  pose proof (Nat.div_mod_eq n 4) as E. set (q := (n / 4)%nat) in *. set (r := (n mod 4)%nat) in *.
  replace (Z.to_nat (8 * Z.of_nat r)) with (8 * r)%nat by lia. destruct (Z.eqb_spec (Z.of_nat q) 0).
  - do 2 f_equal. lia.
  - rewrite <- (lsb_start p Hp) at 3. rewrite shift_loop_ok; [|done| |lia|].
    + rewrite <- iter_plus. do 2 f_equal. lia.
    + apply (iter_pres (bits 32)); [|done]. intros. by apply lsb_bits.
    + change (2 ^ Z.of_nat 62) with 4611686018427387904. unfold U64_MAX in Hn. lia.
Qed.
