(* ===== verification/CrcProps.v ===== *)
(** * Checksums: the properties *)

From stdpp Require Import base gmap list.
From S2P Require Import Prelude Crc CrcBody CrcTables CrcValue.
#[local] Open Scope crc_scope.

(** ** Reversal of bits *)

Fixpoint reverse (n : nat) (x : Z) : Z :=
  match n with O => 0 | S n => pick (Z.testbit x 0) (2 ^ Z.of_nat n) ⊕ reverse n (x >> 1) end.

Lemma reverse_testbit n x i : 0 <= i ->
  Z.testbit (reverse n x) i = (i <? Z.of_nat n) && Z.testbit x (Z.of_nat n - 1 - i).
Proof.
  intros Hi. revert x. induction n as [|n IH]; intros x.
  { cbn [reverse]. rewrite Z.bits_0. destruct (Z.ltb_spec i (Z.of_nat 0)); [lia|done]. }
  cbn [reverse]. rewrite Z.lxor_spec, IH.
  assert (Z.testbit (pick (Z.testbit x 0) (2 ^ Z.of_nat n)) i = (i =? Z.of_nat n) && Z.testbit x 0) as ->.
  { destruct (Z.testbit x 0); cbn [pick]; [|by rewrite Z.bits_0, andb_false_r]. rewrite andb_true_r.
    destruct (Z.eqb_spec i (Z.of_nat n)) as [->|]; [apply Z.pow2_bits_true; lia|by apply Z.pow2_bits_false; lia]. }
  destruct (Z.eqb_spec i (Z.of_nat n)), (Z.ltb_spec i (Z.of_nat n)), (Z.ltb_spec i (Z.of_nat (S n)));
  try lia; cbn [andb]; rewrite ?xorb_false_l, ?xorb_false_r; try done.
  - f_equal. lia.
  - rewrite Z.shiftr_spec by lia. f_equal. lia.
Qed.

Lemma reverse_bits n x : bits (Z.of_nat n) (reverse n x).
Proof.
  apply bits_intro; [lia| |].
  - revert x. induction n as [|n IH]; intros x; [done|]. cbn [reverse]. apply Z.lxor_nonneg.
    specialize (IH (x >> 1)). assert (0 <= pick (Z.testbit x 0) (2 ^ Z.of_nat n)); [|lia].
    destruct (Z.testbit x 0); [apply Z.pow_nonneg; lia|done].
  - intros i Hi. rewrite reverse_testbit by lia. destruct (Z.ltb_spec i (Z.of_nat n)); [lia|done].
Qed.

Lemma reverse_linear n : linear (reverse n).
Proof.
  intros a b. apply Z.bits_inj'. intros i Hi. rewrite Z.lxor_spec, !reverse_testbit, Z.lxor_spec by done.
  by destruct (_ <? _).
Qed.

Lemma reverse_join m n x :
  (reverse m (x & Z.ones (Z.of_nat m)) << Z.of_nat n) ∣∣ reverse n (x >> Z.of_nat m) = reverse (m + n) x.
Proof.
  apply Z.bits_inj'. intros i Hi. rewrite Z.lor_spec, Z.shiftl_spec, (reverse_testbit n), (reverse_testbit (m + n)) by done.
  destruct (decide (i < Z.of_nat n)).
  - rewrite (Z.testbit_neg_r _ (i - _)) by lia. destruct (Z.ltb_spec i (Z.of_nat n)), (Z.ltb_spec i (Z.of_nat (m + n))); try lia.
    cbn [orb andb]. rewrite Z.shiftr_spec by lia. f_equal. lia.
  - rewrite reverse_testbit by lia. destruct (Z.ltb_spec i (Z.of_nat n)); [lia|]. cbn [andb]. rewrite orb_false_r.
    destruct (Z.ltb_spec (i - Z.of_nat n) (Z.of_nat m)), (Z.ltb_spec i (Z.of_nat (m + n))); try lia; try done.
    cbn [andb]. rewrite Z.land_spec, Z.ones_spec_low, andb_true_r by lia. f_equal. lia.
Qed.

(** A literal table is a function of the index. *)
Lemma get_table f t i : t = map f (seqZ 0 256) -> bits 8 i -> get t i = Ok (f i).
Proof.
  intros -> [Hi Hi']. change (2 ^ 8) with 256 in Hi'. unfold get. rewrite list_lookup_fmap, lookup_seqZ_lt by lia.
  cbn. do 2 f_equal. lia.
Qed.

Lemma byte_rev_table_eq : byte_rev_table = map (reverse 8) (seqZ 0 256).
Proof. vm_compute. reflexivity. Qed.

Lemma bitrev8_ok b : bits 8 b -> bitrev8 b = Ok (reverse 8 b).
Proof. apply get_table, byte_rev_table_eq. Qed.

Lemma bitrev16_ok x : bits 16 x -> bitrev16 x = Ok (reverse 16 x).
Proof.
  intros Hx. unfold bitrev16. rewrite (bitrev8_ok (x & 0xff)) by (by apply (land_bits 8)). cbn [obind].
  rewrite bitrev8_ok by (by apply (shiftr_bits 16 8)). cbn [obind]. f_equal. apply (reverse_join 8 8).
Qed.

Lemma bitrev32_ok x : bits 32 x -> bitrev32 x = Ok (reverse 32 x).
Proof.
  intros Hx. unfold bitrev32. rewrite (bitrev16_ok (x & 0xffff)) by (by apply (land_bits 16)). cbn [obind].
  rewrite bitrev16_ok by (by apply (shiftr_bits 32 16)). cbn [obind]. f_equal. apply (reverse_join 16 16).
Qed.

(** The steps of the two orders are the same step on reversed bits. *)
Lemma reverse_step p c : bits 32 p -> bits 32 c ->
  reverse 32 (lsb_step p c) = msb_step 32 (reverse 32 p) (reverse 32 c).
Proof.
  intros Hp Hc. rewrite lsb_step_eq, msb_step_eq, reverse_linear by done. f_equal.
  - apply Z.bits_inj'. intros i Hi. rewrite Z.land_spec, Z.shiftl_spec, reverse_testbit by done.
    destruct (Z.ltb_spec i (Z.of_nat 32)); [rewrite Z.ones_spec_low, andb_true_r by lia|by rewrite Z.ones_spec_high, andb_false_r by lia].
    cbn [andb]. rewrite Z.shiftr_spec by lia. destruct (decide (i = 0)) as [->|].
    + rewrite (Z.testbit_neg_r _ (0 - 1)) by lia. by apply (bits_testbit 32).
    + rewrite reverse_testbit by lia. destruct (Z.ltb_spec (i - 1) (Z.of_nat 32)); [|lia]. cbn [andb]. f_equal. lia.
  - rewrite reverse_testbit by lia. change (Z.testbit c _) with (Z.testbit c 0) at 2.
    change ((32 - 1 <? Z.of_nat 32)) with true. cbn [andb].
    destruct (Z.testbit c 0); [done|]. cbn [pick]. apply (linear_0 _ (reverse_linear 32)).
Qed.

Lemma reverse_byte b : bits 8 b -> reverse 32 b = reverse 8 b << 24.
Proof.
  intros Hb. apply Z.bits_inj'. intros i Hi. rewrite Z.shiftl_spec, reverse_testbit by done. destruct (decide (i < 24)).
  - rewrite (Z.testbit_neg_r _ (i - 24)), (bits_testbit 8 b), andb_false_r by (done || lia). done.
  - rewrite reverse_testbit by lia. destruct (Z.ltb_spec i (Z.of_nat 32)), (Z.ltb_spec (i - 24) (Z.of_nat 8)); try lia; try done.
    cbn [andb]. f_equal. lia.
Qed.

Lemma reverse_crc p c bs : bits 32 p -> bits 32 c -> bytes bs ->
  reverse 32 (lsb_crc p c bs) = msb_crc 32 (reverse 32 p) (reverse 32 c) (map (reverse 8) bs).
Proof.
  intros Hp Hc Hbs. revert c Hc. induction Hbs as [|b bs Hb _ IH]; intros c Hc; [done|].
  change (lsb_crc p c (b :: bs)) with (lsb_crc p (lsb_byte p (c ⊕ b)) bs).
  assert (bits 32 (c ⊕ b)) as Hcb by (apply lxor_bits; [lia|done|]; by apply (bits_le 8)).
  rewrite IH by (by apply lsb_byte_bits). cbn [map msb_crc foldl]. change (32 - 8) with 24.
  rewrite <- (reverse_byte b), <- (reverse_linear 32 c b) by done. f_equal.
  assert (forall n y, bits 32 y -> bits 32 (Nat.iter n (lsb_step p) y) /\
    reverse 32 (Nat.iter n (lsb_step p) y) = Nat.iter n (msb_step 32 (reverse 32 p)) (reverse 32 y)) as Hn.
  { intros n y Hy. induction n as [|n [IHb IHn]]; [done|]. rewrite !iter_S, <- IHn. split; [by apply lsb_bits|]. by apply reverse_step. }
  by apply (Hn 8%nat).
Qed.

(** ** The shorter checksums *)

Lemma crc_loop_ok w (byte : Z -> Z -> outcome Z) f mem c a bs :
  (forall c b, bits w c -> bits 8 b -> byte c b = Ok (f c b) /\ bits w (f c b)) ->
  bits w c -> bytes_at mem a bs -> crc_loop byte (Z.to_nat (Z.of_nat (length bs))) mem c a = Ok (foldl f c bs).
Proof.
  intros Hbyte. rewrite Nat2Z.id. revert c a. induction bs as [|b bs IH]; intros c a Hc; [done|]. intros (H & Hb & Hr).
  cbn [length crc_loop foldl]. rewrite (load8_ok _ _ _ H). cbn [obind]. destruct (Hbyte c b Hc Hb) as [-> Hf]. by apply IH.
Qed.

Lemma byte_high b : bits 8 b -> b >> 8 = 0.
Proof. intros Hb. rewrite Z.shiftr_div_pow2 by done. apply Z.div_small, Hb. Qed.

(** The step of [crc16_byte] and [crc_ccitt_byte]. *)
Lemma lsb16_byte t p c b : bits 16 p -> t = map (lsb_byte p) (seqZ 0 256) -> bits 16 c -> bits 8 b ->
  (let! v := get t ((c ⊕ b) & 0xff) in Ok ((c >> 8) ⊕ v)) = Ok (lsb_byte p (c ⊕ b)) /\ bits 16 (lsb_byte p (c ⊕ b)).
Proof.
  intros Hp Ht Hc Hb. rewrite (get_table _ _ _ Ht) by (by apply (land_bits 8)). cbn [obind]. split.
  - rewrite (lsb_byte_split p (c ⊕ b)), shiftr_lxor, (byte_high b), Z.lxor_0_r, Z.lxor_comm by done. done.
  - apply (iter_pres (bits 16) 8); [intros; by apply lsb_bits|]. apply lxor_bits; [lia|done|]. by apply (bits_le 8).
Qed.

Lemma mod_lxor a b w : 0 <= w -> (a ⊕ b) mod 2 ^ w = (a mod 2 ^ w) ⊕ (b mod 2 ^ w).
Proof. intros. rewrite <- !Z.land_ones by done. apply land_lxor. Qed.

Lemma msb16_byte c b : bits 16 c -> bits 8 b ->
  crc_itu_t_byte c b = Ok (msb_byte 16 0x1021 (c ⊕ (b << 8))) /\ bits 16 (msb_byte 16 0x1021 (c ⊕ (b << 8))).
Proof.
  intros Hc Hb. assert (crc_itu_t_table = map (msb_entry 16 0x1021) (seqZ 0 256)) as Ht by (vm_compute; reflexivity).
  revert Ht. assert (bits 16 0x1021) as Hp by done. unfold crc_itu_t_byte. revert Hp. generalize 0x1021 as p. intros p Hp Ht.
  assert (bits 8 (c >> 8 ⊕ b)) as Hi by (apply lxor_bits; [lia|by apply (shiftr_bits 16 8)|done]).
  assert ((c >> 8 ⊕ b) & 0xff = c >> 8 ⊕ b) as E.
  { change 0xff with (Z.ones 8). rewrite Z.land_ones by lia. by apply Z.mod_small. }
  assert (bits 16 (b << 8)) as Hb' by (by apply (shiftl_bits 8 8)).
  assert (bits 16 (c ⊕ (b << 8))) as Hcb by (by apply lxor_bits).
  rewrite E, (get_table _ _ _ Ht) by done. cbn [obind]. split.
  - rewrite (msb_byte_split 16 p) by (done || lia). rewrite shiftr_lxor, Z.shiftr_shiftl_l by lia. change (8 - (16 - 8)) with 0.
    rewrite Z.shiftl_0_r, shiftl_lxor, !mod_lxor, Z.shiftl_shiftl by lia. f_equal.
    assert ((b << (8 + 8)) mod 2 ^ 16 = 0) as -> by (rewrite Z.shiftl_mul_pow2 by lia; by apply Z.mod_mul).
    rewrite Z.lxor_0_r, Z.lxor_comm. f_equal. apply Z.mod_small. apply (iter_pres (bits 16) 8); [intros; by apply msb_bits|].
    by apply (shiftl_bits 8 8).
  - apply (iter_pres (bits 16) 8); [intros; by apply msb_bits|done].
Qed.

Lemma msb_entry_8 p i : msb_entry 8 p i = msb_byte 8 p i.
Proof. unfold msb_entry. by rewrite Z.shiftl_0_r. Qed.

(** The step of [crc7_be_byte] and [crc8]. *)
Lemma byte_table t f c b : (forall i, bits 8 i -> get t i = Ok (f i) /\ bits 8 (f i)) -> bits 8 c -> bits 8 b ->
  get t (c ⊕ b) = Ok (f (c ⊕ b)) /\ bits 8 (f (c ⊕ b)).
Proof. intros Hf Hc Hb. apply Hf. by apply lxor_bits. Qed.

Lemma crc8_ok t f mem c a bs : (forall i, bits 8 i -> get t i = Ok (f i) /\ bits 8 (f i)) -> bits 8 c -> bytes_at mem a bs ->
  crc8 t mem a (Z.of_nat (length bs)) c = Ok (foldl (fun c b => f (c ⊕ b)) c bs).
Proof.
  intros Hf Hc Hbs. unfold crc8. apply (crc_loop_ok 8); [|done..]. intros x b Hx Hb.
  change 0xff with (Z.ones 8). rewrite Z.land_ones, Z.mod_small by (lia || by apply lxor_bits). by apply byte_table.
Qed.

Lemma msb_crc_8 p c bs : msb_crc 8 p c bs = foldl (fun c b => msb_byte 8 p (c ⊕ b)) c bs.
Proof.
  revert c. induction bs as [|b bs IH]; intros c; [done|]. cbn [msb_crc foldl]. rewrite Z.shiftl_0_r. apply IH.
Qed.

Lemma msb_byte_bits8 p c : bits 8 p -> bits 8 c -> bits 8 (msb_byte 8 p c).
Proof. intros. apply (iter_pres (bits 8) 8); [intros; by apply msb_bits|done]. Qed.

Lemma lsb_byte_bits8 p c : bits 8 p -> bits 8 c -> bits 8 (lsb_byte p c).
Proof. intros. apply (iter_pres (bits 8) 8); [intros; by apply lsb_bits|done]. Qed.

Lemma crc8_msb_ok t p mem c a bs : length t = 256%nat -> bits 8 p -> bits 8 c -> bytes_at mem a bs ->
  exists t', crc8_populate_msb t p = Ok t' /\ crc8 t' mem a (Z.of_nat (length bs)) c = Ok (msb_crc 8 p c bs).
Proof.
  intros Hl Hp Hc Hbs. destruct (msb_fill_ok 8 p t) as (t' & E & _ & Hg); [lia|done|]. exists t'. split; [done|].
  rewrite msb_crc_8. apply crc8_ok; [|done..]. intros i Hi. split; [rewrite <- msb_entry_8; by apply Hg|by apply msb_byte_bits8].
Qed.

Lemma crc8_lsb_ok t p mem c a bs : length t = 256%nat -> bits 8 p -> bits 8 c -> bytes_at mem a bs ->
  exists t', crc8_populate_lsb t p = Ok t' /\ crc8 t' mem a (Z.of_nat (length bs)) c = Ok (lsb_crc p c bs).
Proof.
  intros Hl Hp Hc Hbs. destruct (lsb_fill_ok p t) as (t' & E & _ & Hg); [done|]. exists t'. split; [done|].
  apply (crc8_ok t' (lsb_byte p)); [|done..]. intros i Hi. split; [apply Hg; [done|apply Z.divide_1_l]|by apply lsb_byte_bits8].
Qed.

Lemma crc7_be_ok mem c a bs : bits 8 c -> bytes_at mem a bs ->
  crc7_be mem c a (Z.of_nat (length bs)) = Ok (msb_crc 8 (0x09 << 1) c bs).
Proof.
  intros Hc Hbs. rewrite msb_crc_8. apply (crc_loop_ok 8 _ (fun c b => msb_byte 8 (0x09 << 1) (c ⊕ b))); [|done..].
  intros x b Hx Hb. apply byte_table; [|done..]. intros i Hi. split; [|by apply msb_byte_bits8].
  apply get_table; [|done]. vm_compute. reflexivity.
Qed.

(** ** CRC-32 *)

Lemma crc32_le_eq mem c a bs : bits 32 c -> bytes_at mem a bs ->
  crc32_le mem c a (Z.of_nat (length bs)) = Ok (lsb_crc CRCPOLY_LE c bs).
Proof.
  intros Hc Hbs. unfold crc32_le, crc32init_le. assert (bits 32 CRCPOLY_LE) as Hp by done.
  destruct (crc32init_le_ok CRCPOLY_LE Hp) as (tab & E & _).
  rewrite E. cbn [obind]. exact (crc32_le_ok mem c a bs _ tab Hp E Hc Hbs).
Qed.

Lemma crc32c_le_eq mem c a bs : bits 32 c -> bytes_at mem a bs ->
  __crc32c_le mem c a (Z.of_nat (length bs)) = Ok (lsb_crc CRC32C_POLY_LE c bs).
Proof.
  intros Hc Hbs. unfold __crc32c_le, crc32cinit_le. assert (bits 32 CRC32C_POLY_LE) as Hp by done.
  destruct (crc32init_le_ok CRC32C_POLY_LE Hp) as (tab & E & _).
  rewrite E. cbn [obind]. exact (crc32_le_ok mem c a bs _ tab Hp E Hc Hbs).
Qed.

Lemma ether_crc_eq mem a bs : bytes_at mem a bs ->
  ether_crc mem (Z.of_nat (length bs)) a = Ok (msb_crc 32 CRCPOLY_BE U32_MAX (map (reverse 8) bs)).
Proof.
  intros Hbs. assert (bits 32 U32_MAX) by done. assert (bits 32 CRCPOLY_LE) by done. unfold ether_crc.
  rewrite crc32_le_eq by done. cbn [obind]. assert (bytes bs) by (by eapply bytes_at_bytes).
  rewrite bitrev32_ok by (by apply lsb_crc_bits). rewrite reverse_crc by done.
  assert (reverse 32 CRCPOLY_LE = CRCPOLY_BE) as -> by (vm_compute; reflexivity).
  by assert (reverse 32 U32_MAX = U32_MAX) as -> by (vm_compute; reflexivity).
Qed.

(** What the combination of two checksums promises: from the checksums of two
    parts and the length of the second it makes the checksum of the whole, and
    where the second part is zero bytes shifting the first is enough. *)
Definition combines (crc : memory -> Z -> Z -> Z -> outcome Z) (shift : Z -> Z -> outcome Z)
    (combine : Z -> Z -> Z -> outcome Z) (mem : memory) (c p : Z) (xs ys : list Z) : Prop :=
  exists c1 c2 r,
    crc mem c p (Z.of_nat (length xs)) = Ok c1 /\
    crc mem 0 (p + Z.of_nat (length xs)) (Z.of_nat (length ys)) = Ok c2 /\
    crc mem c p (Z.of_nat (length (xs ++ ys))) = Ok r /\
    combine c1 c2 (Z.of_nat (length ys)) = Ok r /\
    (Forall (eq 0) ys -> shift c1 (Z.of_nat (length ys)) = Ok r).

Lemma zeros_value ys : Forall (eq 0) ys -> le_value ys = 0.
Proof. induction 1 as [|y ys <- _ IH]; [done|]. cbn [le_value]. by rewrite IH. Qed.

Lemma combines_ok crc shift combine poly mem c p xs ys :
  bits 32 poly ->
  (forall mem c a bs, bits 32 c -> bytes_at mem a bs -> crc mem c a (Z.of_nat (length bs)) = Ok (lsb_crc poly c bs)) ->
  (forall c n, shift c n = crc32_generic_shift c n poly) ->
  (forall c1 c2 n, combine c1 c2 n = let! crc := shift c1 n in Ok (crc ⊕ c2)) ->
  bits 32 c -> bytes_at mem p (xs ++ ys) -> Z.of_nat (length ys) <= U64_MAX ->
  combines crc shift combine mem c p xs ys.
Proof.
  intros Hp Hcrc Hshift Hcomb Hc Hbs Hn. pose proof Hbs as [Hx Hy]%bytes_at_app.
  assert (bits 32 (lsb_crc poly c xs)) by (apply lsb_crc_bits; [done..|by eapply bytes_at_bytes]).
  exists (lsb_crc poly c xs), (lsb_crc poly 0 ys), (lsb_crc poly c (xs ++ ys)).
  rewrite !Hcrc by done. split; [done|]. split; [done|]. split; [done|].
  rewrite Hcomb, !Hshift, crc32_generic_shift_ok by done. cbn [obind]. rewrite lsb_crc_combine. split; [done|].
  intros Hz. rewrite (lsb_crc_value poly 0), zeros_value by done.
  by rewrite Z.lxor_0_l, (linear_0 (Nat.iter _ _)), Z.lxor_0_r by apply linear_iter, lsb_linear.
Qed.

Lemma bursts_ok poly c xs ys k :
  bits 32 poly -> Z.testbit poly 31 = true -> bytes xs -> bytes ys -> length xs = length ys -> xs <> ys ->
  (forall i, (i < k \/ k + 32 <= i)%nat -> message_bit xs i = message_bit ys i) ->
  lsb_crc poly c xs <> lsb_crc poly c ys.
Proof.
  intros Hp Ht Hx Hy Hl Hne Hout E. apply Hne. apply le_value_inj; [done..|]. by apply (burst poly c xs ys k).
Qed.

(** ** An example

    A memory that holds the digits 1 to 9 from address 8 on, and the
    conversion of a little-endian machine. *)
Definition digits : list Z := [0x31; 0x32; 0x33; 0x34; 0x35; 0x36; 0x37; 0x38; 0x39].
Definition digits_mem : memory := list_to_map (zip (seqZ 8 9) digits).
Definition swab (x : Z) : Z := word ((x >> 24) & 255) ((x >> 16) & 255) ((x >> 8) & 255) (x & 255).

Lemma digits_at : bytes_at digits_mem 8 digits.
Proof. repeat split; done. Qed.

Lemma swab_linear : linear swab.
Proof. intros a b. unfold swab. by rewrite !shiftr_lxor, !land_lxor, word_lxor. Qed.

Lemma swab_byte b : bits 8 b ->
  swab b = b << 24 /\ swab (b << 8) = b << 16 /\ swab (b << 16) = b << 8 /\ swab (b << 24) = b.
Proof.
  intros [H0 H1]. assert (Forall (fun b => swab b = b << 24 /\ swab (b << 8) = b << 16 /\ swab (b << 16) = b << 8 /\ swab (b << 24) = b)
    (seqZ 0 256)) as Hall by (apply (bool_decide_unpack _); vm_compute; exact I).
  rewrite Forall_forall in Hall. apply Hall. apply elem_of_seqZ. change (2 ^ 8) with 256 in H1. lia.
Qed.

#[export] Instance swab_order : ByteOrder swab swab.
Proof.
  assert (forall b0 b1 b2 b3, bits 8 b0 -> bits 8 b1 -> bits 8 b2 -> bits 8 b3 ->
    swab (word b0 b1 b2 b3) = word b3 b2 b1 b0) as H; [|split; exact H].
  intros b0 b1 b2 b3 H0 H1 H2 H3. unfold word. rewrite !swab_linear.
  destruct (swab_byte b0 H0) as (-> & _). destruct (swab_byte b1 H1) as (_ & -> & _).
  destruct (swab_byte b2 H2) as (_ & _ & -> & _). destruct (swab_byte b3 H3) as (_ & _ & _ & ->).
  rewrite (Z.lxor_comm _ b3), (Z.lxor_comm _ (b2 << 8)), (Z.lxor_comm (b0 << 24)), !Z.lxor_assoc. done.
Qed.

(** ** The claims *)

(** C37. CRC-32 in both orders of bits and CRC-32C, computed eight bytes at a
    time with generated tables from a buffer at any address, are the
    checksums computed one bit at a time; only bytes of the buffer are read,
    and words at aligned addresses.  The hash of Ethernet addresses is the
    checksum with the most significant bit first of the bytes with their bits
    reversed. *)
Theorem crc32_equals_bitwise to_be to_cpu (BO : ByteOrder to_be to_cpu) mem c p bs :
  bits 32 c -> bytes_at mem p bs ->
  (crc32_le mem c p (Z.of_nat (length bs)) = Ok (lsb_crc CRCPOLY_LE c bs) /\
   crc32_le_bits (length bs) mem c p CRCPOLY_LE = Ok (lsb_crc CRCPOLY_LE c bs)) /\
  (__crc32c_le mem c p (Z.of_nat (length bs)) = Ok (lsb_crc CRC32C_POLY_LE c bs) /\
   crc32_le_bits (length bs) mem c p CRC32C_POLY_LE = Ok (lsb_crc CRC32C_POLY_LE c bs)) /\
  (crc32_be to_be to_cpu mem c p (Z.of_nat (length bs)) = Ok (msb_crc 32 CRCPOLY_BE c bs) /\
   crc32_be_bits (length bs) mem c p CRCPOLY_BE = Ok (msb_crc 32 CRCPOLY_BE c bs)) /\
  ether_crc mem (Z.of_nat (length bs)) p = Ok (msb_crc 32 CRCPOLY_BE U32_MAX (map (reverse 8) bs)).
Proof.
  intros Hc Hbs. split; [split; [by apply crc32_le_eq|by apply crc32_le_bits_ok]|].
  split; [split; [by apply crc32c_le_eq|by apply crc32_le_bits_ok]|].
  split; [split; [by apply crc32_be_ok|by apply crc32_be_bits_ok]|]. by apply ether_crc_eq.
Qed.

Lemma crc32_equals_bitwise_witness :
  crc32_le digits_mem U32_MAX 8 9 = Ok (Z.lxor 0xCBF43926 U32_MAX) /\
  crc32_be swab swab digits_mem U32_MAX 8 9 = Ok 0x0376E6E7.
Proof.
  destruct (crc32_equals_bitwise swab swab swab_order digits_mem U32_MAX 8 digits ltac:(done) digits_at)
    as ((E & _) & _ & (E' & _) & _).
  split; [etransitivity; [exact E|]|etransitivity; [exact E'|]]; vm_compute; reflexivity.
Defined.

(** C38. The checksum of a whole is made from the checksums of its two parts
    and the length of the second by [crc32_le_combine] and
    [__crc32c_le_combine], whatever the seed; the shifts by which they work
    append any number of zero bytes. *)
Theorem crc32_combine_correct mem c p xs ys :
  bits 32 c -> bytes_at mem p (xs ++ ys) -> Z.of_nat (length ys) <= U64_MAX ->
  combines crc32_le crc32_le_shift crc32_le_combine mem c p xs ys /\
  combines __crc32c_le __crc32c_le_shift __crc32c_le_combine mem c p xs ys.
Proof.
  intros Hc Hbs Hn. split.
  - apply (combines_ok _ _ _ CRCPOLY_LE); [done|exact crc32_le_eq|reflexivity|reflexivity|assumption..].
  - apply (combines_ok _ _ _ CRC32C_POLY_LE); [done|exact crc32c_le_eq|reflexivity|reflexivity|assumption..].
Qed.

Lemma crc32_combine_correct_witness :
  combines crc32_le crc32_le_shift crc32_le_combine digits_mem U32_MAX 8 (take 4 digits) (drop 4 digits).
Proof.
  refine (proj1 (crc32_combine_correct digits_mem U32_MAX 8 (take 4 digits) (drop 4 digits) _ _ _)).
  - done.
  - exact digits_at.
  - cbn. unfold U64_MAX. lia.
Defined.

(** C39. Two different messages of the same length whose differing bits all
    lie within 32 bits in a row never have the same CRC-32 or CRC-32C: no
    burst of errors of up to 32 bits goes unseen. *)
Theorem crc32_detects_bursts mem mem' c p p' xs ys k :
  bits 32 c -> bytes_at mem p xs -> bytes_at mem' p' ys -> length xs = length ys -> xs <> ys ->
  (forall i, (i < k \/ k + 32 <= i)%nat -> message_bit xs i = message_bit ys i) ->
  crc32_le mem c p (Z.of_nat (length xs)) <> crc32_le mem' c p' (Z.of_nat (length ys)) /\
  __crc32c_le mem c p (Z.of_nat (length xs)) <> __crc32c_le mem' c p' (Z.of_nat (length ys)).
Proof.
  intros Hc Hx Hy Hl Hne Hout. rewrite (crc32_le_eq mem c p xs Hc Hx), (crc32_le_eq mem' c p' ys Hc Hy).
  rewrite (crc32c_le_eq mem c p xs Hc Hx), (crc32c_le_eq mem' c p' ys Hc Hy).
  pose proof (bytes_at_bytes _ _ _ Hx). pose proof (bytes_at_bytes _ _ _ Hy).
  split; intros [= E]; revert E; by apply (bursts_ok _ c xs ys k).
Qed.

(** The digits with an error in four bits of the fourth. *)
Definition wrong_digits : list Z := <[3%nat := 0x3B]> digits.
Definition wrong_mem : memory := <[11 := 0x3B]> digits_mem.

Lemma crc32_detects_bursts_witness :
  crc32_le digits_mem 0 8 9 <> crc32_le wrong_mem 0 8 9.
Proof.
  refine (proj1 (crc32_detects_bursts digits_mem wrong_mem 0 8 8 digits wrong_digits 24 _ digits_at _ _ _ _)).
  - done.
  - repeat split; done.
  - done.
  - done.
  - intros i Hi. destruct (decide (i < 72)%nat) as [Hlt|]; [|by rewrite !message_bit_end by (cbn; lia)].
    assert (Forall (fun i => (i < 24 \/ 24 + 32 <= i)%nat -> message_bit digits i = message_bit wrong_digits i) (seq 0 72)) as Hall
      by (apply (bool_decide_unpack _); vm_compute; exact I).
    rewrite Forall_forall in Hall. apply Hall; [apply elem_of_seq; lia|done].
Defined.

(** C40. The shorter checksums with their literal tables are the checksums of
    the polynomials they name, one bit at a time: CRC-16 and CRC-CCITT with
    the least significant bit first, CRC-ITU-T and CRC-7 with the most
    significant bit first, CRC-8 for every polynomial in both orders with
    tables filled over anything. *)
Theorem short_crcs_correct mem p bs :
  bytes_at mem p bs ->
  (forall c, bits 16 c ->
     crc16 mem c p (Z.of_nat (length bs)) = Ok (lsb_crc (reverse 16 0x8005) c bs) /\
     crc_ccitt mem c p (Z.of_nat (length bs)) = Ok (lsb_crc (reverse 16 0x1021) c bs) /\
     crc_itu_t mem c p (Z.of_nat (length bs)) = Ok (msb_crc 16 0x1021 c bs)) /\
  (forall c, bits 8 c -> crc7_be mem c p (Z.of_nat (length bs)) = Ok (msb_crc 8 (0x09 << 1) c bs)) /\
  (forall c poly table, bits 8 c -> bits 8 poly -> length table = Z.to_nat CRC8_TABLE_SIZE ->
     (exists t, crc8_populate_msb table poly = Ok t /\
        crc8 t mem p (Z.of_nat (length bs)) c = Ok (msb_crc 8 poly c bs)) /\
     (exists t, crc8_populate_lsb table poly = Ok t /\
        crc8 t mem p (Z.of_nat (length bs)) c = Ok (lsb_crc poly c bs))).
Proof.
  intros Hbs. split; [|split].
  - intros c Hc. split; [|split].
    + apply (crc_loop_ok 16 _ (fun c b => lsb_byte (reverse 16 0x8005) (c ⊕ b))); [|done..].
      intros. apply lsb16_byte; [done|vm_compute; reflexivity|done..].
    + apply (crc_loop_ok 16 _ (fun c b => lsb_byte (reverse 16 0x1021) (c ⊕ b))); [|done..].
      intros. apply lsb16_byte; [done|vm_compute; reflexivity|done..].
    + apply (crc_loop_ok 16 _ (fun c b => msb_byte 16 0x1021 (c ⊕ (b << 8)))); [|done..]. apply msb16_byte.
  - intros c Hc. by apply crc7_be_ok.
  - intros c poly table Hc Hp Ht. split; [by apply crc8_msb_ok|by apply crc8_lsb_ok].
Qed.

Lemma short_crcs_correct_witness : crc16 digits_mem 0 8 9 = Ok 0xBB3D.
Proof.
  destruct (short_crcs_correct digits_mem 8 digits digits_at) as (H & _).
  destruct (H 0 ltac:(done)) as (E & _). etransitivity; [exact E|]. vm_compute. reflexivity.
Defined.
